(* ===== verification/_CoqProject ===== *)
-Q . S2P
Prelude.v
Ct.v
TlsBase.v
Varint.v
Path.v
Datagram.v
Pn.v
Ack.v
BTree.v
ByteStream.v
CryptoBuf.v
Replay.v
Der.v
Codec.v
Handshake.v
Frame.v
RecvStream.v
SendStream.v
TransportParams.v
Streams.v
StreamsInv.v
StreamsOps.v
StreamsSpec.v
Version.v
Pkt.v
Cid.v
CidSpec.v
Congestion.v
Loss.v
LossSpec.v
Persist.v
Endpoint.v
Conn.v
RecoverySpec.v
DispatchSpec.v
Send.v
PayloadSpec.v
SendSpec.v
PathSpec.v
Uint.v
Mont.v
MdHash.v
Hmac.v
Sha2.v
MdFamily.v
Hashers.v
HashState.v
Kdf.v
Drbg.v
Vec.v
ChaCha.v
ChaChaSpec.v
Poly1305.v
PolySimd.v
PolyMac.v
ChaChaPoly.v
