(* ===== verification/Prelude.v ===== *)
(** * A verification development for purecrypto

    purecrypto is a cryptography library in Rust: constant-time primitives, big
    integers, ciphers, hashes, public-key schemes, DER and X.509, and on top of them
    TLS, DTLS and QUIC.  This development models the parts whose correctness is a
    property of the code itself (a codec, a data structure, a state machine, an
    arithmetic routine, a hash and its streaming) as executable functions and proves
    what they promise.

    ** The parts and how they interact

    The constant-time layer ([src/ct]) is used by everything that touches secrets; the
    big integers ([src/bignum]) are built on it.  The hashes ([src/hash]) implement one
    trait; HMAC is generic over it and has two fast paths that bypass the streaming
    interface, and the key derivation functions ([src/kdf]) and the HMAC generator
    ([src/rng]) are built on HMAC.  ChaCha20 and Poly1305 ([src/cipher]) have a portable
    path and vector kernels behind one interface, and their AEAD a loop that runs both at
    once.  The TLS codec ([src/tls/codec]) reads and writes handshake messages and records; DTLS adds a
    replay window.  QUIC ([src/quic]) replaces the record layer: a connection owns one
    packet-number space, CRYPTO stream and loss detector per level, a stream table, pools
    of connection ids, paths and a congestion controller; it dispatches the frames of a
    decrypted packet to them, reacts to timers, and assembles, seals and coalesces the
    packets it sends.  DER is the encoding under X.509 and the key formats.

    ** The files

    - [Prelude]: results and their bind, machine integers at their width (wrapping,
      saturating and checked operations), bytes and big-endian numbers, list lemmas and
      the tactics the other files share.
    - [Ct] ([src/ct/mod.rs], [eq.rs], [ord.rs], [select.rs], [negate.rs]): [Choice], the
      constant-time traits as type classes with an instance per type, [CtOption].
    - [TlsBase] ([src/tls/error.rs], [version.rs]): errors, alerts, versions, content
      types.
    - [Varint], [Pn], [Ack], [Frame] ([src/quic/varint.rs], [pn.rs], [ack.rs],
      [frame.rs]): the QUIC wire format, and the set of received packet numbers.
    - [BTree]: the operations of [BTreeMap<u64, _>] on sorted association lists;
      [ByteStream]: slices of a byte stream and the fragments that carry them.
    - [RecvStream], [SendStream] ([src/quic/stream.rs], with the parts of [streams.rs]
      that act on one half): the two halves of a QUIC stream.
    - [CryptoBuf] ([src/quic/crypto_buf.rs]): reassembly of inbound CRYPTO fragments and
      the outbound queue with its retransmissions.
    - [TransportParams] ([src/quic/transport_params.rs]), [Version] ([version.rs]), [Pkt]
      ([pkt.rs]): transport parameters, versions and their negotiation, packet headers
      and header protection.
    - [Streams] ([src/quic/streams.rs]): the stream table; [StreamsInv], [StreamsOps] and
      [StreamsSpec] hold its invariant, its preservation by every operation, and what
      follows for every execution.
    - [Cid] ([src/quic/cid.rs] and the handlers of [connection.rs]): pools of connection
      ids; [CidSpec]: an issuer and its peer.
    - [Congestion], [Loss] ([src/quic/congestion.rs], [loss.rs]): NewReno and loss
      recovery; [LossSpec] and [Persist]: detection and persistent congestion.
    - [Path], [Datagram] ([src/quic/path.rs], [datagram.rs]): anti-amplification budgets
      and challenges; unreliable datagrams.
    - [Endpoint] ([src/quic/endpoint.rs], [ecn.rs]) and [Conn] ([connection.rs]): the
      state of a connection, frame dispatch, acknowledgements, timers, migration and
      closing; [RecoverySpec] and [DispatchSpec] prove what every execution keeps.
    - [Send] ([src/quic/connection.rs]): payload assembly, sealing, padding, coalescing,
      close and off-path datagrams; [PayloadSpec], [SendSpec] and [PathSpec] prove what
      a packet carries, how long a datagram is, and the budget of an address.
    - [Replay] ([src/dtls/replay.rs]): the anti-replay window.
    - [Der] ([src/der/mod.rs], [writer.rs], [oid.rs]): the strict reader, the writer,
      object identifiers.
    - [Codec] ([src/tls/codec/mod.rs], [record.rs]): cursors, length-prefixed writers,
      record framing; [Handshake] ([src/tls/codec/handshake.rs]): hello messages and
      post-handshake messages.
    - [Uint] ([src/bignum/uint.rs], [mul.rs]) and [Mont]
      ([src/bignum/montgomery.rs]): limb arithmetic, long division, products, and
      Montgomery multiplication.
    - [MdHash] ([src/hash/block.rs], and the same text in [sha256.rs] and [sha512.rs]):
      block buffering, padding and HMAC on bare compressions, over any compression
      function; [Hmac] ([src/hash/mod.rs], [hmac.rs]): the [Digest] trait as a class with
      its contract, and HMAC over it.
    - [Sha2] ([sha256.rs], [sha512.rs]) and [MdFamily] ([sha1.rs], [md5.rs], [md4.rs],
      [sm3.rs], [ripemd160.rs]): the portable compression functions; [Hashers]: the hash
      types as instances of the contract; [HashState] ([state.rs]): exported states.
    - [Kdf] ([src/kdf/hkdf.rs], [pbkdf2.rs], [concat.rs], [kbkdf.rs]): key derivation;
      [Drbg] ([src/rng/hmac_drbg.rs]): HMAC-DRBG.
    - [Vec]: the vector intrinsics the kernels use; [ChaCha] ([src/cipher/chacha20.rs]):
      ChaCha20, XChaCha20 and their AVX-512, AVX2 and NEON kernels; [ChaChaSpec]: the
      matrix form of the standards.
    - [Poly1305] ([src/cipher/poly1305.rs]): the arithmetic in both limb layouts and the
      interleaved stripes; [PolySimd]: the IFMA and AVX2 kernels; [PolyMac]: streaming
      over a class of targets; [ChaChaPoly] ([chacha20poly1305.rs],
      [xchacha20poly1305.rs]): the AEADs and the stitched loop.

    ** Conventions

    A [w]-bit integer is a [Z]; operations that can leave the range write their
    wrap-around, saturation or check out.  A byte is a [Z] in [[0, 256)], a slice or
    vector a list.  [usize] has 64 bits.  [Result] is [result], [?] its bind, and a
    panic ([assert!], [expect], slice index) is [None] of an [option] where the source
    can reach it.  Methods that mutate [&mut self] return the new state, next to their
    result where an error keeps the changes made before it.  A time is its number of
    nanoseconds.  The [black_box] of the constant-time code is the identity: the theorems
    are about values, not about timing.

    A [while] loop is a [Fixpoint] with fuel: the length of the buffer it consumes, the
    number of queued streams, packets or ranges it visits, or the three packet-number
    spaces; each round uses up one of them, and the theorems show that the loops produce
    their result with that fuel.  Code outside the model is an argument: the TLS engine of
    a connection, AEAD and header-protection functions (known only to have the right
    lengths and to invert each other), random bytes and connection ids.

    ** The theorems

    - QUIC connection: the bytes in flight are exactly those of the packets tracked; no
      frame of an authenticated packet and no timer panics; acknowledgements and expired
      timers do what RFC 9002 says, and a timer is armed whenever one is needed; a server
      never sends an unvalidated address more than three times what it received, across
      migrations.
    - Sending: a payload is a run of whole frames its level and scope allow, recorded
      exactly for loss recovery; Initial datagrams are padded; established datagrams fit
      their budget.  The known exceptions are exhibited on concrete connections.
    - Stream table: an invariant of every execution with any peer and application, flow
      control in both directions, admission bounds, progress of the packer.
    - Loss recovery: detection removes exactly the packets it should, and the compressed
      search for persistent congestion decides its definition over the full history.
    - Connection ids, versions, packets, transport parameters: the two ends stay in step,
      downgrades are detected, headers survive protection and the wire.
    - CRYPTO streams: whatever the network reorders, duplicates or drops and however the
      sender cuts and retransmits, the bytes delivered are a prefix of the bytes
      enqueued; each fragment releases exactly the new contiguous bytes within the caps;
      re-queuing finds the bytes again.
    - Streams: whatever slices of a stream arrive, in whatever order, the application
      reads a prefix of it and sees its end only at its end, with at most one window
      buffered; on the sending side no mix of losses, acknowledgements and timeouts
      loses a byte, and the terminal state means that everything was acknowledged; the
      binary-search pruning equals the full scan; frames are rejected exactly when they
      contradict the credit or the final size.
    - Replay window: it refines the filter over the whole history, and never accepts a
      number twice.
    - Packet numbers and ACKs: the range set keeps its invariant, contains exactly what
      was inserted, and survives the wire in ACK payloads and ACK frames; truncated
      packet numbers decode within the window; anything a parser accepts is in range.
    - Codecs: round trips for varints, frames, records, hello messages, tickets and key
      updates; bijections between values and accepted encodings for DER elements,
      integers and object identifiers and for ServerHello; termination of the frame
      iterator on any input; error behaviour of the fallible encoders.
    - Constant-time layer: each branchless operation equals the branching definition it
      replaces, at every width, and [CtOption] refines the option monad.
    - Big integers: limb loops compute sums, differences, products, quotients,
      remainders and comparisons of the numbers they stand for; the interleaved
      Montgomery kernel computes the reduced Montgomery product at every width, and
      [MontModulus] multiplies modulo its modulus.
    - Hashes and key derivation: the unrolled compressions, with their rings, rotated
      names and rearranged boolean functions, are those of their standards; however a
      message is cut the digest is the standard's; HMAC and its fast paths are RFC 2104;
      exported states resume the hash and have one encoding each; HKDF, PBKDF2 and KBKDF
      are their RFCs with exact error conditions; HMAC-DRBG refines SP 800-90A.
    - ChaCha20 and Poly1305: on every target and instruction set the keystreams and tags
      are those of RFC 8439, down to shuffles, lane powers and lazy carries at their
      widths; the AEADs seal and open as the RFC says, a rejected ciphertext comes back
      unchanged, and whatever one target seals every other opens.

    ** Not modelled

    Of QUIC: packet-protection cryptography, the receiving side's key phases, retry
    tokens, the client's handling of Retry and Version Negotiation packets, the checks
    of transport parameters against the handshake, UTF-8 decoding of close reasons, the
    peeking parser and the server's demultiplexer.  The TLS and DTLS state machines, key
    schedules and record protection; X.509 and PEM; AES and the other
    block ciphers and modes; the hashes that are not Merkle-Damgard and the multi-buffer,
    SIMD and hardware kernels of the others; password hashing
    beyond PBKDF2; exponentiation, inversion and primes; elliptic curves, pairings, RSA
    and the post-quantum schemes, whose specification is a standard's formula over
    fields that are not modelled; zeroization, which has no functional content; the C
    interface and the command-line tool, which are input and output. *)

From stdpp Require Export base numbers list gmap sorting.
From Stdlib Require Export ZArith Lia.
From Stdlib Require Import Zbitwise.

Open Scope Z_scope.

(** * Results

    Rust's [Result<A, E>]; the [?] operator is the monadic bind. *)

Inductive result (E A : Type) : Type :=
| Ok (a : A)
| Err (e : E).
Arguments Ok {E A} a.
Arguments Err {E A} e.

#[global] Instance result_ret {E} : MRet (result E) := λ A a, Ok a.
#[global] Instance result_bind {E} : MBind (result E) :=
  λ A B f m, match m with Ok a => f a | Err e => Err e end.

(** [Option::ok_or]. *)
Definition ok_or {E A} (o : option A) (e : E) : result E A :=
  match o with Some a => Ok a | None => Err e end.

Lemma bind_Ok_inv {E A B} (m : result E A) (f : A → result E B) b :
  m ≫= f = Ok b → ∃ a, m = Ok a ∧ f a = Ok b.
Proof. destruct m; simpl; [eauto | discriminate]. Qed.

(** Inverts every [_ ≫= _ = Ok _] and every [Ok _ = Ok _] in the context. *)
Ltac inv_result :=
  repeat match goal with
  | H : (_ ≫= _) = Ok _ |- _ =>
      let a := fresh "a" in let Ha := fresh "Ha" in
      apply bind_Ok_inv in H as (a & Ha & H)
  | H : Ok _ = Ok _ |- _ => injection H as H; subst
  | H : Err _ = Ok _ |- _ => discriminate H
  | H : Ok _ = Err _ |- _ => discriminate H
  | H : (match ?x with _ => _ end) = Ok _ |- _ => destruct x eqn:?
  end; try discriminate.

(** * Machine integers

    A [w]-bit unsigned integer is a [Z] in [[0, 2^w)]; every operation that can
    leave the range writes its wrap-around out. *)

Definition in_width (w x : Z) : Prop := 0 ≤ x < 2 ^ w.

#[global] Instance in_width_dec w x : Decision (in_width w x).
Proof. unfold in_width. apply _. Defined.

Definition wrap (w x : Z) : Z := x mod 2 ^ w.
Definition wadd (w a b : Z) : Z := wrap w (a + b).
Definition wsub (w a b : Z) : Z := wrap w (a - b).
Definition wmul (w a b : Z) : Z := wrap w (a * b).
Definition wneg (w a : Z) : Z := wrap w (- a).
Definition wnot (w a : Z) : Z := wrap w (Z.lnot a).
Definition wshl (w a n : Z) : Z := wrap w (Z.shiftl a n).

(** [checked_sub], [saturating_sub] and [saturating_add] of the unsigned types. *)
Definition checked_sub (a b : Z) : option Z := if b <=? a then Some (a - b) else None.
Definition checked_add (w a b : Z) : option Z :=
  if a + b <? 2 ^ w then Some (a + b) else None.
Definition sat_sub (a b : Z) : Z := Z.max 0 (a - b).
Definition sat_add (w a b : Z) : Z := Z.min (2 ^ w - 1) (a + b).

Abbreviation u8 := (in_width 8).
Abbreviation u16 := (in_width 16).
Abbreviation u32 := (in_width 32).
Abbreviation u64 := (in_width 64).

Create HintDb mach.
Create Rewrite HintDb mach.
Hint Constants Transparent : mach.

Lemma wrap_range w x : 0 ≤ w → in_width w (wrap w x).
Proof. intros. apply Z.mod_pos_bound. lia. Qed.

Lemma wrap_small w x : in_width w x → wrap w x = x.
Proof. intros. by apply Z.mod_small. Qed.

Lemma wrap_wrap w x : wrap w (wrap w x) = wrap w x.
Proof. apply Zmod_mod. Qed.

Lemma in_width_nonneg w x : in_width w x → 0 ≤ x.
Proof. unfold in_width. lia. Qed.

Lemma in_width_mono v w x : 0 ≤ v ≤ w → in_width v x → in_width w x.
Proof.
  intros [? ?] [? ?]. split; [done|].
  pose proof (Z.pow_le_mono_r 2 v w). lia.
Qed.

#[export] Hint Resolve wrap_range in_width_nonneg : mach.
#[export] Hint Rewrite wrap_wrap : mach.
#[export] Hint Rewrite wrap_small using (unfold in_width in *; lia) : mach.

(** ** Bits *)

Lemma testbit_high w x i : in_width w x → w ≤ i → Z.testbit x i = false.
Proof.
  intros [Hx0 Hxw] Hi.
  destruct (Z.eq_dec x 0) as [->|Hnz]; [apply Z.bits_0|].
  apply Z.bits_above_log2; [done|].
  assert (0 < x) by lia.
  destruct (Z.lt_ge_cases w 0) as [Hw|Hw].
  { rewrite Z.pow_neg_r in Hxw by lia. lia. }
  apply Z.lt_le_trans with w; [|done]. by apply Z.log2_lt_pow2.
Qed.

(** A non-negative number with no bit at or above [w] is below [2^w]. *)
Lemma in_width_bits w x :
  0 ≤ w → 0 ≤ x → (∀ i, w ≤ i → Z.testbit x i = false) → in_width w x.
Proof.
  intros Hw Hx Hb. split; [done|].
  destruct (Z.lt_ge_cases x (2 ^ w)) as [|Hge]; [done|exfalso].
  assert (0 < x) by lia.
  pose proof (Z.bit_log2 x ltac:(lia)) as Hbit.
  rewrite Hb in Hbit; [discriminate|].
  apply Z.log2_le_pow2; lia.
Qed.

Lemma testbit_wrap w x i :
  0 ≤ w → 0 ≤ i → Z.testbit (wrap w x) i = bool_decide (i < w) && Z.testbit x i.
Proof.
  intros Hw Hi. unfold wrap. case_bool_decide; simpl.
  - by rewrite Z.mod_pow2_bits_low by lia.
  - by rewrite Z.mod_pow2_bits_high by lia.
Qed.

Lemma land_in_width w x y : 0 ≤ w → in_width w x → 0 ≤ y → in_width w (Z.land x y).
Proof.
  intros Hw Hx Hy. apply in_width_bits; [done| |].
  - apply Z.land_nonneg. left. apply Hx.
  - intros i Hi. by rewrite Z.land_spec, (testbit_high w).
Qed.

Lemma lor_in_width w x y : 0 ≤ w → in_width w x → in_width w y → in_width w (Z.lor x y).
Proof.
  intros Hw Hx Hy. apply in_width_bits; [done| |].
  - apply Z.lor_nonneg. split; [apply Hx | apply Hy].
  - intros i Hi. by rewrite Z.lor_spec, !(testbit_high w).
Qed.

Lemma lxor_in_width w x y : 0 ≤ w → in_width w x → in_width w y → in_width w (Z.lxor x y).
Proof.
  intros Hw Hx Hy. apply in_width_bits; [done| |].
  - apply Z.lxor_nonneg. pose proof (in_width_nonneg _ _ Hx).
    pose proof (in_width_nonneg _ _ Hy). tauto.
  - intros i Hi. by rewrite Z.lxor_spec, !(testbit_high w).
Qed.

Lemma shiftr_in_width w x n : 0 ≤ n → in_width w x → in_width w (Z.shiftr x n).
Proof.
  intros Hn [Hx0 Hx]. rewrite Z.shiftr_div_pow2 by done.
  split; [by apply Z.div_pos; lia|].
  apply Z.le_lt_trans with x; [|done]. apply Z.div_le_upper_bound; nia.
Qed.

#[export] Hint Resolve land_in_width lor_in_width lxor_in_width shiftr_in_width : mach.

(** Appending [k] low bits: the [(a << k) | b] idiom of the parsers. *)
Lemma lor_shiftl_add a b k :
  0 ≤ k → in_width k b → Z.lor (Z.shiftl a k) b = a * 2 ^ k + b.
Proof.
  intros Hk Hb. rewrite <- Z.shiftl_mul_pow2 by done.
  rewrite <- Z.lxor_lor, <- Z.add_nocarry_lxor; try done.
  all: apply Z.bits_inj'; intros i Hi; rewrite Z.land_spec, Z.bits_0, Z.shiftl_spec by done.
  all: destruct (Z.lt_ge_cases i k).
  all: rewrite ?(Z.testbit_neg_r a (i - k)) by lia; try done.
  all: by rewrite (testbit_high k b i), andb_false_r.
Qed.

Lemma land_mask x k : 0 ≤ k → Z.land x (2 ^ k - 1) = x mod 2 ^ k.
Proof. intros. rewrite <- Z.land_ones, Z.ones_equiv by done. f_equal. Qed.

(** Setting a tag above the low [k] bits: [b | tag]. *)
Lemma lor_high b t k : 0 ≤ k → in_width k b → Z.lor b (t * 2 ^ k) = t * 2 ^ k + b.
Proof.
  intros Hk Hb. rewrite Z.lor_comm, <- Z.shiftl_mul_pow2 by done.
  rewrite lor_shiftl_add, Z.shiftl_mul_pow2; done.
Qed.

(** Decides equality of bit vectors position by position. *)
Ltac bitwise i Hi :=
  apply Z.bits_inj'; intros i Hi;
  repeat first
    [ rewrite Z.lor_spec | rewrite Z.land_spec | rewrite Z.lxor_spec
    | rewrite Z.lnot_spec by done | rewrite testbit_wrap by lia
    | rewrite Z.shiftr_spec by lia | rewrite Z.shiftl_spec by lia | rewrite Z.bits_0 ].

(** * Bytes *)

Abbreviation bytes := (list Z).
Abbreviation bytes_ok := (Forall (in_width 8)).

(** [x as u8] and friends. *)
Abbreviation as_u8 := (wrap 8).
Abbreviation as_u16 := (wrap 16).
Abbreviation as_u32 := (wrap 32).
Abbreviation as_u64 := (wrap 64).

(** [to_be_bytes] of an [8 n]-bit integer. *)
Fixpoint be_bytes (n : nat) (v : Z) : bytes :=
  match n with
  | O => []
  | S n' => as_u8 (Z.shiftr v (8 * Z.of_nat n')) :: be_bytes n' v
  end.

(** The accumulation loop [v = (v << 8) | b]. *)
Definition be_fold (v : Z) (l : bytes) : Z :=
  fold_left (λ v b, Z.lor (Z.shiftl v 8) b) l v.
Abbreviation be_value := (be_fold 0).

Lemma length_be_bytes n v : length (be_bytes n v) = n.
Proof. induction n; simpl; congruence. Qed.

Lemma be_bytes_ok n v : bytes_ok (be_bytes n v).
Proof. induction n; simpl; constructor; [apply wrap_range; lia | done]. Qed.

Lemma be_fold_spec l : ∀ v, bytes_ok l →
  be_fold v l = v * 2 ^ (8 * Z.of_nat (length l)) + be_value l.
Proof.
  unfold be_fold. induction l as [|b l IH]; intros v Hl; cbn [fold_left length].
  - rewrite Z.mul_1_r. lia.
  - inversion Hl; subst. rewrite (IH (Z.lor (Z.shiftl v 8) b)), (IH (Z.lor (Z.shiftl 0 8) b)) by done.
    rewrite !lor_shiftl_add by done.
    replace (8 * Z.of_nat (S (length l))) with (8 + 8 * Z.of_nat (length l)) by lia.
    rewrite Z.pow_add_r by lia. ring.
Qed.

Lemma be_value_cons b l : bytes_ok l →
  be_value (b :: l) = b * 2 ^ (8 * Z.of_nat (length l)) + be_value l.
Proof. intros. rewrite <- be_fold_spec by done. unfold be_fold. simpl. by rewrite Z.lor_0_l. Qed.

Lemma be_value_range l : bytes_ok l → in_width (8 * Z.of_nat (length l)) (be_value l).
Proof.
  induction 1 as [|b l Hb Hl IH]; [by vm_compute|].
  rewrite be_value_cons by done. unfold in_width in *. simpl length.
  replace (8 * Z.of_nat (S (length l))) with (8 + 8 * Z.of_nat (length l)) by lia.
  rewrite Z.pow_add_r by lia. change (2 ^ 8) with 256 in *. nia.
Qed.

Lemma be_value_be_bytes n v : be_value (be_bytes n v) = wrap (8 * Z.of_nat n) v.
Proof.
  induction n as [|n IH]; simpl be_bytes; [unfold wrap; by rewrite Z.mod_1_r|].
  rewrite be_value_cons, length_be_bytes, IH by apply be_bytes_ok.
  unfold wrap. rewrite Z.shiftr_div_pow2 by lia.
  replace (8 * Z.of_nat (S n)) with (8 * Z.of_nat n + 8) by lia.
  rewrite Z.pow_add_r, (Z.rem_mul_r v) by lia. ring.
Qed.

(** Only the low [8 n] bits of the value are encoded. *)
Lemma be_bytes_add_high n k v c : (n ≤ k)%nat →
  be_bytes n (c * 2 ^ (8 * Z.of_nat k) + v) = be_bytes n v.
Proof.
  induction n as [|n IHn]; intros Hn; [done|]. simpl. rewrite IHn by lia. f_equal.
  unfold wrap. rewrite !Z.shiftr_div_pow2 by lia.
  replace (8 * Z.of_nat k) with (8 * Z.of_nat (k - S n) + 8 + 8 * Z.of_nat n) by lia.
  rewrite !Z.pow_add_r, !Z.mul_assoc, Z.div_add_l by lia.
  by rewrite Z.add_comm, Z_mod_plus_full.
Qed.

Lemma be_bytes_be_value l : bytes_ok l → be_bytes (length l) (be_value l) = l.
Proof.
  induction 1 as [|b l Hb Hl IH]; [done|]. cbn [be_bytes length].
  pose proof (be_value_range l Hl) as Hr. unfold in_width in Hr.
  rewrite be_value_cons by done. f_equal.
  - rewrite Z.shiftr_div_pow2, Z.div_add_l, (Z.div_small (be_value l)) by lia.
    rewrite Z.add_0_r. by apply wrap_small.
  - by rewrite be_bytes_add_high.
Qed.

#[export] Hint Resolve be_bytes_ok be_value_range : mach.
#[export] Hint Rewrite length_be_bytes be_value_be_bytes : mach.

(** [usize] lengths as [Z]. *)
Definition zlen {A} (l : list A) : Z := Z.of_nat (length l).
Definition is_nil {A} (l : list A) : bool := match l with [] => true | _ => false end.

Lemma zlen_nonneg {A} (l : list A) : 0 ≤ zlen l.
Proof. unfold zlen. lia. Qed.

Lemma zlen_app {A} (l k : list A) : zlen (l ++ k) = zlen l + zlen k.
Proof. unfold zlen. rewrite length_app. lia. Qed.

(** Slices [&l[n..]] and [&l[..n]] for a [usize] bound. *)
Definition zdrop {A} (n : Z) (l : list A) : list A := drop (Z.to_nat n) l.
Definition ztake {A} (n : Z) (l : list A) : list A := take (Z.to_nat n) l.

Lemma zdrop_app {A} (l k : list A) : zdrop (zlen l) (l ++ k) = k.
Proof. unfold zdrop, zlen. rewrite Nat2Z.id. apply drop_app_length. Qed.

Lemma ztake_app {A} (l k : list A) : ztake (zlen l) (l ++ k) = l.
Proof. unfold ztake, zlen. rewrite Nat2Z.id. apply take_app_length. Qed.

(** Clearing the low [n] bits of a [w]-bit word: [x & !(2^n - 1)]. *)
Lemma land_not_mask w x n : 0 ≤ n ≤ w → in_width w x →
  Z.land x (wnot w (2 ^ n - 1)) = x / 2 ^ n * 2 ^ n.
Proof.
  intros Hn Hx. rewrite <- Z.shiftr_div_pow2, <- Z.shiftl_mul_pow2 by lia.
  rewrite <- Z.ldiff_ones_r by lia. rewrite Z.ones_equiv. change (Z.pred (2 ^ n)) with (2 ^ n - 1).
  apply Z.bits_inj'. intros i Hi. unfold wnot.
  rewrite Z.land_spec, Z.ldiff_spec, testbit_wrap, Z.lnot_spec by lia.
  case_bool_decide; [done|]. by rewrite (testbit_high w x i) by (done || lia).
Qed.

(** * Filtering lists *)

Lemma filter_all {A} (P : A → Prop) `{∀ x, Decision (P x)} (l : list A) : Forall P l → filter P l = l.
Proof. induction 1; [done|]. rewrite filter_cons, decide_True by done. congruence. Qed.

Lemma filter_none {A} (P : A → Prop) `{∀ x, Decision (P x)} (l : list A) : Forall (λ x, ¬ P x) l → filter P l = [].
Proof. induction 1; [done|]. by rewrite filter_cons, decide_False by done. Qed.

Lemma filter_ext_in {A} (P Q : A → Prop) `{∀ x, Decision (P x)} `{∀ x, Decision (Q x)} (l : list A) :
  (∀ x, x ∈ l → P x ↔ Q x) → filter P l = filter Q l.
Proof.
  induction l as [|x l IH]; intros Hpq; [done|]. rewrite !filter_cons, IH by (intros; apply Hpq; by right).
  pose proof (Hpq x ltac:(left)). by repeat case_decide; try tauto.
Qed.

Lemma head_filter_elem {A} (P : A → Prop) `{∀ x, Decision (P x)} (l : list A) (x : A) :
  head (filter P l) = Some x → x ∈ l ∧ P x.
Proof.
  intros Hh. assert (x ∈ filter P l) as Hx by (destruct (filter P l); [done|]; injection Hh as ->; by left).
  by apply list_elem_of_filter in Hx as [? ?].
Qed.

Lemma head_filter_none {A} (P : A → Prop) `{∀ x, Decision (P x)} (l : list A) (x : A) :
  head (filter P l) = None → x ∈ l → ¬ P x.
Proof.
  intros Hh Hx Hp. assert (x ∈ filter P l) as Hf by (by apply list_elem_of_filter).
  destruct (filter P l); [by apply elem_of_nil in Hf|done].
Qed.

Lemma zlen_filter_le {A} (P : A → Prop) `{∀ x, Decision (P x)} (l : list A) : zlen (filter P l) ≤ zlen l.
Proof. unfold zlen. pose proof (length_filter P l). lia. Qed.

(** * Record update

    [r <| f := v |>] is Rust's assignment [self.f = v].  The setter of a field is found
    from the eta-expansion of the record, which an instance of [Eta] gives. *)

Class Update {R E : Type} (field : R → E) := update : E → R → R.
Arguments update {R E} field {Update} v r / : rename.
Class Eta (R : Type) := eta : R → R.

Ltac solve_update :=
  match goal with
  | |- @Update ?R ?E ?f =>
      let e := eval unfold eta in (_ : Eta R) in
      let h := eval hnf in e in
      match eval pattern f in h with
      | ?G _ => let t := eval cbv beta in (λ (v : E) (r : R), G (λ _ : R, v) r) in exact t
      end
  end.
#[export] Hint Extern 1 (Update _) => solve_update : typeclass_instances.

Notation "r <| f := v |>" := (update f v r)
  (at level 1, f at level 0, v at level 200, left associativity, format "r <| f  :=  v |>").
