(* ===== verification/Ct.v ===== *)
(** Constant-time primitives ([src/ct]): [Choice], the equality, ordering,
    selection and negation traits, and [CtOption].  Every operation is the
    branchless bit manipulation of the source at a generic width [w]; the
    theorems identify it with the branching definition it replaces.
    [core::hint::black_box] is the identity. *)

From S2P Require Import Prelude.

(** * Choice *)

Record Choice := mk_choice { unwrap_u8 : Z }.

(** The type invariant of [Choice]: the byte is [0] or [1]. *)
Definition choice_ok (c : Choice) : Prop := unwrap_u8 c = 0 ∨ unwrap_u8 c = 1.

Definition choice_from (value : Z) : Choice :=
  mk_choice (Z.land (Z.shiftr (Z.lor value (wneg 8 value)) 7) 1).
Definition bool_from (c : Choice) : bool := negb (unwrap_u8 c =? 0).

Definition choice_and (a b : Choice) : Choice := mk_choice (Z.land (unwrap_u8 a) (unwrap_u8 b)).
Definition choice_or (a b : Choice) : Choice := mk_choice (Z.lor (unwrap_u8 a) (unwrap_u8 b)).
Definition choice_xor (a b : Choice) : Choice := mk_choice (Z.lxor (unwrap_u8 a) (unwrap_u8 b)).
Definition choice_not (a : Choice) : Choice := mk_choice (Z.lxor (unwrap_u8 a) 1).
Definition choice_ct_eq (a b : Choice) : Choice :=
  mk_choice (Z.lxor (Z.lxor (unwrap_u8 a) (unwrap_u8 b)) 1).

(** The abstraction: a [Choice] stands for a [bool]. *)
Definition choice_of (b : bool) : Choice := mk_choice (if b then 1 else 0).

(** * The traits *)

Class ConstantTimeEq (T : Type) := ct_eq : T → T → Choice.
Definition ct_ne {T} `{ConstantTimeEq T} (a b : T) : Choice := choice_not (ct_eq a b).

(** What an implementation of the trait promises, on the values of the type. *)
Class CtEqLaws (T : Type) `{EqDecision T} (E : ConstantTimeEq T) (valid : T → Prop) :=
  ct_eq_spec (a b : T) : valid a → valid b → ct_eq a b = choice_of (bool_decide (a = b)).

(** Unsigned integers of [w] bits. *)
Definition ct_eq_uint (w : Z) : ConstantTimeEq Z := λ self other,
  let x := Z.lxor self other in
  let differ := Z.shiftr (Z.lor x (wneg w x)) (w - 1) in
  choice_from (Z.land (Z.lxor (as_u8 differ) 1) 1).

(** Signed integers of [w] bits: the cast to the unsigned type of the same
    width is reduction modulo [2^w]. *)
Definition ct_eq_int (w : Z) : ConstantTimeEq Z := λ self other,
  ct_eq_uint w (wrap w self) (wrap w other).

Definition ct_eq_bool : ConstantTimeEq bool := λ self other,
  ct_eq_uint 8 (Z.b2z self) (Z.b2z other).

Definition ct_eq_slice {T} (E : ConstantTimeEq T) : ConstantTimeEq (list T) := λ self other,
  if negb (length self =? length other)%nat then choice_from 0
  else fold_left (λ acc '(a, b), choice_and acc (ct_eq a b)) (zip self other) (choice_from 1).

(** ** Ordering *)

(** [while pow < bits { x |= x >> pow; pow <<= 1 }]. *)
Fixpoint smear (fuel : nat) (bits pow x : Z) : Z :=
  match fuel with
  | O => x
  | S fuel => if pow <? bits then smear fuel bits (Z.shiftl pow 1) (Z.lor x (Z.shiftr x pow))
              else x
  end.

Definition ct_gt (bits self other : Z) : Choice :=
  let gtb := Z.land self (wnot bits other) in
  let ltb := Z.land (wnot bits self) other in
  let ltb := smear (Z.to_nat bits) bits 1 ltb in
  let bit := Z.land gtb (wnot bits ltb) in
  let bit := smear (Z.to_nat bits) bits 1 bit in
  choice_from (as_u8 (Z.land bit 1)).

Definition ct_lt (bits self other : Z) : Choice := ct_gt bits other self.

(** ** Selection *)

Class ConditionallySelectable (T : Type) := conditional_select : T → T → Choice → T.

Definition conditional_select_b_if_true {T} `{ConditionallySelectable T} (a b : T) (c : Choice) : T :=
  conditional_select b a c.
Definition conditional_assign {T} `{ConditionallySelectable T} (self other : T) (c : Choice) : T :=
  conditional_select other self c.
Definition conditional_swap {T} `{ConditionallySelectable T} (a b : T) (c : Choice) : T * T :=
  let t := a in
  let a := conditional_assign a b c in
  let b := conditional_assign b t c in
  (a, b).

(** The promise: the first argument when the choice is true, else the second. *)
Class SelectLaws (T : Type) (S : ConditionallySelectable T) (valid : T → Prop) :=
  conditional_select_spec (a b : T) (c : bool) :
    valid a → valid b → conditional_select a b (choice_of c) = if c then a else b.

Definition select_uint (w : Z) : ConditionallySelectable Z := λ a b choice,
  let mask := wneg w (wrap w (unwrap_u8 choice)) in
  Z.lxor b (Z.land mask (Z.lxor a b)).

(** [x as iN] of a [w]-bit pattern. *)
Definition as_signed (w x : Z) : Z := if x <? 2 ^ (w - 1) then x else x - 2 ^ w.

Definition select_int (w : Z) : ConditionallySelectable Z := λ a b choice,
  as_signed w (select_uint w (wrap w a) (wrap w b) choice).

Definition select_choice : ConditionallySelectable Choice := λ a b choice,
  mk_choice (select_uint 8 (unwrap_u8 a) (unwrap_u8 b) choice).

(** [[T; N]]: both arrays have the same length [N]. *)
Definition select_array {T} (S : ConditionallySelectable T) : ConditionallySelectable (list T) :=
  λ a b choice, zip_with (λ x y, conditional_select x y choice) a b.

Definition limb_mask (choice : Choice) : Z := wneg 64 (unwrap_u8 choice).

(** The slice forms write the common prefix of their arguments; the rest of
    the destination is untouched. *)
Fixpoint select_limbs_loop (mask : Z) (out a b : list Z) : list Z :=
  match out, a, b with
  | _ :: out, x :: a, y :: b =>
      Z.lxor y (Z.land mask (Z.lxor x y)) :: select_limbs_loop mask out a b
  | out, _, _ => out
  end.
Definition select_limbs_into (a b : list Z) (choice : Choice) (out : list Z) : list Z :=
  select_limbs_loop (limb_mask choice) out a b.

Fixpoint assign_limbs_loop (mask : Z) (dst src : list Z) : list Z :=
  match dst, src with
  | d :: dst, s :: src => Z.lxor d (Z.land mask (Z.lxor d s)) :: assign_limbs_loop mask dst src
  | dst, _ => dst
  end.
Definition assign_limbs (dst src : list Z) (choice : Choice) : list Z :=
  assign_limbs_loop (limb_mask choice) dst src.

(** ** Negation *)

(** Two's-complement [wrapping_neg] of a signed [w]-bit value. *)
Definition wrapping_neg_int (w x : Z) : Z := as_signed w (wneg w x).

Definition conditional_negate (w self : Z) (choice : Choice) : Z :=
  let negated := wrapping_neg_int w self in
  @conditional_assign Z (select_int w) self negated choice.

(** * CtOption *)

Record CtOption (T : Type) := mk_ctoption { ct_value : T; ct_is_some : Choice }.
Arguments mk_ctoption {T} _ _.
Arguments ct_value {T} _.
Arguments ct_is_some {T} _.

Section ct_option.
Context {T U : Type}.

Definition ctopt_is_none (o : CtOption T) : Choice := choice_not (ct_is_some o).
Definition ctopt_map (o : CtOption T) (f : T → U) : CtOption U :=
  mk_ctoption (f (ct_value o)) (ct_is_some o).
Definition ctopt_and_then (o : CtOption T) (f : T → CtOption U) : CtOption U :=
  let inner := f (ct_value o) in
  mk_ctoption (ct_value inner) (choice_and (ct_is_some o) (ct_is_some inner)).
(** [None] is the panic. *)
Definition ctopt_unwrap (o : CtOption T) : option T :=
  if unwrap_u8 (ct_is_some o) =? 1 then Some (ct_value o) else None.
Definition ctopt_into_option (o : CtOption T) : option T :=
  if bool_from (ct_is_some o) then Some (ct_value o) else None.
Definition ctopt_unwrap_or `{ConditionallySelectable T} (o : CtOption T) (default : T) : T :=
  conditional_select (ct_value o) default (ct_is_some o).
Definition ctopt_unwrap_or_else `{ConditionallySelectable T} (o : CtOption T) (f : unit → T) : T :=
  let fallback := f () in
  conditional_select (ct_value o) fallback (ct_is_some o).
Definition ctopt_into_public_option (o : CtOption T) : option T :=
  if bool_from (ct_is_some o) then Some (ct_value o) else None.
Definition ctopt_or_else `{ConditionallySelectable T} (o : CtOption T) (f : unit → CtOption T)
  : CtOption T :=
  let alt := f () in
  mk_ctoption (conditional_select (ct_value o) (ct_value alt) (ct_is_some o))
              (choice_or (ct_is_some o) (ct_is_some alt)).
End ct_option.

(** The invariant of a [CtOption]: its flag is a well-formed [Choice]. *)
Definition ctopt_ok {T} (o : CtOption T) : Prop := choice_ok (ct_is_some o).

(** * Choice lemmas *)

Lemma choice_ok_of c : choice_ok c → c = choice_of (bool_from c).
Proof. destruct c as [x]. by intros [Hx|Hx]; simpl in Hx; subst. Qed.

Lemma choice_of_ok b : choice_ok (choice_of b).
Proof. destruct b; [by right | by left]. Qed.

Lemma bool_from_choice_of b : bool_from (choice_of b) = b.
Proof. by destruct b. Qed.

Lemma choice_from_of (b : bool) : choice_from (if b then 1 else 0) = choice_of b.
Proof. by destruct b. Qed.

Lemma choice_and_of a b : choice_and (choice_of a) (choice_of b) = choice_of (a && b).
Proof. by destruct a, b. Qed.
Lemma choice_or_of a b : choice_or (choice_of a) (choice_of b) = choice_of (a || b).
Proof. by destruct a, b. Qed.
Lemma choice_not_of a : choice_not (choice_of a) = choice_of (negb a).
Proof. by destruct a. Qed.

Create Rewrite HintDb choice.
#[export] Hint Rewrite bool_from_choice_of choice_from_of choice_and_of choice_or_of
  choice_not_of : choice.

(** The top bit of [x | -x] tells a non-zero [w]-bit word from zero. *)
Lemma nonzero_bit w x : 0 < w → in_width w x →
  Z.shiftr (Z.lor x (wneg w x)) (w - 1) = if x =? 0 then 0 else 1.
Proof.
  intros Hw Hx.
  assert (in_width w (Z.lor x (wneg w x))) as Hr.
  { apply lor_in_width; [lia|done|]. apply wrap_range. lia. }
  destruct (Z.eqb_spec x 0) as [->|Hnz].
  { unfold wneg, wrap. rewrite Z.mod_0_l by lia. apply Z.shiftr_0_l. }
  assert (Z.lor x (wneg w x) = x + wneg w x - Z.land x (wneg w x)) as Hsum.
  { pose proof (Z.add_lor_land x (wneg w x)). lia. }
  assert (wneg w x = 2 ^ w - x) as Hneg.
  { unfold wneg, wrap. rewrite Z_mod_nz_opp_full, Z.mod_small; unfold in_width in Hx;
      rewrite ?Z.mod_small; lia. }
  assert (2 ^ w = 2 * 2 ^ (w - 1)) as Hp.
  { rewrite <- Z.pow_succ_r by lia. f_equal. lia. }
  assert (2 ^ (w - 1) ≤ Z.lor x (wneg w x)) as Hlow.
  { assert (x ≤ Z.lor x (wneg w x) ∧ wneg w x ≤ Z.lor x (wneg w x)) as [? ?]; [|lia].
    unfold in_width in *.
    split; (apply Z.ldiff_le; [lia|]);
      apply Z.bits_inj'; intros i Hi; rewrite Z.ldiff_spec, Z.lor_spec, Z.bits_0;
      by destruct (Z.testbit x i), (Z.testbit (wneg w x) i). }
  rewrite Z.shiftr_div_pow2 by lia. unfold in_width in Hr.
  symmetry. apply (Z.div_unique _ _ 1 (Z.lor x (wneg w x) - 2 ^ (w - 1))); lia.
Qed.

(** [From<u8>] normalises: every non-zero byte is true. *)
Lemma choice_from_spec v : u8 v → choice_from v = choice_of (negb (v =? 0)).
Proof.
  intros Hv. unfold choice_from. rewrite (nonzero_bit 8) by (done || lia).
  by destruct (v =? 0).
Qed.

(** * Equality *)

Lemma ct_eq_uint_spec w a b : 0 < w → in_width w a → in_width w b →
  ct_eq_uint w a b = choice_of (bool_decide (a = b)).
Proof.
  intros Hw Ha Hb. unfold ct_eq_uint.
  rewrite nonzero_bit by (try apply lxor_in_width; lia || done).
  destruct (Z.eqb_spec (Z.lxor a b) 0) as [Hx|Hx]; case_bool_decide as Hab; try done.
  - by apply Z.lxor_eq in Hx.
  - subst. by rewrite Z.lxor_nilpotent in Hx.
Qed.

#[export] Instance ct_eq_uint_laws w : 0 < w → CtEqLaws Z (ct_eq_uint w) (in_width w).
Proof. intros Hw a b. by apply ct_eq_uint_spec. Qed.

(** Values of the signed [w]-bit type. *)
Definition in_signed (w x : Z) : Prop := - 2 ^ (w - 1) ≤ x < 2 ^ (w - 1).

Lemma pow2_half w : 0 < w → 2 ^ w = 2 * 2 ^ (w - 1).
Proof. intros. rewrite <- Z.pow_succ_r by lia. f_equal. lia. Qed.

Lemma as_signed_wrap w x : 0 < w → in_signed w x → as_signed w (wrap w x) = x.
Proof.
  intros Hw Hx. unfold as_signed, wrap, in_signed in *. pose proof (pow2_half w Hw).
  destruct (Z.lt_ge_cases x 0).
  - replace (x mod 2 ^ w) with (x + 2 ^ w); [destruct (Z.ltb_spec (x + 2 ^ w) (2 ^ (w - 1))); lia|].
    apply (Z.mod_unique _ _ (-1)); lia.
  - rewrite Z.mod_small by lia. destruct (Z.ltb_spec x (2 ^ (w - 1))); lia.
Qed.

#[export] Instance ct_eq_int_laws w : 0 < w → CtEqLaws Z (ct_eq_int w) (in_signed w).
Proof.
  intros Hw a b Ha Hb. unfold ct_eq, ct_eq_int.
  rewrite ct_eq_uint_spec by (done || apply wrap_range; lia). f_equal.
  apply bool_decide_ext. split; [|congruence]. intros Heq.
  rewrite <- (as_signed_wrap w a), <- (as_signed_wrap w b) by done. congruence.
Qed.

#[export] Instance ct_eq_bool_laws : CtEqLaws bool ct_eq_bool (λ _, True).
Proof. intros [] [] _ _; vm_compute; by repeat case_bool_decide. Qed.

Section slices.
Context {T : Type} `{EqDecision T} (E : ConstantTimeEq T) (valid : T → Prop)
  `{!CtEqLaws T E valid}.

Lemma ct_eq_fold l : ∀ k acc, Forall valid l → Forall valid k → length l = length k →
  fold_left (λ acc '(a, b), choice_and acc (ct_eq a b)) (zip l k) (choice_of acc)
  = choice_of (acc && bool_decide (l = k)).
Proof.
  induction l as [|a l IH]; intros [|b k] acc Hl Hk Hlen; simplify_eq/=.
  - by destruct acc.
  - inversion Hl; inversion Hk; subst.
    rewrite ct_eq_spec, choice_and_of, IH by done. f_equal.
    rewrite <- andb_assoc. f_equal.
    repeat case_bool_decide; naive_solver.
Qed.

(** Slices inherit the promise of their element type. *)
Lemma ct_eq_slice_spec a b : Forall valid a → Forall valid b →
  ct_eq_slice E a b = choice_of (bool_decide (a = b)).
Proof.
  intros Ha Hb. unfold ct_eq_slice.
  destruct (Nat.eqb_spec (length a) (length b)) as [Hlen|Hlen]; simpl.
  - change (choice_from 1) with (choice_of true). by rewrite ct_eq_fold.
  - rewrite bool_decide_eq_false_2; [done|congruence].
Qed.
End slices.

#[export] Instance ct_eq_slice_laws {T} `{EqDecision T} (E : ConstantTimeEq T) valid
  `{!CtEqLaws T E valid} : CtEqLaws (list T) (ct_eq_slice E) (Forall valid).
Proof. intros a b. by apply ct_eq_slice_spec. Qed.

(** * Ordering *)

(** What [smear] computes: bit [i] of the result is set iff some bit of the
    argument at or above [i] is. *)
Lemma smear_spec fuel bits : ∀ pow x x0,
  (∀ i, 0 ≤ i → Z.testbit x i = true ↔ ∃ j, 0 ≤ j < pow ∧ Z.testbit x0 (i + j) = true) →
  in_width bits x0 → 1 ≤ pow → bits ≤ pow * 2 ^ Z.of_nat fuel →
  ∀ i, 0 ≤ i → Z.testbit (smear fuel bits pow x) i = true
             ↔ ∃ j, i ≤ j ∧ Z.testbit x0 j = true.
Proof.
  assert (∀ x0 pow i, in_width bits x0 → bits ≤ pow → 0 ≤ i →
    (∃ j, 0 ≤ j < pow ∧ Z.testbit x0 (i + j) = true) ↔ (∃ j, i ≤ j ∧ Z.testbit x0 j = true))
    as Hdone.
  { intros x0 pow i Hx0 Hpow Hi. split; intros (j & Hj & Hb).
    - exists (i + j). split; [lia|done].
    - exists (j - i). replace (i + (j - i)) with j by lia. split; [|done].
      destruct (Z.lt_ge_cases j bits); [lia|].
      by rewrite (testbit_high bits x0 j) in Hb. }
  induction fuel as [|fuel IH]; intros pow x x0 Hx Hx0 Hpow Hfuel i Hi; simpl.
  { rewrite Hx by done. apply Hdone; [done|simpl in *; lia|done]. }
  destruct (Z.ltb_spec pow bits).
  2:{ rewrite Hx by done. by apply Hdone. }
  apply IH; try done.
  - clear i Hi. intros i Hi. rewrite Z.lor_spec, Z.shiftr_spec, orb_true_iff by done.
    rewrite Z.shiftl_mul_pow2, !Hx by lia. split.
    + intros [(j & ? & Hb)|(j & ? & Hb)]; [exists j|exists (pow + j)]; split; try lia; [done|].
      by rewrite Z.add_assoc.
    + intros (j & ? & Hb). destruct (Z.lt_ge_cases j pow); [left; exists j; split; [lia|done]|].
      right. exists (j - pow). split; [lia|]. by replace (i + pow + (j - pow)) with (i + j) by lia.
  - rewrite Z.shiftl_mul_pow2 by lia. lia.
  - rewrite Z.shiftl_mul_pow2 by lia. rewrite Nat2Z.inj_succ, Z.pow_succ_r in Hfuel by lia. lia.
Qed.

Lemma smear_full bits x i : 0 < bits → in_width bits x → 0 ≤ i →
  Z.testbit (smear (Z.to_nat bits) bits 1 x) i = true ↔ ∃ j, i ≤ j ∧ Z.testbit x j = true.
Proof.
  intros Hb Hx Hi. apply (smear_spec _ _ _ _ x); try done; try lia.
  - intros k Hk. split.
    + intros Ht. exists 0. by rewrite Z.add_0_r.
    + intros (j & Hj & Ht). by replace (k + j) with k in Ht by lia.
  - rewrite Z2Nat.id, Z.mul_1_l by lia. pose proof (Z.pow_gt_lin_r 2 bits). lia.
Qed.

(** A word whose bits at or above [j] include those of [b], and bit [j] besides,
    is larger. *)
Lemma gt_by_bits a b j : 0 ≤ a → 0 ≤ b → 0 ≤ j →
  Z.testbit a j = true → Z.testbit b j = false →
  (∀ k, j ≤ k → Z.testbit b k = true → Z.testbit a k = true) → b < a.
Proof.
  intros Ha Hb Hj Haj Hbj Hsub.
  assert (Z.shiftr b j ≤ Z.shiftr a j) as Hle.
  { apply Z.ldiff_le; [by apply Z.shiftr_nonneg|].
    apply Z.bits_inj'; intros i Hi.
    rewrite Z.ldiff_spec, !Z.shiftr_spec, Z.bits_0 by done.
    destruct (Z.testbit b (i + j)) eqn:E; [|done]. by rewrite (Hsub (i + j)) by (done || lia). }
  assert (Z.shiftr b j ≠ Z.shiftr a j).
  { intros Heq. apply (f_equal (λ z, Z.testbit z 0)) in Heq.
    rewrite !Z.shiftr_spec, Z.add_0_l in Heq by lia. congruence. }
  rewrite !Z.shiftr_div_pow2 in * by done.
  destruct (Z.lt_ge_cases b a); [done|].
  pose proof (Z.div_le_mono a b (2 ^ j)). lia.
Qed.

(** The highest differing bit. *)
Lemma top_difference a b : 0 ≤ a → 0 ≤ b → a ≠ b →
  ∃ d, 0 ≤ d ∧ Z.testbit a d ≠ Z.testbit b d ∧ ∀ k, d < k → Z.testbit a k = Z.testbit b k.
Proof.
  intros Ha Hb Hab. set (x := Z.lxor a b).
  assert (0 < x).
  { assert (0 ≤ x) by (apply Z.lxor_nonneg; tauto).
    assert (x ≠ 0) by (intros ?%Z.lxor_eq; done). lia. }
  exists (Z.log2 x). split; [apply Z.log2_nonneg|]. split.
  - pose proof (Z.bit_log2 x ltac:(lia)) as Hd. unfold x in Hd at 1.
    rewrite Z.lxor_spec in Hd. intros Heq. rewrite Heq, xorb_nilpotent in Hd. done.
  - intros k Hk. pose proof (Z.bits_above_log2 x k ltac:(lia) Hk) as Hz.
    unfold x in Hz. rewrite Z.lxor_spec in Hz. by apply xorb_eq.
Qed.

Lemma wnot_testbit w x i : 0 ≤ w → 0 ≤ i < w → Z.testbit (wnot w x) i = negb (Z.testbit x i).
Proof.
  intros Hw Hi. unfold wnot. rewrite testbit_wrap, bool_decide_eq_true_2, Z.lnot_spec by lia. done.
Qed.

Lemma ct_gt_bit w a b : 0 < w → in_width w a → in_width w b →
  (∃ j, 0 ≤ j ∧ Z.testbit (Z.land (Z.land a (wnot w b))
     (wnot w (smear (Z.to_nat w) w 1 (Z.land (wnot w a) b)))) j = true) ↔ b < a.
Proof.
  intros Hw Ha Hb. set (lt := Z.land (wnot w a) b).
  assert (in_width w lt) as Hlt.
  { apply land_in_width; [lia|apply wrap_range; lia|apply Hb]. }
  split.
  - intros (j & Hj & Ht). rewrite !Z.land_spec, !andb_true_iff in Ht.
    destruct Ht as [[Haj Hnb] Hsm].
    assert (j < w).
    { destruct (Z.lt_ge_cases j w); [done|]. by rewrite (testbit_high w) in Haj. }
    rewrite wnot_testbit, negb_true_iff in Hnb, Hsm by lia.
    apply (gt_by_bits a b j); try done; [apply Ha|apply Hb|].
    intros k Hk Hbk. apply not_false_iff_true. intros Hak.
    apply not_true_iff_false in Hsm. apply Hsm, smear_full; try done.
    exists k. split; [done|]. unfold lt. rewrite Z.land_spec, Hbk, andb_true_r.
    rewrite wnot_testbit, Hak; [done|lia|]. split; [lia|].
    destruct (Z.lt_ge_cases k w); [done|]. by rewrite (testbit_high w) in Hbk.
  - intros Hgt. destruct (top_difference a b) as (d & Hd & Hdiff & Htop);
      [apply Ha|apply Hb|lia|].
    assert (Z.testbit a d = true ∧ Z.testbit b d = false) as [Had Hbd].
    { destruct (Z.testbit a d) eqn:E1, (Z.testbit b d) eqn:E2; try done.
      assert (a < b); [|lia]. apply (gt_by_bits b a d); try done; [apply Hb|apply Ha|].
      intros k Hk Hak. destruct (decide (k = d)) as [->|]; [congruence|].
      rewrite <- Htop by lia. done. }
    assert (d < w).
    { destruct (Z.lt_ge_cases d w); [done|]. by rewrite (testbit_high w) in Had. }
    exists d. split; [done|].
    rewrite !Z.land_spec, Had, !wnot_testbit, Hbd, andb_true_l by lia.
    apply negb_true_iff, not_true_iff_false. intros (k & Hk & Hbit)%smear_full; try done.
    unfold lt in Hbit. rewrite Z.land_spec, andb_true_iff in Hbit. destruct Hbit as [Hna Hbk].
    assert (k < w).
    { destruct (Z.lt_ge_cases k w); [done|]. by rewrite (testbit_high w) in Hbk. }
    rewrite wnot_testbit, negb_true_iff in Hna by lia.
    destruct (decide (k = d)) as [->|]; [congruence|]. rewrite Htop in Hna by lia. congruence.
Qed.

(** * Selection *)

Lemma mask_select w a b (c : bool) : 0 < w → in_width w a → in_width w b →
  Z.lxor b (Z.land (wneg w (if c then 1 else 0)) (Z.lxor a b)) = if c then a else b.
Proof.
  intros Hw Ha Hb.
  assert (in_width w (Z.lxor a b)) as Hx by (apply lxor_in_width; done || lia).
  destruct c.
  - assert (wneg w 1 = Z.ones w) as ->.
    { unfold wneg, wrap. rewrite Z.ones_equiv. symmetry.
      pose proof (Z.pow_gt_1 2 w). apply (Z.mod_unique _ _ (-1)); lia. }
    rewrite (Z.land_comm (Z.ones w)), Z.land_ones, Z.mod_small by (done || lia).
    by rewrite (Z.lxor_comm a), <- Z.lxor_assoc, Z.lxor_nilpotent.
  - unfold wneg, wrap. rewrite Z.mod_0_l by lia. by rewrite Z.land_0_l, Z.lxor_0_r.
Qed.

Lemma wrap_choice w (c : bool) : 0 < w → wrap w (unwrap_u8 (choice_of c)) = if c then 1 else 0.
Proof.
  intros Hw. apply wrap_small. unfold in_width. pose proof (Z.pow_gt_1 2 w).
  destruct c; simpl; lia.
Qed.

#[export] Instance select_uint_laws w : 0 < w → SelectLaws Z (select_uint w) (in_width w).
Proof.
  intros Hw a b c Ha Hb. unfold conditional_select, select_uint.
  rewrite wrap_choice by done. by apply mask_select.
Qed.

#[export] Instance select_int_laws w : 0 < w → SelectLaws Z (select_int w) (in_signed w).
Proof.
  intros Hw a b c Ha Hb. unfold conditional_select, select_int.
  pose proof (select_uint_laws w Hw (wrap w a) (wrap w b) c) as Hs.
  unfold conditional_select in Hs. rewrite Hs by (apply wrap_range; lia).
  destruct c; by apply as_signed_wrap.
Qed.

#[export] Instance select_choice_laws : SelectLaws Choice select_choice choice_ok.
Proof.
  intros a b c Ha Hb. rewrite (choice_ok_of a Ha), (choice_ok_of b Hb).
  by destruct (bool_from a), (bool_from b), c.
Qed.

(** Arrays inherit the promise of their element type. *)
Section arrays.
Context {T : Type} (S : ConditionallySelectable T) (valid : T → Prop) `{!SelectLaws T S valid}.

Lemma select_array_spec a : ∀ b (c : bool), Forall valid a → Forall valid b →
  length a = length b → select_array S a b (choice_of c) = if c then a else b.
Proof.
  unfold select_array.
  induction a as [|x a IH]; intros [|y b] c Ha Hb Hlen; simplify_eq/=; [by destruct c|].
  inversion Ha; inversion Hb; subst.
  rewrite conditional_select_spec, IH by done. by destruct c.
Qed.
End arrays.

Lemma select_limbs_loop_spec (c : bool) out : ∀ a b, Forall u64 a → Forall u64 b →
  length a = length out → length b = length out →
  select_limbs_loop (wneg 64 (if c then 1 else 0)) out a b = if c then a else b.
Proof.
  induction out as [|o out IH]; intros [|x a] [|y b] Ha Hb La Lb; simplify_eq/=; [by destruct c|].
  inversion Ha; inversion Hb; subst. rewrite (mask_select 64), IH by (done || lia). by destruct c.
Qed.

Lemma assign_limbs_loop_spec (c : bool) dst : ∀ src, Forall u64 dst → Forall u64 src →
  length src = length dst →
  assign_limbs_loop (wneg 64 (if c then 1 else 0)) dst src = if c then src else dst.
Proof.
  induction dst as [|d dst IH]; intros [|s src] Hd Hs Hl; simplify_eq/=; [by destruct c|].
  inversion Hd; inversion Hs; subst. rewrite (Z.lxor_comm d s), (mask_select 64), IH by (done || lia).
  by destruct c.
Qed.

(** * Properties *)

(** The branchless comparison [ct_gt] (and [ct_lt], its mirror image) returns
    the choice of [self > other] ([self < other]) at every width, with the smearing
    loops run to completion. *)
Theorem ct_ord_correct w a b : 0 < w → in_width w a → in_width w b →
  ct_gt w a b = choice_of (b <? a) ∧ ct_lt w a b = choice_of (a <? b).
Proof.
  intros Hw Ha Hb.
  assert (∀ x y, in_width w x → in_width w y → ct_gt w x y = choice_of (y <? x)) as Hgt.
  { intros x y Hx Hy. pose proof (ct_gt_bit w x y Hw Hx Hy) as Hbit. unfold ct_gt.
    set (bit := Z.land (Z.land x (wnot w y)) _) in *.
    assert (in_width w bit) as Hwb.
    { unfold bit. repeat apply land_in_width; try lia; [done|..];
        eapply in_width_nonneg, wrap_range; lia. }
    pose proof (smear_full w bit 0 Hw Hwb ltac:(lia)) as H0. rewrite Hbit in H0.
    rewrite (land_mask _ 1), <- Z.bit0_mod by lia.
    destruct (Z.testbit (smear (Z.to_nat w) w 1 bit) 0), (Z.ltb_spec y x);
      try done; exfalso; [lia | destruct H0 as [_ H0]; discriminate (H0 H)]. }
  split; [by apply Hgt | unfold ct_lt; by apply Hgt].
Qed.

Lemma ct_ord_correct_witness : ct_gt 8 200 13 = choice_of true ∧ ct_lt 8 200 13 = choice_of false.
Proof. apply (ct_ord_correct 8 200 13); [lia | unfold in_width; lia | unfold in_width; lia]. Defined.

(** The constant-time slice comparison returns true exactly on equal slices,
    for slices of any unsigned width; unequal lengths compare unequal. *)
Theorem ct_eq_slice_correct w (a b : list Z) :
  0 < w → Forall (in_width w) a → Forall (in_width w) b →
  bool_from (ct_eq_slice (ct_eq_uint w) a b) = true ↔ a = b.
Proof.
  intros Hw Ha Hb. pose proof (ct_eq_uint_laws w Hw).
  rewrite (ct_eq_slice_spec _ (in_width w)), bool_from_choice_of by done.
  apply bool_decide_eq_true.
Qed.

Lemma ct_eq_slice_correct_witness :
  bool_from (ct_eq_slice (ct_eq_uint 8) [1; 2; 255] [1; 2; 255]) = true ↔ [1; 2; 255] = [1; 2; 255].
Proof.
  apply (ct_eq_slice_correct 8 [1; 2; 255] [1; 2; 255]);
    [lia | repeat constructor; unfold in_width; lia | repeat constructor; unfold in_width; lia].
Defined.

(** The masked multi-limb operations select and assign whole limb vectors: with
    equally long slices, [select_limbs_into] leaves [a] or [b] in the output, and
    [assign_limbs] replaces the destination or keeps it, according to the choice. *)
Theorem limb_select_correct (a b out : list Z) (c : bool) :
  Forall u64 a → Forall u64 b → length a = length out → length b = length out →
  select_limbs_into a b (choice_of c) out = (if c then a else b)
  ∧ assign_limbs b a (choice_of c) = (if c then a else b).
Proof.
  intros Ha Hb La Lb. split.
  - by apply select_limbs_loop_spec.
  - apply assign_limbs_loop_spec; congruence || done.
Qed.

Lemma limb_select_correct_witness :
  select_limbs_into [1; 2] [3; 4] (choice_of true) [0; 0] = [1; 2]
  ∧ assign_limbs [3; 4] [1; 2] (choice_of true) = [1; 2].
Proof.
  apply (limb_select_correct [1; 2] [3; 4] [0; 0] true);
    [repeat constructor; unfold in_width; lia | repeat constructor; unfold in_width; lia
    | reflexivity | reflexivity].
Defined.

(** [conditional_swap] on any type whose [conditional_select] meets the trait's
    promise exchanges its arguments when the choice is true and keeps them otherwise,
    and [conditional_negate] is two's-complement negation ([MIN] fixed) or identity. *)
Theorem conditional_ops_correct w (a b : Z) (c : bool) :
  0 < w → in_signed w a → in_signed w b →
  @conditional_swap Z (select_int w) a b (choice_of c) = (if c then (b, a) else (a, b))
  ∧ conditional_negate w a (choice_of c) =
      (if c then (if a =? - 2 ^ (w - 1) then a else - a) else a).
Proof.
  intros Hw Ha Hb. pose proof (select_int_laws w Hw) as HL.
  assert (wrapping_neg_int w a = if a =? - 2 ^ (w - 1) then a else - a) as Hneg.
  { unfold wrapping_neg_int, wneg. pose proof (pow2_half w Hw). unfold in_signed in *.
    destruct (Z.eqb_spec a (- 2 ^ (w - 1))) as [->|].
    - replace (- - 2 ^ (w - 1)) with (- 2 ^ (w - 1) + 1 * 2 ^ w) by lia.
      unfold wrap. rewrite Z_mod_plus_full. apply (as_signed_wrap w); [done|].
      unfold in_signed. lia.
    - apply as_signed_wrap; [done|]. unfold in_signed. lia. }
  split.
  - unfold conditional_swap, conditional_assign.
    rewrite !(HL _ _ c) by done. by destruct c.
  - unfold conditional_negate, conditional_assign. rewrite (HL _ _ c); [by rewrite Hneg| |done].
    rewrite Hneg. unfold in_signed in *.
    destruct (Z.eqb_spec a (- 2 ^ (w - 1))); lia.
Qed.

Lemma conditional_ops_correct_witness :
  @conditional_swap Z (select_int 8) (-128) 5 (choice_of true) = (5, -128)
  ∧ conditional_negate 8 (-128) (choice_of true) = -128.
Proof.
  apply (conditional_ops_correct 8 (-128) 5 true);
    [lia | unfold in_signed; simpl; lia | unfold in_signed; simpl; lia].
Defined.

(** Read through [into_option], [CtOption] is the option monad: [map], [and_then],
    [or_else], [unwrap_or] and [unwrap] agree with [Option]'s methods of the same names,
    for every element type whose selection meets the trait's promise. *)
Theorem ct_option_refines_option {T U : Type} (S : ConditionallySelectable T) (valid : T → Prop)
    (HS : SelectLaws T S valid) (o alt : CtOption T) (f : T → U) (g : T → CtOption U) (d : T) :
  ctopt_ok o → ctopt_ok alt → (∀ x, ctopt_ok (g x)) →
  valid (ct_value o) → valid (ct_value alt) → valid d →
  ctopt_into_option (ctopt_map o f) = f <$> ctopt_into_option o
  ∧ ctopt_into_option (ctopt_and_then o g) = (ctopt_into_option o ≫= λ x, ctopt_into_option (g x))
  ∧ ctopt_into_option (ctopt_or_else o (λ _, alt)) =
      match ctopt_into_option o with Some x => Some x | None => ctopt_into_option alt end
  ∧ ctopt_unwrap_or o d = default d (ctopt_into_option o)
  ∧ ctopt_unwrap o = ctopt_into_option o.
Proof.
  intros Ho Halt Hg Vo Va Vd. destruct o as [x cx], alt as [y cy]. unfold ctopt_ok in *. simpl in *.
  rewrite (choice_ok_of _ Ho), (choice_ok_of _ Halt). clear Ho Halt.
  generalize (bool_from cx) as bx, (bool_from cy) as by_. intros bx by_.
  specialize (Hg x).
  unfold ctopt_into_option, ctopt_or_else, ctopt_unwrap_or, ctopt_unwrap, ctopt_and_then. simpl.
  rewrite (HS x y bx), (HS x d bx) by done.
  destruct bx, by_; simpl; (split_and!; try done);
    destruct (g x) as [z [v]]; simpl in *; by destruct Hg as [Hv|Hv]; simpl in Hv; subst.
Qed.

Lemma ct_option_refines_option_witness :
  let o := mk_ctoption 7 (choice_of false) in let alt := mk_ctoption 9 (choice_of true) in
  let g := λ x, mk_ctoption (x + 1) (choice_of true) in
  ctopt_into_option (@ctopt_map Z Z o Z.succ) = Z.succ <$> ctopt_into_option o
  ∧ ctopt_into_option (@ctopt_and_then Z Z o g)
      = (ctopt_into_option o ≫= λ x, ctopt_into_option (g x))
  ∧ ctopt_into_option (@ctopt_or_else Z (select_uint 8) o (λ _, alt)) =
      match ctopt_into_option o with Some x => Some x | None => ctopt_into_option alt end
  ∧ @ctopt_unwrap_or Z (select_uint 8) o 3 = default 3 (ctopt_into_option o)
  ∧ ctopt_unwrap o = ctopt_into_option o.
Proof.
  apply (ct_option_refines_option (select_uint 8) (in_width 8) (select_uint_laws 8 ltac:(lia))).
  - by left.
  - by right.
  - intros x. by right.
  - simpl. unfold in_width. lia.
  - simpl. unfold in_width. lia.
  - unfold in_width. lia.
Defined.
