(* ===== verification/TlsBase.v ===== *)
(** The vocabulary shared by the TLS, DTLS and QUIC layers ([src/tls/error.rs],
    [src/tls/version.rs]): alert codes, errors, protocol versions and record
    content types, with their wire encodings. *)

From S2P Require Import Prelude.

(** * Alert descriptions *)

Module AlertDescription.
Inductive alert_description :=
| CloseNotify
| UnexpectedMessage
| BadRecordMac
| RecordOverflow
| HandshakeFailure
| BadCertificate
| UnsupportedCertificate
| CertificateExpired
| CertificateUnknown
| IllegalParameter
| DecodeError
| DecryptError
| ProtocolVersion
| InternalError
| MissingExtension
| UnsupportedExtension
| UnrecognizedName
| NoApplicationProtocol
| CertificateRequired
| UserCanceled
| NoRenegotiation
| Unknown (v : Z).

#[global] Instance alert_description_eq_dec : EqDecision alert_description.
Proof. solve_decision. Defined.

Definition INAPPROPRIATE_FALLBACK : alert_description := Unknown 86.
Definition TOO_MANY_CIDS_REQUESTED : alert_description := Unknown 52.
Definition CERTIFICATE_REVOKED : alert_description := Unknown 44.
Definition UNKNOWN_CA : alert_description := Unknown 48.
Definition ACCESS_DENIED : alert_description := Unknown 49.

Definition alert_as_u8 (self : alert_description) : Z :=
  match self with
  | CloseNotify => 0
  | UnexpectedMessage => 10
  | BadRecordMac => 20
  | RecordOverflow => 22
  | HandshakeFailure => 40
  | BadCertificate => 42
  | UnsupportedCertificate => 43
  | CertificateExpired => 45
  | CertificateUnknown => 46
  | IllegalParameter => 47
  | DecodeError => 50
  | DecryptError => 51
  | ProtocolVersion => 70
  | InternalError => 80
  | MissingExtension => 109
  | UnsupportedExtension => 110
  | UnrecognizedName => 112
  | NoApplicationProtocol => 120
  | CertificateRequired => 116
  | UserCanceled => 90
  | NoRenegotiation => 100
  | Unknown v => v
  end.

Definition alert_from_u8 (v : Z) : alert_description :=
  match v with
  | 0 => CloseNotify
  | 10 => UnexpectedMessage
  | 20 => BadRecordMac
  | 22 => RecordOverflow
  | 40 => HandshakeFailure
  | 42 => BadCertificate
  | 43 => UnsupportedCertificate
  | 45 => CertificateExpired
  | 46 => CertificateUnknown
  | 47 => IllegalParameter
  | 50 => DecodeError
  | 51 => DecryptError
  | 70 => ProtocolVersion
  | 80 => InternalError
  | 109 => MissingExtension
  | 110 => UnsupportedExtension
  | 112 => UnrecognizedName
  | 120 => NoApplicationProtocol
  | 116 => CertificateRequired
  | 90 => UserCanceled
  | 100 => NoRenegotiation
  | other => Unknown other
  end.

Lemma alert_as_from_u8 v : alert_as_u8 (alert_from_u8 v) = v.
Proof. destruct v as [|p|p]; try done. do 8 (try destruct p as [p|p|]; try done). Qed.
End AlertDescription.

(** * Errors *)

Module Error.
Inductive tls_error :=
| Decode
| UnexpectedMessage
| BadRecordMac
| HandshakeFailure
| UnsupportedVersion
| BadCertificate
| PeerMisbehaved
| AlertReceived (a : AlertDescription.alert_description)
| InappropriateState
| IllegalParameter
| RecordOverflow
| TooManyRecords
| InappropriateFallback
| NoApplicationProtocol
| UnsupportedExtension
| MissingExtension
| DecryptError
| CertificateRequired
| UnknownIssuer
| CertificateExpired
| CertificateRejected (a : AlertDescription.alert_description)
| CertificateRevoked
| OcspResponseInvalid
| EchRejected (retry_configs : bytes)
| EchDecodeError
| EchDecryptionFailed
| EchInnerMalformed
| EchConfigUnusable
| CertDecompressionFailed
| MissingServerName
| NoUsableCipherSuites
| MissingEntropySource
| TooManyConnectionIdsRequested
| IdentityKeyMismatch
| UnsupportedKeyType
| RenegotiationLimitExceeded
| PeerCertificateChanged
| RenegotiationBufferFull.

#[global] Instance tls_error_eq_dec : EqDecision tls_error.
Proof. solve_decision. Defined.

Definition is_certificate_error (self : tls_error) : bool :=
  match self with
  | BadCertificate | UnknownIssuer | CertificateExpired | CertificateRevoked
  | OcspResponseInvalid | CertificateRejected _ => true
  | _ => false
  end.

Definition certificate_alert (self : tls_error) : option AlertDescription.alert_description :=
  match self with
  | UnknownIssuer => Some AlertDescription.UNKNOWN_CA
  | CertificateExpired => Some AlertDescription.CertificateExpired
  | CertificateRevoked => Some AlertDescription.CERTIFICATE_REVOKED
  | CertificateRejected a => Some a
  | _ => None
  end.
End Error.

(** * Protocol versions *)

Module ProtocolVersion.
Inductive protocol_version :=
| SSLv3 | TLSv1_0 | TLSv1_1 | TLSv1_2 | TLSv1_3 | DTLSv1_0 | DTLSv1_2 | DTLSv1_3
| Unknown (v : Z).

#[global] Instance protocol_version_eq_dec : EqDecision protocol_version.
Proof. solve_decision. Defined.

Definition version_as_u16 (self : protocol_version) : Z :=
  match self with
  | SSLv3 => 0x0300
  | TLSv1_0 => 0x0301
  | TLSv1_1 => 0x0302
  | TLSv1_2 => 0x0303
  | TLSv1_3 => 0x0304
  | DTLSv1_0 => 0xfeff
  | DTLSv1_2 => 0xfefd
  | DTLSv1_3 => 0xfefc
  | Unknown v => v
  end.

Definition version_from_u16 (v : Z) : protocol_version :=
  match v with
  | 0x0300 => SSLv3
  | 0x0301 => TLSv1_0
  | 0x0302 => TLSv1_1
  | 0x0303 => TLSv1_2
  | 0x0304 => TLSv1_3
  | 0xfeff => DTLSv1_0
  | 0xfefd => DTLSv1_2
  | 0xfefc => DTLSv1_3
  | other => Unknown other
  end.

Lemma version_as_from_u16 v : version_as_u16 (version_from_u16 v) = v.
Proof. destruct v as [|p|p]; try done. do 16 (try destruct p as [p|p|]; try done). Qed.
End ProtocolVersion.

(** * Content types *)

Module ContentType.
Inductive content_type :=
| ChangeCipherSpec | Alert | Handshake | ApplicationData
| Unknown (v : Z).

#[global] Instance content_type_eq_dec : EqDecision content_type.
Proof. solve_decision. Defined.

Definition content_type_as_u8 (self : content_type) : Z :=
  match self with
  | ChangeCipherSpec => 20
  | Alert => 21
  | Handshake => 22
  | ApplicationData => 23
  | Unknown v => v
  end.

Definition content_type_from_u8 (v : Z) : content_type :=
  match v with
  | 20 => ChangeCipherSpec
  | 21 => Alert
  | 22 => Handshake
  | 23 => ApplicationData
  | other => Unknown other
  end.

Lemma content_type_as_from_u8 v : content_type_as_u8 (content_type_from_u8 v) = v.
Proof. destruct v as [|p|p]; try done. do 6 (try destruct p as [p|p|]; try done). Qed.
End ContentType.

Abbreviation tls_result := (result Error.tls_error).
