(* ===== verification/Varint.v ===== *)
(** QUIC variable-length integers ([src/quic/varint.rs], RFC 9000 section 16).
    Values are [u64]; [decode] accumulates at most 62 bits, so its shifts
    never lose a bit ([varint_decode_bounds]). *)

From S2P Require Import Prelude TlsBase.

Definition VARINT_MAX : Z := Z.shiftl 1 62 - 1.

Definition varint_encoded_len (value : Z) : Z :=
  if value <? Z.shiftl 1 6 then 1
  else if value <? Z.shiftl 1 14 then 2
  else if value <? Z.shiftl 1 30 then 4
  else 8.

(** Release semantics: the [debug_assert!] on the range is compiled out and
    larger values are clamped. *)
Definition varint_encode (value : Z) (out : bytes) : bytes :=
  let value := Z.min value VARINT_MAX in
  if value <? Z.shiftl 1 6 then out ++ [as_u8 value]
  else if value <? Z.shiftl 1 14 then
    match be_bytes 2 (as_u16 value) with
    | b0 :: rest => out ++ Z.lor b0 0x40 :: rest
    | [] => out
    end
  else if value <? Z.shiftl 1 30 then
    match be_bytes 4 (as_u32 value) with
    | b0 :: rest => out ++ Z.lor b0 0x80 :: rest
    | [] => out
    end
  else
    match be_bytes 8 value with
    | b0 :: rest => out ++ Z.lor b0 0xC0 :: rest
    | [] => out
    end.

Definition varint_decode (buf : bytes) : tls_result (Z * Z) :=
  match buf with
  | [] => Err Error.Decode
  | b0 :: rest =>
      let tag := Z.shiftr b0 6 in
      let len := Z.shiftl 1 tag in
      if zlen buf <? len then Err Error.Decode
      else Ok (be_fold (Z.land b0 0x3F) (ztake (len - 1) rest), len)
  end.

(** [usize::try_from] on a target whose pointers have [usize_bits] bits. *)
Definition bounded_len (usize_bits length available : Z) : tls_result Z :=
  match (if length <? 2 ^ usize_bits then Some length else None) with
  | Some len => if len <=? available then Ok len else Err Error.Decode
  | None => Err Error.Decode
  end.

(** * Lemmas *)

(** Decoding [2^t] bytes whose first one carries the tag [t]. *)
Lemma varint_decode_tagged (t : Z) (b0 : Z) (rest tail : bytes) :
  0 ≤ t < 4 → 0 ≤ b0 < 64 → bytes_ok rest → 1 + zlen rest = 2 ^ t →
  varint_decode (t * 64 + b0 :: rest ++ tail) = Ok (be_value (b0 :: rest), 2 ^ t).
Proof.
  intros Ht Hb0 Hrest Hlen. cbv [varint_decode]. unfold mret, result_ret.
  assert (Z.shiftr (t * 64 + b0) 6 = t) as ->.
  { rewrite Z.shiftr_div_pow2 by lia. change (2 ^ 6) with 64.
    rewrite Z.div_add_l, Z.div_small; lia. }
  rewrite Z.shiftl_1_l. cbv zeta.
  destruct (Z.ltb_spec (zlen (t * 64 + b0 :: rest ++ tail)) (2 ^ t)) as [Hlt|_].
  { unfold zlen in *. simpl in Hlt. rewrite length_app in Hlt. lia. }
  assert (Z.land (t * 64 + b0) 63 = b0) as ->.
  { rewrite (land_mask _ 6) by lia. change (2 ^ 6) with 64.
    rewrite Z.add_comm, Z.mod_add, Z.mod_small; lia. }
  replace (2 ^ t - 1) with (zlen rest) by lia. rewrite ztake_app.
  done.
Qed.

(** Encoding with a tag and a length of [n] bytes is undone by [decode]. *)
Lemma varint_tag_roundtrip (t : Z) (n : nat) (v : Z) (tail : bytes) b0 rest :
  0 ≤ t < 4 → Z.of_nat n = 2 ^ t → in_width (8 * 2 ^ t - 2) v →
  be_bytes n v = b0 :: rest →
  varint_decode (Z.lor b0 (t * 64) :: rest ++ tail) = Ok (v, 2 ^ t).
Proof.
  intros Ht Hn Hv Hbe. destruct n as [|n]; [discriminate|].
  assert (1 ≤ 2 ^ t) by lia.
  assert (be_value (b0 :: rest) = v) as Hval.
  { rewrite <- Hbe, be_value_be_bytes. apply wrap_small.
    apply (in_width_mono (8 * 2 ^ t - 2)); [lia|done]. }
  simpl in Hbe. injection Hbe as Hb0 Hrest. subst rest.
  assert (0 ≤ b0 < 64) as Hb.
  { unfold in_width in Hv.
    replace (8 * 2 ^ t - 2) with (6 + 8 * Z.of_nat n) in Hv by lia.
    rewrite Z.pow_add_r in Hv by lia. change (2 ^ 6) with 64 in Hv.
    assert (0 ≤ v / 2 ^ (8 * Z.of_nat n) < 64).
    { split; [apply Z.div_pos; lia|]. apply Z.div_lt_upper_bound; lia. }
    subst b0. rewrite Z.shiftr_div_pow2, wrap_small by (unfold in_width; lia). done. }
  change (t * 64) with (t * 2 ^ 6). rewrite lor_high by (unfold in_width; simpl; lia).
  change (2 ^ 6) with 64.
  rewrite varint_decode_tagged; try done.
  - by rewrite Hval.
  - apply be_bytes_ok.
  - unfold zlen. rewrite length_be_bytes. lia.
Qed.

Lemma varint_encode_app value out : varint_encode value out = out ++ varint_encode value [].
Proof.
  unfold varint_encode. cbv zeta.
  repeat case_match; by rewrite ?app_nil_r, ?app_nil_l.
Qed.

Lemma varint_roundtrip v rest : 0 ≤ v ≤ VARINT_MAX →
  varint_decode (varint_encode v [] ++ rest) = Ok (v, varint_encoded_len v).
Proof.
  intros Hv. change VARINT_MAX with (2 ^ 62 - 1) in Hv.
  unfold varint_encode, varint_encoded_len.
  change VARINT_MAX with (2 ^ 62 - 1). rewrite Z.min_l by lia.
  change (Z.shiftl 1 6) with 64. change (Z.shiftl 1 14) with (2 ^ 14).
  change (Z.shiftl 1 30) with (2 ^ 30).
  destruct (Z.ltb_spec v 64).
  { rewrite wrap_small by (unfold in_width; lia).
    pose proof (varint_decode_tagged 0 v [] rest) as Hd. rewrite Z.add_0_l in Hd.
    simpl in Hd |- *. rewrite Hd by (try done; lia). done. }
  destruct (Z.ltb_spec v (2 ^ 14)).
  { destruct (be_bytes 2 (as_u16 v)) as [|b0 l] eqn:E; [discriminate|].
    rewrite wrap_small in E by (unfold in_width; lia). simpl app.
    apply (varint_tag_roundtrip 1 2 v rest b0 l); try done; unfold in_width; simpl; lia. }
  destruct (Z.ltb_spec v (2 ^ 30)).
  { destruct (be_bytes 4 (as_u32 v)) as [|b0 l] eqn:E; [discriminate|].
    rewrite wrap_small in E by (unfold in_width; lia). simpl app.
    apply (varint_tag_roundtrip 2 4 v rest b0 l); try done; unfold in_width; simpl; lia. }
  destruct (be_bytes 8 v) as [|b0 l] eqn:E; [discriminate|]. simpl app.
  apply (varint_tag_roundtrip 3 8 v rest b0 l); try done; unfold in_width; simpl; lia.
Qed.

Lemma length_varint_encode v : 0 ≤ v ≤ VARINT_MAX →
  zlen (varint_encode v []) = varint_encoded_len v.
Proof.
  intros Hv. unfold varint_encode, varint_encoded_len. rewrite Z.min_l by lia.
  repeat case_match; try done;
    match goal with H : be_bytes ?n ?v = _ :: ?l |- _ =>
      apply (f_equal length) in H; rewrite length_be_bytes in H; simpl in H;
      unfold zlen; simpl; lia end.
Qed.

(** Values beyond the range are clamped, and counted as such. *)
Lemma zlen_varint_encode v : zlen (varint_encode v []) = varint_encoded_len v.
Proof.
  destruct (decide (0 ≤ v ≤ VARINT_MAX)) as [Hv|Hv]; [by apply length_varint_encode|].
  unfold varint_encode, varint_encoded_len. change VARINT_MAX with (2 ^ 62 - 1) in *.
  destruct (Z.ltb_spec v (Z.shiftl 1 6)) as [H|H].
  - rewrite Z.min_l by (change (Z.shiftl 1 6) with 64 in H; lia). cbv zeta. by destruct (Z.ltb_spec v (Z.shiftl 1 6)); [|lia].
  - assert (2 ^ 62 - 1 < v) as Hgt by (change (Z.shiftl 1 6) with 64 in H; lia). rewrite Z.min_r by lia. cbv zeta.
    destruct (Z.ltb_spec v (Z.shiftl 1 14)) as [H1|H1]; [change (Z.shiftl 1 14) with 16384 in H1; lia|].
    destruct (Z.ltb_spec v (Z.shiftl 1 30)) as [H2|H2]; [change (Z.shiftl 1 30) with 1073741824 in H2; lia|]. by vm_compute.
Qed.

Lemma zlen_varint_into v out : zlen (varint_encode v out) = zlen out + varint_encoded_len v.
Proof. by rewrite varint_encode_app, zlen_app, zlen_varint_encode. Qed.

Lemma varint_len_cases v : (v < 64 ∧ varint_encoded_len v = 1) ∨ (64 ≤ v < 16384 ∧ varint_encoded_len v = 2)
  ∨ (16384 ≤ v < 2 ^ 30 ∧ varint_encoded_len v = 4) ∨ (2 ^ 30 ≤ v ∧ varint_encoded_len v = 8).
Proof.
  unfold varint_encoded_len. change (Z.shiftl 1 6) with 64. change (Z.shiftl 1 14) with 16384. change (Z.shiftl 1 30) with (2 ^ 30).
  destruct (Z.ltb_spec v 64), (Z.ltb_spec v 16384), (Z.ltb_spec v (2 ^ 30)); lia.
Qed.

Lemma varint_encode_ok v out : 0 ≤ v → bytes_ok out → bytes_ok (varint_encode v out).
Proof.
  intros Hv Hout. unfold varint_encode. cbv zeta.
  assert (∀ n x b0 l t, be_bytes n x = b0 :: l → u8 t → bytes_ok (out ++ Z.lor b0 t :: l)) as Hgen.
  { intros n x b0 l t E Ht. pose proof (be_bytes_ok n x) as Hok. rewrite E in Hok.
    inversion Hok; subst. apply Forall_app. split; [done|]. constructor; [|done].
    by apply lor_in_width. }
  repeat case_match; try done; try (eapply Hgen; [eassumption|by split]).
  apply Forall_app. split; [done|]. repeat constructor; by apply wrap_range.
Qed.

(** Every successful decode consumes one of the four legal lengths, available in
    the buffer, and yields a value that fits in the bits of that length. *)
Lemma varint_decode_bounds buf v n : bytes_ok buf → varint_decode buf = Ok (v, n) →
  (n = 1 ∨ n = 2 ∨ n = 4 ∨ n = 8) ∧ n ≤ zlen buf ∧ 0 ≤ v < 2 ^ (8 * n - 2).
Proof.
  intros Hok Hdec. destruct buf as [|b0 rest]; [discriminate|].
  cbv [varint_decode] in Hdec. inversion Hok as [|? ? Hb0 Hrest]; subst.
  set (t := Z.shiftr b0 6) in *.
  assert (0 ≤ t < 4) as Ht.
  { unfold t. rewrite Z.shiftr_div_pow2 by lia. unfold in_width in Hb0.
    change (2 ^ 6) with 64. split; [apply Z.div_pos; lia|apply Z.div_lt_upper_bound; lia]. }
  rewrite Z.shiftl_1_l in Hdec.
  destruct (Z.ltb_spec (zlen (b0 :: rest)) (2 ^ t)); [discriminate|].
  injection Hdec as Hv Hn. subst n.
  assert (t = 0 ∨ t = 1 ∨ t = 2 ∨ t = 3) as Hcases by lia.
  assert (length (ztake (2 ^ t - 1) rest) = Z.to_nat (2 ^ t - 1)) as Hl.
  { unfold ztake. rewrite length_take. unfold zlen in *. simpl in *. lia. }
  assert (bytes_ok (ztake (2 ^ t - 1) rest)) as Hto by (by apply Forall_take).
  pose proof (be_value_range _ Hto) as Hr. rewrite be_fold_spec in Hv by done. rewrite Hl in *.
  assert (0 ≤ Z.land b0 63 < 64) as Hlow.
  { rewrite (land_mask _ 6) by lia. apply Z.mod_pos_bound. done. }
  unfold in_width in Hr. clearbody t.
  split; [|split; [lia|]].
  - destruct Hcases as [->|[->|[->| ->]]]; simpl; tauto.
  - assert (2 ^ (8 * 2 ^ t - 2) = 64 * 2 ^ (8 * Z.of_nat (Z.to_nat (2 ^ t - 1)))) as ->.
    { destruct Hcases as [->|[->|[->| ->]]]; done. }
    nia.
Qed.

(** * Properties *)

(** QUIC varints round-trip and are minimal.  For every representable value and
    any trailing bytes, [decode] returns the value and exactly the number of bytes
    [encode] wrote, which is [encoded_len]; and no buffer decodes to the same value
    with fewer bytes. *)
Theorem varint_roundtrip_minimal v rest : 0 ≤ v ≤ VARINT_MAX →
  varint_decode (varint_encode v [] ++ rest) = Ok (v, varint_encoded_len v)
  ∧ zlen (varint_encode v []) = varint_encoded_len v
  ∧ ∀ buf n, bytes_ok buf → varint_decode buf = Ok (v, n) → varint_encoded_len v ≤ n.
Proof.
  intros Hv. split; [by apply varint_roundtrip|]. split; [by apply length_varint_encode|].
  intros buf n Hok Hdec. apply varint_decode_bounds in Hdec as (Hn & _ & Hr); [|done].
  unfold varint_encoded_len.
  change (Z.shiftl 1 6) with (2 ^ 6). change (Z.shiftl 1 14) with (2 ^ 14).
  change (Z.shiftl 1 30) with (2 ^ 30).
  destruct Hn as [->|[->|[->| ->]]]; simpl in Hr;
    repeat match goal with |- context [?a <? ?b] => destruct (Z.ltb_spec a b) end; lia.
Qed.

Lemma varint_roundtrip_minimal_witness :
  varint_decode (varint_encode 15293 [] ++ [7]) = Ok (15293, 2)
  ∧ zlen (varint_encode 15293 []) = 2
  ∧ ∀ buf n, bytes_ok buf → varint_decode buf = Ok (15293, n) → 2 ≤ n.
Proof. apply (varint_roundtrip_minimal 15293 [7]). split; [lia|]. vm_compute. discriminate. Defined.

(** Narrowing a wire length before slicing is safe on every target: a length that
    [bounded_len] accepts is the decoded value itself (not its truncation to
    [usize]) and lies within the bytes available. *)
Theorem bounded_len_safe usize_bits length available len :
  bounded_len usize_bits length available = Ok len → len = length ∧ len ≤ available.
Proof. unfold bounded_len. repeat case_match; naive_solver lia. Qed.

Lemma bounded_len_safe_witness : 10 = 10 ∧ 10 ≤ 20.
Proof. apply (bounded_len_safe 32 10 20 10). reflexivity. Defined.
