(* ===== verification/Path.v ===== *)
(** QUIC network paths ([src/quic/path.rs]): the anti-amplification budget of one
    address, and the PATH_CHALLENGE / PATH_RESPONSE queues. *)

From S2P Require Import Prelude Ct.

(** * Addresses and budgets *)

(** [SocketAddr]: the address bytes (4 or 16) and the port. *)
Record SocketAddr := mkSocketAddr { ip : bytes; port : Z }.

#[global] Instance SocketAddr_eq_dec : EqDecision SocketAddr.
Proof. solve_decision. Defined.

Record Path := mkPath { validated : bool; bytes_recv : Z; bytes_sent : Z }.

#[export] Instance eta_path : Eta Path := λ p, mkPath (validated p) (bytes_recv p) (bytes_sent p).

(** [Path::default()] *)
Definition path_default : Path := mkPath false 0 0.
Definition path_validated : Path := mkPath true 0 0.

Definition path_can_send (self : Path) (n : Z) : bool :=
  if validated self then true
  else
    let budget := Z.min (2 ^ 64 - 1) (bytes_recv self * 3) in
    sat_add 64 (bytes_sent self) n <=? budget.

Definition note_sent (self : Path) (n : Z) : Path :=
  if negb (validated self) then self <| bytes_sent := sat_add 64 (bytes_sent self) n |> else self.

Definition note_recv (self : Path) (n : Z) : Path :=
  if negb (validated self) then self <| bytes_recv := sat_add 64 (bytes_recv self) n |> else self.

(** * Challenges *)

Definition PATH_CHALLENGE_CAP : Z := 8.

Record PathChallengeState := mkPathChallengeState {
  outstanding_challenges : list (bytes * Z); pending_challenge : list bytes;
  pending_response : list (bytes * option SocketAddr) }.

#[export] Instance eta_pcs : Eta PathChallengeState := λ p,
  mkPathChallengeState (outstanding_challenges p) (pending_challenge p) (pending_response p).

Definition pcs_new : PathChallengeState := mkPathChallengeState [] [] [].

(** [if v.len() >= PATH_CHALLENGE_CAP { v.remove(0); } v.push(x)] *)
Definition push_capped {X} (v : list X) (x : X) : list X :=
  (if PATH_CHALLENGE_CAP <=? zlen v then drop 1 v else v) ++ [x].

(** [data] is what the random source wrote. *)
Definition issue (self : PathChallengeState) (data : bytes) (now : Z) : PathChallengeState :=
  self <| outstanding_challenges := push_capped (outstanding_challenges self) (data, now) |>
       <| pending_challenge := push_capped (pending_challenge self) data |>.

Definition requeue_challenge (self : PathChallengeState) (data : bytes) : PathChallengeState :=
  if negb (existsb (λ e, bool_decide (e.1 = data)) (outstanding_challenges self)) then self
  else if bool_decide (data ∈ pending_challenge self) then self
  else self <| pending_challenge := pending_challenge self ++ [data] |>.

Definition on_challenge (self : PathChallengeState) (data : bytes) (from : option SocketAddr) : PathChallengeState :=
  if zlen (pending_response self) <? PATH_CHALLENGE_CAP then
    if negb (existsb (λ e, bool_decide (e.1 = data) && bool_decide (e.2 = from)) (pending_response self)) then
      self <| pending_response := pending_response self ++ [(data, from)] |>
    else self
  else self.

(** [.iter().position(|(d, _)| bool::from(d.ct_eq(&data)))] *)
Fixpoint challenge_index (data : bytes) (l : list (bytes * Z)) : option nat :=
  match l with
  | [] => None
  | (d, _) :: l => if bool_from (ct_eq_slice (ct_eq_uint 8) d data) then Some 0%nat else S <$> challenge_index data l
  end.

Definition on_response (self : PathChallengeState) (data : bytes) : PathChallengeState * bool :=
  match challenge_index data (outstanding_challenges self) with
  | Some idx =>
      (self <| outstanding_challenges := delete idx (outstanding_challenges self) |>
            <| pending_challenge := filter (λ d, d ≠ data) (pending_challenge self) |>, true)
  | None => (self, false)
  end.

Definition retain_responses_for (self : PathChallengeState) (to : option SocketAddr) : PathChallengeState :=
  match to with
  | None => self
  | Some _ => self <| pending_response := filter (λ e, e.2 = None ∨ e.2 = to) (pending_response self) |>
  end.

(** The loop of [take_responses_off_path]: what stays, what is taken out. *)
Fixpoint off_path_loop (to : option SocketAddr) (l : list (bytes * option SocketAddr))
  : list (bytes * option SocketAddr) * list (bytes * SocketAddr) :=
  match l with
  | [] => ([], [])
  | (data, from) :: l =>
      let '(kept, out) := off_path_loop to l in
      match from with
      | Some a => if bool_decide (Some a ≠ to) then (kept, (data, a) :: out) else ((data, from) :: kept, out)
      | None => ((data, from) :: kept, out)
      end
  end.

Definition take_responses_off_path (self : PathChallengeState) (to : option SocketAddr)
  : PathChallengeState * list (bytes * SocketAddr) :=
  match to with
  | None => (self, [])
  | Some _ =>
      let '(kept, out) := off_path_loop to (pending_response self) in
      (self <| pending_response := kept |>, out)
  end.

(** The loop of [pop_outbound_response]. *)
Fixpoint pop_response_loop (to : option SocketAddr) (l : list (bytes * option SocketAddr))
  : list (bytes * option SocketAddr) * option bytes :=
  match l with
  | [] => ([], None)
  | (data, from) :: l =>
      if bool_decide (from = None) || bool_decide (to = None) || bool_decide (from = to) then (l, Some data)
      else pop_response_loop to l
  end.

Definition pop_outbound_response (self : PathChallengeState) (to : option SocketAddr)
  : PathChallengeState * option bytes :=
  let '(l, r) := pop_response_loop to (pending_response self) in (self <| pending_response := l |>, r).

Definition pop_outbound_challenge (self : PathChallengeState) : PathChallengeState * option bytes :=
  match pending_challenge self with
  | [] => (self, None)
  | d :: l => (self <| pending_challenge := l |>, Some d)
  end.

Definition has_pending_challenge (self : PathChallengeState) : bool := negb (is_nil (pending_challenge self)).
Definition pending_challenge_len (self : PathChallengeState) : Z := zlen (pending_challenge self).
Definition pending_len (self : PathChallengeState) : Z :=
  zlen (pending_challenge self) + zlen (pending_response self).

Definition gc (self : PathChallengeState) (now max_age : Z) : PathChallengeState :=
  let self := self <| outstanding_challenges :=
                filter (λ e, sat_sub now e.2 ≤ max_age) (outstanding_challenges self) |> in
  let live := outstanding_challenges self in
  self <| pending_challenge := filter (λ d, Exists (λ o, o.1 = d) live) (pending_challenge self) |>.

Definition has_outstanding (self : PathChallengeState) : bool := negb (is_nil (outstanding_challenges self)).
Definition has_pending_response (self : PathChallengeState) : bool := negb (is_nil (pending_response self)).
