(* ===== verification/Datagram.v ===== *)
(** QUIC unreliable datagrams ([src/quic/datagram.rs]): the queues of a connection. *)

From S2P Require Import Prelude TlsBase Varint.

Definition MAX_INBOUND_DATAGRAMS : Z := 64.
Definition MAX_INBOUND_DATAGRAM_BYTES : Z := 1024 * 1024.

Record DatagramQueues := mkDatagramQueues {
  outbound_dgs : list bytes; inbound_dgs : list bytes; inbound_bytes : Z;
  peer_max_frame_size : Z; our_max_frame_size : Z }.

#[export] Instance eta_dgs : Eta DatagramQueues := λ q,
  mkDatagramQueues (outbound_dgs q) (inbound_dgs q) (inbound_bytes q) (peer_max_frame_size q) (our_max_frame_size q).

Definition datagrams_new (peer_param our_param : option Z) : DatagramQueues :=
  mkDatagramQueues [] [] 0 (default 0 peer_param) (default 0 our_param).

Definition peer_accepts (self : DatagramQueues) : bool := 0 <? peer_max_frame_size self.

(** The length of the DATAGRAM frame that carries [data]. *)
Definition datagram_frame_len (data : bytes) : Z := 1 + varint_encoded_len (zlen data) + zlen data.

Definition send_datagram (self : DatagramQueues) (data : bytes) : DatagramQueues * tls_result () :=
  if negb (peer_accepts self) then (self, Err Error.InappropriateState)
  else if peer_max_frame_size self <? datagram_frame_len data then (self, Err Error.IllegalParameter)
  else (self <| outbound_dgs := outbound_dgs self ++ [data] |>, Ok ()).

Definition recv_datagram (self : DatagramQueues) : DatagramQueues * option bytes :=
  match inbound_dgs self with
  | [] => (self, None)
  | d :: l => (self <| inbound_dgs := l |> <| inbound_bytes := wsub 64 (inbound_bytes self) (zlen d) |>, Some d)
  end.

Definition pop_outbound (self : DatagramQueues) (budget : Z) : DatagramQueues * option bytes :=
  match outbound_dgs self with
  | [] => (self, None)
  | head :: l => if budget <? datagram_frame_len head then (self, None) else (self <| outbound_dgs := l |>, Some head)
  end.

Definition enqueue_inbound (self : DatagramQueues) (data : bytes) : DatagramQueues * bool :=
  if (MAX_INBOUND_DATAGRAMS <=? zlen (inbound_dgs self))
     || (MAX_INBOUND_DATAGRAM_BYTES <? sat_add 64 (inbound_bytes self) (zlen data))
  then (self, false)
  else (self <| inbound_bytes := wadd 64 (inbound_bytes self) (zlen data) |>
             <| inbound_dgs := inbound_dgs self ++ [data] |>, true).

(** The arm of [Frame::Datagram] in [connection.rs]; [one_rtt] is the level check. *)
Definition on_datagram_frame (self : DatagramQueues) (one_rtt : bool) (data : bytes) : DatagramQueues * tls_result () :=
  if our_max_frame_size self =? 0 then (self, Err Error.IllegalParameter)
  else if our_max_frame_size self <? datagram_frame_len data then (self, Err Error.IllegalParameter)
  else if one_rtt then ((enqueue_inbound self data).1, Ok ())
  else (self, Ok ()).
