(* ===== verification/Pn.v ===== *)
(** QUIC packet numbers ([src/quic/pn.rs]): the set of received packet numbers
    kept as descending ranges, and the truncated packet-number codec of
    RFC 9000 section 17.1. *)

From S2P Require Import Prelude.

(** * Received packet numbers *)

Inductive PnSpaceId := Initial | Handshake | Application.

Definition MAX_ACK_RANGES : nat := 32.

(** [RangeInclusive<u64>] as [(start, end)]; [AckRanges] is the vector of them. *)
Abbreviation pn_range := (Z * Z)%type.
Abbreviation AckRanges := (list pn_range).

Definition range_contains (r : pn_range) (pn : Z) : bool := (r.1 <=? pn) && (pn <=? r.2).

(** The first index whose range starts at or below [pn], else the length. *)
Fixpoint insert_index (ranges : AckRanges) (pn : Z) : nat :=
  match ranges with
  | [] => 0
  | r :: rest => if r.1 <=? pn then 0 else S (insert_index rest pn)
  end.

Definition vec_insert {A} (i : nat) (x : A) (l : list A) : list A := take i l ++ x :: drop i l.

(** [*above = pn..=*above.end()] on the range before [i] if it starts at [pn + 1]. *)
Definition extend_above (ranges : AckRanges) (i : nat) (pn : Z) : AckRanges * bool :=
  if (0 <? i)%nat then
    match ranges !! (i - 1)%nat with
    | Some above =>
        if above.1 =? wadd 64 pn 1 then (<[(i - 1)%nat := (pn, above.2)]> ranges, true)
        else (ranges, false)
    | None => (ranges, false)
    end
  else (ranges, false).

(** [*below = *below.start()..=pn] on the range at [i] if it ends at [pn - 1]. *)
Definition extend_below (ranges : AckRanges) (i : nat) (pn : Z) : AckRanges * bool :=
  if (i <? length ranges)%nat then
    match ranges !! i with
    | Some below =>
        if wadd 64 below.2 1 =? pn then (<[i := (below.1, pn)]> ranges, true)
        else (ranges, false)
    | None => (ranges, false)
    end
  else (ranges, false).

Definition ack_insert (ranges : AckRanges) (pn : Z) : AckRanges :=
  if existsb (λ r, range_contains r pn) ranges then ranges
  else
    let insert_idx := insert_index ranges pn in
    let '(ranges, extended_above) := extend_above ranges insert_idx pn in
    let '(ranges, extended_below) := extend_below ranges insert_idx pn in
    match extended_above, extended_below with
    | true, true =>
        match ranges !! insert_idx with
        | Some below =>
            let ranges := delete insert_idx ranges in
            match ranges !! (insert_idx - 1)%nat with
            | Some above => <[(insert_idx - 1)%nat := (below.1, above.2)]> ranges
            | None => ranges
            end
        | None => ranges
        end
    | true, false | false, true => ranges
    | false, false =>
        if (MAX_ACK_RANGES <=? length ranges)%nat && (length ranges <=? insert_idx)%nat then ranges
        else
          let ranges := vec_insert insert_idx (pn, pn) ranges in
          if (MAX_ACK_RANGES <? length ranges)%nat then take MAX_ACK_RANGES ranges else ranges
    end.

Definition ack_contains (ranges : AckRanges) (pn : Z) : bool :=
  existsb (λ r, range_contains r pn) ranges.
Definition ack_largest (ranges : AckRanges) : option Z := snd <$> head ranges.
Definition ack_is_empty (ranges : AckRanges) : bool :=
  match ranges with [] => true | _ => false end.
Definition ack_clear (ranges : AckRanges) : AckRanges := [].

(** * Packet-number codec *)

Definition decode_packet_number (largest_pn truncated_pn pn_nbits : Z) : Z :=
  let expected_pn := wadd 64 largest_pn 1 in
  let pn_win := wshl 64 1 pn_nbits in
  let pn_hwin := Z.shiftr pn_win 1 in
  let pn_mask := pn_win - 1 in
  let candidate_pn := Z.lor (Z.land expected_pn (wnot 64 pn_mask)) truncated_pn in
  if (wadd 64 candidate_pn pn_hwin <=? expected_pn)
     && (candidate_pn <? Z.shiftl 1 62 - pn_win)
  then wadd 64 candidate_pn pn_win
  else if (wadd 64 expected_pn pn_hwin <? candidate_pn) && (pn_win <=? candidate_pn)
  then wsub 64 candidate_pn pn_win
  else candidate_pn.

(** [64 - gap.leading_zeros()] is the bit length of a non-zero [gap]. *)
Definition encode_packet_number_length (pn : Z) (largest_acked : option Z) : Z :=
  let gap := match largest_acked with
             | Some la => sat_sub pn la
             | None => sat_add 64 pn 1
             end in
  let needed_bits := (if gap =? 0 then 1 else Z.log2 gap + 1) + 1 in
  if needed_bits <=? 8 then 8
  else if needed_bits <=? 16 then 16
  else if needed_bits <=? 24 then 24
  else 32.

(** * Lemmas on range sets *)

(** Membership of a packet number in the ranges, as a proposition. *)
Definition ack_mem (ranges : AckRanges) (x : Z) : Prop := ∃ r, r ∈ ranges ∧ r.1 ≤ x ≤ r.2.

(** [a] lies strictly above [b], with at least one number between them. *)
Definition range_above (a b : pn_range) : Prop := b.2 + 1 < a.1.
Definition range_ok (r : pn_range) : Prop := 0 ≤ r.1 ≤ r.2 ∧ r.2 < 2 ^ 64.

(** The representation invariant: valid ranges, descending, disjoint and
    non-adjacent, at most [MAX_ACK_RANGES] of them. *)
Record ack_wf (ranges : AckRanges) : Prop := {
  ack_wf_ok : Forall range_ok ranges;
  ack_wf_sorted : StronglySorted range_above ranges;
  ack_wf_len : (length ranges ≤ MAX_ACK_RANGES)%nat }.

Lemma ack_contains_spec ranges x : ack_contains ranges x = true ↔ ack_mem ranges x.
Proof.
  unfold ack_contains, ack_mem, range_contains. rewrite existsb_exists.
  split; intros (r & Hin & Hr); exists r; rewrite ?list_elem_of_In in *;
    rewrite ?andb_true_iff, ?Z.leb_le in *; done.
Qed.

Lemma ack_mem_app l k x : ack_mem (l ++ k) x ↔ ack_mem l x ∨ ack_mem k x.
Proof. unfold ack_mem. setoid_rewrite elem_of_app. naive_solver. Qed.
Lemma ack_mem_cons r k x : ack_mem (r :: k) x ↔ r.1 ≤ x ≤ r.2 ∨ ack_mem k x.
Proof. unfold ack_mem. setoid_rewrite elem_of_cons. naive_solver. Qed.
Lemma ack_mem_nil x : ack_mem [] x ↔ False.
Proof. unfold ack_mem. setoid_rewrite elem_of_nil. naive_solver. Qed.

Create Rewrite HintDb ack.
#[export] Hint Rewrite ack_mem_app ack_mem_cons ack_mem_nil : ack.

(** The five ways [ack_insert] can change the vector. *)
Inductive insert_case (r : AckRanges) (pn : Z) : AckRanges → Prop :=
| case_present : ack_mem r pn → insert_case r pn r
| case_bridge ab e s bl : r = ab ++ (pn + 1, e) :: (s, pn - 1) :: bl →
    insert_case r pn (ab ++ (s, e) :: bl)
| case_down ab e bl : r = ab ++ (pn + 1, e) :: bl → Forall (λ b, b.2 + 1 < pn) bl →
    insert_case r pn (ab ++ (pn, e) :: bl)
| case_up ab s bl : r = ab ++ (s, pn - 1) :: bl → Forall (λ a, pn + 1 < a.1) ab →
    insert_case r pn (ab ++ (s, pn) :: bl)
| case_new ab bl : r = ab ++ bl → Forall (λ a, pn + 1 < a.1) ab → Forall (λ b, b.2 + 1 < pn) bl →
    insert_case r pn (take MAX_ACK_RANGES (ab ++ (pn, pn) :: bl)).

Lemma insert_index_split r pn : ∃ ab bl, r = ab ++ bl ∧ insert_index r pn = length ab ∧
  Forall (λ a, pn < a.1) ab ∧ match bl with [] => True | b :: _ => b.1 ≤ pn end.
Proof.
  induction r as [|a r (ab & bl & -> & Hi & Hab & Hbl)]; simpl.
  - by exists [], [].
  - destruct (Z.leb_spec a.1 pn).
    + by exists [], (a :: ab ++ bl).
    + exists (a :: ab), bl. simpl. split_and!; auto.
Qed.

Lemma list_insert_middle {A} (l k : list A) (x y : A) : <[length l := y]> (l ++ x :: k) = l ++ y :: k.
Proof. by rewrite insert_app_r_alt, Nat.sub_diag by done. Qed.

Lemma delete_middle_eq {A} (l k : list A) (x : A) : delete (length l) (l ++ x :: k) = l ++ k.
Proof. by rewrite delete_middle. Qed.

Lemma extend_below_spec ab bl pn : u64 pn → match bl with [] => True | b :: _ => 0 ≤ b.2 < pn end →
  extend_below (ab ++ bl) (length ab) pn =
  match bl with
  | b :: bl' => if b.2 + 1 =? pn then (ab ++ (b.1, pn) :: bl', true) else (ab ++ b :: bl', false)
  | [] => (ab ++ [], false)
  end.
Proof.
  intros Hpn Hb. unfold extend_below. rewrite length_app.
  destruct bl as [|b bl]; simpl.
  - by rewrite Nat.add_0_r, Nat.ltb_irrefl.
  - destruct (Nat.ltb_spec (length ab) (length ab + S (length bl))); [|lia].
    rewrite list_lookup_middle by done. unfold wadd, in_width in *.
    rewrite wrap_small by (unfold in_width; lia).
    destruct (_ =? pn); [|done]. by rewrite list_insert_middle.
Qed.

Lemma extend_above_spec ab a bl pn : 0 ≤ pn < 2 ^ 64 - 1 →
  extend_above ((ab ++ [a]) ++ bl) (length (ab ++ [a])) pn =
  if a.1 =? pn + 1 then ((ab ++ [(pn, a.2)]) ++ bl, true) else ((ab ++ [a]) ++ bl, false).
Proof.
  intros Hpn. unfold extend_above. rewrite length_app. simpl.
  destruct (Nat.ltb_spec 0 (length ab + 1)); [|lia].
  rewrite Nat.add_sub, <- !app_assoc. simpl. rewrite list_lookup_middle by done.
  unfold wadd. rewrite wrap_small by (unfold in_width; lia).
  destruct (_ =? pn + 1); [|done]. by rewrite list_insert_middle.
Qed.

Lemma insert_fresh (ab bl : AckRanges) pn : (length (ab ++ bl) ≤ MAX_ACK_RANGES)%nat →
  (if (MAX_ACK_RANGES <=? length (ab ++ bl))%nat && (length (ab ++ bl) <=? length ab)%nat
   then ab ++ bl
   else if (MAX_ACK_RANGES <? length (vec_insert (length ab) (pn, pn) (ab ++ bl)))%nat
        then take MAX_ACK_RANGES (vec_insert (length ab) (pn, pn) (ab ++ bl))
        else vec_insert (length ab) (pn, pn) (ab ++ bl))
  = take MAX_ACK_RANGES (ab ++ (pn, pn) :: bl).
Proof.
  intros Hlen. unfold vec_insert. rewrite take_app_length, drop_app_length.
  destruct (Nat.leb_spec MAX_ACK_RANGES (length (ab ++ bl))); simpl;
    [destruct (Nat.leb_spec (length (ab ++ bl)) (length ab))|].
  - rewrite length_app in *. assert (bl = []) as -> by (apply nil_length_inv; lia).
    rewrite app_nil_r. symmetry. apply take_app_length'. simpl in *. lia.
  - destruct (Nat.ltb_spec MAX_ACK_RANGES (length (ab ++ (pn, pn) :: bl))); [done|].
    by rewrite take_ge.
  - destruct (Nat.ltb_spec MAX_ACK_RANGES (length (ab ++ (pn, pn) :: bl))); [done|].
    by rewrite take_ge.
Qed.

(** Where a packet number not recorded yet falls: all but the nearest range on each side are
    further than one away. *)
Lemma insert_neighbours r pn : ack_wf r → ¬ ack_mem r pn →
  ∃ ab bl, r = ab ++ bl ∧ insert_index r pn = length ab
    ∧ match bl with [] => True | b :: _ => 0 ≤ b.2 < pn end
    ∧ (∀ b bl', bl = b :: bl' → Forall (λ x, x.2 + 1 < pn) bl')
    ∧ (∀ ab' a, ab = ab' ++ [a] → pn < a.1 ∧ Forall (λ x, pn + 1 < x.1) ab').
Proof.
  intros [Hok Hs _] Hnot.
  destruct (insert_index_split r pn) as (ab & bl & -> & Hi & Hab & Hbl). exists ab, bl.
  apply Forall_app in Hok as [Hoka Hokb]. apply StronglySorted_app in Hs as (_ & Hsa & Hsb).
  split_and!; [done..| | |].
  - destruct bl as [|b bl]; [done|]. inversion Hokb as [|? ? [? ?]]; subst.
    split; [lia|]. destruct (Z.lt_ge_cases b.2 pn); [done|]. destruct Hnot.
    apply ack_mem_app. right. apply ack_mem_cons. left. lia.
  - intros b bl' ->. inversion Hsb as [|? ? _ Hf]; subst.
    assert (b.1 ≤ b.2) by (inversion Hokb as [|? ? [? ?]]; subst; lia).
    eapply Forall_impl; [exact Hf|]. unfold range_above. intros x ?. simpl in *. lia.
  - intros ab' a ->. apply Forall_app in Hab as [_ Ha]. inversion Ha as [|? ? Ha1 _]; subst.
    split; [done|]. apply Forall_forall. intros x Hx.
    apply StronglySorted_app in Hsa as (Hxa & _ & _).
    specialize (Hxa x a Hx ltac:(by apply list_elem_of_singleton)). unfold range_above in Hxa.
    apply Forall_app in Hoka as [_ Hoka]. inversion Hoka as [|? ? [? ?]]; subst. lia.
Qed.

(** [ack_insert] takes one of the five cases. *)
Lemma ack_insert_cases r pn : ack_wf r → 0 ≤ pn < 2 ^ 64 - 1 → insert_case r pn (ack_insert r pn).
Proof.
  intros Hwf Hpn. pose proof (ack_wf_len _ Hwf) as Hlen. unfold ack_insert. cbv zeta.
  destruct (existsb _ r) eqn:Hc; [constructor; by apply ack_contains_spec|].
  assert (¬ ack_mem r pn) as Hnot.
  { rewrite <- ack_contains_spec. unfold ack_contains. by rewrite Hc. }
  clear Hc. destruct (insert_neighbours r pn Hwf Hnot) as (ab & bl & -> & -> & Hbl2 & Htail & Hhead).
  destruct ab as [|a ab _] using rev_ind.
  - (* nothing above *)
    change (extend_above ([] ++ bl) (length []) pn) with ([] ++ bl, false). cbv beta iota.
    rewrite (extend_below_spec [] bl) by (done || (unfold in_width; lia)).
    destruct bl as [|b bl]; [by apply (case_new [] pn [] [])|].
    destruct (Z.eqb_spec (b.2 + 1) pn) as [Hb|Hb].
    + destruct b as [s e]. simpl in *. apply (case_up _ pn [] s bl); [|done].
      simpl. do 2 f_equal. lia.
    + rewrite (insert_fresh [] (b :: bl)) by done.
      apply (case_new _ pn [] (b :: bl)); [done..|]. constructor; [lia|eauto].
  - rewrite extend_above_spec by done.
    destruct (Hhead ab a eq_refl) as [Ha1 Hab'].
    replace (length (ab ++ [a])) with (length (ab ++ [(pn, a.2)])) by (by rewrite !length_app).
    destruct (Z.eqb_spec a.1 (pn + 1)) as [Ha2|Ha2].
    + rewrite (extend_below_spec _ bl) by (done || (unfold in_width; lia)).
      destruct a as [s1 e1]. simpl in Ha2. subst s1.
      destruct bl as [|b bl].
      { rewrite <- !app_assoc. simpl. by apply case_down. }
      destruct (Z.eqb_spec (b.2 + 1) pn) as [Hb|Hb].
      * rewrite list_lookup_middle, delete_middle_eq by done.
        rewrite length_app, Nat.add_sub, <- !app_assoc. simpl.
        rewrite list_lookup_middle, list_insert_middle by done. simpl.
        destruct b as [s e]. apply case_bridge. simpl in *. do 3 f_equal. f_equal. lia.
      * rewrite <- !app_assoc. simpl. apply case_down; [done|]. constructor; [lia|eauto].
    + replace (length (ab ++ [(pn, a.2)])) with (length (ab ++ [a])) by (by rewrite !length_app).
      rewrite (extend_below_spec _ bl) by (done || (unfold in_width; lia)).
      assert (Forall (λ x, pn + 1 < x.1) (ab ++ [a])).
      { apply Forall_app. split; [done|]. constructor; [lia|done]. }
      destruct bl as [|b bl].
      { rewrite insert_fresh by done. by apply case_new. }
      destruct (Z.eqb_spec (b.2 + 1) pn) as [Hb|Hb].
      * destruct b as [s e]. apply case_up; [|done]. simpl in *. do 2 f_equal. f_equal. lia.
      * rewrite insert_fresh by done. apply case_new; [done..|]. constructor; [lia|eauto].
Qed.

Lemma sorted_middle ab r bl : StronglySorted range_above (ab ++ r :: bl) ↔
  StronglySorted range_above (ab ++ bl) ∧ Forall (λ a, range_above a r) ab
  ∧ Forall (range_above r) bl.
Proof.
  rewrite !StronglySorted_app, StronglySorted_cons, !Forall_forall.
  setoid_rewrite elem_of_cons. naive_solver.
Qed.

Lemma insert_case_sorted r pn r' : 0 ≤ pn < 2 ^ 64 - 1 → ack_wf r → insert_case r pn r' → ack_wf r'.
Proof.
  intros Hpn [Hok Hs Hlen] Hcase.
  destruct Hcase as [|ab e s bl ->|ab e bl -> Hbl|ab s bl -> Hab|ab bl -> Hab Hbl]; [done|..].
  - rewrite Forall_app, !Forall_cons in Hok. destruct Hok as (Ha & [? ?] & [? ?] & Hb).
    rewrite sorted_middle, sorted_middle, Forall_cons in Hs.
    destruct Hs as ((Hs & _ & Hsb) & Hsa & _ & _). simpl in *. constructor.
    + apply Forall_app. split; [done|]. constructor; [|done]. unfold range_ok. simpl. lia.
    + apply sorted_middle. split_and!; [done|exact Hsa|exact Hsb].
    + rewrite length_app in *. simpl in *. lia.
  - rewrite Forall_app, Forall_cons in Hok. destruct Hok as (Ha & [? ?] & Hb).
    rewrite sorted_middle in Hs. destruct Hs as (Hs & Hsa & _). simpl in *. constructor.
    + apply Forall_app. split; [done|]. constructor; [|done]. unfold range_ok. simpl. lia.
    + apply sorted_middle. split_and!; [done|exact Hsa|exact Hbl].
    + rewrite length_app in *. simpl in *. lia.
  - rewrite Forall_app, Forall_cons in Hok. destruct Hok as (Ha & [? ?] & Hb).
    rewrite sorted_middle in Hs. destruct Hs as (Hs & _ & Hsb). simpl in *. constructor.
    + apply Forall_app. split; [done|]. constructor; [|done]. unfold range_ok. simpl. lia.
    + apply sorted_middle. split_and!; [done|exact Hab|exact Hsb].
    + rewrite length_app in *. simpl in *. lia.
  - apply Forall_app in Hok as [Ha Hb].
    assert (Forall range_ok (ab ++ (pn, pn) :: bl)) as Hok'.
    { apply Forall_app. split; [done|]. constructor; [|done]. unfold range_ok. simpl. lia. }
    assert (StronglySorted range_above (ab ++ (pn, pn) :: bl)) as Hs' by (by apply sorted_middle).
    constructor.
    + by apply Forall_take.
    + rewrite <- (take_drop MAX_ACK_RANGES) in Hs'. by eapply StronglySorted_app_1_l.
    + rewrite length_take. lia.
Qed.

(** Everything dropped by the cap lies below everything kept. *)
Lemma truncated_below l n x y : StronglySorted range_above l → Forall range_ok l →
  ack_mem (take n l) y → ack_mem (drop n l) x → x < y.
Proof.
  intros Hs Hok (a & Ha & ?) (b & Hb & ?). rewrite <- (take_drop n l) in Hs.
  apply StronglySorted_app in Hs as (Hab & _ & _). specialize (Hab a b Ha Hb).
  unfold range_above in Hab. lia.
Qed.

Lemma insert_case_mem r pn r' : ack_wf r → 0 ≤ pn < 2 ^ 64 - 1 → insert_case r pn r' →
  (∀ x, ack_mem r' x → x = pn ∨ ack_mem r x)
  ∧ (∀ x, x = pn ∨ ack_mem r x →
       ack_mem r' x ∨ length r' = MAX_ACK_RANGES ∧ ∀ y, ack_mem r' y → x < y).
Proof.
  intros Hwf Hpn Hcase. pose proof (ack_wf_ok _ Hwf) as Hok.
  pose proof (insert_case_sorted _ _ _ Hpn Hwf Hcase) as Hwf'.
  destruct Hcase as [|ab e s bl ->|ab e bl -> Hbl|ab s bl -> Hab|ab bl -> Hab Hbl].
  - split; [by auto|]. intros x [->|]; by left.
  - rewrite Forall_app, !Forall_cons in Hok. destruct Hok as (_ & [? ?] & [? ?] & _). simpl in *.
    split; intros x; autorewrite with ack; simpl;
      assert (s ≤ x ≤ e → x = pn ∨ pn + 1 ≤ x ≤ e ∨ s ≤ x ≤ pn - 1) by lia;
      assert (x = pn ∨ pn + 1 ≤ x ≤ e ∨ s ≤ x ≤ pn - 1 → s ≤ x ≤ e) by lia; tauto.
  - rewrite Forall_app, !Forall_cons in Hok. destruct Hok as (_ & [? ?] & _). simpl in *.
    split; intros x; autorewrite with ack; simpl;
      assert (pn ≤ x ≤ e → x = pn ∨ pn + 1 ≤ x ≤ e) by lia;
      assert (x = pn ∨ pn + 1 ≤ x ≤ e → pn ≤ x ≤ e) by lia; tauto.
  - rewrite Forall_app, !Forall_cons in Hok. destruct Hok as (_ & [? ?] & _). simpl in *.
    split; intros x; autorewrite with ack; simpl;
      assert (s ≤ x ≤ pn → x = pn ∨ s ≤ x ≤ pn - 1) by lia;
      assert (x = pn ∨ s ≤ x ≤ pn - 1 → s ≤ x ≤ pn) by lia; tauto.
  - set (full := ab ++ (pn, pn) :: bl).
    assert (∀ x, ack_mem full x ↔ x = pn ∨ ack_mem (ab ++ bl) x) as Hfull.
    { intros x. unfold full. autorewrite with ack. simpl.
      assert (pn ≤ x ≤ pn ↔ x = pn) by lia. tauto. }
    assert (∀ x, ack_mem full x ↔ ack_mem (take MAX_ACK_RANGES full) x
                              ∨ ack_mem (drop MAX_ACK_RANGES full) x) as Hsplit.
    { intros x. by rewrite <- ack_mem_app, take_drop. }
    split; intros x; rewrite <- Hfull, Hsplit; [tauto|].
    intros [|Hdrop]; [by left|right].
    assert (MAX_ACK_RANGES < length full)%nat.
    { destruct (Nat.lt_ge_cases MAX_ACK_RANGES (length full)); [done|].
      rewrite drop_ge in Hdrop by lia. by apply ack_mem_nil in Hdrop. }
    split; [rewrite length_take; lia|].
    intros y Hy. apply (truncated_below full MAX_ACK_RANGES); try done.
    + apply sorted_middle. split_and!; [apply (ack_wf_sorted _ Hwf)|done|done].
    + apply Forall_app in Hok as [? ?]. apply Forall_app. split; [done|].
      constructor; [|done]. unfold range_ok. simpl. lia.
Qed.

(** * Properties *)

(** C24: [AckRanges::insert] preserves its invariant (descending, disjoint,
    non-adjacent ranges, at most 32) and, read as a set, adds exactly the inserted
    number: nothing else appears, and a number disappears only when the vector is full
    and that number is below everything kept. *)
Theorem ack_insert_correct r pn : ack_wf r → 0 ≤ pn < 2 ^ 64 - 1 →
  ack_wf (ack_insert r pn)
  ∧ (∀ x, ack_contains (ack_insert r pn) x = true → x = pn ∨ ack_contains r x = true)
  ∧ (∀ x, x = pn ∨ ack_contains r x = true →
       ack_contains (ack_insert r pn) x = true
       ∨ length (ack_insert r pn) = MAX_ACK_RANGES
         ∧ ∀ y, ack_contains (ack_insert r pn) y = true → x < y).
Proof.
  intros Hwf Hpn. pose proof (ack_insert_cases r pn Hwf Hpn) as Hc.
  setoid_rewrite ack_contains_spec.
  split; [by eapply insert_case_sorted|]. by apply insert_case_mem.
Qed.

Lemma ack_insert_correct_witness :
  ack_wf (ack_insert [(7, 9); (1, 5)] 6)
  ∧ (∀ x, ack_contains (ack_insert [(7, 9); (1, 5)] 6) x = true →
       x = 6 ∨ ack_contains [(7, 9); (1, 5)] x = true)
  ∧ (∀ x, x = 6 ∨ ack_contains [(7, 9); (1, 5)] x = true →
       ack_contains (ack_insert [(7, 9); (1, 5)] 6) x = true
       ∨ length (ack_insert [(7, 9); (1, 5)] 6) = MAX_ACK_RANGES
         ∧ ∀ y, ack_contains (ack_insert [(7, 9); (1, 5)] 6) y = true → x < y).
Proof.
  apply (ack_insert_correct [(7, 9); (1, 5)] 6); [|lia].
  constructor.
  - repeat constructor; simpl; lia.
  - repeat constructor; unfold range_above; simpl; lia.
  - simpl. unfold MAX_ACK_RANGES. lia.
Defined.

(** ** The packet-number codec *)

(** RFC 9000 A.3: any packet number within half a window of the expected one is
    recovered from its low bits. *)
Lemma decode_in_window largest pn n :
  n = 8 ∨ n = 16 ∨ n = 24 ∨ n = 32 → 0 ≤ largest < 2 ^ 62 → 0 ≤ pn < 2 ^ 62 →
  largest + 1 - 2 ^ (n - 1) < pn ≤ largest + 1 + 2 ^ (n - 1) →
  decode_packet_number largest (pn mod 2 ^ n) n = pn.
Proof.
  intros Hn Hl Hpn Hwin. unfold decode_packet_number, wadd, wsub, wshl.
  assert (8 ≤ n ≤ 32) as Hn' by lia.
  assert (2 ^ n = 2 * 2 ^ (n - 1)) as Hhalf by (rewrite <- Z.pow_succ_r by lia; f_equal; lia).
  assert (2 ^ 7 ≤ 2 ^ (n - 1) ≤ 2 ^ 31) as Hb by (split; apply Z.pow_le_mono_r; lia).
  rewrite Z.shiftl_1_l, (wrap_small 64 (largest + 1)), (wrap_small 64 (2 ^ n))
    by (unfold in_width; lia).
  rewrite Z.shiftr_div_pow2 by lia. rewrite land_not_mask by (unfold in_width; lia).
  replace (2 ^ n / 2 ^ 1) with (2 ^ (n - 1))
    by (rewrite Hhalf; apply (Z.div_unique _ _ _ 0); lia).
  rewrite <- Z.shiftl_mul_pow2, lor_shiftl_add
    by (lia || (unfold in_width; apply Z.mod_pos_bound; lia)).
  change (Z.shiftl 1 62) with (2 ^ 62).
  pose proof (Z.div_mod pn (2 ^ n) ltac:(lia)) as Hdm.
  pose proof (Z.mod_pos_bound pn (2 ^ n) ltac:(lia)) as Hr.
  pose proof (Z.div_mod (largest + 1) (2 ^ n) ltac:(lia)) as Hdm'.
  pose proof (Z.mod_pos_bound (largest + 1) (2 ^ n) ltac:(lia)) as Hr'.
  set (E := largest + 1) in *. set (q := pn / 2 ^ n) in *. set (q' := E / 2 ^ n) in *.
  set (r := pn mod 2 ^ n) in *. set (r' := E mod 2 ^ n) in *. set (h := 2 ^ (n - 1)) in *.
  assert (0 ≤ q') by (apply Z.div_pos; lia).
  assert (0 ≤ 2 ^ n * q') by (apply Z.mul_nonneg_nonneg; lia).
  rewrite (Z.mul_comm q').
  assert (q = q' - 1 ∨ q = q' ∨ q = q' + 1) as Hq.
  { assert (q' - 2 < q ∧ q < q' + 2); [|lia]. split; apply Z.nle_gt; intros Hle.
    - apply (Z.mul_le_mono_nonneg_l _ _ (2 ^ n)) in Hle; lia.
    - apply (Z.mul_le_mono_nonneg_l _ _ (2 ^ n)) in Hle; lia. }
  rewrite !(wrap_small 64 (_ + h)) by (unfold in_width; lia).
  destruct (Z.leb_spec (2 ^ n * q' + r + h) E), (Z.ltb_spec (2 ^ n * q' + r) (2 ^ 62 - 2 ^ n)),
    (Z.ltb_spec (E + h) (2 ^ n * q' + r)), (Z.leb_spec (2 ^ n) (2 ^ n * q' + r)); simpl;
    rewrite ?wrap_small by (unfold in_width; lia);
    destruct Hq as [Hq|[Hq|Hq]]; rewrite Hq in Hdm; lia.
Qed.

(** The chosen length leaves more than twice the gap representable. *)
Lemma packet_number_length_spec pn la :
  let gap := match la with Some a => sat_sub pn a | None => sat_add 64 pn 1 end in
  let n := encode_packet_number_length pn la in
  0 ≤ gap < 2 ^ 31 → (n = 8 ∨ n = 16 ∨ n = 24 ∨ n = 32) ∧ gap < 2 ^ (n - 1).
Proof.
  cbv zeta. unfold encode_packet_number_length.
  set (gap := match la with Some a => _ | None => _ end). intros Hgap.
  assert (∀ m, (if gap =? 0 then 1 else Z.log2 gap + 1) + 1 ≤ m → 0 < m → gap < 2 ^ (m - 1)) as Hbits.
  { intros m Hm Hm0. destruct (Z.eqb_spec gap 0) as [->|]; [lia|].
    pose proof (Z.log2_spec gap ltac:(lia)) as [_ Hl].
    pose proof (Z.pow_le_mono_r 2 (Z.succ (Z.log2 gap)) (m - 1)). lia. }
  repeat match goal with |- context [?a <=? ?b] => destruct (Z.leb_spec a b) end;
    (split; [tauto|]); try (apply Hbits; lia). change (32 - 1) with 31. lia.
Qed.

(** Packet numbers survive truncation.  If the sender's largest acknowledged number
    is one the receiver has seen, the gap to it is below [2^31], and the receiver is
    not more than half a window ahead, then truncating [pn] to the length
    [encode_packet_number_length] picks and decoding it against the receiver's largest
    number gives [pn] back. *)
Theorem packet_number_roundtrip pn la largest :
  let nbits := encode_packet_number_length pn la in
  0 ≤ pn < 2 ^ 62 → 0 ≤ largest < 2 ^ 62 →
  match la with Some a => 0 ≤ a ≤ largest ∧ pn - a < 2 ^ 31 | None => pn + 1 < 2 ^ 31 end →
  largest + 1 - pn < 2 ^ (nbits - 1) →
  decode_packet_number largest (pn mod 2 ^ nbits) nbits = pn.
Proof.
  cbv zeta. intros Hpn Hl Hla Hahead.
  pose proof (packet_number_length_spec pn la) as Hn. cbv zeta in Hn.
  destruct Hn as [Hn Hgap].
  { unfold sat_sub, sat_add. destruct la; lia. }
  apply decode_in_window; try done. unfold sat_sub, sat_add in Hgap. destruct la; lia.
Qed.

Lemma packet_number_roundtrip_witness :
  decode_packet_number 0xa82f30ea (0xa82f9b32 mod 2 ^ 16) 16 = 0xa82f9b32.
Proof.
  apply (packet_number_roundtrip 0xa82f9b32 (Some 0xa82f30ea) 0xa82f30ea); vm_compute;
    intuition discriminate.
Defined.

(** [largest] is the maximum of the set. *)
Lemma ack_largest_spec r m : ack_wf r →
  ack_largest r = Some m ↔ ack_mem r m ∧ ∀ x, ack_mem r x → x ≤ m.
Proof.
  intros [Hok Hs _]. destruct r as [|a r].
  { split; [done|]. by intros [?%ack_mem_nil _]. }
  unfold ack_largest. simpl. inversion Hok as [|? ? [? ?] Hokr]; subst.
  apply StronglySorted_cons in Hs as [Hall _]. rewrite Forall_forall in Hall.
  assert (∀ x, ack_mem (a :: r) x → x ≤ a.2) as Hmax.
  { intros x [?|(b & Hb & ?)]%ack_mem_cons; [lia|].
    specialize (Hall b Hb). unfold range_above in Hall. lia. }
  assert (ack_mem (a :: r) a.2) by (apply ack_mem_cons; left; lia).
  split; [by intros [= <-]|]. intros [Hm Hle]. f_equal. apply Z.le_antisymm; auto.
Qed.

Lemma ack_insert_largest r pn : ack_wf r → 0 ≤ pn < 2 ^ 64 - 1 →
  ack_wf (ack_insert r pn) ∧
  ack_largest (ack_insert r pn) =
    Some (match ack_largest r with Some m => Z.max m pn | None => pn end).
Proof.
  intros Hwf Hpn. pose proof (ack_insert_cases r pn Hwf Hpn) as Hc.
  pose proof (insert_case_sorted _ _ _ Hpn Hwf Hc) as Hwf'.
  destruct (insert_case_mem _ _ _ Hwf Hpn Hc) as [Hsound Hkeep].
  split; [done|]. apply ack_largest_spec; [done|].
  assert (∀ x, (∀ y, y = pn ∨ ack_mem r y → y ≤ x) → x = pn ∨ ack_mem r x →
    ack_mem (ack_insert r pn) x) as Hin.
  { intros x Hub Hx. destruct (Hkeep x Hx) as [|[Hlen Hlow]]; [done|exfalso].
    destruct (ack_insert r pn) as [|b r'] eqn:E; [discriminate|].
    assert (ack_mem (b :: r') b.1) as Hb.
    { apply ack_mem_cons. left. pose proof (ack_wf_ok _ Hwf') as Hok.
      inversion Hok as [|? ? [? ?]]. lia. }
    pose proof (Hlow _ Hb). pose proof (Hub b.1 (Hsound _ Hb)). lia. }
  destruct (ack_largest r) as [m|] eqn:E.
  - apply ack_largest_spec in E as [Hm Hle]; [|done]. split.
    + apply Hin; [intros y [->|Hy]; [|apply Hle in Hy]; lia|].
      destruct (Z.max_spec m pn) as [[_ ->]|[_ ->]]; auto.
    + intros x [->|Hx]%Hsound; [|apply Hle in Hx]; lia.
  - assert (∀ x, ¬ ack_mem r x) as Hempty.
    { intros x. destruct r; [by intros ?%ack_mem_nil|discriminate]. }
    split; [apply Hin; [|by left]|]; [|intros x Hx%Hsound; revert x Hx];
      intros y [->|Hy]; lia || by apply Hempty in Hy.
Qed.

(** The set kept over a whole connection is always well-formed: after any sequence
    of arrivals from the empty set, the invariant holds and [largest] is the greatest
    packet number received. *)
Theorem ack_history_largest p ps : Forall (λ p, 0 ≤ p < 2 ^ 64 - 1) (p :: ps) →
  ack_wf (fold_left ack_insert (p :: ps) [])
  ∧ ack_largest (fold_left ack_insert (p :: ps) []) = Some (fold_left Z.max ps p).
Proof.
  intros Hpns. inversion Hpns as [|? ? Hp Hps]; subst. simpl fold_left.
  assert (ack_wf []) as Hnil by (split; [done|constructor|simpl; lia]).
  destruct (ack_insert_largest [] p Hnil Hp) as [Hwf Hl]. simpl in Hl.
  revert p Hp Hpns Hwf Hl. generalize (ack_insert [] ). intros f p _ _. generalize (f p).
  clear f Hnil. induction Hps as [|q ps Hq Hps IH] in p |- *; intros r Hwf Hl; [done|].
  simpl. destruct (ack_insert_largest r q Hwf Hq) as [Hwf' Hl']. rewrite Hl in Hl'.
  by apply IH.
Qed.

Lemma ack_history_largest_witness :
  ack_wf (fold_left ack_insert [3; 9; 4] []) ∧
  ack_largest (fold_left ack_insert [3; 9; 4] []) = Some (fold_left Z.max [9; 4] 3).
Proof. apply (ack_history_largest 3 [9; 4]). repeat constructor; lia. Defined.
