(* ===== verification/Ack.v ===== *)
(** QUIC ACK frames ([src/quic/ack.rs], RFC 9000 section 19.3): building the
    payload from a set of ranges and parsing it back. *)

From S2P Require Import Prelude TlsBase Varint Pn.

(** A [Duration] is a number of nanoseconds. *)
Definition as_micros (d : Z) : Z := d / 1000.

(** The loop over [stored[i - 1], stored[i]]: the (gap, length) pairs and their count.
    A pair that would underflow is skipped ([continue]). *)
Fixpoint ack_trailing (prev_smallest : Z) (rest : AckRanges) (trailing : bytes) (count : Z)
  : bytes * Z :=
  match rest with
  | [] => (trailing, count)
  | (cur_smallest, cur_largest) :: rest =>
      match checked_sub prev_smallest cur_largest ≫= λ v, checked_sub v 2 with
      | None => ack_trailing cur_smallest rest trailing count
      | Some gap_wire =>
          let len_wire := cur_largest - cur_smallest in
          let trailing := varint_encode gap_wire trailing in
          let trailing := varint_encode len_wire trailing in
          ack_trailing cur_smallest rest trailing (count + 1)
      end
  end.

Definition build_ack_payload (ranges : AckRanges) (largest_arrival now ack_delay_exponent : Z)
  : bytes :=
  match ranges with
  | [] => []
  | (start, largest) :: rest =>
      let first_range := largest - start in
      let delta_us := as_u64 (as_micros (sat_sub now largest_arrival)) in
      let scaled := Z.shiftr delta_us (Z.min ack_delay_exponent 62) in
      let out := varint_encode largest [] in
      let out := varint_encode scaled out in
      let '(trailing, count) := ack_trailing start rest [] 0 in
      let out := varint_encode count out in
      let out := varint_encode first_range out in
      out ++ trailing
  end.

Definition build_ack_frame (ranges : AckRanges) (largest_arrival now ack_delay_exponent : Z)
  : bytes :=
  if ack_is_empty ranges then []
  else [0x02] ++ build_ack_payload ranges largest_arrival now ack_delay_exponent.

(** One varint read off the front: the value and the rest of the buffer. *)
Definition take_varint (body : bytes) : tls_result (Z * bytes) :=
  '(v, n) ← varint_decode body; mret (v, zdrop n body).

(** [for _ in 0..range_count]: [fuel] bounds the iterations by the bytes left, since
    each one consumes at least two; see [parse_ranges_fuel]. *)
Fixpoint parse_ranges (fuel : nat) (count smallest_in_block : Z) (body : bytes) (ranges : AckRanges)
  : tls_result AckRanges :=
  if count <=? 0 then Ok ranges
  else match fuel with
  | O => Err Error.Decode
  | S fuel =>
      '(gap_wire, body) ← take_varint body;
      '(len_wire, body) ← take_varint body;
      sub ← ok_or (checked_add 64 gap_wire 2) Error.Decode;
      if smallest_in_block <? sub then Err Error.Decode
      else
        let cur_largest := smallest_in_block - sub in
        if cur_largest <? len_wire then Err Error.Decode
        else
          let cur_smallest := cur_largest - len_wire in
          parse_ranges fuel (count - 1) cur_smallest body (ranges ++ [(cur_smallest, cur_largest)])
  end.

Definition parse_ack_payload (body : bytes) : tls_result (AckRanges * Z) :=
  '(largest, rest) ← take_varint body;
  '(ack_delay_raw, rest) ← take_varint rest;
  '(range_count, rest) ← take_varint rest;
  '(first_range, rest) ← take_varint rest;
  if largest <? first_range then Err Error.Decode
  else
    let smallest_in_block := largest - first_range in
    ranges ← parse_ranges (length body) range_count smallest_in_block rest
               [(smallest_in_block, largest)];
    mret (ranges, ack_delay_raw).

(** * Lemmas *)

Lemma take_varint_encode v rest : 0 ≤ v ≤ VARINT_MAX →
  take_varint (varint_encode v [] ++ rest) = Ok (v, rest).
Proof.
  intros Hv. unfold take_varint. rewrite varint_roundtrip by done. simpl.
  rewrite <- length_varint_encode by done. by rewrite zdrop_app.
Qed.

(** A successful read shortens the buffer and keeps it well-formed. *)
Lemma take_varint_inv body v rest : bytes_ok body → take_varint body = Ok (v, rest) →
  0 ≤ v ≤ VARINT_MAX ∧ bytes_ok rest ∧ (length rest < length body)%nat.
Proof.
  intros Hok Ht. unfold take_varint in Ht. apply bind_Ok_inv in Ht as ([x n] & Hd & He).
  injection He as <- <-. apply varint_decode_bounds in Hd as (Hn & Hle & Hv); [|done].
  split; [|split].
  - change VARINT_MAX with (2 ^ 62 - 1).
    destruct Hn as [->|[->|[->| ->]]]; simpl in Hv; simpl; lia.
  - by apply Forall_drop.
  - unfold zdrop. rewrite length_drop. unfold zlen in Hle. lia.
Qed.

(** More fuel than bytes changes nothing. *)
Lemma parse_ranges_fuel fuel fuel' : ∀ count s body acc, bytes_ok body →
  (length body ≤ fuel)%nat → (length body ≤ fuel')%nat →
  parse_ranges fuel count s body acc = parse_ranges fuel' count s body acc.
Proof.
  revert fuel'. induction fuel as [|fuel IH]; intros [|fuel'] count s body acc Hok Hf Hf'; try done;
    simpl; (destruct (count <=? 0); [done|]).
  1,2: destruct body as [|b body]; [done|simpl in *; lia].
  destruct (take_varint body) as [[g b1]|] eqn:E1; [|done].
  apply take_varint_inv in E1 as (_ & Hok1 & Hl1); [|done]. simpl.
  destruct (take_varint b1) as [[l b2]|] eqn:E2; [|done].
  apply take_varint_inv in E2 as (_ & Hok2 & Hl2); [|done]. simpl.
  destruct (ok_or _ _); [|done]. simpl. repeat case_match; try done. apply IH; (done || lia).
Qed.

(** What the builder writes after the first range: the parser reads it back. *)
Fixpoint trailing_bytes (prev : Z) (rest : AckRanges) : bytes :=
  match rest with
  | [] => []
  | (s, e) :: rest => varint_encode (prev - e - 2) [] ++ varint_encode (e - s) []
                        ++ trailing_bytes s rest
  end.

Lemma ack_trailing_spec rest : ∀ prev e tr count,
  Forall range_ok rest → StronglySorted range_above ((prev, e) :: rest) →
  ack_trailing prev rest tr count = (tr ++ trailing_bytes prev rest, count + zlen rest).
Proof.
  induction rest as [|[s e'] rest IH]; intros prev e tr count Hok Hs; simpl.
  - by rewrite app_nil_r, Z.add_0_r.
  - inversion Hok as [|? ? [? ?] Hok']; subst. apply StronglySorted_cons in Hs as [Ha Hs].
    inversion Ha as [|? ? Hab _]; subst. unfold range_above in Hab. simpl in *.
    unfold checked_sub. destruct (Z.leb_spec e' prev); [|lia]. simpl.
    destruct (Z.leb_spec 2 (prev - e')); [|lia].
    rewrite (varint_encode_app (e' - s)), (varint_encode_app (prev - e' - 2)).
    erewrite IH by done. rewrite <- !app_assoc. f_equal. unfold zlen. simpl. lia.
Qed.

Lemma parse_ranges_trailing rest : ∀ fuel prev e acc tail,
  Forall range_ok rest → StronglySorted range_above ((prev, e) :: rest) →
  0 ≤ prev ≤ VARINT_MAX → (length rest ≤ fuel)%nat →
  parse_ranges fuel (zlen rest) prev (trailing_bytes prev rest ++ tail) acc = Ok (acc ++ rest).
Proof.
  induction rest as [|[s e'] rest IH]; intros fuel prev e acc tail Hok Hs Hp Hf; simpl.
  - destruct fuel; simpl; by rewrite app_nil_r.
  - destruct fuel as [|fuel]; [simpl in Hf; lia|]. simpl in Hf.
    inversion Hok as [|? ? [? ?] Hok']; subst. apply StronglySorted_cons in Hs as [Ha Hs].
    inversion Ha as [|? ? Hab _]; subst. unfold range_above in Hab. simpl in *.
    change (zlen ((s, e') :: rest)) with (Z.of_nat (S (length rest))).
    destruct (Z.leb_spec (Z.of_nat (S (length rest))) 0); [lia|].
    rewrite <- !app_assoc, take_varint_encode by lia. simpl.
    rewrite take_varint_encode by lia. simpl. unfold checked_add.
    change VARINT_MAX with (2 ^ 62 - 1) in *.
    destruct (Z.ltb_spec (prev - e' - 2 + 2) (2 ^ 64)); [|lia]. simpl.
    destruct (Z.ltb_spec prev (prev - e' - 2 + 2)); [lia|].
    destruct (Z.ltb_spec (prev - (prev - e' - 2 + 2)) (e' - s)); [lia|].
    replace (prev - (prev - e' - 2 + 2)) with e' by lia.
    replace (e' - (e' - s)) with s by lia.
    replace (Z.of_nat (S (length rest)) - 1) with (zlen rest) by (unfold zlen; lia).
    erewrite IH by (done || lia). by rewrite <- app_assoc.
Qed.

Lemma length_trailing_bytes rest : ∀ prev, (length rest ≤ length (trailing_bytes prev rest))%nat.
Proof.
  assert (∀ v, 1 ≤ length (varint_encode v []))%nat as Hv.
  { intros v. unfold varint_encode. cbv zeta. repeat case_match; simpl; try lia; done. }
  induction rest as [|[s e] rest IH]; intros prev; simpl; [lia|].
  rewrite !length_app. specialize (IH s). pose proof (Hv (prev - e - 2)). lia.
Qed.

Lemma varint_encode_clamp v out : varint_encode v out = varint_encode (Z.min v VARINT_MAX) out.
Proof. unfold varint_encode. by rewrite <- Z.min_assoc, Z.min_id. Qed.

(** The parser only ever appends a valid range below the previous one. *)
Lemma parse_ranges_sorted fuel : ∀ count s e body acc out,
  bytes_ok body → 0 ≤ s ≤ e → e < 2 ^ 64 →
  Forall range_ok (acc ++ [(s, e)]) → StronglySorted range_above (acc ++ [(s, e)]) →
  parse_ranges fuel count s body (acc ++ [(s, e)]) = Ok out →
  Forall range_ok out ∧ StronglySorted range_above out
  ∧ ∃ more, out = (acc ++ [(s, e)]) ++ more.
Proof.
  induction fuel as [|fuel IH]; intros count s e body acc out Hok Hse He Hf Hs Hp; simpl in Hp.
  { destruct (count <=? 0); simplify_eq. split_and!; [done..|exists []]. by rewrite app_nil_r. }
  destruct (count <=? 0); [simplify_eq; split_and!; [done..|exists []]; by rewrite app_nil_r|].
  apply bind_Ok_inv in Hp as ([g b1] & E1 & Hp). apply bind_Ok_inv in Hp as ([l b2] & E2 & Hp).
  apply take_varint_inv in E1 as (Hg & Hok1 & _); [|done].
  apply take_varint_inv in E2 as (Hl & Hok2 & _); [|done].
  apply bind_Ok_inv in Hp as (sub & Hsub & Hp). unfold checked_add in Hsub.
  destruct (_ <? 2 ^ 64); [|discriminate]. injection Hsub as <-.
  destruct (Z.ltb_spec s (g + 2)); [discriminate|].
  destruct (Z.ltb_spec (s - (g + 2)) l); [discriminate|].
  apply IH in Hp as (Ho1 & Ho2 & more & ->); try done; try lia.
  - split_and!; [done..|]. eexists. by rewrite <- !app_assoc.
  - apply Forall_app. split; [done|]. repeat constructor; simpl; lia.
  - apply StronglySorted_app. split_and!; [|done|repeat constructor].
    intros x1 x2 Hx1 ->%list_elem_of_singleton. unfold range_above. simpl.
    apply elem_of_app in Hx1 as [Hx1| ->%list_elem_of_singleton]; [|simpl; lia].
    apply StronglySorted_app in Hs as (Hx & _).
    specialize (Hx x1 (s, e) Hx1 ltac:(by apply list_elem_of_singleton)).
    unfold range_above in Hx. simpl in Hx. lia.
Qed.

(** The fields of an ACK, as the parser reads them. *)
Lemma parse_ack_fields s e rest delay tail :
  ack_wf ((s, e) :: rest) → e ≤ VARINT_MAX → 0 ≤ delay ≤ VARINT_MAX →
  parse_ack_payload (varint_encode e [] ++ varint_encode delay [] ++ varint_encode (zlen rest) []
    ++ varint_encode (e - s) [] ++ trailing_bytes s rest ++ tail) = Ok ((s, e) :: rest, delay).
Proof.
  intros [Hok Hs Hlen] He Hd. apply Forall_cons in Hok as [[? ?] Hok']. simpl in *.
  unfold parse_ack_payload. rewrite take_varint_encode by lia. simpl.
  rewrite take_varint_encode by done. simpl.
  rewrite take_varint_encode by (unfold zlen, MAX_ACK_RANGES in *;
    change VARINT_MAX with (2 ^ 62 - 1) in *; lia). simpl.
  rewrite take_varint_encode by lia. simpl.
  destruct (Z.ltb_spec e (e - s)); [lia|].
  replace (e - (e - s)) with s by lia.
  rewrite (parse_ranges_trailing rest _ s e) by
    (done || lia || (rewrite !length_app; pose proof (length_trailing_bytes rest s); lia)).
  done.
Qed.

(** * Properties *)

(** ACK frames round-trip.  For any well-formed non-empty range set of packet numbers
    below [2^62], parsing the payload [build_ack_payload] produced (followed by any other
    bytes) returns exactly that set, and the ack delay scaled by the exponent. *)
Theorem ack_payload_roundtrip s e rest arrival now exponent tail :
  ack_wf ((s, e) :: rest) → e ≤ VARINT_MAX → 0 ≤ exponent →
  parse_ack_payload (build_ack_payload ((s, e) :: rest) arrival now exponent ++ tail)
  = Ok ((s, e) :: rest,
        Z.min (Z.shiftr (as_u64 (as_micros (sat_sub now arrival))) (Z.min exponent 62)) VARINT_MAX).
Proof.
  intros [Hok Hs Hlen] He Hexp. inversion Hok as [|? ? [? ?] Hok']; subst.
  unfold build_ack_payload. cbv zeta.
  set (scaled := Z.shiftr (as_u64 (as_micros (sat_sub now arrival))) (Z.min exponent 62)).
  rewrite (ack_trailing_spec rest s e [] 0) by done.
  rewrite (varint_encode_app (e - s)), (varint_encode_app (0 + _)), (varint_encode_app scaled).
  rewrite (varint_encode_clamp scaled), app_nil_l, Z.add_0_l, <- !app_assoc.
  assert (0 ≤ scaled).
  { unfold scaled. apply Z.shiftr_nonneg. apply wrap_range. lia. }
  apply parse_ack_fields; [by constructor|done|].
  change VARINT_MAX with (2 ^ 62 - 1) in *. lia.
Qed.

Lemma ack_payload_roundtrip_witness :
  parse_ack_payload (build_ack_payload [(7, 9); (1, 5)] 0 8000000 3 ++ [1; 2])
  = Ok ([(7, 9); (1, 5)], 1000).
Proof.
  apply (ack_payload_roundtrip 7 9 [(1, 5)] 0 8000000 3 [1; 2]); [|by vm_compute|lia].
  constructor.
  - repeat constructor; simpl; lia.
  - repeat constructor; unfold range_above; simpl; lia.
  - simpl. unfold MAX_ACK_RANGES. lia.
Defined.

(** The ACK parser is safe on hostile input: whatever the bytes, an accepted frame
    yields at least one range, every range is a valid interval, and the ranges are
    strictly descending with a gap between neighbours. *)
Theorem parse_ack_payload_sound body ranges delay :
  bytes_ok body → parse_ack_payload body = Ok (ranges, delay) →
  ranges ≠ [] ∧ Forall range_ok ranges ∧ StronglySorted range_above ranges
  ∧ 0 ≤ delay ≤ VARINT_MAX.
Proof.
  intros Hok Hp. unfold parse_ack_payload in Hp.
  apply bind_Ok_inv in Hp as ([largest b1] & E1 & Hp).
  apply take_varint_inv in E1 as (Hl & Hok1 & _); [|done].
  apply bind_Ok_inv in Hp as ([d b2] & E2 & Hp).
  apply take_varint_inv in E2 as (Hd & Hok2 & _); [|done].
  apply bind_Ok_inv in Hp as ([c b3] & E3 & Hp).
  apply take_varint_inv in E3 as (_ & Hok3 & _); [|done].
  apply bind_Ok_inv in Hp as ([first b4] & E4 & Hp).
  apply take_varint_inv in E4 as (Hf & Hok4 & _); [|done].
  destruct (Z.ltb_spec largest first); [discriminate|].
  apply bind_Ok_inv in Hp as (rs & Hr & Heq). injection Heq as <- <-.
  change VARINT_MAX with (2 ^ 62 - 1) in *.
  apply (parse_ranges_sorted _ _ (largest - first) largest b4 []) in Hr as (H1 & H2 & more & ->);
    try done; try lia.
  - repeat constructor; simpl; lia.
  - repeat constructor.
Qed.

Lemma parse_ack_payload_sound_witness :
  [(7, 9); (1, 5)] ≠ [] ∧ Forall range_ok [(7, 9); (1, 5)]
  ∧ StronglySorted range_above [(7, 9); (1, 5)] ∧ 0 ≤ 0 ≤ VARINT_MAX.
Proof.
  apply (parse_ack_payload_sound [9; 0; 1; 2; 0; 4]); [|by vm_compute].
  repeat constructor; unfold in_width; lia.
Defined.
