(* ===== verification/BTree.v ===== *)
(** The operations of [alloc::collections::BTreeMap<u64, V>] the QUIC and DTLS
    layers use, on association lists kept in strictly increasing key order. *)

From S2P Require Import Prelude.

Section btree.
Context {V : Type}.
Implicit Types (m : list (Z * V)) (k : Z) (v : V).

Fixpoint bt_get m k : option V :=
  match m with
  | [] => None
  | (k', v') :: m => if k =? k' then Some v' else bt_get m k
  end.

Fixpoint bt_insert m k v : list (Z * V) :=
  match m with
  | [] => [(k, v)]
  | (k', v') :: m' =>
      if k <? k' then (k, v) :: m
      else if k =? k' then (k, v) :: m'
      else (k', v') :: bt_insert m' k v
  end.

Definition bt_remove m k : list (Z * V) := filter (λ e, e.1 ≠ k) m.

(** [range(..=k).next_back()]: the entry with the greatest key at most [k]. *)
Fixpoint bt_last_le m k : option (Z * V) :=
  match m with
  | [] => None
  | (k', v') :: m => if k' <=? k then
                       match bt_last_le m k with Some e => Some e | None => Some (k', v') end
                     else None
  end.

(** [range(..k).next_back()]. *)
Definition bt_last_lt m k : option (Z * V) := bt_last_le m (k - 1).

(** [range(lo..hi)]. *)
Definition bt_range m lo hi : list (Z * V) := filter (λ e, lo ≤ e.1 < hi) m.

Definition key_lt (a b : Z * V) : Prop := a.1 < b.1.

(** The representation invariant: strictly increasing keys. *)
Definition bt_sorted m : Prop := StronglySorted key_lt m.

Lemma bt_sorted_cons e m : bt_sorted (e :: m) ↔ Forall (key_lt e) m ∧ bt_sorted m.
Proof. apply StronglySorted_cons. Qed.

Lemma bt_insert_elem m k v e :
  bt_sorted m → e ∈ bt_insert m k v ↔ e = (k, v) ∨ (e ∈ m ∧ e.1 ≠ k).
Proof.
  induction m as [|[k' v'] m IH]; intros Hs; simpl.
  - rewrite list_elem_of_singleton, elem_of_nil. tauto.
  - apply bt_sorted_cons in Hs as [Hlt Hs]. rewrite Forall_forall in Hlt.
    unfold key_lt in Hlt. simpl in Hlt.
    destruct (Z.ltb_spec k k').
    + rewrite !elem_of_cons. split; [|tauto]. intros [->|[->|He]]; simpl; [tauto|right..].
      * simpl. split; [tauto|lia].
      * split; [tauto|]. specialize (Hlt _ He). lia.
    + destruct (Z.eqb_spec k k') as [->|].
      * rewrite !elem_of_cons. split.
        -- intros [->|He]; [tauto|]. right. split; [tauto|]. specialize (Hlt _ He). lia.
        -- intros [->|[[->|He] Hne]]; [tauto|simpl in Hne; lia|tauto].
      * rewrite !elem_of_cons, IH by done. split.
        -- intros [->|[->|[He Hne]]]; simpl; [right; split; [tauto|lia]|tauto..].
        -- tauto.
Qed.

Lemma bt_insert_sorted m k v : bt_sorted m → bt_sorted (bt_insert m k v).
Proof.
  induction m as [|[k' v'] m IH]; intros Hs; simpl; [repeat constructor|].
  pose proof Hs as Hs0. apply bt_sorted_cons in Hs as [Hlt Hs].
  destruct (Z.ltb_spec k k').
  - apply bt_sorted_cons. split; [|done]. constructor; [done|].
    eapply Forall_impl; [exact Hlt|]. unfold key_lt. simpl. lia.
  - destruct (Z.eqb_spec k k') as [->|].
    + by apply bt_sorted_cons.
    + apply bt_sorted_cons. split; [|by apply IH]. apply Forall_forall. intros e He.
      apply bt_insert_elem in He as [->|[He _]]; [unfold key_lt; simpl; lia| |done].
      rewrite Forall_forall in Hlt. by apply Hlt.
Qed.

Lemma filter_sorted P `{∀ x, Decision (P x)} m : bt_sorted m → bt_sorted (filter P m).
Proof.
  induction m as [|e m IH]; intros Hs; [done|]. apply bt_sorted_cons in Hs as [Hlt Hs].
  rewrite filter_cons. case_decide; [|by apply IH]. apply bt_sorted_cons. split; [|by apply IH].
  apply Forall_forall. intros x [_ Hx]%list_elem_of_filter. rewrite Forall_forall in Hlt. by apply Hlt.
Qed.

Lemma bt_remove_elem m k x : x ∈ bt_remove m k ↔ x ∈ m ∧ x.1 ≠ k.
Proof. unfold bt_remove. rewrite list_elem_of_filter. tauto. Qed.

Lemma bt_insert_last m k v : Forall (λ e, e.1 < k) m → bt_insert m k v = m ++ [(k, v)].
Proof.
  induction m as [|[k' v'] m IH]; intros Hm; [done|]. apply Forall_cons in Hm as [Hk Hm]. cbn in Hk.
  cbn [bt_insert]. destruct (Z.ltb_spec k k'); [lia|]. destruct (Z.eqb_spec k k'); [lia|]. cbn. by rewrite IH.
Qed.

Lemma bt_remove_sorted m k : bt_sorted m → bt_sorted (bt_remove m k).
Proof. apply filter_sorted. Qed.

Lemma bt_get_Some m k v : bt_sorted m → bt_get m k = Some v ↔ (k, v) ∈ m.
Proof.
  induction m as [|[k' v'] m IH]; intros Hs; simpl; [by rewrite elem_of_nil|].
  apply bt_sorted_cons in Hs as [Hlt Hs]. rewrite Forall_forall in Hlt. rewrite elem_of_cons.
  destruct (Z.eqb_spec k k') as [->|].
  - split; [intros [= ->]; by left|]. intros [[= ->]|He]; [done|].
    specialize (Hlt _ He). unfold key_lt in Hlt. simpl in Hlt. lia.
  - rewrite IH by done. split; [by right|]. intros [[= -> ->]|]; done.
Qed.

Lemma bt_get_None m k : bt_get m k = None → ∀ v, (k, v) ∉ m.
Proof.
  induction m as [|[k' v'] m IH]; simpl; intros Hg v; [apply not_elem_of_nil|].
  destruct (Z.eqb_spec k k'); [discriminate|]. intros [[= -> ->]|He]%elem_of_cons; [done|].
  by eapply IH.
Qed.

Lemma bt_last_le_Some m k e : bt_sorted m → bt_last_le m k = Some e →
  e ∈ m ∧ e.1 ≤ k ∧ ∀ e', e' ∈ m → e'.1 ≤ k → e'.1 ≤ e.1.
Proof.
  induction m as [|[k' v'] m IH]; intros Hs; simpl; [done|].
  apply bt_sorted_cons in Hs as [Hlt Hs]. rewrite Forall_forall in Hlt. unfold key_lt in Hlt.
  destruct (Z.leb_spec k' k); [|done].
  destruct (bt_last_le m k) as [e0|] eqn:E.
  - intros [= ->]. destruct (IH Hs eq_refl) as (Hin & Hle & Hmax).
    split; [by right|]. split; [done|]. intros e' [->|He']%elem_of_cons Hk; [|by apply Hmax].
    specialize (Hlt _ Hin). simpl in *. lia.
  - intros [= <-]. split; [by left|]. split; [done|].
    intros e' [->|He']%elem_of_cons Hk; [done|]. exfalso. clear IH Hlt.
    induction m as [|[k'' v''] m IHm]; [by apply elem_of_nil in He'|]. simpl in E.
    apply bt_sorted_cons in Hs as [Hlt' Hs']. rewrite Forall_forall in Hlt'.
    destruct (Z.leb_spec k'' k).
    + destruct (bt_last_le m k); discriminate.
    + apply elem_of_cons in He' as [->|He']; [simpl in *; lia|].
      specialize (Hlt' _ He'). unfold key_lt in Hlt'. simpl in *. lia.
Qed.

Lemma bt_last_le_None m k : bt_sorted m → bt_last_le m k = None → ∀ e, e ∈ m → k < e.1.
Proof.
  destruct m as [|[k' v'] m]; intros Hs; simpl; [by intros _ e ?%elem_of_nil|].
  apply bt_sorted_cons in Hs as [Hlt Hs]. rewrite Forall_forall in Hlt.
  destruct (Z.leb_spec k' k); [destruct (bt_last_le m k); discriminate|].
  intros _ e [->|He]%elem_of_cons; [done|]. specialize (Hlt _ He). unfold key_lt in Hlt.
  simpl in *. lia.
Qed.

Lemma bt_insert_length m k v : bt_sorted m →
  length (bt_insert m k v) = (length m + match bt_get m k with Some _ => 0 | None => 1 end)%nat.
Proof.
  induction m as [|[k' v'] m IH]; intros Hs; simpl; [done|].
  apply bt_sorted_cons in Hs as [Hlt Hs].
  destruct (Z.ltb_spec k k'), (Z.eqb_spec k k'); simpl; try lia.
  - replace (bt_get m k) with (@None V); [lia|]. symmetry.
    destruct (bt_get m k) as [v0|] eqn:E; [|done]. apply bt_get_Some in E; [|done].
    rewrite Forall_forall in Hlt. specialize (Hlt _ E). unfold key_lt in Hlt. simpl in Hlt. lia.
  - rewrite IH by done. lia.
Qed.
End btree.
