(* ===== verification/ByteStream.v ===== *)
(** Byte streams and the fragments that carry them: slices of a stream by absolute
    offset, fragments keyed by their start, and the offsets and bytes a set of fragments
    covers.  Shared by the CRYPTO buffers and the stream halves of QUIC. *)

From S2P Require Import Prelude BTree.

(** The bytes of the stream [S] at offsets [[off, off + n)]. *)
Definition stream_slice (S : Z → Z) (off : Z) (n : nat) : bytes :=
  (λ i, S (off + Z.of_nat i)) <$> seq 0 n.

(** A fragment carries the stream's bytes. *)
Definition carries (S : Z → Z) (e : Z * bytes) : Prop :=
  0 ≤ e.1 ∧ e.1 + zlen e.2 < 2 ^ 64 ∧ e.2 = stream_slice S e.1 (length e.2).

(** ** Slices of a stream *)

Lemma length_stream_slice S off n : length (stream_slice S off n) = n.
Proof. unfold stream_slice. by rewrite length_fmap, length_seq. Qed.

Lemma stream_slice_app S off n m :
  stream_slice S off (n + m) = stream_slice S off n ++ stream_slice S (off + Z.of_nat n) m.
Proof.
  unfold stream_slice. rewrite seq_app, fmap_app. f_equal.
  replace (0 + n)%nat with (n + 0)%nat by lia.
  rewrite <- (fmap_add_seq n 0 m), <- list_fmap_compose.
  apply list_fmap_ext. intros i x _. simpl. f_equal. lia.
Qed.

Lemma drop_stream_slice S off n k :
  drop k (stream_slice S off n) = stream_slice S (off + Z.of_nat k) (n - k).
Proof.
  destruct (Nat.le_gt_cases k n) as [Hk|Hk].
  - replace n with (k + (n - k))%nat at 1 by lia. rewrite stream_slice_app.
    rewrite drop_app_length' by (by rewrite length_stream_slice). done.
  - replace (n - k)%nat with 0%nat by lia. apply drop_ge. rewrite length_stream_slice. lia.
Qed.

Lemma take_stream_slice S off n k :
  take k (stream_slice S off n) = stream_slice S off (k `min` n).
Proof.
  destruct (Nat.le_gt_cases k n) as [Hk|Hk].
  - rewrite Nat.min_l by done. replace n with (k + (n - k))%nat by lia. rewrite stream_slice_app.
    apply take_app_length'. by rewrite length_stream_slice.
  - rewrite Nat.min_r by lia. apply take_ge. rewrite length_stream_slice. lia.
Qed.

Lemma zdrop_carries S off data k : carries S (off, data) → 0 ≤ k ≤ zlen data →
  carries S (off + k, zdrop k data).
Proof.
  intros (H0 & H1 & H2) Hk. simpl in *. unfold carries, zdrop, zlen in *. simpl.
  rewrite length_drop. split_and!; [lia..|]. rewrite H2 at 1. rewrite drop_stream_slice.
  f_equal; lia.
Qed.

Lemma ztake_carries S off data k : carries S (off, data) → 0 ≤ k ≤ zlen data →
  carries S (off, ztake k data).
Proof.
  intros (H0 & H1 & H2) Hk. simpl in *. unfold carries, ztake, zlen in *. simpl.
  rewrite length_take. split_and!; [lia..|]. rewrite H2 at 1. rewrite take_stream_slice. done.
Qed.

Definition pend_bytes (p : list (Z * bytes)) : Z := foldr (λ e acc, zlen e.2 + acc) 0 p.

Definition pend_covers (p : list (Z * bytes)) (x : Z) : Prop := ∃ e, e ∈ p ∧ e.1 ≤ x < e.1 + zlen e.2.

Lemma pend_covers_cons e p x : pend_covers (e :: p) x ↔ e.1 ≤ x < e.1 + zlen e.2 ∨ pend_covers p x.
Proof. unfold pend_covers. setoid_rewrite elem_of_cons. naive_solver. Qed.

Lemma pend_bytes_nonneg p : 0 ≤ pend_bytes p.
Proof. induction p as [|e p IH]; simpl; [done|]. unfold zlen. lia. Qed.

Lemma pend_bytes_app p q : pend_bytes (p ++ q) = pend_bytes p + pend_bytes q.
Proof. induction p as [|e p IH]; simpl; [done|]. unfold pend_bytes in *. lia. Qed.

(** Replacing (or adding) one fragment changes the byte count by the difference. *)
Lemma pend_bytes_insert p k v : bt_sorted p →
  pend_bytes (bt_insert p k v) =
  pend_bytes p + zlen v - match bt_get p k with Some v' => zlen v' | None => 0 end.
Proof.
  induction p as [|[k' v'] p IH]; intros Hs; simpl; [unfold pend_bytes; simpl; lia|].
  apply bt_sorted_cons in Hs as [Hlt Hs].
  destruct (Z.ltb_spec k k'), (Z.eqb_spec k k'); simpl; try lia.
  - replace (bt_get p k) with (@None bytes); [lia|]. symmetry.
    destruct (bt_get p k) as [v0|] eqn:E; [|done]. apply bt_get_Some in E; [|done].
    rewrite Forall_forall in Hlt. specialize (Hlt _ E). unfold key_lt in Hlt. simpl in Hlt. lia.
  - unfold pend_bytes in *. simpl. rewrite IH by done. lia.
Qed.

(** ** A stream given by the bytes enqueued so far *)

Definition stream_of (T : bytes) (x : Z) : Z := default 0 (T !! Z.to_nat x).

(** A frame carries bytes of [T], all of them already enqueued. *)
Definition in_stream (T : bytes) (e : Z * bytes) : Prop :=
  carries (stream_of T) e ∧ e.1 + zlen e.2 ≤ zlen T.

Lemma stream_slice_ext S S' off n :
  (∀ x, off ≤ x < off + Z.of_nat n → S x = S' x) → stream_slice S off n = stream_slice S' off n.
Proof.
  intros Hx. unfold stream_slice. apply list_fmap_ext. intros i x Hi. apply Hx.
  apply lookup_seq in Hi. lia.
Qed.

Lemma stream_of_app T d x : 0 ≤ x < zlen T → stream_of (T ++ d) x = stream_of T x.
Proof. intros Hx. unfold stream_of, zlen in *. by rewrite lookup_app_l by lia. Qed.

Lemma carries_ext S S' e : (∀ x, e.1 ≤ x < e.1 + zlen e.2 → S x = S' x) →
  carries S e → carries S' e.
Proof.
  intros Hx (H1 & H2 & H3). split_and!; [done..|]. rewrite H3 at 1. by apply stream_slice_ext.
Qed.

Lemma in_stream_app T d e : in_stream T e → in_stream (T ++ d) e.
Proof.
  intros [Hc Hl]. split; [|rewrite zlen_app; pose proof (zlen_nonneg d); lia].
  eapply carries_ext; [|exact Hc]. intros x Hx. symmetry. apply stream_of_app.
  destruct Hc as (? & _). lia.
Qed.

Lemma stream_slice_tail T d : stream_slice (stream_of (T ++ d)) (zlen T) (length d) = d.
Proof.
  apply list_eq. intros i. unfold stream_slice. rewrite list_lookup_fmap.
  destruct (Nat.lt_ge_cases i (length d)) as [Hi|Hi].
  - rewrite lookup_seq_lt by done. simpl. unfold stream_of, zlen.
    replace (Z.to_nat (Z.of_nat (length T) + Z.of_nat i)) with (length T + i)%nat by lia.
    rewrite lookup_app_r, Nat.add_sub' by lia.
    destruct (lookup_lt_is_Some_2 d i Hi) as [x Hx]. by rewrite Hx.
  - rewrite lookup_seq_ge, lookup_ge_None_2 by lia. done.
Qed.

Lemma in_stream_split T off data cap : in_stream T (off, data) → 0 ≤ cap ≤ zlen data →
  in_stream T (off, ztake cap data) ∧ in_stream T (off + cap, zdrop cap data).
Proof.
  intros [Hc Hl] Hcap. simpl in *.
  assert (zlen (ztake cap data) = cap) by (unfold zlen, ztake in *; rewrite length_take; lia).
  assert (zlen (zdrop cap data) = zlen data - cap)
    by (unfold zlen, zdrop in *; rewrite length_drop; lia).
  split; split; simpl; try lia; [by apply ztake_carries | by apply zdrop_carries].
Qed.

Lemma Forall_bt_insert (P : Z * bytes → Prop) m k v : bt_sorted m → Forall P m → P (k, v) →
  Forall P (bt_insert m k v).
Proof.
  intros Hs HP Hnew. apply Forall_forall. intros e [->|[He _]]%bt_insert_elem; [done| |done].
  rewrite Forall_forall in HP. by apply HP.
Qed.

Lemma stream_slice_prefix T n : (n ≤ length T)%nat → stream_slice (stream_of T) 0 n = take n T.
Proof.
  intros Hn. pose proof (stream_slice_tail [] T) as Ht. simpl in Ht. change (zlen []) with 0 in Ht.
  rewrite <- Ht at 2. rewrite take_stream_slice. by rewrite Nat.min_l.
Qed.
