(* ===== verification/CryptoBuf.v ===== *)
(** QUIC CRYPTO streams ([src/quic/crypto_buf.rs]): per-level reassembly of inbound
    fragments and the outbound queue with retransmission.  Offsets are [u64];
    [usize] is the 64-bit one. *)

From S2P Require Import Prelude TlsBase BTree ByteStream.

Definition MAX_PENDING_CRYPTO_BYTES : Z := 64 * 1024.
Definition MAX_PENDING_FRAGMENTS : Z := 32.

Record CryptoBuf := mk_crypto_buf {
  next_offset : Z;
  pending : list (Z * bytes);
  outbound : bytes;
  outbound_offset : Z;
  last_sent : option (Z * bytes);
  rtx : list (Z * bytes);
  sent_history : list (Z * bytes) }.

Definition crypto_buf_new : CryptoBuf := mk_crypto_buf 0 [] [] 0 None [] [].

Definition is_pending_empty (self : CryptoBuf) : bool :=
  match pending self with [] => true | _ => false end.

Definition total_pending_bytes (self : CryptoBuf) : Z :=
  foldr (λ e acc, zlen e.2 + acc) 0 (pending self).

Definition set_inbound (self : CryptoBuf) (n : Z) (p : list (Z * bytes)) : CryptoBuf :=
  mk_crypto_buf n p (outbound self) (outbound_offset self) (last_sent self) (rtx self)
    (sent_history self).

(** The drain loop: while the lowest pending fragment starts at or below the next
    offset, remove it and release what it adds. *)
Fixpoint drain (pending : list (Z * bytes)) (next : Z) (released : bytes)
  : list (Z * bytes) * Z * bytes :=
  match pending with
  | (p_off, frag) :: rest =>
      if p_off <=? next then
        let end_ := wadd 64 p_off (zlen frag) in
        if end_ <=? next then drain rest next released
        else drain rest end_ (released ++ zdrop (next - p_off) frag)
      else (pending, next, released)
  | [] => ([], next, released)
  end.

(** The part of [on_crypto] after the stale prefix has been trimmed. *)
Definition on_crypto_trimmed (self : CryptoBuf) (offset : Z) (data : bytes)
  : tls_result (CryptoBuf * bytes) :=
  if zlen data =? 0 then Ok (self, [])
  else if offset =? next_offset self then
    let '(pend, next, released) :=
      drain (pending self) (wadd 64 (next_offset self) (zlen data)) data in
    Ok (set_inbound self next pend, released)
  else
    let end_ := wadd 64 offset (zlen data) in
    if match bt_last_lt (pending self) offset with
       | Some (prev_off, prev_data) => end_ <=? wadd 64 prev_off (zlen prev_data)
       | None => false
       end
    then Ok (self, [])
    else
      let existing_len := match bt_get (pending self) offset with Some v => zlen v | None => 0 end in
      if zlen data <=? existing_len then Ok (self, [])
      else if MAX_PENDING_CRYPTO_BYTES <?
                sat_add 64 (total_pending_bytes self) (zlen data - existing_len)
      then Err Error.Decode
      else if (existing_len =? 0) && (MAX_PENDING_FRAGMENTS <=? zlen (pending self))
      then Err Error.Decode
      else Ok (set_inbound self (next_offset self) (bt_insert (pending self) offset data), []).

Definition on_crypto (self : CryptoBuf) (offset : Z) (data : bytes)
  : tls_result (CryptoBuf * bytes) :=
  if offset <? next_offset self then
    let skip := next_offset self - offset in
    if zlen data <=? skip then Ok (self, [])
    else on_crypto_trimmed self (next_offset self) (zdrop skip data)
  else on_crypto_trimmed self offset data.

(** ** Outbound *)

Definition enqueue_outbound (self : CryptoBuf) (data : bytes) : CryptoBuf :=
  mk_crypto_buf (next_offset self) (pending self) (outbound self ++ data) (outbound_offset self)
    (last_sent self) (rtx self) (sent_history self).

Definition outbound_pending (self : CryptoBuf) : bool :=
  negb (match outbound self with [] => true | _ => false end)
  || negb (match rtx self with [] => true | _ => false end).

Definition outbound_len (self : CryptoBuf) : Z :=
  zlen (outbound self) + foldr (λ e acc, zlen e.2 + acc) 0 (rtx self).

Definition carve (self : CryptoBuf) (cap : Z) : CryptoBuf * option (Z * bytes) :=
  match rtx self with
  | (offset, chunk) :: rest =>
      let '(chunk, rest) :=
        if cap <? zlen chunk
        then (ztake cap chunk, (wadd 64 offset cap, zdrop cap chunk) :: rest)
        else (chunk, rest) in
      let known := match bt_get (sent_history self) offset with Some v => zlen v | None => 0 end in
      let history := if known <=? zlen chunk then bt_insert (sent_history self) offset chunk
                     else sent_history self in
      (mk_crypto_buf (next_offset self) (pending self) (outbound self) (outbound_offset self)
         (Some (offset, chunk)) rest history, Some (offset, chunk))
  | [] =>
      match outbound self with
      | [] => (self, None)
      | _ =>
          let take := Z.min cap (zlen (outbound self)) in
          let chunk := ztake take (outbound self) in
          let offset := outbound_offset self in
          (mk_crypto_buf (next_offset self) (pending self) (zdrop take (outbound self))
             (wadd 64 offset (zlen chunk)) (Some (offset, chunk)) []
             (bt_insert (sent_history self) offset chunk), Some (offset, chunk))
      end
  end.

(** [while cursor < end]: [None] is [return false].  Successive entries have increasing
    keys, so the number of history entries bounds the iterations. *)
Fixpoint requeue_loop (fuel : nat) (history : list (Z * bytes)) (cursor end_ : Z) (acc : bytes)
  : option bytes :=
  if cursor <? end_ then
    match fuel with
    | O => None
    | S fuel =>
        match bt_last_le history cursor with
        | None => None
        | Some (entry_off, entry_bytes) =>
            let entry_end := wadd 64 entry_off (zlen entry_bytes) in
            if entry_end <=? cursor then None
            else
              let local_skip := cursor - entry_off in
              let local_take := Z.min (end_ - cursor) (zlen entry_bytes - local_skip) in
              requeue_loop fuel history (wadd 64 cursor local_take) end_
                (acc ++ ztake local_take (zdrop local_skip entry_bytes))
        end
    end
  else Some acc.

Definition requeue_range (self : CryptoBuf) (offset length_ : Z) : CryptoBuf * bool :=
  if length_ =? 0 then (self, false)
  else if existsb (λ '(o, b), (o <=? offset)
                     && (wadd 64 offset length_ <=? wadd 64 o (zlen b))) (rtx self)
  then (self, false)
  else
    match requeue_loop (2 + length (sent_history self)) (sent_history self) offset
            (sat_add 64 offset length_) [] with
    | None => (self, false)
    | Some bytes_to_requeue =>
        (mk_crypto_buf (next_offset self) (pending self) (outbound self) (outbound_offset self)
           (last_sent self) (rtx self ++ [(offset, bytes_to_requeue)]) (sent_history self), true)
    end.

Definition on_range_acked (self : CryptoBuf) (offset length_ : Z) : CryptoBuf :=
  if length_ =? 0 then self
  else
    let end_ := sat_add 64 offset length_ in
    let covered := (filter (λ e, wadd 64 e.1 (zlen e.2) ≤ end_)
                      (bt_range (sent_history self) offset end_)).*1 in
    mk_crypto_buf (next_offset self) (pending self) (outbound self) (outbound_offset self)
      (last_sent self) (rtx self) (fold_left bt_remove covered (sent_history self)).

Definition schedule_last_chunk_retransmit (self : CryptoBuf) : CryptoBuf * bool :=
  match last_sent self with
  | Some (off, data) =>
      (mk_crypto_buf (next_offset self) (pending self) (outbound self) (outbound_offset self)
         (last_sent self) ((off, data) :: rtx self) (sent_history self), true)
  | None => (self, false)
  end.

(** * The stream a buffer represents *)

(** [x] has been received: delivered or pending. *)
Definition covered (b : CryptoBuf) (x : Z) : Prop :=
  0 ≤ x < next_offset b ∨ ∃ e, e ∈ pending b ∧ e.1 ≤ x < e.1 + zlen e.2.

Record inbound_wf (S : Z → Z) (b : CryptoBuf) : Prop := {
  iw_sorted : bt_sorted (pending b);
  iw_carries : Forall (carries S) (pending b);
  iw_nonempty : Forall (λ e, 0 < zlen e.2) (pending b);
  iw_beyond : Forall (λ e, next_offset b < e.1) (pending b);
  iw_next : 0 ≤ next_offset b < 2 ^ 64;
  iw_bytes : total_pending_bytes b ≤ MAX_PENDING_CRYPTO_BYTES;
  iw_count : zlen (pending b) ≤ MAX_PENDING_FRAGMENTS }.

(** ** Draining *)

Lemma drain_spec S p : ∀ next rel p' next' rel',
  bt_sorted p → Forall (carries S) p → 0 ≤ next < 2 ^ 64 →
  drain p next rel = (p', next', rel') →
  (∃ gone, p = gone ++ p') ∧ Forall (λ e, next' < e.1) p' ∧ next ≤ next' < 2 ^ 64
  ∧ rel' = rel ++ stream_slice S next (Z.to_nat (next' - next))
  ∧ ∀ x, 0 ≤ x → (x < next' ∨ pend_covers p' x) ↔ (x < next ∨ pend_covers p x).
Proof.
  induction p as [|[o frag] p IH]; intros next rel p' next' rel' Hs Hc Hn Hd; simpl in Hd.
  { injection Hd as <- <- <-. rewrite Z.sub_diag. simpl. rewrite app_nil_r.
    split_and!; [by exists []|constructor|lia|lia|done|done]. }
  inversion Hc as [|? ? Hce Hcp]; subst. apply bt_sorted_cons in Hs as [Hlt Hs].
  destruct (Z.leb_spec o next) as [Hle|Hgt].
  2:{ injection Hd as <- <- <-. rewrite Z.sub_diag. simpl. rewrite app_nil_r.
      split_and!; [by exists []| |lia|lia|done|done]. constructor; [done|].
      eapply Forall_impl; [exact Hlt|]. unfold key_lt. simpl. lia. }
  pose proof Hce as (Ho & Hend & Hdata). simpl in Ho, Hend, Hdata.
  unfold wadd in Hd. rewrite wrap_small in Hd by (unfold in_width, zlen in *; lia).
  destruct (Z.leb_spec (o + zlen frag) next) as [Hold|Hnew].
  - apply IH in Hd as ((gone & ->) & Hb & Hr & -> & Hcov); try done.
    split_and!; [by exists ((o, frag) :: gone)|done|lia|lia|done|].
    intros x Hx. rewrite Hcov, pend_covers_cons by done. simpl.
    assert (o ≤ x < o + zlen frag → x < next) by lia. tauto.
  - assert (zdrop (next - o) frag = stream_slice S next (Z.to_nat (o + zlen frag - next))) as Hz.
    { pose proof (zdrop_carries S o frag (next - o) Hce ltac:(lia)) as (_ & _ & Hz). simpl in Hz.
      rewrite Hz. f_equal; [lia|]. unfold zdrop, zlen. rewrite length_drop. unfold zlen in *. lia. }
    rewrite Hz in Hd. apply IH in Hd as ((gone & ->) & Hb & Hr & -> & Hcov); try done; [|lia].
    split_and!; [by exists ((o, frag) :: gone)|done|lia|lia| |].
    + rewrite <- app_assoc. f_equal.
      replace (Z.to_nat (next' - next)) with
        (Z.to_nat (o + zlen frag - next) + Z.to_nat (next' - (o + zlen frag)))%nat by lia.
      rewrite stream_slice_app. f_equal. f_equal. lia.
    + intros x Hx. rewrite Hcov, pend_covers_cons by done. simpl.
      assert (x < o + zlen frag ↔ x < next ∨ o ≤ x < o + zlen frag) by lia. tauto.
Qed.

(** ** Reassembly *)

Lemma covered_split b x : 0 ≤ x → covered b x ↔ x < next_offset b ∨ pend_covers (pending b) x.
Proof. intros Hx. unfold covered, pend_covers. intuition lia. Qed.

(** What one [on_crypto] call does to a well-formed buffer. *)
Definition crypto_post (S : Z → Z) (b b' : CryptoBuf) (offset len : Z) (released : bytes) : Prop :=
  inbound_wf S b'
  ∧ next_offset b ≤ next_offset b'
  ∧ released = stream_slice S (next_offset b) (Z.to_nat (next_offset b' - next_offset b))
  ∧ (∀ x, 0 ≤ x → covered b' x ↔ covered b x ∨ offset ≤ x < offset + len).

Lemma crypto_post_same S b offset len : inbound_wf S b →
  (∀ x, 0 ≤ x → offset ≤ x < offset + len → covered b x) →
  crypto_post S b b offset len [].
Proof.
  intros Hwf Hc. split_and!; [done|lia| |].
  - by rewrite Z.sub_diag.
  - intros x Hx. split; [by left|]. intros [|]; [done|by apply Hc].
Qed.

(** Storing an out-of-order fragment that is longer than what is held at its offset. *)
Lemma store_fragment_spec S b offset data :
  inbound_wf S b → carries S (offset, data) → next_offset b < offset → 0 < zlen data →
  let existing := match bt_get (pending b) offset with Some v => zlen v | None => 0 end in
  existing < zlen data →
  sat_add 64 (total_pending_bytes b) (zlen data - existing) ≤ MAX_PENDING_CRYPTO_BYTES →
  (existing =? 0) && (MAX_PENDING_FRAGMENTS <=? zlen (pending b)) = false →
  crypto_post S b (set_inbound b (next_offset b) (bt_insert (pending b) offset data))
    offset (zlen data) [].
Proof.
  intros Hwf Hcar Hgt Hpos existing Hlt Hsat Hcap.
  pose proof Hwf as [Hs Hc Hne Hb Hn Hbytes Hcnt].
  assert (∀ P : Z * bytes → Prop, Forall P (pending b) → P (offset, data) →
    Forall P (bt_insert (pending b) offset data)) as Hforall.
  { intros P HP Hnew. apply Forall_forall. intros e [->|[He _]]%bt_insert_elem; [done| |done].
    rewrite Forall_forall in HP. by apply HP. }
  unfold crypto_post. split_and!; simpl; [|lia|by rewrite Z.sub_diag|].
  - split; simpl; try by auto.
    + by apply bt_insert_sorted.
    + unfold total_pending_bytes. simpl. change (foldr _ 0 ?l) with (pend_bytes l).
      rewrite pend_bytes_insert by done. fold existing.
      unfold total_pending_bytes in Hsat. change (foldr _ 0 ?l) with (pend_bytes l) in Hsat.
      pose proof (pend_bytes_nonneg (pending b)). unfold sat_add in Hsat.
      unfold MAX_PENDING_CRYPTO_BYTES in *. lia.
    + unfold zlen. rewrite bt_insert_length by done.
      subst existing. destruct (bt_get (pending b) offset) as [old|] eqn:E.
      { unfold zlen in Hcnt. lia. }
      simpl in Hcap. apply Z.leb_gt in Hcap. unfold zlen in *. lia.
  - intros x Hx. rewrite !covered_split by done. simpl. unfold pend_covers. split.
    + intros [|(e & [->|[He _]]%bt_insert_elem & Hr)]; [by left; left| by right| |done].
      left. right. by exists e.
    + intros [[|(e & He & Hr)]|Hr]; [by left| |].
      * right. destruct (decide (e.1 = offset)) as [Ho|Ho].
        -- exists (offset, data). rewrite bt_insert_elem by done. split; [by left|]. simpl.
           destruct e as [o v]. simpl in *. subst o.
           apply bt_get_Some in He; [|done]. subst existing. rewrite He in Hlt. lia.
        -- exists e. rewrite bt_insert_elem by done. split; [by right|done].
      * right. exists (offset, data). rewrite bt_insert_elem by done. split; [by left|done].
Qed.

Lemma held_covers b offset n x : bt_sorted (pending b) → 0 ≤ n →
  n ≤ match bt_get (pending b) offset with Some v => zlen v | None => 0 end →
  offset ≤ x < offset + n → pend_covers (pending b) x.
Proof.
  intros Hs Hn Hle Hx. destruct (bt_get (pending b) offset) as [v|] eqn:E; [|lia].
  apply bt_get_Some in E; [|done]. exists (offset, v). simpl. split; [done|lia].
Qed.

Lemma on_crypto_trimmed_spec S b offset data b' released :
  inbound_wf S b → carries S (offset, data) → next_offset b ≤ offset →
  on_crypto_trimmed b offset data = Ok (b', released) →
  crypto_post S b b' offset (zlen data) released.
Proof.
  intros Hwf (Ho & Hend & Hdata) Hge Hr. simpl in Ho, Hend, Hdata.
  pose proof Hwf as [Hs Hc Hne Hb Hn Hbytes Hcnt].
  unfold on_crypto_trimmed in Hr.
  destruct (Z.eqb_spec (zlen data) 0) as [Hz|Hz].
  { injection Hr as <- <-. apply crypto_post_same; [done|]. lia. }
  pose proof (zlen_nonneg data) as Hlen0.
  destruct (Z.eqb_spec offset (next_offset b)) as [->|Hoff].
  - unfold wadd in Hr. rewrite wrap_small in Hr by (unfold in_width; lia).
    destruct (drain _ _ _) as [[p' next'] rel'] eqn:E. injection Hr as <- <-.
    apply (drain_spec S) in E as ((gone & Hp) & Hb' & Hr & -> & Hcov); try done; [|lia].
    split_and!; simpl; [|lia| |].
    + split; simpl; try done; [| | |lia| |].
      * unfold bt_sorted in *. rewrite Hp in Hs. by eapply StronglySorted_app_1_r.
      * rewrite Hp, Forall_app in Hc. tauto.
      * rewrite Hp, Forall_app in Hne. tauto.
      * unfold total_pending_bytes in *. simpl. rewrite Hp in Hbytes.
        change (foldr _ 0 ?l) with (pend_bytes l) in *. rewrite pend_bytes_app in Hbytes.
        pose proof (pend_bytes_nonneg gone). lia.
      * rewrite Hp in Hcnt. rewrite zlen_app in Hcnt. pose proof (zlen_nonneg gone). lia.
    + rewrite Hdata at 1.
      replace (Z.to_nat (next' - next_offset b)) with
        (length data + Z.to_nat (next' - (next_offset b + zlen data)))%nat
        by (unfold zlen in *; lia).
      by rewrite stream_slice_app.
    + intros x Hx. rewrite !covered_split by done. simpl. rewrite Hcov by done.
      assert (x < next_offset b + zlen data ↔
        x < next_offset b ∨ next_offset b ≤ x < next_offset b + zlen data) by lia. tauto.
  - unfold wadd in Hr. rewrite (wrap_small 64 (offset + _)) in Hr by (unfold in_width; lia).
    destruct (bt_last_lt (pending b) offset) as [[po pd]|] eqn:Hlast;
      [destruct (Z.leb_spec (offset + zlen data) (wrap 64 (po + zlen pd))) as [Hcov|_]|].
    { injection Hr as <- <-. apply crypto_post_same; [done|]. intros x Hx Hin.
      apply bt_last_le_Some in Hlast as (He & Hle & _); [|done]. simpl in Hle.
      rewrite Forall_forall in Hc. destruct (Hc _ He) as (? & ? & _). simpl in *.
      rewrite wrap_small in Hcov by (unfold in_width; pose proof (zlen_nonneg pd); lia).
      apply covered_split; [done|]. right. exists (po, pd). simpl. split; [done|lia]. }
    all: clear Hlast; set (existing := match bt_get (pending b) offset with
      Some v => zlen v | None => 0 end) in *;
      destruct (Z.leb_spec (zlen data) existing) as [Hsmall|Hbig];
      [injection Hr as <- <-; apply crypto_post_same; [done|]; intros x Hx Hin;
       apply covered_split; [done|]; right; by apply (held_covers b offset (zlen data))|];
      destruct (Z.ltb_spec MAX_PENDING_CRYPTO_BYTES
        (sat_add 64 (total_pending_bytes b) (zlen data - existing))); [discriminate|];
      destruct ((existing =? 0) && (MAX_PENDING_FRAGMENTS <=? zlen (pending b))) eqn:Hcap;
      [discriminate|]; injection Hr as <- <-; by apply store_fragment_spec; lia || done.
Qed.

Lemma on_crypto_spec S b offset data b' released :
  inbound_wf S b → carries S (offset, data) → on_crypto b offset data = Ok (b', released) →
  crypto_post S b b' offset (zlen data) released.
Proof.
  intros Hwf Hcar Hr. unfold on_crypto in Hr. pose proof (iw_next _ _ Hwf) as Hn.
  destruct (Z.ltb_spec offset (next_offset b)) as [Hlt|Hge];
    [|by apply on_crypto_trimmed_spec].
  destruct (Z.leb_spec (zlen data) (next_offset b - offset)) as [Hstale|Hnew].
  { injection Hr as <- <-. apply crypto_post_same; [done|]. intros x Hx Hin.
    apply covered_split; [done|]. left. lia. }
  assert (carries S (next_offset b, zdrop (next_offset b - offset) data)) as Hcar'.
  { replace (next_offset b) with (offset + (next_offset b - offset)) at 1 by lia.
    destruct Hcar as (? & ? & ?). simpl in *. apply zdrop_carries; [done|lia]. }
  destruct (on_crypto_trimmed_spec S b _ _ b' released Hwf Hcar' ltac:(lia) Hr)
    as (Hwf' & Hle & Hrel & Hcov).
  split_and!; [done..|]. intros x Hx. rewrite Hcov, !covered_split by done.
  assert (zlen (zdrop (next_offset b - offset) data) = zlen data - (next_offset b - offset)) as ->.
  { unfold zlen, zdrop in *. rewrite length_drop. lia. }
  destruct Hcar as (? & _ & _). simpl in *.
  assert (next_offset b ≤ x < next_offset b + (zlen data - (next_offset b - offset))
    → offset ≤ x < offset + zlen data) by lia.
  assert (offset ≤ x < offset + zlen data → x < next_offset b ∨
    next_offset b ≤ x < next_offset b + (zlen data - (next_offset b - offset))) by lia.
  tauto.
Qed.

(** Inbound frames leave the outbound half alone. *)
Lemma on_crypto_outbound b offset data b' released : on_crypto b offset data = Ok (b', released) →
  b' = set_inbound b (next_offset b') (pending b').
Proof.
  assert (b = set_inbound b (next_offset b) (pending b)) as Hb by (by destruct b).
  unfold on_crypto, on_crypto_trimmed. intros Hr.
  repeat case_match; simplify_eq/=; done.
Qed.

(** The delivered prefix is maximal: the next byte has not been received. *)
Lemma next_not_covered S b : inbound_wf S b → ¬ covered b (next_offset b).
Proof.
  intros [_ _ _ Hb _ _ _] [?|(e & He & ?)]; [lia|].
  rewrite Forall_forall in Hb. specialize (Hb e He). lia.
Qed.

Lemma inbound_new_wf S : inbound_wf S crypto_buf_new.
Proof.
  split; simpl; try constructor; try done.
Qed.

Lemma inbound_wf_ext S S' b : inbound_wf S b → (∀ x, covered b x → S x = S' x) → inbound_wf S' b.
Proof.
  intros [Hs Hc Hne Hb Hn Hbytes Hcnt] Hx. split; try done.
  apply Forall_forall. intros e He. rewrite Forall_forall in Hc.
  apply (carries_ext S); [|by apply Hc]. intros x Hin. apply Hx. right. by exists e.
Qed.

(** ** The outbound half *)

(** Everything queued, remembered or sent carries the enqueued stream [T]. *)
Record outbound_wf (T : bytes) (b : CryptoBuf) : Prop := {
  ow_len : zlen T < 2 ^ 64;
  ow_offset : 0 ≤ outbound_offset b;
  ow_end : outbound_offset b + zlen (outbound b) = zlen T;
  ow_fresh : outbound b = stream_slice (stream_of T) (outbound_offset b) (length (outbound b));
  ow_history : Forall (in_stream T) (sent_history b);
  ow_sorted : bt_sorted (sent_history b);
  ow_rtx : Forall (in_stream T) (rtx b);
  ow_last : ∀ e, last_sent b = Some e → in_stream T e }.

Lemma outbound_new_wf : outbound_wf [] crypto_buf_new.
Proof. split; simpl; try done; by constructor. Qed.

Lemma outbound_wf_inbound T b n p : outbound_wf T b → outbound_wf T (set_inbound b n p).
Proof. by intros []. Qed.

Lemma enqueue_wf T b d : outbound_wf T b → zlen (T ++ d) < 2 ^ 64 →
  outbound_wf (T ++ d) (enqueue_outbound b d).
Proof.
  intros [Hl Ho He Hf Hh Hs Hr Hla] Hlen. rewrite zlen_app in *. split; simpl; try done.
  - by rewrite zlen_app.
  - rewrite !zlen_app. lia.
  - rewrite length_app, stream_slice_app. f_equal.
    + rewrite Hf at 1. apply stream_slice_ext. intros x Hx. symmetry. apply stream_of_app.
      unfold zlen in *. lia.
    + rewrite <- (stream_slice_tail T d) at 1. f_equal. unfold zlen in *. lia.
  - eapply Forall_impl; [exact Hh|]. apply in_stream_app.
  - eapply Forall_impl; [exact Hr|]. apply in_stream_app.
  - intros e He'. by apply in_stream_app, Hla.
Qed.

(** Every chunk handed out, first time or again, carries the stream. *)
Lemma carve_wf T b cap b' out : outbound_wf T b → 0 ≤ cap → carve b cap = (b', out) →
  outbound_wf T b' ∧ (∀ e, out = Some e → in_stream T e)
  ∧ next_offset b' = next_offset b ∧ pending b' = pending b.
Proof.
  intros Hwf Hcap Hcv. pose proof Hwf as [Hl Ho He Hf Hh Hs Hr Hla]. unfold carve in Hcv.
  destruct (rtx b) as [|[off chunk] rest] eqn:Ertx.
  - destruct (outbound b) as [|o0 orest] eqn:Eout; [injection Hcv as <- <-; done|].
    rewrite <- Eout in *. injection Hcv as <- <-. clear Eout.
    set (n := Z.min cap (zlen (outbound b))) in *.
    assert (0 ≤ n ≤ zlen (outbound b)) as Hn by (pose proof (zlen_nonneg (outbound b)); lia).
    assert (in_stream T (outbound_offset b, outbound b)) as Hin.
    { split; simpl; [|lia]. split_and!; simpl; [lia|lia|done]. }
    destruct (in_stream_split T _ _ n Hin Hn) as [Hin1 Hin2].
    assert (zlen (ztake n (outbound b)) = n) as Hzl
      by (unfold zlen, ztake in *; rewrite length_take; lia).
    assert (zlen (zdrop n (outbound b)) = zlen (outbound b) - n)
      by (unfold zlen, zdrop in *; rewrite length_drop; lia).
    unfold wadd. rewrite Hzl, wrap_small by (unfold in_width; lia).
    split; [|by split; [intros e [= <-]|]].
    split; simpl; try done; [lia|lia|apply Hin2| | |by intros e [= <-]].
    + by apply Forall_bt_insert.
    + by apply bt_insert_sorted.
  - inversion Hr as [|? ? Hhd Hrest]; subst.
    assert (∃ c r, (if cap <? zlen chunk then
        (ztake cap chunk, (wadd 64 off cap, zdrop cap chunk) :: rest) else (chunk, rest)) = (c, r)
        ∧ in_stream T (off, c) ∧ Forall (in_stream T) r) as (c & r & Hsplit & Hc & Hr').
    { destruct (Z.ltb_spec cap (zlen chunk)); [|by exists chunk, rest].
      destruct (in_stream_split T off chunk cap Hhd ltac:(lia)) as [H1 H2].
      pose proof Hhd as [(? & ? & _) _]. simpl in *.
      eexists _, _. split; [done|]. split; [done|]. constructor; [|done].
      unfold wadd. by rewrite wrap_small by (unfold in_width; lia). }
    rewrite Hsplit in Hcv. injection Hcv as <- <-.
    split; [|by split; [intros e [= <-]|]].
    split; simpl; try done; [..|by intros e [= <-]];
      destruct (_ <=? zlen c); try done; [by apply Forall_bt_insert | by apply bt_insert_sorted].
Qed.

Lemma requeue_loop_carries T h fuel : ∀ cursor end_ acc off out,
  bt_sorted h → Forall (in_stream T) h → zlen T < 2 ^ 64 → end_ < 2 ^ 64 →
  in_stream T (off, acc) → cursor = off + zlen acc →
  requeue_loop fuel h cursor end_ acc = Some out →
  in_stream T (off, out) ∧ (cursor ≤ end_ → off + zlen out = end_).
Proof.
  induction fuel as [|fuel IH]; intros cursor end_ acc off out Hs Hh HT Hend Hacc Hcur Hl;
    simpl in Hl; (destruct (Z.ltb_spec cursor end_); [|injection Hl as <-; split; [done|lia]]);
    [discriminate|].
  destruct (bt_last_le h cursor) as [[eo eb]|] eqn:Hlast; [|discriminate].
  apply bt_last_le_Some in Hlast as (He & Hle & _); [|done]. simpl in Hle.
  rewrite Forall_forall in Hh. pose proof (Hh _ He) as [Hec Hel]. simpl in Hel.
  pose proof Hec as (Heo & Hee & Heb). simpl in Heo, Hee, Heb.
  unfold wadd in Hl. rewrite (wrap_small 64 (eo + zlen eb)) in Hl
    by (unfold in_width; pose proof (zlen_nonneg eb); lia).
  destruct (Z.leb_spec (eo + zlen eb) cursor); [discriminate|].
  set (n := Z.min (end_ - cursor) (zlen eb - (cursor - eo))) in *.
  destruct (in_stream_split T eo eb (cursor - eo) (Hh _ He) ltac:(lia)) as [_ Hdrop].
  assert (zlen (zdrop (cursor - eo) eb) = zlen eb - (cursor - eo)) as Hdl
    by (unfold zlen, zdrop in *; rewrite length_drop; lia).
  destruct (in_stream_split T _ _ n Hdrop ltac:(lia)) as [[Htake Htl] _]. simpl in Htl.
  assert (zlen (ztake n (zdrop (cursor - eo) eb)) = n) as Hzn
    by (unfold zlen, ztake in *; rewrite length_take; lia).
  destruct Hacc as [(Ha0 & Ha1 & Ha2) Hal]. simpl in *.
  rewrite wrap_small in Hl by (unfold in_width; pose proof (zlen_nonneg acc); lia).
  apply (IH _ _ _ off) in Hl as [Hin Hlen]; try done; [split; [done|lia]|by apply Forall_forall|..].
  - split; simpl; [|rewrite zlen_app, Hzn; lia]. split_and!; simpl; [lia|rewrite zlen_app; lia|].
    rewrite length_app, stream_slice_app. f_equal; [done|].
    destruct Htake as (_ & _ & Htake). simpl in Htake. rewrite Htake at 1.
    f_equal. unfold zlen in *. lia.
  - rewrite zlen_app. lia.
Qed.

Lemma requeue_wf T b off len b' ok : outbound_wf T b → 0 ≤ off → 0 ≤ len → off + len < 2 ^ 64 →
  off ≤ zlen T → requeue_range b off len = (b', ok) →
  outbound_wf T b' ∧ next_offset b' = next_offset b ∧ pending b' = pending b.
Proof.
  intros Hwf Hoff Hlen Hmax HoT Hrq. pose proof Hwf as [Hl Ho He Hf Hh Hs Hr Hla].
  unfold requeue_range in Hrq. destruct (len =? 0); [injection Hrq as <- <-; done|].
  destruct (existsb _ _); [injection Hrq as <- <-; done|].
  destruct (requeue_loop _ _ _ _ _) as [out|] eqn:El; [|injection Hrq as <- <-; done].
  injection Hrq as <- <-.
  apply (requeue_loop_carries T _ _ _ _ _ off) in El as [Hin _]; try done.
  - split; [|done]. split; simpl; try done. apply Forall_app. split; [done|]. by constructor.
  - unfold sat_add. lia.
  - split; simpl; change (zlen (@nil Z)) with 0; [|lia].
    split_and!; simpl; change (zlen (@nil Z)) with 0; [lia|lia|done].
  - change (zlen (@nil Z)) with 0. lia.
Qed.

Lemma acked_wf T b off len : outbound_wf T b → outbound_wf T (on_range_acked b off len).
Proof.
  intros Hwf. unfold on_range_acked. destruct (len =? 0); [done|]. cbv zeta.
  destruct Hwf as [Hl Ho He Hf Hh Hs Hr Hla].
  generalize (filter (λ e : Z * bytes, wadd 64 e.1 (zlen e.2) ≤ sat_add 64 off len)
    (bt_range (sent_history b) off (sat_add 64 off len))).*1 as ks. intros ks.
  assert (∀ ks h, Forall (in_stream T) h → bt_sorted h →
    Forall (in_stream T) (fold_left bt_remove ks h) ∧ bt_sorted (fold_left bt_remove ks h)) as Hfold.
  { clear. induction ks as [|k ks IH]; intros h Hh Hs; [done|]. simpl. apply IH.
    - apply Forall_forall. intros e [_ He]%list_elem_of_filter. rewrite Forall_forall in Hh. by apply Hh.
    - by apply bt_remove_sorted. }
  destruct (Hfold ks _ Hh Hs). by split.
Qed.

Lemma schedule_wf T b b' ok : outbound_wf T b → schedule_last_chunk_retransmit b = (b', ok) →
  outbound_wf T b' ∧ next_offset b' = next_offset b ∧ pending b' = pending b.
Proof.
  intros Hwf. unfold schedule_last_chunk_retransmit.
  destruct (last_sent b) as [[o d]|] eqn:E; intros [= <- <-]; [|done].
  destruct Hwf as [Hl Ho He Hf Hh Hs Hr Hla]. split; [|done].
  split; simpl; try done; [|by rewrite E in Hla]. constructor; [by apply Hla|done].
Qed.

(** ** Two endpoints and a network

    The sender's CRYPTO stream at one level, the receiver's buffer, the frames in
    flight (never removed: the network may lose, delay, duplicate and reorder), the
    bytes enqueued so far and the bytes handed to the receiver's TLS engine. *)
Record crypto_sys := mk_sys {
  sys_sender : CryptoBuf;
  sys_receiver : CryptoBuf;
  sys_net : list (Z * bytes);
  sys_sent : bytes;
  sys_delivered : bytes }.

Inductive crypto_step : crypto_sys → crypto_sys → Prop :=
| step_enqueue s r net T out d : zlen (T ++ d) < 2 ^ 64 →
    crypto_step (mk_sys s r net T out) (mk_sys (enqueue_outbound s d) r net (T ++ d) out)
| step_carve s r net T out cap s' frame : 0 ≤ cap → carve s cap = (s', Some frame) →
    crypto_step (mk_sys s r net T out) (mk_sys s' r (frame :: net) T out)
| step_requeue s r net T out off len s' ok : 0 ≤ off ≤ zlen T → 0 ≤ len → off + len < 2 ^ 64 →
    requeue_range s off len = (s', ok) →
    crypto_step (mk_sys s r net T out) (mk_sys s' r net T out)
| step_retransmit_last s r net T out s' ok : schedule_last_chunk_retransmit s = (s', ok) →
    crypto_step (mk_sys s r net T out) (mk_sys s' r net T out)
| step_acked s r net T out off len :
    crypto_step (mk_sys s r net T out) (mk_sys (on_range_acked s off len) r net T out)
| step_deliver s r net T out off data r' released : (off, data) ∈ net →
    on_crypto r off data = Ok (r', released) →
    crypto_step (mk_sys s r net T out) (mk_sys s r' net T (out ++ released)).

Definition sys_init : crypto_sys := mk_sys crypto_buf_new crypto_buf_new [] [] [].

Record sys_inv (st : crypto_sys) : Prop := {
  si_sender : outbound_wf (sys_sent st) (sys_sender st);
  si_receiver : inbound_wf (stream_of (sys_sent st)) (sys_receiver st);
  si_net : Forall (in_stream (sys_sent st)) (sys_net st);
  si_within : ∀ x, covered (sys_receiver st) x → x < zlen (sys_sent st);
  si_delivered : sys_delivered st =
    stream_slice (stream_of (sys_sent st)) 0 (Z.to_nat (next_offset (sys_receiver st))) }.

Lemma sys_init_inv : sys_inv sys_init.
Proof.
  split; simpl; [apply outbound_new_wf|apply inbound_new_wf|constructor| |done].
  intros x [?|(e & He & _)]; simpl in *; [lia|]. by apply elem_of_nil in He.
Qed.

Lemma covered_nonneg S b x : inbound_wf S b → covered b x → 0 ≤ x.
Proof.
  intros Hwf [?|(e & He & ?)]; [lia|]. pose proof (iw_carries _ _ Hwf) as Hc.
  rewrite Forall_forall in Hc. destruct (Hc e He) as (? & _). lia.
Qed.

Lemma crypto_step_inv st st' : sys_inv st → crypto_step st st' → sys_inv st'.
Proof.
  intros [Hs Hr Hn Hw Hd] Hstep. destruct Hstep; simpl in *.
  - split; simpl.
    + by apply enqueue_wf.
    + eapply inbound_wf_ext; [exact Hr|]. intros x Hx. symmetry. apply stream_of_app.
      split; [by eapply covered_nonneg|by apply Hw].
    + eapply Forall_impl; [exact Hn|]. apply in_stream_app.
    + intros x Hx%Hw. rewrite zlen_app. pose proof (zlen_nonneg d). lia.
    + rewrite Hd. apply stream_slice_ext. intros x Hx. symmetry. apply stream_of_app.
      split; [lia|]. apply Hw. left. lia.
  - destruct (carve_wf T s cap s' (Some frame)) as (Hwf & Hf & _); try done.
    split; simpl; try done. constructor; [by apply Hf|done].
  - destruct (requeue_wf T s off len s' ok) as (Hwf & _); try (done || lia); by split.
  - destruct (schedule_wf T s s' ok) as (Hwf & _); try done; by split.
  - split; simpl; try done. by apply acked_wf.
  - rewrite Forall_forall in Hn. pose proof (Hn _ H) as [Hcar Hin]. simpl in Hin.
    destruct (on_crypto_spec _ _ _ _ _ _ Hr Hcar H0) as (Hwf & Hle & Hrel & Hcov).
    split; simpl; try done; [by apply Forall_forall| |].
    + intros x Hx. assert (0 ≤ x) by (by eapply covered_nonneg).
      apply Hcov in Hx as [?%Hw|?]; [done|lia|done].
    + rewrite Hd, Hrel. pose proof (iw_next _ _ Hr).
      replace (Z.to_nat (next_offset r')) with
        (Z.to_nat (next_offset r) + Z.to_nat (next_offset r' - next_offset r))%nat by lia.
      rewrite stream_slice_app. do 2 f_equal. lia.
Qed.

(** * Properties *)

(** Reassembly of one CRYPTO fragment.  If the pending fragments and the new one carry
    bytes of one stream, a successful [on_crypto] returns exactly the stream bytes between
    the old and the new next offset, the set of received offsets grows by exactly the
    fragment's range, the next offset is the first one not received, and the invariant
    (sorted, beyond the next offset, at most 64 KiB and 32 fragments pending) is kept. *)
Theorem on_crypto_correct S b offset data b' released :
  inbound_wf S b → carries S (offset, data) → on_crypto b offset data = Ok (b', released) →
  inbound_wf S b'
  ∧ released = stream_slice S (next_offset b) (Z.to_nat (next_offset b' - next_offset b))
  ∧ (∀ x, 0 ≤ x → covered b' x ↔ covered b x ∨ offset ≤ x < offset + zlen data)
  ∧ ¬ covered b' (next_offset b').
Proof.
  intros Hwf Hcar Hr. destruct (on_crypto_spec _ _ _ _ _ _ Hwf Hcar Hr) as (Hwf' & _ & Hrel & Hc).
  split_and!; [done..|]. by eapply next_not_covered.
Qed.

Lemma on_crypto_correct_witness :
  let S := λ x, x mod 256 in
  let b' := set_inbound crypto_buf_new 0 [(2, [2; 3])] in
  inbound_wf S b'
  ∧ [] = stream_slice S 0 (Z.to_nat (0 - 0))
  ∧ (∀ x, 0 ≤ x → covered b' x ↔ covered crypto_buf_new x ∨ 2 ≤ x < 2 + zlen [2; 3])
  ∧ ¬ covered b' 0.
Proof.
  apply (on_crypto_correct (λ x, x mod 256) crypto_buf_new 2 [2; 3]
           (set_inbound crypto_buf_new 0 [(2, [2; 3])]) []).
  - apply inbound_new_wf.
  - split_and!; simpl; unfold zlen; simpl; [lia|lia|reflexivity].
  - reflexivity.
Defined.

(** C20: end to end, whatever the network loses, duplicates or reorders and however the
    sender splits, re-queues and re-sends its chunks, the bytes delivered to the peer's TLS
    engine are always a prefix of the bytes the sender's TLS engine produced. *)
Theorem crypto_stream_prefix st : rtc crypto_step sys_init st →
  sys_delivered st = take (Z.to_nat (next_offset (sys_receiver st))) (sys_sent st).
Proof.
  intros Hrtc. assert (sys_inv st) as [Hs Hr Hn Hw Hd].
  { revert Hrtc. apply (rtc_ind_r sys_inv); [apply sys_init_inv|].
    intros y z _ Hstep Hy. by eapply crypto_step_inv. }
  rewrite Hd. apply stream_slice_prefix.
  destruct (Z.lt_ge_cases 0 (next_offset (sys_receiver st))); [|lia].
  pose proof (Hw (next_offset (sys_receiver st) - 1) ltac:(left; lia)) as Hlt.
  unfold zlen in Hlt. lia.
Qed.

Lemma crypto_stream_prefix_witness :
  let s1 := enqueue_outbound crypto_buf_new [10; 20; 30] in
  let '(s2, _) := carve s1 2 in
  let r := set_inbound crypto_buf_new 2 [] in
  sys_delivered (mk_sys s2 r [(0, [10; 20])] [10; 20; 30] [10; 20]) = take 2 [10; 20; 30].
Proof.
  apply (crypto_stream_prefix (mk_sys _ (set_inbound crypto_buf_new 2 []) [(0, [10; 20])]
    ([] ++ [10; 20; 30]) ([] ++ [10; 20]))).
  eapply rtc_l; [apply (step_enqueue _ _ _ _ _ [10; 20; 30]); reflexivity|].
  eapply rtc_l; [apply (step_carve _ _ _ _ _ 2); [lia | reflexivity]|].
  eapply rtc_l; [|apply rtc_refl].
  apply (step_deliver _ _ _ _ _ 0 [10; 20]); [constructor | reflexivity].
Defined.

(** Retransmission is possible for everything remembered: re-queuing the range of a
    history entry either finds it already queued or queues exactly the bytes sent. *)
Theorem requeue_recovers T b k v : outbound_wf T b → (k, v) ∈ sent_history b → 0 < zlen v →
  let '(b', ok) := requeue_range b k (zlen v) in
  if ok then rtx b' = rtx b ++ [(k, v)] ∧ sent_history b' = sent_history b
  else b' = b ∧ ∃ o d, (o, d) ∈ rtx b ∧ o ≤ k ∧ k + zlen v ≤ o + zlen d.
Proof.
  intros [Hl Ho He Hf Hh Hs Hr Hla] Hin Hpos.
  rewrite Forall_forall in Hh. destruct (Hh _ Hin) as [(Hk & Hkl & Hkd) HkT]. simpl in *.
  unfold requeue_range. destruct (Z.eqb_spec (zlen v) 0); [lia|].
  destruct (existsb _ (rtx b)) eqn:E.
  - split; [done|]. apply existsb_exists in E as ([o d] & Hod & Hc).
    apply andb_true_iff in Hc as [Hc1 Hc2]. apply Z.leb_le in Hc1, Hc2.
    apply list_elem_of_In in Hod. exists o, d. split; [done|].
    rewrite Forall_forall in Hr. destruct (Hr _ Hod) as [(? & ? & _) _]. simpl in *.
    unfold wadd in Hc2. rewrite !wrap_small in Hc2
      by (unfold in_width; pose proof (zlen_nonneg d); lia). lia.
  - unfold sat_add. rewrite Z.min_r by lia. cbn [requeue_loop Nat.add].
    destruct (Z.ltb_spec k (k + zlen v)); [|lia].
    destruct (bt_last_le (sent_history b) k) as [[o d]|] eqn:Hlast.
    2:{ pose proof (bt_last_le_None _ _ Hs Hlast _ Hin). simpl in *. lia. }
    apply bt_last_le_Some in Hlast as (Hod & Hle & Hmax); [|done]. simpl in *.
    pose proof (Hmax _ Hin ltac:(simpl; lia)) as Hge. simpl in Hge. assert (o = k) as -> by lia.
    apply bt_get_Some in Hod, Hin; [|done..]. assert (d = v) as -> by congruence.
    unfold wadd. rewrite !wrap_small by (unfold in_width; lia).
    destruct (Z.leb_spec (k + zlen v) k); [lia|].
    replace (k + zlen v - k) with (zlen v) by lia. rewrite Z.sub_diag, Z.sub_0_r, Z.min_id.
    destruct (Z.ltb_spec (k + zlen v) (k + zlen v)); [lia|]. simpl.
    unfold ztake, zdrop, zlen. simpl. rewrite Nat2Z.id, drop_0, firstn_all. done.
Qed.

Lemma requeue_recovers_witness :
  let b := (carve (enqueue_outbound crypto_buf_new [10; 20; 30]) 2).1 in
  rtx (requeue_range b 0 2).1 = rtx b ++ [(0, [10; 20])]
  ∧ sent_history (requeue_range b 0 2).1 = sent_history b.
Proof.
  apply (requeue_recovers ([] ++ [10; 20; 30]) (carve (enqueue_outbound crypto_buf_new [10; 20; 30]) 2).1
           0 [10; 20]).
  - refine (proj1 (carve_wf _ (enqueue_outbound crypto_buf_new [10; 20; 30]) 2 _
      (carve (enqueue_outbound crypto_buf_new [10; 20; 30]) 2).2 _ _ _)).
    + apply enqueue_wf; [apply outbound_new_wf | reflexivity].
    + lia.
    + reflexivity.
  - constructor.
  - reflexivity.
Defined.
