(* ===== verification/Replay.v ===== *)
(** DTLS anti-replay window ([src/dtls/replay.rs], RFC 6347 section 4.1.2.6): a
    64-entry bitmap shadowing the most recent record sequence numbers, related
    here to the full history of marked numbers. *)

From S2P Require Import Prelude.

Definition WINDOW_BITS : Z := 64.

Record AntiReplayWindow := {
  highest : Z;
  bitmap : Z;
  seeded : bool }.

Definition replay_new : AntiReplayWindow := {| highest := 0; bitmap := 0; seeded := false |}.

Definition replay_check (self : AntiReplayWindow) (seq : Z) : bool :=
  if negb (seeded self) then true
  else if highest self <? seq then true
  else
    let delta := highest self - seq in
    if WINDOW_BITS <=? delta then false
    else
      let bit := wshl 64 1 delta in
      Z.land (bitmap self) bit =? 0.

Definition replay_mark (self : AntiReplayWindow) (seq : Z) : AntiReplayWindow :=
  if negb (seeded self) then {| highest := seq; bitmap := 1; seeded := true |}
  else if highest self <? seq then
    let delta := seq - highest self in
    {| highest := seq;
       bitmap := if WINDOW_BITS <=? delta then 1 else Z.lor (wshl 64 (bitmap self) delta) 1;
       seeded := seeded self |}
  else
    let delta := highest self - seq in
    if WINDOW_BITS <=? delta then self
    else
      let bit := wshl 64 1 delta in
      {| highest := highest self; bitmap := Z.lor (bitmap self) bit; seeded := seeded self |}.

(** [check] followed by [mark], as the record layers do once the tag verifies. *)
Definition replay_accept (self : AntiReplayWindow) (seq : Z) : AntiReplayWindow * bool :=
  if negb (replay_check self seq) then (self, false) else (replay_mark self seq, true).

(** * The history a window represents *)

(** Greatest element of a history. *)
Definition hist_max (h : list Z) : Z := foldr Z.max 0 h.

(** The abstract filter: a number is fresh if nothing was marked, if it is above
    everything marked, or if it is within the window and was not marked. *)
Definition spec_fresh (h : list Z) (seq : Z) : bool :=
  match h with
  | [] => true
  | _ => (hist_max h <? seq)
         || ((hist_max h - seq <? WINDOW_BITS) && negb (bool_decide (seq ∈ h)))
  end.

Record replay_rep (w : AntiReplayWindow) (h : list Z) : Prop := {
  rep_hist : Forall u64 h;
  rep_seeded : seeded w = negb (bool_decide (h = []));
  rep_bitmap : in_width 64 (bitmap w);
  rep_highest : h ≠ [] → highest w = hist_max h;
  rep_bits : h ≠ [] → ∀ i, 0 ≤ i < 64 → Z.testbit (bitmap w) i = bool_decide (highest w - i ∈ h) }.

Lemma hist_max_ge h x : x ∈ h → x ≤ hist_max h.
Proof. induction h as [|a h IH]; [by intros ?%elem_of_nil|]. intros [->|?]%elem_of_cons; simpl; [lia|].
  specialize (IH H). lia. Qed.

Lemma hist_max_cons a h : hist_max (a :: h) = Z.max a (hist_max h).
Proof. done. Qed.

Lemma hist_max_nonneg h : 0 ≤ hist_max h.
Proof. induction h; simpl; lia. Qed.

Lemma testbit_pow2 n i : 0 ≤ n → Z.testbit (2 ^ n) i = bool_decide (i = n).
Proof.
  intros Hn. case_bool_decide as Hi; [subst; by apply Z.pow2_bits_true|].
  apply Z.pow2_bits_false. lia.
Qed.

Lemma shl_bit delta : 0 ≤ delta < 64 → wshl 64 1 delta = 2 ^ delta.
Proof.
  intros Hd. unfold wshl. rewrite Z.shiftl_1_l. apply wrap_small. unfold in_width.
  split; [lia|]. apply Z.pow_lt_mono_r; lia.
Qed.

Lemma land_bit x n : 0 ≤ n → (Z.land x (2 ^ n) =? 0) = negb (Z.testbit x n).
Proof.
  intros Hn. apply eq_true_iff_eq. rewrite Z.eqb_eq, negb_true_iff. split.
  - intros Hz. apply (f_equal (λ z, Z.testbit z n)) in Hz.
    rewrite Z.land_spec, testbit_pow2, bool_decide_eq_true_2, andb_true_r, Z.bits_0 in Hz by done.
    done.
  - intros Hx. apply Z.bits_inj'. intros i Hi. rewrite Z.land_spec, testbit_pow2, Z.bits_0 by done.
    case_bool_decide; [subst; by rewrite Hx|apply andb_false_r].
Qed.

Lemma replay_check_spec w h seq : replay_rep w h → u64 seq → replay_check w seq = spec_fresh h seq.
Proof.
  intros [Hh Hsd Hbm Hhi Hb] Hseq. unfold replay_check, spec_fresh. rewrite Hsd.
  destruct h as [|a h]; [done|]. simpl negb.
  rewrite <- (Hhi ltac:(done)). destruct (Z.ltb_spec (highest w) seq); [done|]. simpl.
  unfold WINDOW_BITS. destruct (Z.leb_spec 64 (highest w - seq)), (Z.ltb_spec (highest w - seq) 64);
    [lia|done| |lia].
  rewrite shl_bit, land_bit, Hb by (done || lia). f_equal.
  by replace (highest w - (highest w - seq)) with seq by lia.
Qed.

Lemma replay_mark_rep w h seq : replay_rep w h → u64 seq → replay_rep (replay_mark w seq) (seq :: h).
Proof.
  intros [Hh Hsd Hbm Hhi Hb] Hseq. unfold replay_mark. rewrite Hsd.
  assert (u64 1) by (unfold in_width; lia).
  destruct h as [|a h].
  { split; simpl; [by constructor; [|constructor]|done|done| |].
    { intros _. unfold in_width in Hseq. lia. }
    intros _ i Hi. change 1 with (2 ^ 0). rewrite testbit_pow2 by lia.
    apply bool_decide_ext. rewrite list_elem_of_singleton. lia. }
  set (hist := a :: h) in *. assert (hist ≠ []) as Hne by done.
  specialize (Hhi Hne). specialize (Hb Hne).
  rewrite bool_decide_eq_false_2 by done. simpl negb.
  assert (∀ i, i < 0 → bool_decide (highest w - i ∈ hist) = false) as Habove.
  { intros i Hi. apply bool_decide_eq_false_2. intros Hin%hist_max_ge. lia. }
  unfold WINDOW_BITS. destruct (Z.ltb_spec (highest w) seq) as [Hgt|Hle].
  - split; cbn [highest bitmap seeded]; [by constructor|done| | |].
    + destruct (64 <=? _); [done|]. apply lor_in_width; [lia| |done]. apply wrap_range. lia.
    + intros _. rewrite hist_max_cons. lia.
    + intros _ i Hi. transitivity (bool_decide (i = 0 ∨ seq - i ∈ hist)).
      2:{ apply bool_decide_ext. rewrite elem_of_cons. intuition lia. }
      destruct (Z.leb_spec 64 (seq - highest w)).
      * change 1 with (2 ^ 0). rewrite testbit_pow2 by lia. apply bool_decide_ext.
        split; [by left|]. intros [|Hin%hist_max_ge]; lia.
      * rewrite Z.lor_spec. change 1 with (2 ^ 0). rewrite testbit_pow2 by lia. unfold wshl.
        rewrite testbit_wrap, bool_decide_eq_true_2, Z.shiftl_spec by lia. simpl.
        rewrite (bool_decide_or (i = 0)), orb_comm. f_equal.
        destruct (Z.lt_ge_cases (i - (seq - highest w)) 0) as [Hneg|Hpos].
        -- rewrite Z.testbit_neg_r by done. symmetry.
           rewrite <- (Habove (i - (seq - highest w)) Hneg). apply bool_decide_ext.
           by replace (highest w - (i - (seq - highest w))) with (seq - i) by lia.
        -- rewrite Hb by lia. apply bool_decide_ext.
           by replace (highest w - (i - (seq - highest w))) with (seq - i) by lia.
  - assert (∀ i, bool_decide (highest w - i ∈ seq :: hist) =
      bool_decide (i = highest w - seq) || bool_decide (highest w - i ∈ hist)) as Hcons.
    { intros i. rewrite <- bool_decide_or. apply bool_decide_ext. rewrite elem_of_cons.
      intuition lia. }
    destruct (Z.leb_spec 64 (highest w - seq)).
    + split; [by constructor|by rewrite Hsd|done|intros _; rewrite hist_max_cons; lia|].
      intros _ i Hi. rewrite Hcons, Hb, (bool_decide_eq_false_2 (i = highest w - seq)) by lia. done.
    + split; cbn [highest bitmap seeded]; [by constructor|done| |intros _; rewrite hist_max_cons; lia|].
      * apply lor_in_width; [lia|done|]. rewrite shl_bit by lia. split; [lia|].
        apply Z.pow_lt_mono_r; lia.
      * intros _ i Hi. rewrite Hcons, Z.lor_spec, shl_bit, testbit_pow2, Hb by lia.
        apply orb_comm.
Qed.

(** * Runs of the filter *)

(** Feeding a list of sequence numbers to the window; the accepted ones, newest first. *)
Fixpoint replay_run (w : AntiReplayWindow) (acc : list Z) (seqs : list Z)
  : AntiReplayWindow * list Z :=
  match seqs with
  | [] => (w, acc)
  | s :: seqs =>
      let '(w, ok) := replay_accept w s in
      replay_run w (if ok then s :: acc else acc) seqs
  end.

Lemma replay_new_rep : replay_rep replay_new [].
Proof. by split. Qed.

Lemma spec_fresh_not_in h s : spec_fresh h s = true → s ∉ h.
Proof.
  unfold spec_fresh. destruct h as [|a h]; [intros _; apply not_elem_of_nil|].
  rewrite orb_true_iff, andb_true_iff, negb_true_iff, bool_decide_eq_false, Z.ltb_lt.
  intros [Hgt|[_ Hn]]; [|done]. intros Hin%hist_max_ge. lia.
Qed.

Lemma replay_run_rep seqs : ∀ w acc, Forall u64 seqs → replay_rep w acc → NoDup acc →
  replay_rep (replay_run w acc seqs).1 (replay_run w acc seqs).2
  ∧ NoDup (replay_run w acc seqs).2.
Proof.
  induction seqs as [|s seqs IH]; intros w acc Hs Hrep Hnd; [done|].
  inversion Hs; subst. simpl. unfold replay_accept.
  rewrite (replay_check_spec w acc s) by done.
  destruct (spec_fresh acc s) eqn:Hf; simpl; [|by apply IH].
  apply IH; [done|by apply replay_mark_rep|]. constructor; [by apply spec_fresh_not_in|done].
Qed.

(** * Properties *)

(** C23: the bitmap filter implements its specification: whatever was marked before,
    in whatever order, [check] accepts a sequence number exactly when it is above the
    highest marked one, or less than 64 behind it and not marked before; and [mark]
    records it (a mark that is too old leaves the window unchanged). *)
Theorem replay_window_refines w h seq : replay_rep w h → u64 seq →
  replay_check w seq = spec_fresh h seq
  ∧ replay_rep (replay_mark w seq) (seq :: h)
  ∧ (h ≠ [] → 64 ≤ hist_max h - seq → replay_mark w seq = w).
Proof.
  intros Hrep Hseq. split; [by apply replay_check_spec|]. split; [by apply replay_mark_rep|].
  intros Hne Hold. unfold replay_mark.
  rewrite (rep_seeded _ _ Hrep), (rep_highest _ _ Hrep Hne), bool_decide_eq_false_2 by done. simpl.
  unfold WINDOW_BITS. destruct (Z.ltb_spec (hist_max h) seq); [lia|].
  by destruct (Z.leb_spec 64 (hist_max h - seq)); [|lia].
Qed.

Lemma replay_window_refines_witness :
  replay_check (replay_mark replay_new 100) 40 = spec_fresh [100] 40
  ∧ replay_rep (replay_mark (replay_mark replay_new 100) 40) [40; 100]
  ∧ ([100] ≠ [] → 64 ≤ hist_max [100] - 40 →
     replay_mark (replay_mark replay_new 100) 40 = replay_mark replay_new 100).
Proof.
  apply (replay_window_refines (replay_mark replay_new 100) [100] 40).
  - apply replay_mark_rep; [apply replay_new_rep | unfold in_width; lia].
  - unfold in_width; lia.
Defined.

(** No record is accepted twice: over any sequence of arrivals fed to a new window
    with check-then-mark, the accepted sequence numbers are pairwise distinct. *)
Theorem replay_no_duplicates seqs : Forall u64 seqs → NoDup (replay_run replay_new [] seqs).2.
Proof. intros Hs. apply replay_run_rep; [done|apply replay_new_rep|constructor]. Qed.

Lemma replay_no_duplicates_witness : NoDup (replay_run replay_new [] [5; 7; 5; 200; 7; 199]).2.
Proof. apply replay_no_duplicates. repeat constructor; unfold in_width; lia. Defined.
