(* ===== verification/Der.v ===== *)
(** ASN.1 DER ([src/der/mod.rs], [src/der/writer.rs], [src/der/oid.rs]): the strict
    reader, the writer, and object-identifier arcs.  A [Reader] is the unread input;
    every method returns its result with the rest.  [usize] has 8 bytes. *)

From S2P Require Import Prelude.

Module DerError.
Inductive der_error :=
| Truncated
| UnexpectedTag (expected found : Z)
| InvalidLength
| Malformed
| TrailingData
| Pem.
End DerError.
Abbreviation der_result := (result DerError.der_error).

(** * Tags *)

Definition TAG_BOOLEAN : Z := 0x01.
Definition TAG_INTEGER : Z := 0x02.
Definition TAG_BIT_STRING : Z := 0x03.
Definition TAG_OCTET_STRING : Z := 0x04.
Definition TAG_NULL : Z := 0x05.
Definition TAG_OID : Z := 0x06.
Definition TAG_SEQUENCE : Z := 0x30.
Definition tag_context (n : Z) : Z := Z.lor 0xA0 n.

Definition SIZEOF_USIZE : Z := 8.

(** * Reader *)

Definition reader_is_empty (r : bytes) : bool := match r with [] => true | _ => false end.

Definition reader_take (r : bytes) (n : Z) : der_result (bytes * bytes) :=
  if zlen r <? n then Err DerError.Truncated else Ok (ztake n r, zdrop n r).

Definition read_u8 (r : bytes) : der_result (Z * bytes) :=
  '(h, r) ← reader_take r 1;
  match h with b :: _ => Ok (b, r) | [] => Err DerError.Truncated end.

(** [for _ in 1..count { len = (len << 8) | self.read_u8()? }] *)
Fixpoint read_len_octets (n : nat) (len : Z) (r : bytes) : der_result (Z * bytes) :=
  match n with
  | O => Ok (len, r)
  | S n => '(b, r) ← read_u8 r; read_len_octets n (Z.lor (wshl 64 len 8) b) r
  end.

Definition read_length (r : bytes) : der_result (Z * bytes) :=
  '(first, r) ← read_u8 r;
  if first <? 0x80 then Ok (first, r)
  else
    let count := Z.land first 0x7f in
    if (count =? 0) || (SIZEOF_USIZE <? count) then Err DerError.InvalidLength
    else
      '(first_len_octet, r) ← read_u8 r;
      if first_len_octet =? 0 then Err DerError.InvalidLength
      else
        '(len, r) ← read_len_octets (Z.to_nat (count - 1)) first_len_octet r;
        if len <? 0x80 then Err DerError.InvalidLength else Ok (len, r).

Definition read_tag (r : bytes) : der_result (Z * bytes) :=
  '(tag, r) ← read_u8 r;
  if Z.land tag 0x1f =? 0x1f then Err DerError.Malformed else Ok (tag, r).

Definition read_tlv (r : bytes) (expected_tag : Z) : der_result (bytes * bytes) :=
  '(tag, r) ← read_tag r;
  if negb (tag =? expected_tag) then Err (DerError.UnexpectedTag expected_tag tag)
  else '(len, r) ← read_length r; reader_take r len.

(** The sub-reader over the contents, and the rest. *)
Definition read_sequence (r : bytes) : der_result (bytes * bytes) := read_tlv r TAG_SEQUENCE.
Definition read_integer_bytes (r : bytes) : der_result (bytes * bytes) := read_tlv r TAG_INTEGER.

Definition read_unsigned_integer_bytes (r : bytes) : der_result (bytes * bytes) :=
  '(body, r) ← read_tlv r TAG_INTEGER;
  match body with
  | [] => Err DerError.Malformed
  | first :: tl =>
      if first =? 0x00 then
        match tl with
        | [] => Ok (body, r)
        | second :: _ => if Z.land second 0x80 =? 0 then Err DerError.Malformed else Ok (body, r)
        end
      else if negb (Z.land first 0x80 =? 0) then Err DerError.Malformed else Ok (body, r)
  end.

Definition read_octet_string (r : bytes) : der_result (bytes * bytes) := read_tlv r TAG_OCTET_STRING.
Definition read_oid (r : bytes) : der_result (bytes * bytes) := read_tlv r TAG_OID.

Definition read_null (r : bytes) : der_result (unit * bytes) :=
  '(body, r) ← read_tlv r TAG_NULL;
  match body with [] => Ok ((), r) | _ => Err DerError.Malformed end.

Definition read_bit_string (r : bytes) : der_result (bytes * bytes) :=
  '(body, r) ← read_tlv r TAG_BIT_STRING;
  match body with
  | unused :: rest => if unused =? 0 then Ok (rest, r) else Err DerError.Malformed
  | [] => Err DerError.Malformed
  end.

Definition read_boolean (r : bytes) : der_result (bool * bytes) :=
  '(body, r) ← read_tlv r TAG_BOOLEAN;
  match body with
  | [b] => if b =? 0x00 then Ok (false, r) else if b =? 0xff then Ok (true, r)
           else Err DerError.Malformed
  | _ => Err DerError.Malformed
  end.

Definition peek_tag (r : bytes) : option Z := head r.

Definition read_any (r : bytes) : der_result ((Z * bytes) * bytes) :=
  '(tag, r) ← read_tag r;
  '(len, r) ← read_length r;
  '(v, r) ← reader_take r len;
  mret ((tag, v), r).

Definition read_element (r : bytes) : der_result (bytes * bytes) :=
  let start := r in
  '(_, r) ← read_tag r;
  '(len, r) ← read_length r;
  let header := zlen start - zlen r in
  '(_, r) ← reader_take r len;
  mret (ztake (header + len) start, r).

Definition finish (r : bytes) : der_result unit :=
  match r with [] => Ok () | _ => Err DerError.TrailingData end.

Definition finish_one_asymmetric_key_tail (seq : bytes) : der_result unit :=
  seq ← (if decide (peek_tag seq = Some (tag_context 0))
         then '(_, seq) ← read_any seq; mret seq else Ok seq);
  seq ← (if decide (peek_tag seq = Some 0x81 ∨ peek_tag seq = Some (tag_context 1))
         then '(_, seq) ← read_any seq; mret seq else Ok seq);
  finish seq.

(** * Writer *)

(** [while l > 0 { bytes[n] = l & 0xff; l >>= 8; n += 1 }]: the digits, least
    significant first.  A [usize] has at most [SIZEOF_USIZE] of them. *)
Fixpoint le_digits (fuel : nat) (l : Z) : bytes :=
  match fuel with
  | O => []
  | S fuel => if 0 <? l then as_u8 (Z.land l 0xff) :: le_digits fuel (Z.shiftr l 8) else []
  end.

Definition encode_length (len : Z) : bytes :=
  if len <? 0x80 then [as_u8 len]
  else
    let digits := le_digits (Z.to_nat SIZEOF_USIZE) len in
    Z.lor 0x80 (as_u8 (zlen digits)) :: rev digits.

Definition encode_tlv (tag : Z) (content : bytes) : bytes :=
  tag :: encode_length (zlen content) ++ content.

Definition encode_sequence (content : bytes) : bytes := encode_tlv TAG_SEQUENCE content.

(** [while start + 1 < len && bytes[start] == 0 { start += 1 }] *)
Fixpoint strip_zeros (l : bytes) : bytes :=
  match l with
  | b :: (_ :: _) as tl => if b =? 0 then strip_zeros tl else l
  | _ => l
  end.

Definition encode_integer (unsigned_be : bytes) : bytes :=
  match unsigned_be with
  | [] => encode_tlv TAG_INTEGER [0]
  | _ =>
      let trimmed := strip_zeros unsigned_be in
      let content := match trimmed with
                     | b :: _ => if negb (Z.land b 0x80 =? 0) then 0 :: trimmed else trimmed
                     | [] => trimmed
                     end in
      encode_tlv TAG_INTEGER content
  end.

Definition encode_octet_string (content : bytes) : bytes := encode_tlv TAG_OCTET_STRING content.
Definition encode_bit_string (bits : bytes) : bytes := encode_tlv TAG_BIT_STRING (0 :: bits).
Definition encode_oid (body : bytes) : bytes := encode_tlv TAG_OID body.
Definition encode_null : bytes := encode_tlv TAG_NULL [].
Definition encode_boolean (value : bool) : bytes :=
  encode_tlv TAG_BOOLEAN [if value then 0xff else 0x00].
Definition encode_context (n : Z) (content : bytes) : bytes := encode_tlv (tag_context n) content.

(** * Object identifiers *)

(** The 7-bit groups of a [u64], least significant first; ten suffice. *)
Fixpoint base128_groups (fuel : nat) (v : Z) : bytes :=
  match fuel with
  | O => []
  | S fuel =>
      let g := as_u8 (Z.land v 0x7f) in
      let v := Z.shiftr v 7 in
      if v =? 0 then [g] else g :: base128_groups fuel v
  end.

(** [for i in (0..n).rev()]: the continuation bit on all but group 0. *)
Definition push_base128 (out : bytes) (value : Z) : bytes :=
  match base128_groups 10 value with
  | g0 :: high => out ++ rev ((λ g, Z.lor g 0x80) <$> high) ++ [g0]
  | [] => out
  end.

(** [None] is a failed [assert!] or [expect]. *)
Definition encode_oid_arcs (arcs : list Z) : option bytes :=
  match arcs with
  | arc0 :: arc1 :: rest =>
      if negb (arc0 <=? 2) then None
      else
        first ← (if arc0 <? 2 then if arc1 <? 40 then Some (40 * arc0 + arc1) else None
                 else checked_add 64 80 arc1);
        Some (fold_left push_base128 rest (push_base128 [] first))
  | _ => None
  end.

(** The loop over the body bytes: accumulator, whether an arc has started, arcs so far. *)
Fixpoint parse_oid_loop (body : bytes) (acc : Z) (started : bool) (arcs : list Z)
  : der_result (list Z) :=
  match body with
  | [] => if started then Err DerError.Malformed else Ok arcs
  | b :: body =>
      if negb started && (b =? 0x80) then Err DerError.Malformed
      else if negb (Z.shiftr acc 57 =? 0) then Err DerError.Malformed
      else
        let acc := Z.lor (wshl 64 acc 7) (Z.land b 0x7f) in
        if Z.land b 0x80 =? 0 then
          let arcs := match arcs with
                      | [] => if acc <? 80 then [acc / 40; acc mod 40] else [2; acc - 80]
                      | _ => arcs ++ [acc]
                      end in
          parse_oid_loop body 0 false arcs
        else parse_oid_loop body acc true arcs
  end.

Definition parse_oid (body : bytes) : der_result (list Z) :=
  match body with [] => Err DerError.Malformed | _ => parse_oid_loop body 0 false [] end.

Definition oid_tlv (arcs : list Z) : option bytes := encode_oid <$> encode_oid_arcs arcs.

(** * Lengths *)

Lemma land_7f b : u8 b → 0x80 ≤ b → Z.land b 0x7f = b - 128.
Proof.
  intros Hb Hge. unfold in_width in Hb. rewrite (land_mask _ 7) by lia. change (2 ^ 7) with 128.
  symmetry. apply (Z.mod_unique _ _ 1); lia.
Qed.

Lemma land_7f_small b : 0 ≤ b < 128 → Z.land b 0x7f = b.
Proof. intros Hb. rewrite (land_mask _ 7) by lia. change (2 ^ 7) with 128. by apply Z.mod_small. Qed.

Lemma land_80 b : u8 b → (Z.land b 0x80 =? 0) = (b <? 128).
Proof.
  intros Hb. unfold in_width in Hb.
  assert (Z.land b 0x80 = b / 128 * 128) as ->.
  { transitivity (Z.land b (wnot 8 (2 ^ 7 - 1))); [done|].
    rewrite (land_not_mask 8) by (unfold in_width; lia). done. }
  destruct (Z.ltb_spec b 128).
  - rewrite Z.div_small by lia. done.
  - apply Z.eqb_neq. assert (1 ≤ b / 128) by (apply Z.div_le_lower_bound; lia). lia.
Qed.

Lemma lor_80 b : 0 ≤ b < 128 → Z.lor 0x80 b = 128 + b.
Proof. intros Hb. rewrite Z.lor_comm. apply (lor_high b 1 7); [lia|unfold in_width; simpl; lia]. Qed.

(** A number has one big-endian representation without leading zeros. *)
Lemma be_value_lower b l : bytes_ok (b :: l) → b ≠ 0 →
  2 ^ (8 * Z.of_nat (length l)) ≤ be_value (b :: l).
Proof.
  intros Hok Hb. inversion Hok as [|? ? Hb8 Hl]; subst. rewrite be_value_cons by done.
  pose proof (be_value_range l Hl) as Hr. unfold in_width in *. nia.
Qed.

Lemma be_value_unique b1 l1 b2 l2 : bytes_ok (b1 :: l1) → bytes_ok (b2 :: l2) →
  b1 ≠ 0 → b2 ≠ 0 → be_value (b1 :: l1) = be_value (b2 :: l2) → b1 :: l1 = b2 :: l2.
Proof.
  intros H1 H2 N1 N2 Heq.
  pose proof (be_value_lower _ _ H1 N1) as L1. pose proof (be_value_lower _ _ H2 N2) as L2.
  pose proof (be_value_range _ H1) as [_ R1]. pose proof (be_value_range _ H2) as [_ R2].
  rewrite Heq in L1, R1.
  assert (length (b1 :: l1) = length (b2 :: l2)) as Hlen.
  { cbn [length] in *.
    assert (8 * Z.of_nat (length l1) < 8 * Z.of_nat (S (length l2))) as A
      by (apply (Z.pow_lt_mono_r_iff 2); lia).
    assert (8 * Z.of_nat (length l2) < 8 * Z.of_nat (S (length l1))) as B
      by (apply (Z.pow_lt_mono_r_iff 2); lia). lia. }
  rewrite <- (be_bytes_be_value _ H1), <- (be_bytes_be_value _ H2). congruence.
Qed.

Lemma be_value_snoc l b : u8 b → be_value (l ++ [b]) = be_value l * 256 + b.
Proof.
  intros Hb. unfold be_fold. rewrite fold_left_app. simpl.
  by rewrite (lor_shiftl_add _ b 8) by (done || lia).
Qed.

(** The digits of [l], most significant first, represent [l] without leading zeros. *)
Lemma le_digits_spec fuel : ∀ l, 0 ≤ l < 2 ^ (8 * Z.of_nat fuel) →
  bytes_ok (le_digits fuel l) ∧ be_value (rev (le_digits fuel l)) = l
  ∧ (length (le_digits fuel l) ≤ fuel)%nat
  ∧ (0 < l → ∃ b tl, rev (le_digits fuel l) = b :: tl ∧ b ≠ 0).
Proof.
  induction fuel as [|fuel IH]; intros l Hl.
  { simpl in Hl. assert (l = 0) as -> by lia. split_and!; simpl; try done; lia. }
  cbn [le_digits]. destruct (Z.ltb_spec 0 l) as [Hpos|]; cycle 1.
  { assert (l = 0) as -> by lia. split_and!; simpl; try done; lia. }
  rewrite Z.shiftr_div_pow2 by lia. rewrite (land_mask _ 8) by lia. change (2 ^ 8) with 256.
  replace (8 * Z.of_nat (S fuel)) with (8 + 8 * Z.of_nat fuel) in Hl by lia.
  rewrite Z.pow_add_r in Hl by lia. change (2 ^ 8) with 256 in Hl.
  destruct (IH (l / 256)) as (Hok & Hv & Hlen & Hhd).
  { split; [apply Z.div_pos; lia|]. apply Z.div_lt_upper_bound; lia. }
  pose proof (Z.mod_pos_bound l 256 ltac:(lia)) as Hm.
  rewrite wrap_small by (unfold in_width; lia).
  assert (u8 (l mod 256)) by (unfold in_width; lia).
  split_and!.
  - by constructor.
  - cbn [rev]. rewrite be_value_snoc, Hv by done. pose proof (Z.div_mod l 256). lia.
  - simpl. lia.
  - intros _. cbn [rev]. destruct (Z.lt_ge_cases 0 (l / 256)) as [Hd|Hd].
    + destruct (Hhd Hd) as (b & tl & -> & Hb). by exists b, (tl ++ [l mod 256]).
    + assert (l / 256 = 0) as Hz by (pose proof (Z.div_pos l 256); lia).
      rewrite Hz. destruct fuel; simpl; exists (l mod 256), [];
        (split; [done|]); pose proof (Z.div_mod l 256); lia.
Qed.

Lemma read_u8_cons b r : read_u8 (b :: r) = Ok (b, r).
Proof.
  unfold read_u8, reader_take. destruct (Z.ltb_spec (zlen (b :: r)) 1); [unfold zlen in *; simpl in *; lia|].
  done.
Qed.

Lemma read_u8_inv r b rest : read_u8 r = Ok (b, rest) → r = b :: rest.
Proof. destruct r as [|b' r]; [done|]. rewrite read_u8_cons. by intros [= -> ->]. Qed.

Lemma read_len_octets_app o : ∀ len k r, bytes_ok o → in_width (8 * k) len → 0 ≤ k →
  k + zlen o ≤ 8 → read_len_octets (length o) len (o ++ r) = Ok (be_fold len o, r).
Proof.
  induction o as [|b o IH]; intros len k r Ho Hlen Hk Hsum; [done|].
  inversion Ho as [|? ? Hb Ho']; subst. unfold zlen in Hsum. cbn [length] in *.
  cbn [read_len_octets]. rewrite <- app_comm_cons, read_u8_cons. simpl.
  assert (in_width (8 * (k + 1)) (len * 256 + b)) as Hnext.
  { unfold in_width in *. replace (8 * (k + 1)) with (8 + 8 * k) by lia.
    rewrite Z.pow_add_r by lia. change (2 ^ 8) with 256 in *. lia. }
  unfold wshl. rewrite wrap_small.
  2:{ apply (in_width_mono (8 * (k + 1))); [lia|]. rewrite Z.shiftl_mul_pow2 by lia.
      unfold in_width in *. change (2 ^ 8) with 256 in *. lia. }
  rewrite (IH _ (k + 1)); try done; [|..|lia|unfold zlen; lia].
  rewrite (lor_shiftl_add len b 8) by (done || lia). done.
Qed.

Lemma read_len_octets_inv n : ∀ len r len' r', read_len_octets n len r = Ok (len', r') →
  ∃ o, r = o ++ r' ∧ length o = n.
Proof.
  induction n as [|n IH]; intros len r len' r' Hr; simpl in Hr.
  { injection Hr as -> ->. by exists []. }
  apply bind_Ok_inv in Hr as ([b r1] & ->%read_u8_inv & Hr).
  apply IH in Hr as (o & -> & <-). by exists (b :: o).
Qed.

Lemma read_length_encode len rest : u64 len →
  read_length (encode_length len ++ rest) = Ok (len, rest).
Proof.
  intros Hlen. unfold encode_length, read_length. destruct (Z.ltb_spec len 0x80) as [Hs|Hs].
  - rewrite wrap_small by (unfold in_width in *; lia). cbn [app]. rewrite read_u8_cons. simpl.
    by destruct (Z.ltb_spec len 128); [|lia].
  - destruct (le_digits_spec (Z.to_nat SIZEOF_USIZE) len) as (Hok & Hv & Hl & Hhd);
      [exact Hlen|].
    set (ds := le_digits _ len) in *. destruct (Hhd ltac:(lia)) as (b & tl & Hrev & Hb).
    assert (zlen ds = 1 + zlen tl) as Hz.
    { unfold zlen. rewrite <- (length_rev ds), Hrev. simpl. lia. }
    change (Z.to_nat SIZEOF_USIZE) with 8%nat in Hl. pose proof (zlen_nonneg tl).
    assert (zlen ds ≤ 8) by (unfold zlen; lia).
    assert (bytes_ok (b :: tl)) as Hok' by (rewrite <- Hrev; by apply Forall_rev).
    apply Forall_cons in Hok' as [Hb8 Htl].
    rewrite wrap_small, lor_80 by (unfold in_width; lia).
    cbn [app]. rewrite read_u8_cons. simpl.
    destruct (Z.ltb_spec (128 + zlen ds) 128); [lia|].
    rewrite land_7f by (unfold in_width; lia). replace (128 + zlen ds - 128) with (zlen ds) by lia.
    unfold SIZEOF_USIZE. destruct (Z.eqb_spec (zlen ds) 0), (Z.ltb_spec 8 (zlen ds)); try lia. simpl.
    rewrite Hrev. cbn [app]. rewrite read_u8_cons. simpl.
    destruct (Z.eqb_spec b 0); [done|].
    replace (Z.to_nat (zlen ds - 1)) with (length tl) by (unfold zlen in *; lia).
    rewrite (read_len_octets_app tl b 1) by (done || lia). simpl.
    replace (be_fold b tl) with len; [by destruct (Z.ltb_spec len 128); [lia|]|].
    rewrite <- Hv, Hrev. done.
Qed.

(** Only the encoding [encode_length] writes is accepted. *)
Lemma read_length_canonical r len rest : bytes_ok r → read_length r = Ok (len, rest) →
  r = encode_length len ++ rest ∧ u64 len.
Proof.
  intros Hok Hr. unfold read_length in Hr.
  apply bind_Ok_inv in Hr as ([first r1] & ->%read_u8_inv & Hr).
  inversion Hok as [|? ? Hf Hok1]; subst.
  destruct (Z.ltb_spec first 0x80) as [Hs|Hs].
  { injection Hr as -> ->. unfold encode_length. destruct (Z.ltb_spec len 128); [|lia].
    unfold in_width in Hf. rewrite wrap_small by (unfold in_width; lia).
    split; [done|]. unfold in_width. lia. }
  rewrite land_7f in Hr by done.
  unfold SIZEOF_USIZE in Hr.
  destruct (Z.eqb_spec (first - 128) 0), (Z.ltb_spec 8 (first - 128)); simpl in Hr; try discriminate.
  apply bind_Ok_inv in Hr as ([b r2] & ->%read_u8_inv & Hr).
  inversion Hok1 as [|? ? Hb Hok2]; subst.
  destruct (Z.eqb_spec b 0) as [|Hb0]; [discriminate|].
  apply bind_Ok_inv in Hr as ([len' r3] & Hro & Hr).
  pose proof Hro as (o & -> & Hlo)%read_len_octets_inv.
  apply Forall_app in Hok2 as [Hoko _].
  rewrite <- Hlo, (read_len_octets_app o b 1) in Hro
    by (done || lia || (unfold zlen; lia)).
  injection Hro as Hlen. change (be_fold b o) with (be_value (b :: o)) in Hlen. subst len'.
  assert (u64 (be_value (b :: o))) as Hw.
  { apply (in_width_mono (8 * Z.of_nat (length (b :: o)))); [cbn [length]; lia|].
    apply be_value_range. by constructor. }
  destruct (Z.ltb_spec (be_value (b :: o)) 128) as [|Hge]; [discriminate|].
  assert (be_value (b :: o) = len ∧ r3 = rest) as [Hl ->] by (by injection Hr).
  rewrite <- Hl. split; [|done]. unfold encode_length. rewrite (proj2 (Z.ltb_ge _ _) Hge). cbv zeta.
  destruct (le_digits_spec (Z.to_nat SIZEOF_USIZE) (be_value (b :: o))) as (Hd & Hv & _ & Hhd);
    [exact Hw|].
  set (ds := le_digits _ _) in *. destruct (Hhd ltac:(lia)) as (c & tl & Hrev & Hc).
  assert (rev ds = b :: o) as Hds.
  { rewrite Hrev in *. apply be_value_unique; try done; [|by constructor].
    rewrite <- Hrev. by apply Forall_rev. }
  assert (zlen ds = first - 128) as Hz.
  { unfold zlen. rewrite <- (length_rev ds), Hds. cbn [length]. lia. }
  clearbody ds. rewrite Hds, Hz, (wrap_small 8 (first - 128)) by (unfold in_width; lia).
  rewrite lor_80 by lia. replace (128 + (first - 128)) with first by lia. done.
Qed.

(** * Elements *)

Lemma reader_take_app l r : reader_take (l ++ r) (zlen l) = Ok (l, r).
Proof.
  unfold reader_take. rewrite zlen_app. pose proof (zlen_nonneg r).
  destruct (Z.ltb_spec (zlen l + zlen r) (zlen l)); [lia|]. by rewrite ztake_app, zdrop_app.
Qed.

Lemma reader_take_inv r n h rest : 0 ≤ n → reader_take r n = Ok (h, rest) →
  r = h ++ rest ∧ zlen h = n.
Proof.
  unfold reader_take. intros Hn. destruct (Z.ltb_spec (zlen r) n); [done|]. intros [= <- <-].
  split; [symmetry; apply take_drop|]. unfold zlen, ztake in *. rewrite length_take. lia.
Qed.

(** A tag the single-octet form can carry. *)
Definition tag_ok (tag : Z) : Prop := u8 tag ∧ Z.land tag 0x1f ≠ 0x1f.

Lemma read_any_encode tag v rest : tag_ok tag → zlen v < 2 ^ 64 →
  read_any (encode_tlv tag v ++ rest) = Ok ((tag, v), rest).
Proof.
  intros [_ Ht] Hv. unfold read_any, encode_tlv, read_tag. cbn [app]. rewrite read_u8_cons. simpl.
  destruct (Z.eqb_spec (Z.land tag 31) 31); [done|]. simpl. rewrite <- app_assoc.
  rewrite read_length_encode by (unfold in_width; pose proof (zlen_nonneg v); lia). simpl.
  by rewrite reader_take_app.
Qed.

Lemma read_tlv_as_any r t v rest :
  read_tlv r t = Ok (v, rest) ↔ read_any r = Ok ((t, v), rest).
Proof.
  unfold read_tlv, read_any.
  destruct (read_tag r) as [[tag r1]|]; [|done]. simpl.
  destruct (Z.eqb_spec tag t) as [->|Hne]; simpl.
  - destruct (read_length r1) as [[len r2]|]; [|done]. simpl.
    destruct (reader_take r2 len) as [[h r3]|]; simpl; [|done].
    split; [by intros [= -> ->]|by intros [= -> ->]].
  - split; [done|]. destruct (read_length r1) as [[len r2]|]; [|done]. simpl.
    destruct (reader_take r2 len) as [[h r3]|]; simpl; [|done]. by intros [= -> _ _].
Qed.

Lemma read_tag_inv r tag rest : read_tag r = Ok (tag, rest) →
  r = tag :: rest ∧ Z.land tag 0x1f ≠ 0x1f.
Proof.
  unfold read_tag. intros Hr. apply bind_Ok_inv in Hr as ([t r1] & ->%read_u8_inv & Hr).
  destruct (Z.eqb_spec (Z.land t 31) 31); [done|]. by injection Hr as -> ->.
Qed.

(** Whatever the reader accepts is the writer's encoding of what it returns. *)
Lemma read_any_canonical r tag v rest : bytes_ok r → read_any r = Ok ((tag, v), rest) →
  r = encode_tlv tag v ++ rest ∧ tag_ok tag ∧ bytes_ok v ∧ zlen v < 2 ^ 64.
Proof.
  intros Hok Hr. unfold read_any in Hr.
  apply bind_Ok_inv in Hr as ([t r1] & [-> Ht]%read_tag_inv & Hr).
  apply Forall_cons in Hok as [Ht8 Hok1].
  apply bind_Ok_inv in Hr as ([len r2] & Hl & Hr).
  apply read_length_canonical in Hl as [-> Hlen]; [|done].
  apply bind_Ok_inv in Hr as ([h r3] & Htake & Hr). injection Hr as -> -> ->.
  apply reader_take_inv in Htake as [-> Hz]; [|apply Hlen].
  rewrite !Forall_app in Hok1. unfold encode_tlv. rewrite Hz. unfold in_width in Hlen.
  split_and!; [|done..|tauto|lia]. cbn [app]. by rewrite app_assoc.
Qed.

(** * Integers *)

Lemma strip_zeros_spec b l : bytes_ok (b :: l) → ∃ c tl, strip_zeros (b :: l) = c :: tl ∧
  bytes_ok (c :: tl) ∧ be_value (c :: tl) = be_value (b :: l) ∧ (c = 0 → tl = [])
  ∧ (length (c :: tl) ≤ length (b :: l))%nat.
Proof.
  revert b. induction l as [|b' l IH]; intros b Hok; [by exists b, []|].
  cbn [strip_zeros]. destruct (Z.eqb_spec b 0) as [->|Hb].
  - apply Forall_cons in Hok as [_ Hok]. destruct (IH b' Hok) as (c & tl & H1 & H2 & H3 & H4 & H5).
    exists c, tl. split_and!; [done..| |done|cbn [length] in *; lia].
    rewrite H3. rewrite (be_value_cons 0 (b' :: l)) by done. lia.
  - exists b, (b' :: l). split_and!; [done..|lia].
Qed.

(** The content octets [encode_integer] writes. *)
Definition integer_body (be : bytes) : bytes :=
  match be with
  | [] => [0]
  | _ => match strip_zeros be with
         | b :: tl => if negb (Z.land b 0x80 =? 0) then 0 :: b :: tl else b :: tl
         | [] => []
         end
  end.

Lemma encode_integer_body be : encode_integer be = encode_tlv TAG_INTEGER (integer_body be).
Proof. destruct be as [|b be]; [done|]. unfold encode_integer, integer_body. by case_match. Qed.

(** Minimal non-negative content octets. *)
Definition integer_canonical (body : bytes) : Prop :=
  match body with
  | [] => False
  | [b] => b < 128
  | b :: c :: _ => if b =? 0 then 128 ≤ c else b < 128
  end.

Lemma integer_body_canonical be : bytes_ok be →
  bytes_ok (integer_body be) ∧ integer_canonical (integer_body be)
  ∧ be_value (integer_body be) = be_value be ∧ zlen (integer_body be) ≤ 1 + zlen be.
Proof.
  intros Hok. destruct be as [|b be].
  { split_and!; [constructor; [by split|constructor]|done..]. }
  unfold integer_body. destruct (strip_zeros_spec b be Hok) as (c & tl & -> & H2 & H3 & H4 & H5).
  pose proof H2 as [Hc8 Htl]%Forall_cons. rewrite land_80 by done.
  unfold zlen in *. destruct (Z.ltb_spec c 128); simpl negb; cbv iota.
  - split_and!; [done| |done|cbn [length] in *; lia].
    destruct tl as [|d tl]; simpl; [done|]. destruct (Z.eqb_spec c 0) as [Hc|]; [by specialize (H4 Hc)|done].
  - split_and!; [by constructor; [split|]|done| |cbn [length] in *; lia].
    rewrite (be_value_cons 0 (c :: tl)) by done. lia.
Qed.

Lemma read_unsigned_iff r body rest : bytes_ok r →
  read_unsigned_integer_bytes r = Ok (body, rest) ↔
  read_any r = Ok ((TAG_INTEGER, body), rest) ∧ integer_canonical body.
Proof.
  intros Hok. unfold read_unsigned_integer_bytes.
  destruct (read_tlv r TAG_INTEGER) as [[v r1]|e] eqn:E; simpl.
  2:{ split; [done|]. rewrite <- read_tlv_as_any, E. by intros [? _]. }
  apply read_tlv_as_any in E. rewrite E.
  apply read_any_canonical in E as (_ & _ & Hv & _); [|done].
  destruct v as [|b [|c v]]; simpl.
  - split; [done|]. by intros [[= <-] []].
  - apply Forall_cons in Hv as [Hb _]. rewrite land_80 by done.
    destruct (Z.eqb_spec b 0) as [->|]; [split; [by intros [= <- ->]|by intros [[= <- ->] _]]|].
    destruct (Z.ltb_spec b 128); simpl; (split; [intros [= <- ->]|intros [[= <- ->] ?]]);
      try done; simpl in *; lia.
  - rewrite !Forall_cons in Hv. destruct Hv as (Hb & Hc & _). rewrite !land_80 by done.
    destruct (Z.eqb_spec b 0) as [->|Hb0]; simpl.
    + destruct (Z.ltb_spec c 128);
        (split; [intros [= <- ->]|intros [[= <- ->] ?]]); try done; simpl in *; try lia.
    + destruct (Z.ltb_spec b 128); simpl;
        (split; [intros [= <- ->]|intros [[= <- ->] Hcan]]); try done; simpl in *;
        destruct (Z.eqb_spec b 0); try done; lia.
Qed.

(** Two canonical bodies of the same value are equal. *)
Lemma integer_canonical_unique v w : bytes_ok v → bytes_ok w →
  integer_canonical v → integer_canonical w → be_value v = be_value w → v = w.
Proof.
  assert (∀ v, bytes_ok v → integer_canonical v →
    (v = [0]) ∨ (∃ b tl, v = b :: tl ∧ b ≠ 0 ∧ b < 128) ∨ (∃ c tl, v = 0 :: c :: tl ∧ 128 ≤ c)) as Hform.
  { clear. intros v Hv Hc. destruct v as [|b [|c v]]; simpl in Hc; [done|..].
    - destruct (decide (b = 0)) as [->|]; [by left|]. right. left. by exists b, [].
    - destruct (Z.eqb_spec b 0) as [->|].
      + right. right. by exists c, v.
      + right. left. by exists b, (c :: v). }
  assert (∀ b tl c tl', bytes_ok (b :: tl) → bytes_ok (c :: tl') → b ≠ 0 → b < 128 → 128 ≤ c →
    be_value (b :: tl) = be_value (c :: tl') → False) as Hclash.
  { clear. intros b tl c tl' Hv Hw Hb0 Hb Hc Heq.
    pose proof (be_value_unique b tl c tl' Hv Hw Hb0 ltac:(lia) Heq). simplify_eq. lia. }
  intros Hv Hw Cv Cw Heq.
  destruct (Hform v Hv Cv) as [->|[(b & tl & -> & Hb & Hb')|(c & tl & -> & Hc)]],
    (Hform w Hw Cw) as [->|[(b2 & tl2 & -> & Hb2 & Hb2')|(c2 & tl2 & -> & Hc2)]]; try done.
  - pose proof (be_value_lower _ _ Hw Hb2). change (be_value [0]) with 0 in Heq. lia.
  - apply Forall_cons in Hw as [_ Hw]. rewrite (be_value_cons 0 (c2 :: tl2)) in Heq by done.
    pose proof (be_value_lower _ _ Hw ltac:(lia)). change (be_value [0]) with 0 in Heq. lia.
  - pose proof (be_value_lower _ _ Hv Hb). change (be_value [0]) with 0 in Heq. lia.
  - by apply be_value_unique.
  - exfalso. apply Forall_cons in Hw as [_ Hw]. rewrite (be_value_cons 0 (c2 :: tl2)) in Heq by done.
    eapply (Hclash b tl c2 tl2); try done; lia.
  - apply Forall_cons in Hv as [_ Hv]. rewrite (be_value_cons 0 (c :: tl)) in Heq by done.
    pose proof (be_value_lower _ _ Hv ltac:(lia)). change (be_value [0]) with 0 in Heq. lia.
  - exfalso. apply Forall_cons in Hv as [_ Hv]. rewrite (be_value_cons 0 (c :: tl)) in Heq by done.
    eapply (Hclash b2 tl2 c tl); try done; lia.
  - apply Forall_cons in Hv as [_ Hv]. apply Forall_cons in Hw as [_ Hw].
    rewrite (be_value_cons 0 (c :: tl)), (be_value_cons 0 (c2 :: tl2)) in Heq by done.
    f_equal. apply be_value_unique; try done; lia.
Qed.

(** * Base-128 arcs *)

Definition group_ok (g : Z) : Prop := 0 ≤ g < 128.

(** The value of 7-bit groups, most significant first, above a prefix [acc]. *)
Definition be128 (acc : Z) (gs : list Z) : Z := fold_left (λ a g, a * 128 + g) gs acc.

(** Groups without a redundant leading zero (one group may be zero). *)
Definition minimal128 (hi : list Z) : Prop := match hi with g :: _ => g ≠ 0 | [] => True end.

Lemma be128_snoc acc hi g : be128 acc (hi ++ [g]) = be128 acc hi * 128 + g.
Proof. unfold be128. by rewrite fold_left_app. Qed.

Lemma be128_nonneg acc gs : 0 ≤ acc → Forall group_ok gs → acc ≤ be128 acc gs.
Proof.
  intros Ha Hg. revert acc Ha. unfold be128, group_ok in *.
  induction Hg as [|g gs Hgo Hg IH]; intros acc Ha; simpl; [lia|].
  specialize (IH (acc * 128 + g)). lia.
Qed.

Lemma be128_lower acc gs : 0 ≤ acc → Forall group_ok gs →
  acc * 2 ^ (7 * zlen gs) ≤ be128 acc gs.
Proof.
  intros Ha Hg. revert acc Ha. unfold zlen.
  induction Hg as [|g gs Hgo Hg IH]; intros acc Ha; [simpl; lia|].
  cbn [length]. replace (7 * Z.of_nat (S (length gs))) with (7 + 7 * Z.of_nat (length gs)) by lia.
  rewrite Z.pow_add_r by lia. change (2 ^ 7) with 128. unfold group_ok in Hgo.
  specialize (IH (acc * 128 + g) ltac:(lia)).
  change (be128 acc (g :: gs)) with (be128 (acc * 128 + g) gs).
  pose proof (Z.pow_pos_nonneg 2 (7 * Z.of_nat (length gs)) ltac:(lia) ltac:(lia)). nia.
Qed.

(** The encoder's groups are the unique minimal ones of the value. *)
Lemma base128_groups_unique hi lo : ∀ fuel, Forall group_ok (hi ++ [lo]) → minimal128 hi →
  (length hi < fuel)%nat → base128_groups fuel (be128 0 (hi ++ [lo])) = lo :: rev hi.
Proof.
  revert lo. induction hi as [|g hi IH] using rev_ind; intros lo fuel Hok Hmin Hf.
  all: destruct fuel as [|fuel]; [simpl in Hf; lia|]; cbn [base128_groups].
  all: apply Forall_app in Hok as [Hhi Hlo]; apply Forall_cons in Hlo as [Hlo _].
  all: rewrite be128_snoc, (land_mask _ 7), Z.shiftr_div_pow2 by lia; change (2 ^ 7) with 128.
  all: rewrite Z.div_add_l, (Z.div_small lo), Z.add_0_r by (unfold group_ok in *; lia).
  all: rewrite (Z.add_comm _ lo), Z_mod_plus_full, (Z.mod_small lo), wrap_small
    by (unfold in_width, group_ok in *; lia).
  - done.
  - assert (minimal128 hi) as Hm by (by destruct hi).
    rewrite rev_app_distr. cbn [rev app].
    rewrite IH by (done || (rewrite length_app in Hf; simpl in Hf; lia)).
    destruct (Z.eqb_spec (be128 0 (hi ++ [g])) 0) as [Hz|]; [exfalso|done].
    rewrite be128_snoc in Hz. apply Forall_app in Hhi as [Hhi Hg].
    apply Forall_cons in Hg as [Hg _]. unfold group_ok in Hg.
    destruct hi as [|h hi]; [simpl in *; lia|].
    apply Forall_cons in Hhi as [Hh Hhi]. simpl in Hmin. unfold group_ok in Hh.
    pose proof (be128_nonneg (0 * 128 + h) hi ltac:(lia) Hhi).
    change (be128 0 (h :: hi)) with (be128 (0 * 128 + h) hi) in Hz. lia.
Qed.

Lemma base128_groups_spec fuel : ∀ v, 0 ≤ v < 2 ^ (7 * Z.of_nat (S fuel)) →
  ∃ hi lo, base128_groups (S fuel) v = lo :: rev hi ∧ Forall group_ok (hi ++ [lo])
    ∧ minimal128 hi ∧ v = be128 0 (hi ++ [lo]).
Proof.
  induction fuel as [|fuel IH]; intros v Hv; rewrite (ltac:(done) :
    base128_groups (S _) v = let g := as_u8 (Z.land v 0x7f) in
    let v := Z.shiftr v 7 in if v =? 0 then [g] else g :: base128_groups _ v); cbv zeta.
  all: rewrite (land_mask _ 7), Z.shiftr_div_pow2 by lia; change (2 ^ 7) with 128.
  all: pose proof (Z.mod_pos_bound v 128 ltac:(lia)); pose proof (Z.div_mod v 128 ltac:(lia)).
  all: rewrite wrap_small by (unfold in_width; lia).
  all: destruct (Z.eqb_spec (v / 128) 0) as [Hz|Hz].
  all: try (exists [], (v mod 128); split_and!; [done| |done|unfold be128; cbn [app fold_left]; lia];
    by apply Forall_singleton).
  - destruct (IH (v / 128)) as (hi & lo & -> & Hok & Hmin & Heq).
    { replace (7 * Z.of_nat (S (S fuel))) with (7 + 7 * Z.of_nat (S fuel)) in Hv by lia.
      rewrite Z.pow_add_r in Hv by lia. change (2 ^ 7) with 128 in Hv.
      split; [apply Z.div_pos; lia|apply Z.div_lt_upper_bound; lia]. }
    exists (hi ++ [lo]), (v mod 128). rewrite rev_app_distr. split_and!; [done|..].
    + apply Forall_app. split; [done|]. by apply Forall_singleton.
    + destruct hi; [|done]. cbn in Heq |- *. intros ->. by rewrite Heq in Hz.
    + rewrite be128_snoc, <- Heq. lia.
Qed.

(** The bytes of one arc: every group but the last carries the continuation bit. *)
Definition arc_bytes (hi : list Z) (lo : Z) : bytes := ((λ g, Z.lor g 0x80) <$> hi) ++ [lo].

Lemma push_base128_app out v : push_base128 out v = out ++ push_base128 [] v.
Proof. unfold push_base128. destruct (base128_groups 10 v); [by rewrite app_nil_r|done]. Qed.

Lemma push_base128_arc v : u64 v → ∃ hi lo, push_base128 [] v = arc_bytes hi lo
  ∧ Forall group_ok (hi ++ [lo]) ∧ minimal128 hi ∧ v = be128 0 (hi ++ [lo]).
Proof.
  intros Hv. destruct (base128_groups_spec 9 v) as (hi & lo & Hg & ?).
  { apply (in_width_mono 64); [lia|done]. }
  exists hi, lo. split; [|done]. unfold push_base128, arc_bytes. rewrite Hg. simpl.
  by rewrite map_rev, rev_involutive.
Qed.

Lemma arc_bytes_push hi lo : Forall group_ok (hi ++ [lo]) → minimal128 hi →
  u64 (be128 0 (hi ++ [lo])) → arc_bytes hi lo = push_base128 [] (be128 0 (hi ++ [lo])).
Proof.
  intros Hok Hmin Hv. unfold push_base128. rewrite base128_groups_unique; [|done..|].
  - unfold arc_bytes. simpl. by rewrite map_rev, rev_involutive.
  - destruct hi as [|h hi]; [simpl; lia|].
    apply Forall_app in Hok as [[Hh Hhi]%Forall_cons [Hlo _]%Forall_cons].
    pose proof (be128_lower (0 * 128 + h) hi ltac:(unfold group_ok in Hh; lia) Hhi) as Hlow.
    rewrite be128_snoc in Hv. change (be128 0 (h :: hi)) with (be128 (0 * 128 + h) hi) in Hv.
    unfold group_ok, in_width in *. simpl in Hmin.
    assert (2 ^ (7 * zlen hi) < 2 ^ 57) as Hp%Z.pow_lt_mono_r_iff by (change (2 ^ 57) with
      144115188075855872; nia); unfold zlen in *; cbn [length]; lia.
Qed.

(** What the parser does with a finished arc. *)
Definition add_arc (arcs : list Z) (v : Z) : list Z :=
  match arcs with
  | [] => if v <? 80 then [v / 40; v mod 40] else [2; v - 80]
  | _ => arcs ++ [v]
  end.

Lemma parse_step_acc acc g : 0 ≤ acc < 2 ^ 57 → group_ok g →
  Z.lor (wshl 64 acc 7) g = acc * 128 + g.
Proof.
  intros Ha Hg. unfold group_ok in Hg. unfold wshl.
  rewrite wrap_small by (unfold in_width; rewrite Z.shiftl_mul_pow2 by lia; lia).
  apply (lor_shiftl_add acc g 7); [lia|unfold in_width; lia].
Qed.

Lemma shiftr57 acc : 0 ≤ acc → (Z.shiftr acc 57 =? 0) = (acc <? 2 ^ 57).
Proof.
  intros Ha. rewrite Z.shiftr_div_pow2 by lia. destruct (Z.ltb_spec acc (2 ^ 57)).
  - by rewrite Z.div_small by lia.
  - apply Z.eqb_neq. assert (1 ≤ acc / 2 ^ 57) by (apply Z.div_le_lower_bound; lia). lia.
Qed.

(** One byte of the loop, for an accumulator that is not too large. *)
Lemma parse_oid_loop_cons b body acc started arcs : u8 b → 0 ≤ acc < 2 ^ 57 →
  (started = false → b ≠ 128) →
  parse_oid_loop (b :: body) acc started arcs =
    if b <? 128 then parse_oid_loop body 0 false (add_arc arcs (acc * 128 + b))
    else parse_oid_loop body (acc * 128 + (b - 128)) true arcs.
Proof.
  intros Hb Ha Hs. cbn [parse_oid_loop].
  assert (negb started && (b =? 128) = false) as ->.
  { destruct started; [done|]. by destruct (Z.eqb_spec b 128); [specialize (Hs eq_refl)|]. }
  rewrite shiftr57, (proj2 (Z.ltb_lt acc (2 ^ 57))), land_80 by (done || lia).
  cbn [negb]. unfold in_width in Hb. destruct (Z.ltb_spec b 128).
  - rewrite land_7f_small, parse_step_acc by (unfold group_ok; lia). done.
  - rewrite land_7f, parse_step_acc by (unfold in_width, group_ok; lia). done.
Qed.

Lemma parse_oid_cont hi : ∀ rest acc started arcs, Forall group_ok hi → 0 ≤ acc →
  (started = false → minimal128 hi) → be128 acc hi < 2 ^ 57 →
  parse_oid_loop (((λ g, Z.lor g 0x80) <$> hi) ++ rest) acc started arcs =
    parse_oid_loop rest (be128 acc hi) (if hi is [] then started else true) arcs.
Proof.
  induction hi as [|g hi IH]; intros rest acc started arcs Hok Ha Hs Hlt; [done|].
  apply Forall_cons in Hok as [Hg Hok]. cbn [fmap list_fmap app].
  change (be128 acc (g :: hi)) with (be128 (acc * 128 + g) hi) in *.
  unfold group_ok in Hg. rewrite Z.lor_comm, lor_80 by done.
  pose proof (be128_nonneg (acc * 128 + g) hi ltac:(lia) Hok).
  rewrite parse_oid_loop_cons; [|unfold in_width; lia|lia|intros E; specialize (Hs E); simpl in Hs; lia].
  destruct (Z.ltb_spec (128 + g) 128); [lia|].
  replace (128 + g - 128) with g by lia.
  rewrite IH by (done || lia). by destruct hi.
Qed.

Lemma parse_push v rest arcs : u64 v →
  parse_oid_loop (push_base128 [] v ++ rest) 0 false arcs
  = parse_oid_loop rest 0 false (add_arc arcs v).
Proof.
  intros Hv. destruct (push_base128_arc v Hv) as (hi & lo & -> & [Hhi Hlo]%Forall_app & Hmin & Heq).
  apply Forall_cons in Hlo as [Hlo _]. rewrite be128_snoc in Heq. unfold group_ok, in_width in *.
  pose proof (be128_nonneg 0 hi ltac:(lia) Hhi).
  unfold arc_bytes. rewrite <- app_assoc, parse_oid_cont by (done || lia).
  cbn [app]. rewrite parse_oid_loop_cons by (unfold in_width; lia).
  by rewrite (proj2 (Z.ltb_lt lo 128)), <- Heq by lia.
Qed.

Lemma parse_pushes vs : ∀ arcs, Forall u64 vs →
  parse_oid_loop (concat (push_base128 [] <$> vs)) 0 false arcs = Ok (fold_left add_arc vs arcs).
Proof.
  induction vs as [|v vs IH]; intros arcs Hv; [done|]. apply Forall_cons in Hv as [Hv Hvs].
  cbn [fmap list_fmap concat]. by rewrite parse_push, IH.
Qed.

(** Everything the loop accepts is a concatenation of encoder outputs. *)
Lemma parse_oid_loop_inv body : ∀ hi arcs arcs', bytes_ok body → Forall group_ok hi →
  minimal128 hi → be128 0 hi < 2 ^ 64 →
  parse_oid_loop body (be128 0 hi) (if hi is [] then false else true) arcs = Ok arcs' →
  ∃ vs, Forall u64 vs ∧ ((λ g, Z.lor g 0x80) <$> hi) ++ body = concat (push_base128 [] <$> vs)
    ∧ arcs' = fold_left add_arc vs arcs.
Proof.
  induction body as [|b body IH]; intros hi arcs arcs' Hok Hhi Hmin Hlt Hp.
  { destruct hi; [|done]. injection Hp as <-. by exists []. }
  apply Forall_cons in Hok as [Hb Hok].
  pose proof (be128_nonneg 0 hi ltac:(lia) Hhi) as Hnn.
  assert (be128 0 hi < 2 ^ 57 ∧ (hi = [] → b ≠ 128)) as [H57 Hb128].
  { cbn [parse_oid_loop] in Hp. rewrite shiftr57 in Hp by done.
    destruct (Z.ltb_spec (be128 0 hi) (2 ^ 57)); [|by destruct (negb _ && _)].
    split; [done|]. intros ->. simpl in Hp. by destruct (Z.eqb_spec b 128). }
  rewrite parse_oid_loop_cons in Hp by (done || lia || (destruct hi; [auto|done])).
  unfold in_width in Hb. destruct (Z.ltb_spec b 128) as [Hlo|Hc].
  - destruct (IH [] _ _ Hok ltac:(constructor) I ltac:(done) Hp) as (vs & Hvs & Heq & ->).
    assert (Forall group_ok (hi ++ [b])) as Hall
      by (apply Forall_app; split; [done|apply Forall_singleton; unfold group_ok; lia]).
    assert (u64 (be128 0 (hi ++ [b]))) as Hw by (rewrite be128_snoc; unfold in_width; lia).
    exists (be128 0 (hi ++ [b]) :: vs). split_and!; [by constructor| |].
    + cbn [fmap list_fmap concat]. rewrite <- arc_bytes_push by done. simpl in Heq.
      unfold arc_bytes. rewrite <- app_assoc. cbn [app]. by rewrite Heq.
    + cbn [fold_left]. by rewrite be128_snoc.
  - rewrite <- be128_snoc in Hp.
    destruct (IH (hi ++ [b - 128]) arcs arcs' Hok) as (vs & Hvs & Heq & ->).
    + apply Forall_app. split; [done|]. apply Forall_singleton. unfold group_ok. lia.
    + destruct hi; simpl; [|done]. specialize (Hb128 eq_refl). lia.
    + rewrite be128_snoc. lia.
    + by destruct hi.
    + exists vs. split_and!; [done| |done]. rewrite fmap_app, <- app_assoc in Heq.
      simpl in Heq. rewrite Z.lor_comm, lor_80 in Heq by lia.
      by replace (128 + (b - 128)) with b in Heq by lia.
Qed.

Lemma fold_push vs : ∀ out, fold_left push_base128 vs out = out ++ concat (push_base128 [] <$> vs).
Proof.
  induction vs as [|v vs IH]; intros out; [by rewrite app_nil_r|].
  cbn [fold_left fmap list_fmap concat]. rewrite IH, push_base128_app. by rewrite app_assoc.
Qed.

Lemma fold_add_arc vs : ∀ a arcs, fold_left add_arc vs (a :: arcs) = a :: arcs ++ vs.
Proof.
  induction vs as [|v vs IH]; intros a arcs; [by rewrite app_nil_r|].
  cbn [fold_left]. cbn [add_arc app]. rewrite IH. by rewrite <- app_assoc.
Qed.

(** The first two arcs are packed into one sub-identifier, and unpacked again. *)
Definition pack_arcs (a0 a1 : Z) : option Z :=
  if negb (a0 <=? 2) then None
  else if a0 <? 2 then if a1 <? 40 then Some (40 * a0 + a1) else None
  else checked_add 64 80 a1.

Lemma encode_oid_arcs_pack a0 a1 rest : encode_oid_arcs (a0 :: a1 :: rest) =
  (λ v, concat (push_base128 [] <$> v :: rest)) <$> pack_arcs a0 a1.
Proof.
  unfold encode_oid_arcs, pack_arcs. destruct (negb (a0 <=? 2)); [done|].
  by destruct (if a0 <? 2 then _ else _) as [v|]; simpl; [rewrite fold_push|].
Qed.

Lemma pack_unpack a0 a1 v : 0 ≤ a0 → 0 ≤ a1 → pack_arcs a0 a1 = Some v →
  u64 v ∧ add_arc [] v = [a0; a1].
Proof.
  intros H0 H1. unfold pack_arcs, checked_add.
  destruct (Z.leb_spec a0 2); [simpl|done]. destruct (Z.ltb_spec a0 2).
  - destruct (Z.ltb_spec a1 40); [|done]. intros [= <-]. split; [unfold in_width; lia|].
    cbn [add_arc]. destruct (Z.ltb_spec (40 * a0 + a1) 80); [|lia]. rewrite (Z.mul_comm 40).
    rewrite Z.div_add_l, Z.div_small by lia. rewrite (Z.add_comm (a0 * 40)), Z_mod_plus_full.
    by rewrite Z.mod_small, Z.add_0_r by lia.
  - destruct (Z.ltb_spec (80 + a1) (2 ^ 64)); [|done]. intros [= <-].
    split; [unfold in_width; lia|]. cbn [add_arc]. destruct (Z.ltb_spec (80 + a1) 80); [lia|].
    assert (a0 = 2) as -> by lia. by replace (80 + a1 - 80) with a1 by lia.
Qed.

Lemma unpack_pack v : u64 v → ∃ a0 a1, add_arc [] v = [a0; a1] ∧ pack_arcs a0 a1 = Some v.
Proof.
  intros Hv. unfold in_width in Hv. cbn [add_arc]. destruct (Z.ltb_spec v 80) as [Hs|Hs].
  - pose proof (Z.mod_pos_bound v 40 ltac:(lia)). pose proof (Z.div_mod v 40 ltac:(lia)).
    exists (v / 40), (v mod 40). split; [done|]. unfold pack_arcs.
    destruct (Z.leb_spec (v / 40) 2), (Z.ltb_spec (v / 40) 2), (Z.ltb_spec (v mod 40) 40);
      simpl; try lia. f_equal. lia.
  - exists 2, (v - 80). split; [done|]. unfold pack_arcs, checked_add. simpl.
    replace (80 + (v - 80)) with v by lia. by destruct (Z.ltb_spec v (2 ^ 64)); [|lia].
Qed.

(** * Claims *)

(** C25: DER elements are encoded in exactly one way.  [read_any] applied to the
    output of [encode_tlv], followed by any input, returns the tag, the contents and
    that input; and every input [read_any] accepts starts with [encode_tlv] of what it
    returned.  Non-minimal, indefinite and over-long length forms are therefore all
    refused, and so are multi-octet tags. *)
Theorem der_tlv_bijective : ∀ r tag v rest, bytes_ok r →
  read_any r = Ok ((tag, v), rest)
  ↔ r = encode_tlv tag v ++ rest ∧ tag_ok tag ∧ zlen v < 2 ^ 64.
Proof.
  intros r tag v rest Hok. split.
  - intros Hr. by apply read_any_canonical in Hr as (-> & ? & _ & ?).
  - intros (-> & Ht & Hv). by apply read_any_encode.
Qed.

Lemma der_tlv_bijective_witness :
  bytes_ok [0x30; 0x02; 0x05; 0x00; 0x7f] ∧
  encode_tlv 0x30 [0x05; 0x00] ++ [0x7f] = [0x30; 0x02; 0x05; 0x00; 0x7f].
Proof.
  assert (bytes_ok [0x30; 0x02; 0x05; 0x00; 0x7f]) as H by (by apply (bool_decide_unpack _); vm_compute).
  split; [done|].
  symmetry. apply (der_tlv_bijective _ 0x30 [0x05; 0x00] [0x7f] H). vm_compute. reflexivity.
Defined.

(** Unsigned INTEGERs.  The reader returns the minimal octets of the number the
    writer was given, however many leading zeros it had; and of all encodings of a
    number the reader accepts one only: two accepted encodings of equal value are the
    same bytes. *)
Theorem der_integer_canonical : ∀ be rest, bytes_ok be → zlen be < 2 ^ 63 →
  (∃ body, read_unsigned_integer_bytes (encode_integer be ++ rest) = Ok (body, rest)
     ∧ be_value body = be_value be)
  ∧ ∀ r body, bytes_ok r → read_unsigned_integer_bytes r = Ok (body, rest) →
      be_value body = be_value be → r = encode_integer be ++ rest.
Proof.
  intros be rest Hbe Hlen. destruct (integer_body_canonical be Hbe) as (Hok & Hcan & Hv & Hl).
  rewrite encode_integer_body. assert (tag_ok TAG_INTEGER) as Htag by (by split).
  split.
  - exists (integer_body be). split; [|done].
    unfold read_unsigned_integer_bytes.
    rewrite (proj2 (read_tlv_as_any _ _ _ _) (read_any_encode TAG_INTEGER (integer_body be) rest Htag ltac:(lia))).
    cbn [mbind result_bind]. destruct (integer_body be) as [|b [|c tl]]; [done|..].
    + apply Forall_cons in Hok as [Hb _]. rewrite land_80 by done. simpl in Hcan.
      rewrite (proj2 (Z.ltb_lt b 128)) by done. by destruct (b =? 0).
    + rewrite !Forall_cons in Hok. destruct Hok as (Hb & Hc & _). rewrite !land_80 by done.
      simpl in Hcan. destruct (b =? 0); [by rewrite (proj2 (Z.ltb_ge c 128))|].
      by rewrite (proj2 (Z.ltb_lt b 128)).
  - intros r body Hr Hread Heq. apply read_unsigned_iff in Hread as [Hany Hc]; [|done].
    apply read_any_canonical in Hany as (-> & _ & Hokb & _); [|done].
    do 2 f_equal. apply integer_canonical_unique; congruence || done.
Qed.

Lemma der_integer_canonical_witness :
  read_unsigned_integer_bytes ([0x02; 0x02; 0x00; 0x80] ++ [1]) = Ok ([0x00; 0x80], [1]) ∧
  encode_integer [0; 0; 0x80] ++ [1] = [0x02; 0x02; 0x00; 0x80; 1].
Proof.
  split; [vm_compute; reflexivity|]. symmetry.
  apply (der_integer_canonical [0; 0; 0x80] [1]) with (body := [0x00; 0x80]).
  - by apply (bool_decide_unpack _); vm_compute.
  - vm_compute. reflexivity.
  - by apply (bool_decide_unpack _); vm_compute.
  - vm_compute. reflexivity.
  - vm_compute. reflexivity.
Defined.

(** [read_element] returns the element's full encoding, header included: exactly
    the bytes it consumed, which are [encode_tlv] of what [read_any] reads there, and
    it accepts and rejects the same inputs with the same errors as [read_any]. *)
Theorem read_element_prefix : ∀ r, bytes_ok r →
  match read_any r with
  | Ok ((tag, v), rest) => read_element r = Ok (encode_tlv tag v, rest)
                           ∧ r = encode_tlv tag v ++ rest
  | Err e => read_element r = Err e
  end.
Proof.
  intros r Hok. destruct (read_any r) as [[[tag v] rest]|e] eqn:E.
  - pose proof E as (Hr & _)%read_any_canonical; [|done]. split; [|done].
    unfold read_any in E. unfold read_element.
    apply bind_Ok_inv in E as ([t r1] & Et & E). rewrite Et. simpl.
    apply bind_Ok_inv in E as ([len r2] & El & E). rewrite El. simpl.
    apply bind_Ok_inv in E as ([h r3] & Eh & E). rewrite Eh. injection E as -> -> ->. simpl.
    apply read_tag_inv in Et as [-> _]. apply Forall_cons in Hok as [_ Hok].
    apply read_length_canonical in El as [-> Hlen]; [|done].
    apply reader_take_inv in Eh as [-> Hz]; [|apply Hlen].
    rewrite Hr at 2. replace (_ + len) with (zlen (encode_tlv tag v)); [by rewrite ztake_app|].
    unfold encode_tlv. rewrite Hz. unfold zlen in *. cbn [length]. rewrite !length_app. lia.
  - unfold read_any in E. unfold read_element.
    destruct (read_tag r) as [[t r1]|e1]; simpl in *; [|congruence].
    destruct (read_length r1) as [[len r2]|e1]; simpl in *; [|congruence].
    destruct (reader_take r2 len) as [[h r3]|e1]; simpl in *; unfold mret, result_ret in *; congruence.
Qed.

Lemma read_element_prefix_witness :
  read_element [0x04; 0x01; 0xaa; 0xbb] = Ok ([0x04; 0x01; 0xaa], [0xbb]).
Proof.
  apply (read_element_prefix [0x04; 0x01; 0xaa; 0xbb]).
  by apply (bool_decide_unpack _); vm_compute.
Defined.

(** Object identifiers.  On arcs and bodies of machine integers, [parse_oid] and
    [encode_oid_arcs] are inverse bijections between the arc lists the encoder does not
    refuse and the bodies the parser accepts: decoding an encoding gives the arcs back,
    and an accepted body is the encoding of its arcs, so no OID has two encodings. *)
Theorem oid_bijective : ∀ arcs body, Forall u64 arcs → bytes_ok body →
  encode_oid_arcs arcs = Some body ↔ parse_oid body = Ok arcs.
Proof.
  intros arcs body Harcs Hbody. split.
  - destruct arcs as [|a0 [|a1 rest]]; [done..|]. rewrite encode_oid_arcs_pack.
    rewrite !Forall_cons in Harcs. destruct Harcs as (H0 & H1 & Hrest).
    destruct (pack_arcs a0 a1) as [v|] eqn:Hp; [|done]. intros [= <-].
    apply pack_unpack in Hp as [Hv Hun]; [|apply H0|apply H1].
    assert (∃ b l, push_base128 [] v = b :: l) as (b & l & Hbl).
    { destruct (push_base128_arc v Hv) as ([|h hi] & lo & -> & _); eexists _, _; done. }
    unfold parse_oid. cbn [fmap list_fmap concat]. rewrite Hbl. cbn [app].
    rewrite app_comm_cons, <- Hbl.
    rewrite parse_push, parse_pushes, Hun by done. by rewrite fold_add_arc.
  - destruct body as [|b body]; [done|]. unfold parse_oid. intros Hp.
    destruct (parse_oid_loop_inv (b :: body) [] [] arcs) as (vs & Hvs & Heq & ->);
      [done|constructor|done|done|done|].
    simpl in Heq. destruct vs as [|v vs]; [done|]. apply Forall_cons in Hvs as [Hv Hvs].
    cbn [fold_left]. destruct (unpack_pack v Hv) as (a0 & a1 & -> & Hpk).
    rewrite fold_add_arc. cbn [app]. rewrite encode_oid_arcs_pack, Hpk. simpl. by rewrite Heq.
Qed.

Lemma oid_bijective_witness :
  parse_oid [0x2a; 0x86; 0x48; 0x86; 0xf7; 0x0d] = Ok [1; 2; 840; 113549].
Proof.
  apply (oid_bijective [1; 2; 840; 113549] [0x2a; 0x86; 0x48; 0x86; 0xf7; 0x0d]).
  - by apply (bool_decide_unpack _); vm_compute.
  - by apply (bool_decide_unpack _); vm_compute.
  - vm_compute. reflexivity.
Defined.
