(* ===== verification/Codec.v ===== *)
(** TLS wire primitives ([src/tls/codec/mod.rs]) and record framing
    ([src/tls/codec/record.rs]).

    [ReadCursor] is modelled twice: as the struct (slice and position, module
    [Cursor]) and as its unread input, on which the decoders are written; the lemma
    [cursor_take_refines] ties the two.  A writer appends to a [Vec<u8>]; [None] is a
    failed [assert!]. *)

From S2P Require Import Prelude TlsBase.

(** * Reading *)

Module Cursor.
Record ReadCursor := mkReadCursor { rc_data : bytes; rc_pos : Z }.

Definition rc_new (data : bytes) : ReadCursor := mkReadCursor data 0.
Definition rc_is_empty (c : ReadCursor) : bool := zlen (rc_data c) <=? rc_pos c.

Definition rc_take (c : ReadCursor) (n : Z) : tls_result (bytes * ReadCursor) :=
  end_ ← ok_or (checked_add 64 (rc_pos c) n) Error.Decode;
  if zlen (rc_data c) <? end_ then Err Error.Decode
  else Ok (ztake (end_ - rc_pos c) (zdrop (rc_pos c) (rc_data c)), mkReadCursor (rc_data c) end_).
End Cursor.

Definition rd_is_empty (r : bytes) : bool := match r with [] => true | _ => false end.

Definition rd_take (r : bytes) (n : Z) : tls_result (bytes * bytes) :=
  if zlen r <? n then Err Error.Decode else Ok (ztake n r, zdrop n r).

Definition rd_u8 (r : bytes) : tls_result (Z * bytes) :=
  '(b, r) ← rd_take r 1;
  match b with b0 :: _ => Ok (b0, r) | [] => Err Error.Decode end.

Definition rd_u16 (r : bytes) : tls_result (Z * bytes) :=
  '(b, r) ← rd_take r 2; Ok (be_value b, r).
Definition rd_u32 (r : bytes) : tls_result (Z * bytes) :=
  '(b, r) ← rd_take r 4; Ok (be_value b, r).
Definition rd_u64 (r : bytes) : tls_result (Z * bytes) :=
  '(b, r) ← rd_take r 8; Ok (be_value b, r).

Definition rd_u24 (r : bytes) : tls_result (Z * bytes) :=
  '(b, r) ← rd_take r 3;
  match b with
  | [b0; b1; b2] => Ok (Z.lor (Z.lor (Z.shiftl b0 16) (Z.shiftl b1 8)) b2, r)
  | _ => Err Error.Decode
  end.

Definition rd_vec_u8 (r : bytes) : tls_result (bytes * bytes) :=
  '(n, r) ← rd_u8 r; rd_take r n.
Definition rd_vec_u16 (r : bytes) : tls_result (bytes * bytes) :=
  '(n, r) ← rd_u16 r; rd_take r n.
Definition rd_vec_u24 (r : bytes) : tls_result (bytes * bytes) :=
  '(n, r) ← rd_u24 r; rd_take r n.

Definition rd_expect_empty (r : bytes) : tls_result unit :=
  if rd_is_empty r then Ok () else Err Error.Decode.

(** * Writing *)

Definition writer := bytes → option bytes.

(** A negative length below is a wrapped [usize], which the assertion refuses too.
    [f(out); g(out)] and [for x in l { f(out, x) }]. *)
Definition wseq (f g : writer) : writer := λ out, f out ≫= g.
Declare Scope writer_scope.
Delimit Scope writer_scope with writer.
Infix "⊳" := wseq (at level 60, right associativity) : writer_scope.

Fixpoint wfor {A} (f : A → writer) (l : list A) : writer :=
  match l with [] => Some | x :: l => wseq (f x) (wfor f l) end.

Definition extend_from_slice (l : bytes) : writer := λ out, Some (out ++ l).
Definition put_u8 (v : Z) : writer := λ out, Some (out ++ [v]).
Definition put_u16 (v : Z) : writer := λ out, Some (out ++ be_bytes 2 v).
Definition put_u32 (v : Z) : writer := λ out, Some (out ++ be_bytes 4 v).

(** [out[pos..pos + l.len()].copy_from_slice(l)] *)
Definition copy_at (out : bytes) (pos : Z) (l : bytes) : bytes :=
  ztake pos out ++ l ++ zdrop (pos + zlen l) out.

Definition with_len_u8 (f : writer) : writer := λ out,
  let pos := zlen out in
  out ← f (out ++ [0]);
  let len := zlen out - pos - 1 in
  if (len <? 0) || (0xFF <? len) then None else Some (copy_at out pos [as_u8 len]).

Definition with_len_u16 (f : writer) : writer := λ out,
  let pos := zlen out in
  out ← f (out ++ [0; 0]);
  let inner := zlen out - pos - 2 in
  if (inner <? 0) || (0xFFFF <? inner) then None
  else Some (copy_at out pos (be_bytes 2 (as_u16 inner))).

Definition with_len_u24 (f : writer) : writer := λ out,
  let pos := zlen out in
  out ← f (out ++ [0; 0; 0]);
  let inner := zlen out - pos - 3 in
  if (inner <? 0) || (0xFF_FFFF <? inner) then None
  else Some (copy_at out pos (zdrop 1 (be_bytes 4 (as_u32 inner)))).

(** * Records *)

Definition MAX_PLAINTEXT_FRAGMENT : Z := Z.shiftl 1 14.
Definition MAX_FRAGMENT : Z := Z.shiftl 1 14 + 256.
Definition MAX_FRAGMENT_BLOCK : Z := Z.shiftl 1 14 + 2048.

Record ParsedRecord := mkParsedRecord {
  pr_content_type : ContentType.content_type;
  pr_version : Z;
  pr_fragment : bytes;
  pr_len : Z }.

Definition read_record_with_max (buf : bytes) (max_fragment : Z)
  : tls_result (option ParsedRecord) :=
  match buf with
  | b0 :: b1 :: b2 :: b3 :: b4 :: _ =>
      let content_type := ContentType.content_type_from_u8 b0 in
      let version := be_value [b1; b2] in
      let len := be_value [b3; b4] in
      if max_fragment <? len then Err Error.RecordOverflow
      else
        let total := 5 + len in
        if zlen buf <? total then Ok None
        else Ok (Some (mkParsedRecord content_type version (ztake len (zdrop 5 buf)) total))
  | _ => Ok None
  end.

Definition read_record (buf : bytes) : tls_result (option ParsedRecord) :=
  read_record_with_max buf MAX_FRAGMENT.

(** [tls_legacy] is the crate feature of that name. *)
Definition is_legal_record_version (tls_legacy : bool) (version : Z) : bool :=
  if tls_legacy then (0x0300 <=? version) && (version <=? 0x0303)
  else (0x0301 <=? version) && (version <=? 0x0303).

Definition write_record (out : bytes) (ct : ContentType.content_type)
  (version : ProtocolVersion.protocol_version) (fragment : bytes) : tls_result bytes :=
  if MAX_FRAGMENT_BLOCK <? zlen fragment then Err Error.RecordOverflow
  else Ok (out ++ [ContentType.content_type_as_u8 ct]
             ++ be_bytes 2 (ProtocolVersion.version_as_u16 version)
             ++ be_bytes 2 (as_u16 (zlen fragment)) ++ fragment).

Definition div_ceil (a b : Z) : Z := (a + b - 1) / b.

Definition fragments (payload : bytes) (cap : Z) : list bytes :=
  let cap := Z.max cap 1 in
  let count := Z.max (div_ceil (zlen payload) cap) 1 in
  (λ i, let i := Z.of_nat i in
        ztake (Z.min (zlen payload) ((i + 1) * cap) - i * cap) (zdrop (i * cap) payload))
    <$> seq 0 (Z.to_nat count).

(** * The cursor *)

(** The unread input of a well-formed cursor. *)
Definition cursor_ok (c : Cursor.ReadCursor) : Prop :=
  0 ≤ Cursor.rc_pos c ≤ zlen (Cursor.rc_data c) ∧ zlen (Cursor.rc_data c) < 2 ^ 63.
Definition cursor_rest (c : Cursor.ReadCursor) : bytes :=
  zdrop (Cursor.rc_pos c) (Cursor.rc_data c).

Lemma zdrop_zdrop {A} (n m : Z) (l : list A) : 0 ≤ n → 0 ≤ m →
  zdrop n (zdrop m l) = zdrop (m + n) l.
Proof. intros. unfold zdrop. rewrite drop_drop. f_equal. lia. Qed.

Lemma zlen_zdrop {A} (n : Z) (l : list A) : 0 ≤ n ≤ zlen l → zlen (zdrop n l) = zlen l - n.
Proof. unfold zlen, zdrop. rewrite length_drop. lia. Qed.

Lemma zlen_ztake {A} (n : Z) (l : list A) : 0 ≤ n ≤ zlen l → zlen (ztake n l) = n.
Proof. unfold zlen, ztake. rewrite length_take. lia. Qed.

(** Reading through the struct and reading the unread input are the same. *)
Lemma cursor_take_refines c n : cursor_ok c → 0 ≤ n < 2 ^ 63 →
  match Cursor.rc_take c n with
  | Ok (h, c') => cursor_ok c' ∧ rd_take (cursor_rest c) n = Ok (h, cursor_rest c')
  | Err e => rd_take (cursor_rest c) n = Err e
  end ∧ Cursor.rc_is_empty c = rd_is_empty (cursor_rest c).
Proof.
  intros [Hp Hl] Hn. unfold cursor_rest, Cursor.rc_take, rd_take, checked_add.
  rewrite (proj2 (Z.ltb_lt _ _)) by lia. cbn [ok_or mbind result_bind].
  rewrite zlen_zdrop by lia. split.
  - destruct (Z.ltb_spec (zlen (Cursor.rc_data c)) (Cursor.rc_pos c + n)) as [Hlt|Hge].
    + by rewrite (proj2 (Z.ltb_lt _ _)) by lia.
    + rewrite (proj2 (Z.ltb_ge _ _)) by lia. cbn [Cursor.rc_data Cursor.rc_pos].
      rewrite zdrop_zdrop by lia. replace (Cursor.rc_pos c + n - Cursor.rc_pos c) with n by lia.
      split; [unfold cursor_ok; simpl; lia|done].
  - unfold Cursor.rc_is_empty.
    pose proof (zlen_zdrop (Cursor.rc_pos c) (Cursor.rc_data c) ltac:(lia)) as Hz.
    destruct (zdrop (Cursor.rc_pos c) (Cursor.rc_data c)) as [|b l]; unfold zlen in *; simpl in *.
    + apply Z.leb_le. lia.
    + apply Z.leb_gt. lia.
Qed.

(** ** Reading what was written *)

Lemma rd_take_app l r n : zlen l = n → rd_take (l ++ r) n = Ok (l, r).
Proof.
  intros <-. unfold rd_take. rewrite zlen_app. pose proof (zlen_nonneg r).
  destruct (Z.ltb_spec (zlen l + zlen r) (zlen l)); [lia|]. by rewrite ztake_app, zdrop_app.
Qed.

Lemma rd_take_inv r n h rest : 0 ≤ n → rd_take r n = Ok (h, rest) → r = h ++ rest ∧ zlen h = n.
Proof.
  unfold rd_take. intros Hn. destruct (Z.ltb_spec (zlen r) n); [done|]. intros [= <- <-].
  split; [symmetry; apply take_drop|]. by apply zlen_ztake.
Qed.

Lemma zlen_be_bytes n v : zlen (be_bytes n v) = Z.of_nat n.
Proof. unfold zlen. by rewrite length_be_bytes. Qed.

Lemma be_value_be_bytes_small n v : in_width (8 * Z.of_nat n) v → be_value (be_bytes n v) = v.
Proof. intros. rewrite be_value_be_bytes. by apply wrap_small. Qed.

Lemma rd_u8_cons b r : rd_u8 (b :: r) = Ok (b, r).
Proof. unfold rd_u8. change (b :: r) with ([b] ++ r). by rewrite (rd_take_app [b] r 1). Qed.

Lemma rd_u16_app v r : u16 v → rd_u16 (be_bytes 2 v ++ r) = Ok (v, r).
Proof. intros. unfold rd_u16. rewrite rd_take_app by apply zlen_be_bytes. cbn [mbind result_bind].
  by rewrite (be_value_be_bytes_small 2). Qed.

Lemma rd_u32_app v r : u32 v → rd_u32 (be_bytes 4 v ++ r) = Ok (v, r).
Proof. intros. unfold rd_u32. rewrite rd_take_app by apply zlen_be_bytes. cbn [mbind result_bind].
  by rewrite (be_value_be_bytes_small 4). Qed.

Lemma u24_be b0 b1 b2 : u8 b1 → u8 b2 →
  Z.lor (Z.lor (Z.shiftl b0 16) (Z.shiftl b1 8)) b2 = be_value [b0; b1; b2].
Proof.
  intros H1 H2. unfold be_fold. cbn [fold_left].
  rewrite !Z.shiftl_lor, !Z.shiftl_shiftl by lia. by rewrite Z.shiftl_0_l, Z.lor_0_l.
Qed.

Lemma rd_u24_bytes l r : bytes_ok l → zlen l = 3 → rd_u24 (l ++ r) = Ok (be_value l, r).
Proof.
  intros Hok Hl. unfold rd_u24. rewrite rd_take_app by done. cbn [mbind result_bind].
  destruct l as [|b0 [|b1 [|b2 [|? ?]]]]; unfold zlen in Hl; simpl in Hl; try lia.
  rewrite !Forall_cons in Hok. by rewrite u24_be by tauto.
Qed.

Lemma rd_u8_inv r v r' : rd_u8 r = Ok (v, r') → r = v :: r'.
Proof. destruct r as [|b r]; [done|]. rewrite rd_u8_cons. by intros [= -> ->]. Qed.

Lemma rd_u16_inv r v r' : bytes_ok r → rd_u16 r = Ok (v, r') → r = be_bytes 2 v ++ r' ∧ u16 v.
Proof.
  unfold rd_u16. intros Hok Hr. apply bind_Ok_inv in Hr as ([h r1] & [-> Hl]%rd_take_inv & Hr); [|lia].
  injection Hr as <- <-. apply Forall_app in Hok as [Hok _].
  assert (length h = 2%nat) as Hh by (unfold zlen in Hl; lia).
  pose proof (be_value_range h Hok) as Hr. rewrite Hh in Hr.
  split; [|done]. rewrite <- Hh. by rewrite be_bytes_be_value.
Qed.

Lemma rd_vec_u8_app l r : zlen l ≤ 255 → rd_vec_u8 (zlen l :: l ++ r) = Ok (l, r).
Proof. intros. unfold rd_vec_u8. rewrite rd_u8_cons. simpl. by apply rd_take_app. Qed.

Lemma rd_vec_u16_app l r : zlen l ≤ 0xFFFF → rd_vec_u16 (be_bytes 2 (zlen l) ++ l ++ r) = Ok (l, r).
Proof.
  intros. unfold rd_vec_u16. pose proof (zlen_nonneg l).
  rewrite rd_u16_app by (unfold in_width; lia). simpl. by apply rd_take_app.
Qed.

Lemma rd_vec_u8_inv r l r' : bytes_ok r → rd_vec_u8 r = Ok (l, r') →
  r = zlen l :: l ++ r' ∧ zlen l ≤ 255.
Proof.
  unfold rd_vec_u8. intros Hok Hr. apply bind_Ok_inv in Hr as ([n r1] & ->%rd_u8_inv & Hr).
  apply Forall_cons in Hok as [Hn _]. unfold in_width in Hn.
  apply rd_take_inv in Hr as [-> <-]; [|lia]. split; [done|lia].
Qed.

Lemma rd_vec_u16_inv r l r' : bytes_ok r → rd_vec_u16 r = Ok (l, r') →
  r = be_bytes 2 (zlen l) ++ l ++ r' ∧ zlen l ≤ 0xFFFF.
Proof.
  unfold rd_vec_u16. intros Hok Hr.
  apply bind_Ok_inv in Hr as ([n r1] & [-> Hn]%rd_u16_inv & Hr); [|done].
  unfold in_width in Hn. apply rd_take_inv in Hr as [-> <-]; [|lia]. split; [done|lia].
Qed.

(** ** Writers append *)

(** [f] appends [body] whatever the buffer holds; [None]: it panics. *)
Class Appends (f : writer) (body : option bytes) : Prop :=
  appends : ∀ out, f out = (app out) <$> body.

#[global] Hint Mode Appends ! - : typeclass_instances.
#[global] Typeclasses Opaque wseq wfor extend_from_slice put_u8 put_u16 put_u32
  with_len_u8 with_len_u16 with_len_u24.

Definition oapp (x y : option bytes) : option bytes := x ≫= λ a, (app a) <$> y.

(** [header] of the length, then the block. *)
Definition len_prefixed (max : Z) (header : Z → bytes) (body : option bytes) : option bytes :=
  b ← body; if max <? zlen b then None else Some (header (zlen b) ++ b).

#[global] Instance appends_seq f g x y :
  Appends f x → Appends g y → Appends (wseq f g) (oapp x y).
Proof.
  intros Hf Hg out. unfold wseq. rewrite (Hf out). destruct x as [a|]; [|done]. simpl.
  rewrite (Hg (out ++ a)). destruct y; simpl; by rewrite ?app_assoc.
Qed.

#[global] Instance appends_extend l : Appends (extend_from_slice l) (Some l).
Proof. done. Qed.
#[global] Instance appends_put_u8 v : Appends (put_u8 v) (Some [v]).
Proof. done. Qed.
#[global] Instance appends_put_u16 v : Appends (put_u16 v) (Some (be_bytes 2 v)).
Proof. done. Qed.
#[global] Instance appends_put_u32 v : Appends (put_u32 v) (Some (be_bytes 4 v)).
Proof. done. Qed.

Fixpoint oconcat {A} (h : A → option bytes) (l : list A) : option bytes :=
  match l with [] => Some [] | x :: l => oapp (h x) (oconcat h l) end.

#[global] Instance appends_for {A} (f : A → writer) h l :
  (∀ x, Appends (f x) (h x)) → Appends (wfor f l) (oconcat h l).
Proof.
  intros Hf. induction l as [|x l IH]; [intros out; simpl; by rewrite app_nil_r|].
  simpl. by apply appends_seq.
Qed.

Lemma copy_at_patch out a b body : zlen a = zlen b →
  copy_at ((out ++ a) ++ body) (zlen out) b = out ++ b ++ body.
Proof.
  intros Hab. unfold copy_at. rewrite <- app_assoc, ztake_app. do 2 f_equal.
  rewrite <- Hab, <- zlen_app, app_assoc. apply zdrop_app.
Qed.

Section with_len.
Context (k max : Z) (zeros : bytes) (header : Z → bytes).
Context (Hzeros : zlen zeros = k) (Hheader : ∀ n, zlen (header n) = k).

(** The pattern the three [with_len_*] share. *)
Lemma with_len_appends f body : Appends f body → Appends (λ out,
    o ← f (out ++ zeros); let len := zlen o - zlen out - k in
    if (len <? 0) || (max <? len) then None else Some (copy_at o (zlen out) (header len)))
  (len_prefixed max header body).
Proof using Hzeros Hheader.
  intros Hf out. rewrite (Hf (out ++ zeros)). destruct body as [b|]; [|done]. cbn.
  rewrite !zlen_app, Hzeros. pose proof (zlen_nonneg b).
  replace (zlen out + k + zlen b - zlen out - k) with (zlen b) by lia.
  destruct (Z.ltb_spec (zlen b) 0); [lia|]. simpl. destruct (max <? zlen b); [done|].
  simpl. f_equal. rewrite copy_at_patch; [done|]. by rewrite Hheader.
Qed.
End with_len.

#[global] Instance appends_with_len_u8 f b : Appends f b →
  Appends (with_len_u8 f) (len_prefixed 0xFF (λ n, [as_u8 n]) b).
Proof. intros Hf. by apply (with_len_appends 1 0xFF [0] (λ n, [as_u8 n])). Qed.
#[global] Instance appends_with_len_u16 f b : Appends f b →
  Appends (with_len_u16 f) (len_prefixed 0xFFFF (λ n, be_bytes 2 (as_u16 n)) b).
Proof. intros Hf. by apply (with_len_appends 2 0xFFFF [0; 0] (λ n, be_bytes 2 (as_u16 n))). Qed.
#[global] Instance appends_with_len_u24 f b : Appends f b →
  Appends (with_len_u24 f) (len_prefixed 0xFF_FFFF (λ n, zdrop 1 (be_bytes 4 (as_u32 n))) b).
Proof. intros Hf. by apply (with_len_appends 3 0xFF_FFFF [0; 0; 0] (λ n, zdrop 1 (be_bytes 4 (as_u32 n)))). Qed.

(** ** Records *)

(** The bytes of one record. *)
Definition record_bytes (ct version : Z) (fragment : bytes) : bytes :=
  [ct] ++ be_bytes 2 version ++ be_bytes 2 (zlen fragment) ++ fragment.

Lemma be2_forms v : u16 v → ∃ a b, be_bytes 2 v = [a; b] ∧ be_value [a; b] = v.
Proof.
  intros Hv. exists (as_u8 (Z.shiftr v 8)), (as_u8 (Z.shiftr v 0)). split; [done|].
  exact (be_value_be_bytes_small 2 v Hv).
Qed.

Lemma write_record_bytes out ct v fragment : zlen fragment ≤ MAX_FRAGMENT_BLOCK →
  write_record out ct v fragment = Ok (out ++ record_bytes
    (ContentType.content_type_as_u8 ct) (ProtocolVersion.version_as_u16 v) fragment).
Proof.
  intros Hl. unfold write_record. rewrite (proj2 (Z.ltb_ge _ _)) by done.
  pose proof (zlen_nonneg fragment). change MAX_FRAGMENT_BLOCK with 18432 in Hl.
  by rewrite wrap_small by (unfold in_width; lia).
Qed.

Lemma zlen_record_bytes ct v f : zlen (record_bytes ct v f) = 5 + zlen f.
Proof. unfold record_bytes. rewrite !zlen_app, !zlen_be_bytes. unfold zlen. simpl. lia. Qed.

Lemma read_record_bytes ct v f rest max : u16 v → zlen f ≤ max → zlen f < 2 ^ 16 →
  read_record_with_max (record_bytes ct v f ++ rest) max =
    Ok (Some (mkParsedRecord (ContentType.content_type_from_u8 ct) v f (5 + zlen f))).
Proof.
  intros Hv Hm Hf. pose proof (zlen_nonneg f). pose proof (zlen_nonneg rest).
  pose proof (zlen_record_bytes ct v f) as Hz. unfold record_bytes in *.
  destruct (be2_forms v Hv) as (a & b & Hab & Hv').
  destruct (be2_forms (zlen f)) as (c & d & Hcd & Hf'); [unfold in_width; lia|].
  rewrite Hab, Hcd in *. cbn [app] in *. unfold read_record_with_max. rewrite Hv', Hf'.
  rewrite (proj2 (Z.ltb_ge _ _)) by lia.
  change (ct :: a :: b :: c :: d :: f ++ rest) with ((ct :: a :: b :: c :: d :: f) ++ rest).
  rewrite (proj2 (Z.ltb_ge _ _)) by (rewrite zlen_app, Hz; lia).
  do 3 f_equal. change (zdrop 5 _) with (f ++ rest). apply ztake_app.
Qed.

Lemma read_record_partial ct v f p q max : u16 v → zlen f ≤ max → zlen f < 2 ^ 16 →
  record_bytes ct v f = p ++ q → q ≠ [] → read_record_with_max p max = Ok None.
Proof.
  intros Hv Hm Hf Hpq Hq. pose proof (zlen_record_bytes ct v f) as Hz. unfold record_bytes in *.
  destruct (be2_forms v Hv) as (a & b & Hab & Hv'). pose proof (zlen_nonneg f).
  destruct (be2_forms (zlen f)) as (c & d & Hcd & Hf'); [unfold in_width; lia|].
  rewrite Hab, Hcd in *. cbn [app] in *. rewrite Hpq, zlen_app in Hz.
  assert (0 < zlen q) by (destruct q; [done|unfold zlen; simpl; lia]).
  destruct p as [|x0 [|x1 [|x2 [|x3 [|x4 p]]]]]; try done.
  simplify_eq/=. unfold read_record_with_max. rewrite Hf'.
  rewrite (proj2 (Z.ltb_ge _ _)) by lia. by rewrite (proj2 (Z.ltb_lt _ _)) by lia.
Qed.

(** ** Fragmentation *)

Lemma div_ceil_bounds a b : 0 ≤ a → 0 < b →
  a = 0 ∧ div_ceil a b = 0 ∨ 1 ≤ div_ceil a b ∧ (div_ceil a b - 1) * b < a.
Proof.
  intros Ha Hb. unfold div_ceil. pose proof (Z.div_mod (a + b - 1) b ltac:(lia)) as Hd.
  pose proof (Z.mod_pos_bound (a + b - 1) b Hb).
  destruct (decide (a = 0)) as [->|]; [left; split; [done|]; apply Z.div_small; lia|right; nia].
Qed.

Lemma div_ceil_upper a b : 0 ≤ a → 0 < b → a ≤ div_ceil a b * b.
Proof.
  intros Ha Hb. unfold div_ceil. pose proof (Z.div_mod (a + b - 1) b ltac:(lia)) as Hd.
  pose proof (Z.mod_pos_bound (a + b - 1) b Hb). nia.
Qed.

(** The fragments from the [s]-th on are what is left of the payload. *)
Lemma fragments_concat (payload : bytes) cap n : ∀ s, 0 < cap →
  (∀ i, (s ≤ i < s + n)%nat → Z.of_nat i * cap ≤ zlen payload) →
  zlen payload ≤ Z.of_nat (s + n) * cap →
  concat ((λ i, let i := Z.of_nat i in
    ztake (Z.min (zlen payload) ((i + 1) * cap) - i * cap) (zdrop (i * cap) payload)) <$> seq s n)
  = zdrop (Z.of_nat s * cap) payload.
Proof.
  induction n as [|n IH]; intros s Hc Hin Hend.
  { symmetry. apply drop_ge. unfold zlen in *. nia. }
  rewrite <- cons_seq, fmap_cons, concat_cons.
  rewrite (IH (S s)); [|done|intros i Hi; apply Hin; lia|by rewrite Nat.add_succ_comm].
  cbv beta zeta. pose proof (Hin s ltac:(lia)). replace (Z.of_nat (S s)) with (Z.of_nat s + 1) by lia.
  destruct (Z.le_gt_cases (zlen payload) ((Z.of_nat s + 1) * cap)) as [Hle|Hgt].
  - rewrite Z.min_l by lia. rewrite <- (app_nil_r (zdrop (Z.of_nat s * cap) payload)) at 2.
    f_equal.
    + apply take_ge. pose proof (zlen_zdrop (Z.of_nat s * cap) payload ltac:(lia)).
      unfold zlen in *. lia.
    + apply drop_ge. unfold zlen in *. lia.
  - rewrite Z.min_r by lia.
    replace ((Z.of_nat s + 1) * cap) with (Z.of_nat s * cap + cap) by lia.
    rewrite <- zdrop_zdrop by lia. replace (_ + cap - _) with cap by lia. apply take_drop.
Qed.

(** Every fragment, the last one too, is at most [cap] long and, unless the payload is
    empty, not empty. *)
Lemma fragments_bounds payload cap f : f ∈ fragments payload cap →
  zlen f ≤ Z.max cap 1 ∧ (payload ≠ [] → 1 ≤ zlen f).
Proof.
  unfold fragments. intros (i & -> & Hi)%list_elem_of_fmap. apply elem_of_seq in Hi.
  set (cap' := Z.max cap 1) in *. assert (1 ≤ cap') as Hcap by lia. clearbody cap'. cbv zeta in *.
  pose proof (zlen_nonneg payload).
  destruct (div_ceil_bounds (zlen payload) cap') as [[Hz Hd]|Hd]; [lia..| |].
  - assert (i = 0%nat) as -> by lia. assert (payload = []) as ->.
    { destruct payload; [done|]. unfold zlen in Hz. simpl in Hz. lia. }
    split; [|done]. unfold ztake, zlen. rewrite length_take. simpl. lia.
  - assert (0 ≤ Z.of_nat i * cap' < zlen payload) as Hlt by nia.
    rewrite zlen_ztake; [|rewrite zlen_zdrop by lia; lia]. split; lia.
Qed.

(** * Claims *)

(** Reads records until the buffer does not hold another one. *)
Fixpoint read_all (fuel : nat) (buf : bytes) : list bytes :=
  match fuel with
  | O => []
  | S fuel => match read_record buf with
              | Ok (Some r) => pr_fragment r :: read_all fuel (zdrop (pr_len r) buf)
              | _ => []
              end
  end.

(** Record framing.  What [write_record] appends is read back exactly, whatever
    follows it; every proper prefix of it makes the reader ask for more; and a fragment
    longer than [MAX_FRAGMENT_BLOCK] is refused, so that the 16-bit length is never
    truncated. *)
Theorem record_roundtrip : ∀ out ct v fragment max,
  u16 (ProtocolVersion.version_as_u16 v) → zlen fragment ≤ max →
  (zlen fragment ≤ MAX_FRAGMENT_BLOCK →
     ∃ w, write_record out ct v fragment = Ok (out ++ w)
       ∧ (∀ rest, read_record_with_max (w ++ rest) max =
            Ok (Some (mkParsedRecord
              (ContentType.content_type_from_u8 (ContentType.content_type_as_u8 ct))
              (ProtocolVersion.version_as_u16 v) fragment (zlen w))))
       ∧ (∀ p q, w = p ++ q → q ≠ [] → read_record_with_max p max = Ok None))
  ∧ (MAX_FRAGMENT_BLOCK < zlen fragment → write_record out ct v fragment = Err Error.RecordOverflow).
Proof.
  intros out ct v f max Hv Hm. split.
  - intros Hl. eexists. split; [by apply write_record_bytes|].
    change MAX_FRAGMENT_BLOCK with 18432 in Hl. split.
    + intros rest. rewrite read_record_bytes by (done || lia). by rewrite zlen_record_bytes.
    + intros p q. apply read_record_partial; done || lia.
  - intros Hl. unfold write_record. by rewrite (proj2 (Z.ltb_lt _ _)).
Qed.

Lemma record_roundtrip_witness :
  ∃ w, write_record [] ContentType.Handshake ProtocolVersion.TLSv1_2 [104; 105] = Ok w
    ∧ w = [22; 3; 3; 0; 2; 104; 105]
    ∧ read_record_with_max w 100 =
        Ok (Some (mkParsedRecord ContentType.Handshake 0x0303 [104; 105] 7)).
Proof.
  destruct (record_roundtrip [] ContentType.Handshake ProtocolVersion.TLSv1_2 [104; 105] 100)
    as [H _]; [split; vm_compute; congruence|vm_compute; congruence|].
  destruct H as (w & Hw & Hr & _); [vm_compute; congruence|].
  assert (w = [22; 3; 3; 0; 2; 104; 105]) as -> by (vm_compute in Hw; congruence).
  eexists. split; [exact Hw|]. split; [reflexivity|]. exact (Hr []).
Defined.

(** Fragmentation.  [fragments] never yields an empty list, every fragment has at
    most [cap] bytes and their concatenation is the payload; sent as one record each
    and read with [read_record], they come back in order, so a handshake message longer
    than a record is reassembled exactly. *)
Theorem fragments_stream_roundtrip : ∀ payload cap ct v,
  1 ≤ cap ≤ MAX_PLAINTEXT_FRAGMENT → u16 (ProtocolVersion.version_as_u16 v) →
  let frs := fragments payload cap in
  concat frs = payload ∧ frs ≠ [] ∧ Forall (λ f, zlen f ≤ cap) frs
  ∧ ∃ wire, foldl (λ o f, o ≫= λ out, write_record out ct v f) (Ok []) frs = Ok wire
      ∧ read_all (length frs) wire = frs.
Proof.
  intros payload cap ct v Hcap Hv frs.
  change MAX_PLAINTEXT_FRAGMENT with 16384 in Hcap. pose proof (zlen_nonneg payload).
  assert (Forall (λ f, zlen f ≤ cap) frs) as Hall.
  { apply Forall_forall. intros f Hf. apply fragments_bounds in Hf. lia. }
  split_and!; [| |done|].
  - subst frs. unfold fragments. rewrite Z.max_l by lia. cbv zeta.
    pose proof (div_ceil_upper (zlen payload) cap ltac:(lia) ltac:(lia)).
    rewrite fragments_concat; [done|lia| |].
    + intros i Hi. destruct (div_ceil_bounds (zlen payload) cap) as [[Hz Hd]|Hd]; [lia..| |nia].
      assert (i = 0%nat) as -> by lia. lia.
    + cbn [Nat.add]. rewrite Z2Nat.id by lia. nia.
  - subst frs. unfold fragments. intros Hn. apply (f_equal length) in Hn.
    rewrite length_fmap, length_seq in Hn. simpl in Hn. lia.
  - exists (concat (record_bytes (ContentType.content_type_as_u8 ct)
              (ProtocolVersion.version_as_u16 v) <$> frs)).
    clearbody frs. split.
    + change (concat _) with ([] ++ concat (record_bytes (ContentType.content_type_as_u8 ct)
              (ProtocolVersion.version_as_u16 v) <$> frs)).
      generalize (@nil Z) as out. induction Hall as [|f frs Hf Hall IH]; intros out; simpl.
      * by rewrite app_nil_r.
      * rewrite write_record_bytes by (change MAX_FRAGMENT_BLOCK with 18432; lia).
        by rewrite IH, <- app_assoc.
    + induction Hall as [|f frs Hf Hall IH]; [done|]. cbn [length read_all fmap list_fmap concat].
      unfold read_record. rewrite read_record_bytes;
        [|done|change MAX_FRAGMENT with 16640; lia|lia].
      cbn [pr_fragment pr_len]. rewrite <- (zlen_record_bytes (ContentType.content_type_as_u8 ct)
        (ProtocolVersion.version_as_u16 v)), zdrop_app. by rewrite IH.
Qed.

Lemma fragments_stream_roundtrip_witness : concat (fragments [1; 2; 3; 4; 5] 2) = [1; 2; 3; 4; 5].
Proof.
  apply (fragments_stream_roundtrip [1; 2; 3; 4; 5] 2 ContentType.Handshake ProtocolVersion.TLSv1_2).
  - split; vm_compute; congruence.
  - split; vm_compute; congruence.
Defined.
