(* ===== verification/Handshake.v ===== *)
(** TLS and DTLS handshake messages ([src/tls/codec/handshake.rs]): the extension
    block, ClientHello, ServerHello, KeyUpdate and NewSessionTicket.  The [u16]
    newtypes ([CipherSuite], [ExtensionType]) are their code points; an [encode] that
    trips a length assertion is [None]. *)

From S2P Require Import Prelude TlsBase Codec.

Open Scope writer_scope.

(** * Message types *)

Module HsType.
Definition HELLO_REQUEST : Z := 0.
Definition CLIENT_HELLO : Z := 1.
Definition SERVER_HELLO : Z := 2.
Definition NEW_SESSION_TICKET : Z := 4.
Definition END_OF_EARLY_DATA : Z := 5.
Definition ENCRYPTED_EXTENSIONS : Z := 8.
Definition CERTIFICATE : Z := 11.
Definition SERVER_KEY_EXCHANGE : Z := 12.
Definition CERTIFICATE_STATUS : Z := 22.
Definition CERTIFICATE_REQUEST : Z := 13.
Definition SERVER_HELLO_DONE : Z := 14.
Definition CERTIFICATE_VERIFY : Z := 15.
Definition CLIENT_KEY_EXCHANGE : Z := 16.
Definition FINISHED : Z := 20.
Definition KEY_UPDATE : Z := 24.
Definition REQUEST_CONNECTION_ID : Z := 9.
Definition NEW_CONNECTION_ID : Z := 10.
Definition COMPRESSED_CERTIFICATE : Z := 25.
End HsType.

Definition HRR_RANDOM : bytes :=
  [0xcf; 0x21; 0xad; 0x74; 0xe5; 0x9a; 0x61; 0x11; 0xbe; 0x1d; 0x8c; 0x02; 0x1e; 0x65; 0xb8; 0x91;
   0xc2; 0xa2; 0x11; 0x16; 0x7a; 0xbb; 0x8c; 0x5e; 0x07; 0x9e; 0x09; 0xe2; 0xc8; 0xa8; 0x33; 0x9c].

(** * Extensions *)

Definition RawExtension : Type := Z * bytes.

Definition read_handshake (r : bytes) : tls_result ((Z * bytes) * bytes) :=
  '(msg_type, r) ← rd_u8 r;
  '(body, r) ← rd_vec_u24 r;
  Ok ((msg_type, body), r).

Definition encode_extensions (extensions : list RawExtension) : writer :=
  with_len_u16 (wfor (λ '(ty, data),
    put_u16 ty ⊳ with_len_u16 (extend_from_slice data)) extensions).

(** The loop: [None] is the early [return false]. *)
Fixpoint extensions_total (total : Z) (extensions : list RawExtension) : option Z :=
  match extensions with
  | [] => Some total
  | (_, data) :: extensions =>
      if 0xFFFF <? zlen data then None
      else extensions_total (sat_add 64 total (4 + zlen data)) extensions
  end.

Definition extensions_fit (extensions : list RawExtension) : bool :=
  match extensions_total 0 extensions with
  | Some total => total <=? 0xFFFF
  | None => false
  end.

Definition MAX_EXTENSIONS : Z := 64.

(** [while !c.is_empty()]; every round consumes at least four bytes. *)
Fixpoint parse_extensions_loop (fuel : nat) (c : bytes) (out : list RawExtension)
  : tls_result (list RawExtension) :=
  if rd_is_empty c then Ok out
  else match fuel with
  | O => Err Error.Decode
  | S fuel =>
      '(ty, c) ← rd_u16 c;
      '(data, c) ← rd_vec_u16 c;
      if MAX_EXTENSIONS <=? zlen out then Err Error.Decode
      else if existsb (λ e, e.1 =? ty) out then Err Error.IllegalParameter
      else parse_extensions_loop fuel c (out ++ [(ty, data)])
  end.

Definition parse_extensions (b : bytes) : tls_result (list RawExtension) :=
  parse_extensions_loop (length b) b [].

Definition read_session_id (c : bytes) : tls_result (bytes * bytes) :=
  '(sid, c) ← rd_vec_u8 c;
  if 32 <? zlen sid then Err Error.Decode else Ok (sid, c).

Definition read_random (c : bytes) : tls_result (bytes * bytes) := rd_take c 32.

(** * ClientHello *)

Record ClientHello := mkClientHello {
  ch_legacy_version : Z;
  ch_random : bytes;
  ch_session_id : bytes;
  ch_cipher_suites : list Z;
  ch_extensions : list RawExtension }.

Definition client_hello_encode (self : ClientHello) : option bytes :=
  (put_u8 HsType.CLIENT_HELLO ⊳ with_len_u24 (
    put_u16 (ch_legacy_version self) ⊳
    extend_from_slice (ch_random self) ⊳
    with_len_u8 (extend_from_slice (ch_session_id self)) ⊳
    with_len_u16 (wfor put_u16 (ch_cipher_suites self)) ⊳
    with_len_u8 (put_u8 0) ⊳
    encode_extensions (ch_extensions self))) [].

(** The outer [None] is a panic. *)
Definition client_hello_try_encode (self : ClientHello) : option (tls_result bytes) :=
  if (0xFF <? zlen (ch_session_id self))
     || (0xFFFF / 2 <? zlen (ch_cipher_suites self))
     || negb (extensions_fit (ch_extensions self))
  then Some (Err Error.HandshakeFailure)
  else Ok <$> client_hello_encode self.

Definition client_hello_encode_dtls (self : ClientHello) (legacy_cookie : bytes) : option bytes :=
  (put_u8 HsType.CLIENT_HELLO ⊳ with_len_u24 (
    put_u16 (ch_legacy_version self) ⊳
    extend_from_slice (ch_random self) ⊳
    with_len_u8 (extend_from_slice (ch_session_id self)) ⊳
    with_len_u8 (extend_from_slice legacy_cookie) ⊳
    with_len_u16 (wfor put_u16 (ch_cipher_suites self)) ⊳
    with_len_u8 (put_u8 0) ⊳
    encode_extensions (ch_extensions self))) [].

(** [while !cs.is_empty() { cipher_suites.push(cs.u16()?) }] *)
Fixpoint read_cipher_suites (fuel : nat) (cs : bytes) (acc : list Z) : tls_result (list Z) :=
  if rd_is_empty cs then Ok acc
  else match fuel with
  | O => Err Error.Decode
  | S fuel => '(v, cs) ← rd_u16 cs; read_cipher_suites fuel cs (acc ++ [v])
  end.

Definition client_hello_decode_dtls (body : bytes) : tls_result (ClientHello * bytes) :=
  '(legacy_version, c) ← rd_u16 body;
  '(random, c) ← read_random c;
  '(session_id, c) ← read_session_id c;
  '(legacy_cookie, c) ← rd_vec_u8 c;
  '(cs_bytes, c) ← rd_vec_u16 c;
  if negb (zlen cs_bytes mod 2 =? 0) then Err Error.Decode
  else
    cipher_suites ← read_cipher_suites (length cs_bytes) cs_bytes [];
    '(compression, c) ← rd_vec_u8 c;
    if negb (existsb (λ b, b =? 0) compression) then Err Error.IllegalParameter
    else
      '(ext, c) ← rd_vec_u16 c;
      extensions ← parse_extensions ext;
      _ ← rd_expect_empty c;
      Ok (mkClientHello legacy_version random session_id cipher_suites extensions, legacy_cookie).

Definition legacy_compression_methods (body : bytes) : tls_result bytes :=
  '(_, c) ← rd_u16 body;
  '(_, c) ← read_random c;
  '(_, c) ← rd_vec_u8 c;
  '(_, c) ← rd_vec_u16 c;
  '(m, _) ← rd_vec_u8 c;
  Ok m.

Definition client_hello_decode (body : bytes) : tls_result ClientHello :=
  '(legacy_version, c) ← rd_u16 body;
  '(random, c) ← read_random c;
  '(session_id, c) ← read_session_id c;
  '(cs_bytes, c) ← rd_vec_u16 c;
  cipher_suites ← read_cipher_suites (length cs_bytes) cs_bytes [];
  '(_, c) ← rd_vec_u8 c;
  '(extensions, c) ← (if rd_is_empty c then Ok ([], c)
                      else '(ext, c) ← rd_vec_u16 c;
                           extensions ← parse_extensions ext; Ok (extensions, c));
  _ ← rd_expect_empty c;
  Ok (mkClientHello legacy_version random session_id cipher_suites extensions).

(** * ServerHello *)

Record ServerHello := mkServerHello {
  sh_random : bytes;
  sh_session_id : bytes;
  sh_cipher_suite : Z;
  sh_extensions : list RawExtension }.

Definition encode_with_legacy_version (self : ServerHello) (legacy_version : Z) : option bytes :=
  (put_u8 HsType.SERVER_HELLO ⊳ with_len_u24 (
    put_u16 legacy_version ⊳
    extend_from_slice (sh_random self) ⊳
    with_len_u8 (extend_from_slice (sh_session_id self)) ⊳
    put_u16 (sh_cipher_suite self) ⊳
    put_u8 0 ⊳
    encode_extensions (sh_extensions self))) [].

Definition server_hello_encode (self : ServerHello) : option bytes :=
  encode_with_legacy_version self 0x0303.
Definition server_hello_encode_dtls (self : ServerHello) : option bytes :=
  encode_with_legacy_version self 0xfefd.

Definition decode_expecting (body : bytes) (expected_version : Z) : tls_result ServerHello :=
  '(legacy_version, c) ← rd_u16 body;
  if negb (legacy_version =? expected_version) then Err Error.Decode
  else
    '(random, c) ← read_random c;
    '(session_id, c) ← read_session_id c;
    '(cipher_suite, c) ← rd_u16 c;
    '(compression, c) ← rd_u8 c;
    if negb (compression =? 0) then Err Error.Decode
    else
      '(ext, c) ← rd_vec_u16 c;
      extensions ← parse_extensions ext;
      _ ← rd_expect_empty c;
      Ok (mkServerHello random session_id cipher_suite extensions).

Definition server_hello_decode (body : bytes) : tls_result ServerHello :=
  decode_expecting body 0x0303.
Definition server_hello_decode_dtls (body : bytes) : tls_result ServerHello :=
  decode_expecting body 0xfefd.

Definition encode_versioned (self : ServerHello) (version : Z) : option bytes :=
  (put_u8 HsType.SERVER_HELLO ⊳ with_len_u24 (
    put_u16 version ⊳
    extend_from_slice (sh_random self) ⊳
    with_len_u8 (extend_from_slice (sh_session_id self)) ⊳
    put_u16 (sh_cipher_suite self) ⊳
    put_u8 0 ⊳
    encode_extensions (sh_extensions self))) [].

Definition decode_relaxed (body : bytes) : tls_result (ServerHello * Z) :=
  '(version, c) ← rd_u16 body;
  if negb ((0x0300 <=? version) && (version <=? 0x0303)) then Err Error.Decode
  else
    '(random, c) ← read_random c;
    '(session_id, c) ← read_session_id c;
    '(cipher_suite, c) ← rd_u16 c;
    '(compression, c) ← rd_u8 c;
    if negb (compression =? 0) then Err Error.Decode
    else
      '(extensions, c) ← (if rd_is_empty c then Ok ([], c)
                          else '(ext, c) ← rd_vec_u16 c;
                               extensions ← parse_extensions ext; Ok (extensions, c));
      _ ← rd_expect_empty c;
      Ok (mkServerHello random session_id cipher_suite extensions, version).

(** * KeyUpdate and NewSessionTicket *)

Record KeyUpdate := mkKeyUpdate { request_update : bool }.

Definition key_update_encode (self : KeyUpdate) : option bytes :=
  (put_u8 HsType.KEY_UPDATE ⊳
   with_len_u24 (put_u8 (if request_update self then 1 else 0))) [].

Definition key_update_decode (body : bytes) : tls_result KeyUpdate :=
  '(v, c) ← rd_u8 body;
  request_update ← match v with
                   | 0 => Ok false
                   | 1 => Ok true
                   | _ => Err Error.IllegalParameter
                   end;
  _ ← rd_expect_empty c;
  Ok (mkKeyUpdate request_update).

Record NewSessionTicket := mkNewSessionTicket {
  ticket_lifetime : Z;
  ticket_age_add : Z;
  ticket_nonce : bytes;
  ticket : bytes;
  nst_extensions : list RawExtension }.

Definition new_session_ticket_encode (self : NewSessionTicket) : option bytes :=
  (put_u8 HsType.NEW_SESSION_TICKET ⊳ with_len_u24 (
    put_u32 (ticket_lifetime self) ⊳
    put_u32 (ticket_age_add self) ⊳
    with_len_u8 (extend_from_slice (ticket_nonce self)) ⊳
    with_len_u16 (extend_from_slice (ticket self)) ⊳
    encode_extensions (nst_extensions self))) [].

Definition new_session_ticket_decode (body : bytes) : tls_result NewSessionTicket :=
  '(ticket_lifetime, c) ← rd_u32 body;
  '(ticket_age_add, c) ← rd_u32 c;
  '(ticket_nonce, c) ← rd_vec_u8 c;
  '(ticket, c) ← rd_vec_u16 c;
  match ticket with
  | [] => Err Error.Decode
  | _ =>
      '(ext, c) ← rd_vec_u16 c;
      extensions ← parse_extensions ext;
      _ ← rd_expect_empty c;
      Ok (mkNewSessionTicket ticket_lifetime ticket_age_add ticket_nonce ticket extensions)
  end.

(** * The extension block *)

Definition ext_entry (e : RawExtension) : bytes := be_bytes 2 e.1 ++ be_bytes 2 (zlen e.2) ++ e.2.
Definition ext_bytes (exts : list RawExtension) : bytes := concat (ext_entry <$> exts).
Definition ext_block (exts : list RawExtension) : bytes :=
  be_bytes 2 (zlen (ext_bytes exts)) ++ ext_bytes exts.

Definition entry_ok (e : RawExtension) : Prop := u16 e.1 ∧ zlen e.2 ≤ 0xFFFF.

(** What a decoder returns: distinct types, at most [MAX_EXTENSIONS]. *)
Definition exts_ok (exts : list RawExtension) : Prop :=
  Forall entry_ok exts ∧ NoDup exts.*1 ∧ zlen exts ≤ MAX_EXTENSIONS.

Lemma zlen_ext_entry e : zlen (ext_entry e) = 4 + zlen e.2.
Proof. unfold ext_entry. rewrite !zlen_app, !zlen_be_bytes. lia. Qed.

Lemma ext_bytes_cons e exts : ext_bytes (e :: exts) = ext_entry e ++ ext_bytes exts.
Proof. done. Qed.

Lemma existsb_fst (ty : Z) (out : list RawExtension) :
  existsb (λ e, e.1 =? ty) out = bool_decide (ty ∈ out.*1).
Proof.
  induction out as [|e out IH]; [done|]. cbn [existsb fmap list_fmap]. rewrite IH.
  destruct (Z.eqb_spec e.1 ty) as [<-|Hne]; simpl.
  - symmetry. apply bool_decide_eq_true. left.
  - apply bool_decide_ext. rewrite elem_of_cons. naive_solver.
Qed.

Lemma rd_is_empty_entry e r : rd_is_empty (ext_entry e ++ r) = false.
Proof. done. Qed.

Lemma parse_extensions_loop_app exts : ∀ fuel out, Forall entry_ok exts →
  NoDup (out ++ exts).*1 → zlen (out ++ exts) ≤ MAX_EXTENSIONS →
  (length (ext_bytes exts) ≤ fuel)%nat →
  parse_extensions_loop fuel (ext_bytes exts) out = Ok (out ++ exts).
Proof.
  induction exts as [|[ty d] exts IH]; intros fuel out Hok Hnd Hlen Hf.
  { destruct fuel; simpl; by rewrite app_nil_r. }
  apply Forall_cons in Hok as [[Hty Hd] Hok]. rewrite ext_bytes_cons in *.
  pose proof (zlen_ext_entry (ty, d)) as Hz. simpl in Hty, Hd, Hz.
  rewrite length_app in Hf. unfold zlen in Hz.
  destruct fuel as [|fuel]; [lia|]. cbn [parse_extensions_loop]. rewrite rd_is_empty_entry.
  unfold ext_entry. cbn [fst snd]. rewrite <- !app_assoc, rd_u16_app by done.
  cbn [mbind result_bind]. rewrite rd_vec_u16_app by done. cbn [mbind result_bind].
  rewrite zlen_app in Hlen. unfold zlen in Hlen at 2. cbn [length] in Hlen.
  rewrite (proj2 (Z.leb_gt _ _)) by lia. rewrite existsb_fst.
  rewrite fmap_app in Hnd. apply NoDup_app in Hnd as (Hnd1 & Hnd2 & Hnd3).
  rewrite bool_decide_false.
  2:{ intros Hin. apply (Hnd2 ty Hin). cbn. left. }
  rewrite IH; [by rewrite <- app_assoc|done|..|lia].
  - rewrite <- app_assoc, fmap_app. by apply NoDup_app.
  - rewrite <- app_assoc, zlen_app. unfold zlen. cbn [app length]. unfold zlen in Hlen. lia.
Qed.

Lemma parse_extensions_loop_inv fuel : ∀ c out res, bytes_ok c →
  parse_extensions_loop fuel c out = Ok res →
  ∃ exts, res = out ++ exts ∧ c = ext_bytes exts ∧ Forall entry_ok exts
    ∧ (NoDup out.*1 → NoDup res.*1) ∧ (zlen out ≤ MAX_EXTENSIONS → zlen res ≤ MAX_EXTENSIONS).
Proof.
  assert (∀ out : list RawExtension, ∃ exts, out = out ++ exts ∧ [] = ext_bytes exts
    ∧ Forall entry_ok exts ∧ (NoDup out.*1 → NoDup out.*1)
    ∧ (zlen out ≤ MAX_EXTENSIONS → zlen out ≤ MAX_EXTENSIONS)) as Hnil.
  { intros out. exists []. by rewrite app_nil_r. }
  induction fuel as [|fuel IH]; intros c out res Hc Hp; destruct c as [|b c]; try done.
  all: try (injection Hp as <-; apply Hnil).
  revert Hp Hc. generalize (b :: c) (eq_refl : rd_is_empty (b :: c) = false). clear b c.
  intros c Hne Hp Hc. cbn [parse_extensions_loop] in Hp. rewrite Hne in Hp.
  apply bind_Ok_inv in Hp as ([ty c1] & [-> Hty]%rd_u16_inv & Hp); [|done].
  apply Forall_app in Hc as [_ Hc].
  apply bind_Ok_inv in Hp as ([d c2] & [-> Hd]%rd_vec_u16_inv & Hp); [|done].
  rewrite !Forall_app in Hc. destruct Hc as (_ & _ & Hc2).
  destruct (Z.leb_spec MAX_EXTENSIONS (zlen out)) as [|Hlt]; [done|].
  rewrite existsb_fst in Hp. case_bool_decide as Hin; [done|].
  apply IH in Hp as (exts & -> & -> & Hok & Hnd & Hlen); [|done].
  exists ((ty, d) :: exts). rewrite <- app_assoc in *. split_and!; [done| |by constructor| |].
  - rewrite ext_bytes_cons. unfold ext_entry. by rewrite <- !app_assoc.
  - intros Hout. apply Hnd. rewrite fmap_app. apply NoDup_app. split_and!; [done| |].
    + cbn. intros x Hx Hx2. apply list_elem_of_singleton in Hx2. congruence.
    + apply NoDup_singleton.
  - intros _. apply Hlen. rewrite zlen_app. unfold zlen in *. simpl. unfold MAX_EXTENSIONS in *. lia.
Qed.

(** Every extension block is parsed back, and nothing else is accepted. *)
Lemma parse_extensions_bijective b exts : bytes_ok b →
  parse_extensions b = Ok exts ↔ b = ext_bytes exts ∧ exts_ok exts.
Proof.
  intros Hb. unfold parse_extensions. split.
  - intros Hp. apply parse_extensions_loop_inv in Hp as (e & -> & -> & Hok & Hnd & Hlen); [|done].
    split; [done|]. split_and!; [done|apply Hnd, NoDup_nil_2|by apply Hlen].
  - intros (-> & Hok & Hnd & Hlen). by apply (parse_extensions_loop_app exts _ []).
Qed.

Lemma parse_extensions_ext_bytes exts : exts_ok exts → parse_extensions (ext_bytes exts) = Ok exts.
Proof. intros (Hok & Hnd & Hlen). by apply (parse_extensions_loop_app exts _ []). Qed.

(** ** Encoding it *)

Definition bodies_fit (exts : list RawExtension) : Prop := Forall (λ e, zlen e.2 ≤ 0xFFFF) exts.
#[global] Instance bodies_fit_dec exts : Decision (bodies_fit exts).
Proof. unfold bodies_fit. apply _. Defined.

Lemma extensions_total_spec exts : ∀ t, 0 ≤ t < 2 ^ 64 →
  extensions_total t exts = if decide (bodies_fit exts)
    then Some (Z.min (2 ^ 64 - 1) (t + zlen (ext_bytes exts))) else None.
Proof.
  induction exts as [|[ty d] exts IH]; intros t Ht; cbn [extensions_total].
  { rewrite decide_True by constructor. unfold zlen. simpl length. f_equal. lia. }
  pose proof (zlen_nonneg d). pose proof (zlen_nonneg (ext_bytes exts)).
  destruct (Z.ltb_spec 0xFFFF (zlen d)) as [Hgt|Hle].
  { rewrite decide_False; [done|]. intros [Hd _]%Forall_cons. simpl in Hd. lia. }
  rewrite IH by (unfold sat_add; lia). rewrite ext_bytes_cons, zlen_app, zlen_ext_entry. cbn [snd].
  destruct (decide (bodies_fit exts)) as [Hall|Hall].
  - rewrite decide_True by (by constructor). unfold sat_add. f_equal. lia.
  - rewrite decide_False; [done|]. by intros [_ ?]%Forall_cons.
Qed.

Lemma extensions_fit_spec exts : extensions_fit exts = true ↔
  bodies_fit exts ∧ zlen (ext_bytes exts) ≤ 0xFFFF.
Proof.
  unfold extensions_fit. rewrite extensions_total_spec by lia.
  destruct (decide _) as [Hall|]; [|naive_solver]. rewrite Z.leb_le. split; [|lia].
  intros ?. split; [done|lia].
Qed.

Lemma len_prefixed_ok max h b : zlen b ≤ max → len_prefixed max h (Some b) = Some (h (zlen b) ++ b).
Proof. intros. unfold len_prefixed. simpl. by rewrite (proj2 (Z.ltb_ge _ _)). Qed.

Lemma len_prefixed_over max h b : max < zlen b → len_prefixed max h (Some b) = None.
Proof. intros. unfold len_prefixed. simpl. by rewrite (proj2 (Z.ltb_lt _ _)). Qed.

Lemma appends_entry e : Appends (let '(ty, data) := e in
    put_u16 ty ⊳ with_len_u16 (extend_from_slice data))
  (if 0xFFFF <? zlen e.2 then None else Some (ext_entry e)).
Proof.
  destruct e as [ty d]. intros out. simpl snd.
  rewrite (appends (f := put_u16 ty ⊳ with_len_u16 (extend_from_slice d)) out).
  destruct (Z.ltb_spec 0xFFFF (zlen d)).
  - by rewrite len_prefixed_over.
  - rewrite len_prefixed_ok by done. unfold ext_entry. pose proof (zlen_nonneg d).
    by rewrite wrap_small by (unfold in_width; lia).
Qed.

#[global] Instance appends_encode_extensions exts : Appends (encode_extensions exts)
  (if extensions_fit exts then Some (ext_block exts) else None).
Proof.
  intros out. unfold encode_extensions.
  assert (oconcat (λ e : RawExtension, if 0xFFFF <? zlen e.2 then None else Some (ext_entry e)) exts =
    if decide (bodies_fit exts) then Some (ext_bytes exts) else None) as Hc.
  { induction exts as [|e exts IH]; [done|]. cbn [oconcat]. rewrite IH, ext_bytes_cons.
    destruct (Z.ltb_spec 0xFFFF (zlen e.2)) as [Hgt|Hle]; simpl.
    - rewrite decide_False; [done|]. intros [He _]%Forall_cons. simpl in He. lia.
    - destruct (decide (bodies_fit exts)).
      + by rewrite decide_True by (by constructor).
      + rewrite decide_False; [done|]. by intros [_ ?]%Forall_cons. }
  transitivity (app out <$> len_prefixed 0xFFFF (λ n, be_bytes 2 (as_u16 n))
    (if decide (bodies_fit exts) then Some (ext_bytes exts) else None)).
  { rewrite <- Hc. exact (appends_with_len_u16 _ _ (appends_for _ _ exts appends_entry) out). }
  pose proof (extensions_fit_spec exts) as Hfit. pose proof (zlen_nonneg (ext_bytes exts)).
  destruct (decide (bodies_fit exts)) as [Hall|Hall], (extensions_fit exts); try done.
  - rewrite len_prefixed_ok by tauto. unfold ext_block.
    by rewrite wrap_small by (unfold in_width; destruct Hfit; lia || tauto).
  - rewrite len_prefixed_over; [done|]. destruct (Z.le_gt_cases (zlen (ext_bytes exts)) 0xFFFF); [|done].
    naive_solver.
  - naive_solver.
Qed.

(** * Messages *)

(** A handshake message: type, 24-bit length, body. *)
Definition message (t : Z) (body : bytes) : bytes := t :: be_bytes 3 (zlen body) ++ body.

Lemma message_inj t b b' : message t b = message t b' → b = b'.
Proof. intros H. exact (f_equal (drop 4) H). Qed.

Lemma read_handshake_message t body rest : zlen body < 2 ^ 24 →
  read_handshake (message t body ++ rest) = Ok ((t, body), rest).
Proof.
  intros Hl. pose proof (zlen_nonneg body). unfold read_handshake, message.
  cbn [app]. rewrite rd_u8_cons. cbn [mbind result_bind].
  unfold rd_vec_u24. rewrite <- app_assoc, rd_u24_bytes by (apply be_bytes_ok || done).
  cbn [mbind result_bind]. rewrite (be_value_be_bytes_small 3) by (unfold in_width; simpl; lia).
  by rewrite rd_take_app.
Qed.

Definition suites_bytes (cs : list Z) : bytes := concat (be_bytes 2 <$> cs).

Lemma zlen_suites_bytes cs : zlen (suites_bytes cs) = 2 * zlen cs.
Proof.
  induction cs as [|c cs IH]; [done|]. change (suites_bytes (c :: cs)) with (be_bytes 2 c ++ suites_bytes cs).
  rewrite zlen_app, IH, zlen_be_bytes. unfold zlen. cbn [length]. lia.
Qed.

#[global] Instance appends_suites cs : Appends (wfor put_u16 cs) (Some (suites_bytes cs)).
Proof.
  intros out. rewrite (appends_for put_u16 (λ v, Some (be_bytes 2 v)) cs _ out). f_equal.
  induction cs as [|c cs IH]; [done|]. cbn [oconcat]. by rewrite IH.
Qed.

Lemma read_cipher_suites_app cs : ∀ fuel acc, Forall u16 cs → (length (suites_bytes cs) ≤ fuel)%nat →
  read_cipher_suites fuel (suites_bytes cs) acc = Ok (acc ++ cs).
Proof.
  induction cs as [|c cs IH]; intros fuel acc Hcs Hf.
  { destruct fuel; simpl; by rewrite app_nil_r. }
  apply Forall_cons in Hcs as [Hc Hcs].
  change (suites_bytes (c :: cs)) with (be_bytes 2 c ++ suites_bytes cs) in *.
  rewrite length_app, length_be_bytes in Hf. destruct fuel as [|fuel]; [lia|].
  cbn [read_cipher_suites]. change (rd_is_empty (be_bytes 2 c ++ _)) with false. cbv iota.
  rewrite rd_u16_app by done. cbn [mbind result_bind]. rewrite IH by (done || lia).
  by rewrite <- app_assoc.
Qed.

Lemma u24_header n : 0 ≤ n < 2 ^ 24 → zdrop 1 (be_bytes 4 (as_u32 n)) = be_bytes 3 n.
Proof. intros. by rewrite wrap_small by (unfold in_width; lia). Qed.

Lemma encode_message t f ob body : Appends f ob → ob = Some body → zlen body < 2 ^ 24 →
  (put_u8 t ⊳ with_len_u24 f) [] = Some (message t body).
Proof.
  intros Hf -> Hl. rewrite (appends (f := put_u8 t ⊳ with_len_u24 f) []).
  rewrite len_prefixed_ok by lia. pose proof (zlen_nonneg body).
  by rewrite u24_header by lia.
Qed.

(** Evaluates what an encoder appends, given that the blocks fit. *)
Ltac encode_bytes :=
  repeat (rewrite len_prefixed_ok by (lia || done);
          cbn [oapp mbind option_bind fmap option_fmap option_map]);
  rewrite ?wrap_small by (unfold in_width; lia); cbn [app]; rewrite <- ?app_assoc; cbn [app].

Section client_hello.
Context (ch : ClientHello).

Definition ch_head : bytes :=
  be_bytes 2 (ch_legacy_version ch) ++ ch_random ch ++ zlen (ch_session_id ch) :: ch_session_id ch.
Definition ch_tail : bytes :=
  be_bytes 2 (zlen (suites_bytes (ch_cipher_suites ch))) ++ suites_bytes (ch_cipher_suites ch)
  ++ [1; 0] ++ ext_block (ch_extensions ch).

(** Every field fits its wire prefix. *)
Definition ch_fits : Prop :=
  zlen (ch_random ch) = 32 ∧ zlen (ch_session_id ch) ≤ 0xFF
  ∧ zlen (ch_cipher_suites ch) ≤ 0x7FFF ∧ extensions_fit (ch_extensions ch) = true.

(** The fields a decoder can return. *)
Definition ch_wf : Prop :=
  u16 (ch_legacy_version ch) ∧ zlen (ch_random ch) = 32 ∧ zlen (ch_session_id ch) ≤ 32
  ∧ Forall u16 (ch_cipher_suites ch) ∧ zlen (ch_cipher_suites ch) ≤ 0x7FFF
  ∧ exts_ok (ch_extensions ch) ∧ zlen (ext_bytes (ch_extensions ch)) ≤ 0xFFFF.

Lemma ch_wf_fits : ch_wf → ch_fits.
Proof.
  intros (? & ? & ? & ? & ? & (Hok & _) & ?). split_and!; [done|lia|done|].
  apply extensions_fit_spec. split; [|done]. eapply Forall_impl; [exact Hok|]. by intros e [_ ?].
Qed.

Lemma zlen_ext_block exts : extensions_fit exts = true → zlen (ext_block exts) ≤ 2 + 0xFFFF.
Proof.
  intros [_ H]%extensions_fit_spec. unfold ext_block. rewrite zlen_app, zlen_be_bytes. lia.
Qed.

Lemma zlen_ch_head : ch_fits → zlen ch_head = 35 + zlen (ch_session_id ch).
Proof.
  intros (Hr & _). unfold ch_head. rewrite !zlen_app, zlen_be_bytes, Hr. unfold zlen. cbn [length]. lia.
Qed.

Lemma zlen_ch_tail : ch_fits → zlen ch_tail ≤ 131077.
Proof.
  intros (_ & _ & Hc & He). unfold ch_tail. apply zlen_ext_block in He.
  rewrite !zlen_app, zlen_be_bytes, zlen_suites_bytes. unfold zlen in *. cbn [length]. lia.
Qed.

Lemma client_hello_encode_fits : ch_fits → client_hello_encode ch = Some (message 1 (ch_head ++ ch_tail)).
Proof.
  intros Hfits. pose proof (zlen_ch_head Hfits) as Hh. pose proof (zlen_ch_tail Hfits) as Ht.
  destruct Hfits as (Hr & Hs & Hc & He). pose proof (zlen_nonneg (ch_session_id ch)).
  pose proof (zlen_nonneg (ch_cipher_suites ch)). pose proof (zlen_suites_bytes (ch_cipher_suites ch)).
  unfold client_hello_encode. eapply encode_message; [apply _| |rewrite zlen_app; lia].
  rewrite He. encode_bytes. unfold ch_head, ch_tail. by rewrite <- !app_assoc.
Qed.

(** Any field that does not fit makes [encode] panic. *)
Lemma client_hello_encode_panics :
  0xFF < zlen (ch_session_id ch) ∨ 0x7FFF < zlen (ch_cipher_suites ch)
    ∨ extensions_fit (ch_extensions ch) = false →
  client_hello_encode ch = None.
Proof.
  intros H. unfold client_hello_encode.
  match goal with |- ?f [] = _ => rewrite (appends (f := f) []) end.
  pose proof (zlen_suites_bytes (ch_cipher_suites ch)). unfold len_prefixed.
  cbn [mbind option_bind oapp fmap option_fmap option_map].
  destruct (Z.ltb_spec 0xFF (zlen (ch_session_id ch))) as [Hs|Hs]; [done|].
  destruct (Z.ltb_spec 0xFFFF (zlen (suites_bytes (ch_cipher_suites ch)))) as [Hc|Hc]; [done|].
  destruct (extensions_fit (ch_extensions ch)); [|done]. exfalso. destruct H as [|[|]]; lia || done.
Qed.

Lemma client_hello_encode_dtls_fits cookie : ch_fits → zlen cookie ≤ 0xFF →
  client_hello_encode_dtls ch cookie = Some (message 1 (ch_head ++ zlen cookie :: cookie ++ ch_tail)).
Proof.
  intros Hfits Hck. pose proof (zlen_ch_head Hfits) as Hh. pose proof (zlen_ch_tail Hfits) as Ht.
  destruct Hfits as (Hr & Hs & Hc & He). pose proof (zlen_nonneg (ch_session_id ch)).
  pose proof (zlen_nonneg cookie).
  pose proof (zlen_nonneg (ch_cipher_suites ch)). pose proof (zlen_suites_bytes (ch_cipher_suites ch)).
  unfold client_hello_encode_dtls. eapply encode_message; [apply _| |].
  - rewrite He. encode_bytes. unfold ch_head, ch_tail. by rewrite <- !app_assoc.
  - rewrite zlen_app. unfold zlen in *. cbn [length]. rewrite length_app. lia.
Qed.

Lemma read_ch_head rest {A} (k : Z → bytes → bytes → bytes → tls_result A) : ch_wf →
  ('(v, c) ← rd_u16 (ch_head ++ rest);
   '(random, c) ← read_random c;
   '(sid, c) ← read_session_id c;
   k v random sid c) = k (ch_legacy_version ch) (ch_random ch) (ch_session_id ch) rest.
Proof.
  intros (Hv & Hr & Hs & _). unfold ch_head. rewrite <- !app_assoc, rd_u16_app by done.
  cbn [mbind result_bind]. unfold read_random. rewrite rd_take_app by done. cbn [mbind result_bind].
  unfold read_session_id. cbn [app]. rewrite rd_vec_u8_app by lia. cbn [mbind result_bind].
  by rewrite (proj2 (Z.ltb_ge _ _)).
Qed.
End client_hello.

#[global] Instance entry_ok_dec e : Decision (entry_ok e).
Proof. unfold entry_ok. apply _. Defined.
#[global] Instance exts_ok_dec exts : Decision (exts_ok exts).
Proof. unfold exts_ok. apply _. Defined.
#[global] Instance ch_wf_dec ch : Decision (ch_wf ch).
Proof. unfold ch_wf. apply _. Defined.

Lemma rd_vec_u16_block exts rest : zlen (ext_bytes exts) ≤ 0xFFFF →
  rd_vec_u16 (ext_block exts ++ rest) = Ok (ext_bytes exts, rest).
Proof. intros. unfold ext_block. rewrite <- app_assoc. by apply rd_vec_u16_app. Qed.

Lemma rd_vec_u16_block_end exts : zlen (ext_bytes exts) ≤ 0xFFFF →
  rd_vec_u16 (ext_block exts) = Ok (ext_bytes exts, []).
Proof. intros. rewrite <- (app_nil_r (ext_block exts)). by apply rd_vec_u16_block. Qed.

Lemma rd_compression r : rd_vec_u8 (1 :: 0 :: r) = Ok ([0], r).
Proof. by apply (rd_vec_u8_app [0] r). Qed.

(** ** ServerHello *)

Section server_hello.
Context (sh : ServerHello) (v : Z).

Definition sh_body : bytes :=
  be_bytes 2 v ++ sh_random sh ++ zlen (sh_session_id sh) :: sh_session_id sh
  ++ be_bytes 2 (sh_cipher_suite sh) ++ 0 :: ext_block (sh_extensions sh).

Definition sh_wf : Prop :=
  zlen (sh_random sh) = 32 ∧ zlen (sh_session_id sh) ≤ 32 ∧ u16 (sh_cipher_suite sh)
  ∧ exts_ok (sh_extensions sh) ∧ zlen (ext_bytes (sh_extensions sh)) ≤ 0xFFFF.

#[global] Instance sh_wf_dec : Decision sh_wf.
Proof. unfold sh_wf. apply _. Defined.

Lemma sh_encode_fits : sh_wf → encode_with_legacy_version sh v = Some (message 2 sh_body).
Proof.
  intros (Hr & Hs & Hc & (Hok & _) & He). pose proof (zlen_nonneg (sh_session_id sh)).
  assert (extensions_fit (sh_extensions sh) = true) as Hf.
  { apply extensions_fit_spec. split; [|done]. eapply Forall_impl; [exact Hok|]. by intros e [_ ?]. }
  pose proof (zlen_ext_block _ Hf).
  unfold encode_with_legacy_version. eapply encode_message; [apply _| |].
  - rewrite Hf. encode_bytes. done.
  - unfold sh_body. rewrite !zlen_app, zlen_be_bytes. unfold zlen in *. cbn [length].
    rewrite !length_app, length_be_bytes. cbn [length]. lia.
Qed.

Lemma sh_decode_body : sh_wf → u16 v → decode_expecting sh_body v = Ok sh.
Proof.
  intros (Hr & Hs & Hc & Hok & He) Hv. unfold decode_expecting, sh_body.
  rewrite rd_u16_app by done. cbn [mbind result_bind]. rewrite Z.eqb_refl. cbn [negb].
  unfold read_random. rewrite rd_take_app by done. cbn [mbind result_bind].
  unfold read_session_id. rewrite rd_vec_u8_app by lia. cbn [mbind result_bind].
  rewrite (proj2 (Z.ltb_ge _ _)) by done. cbn [mbind result_bind].
  rewrite rd_u16_app by done. cbn [mbind result_bind]. rewrite rd_u8_cons. cbn [mbind result_bind Z.eqb negb].
  rewrite rd_vec_u16_block_end by done. cbn [mbind result_bind].
  rewrite parse_extensions_ext_bytes by done. by destruct sh.
Qed.

Lemma sh_decode_canonical body : bytes_ok body → decode_expecting body v = Ok sh →
  body = sh_body ∧ sh_wf.
Proof.
  intros Hb Hd. unfold decode_expecting in Hd.
  apply bind_Ok_inv in Hd as ([v' c1] & [-> Hv]%rd_u16_inv & Hd); [|done].
  destruct (Z.eqb_spec v' v) as [->|]; [cbn [negb] in Hd|done]. apply Forall_app in Hb as [_ Hb].
  apply bind_Ok_inv in Hd as ([rnd c2] & [-> Hrnd]%rd_take_inv & Hd); [|lia].
  apply Forall_app in Hb as [_ Hb].
  apply bind_Ok_inv in Hd as ([sid c3] & Hsid & Hd).
  apply bind_Ok_inv in Hsid as ([sid' c3'] & [-> _]%rd_vec_u8_inv & Hsid); [|done].
  destruct (Z.ltb_spec 32 (zlen sid')) as [|Hs]; [done|]. injection Hsid as -> ->.
  rewrite Forall_cons, Forall_app in Hb. destruct Hb as (_ & _ & Hb).
  apply bind_Ok_inv in Hd as ([cs c4] & [-> Hcs]%rd_u16_inv & Hd); [|done].
  apply Forall_app in Hb as [_ Hb].
  apply bind_Ok_inv in Hd as ([comp c5] & ->%rd_u8_inv & Hd).
  apply Forall_cons in Hb as [_ Hb].
  destruct (Z.eqb_spec comp 0) as [->|]; [cbn [negb] in Hd|done].
  apply bind_Ok_inv in Hd as ([ext c6] & [-> Hext]%rd_vec_u16_inv & Hd); [|done].
  rewrite !Forall_app in Hb. destruct Hb as (_ & Hb & _).
  apply bind_Ok_inv in Hd as (exts & [-> Hok]%parse_extensions_bijective & Hd); [|done].
  apply bind_Ok_inv in Hd as ([] & He & Hd). destruct c6; [|done]. injection Hd as Hsh.
  unfold sh_body, sh_wf. rewrite <- Hsh. cbn. by rewrite app_nil_r.
Qed.
End server_hello.

(** * Claims *)

(** A ClientHello that fits survives the wire.  For every hello whose fields are in
    range, [try_encode] returns a message that [read_handshake] splits off whatever
    follows it and whose body [decode] maps back to the same hello; the compression list
    sent is exactly the null method. *)
Theorem client_hello_roundtrip : ∀ ch, ch_wf ch →
  ∃ msg body, client_hello_try_encode ch = Some (Ok msg)
    ∧ (∀ rest, read_handshake (msg ++ rest) = Ok ((HsType.CLIENT_HELLO, body), rest))
    ∧ client_hello_decode body = Ok ch
    ∧ legacy_compression_methods body = Ok [0].
Proof.
  intros ch Hwf. pose proof (ch_wf_fits ch Hwf) as Hfits. pose proof Hfits as (_ & Hs & Hc & He).
  pose proof (zlen_ch_head ch Hfits) as Hh. pose proof (zlen_ch_tail ch Hfits) as Ht.
  pose proof Hwf as (Hv & Hr & Hs32 & Hcs & _ & Hok & Hel).
  pose proof (zlen_suites_bytes (ch_cipher_suites ch)) as Hsl.
  exists (message 1 (ch_head ch ++ ch_tail ch)), (ch_head ch ++ ch_tail ch). split_and!.
  - unfold client_hello_try_encode. rewrite client_hello_encode_fits by done.
    rewrite (proj2 (Z.ltb_ge 0xFF _)), (proj2 (Z.ltb_ge (0xFFFF / 2) _)), He by done. done.
  - intros rest. apply read_handshake_message. rewrite zlen_app. lia.
  - unfold client_hello_decode. rewrite read_ch_head by done. unfold ch_tail.
    rewrite rd_vec_u16_app by lia. cbn [mbind result_bind].
    rewrite read_cipher_suites_app by done. cbn [mbind result_bind app].
    rewrite rd_compression.
    cbn [mbind result_bind]. change (rd_is_empty (ext_block _)) with false. cbv iota.
    rewrite rd_vec_u16_block_end by done. cbn [mbind result_bind].
    rewrite parse_extensions_ext_bytes by done. by destruct ch.
  - unfold legacy_compression_methods, ch_head, ch_tail. rewrite <- !app_assoc, rd_u16_app by done.
    cbn [mbind result_bind]. unfold read_random. rewrite rd_take_app by done. cbn [mbind result_bind app].
    rewrite rd_vec_u8_app by lia. cbn [mbind result_bind]. rewrite rd_vec_u16_app by lia.
    cbn [mbind result_bind].
    by rewrite rd_compression.
Qed.

Lemma client_hello_roundtrip_witness :
  ch_wf (mkClientHello 0x0303 HRR_RANDOM [1; 2] [0x1301; 0x1302] [(0x002b, [2; 3; 4]); (0x0033, [])])
  ∧ ∃ msg, client_hello_try_encode (mkClientHello 0x0303 HRR_RANDOM [1; 2] [0x1301; 0x1302]
      [(0x002b, [2; 3; 4]); (0x0033, [])]) = Some (Ok msg).
Proof.
  assert (ch_wf (mkClientHello 0x0303 HRR_RANDOM [1; 2] [0x1301; 0x1302]
    [(0x002b, [2; 3; 4]); (0x0033, [])])) as H
    by (apply (bool_decide_unpack _); vm_compute; exact I).
  split; [exact H|]. destruct (client_hello_roundtrip _ H) as (msg & body & Hm & _).
  exists msg. exact Hm.
Defined.

(** [try_encode] never panics and never refuses more than it must.  Whatever the
    session identifier, the suites and the extensions (the random being 32 bytes):
    either every field fits its length prefix, and [try_encode] returns the bytes of
    [encode]; or one does not, [encode] would trip an assertion, and [try_encode]
    returns [HandshakeFailure]. *)
Theorem client_hello_try_encode_total : ∀ ch, zlen (ch_random ch) = 32 →
  (ch_fits ch ∧ ∃ msg, client_hello_encode ch = Some msg
     ∧ client_hello_try_encode ch = Some (Ok msg))
  ∨ (¬ ch_fits ch ∧ client_hello_encode ch = None
     ∧ client_hello_try_encode ch = Some (Err Error.HandshakeFailure)).
Proof.
  intros ch Hr. unfold client_hello_try_encode.
  destruct (Z.ltb_spec 0xFF (zlen (ch_session_id ch))) as [Hs|Hs];
    [right|destruct (Z.ltb_spec (0xFFFF / 2) (zlen (ch_cipher_suites ch))) as [Hc|Hc];
      [right|destruct (extensions_fit (ch_extensions ch)) eqn:He; [left|right]]].
  2: change (0xFFFF / 2) with 32767 in Hc.
  all: try (split; [unfold ch_fits; intros (_ & ? & ? & ?); lia || congruence|]; split; [|done]).
  1,2,4: by apply client_hello_encode_panics; auto.
  assert (ch_fits ch) as Hf by done. split; [done|].
  rewrite client_hello_encode_fits by done. by eexists.
Qed.

Lemma client_hello_try_encode_total_witness :
  zlen HRR_RANDOM = 32 ∧ ¬ ch_fits (mkClientHello 0x0303 HRR_RANDOM (replicate 256 0) [] []).
Proof.
  split; [reflexivity|].
  destruct (client_hello_try_encode_total
    (mkClientHello 0x0303 HRR_RANDOM (replicate 256 0) [] [])) as [[_ (msg & Hm & _)]|[H _]];
    [reflexivity|vm_compute in Hm; discriminate Hm|exact H].
Defined.

(** the DTLS ClientHello, with its cookie field, survives the wire. *)
Theorem client_hello_dtls_roundtrip : ∀ ch cookie, ch_wf ch → zlen cookie ≤ 0xFF →
  ∃ msg body, client_hello_encode_dtls ch cookie = Some msg
    ∧ (∀ rest, read_handshake (msg ++ rest) = Ok ((HsType.CLIENT_HELLO, body), rest))
    ∧ client_hello_decode_dtls body = Ok (ch, cookie).
Proof.
  intros ch cookie Hwf Hck. pose proof (ch_wf_fits ch Hwf) as Hfits.
  pose proof (zlen_ch_head ch Hfits) as Hh. pose proof (zlen_ch_tail ch Hfits) as Ht.
  pose proof Hwf as (Hv & Hr & Hs32 & Hcs & Hcl & Hok & Hel).
  pose proof (zlen_suites_bytes (ch_cipher_suites ch)) as Hsl. pose proof (zlen_nonneg cookie).
  eexists _, _. split; [by apply client_hello_encode_dtls_fits|]. split.
  - intros rest. apply read_handshake_message. rewrite zlen_app. unfold zlen in *. cbn [length].
    rewrite length_app. lia.
  - unfold client_hello_decode_dtls. rewrite read_ch_head by done.
    rewrite rd_vec_u8_app by lia. cbn [mbind result_bind]. unfold ch_tail.
    rewrite rd_vec_u16_app by lia. cbn [mbind result_bind].
    rewrite Hsl, (Z.mul_comm 2), Z_mod_mult. cbn [Z.eqb negb].
    rewrite read_cipher_suites_app by done. cbn [mbind result_bind app].
    rewrite rd_compression.
    cbn [mbind result_bind existsb Z.eqb orb negb].
    rewrite rd_vec_u16_block_end by done. cbn [mbind result_bind].
    rewrite parse_extensions_ext_bytes by done. by destruct ch.
Qed.

Lemma client_hello_dtls_roundtrip_witness :
  ∃ msg, client_hello_encode_dtls (mkClientHello 0xfefd HRR_RANDOM [] [0x1301] [(0x002b, [2])]) [9; 9]
    = Some msg.
Proof.
  destruct (client_hello_dtls_roundtrip
    (mkClientHello 0xfefd HRR_RANDOM [] [0x1301] [(0x002b, [2])]) [9; 9]) as (msg & body & Hm & _).
  - apply (bool_decide_unpack _). vm_compute. exact I.
  - vm_compute. discriminate.
  - exists msg. exact Hm.
Defined.

(** C26: a ServerHello has one encoding.  For a 16-bit expected version, [decode] accepts a
    body and returns a hello exactly when the hello's fields are in range and the body
    is what [encode] produces for it.  Trailing bytes, a wrong version, a non-null
    compression method, a repeated extension and an over-long session identifier are
    therefore all refused. *)
Theorem server_hello_bijective : ∀ body sh v, bytes_ok body → u16 v → zlen body < 2 ^ 24 →
  decode_expecting body v = Ok sh ↔
  sh_wf sh ∧ encode_with_legacy_version sh v = Some (message HsType.SERVER_HELLO body).
Proof.
  intros body sh v Hb Hv Hl. split.
  - intros Hd. apply sh_decode_canonical in Hd as [-> Hwf]; [|done]. split; [done|].
    by apply sh_encode_fits.
  - intros [Hwf He]. rewrite sh_encode_fits in He by done. 
    apply Some_inj, message_inj in He as <-. by apply sh_decode_body.
Qed.

Lemma server_hello_bijective_witness :
  decode_expecting (sh_body (mkServerHello HRR_RANDOM [7] 0x1301 [(0x002b, [3; 4])]) 0x0303) 0x0303
  = Ok (mkServerHello HRR_RANDOM [7] 0x1301 [(0x002b, [3; 4])]).
Proof.
  apply server_hello_bijective.
  - apply (bool_decide_unpack _). vm_compute. exact I.
  - split; vm_compute; congruence.
  - vm_compute. reflexivity.
  - split; [apply (bool_decide_unpack _); vm_compute; exact I|vm_compute; reflexivity].
Defined.

(** Post-handshake messages.  A NewSessionTicket in range survives the wire; a
    KeyUpdate does, and its decoder accepts the two one-byte bodies only. *)
Theorem post_handshake_roundtrip :
  (∀ t, u32 (ticket_lifetime t) → u32 (ticket_age_add t) → zlen (ticket_nonce t) ≤ 0xFF →
    1 ≤ zlen (ticket t) ≤ 0xFFFF → exts_ok (nst_extensions t) →
    zlen (ext_bytes (nst_extensions t)) ≤ 0xFFFF →
    ∃ body, new_session_ticket_encode t = Some (message HsType.NEW_SESSION_TICKET body)
      ∧ new_session_ticket_decode body = Ok t)
  ∧ (∀ k body, key_update_decode body = Ok k ↔
       key_update_encode k = Some (message HsType.KEY_UPDATE body)).
Proof.
  split.
  - intros t Hl Ha Hn Ht Hok He. pose proof (zlen_nonneg (ticket_nonce t)).
    assert (extensions_fit (nst_extensions t) = true) as Hf.
    { apply extensions_fit_spec. split; [|done]. destruct Hok as [Hok _].
      eapply Forall_impl; [exact Hok|]. by intros e [_ ?]. }
    pose proof (zlen_ext_block _ Hf).
    exists (be_bytes 4 (ticket_lifetime t) ++ be_bytes 4 (ticket_age_add t)
      ++ zlen (ticket_nonce t) :: ticket_nonce t ++ be_bytes 2 (zlen (ticket t)) ++ ticket t
      ++ ext_block (nst_extensions t)). split.
    + unfold new_session_ticket_encode. eapply encode_message; [apply _| |].
      * rewrite Hf. encode_bytes. done.
      * rewrite !zlen_app, !zlen_be_bytes. unfold zlen in *. cbn [length].
        rewrite !length_app, !length_be_bytes. lia.
    + unfold new_session_ticket_decode. rewrite rd_u32_app by done. cbn [mbind result_bind].
      rewrite rd_u32_app by done. cbn [mbind result_bind]. rewrite rd_vec_u8_app by done.
      cbn [mbind result_bind]. rewrite rd_vec_u16_app by lia. cbn [mbind result_bind].
      rewrite rd_vec_u16_block_end by done. cbn [mbind result_bind].
      rewrite parse_extensions_ext_bytes by done. cbn [mbind result_bind rd_expect_empty rd_is_empty].
      destruct t as [? ? ? tk ?]. destruct tk; [unfold zlen in Ht; simpl in Ht; lia|done].
  - intros [b] body. unfold key_update_encode, request_update.
    rewrite (encode_message HsType.KEY_UPDATE (put_u8 (if b then 1 else 0)) _
      [if b then 1 else 0] _ eq_refl ltac:(done)). split.
    + unfold key_update_decode. destruct body as [|v body]; [done|]. rewrite rd_u8_cons.
      cbn [mbind result_bind]. destruct body; [|by destruct v as [|[]|]].
      destruct v as [|[]|]; intros [= <-]; done.
    + intros <-%Some_inj%message_inj. by destruct b.
Qed.

Lemma post_handshake_roundtrip_witness :
  ∃ body, new_session_ticket_decode body = Ok (mkNewSessionTicket 3600 7 [0] [1; 2] []).
Proof.
  destruct post_handshake_roundtrip as [H _].
  destruct (H (mkNewSessionTicket 3600 7 [0] [1; 2] [])) as (body & _ & Hb).
  - split; vm_compute; congruence.
  - split; vm_compute; congruence.
  - vm_compute. discriminate.
  - split; vm_compute; congruence.
  - apply (bool_decide_unpack _). vm_compute. exact I.
  - vm_compute. discriminate.
  - exists body. exact Hb.
Defined.
