(* ===== verification/Frame.v ===== *)
(** QUIC frames ([src/quic/frame.rs]): the decoder, the encoder, and the iterators over
    a packet payload and over the range list of an ACK.  [decode] is one definition per
    arm of the source's [match], each reading the bytes after the type byte and
    returning the frame with the bytes left; [frame_decode] turns that into the count of
    bytes consumed.  [usize] has 64 bits. *)

From S2P Require Import Prelude TlsBase Varint Pn Ack Codec.

Open Scope writer_scope.

Definition MAX_STREAMS_LIMIT : Z := Z.shiftl 1 60.

Module StreamDir.
Inductive stream_dir := Bidi | Uni.
#[global] Instance stream_dir_eq_dec : EqDecision stream_dir.
Proof. solve_decision. Defined.
End StreamDir.

Record EcnCounts := mkEcnCounts { ect0 : Z; ect1 : Z; ce : Z }.

Module Frame.
Inductive frame :=
| Padding (n : Z)
| Ping
| Ack (largest ack_delay : Z) (ranges_raw : bytes) (first_range : Z) (ecn : option EcnCounts)
| ResetStream (id code final_size : Z)
| StopSending (id code : Z)
| Crypto (offset : Z) (data : bytes)
| NewToken (token : bytes)
| Stream (id offset : Z) (fin : bool) (data : bytes)
| MaxData (v : Z)
| MaxStreamData (id limit : Z)
| MaxStreams (dir : StreamDir.stream_dir) (limit : Z)
| DataBlocked (v : Z)
| StreamDataBlocked (id limit : Z)
| StreamsBlocked (dir : StreamDir.stream_dir) (limit : Z)
| NewConnectionId (seq retire_prior_to : Z) (cid reset_token : bytes)
| RetireConnectionId (seq : Z)
| PathChallenge (data : bytes)
| PathResponse (data : bytes)
| ConnectionClose (error : Z) (frame_type : option Z) (reason : bytes)
| HandshakeDone
| Datagram (data : bytes).
End Frame.

(** * Decoding *)

Abbreviation arm := (tls_result (Frame.frame * bytes)).

(** [&buf[p..p + n]] and [p += n], for an [n] already checked. *)
Definition split_off (r : bytes) (n : Z) : bytes * bytes := (ztake n r, zdrop n r).

(** [match offset.checked_add(length) { Some(end) if end <= varint::MAX => {} .. }] *)
Definition check_extent (offset length : Z) : tls_result unit :=
  match checked_add 64 offset length with
  | Some end_ => if end_ <=? VARINT_MAX then Ok () else Err Error.Decode
  | None => Err Error.Decode
  end.

(** [while p < buf.len() && buf[p] == 0x00 { p += 1; n += 1 }] *)
Fixpoint count_padding (r : bytes) (n : Z) : Z * bytes :=
  match r with
  | b :: r' => if b =? 0x00 then count_padding r' (n + 1) else (n, r)
  | [] => (n, r)
  end.

Definition decode_padding (r : bytes) : arm :=
  let '(n, r) := count_padding r 1 in Ok (Frame.Padding n, r).

(** [for _ in 0..range_count]; every round consumes at least two bytes, so a count
    larger than the bytes left runs into a decoding error. *)
Fixpoint walk_pairs (fuel : nat) (range_count : Z) (r : bytes) : tls_result bytes :=
  if range_count <=? 0 then Ok r
  else match fuel with
  | O => Err Error.Decode
  | S fuel => '(_, r) ← take_varint r; '(_, r) ← take_varint r; walk_pairs fuel (range_count - 1) r
  end.

Definition decode_ack (t : Z) (r : bytes) : arm :=
  '(largest, r) ← take_varint r;
  '(ack_delay, r) ← take_varint r;
  '(range_count, r) ← take_varint r;
  '(first_range, r) ← take_varint r;
  let raw_start := r in
  r ← walk_pairs (length r) range_count r;
  let ranges_raw := ztake (zlen raw_start - zlen r) raw_start in
  '(ecn, r) ← (if t =? 0x03 then
                 '(ect0, r) ← take_varint r;
                 '(ect1, r) ← take_varint r;
                 '(ce, r) ← take_varint r;
                 Ok (Some (mkEcnCounts ect0 ect1 ce), r)
               else Ok (None, r));
  Ok (Frame.Ack largest ack_delay ranges_raw first_range ecn, r).

Definition decode_reset_stream (r : bytes) : arm :=
  '(id, r) ← take_varint r; '(code, r) ← take_varint r; '(final_size, r) ← take_varint r;
  Ok (Frame.ResetStream id code final_size, r).

Definition decode_stop_sending (r : bytes) : arm :=
  '(id, r) ← take_varint r; '(code, r) ← take_varint r; Ok (Frame.StopSending id code, r).

Definition decode_crypto (r : bytes) : arm :=
  '(offset, r) ← take_varint r;
  '(length, r) ← take_varint r;
  _ ← check_extent offset length;
  length ← bounded_len 64 length (zlen r);
  let '(data, r) := split_off r length in
  Ok (Frame.Crypto offset data, r).

Definition decode_new_token (r : bytes) : arm :=
  '(length, r) ← take_varint r;
  length ← bounded_len 64 length (zlen r);
  if length =? 0 then Err Error.Decode
  else let '(token, r) := split_off r length in Ok (Frame.NewToken token, r).

Definition decode_stream (t : Z) (r : bytes) : arm :=
  let fin := negb (Z.land t 0x01 =? 0) in
  let has_len := negb (Z.land t 0x02 =? 0) in
  let has_off := negb (Z.land t 0x04 =? 0) in
  '(id, r) ← take_varint r;
  '(offset, r) ← (if has_off then take_varint r else Ok (0, r));
  '(data, r) ← (if has_len then
                  '(length, r) ← take_varint r;
                  _ ← check_extent offset length;
                  length ← bounded_len 64 length (zlen r);
                  Ok (split_off r length)
                else
                  _ ← check_extent offset (zlen r);
                  Ok (r, []));
  Ok (Frame.Stream id offset fin data, r).

Definition decode_max_data (r : bytes) : arm :=
  '(v, r) ← take_varint r; Ok (Frame.MaxData v, r).

Definition decode_max_stream_data (r : bytes) : arm :=
  '(id, r) ← take_varint r; '(limit, r) ← take_varint r; Ok (Frame.MaxStreamData id limit, r).

Definition decode_max_streams (t : Z) (r : bytes) : arm :=
  '(limit, r) ← take_varint r;
  if MAX_STREAMS_LIMIT <? limit then Err Error.Decode
  else Ok (Frame.MaxStreams (if t =? 0x12 then StreamDir.Bidi else StreamDir.Uni) limit, r).

Definition decode_data_blocked (r : bytes) : arm :=
  '(v, r) ← take_varint r; Ok (Frame.DataBlocked v, r).

Definition decode_stream_data_blocked (r : bytes) : arm :=
  '(id, r) ← take_varint r; '(limit, r) ← take_varint r; Ok (Frame.StreamDataBlocked id limit, r).

Definition decode_streams_blocked (t : Z) (r : bytes) : arm :=
  '(limit, r) ← take_varint r;
  if MAX_STREAMS_LIMIT <? limit then Err Error.Decode
  else Ok (Frame.StreamsBlocked (if t =? 0x16 then StreamDir.Bidi else StreamDir.Uni) limit, r).

Definition decode_new_connection_id (r : bytes) : arm :=
  '(seq, r) ← take_varint r;
  '(retire_prior_to, r) ← take_varint r;
  match r with
  | [] => Err Error.Decode
  | cid_len :: r =>
      if (cid_len =? 0) || (20 <? cid_len) then Err Error.Decode
      else if zlen r <? cid_len + 16 then Err Error.Decode
      else
        let '(cid, r) := split_off r cid_len in
        let '(reset_token, r) := split_off r 16 in
        Ok (Frame.NewConnectionId seq retire_prior_to cid reset_token, r)
  end.

Definition decode_retire_connection_id (r : bytes) : arm :=
  '(seq, r) ← take_varint r; Ok (Frame.RetireConnectionId seq, r).

Definition decode_path_challenge (r : bytes) : arm :=
  if zlen r <? 8 then Err Error.Decode
  else let '(data, r) := split_off r 8 in Ok (Frame.PathChallenge data, r).

Definition decode_path_response (r : bytes) : arm :=
  if zlen r <? 8 then Err Error.Decode
  else let '(data, r) := split_off r 8 in Ok (Frame.PathResponse data, r).

Definition decode_connection_close (t : Z) (r : bytes) : arm :=
  '(error, r) ← take_varint r;
  '(frame_type, r) ← (if t =? 0x1C then '(ft, r) ← take_varint r; Ok (Some ft, r) else Ok (None, r));
  '(reason_len, r) ← take_varint r;
  reason_len ← bounded_len 64 reason_len (zlen r);
  let '(reason, r) := split_off r reason_len in
  Ok (Frame.ConnectionClose error frame_type reason, r).

Definition decode_datagram_len (r : bytes) : arm :=
  '(length, r) ← take_varint r;
  length ← bounded_len 64 length (zlen r);
  let '(data, r) := split_off r length in Ok (Frame.Datagram data, r).

(** The [match t]. *)
Definition decode_arm (t : Z) (r : bytes) : arm :=
  match t with
  | 0x00 => decode_padding r
  | 0x01 => Ok (Frame.Ping, r)
  | 0x02 | 0x03 => decode_ack t r
  | 0x04 => decode_reset_stream r
  | 0x05 => decode_stop_sending r
  | 0x06 => decode_crypto r
  | 0x07 => decode_new_token r
  | 0x08 | 0x09 | 0x0A | 0x0B | 0x0C | 0x0D | 0x0E | 0x0F => decode_stream t r
  | 0x10 => decode_max_data r
  | 0x11 => decode_max_stream_data r
  | 0x12 | 0x13 => decode_max_streams t r
  | 0x14 => decode_data_blocked r
  | 0x15 => decode_stream_data_blocked r
  | 0x16 | 0x17 => decode_streams_blocked t r
  | 0x18 => decode_new_connection_id r
  | 0x19 => decode_retire_connection_id r
  | 0x1A => decode_path_challenge r
  | 0x1B => decode_path_response r
  | 0x1C | 0x1D => decode_connection_close t r
  | 0x1E => Ok (Frame.HandshakeDone, r)
  | 0x30 => Ok (Frame.Datagram r, [])
  | 0x31 => decode_datagram_len r
  | _ => Err Error.Decode
  end.

Definition frame_decode (buf : bytes) : tls_result (Frame.frame * Z) :=
  match buf with
  | [] => Err Error.Decode
  | t :: r => '(f, r) ← decode_arm t r; Ok (f, zlen buf - zlen r)
  end.

(** * Encoding *)

Definition put_varint (v : Z) : writer := λ out, Some (varint_encode v out).

(** The pairs of [ranges_raw]; [None] is the failed [expect]. *)
Fixpoint count_pairs (fuel : nat) (raw : bytes) (count : Z) : option Z :=
  match raw with
  | [] => Some count
  | _ => match fuel with
         | O => None
         | S fuel =>
             match take_varint raw with
             | Ok (_, raw) => match take_varint raw with
                              | Ok (_, raw) => count_pairs fuel raw (count + 1)
                              | Err _ => None
                              end
             | Err _ => None
             end
         end
  end.

Definition encode_ack (largest ack_delay : Z) (ranges_raw : bytes) (first_range : Z)
  (ecn : option EcnCounts) : writer :=
  put_u8 (match ecn with Some _ => 0x03 | None => 0x02 end) ⊳
  put_varint largest ⊳
  put_varint ack_delay ⊳
  match count_pairs (length ranges_raw) ranges_raw 0 with
  | Some count => put_varint count
  | None => λ _, None
  end ⊳
  put_varint first_range ⊳
  extend_from_slice ranges_raw ⊳
  match ecn with
  | Some c => put_varint (ect0 c) ⊳ put_varint (ect1 c) ⊳ put_varint (ce c)
  | None => Some
  end.

Definition encode_stream (id offset : Z) (fin : bool) (data : bytes) : writer :=
  let t := 0x08 in
  let t := if negb (offset =? 0) then Z.lor t 0x04 else t in
  let t := Z.lor t 0x02 in
  let t := if fin then Z.lor t 0x01 else t in
  put_u8 t ⊳
  put_varint id ⊳
  (if negb (offset =? 0) then put_varint offset else Some) ⊳
  put_varint (zlen data) ⊳
  extend_from_slice data.

Definition encode_new_connection_id (seq retire_prior_to : Z) (cid reset_token : bytes) : writer :=
  put_u8 0x18 ⊳
  put_varint seq ⊳
  put_varint retire_prior_to ⊳
  (λ out, if zlen cid <=? 20 then Some out else None) ⊳
  put_u8 (as_u8 (zlen cid)) ⊳
  extend_from_slice cid ⊳
  extend_from_slice reset_token.

Definition encode_connection_close (error : Z) (frame_type : option Z) (reason : bytes) : writer :=
  put_u8 (match frame_type with Some _ => 0x1C | None => 0x1D end) ⊳
  put_varint error ⊳
  match frame_type with Some ft => put_varint ft | None => Some end ⊳
  put_varint (zlen reason) ⊳
  extend_from_slice reason.

(** The [match *self]; the larger arms are the definitions above. *)
Definition frame_encode (self : Frame.frame) : writer :=
  match self with
  | Frame.Padding n => extend_from_slice (replicate (Z.to_nat n) 0x00)
  | Frame.Ping => put_u8 0x01
  | Frame.Ack largest ack_delay ranges_raw first_range ecn =>
      encode_ack largest ack_delay ranges_raw first_range ecn
  | Frame.ResetStream id code final_size =>
      put_u8 0x04 ⊳ put_varint id ⊳ put_varint code ⊳ put_varint final_size
  | Frame.StopSending id code => put_u8 0x05 ⊳ put_varint id ⊳ put_varint code
  | Frame.Crypto offset data =>
      put_u8 0x06 ⊳ put_varint offset ⊳ put_varint (zlen data) ⊳ extend_from_slice data
  | Frame.NewToken token => put_u8 0x07 ⊳ put_varint (zlen token) ⊳ extend_from_slice token
  | Frame.Stream id offset fin data => encode_stream id offset fin data
  | Frame.MaxData v => put_u8 0x10 ⊳ put_varint v
  | Frame.MaxStreamData id limit => put_u8 0x11 ⊳ put_varint id ⊳ put_varint limit
  | Frame.MaxStreams dir limit =>
      put_u8 (match dir with StreamDir.Bidi => 0x12 | StreamDir.Uni => 0x13 end) ⊳ put_varint limit
  | Frame.DataBlocked v => put_u8 0x14 ⊳ put_varint v
  | Frame.StreamDataBlocked id limit => put_u8 0x15 ⊳ put_varint id ⊳ put_varint limit
  | Frame.StreamsBlocked dir limit =>
      put_u8 (match dir with StreamDir.Bidi => 0x16 | StreamDir.Uni => 0x17 end) ⊳ put_varint limit
  | Frame.NewConnectionId seq retire_prior_to cid reset_token =>
      encode_new_connection_id seq retire_prior_to cid reset_token
  | Frame.RetireConnectionId seq => put_u8 0x19 ⊳ put_varint seq
  | Frame.PathChallenge data => put_u8 0x1A ⊳ extend_from_slice data
  | Frame.PathResponse data => put_u8 0x1B ⊳ extend_from_slice data
  | Frame.ConnectionClose error frame_type reason => encode_connection_close error frame_type reason
  | Frame.HandshakeDone => put_u8 0x1E
  | Frame.Datagram data => put_u8 0x31 ⊳ put_varint (zlen data) ⊳ extend_from_slice data
  end.

(** * Iterators *)

(** [AckRangeIter::next]: the item and the buffer after it. *)
Definition ack_range_next (buf : bytes) : option (tls_result (Z * Z) * bytes) :=
  match buf with
  | [] => None
  | _ => match take_varint buf with
         | Err e => Some (Err e, buf)
         | Ok (gap, buf) =>
             match take_varint buf with
             | Err e => Some (Err e, buf)
             | Ok (range_length, buf) => Some (Ok (gap, range_length), buf)
             end
         end
  end.

(** [FrameIter::next]. *)
Definition frame_iter_next (buf : bytes) : option (tls_result Frame.frame * bytes) :=
  match buf with
  | [] => None
  | _ => match frame_decode buf with
         | Ok (f, n) => Some (Ok f, zdrop n buf)
         | Err e => Some (Err e, [])
         end
  end.

(** [for i in 1..stored.len()]; [wsub] is the [u64] subtraction. *)
Fixpoint ack_ranges_raw_loop (prev_start : Z) (stored : AckRanges) (raw : bytes) : bytes :=
  match stored with
  | [] => raw
  | (cur_start, cur_end) :: stored =>
      let gap := wsub 64 (wsub 64 prev_start cur_end) 2 in
      let range_length := wsub 64 cur_end cur_start in
      ack_ranges_raw_loop cur_start stored (varint_encode range_length (varint_encode gap raw))
  end.

Definition build_ack_ranges_raw (stored : AckRanges) : option (Z * Z * bytes) :=
  match stored with
  | [] => None
  | (start, largest) :: rest =>
      let first_range := wsub 64 largest start in
      Some (largest, first_range, ack_ranges_raw_loop start rest [])
  end.

(** * Well-formed frames *)

Definition vint (v : Z) : Prop := 0 ≤ v ≤ VARINT_MAX.
#[global] Instance vint_dec v : Decision (vint v).
Proof. unfold vint. apply _. Defined.

Definition ecn_ok (c : EcnCounts) : Prop := vint (ect0 c) ∧ vint (ect1 c) ∧ vint (ce c).
#[global] Instance ecn_ok_dec c : Decision (ecn_ok c).
Proof. unfold ecn_ok. apply _. Defined.

(** The limits of RFC 9000 section 19. *)
Definition frame_wf (f : Frame.frame) : Prop :=
  match f with
  | Frame.Padding n => 1 ≤ n
  | Frame.Ping | Frame.HandshakeDone => True
  | Frame.Ack largest ack_delay raw first_range ecn =>
      vint largest ∧ vint ack_delay ∧ vint first_range ∧ bytes_ok raw ∧ vint (zlen raw)
      ∧ is_Some (count_pairs (length raw) raw 0) ∧ from_option ecn_ok True ecn
  | Frame.ResetStream id code final_size => vint id ∧ vint code ∧ vint final_size
  | Frame.StopSending id code => vint id ∧ vint code
  | Frame.Crypto offset data => vint offset ∧ vint (offset + zlen data)
  | Frame.NewToken token => 1 ≤ zlen token ∧ vint (zlen token)
  | Frame.Stream id offset _ data => vint id ∧ vint offset ∧ vint (offset + zlen data)
  | Frame.MaxData v | Frame.DataBlocked v => vint v
  | Frame.MaxStreamData id limit | Frame.StreamDataBlocked id limit => vint id ∧ vint limit
  | Frame.MaxStreams _ limit | Frame.StreamsBlocked _ limit => 0 ≤ limit ≤ MAX_STREAMS_LIMIT
  | Frame.NewConnectionId seq retire_prior_to cid reset_token =>
      vint seq ∧ vint retire_prior_to ∧ 1 ≤ zlen cid ≤ 20 ∧ zlen reset_token = 16
  | Frame.RetireConnectionId seq => vint seq
  | Frame.PathChallenge data | Frame.PathResponse data => zlen data = 8
  | Frame.ConnectionClose error frame_type reason =>
      vint error ∧ from_option vint True frame_type ∧ vint (zlen reason)
  | Frame.Datagram data => vint (zlen data)
  end.

#[global] Instance frame_wf_dec f : Decision (frame_wf f).
Proof.
  destruct f as [| | | | | | | | | | | | | | | | | |? o ?| |]; simpl; try apply _.
  - destruct ecn; simpl; apply _.
  - destruct o; simpl; apply _.
Defined.

(** ** Reading varints off a longer buffer *)

(** A varint that was read is a prefix, read the same before any other bytes. *)
Lemma take_varint_split b v b' : bytes_ok b → take_varint b = Ok (v, b') →
  ∃ h, b = h ++ b' ∧ (0 < length h)%nat ∧ bytes_ok h ∧ vint v
    ∧ ∀ rest, take_varint (h ++ rest) = Ok (v, rest).
Proof.
  intros Hok Ht. pose proof Ht as (Hv & _)%take_varint_inv; [|done].
  unfold take_varint in Ht. destruct b as [|b0 b]; [done|]. cbn [varint_decode] in Ht.
  pose proof Hok as [Hb0 _]%Forall_cons.
  assert (0 ≤ Z.shiftr b0 6) as Ht0 by (apply Z.shiftr_nonneg, Hb0).
  rewrite Z.shiftl_1_l in Ht. set (len := 2 ^ Z.shiftr b0 6) in *. assert (1 ≤ len) as Hlen.
  { unfold len. pose proof (Z.pow_pos_nonneg 2 (Z.shiftr b0 6)). lia. }
  destruct (Z.ltb_spec (zlen (b0 :: b)) len) as [|Hge]; [done|].
  injection Ht as Hv' <-. exists (b0 :: ztake (len - 1) b).
  assert (b0 :: b = (b0 :: ztake (len - 1) b) ++ zdrop len (b0 :: b)) as Hsplit.
  { unfold zdrop, ztake. replace (Z.to_nat len) with (S (Z.to_nat (len - 1))) by lia. simpl.
    by rewrite take_drop. }
  split; [done|]. split; [simpl; lia|].
  rewrite Hsplit in Hok. apply Forall_app in Hok as [Hok _]. split_and!; [done..|].
  intros rest. unfold take_varint. cbn [app varint_decode]. rewrite Z.shiftl_1_l. fold len.
  assert (zlen (ztake (len - 1) b) = len - 1) as Hz
    by (apply zlen_ztake; unfold zlen in *; cbn [length] in *; lia).
  assert (zlen (b0 :: ztake (len - 1) b ++ rest) = len + zlen rest) as Hz'.
  { change (b0 :: ?x) with ([b0] ++ x). rewrite !zlen_app, Hz. unfold zlen. simpl. lia. }
  rewrite Hz', (proj2 (Z.ltb_ge _ _)) by (pose proof (zlen_nonneg rest); lia). cbn [mbind result_bind].
  rewrite <- Hz at 1. rewrite ztake_app, Hv'. unfold mret, result_ret. do 2 f_equal.
  generalize dependent (ztake (len - 1) b). intros l _ _ _ Hz _.
  rewrite app_comm_cons. replace len with (zlen (b0 :: l)); [apply zdrop_app|].
  unfold zlen in *. cbn [length]. lia.
Qed.

Lemma take_varint_app b v b' rest : bytes_ok b → take_varint b = Ok (v, b') →
  take_varint (b ++ rest) = Ok (v, b' ++ rest).
Proof.
  intros Hok (h & -> & _ & _ & _ & Hh)%take_varint_split; [|done]. rewrite <- app_assoc. apply Hh.
Qed.

Lemma count_pairs_ok fuel : ∀ raw c c', bytes_ok raw → (length raw ≤ fuel)%nat →
  count_pairs fuel raw c = Some c' → c ≤ c' ∧ c' ≤ c + zlen raw ∧
  ∀ fuel' rest, (length raw ≤ fuel')%nat → walk_pairs fuel' (c' - c) (raw ++ rest) = Ok rest.
Proof.
  induction fuel as [|fuel IH]; intros raw c c' Hok Hf Hc.
  { destruct raw; [|done]. injection Hc as <-. split_and!; [lia|unfold zlen; simpl; lia|].
    intros. rewrite Z.sub_diag. by destruct fuel'. }
  destruct raw as [|b raw].
  { injection Hc as <-. split_and!; [lia|unfold zlen; simpl; lia|].
    intros. rewrite Z.sub_diag. by destruct fuel'. }
  cbn [count_pairs] in Hc.
  destruct (take_varint (b :: raw)) as [[v1 r1]|] eqn:E1; [|done].
  destruct (take_varint r1) as [[v2 r2]|] eqn:E2; [|done].
  pose proof E1 as (_ & Hok1 & Hl1)%take_varint_inv; [|done].
  pose proof E2 as (_ & Hok2 & Hl2)%take_varint_inv; [|done].
  apply IH in Hc as (Hle & Hz & Hw); [|done|lia]. split_and!; [lia|unfold zlen in *; lia|].
  intros fuel' rest Hf'. destruct fuel' as [|fuel']; [simpl in Hf'; lia|]. cbn [walk_pairs].
  destruct (Z.leb_spec (c' - c) 0); [lia|].
  rewrite (take_varint_app _ _ _ rest Hok E1). cbn [mbind result_bind].
  rewrite (take_varint_app _ _ _ rest Hok1 E2). cbn [mbind result_bind].
  replace (c' - c - 1) with (c' - (c + 1)) by lia. apply Hw. lia.
Qed.

(** The pairs walked are the ones counted. *)
Lemma walk_pairs_ok fuel : ∀ n r r', bytes_ok r → (length r ≤ fuel)%nat → 0 ≤ n →
  walk_pairs fuel n r = Ok r' → ∃ raw, r = raw ++ r' ∧ bytes_ok r' ∧ bytes_ok raw
    ∧ ∀ c fuel', (length raw ≤ fuel')%nat → count_pairs fuel' raw c = Some (c + n).
Proof.
  induction fuel as [|fuel IH]; intros n r r' Hok Hf Hn Hw; cbn [walk_pairs] in Hw;
    destruct (Z.leb_spec n 0) as [Hle|Hgt]; try done.
  1,2: injection Hw as ->; exists []; split_and!; [done..|constructor|];
    intros c [] _; simpl; f_equal; lia.
  apply bind_Ok_inv in Hw as ([v1 r1] & (h1 & -> & Hp1 & Hh1 & _ & H1)%take_varint_split & Hw); [|done].
  apply Forall_app in Hok as [_ Hok].
  apply bind_Ok_inv in Hw as ([v2 r2] & (h2 & -> & Hp2 & Hh2 & _ & H2)%take_varint_split & Hw); [|done].
  apply Forall_app in Hok as [_ Hok]. rewrite !length_app in Hf.
  apply IH in Hw as (raw & -> & Hr' & Hraw & Hcount); [|done|lia..].
  exists (h1 ++ h2 ++ raw). rewrite !Forall_app. split_and!; [by rewrite <- !app_assoc|done..|].
  intros c fuel' Hf'. rewrite !length_app in Hf'. destruct fuel' as [|fuel']; [lia|].
  destruct h1 as [|x h1]; [simpl in Hp1; lia|]. cbn [count_pairs app].
  change (x :: h1 ++ h2 ++ raw) with ((x :: h1) ++ h2 ++ raw). rewrite H1, H2.
  rewrite Hcount by lia. f_equal. lia.
Qed.

(** ** Encoding appends *)

#[global] Typeclasses Opaque put_varint.
#[global] Instance appends_put_varint v : Appends (put_varint v) (Some (varint_encode v [])).
Proof. intros out. unfold put_varint. by rewrite varint_encode_app. Qed.
#[global] Instance appends_nothing : Appends Some (Some []).
Proof. intros out. simpl. by rewrite app_nil_r. Qed.
#[global] Instance appends_ite (c : bool) f g x y :
  Appends f x → Appends g y → Appends (if c then f else g) (if c then x else y).
Proof. by destruct c. Qed.

Lemma appends_eq f x y : Appends f x → x = y → Appends f y.
Proof. by intros ? <-. Qed.

Lemma bounded_len_ok n m : 0 ≤ n ≤ m → n < 2 ^ 64 → bounded_len 64 n m = Ok n.
Proof.
  intros. unfold bounded_len. rewrite (proj2 (Z.ltb_lt _ _)) by lia.
  by rewrite (proj2 (Z.leb_le _ _)) by lia.
Qed.

Lemma bounded_len_inv n m k : bounded_len 64 n m = Ok k → k = n ∧ n ≤ m.
Proof. unfold bounded_len. repeat case_match; naive_solver lia. Qed.

Lemma check_extent_ok o l : vint (o + l) → check_extent o l = Ok ().
Proof.
  unfold vint, check_extent, checked_add. change VARINT_MAX with (2 ^ 62 - 1). intros.
  rewrite (proj2 (Z.ltb_lt _ _)) by lia. by rewrite (proj2 (Z.leb_le _ _)) by lia.
Qed.

Lemma check_extent_inv o l u : 0 ≤ o → 0 ≤ l → check_extent o l = Ok u → vint (o + l).
Proof.
  unfold check_extent, checked_add. intros Ho Hl. case_match; [|done].
  destruct (Z.leb_spec z VARINT_MAX); [|done]. destruct (_ <? 2 ^ 64); [|done].
  simplify_eq. unfold vint. lia.
Qed.

Lemma split_off_app l r : split_off (l ++ r) (zlen l) = (l, r).
Proof. unfold split_off. by rewrite ztake_app, zdrop_app. Qed.

Lemma split_off_inv r n a b : 0 ≤ n ≤ zlen r → split_off r n = (a, b) → r = a ++ b ∧ zlen a = n.
Proof.
  unfold split_off. intros Hn [= <- <-]. split; [symmetry; apply take_drop|by apply zlen_ztake].
Qed.

Lemma count_padding_app n k rest : head rest ≠ Some 0 →
  count_padding (replicate n 0 ++ rest) k = (k + Z.of_nat n, rest).
Proof.
  intros Hr. revert k. induction n as [|n IH]; intros k.
  - simpl. rewrite Z.add_0_r. destruct rest as [|b rest]; [done|]. simpl.
    destruct (Z.eqb_spec b 0) as [->|]; done.
  - simpl. rewrite IH. f_equal. lia.
Qed.

Ltac vsolve := first [done | unfold vint in *; change VARINT_MAX with (2 ^ 62 - 1) in *;
  pose_zlen; lia]
with pose_zlen := repeat match goal with
  | x : list Z |- _ => lazymatch goal with
      | H : 0 ≤ zlen x |- _ => fail
      | _ => pose proof (zlen_nonneg x) end
  end.

(** Reads the fields an encoder wrote, one after the other. *)
Ltac decode_step :=
  first [ rewrite take_varint_encode by vsolve
        | rewrite check_extent_ok by vsolve
        | rewrite split_off_app
        | rewrite bounded_len_ok by (rewrite ?zlen_app; vsolve) ];
  cbn [mbind result_bind].

(** A padding run ends where the next frame starts. *)
Definition follows (f : Frame.frame) (rest : bytes) : Prop :=
  match f with Frame.Padding _ => head rest ≠ Some 0 | _ => True end.

Definition is_padding (f : Frame.frame) : bool :=
  match f with Frame.Padding _ => true | _ => false end.

(** The bytes of a frame are its type byte and a body the arm of that type reads back. *)
Definition encodes_to (f : Frame.frame) (t : Z) (body : bytes) : Prop :=
  Appends (frame_encode f) (Some (t :: body)) ∧ (t = 0 ↔ is_padding f = true)
  ∧ ∀ rest, follows f rest → decode_arm t (body ++ rest) = Ok (f, rest).

Ltac frame_arm :=
  eexists _, _; split_and!;
    [eapply appends_eq;
      [cbn [frame_encode]; apply _
      |cbn [oapp mbind option_bind fmap option_fmap option_map app]; reflexivity]
    |done
    |intros rest _; cbn [decode_arm]].

Lemma encode_ack_arm largest ack_delay raw first_range ecn :
  frame_wf (Frame.Ack largest ack_delay raw first_range ecn) →
  ∃ t body, encodes_to (Frame.Ack largest ack_delay raw first_range ecn) t body.
Proof.
  simpl. intros (Hl & Hd & Hf & Hok & Hz & [c Hc] & He).
  pose proof (count_pairs_ok _ _ _ _ Hok (le_n _) Hc) as (Hc0 & Hcz & Hw). rewrite Z.sub_0_r in Hw.
  assert (vint c) as Hcv by (unfold vint in *; lia).
  exists (match ecn with Some _ => 0x03 | None => 0x02 end),
    (varint_encode largest [] ++ varint_encode ack_delay [] ++ varint_encode c []
     ++ varint_encode first_range [] ++ raw ++
     match ecn with Some e => varint_encode (ect0 e) [] ++ varint_encode (ect1 e) []
                                ++ varint_encode (ce e) [] | None => [] end).
  split_and!; [|by destruct ecn|].
  - intros out. cbn [frame_encode]. unfold encode_ack. rewrite Hc.
    destruct ecn as [e|].
    + match goal with |- ?f out = _ => rewrite (appends (f := f) out) end. done.
    + match goal with |- ?f out = _ => rewrite (appends (f := f) out) end. done.
  - intros rest _. rewrite <- !app_assoc.
    assert (∀ t tail, walk_pairs (length (raw ++ tail)) c (raw ++ tail) = Ok tail →
      decode_ack t (varint_encode largest [] ++ varint_encode ack_delay [] ++ varint_encode c []
        ++ varint_encode first_range [] ++ raw ++ tail) =
      '(e, r) ← (if t =? 0x03 then
                 '(ect0, r) ← take_varint tail; '(ect1, r) ← take_varint r; '(ce, r) ← take_varint r;
                 Ok (Some (mkEcnCounts ect0 ect1 ce), r)
               else Ok (None, tail)); Ok (Frame.Ack largest ack_delay raw first_range e, r)) as Hdec.
    { intros t tail Hwalk. unfold decode_ack. repeat decode_step. rewrite Hwalk. cbn [mbind result_bind].
      rewrite zlen_app. replace (zlen raw + zlen tail - zlen tail) with (zlen raw) by lia.
      by rewrite ztake_app. }
    destruct ecn as [[e0 e1 e2]|]; cbn [decode_arm].
    + destruct He as (? & ? & ?). simpl in *. rewrite <- !app_assoc.
      rewrite Hdec by (apply Hw; rewrite length_app; lia). cbn [Z.eqb Pos.eqb].
      by repeat decode_step.
    + rewrite Hdec by (apply Hw; rewrite length_app; lia). done.
Qed.

Lemma encode_stream_arm id offset fin data :
  frame_wf (Frame.Stream id offset fin data) →
  ∃ t body, encodes_to (Frame.Stream id offset fin data) t body.
Proof.
  simpl. intros (Hid & Hoff & Hend).
  exists (if offset =? 0 then if fin then 0x0B else 0x0A else if fin then 0x0F else 0x0E),
    (varint_encode id [] ++ (if offset =? 0 then [] else varint_encode offset [])
     ++ varint_encode (zlen data) [] ++ data).
  destruct (Z.eqb_spec offset 0) as [->|Hne].
  - split_and!; [|by destruct fin|].
    + intros out. cbn [frame_encode]. unfold encode_stream.
      match goal with |- ?f out = _ => rewrite (appends (f := f) out) end. by destruct fin.
    + intros rest _. rewrite <- !app_assoc. cbn [app].
      assert (∀ t, negb (Z.land t 0x01 =? 0) = fin → Z.land t 0x02 = 2 → Z.land t 0x04 = 0 →
        decode_stream t (varint_encode id [] ++ varint_encode (zlen data) [] ++ data ++ rest)
        = Ok (Frame.Stream id 0 fin data, rest)) as Hdec.
      { intros t H1 H2 H4. unfold decode_stream. rewrite H1, H2, H4. cbn [Z.eqb negb].
        repeat (decode_step; try rewrite Z.add_0_l). done. }
      destruct fin; by apply Hdec.
  - assert (encode_stream id offset fin data = put_u8 (if fin then 0x0F else 0x0E) ⊳ put_varint id ⊳
      put_varint offset ⊳ put_varint (zlen data) ⊳ extend_from_slice data) as Henc.
    { unfold encode_stream. rewrite (proj2 (Z.eqb_neq _ _)) by done. by destruct fin. }
    split_and!; [|by destruct fin|].
    + intros out. cbn [frame_encode]. rewrite Henc.
      match goal with |- ?f out = _ => rewrite (appends (f := f) out) end. by destruct fin.
    + intros rest _. rewrite <- !app_assoc.
      assert (∀ t, negb (Z.land t 0x01 =? 0) = fin → Z.land t 0x02 = 2 → Z.land t 0x04 = 4 →
        decode_stream t (varint_encode id [] ++ varint_encode offset [] ++
          varint_encode (zlen data) [] ++ data ++ rest)
        = Ok (Frame.Stream id offset fin data, rest)) as Hdec.
      { intros t H1 H2 H4. unfold decode_stream. rewrite H1, H2, H4. cbn [Z.eqb negb].
        by repeat decode_step. }
      destruct fin; by apply Hdec.
Qed.

Lemma encode_new_connection_id_arm seq rpt cid token :
  frame_wf (Frame.NewConnectionId seq rpt cid token) →
  ∃ t body, encodes_to (Frame.NewConnectionId seq rpt cid token) t body.
Proof.
  simpl. intros (Hs & Hr & Hc & Ht).
  exists 0x18, (varint_encode seq [] ++ varint_encode rpt [] ++ zlen cid :: cid ++ token).
  split_and!; [|done|].
  - intros out. cbn [frame_encode]. unfold encode_new_connection_id.
    rewrite (proj2 (Z.leb_le _ _)) by lia.
    match goal with |- ?f out = _ => rewrite (appends (f := f) out) end.
    rewrite wrap_small by (unfold in_width; lia). done.
  - intros rest _. cbn [decode_arm]. unfold decode_new_connection_id. rewrite <- !app_assoc.
    repeat decode_step. cbn [app].
    destruct (Z.eqb_spec (zlen cid) 0), (Z.ltb_spec 20 (zlen cid)); try lia. cbn [orb].
    rewrite <- app_assoc, !zlen_app, Ht. pose proof (zlen_nonneg rest).
    rewrite (proj2 (Z.ltb_ge _ _)) by lia. rewrite split_off_app, <- Ht. by rewrite split_off_app.
Qed.

Lemma frame_encode_arm f : frame_wf f → ∃ t body, encodes_to f t body.
Proof.
  intros Hwf. destruct f as [n| | | | | | |id o fin d| | |dir limit| | |dir limit| | | | |err ft reason| |].
  3: by apply encode_ack_arm.
  7: by apply encode_stream_arm.
  13: by apply encode_new_connection_id_arm.
  all: simpl in Hwf.
  - exists 0, (replicate (Z.to_nat (n - 1)) 0). split_and!; [|done|].
    + intros out. simpl. do 2 f_equal.
      by replace (Z.to_nat n) with (S (Z.to_nat (n - 1))) by lia.
    + intros rest Hr. cbn [decode_arm]. unfold decode_padding.
      rewrite count_padding_app by done. do 3 f_equal. lia.
  - by frame_arm.
  - frame_arm. unfold decode_reset_stream. rewrite <- !app_assoc. destruct Hwf as (? & ? & ?).
    by repeat decode_step.
  - frame_arm. unfold decode_stop_sending. rewrite <- !app_assoc. destruct Hwf. by repeat decode_step.
  - frame_arm. unfold decode_crypto. rewrite <- !app_assoc. destruct Hwf. by repeat decode_step.
  - frame_arm. unfold decode_new_token. rewrite <- !app_assoc. destruct Hwf.
    do 2 decode_step. destruct (Z.eqb_spec (zlen token) 0); [lia|]. by decode_step.
  - frame_arm. unfold decode_max_data. by decode_step.
  - frame_arm. unfold decode_max_stream_data. rewrite <- !app_assoc. destruct Hwf. by repeat decode_step.
  - destruct dir; frame_arm; unfold decode_max_streams;
      change MAX_STREAMS_LIMIT with (2 ^ 60) in *; decode_step;
      by rewrite (proj2 (Z.ltb_ge _ _)) by lia.
  - frame_arm. unfold decode_data_blocked. by decode_step.
  - frame_arm. unfold decode_stream_data_blocked. rewrite <- !app_assoc. destruct Hwf.
    by repeat decode_step.
  - destruct dir; frame_arm; unfold decode_streams_blocked;
      change MAX_STREAMS_LIMIT with (2 ^ 60) in *; decode_step;
      by rewrite (proj2 (Z.ltb_ge _ _)) by lia.
  - frame_arm. unfold decode_retire_connection_id. by decode_step.
  - frame_arm. unfold decode_path_challenge. rewrite zlen_app, Hwf. pose proof (zlen_nonneg rest).
    rewrite (proj2 (Z.ltb_ge _ _)) by lia. rewrite <- Hwf. by rewrite split_off_app.
  - frame_arm. unfold decode_path_response. rewrite zlen_app, Hwf. pose proof (zlen_nonneg rest).
    rewrite (proj2 (Z.ltb_ge _ _)) by lia. rewrite <- Hwf. by rewrite split_off_app.
  - destruct Hwf as (He & Hft & Hr). cbn [frame_encode].
    destruct ft as [ft|]; simpl in Hft; unfold encodes_to; cbn [frame_encode];
      unfold encode_connection_close; frame_arm; unfold decode_connection_close;
      rewrite <- !app_assoc; cbn [Z.eqb Pos.eqb app]; by repeat decode_step.
  - by frame_arm.
  - frame_arm. unfold decode_datagram_len. rewrite <- !app_assoc. by repeat decode_step.
Qed.

(** ** What the decoder accepts *)

Definition arm_sound (r : bytes) (f : Frame.frame) (r' : bytes) : Prop :=
  frame_wf f ∧ bytes_ok r' ∧ zlen r' ≤ zlen r.

Lemma take_varint_sound r v r' : bytes_ok r → take_varint r = Ok (v, r') →
  vint v ∧ bytes_ok r' ∧ zlen r' ≤ zlen r.
Proof. intros Hok (? & ? & ?)%take_varint_inv; [|done]. unfold zlen. split_and!; [done..|lia]. Qed.

Lemma split_off_sound r n a b : bytes_ok r → 0 ≤ n ≤ zlen r → split_off r n = (a, b) →
  zlen a = n ∧ bytes_ok b ∧ zlen b = zlen r - n.
Proof.
  intros Hok Hn (-> & Ha)%split_off_inv; [|done]. apply Forall_app in Hok as [_ Hb].
  rewrite zlen_app. split_and!; [done..|lia].
Qed.

(** Inverts one step of an arm. *)
Ltac arm_inv H :=
  match type of H with
  | take_varint _ ≫= _ = Ok _ =>
      let v := fresh "v" in let r := fresh "r" in let Ht := fresh "Ht" in
      apply bind_Ok_inv in H as ([v r] & Ht & H);
      apply take_varint_sound in Ht as (? & ? & ?); [|done]
  | check_extent _ _ ≫= _ = Ok _ =>
      let Ht := fresh "Ht" in
      apply bind_Ok_inv in H as ([] & Ht & H);
      apply check_extent_inv in Ht; [|unfold vint in *; lia..]
  | bounded_len _ _ _ ≫= _ = Ok _ =>
      let k := fresh "k" in let Ht := fresh "Ht" in
      apply bind_Ok_inv in H as (k & Ht & H); apply bounded_len_inv in Ht as [-> ?]
  | (let '(_, _) := split_off ?r ?n in _) = Ok _ =>
      let a := fresh "a" in let b := fresh "b" in let Ht := fresh "Ht" in
      destruct (split_off r n) as [a b] eqn:Ht;
      apply split_off_sound in Ht as (? & ? & ?); [|done|unfold vint in *; lia]
  | (if ?c then _ else _) = Ok _ => destruct c eqn:?; [|]
  | Ok _ = Ok _ => injection H as <- <-
  | Err _ = Ok _ => discriminate H
  end.

Ltac arm_done := unfold arm_sound; cbn [frame_wf]; unfold vint in *; change (@zlen Z []) with 0; split_and!;
  first [done | lia | apply Forall_nil; done].

Lemma count_padding_sound r : ∀ n m r', bytes_ok r → count_padding r n = (m, r') →
  n ≤ m ∧ bytes_ok r' ∧ zlen r' ≤ zlen r.
Proof.
  induction r as [|b r IH]; intros n m r' Hok Hc; simpl in Hc.
  { injection Hc as <- <-. split_and!; done || lia. }
  destruct (b =? 0).
  - apply Forall_cons in Hok as [_ Hok]. apply IH in Hc as (? & ? & ?); [|done].
    unfold zlen in *. cbn [length]. split_and!; done || lia.
  - injection Hc as <- <-. split_and!; done || lia.
Qed.

Lemma decode_ack_sound t r f r' : bytes_ok r → zlen r ≤ VARINT_MAX →
  decode_ack t r = Ok (f, r') → arm_sound r f r'.
Proof.
  intros Hok Hlen H. unfold decode_ack in H. do 4 arm_inv H.
  apply bind_Ok_inv in H as (r4 & Hw & H).
  apply walk_pairs_ok in Hw as (raw & -> & Hr4 & Hraw & Hcount); [|done|done|unfold vint in *; lia].
  specialize (Hcount 0 (length raw) (le_n _)). rewrite !zlen_app in *.
  replace (zlen raw + zlen r4 - zlen r4) with (zlen raw) in H by lia. rewrite ztake_app in H.
  pose proof (zlen_nonneg raw). pose proof (zlen_nonneg r4).
  destruct (t =? 0x03); cbn [mbind result_bind] in H.
  - apply bind_Ok_inv in H as ([ecn r5] & He & H). do 3 arm_inv He. injection He as <- <-.
    arm_inv H. unfold arm_sound. cbn [frame_wf from_option]. unfold vint, ecn_ok in *.
    cbn [ect0 ect1 ce]. split_and!; done || lia || (by eexists).
  - arm_inv H. unfold arm_sound. cbn [frame_wf from_option]. unfold vint in *.
    split_and!; done || lia || (by eexists).
Qed.

Lemma decode_stream_sound t r f r' : bytes_ok r → zlen r ≤ VARINT_MAX →
  decode_stream t r = Ok (f, r') → arm_sound r f r'.
Proof.
  intros Hok Hlen H. unfold decode_stream in H. arm_inv H.
  apply bind_Ok_inv in H as ([off r1] & Ho & H).
  assert (vint off ∧ bytes_ok r1 ∧ zlen r1 ≤ zlen r0) as (? & ? & ?).
  { destruct (negb (Z.land t 4 =? 0)); [by apply take_varint_sound|].
    injection Ho as <- <-. split_and!; done || lia. }
  clear Ho. apply bind_Ok_inv in H as ([data r2] & Hd & H).
  destruct (negb (Z.land t 2 =? 0)).
  - arm_inv Hd. arm_inv Hd. arm_inv Hd. injection Hd as <- <-.
    destruct (split_off_sound r3 v0 _ _ ltac:(done) ltac:(unfold vint in *; lia) eq_refl)
      as (? & ? & ?). arm_inv H. arm_done.
  - pose proof (zlen_nonneg r1). arm_inv Hd. injection Hd as <- <-. arm_inv H. arm_done.
Qed.

Lemma decode_new_connection_id_sound r f r' : bytes_ok r →
  decode_new_connection_id r = Ok (f, r') → arm_sound r f r'.
Proof.
  intros Hok H. unfold decode_new_connection_id in H. do 2 arm_inv H.
  destruct r1 as [|cid_len r1]; [done|].
  destruct (Z.eqb_spec cid_len 0), (Z.ltb_spec 20 cid_len); try done. cbn [orb] in H.
  destruct (Z.ltb_spec (zlen r1) (cid_len + 16)); [done|].
  match goal with H : bytes_ok (_ :: _) |- _ => apply Forall_cons in H as [Hc ?] end.
  unfold in_width in Hc. do 2 arm_inv H. arm_inv H.
  assert (zlen (cid_len :: r1) = 1 + zlen r1) by (unfold zlen; cbn [length]; lia). arm_done.
Qed.

Lemma decode_close_sound t r f r' : bytes_ok r → zlen r ≤ VARINT_MAX →
  decode_connection_close t r = Ok (f, r') → arm_sound r f r'.
Proof.
  intros Hok Hlen H. unfold decode_connection_close in H. arm_inv H.
  apply bind_Ok_inv in H as ([ft r1] & Hf & H).
  assert (from_option vint True ft ∧ bytes_ok r1 ∧ zlen r1 ≤ zlen r0) as (? & ? & ?).
  { destruct (t =? 0x1C).
    - arm_inv Hf. injection Hf as <- <-. done.
    - injection Hf as <- <-. split_and!; done || lia. }
  do 4 arm_inv H. arm_done.
Qed.

Lemma decode_arm_sound t r f r' : bytes_ok r → zlen r ≤ VARINT_MAX →
  decode_arm t r = Ok (f, r') → arm_sound r f r'.
Proof.
  intros Hok Hlen H. pose proof (zlen_nonneg r).
  destruct t as [|p|p]; [|do 6 (try destruct p as [p|p|]); try done|done]; cbn [decode_arm] in H.
  all: try by apply decode_ack_sound in H.
  all: try by apply decode_stream_sound in H.
  all: try by apply decode_new_connection_id_sound in H.
  all: try by apply decode_close_sound in H.
  all: try (unfold decode_reset_stream, decode_stop_sending, decode_crypto, decode_max_data,
    decode_max_stream_data, decode_data_blocked, decode_stream_data_blocked,
    decode_retire_connection_id, decode_datagram_len in H; repeat arm_inv H; by arm_done).
  all: match type of H with
  | decode_padding _ = _ =>
      unfold decode_padding in H; destruct (count_padding r 1) as [m r1] eqn:E;
      apply count_padding_sound in E as (? & ? & ?); [|done]; arm_inv H; arm_done
  | decode_new_token _ = _ =>
      unfold decode_new_token in H; do 2 arm_inv H; destruct (Z.eqb_spec v 0); [done|];
      do 2 arm_inv H; arm_done
  | decode_max_streams _ _ = _ =>
      unfold decode_max_streams in H; arm_inv H; destruct (Z.ltb_spec MAX_STREAMS_LIMIT v); [done|];
      arm_inv H; arm_done
  | decode_streams_blocked _ _ = _ =>
      unfold decode_streams_blocked in H; arm_inv H;
      destruct (Z.ltb_spec MAX_STREAMS_LIMIT v); [done|]; arm_inv H; arm_done
  | _ => unfold decode_path_challenge, decode_path_response in H;
      destruct (Z.ltb_spec (zlen r) 8); [done|]; do 2 arm_inv H; arm_done
  end.
Qed.

Lemma frame_decode_arm t body f rest : decode_arm t (body ++ rest) = Ok (f, rest) →
  frame_decode ((t :: body) ++ rest) = Ok (f, zlen (t :: body)).
Proof.
  intros H. unfold frame_decode. cbn [app]. rewrite H. cbn [mbind result_bind]. do 2 f_equal.
  unfold zlen. cbn [length]. rewrite length_app. lia.
Qed.

Lemma frame_decode_sound_lemma buf f n : bytes_ok buf → zlen buf ≤ VARINT_MAX →
  frame_decode buf = Ok (f, n) → frame_wf f ∧ 1 ≤ n ≤ zlen buf.
Proof.
  intros Hok Hlen H. destruct buf as [|t r]; [done|]. cbn [frame_decode] in H.
  apply bind_Ok_inv in H as ([f' r'] & Ha & H). injection H as -> <-.
  apply Forall_cons in Hok as [_ Hok].
  assert (zlen (t :: r) = 1 + zlen r) as Hz by (unfold zlen; cbn [length]; lia).
  apply decode_arm_sound in Ha as (Hwf & _ & Hle); [|done|lia].
  pose proof (zlen_nonneg r'). split; [done|lia].
Qed.

(** The frames [FrameIter] yields, in order. *)
Fixpoint frame_iter_all (fuel : nat) (buf : bytes) : list (tls_result Frame.frame) :=
  match fuel with
  | O => []
  | S fuel => match frame_iter_next buf with
              | Some (item, buf) => item :: frame_iter_all fuel buf
              | None => []
              end
  end.

Lemma frame_iter_progress buf item buf' : bytes_ok buf → zlen buf ≤ VARINT_MAX →
  frame_iter_next buf = Some (item, buf') → (length buf' < length buf)%nat ∧ bytes_ok buf'.
Proof.
  intros Hok Hlen H. destruct buf as [|t r]; [done|]. unfold frame_iter_next in H.
  destruct (frame_decode (t :: r)) as [[f n]|e] eqn:E; simplify_eq.
  - apply frame_decode_sound_lemma in E as (_ & Hn); [|done..]. split; [|by apply Forall_drop].
    unfold zdrop, zlen in *. rewrite length_drop. lia.
  - split; [simpl; lia|constructor].
Qed.

Lemma frame_iter_bound fuel : ∀ buf, bytes_ok buf → zlen buf ≤ VARINT_MAX →
  (length (frame_iter_all fuel buf) ≤ length buf)%nat.
Proof.
  induction fuel as [|fuel IH]; intros buf Hok Hlen; cbn [frame_iter_all]; [simpl; lia|].
  destruct (frame_iter_next buf) as [[item buf']|] eqn:E; [|simpl; lia].
  apply frame_iter_progress in E as [Hlt Hok']; [|done..].
  specialize (IH buf' Hok'). unfold zlen in *. cbn [length]. lia.
Qed.

(** No padding run directly after another. *)
Fixpoint padding_merged (fs : list Frame.frame) : bool :=
  match fs with
  | f :: (g :: _) as tl => negb (is_padding f && is_padding g) && padding_merged tl
  | _ => true
  end.

Lemma frame_iter_encoded fs : Forall frame_wf fs → padding_merged fs = true →
  ∃ payload, Appends (wfor frame_encode fs) (Some payload)
    ∧ (head payload = Some 0 → from_option is_padding false (head fs) = true)
    ∧ ∀ fuel, (length payload ≤ fuel)%nat → frame_iter_all fuel payload = Ok <$> fs.
Proof.
  intros Hwf. induction Hwf as [|f fs Hf Hwf IH]; intros Hm.
  { exists []. split_and!; [exact appends_nothing|done|]. by intros []. }
  destruct IH as (payload & Ha & Hh & Hi).
  { destruct fs; [done|]. by apply andb_true_iff in Hm as [_ Hm]. }
  destruct (frame_encode_arm f Hf) as (t & body & Hb & Ht & Hd).
  exists ((t :: body) ++ payload). split_and!.
  - exact (appends_seq _ _ _ _ Hb Ha).
  - cbn. intros [= H0]. by apply Ht.
  - intros fuel Hfuel. destruct fuel as [|fuel]; [simpl in Hfuel; lia|].
    rewrite length_app in Hfuel. cbn [frame_iter_all frame_iter_next app].
    change (t :: body ++ payload) with ((t :: body) ++ payload).
    rewrite (frame_decode_arm t body f payload); cycle 1.
    { apply Hd. destruct f; try done. intros H0. specialize (Hh H0).
      destruct fs as [|g fs]; [done|]. simpl in Hh. apply andb_true_iff in Hm as [Hm _].
      simpl in Hm. by rewrite Hh in Hm. }
    rewrite zdrop_app, Hi by (simpl in Hfuel; lia). done.
Qed.

(** ** ACK ranges *)

Lemma ack_ranges_raw_spec rest : ∀ prev e raw,
  Forall range_ok rest → 0 ≤ prev < 2 ^ 64 → StronglySorted range_above ((prev, e) :: rest) →
  ack_ranges_raw_loop prev rest raw = raw ++ trailing_bytes prev rest.
Proof.
  induction rest as [|[s e'] rest IH]; intros prev e raw Hok Hp Hs; cbn [ack_ranges_raw_loop trailing_bytes].
  { by rewrite app_nil_r. }
  apply Forall_cons in Hok as [[? ?] Hok']. apply StronglySorted_cons in Hs as [Ha Hs].
  apply Forall_cons in Ha as [Hab _]. unfold range_above in Hab. cbn [fst snd] in *.
  unfold wsub. rewrite !wrap_small by (unfold in_width; rewrite ?wrap_small; unfold in_width; lia).
  rewrite (IH s e') by (done || lia).
  rewrite (varint_encode_app (e' - s)), (varint_encode_app (prev - e' - 2)), <- !app_assoc. done.
Qed.

Lemma count_pairs_trailing rest : ∀ prev e fuel c,
  Forall range_ok rest → StronglySorted range_above ((prev, e) :: rest) → 0 ≤ prev ≤ VARINT_MAX →
  (length (trailing_bytes prev rest) ≤ fuel)%nat →
  count_pairs fuel (trailing_bytes prev rest) c = Some (c + zlen rest).
Proof.
  assert (∀ v, ∃ b l, varint_encode v [] = b :: l) as Hne.
  { intros v. unfold varint_encode. cbv zeta. repeat case_match; eauto; done. }
  induction rest as [|[s e'] rest IH]; intros prev e fuel c Hok Hs Hp Hf; cbn [trailing_bytes] in *.
  { destruct fuel; simpl; by rewrite Z.add_0_r. }
  apply Forall_cons in Hok as [[? ?] Hok']. apply StronglySorted_cons in Hs as [Ha Hs].
  apply Forall_cons in Ha as [Hab _]. unfold range_above in Hab. cbn [fst snd] in *.
  destruct (Hne (prev - e' - 2)) as (b & l & Hbl). rewrite !length_app, Hbl in Hf. cbn [length] in Hf.
  destruct fuel as [|fuel]; [lia|]. rewrite Hbl. cbn [count_pairs app].
  rewrite app_comm_cons, <- Hbl.
  rewrite take_varint_encode by lia. rewrite take_varint_encode by lia.
  rewrite (IH s e') by (done || lia). f_equal. unfold zlen. cbn [length]. lia.
Qed.

Lemma trailing_bytes_ok rest : ∀ prev e, Forall range_ok rest →
  StronglySorted range_above ((prev, e) :: rest) → bytes_ok (trailing_bytes prev rest).
Proof.
  induction rest as [|[s e'] rest IH]; intros prev e Hok Hs; cbn [trailing_bytes]; [constructor|].
  apply Forall_cons in Hok as [[? ?] Hok']. apply StronglySorted_cons in Hs as [Ha Hs].
  apply Forall_cons in Ha as [Hab _]. unfold range_above in Hab. cbn [fst snd] in *.
  rewrite !Forall_app. split_and!; [apply varint_encode_ok; [lia|constructor]..|by eapply IH].
Qed.

Lemma zlen_trailing_bytes rest : ∀ prev, zlen (trailing_bytes prev rest) ≤ 16 * zlen rest.
Proof.
  assert (∀ v, zlen (varint_encode v []) ≤ 8) as H8.
  { intros v. unfold varint_encode. cbv zeta. repeat case_match; try done;
      match goal with H : be_bytes _ _ = _ :: ?l |- _ =>
        apply (f_equal length) in H; rewrite length_be_bytes in H; simpl in H;
        unfold zlen; simpl; lia end. }
  induction rest as [|[s e] rest IH]; intros prev; cbn [trailing_bytes]; [done|].
  rewrite !zlen_app. specialize (IH s). pose proof (H8 (prev - e - 2)). pose proof (H8 (e - s)).
  assert (zlen ((s, e) :: rest) = 1 + zlen rest) as -> by (unfold zlen; cbn [length]; lia). lia.
Qed.

(** * Claims *)

(** C27: QUIC frames survive the wire.  Every frame within the limits of RFC 9000
    section 19 is encoded without a panic, and decoding its bytes gives it back and
    consumes exactly those bytes, whatever follows (for a padding run: anything but more
    padding). *)
Theorem frame_roundtrip : ∀ f, frame_wf f →
  ∃ w, (∀ out, frame_encode f out = Some (out ++ w)) ∧ 1 ≤ zlen w
    ∧ ∀ rest, follows f rest → frame_decode (w ++ rest) = Ok (f, zlen w).
Proof.
  intros f Hwf. destruct (frame_encode_arm f Hwf) as (t & body & Ha & _ & Hd).
  exists (t :: body). split_and!; [exact Ha|unfold zlen; cbn [length]; lia|].
  intros rest Hf. by apply frame_decode_arm, Hd.
Qed.

Lemma frame_roundtrip_witness :
  frame_wf (Frame.Stream 4 1000 true [1; 2; 3]) ∧
  ∃ w, frame_encode (Frame.Stream 4 1000 true [1; 2; 3]) [] = Some w
    ∧ frame_decode w = Ok (Frame.Stream 4 1000 true [1; 2; 3], zlen w).
Proof.
  assert (frame_wf (Frame.Stream 4 1000 true [1; 2; 3])) as H
    by (apply (bool_decide_unpack _); vm_compute; exact I).
  split; [exact H|]. destruct (frame_roundtrip _ H) as (w & He & _ & Hd).
  exists w. split; [apply He|]. rewrite <- (app_nil_r w) at 1. exact (Hd [] I).
Defined.

(** Whatever the bytes, an accepted frame is within the limits and the count of
    consumed bytes is positive and inside the buffer: no offset past [2^62 - 1], no
    stream count past [2^60], no empty token, connection IDs of 1 to 20 bytes, an ACK
    range list that [AckRangeIter] can walk. *)
Theorem frame_decode_sound : ∀ buf f n, bytes_ok buf → zlen buf ≤ VARINT_MAX →
  frame_decode buf = Ok (f, n) → frame_wf f ∧ 1 ≤ n ≤ zlen buf.
Proof. exact frame_decode_sound_lemma. Qed.

Lemma frame_decode_sound_witness :
  frame_decode [0x06; 0x05; 0x02; 0xaa; 0xbb] = Ok (Frame.Crypto 5 [0xaa; 0xbb], 5)
  ∧ frame_wf (Frame.Crypto 5 [0xaa; 0xbb]).
Proof.
  assert (frame_decode [0x06; 0x05; 0x02; 0xaa; 0xbb] = Ok (Frame.Crypto 5 [0xaa; 0xbb], 5)) as H
    by (vm_compute; reflexivity).
  split; [exact H|]. refine (proj1 (frame_decode_sound _ _ _ _ _ H)).
  - apply (bool_decide_unpack _). vm_compute. exact I.
  - vm_compute. discriminate.
Defined.

(** C28: walking a payload.  Over any bytes, [FrameIter] yields at most one item per byte
    and then ends; and over the concatenated encodings of well-formed frames in which
    padding runs are merged, it yields exactly those frames. *)
Theorem frame_iter_correct :
  (∀ fuel buf, bytes_ok buf → zlen buf ≤ VARINT_MAX →
     (length (frame_iter_all fuel buf) ≤ length buf)%nat)
  ∧ (∀ fs, Forall frame_wf fs → padding_merged fs = true →
       ∃ payload, wfor frame_encode fs [] = Some payload
         ∧ frame_iter_all (length payload) payload = Ok <$> fs).
Proof.
  split; [exact frame_iter_bound|]. intros fs Hwf Hm.
  destruct (frame_iter_encoded fs Hwf Hm) as (payload & Ha & _ & Hi).
  exists payload. split; [exact (Ha [])|]. by apply Hi.
Qed.

Lemma frame_iter_correct_witness : ∃ payload,
  wfor frame_encode [Frame.Ping; Frame.Padding 3; Frame.MaxData 70000] [] = Some payload
  ∧ frame_iter_all (length payload) payload
    = [Ok Frame.Ping; Ok (Frame.Padding 3); Ok (Frame.MaxData 70000)].
Proof.
  apply (proj2 frame_iter_correct).
  - apply (bool_decide_unpack _). vm_compute. exact I.
  - reflexivity.
Defined.

(** Acknowledgements.  For a well-formed range set whose numbers fit a varint, the
    fields [build_ack_ranges_raw] computes make a well-formed ACK frame, and the frame
    the encoder writes carries exactly the range set: the ACK parser reads the ranges
    and the delay back from the bytes after the type byte. *)
Theorem ack_frame_carries_ranges : ∀ s e rest delay ecn tail,
  ack_wf ((s, e) :: rest) → e ≤ VARINT_MAX → vint delay → from_option ecn_ok True ecn →
  ∃ first raw body, build_ack_ranges_raw ((s, e) :: rest) = Some (e, first, raw)
    ∧ frame_wf (Frame.Ack e delay raw first ecn)
    ∧ frame_encode (Frame.Ack e delay raw first ecn) []
      = Some ((match ecn with Some _ => 3 | None => 2 end) :: body)
    ∧ parse_ack_payload (body ++ tail) = Ok ((s, e) :: rest, delay).
Proof.
  intros s e rest delay ecn tail [Hok Hs Hlen] He Hd Hecn.
  assert (zlen (trailing_bytes s rest) ≤ VARINT_MAX) as Hz.
  { pose proof (zlen_trailing_bytes rest s). unfold MAX_ACK_RANGES, zlen in *. cbn [length] in Hlen.
    change VARINT_MAX with (2 ^ 62 - 1). lia. }
  apply Forall_cons in Hok as [[Hs0 He64] Hok]. cbn [fst snd] in *.
  exists (e - s), (trailing_bytes s rest), (varint_encode e [] ++ varint_encode delay []
    ++ varint_encode (zlen rest) [] ++ varint_encode (e - s) [] ++ trailing_bytes s rest
    ++ match ecn with Some c => varint_encode (ect0 c) [] ++ varint_encode (ect1 c) []
                                  ++ varint_encode (ce c) [] | None => [] end).
  assert (frame_wf (Frame.Ack e delay (trailing_bytes s rest) (e - s) ecn)) as Hwf.
  { cbn [frame_wf]. pose proof (zlen_nonneg (trailing_bytes s rest)). unfold vint in *.
    split_and!; try done || lia; [by eapply trailing_bytes_ok|].
    rewrite (count_pairs_trailing rest s e) by (done || lia). by eexists. }
  split_and!; [|exact Hwf| |].
  - unfold build_ack_ranges_raw. rewrite (ack_ranges_raw_spec rest s e) by (done || lia).
    unfold wsub. by rewrite wrap_small by (unfold in_width; lia).
  - cbn [frame_encode]. unfold encode_ack.
    rewrite (count_pairs_trailing rest s e) by (done || lia).
    destruct ecn; match goal with |- ?f [] = _ => rewrite (appends (f := f) []) end; reflexivity.
  - rewrite <- !app_assoc. apply parse_ack_fields; [|done|done].
    constructor; [by constructor; [split|]|done|done].
Qed.

Lemma ack_frame_carries_ranges_witness :
  ∃ body, frame_encode (Frame.Ack 9 25 (trailing_bytes 7 [(1, 5)]) 2 None) [] = Some (2 :: body)
    ∧ parse_ack_payload (body ++ []) = Ok ([(7, 9); (1, 5)], 25).
Proof.
  destruct (ack_frame_carries_ranges 7 9 [(1, 5)] 25 None []) as (first & raw & body & Hb & _ & He & Hp).
  - constructor.
    + apply (bool_decide_unpack _). vm_compute. exact I.
    + repeat constructor.
    + simpl. unfold MAX_ACK_RANGES. lia.
  - vm_compute. discriminate.
  - split; vm_compute; discriminate.
  - exact I.
  - assert (first = 2 ∧ raw = trailing_bytes 7 [(1, 5)]) as [-> ->]
      by (vm_compute in Hb; injection Hb as <- <-; split; reflexivity).
    exists body. split; [exact He|exact Hp].
Defined.
