(* ===== verification/RecvStream.v ===== *)
(** QUIC streams, receive half ([src/quic/stream.rs]): stream identifiers, the errors of
    the stream layer, and [RecvStream] with its gap-buffered reassembly, final-size and
    flow-control checks, application reads and resets, and the credit the stream table
    ([src/quic/streams.rs]) grants on a read.  Offsets are [u64]; [usize] has 64 bits. *)

From S2P Require Import Prelude TlsBase BTree ByteStream CryptoBuf.

Module StreamError.
Inductive stream_error := FlowControl | StreamLimit | StreamState | FinalSize.

Definition code (self : stream_error) : Z :=
  match self with
  | FlowControl => 0x03
  | StreamLimit => 0x04
  | StreamState => 0x05
  | FinalSize => 0x06
  end.

Definition into_tls_error (e : stream_error) : Error.tls_error :=
  match e with
  | StreamState => Error.InappropriateState
  | FlowControl | StreamLimit | FinalSize => Error.Decode
  end.
End StreamError.
Abbreviation stream_result := (result StreamError.stream_error).

(** * Stream identifiers *)

Definition is_client_initiated (id : Z) : bool := Z.land id 0x1 =? 0.
Definition is_server_initiated (id : Z) : bool := Z.land id 0x1 =? 1.
Definition is_bidi (id : Z) : bool := Z.land id 0x2 =? 0.
Definition is_uni (id : Z) : bool := negb (Z.land id 0x2 =? 0).

(** * The receive half *)

Module RecvState.
Inductive recv_state := Recv | SizeKnown | DataRecvd | DataRead | ResetRecvd | ResetRead.
#[global] Instance recv_state_dec : EqDecision recv_state.
Proof. solve_decision. Defined.
End RecvState.
Import RecvState(recv_state).

Definition MAX_PENDING_FRAGMENTS : Z := 128.

Record RecvStream := mkRecvStream {
  rs_state : recv_state;
  rs_delivered : bytes;
  rs_next_offset : Z;
  rs_read_off : Z;
  rs_pending : list (Z * bytes);
  rs_pending_bytes : Z;
  rs_fin_offset : option Z;
  rs_max_data : Z;
  rs_max_data_announced : Z;
  rs_window : Z;
  rs_reset_code : option Z;
  rs_stop_sending_sent : bool;
  rs_stop_sending_pending : option Z;
  rs_max_data_pending : bool;
  rs_conn_fc_credited : Z }.

Definition recv_new (max_data : Z) : RecvStream :=
  mkRecvStream RecvState.Recv [] 0 0 [] 0 None max_data max_data max_data None false None false 0.

(** Field updates. *)
Definition set_recv_state (s : recv_state) (r : RecvStream) : RecvStream :=
  mkRecvStream s (rs_delivered r) (rs_next_offset r) (rs_read_off r) (rs_pending r)
    (rs_pending_bytes r) (rs_fin_offset r) (rs_max_data r) (rs_max_data_announced r) (rs_window r)
    (rs_reset_code r) (rs_stop_sending_sent r) (rs_stop_sending_pending r) (rs_max_data_pending r)
    (rs_conn_fc_credited r).
Definition set_reassembly (delivered : bytes) (next : Z) (pending : list (Z * bytes)) (pb : Z)
  (r : RecvStream) : RecvStream :=
  mkRecvStream (rs_state r) delivered next (rs_read_off r) pending
    pb (rs_fin_offset r) (rs_max_data r) (rs_max_data_announced r) (rs_window r)
    (rs_reset_code r) (rs_stop_sending_sent r) (rs_stop_sending_pending r) (rs_max_data_pending r)
    (rs_conn_fc_credited r).
Definition set_fin (fin : option Z) (r : RecvStream) : RecvStream :=
  mkRecvStream (rs_state r) (rs_delivered r) (rs_next_offset r) (rs_read_off r) (rs_pending r)
    (rs_pending_bytes r) fin (rs_max_data r) (rs_max_data_announced r) (rs_window r)
    (rs_reset_code r) (rs_stop_sending_sent r) (rs_stop_sending_pending r) (rs_max_data_pending r)
    (rs_conn_fc_credited r).

Definition is_reset (s : recv_state) : bool :=
  match s with RecvState.ResetRecvd | RecvState.ResetRead => true | _ => false end.

Definition is_readable (self : RecvStream) : bool :=
  negb (match rs_delivered self with [] => true | _ => false end)
  || match rs_state self with RecvState.DataRecvd | RecvState.ResetRecvd => true | _ => false end.

(** [self.pending.iter().map(|(o, d)| o + d.len()).max().unwrap_or(0)] *)
Definition highest_pending (pending : list (Z * bytes)) : Z :=
  foldr (λ e acc, Z.max (wadd 64 e.1 (zlen e.2)) acc) 0 pending.

(** The [if fin] block of [on_data]: check and record the final size. *)
Definition record_fin (self : RecvStream) (end_ : Z) : stream_result RecvStream :=
  if (end_ <? rs_next_offset self) || (end_ <? highest_pending (rs_pending self))
  then Err StreamError.FinalSize
  else
    match rs_fin_offset self with
    | Some prev => if negb (prev =? end_) then Err StreamError.FinalSize
                   else Ok (set_fin (Some end_) self)
    | None => Ok (set_fin (Some end_) self)
    end.

(** Absorbing pending fragments at or below the next offset. *)
Fixpoint absorb (pending : list (Z * bytes)) (delivered : bytes) (next pb newly : Z)
  : list (Z * bytes) * bytes * Z * Z * Z :=
  match pending with
  | (p_off, frag) :: rest =>
      if p_off <=? next then
        let pb := sat_sub pb (zlen frag) in
        let p_end := wadd 64 p_off (zlen frag) in
        if p_end <=? next then absorb rest delivered next pb newly
        else
          let take := zdrop (next - p_off) frag in
          absorb rest (delivered ++ take) p_end pb (wadd 64 newly (zlen take))
      else (pending, delivered, next, pb, newly)
  | [] => ([], delivered, next, pb, newly)
  end.

Definition append_in_order (self : RecvStream) (data : bytes) : RecvStream * Z :=
  let '(pending, delivered, next, pb, newly) :=
    absorb (rs_pending self) (rs_delivered self ++ data)
      (wadd 64 (rs_next_offset self) (zlen data)) (rs_pending_bytes self) (zlen data) in
  (set_reassembly delivered next pending pb self, newly).

(** The walk over the fragments that start inside the new range: the sub-ranges none of
    them holds, and the cursor after the last one. *)
Fixpoint uncovered (frags : list (Z * bytes)) (cursor new_end : Z) (pieces : list (Z * Z))
  : list (Z * Z) * Z :=
  match frags with
  | [] => (pieces, cursor)
  | (p_off, p_data) :: frags =>
      let p_end := wadd 64 p_off (zlen p_data) in
      if p_end <=? cursor then uncovered frags cursor new_end pieces
      else
        let pieces := if cursor <? p_off then pieces ++ [(cursor, p_off)] else pieces in
        if new_end <=? p_end then (pieces, p_end) else uncovered frags p_end new_end pieces
  end.

Definition new_pieces (pending : list (Z * bytes)) (offset new_end : Z) : list (Z * Z) :=
  let walk_from := match bt_last_le pending offset with Some (k, _) => k | None => offset end in
  let '(pieces, cursor) := uncovered (bt_range pending walk_from new_end) offset new_end [] in
  if cursor <? new_end then pieces ++ [(cursor, new_end)] else pieces.

(** [for (p_start, p_end) in pieces]: [break] drops the rest of the frame. *)
Fixpoint store_pieces (self : RecvStream) (offset : Z) (data : bytes) (pieces : list (Z * Z))
  : RecvStream :=
  match pieces with
  | [] => self
  | (p_start, p_end) :: pieces =>
      let b := ztake (p_end - p_start) (zdrop (p_start - offset) data) in
      let budget := sat_sub (rs_max_data self) (rs_next_offset self) in
      let projected := sat_add 64 (rs_pending_bytes self) (zlen b) in
      if budget <? projected then self
      else
        let put k v := set_reassembly (rs_delivered self) (rs_next_offset self)
                         (bt_insert (rs_pending self) k v) projected self in
        match bt_last_lt (rs_pending self) p_start with
        | Some (k, v) =>
            if wadd 64 k (zlen v) =? p_start
            then store_pieces (put k (v ++ b)) offset data pieces
            else if MAX_PENDING_FRAGMENTS <=? zlen (rs_pending self) then self
            else store_pieces (put p_start b) offset data pieces
        | None =>
            if MAX_PENDING_FRAGMENTS <=? zlen (rs_pending self) then self
            else store_pieces (put p_start b) offset data pieces
        end
  end.

Definition store_out_of_order (self : RecvStream) (offset : Z) (data : bytes) : RecvStream :=
  store_pieces self offset data
    (new_pieces (rs_pending self) offset (wadd 64 offset (zlen data))).

(** The state once the bytes are in: [SizeKnown] or [DataRecvd] if the final size is known. *)
Definition fin_state (self : RecvStream) : RecvStream :=
  match rs_fin_offset self with
  | Some f =>
      if (rs_next_offset self =? f) && bool_decide (rs_pending self = [])
      then set_recv_state RecvState.DataRecvd self
      else if bool_decide (rs_state self = RecvState.DataRecvd) then self
      else set_recv_state RecvState.SizeKnown self
  | None => self
  end.

(** [on_data] once the already-delivered prefix is trimmed. *)
Definition on_data_trimmed (self : RecvStream) (offset : Z) (data : bytes) : RecvStream * Z :=
  let '(self, newly) :=
    if offset =? rs_next_offset self then append_in_order self data
    else (store_out_of_order self offset data, 0) in
  (fin_state self, newly).

Definition on_data (self : RecvStream) (offset : Z) (data : bytes) (fin : bool)
  : stream_result (RecvStream * Z) :=
  if is_reset (rs_state self) then
    end_ ← ok_or (checked_add 64 offset (zlen data)) StreamError.FinalSize;
    if match rs_fin_offset self with Some f => f <? end_ | None => false end
    then Err StreamError.FinalSize else Ok (self, 0)
  else
    end_ ← ok_or (checked_add 64 offset (zlen data)) StreamError.FinalSize;
    if rs_max_data self <? end_ then Err StreamError.FlowControl
    else if match rs_fin_offset self with
            | Some prev_fin => (prev_fin <? end_) || (fin && negb (end_ =? prev_fin))
            | None => false
            end
    then Err StreamError.FinalSize
    else
      self ← (if fin then record_fin self end_ else Ok self);
      if rs_stop_sending_sent self then Ok (self, 0)
      else if offset <? rs_next_offset self then
        let skip := rs_next_offset self - offset in
        if zlen data <=? skip then
          Ok (if fin && (rs_next_offset self =? end_) && bool_decide (rs_pending self = [])
              then set_recv_state RecvState.DataRecvd self else self, 0)
        else Ok (on_data_trimmed self (rs_next_offset self) (zdrop skip data))
      else Ok (on_data_trimmed self offset data).

(** [read] into a buffer of [n] bytes: the new state, the bytes copied, [fin_seen]. *)
Definition recv_read (self : RecvStream) (n : Z) : RecvStream * bytes * bool :=
  let copied := Z.min n (zlen (rs_delivered self)) in
  let out := ztake copied (rs_delivered self) in
  let delivered := zdrop copied (rs_delivered self) in
  let read_off := wadd 64 (rs_read_off self) copied in
  let fin_seen :=
    match rs_fin_offset self with Some f => read_off =? f | None => false end
    && match rs_state self with
       | RecvState.DataRecvd | RecvState.SizeKnown | RecvState.DataRead => true
       | _ => false
       end in
  let state := if fin_seen && bool_decide (delivered = []) then RecvState.DataRead
               else rs_state self in
  (mkRecvStream state delivered (rs_next_offset self) read_off (rs_pending self)
     (rs_pending_bytes self) (rs_fin_offset self) (rs_max_data self) (rs_max_data_announced self)
     (rs_window self) (rs_reset_code self) (rs_stop_sending_sent self)
     (rs_stop_sending_pending self) (rs_max_data_pending self) (rs_conn_fc_credited self),
   out, fin_seen).

Definition recv_is_finished (self : RecvStream) : bool :=
  match rs_state self with RecvState.DataRead | RecvState.ResetRead => true | _ => false end
  && bool_decide (rs_delivered self = []).

Definition on_reset (self : RecvStream) (code final_size : Z) : stream_result RecvStream :=
  if final_size <? rs_next_offset self then Err StreamError.FinalSize
  else if rs_max_data self <? final_size then Err StreamError.FlowControl
  else if final_size <? highest_pending (rs_pending self) then Err StreamError.FinalSize
  else if match rs_fin_offset self with Some f => negb (final_size =? f) | None => false end
  then Err StreamError.FinalSize
  else if is_reset (rs_state self) then Ok self
  else Ok (mkRecvStream RecvState.ResetRecvd [] (rs_next_offset self) (rs_read_off self) [] 0
             (Some final_size) (rs_max_data self) (rs_max_data_announced self) (rs_window self)
             (Some code) (rs_stop_sending_sent self) (rs_stop_sending_pending self)
             (rs_max_data_pending self) (rs_conn_fc_credited self)).

Definition ack_reset (self : RecvStream) : RecvStream :=
  match rs_state self with
  | RecvState.ResetRecvd => set_recv_state RecvState.ResetRead self
  | _ => self
  end.

(** The receive half's part of [Streams::read]: observe a reset, read, and grant fresh
    credit once the consumed offset comes within half a window of the announced limit. *)
Definition REPLENISH_RATIO_NUM : Z := 1.
Definition REPLENISH_RATIO_DEN : Z := 2.

Definition grant_credit (self : RecvStream) : RecvStream :=
  if (0 <? rs_window self) && negb (is_reset (rs_state self)) then
    let r_threshold := wmul 64 (rs_window self) REPLENISH_RATIO_NUM / Z.max REPLENISH_RATIO_DEN 1 in
    if rs_max_data_announced self <? wadd 64 (rs_read_off self) r_threshold then
      let new_max := sat_add 64 (rs_read_off self) (rs_window self) in
      if rs_max_data self <? new_max then
        mkRecvStream (rs_state self) (rs_delivered self) (rs_next_offset self) (rs_read_off self)
          (rs_pending self) (rs_pending_bytes self) (rs_fin_offset self) new_max
          (rs_max_data_announced self) (rs_window self) (rs_reset_code self)
          (rs_stop_sending_sent self) (rs_stop_sending_pending self) true
          (rs_conn_fc_credited self)
      else self
    else self
  else self.

Definition stream_read (self : RecvStream) (n : Z) : RecvStream * bytes * bool :=
  let '(self, out, fin) := recv_read (ack_reset self) n in
  let self := mkRecvStream (rs_state self) (rs_delivered self) (rs_next_offset self)
    (rs_read_off self) (rs_pending self) (rs_pending_bytes self) (rs_fin_offset self)
    (rs_max_data self) (rs_max_data_announced self) (rs_window self) (rs_reset_code self)
    (rs_stop_sending_sent self) (rs_stop_sending_pending self) (rs_max_data_pending self)
    (sat_add 64 (rs_conn_fc_credited self) (zlen out)) in
  (grant_credit self, out, fin).

(** [Streams::stop_sending] on the receive half. *)
Definition stop_sending (self : RecvStream) (app_error : Z) : RecvStream :=
  mkRecvStream (rs_state self) (rs_delivered self) (rs_next_offset self) (rs_read_off self)
    (rs_pending self) (rs_pending_bytes self) (rs_fin_offset self) (rs_max_data self)
    (rs_max_data_announced self) (rs_window self) (rs_reset_code self) true (Some app_error)
    (rs_max_data_pending self) (rs_conn_fc_credited self).

(** * Sets of disjoint fragments *)

Definition frag_end (e : Z * bytes) : Z := e.1 + zlen e.2.

(** Sorted, pairwise disjoint, non-empty fragments of the stream, within [[lo, hi]]. *)
Record frags_wf (S : Z → Z) (lo hi : Z) (p : list (Z * bytes)) : Prop := {
  fw_sorted : bt_sorted p;
  fw_disjoint : ∀ e e', e ∈ p → e' ∈ p → e.1 < e'.1 → frag_end e ≤ e'.1;
  fw_carries : Forall (carries S) p;
  fw_nonempty : Forall (λ e, 0 < zlen e.2) p;
  fw_range : Forall (λ e, lo < e.1 ∧ frag_end e ≤ hi) p }.

(** No fragment holds a byte of [[a, b)]. *)
Definition free (p : list (Z * bytes)) (a b : Z) : Prop := ∀ x, a ≤ x < b → ¬ pend_covers p x.

Lemma free_apart S lo hi p a b e : frags_wf S lo hi p → free p a b → a < b → e ∈ p →
  frag_end e ≤ a ∨ b ≤ e.1.
Proof.
  intros [_ _ _ Hne _] Hf Hab He. rewrite Forall_forall in Hne. specialize (Hne e He).
  unfold frag_end. destruct (Z.le_gt_cases (e.1 + zlen e.2) a); [by left|].
  destruct (Z.le_gt_cases b e.1); [by right|]. exfalso.
  apply (Hf (Z.max a e.1)); [lia|]. exists e. split; [done|lia].
Qed.

(** Disjoint fragments inside an interval hold at most its length. *)
Lemma pend_bytes_bound S p : ∀ lo hi, frags_wf S lo hi p → lo ≤ hi → pend_bytes p ≤ hi - lo.
Proof.
  induction p as [|e p IH]; intros lo hi Hwf Hle; [unfold pend_bytes; simpl; lia|].
  pose proof Hwf as [Hs Hd Hc Hne Hr]. inversion Hr as [|? ? [Hlo Hhi] Hr']; subst.
  inversion Hc; inversion Hne; subst. apply bt_sorted_cons in Hs as [Hlt Hs].
  rewrite Forall_forall in Hlt. unfold key_lt in Hlt.
  assert (pend_bytes p ≤ hi - (frag_end e - 1)) as Hp.
  { apply IH; [|unfold frag_end in *; lia]. split; try done.
    - intros e1 e2 He1 He2. apply Hd; by right.
    - apply Forall_forall. intros e' He'. rewrite Forall_forall in Hr'.
      destruct (Hr' e' He') as [_ ?]. split; [|done].
      pose proof (Hd e e' ltac:(left) ltac:(by right) ltac:(by apply Hlt)). lia. }
  unfold frag_end, pend_bytes in *. simpl. lia.
Qed.

(** Adding the bytes of a free range as a fragment of its own. *)
Lemma frags_insert S lo hi p a d : frags_wf S lo hi p → free p a (a + zlen d) → 0 < zlen d →
  carries S (a, d) → lo < a → a + zlen d ≤ hi →
  frags_wf S lo hi (bt_insert p a d)
  ∧ (∀ x, pend_covers (bt_insert p a d) x ↔ pend_covers p x ∨ a ≤ x < a + zlen d)
  ∧ pend_bytes (bt_insert p a d) = pend_bytes p + zlen d
  ∧ zlen (bt_insert p a d) = zlen p + 1.
Proof.
  intros Hwf Hf Hd Hc Hlo Hhi. pose proof Hwf as [Hs Hdis Hcar Hne Hr].
  assert (∀ e, e ∈ p → frag_end e ≤ a ∨ a + zlen d ≤ e.1) as Hap
    by (intros e He; eapply free_apart; [done|done|lia|done]).
  assert (bt_get p a = None) as Hget.
  { destruct (bt_get p a) as [v|] eqn:E; [|done]. apply bt_get_Some in E; [|done].
    rewrite Forall_forall in Hne. specialize (Hne _ E). destruct (Hap _ E); unfold frag_end in *;
    simpl in *; lia. }
  assert (∀ e, e ∈ p → e.1 ≠ a) as Hkey.
  { intros [k v] He Hk. simpl in Hk. subst k. by apply (bt_get_None _ _ Hget v). }
  split_and!.
  - split.
    + by apply bt_insert_sorted.
    + intros e e'. rewrite !bt_insert_elem by done. unfold frag_end in *.
      intros [->|[He _]] [->|[He' _]] Hlt; simpl in *; [lia| | |by apply Hdis].
      * destruct (Hap _ He') as [?|?]; [|done]. rewrite Forall_forall in Hne.
        specialize (Hne _ He'). lia.
      * destruct (Hap _ He) as [?|?]; [done|]. lia.
    + by apply Forall_bt_insert.
    + by apply Forall_bt_insert.
    + apply Forall_bt_insert; [done..|]. unfold frag_end. simpl. lia.
  - intros x. unfold pend_covers. setoid_rewrite bt_insert_elem; [|done]. split.
    + intros (e & [->|[He _]] & Hx); [by right|left; eauto].
    + intros [(e & He & Hx)|Hx]; [exists e; eauto|]. exists (a, d). eauto.
  - rewrite pend_bytes_insert, Hget by done. lia.
  - unfold zlen. rewrite bt_insert_length, Hget by done. lia.
Qed.

(** Extending the fragment that ends where the free range starts. *)
Lemma frags_extend S lo hi p k v d : frags_wf S lo hi p → (k, v) ∈ p →
  free p (k + zlen v) (k + zlen v + zlen d) → 0 < zlen d → carries S (k + zlen v, d) →
  k + zlen v + zlen d ≤ hi →
  frags_wf S lo hi (bt_insert p k (v ++ d))
  ∧ (∀ x, pend_covers (bt_insert p k (v ++ d)) x ↔
       pend_covers p x ∨ k + zlen v ≤ x < k + zlen v + zlen d)
  ∧ pend_bytes (bt_insert p k (v ++ d)) = pend_bytes p + zlen d
  ∧ zlen (bt_insert p k (v ++ d)) = zlen p.
Proof.
  intros Hwf Hkv Hf Hd Hc Hhi. pose proof Hwf as [Hs Hdis Hcar Hne Hr].
  assert (∀ e, e ∈ p → frag_end e ≤ k + zlen v ∨ k + zlen v + zlen d ≤ e.1) as Hap
    by (intros e He; eapply free_apart; [done|done|lia|done]).
  assert (bt_get p k = Some v) as Hget by (by apply bt_get_Some).
  assert (∀ e, e ∈ p → e.1 = k → e = (k, v)) as Hkey.
  { intros [k' v'] He Hk. simpl in Hk. subst k'. apply bt_get_Some in He; [|done]. congruence. }
  assert (carries S (k, v ++ d)) as Hcar'.
  { rewrite Forall_forall in Hcar. destruct (Hcar _ Hkv) as (H1 & H2 & H3), Hc as (H4 & H5 & H6).
    simpl in *. unfold carries. simpl. rewrite zlen_app, length_app, stream_slice_app.
    split_and!; [lia|lia|]. f_equal; [exact H3|exact H6]. }
  rewrite Forall_forall in Hne, Hr. pose proof (Hne _ Hkv) as Hv. pose proof (Hr _ Hkv) as [Hk _].
  simpl in *. split_and!.
  - split.
    + by apply bt_insert_sorted.
    + intros e e'. rewrite !bt_insert_elem by done. unfold frag_end in *.
      intros [->|[He Hn]] [->|[He' Hn']] Hlt; simpl in *; [lia| | |by apply Hdis].
      * rewrite zlen_app. destruct (Hap _ He') as [?|?]; [|lia]. specialize (Hne _ He').
        pose proof (Hdis _ _ Hkv He' Hlt) as Hdk. simpl in Hdk. lia.
      * apply (Hdis e (k, v) He Hkv Hlt).
    + by apply Forall_bt_insert.
    + apply Forall_bt_insert; [done|by apply Forall_forall|]. simpl. rewrite zlen_app. lia.
    + apply Forall_bt_insert; [done|by apply Forall_forall|]. unfold frag_end. simpl.
      rewrite zlen_app. lia.
  - intros x. unfold pend_covers. setoid_rewrite bt_insert_elem; [|done]. split.
    + intros (e & [->|[He _]] & Hx); [|left; eauto]. simpl in Hx. rewrite zlen_app in Hx.
      destruct (Z.lt_ge_cases x (k + zlen v)); [|right; lia]. left. exists (k, v). simpl. split; [done|lia].
    + intros [(e & He & Hx)|Hx].
      * destruct (decide (e.1 = k)) as [Hek|Hek]; [|exists e; eauto].
        apply Hkey in Hek as ->; [|done]. exists (k, v ++ d). simpl in *. rewrite zlen_app. split; [by left|lia].
      * exists (k, v ++ d). simpl. rewrite zlen_app. split; [by left|lia].
  - rewrite pend_bytes_insert, Hget, zlen_app by done. lia.
  - unfold zlen. rewrite bt_insert_length, Hget by done. lia.
Qed.

(** ** The pieces of a frame no fragment holds *)

Definition piece_at (ps : list (Z * Z)) (x : Z) : Prop := ∃ q, q ∈ ps ∧ q.1 ≤ x < q.2.

(** Non-empty ranges in increasing order within [[lo, hi)]. *)
Fixpoint pieces_ok (lo hi : Z) (ps : list (Z * Z)) : Prop :=
  match ps with
  | [] => lo ≤ hi
  | q :: ps => lo ≤ q.1 < q.2 ∧ pieces_ok q.2 hi ps
  end.

Lemma pieces_ok_elem ps : ∀ lo hi q, pieces_ok lo hi ps → q ∈ ps → lo ≤ q.1 < q.2 ∧ q.2 ≤ hi.
Proof.
  induction ps as [|q' ps IH]; intros lo hi q Hok Hq; [by apply elem_of_nil in Hq|].
  destruct Hok as [H1 Hok]. assert (q'.2 ≤ hi).
  { destruct ps as [|q'' ps]; [exact Hok|]. specialize (IH _ _ q'' Hok ltac:(left)). lia. }
  apply elem_of_cons in Hq as [->|Hq]; [lia|]. specialize (IH _ _ _ Hok Hq). lia.
Qed.

Lemma pieces_ok_weaken lo lo' hi ps : lo' ≤ lo → pieces_ok lo hi ps → pieces_ok lo' hi ps.
Proof. destruct ps; simpl; [lia|]. intros ? [? ?]. split; [lia|done]. Qed.

Lemma uncovered_acc frags : ∀ c ne acc,
  uncovered frags c ne acc = (acc ++ (uncovered frags c ne []).1, (uncovered frags c ne []).2).
Proof.
  induction frags as [|[o d] frags IH]; intros c ne acc; simpl; [by rewrite app_nil_r|].
  destruct (_ <=? c); [apply IH|].
  destruct (c <? o), (ne <=? _); simpl; rewrite ?app_nil_r; try done.
  rewrite IH, (IH _ _ [(c, o)]). simpl. by rewrite <- app_assoc.
Qed.

(** [uncovered] with the final piece, over any disjoint fragments. *)
Definition cut (frags : list (Z * bytes)) (c ne : Z) : list (Z * Z) :=
  let '(pieces, cursor) := uncovered frags c ne [] in
  if cursor <? ne then pieces ++ [(cursor, ne)] else pieces.

Lemma piece_at_cons q ps x : piece_at (q :: ps) x ↔ q.1 ≤ x < q.2 ∨ piece_at ps x.
Proof. unfold piece_at. setoid_rewrite elem_of_cons. naive_solver. Qed.

Lemma cut_cons o d frags c ne : 0 ≤ o → o + zlen d < 2 ^ 64 →
  cut ((o, d) :: frags) c ne =
    if o + zlen d <=? c then cut frags c ne
    else (if c <? o then [(c, o)] else []) ++
         (if ne <=? o + zlen d then [] else cut frags (o + zlen d) ne).
Proof.
  intros Ho Hd. unfold cut. cbn [uncovered]. unfold wadd.
  rewrite wrap_small by (unfold in_width; pose proof (zlen_nonneg d); lia).
  destruct (o + zlen d <=? c); [done|]. destruct (Z.leb_spec ne (o + zlen d)).
  - rewrite (proj2 (Z.ltb_ge _ _)) by lia. rewrite app_nil_r. by destruct (c <? o).
  - rewrite uncovered_acc. destruct (uncovered frags (o + zlen d) ne []) as [ps cu]. simpl.
    destruct (cu <? ne), (c <? o); simpl; done.
Qed.

Lemma cut_spec S p : ∀ c ne, bt_sorted p → Forall (carries S) p → Forall (λ e, 0 < zlen e.2) p →
  (∀ e e', e ∈ p → e' ∈ p → e.1 < e'.1 → frag_end e ≤ e'.1) → Forall (λ e, e.1 < ne) p → c ≤ ne →
  pieces_ok c ne (cut p c ne)
  ∧ (∀ x, c ≤ x < ne → piece_at (cut p c ne) x ↔ ¬ pend_covers p x).
Proof.
  induction p as [|[o d] p IH]; intros c ne Hs Hc Hne Hd Hb Hle.
  { unfold cut. simpl. destruct (Z.ltb_spec c ne); simpl; split; try lia.
    intros x Hx. split; [intros _ (e & ?%elem_of_nil & _); done|].
    intros _. apply piece_at_cons. simpl. lia. }
  inversion Hc as [|? ? (Ho & Hod & _) Hc']; inversion Hne as [|? ? Hlen Hne'];
    inversion Hb as [|? ? Hbo Hb']; subst. simpl in *.
  apply bt_sorted_cons in Hs as [Hlt Hs]. rewrite Forall_forall in Hlt. unfold key_lt in Hlt. simpl in Hlt.
  assert (∀ e e', e ∈ p → e' ∈ p → e.1 < e'.1 → frag_end e ≤ e'.1) as Hd'
    by (intros e e' He He'; apply Hd; by right).
  rewrite cut_cons by done. destruct (Z.leb_spec (o + zlen d) c) as [Hold|Hnew].
  - destruct (IH c ne Hs Hc' Hne' Hd' Hb' Hle) as [Hok Hat]. split; [done|].
    intros x Hx. rewrite Hat, pend_covers_cons by done. simpl.
    split; [intros Hn [?|?]; [lia|done]|tauto].
  - assert (∀ x, c ≤ x < o → ¬ pend_covers ((o, d) :: p) x) as Hbefore.
    { intros x Hx [?|(e & He & ?)]%pend_covers_cons; simpl in *; [lia|].
      specialize (Hlt e He). simpl in *. lia. }
    set (rest := if ne <=? o + zlen d then [] else cut p (o + zlen d) ne).
    assert (pieces_ok (Z.min ne (o + zlen d)) ne rest
      ∧ ∀ x, o ≤ x < ne → piece_at rest x ↔ ¬ pend_covers ((o, d) :: p) x) as [Hrok Hrat].
    { subst rest. destruct (Z.leb_spec ne (o + zlen d)).
      - rewrite Z.min_l by done. split; [simpl; lia|]. intros x Hx. split.
        + intros (q & ?%elem_of_nil & _). done.
        + intros Hn. exfalso. apply Hn. apply pend_covers_cons. left. simpl. lia.
      - rewrite Z.min_r by lia.
        destruct (IH (o + zlen d) ne Hs Hc' Hne' Hd' Hb' ltac:(lia)) as [Hok Hat].
        split; [done|]. intros x Hx. rewrite pend_covers_cons. simpl.
        destruct (Z.lt_ge_cases x (o + zlen d)).
        + split; [|intros Hn; exfalso; apply Hn; left; lia].
          intros (q & Hq & ?). pose proof (pieces_ok_elem _ _ _ _ Hok Hq). lia.
        + rewrite Hat by lia. split; [intros Hn [?|?]; [lia|done]|tauto]. }
    destruct (Z.ltb_spec c o); simpl; (split; [|intros x Hx]).
    + split; [lia|]. eapply pieces_ok_weaken; [|exact Hrok]. lia.
    + rewrite piece_at_cons. simpl. destruct (Z.lt_ge_cases x o) as [Hxo|Hxo].
      * split; [intros _; apply Hbefore; lia|left; lia].
      * rewrite <- Hrat by lia. split; [intros [?|?]; [lia|done]|by right].
    + eapply pieces_ok_weaken; [|exact Hrok]. lia.
    + apply Hrat. lia.
Qed.

Lemma new_pieces_spec S lo hi p offset ne : frags_wf S lo hi p → offset ≤ ne →
  pieces_ok offset ne (new_pieces p offset ne)
  ∧ ∀ x, offset ≤ x < ne → piece_at (new_pieces p offset ne) x ↔ ¬ pend_covers p x.
Proof.
  intros [Hs Hd Hc Hne Hr] Hle. unfold new_pieces.
  set (from := match bt_last_le p offset with Some (k, _) => k | None => offset end).
  fold (cut (bt_range p from ne) offset ne).
  assert (∀ P : Z * bytes → Prop, Forall P p → Forall P (bt_range p from ne)) as HF.
  { intros P HP. apply Forall_forall. intros e [_ He]%list_elem_of_filter.
    rewrite Forall_forall in HP. by apply HP. }
  destruct (cut_spec S (bt_range p from ne) offset ne) as [Hok Hat]; try done.
  - by apply filter_sorted.
  - by apply HF.
  - by apply HF.
  - intros e e' [_ He]%list_elem_of_filter [_ He']%list_elem_of_filter. by apply Hd.
  - apply Forall_forall. intros e [? _]%list_elem_of_filter. lia.
  - split; [done|]. intros x Hx. rewrite Hat by done. apply not_iff_compat.
    unfold pend_covers, bt_range. setoid_rewrite list_elem_of_filter. split; [naive_solver|].
    intros (e & He & Hin). exists e. split; [|done]. split; [|done]. split; [|lia].
    subst from. destruct (bt_last_le p offset) as [[k v]|] eqn:E.
    + apply bt_last_le_Some in E as (Hkv & Hk & Hmax); [|done]. simpl in *.
      destruct (Z.lt_ge_cases e.1 k) as [Hlt|]; [|done]. pose proof (Hd _ _ He Hkv Hlt) as Hdk.
      unfold frag_end in Hdk. simpl in Hdk. lia.
    + pose proof (bt_last_le_None _ _ Hs E _ He). lia.
Qed.

(** What the reassembly fields of a receive half satisfy. *)
Record reasm_wf (S : Z → Z) (r : RecvStream) : Prop := {
  rw_frags : frags_wf S (rs_next_offset r) (rs_max_data r) (rs_pending r);
  rw_bytes : rs_pending_bytes r = pend_bytes (rs_pending r);
  rw_count : zlen (rs_pending r) ≤ MAX_PENDING_FRAGMENTS;
  rw_next : 0 ≤ rs_next_offset r ≤ rs_max_data r;
  rw_max : rs_max_data r < 2 ^ 64 }.

Lemma slice_carries S offset data a b : carries S (offset, data) → offset ≤ a ≤ b →
  b ≤ offset + zlen data →
  carries S (a, ztake (b - a) (zdrop (a - offset) data))
  ∧ zlen (ztake (b - a) (zdrop (a - offset) data)) = b - a.
Proof.
  intros Hc Hab Hb. assert (zlen (ztake (b - a) (zdrop (a - offset) data)) = b - a) as Hz.
  { unfold zlen, ztake, zdrop in *. rewrite length_take, length_drop. lia. }
  split; [|done]. apply ztake_carries.
  - replace a with (offset + (a - offset)) at 1 by lia. apply zdrop_carries; [done|lia].
  - unfold zlen, zdrop in *. rewrite length_drop. lia.
Qed.

(** One piece stored: the backstop on bytes never fires. *)
Lemma store_step S r a d : reasm_wf S r → carries S (a, d) → 0 < zlen d →
  free (rs_pending r) a (a + zlen d) → rs_next_offset r < a → a + zlen d ≤ rs_max_data r →
  sat_add 64 (rs_pending_bytes r) (zlen d) = pend_bytes (rs_pending r) + zlen d
  ∧ pend_bytes (rs_pending r) + zlen d ≤ rs_max_data r - rs_next_offset r.
Proof.
  intros [Hf Hb Hn Hnext Hmax] Hc Hd Hfree Hlo Hhi. rewrite Hb.
  destruct (frags_insert S _ _ _ a d Hf Hfree Hd Hc Hlo Hhi) as (Hwf' & _ & Hpb & _).
  pose proof (pend_bytes_bound _ _ _ _ Hwf' ltac:(lia)) as Hbound.
  pose proof (pend_bytes_nonneg (rs_pending r)). unfold sat_add. lia.
Qed.

(** [r'] is [r] with bytes of the pieces [ps] added to its fragments: all of them if
    there is room for a fragment per piece. *)
Definition stored (S : Z → Z) (r : RecvStream) (ps : list (Z * Z)) (r' : RecvStream) : Prop :=
  (∃ p' pb', r' = set_reassembly (rs_delivered r) (rs_next_offset r) p' pb' r)
  ∧ reasm_wf S r'
  ∧ (∀ x, pend_covers (rs_pending r) x → pend_covers (rs_pending r') x)
  ∧ (∀ x, pend_covers (rs_pending r') x → pend_covers (rs_pending r) x ∨ piece_at ps x)
  ∧ (zlen (rs_pending r) + zlen ps ≤ MAX_PENDING_FRAGMENTS →
     ∀ x, piece_at ps x → pend_covers (rs_pending r') x).

Lemma stored_none S r ps : reasm_wf S r →
  (zlen (rs_pending r) + zlen ps ≤ MAX_PENDING_FRAGMENTS → ps = []) → stored S r ps r.
Proof.
  intros Hwf Hps. split_and!; try done.
  - exists (rs_pending r), (rs_pending_bytes r). by destruct r.
  - by left.
  - intros Hroom x (q & Hq & _). rewrite (Hps Hroom) in Hq. by apply elem_of_nil in Hq.
Qed.

(** Storing one piece and then the others. *)
Lemma stored_cons S r b e ps p' pb' r' :
  (∀ x, pend_covers p' x ↔ pend_covers (rs_pending r) x ∨ b ≤ x < e) →
  zlen p' ≤ zlen (rs_pending r) + 1 →
  stored S (set_reassembly (rs_delivered r) (rs_next_offset r) p' pb' r) ps r' →
  stored S r ((b, e) :: ps) r'.
Proof.
  intros Hcov Hlen ((p'' & pb'' & ->) & Hwf & H1 & H2 & H3). simpl in *.
  split_and!; simpl; try done.
  - by exists p'', pb''.
  - intros x Hx. apply H1, Hcov. by left.
  - intros x Hx. rewrite piece_at_cons. simpl. apply H2 in Hx as [Hx|Hx]; [|tauto].
    apply Hcov in Hx as [?|?]; tauto.
  - intros Hroom x. unfold zlen in Hroom, Hlen, H3. simpl in Hroom. rewrite piece_at_cons. simpl.
    intros [Hx|Hx]; [apply H1, Hcov; by right|]. apply H3; [lia|done].
Qed.

Lemma store_pieces_spec S offset data ps : ∀ r a,
  reasm_wf S r → carries S (offset, data) → offset + zlen data ≤ rs_max_data r →
  rs_next_offset r < offset → offset ≤ a → pieces_ok a (offset + zlen data) ps →
  (∀ q, q ∈ ps → free (rs_pending r) q.1 q.2) →
  stored S r ps (store_pieces r offset data ps).
Proof.
  induction ps as [|[b e] ps IH]; intros r a Hwf Hc Hmax Hlo Ha Hok Hfree.
  { by apply stored_none. }
  destruct Hok as [Hbe Hok]. cbn [fst snd] in Hbe, Hok.
  assert (e ≤ offset + zlen data) as Hene.
  { destruct ps as [|q ps]; [done|]. pose proof (pieces_ok_elem _ _ _ q Hok ltac:(left)). lia. }
  cbn [store_pieces]. set (d := ztake (e - b) (zdrop (b - offset) data)).
  destruct (slice_carries S offset data b e Hc ltac:(lia) ltac:(lia)) as [Hcd Hzd]. fold d in Hcd, Hzd.
  pose proof (Hfree (b, e) ltac:(left)) as Hfr. cbn [fst snd] in Hfr.
  replace e with (b + zlen d) in Hfr by lia.
  destruct (store_step S r b d Hwf Hcd ltac:(lia) Hfr ltac:(lia) ltac:(lia)) as [Hproj Hbud].
  pose proof Hwf as [Hf Hb Hcnt Hnext Hm].
  rewrite Hproj. rewrite (proj2 (Z.ltb_ge (sat_sub _ _) _)) by (unfold sat_sub; lia).
  assert (∀ p', frags_wf S (rs_next_offset r) (rs_max_data r) p' →
    (∀ x, pend_covers p' x ↔ pend_covers (rs_pending r) x ∨ b ≤ x < b + zlen d) →
    pend_bytes p' = pend_bytes (rs_pending r) + zlen d →
    zlen p' ≤ MAX_PENDING_FRAGMENTS → zlen p' ≤ zlen (rs_pending r) + 1 →
    stored S r ((b, e) :: ps) (store_pieces (set_reassembly (rs_delivered r) (rs_next_offset r) p'
      (pend_bytes (rs_pending r) + zlen d) r) offset data ps)) as Hstep.
  { intros p' Hf' Hcov Hpb Hcnt' Hlen. replace (b + zlen d) with e in Hcov by lia.
    eapply stored_cons; [exact Hcov|done|]. apply (IH _ e); try done; [lia|].
    intros q Hq x Hx Hcx. apply Hcov in Hcx as [Hcx|Hcx].
    + by apply (Hfree q ltac:(by right) x Hx).
    + pose proof (pieces_ok_elem _ _ _ _ Hok Hq). lia. }
  assert (stored S r ((b, e) :: ps) (if MAX_PENDING_FRAGMENTS <=? zlen (rs_pending r) then r
    else store_pieces (set_reassembly (rs_delivered r) (rs_next_offset r)
      (bt_insert (rs_pending r) b d) (pend_bytes (rs_pending r) + zlen d) r) offset data ps)) as Hfresh.
  { destruct (Z.leb_spec MAX_PENDING_FRAGMENTS (zlen (rs_pending r))) as [Hfull|Hroom].
    - apply stored_none; [done|]. intros Hroom. unfold zlen in Hroom, Hfull. simpl in Hroom. lia.
    - destruct (frags_insert S _ _ _ b d Hf Hfr ltac:(lia) Hcd ltac:(lia) ltac:(lia)) as (? & ? & ? & Hl).
      apply Hstep; try done; lia. }
  destruct (bt_last_lt (rs_pending r) b) as [[k v]|] eqn:Hlast; [|exact Hfresh].
  apply bt_last_le_Some in Hlast as (Hkv & Hk & _); [|apply Hf]. simpl in Hk.
  pose proof (fw_carries _ _ _ _ Hf) as Hcar. rewrite Forall_forall in Hcar.
  destruct (Hcar _ Hkv) as (Hk0 & Hkl & _). simpl in Hk0, Hkl.
  unfold wadd. rewrite wrap_small by (unfold in_width; pose proof (zlen_nonneg v); lia).
  destruct (Z.eqb_spec (k + zlen v) b) as [<-|]; [|exact Hfresh].
  destruct (frags_extend S _ _ _ k v d Hf Hkv Hfr ltac:(lia) Hcd ltac:(lia)) as (? & ? & ? & Hl).
  apply Hstep; try done; lia.
Qed.

Lemma length_cut p : ∀ c ne, zlen (cut p c ne) ≤ zlen p + 1.
Proof.
  intros c ne. unfold cut. enough (zlen (uncovered p c ne []).1 ≤ zlen p) as H.
  { destruct (uncovered p c ne []) as [ps cu]. simpl in H. destruct (cu <? ne); [|lia].
    rewrite zlen_app. unfold zlen in *. simpl. lia. }
  revert c. induction p as [|[o d] p IH]; intros c; simpl; [done|].
  destruct (_ <=? c); [specialize (IH c); unfold zlen in *; simpl; lia|].
  destruct (c <? o), (ne <=? _); simpl; try (unfold zlen; simpl; lia).
  - rewrite uncovered_acc. simpl. specialize (IH (wadd 64 o (zlen d))). unfold zlen in *. simpl. lia.
  - specialize (IH (wadd 64 o (zlen d))). unfold zlen in *. simpl in *. lia.
Qed.

Lemma length_new_pieces p offset ne : zlen (new_pieces p offset ne) ≤ zlen p + 1.
Proof.
  unfold new_pieces. set (from := match bt_last_le p offset with Some (k, _) => k | None => offset end).
  fold (cut (bt_range p from ne) offset ne). pose proof (length_cut (bt_range p from ne) offset ne).
  pose proof (length_filter (λ e : Z * bytes, from ≤ e.1 < ne) p). unfold bt_range, zlen in *. lia.
Qed.

(** ** Absorbing *)

(** [absorb] is the drain of the CRYPTO buffer, with the byte counters kept. *)
Lemma absorb_drain p : ∀ del next pb n p' del' next' pb' n',
  Forall (λ e, 0 ≤ e.1 ∧ e.1 + zlen e.2 < 2 ^ 64) p → pb = pend_bytes p → 0 ≤ n ≤ next →
  next < 2 ^ 64 → absorb p del next pb n = (p', del', next', pb', n') →
  ∃ rel, (∀ rel0, drain p next rel0 = (p', next', rel0 ++ rel))
    ∧ del' = del ++ rel ∧ pb' = pend_bytes p' ∧ n' = n + zlen rel.
Proof.
  induction p as [|[o d] p IH]; intros del next pb n p' del' next' pb' n' Hb Hpb Hn Hnx Ha;
    cbn [absorb] in Ha.
  { simplify_eq. exists []. rewrite app_nil_r. split_and!; try done; [intros; by rewrite app_nil_r|].
    unfold zlen. simpl. lia. }
  inversion Hb as [|? ? [Ho Hod] Hb']; subst. cbn [fst snd] in Ho, Hod. cbn [drain].
  pose proof (zlen_nonneg d). pose proof (pend_bytes_nonneg p).
  destruct (Z.leb_spec o next).
  2:{ simplify_eq. exists []. rewrite app_nil_r. split_and!; try done; [intros; by rewrite app_nil_r|].
      unfold zlen. simpl. lia. }
  assert (sat_sub (pend_bytes ((o, d) :: p)) (zlen d) = pend_bytes p) as Hsub
    by (unfold sat_sub, pend_bytes in *; simpl; lia).
  rewrite Hsub in Ha. revert Ha. unfold wadd. rewrite (wrap_small 64 (o + zlen d)) by (unfold in_width; lia).
  destruct (Z.leb_spec (o + zlen d) next) as [Hold|Hnew]; intros Ha.
  - by apply IH in Ha.
  - assert (zlen (zdrop (next - o) d) = o + zlen d - next) as Hz
      by (unfold zlen, zdrop in *; rewrite length_drop; lia).
    rewrite wrap_small in Ha by (unfold in_width; lia).
    apply IH in Ha as (rel & Hdr & -> & -> & ->); try done; [|lia].
    exists (zdrop (next - o) d ++ rel). split_and!; try done.
    + intros rel0. by rewrite Hdr, <- app_assoc.
    + by rewrite <- app_assoc.
    + rewrite zlen_app. lia.
Qed.

(** [x] has been received: delivered at some time, or pending. *)
Definition received (r : RecvStream) (x : Z) : Prop :=
  0 ≤ x < rs_next_offset r ∨ pend_covers (rs_pending r) x.

(** The bytes of [[offset, offset + len)] went in: [r'] released [n] bytes. *)
Record took (S : Z → Z) (r r' : RecvStream) (offset len n : Z) (whole : Prop) : Prop := {
  tk_wf : reasm_wf S r';
  tk_next : rs_next_offset r' = rs_next_offset r + n;
  tk_n : 0 ≤ n;
  tk_delivered : rs_delivered r' = rs_delivered r ++ stream_slice S (rs_next_offset r) (Z.to_nat n);
  tk_mono : ∀ x, received r x → received r' x;
  tk_new : ∀ x, 0 ≤ x → received r' x → received r x ∨ offset ≤ x < offset + len;
  tk_whole : whole → ∀ x, offset ≤ x < offset + len → received r' x;
  tk_keep : rs_read_off r' = rs_read_off r ∧ rs_max_data r' = rs_max_data r
    ∧ rs_window r' = rs_window r ∧ rs_stop_sending_sent r' = rs_stop_sending_sent r }.

Lemma frags_wf_suffix S lo lo' hi p gone p' : frags_wf S lo hi p → p = gone ++ p' →
  Forall (λ e, lo' < e.1) p' → frags_wf S lo' hi p'.
Proof.
  intros [Hs Hd Hc Hne Hr] -> Hlo. apply Forall_app in Hc as [_ Hc], Hne as [_ Hne], Hr as [_ Hr].
  split; try done.
  - unfold bt_sorted in *. by eapply StronglySorted_app_1_r.
  - intros e e' He He'. apply Hd; apply elem_of_app; by right.
  - rewrite !Forall_forall in *. intros e He. specialize (Hlo e He). specialize (Hr e He). lia.
Qed.

Lemma covers_below S lo hi p x : frags_wf S lo hi p → pend_covers p x → lo < x < hi.
Proof.
  intros [_ _ _ _ Hr] (e & He & Hx). rewrite Forall_forall in Hr.
  destruct (Hr e He). unfold frag_end in *. lia.
Qed.

Lemma append_in_order_spec S r data r' n : reasm_wf S r → carries S (rs_next_offset r, data) →
  rs_next_offset r + zlen data ≤ rs_max_data r → append_in_order r data = (r', n) →
  took S r r' (rs_next_offset r) (zlen data) n True.
Proof.
  intros Hwf (Hc0 & _ & Hdata) Hle Ha. cbn [fst snd] in Hc0, Hdata.
  pose proof Hwf as [Hf Hb Hcnt Hnext Hm]. pose proof (zlen_nonneg data) as Hlen.
  unfold append_in_order, wadd in Ha. rewrite wrap_small in Ha by (unfold in_width; lia).
  destruct (absorb _ _ _ _ _) as [[[[p' del'] next'] pb'] n'] eqn:E. injection Ha as <- <-.
  apply absorb_drain in E as (rel & Hdr & -> & -> & ->); [|..|lia|lia].
  2:{ eapply Forall_impl; [apply Hf|]. intros e (? & ? & _). lia. }
  2:{ done. }
  specialize (Hdr []). simpl in Hdr.
  apply (drain_spec S) in Hdr as ((gone & Hgone) & Hbey & Hnx & -> & Hcov);
    [|apply Hf|apply Hf|lia]. simpl in *.
  set (m := Z.to_nat (next' - (rs_next_offset r + zlen data))) in *.
  assert (zlen (stream_slice S (rs_next_offset r + zlen data) m) = next' - (rs_next_offset r + zlen data))
    as Hzl by (unfold zlen; rewrite length_stream_slice; unfold m, zlen in *; lia).
  assert (next' ≤ rs_max_data r) as Hmax'.
  { destruct (Z.eq_dec next' (rs_next_offset r + zlen data)); [lia|].
    destruct (proj1 (Hcov (next' - 1) ltac:(lia)) ltac:(left; lia)) as [?|Hp]; [lia|].
    pose proof (covers_below _ _ _ _ _ Hf Hp). lia. }
  split; simpl.
  - split; simpl; try done; [by eapply frags_wf_suffix| |lia].
    rewrite Hgone, zlen_app in Hcnt. pose proof (zlen_nonneg gone). lia.
  - lia.
  - lia.
  - rewrite <- app_assoc. f_equal.
    replace (Z.to_nat (zlen data + zlen (stream_slice S (rs_next_offset r + zlen data) m)))
      with (length data + m)%nat by (unfold m, zlen in *; lia).
    rewrite stream_slice_app. f_equal. exact Hdata.
  - intros x Hx. assert (0 ≤ x) by (destruct Hx as [?|Hx]; [lia|];
      pose proof (covers_below _ _ _ _ _ Hf Hx); lia).
    unfold received in *. simpl. destruct (proj2 (Hcov x ltac:(lia))) as [?|?];
      [destruct Hx; [left; lia|by right]|left; lia|by right].
  - intros x Hx0 Hx. unfold received in *. simpl in Hx.
    destruct (proj1 (Hcov x Hx0)) as [?|?]; [destruct Hx; [left; lia|by right]| |left; by right].
    destruct (Z.lt_ge_cases x (rs_next_offset r)); [left; left; lia|right; lia].
  - intros _ x Hx. left. simpl. lia.
  - done.
Qed.

Lemma store_out_of_order_spec S r offset data : reasm_wf S r → carries S (offset, data) →
  offset + zlen data ≤ rs_max_data r → rs_next_offset r < offset →
  took S r (store_out_of_order r offset data) offset (zlen data) 0
    (2 * zlen (rs_pending r) < MAX_PENDING_FRAGMENTS).
Proof.
  intros Hwf Hc Hle Hlo. pose proof Hwf as [Hf Hb Hcnt Hnext Hm]. pose proof (zlen_nonneg data).
  unfold store_out_of_order, wadd. rewrite wrap_small by (unfold in_width; lia).
  destruct (new_pieces_spec S _ _ _ offset (offset + zlen data) Hf ltac:(lia)) as [Hok Hat].
  pose proof (length_new_pieces (rs_pending r) offset (offset + zlen data)) as Hlp.
  set (ps := new_pieces (rs_pending r) offset (offset + zlen data)) in *.
  assert (∀ q, q ∈ ps → free (rs_pending r) q.1 q.2) as Hfree.
  { intros q Hq x Hx. pose proof (pieces_ok_elem _ _ _ _ Hok Hq).
    apply Hat; [lia|]. by exists q. }
  destruct (store_pieces_spec S offset data ps r offset Hwf Hc Hle Hlo ltac:(lia) Hok Hfree)
    as ((p' & pb' & Heq) & Hwf' & H1 & H2 & H3). rewrite Heq in *. simpl in *.
  split; unfold received; simpl; try done; [lia|by rewrite app_nil_r|..].
  - intros x [?|Hx]; [left; lia|]. right. by apply H1.
  - intros x Hx0 [?|Hx]; [left; left; lia|]. apply H2 in Hx as [?|(q & Hq & ?)]; [tauto|].
    pose proof (pieces_ok_elem _ _ _ _ Hok Hq). right. lia.
  - intros Hroom x Hx. right.
    assert (pend_covers (rs_pending r) x ∨ ¬ pend_covers (rs_pending r) x) as [?|Hn].
    { unfold pend_covers. destruct (decide (Exists (λ e, e.1 ≤ x < e.1 + zlen e.2) (rs_pending r))) as [He|He].
      - left. by apply Exists_exists in He.
      - right. intros Hex. by apply He, Exists_exists. }
    + by apply H1.
    + apply H3; [lia|]. by apply Hat.
Qed.

(** ** The whole receive half *)

Definition state_ok (r : RecvStream) : Prop :=
  match rs_state r with
  | RecvState.Recv => rs_fin_offset r = None ∨ rs_stop_sending_sent r = true
  | RecvState.SizeKnown => ∃ f, rs_fin_offset r = Some f ∧ rs_next_offset r < f
  | RecvState.DataRecvd => rs_fin_offset r = Some (rs_next_offset r)
  | RecvState.DataRead => rs_fin_offset r = Some (rs_next_offset r) ∧ rs_delivered r = []
  | RecvState.ResetRecvd | RecvState.ResetRead =>
      rs_delivered r = [] ∧ rs_pending r = [] ∧ is_Some (rs_fin_offset r)
  end.

(** Everything but the state. *)
Record recv_core (S : Z → Z) (r : RecvStream) : Prop := {
  rc_reasm : reasm_wf S r;
  rc_read : 0 ≤ rs_read_off r ≤ rs_next_offset r;
  rc_delivered : is_reset (rs_state r) = false →
    rs_read_off r + zlen (rs_delivered r) = rs_next_offset r
    ∧ rs_delivered r = stream_slice S (rs_read_off r) (length (rs_delivered r));
  rc_fin : ∀ f, rs_fin_offset r = Some f →
    rs_next_offset r ≤ f ≤ rs_max_data r ∧ Forall (λ e, frag_end e ≤ f) (rs_pending r);
  rc_window : rs_max_data r ≤ rs_read_off r + rs_window r }.

Record recv_wf (S : Z → Z) (r : RecvStream) : Prop := {
  rv_core : recv_core S r;
  rv_state : state_ok r }.

Lemma recv_new_wf S m : u64 m → recv_wf S (recv_new m).
Proof.
  intros [? ?]. split; [|by left]. split; simpl; try done; try lia.
  split; simpl; try done; try lia. split; try constructor. intros e e' He. by apply elem_of_nil in He.
Qed.

Lemma highest_pending_spec S lo hi p f : frags_wf S lo hi p →
  highest_pending p ≤ f ↔ 0 ≤ f ∧ Forall (λ e, frag_end e ≤ f) p.
Proof.
  intros [_ _ Hc _ _]. induction Hc as [|e p (H1 & H2 & _) Hc IH]; simpl.
  { split; [intros; split; [done|constructor]|tauto]. }
  unfold wadd at 1. rewrite wrap_small by (unfold in_width; pose proof (zlen_nonneg e.2); lia).
  rewrite Forall_cons. unfold frag_end at 1. split.
  - intros Hmax. destruct (proj1 IH ltac:(lia)) as [? ?]. split_and!; [done|lia|done].
  - intros (? & ? & ?). pose proof (proj2 IH ltac:(done)). lia.
Qed.

(** Once the final size is reached nothing is pending. *)
Lemma fin_no_pending S r f : reasm_wf S r → Forall (λ e, frag_end e ≤ f) (rs_pending r) →
  f ≤ rs_next_offset r → rs_pending r = [].
Proof.
  intros [[_ _ _ Hne Hr] _ _ _ _] Hfe Hle. destruct (rs_pending r) as [|e p]; [done|].
  inversion Hne; inversion Hr as [|? ? [? ?] ?]; inversion Hfe; subst. unfold frag_end in *. lia.
Qed.

Lemma took_core S r r' offset len n w : recv_core S r → is_reset (rs_state r) = false →
  took S r r' offset len n w → rs_fin_offset r' = rs_fin_offset r →
  (∀ f, rs_fin_offset r = Some f → offset + len ≤ f) → recv_core S r'.
Proof.
  intros [Hre Hrd Hdel Hfin Hwin] Hnr [Hwf Hnext Hn Hd Hmono Hnew _ (K1 & K2 & K3 & _)] K4 Hf.
  destruct (Hdel Hnr) as [Hdl Hds]. split; rewrite ?K1, ?K2, ?K3; try done; try lia.
  - intros _. rewrite Hd, zlen_app, length_app, stream_slice_app, length_stream_slice.
    split; [unfold zlen in *; rewrite length_stream_slice; lia|]. f_equal; [done|].
    f_equal. unfold zlen in *. lia.
  - rewrite K4. intros f Hff. destruct (Hfin f Hff) as [Hnf Hpf]. specialize (Hf f Hff).
    assert (∀ x, 0 ≤ x → received r' x → x < f) as Hlt.
    { intros x Hx0 Hx. apply Hnew in Hx as [[?|(e & He & ?)]|?]; [lia| |lia|done].
      rewrite Forall_forall in Hpf. specialize (Hpf e He). unfold frag_end in *. lia. }
    pose proof (rw_next _ _ Hwf). split.
    + split; [|lia]. destruct (Z.le_gt_cases (rs_next_offset r') f) as [|Hgt]; [done|].
      specialize (Hlt (rs_next_offset r' - 1) ltac:(lia) ltac:(left; lia)). lia.
    + apply Forall_forall. intros e He. pose proof (rw_frags _ _ Hwf) as [_ _ Hc Hne _].
      rewrite Forall_forall in Hne, Hc. specialize (Hne e He). destruct (Hc e He) as (? & _).
      unfold frag_end. specialize (Hlt (e.1 + zlen e.2 - 1) ltac:(lia)).
      enough (e.1 + zlen e.2 - 1 < f) by lia. apply Hlt. right. exists e. split; [done|lia].
Qed.

Lemma reasm_set_state S r st : reasm_wf S r → reasm_wf S (set_recv_state st r).
Proof. intros []. by split. Qed.

Lemma core_set_state S r st : recv_core S r → is_reset (rs_state r) = false →
  recv_core S (set_recv_state st r).
Proof.
  intros [Hre ? Hdel ? ?] Hnr. split; try done; [by apply reasm_set_state|]. intros _. by apply Hdel.
Qed.

(** [fin_state] establishes the state once the bytes are in. *)
Lemma fin_state_wf S r : recv_core S r → is_reset (rs_state r) = false →
  (rs_fin_offset r = None → rs_state r = RecvState.Recv) →
  (rs_state r = RecvState.DataRecvd → rs_fin_offset r = Some (rs_next_offset r)) →
  recv_wf S (fin_state r).
Proof.
  intros Hcore Hnr Hnone Hdr. pose proof Hcore as [Hre Hrd Hdel Hfin Hwin].
  unfold fin_state. destruct (rs_fin_offset r) as [f|] eqn:Ef.
  - destruct (Hfin f eq_refl) as [Hnf Hpf]. destruct (Z.eqb_spec (rs_next_offset r) f) as [He|Hne]; simpl.
    + rewrite (fin_no_pending S r f) by (done || lia). simpl. split; [by apply core_set_state|].
      unfold state_ok. simpl. rewrite Ef. by f_equal.
    + case_bool_decide as Hst; [apply Hdr in Hst; congruence|]. split; [by apply core_set_state|].
      unfold state_ok. simpl. exists f. split; [done|lia].
  - split; [done|]. unfold state_ok. rewrite (Hnone eq_refl). by left.
Qed.

(** [took] only looks at the reassembly fields. *)
Lemma took_set_state S r r' offset len n w st : took S r r' offset len n w →
  took S r (set_recv_state st r') offset len n w.
Proof. intros []. split; try done. by apply reasm_set_state. Qed.

Lemma took_fin_state S r r' offset len n w : took S r r' offset len n w →
  took S r (fin_state r') offset len n w ∧ rs_fin_offset (fin_state r') = rs_fin_offset r'.
Proof.
  intros Ht. unfold fin_state.
  repeat case_match; (split; [try done; by apply took_set_state|done]).
Qed.

Lemma on_data_trimmed_spec S r offset data r' n :
  recv_core S r → is_reset (rs_state r) = false →
  (rs_fin_offset r = None → rs_state r = RecvState.Recv) →
  (rs_state r = RecvState.DataRecvd → rs_fin_offset r = Some (rs_next_offset r)) →
  carries S (offset, data) → rs_next_offset r ≤ offset → offset + zlen data ≤ rs_max_data r →
  (∀ f, rs_fin_offset r = Some f → offset + zlen data ≤ f) →
  on_data_trimmed r offset data = (r', n) →
  recv_wf S r'
  ∧ took S r r' offset (zlen data) n
      (2 * zlen (rs_pending r) < MAX_PENDING_FRAGMENTS ∨ offset ≤ rs_next_offset r)
  ∧ rs_fin_offset r' = rs_fin_offset r ∧ is_reset (rs_state r') = false.
Proof.
  intros Hcore Hnr Hnone Hdr Hc Hlo Hhi Hf. unfold on_data_trimmed.
  destruct (if offset =? rs_next_offset r then _ else _) as [r1 n1] eqn:E. intros [= <- <-].
  assert (took S r r1 offset (zlen data) n1
      (2 * zlen (rs_pending r) < MAX_PENDING_FRAGMENTS ∨ offset ≤ rs_next_offset r)
    ∧ rs_fin_offset r1 = rs_fin_offset r ∧ rs_state r1 = rs_state r) as (Ht & Hfin & Hst).
  { destruct (Z.eqb_spec offset (rs_next_offset r)) as [->|Hne].
    - assert (rs_fin_offset r1 = rs_fin_offset r ∧ rs_state r1 = rs_state r) as [-> ->].
      { unfold append_in_order in E. destruct (absorb _ _ _ _ _) as [[[[? ?] ?] ?] ?].
        by injection E as <- <-. }
      apply append_in_order_spec with (S := S) in E; [|apply Hcore|done|done].
      destruct E as [? ? ? ? ? ? Hw ?]. split; [split; try done; intros _; by apply Hw|done].
    - injection E as <- <-. split.
      { destruct (store_out_of_order_spec S r offset data) as [? ? ? ? ? ? Hw ?]; try done;
          [apply Hcore|lia|]. split; try done. intros [?|?]; [by apply Hw|lia]. }
      unfold store_out_of_order. generalize (new_pieces (rs_pending r) offset (wadd 64 offset (zlen data))) as ps.
      clear. intros ps. revert r. induction ps as [|[b e] ps IH]; intros r; [done|].
      cbn [store_pieces]. repeat case_match; try done; rewrite !(proj1 (IH _)), !(proj2 (IH _)); done. }
  destruct (took_fin_state S r r1 _ _ _ _ Ht) as [Ht' Hfin']. split_and!; [|done|congruence|].
  2:{ unfold fin_state. repeat case_match; simpl; congruence. }
  pose proof (took_core _ _ _ _ _ _ _ Hcore Hnr Ht Hfin Hf) as Hcore1.
  apply fin_state_wf; [done|by rewrite Hst|by rewrite Hfin, Hst|].
  rewrite Hfin, Hst. intros Hd. rewrite (Hdr Hd) in *. f_equal.
  destruct (rc_fin _ _ Hcore1 _ Hfin) as [? _]. destruct Ht. lia.
Qed.

(** Recording a final size at or above everything received. *)
Lemma record_fin_spec S r end_ : recv_core S r → end_ ≤ rs_max_data r →
  record_fin r end_ =
    if decide (rs_next_offset r ≤ end_ ∧ Forall (λ e, frag_end e ≤ end_) (rs_pending r)
               ∧ (rs_fin_offset r = None ∨ rs_fin_offset r = Some end_))
    then Ok (set_fin (Some end_) r) else Err StreamError.FinalSize.
Proof.
  intros [[Hf _ _ Hn _] _ _ _ _] Hmax. unfold record_fin.
  pose proof (highest_pending_spec S _ _ _ end_ Hf) as Hh.
  destruct (Z.ltb_spec end_ (rs_next_offset r)); simpl; [rewrite decide_False by lia; done|].
  destruct (Z.ltb_spec end_ (highest_pending (rs_pending r))); simpl.
  { rewrite decide_False; [done|]. intros (_ & Hp & _). pose proof (proj2 Hh ltac:(split; [lia|done])). lia. }
  destruct (proj1 Hh ltac:(lia)) as [_ Hp].
  destruct (rs_fin_offset r) as [f|]; [|by rewrite decide_True by auto].
  destruct (Z.eqb_spec f end_) as [->|]; simpl; [by rewrite decide_True by auto|].
  rewrite decide_False; [done|]. intros (_ & _ & [[=]|[=]]). done.
Qed.

Lemma core_set_fin S r end_ : recv_core S r → rs_next_offset r ≤ end_ ≤ rs_max_data r →
  Forall (λ e, frag_end e ≤ end_) (rs_pending r) → recv_core S (set_fin (Some end_) r).
Proof.
  intros [[] ? ? ? ?] Hle Hp. split; simpl; first [done | by split | by intros f [= <-]].
Qed.

(** What a STREAM frame does to the receive half: nothing to the bytes if the stream was
    reset or the application asked the peer to stop. *)
Definition discards (r : RecvStream) : bool := is_reset (rs_state r) || rs_stop_sending_sent r.

(** The frame contradicts nothing known: within the credit, and with the final size. *)
Record frame_ok (r : RecvStream) (end_ : Z) (fin : bool) : Prop := {
  fk_limit : end_ ≤ rs_max_data r;
  fk_known : ∀ f, rs_fin_offset r = Some f → end_ ≤ f ∧ (fin = true → end_ = f);
  fk_new : fin = true → rs_next_offset r ≤ end_ ∧ Forall (λ e, frag_end e ≤ end_) (rs_pending r) }.

(** The receive half once the FIN bit has been dealt with. *)
Definition fin_recorded (r : RecvStream) (end_ : Z) (fin : bool) : RecvStream :=
  if fin then set_fin (Some end_) r else r.

(** [on_data] on a frame that contradicts nothing, on a half still receiving. *)
Lemma on_data_ok S r offset data fin : recv_wf S r → is_reset (rs_state r) = false →
  0 ≤ offset → frame_ok r (offset + zlen data) fin →
  let r1 := fin_recorded r (offset + zlen data) fin in
  recv_core S r1
  ∧ on_data r offset data fin =
    Ok (if rs_stop_sending_sent r then (r1, 0)
        else if offset <? rs_next_offset r then
          if zlen data <=? rs_next_offset r - offset
          then ((if fin then set_recv_state RecvState.DataRecvd r1 else r1), 0)
          else on_data_trimmed r1 (rs_next_offset r) (zdrop (rs_next_offset r - offset) data)
        else on_data_trimmed r1 offset data).
Proof.
  intros [Hcore Hst] Hnr Ho [Hl Hk Hn] r1. pose proof (rw_max _ _ (rc_reasm _ _ Hcore)) as Hm.
  pose proof (zlen_nonneg data).
  assert (recv_core S r1 ∧ (if fin then record_fin r (offset + zlen data) else Ok r) = Ok r1) as [Hc1 Hrec].
  { unfold r1, fin_recorded. destruct fin; [|done]. destruct (Hn eq_refl) as [Hn1 Hn2]. split.
    - by apply core_set_fin.
    - rewrite (record_fin_spec S) by done. rewrite decide_True; [done|]. split_and!; try done.
      destruct (rs_fin_offset r) as [f|]; [|by left]. right. f_equal. symmetry. by apply (Hk f eq_refl). }
  split; [done|]. unfold on_data. rewrite Hnr. unfold checked_add.
  rewrite (proj2 (Z.ltb_lt _ _)) by lia. cbn [ok_or mbind result_bind].
  rewrite (proj2 (Z.ltb_ge _ _)) by done.
  replace (match rs_fin_offset r with Some _ => _ | None => false end) with false.
  2:{ destruct (rs_fin_offset r) as [f|]; [|done]. destruct (Hk f eq_refl) as [Hle Heq].
      rewrite (proj2 (Z.ltb_ge _ _)) by done. simpl. destruct fin; [|done].
      by rewrite (proj2 (Z.eqb_eq _ _)) by (by apply Heq). }
  rewrite Hrec. cbn [mbind result_bind].
  assert (rs_stop_sending_sent r1 = rs_stop_sending_sent r ∧ rs_next_offset r1 = rs_next_offset r
    ∧ rs_pending r1 = rs_pending r) as (-> & -> & ->) by (unfold r1, fin_recorded; by destruct fin).
  destruct (rs_stop_sending_sent r); [done|]. destruct (Z.ltb_spec offset (rs_next_offset r)); [|done].
  destruct (Z.leb_spec (zlen data) (rs_next_offset r - offset)); [|done]. do 2 f_equal.
  destruct fin; [|done]. destruct (Hn eq_refl) as [Hn1 Hn2].
  rewrite (proj2 (Z.eqb_eq _ _)) by lia. simpl.
  by rewrite (fin_no_pending S r (offset + zlen data)) by (done || lia || apply Hcore).
Qed.

(** Every rejection of [on_data] on a half still receiving, and nothing else. *)
Lemma on_data_err S r offset data fin : recv_wf S r → is_reset (rs_state r) = false → 0 ≤ offset →
  let end_ := offset + zlen data in
  (2 ^ 64 ≤ end_ → on_data r offset data fin = Err StreamError.FinalSize)
  ∧ (rs_max_data r < end_ < 2 ^ 64 → on_data r offset data fin = Err StreamError.FlowControl)
  ∧ (end_ ≤ rs_max_data r → ¬ frame_ok r end_ fin →
     on_data r offset data fin = Err StreamError.FinalSize).
Proof.
  intros [Hcore Hst] Hnr Ho end_. pose proof (rw_max _ _ (rc_reasm _ _ Hcore)) as Hm.
  unfold on_data. rewrite Hnr. unfold checked_add. fold end_. split_and!.
  - intros Hbig. by rewrite (proj2 (Z.ltb_ge _ _)) by done.
  - intros [Hlim Hbig]. rewrite (proj2 (Z.ltb_lt end_ _)) by done. cbn [ok_or mbind result_bind].
    by rewrite (proj2 (Z.ltb_lt _ _)) by done.
  - intros Hlim Hno. rewrite (proj2 (Z.ltb_lt end_ _)) by lia. cbn [ok_or mbind result_bind].
    rewrite (proj2 (Z.ltb_ge _ _)) by done.
    destruct (match rs_fin_offset r with Some _ => _ | None => false end) eqn:Ek; [done|].
    assert (∀ f, rs_fin_offset r = Some f → end_ ≤ f ∧ (fin = true → end_ = f)) as Hk.
    { intros f Hf. rewrite Hf in Ek. apply orb_false_iff in Ek as [E1 E2]. apply Z.ltb_ge in E1.
      split; [done|]. intros ->. apply negb_false_iff, Z.eqb_eq in E2. done. }
    destruct fin.
    2:{ exfalso. by apply Hno. }
    rewrite (record_fin_spec S) by done. rewrite decide_False; [done|]. intros (H1 & H2 & _).
    apply Hno. by split.
Qed.

Lemma carries_stale S r offset data : reasm_wf S r → carries S (offset, data) →
  offset < rs_next_offset r < offset + zlen data →
  carries S (rs_next_offset r, zdrop (rs_next_offset r - offset) data)
  ∧ rs_next_offset r + zlen (zdrop (rs_next_offset r - offset) data) = offset + zlen data.
Proof.
  intros _ Hc Hlt. split.
  - replace (rs_next_offset r) with (offset + (rs_next_offset r - offset)) at 1 by lia.
    apply zdrop_carries; [done|lia].
  - unfold zlen, zdrop in *. rewrite length_drop. lia.
Qed.

Lemma took_nothing S r r' offset len (w : Prop) : reasm_wf S r' →
  rs_next_offset r' = rs_next_offset r → rs_delivered r' = rs_delivered r →
  rs_pending r' = rs_pending r → rs_read_off r' = rs_read_off r → rs_max_data r' = rs_max_data r →
  rs_window r' = rs_window r → rs_stop_sending_sent r' = rs_stop_sending_sent r →
  (w → ∀ x, offset ≤ x < offset + len → received r x) → took S r r' offset len 0 w.
Proof.
  intros Hwf Hn Hd Hp H1 H2 H3 H4 Hw. unfold received in *. split; try done; unfold received.
  - lia.
  - by rewrite Hd, app_nil_r.
  - by rewrite Hn, Hp.
  - intros x _. rewrite Hn, Hp. by left.
  - by rewrite Hn, Hp.
Qed.

Lemma next_not_received S r : reasm_wf S r → ¬ received r (rs_next_offset r).
Proof. intros [Hf _ _ _ _] [?|Hc]; [lia|]. pose proof (covers_below _ _ _ _ _ Hf Hc). lia. Qed.

Lemma on_data_accepts S r offset data fin r' n : recv_wf S r → is_reset (rs_state r) = false →
  on_data r offset data fin = Ok (r', n) → frame_ok r (offset + zlen data) fin.
Proof.
  intros [Hcore _] Hnr Hr. unfold on_data in Hr. rewrite Hnr in Hr.
  apply bind_Ok_inv in Hr as (end_ & He & Hr). unfold checked_add in He.
  destruct (_ <? 2 ^ 64); [|done]. injection He as <-.
  destruct (Z.ltb_spec (rs_max_data r) (offset + zlen data)) as [|Hlim]; [done|].
  destruct (match rs_fin_offset r with Some _ => _ | None => false end) eqn:Ek; [done|].
  apply bind_Ok_inv in Hr as (r1 & Hrec & _). split; [done| |].
  - intros f Hf. rewrite Hf in Ek. apply orb_false_iff in Ek as [E1 E2]. apply Z.ltb_ge in E1.
    split; [done|]. intros ->. by apply negb_false_iff, Z.eqb_eq in E2.
  - intros ->. rewrite (record_fin_spec S) in Hrec by done. case_decide; [tauto|done].
Qed.

(** A frame whose already-delivered prefix was cut off first. *)
Lemma took_widen S r r1 r' off len offset len' n (w w' : Prop) : took S r1 r' off len n w →
  rs_next_offset r1 = rs_next_offset r ∧ rs_pending r1 = rs_pending r
  ∧ rs_delivered r1 = rs_delivered r ∧ rs_read_off r1 = rs_read_off r
  ∧ rs_max_data r1 = rs_max_data r ∧ rs_window r1 = rs_window r
  ∧ rs_stop_sending_sent r1 = rs_stop_sending_sent r →
  0 ≤ offset ≤ off → off + len = offset + len' → off = offset ∨ off = rs_next_offset r →
  (w' → w) → took S r r' offset len' n w'.
Proof.
  intros [T1 T2 T3 T4 T5 T6 T7 T8] (K2 & K3 & K4 & K5 & K6 & K7 & K8) Ho He Hoff Hw.
  assert (∀ x, received r1 x ↔ received r x) as Hrec by (intros; unfold received; by rewrite K2, K3).
  rewrite K2, K4, K5, K6, K7, K8 in *. split; try done.
  - intros x Hx. by apply T5, Hrec.
  - intros x Hx0 Hx. apply T6 in Hx as [Hx|Hx]; [left; by apply Hrec|right; lia|done].
  - intros Hw' x Hx. destruct (Z.lt_ge_cases x off) as [Hlt|Hge]; [|apply T7; [by apply Hw|lia]].
    apply T5, Hrec. left. lia.
Qed.

(** What a frame did, in one statement. *)
Definition data_post (S : Z → Z) (r : RecvStream) (offset : Z) (data : bytes) (fin : bool)
  (r' : RecvStream) (n : Z) : Prop :=
  recv_wf S r'
  ∧ took S r r' offset (zlen data) n
      (discards r = false ∧ (2 * zlen (rs_pending r) < MAX_PENDING_FRAGMENTS
                             ∨ offset ≤ rs_next_offset r))
  ∧ rs_fin_offset r' = (if fin then Some (offset + zlen data) else rs_fin_offset r)
  ∧ is_reset (rs_state r') = false.

Section accepted.
Context (S : Z → Z) (r : RecvStream) (offset : Z) (data : bytes) (fin : bool).
Context (Hwf : recv_wf S r) (Hnr : is_reset (rs_state r) = false).
Context (Hc : carries S (offset, data)) (Hok : frame_ok r (offset + zlen data) fin).
Let r1 := fin_recorded r (offset + zlen data) fin.

Lemma fin_recorded_keeps : rs_state r1 = rs_state r ∧ rs_next_offset r1 = rs_next_offset r
  ∧ rs_pending r1 = rs_pending r ∧ rs_delivered r1 = rs_delivered r
  ∧ rs_read_off r1 = rs_read_off r ∧ rs_max_data r1 = rs_max_data r
  ∧ rs_window r1 = rs_window r ∧ rs_stop_sending_sent r1 = rs_stop_sending_sent r
  ∧ rs_fin_offset r1 = (if fin then Some (offset + zlen data) else rs_fin_offset r).
Proof using. unfold r1, fin_recorded. clear Hok. by destruct fin. Qed.

Lemma fin_recorded_same f : rs_fin_offset r = Some f → rs_fin_offset r1 = Some f.
Proof using Hok.
  intros Hf. destruct Hok as [_ Hk _]. unfold r1, fin_recorded. destruct fin; [|done].
  simpl. f_equal. by apply (Hk f).
Qed.

Lemma fin_recorded_core : recv_core S r1.
Proof using Hwf Hnr Hc Hok. by destruct (on_data_ok S r offset data fin Hwf Hnr (proj1 Hc) Hok). Qed.

Lemma data_discarded : rs_stop_sending_sent r = true → data_post S r offset data fin r1 0.
Proof using Hwf Hnr Hc Hok.
  intros Hss. destruct fin_recorded_keeps as (K1 & K2 & K3 & K4 & K5 & K6 & K7 & K8 & K9).
  pose proof fin_recorded_core as Hc1. destruct Hwf as [Hcore Hst].
  split; [split; [done|]|split; [|split; [done|by rewrite K1]]].
  - unfold state_ok in *. rewrite K1, K2, K4, K8. destruct (rs_state r); try done; [by right|..].
    + destruct Hst as (f & Hf & ?). exists f. split; [by apply fin_recorded_same|done].
    + by apply fin_recorded_same.
    + destruct Hst as [? ?]. split; [by apply fin_recorded_same|done].
  - apply took_nothing; try done; [apply Hc1|]. unfold discards. rewrite Hnr, Hss. by intros [? _].
Qed.

Lemma data_stale : offset + zlen data ≤ rs_next_offset r →
  data_post S r offset data fin (if fin then set_recv_state RecvState.DataRecvd r1 else r1) 0.
Proof using Hwf Hnr Hc Hok.
  intros Hstale. destruct fin_recorded_keeps as (K1 & K2 & K3 & K4 & K5 & K6 & K7 & K8 & K9).
  pose proof fin_recorded_core as Hc1. pose proof Hok as [_ _ Hn]. destruct Hc as (Ho & _).
  assert (∀ x, offset ≤ x < offset + zlen data → received r x) as Hall
    by (simpl in Ho; intros; left; lia).
  unfold data_post, r1, fin_recorded in *. destruct fin.
  - destruct (Hn eq_refl) as [Hge _]. split; [split|split; [|done]].
    + by apply core_set_state.
    + unfold state_ok. simpl. f_equal. lia.
    + apply took_nothing; try done. apply reasm_set_state, Hc1.
  - split; [done|]. split; [|done]. apply took_nothing; try done. apply Hc1.
Qed.

Lemma data_trimmed off d r' n : rs_stop_sending_sent r = false → carries S (off, d) →
  rs_next_offset r ≤ off → off + zlen d = offset + zlen data → offset ≤ off →
  off = offset ∨ off = rs_next_offset r → on_data_trimmed r1 off d = (r', n) →
  data_post S r offset data fin r' n.
Proof using Hwf Hnr Hc Hok.
  intros Hss Hcd Hno Hoe Hoo Hor Ht.
  destruct fin_recorded_keeps as (K1 & K2 & K3 & K4 & K5 & K6 & K7 & K8 & K9).
  pose proof fin_recorded_core as Hc1. pose proof Hok as [Hl Hk _]. destruct Hwf as [Hcore Hst].
  pose proof fin_recorded_same as Hsame. unfold state_ok in Hst.
  apply (on_data_trimmed_spec S) in Ht as (Hwf' & Ht & Hf' & Hr'); try done;
    rewrite ?K1, ?K2, ?K6, ?Hoe; try done.
  - split; [done|]. split; [|split; [congruence|done]].
    eapply took_widen; [exact Ht|by split_and!|destruct Hc; simpl in *; lia|done|done|].
    rewrite K2, K3. intros [_ [?|?]]; [by left|]. right. lia.
  - intros Hnone. destruct (rs_state r); try done.
    + destruct Hst as (f & Hf & _). apply Hsame in Hf. congruence.
    + apply Hsame in Hst. congruence.
    + destruct Hst as [Hst _]. apply Hsame in Hst. congruence.
  - intros Hd. rewrite Hd in Hst. by apply Hsame.
  - intros f. rewrite K9. destruct fin; [intros [= <-]; lia|]. intros Hf. by apply (Hk f).
Qed.
End accepted.

Lemma on_data_reset r offset data fin r' n : is_reset (rs_state r) = true →
  on_data r offset data fin = Ok (r', n) → r' = r ∧ n = 0.
Proof.
  intros Hnr Hr. unfold on_data in Hr. rewrite Hnr in Hr. apply bind_Ok_inv in Hr as (e & _ & Hr).
  destruct (match rs_fin_offset r with Some _ => _ | None => _ end); [done|]. by simplify_eq.
Qed.

Lemma on_data_spec S r offset data fin r' n : recv_wf S r → carries S (offset, data) →
  on_data r offset data fin = Ok (r', n) →
  recv_wf S r'
  ∧ took S r r' offset (zlen data) n
      (discards r = false ∧ (2 * zlen (rs_pending r) < MAX_PENDING_FRAGMENTS
                             ∨ offset ≤ rs_next_offset r))
  ∧ (is_reset (rs_state r) = false → frame_ok r (offset + zlen data) fin
     ∧ rs_fin_offset r' = if fin then Some (offset + zlen data) else rs_fin_offset r)
  ∧ is_reset (rs_state r') = is_reset (rs_state r).
Proof.
  intros Hwf Hc Hr. destruct (is_reset (rs_state r)) eqn:Hnr.
  { destruct (on_data_reset _ _ _ _ _ _ Hnr Hr) as [-> ->]. split_and!; try done.
    apply took_nothing; try done; [apply Hwf|]. unfold discards. rewrite Hnr. by intros [? _]. }
  pose proof (on_data_accepts _ _ _ _ _ _ _ Hwf Hnr Hr) as Hok.
  destruct (on_data_ok S r offset data fin Hwf Hnr (proj1 Hc) Hok) as [_ Heq].
  rewrite Heq in Hr. injection Hr as Hr. clear Heq.
  enough (data_post S r offset data fin r' n) as (? & ? & ? & ?) by (by split_and!).
  destruct (rs_stop_sending_sent r) eqn:Hss.
  { injection Hr as <- <-. by apply data_discarded. }
  destruct (Z.ltb_spec offset (rs_next_offset r)) as [Hold|Hnew].
  - destruct (Z.leb_spec (zlen data) (rs_next_offset r - offset)) as [Hstale|Hfresh].
    + injection Hr as <- <-. apply data_stale; try done. lia.
    + destruct (carries_stale S r offset data) as [Hcs Hes]; [apply Hwf|done|lia|].
      eapply data_trimmed; [..|exact Hr]; try done; [lia..|by right].
  - eapply data_trimmed; [..|exact Hr]; try done. by left.
Qed.

(** ** Reading, resetting, crediting *)

Lemma recv_read_spec S r n r' out fin : recv_wf S r → 0 ≤ n → recv_read r n = (r', out, fin) →
  recv_wf S r'
  ∧ out = stream_slice S (rs_read_off r) (length out) ∧ zlen out = Z.min n (zlen (rs_delivered r))
  ∧ rs_read_off r' = rs_read_off r + zlen out
  ∧ (fin = true ↔ rs_fin_offset r = Some (rs_read_off r') ∧ is_reset (rs_state r) = false
       ∧ rs_state r ≠ RecvState.Recv)
  ∧ (fin = true → rs_state r' = RecvState.DataRead ∧ recv_is_finished r' = true)
  ∧ rs_next_offset r' = rs_next_offset r ∧ rs_fin_offset r' = rs_fin_offset r
  ∧ rs_pending r' = rs_pending r ∧ rs_window r' = rs_window r
  ∧ is_reset (rs_state r') = is_reset (rs_state r).
Proof.
  intros [[Hre Hrd Hdel Hfin Hwin] Hst] Hn. unfold recv_read.
  set (copied := Z.min n (zlen (rs_delivered r))).
  pose proof (zlen_nonneg (rs_delivered r)) as Hdl0. pose proof Hre as [Hf Hb Hcnt Hnx Hm].
  assert (rs_read_off r + zlen (rs_delivered r) ≤ rs_next_offset r
    ∧ rs_delivered r = stream_slice S (rs_read_off r) (length (rs_delivered r))) as [Hle Hsl].
  { destruct (is_reset (rs_state r)) eqn:E; [|destruct (Hdel eq_refl); split; [lia|done]].
    assert (rs_delivered r = []) as ->; [|split; [unfold zlen; simpl; lia|done]].
    unfold state_ok in Hst. destruct (rs_state r); try done; tauto. }
  assert (zlen (ztake copied (rs_delivered r)) = copied) as Hzt
    by (unfold zlen, ztake in *; rewrite length_take; lia).
  assert (zlen (zdrop copied (rs_delivered r)) = zlen (rs_delivered r) - copied) as Hzd
    by (unfold zlen, zdrop in *; rewrite length_drop; lia).
  unfold wadd. rewrite wrap_small by (unfold in_width; lia).
  set (seen := match rs_fin_offset r with Some _ => _ | None => _ end && _). intros [= <- <- <-]. simpl.
  assert (seen = true ↔ rs_fin_offset r = Some (rs_read_off r + copied)
    ∧ is_reset (rs_state r) = false ∧ rs_state r ≠ RecvState.Recv) as Hseen.
  { subst seen. rewrite andb_true_iff. destruct (rs_fin_offset r) as [f|]; [|naive_solver].
    rewrite Z.eqb_eq. destruct (rs_state r); naive_solver. }
  assert (seen = true → zdrop copied (rs_delivered r) = [] ∧ rs_fin_offset r = Some (rs_next_offset r)) as Hlast.
  { intros Hs. apply Hseen in Hs as (Hs1 & Hs2 & _). destruct (Hdel Hs2) as [Hd1 _].
    destruct (Hfin _ Hs1) as [? _].
    assert (zlen (zdrop copied (rs_delivered r)) = 0) as Hz by lia. split.
    - unfold zlen in Hz. apply nil_length_inv. lia.
    - rewrite Hs1. f_equal. lia. }
  assert (is_reset (if seen && bool_decide (zdrop copied (rs_delivered r) = []) then RecvState.DataRead
    else rs_state r) = is_reset (rs_state r)) as Hreset.
  { destruct seen; simpl; [|done]. case_bool_decide; [|done]. by rewrite (proj1 (proj2 (proj1 Hseen eq_refl))). }
  assert (ztake copied (rs_delivered r) = stream_slice S (rs_read_off r) (length (ztake copied (rs_delivered r)))) as Hts.
  { unfold ztake. rewrite Hsl at 1. rewrite take_stream_slice. f_equal. by rewrite length_take. }
  split_and!; try done; [|by rewrite Hzt|].
  - split; [split; simpl; rewrite ?Hreset; try done|].
    + lia.
    + intros Hnr. destruct (Hdel Hnr) as [Hd1 Hd2]. split; [lia|]. unfold zdrop in *.
      rewrite Hd2 at 1. rewrite drop_stream_slice, length_drop. f_equal. unfold zlen in *. lia.
    + lia.
    + unfold state_ok in *. simpl. destruct seen eqn:Es; simpl.
      * destruct (Hlast eq_refl) as [-> Hfn]. simpl. by split.
      * destruct (rs_state r); try done; destruct Hst as [? Hst]; subst; try done.
        -- split; [done|]. by rewrite Hst; unfold zdrop; rewrite drop_nil.
        -- rewrite H. unfold zdrop. by rewrite drop_nil.
        -- rewrite H. unfold zdrop. by rewrite drop_nil.
  - intros Hs. destruct (Hlast Hs) as [-> _]. rewrite Hs. simpl. done.
Qed.

Lemma frags_wf_mono S lo hi hi' p : hi ≤ hi' → frags_wf S lo hi p → frags_wf S lo hi' p.
Proof. intros Hle [? ? ? ? Hr]. split; try done. eapply Forall_impl; [exact Hr|]. simpl. lia. Qed.

Lemma grant_credit_spec S r : recv_wf S r → 0 ≤ rs_window r →
  recv_wf S (grant_credit r) ∧ rs_max_data r ≤ rs_max_data (grant_credit r)
  ∧ ∃ md p, grant_credit r = mkRecvStream (rs_state r) (rs_delivered r) (rs_next_offset r)
      (rs_read_off r) (rs_pending r) (rs_pending_bytes r) (rs_fin_offset r) md
      (rs_max_data_announced r) (rs_window r) (rs_reset_code r) (rs_stop_sending_sent r)
      (rs_stop_sending_pending r) p (rs_conn_fc_credited r).
Proof.
  intros Hwf Hw. pose proof Hwf as [[[Hf Hb Hc Hn Hm] Hrd Hdel Hfin Hwin] Hst].
  assert (recv_wf S r ∧ rs_max_data r ≤ rs_max_data r ∧ ∃ md p, r = mkRecvStream (rs_state r)
    (rs_delivered r) (rs_next_offset r) (rs_read_off r) (rs_pending r) (rs_pending_bytes r)
    (rs_fin_offset r) md (rs_max_data_announced r) (rs_window r) (rs_reset_code r)
    (rs_stop_sending_sent r) (rs_stop_sending_pending r) p (rs_conn_fc_credited r)) as Hsame.
  { split_and!; try done. exists (rs_max_data r), (rs_max_data_pending r). by destruct r. }
  unfold grant_credit. destruct (_ && _); [|exact Hsame].
  destruct (_ <? wadd _ _ _); [|exact Hsame].
  destruct (Z.ltb_spec (rs_max_data r) (sat_add 64 (rs_read_off r) (rs_window r))) as [Hlt|];
    [|exact Hsame].
  unfold sat_add in *. split_and!; [|simpl; lia|by eexists _, _].
  split; [|done]. split; simpl; try done; [|intros f Hff|lia].
  - split; simpl; try done; [eapply frags_wf_mono; [|exact Hf]; lia|lia..].
  - destruct (Hfin f Hff). split; [lia|done].
Qed.

Lemma ack_reset_wf S r : recv_wf S r → recv_wf S (ack_reset r).
Proof.
  intros Hwf. unfold ack_reset. destruct (rs_state r) eqn:E; try exact Hwf.
  destruct Hwf as [[Hre ? Hdel ? ?] Hst]. split; [split; try done; by apply reasm_set_state|].
  unfold state_ok in *. rewrite E in Hst. exact Hst.
Qed.

Lemma ack_reset_keeps r : rs_delivered (ack_reset r) = rs_delivered r
  ∧ rs_read_off (ack_reset r) = rs_read_off r ∧ rs_next_offset (ack_reset r) = rs_next_offset r
  ∧ rs_pending (ack_reset r) = rs_pending r ∧ rs_fin_offset (ack_reset r) = rs_fin_offset r
  ∧ rs_window (ack_reset r) = rs_window r
  ∧ is_reset (rs_state (ack_reset r)) = is_reset (rs_state r).
Proof. unfold ack_reset. destruct (rs_state r) eqn:E; simpl; rewrite ?E; done. Qed.

Lemma stream_read_spec S r n r' out fin : recv_wf S r → 0 ≤ n → 0 ≤ rs_window r →
  stream_read r n = (r', out, fin) →
  recv_wf S r'
  ∧ out = stream_slice S (rs_read_off r) (length out) ∧ zlen out = Z.min n (zlen (rs_delivered r))
  ∧ rs_read_off r' = rs_read_off r + zlen out
  ∧ (fin = true → rs_fin_offset r = Some (rs_read_off r') ∧ is_reset (rs_state r) = false
       ∧ recv_is_finished r' = true)
  ∧ rs_next_offset r' = rs_next_offset r ∧ rs_fin_offset r' = rs_fin_offset r
  ∧ rs_pending r' = rs_pending r ∧ rs_window r' = rs_window r
  ∧ is_reset (rs_state r') = is_reset (rs_state r).
Proof.
  intros Hwf Hn Hw. unfold stream_read. destruct (ack_reset_keeps r) as (A1 & A2 & A3 & A4 & A5 & A6 & A7).
  destruct (recv_read (ack_reset r) n) as [[r1 out1] fin1] eqn:E. intros [= <- <- <-].
  apply (recv_read_spec S) in E as ([Hc1 Hst1] & Hout & Hlen & Hro & Hfin & Hdone & Hnx & Hf & Hp & Hwi & Hr);
    [|by apply ack_reset_wf|done]. rewrite A1, A2, A3, A4, A5, A6, A7 in *.
  destruct (grant_credit_spec S (mkRecvStream (rs_state r1) (rs_delivered r1) (rs_next_offset r1)
    (rs_read_off r1) (rs_pending r1) (rs_pending_bytes r1) (rs_fin_offset r1)
    (rs_max_data r1) (rs_max_data_announced r1) (rs_window r1) (rs_reset_code r1)
    (rs_stop_sending_sent r1) (rs_stop_sending_pending r1) (rs_max_data_pending r1)
    (sat_add 64 (rs_conn_fc_credited r1) (zlen out1)))) as (Hwf' & _ & md & pnd & Heq).
  { destruct Hc1 as [[] ? ? ? ?]. split; [|done]. split; try done. }
  { simpl. lia. }
  split; [exact Hwf'|]. rewrite Heq. simpl. split_and!; try done.
  intros Hs. destruct (proj1 Hfin Hs) as (? & ? & _). by destruct (Hdone Hs).
Qed.

Lemma on_reset_spec S r code size r' : recv_wf S r → on_reset r code size = Ok r' →
  recv_wf S r' ∧ rs_read_off r' = rs_read_off r ∧ rs_window r' = rs_window r
  ∧ is_reset (rs_state r') = true ∧ rs_next_offset r' = rs_next_offset r
  ∧ (∀ x, received r' x → received r x).
Proof.
  intros Hwf Hr. pose proof Hwf as [[[Hf Hb Hc Hn Hm] Hrd Hdel Hfin Hwin] Hst]. unfold on_reset in Hr.
  destruct (Z.ltb_spec size (rs_next_offset r)); [done|].
  destruct (Z.ltb_spec (rs_max_data r) size); [done|].
  destruct (size <? highest_pending (rs_pending r)); [done|].
  destruct (match rs_fin_offset r with Some _ => _ | None => _ end); [done|].
  destruct (is_reset (rs_state r)) eqn:E; [by injection Hr as <-|].
  injection Hr as <-. split_and!; try done.
  - split; [|done]. split; simpl; try done; [|by intros f [= <-]].
    split; simpl; try done. split; try by constructor. by intros e e' He%elem_of_nil.
  - intros x [?|(e & ?%elem_of_nil & _)]; [by left|done].
Qed.

(** ** A peer, a network and an application

    The peer sends the stream [T]: any slices of it, in any order, repeated or not, the
    FIN bit only on a slice that ends the stream.  [out] is what the application has
    read, [fin] whether a read has reported the end. *)
Record recv_system := mkRecvSystem { sys_recv : RecvStream; sys_out : bytes; sys_fin : bool }.

Inductive recv_step (T : bytes) : recv_system → recv_system → Prop :=
| recv_data r out fin offset data f r' n :
    in_stream T (offset, data) → (f = true → offset + zlen data = zlen T) →
    on_data r offset data f = Ok (r', n) →
    recv_step T (mkRecvSystem r out fin) (mkRecvSystem r' out fin)
| recv_app_read r out fin n r' data f :
    0 ≤ n → stream_read r n = (r', data, f) →
    recv_step T (mkRecvSystem r out fin) (mkRecvSystem r' (out ++ data) (fin || f))
| recv_peer_reset r out fin code size r' :
    on_reset r code size = Ok r' →
    recv_step T (mkRecvSystem r out fin) (mkRecvSystem r' out fin)
| recv_app_stop r out fin code :
    recv_step T (mkRecvSystem r out fin) (mkRecvSystem (stop_sending r code) out fin).

Record recv_inv (W : Z) (T : bytes) (s : recv_system) : Prop := {
  ri_wf : recv_wf (stream_of T) (sys_recv s);
  ri_window : rs_window (sys_recv s) = W;
  ri_within : ∀ x, received (sys_recv s) x → x < zlen T;
  ri_size : ∀ f, is_reset (rs_state (sys_recv s)) = false → rs_fin_offset (sys_recv s) = Some f → f = zlen T;
  ri_len : zlen (sys_out s) = rs_read_off (sys_recv s);
  ri_out : sys_out s = stream_slice (stream_of T) 0 (length (sys_out s));
  ri_fin : sys_fin s = true → zlen (sys_out s) = zlen T }.

Lemma stop_sending_wf S r code : recv_wf S r → recv_wf S (stop_sending r code).
Proof.
  intros [[[] ? ? ? ?] Hst]. split; [split; try done; by split|].
  unfold state_ok in *. simpl. destruct (rs_state r); try done. by right.
Qed.

Lemma recv_step_inv W T s s' : 0 ≤ W → recv_inv W T s → recv_step T s s' → recv_inv W T s'.
Proof.
  intros HW [Hwf Hwin Hin Hsz Hlen Hout Hfin] Hstep. destruct Hstep as
    [r out fin offset data f r' n [Hcar Hend] Hf Hr|r out fin n r' data f Hn Hr
    |r out fin code size r' Hr|r out fin code]; simpl in *.
  - pose proof (on_data_spec _ _ _ _ _ _ _ Hwf Hcar Hr) as (Hwf' & Ht & Hok & Hreset).
    destruct Ht as [_ _ _ _ _ Hnew _ (K1 & _ & K3 & _)].
    split; simpl; rewrite ?K1, ?K3; try done.
    + intros x Hx. destruct (Z.lt_ge_cases x 0); [pose proof (zlen_nonneg T); lia|].
      apply Hnew in Hx as [?|?]; [by apply Hin|simpl in *; lia|done].
    + rewrite Hreset. intros f' Hnr. destruct (Hok Hnr) as [_ ->].
      destruct f; [intros [= <-]; by apply Hf|by apply Hsz].
  - destruct (stream_read_spec _ _ _ _ _ _ Hwf Hn ltac:(lia) Hr)
      as (Hwf' & Hd & Hdl & Hro & Hf & Hnx & Hfo & Hp & Hwi & Hrs).
    assert (zlen (out ++ data) = rs_read_off r') as Hl by (rewrite zlen_app; lia).
    split; simpl; try done.
    + congruence.
    + unfold received. rewrite Hnx, Hp. apply Hin.
    + rewrite Hrs, Hfo. apply Hsz.
    + rewrite length_app, stream_slice_app. f_equal; [done|]. rewrite Hd at 1. f_equal.
      unfold zlen in *. lia.
    + rewrite Hl. intros [Hfn|Hfn]%orb_true_iff.
      * apply Hfin in Hfn. pose proof (zlen_nonneg data). pose proof (zlen_nonneg out).
        destruct (rv_core _ _ Hwf') as [? [? Hle] _ _ _].
        destruct (Z.eq_dec (rs_read_off r') 0) as [|Hnz]; [lia|].
        pose proof (Hin (rs_read_off r' - 1) ltac:(left; lia)). lia.
      * destruct (Hf Hfn) as (Hf1 & Hf2 & _). by apply (Hsz _ Hf2).
  - destruct (on_reset_spec _ _ _ _ _ Hwf Hr) as (Hwf' & Hro & Hwi & Hrs & _ & Hrec).
    split; simpl; rewrite ?Hro, ?Hwi; try done.
    + intros x Hx. by apply Hin, Hrec.
    + by rewrite Hrs.
  - split; simpl; try done. by apply stop_sending_wf.
Qed.

Lemma recv_reachable_inv W T s : u64 W →
  rtc (recv_step T) (mkRecvSystem (recv_new W) [] false) s → recv_inv W T s.
Proof.
  intros HW Hrtc. revert Hrtc. apply (rtc_ind_r (recv_inv W T)).
  - split; simpl; try done; [by apply recv_new_wf|].
    intros x [?|(e & ?%elem_of_nil & _)]; [simpl in *; lia|done].
  - intros y z _ Hstep Hy. eapply recv_step_inv; [apply HW|done|done].
Qed.

(** What a receive half buffers fits in the window. *)
Lemma recv_buffered S r : recv_wf S r → 0 ≤ rs_window r →
  zlen (rs_delivered r) + rs_pending_bytes r ≤ rs_window r.
Proof.
  intros [[[Hf Hb Hc Hn Hm] Hrd Hdel Hfin Hwin] Hst] Hw.
  pose proof (pend_bytes_bound _ _ _ _ Hf ltac:(lia)) as Hp. rewrite Hb.
  destruct (is_reset (rs_state r)) eqn:E; [|destruct (Hdel eq_refl); lia].
  assert (rs_delivered r = [] ∧ rs_pending r = []) as [-> ->].
  { unfold state_ok in Hst. destruct (rs_state r); try done; tauto. }
  unfold zlen, pend_bytes. simpl. lia.
Qed.

(** * Properties *)

(** C21: streams arrive intact.  Whatever slices of the stream the network delivers, in
    whatever order and however often, and whenever the application reads, what it has
    read is a prefix of the stream; a read reports the end only when everything has been
    read; and the bytes buffered on the peer's behalf never exceed the receive window,
    in at most 128 fragments. *)
Theorem recv_stream_correct : ∀ W T s, u64 W →
  rtc (recv_step T) (mkRecvSystem (recv_new W) [] false) s →
  sys_out s = take (length (sys_out s)) T
  ∧ (sys_fin s = true → sys_out s = T)
  ∧ zlen (rs_delivered (sys_recv s)) + rs_pending_bytes (sys_recv s) ≤ W
  ∧ zlen (rs_pending (sys_recv s)) ≤ MAX_PENDING_FRAGMENTS.
Proof.
  intros W T s HW Hrtc. pose proof (recv_reachable_inv W T s HW Hrtc) as [Hwf Hwin Hin _ Hlen Hout Hfin].
  assert ((length (sys_out s) ≤ length T)%nat) as Hle.
  { destruct (rv_core _ _ Hwf) as [_ Hrd _ _ _].
    destruct (Z.eq_dec (rs_read_off (sys_recv s)) 0); [unfold zlen in *; lia|].
    pose proof (Hin (rs_read_off (sys_recv s) - 1) ltac:(left; lia)). unfold zlen in *. lia. }
  rewrite stream_slice_prefix in Hout by done. split_and!; [done| | |apply Hwf].
  - intros Hf. rewrite Hout. apply take_ge. specialize (Hfin Hf). unfold zlen in Hfin. lia.
  - rewrite <- Hwin. eapply recv_buffered; [exact Hwf|]. rewrite Hwin. apply HW.
Qed.

Lemma recv_stream_correct_witness : ∃ s,
  rtc (recv_step [1; 2; 3]) (mkRecvSystem (recv_new 10) [] false) s
  ∧ sys_out s = [1; 2; 3] ∧ sys_fin s = true ∧ zlen (rs_delivered (sys_recv s)) = 0.
Proof.
  pose (r0 := recv_new 10).
  pose (r1 := match on_data r0 1 [2; 3] true with Ok (r, _) => r | Err _ => r0 end).
  pose (r2 := match on_data r1 0 [1] false with Ok (r, _) => r | Err _ => r0 end).
  pose (rd := stream_read r2 5).
  assert (rtc (recv_step [1; 2; 3]) (mkRecvSystem r0 [] false)
    (mkRecvSystem rd.1.1 ([] ++ rd.1.2) (false || rd.2))) as Hrun.
  { eapply rtc_l; [apply (recv_data _ _ _ _ 1 [2; 3] true r1 0)|].
    - split; [split_and!; [simpl; lia|reflexivity|reflexivity]|simpl; vm_compute; discriminate].
    - reflexivity.
    - reflexivity.
    - eapply rtc_l; [apply (recv_data _ _ _ _ 0 [1] false r2 3)|].
      + split; [split_and!; [simpl; lia|reflexivity|reflexivity]|simpl; vm_compute; discriminate].
      + discriminate.
      + reflexivity.
      + eapply rtc_l; [apply (recv_app_read _ _ _ _ 5 rd.1.1 rd.1.2 rd.2); [lia|reflexivity]|apply rtc_refl]. }
  eexists. split; [exact Hrun|].
  destruct (recv_stream_correct 10 [1; 2; 3] _ ltac:(split; [lia|reflexivity]) Hrun) as (_ & H & _ & _).
  split; [apply H; reflexivity|]. split; reflexivity.
Defined.

(** One STREAM frame.  An accepted frame keeps the invariant (disjoint fragments
    beyond the next offset, byte and fragment counts, final size, state), appends exactly
    the stream bytes that became contiguous, adds to the received offsets only offsets of
    the frame, and all of them whenever the frame touches the next offset or fewer than
    64 fragments are pending; the next offset is the first one not received. *)
Theorem on_data_correct : ∀ S r offset data fin r' n, recv_wf S r → carries S (offset, data) →
  on_data r offset data fin = Ok (r', n) →
  recv_wf S r'
  ∧ rs_next_offset r' = rs_next_offset r + n
  ∧ rs_delivered r' = rs_delivered r ++ stream_slice S (rs_next_offset r) (Z.to_nat n)
  ∧ (∀ x, received r x → received r' x)
  ∧ (∀ x, 0 ≤ x → received r' x → received r x ∨ offset ≤ x < offset + zlen data)
  ∧ (discards r = false →
     offset ≤ rs_next_offset r ∨ 2 * zlen (rs_pending r) < MAX_PENDING_FRAGMENTS →
     ∀ x, offset ≤ x < offset + zlen data → received r' x)
  ∧ ¬ received r' (rs_next_offset r').
Proof.
  intros S r offset data fin r' n Hwf Hc Hr.
  destruct (on_data_spec _ _ _ _ _ _ _ Hwf Hc Hr) as (Hwf' & [H1 H2 _ H4 H5 H6 H7 _] & _ & _).
  split; [done|]. split; [done|]. split; [done|]. split; [done|]. split; [done|]. split.
  - intros Hd Hor. apply H7. split; [done|]. destruct Hor; [by right|by left].
  - by eapply next_not_received.
Qed.

Lemma on_data_correct_witness : ∃ r' n,
  on_data (recv_new 100) 4 [4; 5; 6] false = Ok (r', n) ∧ recv_wf (λ x, x) r'
  ∧ (∀ x, 4 ≤ x < 4 + zlen [4; 5; 6] → received r' x).
Proof.
  eexists _, _. split; [reflexivity|].
  destruct (on_data_correct (λ x, x) (recv_new 100) 4 [4; 5; 6] false _ _
    (recv_new_wf _ 100 ltac:(split; [lia|reflexivity]))
    ltac:(split_and!; [simpl; lia|reflexivity|reflexivity]) eq_refl) as (Hwf & _ & _ & _ & _ & Hall & _).
  split; [exact Hwf|]. apply Hall; [reflexivity|]. right. reflexivity.
Defined.

(** Rejections.  A half still receiving accepts a STREAM frame exactly when its
    extent is within the credit, does not pass a known final size, and its FIN, if any,
    agrees with the known final size and cuts off nothing already received; otherwise
    the error is FLOW_CONTROL_ERROR for an extent past the credit and FINAL_SIZE_ERROR
    for the rest.  A frame cannot be rejected with another code. *)
Theorem on_data_rejections : ∀ S r offset data fin, recv_wf S r → is_reset (rs_state r) = false →
  0 ≤ offset →
  let end_ := offset + zlen data in
  ((∃ out, on_data r offset data fin = Ok out) ↔ frame_ok r end_ fin)
  ∧ (on_data r offset data fin = Err StreamError.FlowControl ↔ rs_max_data r < end_ < 2 ^ 64)
  ∧ (on_data r offset data fin = Err StreamError.FinalSize ↔
       2 ^ 64 ≤ end_ ∨ (end_ ≤ rs_max_data r ∧ ¬ frame_ok r end_ fin)).
Proof.
  intros S r offset data fin Hwf Hnr Ho end_.
  destruct (on_data_err S r offset data fin Hwf Hnr Ho) as (E1 & E2 & E3). fold end_ in E1, E2, E3.
  pose proof (rw_max _ _ (rc_reasm _ _ (rv_core _ _ Hwf))) as Hm.
  assert (frame_ok r end_ fin → ∃ out, on_data r offset data fin = Ok out) as Hacc.
  { intros Hok. destruct (on_data_ok S r offset data fin Hwf Hnr Ho Hok) as [_ Heq]. eauto. }
  assert (∀ out, on_data r offset data fin = Ok out → frame_ok r end_ fin) as Hacc'.
  { intros [r' n] Hok. by eapply on_data_accepts. }
  split; [split; [intros [out Hout]; by eapply Hacc'|done]|]. split; split.
  - intros Herr. destruct (Z.le_gt_cases end_ (rs_max_data r)) as [Hle|Hgt].
    + assert (¬ frame_ok r end_ fin) as Hno by (intros Hok; destruct (Hacc Hok); congruence).
      rewrite (E3 Hle Hno) in Herr. done.
    + destruct (Z.lt_ge_cases end_ (2 ^ 64)) as [|Hbig]; [lia|]. rewrite (E1 Hbig) in Herr. done.
  - exact E2.
  - intros Herr. destruct (Z.le_gt_cases end_ (rs_max_data r)) as [Hle|Hgt].
    + right. split; [done|]. intros Hok. destruct (Hacc Hok); congruence.
    + left. destruct (Z.lt_ge_cases end_ (2 ^ 64)) as [Hlt|]; [|done].
      rewrite (E2 ltac:(lia)) in Herr. done.
  - intros [Hbig|[Hle Hno]]; [by apply E1|by apply E3].
Qed.

Lemma on_data_rejections_witness :
  on_data (recv_new 5) 4 [1; 2] false = Err StreamError.FlowControl.
Proof.
  apply (on_data_rejections (λ x, x) (recv_new 5) 4 [1; 2] false).
  - apply recv_new_wf. split; [lia|reflexivity].
  - reflexivity.
  - lia.
  - split; reflexivity.
Defined.

(** A stream that was read to its end does not stay finished: the retransmission of
    the last frame with its FIN moves the receive half from [DataRead], documented as
    terminal, back to [DataRecvd], so that it is reported readable again and no longer
    counts as finished until the application reads once more. *)
Theorem retransmitted_fin_reopens : ∀ S r data, recv_wf S r → rs_state r = RecvState.DataRead →
  rs_stop_sending_sent r = false → 0 < zlen data ≤ rs_next_offset r →
  recv_is_finished r = true ∧ is_readable r = false
  ∧ ∃ r', on_data r (rs_next_offset r - zlen data) data true = Ok (r', 0)
      ∧ rs_state r' = RecvState.DataRecvd ∧ is_readable r' = true ∧ recv_is_finished r' = false.
Proof.
  intros S r data Hwf Hst Hss Hlen. pose proof Hwf as [Hcore Hsok]. unfold state_ok in Hsok.
  rewrite Hst in Hsok. destruct Hsok as [Hfin Hdel]. unfold recv_is_finished, is_readable.
  rewrite Hst, Hdel. split; [done|]. split; [done|].
  destruct (rc_fin _ _ Hcore _ Hfin) as [Hle Hp].
  destruct (on_data_ok S r (rs_next_offset r - zlen data) data true) as [_ Heq]; try done.
  - by rewrite Hst.
  - lia.
  - replace (rs_next_offset r - zlen data + zlen data) with (rs_next_offset r) by lia.
    split; [lia| |done]. rewrite Hfin. intros f [= <-]. split; [lia|done].
  - rewrite Heq, Hss. rewrite (proj2 (Z.ltb_lt _ _)), (proj2 (Z.leb_le _ _)) by lia.
    eexists. split; [reflexivity|]. simpl. rewrite orb_true_r. done.
Qed.

Lemma retransmitted_fin_reopens_witness :
  let r := match on_data (recv_new 10) 0 [7; 8] true with
           | Ok (r, _) => (stream_read r 2).1.1 | Err _ => recv_new 10 end in
  recv_is_finished r = true ∧ is_readable r = false
  ∧ ∃ r', on_data r 0 [7; 8] true = Ok (r', 0)
      ∧ rs_state r' = RecvState.DataRecvd ∧ is_readable r' = true ∧ recv_is_finished r' = false.
Proof.
  intros r. apply (retransmitted_fin_reopens (λ x, x + 7) r [7; 8]).
  - destruct (stream_read_spec (λ x, x + 7)
      (match on_data (recv_new 10) 0 [7; 8] true with Ok (r, _) => r | Err _ => recv_new 10 end) 2 r [7; 8] true)
      as [Hwf _]; [|lia|vm_compute; discriminate|reflexivity|exact Hwf].
    refine (proj1 (on_data_spec (λ x, x + 7) (recv_new 10) 0 [7; 8] true _ 2 _ _ _));
      [apply recv_new_wf; split; [lia|reflexivity]|split_and!; [simpl; lia|reflexivity|reflexivity]|reflexivity].
  - reflexivity.
  - reflexivity.
  - split; [reflexivity|vm_compute; discriminate].
Defined.
