(* ===== verification/SendStream.v ===== *)
(** QUIC streams, send half ([src/quic/stream.rs]): the write buffer, the chunks in flight
    and awaiting retransmission, the acknowledged ranges, and the operations of the
    packer, of loss recovery and of the application.  A [VecDeque] is a list with its
    front first; offsets are [u64] and [usize] has 64 bits. *)

From S2P Require Import Prelude TlsBase Varint BTree ByteStream Codec Frame.

Module SendState.
Inductive send_state := Ready | Send | DataSent | DataRecvd | ResetSent | ResetRecvd.
#[global] Instance send_state_dec : EqDecision send_state.
Proof. solve_decision. Defined.
End SendState.
Import SendState(send_state).

(** [(offset, bytes, fin)]. *)
Abbreviation chunk := (Z * bytes * bool)%type.

Record SendStream := mkSendStream {
  ss_state : send_state;
  write_buf : bytes;
  write_off : Z;
  sent_offset : Z;
  acked_offset : Z;
  ss_fin_offset : option Z;
  fin_sent : bool;
  peer_max_data : Z;
  ss_reset_code : option Z;
  blocked_at : option Z;
  reset_pending : bool;
  sent_chunks : list chunk;
  sent_sorted : bool;
  rtx_queue : list chunk;
  acked_ranges : list (Z * Z);
  fin_acked : bool }.

Definition send_new (max_data : Z) : SendStream :=
  mkSendStream SendState.Ready [] 0 0 0 None false max_data None None false [] true [] [] false.

(** Field updates. *)
Definition set_send_state (st : send_state) (s : SendStream) : SendStream :=
  mkSendStream st (write_buf s) (write_off s) (sent_offset s) (acked_offset s) (ss_fin_offset s)
    (fin_sent s) (peer_max_data s) (ss_reset_code s) (blocked_at s) (reset_pending s)
    (sent_chunks s) (sent_sorted s) (rtx_queue s) (acked_ranges s) (fin_acked s).
Definition set_queues (sent : list chunk) (sorted : bool) (rtx : list chunk) (s : SendStream)
  : SendStream :=
  mkSendStream (ss_state s) (write_buf s) (write_off s) (sent_offset s) (acked_offset s)
    (ss_fin_offset s) (fin_sent s) (peer_max_data s) (ss_reset_code s) (blocked_at s)
    (reset_pending s) sent sorted rtx (acked_ranges s) (fin_acked s).

(** * Acknowledged ranges *)

Definition range_covered (ranges : list (Z * Z)) (start end_ : Z) : bool :=
  if end_ <=? start then true
  else match bt_last_le ranges start with
       | Some (s, e) => (s <=? start) && (end_ <=? e)
       | None => false
       end.

(** [ranges.range(k..).next()] *)
Definition bt_first_ge {V} (m : list (Z * V)) (k : Z) : option (Z * V) :=
  head (filter (λ e, k ≤ e.1) m).

(** [while let Some((&s, &e)) = ranges.range(start..).next()]: each round removes an
    entry. *)
Fixpoint merge_loop (fuel : nat) (ranges : list (Z * Z)) (start end_ : Z) : list (Z * Z) * Z :=
  match fuel with
  | O => (ranges, end_)
  | S fuel =>
      match bt_first_ge ranges start with
      | Some (s, e) => if end_ <? s then (ranges, end_)
                       else merge_loop fuel (bt_remove ranges s) start (Z.max end_ e)
      | None => (ranges, end_)
      end
  end.

Definition insert_range (ranges : list (Z * Z)) (start end_ : Z) : list (Z * Z) :=
  if end_ <=? start then ranges
  else
    let '(ranges, start, end_) :=
      match bt_last_le ranges start with
      | Some (s, e) => if start <=? e then (bt_remove ranges s, s, Z.max end_ e)
                       else (ranges, start, end_)
      | None => (ranges, start, end_)
      end in
    let '(ranges, end_) := merge_loop (length ranges) ranges start end_ in
    bt_insert ranges start end_.

(** * Queries *)


Definition has_outbound (self : SendStream) : bool :=
  negb (is_nil (rtx_queue self)) || negb (is_nil (write_buf self))
  || (match ss_fin_offset self with Some _ => true | None => false end && negb (fin_sent self)).

(** [range_covered(ranges, off, off + len) && (!fin || fin_acked)] *)
Definition covered_chunk (ranges : list (Z * Z)) (fin_acked : bool) (c : chunk) : bool :=
  let '(off, b, fin) := c in
  range_covered ranges off (sat_add 64 off (zlen b)) && (negb fin || fin_acked).

Definition chunk_acked (self : SendStream) (c : chunk) : bool :=
  covered_chunk (acked_ranges self) (fin_acked self) c.

Definition has_unacked (self : SendStream) : bool :=
  negb (is_nil (sent_chunks self)) || negb (is_nil (rtx_queue self)).

Definition send_is_finished (self : SendStream) : bool :=
  match ss_state self with
  | SendState.ResetRecvd => negb (reset_pending self)
  | SendState.DataRecvd => is_nil (write_buf self) && negb (has_unacked self)
  | _ => false
  end.

Definition has_rtx (self : SendStream) : bool := negb (is_nil (rtx_queue self)).
Definition peek_rtx (self : SendStream) : option (Z * Z) :=
  match rtx_queue self with (o, b, _) :: _ => Some (o, zlen b) | [] => None end.
Definition available_credit (self : SendStream) : Z := sat_sub (peer_max_data self) (sent_offset self).

(** * Acknowledgement *)

(** [VecDeque::partition_point] on a deque partitioned by the predicate: the number of
    leading elements that satisfy it. *)
Fixpoint partition_point {A} (p : A → bool) (l : list A) : nat :=
  match l with
  | x :: l => if p x then S (partition_point p l) else 0
  | [] => 0
  end.

(** The closure [covered]. *)
Definition inside (ms me : Z) (fin_acked : bool) (c : chunk) : bool :=
  let '(off, b, fin) := c in
  (ms <=? off) && (sat_add 64 off (zlen b) <=? me) && (negb fin || fin_acked).

(** [while hi > lo && !covered(&self.sent_chunks[hi - 1]) { hi -= 1 }] *)
Fixpoint back_off (covered : chunk → bool) (l : list chunk) (lo hi : nat) : nat :=
  match hi with
  | O => O
  | S h => if (lo <? hi)%nat && negb (from_option covered false (l !! h))
           then back_off covered l lo h else hi
  end.

Definition prune_sorted_sent (sent : list chunk) (fin_acked : bool) (ms me : Z) : list chunk :=
  let covered := inside ms me fin_acked in
  let lo := partition_point (λ c, c.1.1 <? ms) sent in
  let hi := partition_point (λ c, c.1.1 <? me) sent in
  let hi := back_off covered sent lo hi in
  if forallb covered (drop lo (take hi sent)) then take lo sent ++ drop hi sent
  else filter (λ c, covered c = false) sent.

Definition on_range_acked (self : SendStream) (offset len : Z) (fin : bool) : SendStream :=
  let fin_newly_acked := fin && negb (fin_acked self) in
  let fin_acked' := fin || fin_acked self in
  let end_ := sat_add 64 offset len in
  let ranges := insert_range (acked_ranges self) offset end_ in
  let acked_offset' := match head ranges with
                       | Some (s, e) => if s =? 0 then e else acked_offset self
                       | None => acked_offset self
                       end in
  let sent :=
    if (offset <? end_) && negb fin_newly_acked && sent_sorted self then
      match bt_last_le ranges offset with
      | Some (ms, me) => prune_sorted_sent (sent_chunks self) fin_acked' ms me
      | None => sent_chunks self
      end
    else filter (λ c, covered_chunk ranges fin_acked' c = false) (sent_chunks self) in
  let sorted := is_nil sent || sent_sorted self in
  let rtx := filter (λ c, covered_chunk ranges fin_acked' c = false) (rtx_queue self) in
  let self := mkSendStream (ss_state self) (write_buf self) (write_off self) (sent_offset self)
    acked_offset' (ss_fin_offset self) (fin_sent self) (peer_max_data self) (ss_reset_code self)
    (blocked_at self) (reset_pending self) sent sorted rtx ranges fin_acked' in
  if fin_acked' && is_nil (write_buf self) && negb (has_unacked self)
     && negb (match ss_state self with SendState.ResetSent | SendState.ResetRecvd => true | _ => false end)
  then set_send_state SendState.DataRecvd self else self.

(** * Emission *)

Definition push_sent (self : SendStream) (c : chunk) : SendStream :=
  if chunk_acked self c then self
  else
    let sorted := match last (sent_chunks self) with
                  | Some back => if c.1.1 <? back.1.1 then false else sent_sorted self
                  | None => true
                  end in
    set_queues (sent_chunks self ++ [c]) sorted (rtx_queue self) self.

Definition encode_stream_header (out : bytes) (id offset len : Z) (fin : bool) : bytes :=
  let t := Z.lor 0x08 0x02 in
  let t := if negb (offset =? 0) then Z.lor t 0x04 else t in
  let t := if fin then Z.lor t 0x01 else t in
  let out := out ++ [t] in
  let out := varint_encode id out in
  let out := if negb (offset =? 0) then varint_encode offset out else out in
  varint_encode len out.

(** The new state, the packet, and [(offset, len, fin)] of what was written. *)
Definition pop_rtx_frame (self : SendStream) (id max_payload : Z) (out : bytes)
  : SendStream * bytes * option (Z * Z * bool) :=
  match rtx_queue self with
  | [] => (self, out, None)
  | (off, b, fin) :: rest =>
      if zlen b <=? max_payload then
        let out := encode_stream_header out id off (zlen b) fin ++ b in
        (push_sent (set_queues (sent_chunks self) (sent_sorted self) rest self) (off, b, fin),
         out, Some (off, zlen b, fin))
      else
        let tail := zdrop max_payload b in
        let b := ztake max_payload b in
        let out := encode_stream_header out id off max_payload false ++ b in
        (push_sent (set_queues (sent_chunks self) (sent_sorted self)
                      ((wadd 64 off max_payload, tail, fin) :: rest) self) (off, b, false),
         out, Some (off, max_payload, false))
  end.

Definition carve_frame (self : SendStream) (id cap : Z) (out : bytes)
  : SendStream * bytes * option (Z * Z * bool) :=
  if negb (has_outbound self) then (self, out, None)
  else
    let offset := write_off self in
    let take := Z.min cap (zlen (write_buf self)) in
    let end_ := wadd 64 offset take in
    let fin := match ss_fin_offset self with
               | Some f => (end_ =? f) && (take =? zlen (write_buf self))
               | None => false
               end && negb (fin_sent self) in
    let b := ztake take (write_buf self) in
    let out := encode_stream_header out id offset take fin ++ b in
    let state := if fin then SendState.DataSent
                 else if bool_decide (ss_state self = SendState.Ready) && (0 <? take)
                 then SendState.Send else ss_state self in
    let self := mkSendStream state (zdrop take (write_buf self)) end_
      (if sent_offset self <? end_ then end_ else sent_offset self) (acked_offset self)
      (ss_fin_offset self) (fin || fin_sent self) (peer_max_data self) (ss_reset_code self)
      (blocked_at self) (reset_pending self) (sent_chunks self) (sent_sorted self)
      (rtx_queue self) (acked_ranges self) (fin_acked self) in
    (push_sent self (offset, b, fin), out, Some (offset, take, fin)).

(** * Loss *)

Definition on_reset_acked (self : SendStream) : SendStream :=
  match ss_state self with
  | SendState.ResetSent => set_send_state SendState.ResetRecvd self
  | _ => self
  end.

Definition set_reset_pending (b : bool) (s : SendStream) : SendStream :=
  mkSendStream (ss_state s) (write_buf s) (write_off s) (sent_offset s) (acked_offset s)
    (ss_fin_offset s) (fin_sent s) (peer_max_data s) (ss_reset_code s) (blocked_at s) b
    (sent_chunks s) (sent_sorted s) (rtx_queue s) (acked_ranges s) (fin_acked s).

Definition on_reset_lost (self : SendStream) : SendStream * bool :=
  if bool_decide (ss_state self = SendState.ResetSent)
     && match ss_reset_code self with Some _ => true | None => false end
  then (set_reset_pending true self, true)
  else (self, false).

(** The test of the loop of [on_range_lost] on one chunk in flight. *)
Definition lost_chunk (self : SendStream) (offset end_ : Z) (fin : bool) (c : chunk) : bool :=
  let '(c_off, c_bytes, c_fin) := c in
  let c_end := wadd 64 c_off (zlen c_bytes) in
  let overlaps_data := (c_off <? end_) && (offset <? c_end) in
  let fin_only_match := is_nil c_bytes && c_fin && fin && (c_off =? offset) in
  (overlaps_data || fin_only_match) && negb (chunk_acked self c).

Definition on_range_lost (self : SendStream) (offset len : Z) (fin : bool) : SendStream * bool :=
  let end_ := sat_add 64 offset len in
  let moved := filter (λ c, lost_chunk self offset end_ fin c = true) (sent_chunks self) in
  let keep := filter (λ c, lost_chunk self offset end_ fin c = false) (sent_chunks self) in
  (set_queues keep (is_nil keep || sent_sorted self) (rtx_queue self ++ moved) self,
   negb (is_nil moved)).

Definition requeue_all_sent (self : SendStream) : SendStream :=
  set_queues [] true
    (rtx_queue self ++ filter (λ c, chunk_acked self c = false) (sent_chunks self)) self.

(** * The application *)

Definition enqueue (self : SendStream) (data : bytes) : SendStream * Z :=
  match ss_state self with
  | SendState.Ready | SendState.Send =>
      let cap := available_credit self in
      let already_buffered := zlen (write_buf self) in
      let stream_room := sat_sub cap already_buffered in
      let take := Z.min stream_room (zlen data) in
      if take =? 0 then (self, 0)
      else
        (mkSendStream SendState.Send (write_buf self ++ ztake take data) (write_off self)
           (sent_offset self) (acked_offset self) (ss_fin_offset self) (fin_sent self)
           (peer_max_data self) (ss_reset_code self) (blocked_at self) (reset_pending self)
           (sent_chunks self) (sent_sorted self) (rtx_queue self) (acked_ranges self)
           (fin_acked self), take)
  | _ => (self, 0)
  end.

Definition finish (self : SendStream) : SendStream :=
  match ss_fin_offset self with
  | Some _ => self
  | None =>
      let fin_off := wadd 64 (write_off self) (zlen (write_buf self)) in
      mkSendStream (ss_state self) (write_buf self) (write_off self) (sent_offset self)
        (acked_offset self) (Some fin_off) (fin_sent self) (peer_max_data self)
        (ss_reset_code self) (blocked_at self) (reset_pending self) (sent_chunks self)
        (sent_sorted self) (rtx_queue self) (acked_ranges self) (fin_acked self)
  end.

Definition requeue (self : SendStream) (offset : Z) (b : bytes) (was_fin : bool) : SendStream :=
  mkSendStream (ss_state self) (b ++ write_buf self) offset (sent_offset self)
    (acked_offset self) (ss_fin_offset self) (if was_fin then false else fin_sent self)
    (peer_max_data self) (ss_reset_code self) (blocked_at self) (reset_pending self)
    (sent_chunks self) (sent_sorted self) (rtx_queue self) (acked_ranges self) (fin_acked self).

Definition enter_reset (self : SendStream) (code : Z) : SendStream :=
  mkSendStream SendState.ResetSent [] (write_off self) (sent_offset self) (acked_offset self)
    (ss_fin_offset self) (fin_sent self) (peer_max_data self) (Some code) (blocked_at self) true
    [] true [] (acked_ranges self) (fin_acked self).

(** The send half's part of [Streams::on_max_stream_data]. *)
Definition on_max_stream_data (self : SendStream) (limit : Z) : SendStream :=
  if peer_max_data self <? limit then
    mkSendStream (ss_state self) (write_buf self) (write_off self) (sent_offset self)
      (acked_offset self) (ss_fin_offset self) (fin_sent self) limit (ss_reset_code self)
      (match blocked_at self with
       | Some prev => if prev <? limit then None else Some prev
       | None => None
       end)
      (reset_pending self) (sent_chunks self) (sent_sorted self) (rtx_queue self)
      (acked_ranges self) (fin_acked self)
  else self.

(** * Acknowledged ranges: lemmas *)

Definition covers (ranges : list (Z * Z)) (x : Z) : Prop := ∃ r, r ∈ ranges ∧ r.1 ≤ x < r.2.

(** Sorted, non-empty, pairwise separated intervals. *)
Record ranges_wf (ranges : list (Z * Z)) : Prop := {
  gw_sorted : bt_sorted ranges;
  gw_nonempty : ∀ r, r ∈ ranges → r.1 < r.2;
  gw_apart : ∀ r r', r ∈ ranges → r' ∈ ranges → r.1 < r'.1 → r.2 < r'.1 }.

Lemma bt_first_ge_Some {V} (m : list (Z * V)) k e : bt_sorted m → bt_first_ge m k = Some e →
  e ∈ m ∧ k ≤ e.1 ∧ ∀ e', e' ∈ m → k ≤ e'.1 → e.1 ≤ e'.1.
Proof.
  unfold bt_first_ge. induction m as [|x m IH]; intros Hs Hh; [done|].
  apply bt_sorted_cons in Hs as [Hlt Hs]. rewrite filter_cons in Hh. case_decide as Hk.
  - injection Hh as <-. split; [by left|]. split; [done|].
    intros e' [->|He']%elem_of_cons _; [done|]. rewrite Forall_forall in Hlt.
    specialize (Hlt _ He'). unfold key_lt in Hlt. lia.
  - destruct (IH Hs Hh) as (He & Hke & Hmin). split; [by right|]. split; [done|].
    intros e' [->|He']%elem_of_cons Hk'; [lia|by apply Hmin].
Qed.

Lemma bt_first_ge_None {V} (m : list (Z * V)) k e : bt_first_ge m k = None → e ∈ m → e.1 < k.
Proof.
  unfold bt_first_ge. intros Hh He. destruct (Z.lt_ge_cases e.1 k) as [|Hge]; [done|].
  assert (e ∈ filter (λ e, k ≤ e.1) m) as Hf by (by apply list_elem_of_filter).
  destruct (filter _ m); [by apply elem_of_nil in Hf|done].
Qed.

Lemma ranges_wf_sub R R' : ranges_wf R → bt_sorted R' → (∀ r, r ∈ R' → r ∈ R) → ranges_wf R'.
Proof. intros [_ H2 H3] Hs Hsub. split; [done|by auto|by auto]. Qed.

Lemma bt_remove_length {V} (m : list (Z * V)) e : e ∈ m → (length (bt_remove m e.1) < length m)%nat.
Proof.
  unfold bt_remove. induction m as [|x m IH]; intros He; [by apply elem_of_nil in He|].
  rewrite filter_cons. case_decide as Hk; simpl.
  - apply elem_of_cons in He as [->|He]; [done|]. specialize (IH He). lia.
  - pose proof (length_filter (λ e0 : Z * V, e0.1 ≠ e.1) m). lia.
Qed.

Lemma sorted_key_inj R (r r' : Z * Z) : ranges_wf R → r ∈ R → r' ∈ R → r.1 = r'.1 → r = r'.
Proof.
  intros [Hs _ _] Hr Hr' He. destruct r as [k v], r' as [k' v']. simpl in He. subst k'.
  apply bt_get_Some in Hr, Hr'; [|done..]. congruence.
Qed.

Lemma merge_loop_spec fuel : ∀ R start end_ R' end',
  (length R ≤ fuel)%nat → ranges_wf R → start < end_ → (∀ r, r ∈ R → r.1 < start → r.2 < start) →
  merge_loop fuel R start end_ = (R', end') →
  ranges_wf R' ∧ end_ ≤ end' ∧ (∀ r, r ∈ R' → r ∈ R ∧ (r.1 < start ∨ end' < r.1))
  ∧ (∀ x, covers R' x ∨ start ≤ x < end' ↔ covers R x ∨ start ≤ x < end_).
Proof.
  induction fuel as [|fuel IH]; intros R start end_ R' end' Hlen Hwf Hse Hbelow Hm; cbn [merge_loop] in Hm.
  { injection Hm as <- <-. destruct R; [|simpl in Hlen; lia]. split_and!; try done.
    by intros r ?%elem_of_nil. }
  destruct (bt_first_ge R start) as [[s e]|] eqn:E.
  2:{ injection Hm as <- <-. split_and!; try done. intros r Hr. split; [done|].
      left. by eapply bt_first_ge_None. }
  apply bt_first_ge_Some in E as (Hin & Hs & Hmin); [|apply Hwf]. simpl in Hs, Hmin.
  destruct (Z.ltb_spec end_ s) as [Hfar|Hnear].
  { injection Hm as <- <-. split_and!; try done. intros r Hr. split; [done|].
    destruct (Z.lt_ge_cases r.1 start); [by left|right]. specialize (Hmin r Hr ltac:(done)). lia. }
  pose proof (gw_nonempty _ Hwf _ Hin) as Hne. simpl in Hne.
  apply IH in Hm as (Hwf' & Hle & Hsub & Hcov).
  - split_and!; [done|lia| |].
    + intros r Hr. destruct (Hsub r Hr) as [[? _]%bt_remove_elem ?]. done.
    + intros x. rewrite Hcov. unfold covers. setoid_rewrite bt_remove_elem. split.
      * intros [(r & [Hr _] & Hx)|Hx]; [left; eauto|].
        destruct (Z.lt_ge_cases x end_); [right; lia|]. left. exists (s, e). split; [done|]. simpl. lia.
      * intros [(r & Hr & Hx)|Hx]; [|right; lia]. destruct (decide (r.1 = s)) as [Hk|Hk].
        -- pose proof (sorted_key_inj R r (s, e) Hwf Hr Hin Hk) as ->. simpl in Hx. right. lia.
        -- left. eauto.
  - pose proof (bt_remove_length R (s, e) Hin). simpl in *. lia.
  - eapply ranges_wf_sub; [exact Hwf|apply bt_remove_sorted, Hwf|]. by intros r [? _]%bt_remove_elem.
  - lia.
  - intros r [Hr _]%bt_remove_elem. by apply Hbelow.
Qed.

(** The range at or before [start] is absorbed when it touches. *)
Lemma insert_range_left R start end_ : ranges_wf R → start < end_ →
  ∃ R1 s1 e1, match bt_last_le R start with
      | Some (s, e) => if start <=? e then (bt_remove R s, s, Z.max end_ e) else (R, start, end_)
      | None => (R, start, end_) end = (R1, s1, e1)
    ∧ ranges_wf R1 ∧ s1 ≤ start ∧ end_ ≤ e1 ∧ (∀ r, r ∈ R1 → r.1 < s1 → r.2 < s1)
    ∧ (∀ r, r ∈ R1 → r ∈ R)
    ∧ (∀ x, covers R1 x ∨ s1 ≤ x < e1 ↔ covers R x ∨ start ≤ x < end_).
Proof.
  intros Hwf He.
  destruct (bt_last_le R start) as [[s e]|] eqn:E.
  - apply bt_last_le_Some in E as (Hin & Hs & Hmax); [|apply Hwf]. simpl in Hs, Hmax.
    destruct (Z.leb_spec start e) as [Htouch|Hapart].
    + exists (bt_remove R s), s, (Z.max end_ e). split_and!; try done; [|lia|..].
      * eapply ranges_wf_sub; [exact Hwf|apply bt_remove_sorted, Hwf|]. by intros r [? _]%bt_remove_elem.
      * intros r [Hr _]%bt_remove_elem Hlt. apply (gw_apart _ Hwf r (s, e) Hr Hin Hlt).
      * by intros r [? _]%bt_remove_elem.
      * intros x. unfold covers. setoid_rewrite bt_remove_elem. split.
        -- intros [(r & [Hr _] & Hx)|Hx]; [left; eauto|].
           destruct (Z.lt_ge_cases x e); [left; exists (s, e); simpl; split; [done|lia]|right; lia].
        -- intros [(r & Hr & Hx)|Hx]; [|right; lia]. destruct (decide (r.1 = s)) as [Hk|Hk].
           ++ pose proof (sorted_key_inj R r (s, e) Hwf Hr Hin Hk) as ->. simpl in Hx. right. lia.
           ++ left. eauto.
    + exists R, start, end_. split_and!; try done; [lia..|]. intros r Hr Hlt.
      destruct (decide (r.1 = s)) as [Hk|Hk].
      * pose proof (sorted_key_inj R r (s, e) Hwf Hr Hin Hk) as ->. done.
      * pose proof (Hmax r Hr ltac:(lia)). pose proof (gw_apart _ Hwf r (s, e) Hr Hin ltac:(simpl; lia)).
        simpl in *. lia.
  - exists R, start, end_. split_and!; try done; [lia..|]. intros r Hr Hlt.
    pose proof (bt_last_le_None _ _ (gw_sorted _ Hwf) E r Hr). lia.
Qed.

Lemma insert_range_spec R start end_ : ranges_wf R →
  ranges_wf (insert_range R start end_)
  ∧ (∀ x, covers (insert_range R start end_) x ↔ covers R x ∨ start ≤ x < end_)
  ∧ (start < end_ → ∃ r, r ∈ insert_range R start end_ ∧ r.1 ≤ start ∧ end_ ≤ r.2
       ∧ ∀ r', r' ∈ insert_range R start end_ → r' ≠ r → r' ∈ R).
Proof.
  intros Hwf. unfold insert_range. destruct (Z.leb_spec end_ start) as [He|He].
  { split_and!; [done| |lia]. intros x. split; [by left|]. intros [|]; [done|lia]. }
  destruct (insert_range_left R start end_ Hwf He)
    as (R1 & s1 & e1 & -> & Hwf1 & Hs1 & He1 & Hbelow & Hsub1 & Hcov1).
  destruct (merge_loop (length R1) R1 s1 e1) as [R2 e2] eqn:Em.
  apply merge_loop_spec in Em as (Hwf2 & Hle2 & Hsub2 & Hcov2); [|done|done|lia|done].
  assert (∀ r, r ∈ bt_insert R2 s1 e2 ↔ r = (s1, e2) ∨ (r ∈ R2 ∧ r.1 ≠ s1)) as Hel
    by (intros; apply bt_insert_elem, Hwf2).
  assert (∀ r, r ∈ R2 → r.1 ≠ s1) as Hnk by (intros r Hr; destruct (Hsub2 r Hr) as [_ [?|?]]; lia).
  split_and!.
  - split; [apply bt_insert_sorted, Hwf2|..].
    + intros r [->|[Hr _]]%Hel; [simpl; lia|by apply (gw_nonempty _ Hwf2)].
    + intros r r' [->|[Hr _]]%Hel [->|[Hr' _]]%Hel Hlt; cbn [fst snd] in *; [lia| | |by apply (gw_apart _ Hwf2)].
      * destruct (Hsub2 r' Hr') as [_ [?|?]]; lia.
      * destruct (Hsub2 r Hr) as [Hr1 [?|?]]; [|lia]. by apply Hbelow.
  - intros x. rewrite <- Hcov1, <- Hcov2. unfold covers. setoid_rewrite Hel. split.
    + intros (r & [->|[Hr _]] & Hx); [by right|left; eauto].
    + intros [(r & Hr & Hx)|Hx]; [exists r; split; [right; auto|done]|exists (s1, e2); split; [by left|done]].
  - intros _. exists (s1, e2). simpl. split_and!; [apply Hel; by left|done|lia|].
    intros r' [->|[Hr' _]]%Hel Hne; [done|]. apply Hsub1, Hsub2, Hr'.
Qed.

Lemma range_covered_spec R a b : ranges_wf R → a < b →
  range_covered R a b = true ↔ ∃ r, r ∈ R ∧ r.1 ≤ a ∧ b ≤ r.2.
Proof.
  intros Hwf Hab. unfold range_covered. rewrite (proj2 (Z.leb_gt _ _)) by done.
  destruct (bt_last_le R a) as [[s e]|] eqn:E.
  - apply bt_last_le_Some in E as (Hin & Hs & Hmax); [|apply Hwf]. simpl in Hs, Hmax.
    rewrite andb_true_iff, !Z.leb_le. split; [intros [_ ?]; by exists (s, e)|].
    intros (r & Hr & H1 & H2). split; [done|]. destruct (decide (r.1 = s)) as [Hk|Hk].
    + pose proof (sorted_key_inj R r (s, e) Hwf Hr Hin Hk) as ->. done.
    + pose proof (Hmax r Hr H1). pose proof (gw_apart _ Hwf r (s, e) Hr Hin ltac:(simpl; lia)).
      simpl in *. lia.
  - split; [done|]. intros (r & Hr & H1 & _).
    pose proof (bt_last_le_None _ _ (gw_sorted _ Hwf) E r Hr). lia.
Qed.

Lemma range_covered_covers R a b x : ranges_wf R → range_covered R a b = true → a ≤ x < b → covers R x.
Proof.
  intros Hwf Hc Hx. apply range_covered_spec in Hc as (r & Hr & ? & ?); [|done|lia].
  exists r. split; [done|lia].
Qed.

(** The interval of [bt_last_le] is the one that holds the key. *)
Lemma last_le_holds R r a : ranges_wf R → r ∈ R → r.1 ≤ a < r.2 → bt_last_le R a = Some r.
Proof.
  intros Hwf Hr Ha. destruct (bt_last_le R a) as [r'|] eqn:E.
  - apply bt_last_le_Some in E as (Hin & Hs & Hmax); [|apply Hwf]. f_equal.
    destruct (decide (r.1 = r'.1)) as [Hk|Hk]; [symmetry; by eapply sorted_key_inj|].
    pose proof (Hmax r Hr ltac:(lia)). pose proof (gw_apart _ Hwf r r' Hr Hin ltac:(lia)). lia.
  - pose proof (bt_last_le_None _ _ (gw_sorted _ Hwf) E r Hr). lia.
Qed.

(** ** Pruning *)

Definition chunk_ok (c : chunk) : Prop := 0 ≤ c.1.1 ∧ c.1.1 + zlen c.1.2 < 2 ^ 64.
Definition off_le (a b : chunk) : Prop := a.1.1 ≤ b.1.1.

Lemma partition_point_spec (k : Z) (l : list chunk) : StronglySorted off_le l →
  let i := partition_point (λ c, c.1.1 <? k) l in
  (∀ j c, l !! j = Some c → (j < i)%nat → c.1.1 < k)
  ∧ (∀ j c, l !! j = Some c → (i ≤ j)%nat → k ≤ c.1.1).
Proof.
  induction l as [|c l IH]; intros Hs; simpl; [done|].
  apply StronglySorted_cons in Hs as [Hlt Hs]. destruct (IH Hs) as [IH1 IH2].
  destruct (Z.ltb_spec c.1.1 k); split.
  - intros [|j] c' Hj Hi; simpl in Hj; [by injection Hj as <-|]. apply (IH1 j); [done|lia].
  - intros [|j] c' Hj Hi; simpl in Hj; [lia|]. apply (IH2 j); [done|lia].
  - lia.
  - intros [|j] c' Hj _; simpl in Hj; [by injection Hj as <-|].
    rewrite Forall_forall in Hlt. pose proof (Hlt c' (list_elem_of_lookup_2 _ _ _ Hj)).
    unfold off_le in *. lia.
Qed.

Lemma partition_point_mono (k k' : Z) (l : list chunk) : k ≤ k' →
  (partition_point (λ c, (c.1.1 <? k)%Z) l ≤ partition_point (λ c, (c.1.1 <? k')%Z) l ≤ length l)%nat.
Proof.
  intros Hk. induction l as [|c l IH]; simpl; [done|].
  destruct (Z.ltb_spec c.1.1 k), (Z.ltb_spec c.1.1 k'); lia.
Qed.

Lemma back_off_spec cov l lo hi : (lo ≤ hi)%nat →
  (lo ≤ back_off cov l lo hi ≤ hi)%nat
  ∧ ∀ j c, l !! j = Some c → (back_off cov l lo hi ≤ j < hi)%nat → cov c = false.
Proof.
  induction hi as [|hi IH]; intros Hle; cbn [back_off]; [split; [lia|]; lia|].
  destruct (Nat.ltb_spec lo (S hi)); simpl; [|split; [lia|lia]].
  destruct (from_option cov false (l !! hi)) eqn:E; simpl; [split; [lia|lia]|].
  destruct IH as [IH1 IH2]; [lia|]. split; [lia|]. intros j c Hj Hr.
  destruct (decide (j = hi)) as [->|]; [by rewrite Hj in E|]. apply (IH2 j c Hj). lia.
Qed.

(** The binary search prunes exactly the chunks inside the interval. *)
Lemma prune_sorted_sent_spec sent fa ms me : StronglySorted off_le sent → Forall chunk_ok sent →
  ms ≤ me → (∀ c, c ∈ sent → c.1.2 = [] → inside ms me fa c = false) →
  prune_sorted_sent sent fa ms me = filter (λ c, inside ms me fa c = false) sent.
Proof.
  intros Hs Hok Hm Hempty. unfold prune_sorted_sent.
  destruct (partition_point_spec ms sent Hs) as [Hlo1 Hlo2].
  destruct (partition_point_spec me sent Hs) as [Hhi1 Hhi2].
  destruct (partition_point_mono ms me sent Hm) as [Hlh Hhl].
  set (lo := partition_point (λ c, c.1.1 <? ms) sent) in *.
  set (hi := partition_point (λ c, c.1.1 <? me) sent) in *.
  destruct (back_off_spec (inside ms me fa) sent lo hi Hlh) as [Hb1 Hb2].
  set (h := back_off (inside ms me fa) sent lo hi) in *.
  destruct (forallb _ _) eqn:Eall; [|done].
  assert (sent = take lo sent ++ drop lo (take h sent) ++ drop h sent) as Hsplit.
  { rewrite app_assoc. replace (take lo sent) with (take lo (take h sent))
      by (rewrite take_take; f_equal; lia). by rewrite take_drop, take_drop. }
  rewrite Hsplit at 3. rewrite !filter_app.
  rewrite (filter_none _ (drop lo (take h sent))).
  2:{ apply Forall_forall. intros c Hc. rewrite forallb_forall in Eall.
      rewrite Eall by (by apply list_elem_of_In). done. }
  rewrite (filter_all _ (take lo sent)), (filter_all _ (drop h sent)); [done|..].
  - apply Forall_lookup. intros j c Hj. rewrite lookup_drop in Hj.
    destruct (Nat.lt_ge_cases (h + j) hi) as [Hlt|Hge]; [by apply (Hb2 (h + j)%nat); [|lia]|].
    pose proof (Hhi2 _ _ Hj Hge) as Hoff.
    destruct (inside ms me fa c) eqn:Ein; [|done]. rewrite <- Ein.
    pose proof (list_elem_of_lookup_2 _ _ _ Hj) as Hin.
    apply Hempty; [done|]. rewrite Forall_forall in Hok. destruct (Hok c Hin) as [H1 H2].
    destruct c as [[off b] f]. simpl in *. unfold sat_add in Ein.
    rewrite !andb_true_iff, !Z.leb_le in Ein. pose proof (zlen_nonneg b).
    assert (zlen b = 0) as Hz by lia. unfold zlen in Hz. apply nil_length_inv. lia.
  - apply Forall_lookup. intros j c [Hj Hlt]%lookup_take_Some. pose proof (Hlo1 j c Hj Hlt) as Hoff.
    destruct c as [[off b] f]. simpl in *. by rewrite (proj2 (Z.leb_gt _ _)) by done.
Qed.

(** A chunk that was not acknowledged becomes so only inside the merged interval. *)
Lemma inside_covered R R' fa ms me offset end_ c : ranges_wf R → ranges_wf R' →
  (ms, me) ∈ R' → (∀ r, r ∈ R' → r ≠ (ms, me) → r ∈ R) → ms ≤ offset → end_ ≤ me → offset < end_ →
  chunk_ok c → covered_chunk R fa c = false →
  inside ms me fa c = covered_chunk R' fa c.
Proof.
  intros Hwf Hwf' Hin Hother Hms Hme Hoe [Hc0 Hc1] Hun. destruct c as [[off b] f]. simpl in *.
  pose proof (zlen_nonneg b). unfold sat_add in *. rewrite Z.min_r in * by lia.
  destruct (negb f || fa); [|by rewrite !andb_false_r]. rewrite !andb_true_r in *.
  destruct (Z.eq_dec (zlen b) 0) as [Hz|Hz].
  { unfold range_covered in Hun. rewrite (proj2 (Z.leb_le _ _)) in Hun by lia. done. }
  apply eq_iff_eq_true. rewrite andb_true_iff, !Z.leb_le, range_covered_spec by (done || lia). split.
  - intros [? ?]. by exists (ms, me).
  - intros (r & Hr & H1 & H2). destruct (decide (r = (ms, me))) as [->|Hne]; [done|].
    apply not_true_iff_false in Hun. exfalso. apply Hun. apply range_covered_spec; [done|lia|].
    exists r. split; [by apply Hother|done].
Qed.

(** * The invariant of the send half *)

Definition held (s : SendStream) : list chunk := sent_chunks s ++ rtx_queue s.
Definition chunk_end (c : chunk) : Z := c.1.1 + zlen c.1.2.
Definition chunk_has (c : chunk) (x : Z) : Prop := c.1.1 ≤ x < chunk_end c.

(** A chunk of the stream [T], all of it carved already; its FIN, if any, ends [T]. *)
Definition chunk_of (T : bytes) (s : SendStream) (c : chunk) : Prop :=
  in_stream T c.1 ∧ chunk_end c ≤ write_off s
  ∧ (c.2 = true → fin_sent s = true ∧ chunk_end c = zlen T).

(** [T] is what the application has written.  [extra] are chunks about to be recorded as
    in flight. *)
Record send_wf (T : bytes) (extra : list chunk) (s : SendStream) : Prop := {
  sw_credit : zlen T ≤ peer_max_data s < 2 ^ 64;
  sw_off : 0 ≤ write_off s;
  sw_end : write_off s + zlen (write_buf s) = zlen T;
  sw_buf : write_buf s = stream_slice (stream_of T) (write_off s) (length (write_buf s));
  sw_sent : sent_offset s = write_off s;
  sw_chunks : Forall (chunk_of T s) (held s ++ extra);
  sw_fin : ∀ f, ss_fin_offset s = Some f → f = zlen T;
  sw_fin_sent : fin_sent s = true → ss_fin_offset s ≠ None ∧ write_buf s = [];
  sw_fin_acked : fin_acked s = true → fin_sent s = true;
  sw_ranges : ranges_wf (acked_ranges s);
  sw_acked : ∀ x, covers (acked_ranges s) x → 0 ≤ x < write_off s;
  sw_sorted : sent_sorted s = true → StronglySorted off_le (sent_chunks s);
  sw_unacked : Forall (λ c, chunk_acked s c = false) (sent_chunks s);
  sw_bytes : ∀ x, 0 ≤ x < write_off s →
    covers (acked_ranges s) x ∨ ∃ c, c ∈ held s ++ extra ∧ chunk_has c x;
  sw_fin_kept : fin_sent s = true → fin_acked s = true ∨ ∃ c, c ∈ held s ++ extra ∧ c.2 = true;
  sw_live : ss_state s ≠ SendState.ResetSent ∧ ss_state s ≠ SendState.ResetRecvd;
  sw_done : ss_state s = SendState.DataRecvd →
    write_buf s = [] ∧ fin_acked s = true ∧ held s = [] }.

Lemma send_new_wf m : u64 m → send_wf [] [] (send_new m).
Proof.
  intros [? ?]. split; simpl; try done; try lia; try by constructor.
  - split; [by constructor|by intros r ?%elem_of_nil|by intros r r' ?%elem_of_nil].
  - by intros x (r & ?%elem_of_nil & _).
Qed.

Lemma covered_chunk_bytes R fa c x : ranges_wf R → chunk_ok c → covered_chunk R fa c = true →
  chunk_has c x → covers R x.
Proof.
  intros Hwf [H0 H1] Hc Hx. destruct c as [[off b] f]. unfold chunk_has, chunk_end in Hx. simpl in *.
  apply andb_true_iff in Hc as [Hc _]. eapply range_covered_covers; [done|exact Hc|].
  unfold sat_add. lia.
Qed.

Lemma covered_chunk_fin R fa (c : chunk) : covered_chunk R fa c = true → c.2 = true → fa = true.
Proof. destruct c as [[off b] f]. simpl. intros [_ H]%andb_true_iff ->. done. Qed.

Lemma chunk_of_ok T s c : chunk_of T s c → chunk_ok c.
Proof. intros [[(? & ? & _) _] _]. by split. Qed.

Lemma push_sent_wf T c extra s : send_wf T (c :: extra) s → ss_state s ≠ SendState.DataRecvd →
  send_wf T extra (push_sent s c).
Proof.
  intros [H1 H2 H3 H4 H5 H6 H7 H8 H9 H10 H11 H12 H13 H14 H15 H16 H17] Hst. unfold push_sent.
  pose proof H6 as H6'. rewrite Forall_app, Forall_cons in H6'. destruct H6' as (Hh & Hc & He).
  destruct (chunk_acked s c) eqn:Ea.
  - split; try done.
    + by apply Forall_app.
    + intros x Hx. destruct (H14 x Hx) as [?|(c' & Hc' & Hx')]; [by left|].
      apply elem_of_app in Hc' as [?|[->|?]%elem_of_cons].
      * right. exists c'. split; [apply elem_of_app; by left|done].
      * left. by eapply covered_chunk_bytes, Hx'; [|eapply chunk_of_ok|exact Ea].
      * right. exists c'. split; [apply elem_of_app; by right|done].
    + intros Hf. destruct (H15 Hf) as [?|(c' & Hc' & Hf')]; [by left|].
      apply elem_of_app in Hc' as [?|[->|?]%elem_of_cons].
      * right. exists c'. split; [apply elem_of_app; by left|done].
      * left. by eapply covered_chunk_fin.
      * right. exists c'. split; [apply elem_of_app; by right|done].
  - assert (∀ c', c' ∈ held (set_queues (sent_chunks s ++ [c])
      match last (sent_chunks s) with
      | Some back => if c.1.1 <? back.1.1 then false else sent_sorted s | None => true end
      (rtx_queue s) s) ++ extra ↔ c' ∈ held s ++ c :: extra) as Hel.
    { intros c'. unfold held. simpl. rewrite !elem_of_app, !elem_of_cons, elem_of_nil. tauto. }
    split; try done.
    + apply Forall_forall. intros c' Hc'%Hel. rewrite Forall_forall in H6. by apply H6.
    + simpl. destruct (last (sent_chunks s)) as [back|] eqn:El.
      * apply last_Some in El as [l' El].
        destruct (Z.ltb_spec c.1.1 back.1.1) as [|Hge]; [done|]. intros Hs.
        specialize (H12 Hs). rewrite El in *.
        apply StronglySorted_app. split; [|split; [done|by repeat constructor]].
        intros x y Hx Hy. apply list_elem_of_singleton in Hy as ->. unfold off_le.
        apply elem_of_app in Hx as [Hx|Hx]; [|by apply list_elem_of_singleton in Hx as ->].
        pose proof (StronglySorted_app_1_elem_of off_le l' [back] x back H12 Hx ltac:(left)) as Hxb.
        unfold off_le in Hxb. lia.
      * apply last_None in El. rewrite El. simpl. intros _. by repeat constructor.
    + simpl. apply Forall_app. split; [done|by constructor].
    + intros x Hx. destruct (H14 x Hx) as [?|(c' & Hc' & ?)]; [by left|]. right. exists c'.
      by rewrite Hel.
    + intros Hf. destruct (H15 Hf) as [?|(c' & Hc' & ?)]; [by left|]. right. exists c'. by rewrite Hel.
Qed.

Lemma push_sent_keeps s c : write_off (push_sent s c) = write_off s ∧ fin_sent (push_sent s c) = fin_sent s
  ∧ acked_ranges (push_sent s c) = acked_ranges s ∧ fin_acked (push_sent s c) = fin_acked s.
Proof. unfold push_sent. by destruct (chunk_acked s c). Qed.

Lemma chunk_of_mono T s s' c : write_off s ≤ write_off s' → (fin_sent s = true → fin_sent s' = true) →
  chunk_of T s c → chunk_of T s' c.
Proof. intros Hw Hf (H1 & H2 & H3). split_and!; [done|lia|]. intros Hc. destruct (H3 Hc). auto. Qed.

(** ** The application *)

Lemma enqueue_send_wf T s d s' n : send_wf T [] s → ss_fin_offset s = None → enqueue s d = (s', n) →
  send_wf (T ++ ztake n d) [] s' ∧ 0 ≤ n ≤ zlen d.
Proof.
  intros Hwf Hnf He. pose proof (zlen_nonneg d) as Hd.
  assert ((s, 0) = (s', n) → send_wf (T ++ ztake n d) [] s' ∧ 0 ≤ n ≤ zlen d) as Hzero.
  { intros [= <- <-]. unfold ztake. simpl. rewrite app_nil_r. split; [done|lia]. }
  unfold enqueue in He.
  assert (ss_state s = SendState.Ready ∨ ss_state s = SendState.Send → 
    (let take := Z.min (sat_sub (available_credit s) (zlen (write_buf s))) (zlen d) in
     if take =? 0 then (s, 0) else
        (mkSendStream SendState.Send (write_buf s ++ ztake take d) (write_off s)
           (sent_offset s) (acked_offset s) (ss_fin_offset s) (fin_sent s)
           (peer_max_data s) (ss_reset_code s) (blocked_at s) (reset_pending s)
           (sent_chunks s) (sent_sorted s) (rtx_queue s) (acked_ranges s)
           (fin_acked s), take)) = (s', n) → send_wf (T ++ ztake n d) [] s' ∧ 0 ≤ n ≤ zlen d) as Hgo.
  { intros Hst. cbv zeta. set (take := Z.min _ _).
    pose proof Hwf as [H1 H2 H3 H4 H5 H6 H7 H8 H9 H10 H11 H12 H13 H14 H15 H16 H17].
    destruct (Z.eqb_spec take 0); [exact Hzero|]. intros [= <- <-].
    assert (0 ≤ take ≤ zlen d) as Ht by (unfold take, sat_sub; lia). split; [|done].
    assert (fin_sent s = false) as Hfs.
    { destruct (fin_sent s); [|done]. by destruct (H8 eq_refl). }
    assert (zlen (ztake take d) = take) as Hzt by (unfold zlen, ztake in *; rewrite length_take; lia).
    assert (zlen T + take ≤ peer_max_data s) as Hcred.
    { pose proof (zlen_nonneg (write_buf s)). unfold take, available_credit, sat_sub in *. lia. }
    split; simpl; rewrite ?zlen_app, ?Hzt; try done; try lia.
    - rewrite length_app, stream_slice_app. f_equal.
      + rewrite H4 at 1. apply stream_slice_ext. intros x Hx. symmetry. apply stream_of_app.
        unfold zlen in *. lia.
      + rewrite <- (stream_slice_tail T (ztake take d)) at 1. f_equal. unfold zlen in *. lia.
    - eapply Forall_impl; [exact H6|]. intros c (Hc1 & Hc2 & Hc3). split_and!; [|done|].
      + by apply in_stream_app.
      + simpl. intros Hf. destruct (Hc3 Hf). congruence.
    - by rewrite Hnf.
    - by rewrite Hfs. }
  destruct (ss_state s) eqn:Est; try by apply Hzero.
  - apply Hgo; [by left|exact He].
  - apply Hgo; [by right|exact He].
Qed.

Lemma finish_send_wf T s : send_wf T [] s → send_wf T [] (finish s).
Proof.
  intros Hwf. unfold finish. destruct (ss_fin_offset s) eqn:E; [done|].
  destruct Hwf as [H1 H2 H3 H4 H5 H6 H7 H8 H9 H10 H11 H12 H13 H14 H15 H16 H17].
  split; simpl; try done.
  - intros f [= <-]. unfold wadd. rewrite H3. apply wrap_small. unfold in_width. pose proof (zlen_nonneg T). lia.
  - intros Hf. by destruct (H8 Hf).
Qed.

Lemma credit_send_wf T s limit : send_wf T [] s → u64 limit → send_wf T [] (on_max_stream_data s limit).
Proof.
  intros Hwf [Hl0 Hl1]. unfold on_max_stream_data. destruct (Z.ltb_spec (peer_max_data s) limit); [|done].
  destruct Hwf as [H1 H2 H3 H4 H5 H6 H7 H8 H9 H10 H11 H12 H13 H14 H15 H16 H17].
  split; simpl; try done; try lia.
Qed.

(** ** Emission *)

(** What no emission undoes. *)
Definition emitted (s s' : SendStream) : Prop :=
  write_off s ≤ write_off s' ∧ (fin_sent s = true → fin_sent s' = true)
  ∧ acked_ranges s' = acked_ranges s ∧ fin_acked s' = fin_acked s.

(** The half after [take] bytes left the write buffer. *)
Definition carved (st : send_state) (take : Z) (fin : bool) (s : SendStream) : SendStream :=
  mkSendStream st (zdrop take (write_buf s)) (write_off s + take)
    (if sent_offset s <? write_off s + take then write_off s + take else sent_offset s)
    (acked_offset s) (ss_fin_offset s) (fin || fin_sent s) (peer_max_data s) (ss_reset_code s)
    (blocked_at s) (reset_pending s) (sent_chunks s) (sent_sorted s) (rtx_queue s)
    (acked_ranges s) (fin_acked s).

Lemma carved_wf T s st take f : send_wf T [] s → 0 ≤ take ≤ zlen (write_buf s) →
  (f = true → ss_fin_offset s = Some (zlen T) ∧ take = zlen (write_buf s)) →
  st ≠ SendState.ResetSent → st ≠ SendState.ResetRecvd → st ≠ SendState.DataRecvd →
  let c := (write_off s, ztake take (write_buf s), f) in
  chunk_of T (carved st take f s) c ∧ send_wf T [c] (carved st take f s).
Proof.
  intros Hwf Ht Hf Hst1 Hst2 Hst3 c. set (b := ztake take (write_buf s)) in c.
  pose proof Hwf as [H1 H2 H3 H4 H5 H6 H7 H8 H9 H10 H11 H12 H13 H14 H15 H16 H17].
  assert (zlen b = take) as Hzb by (unfold b, zlen, ztake in *; rewrite length_take; lia).
  assert (zlen (zdrop take (write_buf s)) = zlen (write_buf s) - take) as Hzd
    by (unfold zlen, zdrop in *; rewrite length_drop; lia).
  assert (in_stream T (write_off s, write_buf s)) as Hin.
  { split; simpl; [|lia]. split_and!; simpl; [done|lia|done]. }
  destruct (in_stream_split T (write_off s) (write_buf s) take Hin Ht) as [Hs1 Hs2]. fold b in Hs1.
  assert (chunk_of T (carved st take f s) c) as Hchunk.
  { split_and!; [done|unfold c, chunk_end; simpl; lia|]. simpl. intros ->.
    split; [done|]. unfold chunk_end. simpl. destruct (Hf eq_refl). lia. }
  split; [done|]. rewrite app_nil_r in *.
  split; simpl; try done; try lia.
  - destruct Hs2 as [(_ & _ & Hs2) _]. exact Hs2.
  - destruct (Z.ltb_spec (sent_offset s) (write_off s + take)); lia.
  - apply Forall_app. split; [|by constructor].
    eapply Forall_impl; [exact H6|]. intros c'. apply chunk_of_mono; simpl; [lia|].
    intros ->. apply orb_true_r.
  - intros [Hft|Hft]%orb_true_iff.
    + destruct (Hf Hft) as (-> & Hl). split; [done|]. unfold zdrop. apply drop_ge. unfold zlen in Hl. lia.
    + destruct (H8 Hft) as [? ->]. split; [done|]. unfold zdrop. apply drop_nil.
  - intros Hfa. rewrite (H9 Hfa). apply orb_true_r.
  - intros x Hx. specialize (H11 x Hx). lia.
  - intros x Hx. setoid_rewrite elem_of_app. destruct (Z.lt_ge_cases x (write_off s)) as [Hlt|Hge].
    + destruct (H14 x ltac:(lia)) as [?|(c' & ? & ?)]; [by left|by eauto].
    + right. exists c. split; [right; left|]. unfold chunk_has, chunk_end. simpl. lia.
  - setoid_rewrite elem_of_app. intros [Hft|Hft]%orb_true_iff.
    + right. exists c. split; [right; left|done].
    + destruct (H15 Hft) as [?|(c' & ? & ?)]; [by left|by eauto].
Qed.

Lemma carve_send_wf T s id cap out s' out' off len fin : send_wf T [] s → 0 ≤ cap →
  carve_frame s id cap out = (s', out', Some (off, len, fin)) →
  send_wf T [] s' ∧ emitted s s'
  ∧ ∃ b, zlen b = len ∧ out' = encode_stream_header out id off len fin ++ b
    ∧ chunk_of T s' (off, b, fin).
Proof.
  intros Hwf Hcap Hc. unfold carve_frame in Hc.
  destruct (has_outbound s) eqn:Hout; [|done]. cbn [negb] in Hc.
  pose proof Hwf as [H1 H2 H3 _ _ _ H7 _ H9 _ _ _ _ _ _ H16 H17].
  set (take := Z.min cap (zlen (write_buf s))) in *. pose proof (zlen_nonneg (write_buf s)) as Hb0.
  assert (0 ≤ take ≤ zlen (write_buf s)) as Ht by lia.
  unfold wadd in Hc. rewrite wrap_small in Hc by (unfold in_width; lia).
  set (f := match ss_fin_offset s with Some _ => _ | None => _ end && _) in Hc.
  assert (f = true → ss_fin_offset s = Some (zlen T) ∧ take = zlen (write_buf s)) as Hf.
  { unfold f. intros [Hf1 _]%andb_true_iff. destruct (ss_fin_offset s) as [fo|] eqn:E; [|done].
    apply andb_true_iff in Hf1 as [_ Hf1]. apply Z.eqb_eq in Hf1. by rewrite (H7 fo eq_refl). }
  assert (ss_state s ≠ SendState.DataRecvd) as Hnd.
  { intros Hd. destruct (H17 Hd) as (Hd1 & Hd2 & Hd3). unfold held in Hd3. apply app_nil in Hd3 as [_ Hd3].
    unfold has_outbound in Hout. rewrite Hd1, Hd3, (H9 Hd2) in Hout. simpl in Hout.
    by rewrite andb_false_r in Hout. }
  set (st := if f then _ else _) in Hc. injection Hc as <- <- <- <- <-. fold (carved st take f s).
  assert (st ≠ SendState.ResetSent ∧ st ≠ SendState.ResetRecvd ∧ st ≠ SendState.DataRecvd) as (S1 & S2 & S3).
  { unfold st. destruct f; [done|]. destruct (_ && _); [done|]. by destruct H16. }
  destruct (carved_wf T s st take f Hwf Ht Hf S1 S2 S3) as [Hchunk Hmid].
  set (c := (write_off s, ztake take (write_buf s), f)) in *.
  destruct (push_sent_keeps (carved st take f s) c) as (E1 & E2 & E3 & E4).
  split; [by apply push_sent_wf|]. split.
  - unfold emitted. rewrite E1, E2, E3, E4. simpl. split_and!; try done; [lia|]. intros ->. apply orb_true_r.
  - exists (ztake take (write_buf s)). split_and!; [unfold zlen, ztake in *; rewrite length_take; lia|done|].
    eapply chunk_of_mono; [|..|exact Hchunk]; [lia|congruence].
Qed.

(** The head of the retransmission queue goes out as [c1], with [more] put back in its place. *)
Lemma pop_rtx_requeue T s (c0 c1 : chunk) (more rest : list chunk) :
  send_wf T [] s → rtx_queue s = c0 :: rest → Forall (chunk_of T s) (c1 :: more) →
  (∀ x, chunk_has c0 x → chunk_has c1 x ∨ ∃ c, c ∈ more ∧ chunk_has c x) →
  (c0.2 = true → c1.2 = true ∨ ∃ c, c ∈ more ∧ c.2 = true) →
  let mid := set_queues (sent_chunks s) (sent_sorted s) (more ++ rest) s in
  send_wf T [] (push_sent mid c1) ∧ emitted s (push_sent mid c1)
  ∧ chunk_of T (push_sent mid c1) c1.
Proof.
  intros Hwf Er Hcs Hx1 Hf1 mid.
  pose proof Hwf as [H1 H2 H3 H4 H5 H6 H7 H8 H9 H10 H11 H12 H13 H14 H15 H16 H17].
  assert (ss_state s ≠ SendState.DataRecvd) as Hnd.
  { intros Hd. destruct (H17 Hd) as (_ & _ & Hd3). unfold held in Hd3. rewrite Er in Hd3.
    by apply app_nil in Hd3 as [_ ?]. }
  unfold held in H6, H14, H15. rewrite Er, app_nil_r in *.
  apply Forall_app in H6 as [H6s H6r]. apply Forall_cons in H6r as [Hc H6r].
  apply Forall_cons in Hcs as [Hc1 Hmore]. split.
  - apply push_sent_wf; [|done]. split; simpl; try done.
    + unfold held. simpl. rewrite !Forall_app. split_and!; try done. by constructor.
    + intros x Hx. destruct (H14 x Hx) as [?|(c & Hcx & Hhas)]; [by left|]. right.
      unfold held. simpl. setoid_rewrite elem_of_app. setoid_rewrite elem_of_app.
      setoid_rewrite elem_of_app. apply elem_of_app in Hcx as [?|[->|?]%elem_of_cons]; [by eauto 6| |by eauto 6].
      destruct (Hx1 x Hhas) as [?|(c' & ? & ?)]; [exists c1; split; [right; left|done]|by eauto 7].
    + intros Hf. destruct (H15 Hf) as [?|(c & Hcx & Hhas)]; [by left|]. right.
      unfold held. simpl. setoid_rewrite elem_of_app. setoid_rewrite elem_of_app.
      setoid_rewrite elem_of_app. apply elem_of_app in Hcx as [?|[->|?]%elem_of_cons]; [by eauto 6| |by eauto 6].
      destruct (Hf1 Hhas) as [?|(c' & ? & ?)]; [exists c1; split; [right; left|done]|by eauto 7].
  - destruct (push_sent_keeps mid c1) as (E1 & E2 & E3 & E4). split.
    + unfold emitted. rewrite E1, E2, E3, E4. simpl. split_and!; try done; lia.
    + eapply chunk_of_mono; [|..|exact Hc1]; [rewrite E1; simpl; lia|rewrite E2; done].
Qed.

Lemma pop_rtx_send_wf T s id mp out s' out' off len fin : send_wf T [] s → 0 ≤ mp →
  pop_rtx_frame s id mp out = (s', out', Some (off, len, fin)) →
  send_wf T [] s' ∧ emitted s s'
  ∧ ∃ b, zlen b = len ∧ out' = encode_stream_header out id off len fin ++ b
    ∧ chunk_of T s' (off, b, fin).
Proof.
  intros Hwf Hmp Hp. unfold pop_rtx_frame in Hp.
  pose proof Hwf as [H1 H2 H3 H4 H5 H6 H7 H8 H9 H10 H11 H12 H13 H14 H15 H16 H17].
  destruct (rtx_queue s) as [|[[o b] f] rest] eqn:Er; [done|].
  pose proof (λ c1 more, pop_rtx_requeue T s (o, b, f) c1 more rest Hwf Er) as Hgo. cbv zeta in Hgo.
  unfold held in H6. rewrite Er, app_nil_r in H6.
  apply Forall_app in H6 as [H6s H6r]. apply Forall_cons in H6r as [Hc H6r].
  pose proof Hc as ((Hin & Hle) & Hw & Hfin). unfold chunk_end in Hw, Hfin. cbn [fst snd] in *.
  destruct Hin as (Ho & Hob & _). cbn [fst snd] in Ho, Hob. pose proof (zlen_nonneg b) as Hb0.
  destruct (Z.leb_spec (zlen b) mp) as [Hfit|Hbig]; injection Hp as <- <- <- <- <-.
  - destruct (Hgo (o, b, f) []) as (G1 & G2 & G3); [constructor; [exact Hc|constructor]|by left|by left|].
    split; [done|]. split; [done|]. exists b. by split_and!.
  - destruct (in_stream_split T o b mp) as [Hs1 Hs2]; [exact (proj1 Hc)|lia|].
    assert (zlen (ztake mp b) = mp) as Hzt by (unfold zlen, ztake in *; rewrite length_take; lia).
    assert (zlen (zdrop mp b) = zlen b - mp) as Hzd by (unfold zlen, zdrop in *; rewrite length_drop; lia).
    unfold wadd. rewrite wrap_small by (unfold in_width; lia).
    destruct (Hgo (o, ztake mp b, false) [(o + mp, zdrop mp b, f)]) as (G1 & G2 & G3).
    + constructor; [|constructor; [|done]]; split_and!; unfold chunk_end; simpl; try done; [lia|lia|].
      intros Hf. destruct (Hfin Hf). split; [done|lia].
    + intros x Hx. unfold chunk_has, chunk_end in *. cbn [fst snd] in *.
      destruct (Z.lt_ge_cases x (o + mp)); [left; lia|]. right. eexists. split; [left|].
      cbn [fst snd]. lia.
    + intros ->. right. eexists. split; [left|done].
    + split; [done|]. split; [done|]. exists (ztake mp b). by split_and!.
Qed.

(** ** Acknowledgement and loss *)

Lemma empty_inside R fa ms me (c : chunk) : chunk_ok c → c.1.2 = [] → covered_chunk R fa c = false →
  inside ms me fa c = false.
Proof.
  destruct c as [[off b] f]. intros [H0 H1] Hb. simpl in *. subst b. unfold sat_add, range_covered.
  change (zlen []) with 0 in *. rewrite (proj2 (Z.leb_le _ off)) by lia. simpl.
  intros ->. apply andb_false_r.
Qed.

(** Both branches of [on_range_acked] leave exactly the chunks not acknowledged. *)
Lemma ack_prune T s offset len fin : send_wf T [] s → 0 ≤ offset → 0 ≤ len → offset + len < 2 ^ 64 →
  let s' := on_range_acked s offset len fin in
  sent_chunks s' = filter (λ c, chunk_acked s' c = false) (sent_chunks s)
  ∧ rtx_queue s' = filter (λ c, chunk_acked s' c = false) (rtx_queue s)
  ∧ acked_ranges s' = insert_range (acked_ranges s) offset (offset + len)
  ∧ fin_acked s' = (fin || fin_acked s).
Proof.
  intros Hwf Ho Hl Hend s'. pose proof Hwf as [H1 H2 H3 H4 H5 H6 H7 H8 H9 H10 H11 H12 H13 H14 H15 H16 H17].
  unfold s', on_range_acked. replace (sat_add 64 offset len) with (offset + len) by (unfold sat_add; lia).
  set (R' := insert_range (acked_ranges s) offset (offset + len)).
  set (sent := if _ && sent_sorted s then _ else _).
  assert (sent = filter (λ c, covered_chunk R' (fin || fin_acked s) c = false) (sent_chunks s)) as Hsent.
  { unfold sent. destruct (Z.ltb_spec offset (offset + len)) as [Hlt|]; [|done]. cbn [andb].
    destruct (fin && negb (fin_acked s)) eqn:Enew; [done|]. cbn [negb andb].
    destruct (sent_sorted s) eqn:Es; [|done]. specialize (H12 eq_refl).
    assert ((fin || fin_acked s) = fin_acked s) as Hfa by (by destruct fin, (fin_acked s)). rewrite Hfa.
    destruct (insert_range_spec (acked_ranges s) offset (offset + len) H10) as (Hwf' & _ & Hmerge).
    destruct (Hmerge Hlt) as ([ms me] & Hin & Hms & Hme & Hother). cbn [fst snd] in Hms, Hme. fold R' in Hwf', Hin, Hother.
    rewrite (last_le_holds R' (ms, me)) by (done || (cbn [fst snd]; lia)).
    rewrite Forall_forall in H13. unfold held in H6. rewrite app_nil_r, Forall_app in H6.
    destruct H6 as [H6 _]. assert (Forall chunk_ok (sent_chunks s)) as Hok
      by (eapply Forall_impl; [exact H6|apply chunk_of_ok]).
    rewrite prune_sorted_sent_spec; [|done|done|lia|].
    - apply filter_ext_in. intros c Hc. rewrite Forall_forall in Hok.
      by rewrite (inside_covered (acked_ranges s) R' (fin_acked s) ms me offset (offset + len) c)
        by (done || by apply Hok || by apply H13).
    - intros c Hc Hb. rewrite Forall_forall in Hok.
      by apply (empty_inside (acked_ranges s)); [apply Hok|done|apply H13]. }
  destruct (_ && _ && _ && _); cbn -[R' sent]; rewrite Hsent; split_and!; done.
Qed.

Lemma ack_keeps s offset len fin : let s' := on_range_acked s offset len fin in
  write_buf s' = write_buf s ∧ write_off s' = write_off s ∧ sent_offset s' = sent_offset s
  ∧ ss_fin_offset s' = ss_fin_offset s ∧ fin_sent s' = fin_sent s ∧ peer_max_data s' = peer_max_data s
  ∧ (sent_sorted s' = (is_nil (sent_chunks s') || sent_sorted s))
  ∧ (ss_state s' = ss_state s ∨ (ss_state s' = SendState.DataRecvd ∧ write_buf s' = []
       ∧ fin_acked s' = true ∧ held s' = [])).
Proof.
  unfold on_range_acked. destruct (_ && _ && _ && _) eqn:E; [|by split_and!; try left].
  split_and!; try done. right. rewrite !andb_true_iff in E. destruct E as (((E1 & E2) & E3) & _).
  split_and!; try done.
  - cbn -[insert_range] in E2 |- *. by destruct (write_buf s).
  - apply negb_true_iff, orb_false_iff in E3 as [E3 E4]. unfold held. cbn [sent_chunks rtx_queue set_send_state] in *.
    apply negb_false_iff in E3, E4. by destruct (if _ && sent_sorted s then _ else _), (filter _ (rtx_queue s)).
Qed.

Lemma elem_filter_or {A} (P : A → bool) (l : list A) x : x ∈ l → x ∈ filter (λ y, P y = false) l ∨ P x = true.
Proof. intros Hx. destruct (P x) eqn:E; [by right|left]. by apply list_elem_of_filter. Qed.

Lemma StronglySorted_filter {A} (R : A → A → Prop) (P : A → Prop) `{∀ x, Decision (P x)} (l : list A) :
  StronglySorted R l → StronglySorted R (filter P l).
Proof.
  induction 1 as [|x l Hs IH Hx]; [constructor|]. rewrite filter_cons. case_decide; [|done].
  constructor; [done|]. rewrite Forall_forall in *. intros y [_ Hy]%list_elem_of_filter. auto.
Qed.

Lemma acked_send_wf T s c : send_wf T [] s → chunk_of T s c →
  send_wf T [] (on_range_acked s c.1.1 (zlen c.1.2) c.2)
  ∧ (∀ x, covers (acked_ranges (on_range_acked s c.1.1 (zlen c.1.2) c.2)) x ↔
       covers (acked_ranges s) x ∨ chunk_has c x).
Proof.
  intros Hwf Hc. pose proof Hc as [[(Hc0 & Hc1 & _) Hc2] [Hc3 Hc4]].
  destruct (ack_prune T s c.1.1 (zlen c.1.2) c.2 Hwf Hc0 (zlen_nonneg _) Hc1) as (A1 & A2 & A3 & A4).
  destruct (ack_keeps s c.1.1 (zlen c.1.2) c.2) as (K1 & K2 & K3 & K4 & K5 & K6 & K7 & K8).
  set (s' := on_range_acked s c.1.1 (zlen c.1.2) c.2) in *.
  pose proof Hwf as [H1 H2 H3 H4 H5 H6 H7 H8 H9 H10 H11 H12 H13 H14 H15 H16 H17].
  destruct (insert_range_spec (acked_ranges s) c.1.1 (c.1.1 + zlen c.1.2) H10) as (Hwf' & Hcov & _).
  rewrite <- A3 in Hwf', Hcov. split; [|exact Hcov]. unfold chunk_end in *.
  assert (∀ c', c' ∈ held s → c' ∈ held s' ∨ chunk_acked s' c' = true) as Hkept.
  { intros c'. unfold held. rewrite A1, A2, !elem_of_app.
    intros [Hin|Hin]; destruct (elem_filter_or (chunk_acked s') _ _ Hin); tauto. }
  assert (∀ c', c' ∈ held s' → c' ∈ held s) as Hsub.
  { intros c'. unfold held. rewrite A1, A2, !elem_of_app, !list_elem_of_filter. tauto. }
  rewrite app_nil_r in *. rewrite Forall_forall in H6.
  assert (∀ c', c' ∈ held s → chunk_of T s' c') as Hof.
  { intros c' Hin. eapply chunk_of_mono; [|..|by apply H6]; [lia|congruence]. }
  split; rewrite ?app_nil_r, ?K1, ?K2, ?K3, ?K4, ?K5, ?K6; try done.
  - apply Forall_forall. auto.
  - rewrite A4. intros [Hf|Hf]%orb_true_iff; [by apply Hc4|by apply H9].
  - intros x [Hx|Hx]%Hcov; [by apply H11|]. lia.
  - rewrite K7, A1. intros [Hn|Hs]%orb_true_iff.
    + destruct (filter _ _); [constructor|done].
    + by apply StronglySorted_filter, H12.
  - rewrite A1. apply Forall_forall. by intros c' [? _]%list_elem_of_filter.
  - intros x Hx. destruct (H14 x Hx) as [Hcx|(c' & Hin & Hhas)]; [left; apply Hcov; by left|].
    destruct (Hkept c' Hin) as [?|Hack]; [right; eauto|]. left.
    eapply covered_chunk_bytes; [exact Hwf'|eapply chunk_of_ok; by apply Hof|exact Hack|exact Hhas].
  - intros Hf. destruct (H15 Hf) as [Hfa|(c' & Hin & Hhas)]; [left; rewrite A4, Hfa; apply orb_true_r|].
    destruct (Hkept c' Hin) as [?|Hack]; [right; eauto|]. left. by eapply covered_chunk_fin.
  - destruct K8 as [->|[-> _]]; done.
  - intros Hd. destruct K8 as [Hst|(_ & Hb & Hfa & Hh)]; [|by rewrite <- K1].
    rewrite Hst in Hd. destruct (H17 Hd) as (Hb & Hfa & Hh). split_and!; [done| |].
    + rewrite A4, Hfa. apply orb_true_r.
    + unfold held in *. apply app_nil in Hh as [Hh1 Hh2]. by rewrite A1, A2, Hh1, Hh2.
Qed.

(** Moving chunks from in flight to the retransmission queue, dropping only
    acknowledged ones. *)
Lemma requeue_send_wf T s keep sorted moved : send_wf T [] s →
  (∀ c, c ∈ keep ++ moved → c ∈ sent_chunks s) →
  (∀ c, c ∈ sent_chunks s → c ∈ keep ++ moved) →
  (sorted = true → StronglySorted off_le keep) →
  send_wf T [] (set_queues keep sorted (rtx_queue s ++ moved) s).
Proof.
  intros Hwf Hin Hout Hs. pose proof Hwf as [H1 H2 H3 H4 H5 H6 H7 H8 H9 H10 H11 H12 H13 H14 H15 H16 H17].
  assert (∀ c, c ∈ held (set_queues keep sorted (rtx_queue s ++ moved) s) ++ [] ↔ c ∈ held s ++ []) as Hel.
  { intros c. unfold held. simpl. specialize (Hin c). specialize (Hout c).
    rewrite !elem_of_app in *. tauto. }
  split; try done.
  - apply Forall_forall. intros c Hc%Hel. rewrite Forall_forall in H6. by apply H6.
  - simpl. apply Forall_forall. intros c Hc. rewrite Forall_forall in H13. apply H13, Hin, elem_of_app. by left.
  - intros x Hx. destruct (H14 x Hx) as [?|(c & ? & ?)]; [by left|]. right. exists c. by rewrite Hel.
  - intros Hf. destruct (H15 Hf) as [?|(c & ? & ?)]; [by left|]. right. exists c. by rewrite Hel.
  - intros Hd. destruct (H17 Hd) as (? & ? & Hh). split_and!; try done.
    destruct (held (set_queues keep sorted (rtx_queue s ++ moved) s)) as [|c l] eqn:E; [done|].
    assert (c ∈ held s ++ []) as Hc by (apply Hel; apply elem_of_app; left; left).
    rewrite Hh in Hc. by apply elem_of_nil in Hc.
Qed.

Lemma lost_send_wf T s offset len fin s' moved : send_wf T [] s →
  on_range_lost s offset len fin = (s', moved) → send_wf T [] s'.
Proof.
  intros Hwf [= <- _]. apply requeue_send_wf; try done.
  - intros c. rewrite elem_of_app, !list_elem_of_filter. tauto.
  - intros c Hc. rewrite elem_of_app, !list_elem_of_filter.
    destruct (lost_chunk s offset (sat_add 64 offset len) fin c); tauto.
  - intros [Hn|Hs]%orb_true_iff; [by destruct (filter _ _); [constructor|]|].
    apply StronglySorted_filter. by apply Hwf.
Qed.

Lemma pto_send_wf T s : send_wf T [] s → send_wf T [] (requeue_all_sent s).
Proof.
  intros Hwf. apply requeue_send_wf; try done; [| |by constructor].
  - intros c. by rewrite app_nil_l, list_elem_of_filter; intros [_ ?].
  - intros c Hc. rewrite app_nil_l, list_elem_of_filter. split; [|done].
    pose proof (sw_unacked _ _ _ Hwf) as Hu. rewrite Forall_forall in Hu. by apply Hu.
Qed.

(** ** A sender, a network that loses packets and a peer that acknowledges them

    [sys_written] is what the application wrote, [sys_wire] the frames sent so far and
    [sys_acks] those acknowledged. *)
Record send_system := mkSendSystem {
  sys_send : SendStream; sys_written : bytes; sys_wire : list chunk; sys_acks : list chunk }.

(** The last [len] bytes of a packet. *)
Definition packet_tail (out : bytes) (len : Z) : bytes := zdrop (zlen out - len) out.

Inductive send_step : send_system → send_system → Prop :=
| send_write s T w a d s' n : ss_fin_offset s = None → enqueue s d = (s', n) →
    send_step (mkSendSystem s T w a) (mkSendSystem s' (T ++ ztake n d) w a)
| send_finish s T w a : send_step (mkSendSystem s T w a) (mkSendSystem (finish s) T w a)
| send_credit s T w a limit : u64 limit →
    send_step (mkSendSystem s T w a) (mkSendSystem (on_max_stream_data s limit) T w a)
| send_carve s T w a id cap out s' out' off len fin : 0 ≤ cap →
    carve_frame s id cap out = (s', out', Some (off, len, fin)) →
    send_step (mkSendSystem s T w a) (mkSendSystem s' T (w ++ [(off, packet_tail out' len, fin)]) a)
| send_rtx s T w a id mp out s' out' off len fin : 0 ≤ mp →
    pop_rtx_frame s id mp out = (s', out', Some (off, len, fin)) →
    send_step (mkSendSystem s T w a) (mkSendSystem s' T (w ++ [(off, packet_tail out' len, fin)]) a)
| send_ack s T w a c : c ∈ w →
    send_step (mkSendSystem s T w a)
      (mkSendSystem (on_range_acked s c.1.1 (zlen c.1.2) c.2) T w (a ++ [c]))
| send_lost s T w a c s' moved : c ∈ w → on_range_lost s c.1.1 (zlen c.1.2) c.2 = (s', moved) →
    send_step (mkSendSystem s T w a) (mkSendSystem s' T w a)
| send_pto s T w a : send_step (mkSendSystem s T w a) (mkSendSystem (requeue_all_sent s) T w a).

Record send_inv (st : send_system) : Prop := {
  si_wf : send_wf (sys_written st) [] (sys_send st);
  si_wire : Forall (chunk_of (sys_written st) (sys_send st)) (sys_wire st);
  si_acks : ∀ x, covers (acked_ranges (sys_send st)) x ↔ ∃ c, c ∈ sys_acks st ∧ chunk_has c x;
  si_fin : fin_acked (sys_send st) = true → ∃ c, c ∈ sys_acks st ∧ c.2 = true }.

Lemma packet_tail_app out b : packet_tail (out ++ b) (zlen b) = b.
Proof.
  unfold packet_tail. rewrite zlen_app. replace (zlen out + zlen b - zlen b) with (zlen out) by lia.
  apply zdrop_app.
Qed.

(** The frames on the wire stay chunks of the stream as the sender moves on. *)
Lemma wire_mono T s s' w : write_off s ≤ write_off s' → (fin_sent s = true → fin_sent s' = true) →
  Forall (chunk_of T s) w → Forall (chunk_of T s') w.
Proof. intros ? ? Hw. eapply Forall_impl; [exact Hw|]. intros c. by apply chunk_of_mono. Qed.

(** An emission step, fresh data or retransmission. *)
Lemma emit_inv s T w a s' out' hdr off len fin b : send_inv (mkSendSystem s T w a) →
  send_wf T [] s' → zlen b = len → out' = hdr ++ b → chunk_of T s' (off, b, fin) →
  emitted s s' →
  send_inv (mkSendSystem s' T (w ++ [(off, packet_tail out' len, fin)]) a).
Proof.
  intros [Hwf Hwire Hacks Hfin] Hwf' <- -> Hc (Hw & Hf & Ha & Hfa). simpl in *.
  split; simpl; rewrite ?Ha, ?Hfa; try done. rewrite packet_tail_app. apply Forall_app.
  split; [by eapply wire_mono|by constructor].
Qed.

Lemma send_step_inv st st' : send_inv st → send_step st st' → send_inv st'.
Proof.
  intros Hinv Hstep. pose proof Hinv as [Hwf Hwire Hacks Hfin]. destruct Hstep as
    [s T w a d s' n Hnf He|s T w a|s T w a limit Hlim|s T w a id cap out s' out' off len fin Hcap Hc
    |s T w a id mp out s' out' off len fin Hmp Hp|s T w a c Hc|s T w a c s' moved Hc Hl|s T w a]; simpl in *.
  - destruct (enqueue_send_wf _ _ _ _ _ Hwf Hnf He) as [Hwf' _].
    assert (write_off s' = write_off s ∧ fin_sent s' = fin_sent s ∧ acked_ranges s' = acked_ranges s
      ∧ fin_acked s' = fin_acked s) as (K1 & K2 & K3 & K4).
    { unfold enqueue in He. repeat case_match; by simplify_eq. }
    split; simpl; rewrite ?K3, ?K4; try done. eapply Forall_impl; [exact Hwire|].
    intros c (H1 & H2 & H3). split_and!; [by apply in_stream_app|by rewrite K1|].
    intros Hf. destruct (H3 Hf) as [Hfs _]. by destruct (proj1 (sw_fin_sent _ _ _ Hwf Hfs)).
  - assert (write_off (finish s) = write_off s ∧ fin_sent (finish s) = fin_sent s
      ∧ acked_ranges (finish s) = acked_ranges s ∧ fin_acked (finish s) = fin_acked s) as (K1 & K2 & K3 & K4)
      by (unfold finish; by destruct (ss_fin_offset s)).
    split; simpl; rewrite ?K3, ?K4; try done; [by apply finish_send_wf|].
    eapply wire_mono; [|..|exact Hwire]; [lia|congruence].
  - assert (write_off (on_max_stream_data s limit) = write_off s
      ∧ fin_sent (on_max_stream_data s limit) = fin_sent s
      ∧ acked_ranges (on_max_stream_data s limit) = acked_ranges s
      ∧ fin_acked (on_max_stream_data s limit) = fin_acked s) as (K1 & K2 & K3 & K4)
      by (unfold on_max_stream_data; by destruct (_ <? _)).
    split; simpl; rewrite ?K3, ?K4; try done; [by apply credit_send_wf|].
    eapply wire_mono; [|..|exact Hwire]; [lia|congruence].
  - destruct (carve_send_wf _ _ _ _ _ _ _ _ _ _ Hwf Hcap Hc) as (Hwf' & Hem & b & Hb & Hout & Hch).
    by eapply emit_inv.
  - destruct (pop_rtx_send_wf _ _ _ _ _ _ _ _ _ _ Hwf Hmp Hp) as (Hwf' & Hem & b & Hb & Hout & Hch).
    by eapply emit_inv.
  - rewrite Forall_forall in Hwire. pose proof (Hwire c Hc) as Hch.
    destruct (acked_send_wf T s c Hwf Hch) as [Hwf' Hcov]. pose proof Hch as [[(Hc0 & Hc1 & _) _] _].
    destruct (ack_keeps s c.1.1 (zlen c.1.2) c.2) as (_ & K2 & _ & _ & K5 & _).
    destruct (ack_prune T s c.1.1 (zlen c.1.2) c.2 Hwf Hc0 (zlen_nonneg _) Hc1) as (_ & _ & _ & K4).
    split; simpl; [done| | |].
    + eapply wire_mono; [|..|by apply Forall_forall]; [lia|congruence].
    + intros x. rewrite Hcov, Hacks. setoid_rewrite elem_of_app. setoid_rewrite list_elem_of_singleton.
      naive_solver.
    + rewrite K4. intros [Hf|Hf]%orb_true_iff; [exists c; split; [|done]|].
      * apply elem_of_app. right. left.
      * destruct (Hfin Hf) as (c' & ? & ?). exists c'. split; [apply elem_of_app; by left|done].
  - pose proof (lost_send_wf _ _ _ _ _ _ _ Hwf Hl) as Hwf'. injection Hl as <- _.
    split; simpl; done.
  - split; simpl; try done. by apply pto_send_wf.
Qed.

Lemma send_reachable_inv m st : u64 m → rtc send_step (mkSendSystem (send_new m) [] [] []) st → send_inv st.
Proof.
  intros Hm. apply (rtc_ind_r send_inv).
  - split; simpl; [by apply send_new_wf|constructor| |done]. intros x. split.
    + by intros (r & ?%elem_of_nil & _).
    + by intros (r & ?%elem_of_nil & _).
  - intros y z _ Hstep Hy. by eapply send_step_inv.
Qed.

(** The packet packer's fast header is the encoding of the frame. *)
Lemma encode_stream_header_frame id off fin b out :
  frame_encode (Frame.Stream id off fin b) out
  = Some (encode_stream_header out id off (zlen b) fin ++ b).
Proof.
  cbn [frame_encode]. unfold encode_stream, encode_stream_header.
  unfold wseq, put_u8, put_varint, extend_from_slice.
  destruct (off =? 0), fin; reflexivity.
Qed.

(** * Properties *)

(** C22: nothing written is lost.  Whatever mix of writes, carving, acknowledgements,
    losses and probe timeouts happens, every frame sent carries bytes of the stream, the
    FIN only on a frame that ends it, and never beyond the peer's credit; every byte
    written is still in the write buffer, or has been acknowledged, or is held with its
    value in a chunk in flight or awaiting retransmission; and when the half reaches
    [DataRecvd] every byte and the FIN have been acknowledged. *)
Theorem send_stream_conserved : ∀ m st, u64 m →
  rtc send_step (mkSendSystem (send_new m) [] [] []) st →
  let s := sys_send st in let T := sys_written st in
  (∀ c, c ∈ sys_wire st → in_stream T c.1 ∧ (c.2 = true → chunk_end c = zlen T)
     ∧ chunk_end c ≤ peer_max_data s)
  ∧ (∀ x, 0 ≤ x < zlen T →
       write_off s ≤ x ∧ write_buf s !! Z.to_nat (x - write_off s) = T !! Z.to_nat x
       ∨ (∃ c, c ∈ sys_acks st ∧ chunk_has c x)
       ∨ ∃ c, c ∈ sent_chunks s ++ rtx_queue s ∧ in_stream T c.1 ∧ chunk_has c x)
  ∧ (ss_state s = SendState.DataRecvd →
       (∀ x, 0 ≤ x < zlen T → ∃ c, c ∈ sys_acks st ∧ chunk_has c x)
       ∧ ∃ c, c ∈ sys_acks st ∧ c.2 = true).
Proof.
  intros m st Hm Hrtc. destruct (send_reachable_inv m st Hm Hrtc) as [Hwf Hwire Hacks Hfin].
  pose proof Hwf as [H1 H2 H3 H4 H5 H6 H7 H8 H9 H10 H11 H12 H13 H14 H15 H16 H17].
  rewrite Forall_forall in Hwire, H6. cbv zeta. split; [|split].
  - intros c Hc. destruct (Hwire c Hc) as (Hc1 & Hc2 & Hc3). split; [done|]. split; [by apply Hc3|].
    pose proof (zlen_nonneg (write_buf (sys_send st))). lia.
  - intros x Hx. destruct (Z.lt_ge_cases x (write_off (sys_send st))) as [Hlt|Hge].
    + right. destruct (H14 x ltac:(lia)) as [Hcov|(c & Hc & Hhas)]; [left; by apply Hacks|].
      right. rewrite app_nil_r in Hc. exists c. split; [done|]. split; [|done].
      apply H6. by rewrite app_nil_r.
    + left. split; [done|]. rewrite H4. unfold stream_slice. rewrite list_lookup_fmap.
      unfold zlen in *. rewrite lookup_seq_lt by lia. simpl. unfold stream_of.
      replace (write_off (sys_send st) + Z.of_nat (Z.to_nat (x - write_off (sys_send st)))) with x by lia.
      destruct (lookup_lt_is_Some_2 (sys_written st) (Z.to_nat x) ltac:(lia)) as [v Hv]. by rewrite Hv.
  - intros Hd. destruct (H17 Hd) as (Hb & Hfa & Hh). split; [|by apply Hfin].
    intros x Hx. apply Hacks. rewrite Hb in H3. change (zlen []) with 0 in H3.
    destruct (H14 x ltac:(lia)) as [|(c & Hc & _)]; [done|].
    rewrite Hh in Hc. by apply elem_of_nil in Hc.
Qed.

Lemma send_stream_conserved_witness :
  let s1 := (enqueue (send_new 10) [1; 2; 3]).1 in
  let s2 := finish s1 in
  let s3 := (carve_frame s2 4 2 []).1.1 in
  let st := mkSendSystem s3 [1; 2; 3] [(0, [1; 2], false)] [] in
  ∃ c, c ∈ sent_chunks s3 ++ rtx_queue s3 ∧ in_stream [1; 2; 3] c.1 ∧ chunk_has c 1.
Proof.
  intros s1 s2 s3 st.
  assert (rtc send_step (mkSendSystem (send_new 10) [] [] []) st) as Hrun.
  { eapply rtc_l; [apply (send_write _ _ _ _ [1; 2; 3] s1 3); reflexivity|].
    eapply rtc_l; [apply send_finish|].
    eapply rtc_l; [apply (send_carve _ _ _ _ 4 2 [] s3 (carve_frame s2 4 2 []).1.2 0 2 false);
      [lia|reflexivity]|].
    apply rtc_refl. }
  destruct (send_stream_conserved 10 st ltac:(split; [lia|reflexivity]) Hrun) as (_ & H & _).
  destruct (H 1 ltac:(vm_compute; split; [discriminate|reflexivity])) as [[Hx _]|[(c & Hc & _)|Hx]].
  - exfalso. vm_compute in Hx. apply Hx. reflexivity.
  - by apply elem_of_nil in Hc.
  - exact Hx.
Defined.

(** Pruning by binary search is pruning.  After every acknowledgement the chunks in
    flight and awaiting retransmission are exactly those of before that are not wholly
    acknowledged, whether or not the fast path over the sorted deque was taken; and the
    acknowledged ranges cover exactly what they did plus the new range. *)
Theorem ack_prune_exact : ∀ T s offset len fin, send_wf T [] s → 0 ≤ offset → 0 ≤ len →
  offset + len < 2 ^ 64 →
  let s' := on_range_acked s offset len fin in
  sent_chunks s' = filter (λ c, chunk_acked s' c = false) (sent_chunks s)
  ∧ rtx_queue s' = filter (λ c, chunk_acked s' c = false) (rtx_queue s)
  ∧ ranges_wf (acked_ranges s')
  ∧ ∀ x, covers (acked_ranges s') x ↔ covers (acked_ranges s) x ∨ offset ≤ x < offset + len.
Proof.
  intros T s offset len fin Hwf Ho Hl He. destruct (ack_prune T s offset len fin Hwf Ho Hl He) as (A1 & A2 & A3 & _).
  destruct (insert_range_spec (acked_ranges s) offset (offset + len) (sw_ranges _ _ _ Hwf)) as (G1 & G2 & _).
  rewrite <- A3 in G1, G2. by split_and!.
Qed.

Lemma ack_prune_exact_witness :
  let s := (carve_frame (carve_frame (enqueue (send_new 10) [1; 2; 3]).1 4 2 []).1.1 4 1 []).1.1 in
  length (sent_chunks s) = 2%nat
  ∧ sent_chunks (on_range_acked s 0 2 false)
    = filter (λ c, chunk_acked (on_range_acked s 0 2 false) c = false) (sent_chunks s).
Proof.
  intros s. split; [reflexivity|].
  refine (proj1 (ack_prune_exact ([] ++ [1; 2; 3]) s 0 2 false _ _ _ _)); [|lia|lia|reflexivity].
  refine (proj1 (carve_send_wf _ (carve_frame (enqueue (send_new 10) [1; 2; 3]).1 4 2 []).1.1 4 1 []
    s _ 2 1 false _ _ eq_refl)); [|lia].
  refine (proj1 (carve_send_wf _ (enqueue (send_new 10) [1; 2; 3]).1 4 2 [] _ _ 0 2 false _ _ eq_refl)); [|lia].
  refine (proj1 (enqueue_send_wf [] (send_new 10) [1; 2; 3] _ 3 _ _ eq_refl)); [|reflexivity].
  apply send_new_wf. split; [lia|reflexivity].
Defined.

(** What the packer writes is a STREAM frame.  The bytes [carve_frame] and
    [pop_rtx_frame] append to the packet, header and data copied separately, are exactly
    the encoding of the frame they report. *)
Theorem emitted_frames_encode : ∀ T s id n out s' out' off len fin, send_wf T [] s → 0 ≤ n →
  carve_frame s id n out = (s', out', Some (off, len, fin))
  ∨ pop_rtx_frame s id n out = (s', out', Some (off, len, fin)) →
  ∃ data, zlen data = len ∧ in_stream T (off, data)
    ∧ frame_encode (Frame.Stream id off fin data) out = Some out'.
Proof.
  intros T s id n out s' out' off len fin Hwf Hn Hor.
  assert (∃ b, zlen b = len ∧ out' = encode_stream_header out id off len fin ++ b
    ∧ chunk_of T s' (off, b, fin)) as (b & <- & -> & Hc).
  { destruct Hor as [Hc|Hp].
    - by destruct (carve_send_wf _ _ _ _ _ _ _ _ _ _ Hwf Hn Hc) as (_ & _ & ?).
    - by destruct (pop_rtx_send_wf _ _ _ _ _ _ _ _ _ _ Hwf Hn Hp) as (_ & _ & ?). }
  exists b. split; [done|]. split; [apply Hc|]. apply encode_stream_header_frame.
Qed.

Lemma emitted_frames_encode_witness :
  let s := (enqueue (send_new 10) [1; 2; 3]).1 in
  ∃ data, zlen data = 2 ∧ in_stream ([] ++ [1; 2; 3]) (0, data)
    ∧ frame_encode (Frame.Stream 4 0 false data) [9] = Some [9; 0x0A; 4; 2; 1; 2].
Proof.
  intros s. apply (emitted_frames_encode ([] ++ [1; 2; 3]) s 4 2 [9] (carve_frame s 4 2 [9]).1.1
    [9; 0x0A; 4; 2; 1; 2] 0 2 false).
  - refine (proj1 (enqueue_send_wf [] (send_new 10) [1; 2; 3] _ 3 _ _ eq_refl)); [|reflexivity].
    apply send_new_wf. split; [lia|reflexivity].
  - lia.
  - left. reflexivity.
Defined.

(** [finish] alone does not stop [enqueue]: the documentation of [finish] says later
    calls return 0, but [enqueue] only looks at the state, which [finish] leaves alone.
    (The stream table refuses the write itself.) *)
Lemma enqueue_after_finish_accepts :
  (enqueue (finish (enqueue (send_new 10) [1; 2]).1) [3; 4]).2 = 2.
Proof. reflexivity. Qed.
