(* ===== verification/TransportParams.v ===== *)
(** QUIC transport parameters ([src/quic/transport_params.rs]): the server's preferred
    address, the version information of RFC 9368, and the parameter list itself, a
    sequence of [(id, length, value)] triples.  The offset [p] into the buffer is the
    buffer that is left; an array [[u8; 16]] is a list of 16 bytes. *)

From S2P Require Import Prelude TlsBase Varint Codec Ack.

(** * Preferred address *)

Record SocketAddrV4 := mkV4 { v4_ip : bytes; v4_port : Z }.
Record SocketAddrV6 := mkV6 { v6_ip : bytes; v6_port : Z; v6_flowinfo : Z; v6_scope_id : Z }.

Record PreferredAddress := mkPreferredAddress {
  pa_ipv4 : option SocketAddrV4;
  pa_ipv6 : option SocketAddrV6;
  pa_connection_id : bytes;
  pa_stateless_reset_token : bytes }.

Definition PA_FIXED_LEN : Z := 4 + 2 + 16 + 2 + 1 + 16.

Definition pa_encode (self : PreferredAddress) : bytes :=
  match pa_ipv4 self with
  | Some a => v4_ip a ++ be_bytes 2 (v4_port a)
  | None => replicate 6 0
  end ++
  match pa_ipv6 self with
  | Some a => v6_ip a ++ be_bytes 2 (v6_port a)
  | None => replicate 18 0
  end ++
  [as_u8 (zlen (pa_connection_id self))] ++ pa_connection_id self ++ pa_stateless_reset_token self.

(** [Ipv4Addr::is_unspecified] and [Ipv6Addr::is_unspecified]. *)
Definition is_unspecified (ip : bytes) : bool := forallb (Z.eqb 0) ip.

Definition pa_decode (body : bytes) : tls_result PreferredAddress :=
  if zlen body <? PA_FIXED_LEN then Err Error.Decode
  else
    let ip4 := ztake 4 body in
    let port4 := be_value (ztake 2 (zdrop 4 body)) in
    let ip6 := ztake 16 (zdrop 6 body) in
    let port6 := be_value (ztake 2 (zdrop 22 body)) in
    let cid_len := body !!! 24%nat in
    if 20 <? cid_len then Err Error.Decode
    else if cid_len =? 0 then Err Error.Decode
    else if negb (zlen body =? PA_FIXED_LEN + cid_len) then Err Error.Decode
    else
      let connection_id := ztake cid_len (zdrop 25 body) in
      let token := zdrop (25 + cid_len) body in
      let ipv4 := if negb (is_unspecified ip4) && negb (port4 =? 0)
                  then Some (mkV4 ip4 port4) else None in
      let ipv6 := if negb (is_unspecified ip6) && negb (port6 =? 0)
                  then Some (mkV6 ip6 port6 0 0) else None in
      match ipv4, ipv6 with
      | None, None => Err Error.Decode
      | _, _ => Ok (mkPreferredAddress ipv4 ipv6 connection_id token)
      end.

(** * Version information *)

Record VersionInformation := mkVersionInformation { chosen : Z; available : list Z }.

Definition vi_encode (self : VersionInformation) : bytes :=
  be_bytes 4 (chosen self) ++ concat (be_bytes 4 <$> available self).

(** [chunks_exact(4)] as [u32]s; a tail of fewer than four bytes is left out. *)
Fixpoint words (body : bytes) : list Z :=
  match body with
  | a :: b :: c :: d :: rest => be_value [a; b; c; d] :: words rest
  | _ => []
  end.

Definition vi_decode (body : bytes) : tls_result VersionInformation :=
  if (zlen body <? 4) || negb (zlen body mod 4 =? 0) then Err Error.Decode
  else
    match words body with
    | [] => Err Error.Decode
    | chosen :: available =>
        if chosen =? 0 then Err Error.Decode
        else if existsb (Z.eqb 0) available then Err Error.Decode
        else Ok (mkVersionInformation chosen available)
    end.

(** * The parameters *)

Record TransportParameters := mkTransportParameters {
  original_destination_connection_id : option bytes;
  max_idle_timeout_ms : option Z;
  stateless_reset_token : option bytes;
  max_udp_payload_size : option Z;
  initial_max_data : option Z;
  initial_max_stream_data_bidi_local : option Z;
  initial_max_stream_data_bidi_remote : option Z;
  initial_max_stream_data_uni : option Z;
  initial_max_streams_bidi : option Z;
  initial_max_streams_uni : option Z;
  ack_delay_exponent : option Z;
  max_ack_delay_ms : option Z;
  disable_active_migration : bool;
  preferred_address : option bytes;
  active_connection_id_limit : option Z;
  initial_source_connection_id : option bytes;
  retry_source_connection_id : option bytes;
  version_information : option VersionInformation;
  max_datagram_frame_size : option Z }.

#[export] Instance eta_tp : Eta TransportParameters := λ p,
  mkTransportParameters (original_destination_connection_id p) (max_idle_timeout_ms p)
    (stateless_reset_token p) (max_udp_payload_size p) (initial_max_data p)
    (initial_max_stream_data_bidi_local p) (initial_max_stream_data_bidi_remote p)
    (initial_max_stream_data_uni p) (initial_max_streams_bidi p) (initial_max_streams_uni p)
    (ack_delay_exponent p) (max_ack_delay_ms p) (disable_active_migration p)
    (preferred_address p) (active_connection_id_limit p) (initial_source_connection_id p)
    (retry_source_connection_id p) (version_information p) (max_datagram_frame_size p).

Definition tp_default : TransportParameters :=
  mkTransportParameters None None None None None None None None None None None None false
    None None None None None None.

Definition ID_ORIGINAL_DESTINATION_CONNECTION_ID : Z := 0x00.
Definition ID_MAX_IDLE_TIMEOUT : Z := 0x01.
Definition ID_STATELESS_RESET_TOKEN : Z := 0x02.
Definition ID_MAX_UDP_PAYLOAD_SIZE : Z := 0x03.
Definition ID_INITIAL_MAX_DATA : Z := 0x04.
Definition ID_INITIAL_MAX_STREAM_DATA_BIDI_LOCAL : Z := 0x05.
Definition ID_INITIAL_MAX_STREAM_DATA_BIDI_REMOTE : Z := 0x06.
Definition ID_INITIAL_MAX_STREAM_DATA_UNI : Z := 0x07.
Definition ID_INITIAL_MAX_STREAMS_BIDI : Z := 0x08.
Definition ID_INITIAL_MAX_STREAMS_UNI : Z := 0x09.
Definition ID_ACK_DELAY_EXPONENT : Z := 0x0A.
Definition ID_MAX_ACK_DELAY : Z := 0x0B.
Definition ID_DISABLE_ACTIVE_MIGRATION : Z := 0x0C.
Definition ID_PREFERRED_ADDRESS : Z := 0x0D.
Definition ID_ACTIVE_CONNECTION_ID_LIMIT : Z := 0x0E.
Definition ID_INITIAL_SOURCE_CONNECTION_ID : Z := 0x0F.
Definition ID_RETRY_SOURCE_CONNECTION_ID : Z := 0x10.
Definition ID_VERSION_INFORMATION : Z := 0x11.
Definition ID_MAX_DATAGRAM_FRAME_SIZE : Z := 0x20.

Definition write_varint_param (out : bytes) (id value : Z) : bytes :=
  varint_encode value (varint_encode (varint_encoded_len value) (varint_encode id out)).

Definition write_opaque_param (out : bytes) (id : Z) (b : bytes) : bytes :=
  varint_encode (zlen b) (varint_encode id out) ++ b.

Definition read_varint_value (buf : bytes) : tls_result Z :=
  '(v, n) ← varint_decode buf;
  if negb (n =? zlen buf) then Err Error.Decode else Ok v.

(** [if let Some(v) = field { write(out, id, v) }] *)
Definition if_some {A} (o : option A) (write : bytes → A → bytes) (out : bytes) : bytes :=
  match o with Some v => write out v | None => out end.
Definition varint_field (id : Z) (o : option Z) (out : bytes) : bytes :=
  if_some o (λ out v, write_varint_param out id v) out.
Definition opaque_field (id : Z) (o : option bytes) (out : bytes) : bytes :=
  if_some o (λ out v, write_opaque_param out id v) out.

Definition tp_encode (self : TransportParameters) (out : bytes) : bytes :=
  let out := opaque_field ID_ORIGINAL_DESTINATION_CONNECTION_ID
               (original_destination_connection_id self) out in
  let out := varint_field ID_MAX_IDLE_TIMEOUT (max_idle_timeout_ms self) out in
  let out := if_some (stateless_reset_token self) (λ out tok,
               varint_encode 16 (varint_encode ID_STATELESS_RESET_TOKEN out) ++ tok) out in
  let out := varint_field ID_MAX_UDP_PAYLOAD_SIZE (max_udp_payload_size self) out in
  let out := varint_field ID_INITIAL_MAX_DATA (initial_max_data self) out in
  let out := varint_field ID_INITIAL_MAX_STREAM_DATA_BIDI_LOCAL
               (initial_max_stream_data_bidi_local self) out in
  let out := varint_field ID_INITIAL_MAX_STREAM_DATA_BIDI_REMOTE
               (initial_max_stream_data_bidi_remote self) out in
  let out := varint_field ID_INITIAL_MAX_STREAM_DATA_UNI (initial_max_stream_data_uni self) out in
  let out := varint_field ID_INITIAL_MAX_STREAMS_BIDI (initial_max_streams_bidi self) out in
  let out := varint_field ID_INITIAL_MAX_STREAMS_UNI (initial_max_streams_uni self) out in
  let out := varint_field ID_ACK_DELAY_EXPONENT (ack_delay_exponent self) out in
  let out := varint_field ID_MAX_ACK_DELAY (max_ack_delay_ms self) out in
  let out := if disable_active_migration self
             then varint_encode 0 (varint_encode ID_DISABLE_ACTIVE_MIGRATION out) else out in
  let out := opaque_field ID_PREFERRED_ADDRESS (preferred_address self) out in
  let out := varint_field ID_ACTIVE_CONNECTION_ID_LIMIT (active_connection_id_limit self) out in
  let out := opaque_field ID_INITIAL_SOURCE_CONNECTION_ID (initial_source_connection_id self) out in
  let out := opaque_field ID_RETRY_SOURCE_CONNECTION_ID (retry_source_connection_id self) out in
  let out := opaque_field ID_VERSION_INFORMATION (vi_encode <$> version_information self) out in
  varint_field ID_MAX_DATAGRAM_FRAME_SIZE (max_datagram_frame_size self) out.

(** The [match id] on one parameter. *)
Definition cid_value (value : bytes) : tls_result bytes :=
  if 20 <? zlen value then Err Error.Decode else Ok value.

Definition set_param (out : TransportParameters) (id : Z) (value : bytes)
  : tls_result TransportParameters :=
  if id =? ID_ORIGINAL_DESTINATION_CONNECTION_ID then
    v ← cid_value value; Ok (out <| original_destination_connection_id := Some v |>)
  else if id =? ID_MAX_IDLE_TIMEOUT then
    v ← read_varint_value value; Ok (out <| max_idle_timeout_ms := Some v |>)
  else if id =? ID_STATELESS_RESET_TOKEN then
    if negb (zlen value =? 16) then Err Error.Decode
    else Ok (out <| stateless_reset_token := Some value |>)
  else if id =? ID_MAX_UDP_PAYLOAD_SIZE then
    v ← read_varint_value value; Ok (out <| max_udp_payload_size := Some v |>)
  else if id =? ID_INITIAL_MAX_DATA then
    v ← read_varint_value value; Ok (out <| initial_max_data := Some v |>)
  else if id =? ID_INITIAL_MAX_STREAM_DATA_BIDI_LOCAL then
    v ← read_varint_value value; Ok (out <| initial_max_stream_data_bidi_local := Some v |>)
  else if id =? ID_INITIAL_MAX_STREAM_DATA_BIDI_REMOTE then
    v ← read_varint_value value; Ok (out <| initial_max_stream_data_bidi_remote := Some v |>)
  else if id =? ID_INITIAL_MAX_STREAM_DATA_UNI then
    v ← read_varint_value value; Ok (out <| initial_max_stream_data_uni := Some v |>)
  else if id =? ID_INITIAL_MAX_STREAMS_BIDI then
    v ← read_varint_value value; Ok (out <| initial_max_streams_bidi := Some v |>)
  else if id =? ID_INITIAL_MAX_STREAMS_UNI then
    v ← read_varint_value value; Ok (out <| initial_max_streams_uni := Some v |>)
  else if id =? ID_ACK_DELAY_EXPONENT then
    v ← read_varint_value value; Ok (out <| ack_delay_exponent := Some v |>)
  else if id =? ID_MAX_ACK_DELAY then
    v ← read_varint_value value; Ok (out <| max_ack_delay_ms := Some v |>)
  else if id =? ID_DISABLE_ACTIVE_MIGRATION then
    match value with
    | [] => Ok (out <| disable_active_migration := true |>)
    | _ => Err Error.Decode
    end
  else if id =? ID_PREFERRED_ADDRESS then Ok (out <| preferred_address := Some value |>)
  else if id =? ID_ACTIVE_CONNECTION_ID_LIMIT then
    v ← read_varint_value value; Ok (out <| active_connection_id_limit := Some v |>)
  else if id =? ID_INITIAL_SOURCE_CONNECTION_ID then
    v ← cid_value value; Ok (out <| initial_source_connection_id := Some v |>)
  else if id =? ID_RETRY_SOURCE_CONNECTION_ID then
    v ← cid_value value; Ok (out <| retry_source_connection_id := Some v |>)
  else if id =? ID_VERSION_INFORMATION then
    v ← vi_decode value; Ok (out <| version_information := Some v |>)
  else if id =? ID_MAX_DATAGRAM_FRAME_SIZE then
    v ← read_varint_value value; Ok (out <| max_datagram_frame_size := Some v |>)
  else Ok out.

(** [seen_low] and [seen_high]: whether [id] is fresh, and the sets with it. *)
Definition see (id : Z) (seen : Z * gset Z) : bool * (Z * gset Z) :=
  let '(low, high) := seen in
  if id <? 64 then
    let bit := wshl 64 1 id in
    (Z.land low bit =? 0, (Z.lor low bit, high))
  else (bool_decide (id ∉ high), (low, {[id]} ∪ high)).

(** [while p < buf.len()]; every round consumes two varints at least. *)
Fixpoint tp_decode_loop (fuel : nat) (buf : bytes) (seen : Z * gset Z) (out : TransportParameters)
  : tls_result TransportParameters :=
  match fuel, buf with
  | _, [] => Ok out
  | O, _ => Err Error.Decode
  | S fuel, _ =>
      '(id, buf) ← take_varint buf;
      let '(fresh, seen) := see id seen in
      if negb fresh then Err Error.Decode
      else
        '(length, buf) ← take_varint buf;
        length ← bounded_len 64 length (zlen buf);
        out ← set_param out id (ztake length buf);
        tp_decode_loop fuel (zdrop length buf) seen out
  end.

Definition tp_decode (buf : bytes) : tls_result TransportParameters :=
  tp_decode_loop (length buf) buf (0, ∅) tp_default.

(** * The list as a sequence of triples *)

(** One triple on the wire. *)
Definition tlv (e : Z * bytes) : bytes :=
  varint_encode e.1 [] ++ varint_encode (zlen e.2) [] ++ e.2.
Definition tlv_ok (e : Z * bytes) : Prop := 0 ≤ e.1 ≤ VARINT_MAX ∧ zlen e.2 ≤ VARINT_MAX.

(** The reference reading of a buffer: split it first, look at the values later. *)
Fixpoint split_params (fuel : nat) (buf : bytes) : tls_result (list (Z * bytes)) :=
  match fuel, buf with
  | _, [] => Ok []
  | O, _ => Err Error.Decode
  | S fuel, _ =>
      '(id, buf) ← take_varint buf;
      '(length, buf) ← take_varint buf;
      if zlen buf <? length then Err Error.Decode
      else l ← split_params fuel (zdrop length buf); Ok ((id, ztake length buf) :: l)
  end.

Fixpoint apply_params (l : list (Z * bytes)) (out : TransportParameters)
  : tls_result TransportParameters :=
  match l with
  | [] => Ok out
  | (id, v) :: l => out ← set_param out id v; apply_params l out
  end.

(** ** The identifiers seen so far *)

Definition seen_by (seen : Z * gset Z) (id : Z) : bool :=
  if id <? 64 then Z.testbit seen.1 id else bool_decide (id ∈ seen.2).

Lemma see_fresh id seen : 0 ≤ id → (see id seen).1 = negb (seen_by seen id).
Proof.
  intros Hid. destruct seen as [low high]. unfold see, seen_by. cbn [fst snd].
  destruct (Z.ltb_spec id 64) as [Hlt|Hge]; cbn [fst].
  - unfold wshl. rewrite Z.shiftl_1_l, wrap_small
      by (split; [lia|apply Z.pow_lt_mono_r; lia]).
    destruct (Z.eqb_spec (Z.land low (2 ^ id)) 0) as [E|E].
    + apply (f_equal (λ x, Z.testbit x id)) in E.
      rewrite Z.land_spec, Z.pow2_bits_true, andb_true_r, Z.bits_0 in E by done. by rewrite E.
    + destruct (Z.testbit low id) eqn:Eb; [done|]. destruct E. apply Z.bits_inj'. intros i Hi.
      rewrite Z.land_spec, Z.bits_0. destruct (Z.eq_dec i id) as [->|]; [by rewrite Eb|].
      by rewrite Z.pow2_bits_false, andb_false_r by lia.
  - repeat case_bool_decide; naive_solver.
Qed.

Lemma see_seen id seen id' : 0 ≤ id → 0 ≤ id' →
  seen_by (see id seen).2 id' = bool_decide (id' = id) || seen_by seen id'.
Proof.
  intros Hid Hid'. destruct seen as [low high]. unfold see, seen_by.
  destruct (Z.ltb_spec id 64); cbn [fst snd]; destruct (Z.ltb_spec id' 64); cbn [fst snd];
    try (rewrite (bool_decide_eq_false_2 (id' = id)) by lia; done).
  - unfold wshl. rewrite Z.shiftl_1_l, wrap_small
      by (split; [lia|apply Z.pow_lt_mono_r; lia]).
    rewrite Z.lor_spec, orb_comm. f_equal. case_bool_decide; subst.
    + by rewrite Z.pow2_bits_true.
    + rewrite Z.pow2_bits_false by lia. done.
  - destruct (Z.eq_dec id' id) as [->|Hne].
    + rewrite !bool_decide_eq_true_2 by set_solver. done.
    + rewrite (bool_decide_eq_false_2 (id' = id)) by done. apply bool_decide_ext. set_solver.
Qed.

(** ** Decoding is splitting, a duplicate check and one assignment per triple *)

Lemma bounded_len_64 length buf : 0 ≤ length ≤ VARINT_MAX →
  bounded_len 64 length (zlen (buf : bytes)) =
  if zlen buf <? length then Err Error.Decode else Ok length.
Proof.
  intros [? Hle]. unfold bounded_len. change VARINT_MAX with (2 ^ 62 - 1) in Hle.
  destruct (Z.ltb_spec length (2 ^ 64)); [|lia].
  destruct (Z.leb_spec length (zlen buf)), (Z.ltb_spec (zlen buf) length); try done; lia.
Qed.

Lemma tp_decode_loop_split fuel : ∀ buf seen out p, bytes_ok buf →
  tp_decode_loop fuel buf seen out = Ok p ↔
  ∃ l, split_params fuel buf = Ok l ∧ NoDup l.*1 ∧ Forall (λ e, 0 ≤ e.1 ∧ seen_by seen e.1 = false) l
    ∧ apply_params l out = Ok p.
Proof.
  induction fuel as [|fuel IH]; intros buf seen out p Hok.
  { destruct buf; simpl; [|naive_solver]. split; [intros [= <-]; exists []; by split_and!; [|constructor|constructor|]|].
    by intros (l & [= <-] & _ & _ & ?). }
  destruct buf as [|b buf]; [simpl; split; [intros [= <-]; exists []; by split_and!; [|constructor|constructor|]|]|].
  { by intros (l & [= <-] & _ & _ & ?). }
  cbn [tp_decode_loop split_params].
  destruct (take_varint (b :: buf)) as [[id buf1]|] eqn:E1; cbn [mbind result_bind]; [|naive_solver].
  apply take_varint_inv in E1 as (Hid & Hok1 & _); [|done].
  pose proof (see_fresh id seen ltac:(lia)) as Hfr. pose proof (λ i, see_seen id seen i ltac:(lia)) as Hse.
  destruct (see id seen) as [fresh seen']. cbn [fst snd] in *. subst fresh. rewrite negb_involutive.
  destruct (take_varint buf1) as [[len buf2]|] eqn:E2; cbn [mbind result_bind];
    [|destruct (seen_by seen id); naive_solver].
  apply take_varint_inv in E2 as (Hlen & Hok2 & _); [|done].
  rewrite bounded_len_64 by done.
  destruct (zlen buf2 <? len); [destruct (seen_by seen id); naive_solver|]. cbn [mbind result_bind].
  assert (bytes_ok (zdrop len buf2)) as Hok3 by by apply Forall_drop.
  destruct (seen_by seen id) eqn:Hid2.
  { split; [done|]. intros (l & Hl & _ & Hf & _). apply bind_Ok_inv in Hl as (l' & _ & [= <-]).
    apply Forall_cons in Hf as [[_ Hf] _]. cbn [fst] in Hf. congruence. }
  destruct (set_param out id (ztake len buf2)) as [out'|] eqn:Es; cbn [mbind result_bind].
  - rewrite (IH _ _ _ _ Hok3). split.
    + intros (l & -> & Hnd & Hf & Ha). exists ((id, ztake len buf2) :: l). split; [done|].
      rewrite Forall_forall in Hf. split_and!.
      * simpl. constructor; [|done]. intros (e & -> & He)%list_elem_of_fmap.
        destruct (Hf e He) as [Hp Hs]. rewrite Hse in Hs by done. by rewrite bool_decide_eq_true_2 in Hs.
      * constructor; [simpl; split; [lia|done]|]. apply Forall_forall. intros e He.
        destruct (Hf e He) as [Hp Hs]. rewrite Hse in Hs by done. by apply orb_false_iff in Hs as [_ ?].
      * simpl. by rewrite Es.
    + intros (l & Hl & Hnd & Hf & Ha). apply bind_Ok_inv in Hl as (l' & -> & [= <-]). exists l'.
      simpl in Ha. rewrite Es in Ha. simpl in Hnd. apply NoDup_cons in Hnd as [Hni Hnd].
      apply Forall_cons in Hf as [_ Hf]. split_and!; try done.
      rewrite Forall_forall in *. intros e He. destruct (Hf e He) as [Hp Hs]. split; [done|].
      rewrite Hse by done. apply orb_false_iff. split; [|done]. apply bool_decide_eq_false_2.
      intros <-. apply Hni, list_elem_of_fmap. eauto.
  - split; [done|]. intros (l & Hl & _ & _ & Ha). apply bind_Ok_inv in Hl as (l' & _ & [= <-]).
    simpl in Ha. by rewrite Es in Ha.
Qed.

(** ** The triples of a parameter set *)

Definition opt_param {A} (id : Z) (f : A → bytes) (o : option A) : list (Z * bytes) :=
  match o with Some v => [(id, f v)] | None => [] end.
Definition venc (v : Z) : bytes := varint_encode v [].

Definition tp_params (p : TransportParameters) : list (Z * bytes) :=
  opt_param ID_ORIGINAL_DESTINATION_CONNECTION_ID id (original_destination_connection_id p)
  ++ opt_param ID_MAX_IDLE_TIMEOUT venc (max_idle_timeout_ms p)
  ++ opt_param ID_STATELESS_RESET_TOKEN id (stateless_reset_token p)
  ++ opt_param ID_MAX_UDP_PAYLOAD_SIZE venc (max_udp_payload_size p)
  ++ opt_param ID_INITIAL_MAX_DATA venc (initial_max_data p)
  ++ opt_param ID_INITIAL_MAX_STREAM_DATA_BIDI_LOCAL venc (initial_max_stream_data_bidi_local p)
  ++ opt_param ID_INITIAL_MAX_STREAM_DATA_BIDI_REMOTE venc (initial_max_stream_data_bidi_remote p)
  ++ opt_param ID_INITIAL_MAX_STREAM_DATA_UNI venc (initial_max_stream_data_uni p)
  ++ opt_param ID_INITIAL_MAX_STREAMS_BIDI venc (initial_max_streams_bidi p)
  ++ opt_param ID_INITIAL_MAX_STREAMS_UNI venc (initial_max_streams_uni p)
  ++ opt_param ID_ACK_DELAY_EXPONENT venc (ack_delay_exponent p)
  ++ opt_param ID_MAX_ACK_DELAY venc (max_ack_delay_ms p)
  ++ (if disable_active_migration p then [(ID_DISABLE_ACTIVE_MIGRATION, [])] else [])
  ++ opt_param ID_PREFERRED_ADDRESS id (preferred_address p)
  ++ opt_param ID_ACTIVE_CONNECTION_ID_LIMIT venc (active_connection_id_limit p)
  ++ opt_param ID_INITIAL_SOURCE_CONNECTION_ID id (initial_source_connection_id p)
  ++ opt_param ID_RETRY_SOURCE_CONNECTION_ID id (retry_source_connection_id p)
  ++ opt_param ID_VERSION_INFORMATION vi_encode (version_information p)
  ++ opt_param ID_MAX_DATAGRAM_FRAME_SIZE venc (max_datagram_frame_size p).

(** Parameters within the limits of RFC 9000 and RFC 9368. *)
Definition vi_ok (v : VersionInformation) : Prop :=
  u32 (chosen v) ∧ chosen v ≠ 0 ∧ Forall (λ a, u32 a ∧ a ≠ 0) (available v).
Definition opt_ok {A} (P : A → Prop) (o : option A) : Prop := ∀ x, o = Some x → P x.
Definition is_varint (v : Z) : Prop := 0 ≤ v ≤ VARINT_MAX.
Definition is_cid (b : bytes) : Prop := bytes_ok b ∧ zlen b ≤ 20.

Record tp_ok (p : TransportParameters) : Prop := {
  tp_odcid : opt_ok is_cid (original_destination_connection_id p);
  tp_idle : opt_ok is_varint (max_idle_timeout_ms p);
  tp_token : opt_ok (λ b, bytes_ok b ∧ zlen b = 16) (stateless_reset_token p);
  tp_udp : opt_ok is_varint (max_udp_payload_size p);
  tp_data : opt_ok is_varint (initial_max_data p);
  tp_bidi_local : opt_ok is_varint (initial_max_stream_data_bidi_local p);
  tp_bidi_remote : opt_ok is_varint (initial_max_stream_data_bidi_remote p);
  tp_uni : opt_ok is_varint (initial_max_stream_data_uni p);
  tp_streams_bidi : opt_ok is_varint (initial_max_streams_bidi p);
  tp_streams_uni : opt_ok is_varint (initial_max_streams_uni p);
  tp_exponent : opt_ok is_varint (ack_delay_exponent p);
  tp_ack_delay : opt_ok is_varint (max_ack_delay_ms p);
  tp_preferred : opt_ok (λ b, bytes_ok b ∧ zlen b ≤ VARINT_MAX) (preferred_address p);
  tp_cid_limit : opt_ok is_varint (active_connection_id_limit p);
  tp_iscid : opt_ok is_cid (initial_source_connection_id p);
  tp_rscid : opt_ok is_cid (retry_source_connection_id p);
  tp_vi : opt_ok (λ v, vi_ok v ∧ 4 * zlen (available v) + 4 ≤ VARINT_MAX) (version_information p);
  tp_datagram : opt_ok is_varint (max_datagram_frame_size p) }.

Lemma concat_tlv_app l k : concat (tlv <$> (l ++ k)) = concat (tlv <$> l) ++ concat (tlv <$> k).
Proof. by rewrite fmap_app, concat_app. Qed.

Lemma varint_field_tlv id o out : 0 ≤ id → opt_ok is_varint o →
  varint_field id o out = out ++ concat (tlv <$> opt_param id venc o).
Proof.
  intros Hid Ho. destruct o as [v|]; simpl; [|by rewrite app_nil_r].
  specialize (Ho v eq_refl). unfold varint_field, write_varint_param, tlv, venc. simpl.
  rewrite <- (length_varint_encode v) by done.
  rewrite (varint_encode_app v), (varint_encode_app (zlen _) (varint_encode id out)), (varint_encode_app id out).
  by rewrite <- !app_assoc, app_nil_r.
Qed.

Lemma opaque_field_tlv id o out : 0 ≤ id →
  opaque_field id o out = out ++ concat (tlv <$> opt_param id (λ b, b) o).
Proof.
  intros Hid. destruct o as [v|]; simpl; [|by rewrite app_nil_r].
  unfold opaque_field, write_opaque_param, tlv. simpl.
  rewrite (varint_encode_app (zlen v)), (varint_encode_app id out).
  by rewrite <- !app_assoc, app_nil_r.
Qed.

Lemma token_tlv (o : option bytes) out : opt_ok (λ b, bytes_ok b ∧ zlen b = 16) o →
  if_some o (λ out tok, varint_encode 16 (varint_encode ID_STATELESS_RESET_TOKEN out) ++ tok) out
  = out ++ concat (tlv <$> opt_param ID_STATELESS_RESET_TOKEN id o).
Proof.
  intros Ho. destruct o as [v|]; simpl; [|by rewrite app_nil_r]. unfold tlv. cbn [fst snd].
  destruct (Ho v eq_refl) as [_ ->].
  rewrite (varint_encode_app 16), (varint_encode_app ID_STATELESS_RESET_TOKEN out).
  by rewrite <- !app_assoc, app_nil_r.
Qed.

Lemma migration_tlv (b : bool) out :
  (if b then varint_encode 0 (varint_encode ID_DISABLE_ACTIVE_MIGRATION out) else out)
  = out ++ concat (tlv <$> (if b then [(ID_DISABLE_ACTIVE_MIGRATION, [])] else [])).
Proof.
  destruct b; simpl; [|by rewrite app_nil_r].
  rewrite (varint_encode_app 0), (varint_encode_app ID_DISABLE_ACTIVE_MIGRATION out).
  by rewrite <- !app_assoc.
Qed.

Lemma opt_param_fmap {A} id (f : A → bytes) o : opt_param id (λ b, b) (f <$> o) = opt_param id f o.
Proof. by destruct o. Qed.

Lemma tp_encode_tlv p out : tp_ok p → tp_encode p out = out ++ concat (tlv <$> tp_params p).
Proof.
  intros []. unfold tp_encode. cbv zeta.
  rewrite !varint_field_tlv, !opaque_field_tlv, migration_tlv, token_tlv, opt_param_fmap by done.
  unfold tp_params. rewrite !concat_tlv_app, <- !app_assoc. done.
Qed.

(** Known identifiers, in the order of [tp_params]. *)
Definition known_ids : list Z :=
  [0x00; 0x01; 0x02; 0x03; 0x04; 0x05; 0x06; 0x07; 0x08; 0x09; 0x0A; 0x0B; 0x0C; 0x0D; 0x0E;
   0x0F; 0x10; 0x11; 0x20].

Lemma opt_param_ids {A} id (f : A → bytes) o : (opt_param id f o).*1 `sublist_of` [id].
Proof. destruct o; simpl; repeat constructor. Qed.

Lemma tp_params_ids p : (tp_params p).*1 `sublist_of` known_ids.
Proof.
  unfold tp_params, known_ids. rewrite !fmap_app.
  repeat match goal with
  | |- _ ++ _ `sublist_of` ?x :: ?l => change (x :: l) with ([x] ++ l); apply sublist_app
  | |- _ => apply opt_param_ids
  end.
  destruct (disable_active_migration p); repeat constructor.
Qed.

Lemma vi_encode_ok v : bytes_ok (vi_encode v).
Proof.
  apply Forall_app. split; [apply be_bytes_ok|]. induction (available v) as [|a l IH]; [constructor|].
  rewrite fmap_cons. cbn [concat]. apply Forall_app. split; [apply be_bytes_ok|exact IH].
Qed.

Lemma zlen_vi_encode v : zlen (vi_encode v) = 4 + 4 * zlen (available v).
Proof.
  unfold vi_encode. rewrite zlen_app. change (zlen (be_bytes 4 (chosen v))) with 4. f_equal.
  induction (available v) as [|a l IH]; [done|]. rewrite fmap_cons. cbn [concat].
  rewrite zlen_app, IH. unfold zlen. cbn [length be_bytes]. lia.
Qed.

Lemma varint_encoded_len_le v : 1 ≤ varint_encoded_len v ≤ 8.
Proof. unfold varint_encoded_len. repeat case_match; lia. Qed.

(** What [tp_ok] gives for every triple. *)
Lemma tp_params_ok p : tp_ok p → Forall (λ e, tlv_ok e ∧ bytes_ok e.2) (tp_params p).
Proof.
  assert (∀ A id (f : A → bytes) o (P : A → Prop), 0 ≤ id ≤ VARINT_MAX → opt_ok P o →
    (∀ x, P x → zlen (f x) ≤ VARINT_MAX ∧ bytes_ok (f x)) →
    Forall (λ e, tlv_ok e ∧ bytes_ok e.2) (opt_param id f o)) as Hgen.
  { intros A id f o P Hid Ho HP. destruct o as [x|]; constructor; [|constructor].
    destruct (HP x (Ho x eq_refl)). done. }
  assert (∀ x, is_varint x → zlen (venc x) ≤ VARINT_MAX ∧ bytes_ok (venc x)) as Hv.
  { intros x Hx. unfold venc. split; [|apply varint_encode_ok; [apply Hx|constructor]].
    rewrite length_varint_encode by done. pose proof (varint_encoded_len_le x).
    change VARINT_MAX with (2 ^ 62 - 1). lia. }
  assert (∀ x, is_cid x → zlen (id x) ≤ VARINT_MAX ∧ bytes_ok (id x)) as Hc.
  { intros x [? ?]. split; [|done]. change VARINT_MAX with (2 ^ 62 - 1). unfold id. lia. }
  intros []. unfold tp_params. rewrite !Forall_app. split_and!;
    try (eapply Hgen; [by split|eassumption|first [exact Hv|exact Hc]]).
  - eapply Hgen; [by split|exact tp_token0|]. intros x [? Hx]. unfold id. by rewrite Hx.
  - destruct (disable_active_migration p); repeat constructor; done.
  - eapply Hgen; [by split|exact tp_preferred0|]. intros x [? ?]. by split.
  - eapply Hgen; [by split|exact tp_vi0|]. intros x [? ?].
    split; [rewrite zlen_vi_encode; lia|apply vi_encode_ok].
Qed.

(** ** Splitting what was written, and assigning it *)

Lemma varint_encode_nonempty v : ∃ b l, varint_encode v [] = b :: l.
Proof.
  unfold varint_encode. cbv zeta. repeat case_match; simpl; try eauto;
    match goal with H : be_bytes _ _ = [] |- _ => discriminate H end.
Qed.

Lemma split_tlvs l : ∀ fuel, Forall tlv_ok l → (length l ≤ fuel)%nat →
  split_params fuel (concat (tlv <$> l)) = Ok l.
Proof.
  induction l as [|[id v] l IH]; intros fuel Hok Hf; [by destruct fuel|].
  destruct fuel as [|fuel]; [simpl in Hf; lia|].
  apply Forall_cons in Hok as [[Hid Hv] Hok]. cbn [fst snd] in *.
  rewrite fmap_cons. cbn [concat]. unfold tlv at 1. cbn [fst snd].
  rewrite <- !app_assoc. cbn [split_params].
  destruct (varint_encode_nonempty id) as (b & r & Eb).
  destruct (varint_encode id [] ++ _) as [|b' r'] eqn:E; [by rewrite Eb in E|]. rewrite <- E. clear b' r' E.
  rewrite take_varint_encode by done. cbn [mbind result_bind].
  rewrite take_varint_encode by (pose proof (zlen_nonneg v); lia). cbn [mbind result_bind].
  rewrite zlen_app, zdrop_app, ztake_app.
  destruct (Z.ltb_spec (zlen v + zlen (concat (tlv <$> l))) (zlen v)) as [Hlt|_];
    [pose proof (zlen_nonneg (concat (tlv <$> l))); lia|].
  rewrite IH by (done || (simpl in Hf; lia)). done.
Qed.

Lemma apply_params_app l k out :
  apply_params (l ++ k) out = apply_params l out ≫= apply_params k.
Proof.
  revert out. induction l as [|[id v] l IH]; intros out; [done|]. simpl.
  destruct (set_param out id v); [apply IH|done].
Qed.

Lemma read_varint_venc v : is_varint v → read_varint_value (venc v) = Ok v.
Proof.
  intros Hv. unfold read_varint_value, venc.
  pose proof (varint_roundtrip v [] Hv) as Hr. rewrite app_nil_r in Hr. rewrite Hr.
  cbn [mbind result_bind]. by rewrite length_varint_encode, Z.eqb_refl.
Qed.

Lemma cid_value_ok b : is_cid b → cid_value b = Ok b.
Proof. intros [_ ?]. unfold cid_value. by destruct (Z.ltb_spec 20 (zlen b)); [lia|]. Qed.

(** One optional parameter: the field goes from its default to the value encoded. *)
Lemma apply_opt {A} id (f : A → bytes) (o : option A) (P : A → Prop) out
    (set : option A → TransportParameters) :
  opt_ok P o → (∀ x, P x → set_param out id (f x) = Ok (set (Some x))) → out = set None →
  apply_params (opt_param id f o) out = Ok (set o).
Proof.
  intros Ho Hs Hn. destruct o as [x|]; cbn [opt_param apply_params]; [|by subst].
  by rewrite (Hs x (Ho x eq_refl)).
Qed.

Lemma words_encode l : Forall u32 l → words (concat (be_bytes 4 <$> l)) = l.
Proof.
  induction 1 as [|a l Ha Hl IH]; [done|]. rewrite fmap_cons. cbn [concat].
  change (be_value (be_bytes 4 a) :: words (concat (be_bytes 4 <$> l)) = a :: l).
  rewrite IH, be_value_be_bytes. f_equal. by apply wrap_small.
Qed.

Lemma vi_words v : vi_encode v = concat (be_bytes 4 <$> (chosen v :: available v)).
Proof. done. Qed.

Lemma existsb_zero l : Forall (λ a, u32 a ∧ a ≠ 0) l → existsb (Z.eqb 0) l = false.
Proof.
  induction 1 as [|a l [_ Ha] Hl IH]; [done|]. cbn [existsb]. rewrite IH.
  by destruct (Z.eqb_spec 0 a).
Qed.

Lemma vi_roundtrip v : vi_ok v → vi_decode (vi_encode v) = Ok v.
Proof.
  intros (Hc & Hnz & Ha). unfold vi_decode. rewrite zlen_vi_encode.
  pose proof (zlen_nonneg (available v)).
  destruct (Z.ltb_spec (4 + 4 * zlen (available v)) 4) as [|_]; [lia|].
  replace (4 + 4 * zlen (available v)) with ((1 + zlen (available v)) * 4) by lia.
  rewrite Z.mod_mul by lia. cbn [orb negb Z.eqb]. rewrite vi_words, words_encode.
  - destruct (Z.eqb_spec (chosen v) 0); [done|]. rewrite existsb_zero by done. by destruct v.
  - constructor; [done|]. eapply Forall_impl; [exact Ha|]. by intros a [? _].
Qed.

(** Resolves the comparisons of [set_param] with constant identifiers. *)
Ltac decide_ids :=
  unfold set_param;
  repeat match goal with
  | |- context [?a =? ?b] =>
      let c := eval vm_compute in (a =? b) in
      lazymatch c with true => idtac | false => idtac end;
      change (a =? b) with c; cbv beta iota
  end.

Ltac set_param_tac :=
  let Hx := fresh in
  intros ? Hx; unfold id; decide_ids;
  try (destruct Hx as [_ Hx]; rewrite Hx);
  rewrite ?read_varint_venc, ?cid_value_ok, ?vi_roundtrip by (done || apply Hx); reflexivity.

Ltac tp_cbn :=
  cbn [mbind result_bind update original_destination_connection_id max_idle_timeout_ms stateless_reset_token
    max_udp_payload_size initial_max_data initial_max_stream_data_bidi_local
    initial_max_stream_data_bidi_remote initial_max_stream_data_uni initial_max_streams_bidi
    initial_max_streams_uni ack_delay_exponent max_ack_delay_ms disable_active_migration
    preferred_address active_connection_id_limit initial_source_connection_id
    retry_source_connection_id version_information max_datagram_frame_size].

Ltac field_step field :=
  rewrite apply_params_app;
  match goal with
  | |- context [apply_params (opt_param ?id ?f ?o) ?out] =>
      erewrite (apply_opt id f o _ out (λ o, out <| field := o |>));
      [tp_cbn | eassumption | set_param_tac | reflexivity]
  end.

Lemma apply_migration (b : bool) out : disable_active_migration out = false →
  apply_params (if b then [(ID_DISABLE_ACTIVE_MIGRATION, [])] else []) out
  = Ok (out <| disable_active_migration := b |>).
Proof. intros E. destruct b; [done|]. destruct out. simpl in *. by rewrite E. Qed.

Lemma apply_tp_params p : tp_ok p → apply_params (tp_params p) tp_default = Ok p.
Proof.
  intros []. destruct p. cbn in *. unfold tp_params, tp_default. tp_cbn.
  field_step original_destination_connection_id.
  field_step max_idle_timeout_ms. field_step stateless_reset_token.
  field_step max_udp_payload_size. field_step initial_max_data.
  field_step initial_max_stream_data_bidi_local. field_step initial_max_stream_data_bidi_remote.
  field_step initial_max_stream_data_uni. field_step initial_max_streams_bidi.
  field_step initial_max_streams_uni. field_step ack_delay_exponent. field_step max_ack_delay_ms.
  rewrite apply_params_app, apply_migration by done.
  tp_cbn. field_step preferred_address. field_step active_connection_id_limit.
  field_step initial_source_connection_id. field_step retry_source_connection_id.
  field_step version_information.
  rewrite <- (app_nil_r (opt_param _ _ _)). field_step max_datagram_frame_size. done.
Qed.

(** ** What each field is read from *)

(** The value of the first triple [id], if the list has one. *)
Fixpoint param (l : list (Z * bytes)) (id : Z) : option bytes :=
  match l with
  | [] => None
  | (i, v) :: l => if i =? id then Some v else param l id
  end.

(** The field is the decoded value of its triple, or its default without one. *)
Definition reads {A} (l : list (Z * bytes)) (id : Z) (dec : bytes → tls_result A) (o : option A) : Prop :=
  match param l id with Some v => ∃ x, dec v = Ok x ∧ o = Some x | None => o = None end.

Definition token_value (v : bytes) : tls_result bytes :=
  if negb (zlen v =? 16) then Err Error.Decode else Ok v.

Record tp_reads (l : list (Z * bytes)) (p : TransportParameters) : Prop := {
  tr_odcid : reads l ID_ORIGINAL_DESTINATION_CONNECTION_ID cid_value (original_destination_connection_id p);
  tr_idle : reads l ID_MAX_IDLE_TIMEOUT read_varint_value (max_idle_timeout_ms p);
  tr_token : reads l ID_STATELESS_RESET_TOKEN token_value (stateless_reset_token p);
  tr_udp : reads l ID_MAX_UDP_PAYLOAD_SIZE read_varint_value (max_udp_payload_size p);
  tr_data : reads l ID_INITIAL_MAX_DATA read_varint_value (initial_max_data p);
  tr_bidi_local : reads l ID_INITIAL_MAX_STREAM_DATA_BIDI_LOCAL read_varint_value
    (initial_max_stream_data_bidi_local p);
  tr_bidi_remote : reads l ID_INITIAL_MAX_STREAM_DATA_BIDI_REMOTE read_varint_value
    (initial_max_stream_data_bidi_remote p);
  tr_uni : reads l ID_INITIAL_MAX_STREAM_DATA_UNI read_varint_value (initial_max_stream_data_uni p);
  tr_streams_bidi : reads l ID_INITIAL_MAX_STREAMS_BIDI read_varint_value (initial_max_streams_bidi p);
  tr_streams_uni : reads l ID_INITIAL_MAX_STREAMS_UNI read_varint_value (initial_max_streams_uni p);
  tr_exponent : reads l ID_ACK_DELAY_EXPONENT read_varint_value (ack_delay_exponent p);
  tr_ack_delay : reads l ID_MAX_ACK_DELAY read_varint_value (max_ack_delay_ms p);
  tr_migration : match param l ID_DISABLE_ACTIVE_MIGRATION with
                 | Some v => v = [] ∧ disable_active_migration p = true
                 | None => disable_active_migration p = false
                 end;
  tr_preferred : reads l ID_PREFERRED_ADDRESS Ok (preferred_address p);
  tr_cid_limit : reads l ID_ACTIVE_CONNECTION_ID_LIMIT read_varint_value (active_connection_id_limit p);
  tr_iscid : reads l ID_INITIAL_SOURCE_CONNECTION_ID cid_value (initial_source_connection_id p);
  tr_rscid : reads l ID_RETRY_SOURCE_CONNECTION_ID cid_value (retry_source_connection_id p);
  tr_vi : reads l ID_VERSION_INFORMATION vi_decode (version_information p);
  tr_datagram : reads l ID_MAX_DATAGRAM_FRAME_SIZE read_varint_value (max_datagram_frame_size p) }.

(** One assignment touches one field. *)
Definition sets {A} (field : TransportParameters → option A) (id : Z) (dec : bytes → tls_result A) : Prop :=
  ∀ out i v out', set_param out i v = Ok out' →
    if i =? id then ∃ x, dec v = Ok x ∧ field out' = Some x else field out' = field out.

Ltac sets_tac :=
  intros out i v out' Hs; unfold set_param, token_value in *;
  repeat match type of Hs with
  | (if ?i =? ?k then _ else _) = _ => destruct (Z.eqb_spec i k) as [->|]
  end;
  repeat (case_match; [try discriminate|]); inv_result; simpl; eauto.

Lemma reads_cons_ne {A} i v l id (dec : bytes → tls_result A) o : i ≠ id →
  reads ((i, v) :: l) id dec o ↔ reads l id dec o.
Proof. intros Hne. unfold reads. cbn [param]. by rewrite (proj2 (Z.eqb_neq i id) Hne). Qed.

Lemma param_none l id : id ∉ l.*1 → param l id = None.
Proof.
  induction l as [|[i v] l IH]; [done|]. simpl. intros [Hne Hni]%not_elem_of_cons.
  destruct (Z.eqb_spec i id); [congruence|by apply IH].
Qed.

(** A field no triple names keeps its value; otherwise it has that of its triple. *)
Lemma sets_reads {A} (field : TransportParameters → option A) id dec : sets field id dec →
  ∀ l out p, NoDup l.*1 → apply_params l out = Ok p →
  match param l id with Some v => ∃ x, dec v = Ok x ∧ field p = Some x | None => field p = field out end.
Proof.
  intros Hs. induction l as [|[i v] l IH]; intros out p Hnd Ha; [by injection Ha as <-|].
  simpl in Hnd. apply NoDup_cons in Hnd as [Hni Hnd]. simpl in Ha.
  apply bind_Ok_inv in Ha as (out' & Ho & Ha). specialize (IH _ _ Hnd Ha).
  specialize (Hs _ _ _ _ Ho). simpl. destruct (Z.eqb_spec i id) as [->|].
  - rewrite param_none in IH by done. destruct Hs as (x & ? & Hx). exists x. by rewrite IH.
  - destruct (param l id); [done|]. by rewrite IH.
Qed.

Lemma migration_reads l : ∀ out p, NoDup l.*1 → apply_params l out = Ok p →
  match param l ID_DISABLE_ACTIVE_MIGRATION with
  | Some v => v = [] ∧ disable_active_migration p = true
  | None => disable_active_migration p = disable_active_migration out
  end.
Proof.
  assert (∀ out i v out', set_param out i v = Ok out' →
    if i =? ID_DISABLE_ACTIVE_MIGRATION then v = [] ∧ disable_active_migration out' = true
    else disable_active_migration out' = disable_active_migration out) as Hs by sets_tac.
  induction l as [|[i v] l IH]; intros out p Hnd Ha; [by injection Ha as <-|].
  simpl in Hnd. apply NoDup_cons in Hnd as [Hni Hnd]. simpl in Ha.
  apply bind_Ok_inv in Ha as (out' & Ho & Ha). specialize (IH _ _ Hnd Ha).
  specialize (Hs _ _ _ _ Ho). simpl. destruct (Z.eqb_spec i ID_DISABLE_ACTIVE_MIGRATION) as [->|].
  - rewrite param_none in IH by done. by rewrite IH.
  - destruct (param l ID_DISABLE_ACTIVE_MIGRATION); [done|]. by rewrite IH.
Qed.

Lemma apply_params_reads l p : NoDup l.*1 → apply_params l tp_default = Ok p → tp_reads l p.
Proof.
  intros Hnd Ha. split; unfold reads;
    try (refine (sets_reads _ _ _ _ l tp_default p Hnd Ha); sets_tac).
  apply (migration_reads l tp_default p Hnd Ha).
Qed.

Lemma length_tlvs l : (length l ≤ length (concat (tlv <$> l)))%nat.
Proof.
  induction l as [|[i v] l IH]; [simpl; lia|]. rewrite fmap_cons. cbn [concat length].
  rewrite length_app. unfold tlv at 1. cbn [fst snd]. rewrite length_app.
  destruct (varint_encode_nonempty i) as (b & r & ->). simpl. lia.
Qed.

Lemma tlvs_ok l : Forall (λ e, tlv_ok e ∧ bytes_ok e.2) l → bytes_ok (concat (tlv <$> l)).
Proof.
  induction 1 as [|[i v] l [[Hi Hv] Hok] _ IH]; [constructor|]. rewrite fmap_cons. cbn [concat fst snd] in *.
  unfold tlv at 1. cbn [fst snd]. rewrite !Forall_app.
  split_and!; try done; (apply varint_encode_ok; [|constructor]); [lia|apply zlen_nonneg].
Qed.

Lemma apply_unknown l out : Forall (λ e, e.1 ∉ known_ids) l → apply_params l out = Ok out.
Proof.
  induction 1 as [|[i v] l Hi _ IH]; [done|]. cbn [apply_params fst] in *.
  unfold known_ids in Hi. rewrite !not_elem_of_cons in Hi. destruct_and! Hi.
  unfold set_param.
  repeat match goal with
  | |- context [i =? ?k] => destruct (Z.eqb_spec i k); [by subst|]
  end. done.
Qed.

(** * Theorems *)

(** Round trip.  A parameter set within the limits decodes to itself from its
    encoding, whatever unknown parameters (reserved code points, extensions) with
    distinct identifiers follow it. *)
Theorem tp_roundtrip p extra : tp_ok p →
  Forall (λ e, tlv_ok e ∧ bytes_ok e.2 ∧ e.1 ∉ known_ids) extra → NoDup extra.*1 →
  tp_decode (tp_encode p [] ++ concat (tlv <$> extra)) = Ok p.
Proof.
  intros Hok Hex Hnd. rewrite tp_encode_tlv, app_nil_l, <- concat_tlv_app by done.
  set (l := tp_params p ++ extra).
  assert (Forall (λ e, tlv_ok e ∧ bytes_ok e.2) l) as Hl.
  { apply Forall_app. split; [by apply tp_params_ok|]. eapply Forall_impl; [exact Hex|]. by intros e (? & ? & ?). }
  apply tp_decode_loop_split; [by apply tlvs_ok|]. exists l. split_and!.
  - apply split_tlvs; [|apply length_tlvs]. eapply Forall_impl; [exact Hl|]. by intros e [? ?].
  - unfold l. rewrite fmap_app. apply NoDup_app. split_and!; [|..|done].
    + eapply sublist_NoDup; [|apply tp_params_ids]. apply (bool_decide_unpack _). vm_compute. exact I.
    + intros x Hx (e & -> & He)%list_elem_of_fmap. rewrite Forall_forall in Hex.
      destruct (Hex e He) as (_ & _ & Hk). apply Hk. eapply elem_of_sublist; [done|apply tp_params_ids].
  - eapply Forall_impl; [exact Hl|]. intros e [[? _] _]. split; [lia|]. unfold seen_by. cbn [fst snd].
    destruct (e.1 <? 64); [apply Z.bits_0|]. by apply bool_decide_eq_false_2.
  - unfold l. rewrite apply_params_app, apply_tp_params by done. cbn [mbind result_bind].
    apply apply_unknown. eapply Forall_impl; [exact Hex|]. by intros e (? & ? & ?).
Qed.

Lemma tp_roundtrip_witness :
  let p := tp_default <| initial_max_data := Some 65536 |> <| disable_active_migration := true |>
             <| initial_source_connection_id := Some [1; 2; 3] |> in
  let extra := [(27, [9; 9]); (4096, [])] in
  tp_decode (tp_encode p [] ++ concat (tlv <$> extra)) = Ok p.
Proof.
  apply tp_roundtrip.
  - split; try (by intros x [=]).
    + intros x [= <-]. split; [lia|]. vm_compute. discriminate.
    + intros x [= <-]. split; [|vm_compute; discriminate]. repeat constructor; lia.
  - repeat constructor; try (vm_compute; discriminate); try lia;
      apply (bool_decide_unpack _); vm_compute; exact I.
  - apply (bool_decide_unpack _). vm_compute. exact I.
Defined.

(** What decoding accepts.  A decoded list is a sequence of triples with pairwise
    distinct identifiers, known or not, and every field of the result is the value of
    the triple with its identifier, or its default when there is none: a repeated
    identifier is always rejected, and the order of the triples does not matter. *)
Theorem tp_decode_correct buf p : bytes_ok buf → tp_decode buf = Ok p →
  ∃ l, split_params (length buf) buf = Ok l ∧ NoDup l.*1 ∧ tp_reads l p.
Proof.
  intros Hok Hd. apply tp_decode_loop_split in Hd as (l & Hl & Hnd & _ & Ha); [|done].
  exists l. split_and!; try done. by apply apply_params_reads.
Qed.

Lemma tp_decode_correct_witness :
  let buf := [0x04; 0x02; 0x41; 0x00; 0x0c; 0x00; 0x21; 0x01; 0xff] in
  ∃ l, split_params (length buf) buf = Ok l ∧ NoDup l.*1
    ∧ tp_reads l (tp_default <| initial_max_data := Some 256 |> <| disable_active_migration := true |>).
Proof.
  intros buf. apply tp_decode_correct; [|reflexivity]. repeat constructor; lia.
Defined.

(** A repeated identifier is rejected, known or unknown. *)
Lemma tp_decode_duplicate :
  tp_decode [0x21; 0x00; 0x04; 0x01; 0x05; 0x21; 0x00] = Err Error.Decode
  ∧ tp_decode [0x7f; 0xff; 0x00; 0x7f; 0xff; 0x00] = Err Error.Decode.
Proof. split; reflexivity. Qed.

(** ** Preferred address and version information *)

(** A usable address: a specified host and a non-zero port. *)
Definition v4_ok (a : SocketAddrV4) : Prop :=
  bytes_ok (v4_ip a) ∧ length (v4_ip a) = 4%nat ∧ is_unspecified (v4_ip a) = false
  ∧ u16 (v4_port a) ∧ v4_port a ≠ 0.
Definition v6_ok (a : SocketAddrV6) : Prop :=
  bytes_ok (v6_ip a) ∧ length (v6_ip a) = 16%nat ∧ is_unspecified (v6_ip a) = false
  ∧ u16 (v6_port a) ∧ v6_port a ≠ 0 ∧ v6_flowinfo a = 0 ∧ v6_scope_id a = 0.
Record pa_ok (a : PreferredAddress) : Prop := {
  pa_v4 : opt_ok v4_ok (pa_ipv4 a);
  pa_v6 : opt_ok v6_ok (pa_ipv6 a);
  pa_some : pa_ipv4 a ≠ None ∨ pa_ipv6 a ≠ None;
  pa_cid : bytes_ok (pa_connection_id a) ∧ 1 ≤ zlen (pa_connection_id a) ≤ 20;
  pa_token : bytes_ok (pa_stateless_reset_token a) ∧ length (pa_stateless_reset_token a) = 16%nat }.

(** The six fields of the wire form. *)
Lemma pa_decode_fields ip4 p4 ip6 p6 cid tok :
  length ip4 = 4%nat → length p4 = 2%nat → length ip6 = 16%nat → length p6 = 2%nat →
  1 ≤ zlen cid ≤ 20 → length tok = 16%nat →
  pa_decode (ip4 ++ p4 ++ ip6 ++ p6 ++ [zlen cid] ++ cid ++ tok) =
  match (if negb (is_unspecified ip4) && negb (be_value p4 =? 0)
         then Some (mkV4 ip4 (be_value p4)) else None),
        (if negb (is_unspecified ip6) && negb (be_value p6 =? 0)
         then Some (mkV6 ip6 (be_value p6) 0 0) else None) with
  | None, None => Err Error.Decode
  | a, b => Ok (mkPreferredAddress a b cid tok)
  end.
Proof.
  intros H1 H2 H3 H4 Hc H5. unfold pa_decode.
  set (body := ip4 ++ _).
  assert (zlen body = PA_FIXED_LEN + zlen cid) as Hlen.
  { unfold body, zlen, PA_FIXED_LEN. rewrite !length_app, H1, H2, H3, H4, H5. simpl. lia. }
  assert (body !!! 24%nat = zlen cid) as Hat.
  { unfold body. rewrite !app_assoc. rewrite <- (app_assoc _ [zlen cid]), <- app_assoc.
    rewrite lookup_total_app_r; rewrite !length_app, H1, H2, H3, H4; [done|lia]. }
  assert (∀ (n k : Z) l m r, body = l ++ m ++ r → Z.of_nat (length l) = n → Z.of_nat (length m) = k →
    ztake k (zdrop n body) = m) as Hslice.
  { intros n k l m r -> <- <-. change (Z.of_nat (length l)) with (zlen l).
    change (Z.of_nat (length m)) with (zlen m). by rewrite zdrop_app, ztake_app. }
  rewrite Hat, Hlen.
  destruct (Z.ltb_spec (PA_FIXED_LEN + zlen cid) PA_FIXED_LEN); [lia|].
  destruct (Z.ltb_spec 20 (zlen cid)); [lia|]. destruct (Z.eqb_spec (zlen cid) 0); [lia|].
  rewrite Z.eqb_refl. cbn [negb].
  rewrite (Hslice 4 2 ip4 p4 (ip6 ++ p6 ++ [zlen cid] ++ cid ++ tok)) by (done || lia).
  rewrite (Hslice 6 16 (ip4 ++ p4) ip6 (p6 ++ [zlen cid] ++ cid ++ tok))
    by (unfold body; rewrite ?length_app, <- ?app_assoc; done || lia).
  rewrite (Hslice 22 2 (ip4 ++ p4 ++ ip6) p6 ([zlen cid] ++ cid ++ tok))
    by (unfold body; rewrite ?length_app, <- ?app_assoc; done || lia).
  rewrite (Hslice 25 (zlen cid) (ip4 ++ p4 ++ ip6 ++ p6 ++ [zlen cid]) cid tok)
    by (unfold body; rewrite ?length_app, <- ?app_assoc; simpl; done || lia).
  assert (ztake 4 body = ip4) as ->.
  { change 4 with (Z.of_nat 4). rewrite <- H1. apply ztake_app. }
  assert (zdrop (25 + zlen cid) body = tok) as ->.
  { unfold body. rewrite !app_assoc. rewrite <- (zdrop_app ((((((ip4 ++ p4) ++ ip6) ++ p6) ++ [zlen cid]) ++ cid)) tok) at 2.
    f_equal. unfold zlen. rewrite !length_app, H1, H2, H3, H4. simpl. lia. }
  by destruct (negb (is_unspecified ip4) && _), (negb (is_unspecified ip6) && _).
Qed.

Lemma pa_roundtrip a : pa_ok a → pa_decode (pa_encode a) = Ok a.
Proof.
  destruct a as [v4 v6 cid tok]. intros [H4 H6 Hs [_ Hc] [_ Ht]].
  cbn [pa_ipv4 pa_ipv6 pa_connection_id pa_stateless_reset_token] in *.
  set (ip4 := from_option v4_ip (replicate 4 0) v4). set (p4 := from_option v4_port 0 v4).
  set (ip6 := from_option v6_ip (replicate 16 0) v6). set (p6 := from_option v6_port 0 v6).
  assert (pa_encode (mkPreferredAddress v4 v6 cid tok) =
    ip4 ++ be_bytes 2 p4 ++ ip6 ++ be_bytes 2 p6 ++ [zlen cid] ++ cid ++ tok) as ->.
  { unfold pa_encode. cbn [pa_ipv4 pa_ipv6 pa_connection_id pa_stateless_reset_token].
    rewrite wrap_small by (split; lia).
    unfold ip4, p4, ip6, p6. destruct v4, v6; simpl; by rewrite <- ?app_assoc. }
  assert (length ip4 = 4%nat ∧ u16 p4 ∧ (negb (is_unspecified ip4) && negb (p4 =? 0)) = bool_decide (v4 ≠ None)) as (L4 & U4 & B4).
  { unfold ip4, p4. destruct v4 as [a|]; [|by vm_compute].
    destruct (H4 a eq_refl) as (_ & ? & E & ? & ?). simpl. rewrite E.
    by destruct (Z.eqb_spec (v4_port a) 0). }
  assert (length ip6 = 16%nat ∧ u16 p6 ∧ (negb (is_unspecified ip6) && negb (p6 =? 0)) = bool_decide (v6 ≠ None)) as (L6 & U6 & B6).
  { unfold ip6, p6. destruct v6 as [a|]; [|by vm_compute].
    destruct (H6 a eq_refl) as (_ & ? & E & ? & ? & _). simpl. rewrite E.
    by destruct (Z.eqb_spec (v6_port a) 0). }
  rewrite pa_decode_fields by (done || apply length_be_bytes).
  rewrite !be_value_be_bytes, !wrap_small by done. rewrite B4, B6.
  unfold ip4, p4, ip6, p6. destruct v4 as [[]|], v6 as [a|]; simpl; try done.
  - destruct (H6 a eq_refl) as (_ & _ & _ & _ & _ & E1 & E2). destruct a. simpl in *. by subst.
  - destruct (H6 a eq_refl) as (_ & _ & _ & _ & _ & E1 & E2). destruct a. simpl in *. by subst.
  - by destruct Hs.
Qed.

Lemma slice_ok (n k : Z) (l : bytes) : bytes_ok l → bytes_ok (ztake k (zdrop n l)).
Proof. intros. by apply Forall_take, Forall_drop. Qed.

Lemma length_slice (n k : Z) (l : bytes) : 0 ≤ n → 0 ≤ k → n + k ≤ zlen l →
  length (ztake k (zdrop n l)) = Z.to_nat k.
Proof. intros. unfold ztake, zdrop, zlen in *. rewrite length_take, length_drop. lia. Qed.

Lemma port_u16 (n : Z) (l : bytes) : bytes_ok l → 0 ≤ n → n + 2 ≤ zlen l → u16 (be_value (ztake 2 (zdrop n l))).
Proof.
  intros Hok ? ?. pose proof (be_value_range _ (slice_ok n 2 l Hok)) as Hr.
  by rewrite length_slice in Hr by lia.
Qed.

Lemma pa_decode_ok body a : bytes_ok body → pa_decode body = Ok a → pa_ok a.
Proof.
  intros Hok Hd. unfold pa_decode in Hd.
  destruct (Z.ltb_spec (zlen body) PA_FIXED_LEN) as [|Hlen]; [done|].
  unfold PA_FIXED_LEN in *.
  set (cl := body !!! 24%nat) in *.
  destruct (Z.ltb_spec 20 cl); [done|]. destruct (Z.eqb_spec cl 0); [done|].
  destruct (Z.eqb_spec (zlen body) (4 + 2 + 16 + 2 + 1 + 16 + cl)) as [Hl|]; [|done]. cbn [negb] in Hd.
  assert (u8 cl) as [? _].
  { unfold cl. apply (Forall_lookup_total_1 _ _ _ Hok). unfold zlen in Hlen. lia. }
  assert (ztake 4 body = ztake 4 (zdrop 0 body)) as E0 by done. rewrite E0 in Hd.
  assert (pa_connection_id a = ztake cl (zdrop 25 body)
    ∧ pa_stateless_reset_token a = zdrop (25 + cl) body
    ∧ (pa_ipv4 a ≠ None ∨ pa_ipv6 a ≠ None)
    ∧ opt_ok v4_ok (pa_ipv4 a) ∧ opt_ok v6_ok (pa_ipv6 a)) as (E1 & E2 & E3 & E4 & E5).
  { assert (∀ ip p, length ip = 4%nat → bytes_ok ip → u16 p →
      opt_ok v4_ok (if negb (is_unspecified ip) && negb (p =? 0) then Some (mkV4 ip p) else None)) as G4.
    { intros ip p ? ? ? x Hx. destruct (is_unspecified ip) eqn:?; [done|].
      destruct (Z.eqb_spec p 0); [done|]. injection Hx as <-. by split_and!. }
    assert (∀ ip p, length ip = 16%nat → bytes_ok ip → u16 p →
      opt_ok v6_ok (if negb (is_unspecified ip) && negb (p =? 0) then Some (mkV6 ip p 0 0) else None)) as G6.
    { intros ip p ? ? ? x Hx. destruct (is_unspecified ip) eqn:?; [done|].
      destruct (Z.eqb_spec p 0); [done|]. injection Hx as <-. by split_and!. }
    specialize (G4 (ztake 4 (zdrop 0 body)) (be_value (ztake 2 (zdrop 4 body)))
      (length_slice 0 4 body ltac:(lia) ltac:(lia) ltac:(lia)) (slice_ok 0 4 body Hok)
      (port_u16 4 body Hok ltac:(lia) ltac:(lia))).
    specialize (G6 (ztake 16 (zdrop 6 body)) (be_value (ztake 2 (zdrop 22 body)))
      (length_slice 6 16 body ltac:(lia) ltac:(lia) ltac:(lia)) (slice_ok 6 16 body Hok)
      (port_u16 22 body Hok ltac:(lia) ltac:(lia))).
    destruct (if negb (is_unspecified (ztake 4 (zdrop 0 body))) && _ then _ else _) as [x|],
      (if negb (is_unspecified (ztake 16 (zdrop 6 body))) && _ then _ else _) as [y|];
      try done; injection Hd as <-; cbn; split_and!; try done; (by left) || (by right). }
  split; [done|done|done|..]; rewrite ?E1, ?E2.
  - split; [by apply slice_ok|]. unfold zlen. rewrite length_slice by lia. lia.
  - split; [by apply Forall_drop|]. unfold zdrop, zlen in *. rewrite length_drop. lia.
Qed.

Lemma words_inv body : ∀ n, bytes_ok body → length body = (4 * n)%nat →
  concat (be_bytes 4 <$> words body) = body ∧ length (words body) = n ∧ Forall u32 (words body).
Proof.
  intros n. revert body. induction n as [|n IH]; intros body Hok Hlen.
  { apply nil_length_inv in Hlen as ->. by split_and!. }
  destruct body as [|a [|b [|c [|d body]]]]; try (simpl in Hlen; lia).
  assert (bytes_ok [a; b; c; d] ∧ bytes_ok body) as [H1 H2].
  { apply (Forall_app _ [a; b; c; d]). exact Hok. }
  destruct (IH body H2 ltac:(simpl in Hlen; lia)) as (E1 & E2 & E3).
  cbn [words]. rewrite fmap_cons. cbn [concat]. rewrite E1.
  pose proof (be_bytes_be_value _ H1) as Hb. pose proof (be_value_range _ H1) as Hr.
  change (length [a; b; c; d]) with 4%nat in Hb, Hr. rewrite Hb. split; [done|].
  split; [cbn [length]; by rewrite E2|by constructor].
Qed.

Lemma vi_decode_inv body v : bytes_ok body → vi_decode body = Ok v → vi_ok v ∧ body = vi_encode v.
Proof.
  intros Hok Hd. unfold vi_decode in Hd.
  destruct (Z.ltb_spec (zlen body) 4) as [|Hlen]; [done|].
  destruct (Z.eqb_spec (zlen body mod 4) 0) as [Hm|]; [|done]. cbn [orb negb] in Hd.
  destruct (words_inv body (Z.to_nat (zlen body / 4)) Hok) as (E1 & E2 & E3).
  { pose proof (Z.div_mod (zlen body) 4 ltac:(lia)). unfold zlen in *. lia. }
  destruct (words body) as [|ch av]; [done|].
  destruct (Z.eqb_spec ch 0); [done|]. destruct (existsb (Z.eqb 0) av) eqn:Ex; [done|].
  injection Hd as <-. apply Forall_cons in E3 as [Hc Ha]. split; [|by rewrite vi_words].
  split_and!; [done|done|]. apply Forall_forall. intros a Hin. rewrite Forall_forall in Ha. split; [by apply Ha|].
  intros ->. apply not_true_iff_false in Ex. apply Ex, existsb_exists. exists 0.
  by rewrite <- list_elem_of_In.
Qed.

(** The structured parameters.  A version-information body is accepted exactly when
    it is the encoding of a non-zero chosen version and a list of non-zero versions; a
    preferred address with at least one usable family and a connection id of 1 to 20
    bytes survives the wire, and every accepted body yields such an address. *)
Theorem structured_params_correct body : bytes_ok body →
  (∀ v, vi_decode body = Ok v ↔ vi_ok v ∧ body = vi_encode v)
  ∧ (∀ a, pa_ok a → pa_decode (pa_encode a) = Ok a)
  ∧ (∀ a, pa_decode body = Ok a → pa_ok a).
Proof.
  intros Hok. split; [|split].
  - intros v. split; [by apply vi_decode_inv|]. intros [Hv ->]. by apply vi_roundtrip.
  - apply pa_roundtrip.
  - intros a. by apply pa_decode_ok.
Qed.

Lemma structured_params_correct_witness :
  vi_decode [0; 0; 0; 1; 0x6b; 0x33; 0x43; 0xcf] = Ok (mkVersionInformation 1 [0x6b3343cf])
  ∧ vi_ok (mkVersionInformation 1 [0x6b3343cf]).
Proof.
  assert (bytes_ok [0; 0; 0; 1; 0x6b; 0x33; 0x43; 0xcf]) as Hok by (repeat constructor; lia).
  split; [reflexivity|].
  apply (structured_params_correct _ Hok). reflexivity.
Defined.
