(* ===== verification/Streams.v ===== *)
(** The QUIC stream table ([src/quic/streams.rs]): the map of live streams, admission and
    retirement of the peer's streams, connection-level flow control in both directions,
    and the round-robin packer.  A [BTreeMap] is a [gmap] over [Z], visited in key order
    where the code iterates; a [BTreeSet] is a [gset].  Counters and limits are [u64],
    [usize] has 64 bits.  An operation returns the new table next to its result, since
    an error leaves the changes made before it; [None] stands for a panic of [expect]. *)

From S2P Require Import Prelude TlsBase Varint Ack BTree ByteStream Codec Frame RecvStream SendStream TransportParams.

#[export] Instance eta_recv : Eta RecvStream := λ r,
  mkRecvStream (rs_state r) (rs_delivered r) (rs_next_offset r) (rs_read_off r) (rs_pending r)
    (rs_pending_bytes r) (rs_fin_offset r) (rs_max_data r) (rs_max_data_announced r) (rs_window r)
    (rs_reset_code r) (rs_stop_sending_sent r) (rs_stop_sending_pending r) (rs_max_data_pending r)
    (rs_conn_fc_credited r).
#[export] Instance eta_send : Eta SendStream := λ s,
  mkSendStream (ss_state s) (write_buf s) (write_off s) (sent_offset s) (acked_offset s)
    (ss_fin_offset s) (fin_sent s) (peer_max_data s) (ss_reset_code s) (blocked_at s)
    (reset_pending s) (sent_chunks s) (sent_sorted s) (rtx_queue s) (acked_ranges s) (fin_acked s).

Inductive Role := Client | Server.

(** [src/quic/stream.rs], [Stream]. *)
Record Stream := mkStream { st_id : Z; st_send : option SendStream; st_recv : option RecvStream }.
#[export] Instance eta_stream : Eta Stream := λ s, mkStream (st_id s) (st_send s) (st_recv s).

Definition new_send (id peer_max_data : Z) : Stream := mkStream id (Some (send_new peer_max_data)) None.
Definition new_recv (id max_data : Z) : Stream := mkStream id None (Some (recv_new max_data)).
Definition new_bidi (id peer_max_data self_max_data : Z) : Stream :=
  mkStream id (Some (send_new peer_max_data)) (Some (recv_new self_max_data)).

Definition MIN_LIVE_STREAMS : Z := 4096.
Definition RETIRED_FINAL_SIZES : Z := 256.

Module Popped.
Inductive popped_frame :=
| Stream (id offset len : Z) (fin : bool)
| ResetStream (id code final_size : Z)
| StopSending (id code : Z)
| MaxData (v : Z)
| MaxStreamData (id limit : Z)
| DataBlocked (v : Z)
| StreamDataBlocked (id limit : Z)
| MaxStreams (dir : StreamDir.stream_dir) (limit : Z)
| StreamsBlocked (dir : StreamDir.stream_dir) (limit : Z).
End Popped.
Abbreviation popped_frame := Popped.popped_frame.

Module ControlHint.
Inductive control_hint :=
| ResetStream (id : Z)
| StopSending (id code : Z)
| MaxData (limit : Z)
| MaxStreamData (id limit : Z)
| DataBlocked (limit : Z)
| StreamDataBlocked (id limit : Z)
| MaxStreams (dir : StreamDir.stream_dir) (limit : Z)
| StreamsBlocked (dir : StreamDir.stream_dir) (limit : Z).
End ControlHint.
Abbreviation control_hint := ControlHint.control_hint.

(** [PoppedFrame::encode]: the control frames are those of [Frame]. *)
Definition popped_encode (self : popped_frame) (out : bytes) : option bytes :=
  match self with
  | Popped.Stream _ _ _ _ => Some out
  | Popped.ResetStream id code final_size => frame_encode (Frame.ResetStream id code final_size) out
  | Popped.StopSending id code => frame_encode (Frame.StopSending id code) out
  | Popped.MaxData v => frame_encode (Frame.MaxData v) out
  | Popped.MaxStreamData id limit => frame_encode (Frame.MaxStreamData id limit) out
  | Popped.DataBlocked v => frame_encode (Frame.DataBlocked v) out
  | Popped.StreamDataBlocked id limit => frame_encode (Frame.StreamDataBlocked id limit) out
  | Popped.MaxStreams dir limit => frame_encode (Frame.MaxStreams dir limit) out
  | Popped.StreamsBlocked dir limit => frame_encode (Frame.StreamsBlocked dir limit) out
  end.

Definition popped_encoded_len (self : popped_frame) : Z :=
  match self with
  | Popped.Stream id offset len _ =>
      wadd 64 (1 + varint_encoded_len id
               + (if negb (offset =? 0) then varint_encoded_len offset else 0)
               + varint_encoded_len len) len
  | Popped.ResetStream id code final_size =>
      1 + varint_encoded_len id + varint_encoded_len code + varint_encoded_len final_size
  | Popped.StopSending id code => 1 + varint_encoded_len id + varint_encoded_len code
  | Popped.MaxData v | Popped.DataBlocked v => 1 + varint_encoded_len v
  | Popped.MaxStreamData id limit | Popped.StreamDataBlocked id limit =>
      1 + varint_encoded_len id + varint_encoded_len limit
  | Popped.MaxStreams _ limit | Popped.StreamsBlocked _ limit => 1 + varint_encoded_len limit
  end.

Definition control_hint_of (self : popped_frame) : option control_hint :=
  match self with
  | Popped.Stream _ _ _ _ => None
  | Popped.ResetStream id _ _ => Some (ControlHint.ResetStream id)
  | Popped.StopSending id code => Some (ControlHint.StopSending id code)
  | Popped.MaxData limit => Some (ControlHint.MaxData limit)
  | Popped.MaxStreamData id limit => Some (ControlHint.MaxStreamData id limit)
  | Popped.DataBlocked limit => Some (ControlHint.DataBlocked limit)
  | Popped.StreamDataBlocked id limit => Some (ControlHint.StreamDataBlocked id limit)
  | Popped.MaxStreams dir limit => Some (ControlHint.MaxStreams dir limit)
  | Popped.StreamsBlocked dir limit => Some (ControlHint.StreamsBlocked dir limit)
  end.

(** * One stream's next frame *)

Inductive StreamPop := PopFrame (frame : popped_frame) (more : bool) | NoRoom | Idle.

Definition is_some {A} (o : option A) : bool := match o with Some _ => true | None => false end.

Definition stream_needs_to_send (stream : Stream) : bool :=
  match st_send stream with
  | Some send => reset_pending send || has_outbound send || is_some (blocked_at send)
  | None => false
  end ||
  match st_recv stream with
  | Some recv => rs_max_data_pending recv || is_some (rs_stop_sending_pending recv)
  | None => false
  end.

(** A control frame: nothing changes without room, otherwise [stream'] is the stream
    with the trigger cleared. *)
Definition pop_control (stream stream' : Stream) (frame : popped_frame) (budget : Z) (out : bytes)
  : option (Stream * bytes * StreamPop) :=
  if budget <? popped_encoded_len frame then Some (stream, out, NoRoom)
  else
    out ← popped_encode frame out;
    Some (stream', out, PopFrame frame (stream_needs_to_send stream')).

(** [1 + varint(id) + varint(offset if non-zero) + varint(len)] *)
Definition stream_header_len (id offset len : Z) : Z :=
  1 + varint_encoded_len id + (if 0 <? offset then varint_encoded_len offset else 0)
  + varint_encoded_len len.

(** A queued retransmission. *)
Definition pop_rtx (stream : Stream) (send : SendStream) (r_off r_len id budget : Z) (out : bytes)
  : option (Stream * bytes * StreamPop) :=
  let header_overhead := stream_header_len id r_off r_len in
  let min_payload := if 0 <? r_len then 1 else 0 in
  if budget <? header_overhead + min_payload then Some (stream, out, NoRoom)
  else
    match pop_rtx_frame send id (budget - header_overhead) out with
    | (send, out, Some (off, len, fin)) =>
        let stream := stream <| st_send := Some send |> in
        Some (stream, out, PopFrame (Popped.Stream id off len fin) (stream_needs_to_send stream))
    | (_, _, None) => None
    end.

(** Fresh data, or a FIN on its own. *)
Definition pop_fresh (stream : Stream) (send : SendStream) (id budget : Z) (out : bytes)
  : option (Stream * bytes * StreamPop) :=
  let offset := write_off send in
  let header_overhead := stream_header_len id offset (zlen (write_buf send)) in
  if budget <? header_overhead + 1 then Some (stream, out, NoRoom)
  else
    let chunk_size := Z.min (sat_sub budget header_overhead) (zlen (write_buf send)) in
    if chunk_size =? 0 then
      if is_some (ss_fin_offset send) && negb (fin_sent send) && is_nil (write_buf send)
         && (stream_header_len id offset 0 <=? budget) then
        match carve_frame send id 0 out with
        | (send, out, Some (off, _, fin)) =>
            Some (stream <| st_send := Some send |>, out, PopFrame (Popped.Stream id off 0 fin) false)
        | (_, _, None) => None
        end
      else Some (stream, out, NoRoom)
    else
      match carve_frame send id chunk_size out with
      | (send, out, Some (off, len, fin)) =>
          Some (stream <| st_send := Some send |>, out,
                PopFrame (Popped.Stream id off len fin) (has_outbound send))
      | (_, _, None) => None
      end.

(** The send half's frames after STREAM_DATA_BLOCKED. *)
Definition pop_data (stream : Stream) (id budget : Z) (out : bytes)
  : option (Stream * bytes * StreamPop) :=
  match st_send stream with
  | None => Some (stream, out, Idle)
  | Some send =>
      match peek_rtx send with
      | Some (r_off, r_len) => pop_rtx stream send r_off r_len id budget out
      | None =>
          if has_outbound send then pop_fresh stream send id budget out
          else Some (stream, out, Idle)
      end
  end.

(** The first control frame the stream has to send, and the stream without it. *)
Definition next_control (stream : Stream) (id : Z) : option (popped_frame * Stream) :=
  let blocked :=
    send ← st_send stream; lim ← blocked_at send;
    Some (Popped.StreamDataBlocked id lim, stream <| st_send := Some (send <| blocked_at := None |>) |>) in
  let recv_frames :=
    match st_recv stream with
    | Some recv =>
        match rs_stop_sending_pending recv with
        | Some code => Some (Popped.StopSending id code,
            stream <| st_recv := Some (recv <| rs_stop_sending_pending := None |>) |>)
        | None =>
            if rs_max_data_pending recv then
              Some (Popped.MaxStreamData id (rs_max_data recv),
                stream <| st_recv := Some (recv <| rs_max_data_pending := false |>
                                            <| rs_max_data_announced := rs_max_data recv |>) |>)
            else blocked
        end
    | None => blocked
    end in
  match st_send stream with
  | Some send =>
      if reset_pending send then
        Some (Popped.ResetStream id (default 0 (ss_reset_code send)) (sent_offset send),
              stream <| st_send := Some (set_reset_pending false send) |>)
      else recv_frames
  | None => recv_frames
  end.

Definition pop_stream_frame (stream : Stream) (id budget : Z) (out : bytes)
  : option (Stream * bytes * StreamPop) :=
  match next_control stream id with
  | Some (frame, stream') => pop_control stream stream' frame budget out
  | None => pop_data stream id budget out
  end.

(** * The table *)

Record Streams := mkStreams {
  streams_map : gmap Z Stream;
  peer_max_bidi : Z; peer_max_uni : Z;
  self_max_bidi : Z; self_max_uni : Z;
  self_max_bidi_announced : Z; self_max_uni_announced : Z;
  peer_bidi_used : Z; peer_uni_used : Z;
  peer_bidi_closed : Z; peer_uni_closed : Z;
  implicit_open_bidi : gset Z; implicit_open_uni : gset Z;
  retired_final_size : gmap Z Z;
  self_max_bidi_window : Z; self_max_uni_window : Z;
  next_local_bidi : Z; next_local_uni : Z;
  opened_local_bidi : Z; opened_local_uni : Z;
  conn_send_max : Z; conn_send_used : Z;
  conn_recv_max : Z; conn_recv_max_announced : Z; conn_recv_used : Z; conn_recv_window : Z;
  conn_consumed : Z;
  stream_high_offset : gmap Z Z;
  data_blocked_at : option Z;
  max_data_pending : bool;
  streams_blocked_bidi_at : option Z; streams_blocked_uni_at : option Z;
  max_streams_bidi_pending : bool; max_streams_uni_pending : bool;
  ready_to_send : list Z; ready_set : gset Z;
  readable : gset Z;
  peer_initial_max_stream_data_bidi_local : Z;
  peer_initial_max_stream_data_bidi_remote : Z;
  peer_initial_max_stream_data_uni : Z;
  self_initial_max_stream_data_bidi_local : Z;
  self_initial_max_stream_data_bidi_remote : Z;
  self_initial_max_stream_data_uni : Z;
  role : Role }.

#[export] Instance eta_streams : Eta Streams := λ s,
  mkStreams (streams_map s) (peer_max_bidi s) (peer_max_uni s) (self_max_bidi s) (self_max_uni s)
    (self_max_bidi_announced s) (self_max_uni_announced s) (peer_bidi_used s) (peer_uni_used s)
    (peer_bidi_closed s) (peer_uni_closed s) (implicit_open_bidi s) (implicit_open_uni s)
    (retired_final_size s) (self_max_bidi_window s) (self_max_uni_window s) (next_local_bidi s)
    (next_local_uni s) (opened_local_bidi s) (opened_local_uni s) (conn_send_max s)
    (conn_send_used s) (conn_recv_max s) (conn_recv_max_announced s) (conn_recv_used s)
    (conn_recv_window s) (conn_consumed s) (stream_high_offset s) (data_blocked_at s)
    (max_data_pending s) (streams_blocked_bidi_at s) (streams_blocked_uni_at s)
    (max_streams_bidi_pending s) (max_streams_uni_pending s) (ready_to_send s) (ready_set s)
    (readable s) (peer_initial_max_stream_data_bidi_local s)
    (peer_initial_max_stream_data_bidi_remote s) (peer_initial_max_stream_data_uni s)
    (self_initial_max_stream_data_bidi_local s) (self_initial_max_stream_data_bidi_remote s)
    (self_initial_max_stream_data_uni s) (role s).

Definition streams_new (r : Role) (our peer : TransportParameters) : Streams :=
  let '(next_bidi, next_uni) := match r with Client => (0, 2) | Server => (1, 3) end in
  let our_bidi := default 0 (initial_max_streams_bidi our) in
  let our_uni := default 0 (initial_max_streams_uni our) in
  let our_data := default 0 (initial_max_data our) in
  mkStreams ∅ (default 0 (initial_max_streams_bidi peer)) (default 0 (initial_max_streams_uni peer))
    our_bidi our_uni our_bidi our_uni 0 0 0 0 ∅ ∅ ∅ our_bidi our_uni next_bidi next_uni 0 0
    (default 0 (initial_max_data peer)) 0 our_data our_data 0 our_data 0 ∅ None false None None
    false false [] ∅ ∅
    (default 0 (initial_max_stream_data_bidi_local peer))
    (default 0 (initial_max_stream_data_bidi_remote peer))
    (default 0 (initial_max_stream_data_uni peer))
    (default 0 (initial_max_stream_data_bidi_local our))
    (default 0 (initial_max_stream_data_bidi_remote our))
    (default 0 (initial_max_stream_data_uni our)) r.

(** Writing a half back through [get_mut]. *)
Definition put_stream (self : Streams) (id : Z) (st : Stream) : Streams :=
  self <| streams_map := <[id := st]> (streams_map self) |>.
Definition put_send (self : Streams) (id : Z) (st : Stream) (send : SendStream) : Streams :=
  put_stream self id (st <| st_send := Some send |>).
Definition put_recv (self : Streams) (id : Z) (st : Stream) (recv : RecvStream) : Streams :=
  put_stream self id (st <| st_recv := Some recv |>).

Definition enqueue_ready (self : Streams) (id : Z) : Streams :=
  if bool_decide (id ∈ ready_set self) then self
  else self <| ready_set := {[id]} ∪ ready_set self |> <| ready_to_send := ready_to_send self ++ [id] |>.

Definition refresh_readable (self : Streams) (id : Z) : Streams :=
  let r := match streams_map self !! id ≫= st_recv with
           | Some recv => is_readable recv
           | None => false
           end in
  self <| readable := if r then {[id]} ∪ readable self else readable self ∖ {[id]} |>.

(** The keys of a [BTreeMap] and the elements of a [BTreeSet], in iteration order. *)
Definition keys {A} (m : gmap Z A) : list Z := merge_sort Z.le (elements (dom m)).
Definition readable_iter (self : Streams) : list Z := merge_sort Z.le (elements (readable self)).

Definition send_open (send : SendStream) : bool :=
  match ss_state send with SendState.Ready | SendState.Send => true | _ => false end
  && negb (is_some (ss_fin_offset send)).

Definition send_capacity_of (self : Streams) (send : SendStream) : Z :=
  let conn_room := sat_sub (conn_send_max self) (conn_send_used self) in
  let stream_room := sat_sub (available_credit send) (zlen (write_buf send)) in
  Z.min conn_room stream_room.

Definition send_capacity (self : Streams) (id : Z) : tls_result Z :=
  stream ← ok_or (streams_map self !! id) Error.InappropriateState;
  send ← ok_or (st_send stream) Error.InappropriateState;
  if negb (send_open send) then Err Error.InappropriateState
  else Ok (send_capacity_of self send).

Definition adopt_peer_limits (self : Streams) (peer : TransportParameters) : Streams * bool :=
  let new_conn_max := default 0 (initial_max_data peer) in
  let new_bidi := default 0 (initial_max_streams_bidi peer) in
  let new_uni := default 0 (initial_max_streams_uni peer) in
  let new_sd_bidi_local := default 0 (initial_max_stream_data_bidi_local peer) in
  let new_sd_bidi_remote := default 0 (initial_max_stream_data_bidi_remote peer) in
  let new_sd_uni := default 0 (initial_max_stream_data_uni peer) in
  if (new_conn_max <? conn_send_max self) || (new_bidi <? peer_max_bidi self)
     || (new_uni <? peer_max_uni self)
     || (new_sd_bidi_local <? peer_initial_max_stream_data_bidi_local self)
     || (new_sd_bidi_remote <? peer_initial_max_stream_data_bidi_remote self)
     || (new_sd_uni <? peer_initial_max_stream_data_uni self)
  then (self, false)
  else
    let raise id stream :=
      match st_send stream with
      | None => stream
      | Some send =>
          let raised := if (id mod 4 =? 2) || (id mod 4 =? 3) then new_sd_uni else new_sd_bidi_remote in
          if peer_max_data send <? raised
          then stream <| st_send := Some (send <| peer_max_data := raised |>) |> else stream
      end in
    (self <| streams_map := map_imap (λ id st, Some (raise id st)) (streams_map self) |>
       <| conn_send_max := new_conn_max |> <| peer_max_bidi := new_bidi |> <| peer_max_uni := new_uni |>
       <| peer_initial_max_stream_data_bidi_local := new_sd_bidi_local |>
       <| peer_initial_max_stream_data_bidi_remote := new_sd_bidi_remote |>
       <| peer_initial_max_stream_data_uni := new_sd_uni |>, true).

(** The body of the loop of [requeue_all_unacked]. *)
Definition requeue_one (self : Streams) (id : Z) : Streams :=
  match streams_map self !! id with
  | Some stream =>
      match st_send stream with
      | Some send =>
          if has_unacked send
          then enqueue_ready (put_send self id stream (requeue_all_sent send)) id
          else self
      | None => self
      end
  | None => self
  end.
Definition requeue_all_unacked (self : Streams) : Streams :=
  foldl requeue_one self (keys (streams_map self)).

Definition writable_iter (self : Streams) : list Z :=
  filter (λ id, match streams_map self !! id ≫= st_send with
                | Some send => send_open send && (0 <? send_capacity_of self send)
                | None => false
                end = true) (keys (streams_map self)).

(** ** The application *)

Definition open_bidi (self : Streams) : Streams * tls_result Z :=
  if peer_max_bidi self <=? opened_local_bidi self then
    (self <| streams_blocked_bidi_at := Some (peer_max_bidi self) |>, Err Error.InappropriateState)
  else
    let id := next_local_bidi self in
    ((put_stream self id (new_bidi id (peer_initial_max_stream_data_bidi_remote self)
                            (self_initial_max_stream_data_bidi_local self)))
       <| next_local_bidi := wadd 64 (next_local_bidi self) 4 |>
       <| opened_local_bidi := wadd 64 (opened_local_bidi self) 1 |>, Ok id).

Definition open_uni (self : Streams) : Streams * tls_result Z :=
  if peer_max_uni self <=? opened_local_uni self then
    (self <| streams_blocked_uni_at := Some (peer_max_uni self) |>, Err Error.InappropriateState)
  else
    let id := next_local_uni self in
    ((put_stream self id (new_send id (peer_initial_max_stream_data_uni self)))
       <| next_local_uni := wadd 64 (next_local_uni self) 4 |>
       <| opened_local_uni := wadd 64 (opened_local_uni self) 1 |>, Ok id).

(** The stream and its send half, or its receive half. *)
Definition get_send (self : Streams) (id : Z) : option (Stream * SendStream) :=
  stream ← streams_map self !! id; send ← st_send stream; Some (stream, send).
Definition get_recv (self : Streams) (id : Z) : option (Stream * RecvStream) :=
  stream ← streams_map self !! id; recv ← st_recv stream; Some (stream, recv).

Definition streams_write (self : Streams) (id : Z) (data : bytes) : Streams * tls_result Z :=
  match get_send self id with
  | None => (self, Err Error.InappropriateState)
  | Some (stream, send) =>
      if negb (send_open send) then (self, Err Error.InappropriateState)
      else
        let conn_room := sat_sub (conn_send_max self) (conn_send_used self) in
        let cap := Z.min conn_room (zlen data) in
        if cap =? 0 then
          let self := if conn_room =? 0 then self <| data_blocked_at := Some (conn_send_max self) |> else self in
          if available_credit send =? 0 then
            (enqueue_ready (put_send self id stream (send <| blocked_at := Some (peer_max_data send) |>)) id, Ok 0)
          else (self, Ok 0)
        else
          let '(send, stream_take) := enqueue send (ztake cap data) in
          if stream_take =? 0 then
            (enqueue_ready (put_send self id stream (send <| blocked_at := Some (peer_max_data send) |>)) id, Ok 0)
          else
            let self := self <| conn_send_used := wadd 64 (conn_send_used self) stream_take |> in
            let self := if (cap <? zlen data) && (conn_room =? cap)
                        then self <| data_blocked_at := Some (conn_send_max self) |> else self in
            let send := if stream_take <? cap
                        then send <| blocked_at := Some (peer_max_data send) |> else send in
            (enqueue_ready (put_send self id stream send) id, Ok stream_take)
  end.

Definition streams_finish (self : Streams) (id : Z) : Streams * tls_result () :=
  match get_send self id with
  | None => (self, Err Error.InappropriateState)
  | Some (stream, send) =>
      match ss_state send with
      | SendState.ResetSent | SendState.ResetRecvd => (self, Err Error.InappropriateState)
      | _ => (enqueue_ready (put_send self id stream (finish send)) id, Ok ())
      end
  end.

Definition streams_reset (self : Streams) (id app_error : Z) : Streams * tls_result () :=
  match get_send self id with
  | None => (self, Err Error.InappropriateState)
  | Some (stream, send) => (enqueue_ready (put_send self id stream (enter_reset send app_error)) id, Ok ())
  end.

Definition streams_stop_sending (self : Streams) (id app_error : Z) : Streams * tls_result () :=
  match get_recv self id with
  | None => (self, Err Error.InappropriateState)
  | Some (stream, recv) => (enqueue_ready (put_recv self id stream (stop_sending recv app_error)) id, Ok ())
  end.

(** ** Credit, admission and retirement *)

Definition maybe_replenish_conn (self : Streams) : Streams :=
  let window := conn_recv_window self in
  if window =? 0 then self
  else
    let threshold := wmul 64 window REPLENISH_RATIO_NUM / Z.max REPLENISH_RATIO_DEN 1 in
    if conn_recv_max_announced self <? wadd 64 (conn_consumed self) threshold then
      let new_max := sat_add 64 (conn_consumed self) window in
      if conn_recv_max self <? new_max
      then self <| conn_recv_max := new_max |> <| max_data_pending := true |> else self
    else self.

Definition is_peer_initiated (self : Streams) (id : Z) : bool :=
  match role self with
  | Client => is_server_initiated id
  | Server => is_client_initiated id
  end.

Definition reject_send_half_frame_on_peer_uni (self : Streams) (id : Z) : stream_result () :=
  if negb (is_uni id) then Ok ()
  else if is_peer_initiated self id then Err StreamError.StreamState
  else Ok ().

Definition live_stream_cap (self : Streams) : Z :=
  Z.max (sat_add 64 (self_max_bidi_window self) (self_max_uni_window self)) MIN_LIVE_STREAMS.

Definition maybe_replenish_streams (self : Streams) (bidi : bool) : Streams :=
  let '(window, closed, announced) :=
    if bidi then (self_max_bidi_window self, peer_bidi_closed self, self_max_bidi_announced self)
    else (self_max_uni_window self, peer_uni_closed self, self_max_uni_announced self) in
  if window =? 0 then self
  else
    let threshold := wmul 64 window REPLENISH_RATIO_NUM / Z.max REPLENISH_RATIO_DEN 1 in
    if sat_add 64 closed threshold <=? announced then self
    else
      let new_max := Z.min (sat_add 64 closed window) MAX_STREAMS_LIMIT in
      if bidi then
        if self_max_bidi self <? new_max
        then self <| self_max_bidi := new_max |> <| max_streams_bidi_pending := true |> else self
      else
        if self_max_uni self <? new_max
        then self <| self_max_uni := new_max |> <| max_streams_uni_pending := true |> else self.

(** [BTreeMap::pop_first] *)
Definition first_key {A} (m : gmap Z A) : option Z := head (keys m).
Definition pop_first {A} (m : gmap Z A) : gmap Z A :=
  match first_key m with Some k => delete k m | None => m end.

(** [while self.retired_final_size.len() > RETIRED_FINAL_SIZES] *)
Fixpoint evict (fuel : nat) (m : gmap Z Z) : gmap Z Z :=
  match fuel with
  | O => m
  | S fuel => if RETIRED_FINAL_SIZES <? Z.of_nat (size m) then evict fuel (pop_first m) else m
  end.

Definition stream_done (stream : Stream) : bool :=
  negb (stream_needs_to_send stream)
  && match st_recv stream with Some r => recv_is_finished r | None => true end
  && match st_send stream with Some s => send_is_finished s | None => true end.

(** The table without the stream [id], its queue entry and its mark. *)
Definition retire (self : Streams) (id high : Z) : Streams :=
  let retired := <[id := high]> (retired_final_size self) in
  let self := self <| stream_high_offset := delete id (stream_high_offset self) |>
    <| retired_final_size := evict (size retired) retired |>
    <| streams_map := delete id (streams_map self) |>
    <| readable := readable self ∖ {[id]} |> in
  if bool_decide (id ∈ ready_set self)
  then self <| ready_set := ready_set self ∖ {[id]} |>
         <| ready_to_send := filter (λ q, q ≠ id) (ready_to_send self) |>
  else self.

Definition reap_if_terminal (self : Streams) (id : Z) : Streams :=
  if negb (is_peer_initiated self id) then self
  else
    match streams_map self !! id with
    | None => self
    | Some stream =>
        if negb (stream_done stream) then self
        else
          let high := match st_recv stream with
                      | Some r => default (rs_next_offset r) (rs_fin_offset r)
                      | None => 0
                      end in
          let self := retire self id (Z.max high (default 0 (stream_high_offset self !! id))) in
          let self := if is_bidi id
                      then self <| peer_bidi_closed := sat_add 64 (peer_bidi_closed self) 1 |>
                      else self <| peer_uni_closed := sat_add 64 (peer_uni_closed self) 1 |> in
          maybe_replenish_streams self (is_bidi id)
    end.

(** [lo..hi] as a set. *)
Definition range_set (lo hi : Z) : gset Z := list_to_set (seqZ lo (hi - lo)).

Definition ensure_remote_stream_exists (self : Streams) (id : Z) : Streams * stream_result bool :=
  if bool_decide (is_Some (streams_map self !! id)) then (self, Ok true)
  else if negb (is_peer_initiated self id) then (self, Err StreamError.StreamState)
  else
    let ordinal := id / 4 in
    let '(used, implicit) := if is_bidi id then (peer_bidi_used self, implicit_open_bidi self)
                             else (peer_uni_used self, implicit_open_uni self) in
    if (ordinal <? used) && negb (bool_decide (ordinal ∈ implicit)) then (self, Ok false)
    else if live_stream_cap self <=? Z.of_nat (size (streams_map self))
    then (self, Err StreamError.StreamLimit)
    else if is_bidi id then
      let used := Z.max (peer_bidi_used self) (wadd 64 ordinal 1) in
      if self_max_bidi self <? used then (self, Err StreamError.StreamLimit)
      else
        let self := self
          <| implicit_open_bidi := (implicit_open_bidi self
               ∪ range_set (Z.min (peer_bidi_used self) ordinal) ordinal) ∖ {[ordinal]} |>
          <| peer_bidi_used := used |> in
        (put_stream self id (new_bidi id (peer_initial_max_stream_data_bidi_local self)
                               (self_initial_max_stream_data_bidi_remote self)), Ok true)
    else
      let used := Z.max (peer_uni_used self) (wadd 64 ordinal 1) in
      if self_max_uni self <? used then (self, Err StreamError.StreamLimit)
      else
        let self := self
          <| implicit_open_uni := (implicit_open_uni self
               ∪ range_set (Z.min (peer_uni_used self) ordinal) ordinal) ∖ {[ordinal]} |>
          <| peer_uni_used := used |> in
        (put_stream self id (new_recv id (self_initial_max_stream_data_uni self)), Ok true).

(** ** Inbound frames *)

(** [on_stream] once the stream is live and the connection-level check has passed. *)
Definition on_stream_live (self : Streams) (id offset : Z) (fin : bool) (data : bytes)
  (end_ new_high : Z) (projected : option Z) : option (Streams * stream_result ()) :=
  stream ← streams_map self !! id;
  match st_recv stream with
  | None => Some (self, Err StreamError.StreamState)
  | Some recv =>
      match on_data recv offset data fin with
      | Err e => Some (self, Err e)
      | Ok (recv, _) =>
          let self := match projected with
                      | Some projected =>
                          self <| conn_recv_used := projected |>
                            <| stream_high_offset := <[id := end_]> (stream_high_offset self) |>
                      | None => self
                      end in
          let credit_discarded := rs_stop_sending_sent recv && (0 <? new_high) in
          let recv := if credit_discarded
                      then recv <| rs_conn_fc_credited := sat_add 64 (rs_conn_fc_credited recv) new_high |>
                      else recv in
          let self := put_recv self id stream recv in
          let self := if credit_discarded
                      then maybe_replenish_conn (self <| conn_consumed := sat_add 64 (conn_consumed self) new_high |>)
                      else self in
          Some (reap_if_terminal (refresh_readable self id) id, Ok ())
      end
  end.

Definition on_stream (self : Streams) (id offset : Z) (fin : bool) (data : bytes)
  : option (Streams * stream_result ()) :=
  let end_ := sat_add 64 offset (zlen data) in
  match ensure_remote_stream_exists self id with
  | (self, Err e) => Some (self, Err e)
  | (self, Ok false) =>
      match retired_final_size self !! id with
      | Some high => if high <? end_ then Some (self, Err StreamError.FinalSize) else Some (self, Ok ())
      | None => Some (self, Ok ())
      end
  | (self, Ok true) =>
      let prev_high := default 0 (stream_high_offset self !! id) in
      let new_high := sat_sub end_ prev_high in
      if 0 <? new_high then
        let projected := sat_add 64 (conn_recv_used self) new_high in
        if conn_recv_max self <? projected then Some (self, Err StreamError.FlowControl)
        else on_stream_live self id offset fin data end_ new_high (Some projected)
      else on_stream_live self id offset fin data end_ new_high None
  end.

Definition streams_on_reset (self : Streams) (id app_error final_size : Z)
  : option (Streams * stream_result ()) :=
  match ensure_remote_stream_exists self id with
  | (self, Err e) => Some (self, Err e)
  | (self, Ok false) => Some (self, Ok ())
  | (self, Ok true) =>
      let prev_high := default 0 (stream_high_offset self !! id) in
      if final_size <? prev_high then Some (self, Err StreamError.FinalSize)
      else
        let new_high := final_size - prev_high in
        let projected := sat_add 64 (conn_recv_used self) new_high in
        if conn_recv_max self <? projected then Some (self, Err StreamError.FlowControl)
        else
          stream ← streams_map self !! id;
          match st_recv stream with
          | None => Some (self, Err StreamError.StreamState)
          | Some recv =>
              let already_reset := is_reset (rs_state recv) in
              match on_reset recv app_error final_size with
              | Err e => Some (self, Err e)
              | Ok recv =>
                  let discarded := if already_reset then 0
                                   else sat_sub final_size (rs_conn_fc_credited recv) in
                  let recv := recv <| rs_conn_fc_credited := sat_add 64 (rs_conn_fc_credited recv) discarded |> in
                  let self := put_recv self id stream recv in
                  let self := self <| conn_recv_used := projected |> in
                  let self := if 0 <? new_high
                              then self <| stream_high_offset := <[id := final_size]> (stream_high_offset self) |>
                              else self in
                  let self := if negb already_reset
                              then maybe_replenish_conn
                                     (self <| conn_consumed := sat_add 64 (conn_consumed self) discarded |>)
                              else self in
                  Some (reap_if_terminal (refresh_readable self id) id, Ok ())
              end
          end
  end.

Definition on_stop_sending (self : Streams) (id app_error : Z) : option (Streams * stream_result ()) :=
  match reject_send_half_frame_on_peer_uni self id with
  | Err e => Some (self, Err e)
  | Ok _ =>
      match ensure_remote_stream_exists self id with
      | (self, Err e) => Some (self, Err e)
      | (self, Ok false) => Some (self, Ok ())
      | (self, Ok true) =>
          stream ← streams_map self !! id;
          match st_send stream with
          | None => Some (self, Err StreamError.StreamState)
          | Some send => Some (enqueue_ready (put_send self id stream (enter_reset send app_error)) id, Ok ())
          end
      end
  end.

(** [if let Some(prev) = blocked && limit > prev { blocked = None }] *)
Definition unblock (blocked : option Z) (limit : Z) : option Z :=
  match blocked with Some prev => if prev <? limit then None else blocked | None => None end.

Definition on_max_data (self : Streams) (limit : Z) : Streams :=
  if conn_send_max self <? limit
  then self <| conn_send_max := limit |> <| data_blocked_at := unblock (data_blocked_at self) limit |>
  else self.

Definition streams_on_max_stream_data (self : Streams) (id limit : Z) : option (Streams * stream_result ()) :=
  match reject_send_half_frame_on_peer_uni self id with
  | Err e => Some (self, Err e)
  | Ok _ =>
      match ensure_remote_stream_exists self id with
      | (self, Err e) => Some (self, Err e)
      | (self, Ok false) => Some (self, Ok ())
      | (self, Ok true) =>
          stream ← streams_map self !! id;
          match st_send stream with
          | None => Some (self, Err StreamError.StreamState)
          | Some send => Some (put_send self id stream (on_max_stream_data send limit), Ok ())
          end
      end
  end.

Definition on_data_blocked (self : Streams) (limit : Z) : Streams :=
  if limit <? conn_recv_max self then self <| max_data_pending := true |> else self.

Definition on_stream_data_blocked (self : Streams) (id limit : Z) : Streams * stream_result () :=
  match get_recv self id with
  | Some (stream, recv) =>
      if limit <? rs_max_data recv
      then (enqueue_ready (put_recv self id stream (recv <| rs_max_data_pending := true |>)) id, Ok ())
      else (self, Ok ())
  | None => (self, Ok ())
  end.

Definition on_max_streams (self : Streams) (dir : StreamDir.stream_dir) (limit : Z) : Streams :=
  match dir with
  | StreamDir.Bidi =>
      if peer_max_bidi self <? limit
      then self <| peer_max_bidi := limit |>
             <| streams_blocked_bidi_at := unblock (streams_blocked_bidi_at self) limit |>
      else self
  | StreamDir.Uni =>
      if peer_max_uni self <? limit
      then self <| peer_max_uni := limit |>
             <| streams_blocked_uni_at := unblock (streams_blocked_uni_at self) limit |>
      else self
  end.

Definition on_streams_blocked (self : Streams) (dir : StreamDir.stream_dir) (limit : Z) : Streams := self.

(** [read] into a buffer of [n] bytes; the receive half's part is [stream_read], and the
    stream is queued in its branch that raises [max_data]. *)
Definition streams_read (self : Streams) (id n : Z) : Streams * tls_result (bytes * bool) :=
  match get_recv self id with
  | None => (self, Err Error.InappropriateState)
  | Some (stream, recv) =>
      let granted (r : RecvStream) := negb (rs_max_data r =? rs_max_data recv) in
      let '(recv, copied, fin) := stream_read recv n in
      let self := put_recv self id stream recv in
      let self := if granted recv then enqueue_ready self id else self in
      let self := maybe_replenish_conn (self <| conn_consumed := sat_add 64 (conn_consumed self) (zlen copied) |>) in
      (reap_if_terminal (refresh_readable self id) id, Ok (copied, fin))
  end.

(** ** The packer *)

(** One queued connection-level frame: [None] if there is none or it does not fit. *)
Definition pop_conn (pending : option popped_frame) (cleared : Streams) (budget : Z) (out : bytes)
  : option (Streams * option bytes * popped_frame) :=
  frame ← pending;
  if popped_encoded_len frame <=? budget then Some (cleared, popped_encode frame out, frame) else None.

(** The connection-level frames in the order they are tried. *)
Definition pop_conn_frames (self : Streams) (budget : Z) (out : bytes)
  : option (Streams * option bytes * popped_frame) :=
  let max_data := if max_data_pending self then Some (Popped.MaxData (conn_recv_max self)) else None in
  let max_bidi := if max_streams_bidi_pending self
                  then Some (Popped.MaxStreams StreamDir.Bidi (self_max_bidi self)) else None in
  let max_uni := if max_streams_uni_pending self
                 then Some (Popped.MaxStreams StreamDir.Uni (self_max_uni self)) else None in
  let attempts :=
    [ pop_conn max_data (self <| max_data_pending := false |>
                           <| conn_recv_max_announced := conn_recv_max self |>) budget out;
      pop_conn max_bidi (self <| max_streams_bidi_pending := false |>
                           <| self_max_bidi_announced := self_max_bidi self |>) budget out;
      pop_conn max_uni (self <| max_streams_uni_pending := false |>
                          <| self_max_uni_announced := self_max_uni self |>) budget out;
      pop_conn (Popped.DataBlocked <$> data_blocked_at self) (self <| data_blocked_at := None |>) budget out;
      pop_conn (Popped.StreamsBlocked StreamDir.Bidi <$> streams_blocked_bidi_at self)
        (self <| streams_blocked_bidi_at := None |>) budget out;
      pop_conn (Popped.StreamsBlocked StreamDir.Uni <$> streams_blocked_uni_at self)
        (self <| streams_blocked_uni_at := None |>) budget out ] in
  head (omap id attempts).

(** [for _ in 0..scan_count]: the walk over the ready queue. *)
Fixpoint pop_ready (scan_count : nat) (self : Streams) (budget : Z) (out : bytes)
  : option (Streams * bytes * option popped_frame) :=
  match scan_count with
  | O => Some (self, out, None)
  | S n =>
      match ready_to_send self with
      | [] => Some (self, out, None)
      | id :: queue =>
          let self := self <| ready_to_send := queue |> <| ready_set := ready_set self ∖ {[id]} |> in
          match streams_map self !! id with
          | None => pop_ready n self budget out
          | Some stream =>
              '(stream, out, pop) ← pop_stream_frame stream id budget out;
              let self := put_stream self id stream in
              match pop with
              | PopFrame frame more =>
                  Some (if more : bool then enqueue_ready self id else self, out, Some frame)
              | NoRoom => pop_ready n (enqueue_ready self id) budget out
              | Idle => pop_ready n self budget out
              end
          end
      end
  end.

Definition pop_frame_into (self : Streams) (budget : Z) (out : bytes)
  : option (Streams * bytes * option popped_frame) :=
  match pop_conn_frames self budget out with
  | Some (self, out, frame) => out ← out; Some (self, out, Some frame)
  | None => pop_ready (length (ready_to_send self)) self budget out
  end.

Definition has_pending (self : Streams) : bool :=
  max_data_pending self || max_streams_bidi_pending self || max_streams_uni_pending self
  || is_some (data_blocked_at self) || is_some (streams_blocked_bidi_at self)
  || is_some (streams_blocked_uni_at self) || negb (is_nil (ready_to_send self)).

(** ** Acknowledgements and losses *)

Definition on_chunk_acked (self : Streams) (id offset len : Z) (fin : bool) : Streams :=
  let self := match get_send self id with
              | Some (stream, send) => put_send self id stream (on_range_acked send offset len fin)
              | None => self
              end in
  reap_if_terminal self id.

Definition on_chunk_lost (self : Streams) (id offset len : Z) (fin : bool) : Streams :=
  match get_send self id with
  | Some (stream, send) =>
      let '(send, moved) := on_range_lost send offset len fin in
      let self := put_send self id stream send in
      if moved : bool then enqueue_ready self id else self
  | None => self
  end.

Definition on_control_lost (self : Streams) (hint : control_hint) : Streams :=
  match hint with
  | ControlHint.ResetStream id =>
      match get_send self id with
      | Some (stream, send) =>
          let '(send, again) := on_reset_lost send in
          let self := put_send self id stream send in
          if again : bool then enqueue_ready self id else self
      | None => self
      end
  | ControlHint.StopSending id code =>
      match get_recv self id with
      | Some (stream, recv) =>
          if rs_stop_sending_sent recv
             && match rs_state recv with RecvState.Recv | RecvState.SizeKnown => true | _ => false end
          then enqueue_ready (put_recv self id stream (recv <| rs_stop_sending_pending := Some code |>)) id
          else self
      | None => self
      end
  | ControlHint.MaxData limit =>
      if conn_recv_max_announced self =? limit then self <| max_data_pending := true |> else self
  | ControlHint.MaxStreamData id limit =>
      match get_recv self id with
      | Some (stream, recv) =>
          if (rs_max_data_announced recv =? limit)
             && match rs_state recv with RecvState.Recv => true | _ => false end
          then enqueue_ready (put_recv self id stream (recv <| rs_max_data_pending := true |>)) id
          else self
      | None => self
      end
  | ControlHint.DataBlocked limit =>
      if (conn_send_max self =? limit) && (limit <=? conn_send_used self)
      then self <| data_blocked_at := Some limit |> else self
  | ControlHint.StreamDataBlocked id limit =>
      match get_send self id with
      | Some (stream, send) =>
          if (peer_max_data send =? limit) && (available_credit send =? 0)
             && match ss_state send with SendState.Ready | SendState.Send => true | _ => false end
          then enqueue_ready (put_send self id stream (send <| blocked_at := Some limit |>)) id
          else self
      | None => self
      end
  | ControlHint.MaxStreams StreamDir.Bidi limit =>
      if self_max_bidi_announced self =? limit then self <| max_streams_bidi_pending := true |> else self
  | ControlHint.MaxStreams StreamDir.Uni limit =>
      if self_max_uni_announced self =? limit then self <| max_streams_uni_pending := true |> else self
  | ControlHint.StreamsBlocked StreamDir.Bidi limit =>
      if peer_max_bidi self =? limit then self <| streams_blocked_bidi_at := Some limit |> else self
  | ControlHint.StreamsBlocked StreamDir.Uni limit =>
      if peer_max_uni self =? limit then self <| streams_blocked_uni_at := Some limit |> else self
  end.

Definition on_control_acked (self : Streams) (hint : control_hint) : Streams :=
  match hint with
  | ControlHint.ResetStream id =>
      let self := match get_send self id with
                  | Some (stream, send) => put_send self id stream (on_reset_acked send)
                  | None => self
                  end in
      reap_if_terminal self id
  | _ => self
  end.
