(* ===== verification/StreamsInv.v ===== *)
(** Invariants of the QUIC stream table ([Streams.v]): what a peer can make the table
    hold, what the table lets the application send, which streams are open, and which
    streams are queued, each preserved by every operation. *)

From S2P Require Import Prelude TlsBase Varint Ack BTree ByteStream Codec Frame RecvStream SendStream TransportParams Streams.

(** * Sizes do not depend on the bytes

    The lemmas on one receive half are about the slices of one stream; a hostile peer
    need not send such slices.  Offsets and lengths never depend on the bytes, so a half
    with its bytes erased makes the same steps, and an erased half is always one of the
    all-zero stream. *)

Definition erase (b : bytes) : bytes := (λ _, 0) <$> b.
Definition erase_entry (e : Z * bytes) : Z * bytes := (e.1, erase e.2).
Definition erase_pending (p : list (Z * bytes)) : list (Z * bytes) := erase_entry <$> p.
Definition erase_recv (r : RecvStream) : RecvStream :=
  r <| rs_delivered := erase (rs_delivered r) |> <| rs_pending := erase_pending (rs_pending r) |>.

Lemma zlen_erase b : zlen (erase b) = zlen b.
Proof. unfold zlen, erase. by rewrite length_fmap. Qed.
Lemma erase_app a b : erase (a ++ b) = erase a ++ erase b.
Proof. apply fmap_app. Qed.
Lemma zdrop_erase n b : zdrop n (erase b) = erase (zdrop n b).
Proof. unfold zdrop, erase. symmetry. apply fmap_drop. Qed.
Lemma ztake_erase n b : ztake n (erase b) = erase (ztake n b).
Proof. unfold ztake, erase. symmetry. apply fmap_take. Qed.
Lemma zlen_erase_pending p : zlen (erase_pending p) = zlen p.
Proof. unfold zlen, erase_pending. by rewrite length_fmap. Qed.
Create Rewrite HintDb erase.
#[local] Hint Rewrite zlen_erase zdrop_erase ztake_erase zlen_erase_pending : erase.
#[local] Hint Rewrite <- erase_app : erase.

Lemma erase_insert p k v : bt_insert (erase_pending p) k (erase v) = erase_pending (bt_insert p k v).
Proof.
  induction p as [|[k' v'] p IH]; [done|]. simpl. destruct (k <? k'); [done|].
  destruct (k =? k'); [done|]. simpl. f_equal. exact IH.
Qed.

Lemma erase_filter (P : Z → Prop) `{∀ x, Decision (P x)} p :
  filter (λ e, P e.1) (erase_pending p) = erase_pending (filter (λ e, P e.1) p).
Proof.
  induction p as [|e p IH]; [done|]. unfold erase_pending in *. rewrite fmap_cons, !filter_cons.
  cbn [erase_entry fst]. destruct (decide (P e.1)); [|done]. by rewrite fmap_cons, IH.
Qed.

Lemma erase_last_le p k : bt_last_le (erase_pending p) k = erase_entry <$> bt_last_le p k.
Proof.
  induction p as [|[k' v'] p IH]; [done|]. simpl. destruct (k' <=? k); [|done].
  change (list_fmap _ _ erase_entry p) with (erase_pending p). rewrite IH. by destruct (bt_last_le p k).
Qed.

Lemma erase_absorb p : ∀ d next pb n,
  absorb (erase_pending p) (erase d) next pb n =
  let '(p', d', next', pb', n') := absorb p d next pb n in
  (erase_pending p', erase d', next', pb', n').
Proof.
  induction p as [|[o f] p IH]; intros d next pb n; [done|].
  change (erase_pending ((o, f) :: p)) with ((o, erase f) :: erase_pending p). cbn [absorb].
  destruct (o <=? next); [|done]. autorewrite with erase.
  destruct (wadd 64 o (zlen f) <=? next); apply IH.
Qed.

Lemma erase_append r data : append_in_order (erase_recv r) (erase data) =
  let '(r', n) := append_in_order r data in (erase_recv r', n).
Proof.
  unfold append_in_order. cbn [erase_recv update rs_pending rs_delivered rs_next_offset rs_pending_bytes].
  autorewrite with erase. rewrite erase_absorb.
  by destruct (absorb (rs_pending r) _ _ _ _) as [[[[p' d'] nx'] pb'] n'].
Qed.

Lemma erase_uncovered p : ∀ c ne ps, uncovered (erase_pending p) c ne ps = uncovered p c ne ps.
Proof.
  induction p as [|[o f] p IH]; intros c ne ps; [done|].
  change (erase_pending ((o, f) :: p)) with ((o, erase f) :: erase_pending p). cbn [uncovered].
  autorewrite with erase. destruct (wadd 64 o (zlen f) <=? c); [apply IH|].
  destruct (ne <=? wadd 64 o (zlen f)); [done|apply IH].
Qed.

Lemma erase_new_pieces p o ne : new_pieces (erase_pending p) o ne = new_pieces p o ne.
Proof.
  unfold new_pieces, bt_range. rewrite erase_last_le.
  set (w := match bt_last_le p o with Some (k, _) => k | None => o end).
  replace (match erase_entry <$> bt_last_le p o with Some (k, _) => k | None => o end) with w
    by (subst w; by destruct (bt_last_le p o) as [[]|]).
  assert (bt_range (erase_pending p) w ne = erase_pending (bt_range p w ne)) as E
    by exact (erase_filter (λ x, w ≤ x < ne) p).
  unfold bt_range in E. by rewrite E, erase_uncovered.
Qed.

Lemma erase_store_pieces ps : ∀ r o d,
  store_pieces (erase_recv r) o (erase d) ps = erase_recv (store_pieces r o d ps).
Proof.
  induction ps as [|[a b] ps IH]; intros r o d; [done|]. cbn [store_pieces].
  cbn [erase_recv update rs_pending rs_delivered rs_next_offset rs_pending_bytes rs_max_data].
  autorewrite with erase.
  destruct (_ <? _); [done|]. unfold bt_last_lt. rewrite erase_last_le.
  destruct (bt_last_le (rs_pending r) (a - 1)) as [[k v]|]; cbn [fmap option_fmap option_map erase_entry fst snd].
  - autorewrite with erase. rewrite !erase_insert. destruct (_ =? a); [by rewrite <- IH|].
    destruct (_ <=? _); [done|by rewrite <- IH].
  - rewrite erase_insert. destruct (_ <=? _); [done|by rewrite <- IH].
Qed.

Lemma erase_nil p : bool_decide (erase_pending p = []) = bool_decide (p = []).
Proof. apply bool_decide_ext. by destruct p. Qed.

Lemma erase_fin_state r : fin_state (erase_recv r) = erase_recv (fin_state r).
Proof.
  unfold fin_state. cbn [erase_recv update rs_pending rs_fin_offset rs_next_offset rs_state].
  destruct (rs_fin_offset r) as [f|] eqn:E; [|done]. rewrite erase_nil.
  destruct (_ && _); [done|]. by destruct (bool_decide (rs_state r = _)).
Qed.

Lemma erase_trimmed r o d : on_data_trimmed (erase_recv r) o (erase d) =
  let '(r', n) := on_data_trimmed r o d in (erase_recv r', n).
Proof.
  unfold on_data_trimmed. change (rs_next_offset (erase_recv r)) with (rs_next_offset r).
  destruct (o =? rs_next_offset r).
  - rewrite erase_append. destruct (append_in_order r d) as [r' n]. by rewrite erase_fin_state.
  - unfold store_out_of_order. rewrite zlen_erase. change (rs_pending (erase_recv r)) with (erase_pending (rs_pending r)).
    by rewrite erase_new_pieces, erase_store_pieces, erase_fin_state.
Qed.

Lemma erase_highest p : highest_pending (erase_pending p) = highest_pending p.
Proof. induction p as [|[o f] p IH]; [done|]. simpl. rewrite zlen_erase. f_equal. exact IH. Qed.

Lemma erase_record_fin r e : record_fin (erase_recv r) e =
  match record_fin r e with Ok r' => Ok (erase_recv r') | Err x => Err x end.
Proof.
  unfold record_fin. cbn [erase_recv update rs_pending rs_fin_offset rs_next_offset].
  rewrite erase_highest. destruct (_ || _); [done|]. destruct (rs_fin_offset r); [|done].
  by destruct (negb _).
Qed.

Lemma erase_on_data r o d fin : on_data (erase_recv r) o (erase d) fin =
  match on_data r o d fin with Ok (r', n) => Ok (erase_recv r', n) | Err e => Err e end.
Proof.
  unfold on_data. rewrite zlen_erase.
  cbn [erase_recv update rs_state rs_fin_offset rs_max_data rs_stop_sending_sent rs_next_offset].
  change (mkRecvStream _ _ _ _ _ _ _ _ _ _ _ _ _ _ _) with (erase_recv r).
  destruct (is_reset (rs_state r)); destruct (ok_or _ _) as [e|]; cbn [mbind result_bind]; try done.
  { by destruct (match rs_fin_offset r with Some _ => _ | None => _ end). }
  destruct (_ <? e); [done|]. destruct (match rs_fin_offset r with Some _ => _ | None => _ end); [done|].
  assert ((if fin then record_fin (erase_recv r) e else Ok (erase_recv r)) =
    match (if fin then record_fin r e else Ok r) with Ok r' => Ok (erase_recv r') | Err x => Err x end) as ->
    by (destruct fin; [apply erase_record_fin|done]).
  destruct (if fin then record_fin r e else Ok r) as [r1|]; cbn [mbind result_bind]; [|done].
  change (rs_stop_sending_sent (erase_recv r1)) with (rs_stop_sending_sent r1).
  change (rs_next_offset (erase_recv r1)) with (rs_next_offset r1).
  change (rs_pending (erase_recv r1)) with (erase_pending (rs_pending r1)). rewrite erase_nil.
  destruct (rs_stop_sending_sent r1); [done|]. destruct (o <? rs_next_offset r1).
  - destruct (zlen d <=? _); [by destruct (_ && _)|]. rewrite zdrop_erase, erase_trimmed.
    by destruct (on_data_trimmed _ _ _).
  - rewrite erase_trimmed. by destruct (on_data_trimmed _ _ _).
Qed.

Lemma erase_recv_read r n : recv_read (erase_recv r) n =
  let '(r', out, fin) := recv_read r n in (erase_recv r', erase out, fin).
Proof.
  unfold recv_read. cbn [erase_recv update rs_delivered rs_read_off rs_fin_offset rs_state].
  autorewrite with erase. set (d := zdrop _ (rs_delivered r)).
  replace (bool_decide (erase d = [])) with (bool_decide (d = [])) by (apply bool_decide_ext; by destruct d).
  done.
Qed.

Lemma erase_grant_credit r : grant_credit (erase_recv r) = erase_recv (grant_credit r).
Proof.
  unfold grant_credit. cbn [erase_recv update rs_window rs_state rs_max_data_announced rs_read_off rs_max_data].
  destruct (_ && _); [|done]. destruct (_ <? wadd _ _ _); [|done]. by destruct (rs_max_data r <? _).
Qed.

Lemma erase_stream_read r n : stream_read (erase_recv r) n =
  let '(r', out, fin) := stream_read r n in (erase_recv r', erase out, fin).
Proof.
  unfold stream_read. assert (ack_reset (erase_recv r) = erase_recv (ack_reset r)) as ->
    by (unfold ack_reset; cbn [erase_recv update rs_state]; by destruct (rs_state r)).
  rewrite erase_recv_read. destruct (recv_read (ack_reset r) n) as [[r' out] fin].
  rewrite zlen_erase. f_equal. f_equal. by rewrite <- erase_grant_credit.
Qed.

Lemma erase_on_reset r code size : on_reset (erase_recv r) code size =
  match on_reset r code size with Ok r' => Ok (erase_recv r') | Err e => Err e end.
Proof.
  unfold on_reset. cbn [erase_recv update rs_next_offset rs_max_data rs_pending rs_fin_offset rs_state].
  rewrite erase_highest. destruct (_ <? _); [done|]. destruct (_ <? _); [done|]. destruct (_ <? _); [done|].
  destruct (match rs_fin_offset r with Some _ => _ | None => _ end); [done|].
  by destruct (is_reset (rs_state r)).
Qed.

Abbreviation zeros := (λ _ : Z, 0).

Lemma erase_slice off data : erase data = stream_slice zeros off (length data).
Proof.
  unfold erase, stream_slice. rewrite (const_fmap _ data 0), (const_fmap _ (seq 0 (length data)) 0) by done.
  by rewrite length_seq.
Qed.

Lemma erase_carries offset data : 0 ≤ offset → offset + zlen data < 2 ^ 64 →
  carries zeros (offset, erase data).
Proof.
  intros ? ?. split_and!; cbn [fst snd]; rewrite ?zlen_erase; try done.
  unfold erase at 2. rewrite length_fmap. apply erase_slice.
Qed.

(** * One receive half *)

Lemma received_erase r x : received (erase_recv r) x ↔ received r x.
Proof.
  unfold received, pend_covers. cbn [erase_recv update rs_next_offset rs_pending].
  unfold erase_pending. setoid_rewrite list_elem_of_fmap.
  split; intros [?|H]; [by left|right|by left|right].
  - destruct H as (e & (e' & -> & He) & Hx). exists e'. cbn [erase_entry fst snd] in Hx.
    rewrite zlen_erase in Hx. done.
  - destruct H as (e & He & Hx). exists (erase_entry e). split; [eauto|]. cbn [erase_entry fst snd].
    by rewrite zlen_erase.
Qed.

Lemma pend_bytes_erase p : pend_bytes (erase_pending p) = pend_bytes p.
Proof.
  induction p as [|e p IH]; [done|]. unfold pend_bytes in *. simpl. rewrite zlen_erase. f_equal. exact IH.
Qed.

(** What the peer has been charged for a stream, [h], covers what is buffered and what
    has been credited back. *)
Record half_ok (h : Z) (r : RecvStream) : Prop := {
  ho_wf : recv_wf zeros (erase_recv r);
  ho_window : 0 ≤ rs_window r;
  ho_h : 0 ≤ h < 2 ^ 64;
  ho_high : ∀ x, received r x → x < h;
  ho_reset : is_reset (rs_state r) = true → rs_fin_offset r = Some h;
  ho_credit : 0 ≤ rs_conn_fc_credited r;
  ho_exact : discards r = false → rs_conn_fc_credited r = rs_read_off r;
  ho_bound : zlen (rs_delivered r) + rs_pending_bytes r + rs_conn_fc_credited r ≤ h }.

Lemma half_new m : u64 m → half_ok 0 (recv_new m).
Proof.
  intros Hm. split; try done; [|apply Hm|].
  - exact (recv_new_wf zeros m Hm).
  - intros x [?|(e & ?%elem_of_nil & _)]; [simpl in *; lia|done].
Qed.

(** Disjoint fragments beyond the delivered bytes and below [h]. *)
Lemma half_buffered h r : recv_wf zeros (erase_recv r) → is_reset (rs_state r) = false → 0 ≤ h →
  (∀ x, received r x → x < h) → zlen (rs_delivered r) + rs_pending_bytes r + rs_read_off r ≤ h.
Proof.
  intros [[[Hf Hb _ Hn _] Hrd Hdel _ _] _] Hr Hh Hhigh.
  cbn [erase_recv update rs_next_offset rs_pending rs_pending_bytes rs_read_off rs_delivered rs_state] in *.
  destruct (Hdel Hr) as [Hd _]. rewrite zlen_erase in Hd. rewrite Hb.
  assert (rs_next_offset r ≤ h) as Hnh.
  { destruct (Z.eq_dec (rs_next_offset r) 0); [lia|].
    pose proof (Hhigh (rs_next_offset r - 1) ltac:(left; lia)). lia. }
  assert (frags_wf zeros (rs_next_offset r) h (erase_pending (rs_pending r))) as Hf'.
  { destruct Hf as [? ? ? Hne Hrg]. split; try done. rewrite Forall_forall in *. intros e He.
    split; [by apply Hrg|]. specialize (Hne e He). unfold frag_end.
    assert (received r (e.1 + zlen e.2 - 1)) as Hx.
    { apply received_erase. right. exists e. split; [done|lia]. }
    specialize (Hhigh _ Hx). lia. }
  pose proof (pend_bytes_bound _ _ _ _ Hf' Hnh). lia.
Qed.

(** What [on_data] leaves alone. *)
Lemma store_pieces_keeps ps : ∀ r o d, let r' := store_pieces r o d ps in
  rs_conn_fc_credited r' = rs_conn_fc_credited r ∧ rs_max_data_pending r' = rs_max_data_pending r
  ∧ rs_stop_sending_pending r' = rs_stop_sending_pending r.
Proof.
  induction ps as [|[a b] ps IH]; intros r o d; [done|]. cbn [store_pieces].
  assert (∀ dl nx p pb, let r' := store_pieces (set_reassembly dl nx p pb r) o d ps in
    rs_conn_fc_credited r' = rs_conn_fc_credited r ∧ rs_max_data_pending r' = rs_max_data_pending r
    ∧ rs_stop_sending_pending r' = rs_stop_sending_pending r) as Hgo
    by (intros dl nx p pb; cbv zeta; by destruct (IH (set_reassembly dl nx p pb r) o d) as (-> & -> & ->)).
  destruct (_ <? _); [done|]. destruct (bt_last_lt _ _) as [[k v]|].
  - destruct (_ =? a); [apply Hgo|]. destruct (_ <=? _); [done|apply Hgo].
  - destruct (_ <=? _); [done|apply Hgo].
Qed.

Lemma on_data_keeps r o d fin r' n : on_data r o d fin = Ok (r', n) →
  rs_conn_fc_credited r' = rs_conn_fc_credited r ∧ rs_max_data_pending r' = rs_max_data_pending r
  ∧ rs_stop_sending_pending r' = rs_stop_sending_pending r.
Proof.
  assert (∀ r1 r2 : RecvStream, (∃ st, r2 = set_recv_state st r1) ∨ r2 = r1 →
    rs_conn_fc_credited r2 = rs_conn_fc_credited r1 ∧ rs_max_data_pending r2 = rs_max_data_pending r1
    ∧ rs_stop_sending_pending r2 = rs_stop_sending_pending r1) as Hst.
  { intros r1 r2 [[st ->]| ->]; done. }
  assert (∀ r1, (∃ st, fin_state r1 = set_recv_state st r1) ∨ fin_state r1 = r1) as Hfs.
  { intros r1. unfold fin_state. destruct (rs_fin_offset r1); [|by right].
    destruct (_ && _); [left; by eexists|]. destruct (bool_decide _); [by right|left; by eexists]. }
  assert (∀ r1 o1 d1 r2 n2, on_data_trimmed r1 o1 d1 = (r2, n2) →
    rs_conn_fc_credited r2 = rs_conn_fc_credited r1 ∧ rs_max_data_pending r2 = rs_max_data_pending r1
    ∧ rs_stop_sending_pending r2 = rs_stop_sending_pending r1) as Htr.
  { intros r1 o1 d1 r2 n2 Ht. unfold on_data_trimmed in Ht. destruct (o1 =? _).
    - unfold append_in_order in Ht. destruct (absorb _ _ _ _ _) as [[[[p' d'] nx'] pb'] n'].
      injection Ht as <- <-. by destruct (Hst _ _ (Hfs (set_reassembly d' nx' p' pb' r1))) as (-> & -> & ->).
    - injection Ht as <- <-. destruct (Hst _ _ (Hfs (store_out_of_order r1 o1 d1))) as (-> & -> & ->).
      apply store_pieces_keeps. }
  intros Hr. unfold on_data in Hr. destruct (is_reset _).
  { apply bind_Ok_inv in Hr as (e & _ & Hr). destruct (match rs_fin_offset r with Some _ => _ | None => _ end); [done|].
    by injection Hr as <- <-. }
  apply bind_Ok_inv in Hr as (e & _ & Hr). destruct (_ <? e); [done|].
  destruct (match rs_fin_offset r with Some _ => _ | None => _ end); [done|].
  apply bind_Ok_inv in Hr as (r1 & H1 & Hr).
  assert (rs_conn_fc_credited r1 = rs_conn_fc_credited r ∧ rs_max_data_pending r1 = rs_max_data_pending r
    ∧ rs_stop_sending_pending r1 = rs_stop_sending_pending r) as (<- & <- & <-).
  { destruct fin; [|by injection H1 as <-]. unfold record_fin in H1.
    destruct (_ || _); [done|]. destruct (rs_fin_offset r); [destruct (negb _); [done|]|]; by injection H1 as <-. }
  destruct (rs_stop_sending_sent r1); [by injection Hr as <- <-|].
  destruct (o <? rs_next_offset r1); [destruct (zlen d <=? _)|].
  - injection Hr as <- <-. by destruct (_ && _).
  - injection Hr as Hr. by eapply Htr.
  - injection Hr as Hr. by eapply Htr.
Qed.

(** The fields the table updates on its own do not matter. *)
Lemma half_flags h r mp ma ss : half_ok h r → half_ok h (r <| rs_max_data_pending := mp |>
  <| rs_max_data_announced := ma |> <| rs_stop_sending_pending := ss |>).
Proof.
  by intros [[[[] ? ? ? ?] ?] ? ? ? ? ? ? ?].
Qed.

Lemma half_credited h h' r c : half_ok h r → 0 ≤ c → h ≤ h' < 2 ^ 64 →
  (is_reset (rs_state r) = true → h' = h) → (discards r = false → c = rs_read_off r) →
  zlen (rs_delivered r) + rs_pending_bytes r + c ≤ h' → half_ok h' (r <| rs_conn_fc_credited := c |>).
Proof.
  intros [[[[] ? ? ? ?] ?] ? ? Hh Hr ? ? ?] Hc Hle Hrs Hex Hb. split; try done.
  - lia.
  - intros x Hx. assert (x < h); [by apply Hh|lia].
  - cbn [update rs_state rs_fin_offset]. intros E. by rewrite (Hr E), (Hrs E).
Qed.

Lemma on_data_extent r o d fin r' n : on_data r o d fin = Ok (r', n) → o + zlen d < 2 ^ 64.
Proof.
  unfold on_data, checked_add. intros Hr. destruct (Z.ltb_spec (o + zlen d) (2 ^ 64)); [done|].
  by destruct (is_reset _).
Qed.

Lemma on_data_stop r o d fin r' n : on_data r o d fin = Ok (r', n) →
  rs_stop_sending_sent r = true → is_reset (rs_state r) = false →
  rs_delivered r' = rs_delivered r ∧ rs_pending r' = rs_pending r ∧ rs_pending_bytes r' = rs_pending_bytes r.
Proof.
  intros Hr Hs Hnr. unfold on_data in Hr. rewrite Hnr in Hr. apply bind_Ok_inv in Hr as (e & _ & Hr).
  destruct (_ <? e); [done|]. destruct (match rs_fin_offset r with Some _ => _ | None => _ end); [done|].
  apply bind_Ok_inv in Hr as (r1 & H1 & Hr).
  assert (∃ f, r1 = set_fin f r) as [f ->].
  { destruct fin; [|injection H1 as <-; exists (rs_fin_offset r); by destruct r]. unfold record_fin in H1.
    destruct (_ || _); [done|]. destruct (rs_fin_offset r); [destruct (negb _); [done|]|];
      injection H1 as <-; by eexists. }
  cbn [set_fin rs_stop_sending_sent] in Hr. rewrite Hs in Hr. by injection Hr as <- <-.
Qed.

(** A STREAM frame: the high-water mark and, after STOP_SENDING, the credit move by what
    is new beyond it. *)
Lemma half_on_data h r o d fin r' n : half_ok h r → 0 ≤ o → on_data r o d fin = Ok (r', n) →
  let h' := Z.max h (o + zlen d) in
  rs_stop_sending_sent r' = rs_stop_sending_sent r
  ∧ half_ok h' (if rs_stop_sending_sent r
                then r' <| rs_conn_fc_credited := rs_conn_fc_credited r' + (h' - h) |> else r').
Proof.
  intros Hh Ho Hr h'. pose proof (on_data_extent _ _ _ _ _ _ Hr) as Hext.
  pose proof (zlen_nonneg d). destruct (on_data_keeps _ _ _ _ _ _ Hr) as (K1 & _ & _).
  pose proof Hh as [Hwf Hw Hh0 Hhi Hrst Hc Hex Hb].
  pose proof (erase_on_data r o d fin) as He. rewrite Hr in He.
  pose proof (on_data_spec zeros _ _ _ _ _ _ Hwf (erase_carries o d Ho Hext) He)
    as (Hwf' & [_ _ _ _ _ Hnew _ (T1 & _ & T3 & T4)] & Hfin & Hrs).
  cbn [erase_recv update rs_read_off rs_window rs_stop_sending_sent rs_state] in T1, T3, T4, Hrs.
  rewrite zlen_erase in Hnew. setoid_rewrite received_erase in Hnew.
  split; [done|].
  destruct (is_reset (rs_state r)) eqn:Er.
  { destruct (on_data_reset _ _ _ _ _ _ Er Hr) as [-> ->].
    assert (h' = h) as Hhh.
    { unfold on_data in Hr. rewrite Er in Hr. apply bind_Ok_inv in Hr as (e & Hce & Hr).
      unfold checked_add in Hce. destruct (Z.ltb_spec (o + zlen d) (2 ^ 64)); [|lia]. injection Hce as <-.
      rewrite (Hrst eq_refl) in Hr. destruct (Z.ltb_spec h (o + zlen d)); [done|]. unfold h'. lia. }
    rewrite Hhh, Z.sub_diag, Z.add_0_r.
    by destruct (rs_stop_sending_sent r); [destruct r|]. }
  assert (∀ x, received r' x → x < h') as Hhi'.
  { intros x Hx. destruct (Z.lt_ge_cases x 0); [unfold h'; lia|].
    destruct (Hnew x ltac:(lia) Hx) as [Hx'|Hx']; [apply Hhi in Hx'|]; unfold h'; lia. }
  assert (is_reset (rs_state r') = true → rs_fin_offset r' = Some h') as Hrst' by (by rewrite Hrs).
  destruct (rs_stop_sending_sent r) eqn:Es.
  - destruct (on_data_stop _ _ _ _ _ _ Hr Es Er) as (D1 & D2 & D3).
    destruct Hwf' as [[[] ? ? ? ?] ?]. split; cbn [update rs_conn_fc_credited rs_window rs_delivered rs_pending_bytes]; try done.
    + by rewrite T3.
    + unfold h'. lia.
    + rewrite K1. unfold h'. lia.
    + unfold discards. cbn [update rs_state rs_stop_sending_sent]. rewrite T4. by rewrite orb_true_r.
    + rewrite D1, D3, K1. unfold h'. lia.
  - assert (rs_conn_fc_credited r = rs_read_off r) as Hcr by (apply Hex; unfold discards; by rewrite Er, Es).
    split; try done; [by rewrite T3|unfold h'; lia|lia|by rewrite K1, T1, Hcr|].
    rewrite K1, Hcr, <- T1. apply half_buffered; try done. unfold h'. lia.
Qed.

Lemma grant_credit_keeps r : let r' := grant_credit r in
  rs_conn_fc_credited r' = rs_conn_fc_credited r ∧ rs_delivered r' = rs_delivered r
  ∧ rs_pending_bytes r' = rs_pending_bytes r ∧ rs_stop_sending_sent r' = rs_stop_sending_sent r
  ∧ rs_pending r' = rs_pending r ∧ rs_stop_sending_pending r' = rs_stop_sending_pending r
  ∧ (rs_max_data_pending r' = true → rs_max_data_pending r = true ∨ rs_max_data r < rs_max_data r').
Proof.
  unfold grant_credit. destruct (_ && _); [|by eauto 10]. destruct (_ <? wadd _ _ _); [|by eauto 10].
  destruct (Z.ltb_spec (rs_max_data r) (sat_add 64 (rs_read_off r) (rs_window r))); [|by eauto 10].
  split_and!; try done. intros _. by right.
Qed.

Lemma stream_read_keeps r n r' out fin : stream_read r n = (r', out, fin) →
  rs_conn_fc_credited r' = sat_add 64 (rs_conn_fc_credited r) (zlen out)
  ∧ zlen (rs_delivered r') = zlen (rs_delivered r) - zlen out
  ∧ rs_pending_bytes r' = rs_pending_bytes r
  ∧ rs_stop_sending_sent r' = rs_stop_sending_sent r ∧ rs_pending r' = rs_pending r
  ∧ rs_stop_sending_pending r' = rs_stop_sending_pending r
  ∧ (rs_max_data_pending r' = true → rs_max_data_pending r = true ∨ rs_max_data r < rs_max_data r').
Proof.
  unfold stream_read, recv_read. destruct (ack_reset_keeps r) as (A1 & _). cbv zeta.
  assert (rs_conn_fc_credited (ack_reset r) = rs_conn_fc_credited r
    ∧ rs_pending_bytes (ack_reset r) = rs_pending_bytes r ∧ rs_pending (ack_reset r) = rs_pending r
    ∧ rs_stop_sending_sent (ack_reset r) = rs_stop_sending_sent r
    ∧ rs_stop_sending_pending (ack_reset r) = rs_stop_sending_pending r
    ∧ rs_max_data_pending (ack_reset r) = rs_max_data_pending r
    ∧ rs_max_data (ack_reset r) = rs_max_data r) as (B1 & B2 & B3 & B4 & B5 & B6 & B7).
  { unfold ack_reset. by destruct (rs_state r). }
  set (r1 := mkRecvStream _ _ _ _ _ _ _ _ _ _ _ _ _ _ (sat_add _ _ _)).
  destruct (grant_credit_keeps r1) as (G1 & G2 & G3 & G4 & G5 & G6 & G7).
  assert (rs_max_data_pending r1 = rs_max_data_pending r) as E1 by exact B6.
  assert (rs_max_data r1 = rs_max_data r) as E2 by exact B7. rewrite E1, E2 in G7.
  intros [= <- <- _]. rewrite G1, G2, G3, G4, G5, G6. split_and!; [..|exact G7];
    unfold r1; cbn [rs_conn_fc_credited rs_delivered rs_pending_bytes rs_stop_sending_sent rs_pending
      rs_stop_sending_pending]; rewrite ?A1, ?B1; try done.
  unfold zlen, zdrop, ztake. rewrite length_drop, length_take. lia.
Qed.

Lemma half_read h r n r' out fin : half_ok h r → 0 ≤ n → stream_read r n = (r', out, fin) →
  half_ok h r' ∧ rs_conn_fc_credited r' = rs_conn_fc_credited r + zlen out.
Proof.
  intros [Hwf Hw Hh0 Hhi Hrst Hc Hex Hb] Hn Hr.
  pose proof (erase_stream_read r n) as He. rewrite Hr in He.
  pose proof (stream_read_spec zeros _ _ _ _ _ Hwf Hn Hw He)
    as (Hwf' & _ & Hlen & Hro & _ & Hnx & Hfo & Hp & Hwi & Hrs).
  cbn [erase_recv update rs_read_off rs_window rs_next_offset rs_fin_offset rs_pending rs_state rs_delivered] in *.
  rewrite !zlen_erase in *.
  destruct (stream_read_keeps _ _ _ _ _ Hr) as (Hcr & Hdl & Hpb & Hss & Hpe & _).
  pose proof (zlen_nonneg out). pose proof (zlen_nonneg (rs_delivered r)).
  assert (0 ≤ rs_pending_bytes r).
  { destruct Hwf as [[[_ Hpb0 _ _ _] _ _ _ _] _]. cbn in Hpb0. rewrite Hpb0. apply pend_bytes_nonneg. }
  assert (sat_add 64 (rs_conn_fc_credited r) (zlen out) = rs_conn_fc_credited r + zlen out) as Hsat
    by (unfold sat_add; lia).
  rewrite Hsat in Hcr. split; [|done]. split; try done.
  - by rewrite Hwi.
  - intros x Hx. apply Hhi. unfold received in *. by rewrite Hnx, Hpe in Hx.
  - by rewrite Hrs, Hfo.
  - lia.
  - unfold discards in *. rewrite Hrs, Hss, Hcr, Hro. intros Hd. rewrite (Hex Hd). done.
  - lia.
Qed.

Lemma on_reset_keeps r code size r' : on_reset r code size = Ok r' →
  size ≤ rs_max_data r ∧ rs_conn_fc_credited r' = rs_conn_fc_credited r
  ∧ rs_max_data_pending r' = rs_max_data_pending r
  ∧ rs_stop_sending_pending r' = rs_stop_sending_pending r
  ∧ (if is_reset (rs_state r) then r' = r ∧ (∀ f, rs_fin_offset r = Some f → f = size)
     else rs_delivered r' = [] ∧ rs_pending_bytes r' = 0 ∧ rs_fin_offset r' = Some size
          ∧ rs_state r' = RecvState.ResetRecvd).
Proof.
  intros Hr. unfold on_reset in Hr. destruct (_ <? _); [done|].
  destruct (Z.ltb_spec (rs_max_data r) size); [done|]. destruct (_ <? _); [done|].
  destruct (match rs_fin_offset r with Some _ => _ | None => _ end) eqn:Ef; [done|].
  destruct (is_reset (rs_state r)); injection Hr as <-; [|done]. split_and!; try done.
  intros f Hf. rewrite Hf in Ef. apply negb_false_iff, Z.eqb_eq in Ef. done.
Qed.

(** RESET_STREAM: everything up to the final size has been credited afterwards. *)
Lemma half_on_reset h r code size r' : half_ok h r → h ≤ size → on_reset r code size = Ok r' →
  rs_conn_fc_credited r' = rs_conn_fc_credited r ∧
  (if is_reset (rs_state r) then size = h ∧ half_ok h r'
   else half_ok size (r' <| rs_conn_fc_credited := size |>)).
Proof.
  intros Hh Hle Hr. pose proof Hh as [Hwf Hw Hh0 Hhi Hrst Hc Hex Hb].
  destruct (on_reset_keeps _ _ _ _ Hr) as (Hmx & K1 & _ & _ & K2). split; [done|].
  destruct (is_reset (rs_state r)) eqn:Er.
  { destruct K2 as [-> Hf]. by rewrite <- (Hf h (Hrst eq_refl)). }
  destruct K2 as (D1 & D2 & D3 & D4).
  pose proof (erase_on_reset r code size) as He. rewrite Hr in He.
  destruct (on_reset_spec zeros _ _ _ _ Hwf He) as (Hwf' & Hro & Hwi & Hrs & Hnx & Hrec).
  cbn [erase_recv update rs_window rs_read_off rs_state] in Hro, Hwi, Hrs.
  assert (rs_max_data r < 2 ^ 64) by apply Hwf. destruct Hwf' as [[[] ? ? ? ?] ?].
  split; cbn [update rs_conn_fc_credited rs_window rs_delivered rs_pending_bytes]; try done.
  - by rewrite Hwi.
  - lia.
  - intros x Hx. assert (received r x) as Hx'; [|specialize (Hhi x Hx'); lia].
    apply received_erase, Hrec, received_erase. exact Hx.
  - lia.
  - unfold discards. cbn [update rs_state rs_stop_sending_sent]. by rewrite Hrs.
  - rewrite D1, D2. unfold zlen. simpl. lia.
Qed.

Lemma half_stop h r code : half_ok h r → half_ok h (stop_sending r code).
Proof.
  intros [Hwf Hw Hh0 Hhi Hrst Hc Hex Hb]. split; try done.
  - exact (stop_sending_wf zeros _ code Hwf).
  - unfold discards. cbn [stop_sending rs_state rs_stop_sending_sent]. by rewrite orb_true_r.
Qed.

(** * Sums over the table *)

Definition msum {A} (f : Z → A → Z) (m : gmap Z A) : Z := map_fold (λ k v acc, f k v + acc) 0 m.

Section msum.
Context {A : Type}.
Implicit Types (f g : Z → A → Z) (m : gmap Z A).

Lemma msum_empty f : msum f ∅ = 0.
Proof. apply map_fold_empty. Qed.

Lemma msum_insert f m k v : m !! k = None → msum f (<[k := v]> m) = f k v + msum f m.
Proof.
  intros Hk. unfold msum. rewrite map_fold_insert_L; [done| |done]. intros. lia.
Qed.

Lemma msum_delete f m k v : m !! k = Some v → msum f m = f k v + msum f (delete k m).
Proof.
  intros Hk. rewrite <- (insert_delete_id m k v Hk) at 1. apply msum_insert, lookup_delete_eq.
Qed.

Lemma msum_ext f g m : (∀ k v, m !! k = Some v → f k v = g k v) → msum f m = msum g m.
Proof.
  induction m as [|k v m Hk IH] using map_ind; intros Hf; [by rewrite !msum_empty|].
  rewrite !msum_insert by done. rewrite (Hf k v (lookup_insert_eq _ _ _)). f_equal. apply IH.
  intros k' v' Hk'. apply Hf. rewrite lookup_insert_ne; [done|congruence].
Qed.

Lemma msum_update f g m k v v' : m !! k = Some v →
  (∀ k' v', k' ≠ k → f k' v' = g k' v') → msum g (<[k := v']> m) = msum f m + g k v' - f k v.
Proof.
  intros Hk Hfg. rewrite <- insert_delete_eq, msum_insert by apply lookup_delete_eq.
  rewrite (msum_delete f m k v Hk).
  rewrite (msum_ext g f (delete k m)); [lia|]. intros k' w [Hne _]%lookup_delete_Some.
  symmetry. by apply Hfg.
Qed.

Lemma msum_nonneg f m : (∀ k v, m !! k = Some v → 0 ≤ f k v) → 0 ≤ msum f m.
Proof.
  induction m as [|k v m Hk IH] using map_ind; intros Hf; [by rewrite msum_empty|].
  rewrite msum_insert by done. pose proof (Hf k v (lookup_insert_eq _ _ _)).
  assert (0 ≤ msum f m); [|lia]. apply IH. intros k' v' Hk'. apply (Hf k').
  rewrite lookup_insert_ne; [done|congruence].
Qed.

Lemma msum_delete_le f m k : (∀ k v, m !! k = Some v → 0 ≤ f k v) → msum f (delete k m) ≤ msum f m.
Proof.
  intros Hf. destruct (m !! k) as [v|] eqn:Hk; [|by rewrite delete_id].
  rewrite (msum_delete f m k v Hk). specialize (Hf k v Hk). lia.
Qed.

Lemma msum_lookup f m k v : (∀ k v, m !! k = Some v → 0 ≤ f k v) → m !! k = Some v → f k v ≤ msum f m.
Proof.
  intros Hf Hk. rewrite (msum_delete f m k v Hk). enough (0 ≤ msum f (delete k m)) by lia.
  apply msum_nonneg. intros k' v' [_ Hk']%lookup_delete_Some. by apply (Hf k').
Qed.

Lemma msum_mono f g m : (∀ k v, m !! k = Some v → f k v ≤ g k v) → msum f m ≤ msum g m.
Proof.
  induction m as [|k v m Hk IH] using map_ind; intros Hf; [by rewrite !msum_empty|].
  rewrite !msum_insert by done. pose proof (Hf k v (lookup_insert_eq _ _ _)).
  assert (msum f m ≤ msum g m); [|lia]. apply IH. intros k' v' Hk'. apply (Hf k').
  rewrite lookup_insert_ne; [done|congruence].
Qed.

End msum.

(** * The receive side *)

Definition recvs (s : Streams) : gmap Z RecvStream := omap st_recv (streams_map s).
Definition high_of (h : gmap Z Z) (id : Z) : Z := default 0 (h !! id).

(** What the peer has been charged and not been given back, over the live streams. *)
Definition debt (h : gmap Z Z) (rs : gmap Z RecvStream) : Z :=
  msum (λ id r, high_of h id - rs_conn_fc_credited r) rs.

Record recv_side (rs : gmap Z RecvStream) (h : gmap Z Z) (used max window consumed : Z) : Prop := {
  rv_half : ∀ id r, rs !! id = Some r → half_ok (high_of h id) r;
  rv_dom : ∀ id, rs !! id = None → h !! id = None;
  rv_debt : debt h rs ≤ used - consumed;
  rv_consumed : 0 ≤ consumed;
  rv_used : used ≤ max;
  rv_max : max ≤ consumed + window;
  rv_width : max < 2 ^ 64 ∧ 0 ≤ window < 2 ^ 64 }.

Lemma half_debt h r : half_ok h r → 0 ≤ h - rs_conn_fc_credited r.
Proof.
  intros [Hwf _ _ _ _ _ _ Hb]. pose proof (zlen_nonneg (rs_delivered r)).
  destruct Hwf as [[[_ Hpb _ _ _] _ _ _ _] _].
  change (rs_pending_bytes r = pend_bytes (erase_pending (rs_pending r))) in Hpb.
  pose proof (pend_bytes_nonneg (erase_pending (rs_pending r))). lia.
Qed.

Lemma debt_nonneg rs h : (∀ id r, rs !! id = Some r → half_ok (high_of h id) r) → 0 ≤ debt h rs.
Proof. intros Hh. apply msum_nonneg. intros id r Hr. by apply half_debt, Hh. Qed.

(** One half changes: its mark moves from [high_of h id] to [hv], its credit by [dc]. *)
Lemma rside_put rs h h' used max window consumed id r r' hv dc :
  recv_side rs h used max window consumed → rs !! id = Some r → half_ok hv r' →
  high_of h' id = hv → (∀ i, i ≠ id → h' !! i = h !! i) → high_of h id ≤ hv →
  rs_conn_fc_credited r' = rs_conn_fc_credited r + dc → 0 ≤ dc →
  used + (hv - high_of h id) ≤ max →
  recv_side (<[id := r']> rs) h' (used + (hv - high_of h id)) max window (consumed + dc).
Proof.
  intros [H1 H2 H3 H4 H5 H6 H7] Hr Hok Hv Hne Hle Hc Hdc Hu. split; try done; try lia.
  - intros i x. destruct (decide (i = id)) as [->|Hi].
    + rewrite lookup_insert_eq. intros [= <-]. by rewrite Hv.
    + rewrite lookup_insert_ne by done. unfold high_of. rewrite Hne by done. apply H1.
  - intros i Hi. destruct (decide (i = id)) as [->|Hid]; [by rewrite lookup_insert_eq in Hi|].
    rewrite lookup_insert_ne in Hi by done. rewrite Hne by done. by apply H2.
  - unfold debt in *. rewrite (msum_update (λ id r, high_of h id - rs_conn_fc_credited r) _ _ _ r) by
      (done || (intros; unfold high_of; by rewrite Hne)). rewrite Hv, Hc. lia.
Qed.

Lemma rside_delete rs h used max window consumed id : recv_side rs h used max window consumed →
  recv_side (delete id rs) (delete id h) used max window consumed.
Proof.
  intros [H1 H2 H3 H4 H5 H6 H7].
  assert (∀ i, i ≠ id → high_of (delete id h) i = high_of h i) as Hh
    by (intros; unfold high_of; by rewrite lookup_delete_ne).
  split; try done.
  - intros i x [Hne Hx]%lookup_delete_Some. rewrite Hh by done. by apply H1.
  - intros i Hi. destruct (decide (i = id)) as [->|Hid]; [apply lookup_delete_eq|].
    rewrite lookup_delete_ne in Hi by done. rewrite lookup_delete_ne by done. by apply H2.
  - unfold debt in *. rewrite (msum_ext _ (λ id r, high_of h id - rs_conn_fc_credited r)).
    + pose proof (msum_delete_le (λ id r, high_of h id - rs_conn_fc_credited r) rs id
        ltac:(intros i x Hx; by apply half_debt, H1)). lia.
    + intros i x [Hne _]%lookup_delete_Some. by rewrite Hh.
Qed.

Lemma rside_new rs h used max window consumed id m : recv_side rs h used max window consumed →
  rs !! id = None → u64 m → recv_side (<[id := recv_new m]> rs) h used max window consumed.
Proof.
  intros [H1 H2 H3 H4 H5 H6 H7] Hn Hm. pose proof (H2 id Hn) as Hh.
  assert (high_of h id = 0) as H0 by (unfold high_of; by rewrite Hh). split; try done.
  - intros i x. destruct (decide (i = id)) as [->|Hi].
    + rewrite lookup_insert_eq. intros [= <-]. rewrite H0. by apply half_new.
    + rewrite lookup_insert_ne by done. apply H1.
  - intros i Hi. destruct (decide (i = id)) as [->|Hid]; [done|].
    rewrite lookup_insert_ne in Hi by done. by apply H2.
  - unfold debt in *. rewrite msum_insert by done. rewrite H0. change (rs_conn_fc_credited (recv_new m)) with 0. lia.
Qed.

(** Everything buffered for the peer fits in the connection window. *)
Lemma rside_buffered rs h used max window consumed : recv_side rs h used max window consumed →
  msum (λ _ r, zlen (rs_delivered r) + rs_pending_bytes r) rs ≤ window.
Proof.
  intros [H1 H2 H3 H4 H5 H6 H7].
  enough (msum (λ _ r, zlen (rs_delivered r) + rs_pending_bytes r) rs ≤ debt h rs) by lia.
  apply msum_mono. intros id r Hr. pose proof (ho_bound _ _ (H1 id r Hr)). lia.
Qed.

(** * The send side *)

Definition sends (s : Streams) : gmap Z SendStream := omap st_send (streams_map s).

(** The bytes accepted on a send half: carved ones and buffered ones. *)
Definition charged (se : SendStream) : Z := write_off se + zlen (write_buf se).

(** Chunk offsets are unsigned. *)
Definition offs (se : SendStream) : Prop := ∀ c, c ∈ rtx_queue se ∨ c ∈ sent_chunks se → 0 ≤ c.1.1.

(** A send half never holds more than the peer's MAX_STREAM_DATA allows. *)
Record send_fc (se : SendStream) : Prop := {
  fc_off : 0 ≤ write_off se;
  fc_sent : sent_offset se = write_off se;
  fc_fin : ss_reset_code se = None → ∀ f, ss_fin_offset se = Some f → f = charged se;
  fc_offs : offs se;
  fc_limit : charged se ≤ peer_max_data se < 2 ^ 64 }.

Record send_side (ss : gmap Z SendStream) (used max : Z) : Prop := {
  sd_half : ∀ id se, ss !! id = Some se → send_fc se;
  sd_sum : msum (λ _ se, charged se) ss ≤ used;
  sd_used : used ≤ max < 2 ^ 64 }.

Lemma charged_nonneg se : send_fc se → 0 ≤ charged se.
Proof. intros [? _ _]. unfold charged. pose proof (zlen_nonneg (write_buf se)). lia. Qed.

Lemma sside_put ss used max id se se' dc : send_side ss used max → ss !! id = Some se →
  send_fc se' → charged se' ≤ charged se + dc → used + dc ≤ max →
  send_side (<[id := se']> ss) (used + dc) max.
Proof.
  intros [H1 H2 H3] Hse Hfc Hc Hu. split; [|..|lia].
  - intros i x. destruct (decide (i = id)) as [->|Hi]; [rewrite lookup_insert_eq; by intros [= <-]|].
    rewrite lookup_insert_ne by done. apply H1.
  - rewrite (msum_update (λ _ se, charged se) (λ _ se, charged se) _ _ se) by done. lia.
Qed.

Lemma sside_new ss used max id m : send_side ss used max → ss !! id = None → u64 m →
  send_side (<[id := send_new m]> ss) used max.
Proof.
  intros [H1 H2 H3] Hn [? ?]. split; try done.
  - intros i x. destruct (decide (i = id)) as [->|Hi].
    + rewrite lookup_insert_eq. intros [= <-]. split; try done. by intros c [?%elem_of_nil|?%elem_of_nil].
    + rewrite lookup_insert_ne by done. apply H1.
  - rewrite msum_insert by done. exact H2.
Qed.

Lemma sside_delete ss used max id : send_side ss used max → send_side (delete id ss) used max.
Proof.
  intros [H1 H2 H3]. split; try done.
  - intros i x [_ Hx]%lookup_delete_Some. by apply (H1 i).
  - pose proof (msum_delete_le (λ _ se, charged se) ss id
      ltac:(intros i x Hx; by apply charged_nonneg, (H1 i))). lia.
Qed.

(** ** What the operations do to one send half *)

(** The flow-control fields do not change, or the limit rises; the final size may be set. *)
Definition same_fc (se se' : SendStream) : Prop :=
  (ss_reset_code se' = ss_reset_code se
   ∧ (ss_fin_offset se' = ss_fin_offset se ∨ ss_fin_offset se' = Some (charged se))
   ∧ (offs se → offs se'))
  ∧ write_off se' = write_off se ∧ sent_offset se' = sent_offset se ∧ write_buf se' = write_buf se
  ∧ peer_max_data se ≤ peer_max_data se' < 2 ^ 64.

Lemma same_fc_ok se se' : send_fc se → same_fc se se' → send_fc se' ∧ charged se' = charged se.
Proof.
  intros [H1 H2 Hf Ho H3] ((R & F & O) & E1 & E2 & E3 & E4).
  assert (charged se' = charged se) as Hc by (unfold charged; by rewrite E1, E3).
  split; [|done]. split; rewrite ?Hc, ?R, ?E1, ?E2; try done; [|by apply O|lia].
  intros Hn f Hff. destruct F as [F|F]; rewrite F in Hff; [by apply Hf|congruence].
Qed.

(** The fields [same_fc] is about are all that matters. *)
Lemma same_fc_refl se se' : send_fc se → ss_reset_code se' = ss_reset_code se →
  ss_fin_offset se' = ss_fin_offset se → write_off se' = write_off se → sent_offset se' = sent_offset se →
  write_buf se' = write_buf se → peer_max_data se' = peer_max_data se → (offs se → offs se') → same_fc se se'.
Proof. unfold same_fc. intros [_ _ _ _ [_ ?]] -> -> -> -> -> -> Ho. split_and!; auto; lia. Qed.

Lemma offs_push se c : 0 ≤ c.1.1 → offs se → offs (push_sent se c).
Proof.
  intros Hc Ho. unfold push_sent. destruct (chunk_acked se c); [done|]. intros x. simpl.
  rewrite elem_of_app, list_elem_of_singleton. intros [?|[?| ->]]; [apply Ho; by left|apply Ho; by right|done].
Qed.

Lemma prune_subset sent fa ms me c : c ∈ prune_sorted_sent sent fa ms me → c ∈ sent.
Proof.
  unfold prune_sorted_sent. cbv zeta. destruct (forallb _ _).
  - rewrite elem_of_app. intros [?|?]; [by eapply subseteq_take|by eapply subseteq_drop].
  - by intros [_ ?]%list_elem_of_filter.
Qed.

Lemma offs_acked se o l f : offs se → offs (on_range_acked se o l f).
Proof.
  intros Ho c Hc. apply Ho. unfold on_range_acked in Hc. cbv zeta in Hc.
  match type of Hc with context [mkSendStream _ _ _ _ _ _ _ _ _ _ _ ?sent _ ?rtx _ _] =>
    assert (c ∈ rtx ∨ c ∈ sent) as Hc' by (revert Hc; destruct (_ && _ && _ && negb _); by simpl) end.
  clear Hc. destruct Hc' as [[_ Hc]%list_elem_of_filter|Hc]; [by left|right].
  destruct (_ && _ && _); [destruct (bt_last_le _ _) as [[ms me]|]; [by eapply prune_subset|done]|].
  by apply list_elem_of_filter in Hc as [_ ?].
Qed.

Lemma push_sent_fc se c : send_fc se → 0 ≤ c.1.1 → same_fc se (push_sent se c).
Proof.
  intros H Hc. pose proof (offs_push se c Hc). unfold push_sent in *.
  by destruct (chunk_acked se c); apply same_fc_refl.
Qed.

Lemma on_range_acked_fc se o l f : send_fc se → same_fc se (on_range_acked se o l f).
Proof.
  intros H. pose proof (offs_acked se o l f) as Ho.
  apply same_fc_refl; try done; unfold on_range_acked; by destruct (_ && _ && _ && _).
Qed.

Lemma on_range_lost_fc se o l f : send_fc se → same_fc se (on_range_lost se o l f).1.
Proof.
  intros H. apply same_fc_refl; try done. intros Ho c. simpl. rewrite elem_of_app, !list_elem_of_filter.
  intros [[?|[_ ?]]|[_ ?]]; apply Ho; tauto.
Qed.

Lemma requeue_all_fc se : send_fc se → same_fc se (requeue_all_sent se).
Proof.
  intros H. apply same_fc_refl; try done. intros Ho c. simpl. rewrite elem_of_app, list_elem_of_filter, elem_of_nil.
  intros [[?|[_ ?]]|[]]; apply Ho; tauto.
Qed.

Lemma finish_fc se : send_fc se → same_fc se (finish se).
Proof.
  intros H. unfold finish. destruct (ss_fin_offset se) eqn:E; [by apply same_fc_refl|].
  destruct H as [? ? ? ? [? ?]]. unfold same_fc. cbn [ss_reset_code ss_fin_offset write_off sent_offset write_buf
    peer_max_data]. split_and!; try done; try lia. right.
  pose proof (zlen_nonneg (write_buf se)). unfold wadd, charged in *. rewrite wrap_small by (unfold in_width; lia). done.
Qed.

Lemma max_stream_data_fc se l : send_fc se → u64 l → same_fc se (on_max_stream_data se l).
Proof.
  intros H [_ ?]. unfold on_max_stream_data.
  destruct (Z.ltb_spec (peer_max_data se) l); [|by apply same_fc_refl]. split_and!; simpl; auto; lia.
Qed.

Lemma pop_rtx_fc se id mp out se' out' r : send_fc se → pop_rtx_frame se id mp out = (se', out', r) →
  same_fc se se'.
Proof.
  intros Hfc Hp. unfold pop_rtx_frame in Hp.
  assert (∀ q c, (∀ x, x ∈ q → 0 ≤ x.1.1) → 0 ≤ c.1.1 →
    same_fc se (push_sent (set_queues (sent_chunks se) (sent_sorted se) q se) c)) as Hgo.
  { intros q c Hq Hc. assert (offs se → offs (push_sent (set_queues (sent_chunks se) (sent_sorted se) q se) c)) as Hof.
    { intros Ho. apply offs_push; [done|]. intros x [?|?]; [by apply Hq|apply Ho; by right]. }
    unfold push_sent in *. by destruct (chunk_acked _ c); apply same_fc_refl. }
  pose proof (fc_offs _ Hfc) as Ho. unfold offs in Ho.
  destruct (rtx_queue se) as [|[[o b] f] rest]; [injection Hp as <- _ _; by apply same_fc_refl|].
  assert (0 ≤ o ∧ ∀ x, x ∈ rest → 0 ≤ x.1.1) as [Ho1 Ho2].
  { split; [apply (Ho (o, b, f)); left; by left|]. intros x Hx. apply Ho. left. by right. }
  destruct (zlen b <=? mp); injection Hp as <- _ _; apply Hgo; try done.
  intros x [->|Hx]%elem_of_cons; [|by apply Ho2]. simpl. unfold wadd, wrap. apply Z.mod_pos_bound. lia.
Qed.

Lemma enter_reset_fc se code : send_fc se → send_fc (enter_reset se code) ∧ charged (enter_reset se code) ≤ charged se.
Proof.
  intros [? ? ? ? [? ?]]. pose proof (zlen_nonneg (write_buf se)).
  assert (charged (enter_reset se code) = write_off se) as E
    by (unfold charged; cbn [enter_reset write_off write_buf]; unfold zlen; simpl; lia).
  unfold charged in *. rewrite E. split; [|lia]. split; try done; [by intros c [?%elem_of_nil|?%elem_of_nil]|unfold charged; rewrite E; cbn; lia].
Qed.

Lemma enqueue_fc se d se' n : send_fc se → ss_fin_offset se = None → enqueue se d = (se', n) →
  send_fc se' ∧ charged se' = charged se + n ∧ 0 ≤ n ≤ zlen d.
Proof.
  intros Hfc Hfin He. pose proof Hfc as [H1 H2 Hf Ho H3]. pose proof (zlen_nonneg d).
  pose proof (zlen_nonneg (write_buf se)). unfold enqueue in He.
  assert (send_fc se ∧ charged se = charged se + 0 ∧ 0 ≤ 0 ≤ zlen d) as Hsame by (split_and!; [done|lia..]).
  destruct (ss_state se); try (injection He as <- <-; exact Hsame).
  all: cbv zeta in He; set (take := Z.min _ _) in He; destruct (Z.eqb_spec take 0); [by injection He as <- <-|].
  all: injection He as <- <-.
  all: assert (0 ≤ take ≤ zlen d ∧ charged se + take ≤ peer_max_data se) as [? ?]
    by (subst take; unfold available_credit, sat_sub, charged in *; lia).
  all: assert (zlen (ztake take d) = take) as Hz by (unfold zlen, ztake in *; rewrite length_take; lia).
  all: assert (charged (mkSendStream SendState.Send (write_buf se ++ ztake take d) (write_off se) (sent_offset se)
    (acked_offset se) (ss_fin_offset se) (fin_sent se) (peer_max_data se) (ss_reset_code se) (blocked_at se)
    (reset_pending se) (sent_chunks se) (sent_sorted se) (rtx_queue se) (acked_ranges se) (fin_acked se))
    = charged se + take) as Hc by (unfold charged; cbn; rewrite zlen_app; lia).
  all: split_and!; [split; cbn; rewrite ?Hfin; try done; rewrite <- ?Hfin, Hc; lia|done|lia|lia].
Qed.

Lemma carve_fc se id cap out se' out' r : send_fc se → 0 ≤ cap → carve_frame se id cap out = (se', out', r) →
  send_fc se' ∧ charged se' = charged se.
Proof.
  intros Hfc Hcap Hc. pose proof Hfc as [H1 H2 Hf Ho H3]. pose proof (zlen_nonneg (write_buf se)).
  unfold carve_frame in Hc. destruct (negb (has_outbound se)); [by injection Hc as <- _ _|]. cbv zeta in Hc.
  set (take := Z.min cap (zlen (write_buf se))) in Hc. unfold charged in *.
  assert (wadd 64 (write_off se) take = write_off se + take) as Hw
    by (unfold wadd; apply wrap_small; unfold in_width; lia). rewrite Hw in Hc.
  set (c := (write_off se, ztake take (write_buf se), _)) in Hc.
  match type of Hc with (push_sent ?m _, _, _) = _ => set (mid := m) in Hc end.
  injection Hc as <- _ _.
  assert (zlen (zdrop take (write_buf se)) = zlen (write_buf se) - take) as Hz
    by (unfold zlen, zdrop in *; rewrite length_drop; lia).
  assert (write_off mid + zlen (write_buf mid) = write_off se + zlen (write_buf se)) as Hm2 by (cbn; lia).
  assert (send_fc mid) as Hm1.
  { split; [cbn; lia|cbn| |exact Ho|unfold charged; rewrite Hm2; exact H3].
    - rewrite H2. destruct (Z.ltb_spec (write_off se) (write_off se + take)); lia.
    - intros Hn f Hff. unfold charged. rewrite Hm2. by apply Hf. }
  destruct (same_fc_ok mid (push_sent mid c) Hm1 (push_sent_fc _ c Hm1 H1)) as [? E]. unfold charged in E.
  by rewrite E, Hm2.
Qed.

(** * The ready queue *)

(** What a stream has to send: the triggers of [stream_needs_to_send], but for the FIN of
    a send half that has been reset. *)
Definition must_send (st : Stream) : bool :=
  match st_send st with
  | Some se => reset_pending se || negb (is_nil (rtx_queue se)) || negb (is_nil (write_buf se))
      || (is_some (ss_fin_offset se) && negb (fin_sent se) && negb (is_some (ss_reset_code se)))
      || is_some (blocked_at se)
  | None => false
  end ||
  match st_recv st with
  | Some r => rs_max_data_pending r || is_some (rs_stop_sending_pending r)
  | None => false
  end.

Lemma must_needs st : must_send st = true → stream_needs_to_send st = true.
Proof.
  unfold must_send, stream_needs_to_send, has_outbound. destruct (st_send st) as [se|]; [|done].
  destruct (ss_fin_offset se), (ss_reset_code se), (fin_sent se), (reset_pending se), (rtx_queue se),
    (write_buf se), (blocked_at se); simpl; done || (intros ->; done).
Qed.

(** The queue has no duplicates, mirrors the set, and holds every stream with something
    to send, but for the streams of [exempt]. *)
Record queue_side (exempt : Z → Prop) (m : gmap Z Stream) (q : list Z) (set : gset Z) : Prop := {
  qs_nodup : NoDup q;
  qs_set : ∀ id, id ∈ set ↔ id ∈ q;
  qs_wake : ∀ id st, m !! id = Some st → must_send st = true → id ∈ q ∨ exempt id }.

(** * Open streams *)

Lemma land_bit0 x : Z.land x 1 = x mod 2.
Proof. apply (Z.land_ones x 1). lia. Qed.

Lemma land_bit1 x : Z.land x 2 = 2 * ((x / 2) mod 2).
Proof.
  replace (2 * ((x / 2) mod 2)) with (Z.shiftl (Z.land (Z.shiftr x 1) 1) 1)
    by (rewrite Z.shiftl_mul_pow2, land_bit0, Z.shiftr_div_pow2 by lia; change (2 ^ 1) with 2; lia).
  apply Z.bits_inj'. intros i Hi. rewrite Z.land_spec, Z.shiftl_spec, Z.land_spec by lia.
  destruct (Z.eq_dec i 1) as [->|Hne]; [by rewrite Z.shiftr_spec by lia|].
  assert (Z.testbit 2 i = false) as -> by (apply (Z.pow2_bits_false 1); lia). rewrite andb_false_r.
  assert (Z.testbit 1 (i - 1) = false) as -> by (apply (Z.pow2_bits_false 0); lia).
  by rewrite andb_false_r.
Qed.

(** The initiator, the direction and the ordinal determine the identifier. *)
Lemma id_inj id id' : 0 ≤ id → 0 ≤ id' → is_server_initiated id = is_server_initiated id' →
  is_bidi id = is_bidi id' → id / 4 = id' / 4 → id = id'.
Proof.
  unfold is_server_initiated, is_bidi. rewrite !land_bit0, !land_bit1. intros H0 H0' H1 H2 H4.
  assert (id mod 2 = id' mod 2).
  { destruct (Z.eqb_spec (id mod 2) 1), (Z.eqb_spec (id' mod 2) 1); try done; Z.to_euclidean_division_equations; lia. }
  assert ((id / 2) mod 2 = (id' / 2) mod 2).
  { destruct (Z.eqb_spec (2 * ((id / 2) mod 2)) 0), (Z.eqb_spec (2 * ((id' / 2) mod 2)) 0); try done; Z.to_euclidean_division_equations; lia. }
  Z.to_euclidean_division_equations; lia.
Qed.

Definition peer_id (r : Role) (b : bool) (id : Z) : bool :=
  match r with Client => is_server_initiated id | Server => is_client_initiated id end
  && bool_decide (is_bidi id = b).

Lemma client_server id : is_client_initiated id = negb (is_server_initiated id).
Proof.
  unfold is_client_initiated, is_server_initiated. rewrite land_bit0.
  destruct (Z.eqb_spec (id mod 2) 0), (Z.eqb_spec (id mod 2) 1); try done; Z.to_euclidean_division_equations; lia.
Qed.

Lemma peer_id_inj r b id id' : 0 ≤ id → 0 ≤ id' → peer_id r b id = true → peer_id r b id' = true →
  id / 4 = id' / 4 → id = id'.
Proof.
  unfold peer_id. intros H0 H0' [H1 H2%bool_decide_eq_true]%andb_true_iff [H1' H2'%bool_decide_eq_true]%andb_true_iff H4.
  apply id_inj; try done; [|congruence]. destruct r; rewrite ?client_server in *; [congruence|].
  by destruct (is_server_initiated id), (is_server_initiated id').
Qed.

(** The live streams of one direction the peer initiated. *)
Definition live_ids (r : Role) (b : bool) (m : gmap Z Stream) : gset Z :=
  filter (λ id, peer_id r b id = true) (dom m).

(** Ordinals below [used] are open: live, only implicitly open, or closed. *)
Record dir_side (live implicit : gset Z) (used closed self_max window : Z) : Prop := {
  dr_live : ∀ id, id ∈ live → 0 ≤ id ∧ id / 4 < used ∧ id / 4 ∉ implicit;
  dr_implicit : ∀ o, o ∈ implicit → 0 ≤ o < used;
  dr_count : Z.of_nat (size live) + Z.of_nat (size implicit) + closed = used;
  dr_used : used ≤ self_max;
  dr_limit : self_max ≤ closed + window ∧ self_max ≤ MAX_STREAMS_LIMIT;
  dr_closed : 0 ≤ closed ∧ 0 ≤ window < 2 ^ 64 }.

Lemma elem_live r b m id : id ∈ live_ids r b m ↔ peer_id r b id = true ∧ is_Some (m !! id).
Proof. unfold live_ids. by rewrite elem_of_filter, elem_of_dom. Qed.

Lemma live_insert_some r b m id st : is_Some (m !! id) → live_ids r b (<[id := st]> m) = live_ids r b m.
Proof.
  intros Hs. apply set_eq. intros i. rewrite !elem_live. destruct (decide (i = id)) as [->|].
  - rewrite lookup_insert_eq. naive_solver.
  - by rewrite lookup_insert_ne.
Qed.

Lemma live_insert_other r b m id st : peer_id r b id = false → live_ids r b (<[id := st]> m) = live_ids r b m.
Proof.
  intros Hp. apply set_eq. intros i. rewrite !elem_live. destruct (decide (i = id)) as [->|].
  - rewrite Hp. split; by intros [? _].
  - by rewrite lookup_insert_ne.
Qed.

Lemma live_insert_new r b m id st : peer_id r b id = true →
  live_ids r b (<[id := st]> m) = {[id]} ∪ live_ids r b m.
Proof.
  intros Hp. apply set_eq. intros i. rewrite elem_of_union, elem_of_singleton, !elem_live.
  destruct (decide (i = id)) as [->|]; [rewrite lookup_insert_eq; naive_solver|].
  rewrite lookup_insert_ne by done. naive_solver.
Qed.

Lemma live_delete_other r b m id : peer_id r b id = false → live_ids r b (delete id m) = live_ids r b m.
Proof.
  intros Hp. apply set_eq. intros i. rewrite !elem_live. destruct (decide (i = id)) as [->|].
  - rewrite Hp. split; by intros [? _].
  - by rewrite lookup_delete_ne.
Qed.

Lemma live_delete_in r b m id : live_ids r b (delete id m) = live_ids r b m ∖ {[id]}.
Proof.
  apply set_eq. intros i. rewrite elem_of_difference, not_elem_of_singleton, !elem_live.
  destruct (decide (i = id)) as [->|].
  - rewrite lookup_delete_eq. split; [intros [_ [? ?]]; done|tauto].
  - rewrite lookup_delete_ne by done. tauto.
Qed.

Lemma elem_range lo hi x : x ∈ range_set lo hi ↔ lo ≤ x < hi.
Proof. unfold range_set. rewrite elem_of_list_to_set, elem_of_seqZ. lia. Qed.

Lemma size_range lo hi : lo ≤ hi → Z.of_nat (size (range_set lo hi)) = hi - lo.
Proof. intros. unfold range_set. rewrite size_list_to_set by apply NoDup_seqZ. rewrite length_seqZ. lia. Qed.

(** The peer opens the stream [id], new or so far only implicitly open. *)
Lemma dside_open live implicit used closed self_max window id :
  dir_side live implicit used closed self_max window → 0 ≤ id → id ∉ live →
  used ≤ id / 4 ∨ id / 4 ∈ implicit → Z.max used (id / 4 + 1) ≤ self_max →
  dir_side ({[id]} ∪ live) ((implicit ∪ range_set (Z.min used (id / 4)) (id / 4)) ∖ {[id / 4]})
    (Z.max used (id / 4 + 1)) closed self_max window.
Proof.
  intros [H1 H2 H3 H4 H5 H6] Hid Hnl Hor Hmax. set (o := id / 4) in *.
  assert (0 ≤ o) by (unfold o; apply Z.div_pos; lia).
  split; try done; [| |].
  - intros i [->%elem_of_singleton|Hi]%elem_of_union; [split_and!; [done|fold o; lia|set_solver]|].
    destruct (H1 i Hi) as (? & ? & ?). split_and!; [done|lia|].
    rewrite elem_of_difference, elem_of_union, elem_range. intros [[?|?] _]; [done|lia].
  - intros x. rewrite elem_of_difference, elem_of_union, elem_range. intros [[Hx|?] _]; [specialize (H2 x Hx)|]; lia.
  - rewrite size_union by set_solver. rewrite size_singleton.
    destruct (Z.le_gt_cases used o) as [Hge|Hlt].
    + rewrite Z.min_l by done.
      assert ((implicit ∪ range_set used o) ∖ {[o]} = implicit ∪ range_set used o) as ->.
      { apply set_eq. intros x. rewrite elem_of_difference, elem_of_union, elem_of_singleton, elem_range.
        split; [tauto|]. intros Hx. split; [done|]. intros ->. destruct Hx as [Hx|?]; [specialize (H2 o Hx)|]; lia. }
      rewrite size_union by (intros x Hx ?%elem_range; specialize (H2 x Hx); lia).
      pose proof (size_range used o Hge). lia.
    + destruct Hor as [?|Hin]; [lia|]. rewrite Z.min_r by lia.
      assert ((implicit ∪ range_set o o) ∖ {[o]} = implicit ∖ {[o]}) as ->.
      { apply set_eq. intros x. rewrite !elem_of_difference, elem_of_union, elem_range. split; [|tauto].
        intros [[?|?] ?]; [done|lia]. }
      rewrite size_difference by set_solver. rewrite size_singleton.
      assert (size implicit ≠ 0%nat) by (intros E%size_empty_inv; set_solver). lia.
Qed.

Lemma dside_close live implicit used closed self_max window id :
  dir_side live implicit used closed self_max window → id ∈ live →
  dir_side (live ∖ {[id]}) implicit used (closed + 1) self_max window.
Proof.
  intros [H1 H2 H3 H4 H5 H6] Hid. split; try done; try lia.
  - intros i [Hi _]%elem_of_difference. by apply H1.
  - rewrite size_difference by set_solver. rewrite size_singleton.
    assert (size live ≠ 0%nat) by (intros E%size_empty_inv; set_solver). lia.
Qed.

Lemma dside_grant live implicit used closed self_max window m :
  dir_side live implicit used closed self_max window → self_max ≤ m ≤ closed + window →
  m ≤ MAX_STREAMS_LIMIT → dir_side live implicit used closed m window.
Proof. intros [H1 H2 H3 H4 H5 H6] ? ?. split; try done; lia. Qed.

(** * Our own streams *)

Definition local_id (r : Role) (b : bool) (id : Z) : bool :=
  negb (match r with Client => is_server_initiated id | Server => is_client_initiated id end)
  && bool_decide (is_bidi id = b).
Definition local_base (r : Role) (b : bool) : Z :=
  match r with Client => 0 | Server => 1 end + (if b then 0 else 2).

(** Identifiers are handed out in steps of four, within the peer's limit. *)
Record local_side (m : gmap Z Stream) (r : Role) (b : bool) (next opened peer_max : Z) : Prop := {
  lc_next : next = local_base r b + 4 * opened;
  lc_opened : 0 ≤ opened ≤ peer_max;
  lc_limit : peer_max ≤ MAX_STREAMS_LIMIT;
  lc_below : ∀ id, is_Some (m !! id) → local_id r b id = true → id < next }.

Lemma id_bits k c : 0 ≤ c < 4 → (c + 4 * k) mod 2 = c mod 2 ∧ ((c + 4 * k) / 2) mod 2 = (c / 2) mod 2.
Proof. intros. Z.to_euclidean_division_equations. lia. Qed.

Lemma local_id_next r b k : local_id r b (local_base r b + 4 * k) = true
  ∧ (∀ b', peer_id r b' (local_base r b + 4 * k) = false)
  ∧ local_id r (negb b) (local_base r b + 4 * k) = false.
Proof.
  assert (0 ≤ local_base r b < 4) as Hb by (unfold local_base; destruct r, b; lia).
  destruct (id_bits k (local_base r b) Hb) as [E1 E2].
  unfold local_id, peer_id, is_server_initiated, is_client_initiated, is_bidi.
  rewrite land_bit0, land_bit1, E1, E2. destruct r, b; vm_compute; split_and!; try done; by intros [].
Qed.

Lemma local_peer r b id : local_id r b id = true → ∀ b', peer_id r b' id = false.
Proof.
  unfold local_id, peer_id. intros [H%negb_true_iff _]%andb_true_iff b'. by rewrite H.
Qed.

(** * The table *)

(** The limits of the transport parameters. *)
Record config_ok (s : Streams) : Prop := {
  cf_peer_bl : u64 (peer_initial_max_stream_data_bidi_local s);
  cf_peer_br : u64 (peer_initial_max_stream_data_bidi_remote s);
  cf_peer_u : u64 (peer_initial_max_stream_data_uni s);
  cf_self_bl : u64 (self_initial_max_stream_data_bidi_local s);
  cf_self_br : u64 (self_initial_max_stream_data_bidi_remote s);
  cf_self_u : u64 (self_initial_max_stream_data_uni s) }.

Record streams_inv (exempt : Z → Prop) (s : Streams) : Prop := {
  iv_recv : recv_side (recvs s) (stream_high_offset s) (conn_recv_used s) (conn_recv_max s)
              (conn_recv_window s) (conn_consumed s);
  iv_send : send_side (sends s) (conn_send_used s) (conn_send_max s);
  iv_queue : queue_side exempt (streams_map s) (ready_to_send s) (ready_set s);
  iv_bidi : dir_side (live_ids (role s) true (streams_map s)) (implicit_open_bidi s)
              (peer_bidi_used s) (peer_bidi_closed s) (self_max_bidi s) (self_max_bidi_window s);
  iv_uni : dir_side (live_ids (role s) false (streams_map s)) (implicit_open_uni s)
             (peer_uni_used s) (peer_uni_closed s) (self_max_uni s) (self_max_uni_window s);
  iv_local_bidi : local_side (streams_map s) (role s) true (next_local_bidi s) (opened_local_bidi s)
                    (peer_max_bidi s);
  iv_local_uni : local_side (streams_map s) (role s) false (next_local_uni s) (opened_local_uni s)
                   (peer_max_uni s);
  iv_ids : ∀ id, is_Some (streams_map s !! id) → 0 ≤ id;
  iv_retired : Z.of_nat (size (retired_final_size s)) ≤ RETIRED_FINAL_SIZES;
  iv_config : config_ok s }.

Abbreviation inv := (streams_inv (λ _, False)).
Abbreviation inv_but id := (streams_inv (λ i, i = id)).

Lemma inv_weaken (P Q : Z → Prop) s : (∀ i, P i → Q i) → streams_inv P s → streams_inv Q s.
Proof.
  intros HPQ []. split; try done. destruct iv_queue0 as [? ? Hw]. split; try done.
  intros id st Hst Hn. destruct (Hw id st Hst Hn); eauto.
Qed.

(** ** Changing one stream *)

Lemma omap_put_same {A B} (f : A → option B) (m : gmap Z A) id st st' :
  m !! id = Some st → f st' = f st → omap f (<[id := st']> m) = omap f m.
Proof.
  intros Hst Hf. apply map_eq. intros i. rewrite !lookup_omap. destruct (decide (i = id)) as [->|].
  - by rewrite lookup_insert_eq, Hst.
  - by rewrite lookup_insert_ne.
Qed.

Lemma omap_put_some {A B} (f : A → option B) (m : gmap Z A) id st x :
  f st = Some x → omap f (<[id := st]> m) = <[id := x]> (omap f m).
Proof. intros Hf. by rewrite (omap_insert_Some _ _ _ _ x). Qed.

Lemma omap_put_none {A B} (f : A → option B) (m : gmap Z A) id st :
  m !! id = None → f st = None → omap f (<[id := st]> m) = omap f m.
Proof.
  intros Hm Hf. apply map_eq. intros i. rewrite !lookup_omap. destruct (decide (i = id)) as [->|].
  - by rewrite lookup_insert_eq, Hm.
  - by rewrite lookup_insert_ne.
Qed.

Lemma get_send_Some s id st se : get_send s id = Some (st, se) ↔
  streams_map s !! id = Some st ∧ st_send st = Some se.
Proof.
  unfold get_send. destruct (streams_map s !! id) as [st'|]; simpl; [|naive_solver].
  destruct (st_send st') eqn:E; simpl; naive_solver.
Qed.

Lemma get_recv_Some s id st r : get_recv s id = Some (st, r) ↔
  streams_map s !! id = Some st ∧ st_recv st = Some r.
Proof.
  unfold get_recv. destruct (streams_map s !! id) as [st'|]; simpl; [|naive_solver].
  destruct (st_recv st') eqn:E; simpl; naive_solver.
Qed.

Lemma sends_lookup s id st : streams_map s !! id = Some st → sends s !! id = st_send st.
Proof. intros Hst. unfold sends. by rewrite lookup_omap, Hst. Qed.
Lemma recvs_lookup s id st : streams_map s !! id = Some st → recvs s !! id = st_recv st.
Proof. intros Hst. unfold recvs. by rewrite lookup_omap, Hst. Qed.

(** Fields other than the map and the two flow-control sides are as they were. *)
Definition same_rest (s s' : Streams) : Prop :=
  ready_to_send s' = ready_to_send s ∧ ready_set s' = ready_set s ∧ role s' = role s
  ∧ implicit_open_bidi s' = implicit_open_bidi s ∧ implicit_open_uni s' = implicit_open_uni s
  ∧ (peer_bidi_used s', peer_bidi_closed s', self_max_bidi s', self_max_bidi_window s')
    = (peer_bidi_used s, peer_bidi_closed s, self_max_bidi s, self_max_bidi_window s)
  ∧ (peer_uni_used s', peer_uni_closed s', self_max_uni s', self_max_uni_window s')
    = (peer_uni_used s, peer_uni_closed s, self_max_uni s, self_max_uni_window s)
  ∧ (next_local_bidi s', opened_local_bidi s', peer_max_bidi s')
    = (next_local_bidi s, opened_local_bidi s, peer_max_bidi s)
  ∧ (next_local_uni s', opened_local_uni s', peer_max_uni s')
    = (next_local_uni s, opened_local_uni s, peer_max_uni s)
  ∧ retired_final_size s' = retired_final_size s
  ∧ (peer_initial_max_stream_data_bidi_local s', peer_initial_max_stream_data_bidi_remote s',
     peer_initial_max_stream_data_uni s')
    = (peer_initial_max_stream_data_bidi_local s, peer_initial_max_stream_data_bidi_remote s,
       peer_initial_max_stream_data_uni s)
  ∧ (self_initial_max_stream_data_bidi_local s', self_initial_max_stream_data_bidi_remote s',
     self_initial_max_stream_data_uni s')
    = (self_initial_max_stream_data_bidi_local s, self_initial_max_stream_data_bidi_remote s,
       self_initial_max_stream_data_uni s).

Abbreviation recv_ok s := (recv_side (recvs s) (stream_high_offset s) (conn_recv_used s)
  (conn_recv_max s) (conn_recv_window s) (conn_consumed s)).
Abbreviation send_ok s := (send_side (sends s) (conn_send_used s) (conn_send_max s)).

Lemma inv_put (P P' : Z → Prop) s s' id st st' : streams_inv P s → streams_map s !! id = Some st →
  streams_map s' = <[id := st']> (streams_map s) → same_rest s s' → recv_ok s' → send_ok s' →
  (∀ i, i ≠ id → P i → P' i) → (must_send st' = true → id ∈ ready_to_send s ∨ P' id) →
  streams_inv P' s'.
Proof.
  intros [_ _ [Q1 Q2 Q3] Hb Hu [L1 L2 L3 L4] [U1 U2 U3 U4] Hids Hret [C1 C2 C3 C4 C5 C6]] Hst Hm Hr Hrecv Hsend HP Hw.
  destruct Hr as (E1 & E2 & E3 & E4 & E5 & [= E6 E7 E8 E9] & [= E10 E11 E12 E13] & [= E14 E15 E16]
    & [= E17 E18 E19] & E20 & [= E21 E22 E23] & [= E24 E25 E26]).
  assert (∀ i, is_Some (streams_map s' !! i) ↔ is_Some (streams_map s !! i)) as Hdom.
  { intros i. rewrite Hm. destruct (decide (i = id)) as [->|]; [rewrite lookup_insert_eq, Hst; by eauto|].
    by rewrite lookup_insert_ne. }
  split; try done.
  - rewrite E1, E2. split; try done. intros i x. rewrite Hm. destruct (decide (i = id)) as [->|].
    + rewrite lookup_insert_eq. intros [= <-]. exact Hw.
    + rewrite lookup_insert_ne by done. intros Hx Hn. destruct (Q3 i x Hx Hn); [by left|right; by apply HP].
  - by rewrite E3, Hm, live_insert_some, E4, E6, E7, E8, E9 by eauto.
  - by rewrite E3, Hm, live_insert_some, E5, E10, E11, E12, E13 by eauto.
  - rewrite E3, E14, E15, E16. split; try done. intros i Hi. apply L4. by apply Hdom.
  - rewrite E3, E17, E18, E19. split; try done. intros i Hi. apply U4. by apply Hdom.
  - intros i Hi. by apply Hids, Hdom.
  - by rewrite E20.
  - split; rewrite ?E21, ?E22, ?E23, ?E24, ?E25, ?E26; done.
Qed.

(** No stream changes. *)
Lemma inv_rest (P : Z → Prop) s s' : streams_inv P s → streams_map s' = streams_map s →
  same_rest s s' → recv_ok s' → send_ok s' → streams_inv P s'.
Proof.
  intros [_ _ Hq Hb Hu Hl Hl' Hids Hret [C1 C2 C3 C4 C5 C6]] Hm Hr Hrecv Hsend.
  destruct Hr as (E1 & E2 & E3 & E4 & E5 & [= E6 E7 E8 E9] & [= E10 E11 E12 E13] & [= E14 E15 E16]
    & [= E17 E18 E19] & E20 & [= E21 E22 E23] & [= E24 E25 E26]).
  split; try done; rewrite ?Hm, ?E1, ?E2, ?E3, ?E4, ?E5, ?E6, ?E7, ?E8, ?E9, ?E10, ?E11, ?E12, ?E13, ?E14,
    ?E15, ?E16, ?E17, ?E18, ?E19, ?E20; try done.
  split; rewrite ?E21, ?E22, ?E23, ?E24, ?E25, ?E26; done.
Qed.

Lemma enqueue_ready_inv id s : inv_but id s → inv (enqueue_ready s id).
Proof.
  intros [? ? [Q1 Q2 Q3] ? ? ? ? ? ? []]. unfold enqueue_ready. case_bool_decide as Hin.
  - split; try done. split; try done. intros i st Hi Hn. left.
    destruct (Q3 i st Hi Hn) as [?| ->]; [done|by apply Q2].
  - split; try done. cbn [update ready_to_send ready_set streams_map]. split.
    + apply NoDup_app. split_and!; [done| |apply NoDup_singleton].
      intros x Hx ->%list_elem_of_singleton. by apply Hin, Q2.
    + intros i. rewrite elem_of_union, elem_of_singleton, elem_of_app, list_elem_of_singleton, Q2. tauto.
    + intros i st Hi Hn. left. rewrite elem_of_app, list_elem_of_singleton.
      destruct (Q3 i st Hi Hn); [by left|by right].
Qed.

Lemma inv_refl_but id s : inv s → inv_but id s.
Proof. apply inv_weaken. done. Qed.

(** A send half changes: [dc] more bytes are charged. *)
Lemma put_send_inv (P' : Z → Prop) s id st se se' dc : inv s → get_send s id = Some (st, se) →
  send_fc se' → charged se' ≤ charged se + dc → conn_send_used s + dc ≤ conn_send_max s →
  (must_send (st <| st_send := Some se' |>) = true → id ∈ ready_to_send s ∨ P' id) →
  streams_inv P' ((put_send s id st se') <| conn_send_used := conn_send_used s + dc |>).
Proof.
  intros Hi [Hst Hse]%get_send_Some Hfc Hc Hu Hw.
  eapply (inv_put (λ _, False) P' s _ id st (st <| st_send := Some se' |>)); try done; cbn.
  - unfold recvs. cbn. rewrite (omap_put_same st_recv _ id st) by done. apply Hi.
  - unfold sends. cbn. rewrite (omap_put_some st_send _ id _ se') by done.
    eapply sside_put; [exact (iv_send _ _ Hi)|exact (eq_trans (sends_lookup s id st Hst) Hse)|done|done|lia].
Qed.

(** Its flow-control fields stay, or only its limit rises. *)
Lemma put_send_same (P' : Z → Prop) s id st se se' : inv s → get_send s id = Some (st, se) →
  send_fc se' → charged se' ≤ charged se →
  (must_send (st <| st_send := Some se' |>) = true → id ∈ ready_to_send s ∨ P' id) →
  streams_inv P' (put_send s id st se').
Proof.
  intros Hi Hg Hfc Hc Hw. pose proof (put_send_inv P' s id st se se' 0 Hi Hg Hfc ltac:(lia)
    ltac:(pose proof (sd_used _ _ _ (iv_send _ _ Hi)); lia) Hw) as H.
  rewrite Z.add_0_r in H. exact H.
Qed.

Lemma get_send_fc s id st se : inv s → get_send s id = Some (st, se) → send_fc se.
Proof.
  intros Hi [Hst Hse]%get_send_Some. apply (sd_half _ _ _ (iv_send _ _ Hi) id).
  by rewrite (sends_lookup s id st).
Qed.

Lemma get_recv_half s id st r : inv s → get_recv s id = Some (st, r) → half_ok (high_of (stream_high_offset s) id) r.
Proof.
  intros Hi [Hst Hr]%get_recv_Some. apply (rv_half _ _ _ _ _ _ (iv_recv _ _ Hi) id).
  by rewrite (recvs_lookup s id st).
Qed.

(** A receive half changes: its mark moves to [hv], its credit by [dc]. *)
Lemma put_recv_inv (P' : Z → Prop) s s' id st r r' hv dc : inv s → get_recv s id = Some (st, r) →
  streams_map s' = <[id := st <| st_recv := Some r' |>]> (streams_map s) → same_rest s s' →
  sends s' = sends s → (conn_send_used s', conn_send_max s') = (conn_send_used s, conn_send_max s) →
  half_ok hv r' → high_of (stream_high_offset s') id = hv →
  (∀ i, i ≠ id → stream_high_offset s' !! i = stream_high_offset s !! i) →
  high_of (stream_high_offset s) id ≤ hv → rs_conn_fc_credited r' = rs_conn_fc_credited r + dc → 0 ≤ dc →
  conn_recv_used s + (hv - high_of (stream_high_offset s) id) ≤ conn_recv_max s →
  conn_recv_used s' = conn_recv_used s + (hv - high_of (stream_high_offset s) id) →
  (conn_recv_max s', conn_recv_window s') = (conn_recv_max s, conn_recv_window s) →
  conn_consumed s' = conn_consumed s + dc →
  (must_send (st <| st_recv := Some r' |>) = true → id ∈ ready_to_send s ∨ P' id) →
  streams_inv P' s'.
Proof.
  intros Hi [Hst Hr]%get_recv_Some Hm Hrest Hs [= E1 E2] Hh Hv Hne Hle Hc Hdc Hu Hu' [= E3 E4] Hco Hw.
  eapply (inv_put (λ _, False) P' s s' id st _); try done.
  - assert (recvs s' = <[id := r']> (recvs s)) as ->.
    { unfold recvs. rewrite Hm. by apply omap_put_some. }
    rewrite Hu', E3, E4, Hco. eapply rside_put; try done; [apply Hi|by rewrite (recvs_lookup s id st)].
  - rewrite Hs, E1, E2. apply Hi.
Qed.

Lemma sends_put_recv s id st r : streams_map s !! id = Some st → sends (put_recv s id st r) = sends s.
Proof. intros Hst. unfold sends, put_recv, put_stream. cbn. by apply (omap_put_same st_send _ id st). Qed.

(** The flags of a receive half change. *)
Lemma put_recv_flags (P' : Z → Prop) s id st r r' : inv s → get_recv s id = Some (st, r) →
  half_ok (high_of (stream_high_offset s) id) r' → rs_conn_fc_credited r' = rs_conn_fc_credited r →
  (must_send (st <| st_recv := Some r' |>) = true → id ∈ ready_to_send s ∨ P' id) →
  streams_inv P' (put_recv s id st r').
Proof.
  intros Hi Hg Hh Hc Hw. pose proof Hg as [Hst _]%get_recv_Some.
  pose proof (rv_used _ _ _ _ _ _ (iv_recv _ _ Hi)).
  eapply (put_recv_inv P' s _ id st r r' _ 0); try done; cbn; try lia.
  by apply sends_put_recv.
Qed.

(** ** Credit *)

Lemma rside_grant rs h used max window consumed m : recv_side rs h used max window consumed →
  max ≤ m ≤ consumed + window → m < 2 ^ 64 → recv_side rs h used m window consumed.
Proof. intros [H1 H2 H3 H4 H5 H6 H7] ? ?. split; try done; lia. Qed.

Lemma maybe_replenish_conn_inv P s : streams_inv P s → streams_inv P (maybe_replenish_conn s).
Proof.
  intros Hi. unfold maybe_replenish_conn. cbv zeta. destruct (_ =? 0); [done|].
  destruct (_ <? wadd _ _ _); [|done].
  destruct (Z.ltb_spec (conn_recv_max s) (sat_add 64 (conn_consumed s) (conn_recv_window s))) as [Hlt|]; [|done].
  eapply (inv_rest P s); try done; cbn; [|apply Hi].
  unfold sat_add in *. eapply rside_grant; [exact (iv_recv _ _ Hi)|lia|lia].
Qed.

Lemma refresh_readable_inv P s id : streams_inv P s → streams_inv P (refresh_readable s id).
Proof. intros Hi. by eapply (inv_rest P s); try done; apply Hi. Qed.

Lemma maybe_replenish_streams_inv P s b : streams_inv P s → streams_inv P (maybe_replenish_streams s b).
Proof.
  intros Hi. unfold maybe_replenish_streams. destruct b; cbv zeta.
  - destruct (_ =? 0); [done|]. destruct (_ <=? _); [done|].
    destruct (Z.ltb_spec (self_max_bidi s)
      (Z.min (sat_add 64 (peer_bidi_closed s) (self_max_bidi_window s)) MAX_STREAMS_LIMIT)); [|done].
    destruct Hi as [? ? ? Hb ? ? ? ? ? []]. split; try done. cbn. unfold sat_add in *.
    eapply dside_grant; [exact Hb|lia|lia].
  - destruct (_ =? 0); [done|]. destruct (_ <=? _); [done|].
    destruct (Z.ltb_spec (self_max_uni s)
      (Z.min (sat_add 64 (peer_uni_closed s) (self_max_uni_window s)) MAX_STREAMS_LIMIT)); [|done].
    destruct Hi as [? ? ? ? Hu ? ? ? ? []]. split; try done. cbn. unfold sat_add in *.
    eapply dside_grant; [exact Hu|lia|lia].
Qed.

(** ** Retirement *)

Lemma keys_elem {A} (m : gmap Z A) k : k ∈ keys m ↔ is_Some (m !! k).
Proof. unfold keys. by rewrite merge_sort_Permutation, elem_of_elements, elem_of_dom. Qed.

Lemma pop_first_size {A} (m : gmap Z A) : size (pop_first m) = (size m - 1)%nat.
Proof.
  unfold pop_first, first_key. destruct (keys m) as [|k l] eqn:E; simpl.
  - assert (m = ∅) as ->; [|by rewrite map_size_empty]. apply map_empty. intros i.
    destruct (m !! i) eqn:Ei; [|done]. assert (i ∈ keys m) as Hk by (apply keys_elem; eauto).
    rewrite E in Hk. by apply elem_of_nil in Hk.
  - assert (is_Some (m !! k)) as [v Hv] by (apply keys_elem; rewrite E; left).
    rewrite map_size_delete, Hv. simpl. lia.
Qed.

Lemma evict_size fuel : ∀ m, Z.of_nat (size m) ≤ RETIRED_FINAL_SIZES + Z.of_nat fuel →
  Z.of_nat (size (evict fuel m)) ≤ RETIRED_FINAL_SIZES.
Proof.
  induction fuel as [|fuel IH]; intros m Hm; cbn [evict]; [lia|].
  destruct (Z.ltb_spec RETIRED_FINAL_SIZES (Z.of_nat (size m))); [|lia].
  apply IH. rewrite pop_first_size. unfold RETIRED_FINAL_SIZES in *. lia.
Qed.

Lemma peer_initiated_id s id : is_peer_initiated s id = true → peer_id (role s) (is_bidi id) id = true.
Proof.
  unfold is_peer_initiated, peer_id. intros H. rewrite H. simpl. by apply bool_decide_eq_true_2.
Qed.

Lemma peer_id_other r b id : is_bidi id ≠ b → peer_id r b id = false.
Proof. intros H. unfold peer_id. rewrite bool_decide_eq_false_2 by done. apply andb_false_r. Qed.

Lemma retire_queue P s id : queue_side P (streams_map s) (ready_to_send s) (ready_set s) →
  queue_side P (delete id (streams_map s)) (filter (λ q, q ≠ id) (ready_to_send s)) (ready_set s ∖ {[id]}).
Proof.
  intros [Q1 Q2 Q3]. split.
  - by apply NoDup_filter.
  - intros i. rewrite elem_of_difference, not_elem_of_singleton, list_elem_of_filter, Q2. tauto.
  - intros i st [Hne Hi]%lookup_delete_Some Hn. rewrite list_elem_of_filter. destruct (Q3 i st Hi Hn); auto.
Qed.

Lemma filter_not_in (q : list Z) id : id ∉ q → filter (λ x, x ≠ id) q = q.
Proof.
  intros H. apply filter_all. apply Forall_forall. intros x Hx ->. done.
Qed.

Lemma retire_fields P s id high : streams_inv P s → is_Some (streams_map s !! id) →
  let s' := retire s id high in
  streams_map s' = delete id (streams_map s) ∧ queue_side P (streams_map s') (ready_to_send s') (ready_set s')
  ∧ recv_ok s' ∧ send_ok s' ∧ Z.of_nat (size (retired_final_size s')) ≤ RETIRED_FINAL_SIZES.
Proof.
  intros Hi Hid s'. pose proof (retire_queue P s id (iv_queue _ _ Hi)) as Hq.
  assert (Z.of_nat (size (evict (size (<[id := high]> (retired_final_size s))) (<[id := high]> (retired_final_size s))))
    ≤ RETIRED_FINAL_SIZES) as Hev by (apply evict_size; unfold RETIRED_FINAL_SIZES; lia).
  pose proof (rside_delete _ _ _ _ _ _ id (iv_recv _ _ Hi)) as Hr.
  pose proof (sside_delete _ _ _ id (iv_send _ _ Hi)) as Hs.
  assert (delete id (recvs s) = omap st_recv (delete id (streams_map s))) as E1
    by (unfold recvs; symmetry; apply omap_delete).
  assert (delete id (sends s) = omap st_send (delete id (streams_map s))) as E2
    by (unfold sends; symmetry; apply omap_delete).
  rewrite E1 in Hr. rewrite E2 in Hs.
  unfold s', retire. cbv zeta. case_bool_decide as Hin; [by split_and!|].
  change (id ∉ ready_set s) in Hin. split_and!; try done.
  destruct (iv_queue _ _ Hi) as [R1 R2 R3]. split; try done.
  intros i st Hst. change (delete id (streams_map s) !! i = Some st) in Hst.
  apply lookup_delete_Some in Hst as [_ Hst]. by apply R3.
Qed.

Lemma retire_rest s id high : let s' := retire s id high in role s' = role s
  ∧ (implicit_open_bidi s', peer_bidi_used s', peer_bidi_closed s', self_max_bidi s', self_max_bidi_window s')
    = (implicit_open_bidi s, peer_bidi_used s, peer_bidi_closed s, self_max_bidi s, self_max_bidi_window s)
  ∧ (implicit_open_uni s', peer_uni_used s', peer_uni_closed s', self_max_uni s', self_max_uni_window s')
    = (implicit_open_uni s, peer_uni_used s, peer_uni_closed s, self_max_uni s, self_max_uni_window s)
  ∧ (next_local_bidi s', opened_local_bidi s', peer_max_bidi s')
    = (next_local_bidi s, opened_local_bidi s, peer_max_bidi s)
  ∧ (next_local_uni s', opened_local_uni s', peer_max_uni s')
    = (next_local_uni s, opened_local_uni s, peer_max_uni s)
  ∧ (config_ok s → config_ok s').
Proof. unfold retire. cbv zeta. case_bool_decide; split_and!; try done; by intros []. Qed.

Lemma reap_if_terminal_inv P s id : streams_inv P s → streams_inv P (reap_if_terminal s id).
Proof.
  intros Hi. unfold reap_if_terminal. destruct (is_peer_initiated s id) eqn:Hp; [|done]. cbn [negb].
  destruct (streams_map s !! id) as [st|] eqn:Hst; [|done].
  destruct (negb (stream_done st)); [done|]. cbv zeta.
  match goal with |- context [retire s id ?h] => set (high := h) end.
  destruct (retire_fields P s id high Hi ltac:(by eauto)) as (R1 & R2 & R3 & R4 & R5).
  assert (∀ b, live_ids (role s) b (delete id (streams_map s)) =
    if bool_decide (b = is_bidi id) then live_ids (role s) b (streams_map s) ∖ {[id]}
    else live_ids (role s) b (streams_map s)) as Hlive.
  { intros b. case_bool_decide as Hb; [apply live_delete_in|]. by apply live_delete_other, peer_id_other. }
  assert (id ∈ live_ids (role s) (is_bidi id) (streams_map s)) as Hin
    by (apply elem_live; split; [by apply peer_initiated_id|by eauto]).
  destruct Hi as [_ _ _ Hb Hu [L1 L2 L3 L4] [U1 U2 U3 U4] Hids _ []].
  assert (∀ i, is_Some (delete id (streams_map s) !! i) → is_Some (streams_map s !! i)) as Hsub
    by (intros i [x [_ Hx]%lookup_delete_Some]; by eauto).
  assert (∀ s', streams_map s' = delete id (streams_map s) → role s' = role s →
    local_side (streams_map s') (role s') true (next_local_bidi s) (opened_local_bidi s) (peer_max_bidi s)
    ∧ local_side (streams_map s') (role s') false (next_local_uni s) (opened_local_uni s) (peer_max_uni s)
    ∧ (∀ i, is_Some (streams_map s' !! i) → 0 ≤ i)) as Hloc.
  { intros s' -> ->. split_and!; try (split; try done); intros i Hx; apply Hsub in Hx; eauto. }
  apply maybe_replenish_streams_inv. destruct (retire_rest s id high)
    as (E1 & [= B1 B2 B3 B4 B5] & [= V1 V2 V3 V4 V5] & [= N1 N2 N3] & [= M1 M2 M3] & Hcfg).
  destruct (Hloc (retire s id high) R1 E1) as (Hl1 & Hl2 & Hl3).
  pose proof (Hlive true) as Ht. pose proof (Hlive false) as Hf.
  pose proof (dr_count _ _ _ _ _ _ Hb). pose proof (dr_count _ _ _ _ _ _ Hu).
  pose proof (dr_used _ _ _ _ _ _ Hb). pose proof (dr_used _ _ _ _ _ _ Hu).
  pose proof (dr_limit _ _ _ _ _ _ Hb) as [_ Lb]. pose proof (dr_limit _ _ _ _ _ _ Hu) as [_ Lu].
  change MAX_STREAMS_LIMIT with (2 ^ 60) in Lb, Lu.
  assert (config_ok (retire s id high)) as Hcf by (apply Hcfg; by split). clear Hcfg Hsub Hloc Hlive.
  generalize dependent (retire s id high). intros s1 R1 R2 R3 R4 R5 E1 B1 B2 B3 B4 B5 V1 V2 V3 V4 V5
    N1 N2 N3 M1 M2 M3 Hl1 Hl2 Hl3 Hcf.
  assert (∀ b X, live_ids (role s) b (delete id (streams_map s)) = X → live_ids (role s1) b (streams_map s1) = X) as Hs1
    by (intros b X <-; by rewrite R1, E1).
  apply Hs1 in Ht, Hf. rewrite <- N1, <- N2, <- N3 in Hl1. rewrite <- M1, <- M2, <- M3 in Hl2. clear Hs1.
  destruct (is_bidi id); simpl in Ht, Hf.
  - assert (sat_add 64 (peer_bidi_closed s) 1 = peer_bidi_closed s + 1) as Hsat by (unfold sat_add; lia).
    pose proof (dside_close _ _ _ _ _ _ _ Hb Hin) as Hb'. rewrite <- Ht, <- B1, <- B2, <- Hsat, <- B3, <- B4, <- B5 in Hb'.
    rewrite <- Hf, <- V1, <- V2, <- V3, <- V4, <- V5 in Hu.
    split; [exact R3|exact R4|exact R2|exact Hb'|exact Hu|exact Hl1|exact Hl2|exact Hl3|exact R5|by destruct Hcf].
  - assert (sat_add 64 (peer_uni_closed s) 1 = peer_uni_closed s + 1) as Hsat by (unfold sat_add; lia).
    pose proof (dside_close _ _ _ _ _ _ _ Hu Hin) as Hu'. rewrite <- Hf, <- V1, <- V2, <- Hsat, <- V3, <- V4, <- V5 in Hu'.
    rewrite <- Ht, <- B1, <- B2, <- B3, <- B4, <- B5 in Hb.
    split; [exact R3|exact R4|exact R2|exact Hb|exact Hu'|exact Hl1|exact Hl2|exact Hl3|exact R5|by destruct Hcf].
Qed.
