(* ===== verification/StreamsOps.v ===== *)
(** Every operation of the stream table keeps the invariant of [StreamsInv], and what the
    reachable tables promise: flow control in both directions, the bound on concurrent
    streams, retired streams, the ready queue and the frames it yields. *)

From S2P Require Import Prelude TlsBase Varint Ack BTree ByteStream Codec Frame RecvStream SendStream TransportParams Streams StreamsInv.

(** * Opening streams *)

(** A half as [new] leaves it. *)
Record fresh (st : Stream) : Prop := {
  fr_recv : st_recv st = None ∨ ∃ m, u64 m ∧ st_recv st = Some (recv_new m);
  fr_send : st_send st = None ∨ ∃ m, u64 m ∧ st_send st = Some (send_new m) }.

Lemma fresh_quiet st : fresh st → must_send st = false.
Proof.
  intros [[Hr|(m & _ & Hr)] [Hs|(m' & _ & Hs)]]; unfold must_send; by rewrite Hr, Hs.
Qed.

Lemma fresh_recvs P s id st : streams_inv P s → streams_map s !! id = None → fresh st →
  recv_side (omap st_recv (<[id := st]> (streams_map s))) (stream_high_offset s) (conn_recv_used s)
    (conn_recv_max s) (conn_recv_window s) (conn_consumed s).
Proof.
  intros Hi Hn [[Hr|(m & Hm & Hr)] _]; [rewrite omap_put_none by done; apply Hi|].
  rewrite (omap_put_some _ _ _ _ _ Hr). apply rside_new; [apply Hi|by rewrite lookup_omap, Hn|done].
Qed.

Lemma fresh_sends P s id st : streams_inv P s → streams_map s !! id = None → fresh st →
  send_side (omap st_send (<[id := st]> (streams_map s))) (conn_send_used s) (conn_send_max s).
Proof.
  intros Hi Hn [_ [Hr|(m & Hm & Hr)]]; [rewrite omap_put_none by done; apply Hi|].
  rewrite (omap_put_some _ _ _ _ _ Hr). apply sside_new; [apply Hi|by rewrite lookup_omap, Hn|done].
Qed.

Lemma fresh_queue P s id st : streams_inv P s → fresh st →
  queue_side P (<[id := st]> (streams_map s)) (ready_to_send s) (ready_set s).
Proof.
  intros Hi Hf. destruct (iv_queue _ _ Hi) as [Q1 Q2 Q3]. split; try done.
  intros i x [[<- <-]|[_ Hx]]%lookup_insert_Some; [by rewrite (fresh_quiet _ Hf)|by apply Q3].
Qed.

Lemma fresh_ids P s id st : streams_inv P s → 0 ≤ id →
  ∀ i, is_Some (<[id := st]> (streams_map s) !! i) → 0 ≤ i.
Proof.
  intros Hi Hid i [x [[<- _]|[_ Hx]]%lookup_insert_Some]; [done|]. apply (iv_ids _ _ Hi). by eauto.
Qed.

(** Our own identifiers are untouched by a stream of the peer. *)
Lemma local_put_peer m r b next opened pm id st : local_side m r b next opened pm →
  local_id r b id = false → local_side (<[id := st]> m) r b next opened pm.
Proof.
  intros [H1 H2 H3 H4] Hp. split; try done.
  intros i [x [[<- _]|[_ Hx]]%lookup_insert_Some] Hl; [congruence|]. apply H4; [by eauto|done].
Qed.

Lemma peer_not_local r b b' id : peer_id r b id = true → local_id r b' id = false.
Proof. unfold peer_id, local_id. by intros [-> _]%andb_true_iff. Qed.

Lemma open_peer_inv s id : inv s → u64 id → streams_map s !! id = None →
  is_peer_initiated s id = true → ∀ s' res, ensure_remote_stream_exists s id = (s', res) →
  inv s' ∧ (res = Ok true → is_Some (streams_map s' !! id))
  ∧ (conn_recv_used s', conn_recv_max s') = (conn_recv_used s, conn_recv_max s)
  ∧ retired_final_size s' = retired_final_size s.
Proof.
  intros Hi Hid Hn Hp s' res. unfold ensure_remote_stream_exists.
  rewrite Hn, Hp. rewrite bool_decide_eq_false_2 by (by intros [? ?]). cbn [negb].
  assert (wadd 64 (id / 4) 1 = id / 4 + 1) as Hw.
  { unfold wadd. apply wrap_small. unfold in_width, u64 in *. Z.to_euclidean_division_equations. lia. }
  rewrite Hw. pose proof (peer_initiated_id s id Hp) as Hpid. cbv zeta.
  assert (∀ b, id ∉ live_ids (role s) b (streams_map s)) as Hnl.
  { intros b [_ [? ?]]%elem_live. congruence. }
  destruct (iv_config _ _ Hi) as [C1 C2 C3 C4 C5 C6].
  destruct (is_bidi id) eqn:Eb.
  - destruct (_ && _) eqn:Eu; [intros [= <- <-]; by split_and!|].
    destruct (live_stream_cap s <=? _); [intros [= <- <-]; by split_and!|].
    destruct (Z.ltb_spec (self_max_bidi s) (Z.max (peer_bidi_used s) (id / 4 + 1))); [intros [= <- <-]; by split_and!|].
    assert (peer_bidi_used s ≤ id / 4 ∨ id / 4 ∈ implicit_open_bidi s) as Hor.
    { apply andb_false_iff in Eu as [?%Z.ltb_ge|?%negb_false_iff%bool_decide_eq_true]; auto. }
    set (st := new_bidi id _ _). assert (fresh st) as Hf by (split; right; by eauto).
    intros [= <- <-]. split_and!; try done; [|intros _; cbn; rewrite lookup_insert_eq; by eauto].
    split; [exact (fresh_recvs _ _ _ _ Hi Hn Hf)|exact (fresh_sends _ _ _ _ Hi Hn Hf)
      |exact (fresh_queue _ _ _ _ Hi Hf)| | | | |exact (fresh_ids _ _ _ _ Hi (proj1 Hid))|apply Hi|done].
    + pose proof (dside_open _ _ _ _ _ _ id (iv_bidi _ _ Hi) (proj1 Hid) (Hnl true) Hor ltac:(done)) as Hd.
      rewrite <- (live_insert_new _ _ _ _ st Hpid) in Hd. exact Hd.
    + pose proof (iv_uni _ _ Hi) as Hd.
      rewrite <- (live_insert_other _ _ _ id st) in Hd by (apply peer_id_other; congruence). exact Hd.
    + exact (local_put_peer _ _ _ _ _ _ _ st (iv_local_bidi _ _ Hi) (peer_not_local _ _ _ _ Hpid)).
    + exact (local_put_peer _ _ _ _ _ _ _ st (iv_local_uni _ _ Hi) (peer_not_local _ _ _ _ Hpid)).
  - destruct (_ && _) eqn:Eu; [intros [= <- <-]; by split_and!|].
    destruct (live_stream_cap s <=? _); [intros [= <- <-]; by split_and!|].
    destruct (Z.ltb_spec (self_max_uni s) (Z.max (peer_uni_used s) (id / 4 + 1))); [intros [= <- <-]; by split_and!|].
    assert (peer_uni_used s ≤ id / 4 ∨ id / 4 ∈ implicit_open_uni s) as Hor.
    { apply andb_false_iff in Eu as [?%Z.ltb_ge|?%negb_false_iff%bool_decide_eq_true]; auto. }
    set (st := new_recv id _). assert (fresh st) as Hf by (split; [right; by eauto|by left]).
    intros [= <- <-]. split_and!; try done; [|intros _; cbn; rewrite lookup_insert_eq; by eauto].
    split; [exact (fresh_recvs _ _ _ _ Hi Hn Hf)|exact (fresh_sends _ _ _ _ Hi Hn Hf)
      |exact (fresh_queue _ _ _ _ Hi Hf)| | | | |exact (fresh_ids _ _ _ _ Hi (proj1 Hid))|apply Hi|done].
    + pose proof (iv_bidi _ _ Hi) as Hd.
      rewrite <- (live_insert_other _ _ _ id st) in Hd by (apply peer_id_other; congruence). exact Hd.
    + pose proof (dside_open _ _ _ _ _ _ id (iv_uni _ _ Hi) (proj1 Hid) (Hnl false) Hor ltac:(done)) as Hd.
      rewrite <- (live_insert_new _ _ _ _ st Hpid) in Hd. exact Hd.
    + exact (local_put_peer _ _ _ _ _ _ _ st (iv_local_bidi _ _ Hi) (peer_not_local _ _ _ _ Hpid)).
    + exact (local_put_peer _ _ _ _ _ _ _ st (iv_local_uni _ _ Hi) (peer_not_local _ _ _ _ Hpid)).
Qed.

Lemma ensure_inv s id s' res : inv s → u64 id → ensure_remote_stream_exists s id = (s', res) →
  inv s' ∧ (res = Ok true → is_Some (streams_map s' !! id)).
Proof.
  intros Hi Hid He. destruct (streams_map s !! id) as [st|] eqn:Hst.
  { unfold ensure_remote_stream_exists in He. rewrite Hst in He.
    rewrite bool_decide_eq_true_2 in He by eauto. injection He as <- <-. rewrite Hst. by eauto. }
  destruct (is_peer_initiated s id) eqn:Hp; [destruct (open_peer_inv s id Hi Hid Hst Hp s' res He) as (? & ? & _); done|].
  unfold ensure_remote_stream_exists in He. rewrite Hst, Hp in He.
  rewrite bool_decide_eq_false_2 in He by (by intros [? ?]). by injection He as <- <-.
Qed.

(** Only the BLOCKED and announcement fields change. *)
Lemma flags_inv P s s' : streams_inv P s → streams_map s' = streams_map s → same_rest s s' →
  (stream_high_offset s', conn_recv_used s', conn_recv_max s', conn_recv_window s', conn_consumed s')
  = (stream_high_offset s, conn_recv_used s, conn_recv_max s, conn_recv_window s, conn_consumed s) →
  (conn_send_used s', conn_send_max s') = (conn_send_used s, conn_send_max s) → streams_inv P s'.
Proof.
  intros Hi Hm Hr [= E1 E2 E3 E4 E5] [= E6 E7]. eapply (inv_rest P s); try done.
  - unfold recvs. rewrite Hm, E1, E2, E3, E4, E5. apply Hi.
  - unfold sends. rewrite Hm, E6, E7. apply Hi.
Qed.

(** A stream we open takes the next identifier of its direction. *)
Lemma local_put_own m r b next opened pm id st : local_side m r b next opened pm → id = next →
  opened < pm → local_side (<[id := st]> m) r b (wadd 64 next 4) (wadd 64 opened 1) pm.
Proof.
  intros [H1 H2 H3 H4] -> Ho. change MAX_STREAMS_LIMIT with (2 ^ 60) in *.
  assert (0 ≤ local_base r b < 4) as Hb by (unfold local_base; destruct r, b; lia).
  assert (wadd 64 next 4 = next + 4 ∧ wadd 64 opened 1 = opened + 1) as [-> ->].
  { unfold wadd. split; apply wrap_small; unfold in_width; lia. }
  split; [lia|lia|exact H3|]. intros i [x [[<- _]|[_ Hx]]%lookup_insert_Some] Hl; [lia|].
  specialize (H4 i ltac:(by eauto) Hl). lia.
Qed.

(** The next identifier of our own is not in use. *)
Lemma local_next_free P s b next opened pm : streams_inv P s →
  local_side (streams_map s) (role s) b next opened pm →
  streams_map s !! next = None ∧ 0 ≤ next ∧ (∀ b', peer_id (role s) b' next = false)
  ∧ local_id (role s) (negb b) next = false.
Proof.
  intros Hi [H1 H2 _ H4]. destruct (local_id_next (role s) b opened) as (L1 & L2 & L3).
  rewrite <- H1 in L1, L2, L3. split_and!; try done.
  - destruct (streams_map s !! next) eqn:E; [|done]. specialize (H4 next ltac:(by eauto) L1). lia.
  - rewrite H1. unfold local_base. destruct (role s), b; lia.
Qed.

Lemma open_bidi_inv s : inv s → inv (open_bidi s).1.
Proof.
  intros Hi. unfold open_bidi. destruct (Z.leb_spec (peer_max_bidi s) (opened_local_bidi s)).
  { by eapply (flags_inv _ s). }
  destruct (local_next_free _ s _ _ _ _ Hi (iv_local_bidi _ _ Hi)) as (Hn & H0 & Hp & Hl). cbv zeta. cbn [fst].
  set (id := next_local_bidi s) in *. set (st := new_bidi id _ _).
  destruct (iv_config _ _ Hi) as [C1 C2 C3 C4 C5 C6].
  assert (fresh st) as Hf by (split; right; by eauto).
  pose proof (iv_bidi _ _ Hi) as Hb. rewrite <- (live_insert_other _ _ _ id st (Hp _)) in Hb.
  pose proof (iv_uni _ _ Hi) as Hu. rewrite <- (live_insert_other _ _ _ id st (Hp _)) in Hu.
  split; [exact (fresh_recvs _ _ _ _ Hi Hn Hf)|exact (fresh_sends _ _ _ _ Hi Hn Hf)
    |exact (fresh_queue _ _ _ _ Hi Hf)|exact Hb|exact Hu
    |exact (local_put_own _ _ _ _ _ _ id st (iv_local_bidi _ _ Hi) eq_refl ltac:(lia))
    |exact (local_put_peer _ _ _ _ _ _ _ st (iv_local_uni _ _ Hi) Hl)
    |exact (fresh_ids _ _ _ _ Hi H0)|apply Hi|done].
Qed.

Lemma open_uni_inv s : inv s → inv (open_uni s).1.
Proof.
  intros Hi. unfold open_uni. destruct (Z.leb_spec (peer_max_uni s) (opened_local_uni s)).
  { by eapply (flags_inv _ s). }
  destruct (local_next_free _ s _ _ _ _ Hi (iv_local_uni _ _ Hi)) as (Hn & H0 & Hp & Hl). cbv zeta. cbn [fst].
  set (id := next_local_uni s) in *. set (st := new_send id _).
  destruct (iv_config _ _ Hi) as [C1 C2 C3 C4 C5 C6].
  assert (fresh st) as Hf by (split; [by left|right; by eauto]).
  pose proof (iv_bidi _ _ Hi) as Hb. rewrite <- (live_insert_other _ _ _ id st (Hp _)) in Hb.
  pose proof (iv_uni _ _ Hi) as Hu. rewrite <- (live_insert_other _ _ _ id st (Hp _)) in Hu.
  split; [exact (fresh_recvs _ _ _ _ Hi Hn Hf)|exact (fresh_sends _ _ _ _ Hi Hn Hf)
    |exact (fresh_queue _ _ _ _ Hi Hf)|exact Hb|exact Hu
    |exact (local_put_peer _ _ _ _ _ _ _ st (iv_local_bidi _ _ Hi) Hl)
    |exact (local_put_own _ _ _ _ _ _ id st (iv_local_uni _ _ Hi) eq_refl ltac:(lia))
    |exact (fresh_ids _ _ _ _ Hi H0)|apply Hi|done].
Qed.

(** * The application's side *)

(** A send half is replaced and its stream queued. *)
Lemma send_enqueue_inv s id st se se' : inv s → get_send s id = Some (st, se) →
  send_fc se' → charged se' ≤ charged se → inv (enqueue_ready (put_send s id st se') id).
Proof. intros Hi Hg Hf Hc. apply enqueue_ready_inv. eapply put_send_same; try done. by right. Qed.

Lemma send_enqueue_fc s id st se se' : inv s → get_send s id = Some (st, se) → same_fc se se' →
  inv (enqueue_ready (put_send s id st se') id).
Proof.
  intros Hi Hg Hf. destruct (same_fc_ok se se' (get_send_fc _ _ _ _ Hi Hg) Hf) as [? E].
  eapply send_enqueue_inv; try done. by rewrite E.
Qed.

Lemma blocked_fc se b : send_fc se → send_fc (se <| blocked_at := b |>).
Proof. by intros []. Qed.

Lemma ztake_le n (l : bytes) : 0 ≤ n → zlen (ztake n l) ≤ n.
Proof. unfold zlen, ztake. rewrite length_take. lia. Qed.

Lemma streams_write_inv s id data : inv s → inv (streams_write s id data).1.
Proof.
  intros Hi. unfold streams_write. destruct (get_send s id) as [[st se]|] eqn:Hg; [|done].
  pose proof (get_send_fc _ _ _ _ Hi Hg) as Hfc. pose proof (zlen_nonneg data).
  destruct (negb (send_open se)) eqn:Hopen; [done|]. cbv zeta.
  assert (ss_fin_offset se = None) as Hfin.
  { unfold send_open in Hopen. apply negb_false_iff, andb_true_iff in Hopen as [_ Hopen]. by destruct (ss_fin_offset se). }
  set (room := sat_sub _ _). set (cap := Z.min room (zlen data)).
  pose proof (sd_used _ _ _ (iv_send _ _ Hi)) as Hmax.
  assert (∀ x, inv (s <| data_blocked_at := x |>)) as Hblk by (intros x; by eapply flags_inv).
  assert (∀ x, get_send (s <| data_blocked_at := x |>) id = Some (st, se)) as Hg' by done.
  destruct (Z.eqb_spec cap 0) as [Hz|Hz].
  { set (s1 := if room =? 0 then _ else s).
    assert (inv s1 ∧ get_send s1 id = Some (st, se)) as [Hi1 Hg1] by (subst s1; by destruct (room =? 0)).
    destruct (available_credit se =? 0); cbn [fst]; [|done].
    eapply send_enqueue_inv; [done..|by apply blocked_fc|done]. }
  assert (0 ≤ cap ∧ conn_send_used s + cap ≤ conn_send_max s) as [Hc0 Hc1]
    by (subst cap room; unfold sat_sub in *; lia).
  destruct (enqueue se (ztake cap data)) as [se' n] eqn:He.
  destruct (enqueue_fc _ _ _ _ Hfc Hfin He) as (Hfc' & Hch & Hn). pose proof (ztake_le cap data Hc0).
  destruct (Z.eqb_spec n 0) as [->|]; cbn [fst].
  { eapply send_enqueue_inv; [done..|by apply blocked_fc|]. change (charged se' ≤ charged se). lia. }
  assert (wadd 64 (conn_send_used s) n = conn_send_used s + n) as ->
    by (unfold wadd; apply wrap_small; unfold in_width;
        pose proof (msum_nonneg (λ _ se, charged se) (sends s)
          ltac:(intros k v Hv; by apply charged_nonneg, (sd_half _ _ _ (iv_send _ _ Hi) k)));
        pose proof (sd_sum _ _ _ (iv_send _ _ Hi)); lia).
  set (se2 := if n <? cap then _ else se').
  assert (send_fc se2 ∧ charged se2 = charged se + n) as [Hfc2 Hch2]
    by (subst se2; destruct (n <? cap); [split; [by apply blocked_fc|exact Hch]|done]).
  clearbody se2. apply enqueue_ready_inv.
  assert (inv_but id ((put_send s id st se2) <| conn_send_used := conn_send_used s + n |>)) as Hput
    by (apply (put_send_inv _ s id st se se2 n); try done; [lia|lia|by right]).
  destruct (_ && _); [|exact Hput]. eapply flags_inv; [exact Hput|done..].
Qed.

Lemma streams_finish_inv s id : inv s → inv (streams_finish s id).1.
Proof.
  intros Hi. unfold streams_finish. destruct (get_send s id) as [[st se]|] eqn:Hg; [|done].
  pose proof (send_enqueue_fc s id st se (finish se) Hi Hg (finish_fc _ (get_send_fc _ _ _ _ Hi Hg))).
  by destruct (ss_state se).
Qed.

Lemma enter_reset_inv s id st se code : inv s → get_send s id = Some (st, se) →
  inv (enqueue_ready (put_send s id st (enter_reset se code)) id).
Proof.
  intros Hi Hg. destruct (enter_reset_fc se code (get_send_fc _ _ _ _ Hi Hg)). by eapply send_enqueue_inv.
Qed.

Lemma streams_reset_inv s id code : inv s → inv (streams_reset s id code).1.
Proof.
  intros Hi. unfold streams_reset. destruct (get_send s id) as [[st se]|] eqn:Hg; [|done].
  by eapply enter_reset_inv.
Qed.

(** Flags of a receive half change and its stream is queued. *)
Lemma recv_enqueue_inv s id st r r' : inv s → get_recv s id = Some (st, r) →
  half_ok (high_of (stream_high_offset s) id) r' → rs_conn_fc_credited r' = rs_conn_fc_credited r →
  inv (enqueue_ready (put_recv s id st r') id).
Proof. intros Hi Hg Hh Hc. apply enqueue_ready_inv. eapply put_recv_flags; try done. by right. Qed.

Lemma streams_stop_sending_inv s id code : inv s → inv (streams_stop_sending s id code).1.
Proof.
  intros Hi. unfold streams_stop_sending. destruct (get_recv s id) as [[st r]|] eqn:Hg; [|done].
  eapply recv_enqueue_inv; [done..|by apply half_stop, (get_recv_half _ _ _ _ Hi Hg)|done].
Qed.

(** * The peer's transport parameters *)

(** The limits of decoded and validated transport parameters. *)
Record limits_ok (p : TransportParameters) : Prop := {
  lm_data : u64 (default 0 (initial_max_data p));
  lm_bl : u64 (default 0 (initial_max_stream_data_bidi_local p));
  lm_br : u64 (default 0 (initial_max_stream_data_bidi_remote p));
  lm_u : u64 (default 0 (initial_max_stream_data_uni p));
  lm_bidi : 0 ≤ default 0 (initial_max_streams_bidi p) ≤ MAX_STREAMS_LIMIT;
  lm_uni : 0 ≤ default 0 (initial_max_streams_uni p) ≤ MAX_STREAMS_LIMIT }.

Lemma msum_rel {A} (f : Z → A → Z) (m : gmap Z A) : ∀ m' : gmap Z A,
  (∀ k, f k <$> m !! k = f k <$> m' !! k) → msum f m = msum f m'.
Proof.
  induction m as [|k v m Hk IH] using map_ind; intros m' Hm.
  - assert (m' = ∅) as ->; [|done]. apply map_empty. intros k. specialize (Hm k).
    rewrite lookup_empty in Hm. by destruct (m' !! k).
  - pose proof (Hm k) as Hv. rewrite lookup_insert_eq in Hv. destruct (m' !! k) as [v'|] eqn:Hk'; [|done].
    injection Hv as Hv. rewrite msum_insert, (msum_delete f m' k v'), Hv by done. f_equal. apply IH.
    intros i. destruct (decide (i = k)) as [->|Hi]; [by rewrite Hk, lookup_delete_eq|].
    specialize (Hm i). rewrite lookup_insert_ne in Hm by done. by rewrite lookup_delete_ne.
Qed.

(** Raising the limit of some send halves. *)
Lemma sside_raise ss ss' used max max' : send_side ss used max → dom ss' = dom ss →
  (∀ id se se', ss !! id = Some se → ss' !! id = Some se' → same_fc se se') → max ≤ max' < 2 ^ 64 →
  send_side ss' used max'.
Proof.
  intros [H1 H2 H3] Hd Hs Hm.
  assert (∀ id se', ss' !! id = Some se' → ∃ se, ss !! id = Some se ∧ send_fc se' ∧ charged se' = charged se) as Hget.
  { intros id se' Hse'. assert (is_Some (ss !! id)) as [se Hse] by (apply elem_of_dom; rewrite <- Hd; apply elem_of_dom; eauto).
    destruct (same_fc_ok se se' (H1 _ _ Hse) (Hs _ _ _ Hse Hse')). by exists se. }
  split; [by intros id se' (? & _ & ? & _)%Hget| |lia].
  rewrite (msum_rel _ ss' ss); [done|]. intros id. destruct (ss' !! id) as [se'|] eqn:E.
  - destruct (Hget id se' E) as (se & -> & _ & Hc). simpl. by rewrite Hc.
  - assert (ss !! id = None) as ->; [|done]. apply not_elem_of_dom. rewrite <- Hd. by apply not_elem_of_dom.
Qed.

Lemma adopt_peer_limits_inv s p : inv s → limits_ok p → inv (adopt_peer_limits s p).1.
Proof.
  intros Hi [L1 L2 L3 L4 L5 L6]. unfold adopt_peer_limits. cbv zeta. destruct (_ || _) eqn:Eg; [done|].
  rewrite !orb_false_iff, !Z.ltb_ge in Eg. destruct Eg as (((((G1 & G2) & G3) & G4) & G5) & G6). cbn [fst].
  match goal with |- context [map_imap ?g _] => set (f := g) end. set (m := map_imap f (streams_map s)).
  assert (∀ id st, ∃ st', f id st = Some st' ∧ st_recv st' = st_recv st
    ∧ must_send st' = must_send st
    ∧ (∀ se, st_send st = Some se → send_fc se → ∃ se', st_send st' = Some se' ∧ same_fc se se')
    ∧ (st_send st = None → st_send st' = None)) as Hf.
  { intros id st. unfold f. destruct (st_send st) as [se|] eqn:Es; [|exists st; split_and!; try done; naive_solver].
    match goal with |- context [peer_max_data se <? ?r] => set (raised := r) end.
    assert (raised < 2 ^ 64) by (subst raised; destruct (_ || _); [apply L4|apply L3]).
    destruct (Z.ltb_spec (peer_max_data se) raised); eexists; (split; [done|]); (split; [done|]).
    - split_and!; [unfold must_send; cbn [update st_send]; by rewrite Es| |done].
      intros x [= <-] _. eexists. split; [done|].
      split_and!; cbn; auto; lia.
    - split_and!; [done| |done]. intros x [= <-] Hfc. exists se. rewrite Es. split; [done|].
      by apply same_fc_refl. }
  assert (∀ id, m !! id = streams_map s !! id ≫= f id) as Hm by (intros id; subst m; apply map_lookup_imap).
  clearbody f m.
  assert (∀ id, is_Some (m !! id) ↔ is_Some (streams_map s !! id)) as Hdom.
  { intros id. rewrite Hm. destruct (streams_map s !! id) as [st|]; [|done]. simpl.
    destruct (Hf id st) as (st' & -> & _). naive_solver. }
  assert (∀ r b, live_ids r b m = live_ids r b (streams_map s)) as Hlive.
  { intros r b. apply set_eq. intros i. by rewrite !elem_live, Hdom. }
  assert (omap st_recv m = recvs s) as Hrec.
  { apply map_eq. intros i. unfold recvs. rewrite !lookup_omap, Hm. destruct (streams_map s !! i) as [st|]; [|done].
    simpl. destruct (Hf i st) as (st' & -> & ? & _). done. }
  destruct Hi as [I1 I2 [Q1 Q2 Q3] I4 I5 [B1 B2 B3 B4] [U1 U2 U3 U4] I8 I9 []].
  rewrite <- Hrec in I1. rewrite <- Hlive in I4, I5.
  split; [exact I1| | |exact I4|exact I5| | | |exact I9|done].
  - eapply sside_raise; [exact I2| | |cbn; unfold u64 in *; lia].
    + apply set_eq. intros i. rewrite !elem_of_dom. unfold sends. rewrite !lookup_omap.
      change (is_Some (m !! i ≫= st_send) ↔ is_Some (streams_map s !! i ≫= st_send)). rewrite Hm.
      destruct (streams_map s !! i) as [st|] eqn:Ei; [|done]. simpl. destruct (Hf i st) as (st' & -> & _ & _ & H1 & H2).
      simpl. destruct (st_send st) as [se|] eqn:Es; [|by rewrite H2].
      destruct (H1 se eq_refl) as (se' & -> & _); [|naive_solver].
      apply (sd_half _ _ _ I2 i). by rewrite (sends_lookup s i st).
    + intros id se se' Hse Hse'. unfold sends in Hse'. rewrite lookup_omap in Hse'.
      change (m !! id ≫= st_send = Some se') in Hse'. rewrite Hm in Hse'.
      pose proof Hse as Hse2. unfold sends in Hse2. rewrite lookup_omap in Hse2.
      destruct (streams_map s !! id) as [st|]; [|done]. simpl in Hse', Hse2.
      destruct (Hf id st) as (st' & Est & _ & _ & H1 & _). rewrite Est in Hse'. simpl in Hse'.
      destruct (H1 se Hse2 (sd_half _ _ _ I2 _ _ Hse)) as (x & Hx & ?). congruence.
  - split; [exact Q1|exact Q2|]. intros id st'. change (m !! id = Some st' → must_send st' = true →
      id ∈ ready_to_send s ∨ False). rewrite Hm. destruct (streams_map s !! id) as [st|] eqn:Ei; [|done]. simpl.
    destruct (Hf id st) as (x & -> & _ & E & _). intros [= <-]. rewrite E. by apply Q3.
  - split; [exact B1|cbn; lia|apply L5|]. intros i Hx. apply B4. by apply Hdom.
  - split; [exact U1|cbn; lia|apply L6|]. intros i Hx. apply U4. by apply Hdom.
  - intros i Hx. by apply I8, Hdom.
Qed.

Lemma requeue_one_inv s id : inv s → inv (requeue_one s id).
Proof.
  intros Hi. unfold requeue_one. destruct (streams_map s !! id) as [st|] eqn:Hst; [|done].
  destruct (st_send st) as [se|] eqn:Hse; [|done]. destruct (has_unacked se); [|done].
  assert (get_send s id = Some (st, se)) as Hg by (by apply get_send_Some).
  eapply send_enqueue_fc; [done..|]. by apply requeue_all_fc, (get_send_fc _ _ _ _ Hi Hg).
Qed.

Lemma requeue_all_unacked_inv s : inv s → inv (requeue_all_unacked s).
Proof.
  unfold requeue_all_unacked. generalize (keys (streams_map s)). intros l. revert s.
  induction l as [|id l IH]; intros s Hi; [done|]. by apply IH, requeue_one_inv.
Qed.

(** * Inbound frames *)

(** A stream whose triggers are as they were is still in the queue. *)
Lemma wake_same_recv s id st r r' : inv s → get_recv s id = Some (st, r) →
  rs_max_data_pending r' = rs_max_data_pending r → rs_stop_sending_pending r' = rs_stop_sending_pending r →
  must_send (st <| st_recv := Some r' |>) = true → id ∈ ready_to_send s ∨ False.
Proof.
  intros Hi [Hst Hr]%get_recv_Some E1 E2 Hn. apply (qs_wake _ _ _ _ (iv_queue _ _ Hi) id st Hst).
  rewrite <- Hn. unfold must_send. cbn [update st_send st_recv]. by rewrite Hr, E1, E2.
Qed.

(** The tail of [on_stream] and of [on_reset]: the half is written back, the credit for
    discarded bytes is returned, and the stream may be retired. *)
Definition settle (s : Streams) (id dc : Z) (credit : bool) : Streams :=
  let s := if credit then maybe_replenish_conn (s <| conn_consumed := sat_add 64 (conn_consumed s) dc |>) else s in
  reap_if_terminal (refresh_readable s id) id.

Lemma settle_inv s id st r r' s' hv dc (credit : bool) : inv s → get_recv s id = Some (st, r) →
  streams_map s' = <[id := st <| st_recv := Some r' |>]> (streams_map s) → same_rest s s' →
  sends s' = sends s → (conn_send_used s', conn_send_max s') = (conn_send_used s, conn_send_max s) →
  half_ok hv r' → high_of (stream_high_offset s') id = hv →
  (∀ i, i ≠ id → stream_high_offset s' !! i = stream_high_offset s !! i) →
  high_of (stream_high_offset s) id ≤ hv →
  rs_conn_fc_credited r' = rs_conn_fc_credited r + (if credit then dc else 0) → 0 ≤ dc →
  conn_recv_used s + (hv - high_of (stream_high_offset s) id) ≤ conn_recv_max s →
  conn_recv_used s' = conn_recv_used s + (hv - high_of (stream_high_offset s) id) →
  (conn_recv_max s', conn_recv_window s', conn_consumed s')
    = (conn_recv_max s, conn_recv_window s, conn_consumed s) →
  rs_max_data_pending r' = rs_max_data_pending r → rs_stop_sending_pending r' = rs_stop_sending_pending r →
  inv (settle s' id dc credit).
Proof.
  intros Hi Hg Hm Hrest Hs Hsc Hh Hv Hne Hle Hc Hdc Hu Hu' [= Em Ew Ec] F1 F2.
  assert (inv (s' <| conn_consumed := conn_consumed s' + (if credit then dc else 0) |>)) as Hput.
  { eapply (put_recv_inv _ s _ id st r r' hv (if credit then dc else 0)); try done; cbn;
      [by destruct credit|congruence|by rewrite Ec|]. by eapply wake_same_recv. }
  unfold settle. apply reap_if_terminal_inv, refresh_readable_inv. destruct credit.
  - apply maybe_replenish_conn_inv.
    assert (sat_add 64 (conn_consumed s') dc = conn_consumed s' + dc) as ->; [|done].
    pose proof (iv_recv _ _ Hput) as [Hhalf _ Hdebt _ Hus _ Hwd]. cbn in Hdebt, Hus, Hwd.
    pose proof (debt_nonneg _ _ Hhalf) as Hd. cbn in Hd. unfold sat_add. lia.
  - rewrite Z.add_0_r in Hput. destruct s'. exact Hput.
Qed.

Lemma some_pair_inv {A B} (a c : A) (b d : B) : Some (a, b) = Some (c, d) → c = a ∧ d = b.
Proof. by intros [= -> ->]. Qed.

(** The connection has granted the peer less than [u64] can count. *)
Definition in_range (s : Streams) : Prop := conn_recv_max s < 2 ^ 64 - 1.

Lemma high_insert h id v : high_of (<[id := v]> h) id = v.
Proof. unfold high_of. by rewrite lookup_insert_eq. Qed.

Lemma credited_same r : r <| rs_conn_fc_credited := rs_conn_fc_credited r + 0 |> = r.
Proof. rewrite Z.add_0_r. by destruct r. Qed.

(** The receive half after [on_data] and the credit for discarded bytes. *)
Lemma on_data_credited h r o d fin r1 n : half_ok h r → 0 ≤ o → on_data r o d fin = Ok (r1, n) →
  let new_high := sat_sub (o + zlen d) h in
  let credit := rs_stop_sending_sent r1 && (0 <? new_high) in
  let r2 := if credit then r1 <| rs_conn_fc_credited := sat_add 64 (rs_conn_fc_credited r1) new_high |> else r1 in
  half_ok (Z.max h (o + zlen d)) r2
  ∧ rs_conn_fc_credited r2 = rs_conn_fc_credited r + (if credit then new_high else 0).
Proof.
  intros Hh Ho Hr new_high credit. destruct (half_on_data _ _ _ _ _ _ _ Hh Ho Hr) as [Hss Hok].
  destruct (on_data_keeps _ _ _ _ _ _ Hr) as (K1 & _). pose proof (on_data_extent _ _ _ _ _ _ Hr).
  pose proof (ho_h _ _ Hh). pose proof (ho_credit _ _ Hh). pose proof (half_debt _ _ Hh).
  assert (Z.max h (o + zlen d) - h = new_high) as E by (subst new_high; unfold sat_sub; lia).
  rewrite <- Hss, E in Hok. unfold credit. destruct (rs_stop_sending_sent r1); cbn [andb]; [|by rewrite K1, Z.add_0_r].
  destruct (Z.ltb_spec 0 new_high); cbv zeta.
  - assert (sat_add 64 (rs_conn_fc_credited r1) new_high = rs_conn_fc_credited r1 + new_high) as ->
      by (unfold sat_add; lia). split; [done|]. cbn. lia.
  - assert (new_high = 0) as E0 by (subst new_high; unfold sat_sub in *; lia).
    rewrite E0, credited_same in Hok. split; [done|]. lia.
Qed.

Lemma credited_flags (b : bool) r c :
  let r' := if b then r <| rs_conn_fc_credited := c |> else r in
  rs_max_data_pending r' = rs_max_data_pending r ∧ rs_stop_sending_pending r' = rs_stop_sending_pending r.
Proof. by destruct b. Qed.

Lemma on_stream_live_inv s id o fin d s' res : inv s → in_range s → u64 o →
  let prev := high_of (stream_high_offset s) id in
  let end_ := sat_add 64 o (zlen d) in
  let new_high := sat_sub end_ prev in
  let projected := sat_add 64 (conn_recv_used s) new_high in
  (0 < new_high → projected ≤ conn_recv_max s) →
  on_stream_live s id o fin d end_ new_high (if 0 <? new_high then Some projected else None) = Some (s', res) →
  inv s'.
Proof.
  intros Hi Hrange Ho prev end_ new_high projected Hproj Hgo. unfold on_stream_live in Hgo.
  destruct (streams_map s !! id) as [st|] eqn:Hst; [|done]. cbn [mbind option_bind] in Hgo.
  destruct (st_recv st) as [r|] eqn:Hr; [|by injection Hgo as <- <-].
  destruct (on_data r o d fin) as [[r1 n]|e] eqn:Hd; [|by injection Hgo as <- <-].
  assert (get_recv s id = Some (st, r)) as Hg by (by apply get_recv_Some).
  pose proof (get_recv_half _ _ _ _ Hi Hg) as Hh. fold prev in Hh. pose proof (ho_h _ _ Hh).
  pose proof (on_data_extent _ _ _ _ _ _ Hd). pose proof (zlen_nonneg d). pose proof (proj1 Ho).
  assert (end_ = o + zlen d) as Hend by (subst end_; unfold sat_add; lia).
  destruct (on_data_credited prev r o d fin r1 n Hh (proj1 Ho) Hd) as [Hok Hcr].
  rewrite <- Hend in Hok, Hcr. fold new_high in Hok, Hcr. cbv zeta in Hgo.
  set (credit := rs_stop_sending_sent r1 && _) in *.
  destruct (on_data_keeps _ _ _ _ _ _ Hd) as (_ & K2 & K3).
  destruct (credited_flags credit r1 (sat_add 64 (rs_conn_fc_credited r1) new_high)) as [F1 F2].
  set (r2 := if credit then r1 <| rs_conn_fc_credited := _ |> else r1) in *. clearbody r2.
  rewrite K2 in F1. rewrite K3 in F2.
  pose proof (rv_used _ _ _ _ _ _ (iv_recv _ _ Hi)) as Hu.
  assert (0 ≤ new_high) by (subst new_high; unfold sat_sub; lia).
  assert (0 < new_high → projected = conn_recv_used s + (Z.max prev end_ - prev)) as Hp
    by (intros Hpos; specialize (Hproj Hpos); subst projected new_high; unfold in_range, sat_add, sat_sub in *; lia).
  clearbody credit. destruct (Z.ltb_spec 0 new_high) as [Hpos|Hpos]; apply some_pair_inv in Hgo as [-> _].
  - specialize (Hp Hpos). specialize (Hproj Hpos).
    assert (Z.max prev end_ = end_) as Hmx by (subst new_high; unfold sat_sub in *; lia).
    apply (settle_inv s id st r r2 (put_recv (s <| conn_recv_used := projected |>
      <| stream_high_offset := <[id := end_]> (stream_high_offset s) |>) id st r2) (Z.max prev end_) new_high credit Hi Hg);
      try done; try lia.
    + exact (sends_put_recv s id st r2 Hst).
    + rewrite Hmx. apply high_insert.
    + intros i Hne. by apply lookup_insert_ne.
  - assert (Z.max prev end_ = prev) as Hmx by (subst new_high; unfold sat_sub in *; lia).
    apply (settle_inv s id st r r2 (put_recv s id st r2) (Z.max prev end_) new_high credit Hi Hg);
      try done; try lia; [by apply sends_put_recv|cbn; lia].
Qed.

Lemma ensure_range s id s' res : ensure_remote_stream_exists s id = (s', res) →
  (conn_recv_used s', conn_recv_max s') = (conn_recv_used s, conn_recv_max s).
Proof.
  unfold ensure_remote_stream_exists. cbv zeta. repeat case_match; intros E; injection E as <- <-; done.
Qed.

Lemma on_stream_inv s id o fin d s' res : inv s → in_range s → u64 id → u64 o →
  on_stream s id o fin d = Some (s', res) → inv s'.
Proof.
  intros Hi Hr Hid Ho Hgo. unfold on_stream in Hgo. cbv zeta in Hgo.
  destruct (ensure_remote_stream_exists s id) as [s1 res1] eqn:He.
  destruct (ensure_inv _ _ _ _ Hi Hid He) as [Hi1 _]. apply ensure_range in He as [= _ Hm].
  assert (in_range s1) as Hr1 by (unfold in_range in *; by rewrite Hm).
  destruct res1 as [[]|e]; [|by destruct (_ !! id); [destruct (_ <? _)|]; injection Hgo as <- <-|by injection Hgo as <- <-].
  pose proof (on_stream_live_inv s1 id o fin d s' res Hi1 Hr1 Ho) as Hlive. cbv zeta in Hlive.
  change (default 0 (stream_high_offset s1 !! id)) with (high_of (stream_high_offset s1) id) in Hgo.
  destruct (Z.ltb_spec 0 (sat_sub (sat_add 64 o (zlen d)) (high_of (stream_high_offset s1) id))); [|apply Hlive; [lia|done]].
  destruct (Z.ltb_spec (conn_recv_max s1) (sat_add 64 (conn_recv_used s1)
    (sat_sub (sat_add 64 o (zlen d)) (high_of (stream_high_offset s1) id)))); [by injection Hgo as <- <-|].
  by apply Hlive.
Qed.

(** The receive half after [on_reset] and the credit for what is discarded. *)
Lemma on_reset_credited h r code size r1 : half_ok h r → h ≤ size → on_reset r code size = Ok r1 →
  let discarded := if is_reset (rs_state r) then 0 else sat_sub size (rs_conn_fc_credited r1) in
  half_ok size (r1 <| rs_conn_fc_credited := sat_add 64 (rs_conn_fc_credited r1) discarded |>)
  ∧ sat_add 64 (rs_conn_fc_credited r1) discarded = rs_conn_fc_credited r + discarded ∧ 0 ≤ discarded.
Proof.
  intros Hh Hle Hr discarded. destruct (half_on_reset _ _ _ _ _ Hh Hle Hr) as [Hc Hok].
  destruct (on_reset_keeps _ _ _ _ Hr) as (Hmx & _). pose proof (half_debt _ _ Hh). pose proof (ho_credit _ _ Hh).
  assert (rs_max_data r < 2 ^ 64) by apply (ho_wf _ _ Hh). unfold discarded. rewrite Hc.
  destruct (is_reset (rs_state r)).
  - destruct Hok as [-> Hok]. assert (sat_add 64 (rs_conn_fc_credited r) 0 = rs_conn_fc_credited r + 0) as ->
      by (unfold sat_add; lia). rewrite <- Hc, credited_same. by split_and!.
  - assert (sat_add 64 (rs_conn_fc_credited r) (sat_sub size (rs_conn_fc_credited r)) = size) as ->
      by (unfold sat_add, sat_sub; lia). split_and!; [done|unfold sat_sub; lia|unfold sat_sub; lia].
Qed.

Lemma streams_on_reset_inv s id code size s' res : inv s → in_range s → u64 id →
  streams_on_reset s id code size = Some (s', res) → inv s'.
Proof.
  intros Hi Hr Hid Hgo. unfold streams_on_reset in Hgo.
  destruct (ensure_remote_stream_exists s id) as [s1 res1] eqn:He.
  destruct (ensure_inv _ _ _ _ Hi Hid He) as [Hi1 _]. apply ensure_range in He as [= _ Hm].
  assert (in_range s1) as Hr1 by (unfold in_range in *; by rewrite Hm). clear Hi Hr Hm.
  destruct res1 as [[]|e]; [|by injection Hgo as <- <-..].
  change (default 0 (stream_high_offset s1 !! id)) with (high_of (stream_high_offset s1) id) in Hgo.
  cbv zeta in Hgo. set (prev := high_of (stream_high_offset s1) id) in *.
  destruct (Z.ltb_spec size prev); [by injection Hgo as <- <-|].
  set (projected := sat_add 64 (conn_recv_used s1) (size - prev)) in *.
  destruct (Z.ltb_spec (conn_recv_max s1) projected); [by injection Hgo as <- <-|].
  destruct (streams_map s1 !! id) as [st|] eqn:Hst; [|done]. cbn [mbind option_bind] in Hgo.
  destruct (st_recv st) as [r|] eqn:Hrv; [|by injection Hgo as <- <-].
  destruct (on_reset r code size) as [r1|e] eqn:Ho; [|by injection Hgo as <- <-].
  assert (get_recv s1 id = Some (st, r)) as Hg by (by apply get_recv_Some).
  pose proof (get_recv_half _ _ _ _ Hi1 Hg) as Hh. fold prev in Hh.
  destruct (on_reset_credited prev r code size r1 Hh ltac:(done) Ho) as (Hok & Hc & Hd0).
  destruct (on_reset_keeps _ _ _ _ Ho) as (_ & _ & F1 & F2 & _).
  set (discarded := if is_reset (rs_state r) then 0 else _) in *.
  assert (rs_conn_fc_credited (r1 <| rs_conn_fc_credited := sat_add 64 (rs_conn_fc_credited r1) discarded |>)
    = rs_conn_fc_credited r + (if negb (is_reset (rs_state r)) then discarded else 0)) as Hc'.
  { cbn. rewrite Hc. unfold discarded. by destruct (is_reset (rs_state r)). }
  set (r2 := r1 <| rs_conn_fc_credited := _ |>) in *.
  assert (rs_max_data_pending r2 = rs_max_data_pending r ∧ rs_stop_sending_pending r2 = rs_stop_sending_pending r)
    as [G1 G2] by done. clearbody r2 discarded.
  pose proof (rv_used _ _ _ _ _ _ (iv_recv _ _ Hi1)) as Hu.
  assert (projected = conn_recv_used s1 + (size - prev)) as Hp
    by (unfold projected, in_range, sat_add in *; lia).
  apply some_pair_inv in Hgo as [-> _]. destruct (Z.ltb_spec 0 (size - prev)).
  - apply (settle_inv s1 id st r r2 ((put_recv s1 id st r2) <| conn_recv_used := projected |>
      <| stream_high_offset := <[id := size]> (stream_high_offset s1) |>) size discarded (negb (is_reset (rs_state r))) Hi1 Hg);
      try done; try lia; [exact (sends_put_recv s1 id st r2 Hst)|apply high_insert|].
    intros i Hne. by apply lookup_insert_ne.
  - assert (size = prev) as -> by lia.
    apply (settle_inv s1 id st r r2 ((put_recv s1 id st r2) <| conn_recv_used := projected |>)
      prev discarded (negb (is_reset (rs_state r))) Hi1 Hg); try done; try lia.
    exact (sends_put_recv s1 id st r2 Hst).
Qed.

Lemma on_stop_sending_inv s id code s' res : inv s → u64 id →
  on_stop_sending s id code = Some (s', res) → inv s'.
Proof.
  intros Hi Hid Hgo. unfold on_stop_sending in Hgo.
  destruct (reject_send_half_frame_on_peer_uni s id); [|by injection Hgo as <- <-].
  destruct (ensure_remote_stream_exists s id) as [s1 res1] eqn:He.
  destruct (ensure_inv _ _ _ _ Hi Hid He) as [Hi1 _]. destruct res1 as [[]|e]; [|by injection Hgo as <- <-..].
  destruct (streams_map s1 !! id) as [st|] eqn:Hst; [|done]. cbn [mbind option_bind] in Hgo.
  destruct (st_send st) as [se|] eqn:Hse; [|by injection Hgo as <- <-].
  apply some_pair_inv in Hgo as [-> _]. eapply enter_reset_inv; [done|by apply get_send_Some].
Qed.

Lemma on_max_data_inv P s limit : streams_inv P s → limit < 2 ^ 64 → streams_inv P (on_max_data s limit).
Proof.
  intros Hi Hl. unfold on_max_data. destruct (Z.ltb_spec (conn_send_max s) limit); [|done].
  eapply (inv_rest P s); try done; [apply Hi|]. destruct (iv_send _ _ Hi) as [S1 S2 S3].
  split; [exact S1|exact S2|cbn; lia].
Qed.

(** A send half whose triggers are at most those it had is still in the queue. *)
Lemma wake_less_send s id st se se' : inv s → get_send s id = Some (st, se) →
  (must_send (st <| st_send := Some se' |>) = true → must_send st = true) →
  must_send (st <| st_send := Some se' |>) = true → id ∈ ready_to_send s ∨ False.
Proof.
  intros Hi [Hst Hr]%get_send_Some Hle Hn. by apply (qs_wake _ _ _ _ (iv_queue _ _ Hi) id st Hst), Hle.
Qed.

Lemma orb_mono (a a' b b' : bool) : (a = true → a' = true) → (b = true → b' = true) → a || b = true → a' || b' = true.
Proof. destruct a, a', b, b'; auto. Qed.

(** The triggers of a send half in [must_send]. *)
Lemma must_send_mono st se se' : st_send st = Some se →
  (reset_pending se' = true → reset_pending se = true) → (rtx_queue se' ≠ [] → rtx_queue se ≠ []) →
  write_buf se' = write_buf se → ss_fin_offset se' = ss_fin_offset se → fin_sent se' = fin_sent se →
  ss_reset_code se' = ss_reset_code se → (blocked_at se' ≠ None → blocked_at se ≠ None) →
  must_send (st <| st_send := Some se' |>) = true → must_send st = true.
Proof.
  intros Hse H1 H2 E1 E2 E3 E4 H3. unfold must_send. cbn [update st_send st_recv]. rewrite Hse, E1, E2, E3, E4.
  apply orb_mono; [|done]. apply orb_mono; [|revert H3; destruct (blocked_at se'), (blocked_at se); simpl; naive_solver].
  apply orb_mono; [|done]. apply orb_mono; [|done]. apply orb_mono; [done|].
  revert H2. destruct (rtx_queue se'), (rtx_queue se); simpl; naive_solver.
Qed.

Lemma streams_on_max_stream_data_inv s id limit s' res : inv s → u64 id → u64 limit →
  streams_on_max_stream_data s id limit = Some (s', res) → inv s'.
Proof.
  intros Hi Hid Hl Hgo. unfold streams_on_max_stream_data in Hgo.
  destruct (reject_send_half_frame_on_peer_uni s id); [|by injection Hgo as <- <-].
  destruct (ensure_remote_stream_exists s id) as [s1 res1] eqn:He.
  destruct (ensure_inv _ _ _ _ Hi Hid He) as [Hi1 _]. destruct res1 as [[]|e]; [|by injection Hgo as <- <-..].
  destruct (streams_map s1 !! id) as [st|] eqn:Hst; [|done]. cbn [mbind option_bind] in Hgo.
  destruct (st_send st) as [se|] eqn:Hse; [|by injection Hgo as <- <-].
  apply some_pair_inv in Hgo as [-> _].
  assert (get_send s1 id = Some (st, se)) as Hg by (by apply get_send_Some).
  destruct (same_fc_ok se _ (get_send_fc _ _ _ _ Hi1 Hg) (max_stream_data_fc se limit (get_send_fc _ _ _ _ Hi1 Hg) Hl))
    as [Hfc Hc].
  eapply put_send_same; [done..|by rewrite Hc|]. eapply wake_less_send; [done..|].
  unfold on_max_stream_data. destruct (peer_max_data se <? limit); apply (must_send_mono st se _ Hse); try done.
  cbn. by destruct (blocked_at se).
Qed.

Lemma on_data_blocked_inv P s limit : streams_inv P s → streams_inv P (on_data_blocked s limit).
Proof. intros Hi. unfold on_data_blocked. destruct (_ <? _); [|done]. by eapply flags_inv. Qed.

Lemma on_stream_data_blocked_inv s id limit : inv s → inv (on_stream_data_blocked s id limit).1.
Proof.
  intros Hi. unfold on_stream_data_blocked. destruct (get_recv s id) as [[st r]|] eqn:Hg; [|done].
  destruct (_ <? _); [|done]. eapply recv_enqueue_inv; [done..| |done].
  exact (half_flags _ r true (rs_max_data_announced r) (rs_stop_sending_pending r) (get_recv_half _ _ _ _ Hi Hg)).
Qed.

Lemma local_raise m r b next opened pm pm' : local_side m r b next opened pm → pm ≤ pm' ≤ MAX_STREAMS_LIMIT →
  local_side m r b next opened pm'.
Proof. intros [] ?. split; try done; lia. Qed.

Lemma on_max_streams_inv P s dir limit : streams_inv P s → limit ≤ MAX_STREAMS_LIMIT →
  streams_inv P (on_max_streams s dir limit).
Proof.
  intros Hi Hl. destruct Hi as [I1 I2 I3 I4 I5 I6 I7 I8 I9 []]. unfold on_max_streams. destruct dir.
  - destruct (Z.ltb_spec (peer_max_bidi s) limit); [|by split].
    split; [exact I1|exact I2|exact I3|exact I4|exact I5| |exact I7|exact I8|exact I9|by split].
    eapply local_raise; [exact I6|cbn; lia].
  - destruct (Z.ltb_spec (peer_max_uni s) limit); [|by split].
    split; [exact I1|exact I2|exact I3|exact I4|exact I5|exact I6| |exact I8|exact I9|by split].
    eapply local_raise; [exact I7|cbn; lia].
Qed.

Lemma enqueue_consumed s id v :
  enqueue_ready (s <| conn_consumed := v |>) id = (enqueue_ready s id) <| conn_consumed := v |>.
Proof. unfold enqueue_ready. cbn [update ready_set]. by destruct (bool_decide (id ∈ ready_set s)). Qed.

Lemma enqueue_ready_consumed s id : conn_consumed s = conn_consumed (enqueue_ready s id).
Proof. unfold enqueue_ready. by case_bool_decide. Qed.

Lemma streams_read_inv s id n : inv s → 0 ≤ n → inv (streams_read s id n).1.
Proof.
  intros Hi Hn. unfold streams_read. destruct (get_recv s id) as [[st r]|] eqn:Hg; [|done]. cbv zeta.
  destruct (stream_read r n) as [[r1 copied] fin] eqn:Hr. cbn [fst].
  pose proof (get_recv_half _ _ _ _ Hi Hg) as Hh. pose proof Hg as [Hst _]%get_recv_Some.
  destruct (half_read _ _ _ _ _ _ Hh Hn Hr) as [Hok Hc].
  destruct (stream_read_keeps _ _ _ _ _ Hr) as (_ & _ & _ & _ & _ & F2 & F1).
  pose proof (iv_recv _ _ Hi) as [_ _ _ _ Hu _ _]. pose proof (zlen_nonneg copied).
  apply reap_if_terminal_inv, refresh_readable_inv, maybe_replenish_conn_inv.
  assert (∀ P', (must_send (st <| st_recv := Some r1 |>) = true → id ∈ ready_to_send s ∨ P' id) →
    streams_inv P' ((put_recv s id st r1) <| conn_consumed := sat_add 64 (conn_consumed s) (zlen copied) |>)) as Hput.
  { intros P' Hw. assert (streams_inv (λ i, i = id) ((put_recv s id st r1) <| conn_consumed := conn_consumed s + zlen copied |>)) as Hput.
    { eapply (put_recv_inv _ s _ id st r r1 _ (zlen copied)); try done; cbn; try lia; [exact (sends_put_recv s id st r1 Hst)|by right..]. }
    assert (sat_add 64 (conn_consumed s) (zlen copied) = conn_consumed s + zlen copied) as ->.
    { pose proof (iv_recv _ _ Hput) as [Hhalf _ Hdebt _ Hus _ Hwd]. cbn in Hdebt, Hus, Hwd.
      pose proof (debt_nonneg _ _ Hhalf) as Hd. cbn in Hd. unfold sat_add. lia. }
    eapply (put_recv_inv _ s _ id st r r1 _ (zlen copied)); try done; cbn; try lia.
    exact (sends_put_recv s id st r1 Hst). }
  destruct (Z.eqb_spec (rs_max_data r1) (rs_max_data r)) as [He|He]; cbn [negb].
  - apply Hput. intros Hm. left. destruct (qs_wake _ _ _ _ (iv_queue _ _ Hi) id st Hst); [|done|done].
    apply get_recv_Some in Hg as [_ Hrv]. revert Hm. unfold must_send. cbn [update st_send st_recv].
    rewrite Hrv, F2. apply orb_mono; [done|]. apply orb_mono; [|done].
    intros Hp. destruct (F1 Hp); [done|lia].
  - assert (inv_but id ((put_recv s id st r1) <| conn_consumed := sat_add 64 (conn_consumed s) (zlen copied) |>))
      as Hb by (apply Hput; by right). apply enqueue_ready_inv in Hb. rewrite enqueue_consumed in Hb.
    rewrite <- enqueue_ready_consumed. exact Hb.
Qed.

(** * The packer *)

(** What emitting a frame does to a stream, as far as the invariant sees it. *)
Record pop_rel (st st' : Stream) : Prop := {
  pr_recv : option_Forall2 (λ r r', (∀ h, half_ok h r → half_ok h r')
              ∧ rs_conn_fc_credited r' = rs_conn_fc_credited r) (st_recv st) (st_recv st');
  pr_send : option_Forall2 (λ se se', send_fc se → send_fc se' ∧ charged se' = charged se)
              (st_send st) (st_send st') }.

Lemma pop_rel_refl st : pop_rel st st.
Proof. split; [destruct (st_recv st)|destruct (st_send st)]; constructor; by auto. Qed.

Lemma pop_rel_send st se se' : st_send st = Some se → (send_fc se → send_fc se' ∧ charged se' = charged se) →
  pop_rel st (st <| st_send := Some se' |>).
Proof.
  intros Hse H. split; cbn; [destruct (st_recv st); constructor; by auto|]. rewrite Hse. by constructor.
Qed.

Lemma pop_rel_recv st r r' : st_recv st = Some r → (∀ h, half_ok h r → half_ok h r') →
  rs_conn_fc_credited r' = rs_conn_fc_credited r → pop_rel st (st <| st_recv := Some r' |>).
Proof.
  intros Hr H Hc. split; cbn; [rewrite Hr; by constructor|]. destruct (st_send st); constructor; by auto.
Qed.

Lemma next_control_rel st id frame st' : next_control st id = Some (frame, st') → pop_rel st st'.
Proof.
  unfold next_control. cbv zeta.
  assert (∀ x, (send ← st_send st; lim ← blocked_at send;
    Some (Popped.StreamDataBlocked id lim, st <| st_send := Some (send <| blocked_at := None |>) |>)) = Some x →
    pop_rel st x.2) as Hb.
  { intros x. destruct (st_send st) as [se|] eqn:Hse; [|done]. simpl. destruct (blocked_at se); [|done].
    simpl. intros [= <-]. apply (pop_rel_send st se _ Hse). intros Hfc. by split; [apply blocked_fc|]. }
  intros Hn. assert (∀ r, st_recv st = Some r → ∀ mp ma ss,
    pop_rel st (st <| st_recv := Some (r <| rs_max_data_pending := mp |> <| rs_max_data_announced := ma |>
      <| rs_stop_sending_pending := ss |>) |>)) as Hrecv.
  { intros r Hr mp ma ss. apply (pop_rel_recv st r _ Hr); [|done]. intros h. apply half_flags. }
  assert ((∃ r code, st_recv st = Some r ∧ st' = st <| st_recv := Some (r <| rs_stop_sending_pending := code |>) |>)
    ∨ (∃ r, st_recv st = Some r ∧ st' = st <| st_recv := Some (r <| rs_max_data_pending := false |>
         <| rs_max_data_announced := rs_max_data r |>) |>)
    ∨ (∃ se, st_send st = Some se ∧ st' = st <| st_send := Some (set_reset_pending false se) |>)
    ∨ pop_rel st st') as [(r & code & Hr & ->)|[(r & Hr & ->)|[(se & Hse & ->)|?]]]; [| | | |done].
  { destruct (st_send st) as [se|] eqn:Hse; [destruct (reset_pending se)|];
      [injection Hn as _ <-; by eauto 10|..].
    all: destruct (st_recv st) as [r|] eqn:Hr; [|right; right; right; by apply (Hb (frame, st'))].
    all: destruct (rs_stop_sending_pending r); [injection Hn as _ <-; by eauto 10|].
    all: destruct (rs_max_data_pending r); [injection Hn as _ <-; by eauto 10|].
    all: right; right; right; by apply (Hb (frame, st')). }
  - exact (Hrecv r Hr (rs_max_data_pending r) (rs_max_data_announced r) code).
  - exact (Hrecv r Hr false (rs_max_data r) (rs_stop_sending_pending r)).
  - apply (pop_rel_send st se _ Hse). intros Hfc. apply same_fc_ok; [done|]. by apply same_fc_refl.
Qed.

(** Without a control frame to send, only data remains. *)
Lemma next_control_none st id : next_control st id = None →
  match st_send st with Some se => reset_pending se = false ∧ blocked_at se = None | None => True end
  ∧ match st_recv st with
    | Some r => rs_max_data_pending r = false ∧ rs_stop_sending_pending r = None
    | None => True
    end.
Proof.
  unfold next_control. cbv zeta. intros Hn.
  destruct (st_send st) as [se|]; simpl in *; [destruct (reset_pending se); [done|]; destruct (blocked_at se); simpl in Hn|];
  (destruct (st_recv st) as [r|]; [destruct (rs_stop_sending_pending r); [done|];
    destruct (rs_max_data_pending r); [done|]|]; done).
Qed.

(** What a stream pop promises to the queue. *)
Definition pop_wakes (st st' : Stream) (pop : StreamPop) : Prop :=
  match pop with
  | PopFrame _ more => must_send st' = true → more = true
  | NoRoom => st' = st
  | Idle => st' = st ∧ must_send st = false
  end.

Lemma must_send_data st se : st_send st = Some se → blocked_at se = None → reset_pending se = false →
  match st_recv st with
  | Some r => rs_max_data_pending r = false ∧ rs_stop_sending_pending r = None
  | None => True
  end → must_send st = true → has_outbound se = true.
Proof.
  intros Hse Hb Hr Hrv Hm. apply must_needs in Hm. unfold stream_needs_to_send in Hm. rewrite Hse, Hb, Hr in Hm.
  destruct (st_recv st) as [r|]; [destruct Hrv as [E1 E2]; rewrite E1, E2 in Hm|]; simpl in Hm;
    by rewrite !orb_false_r in Hm.
Qed.

Lemma carve_keeps se id cap out se' out' r : carve_frame se id cap out = (se', out', r) →
  blocked_at se' = blocked_at se ∧ reset_pending se' = reset_pending se ∧ rtx_queue se' = rtx_queue se
  ∧ ss_reset_code se' = ss_reset_code se ∧ ss_fin_offset se' = ss_fin_offset se.
Proof.
  unfold carve_frame, push_sent. destruct (negb _); [by intros [= <- _ _]|]. cbv zeta.
  destruct (chunk_acked _ _); by intros [= <- _ _].
Qed.

Lemma has_outbound_fin se : has_outbound se = true → rtx_queue se = [] → write_buf se = [] →
  is_some (ss_fin_offset se) = true ∧ fin_sent se = false.
Proof.
  unfold has_outbound. intros H E1 E2. rewrite E1, E2 in H. simpl in H. destruct (ss_fin_offset se), (fin_sent se); done.
Qed.

(** A FIN on its own leaves nothing to send, unless the half has been reset. *)
Lemma carve_fin_quiet se id out se' out' r : send_fc se → rtx_queue se = [] → write_buf se = [] →
  has_outbound se = true → carve_frame se id 0 out = (se', out', r) →
  write_buf se' = [] ∧ (ss_reset_code se = None → fin_sent se' = true).
Proof.
  intros Hfc Hq Hb Ho Hc. destruct (has_outbound_fin se Ho Hq Hb) as [Hf Hfs]. pose proof Hfc as [F1 F2 F3 _ F4].
  unfold carve_frame in Hc. rewrite Ho in Hc. cbn [negb] in Hc. cbv zeta in Hc. rewrite Hb in Hc.
  change (Z.min 0 (zlen [])) with 0 in Hc. change (zdrop 0 []) with (@nil Z) in Hc.
  unfold charged in F4. rewrite Hb in F4. change (zlen []) with 0 in F4.
  assert (wadd 64 (write_off se) 0 = write_off se) as Hw
    by (unfold wadd; rewrite Z.add_0_r; apply wrap_small; unfold in_width; lia).
  rewrite Hw in Hc. injection Hc as <- _ _.
  match goal with |- context [push_sent ?m ?c] => destruct (push_sent_keeps m c) as (_ & E2 & _);
    assert (write_buf (push_sent m c) = write_buf m) as -> by (unfold push_sent; by destruct (chunk_acked m c));
    rewrite E2 end.
  split; [done|]. intros Hn. cbn. destruct (ss_fin_offset se) as [f|] eqn:Ef; [|done].
  rewrite (F3 Hn f eq_refl), Hfs. unfold charged. rewrite Hb. change (zlen []) with 0.
  by rewrite Z.add_0_r, !Z.eqb_refl.
Qed.

Lemma pop_data_rel st id budget out st' out' pop : next_control st id = None → 0 ≤ budget →
  (∀ se, st_send st = Some se → send_fc se) → pop_data st id budget out = Some (st', out', pop) →
  pop_rel st st' ∧ pop_wakes st st' pop.
Proof.
  intros Hnc Hbud Hfc Hp. apply next_control_none in Hnc as [Hns Hnr].
  assert (∀ x, pop_wakes st st NoRoom → Some (st, x, NoRoom) = Some (st', out', pop) →
    pop_rel st st' ∧ pop_wakes st st' pop) as Hroom by (intros x _ [= <- _ <-]; by split; [apply pop_rel_refl|]).
  unfold pop_data in Hp. destruct (st_send st) as [se|] eqn:Hse.
  2:{ injection Hp as <- _ <-. split; [apply pop_rel_refl|]. split; [done|]. unfold must_send. rewrite Hse.
      destruct (st_recv st) as [r|]; [|done]. destruct Hnr as [-> ->]. done. }
  specialize (Hfc se eq_refl). destruct Hns as [Hrp Hbl].
  destruct (peek_rtx se) as [[o l]|] eqn:Hpk.
  - unfold pop_rtx in Hp. cbv zeta in Hp. destruct (_ <? _); [by apply (Hroom out)|].
    destruct (pop_rtx_frame se id _ out) as [[se' o'] [[[x y] z]|]] eqn:Hpr; [|done]. injection Hp as <- _ <-.
    split; [apply (pop_rel_send st se se' Hse); intros _; apply same_fc_ok; [done|]; by eapply pop_rtx_fc|].
    cbn [pop_wakes]. apply must_needs.
  - assert (rtx_queue se = []) as Hq.
    { unfold peek_rtx in Hpk. by destruct (rtx_queue se) as [|[[? ?] ?] ?]. }
    destruct (has_outbound se) eqn:Ho.
    2:{ injection Hp as <- _ <-. split; [apply pop_rel_refl|]. split; [done|].
        destruct (must_send st) eqn:Hm; [|done]. by rewrite (must_send_data st se Hse Hbl Hrp Hnr Hm) in Ho. }
    unfold pop_fresh in Hp. cbv zeta in Hp. destruct (Z.ltb_spec budget (stream_header_len id (write_off se) (zlen (write_buf se)) + 1)); [by apply (Hroom out)|].
    pose proof (zlen_nonneg (write_buf se)) as Hz.
    set (cs := Z.min _ _) in Hp. assert (0 ≤ cs) by (subst cs; unfold sat_sub; lia).
    destruct (Z.eqb_spec cs 0) as [Hcs|Hcs].
    + destruct (_ && _ && _ && _); [|by apply (Hroom out)].
      destruct (carve_frame se id 0 out) as [[se' o'] [[[x y] z]|]] eqn:Hc; [|done]. injection Hp as <- _ <-.
      split; [apply (pop_rel_send st se se' Hse); intros _; eapply carve_fc; [done| |done]; lia|].
      assert (write_buf se = []) as Hb by (apply length_zero_iff_nil; subst cs; unfold sat_sub, zlen in *; lia).
      destruct (carve_fin_quiet se id out se' o' _ Hfc Hq Hb Ho Hc) as [Hb' Hf].
      destruct (carve_keeps _ _ _ _ _ _ _ Hc) as (K1 & K2 & K3 & K4 & K5).
      cbn [pop_wakes]. unfold must_send. cbn [update st_send st_recv]. rewrite K1, K2, K3, K4, K5, Hrp, Hbl, Hq, Hb'.
      destruct (st_recv st) as [r|]; [destruct Hnr as [-> ->]|]; destruct (ss_reset_code se); simpl;
        rewrite ?andb_false_r, ?orb_false_r; try done; rewrite Hf by done; by rewrite andb_false_r.
    + destruct (carve_frame se id cs out) as [[se' o'] [[[x y] z]|]] eqn:Hc; [|done]. injection Hp as <- _ <-.
      split; [apply (pop_rel_send st se se' Hse); intros _; by eapply carve_fc|].
      destruct (carve_keeps _ _ _ _ _ _ _ Hc) as (K1 & K2 & K3 & K4 & K5).
      cbn [pop_wakes]. apply (must_send_data (mkStream (st_id st) (Some se') (st_recv st))); [done|congruence|congruence|done].
Qed.

Lemma pop_stream_frame_rel st id budget out st' out' pop : 0 ≤ budget →
  (∀ se, st_send st = Some se → send_fc se) → pop_stream_frame st id budget out = Some (st', out', pop) →
  pop_rel st st' ∧ pop_wakes st st' pop.
Proof.
  intros Hb Hfc Hp. unfold pop_stream_frame in Hp. destruct (next_control st id) as [[frame st1]|] eqn:Hn.
  - unfold pop_control in Hp. destruct (_ <? _); [injection Hp as <- _ <-; by split; [apply pop_rel_refl|]|].
    destruct (popped_encode frame out); [|done]. injection Hp as <- _ <-.
    split; [by eapply next_control_rel|]. cbn [pop_wakes]. apply must_needs.
  - by eapply pop_data_rel.
Qed.

(** A popped stream is written back. *)
Lemma pop_put_inv (P P' : Z → Prop) s id st st' : streams_inv P s → streams_map s !! id = Some st →
  pop_rel st st' → (∀ i, i ≠ id → P i → P' i) → (must_send st' = true → id ∈ ready_to_send s ∨ P' id) →
  streams_inv P' (put_stream s id st').
Proof.
  intros Hi Hst [Hr Hs] HP Hw. eapply (inv_put P P' s _ id st st'); try done.
  - pose proof (rv_used _ _ _ _ _ _ (iv_recv _ _ Hi)) as Hu. unfold recvs. cbn.
    inversion Hr as [r r' [Hok Hc] E1 E2|E1 E2].
    + rewrite (omap_put_some st_recv _ id _ r') by done.
      assert (recvs s !! id = Some r) as Hlk by (by rewrite (recvs_lookup s id st)).
      pose proof (rside_put (recvs s) (stream_high_offset s) (stream_high_offset s) _ _ _ _ id r r'
        (high_of (stream_high_offset s) id) 0 (iv_recv _ _ Hi) Hlk
        ltac:(apply Hok, (rv_half _ _ _ _ _ _ (iv_recv _ _ Hi) id r Hlk)) eq_refl ltac:(done) ltac:(lia)
        ltac:(lia) ltac:(lia) ltac:(lia)) as H. by rewrite Z.sub_diag, !Z.add_0_r in H.
    + rewrite (omap_put_same st_recv _ id st) by congruence. apply Hi.
  - pose proof (sd_used _ _ _ (iv_send _ _ Hi)) as Hu. unfold sends. cbn.
    inversion Hs as [se se' Hok E1 E2|E1 E2].
    + rewrite (omap_put_some st_send _ id _ se') by done.
      assert (sends s !! id = Some se) as Hlk by (by rewrite (sends_lookup s id st)).
      destruct (Hok (sd_half _ _ _ (iv_send _ _ Hi) id se Hlk)) as [Hfc Hc].
      pose proof (sside_put (sends s) _ _ id se se' 0 (iv_send _ _ Hi) Hlk Hfc ltac:(lia) ltac:(lia)) as H.
      by rewrite Z.add_0_r in H.
    + rewrite (omap_put_same st_send _ id st) by congruence. apply Hi.
Qed.

(** The head of the queue is taken off it. *)
Lemma dequeue_inv s id queue : inv s → ready_to_send s = id :: queue →
  inv_but id (s <| ready_to_send := queue |> <| ready_set := ready_set s ∖ {[id]} |>).
Proof.
  intros [I1 I2 [Q1 Q2 Q3] I4 I5 I6 I7 I8 I9 []] Hq. rewrite Hq in Q1, Q2, Q3. apply NoDup_cons in Q1 as [Hn Q1].
  split; [exact I1|exact I2| |exact I4|exact I5|exact I6|exact I7|exact I8|exact I9|by split].
  split; [exact Q1| |].
  - intros i. cbn. rewrite elem_of_difference, not_elem_of_singleton, Q2, elem_of_cons.
    split; [tauto|]. intros Hi. split; [by right|]. intros ->. done.
  - intros i st Hst Hm. destruct (Q3 i st Hst Hm) as [Hin|Hin]; [|done]. apply elem_of_cons in Hin as [->|]; [by right|by left].
Qed.

Lemma inv_but_quiet s id : inv_but id s → (∀ st, streams_map s !! id = Some st → must_send st = false) → inv s.
Proof.
  intros [I1 I2 [Q1 Q2 Q3] I4 I5 I6 I7 I8 I9 []] Hq. split; try done. split; try done.
  intros i st Hst Hm. destruct (Q3 i st Hst Hm) as [?| ->]; [by left|]. by rewrite (Hq st Hst) in Hm.
Qed.

Lemma pop_ready_inv n : ∀ s budget out s' out' pop, inv s → 0 ≤ budget →
  pop_ready n s budget out = Some (s', out', pop) → inv s'.
Proof.
  induction n as [|n IH]; intros s budget out s' out' pop Hi Hb Hp; cbn [pop_ready] in Hp; [by injection Hp as <- _ _|].
  destruct (ready_to_send s) as [|id queue] eqn:Hq; [by injection Hp as <- _ _|].
  pose proof (dequeue_inv s id queue Hi Hq) as Hd. cbv zeta in Hp.
  set (s1 := s <| ready_to_send := queue |> <| ready_set := _ |>) in *.
  change (streams_map s1) with (streams_map s) in Hp. destruct (streams_map s !! id) as [st|] eqn:Hst.
  2:{ eapply IH; [|done..]. apply (inv_but_quiet s1 id Hd). intros st Hs. change (streams_map s !! id = Some st) in Hs. congruence. }
  destruct (pop_stream_frame st id budget out) as [[[st' o'] p]|] eqn:Hpop; [|done]. cbn [mbind option_bind] in Hp.
  assert (∀ se, st_send st = Some se → send_fc se) as Hfc
    by (intros se Hse; by apply (get_send_fc s id st se Hi), get_send_Some).
  destruct (pop_stream_frame_rel _ _ _ _ _ _ _ Hb Hfc Hpop) as [Hrel Hw].
  assert (inv_but id (put_stream s1 id st')) as Hbut
    by (eapply pop_put_inv; [exact Hd|exact Hst|done|by auto|by right]).
  destruct p as [frame more| |]; cbn [pop_wakes] in Hw.
  - destruct more; injection Hp as <- _ _; [by apply enqueue_ready_inv|].
    apply (inv_but_quiet _ id Hbut). intros x Hx. cbn in Hx. rewrite lookup_insert_eq in Hx. injection Hx as <-.
    destruct (must_send st'); [|done]. by specialize (Hw eq_refl).
  - eapply IH; [|done..]. by apply enqueue_ready_inv.
  - destruct Hw as [-> Hw]. eapply IH; [|done..]. apply (inv_but_quiet _ id Hbut).
    intros x Hx. cbn in Hx. rewrite lookup_insert_eq in Hx. by injection Hx as <-.
Qed.

Lemma pop_conn_frames_inv P s budget out s' out' frame : streams_inv P s →
  pop_conn_frames s budget out = Some (s', out', frame) → streams_inv P s'.
Proof.
  intros Hi Hp. unfold pop_conn_frames in Hp. cbv zeta in Hp. apply head_Some_elem_of in Hp.
  apply list_elem_of_omap in Hp as (o & Hin & Ho). simpl in Ho. subst o.
  assert (∀ pending cleared, pop_conn pending cleared budget out = Some (s', out', frame) → s' = cleared) as Hc.
  { intros pending cleared. unfold pop_conn. destruct pending; [|done]. simpl. destruct (_ <=? _); [|done].
    by intros [= -> _ _]. }
  rewrite !elem_of_cons, elem_of_nil in Hin.
  destruct Hin as [H|[H|[H|[H|[H|[H|H]]]]]]; [..|done]; symmetry in H; apply Hc in H as ->; by eapply flags_inv.
Qed.

Lemma pop_frame_into_inv s budget out s' out' pop : inv s → 0 ≤ budget →
  pop_frame_into s budget out = Some (s', out', pop) → inv s'.
Proof.
  intros Hi Hb Hp. unfold pop_frame_into in Hp.
  destruct (pop_conn_frames s budget out) as [[[s1 [o|]] frame]|] eqn:Hc; [| |by eapply pop_ready_inv].
  - injection Hp as <- _ _. by eapply pop_conn_frames_inv.
  - done.
Qed.

(** * Acknowledgements and losses *)

Lemma acked_rtx se o l fin : rtx_queue (on_range_acked se o l fin) ≠ [] → rtx_queue se ≠ [].
Proof.
  intros H E. apply H. unfold on_range_acked. rewrite E. by destruct (_ && _ && _ && _).
Qed.

Lemma on_chunk_acked_inv s id o l fin : inv s → inv (on_chunk_acked s id o l fin).
Proof.
  intros Hi. unfold on_chunk_acked. apply reap_if_terminal_inv.
  destruct (get_send s id) as [[st se]|] eqn:Hg; [|done]. pose proof (get_send_fc _ _ _ _ Hi Hg) as Hfc.
  destruct (same_fc_ok _ _ Hfc (on_range_acked_fc se o l fin Hfc)) as [Hfc' Hc].
  eapply put_send_same; [done..|by rewrite Hc|]. eapply wake_less_send; [done..|].
  apply get_send_Some in Hg as [_ Hse]. apply (must_send_mono st se _ Hse); [| |..];
    try (unfold on_range_acked; by destruct (_ && _ && _ && _)). apply acked_rtx.
Qed.

Lemma on_chunk_lost_inv s id o l fin : inv s → inv (on_chunk_lost s id o l fin).
Proof.
  intros Hi. unfold on_chunk_lost. destruct (get_send s id) as [[st se]|] eqn:Hg; [|done].
  pose proof (get_send_fc _ _ _ _ Hi Hg) as Hfc.
  pose proof (on_range_lost_fc se o l fin Hfc) as Hs. destruct (on_range_lost se o l fin) as [se' moved] eqn:Hl.
  cbn [fst] in Hs. destruct moved; [by eapply send_enqueue_fc|].
  destruct (same_fc_ok _ _ Hfc Hs) as [Hfc' Hc].
  eapply put_send_same; [done..|by rewrite Hc|]. eapply wake_less_send; [done..|].
  apply get_send_Some in Hg as [_ Hse]. unfold on_range_lost in Hl. injection Hl as <- Hm.
  apply negb_false_iff in Hm. apply (must_send_mono st se _ Hse); try done.
  simpl.
  destruct (filter (λ c, lost_chunk se o _ fin c = true) (sent_chunks se)); [by rewrite app_nil_r|done].
Qed.

Lemma on_control_lost_inv s hint : inv s → inv (on_control_lost s hint).
Proof.
  intros Hi. destruct hint as [id|id code|limit|id limit|limit|id limit|[] limit|[] limit]; cbn [on_control_lost].
  - destruct (get_send s id) as [[st se]|] eqn:Hg; [|done]. pose proof (get_send_fc _ _ _ _ Hi Hg) as Hfc.
    unfold on_reset_lost. destruct (_ && _).
    + eapply send_enqueue_fc; [done..|]. by apply same_fc_refl.
    + eapply put_send_same; [done..|]. eapply wake_less_send; [done..|].
      apply get_send_Some in Hg as [_ Hse]. by apply (must_send_mono st se _ Hse).
  - destruct (get_recv s id) as [[st r]|] eqn:Hg; [|done]. destruct (_ && _); [|done].
    eapply recv_enqueue_inv; [done..| |done].
    exact (half_flags _ r (rs_max_data_pending r) (rs_max_data_announced r) (Some code) (get_recv_half _ _ _ _ Hi Hg)).
  - destruct (_ =? _); [|done]. by eapply flags_inv.
  - destruct (get_recv s id) as [[st r]|] eqn:Hg; [|done]. destruct (_ && _); [|done].
    eapply recv_enqueue_inv; [done..| |done].
    exact (half_flags _ r true (rs_max_data_announced r) (rs_stop_sending_pending r) (get_recv_half _ _ _ _ Hi Hg)).
  - destruct (_ && _); [|done]. by eapply flags_inv.
  - destruct (get_send s id) as [[st se]|] eqn:Hg; [|done]. destruct (_ && _ && _); [|done].
    eapply send_enqueue_inv; [done..| |done]. by apply blocked_fc, (get_send_fc _ _ _ _ Hi Hg).
  - destruct (_ =? _); [|done]. by eapply flags_inv.
  - destruct (_ =? _); [|done]. by eapply flags_inv.
  - destruct (_ =? _); [|done]. by eapply flags_inv.
  - destruct (_ =? _); [|done]. by eapply flags_inv.
Qed.

Lemma on_control_acked_inv s hint : inv s → inv (on_control_acked s hint).
Proof.
  intros Hi. destruct hint as [id| | | | | | | ]; cbn [on_control_acked]; [|done..]. apply reap_if_terminal_inv.
  destruct (get_send s id) as [[st se]|] eqn:Hg; [|done]. pose proof (get_send_fc _ _ _ _ Hi Hg) as Hfc.
  assert (same_fc se (on_reset_acked se)) as Hs
    by (unfold on_reset_acked; destruct (ss_state se); by apply same_fc_refl).
  destruct (same_fc_ok _ _ Hfc Hs) as [Hfc' Hc].
  eapply put_send_same; [done..|by rewrite Hc|]. eapply wake_less_send; [done..|].
  apply get_send_Some in Hg as [_ Hse]. unfold on_reset_acked.
  destruct (ss_state se); by apply (must_send_mono st se _ Hse).
Qed.

(** * Executions *)

Lemma streams_new_inv r our peer : limits_ok our → limits_ok peer → inv (streams_new r our peer).
Proof.
  intros [A1 A2 A3 A4 A5 A6] [B1 B2 B3 B4 B5 B6].
  assert (∀ b m, local_side ∅ r b (local_base r b) 0 m ↔ 0 ≤ m ≤ MAX_STREAMS_LIMIT) as Hloc.
  { intros b m. split; [intros []; lia|]. intros ?. split; try done; try lia. intros i [? ?%lookup_empty_Some]. done. }
  assert (∀ m, 0 ≤ m ≤ MAX_STREAMS_LIMIT → ∀ b, dir_side (live_ids r b ∅) ∅ 0 0 m m) as Hdir.
  { intros m Hm b. assert (live_ids r b ∅ = ∅) as ->.
    { apply set_eq. intros i. rewrite elem_live, lookup_empty, elem_of_empty. split; [by intros [_ [? ?]]|done]. }
    split; try (rewrite ?size_empty; lia); try (intros ? ?%elem_of_empty; done).
    change MAX_STREAMS_LIMIT with (2 ^ 60) in *. lia. }
  unfold u64 in *. destruct r; (split; cbn; [| | |by apply Hdir|by apply Hdir|by apply (Hloc true)|by apply (Hloc false)| | |]).
  all: try (intros i [? ?%lookup_empty_Some]; done).
  all: try (unfold RETIRED_FINAL_SIZES; rewrite map_size_empty; lia).
  all: try (split; unfold u64; cbn; assumption).
  all: try (unfold recvs; cbn; rewrite omap_empty; split; try done; try lia; unfold debt; rewrite msum_empty; lia).
  all: try (unfold sends; cbn; rewrite omap_empty; split; try done; rewrite msum_empty; lia).
  all: split; [constructor|intros i; cbn; by rewrite elem_of_empty, elem_of_nil|by intros i st ?%lookup_empty_Some].
Qed.
