(* ===== verification/StreamsSpec.v ===== *)
(** What the stream table promises on every execution from [Streams::new]: the invariant of
    [StreamsInv] and its consequences for flow control, admission and the ready queue;
    what the packer emits, that it makes progress; and what late frames on a retired
    stream do. *)

From S2P Require Import Prelude TlsBase Varint Ack BTree ByteStream Codec Frame RecvStream SendStream TransportParams Streams StreamsInv StreamsOps.

(** * Executions *)

(** One call of the table's interface.  What comes off the wire is a varint, a stream
    limit is at most [MAX_STREAMS_LIMIT] (the frame decoder rejects more), and the
    connection has not granted the peer 2^62 bytes. *)
Inductive streams_step (s : Streams) : Streams → Prop :=
| step_adopt p : limits_ok p → streams_step s (adopt_peer_limits s p).1
| step_requeue : streams_step s (requeue_all_unacked s)
| step_open_bidi : streams_step s (open_bidi s).1
| step_open_uni : streams_step s (open_uni s).1
| step_write id data : streams_step s (streams_write s id data).1
| step_finish id : streams_step s (streams_finish s id).1
| step_reset id code : streams_step s (streams_reset s id code).1
| step_stop_sending id code : streams_step s (streams_stop_sending s id code).1
| step_read id n : 0 ≤ n → streams_step s (streams_read s id n).1
| step_on_stream id offset fin data s' res : is_varint id → is_varint offset →
    conn_recv_max s ≤ VARINT_MAX → on_stream s id offset fin data = Some (s', res) → streams_step s s'
| step_on_reset id code size s' res : is_varint id → conn_recv_max s ≤ VARINT_MAX →
    streams_on_reset s id code size = Some (s', res) → streams_step s s'
| step_on_stop_sending id code s' res : is_varint id → on_stop_sending s id code = Some (s', res) → streams_step s s'
| step_on_max_data limit : is_varint limit → streams_step s (on_max_data s limit)
| step_on_max_stream_data id limit s' res : is_varint id → is_varint limit →
    streams_on_max_stream_data s id limit = Some (s', res) → streams_step s s'
| step_on_data_blocked limit : streams_step s (on_data_blocked s limit)
| step_on_stream_data_blocked id limit : streams_step s (on_stream_data_blocked s id limit).1
| step_on_max_streams dir limit : limit ≤ MAX_STREAMS_LIMIT → streams_step s (on_max_streams s dir limit)
| step_on_streams_blocked dir limit : streams_step s (on_streams_blocked s dir limit)
| step_pop budget out s' out' frame : 0 ≤ budget →
    pop_frame_into s budget out = Some (s', out', frame) → streams_step s s'
| step_chunk_acked id offset len fin : streams_step s (on_chunk_acked s id offset len fin)
| step_chunk_lost id offset len fin : streams_step s (on_chunk_lost s id offset len fin)
| step_control_acked hint : streams_step s (on_control_acked s hint)
| step_control_lost hint : streams_step s (on_control_lost s hint).

Definition streams_reachable (s : Streams) : Prop :=
  ∃ r our peer, limits_ok our ∧ limits_ok peer ∧ rtc streams_step (streams_new r our peer) s.

Lemma varint_u64 v : is_varint v → u64 v.
Proof. unfold is_varint, u64. change VARINT_MAX with (2 ^ 62 - 1). lia. Qed.

Lemma granted_range s : conn_recv_max s ≤ VARINT_MAX → in_range s.
Proof. unfold in_range. change VARINT_MAX with (2 ^ 62 - 1). lia. Qed.

Lemma streams_step_inv s s' : inv s → streams_step s s' → inv s'.
Proof.
  intros Hi Hs. destruct Hs as [p Hp| | | |id data|id|id code|id code|id n Hn|id o fin d s' res V1 V2 Hm E|id c z s' res V Hm E
    |id c s' res V E|limit V|id limit s' res V1 V2 E|limit|id limit|dir limit V|dir limit|budget out s' out' fr Hb E
    |id o l fin|id o l fin|hint|hint].
  - by apply adopt_peer_limits_inv.
  - by apply requeue_all_unacked_inv.
  - by apply open_bidi_inv.
  - by apply open_uni_inv.
  - by apply streams_write_inv.
  - by apply streams_finish_inv.
  - by apply streams_reset_inv.
  - by apply streams_stop_sending_inv.
  - by apply streams_read_inv.
  - exact (on_stream_inv _ _ _ _ _ _ _ Hi (granted_range _ Hm) (varint_u64 _ V1) (varint_u64 _ V2) E).
  - exact (streams_on_reset_inv _ _ _ _ _ _ Hi (granted_range _ Hm) (varint_u64 _ V) E).
  - exact (on_stop_sending_inv _ _ _ _ _ Hi (varint_u64 _ V) E).
  - by apply on_max_data_inv, varint_u64.
  - exact (streams_on_max_stream_data_inv _ _ _ _ _ Hi (varint_u64 _ V1) (varint_u64 _ V2) E).
  - by apply on_data_blocked_inv.
  - by apply on_stream_data_blocked_inv.
  - by apply on_max_streams_inv.
  - done.
  - exact (pop_frame_into_inv _ _ _ _ _ _ Hi Hb E).
  - by apply on_chunk_acked_inv.
  - by apply on_chunk_lost_inv.
  - by apply on_control_acked_inv.
  - by apply on_control_lost_inv.
Qed.

Lemma reachable_inv s : streams_reachable s → inv s.
Proof.
  intros (r & our & peer & Ho & Hp & Hs). pose proof (streams_new_inv r our peer Ho Hp) as Hi.
  induction Hs as [|s1 s2 s3 H12 _ IH]; [done|]. apply IH. by eapply streams_step_inv.
Qed.

(** * What the packer emits *)

Lemma put_varint_app v out : put_varint v out = Some (out ++ venc v).
Proof. unfold put_varint, venc. by rewrite varint_encode_app. Qed.

(** [enc] is the encoding of the frame [f]. *)
Definition emits (f : popped_frame) (enc : bytes) : Prop :=
  match f with
  | Popped.Stream id offset len fin =>
      ∃ b, zlen b = len ∧ frame_encode (Frame.Stream id offset fin b) [] = Some enc
  | _ => popped_encode f [] = Some enc
  end.

Lemma popped_encode_len f out : (∀ id o l fin, f ≠ Popped.Stream id o l fin) →
  ∃ enc, popped_encode f out = Some (out ++ enc) ∧ emits f enc ∧ zlen enc = popped_encoded_len f.
Proof.
  intros Hf. destruct f as [| | | | | | |[]|[]]; [by destruct (Hf id offset len fin)|..].
  all: cbn [popped_encode frame_encode popped_encoded_len emits]; unfold wseq, put_u8; cbn [mbind option_bind].
  all: rewrite ?put_varint_app; cbn [mbind option_bind]; rewrite ?put_varint_app; cbn [mbind option_bind];
    rewrite ?put_varint_app; cbn [mbind option_bind]; rewrite <- ?app_assoc.
  all: eexists; split; [reflexivity|]; split; [reflexivity|].
  all: unfold venc; rewrite ?zlen_app, ?zlen_varint_into; unfold zlen; simpl; lia.
Qed.

Lemma stream_header_app out id off len fin :
  encode_stream_header out id off len fin = out ++ encode_stream_header [] id off len fin.
Proof.
  unfold encode_stream_header. cbv zeta. destruct (negb (off =? 0)).
  - rewrite (varint_encode_app len), (varint_encode_app off), (varint_encode_app id).
    rewrite (varint_encode_app len (varint_encode off _)), (varint_encode_app off (varint_encode id ([] ++ _))),
      (varint_encode_app id ([] ++ _)), <- !app_assoc. done.
  - rewrite (varint_encode_app len), (varint_encode_app id).
    rewrite (varint_encode_app len (varint_encode id _)), (varint_encode_app id ([] ++ _)), <- !app_assoc. done.
Qed.

Lemma zlen_stream_header id off len fin : 0 ≤ off →
  zlen (encode_stream_header [] id off len fin) = stream_header_len id off len.
Proof.
  intros Ho. unfold encode_stream_header, stream_header_len. cbv zeta. rewrite zlen_varint_into.
  destruct (Z.eqb_spec off 0), (Z.ltb_spec 0 off); try lia; cbn [negb]; rewrite ?zlen_varint_into; unfold zlen; simpl; lia.
Qed.

Lemma varint_len_mono v w : v ≤ w → varint_encoded_len v ≤ varint_encoded_len w.
Proof.
  intros H. unfold varint_encoded_len. change (Z.shiftl 1 6) with 64. change (Z.shiftl 1 14) with 16384.
  change (Z.shiftl 1 30) with 1073741824. repeat case_match; lia.
Qed.

(** The bytes appended for one frame. *)
Definition pop_emits (budget : Z) (enc : bytes) (pop : StreamPop) : Prop :=
  zlen enc ≤ budget ∧ (26 ≤ budget → pop ≠ NoRoom)
  ∧ match pop with PopFrame f _ => emits f enc | _ => enc = [] end.

Lemma stream_emits id off fin b budget more : 0 ≤ off →
  stream_header_len id off (zlen b) + zlen b ≤ budget →
  pop_emits budget (encode_stream_header [] id off (zlen b) fin ++ b) (PopFrame (Popped.Stream id off (zlen b) fin) more).
Proof.
  intros Ho Hb. split; [rewrite zlen_app, zlen_stream_header by done; lia|]. split; [done|].
  exists b. split; [done|]. apply encode_stream_header_frame.
Qed.

Lemma noroom_emits budget : 0 ≤ budget < 26 → pop_emits budget [] NoRoom.
Proof. intros ?. split; [done || (unfold zlen; simpl; lia)|]. split; [lia|done]. Qed.

Lemma idle_emits budget : 0 ≤ budget → pop_emits budget [] Idle.
Proof. intros ?. split; [unfold zlen; simpl; lia|]. done. Qed.

Lemma stream_header_le id off len : stream_header_len id off len ≤ 25.
Proof.
  unfold stream_header_len. pose proof (varint_encoded_len_le id). pose proof (varint_encoded_len_le off).
  pose proof (varint_encoded_len_le len). destruct (0 <? off); lia.
Qed.

Lemma ztake_len n (b : bytes) : 0 ≤ n ≤ zlen b → zlen (ztake n b) = n.
Proof. unfold zlen, ztake. rewrite length_take. lia. Qed.

Lemma pop_rtx_emits st se id budget out o b f rest : 0 ≤ budget → rtx_queue se = (o, b, f) :: rest → 0 ≤ o →
  ∃ st' enc pop, pop_rtx st se o (zlen b) id budget out = Some (st', out ++ enc, pop) ∧ pop_emits budget enc pop.
Proof.
  intros Hb Hq Ho. unfold pop_rtx. cbv zeta. set (h := stream_header_len id o (zlen b)).
  pose proof (stream_header_le id o (zlen b)). fold h in H. pose proof (zlen_nonneg b).
  destruct (Z.ltb_spec budget (h + (if 0 <? zlen b then 1 else 0))) as [Hlt|Hge].
  { exists st, [], NoRoom. rewrite app_nil_r. split; [done|]. apply noroom_emits. destruct (0 <? zlen b); lia. }
  unfold pop_rtx_frame. rewrite Hq. destruct (Z.leb_spec (zlen b) (budget - h)) as [Hle|Hgt].
  - rewrite stream_header_app, <- app_assoc. eexists _, _, _. split; [reflexivity|].
    apply stream_emits; [done|fold h; lia].
  - destruct (Z.ltb_spec 0 (zlen b)); [|lia].
    rewrite stream_header_app, <- app_assoc. eexists _, _, _. split; [reflexivity|].
    pose proof (ztake_len (budget - h) b ltac:(lia)) as Hz. rewrite <- Hz at 1 3. apply stream_emits; [done|].
    pose proof (varint_len_mono (budget - h) (zlen b) ltac:(lia)). rewrite Hz. unfold h, stream_header_len in *. lia.
Qed.

Lemma carve_emits se id cap out : has_outbound se = true → 0 ≤ write_off se → 0 ≤ cap ≤ zlen (write_buf se) →
  ∃ se' fin b, zlen b = cap ∧ carve_frame se id cap out
    = (se', out ++ encode_stream_header [] id (write_off se) (zlen b) fin ++ b, Some (write_off se, zlen b, fin)).
Proof.
  intros Ho Hw Hc. unfold carve_frame. rewrite Ho. cbn [negb]. cbv zeta.
  rewrite (Z.min_l cap (zlen (write_buf se))) by lia.
  pose proof (ztake_len cap (write_buf se) ltac:(lia)) as Hz. eexists _, _, (ztake cap (write_buf se)). split; [done|].
  rewrite stream_header_app, <- app_assoc, Hz. reflexivity.
Qed.

Lemma pop_fresh_emits st se id budget out : 0 ≤ budget → has_outbound se = true → rtx_queue se = [] → 0 ≤ write_off se →
  ∃ st' enc pop, pop_fresh st se id budget out = Some (st', out ++ enc, pop) ∧ pop_emits budget enc pop.
Proof.
  intros Hb Ho Hq Hw. unfold pop_fresh. cbv zeta. set (l := zlen (write_buf se)). set (h := stream_header_len id (write_off se) l).
  pose proof (stream_header_le id (write_off se) l). fold h in H.
  assert (0 ≤ l) as Hl by apply zlen_nonneg.
  assert (∀ n, n ≤ l → stream_header_len id (write_off se) n ≤ h) as Hmono.
  { intros n Hn. unfold h, stream_header_len. pose proof (varint_len_mono n l Hn). lia. }
  destruct (Z.ltb_spec budget (h + 1)).
  { exists st, [], NoRoom. rewrite app_nil_r. split; [done|]. apply noroom_emits. lia. }
  destruct (Z.eqb_spec (Z.min (sat_sub budget h) l) 0) as [Hz|Hz].
  - assert (l = 0) as Hl0 by (unfold sat_sub in Hz; lia).
    assert (write_buf se = []) as Hbuf by (apply length_zero_iff_nil; unfold l, zlen in Hl0; lia).
    destruct (has_outbound_fin se Ho Hq Hbuf) as [-> ->]. rewrite Hbuf.
    assert ((stream_header_len id (write_off se) 0 <=? budget) = true) as -> by (apply Z.leb_le; specialize (Hmono 0); lia).
    cbn [negb andb is_nil].
    destruct (carve_emits se id 0 out Ho Hw ltac:(lia)) as (se' & fin & b & Hzb & ->). rewrite Hzb.
    eexists _, _, _. split; [reflexivity|]. rewrite <- Hzb. apply stream_emits; [done|]. rewrite Hzb. specialize (Hmono 0). lia.
  - set (n := Z.min (sat_sub budget h) l) in *. assert (0 ≤ n ≤ l ∧ h + n ≤ budget) as [? ?] by (unfold n, sat_sub; lia).
    destruct (carve_emits se id n out Ho Hw ltac:(done)) as (se' & fin & b & Hzb & ->).
    eexists _, _, _. split; [reflexivity|]. apply stream_emits; [done|]. rewrite Hzb. specialize (Hmono n). lia.
Qed.

Lemma next_control_not_stream st id f st' : next_control st id = Some (f, st') →
  (∀ i o l fin, f ≠ Popped.Stream i o l fin) ∧ popped_encoded_len f ≤ 25.
Proof.
  unfold next_control. cbv zeta. intros Hn.
  assert ((∃ c s, f = Popped.ResetStream id c s) ∨ (∃ c, f = Popped.StopSending id c)
    ∨ (∃ l, f = Popped.MaxStreamData id l) ∨ (∃ l, f = Popped.StreamDataBlocked id l)) as Hf.
  { destruct (st_send st) as [se|]; simpl in Hn; [destruct (reset_pending se); [injection Hn as <- _; by eauto|];
      destruct (blocked_at se); simpl in Hn|].
    all: destruct (st_recv st) as [r|]; [destruct (rs_stop_sending_pending r); [injection Hn as <- _; by eauto|];
      destruct (rs_max_data_pending r); [injection Hn as <- _; by eauto 10|]|]; try done; injection Hn as <- _; by eauto 10. }
  destruct Hf as [(c & s & ->)|[(c & ->)|[(l & ->)|(l & ->)]]]; (split; [done|]); cbn [popped_encoded_len];
    pose proof (varint_encoded_len_le id).
  - pose proof (varint_encoded_len_le c). pose proof (varint_encoded_len_le s). lia.
  - pose proof (varint_encoded_len_le c). lia.
  - pose proof (varint_encoded_len_le l). lia.
  - pose proof (varint_encoded_len_le l). lia.
Qed.

Lemma pop_stream_frame_emits st id budget out : 0 ≤ budget → (∀ se, st_send st = Some se → send_fc se) →
  ∃ st' enc pop, pop_stream_frame st id budget out = Some (st', out ++ enc, pop) ∧ pop_emits budget enc pop.
Proof.
  intros Hb Ho. unfold pop_stream_frame. destruct (next_control st id) as [[f st1]|] eqn:Hn.
  - destruct (next_control_not_stream _ _ _ _ Hn) as [Hf Hl]. unfold pop_control.
    destruct (Z.ltb_spec budget (popped_encoded_len f)).
    + exists st, [], NoRoom. rewrite app_nil_r. split; [done|]. apply noroom_emits. lia.
    + destruct (popped_encode_len f out Hf) as (enc & -> & He & Hlen). simpl.
      eexists _, enc, _. split; [reflexivity|]. split; [lia|]. done.
  - unfold pop_data. destruct (st_send st) as [se|] eqn:Hse.
    2:{ exists st, [], Idle. rewrite app_nil_r. split; [done|by apply idle_emits]. }
    pose proof (Ho se eq_refl) as [Hw _ _ Hq _]. unfold offs in Hq. unfold peek_rtx. destruct (rtx_queue se) as [|[[o b] f] rest] eqn:Hrq.
    + destruct (has_outbound se) eqn:Hout; [by apply pop_fresh_emits|].
      exists st, [], Idle. rewrite app_nil_r. split; [done|by apply idle_emits].
    + eapply pop_rtx_emits; [done..|]. apply (Hq (o, b, f)). left. by left.
Qed.

(** The outcome of [pop_frame_into] on the packet. *)
Definition packet_emits (budget : Z) (enc : bytes) (frame : option popped_frame) : Prop :=
  zlen enc ≤ budget ∧ match frame with Some f => emits f enc | None => enc = [] end.

Lemma none_emits budget : 0 ≤ budget → packet_emits budget [] None.
Proof. intros ?. split; [unfold zlen; simpl; lia|done]. Qed.

Lemma put_same s id st : streams_map s !! id = Some st → put_stream s id st = s.
Proof. intros H. unfold put_stream. rewrite insert_id by done. by destruct s. Qed.

Lemma enqueue_ready_map s id : streams_map (enqueue_ready s id) = streams_map s.
Proof. unfold enqueue_ready. by case_bool_decide. Qed.

Lemma pop_ready_emits n : ∀ s budget out, 0 ≤ budget →
  (∀ id st se, streams_map s !! id = Some st → st_send st = Some se → send_fc se) →
  ∃ s' enc frame, pop_ready n s budget out = Some (s', out ++ enc, frame) ∧ packet_emits budget enc frame
  ∧ (26 ≤ budget → (∃ id st, id ∈ take n (ready_to_send s) ∧ streams_map s !! id = Some st ∧ must_send st = true) →
     frame ≠ None).
Proof.
  induction n as [|n IH]; intros s budget out Hb Hfc; cbn [pop_ready].
  { exists s, [], None. rewrite app_nil_r. split_and!; [done|by apply none_emits|].
    intros _ (id & st & ?%elem_of_nil & _). done. }
  destruct (ready_to_send s) as [|id queue] eqn:Hq.
  { exists s, [], None. rewrite app_nil_r. split_and!; [done|by apply none_emits|].
    intros _ (id & st & ?%elem_of_nil & _). done. }
  cbv zeta. set (s1 := s <| ready_to_send := queue |> <| ready_set := _ |>).
  change (streams_map s1) with (streams_map s). destruct (streams_map s !! id) as [st|] eqn:Hst.
  2:{ destruct (IH s1 budget out Hb Hfc) as (s' & enc & frame & E & He & Hp). exists s', enc, frame.
      split_and!; try done. intros H26 (i & x & Hi & Hx & Hm). apply Hp; [done|]. exists i, x. split_and!; try done.
      cbn [firstn] in Hi. apply elem_of_cons in Hi as [->|Hi]; [congruence|done]. }
  destruct (pop_stream_frame_emits st id budget out Hb (λ se, Hfc id st se Hst)) as (st' & enc & pop & Hpop & Hlen & Hnr & Hem).
  rewrite Hpop. cbn [mbind option_bind].
  destruct (pop_stream_frame_rel st id budget out _ _ _ Hb (λ se, Hfc id st se Hst) Hpop) as [_ Hw].
  destruct pop as [f more| |]; cbn [pop_wakes] in Hw.
  - eexists _, enc, (Some f). by split_and!.
  - subst st' enc. rewrite app_nil_r, put_same by done.
    destruct (IH (enqueue_ready s1 id) budget out Hb) as (s' & enc & frame & E & He & Hp);
      [rewrite enqueue_ready_map; exact Hfc|].
    exists s', enc, frame. split_and!; try done. intros H26. by destruct (Hnr H26).
  - destruct Hw as [-> Hq0]. subst enc. rewrite app_nil_r, put_same by done.
    destruct (IH s1 budget out Hb Hfc) as (s' & enc & frame & E & He & Hp). exists s', enc, frame.
    split_and!; try done. intros H26 (i & x & Hi & Hx & Hm). apply Hp; [done|]. exists i, x. split_and!; try done.
    cbn [firstn] in Hi. apply elem_of_cons in Hi as [->|Hi]; [congruence|done].
Qed.

Lemma pop_conn_emits pending cleared budget out s' o f :
  (∀ f, pending = Some f → ∀ id o l fin, f ≠ Popped.Stream id o l fin) →
  pop_conn pending cleared budget out = Some (s', o, f) →
  ∃ enc, o = Some (out ++ enc) ∧ packet_emits budget enc (Some f).
Proof.
  intros Hp Hc. unfold pop_conn in Hc. destruct pending as [g|]; [|done]. simpl in Hc.
  destruct (Z.leb_spec (popped_encoded_len g) budget); [|done]. injection Hc as _ <- <-.
  destruct (popped_encode_len g out (Hp g eq_refl)) as (enc & -> & He & Hl). exists enc. split; [done|]. split; [lia|done].
Qed.

(** One of the connection-level frames is queued. *)
Definition conn_pending (s : Streams) : bool :=
  max_data_pending s || max_streams_bidi_pending s || max_streams_uni_pending s
  || is_some (data_blocked_at s) || is_some (streams_blocked_bidi_at s) || is_some (streams_blocked_uni_at s).

Lemma pop_conn_frames_emits s budget out s' o f : pop_conn_frames s budget out = Some (s', o, f) →
  ∃ enc, o = Some (out ++ enc) ∧ packet_emits budget enc (Some f).
Proof.
  unfold pop_conn_frames. cbv zeta. intros Hp. apply head_Some_elem_of in Hp.
  apply list_elem_of_omap in Hp as (x & Hin & Hx). simpl in Hx. subst x. rewrite !elem_of_cons, elem_of_nil in Hin.
  destruct Hin as [H|[H|[H|[H|[H|[H|H]]]]]]; [..|done]; symmetry in H; eapply pop_conn_emits; try done.
  all: intros g; repeat case_match; try done; try (by intros [= <-]); intros Hg; apply fmap_Some in Hg as (v & _ & ->); done.
Qed.

Lemma pop_conn_progress s budget out : 26 ≤ budget → conn_pending s = true → pop_conn_frames s budget out ≠ None.
Proof.
  intros Hb Hp. unfold pop_conn_frames. cbv zeta.
  assert (∀ f cleared, popped_encoded_len f ≤ 26 → pop_conn (Some f) cleared budget out ≠ None) as Hgo.
  { intros f cleared Hf. unfold pop_conn. simpl. destruct (Z.leb_spec (popped_encoded_len f) budget); [done|lia]. }
  assert (∀ A (l : list (option A)) x, x ∈ l → x ≠ None → head (omap id l) ≠ None) as Hhd.
  { intros A l. induction l as [|[y|] l IH]; intros x Hx Hn; [by apply elem_of_nil in Hx|done|].
    apply elem_of_cons in Hx as [->|Hx]; [done|]. by apply (IH x). }
  assert (∀ v, 1 + varint_encoded_len v ≤ 26) as Hv by (intros v; pose proof (varint_encoded_len_le v); lia).
  unfold conn_pending in Hp. rewrite !orb_true_iff in Hp.
  destruct Hp as [[[[[Hp|Hp]|Hp]|Hp]|Hp]|Hp].
  - eapply Hhd; [by left|]. rewrite Hp. apply Hgo, Hv.
  - eapply Hhd; [right; by left|]. rewrite Hp. apply Hgo, Hv.
  - eapply Hhd; [do 2 right; by left|]. rewrite Hp. apply Hgo, Hv.
  - eapply Hhd; [do 3 right; by left|]. destruct (data_blocked_at s); [|done]. apply Hgo, Hv.
  - eapply Hhd; [do 4 right; by left|]. destruct (streams_blocked_bidi_at s); [|done]. apply Hgo, Hv.
  - eapply Hhd; [do 5 right; by left|]. destruct (streams_blocked_uni_at s); [|done]. apply Hgo, Hv.
Qed.

(** * A concrete execution *)

Definition ex_params : TransportParameters := tp_default <| initial_max_data := Some 100 |>
  <| initial_max_stream_data_bidi_local := Some 50 |> <| initial_max_stream_data_bidi_remote := Some 50 |>
  <| initial_max_stream_data_uni := Some 50 |> <| initial_max_streams_bidi := Some 4 |>
  <| initial_max_streams_uni := Some 2 |>.

(** A server whose client has sent on stream 4 with a gap and got four bytes back. *)
Definition ex_table : option Streams :=
  '(s, _) ← on_stream (streams_new Server ex_params ex_params) 4 0 false [1; 2; 3];
  '(s, _) ← on_stream s 4 5 false [7; 8];
  Some (streams_write s 4 [9; 9; 9; 9]).1.

Lemma ex_limits : limits_ok ex_params.
Proof. split; apply (bool_decide_unpack _); vm_compute; exact I. Qed.

Lemma ex_reachable s : ex_table = Some s → streams_reachable s.
Proof.
  unfold ex_table. intros H. exists Server, ex_params, ex_params. split; [apply ex_limits|]. split; [apply ex_limits|].
  destruct (on_stream (streams_new Server ex_params ex_params) 4 0 false [1; 2; 3]) as [[s1 r1]|] eqn:E1; [|done].
  cbn [mbind option_bind] in H. destruct (on_stream s1 4 5 false [7; 8]) as [[s2 r2]|] eqn:E2; [|done].
  cbn [mbind option_bind] in H. injection H as <-.
  assert (conn_recv_max s1 = 100) as M1 by (vm_compute in E1; injection E1 as <- _; reflexivity).
  eapply rtc_l; [eapply step_on_stream; [..|exact E1]|].
  1-3: apply (bool_decide_unpack _); vm_compute; exact I.
  eapply rtc_l; [eapply step_on_stream; [..|exact E2]|].
  1-2: apply (bool_decide_unpack _); vm_compute; exact I.
  { rewrite M1. done. }
  apply rtc_once, step_write.
Qed.

(** * Properties *)

(** C10: the table's invariant.  Whatever the application and the peer do, in any order
    and with any outcome, every reachable table satisfies [streams_inv]: the receive
    halves agree with their high-water marks and the connection's counters, every send
    half is within the peer's limits, the ready queue mirrors its set and holds every
    stream with something to send, the ordinals the peer has used are live, implicitly
    open or closed, and our own identifiers are in use below the next one only. *)
Theorem stream_table_invariant s : streams_reachable s → streams_inv (λ _, False) s.
Proof. apply reachable_inv. Qed.

Lemma stream_table_invariant_witness : ∃ s, ex_table = Some s ∧ streams_inv (λ _, False) s.
Proof.
  destruct ex_table as [s|] eqn:E; [|vm_compute in E; done].
  exists s. split; [done|]. apply stream_table_invariant, ex_reachable, E.
Defined.

(** The bytes held for the application: delivered and not read, or still out of order. *)
Definition unread (s : Streams) : Z :=
  msum (λ _ r, zlen (rs_delivered r) + pend_bytes (rs_pending r)) (recvs s).

(** C11: a peer cannot make us buffer more than the connection window.  Over all live
    streams together, the bytes held for the application, in order or not, are at most
    [conn_recv_window], whatever the streams, offsets, resets and reads. *)
Theorem unread_bytes_bounded s : streams_reachable s →
  unread s ≤ conn_recv_window s ∧ conn_recv_used s ≤ conn_recv_max s ≤ conn_consumed s + conn_recv_window s.
Proof.
  intros Hi%reachable_inv. pose proof (iv_recv _ _ Hi) as Hr. pose proof (rside_buffered _ _ _ _ _ _ Hr) as Hb.
  destruct Hr as [Hhalf _ _ _ H1 H2 _]. split; [|lia]. unfold unread.
  rewrite (msum_ext _ (λ _ r, zlen (rs_delivered r) + rs_pending_bytes r)); [done|].
  intros id r Hr. pose proof (ho_wf _ _ (Hhalf id r Hr)) as [[[_ Hp _ _ _] _ _ _ _] _].
  cbn in Hp. by rewrite Hp, pend_bytes_erase.
Qed.

Lemma unread_bytes_bounded_witness : ∃ s, ex_table = Some s ∧ unread s = 5 ∧
  (unread s ≤ conn_recv_window s ∧ conn_recv_used s ≤ conn_recv_max s ≤ conn_consumed s + conn_recv_window s).
Proof.
  destruct ex_table as [s|] eqn:E; [|vm_compute in E; done].
  exists s. split; [done|]. split; [|apply unread_bytes_bounded, ex_reachable, E].
  assert (unread <$> ex_table = Some 5) as H by (vm_compute; reflexivity). rewrite E in H. by injection H.
Defined.

(** C13: a peer cannot make us hold more streams than it was granted.  In each direction
    the live streams it opened and the ones it opened by skipping over them are together
    at most the window of our transport parameters; the limit never exceeds 2^60, the
    identifiers in use are below it, our own are below the peer's limit and fit a
    varint, and at most 256 final sizes of retired streams are kept. *)
Theorem stream_admission_bounded s : streams_reachable s →
  (let live b := Z.of_nat (size (live_ids (role s) b (streams_map s))) in
   live true + Z.of_nat (size (implicit_open_bidi s)) ≤ self_max_bidi_window s
   ∧ live false + Z.of_nat (size (implicit_open_uni s)) ≤ self_max_uni_window s)
  ∧ (∀ id, is_Some (streams_map s !! id) → is_peer_initiated s id = true →
       id / 4 < (if is_bidi id then self_max_bidi s else self_max_uni s) ≤ MAX_STREAMS_LIMIT)
  ∧ (∀ id, is_Some (streams_map s !! id) → is_peer_initiated s id = false →
       id < (if is_bidi id then next_local_bidi s else next_local_uni s) ≤ 4 + VARINT_MAX)
  ∧ Z.of_nat (size (retired_final_size s)) ≤ RETIRED_FINAL_SIZES.
Proof.
  intros Hi%reachable_inv. pose proof (iv_bidi _ _ Hi) as [B1 B2 B3 B4 B5 B6].
  pose proof (iv_uni _ _ Hi) as [U1 U2 U3 U4 U5 U6].
  split; [cbv zeta; lia|]. split; [|split; [|apply Hi]].
  - intros id Hid Hp. pose proof (peer_initiated_id s id Hp) as Hpid.
    assert (id ∈ live_ids (role s) (is_bidi id) (streams_map s)) as Hl by (by apply elem_live).
    destruct (is_bidi id); [destruct (B1 id Hl) as (_ & ? & _)|destruct (U1 id Hl) as (_ & ? & _)]; lia.
  - intros id Hid Hp. assert (local_id (role s) (is_bidi id) id = true) as Hl.
    { unfold local_id, is_peer_initiated in *. rewrite Hp, bool_decide_eq_true_2 by done. done. }
    pose proof (iv_local_bidi _ _ Hi) as [L1 L2 L3 L4]. pose proof (iv_local_uni _ _ Hi) as [N1 N2 N3 N4].
    change VARINT_MAX with (2 ^ 62 - 1). change MAX_STREAMS_LIMIT with (2 ^ 60) in *.
    assert (∀ b, 0 ≤ local_base (role s) b < 4) as Hb by (intros b; unfold local_base; destruct (role s), b; lia).
    pose proof (Hb true). pose proof (Hb false).
    destruct (is_bidi id); [specialize (L4 id Hid Hl)|specialize (N4 id Hid Hl)]; lia.
Qed.

Lemma stream_admission_bounded_witness : ∃ s, ex_table = Some s ∧
  (let live b := Z.of_nat (size (live_ids (role s) b (streams_map s))) in
   live true + Z.of_nat (size (implicit_open_bidi s)) ≤ self_max_bidi_window s
   ∧ live false + Z.of_nat (size (implicit_open_uni s)) ≤ self_max_uni_window s).
Proof.
  destruct ex_table as [s|] eqn:E; [|vm_compute in E; done].
  exists s. split; [done|]. apply (stream_admission_bounded s), ex_reachable, E.
Defined.

(** C14: we never exceed the peer's flow control.  On every live stream the bytes accepted
    (carved into frames or still buffered) stay within the peer's MAX_STREAM_DATA, and
    over all live streams within what the connection has charged, which stays within
    the peer's MAX_DATA; no counter wraps. *)
Theorem send_flow_control s : streams_reachable s →
  (∀ id st se, streams_map s !! id = Some st → st_send st = Some se →
     0 ≤ write_off se ∧ write_off se + zlen (write_buf se) ≤ peer_max_data se < 2 ^ 64)
  ∧ msum (λ _ se, write_off se + zlen (write_buf se)) (sends s) ≤ conn_send_used s
  ∧ conn_send_used s ≤ conn_send_max s < 2 ^ 64.
Proof.
  intros Hi%reachable_inv. pose proof (iv_send _ _ Hi) as [S1 S2 S3]. split; [|by split].
  intros id st se Hst Hse. destruct (S1 id se) as [? _ _ _ ?]; [by rewrite (sends_lookup s id st)|]. by split.
Qed.

Lemma send_flow_control_witness : ∃ s, ex_table = Some s
  ∧ msum (λ _ se, write_off se + zlen (write_buf se)) (sends s) ≤ conn_send_used s
  ∧ conn_send_used s ≤ conn_send_max s < 2 ^ 64.
Proof.
  destruct ex_table as [s|] eqn:E; [|vm_compute in E; done].
  exists s. split; [done|]. apply (send_flow_control s), ex_reachable, E.
Defined.

Lemma live_fc P s : streams_inv P s →
  ∀ id st se, streams_map s !! id = Some st → st_send st = Some se → send_fc se.
Proof.
  intros Hi id st se Hst Hse. apply (sd_half _ _ _ (iv_send _ _ Hi) id). by rewrite (sends_lookup s id st).
Qed.

Lemma pop_frame_emits s budget out : inv s → 0 ≤ budget →
  ∃ s' enc frame, pop_frame_into s budget out = Some (s', out ++ enc, frame) ∧ packet_emits budget enc frame.
Proof.
  intros Hi Hb. unfold pop_frame_into.
  destruct (pop_conn_frames s budget out) as [[[s1 o] f]|] eqn:Hc.
  - destruct (pop_conn_frames_emits _ _ _ _ _ _ Hc) as (enc & -> & He). by exists s1, enc, (Some f).
  - destruct (pop_ready_emits (length (ready_to_send s)) s budget out Hb (live_fc _ _ Hi)) as (s' & enc & fr & E & He & _).
    by exists s', enc, fr.
Qed.

(** The packer writes exactly one frame or nothing.  On every reachable table and for
    every budget, [pop_frame_into] returns, without panicking; what it appends to the
    packet is at most the budget and is the encoding of the frame it reports (for a
    STREAM frame, with a payload of the reported length), and it appends nothing when it
    reports none. *)
Theorem packer_emits s budget out : streams_reachable s → 0 ≤ budget →
  ∃ s' enc frame, pop_frame_into s budget out = Some (s', out ++ enc, frame) ∧ packet_emits budget enc frame.
Proof. intros Hi%reachable_inv Hb. by apply pop_frame_emits. Qed.

Lemma packer_emits_witness : ∃ s, ex_table = Some s ∧
  ∃ s' enc frame, pop_frame_into s 12 [255] = Some (s', [255] ++ enc, frame) ∧ packet_emits 12 enc frame.
Proof.
  destruct ex_table as [s|] eqn:E; [|vm_compute in E; done].
  exists s. split; [done|]. apply packer_emits; [apply ex_reachable, E|lia].
Defined.

(** C12: no lost wakeup.  On every reachable table, as long as a connection-level frame is
    queued or some live stream has a trigger of [must_send], and the packet has room
    for the longest header and one byte, [pop_frame_into] reports a frame: nothing waits
    for an event that already happened. *)
Theorem packer_progress s budget out : streams_reachable s → 26 ≤ budget →
  conn_pending s = true ∨ (∃ id st, streams_map s !! id = Some st ∧ must_send st = true) →
  ∃ s' enc f, pop_frame_into s budget out = Some (s', out ++ enc, Some f) ∧ packet_emits budget enc (Some f).
Proof.
  intros Hi%reachable_inv Hb Hp. unfold pop_frame_into.
  destruct (pop_conn_frames s budget out) as [[[s1 o] f]|] eqn:Hc.
  { destruct (pop_conn_frames_emits _ _ _ _ _ _ Hc) as (enc & -> & He). by exists s1, enc, f. }
  destruct Hp as [Hp|(id & st & Hst & Hm)]; [by destruct (pop_conn_progress s budget out Hb Hp)|].
  destruct (pop_ready_emits (length (ready_to_send s)) s budget out ltac:(lia) (live_fc _ _ Hi))
    as (s' & enc & fr & E & He & Hgo).
  destruct fr as [f|]; [by exists s', enc, f|]. destruct (Hgo Hb); [|done]. exists id, st. split; [|done].
  rewrite firstn_all. by destruct (qs_wake _ _ _ _ (iv_queue _ _ Hi) id st Hst Hm).
Qed.

Lemma packer_progress_witness : ∃ s, ex_table = Some s ∧
  ∃ s' enc f, pop_frame_into s 26 [] = Some (s', [] ++ enc, Some f) ∧ packet_emits 26 enc (Some f).
Proof.
  destruct ex_table as [s|] eqn:E; [|vm_compute in E; done].
  exists s. split; [done|]. apply packer_progress; [apply ex_reachable, E|lia|]. right.
  assert (must_send <$> (ex_table ≫= λ s, streams_map s !! 4) = Some true) as H by (vm_compute; reflexivity).
  rewrite E in H. cbn [mbind option_bind] in H. destruct (streams_map s !! 4) as [st|] eqn:Es; [|done].
  exists 4, st. split; [done|]. by injection H.
Defined.

(** ** Retired streams *)

(** The peer has opened [id], and it is gone. *)
Definition closed (s : Streams) (id : Z) : Prop :=
  is_peer_initiated s id = true ∧ streams_map s !! id = None
  ∧ (let '(used, implicit) := if is_bidi id then (peer_bidi_used s, implicit_open_bidi s)
                              else (peer_uni_used s, implicit_open_uni s) in
     id / 4 < used ∧ id / 4 ∉ implicit).

Lemma closed_ensure s id : closed s id → ensure_remote_stream_exists s id = (s, Ok false).
Proof.
  intros (Hp & Hn & Hu). unfold ensure_remote_stream_exists. rewrite Hn, Hp.
  rewrite bool_decide_eq_false_2 by (by intros [? ?]). cbn [negb].
  destruct (is_bidi id); destruct Hu as [Hu%Z.ltb_lt Hi]; by rewrite (bool_decide_eq_false_2 _ Hi), Hu.
Qed.

(** What the frames that arrive late on a closed stream do. *)
Definition late_frames_ignored (s : Streams) (id : Z) : Prop :=
  (∀ offset fin data, on_stream s id offset fin data = Some (s,
     match retired_final_size s !! id with
     | Some high => if high <? sat_add 64 offset (zlen data) then Err StreamError.FinalSize else Ok ()
     | None => Ok ()
     end))
  ∧ (∀ code size, streams_on_reset s id code size = Some (s, Ok ()))
  ∧ (∀ code, on_stop_sending s id code = Some (s, if is_uni id then Err StreamError.StreamState else Ok ()))
  ∧ (∀ limit, streams_on_max_stream_data s id limit
       = Some (s, if is_uni id then Err StreamError.StreamState else Ok ()))
  ∧ (∀ limit, on_stream_data_blocked s id limit = (s, Ok ()))
  ∧ (∀ offset len fin, on_chunk_acked s id offset len fin = s ∧ on_chunk_lost s id offset len fin = s).

Lemma closed_late s id : closed s id → late_frames_ignored s id.
Proof.
  intros Hc. pose proof (closed_ensure s id Hc) as He. destruct Hc as (Hp & Hn & _).
  assert (get_send s id = None ∧ get_recv s id = None) as [Hs Hr] by (unfold get_send, get_recv; by rewrite Hn).
  split_and!.
  - intros offset fin data. unfold on_stream. rewrite He.
    destruct (retired_final_size s !! id); [by destruct (_ <? _)|done].
  - intros code size. unfold streams_on_reset. by rewrite He.
  - intros code. unfold on_stop_sending, reject_send_half_frame_on_peer_uni. rewrite Hp, He. by destruct (is_uni id).
  - intros limit. unfold streams_on_max_stream_data, reject_send_half_frame_on_peer_uni. rewrite Hp, He. by destruct (is_uni id).
  - intros limit. unfold on_stream_data_blocked. by rewrite Hr.
  - intros offset len fin. unfold on_chunk_acked, on_chunk_lost, reap_if_terminal. rewrite Hs, Hp, Hn. done.
Qed.

Lemma replenish_rest s b : let s' := maybe_replenish_streams s b in
  role s' = role s ∧ streams_map s' = streams_map s
  ∧ peer_bidi_used s' = peer_bidi_used s ∧ implicit_open_bidi s' = implicit_open_bidi s
  ∧ peer_uni_used s' = peer_uni_used s ∧ implicit_open_uni s' = implicit_open_uni s.
Proof.
  unfold maybe_replenish_streams. destruct b; cbv zeta;
    (destruct (_ =? 0); [done|]); (destruct (_ <=? _); [done|]); by destruct (_ <? _).
Qed.

Lemma reap_closes s id st : inv s → is_peer_initiated s id = true → streams_map s !! id = Some st →
  stream_done st = true → closed (reap_if_terminal s id) id.
Proof.
  intros Hi Hp Hst Hd. unfold reap_if_terminal. rewrite Hp, Hst, Hd. cbn [negb]. cbv zeta.
  match goal with |- context [retire s id ?h] => set (high := h) end.
  pose proof (peer_initiated_id s id Hp) as Hpid.
  assert (id ∈ live_ids (role s) (is_bidi id) (streams_map s)) as Hl by (apply elem_live; by eauto).
  destruct (retire_fields _ s id high Hi ltac:(by eauto)) as (Hm & _).
  destruct (retire_rest s id high) as (E1 & [= B1 B2 _ _ _] & [= V1 V2 _ _ _] & _).
  generalize dependent (retire s id high). intros q Hm E1 B1 B2 V1 V2.
  destruct (replenish_rest (if is_bidi id then q <| peer_bidi_closed := sat_add 64 (peer_bidi_closed q) 1 |>
    else q <| peer_uni_closed := sat_add 64 (peer_uni_closed q) 1 |>) (is_bidi id)) as (R1 & R2 & R3 & R4 & R5 & R6).
  unfold closed, is_peer_initiated. rewrite R1, R2, R3, R4, R5, R6. clear R1 R2 R3 R4 R5 R6.
  assert (∀ (A : Type) (g : Streams → A) a b, (∀ x, g (q <| peer_bidi_closed := x |>) = g q) →
    (∀ x, g (q <| peer_uni_closed := x |>) = g q) →
    g (if is_bidi id then q <| peer_bidi_closed := a |> else q <| peer_uni_closed := b |>) = g q) as Hg
    by (intros A g a b H1 H2; by destruct (is_bidi id)).
  rewrite (Hg _ role), (Hg _ streams_map), (Hg _ peer_bidi_used), (Hg _ implicit_open_bidi), (Hg _ peer_uni_used),
    (Hg _ implicit_open_uni), E1, Hm, B1, B2, V1, V2 by reflexivity.
  split; [exact Hp|]. split; [apply lookup_delete_eq|].
  destruct (is_bidi id); [destruct (dr_live _ _ _ _ _ _ (iv_bidi _ _ Hi) id Hl) as (_ & ? & ?)
    |destruct (dr_live _ _ _ _ _ _ (iv_uni _ _ Hi) id Hl) as (_ & ? & ?)]; done.
Qed.

(** A retired stream stays retired.  When both halves of a stream of the peer are
    finished and nothing is left to send, [reap_if_terminal] removes it, and from then on
    every frame for it changes nothing: late STREAM data is accepted silently unless it
    lies beyond the recorded final size, which is FINAL_SIZE_ERROR, and RESET_STREAM,
    STOP_SENDING, MAX_STREAM_DATA, STREAM_DATA_BLOCKED, acknowledgements and losses are
    ignored (on a unidirectional stream the two for a send half are STREAM_STATE_ERROR). *)
Theorem retired_stream_stays_retired s id st : streams_reachable s → is_peer_initiated s id = true →
  streams_map s !! id = Some st → stream_done st = true →
  let s' := reap_if_terminal s id in closed s' id ∧ late_frames_ignored s' id.
Proof.
  intros Hi%reachable_inv Hp Hst Hd s'. pose proof (reap_closes s id st Hi Hp Hst Hd) as Hc.
  split; [done|]. by apply closed_late.
Qed.

(** ** Two executions in which a finished stream is never retired *)

Lemma reach_step s s' : streams_reachable s → streams_step s s' → streams_reachable s'.
Proof.
  intros (r & our & peer & Ho & Hp & Hs) H. exists r, our, peer. split; [done|]. split; [done|]. by eapply rtc_r.
Qed.

Lemma reach_new r : streams_reachable (streams_new r ex_params ex_params).
Proof. exists r, ex_params, ex_params. split; [apply ex_limits|]. split; [apply ex_limits|done]. Qed.

(** The client sends 30 bytes of a unidirectional stream, the application reads them, the
    FIN arrives, the application reads it, and only then a packet goes out. *)
Definition ex_late_credit : option (Streams * option popped_frame) :=
  '(s, _) ← on_stream (streams_new Server ex_params ex_params) 2 0 false (replicate 30 7);
  '(s, _) ← on_stream (streams_read s 2 100).1 2 30 true [];
  '(s, _, f) ← pop_frame_into (streams_read s 2 100).1 1200 [];
  Some (s, f).

(** The client sends a request, the application answers and finishes, and STOP_SENDING
    arrives before the answer is sent; RESET_STREAM is acknowledged. *)
Definition ex_stop_sending : option (Streams * list (option popped_frame)) :=
  '(s, _) ← on_stream (streams_new Server ex_params ex_params) 0 0 true [1];
  let s := (streams_read s 0 10).1 in
  let s := (streams_finish (streams_write s 0 [1; 2; 3]).1 0).1 in
  '(s, _) ← on_stop_sending s 0 7;
  '(s, _, f1) ← pop_frame_into s 1200 [];
  '(s, _, f2) ← pop_frame_into (on_control_acked s (ControlHint.ResetStream 0)) 1200 [];
  Some (s, [f1; f2]).

Ltac run_step H :=
  match type of H with
  | (?o ≫= _) = _ => let E := fresh "E" in destruct o as [[? ?]|] eqn:E; [|done]; cbn [mbind option_bind] in H
  end.

Ltac small :=
  match goal with
  | |- is_varint _ => apply (bool_decide_unpack _); vm_compute; exact I
  | |- conn_recv_max (streams_new _ _ _) ≤ _ => vm_compute; done
  | E : _ = Some (?s, _) |- conn_recv_max _ ≤ _ => vm_compute in E; injection E as <- _; vm_compute; done
  end.

Lemma late_credit_reachable s f : ex_late_credit = Some (s, f) → streams_reachable s.
Proof.
  unfold ex_late_credit. intros H. run_step H. run_step H. run_step H.
  destruct p as [? ?]. injection H as -> ->.
  eapply reach_step; [|eapply step_pop; [|exact E1]; lia]. clear E1.
  eapply reach_step; [|apply step_read; lia].
  eapply reach_step; [|eapply step_on_stream; [..|exact E0]]; [|small|small|clear E0; small].
  eapply reach_step; [|apply step_read; lia].
  eapply reach_step; [|eapply step_on_stream; [..|exact E]]; [apply reach_new|small..].
Qed.

Lemma stop_sending_reachable s f : ex_stop_sending = Some (s, f) → streams_reachable s.
Proof.
  unfold ex_stop_sending. intros H. run_step H. run_step H. run_step H.
  destruct p as [? ?]. cbn [mbind option_bind] in H. run_step H. destruct p as [? ?]. injection H as -> <-.
  eapply reach_step; [|eapply step_pop; [|exact E2]; lia].
  eapply reach_step; [|apply step_control_acked].
  eapply reach_step; [|eapply step_pop; [|exact E1]; lia].
  eapply reach_step; [|eapply step_on_stop_sending; [|exact E0]]; [|small].
  eapply reach_step; [|apply step_finish]. eapply reach_step; [|apply step_write].
  eapply reach_step; [|apply step_read; lia].
  eapply reach_step; [|eapply step_on_stream; [..|exact E]]; [apply reach_new|small..].
Qed.

Lemma retired_stream_stays_retired_witness :
  ∃ s f, ex_late_credit = Some (s, f) ∧
    let s' := reap_if_terminal s 2 in closed s' 2 ∧ late_frames_ignored s' 2.
Proof.
  destruct ex_late_credit as [[s f]|] eqn:E; [|vm_compute in E; done]. exists s, f. split; [done|].
  assert ((λ x, (is_peer_initiated x.1 2, stream_done <$> streams_map x.1 !! 2)) <$> ex_late_credit
    = Some (true, Some true)) as H by (vm_compute; reflexivity).
  rewrite E in H. cbn [fmap option_fmap option_map fst] in H. injection H as Hp Hd.
  destruct (streams_map s !! 2) as [st|] eqn:Hst; [|done]. injection Hd as Hd.
  apply (retired_stream_stays_retired s 2 st); [exact (late_credit_reachable _ _ E)|done..].
Defined.

(** A stream whose last frame was a queued MAX_STREAM_DATA is never retired.  In a
    reachable table a stream of the peer is finished in both halves with nothing to send,
    yet still live: the credit queued while reading kept [reap_if_terminal] from retiring
    it, and sending that credit does not try again.  Nothing is pending, so the peer's
    stream is never given back. *)
Theorem finished_stream_not_retired : ∃ s f st, ex_late_credit = Some (s, f) ∧ streams_reachable s
  ∧ f = Some (Popped.MaxStreamData 2 80) ∧ is_peer_initiated s 2 = true ∧ streams_map s !! 2 = Some st
  ∧ stream_done st = true ∧ has_pending s = false ∧ peer_uni_closed s = 0.
Proof.
  destruct ex_late_credit as [[s f]|] eqn:E; [|vm_compute in E; done].
  pose proof (late_credit_reachable _ _ E) as Hr.
  assert ((λ x, (x.2, is_peer_initiated x.1 2, stream_done <$> streams_map x.1 !! 2, has_pending x.1, peer_uni_closed x.1))
    <$> ex_late_credit = Some (Some (Popped.MaxStreamData 2 80), true, Some true, false, 0)) as H by (vm_compute; reflexivity).
  rewrite E in H. cbn [fmap option_fmap option_map fst snd] in H. injection H as Hf Hp Hd Hh Hc.
  destruct (streams_map s !! 2) as [st|] eqn:Hst; [|done]. injection Hd as Hd. exists s, f, st.
  exact (conj eq_refl (conj Hr (conj Hf (conj Hp (conj Hst (conj Hd (conj Hh Hc))))))).
Qed.

(** A stream reset after [finish] sends a STREAM frame after RESET_STREAM and is never
    retired.  The FIN of the abandoned data stays a trigger of [has_outbound], so the
    packer carves an empty frame without FIN once RESET_STREAM is out; the trigger
    remains although the stream has left the queue, the reset is acknowledged and the
    receive half is finished, so [reap_if_terminal] keeps the stream for good. *)
Theorem reset_after_finish_not_retired : ∃ s st se, streams_reachable s
  ∧ ex_stop_sending = Some (s, [Some (Popped.ResetStream 0 7 0); Some (Popped.Stream 0 0 0 false)])
  ∧ streams_map s !! 0 = Some st ∧ st_send st = Some se ∧ ss_state se = SendState.ResetRecvd
  ∧ send_is_finished se = true ∧ from_option recv_is_finished false (st_recv st) = true
  ∧ stream_needs_to_send st = true ∧ stream_done st = false ∧ has_pending s = false.
Proof.
  destruct ex_stop_sending as [[s l]|] eqn:E; [|vm_compute in E; done].
  pose proof (stop_sending_reachable _ _ E) as Hr.
  assert ((λ x, (x.2, has_pending x.1, (λ st, (stream_done st, stream_needs_to_send st,
      (λ se, (ss_state se, send_is_finished se)) <$> st_send st, from_option recv_is_finished false (st_recv st)))
      <$> streams_map x.1 !! 0)) <$> ex_stop_sending
    = Some ([Some (Popped.ResetStream 0 7 0); Some (Popped.Stream 0 0 0 false)], false,
            Some (false, true, Some (SendState.ResetRecvd, true), true))) as H by (vm_compute; reflexivity).
  rewrite E in H. cbn [fmap option_fmap option_map fst snd] in H. injection H as Hl Hh Hd.
  destruct (streams_map s !! 0) as [st|] eqn:Hst; [|done]. injection Hd as H1 H2 H3 H4.
  destruct (st_send st) as [se|] eqn:Hse; [|done]. injection H3 as H5 H6. subst l. exists s, st, se.
  exact (conj Hr (conj eq_refl (conj Hst (conj Hse (conj H5 (conj H6 (conj H4 (conj H2 (conj H1 Hh))))))))).
Qed.

(** A stream stopped with data out of order and then finished by the peer keeps its
    connection credit and is never finished: the gap is discarded without credit. *)
Example stopped_stream_keeps_credit :
  ('(s, _) ← on_stream (streams_new Server ex_params ex_params) 2 0 false [1; 2; 3];
   '(s, _) ← on_stream s 2 5 false [6; 7; 8];
   let s := (streams_stop_sending (streams_read s 2 100).1 2 9).1 in
   '(s, _) ← on_stream s 2 3 true [4; 5; 6; 7; 8];
   '(s, _, f) ← pop_frame_into s 1200 [];
   Some (f, has_pending s, conn_recv_used s - conn_consumed s, stream_done <$> streams_map s !! 2))
  = Some (Some (Popped.StopSending 2 9), false, 5, Some false).
Proof. vm_compute. reflexivity. Qed.
