(* ===== verification/Version.v ===== *)
(** QUIC versions and compatible version negotiation ([src/quic/version.rs]): the wire
    values and code points of versions 1 and 2, and both sides of RFC 9368. *)

From S2P Require Import Prelude TlsBase Varint Codec TransportParams.

Inductive QuicVersion := V1 | V2.
#[export] Instance quic_version_eq : EqDecision QuicVersion.
Proof. solve_decision. Defined.

(** [src/quic/pkt.rs], [LongType]. *)
Module LongType.
Inductive long_type := Initial | ZeroRtt | Handshake | Retry.
End LongType.
Abbreviation long_type := LongType.long_type.
#[export] Instance long_type_eq : EqDecision long_type.
Proof. solve_decision. Defined.

Definition SUPPORTED_VERSIONS : list QuicVersion := [V1; V2].

Definition wire (self : QuicVersion) : Z := match self with V1 => 0x00000001 | V2 => 0x6b3343cf end.

Definition from_wire (v : Z) : option QuicVersion :=
  if v =? 0x00000001 then Some V1 else if v =? 0x6b3343cf then Some V2 else None.

Definition is_reserved (v : Z) : bool := Z.land v 0x0f0f0f0f =? 0x0a0a0a0a.

Definition is_compatible_with (self other : QuicVersion) : bool :=
  match self, other with V1, V1 | V1, V2 | V2, V1 | V2, V2 => true end.

Definition INITIAL_SALT_V1 : bytes :=
  [0x38; 0x76; 0x2c; 0xf7; 0xf5; 0x59; 0x34; 0xb3; 0x4d; 0x17; 0x9a; 0xe6; 0xa4; 0xc8; 0x0c; 0xad;
   0xcc; 0xbb; 0x7f; 0x0a].
Definition INITIAL_SALT_V2 : bytes :=
  [0x0d; 0xed; 0xe3; 0xde; 0xf7; 0x00; 0xa6; 0xdb; 0x81; 0x93; 0x81; 0xbe; 0x6e; 0x26; 0x9d; 0xcb;
   0xf9; 0xbd; 0x2e; 0xd9].
Definition RETRY_INTEGRITY_KEY_V1 : bytes :=
  [0xbe; 0x0c; 0x69; 0x0b; 0x9f; 0x66; 0x57; 0x5a; 0x1d; 0x76; 0x6b; 0x54; 0xe3; 0x68; 0xc8; 0x4e].
Definition RETRY_INTEGRITY_NONCE_V1 : bytes :=
  [0x46; 0x15; 0x99; 0xd3; 0x5d; 0x63; 0x2b; 0xf2; 0x23; 0x98; 0x25; 0xbb].
Definition RETRY_INTEGRITY_KEY_V2 : bytes :=
  [0x8f; 0xb4; 0xb0; 0x1b; 0x56; 0xac; 0x48; 0xe2; 0x60; 0xfb; 0xcb; 0xce; 0xad; 0x7c; 0xcc; 0x92].
Definition RETRY_INTEGRITY_NONCE_V2 : bytes :=
  [0xd8; 0x69; 0x69; 0xbc; 0x2d; 0x7c; 0x6d; 0x99; 0x90; 0xef; 0xb0; 0x4a].

Definition initial_salt (self : QuicVersion) : bytes :=
  match self with V1 => INITIAL_SALT_V1 | V2 => INITIAL_SALT_V2 end.
(** [b "quic key"] and [b "quicv2 key"] *)
Definition label_key (self : QuicVersion) : bytes :=
  match self with
  | V1 => [113; 117; 105; 99; 32; 107; 101; 121]
  | V2 => [113; 117; 105; 99; 118; 50; 32; 107; 101; 121]
  end.
(** [b "quic iv"] and [b "quicv2 iv"] *)
Definition label_iv (self : QuicVersion) : bytes :=
  match self with
  | V1 => [113; 117; 105; 99; 32; 105; 118]
  | V2 => [113; 117; 105; 99; 118; 50; 32; 105; 118]
  end.
(** [b "quic hp"] and [b "quicv2 hp"] *)
Definition label_hp (self : QuicVersion) : bytes :=
  match self with
  | V1 => [113; 117; 105; 99; 32; 104; 112]
  | V2 => [113; 117; 105; 99; 118; 50; 32; 104; 112]
  end.
(** [b "quic ku"] and [b "quicv2 ku"] *)
Definition label_ku (self : QuicVersion) : bytes :=
  match self with
  | V1 => [113; 117; 105; 99; 32; 107; 117]
  | V2 => [113; 117; 105; 99; 118; 50; 32; 107; 117]
  end.
Definition retry_integrity_key (self : QuicVersion) : bytes :=
  match self with V1 => RETRY_INTEGRITY_KEY_V1 | V2 => RETRY_INTEGRITY_KEY_V2 end.
Definition retry_integrity_nonce (self : QuicVersion) : bytes :=
  match self with V1 => RETRY_INTEGRITY_NONCE_V1 | V2 => RETRY_INTEGRITY_NONCE_V2 end.

Definition long_type_bits (self : QuicVersion) (typ : long_type) : Z :=
  match self, typ with
  | V1, LongType.Initial => 0 | V1, LongType.ZeroRtt => 1
  | V1, LongType.Handshake => 2 | V1, LongType.Retry => 3
  | V2, LongType.Initial => 1 | V2, LongType.ZeroRtt => 2
  | V2, LongType.Handshake => 3 | V2, LongType.Retry => 0
  end.

Definition long_type_from_bits (self : QuicVersion) (bits : Z) : long_type :=
  match self, Z.land bits 3 with
  | V1, 0 | V2, 1 => LongType.Initial
  | V1, 1 | V2, 2 => LongType.ZeroRtt
  | V1, 2 | V2, 3 => LongType.Handshake
  | _, _ => LongType.Retry
  end.

(** * Negotiation *)

Inductive VersionError := Malformed | Negotiation.

(** [contains] on a list of wire values. *)
Definition contains (l : list Z) (v : Z) : bool := existsb (Z.eqb v) l.

Definition choose_version (prefs : list QuicVersion) (offered : list Z) : option QuicVersion :=
  find (λ v, contains offered (wire v)) prefs.

Definition select_server_version (ours : list QuicVersion) (in_use : QuicVersion)
  (client : option VersionInformation) : result VersionError QuicVersion :=
  match client with
  | None => Ok in_use
  | Some vi =>
      if negb (chosen vi =? wire in_use) then Err Negotiation
      else if negb (contains (available vi) (chosen vi)) then Err Malformed
      else Ok (default in_use (find (λ v, contains (available vi) (wire v)
                                          && is_compatible_with in_use v) ours))
  end.

Definition check_server_version_information (ours : list QuicVersion) (original negotiated : QuicVersion)
  (reacted_to_vn : bool) (server : option VersionInformation) : result VersionError () :=
  let check vi : result VersionError () :=
    if negb (chosen vi =? wire negotiated) || negb (existsb (λ v, wire v =? chosen vi) ours)
    then Err Negotiation
    else if reacted_to_vn then
      if is_nil (available vi) then Err Negotiation
      else if negb (bool_decide (choose_version ours (available vi ++ [wire negotiated]) = Some negotiated))
      then Err Negotiation
      else Ok ()
    else Ok () in
  match server with
  | Some vi => check vi
  | None =>
      if reacted_to_vn && bool_decide (negotiated = V1)
      then check (mkVersionInformation (wire V1) [wire V1])
      else if reacted_to_vn || negb (bool_decide (negotiated = original)) then Err Negotiation
      else Ok ()
  end.

(** [src/quic/connection.rs], [our_version_information]: [r] is the random word of the
    reserved entry. *)
Definition our_version_information (chosen : QuicVersion) (versions : list QuicVersion) (r : Z)
  : VersionInformation :=
  mkVersionInformation (wire chosen)
    ((wire <$> versions) ++ [Z.lor (Z.land r 0xf0f0f0f0) 0x0a0a0a0a]).

(** * Lemmas *)

Lemma contains_spec l v : contains l v = true ↔ v ∈ l.
Proof.
  unfold contains. rewrite existsb_exists. setoid_rewrite <- list_elem_of_In. split.
  - intros (x & Hx & ->%Z.eqb_eq). done.
  - intros Hv. exists v. by rewrite Z.eqb_refl.
Qed.

Lemma contains_false l v : contains l v = false ↔ v ∉ l.
Proof. rewrite <- contains_spec. by destruct (contains l v). Qed.

Lemma wire_inj v u : wire v = wire u → v = u.
Proof. by destruct v, u. Qed.

(** [find] returns the first element that satisfies the predicate. *)
Lemma find_split {A} (f : A → bool) l x : find f l = Some x ↔
  f x = true ∧ ∃ l1 l2, l = l1 ++ x :: l2 ∧ Forall (λ y, f y = false) l1.
Proof.
  induction l as [|y l IH]; simpl.
  - split; [done|]. intros (_ & [|z l1] & l2 & E & _); done.
  - destruct (f y) eqn:Hy.
    + split.
      * intros [= ->]. split; [done|]. by exists [], l.
      * intros (Hx & [|z l1] & l2 & E & Hl); injection E as -> E; [done|].
        apply Forall_cons in Hl as [Hz _]. congruence.
    + rewrite IH. split.
      * intros (Hx & l1 & l2 & -> & Hl). split; [done|]. exists (y :: l1), l2. by split; [|constructor].
      * intros (Hx & [|z l1] & l2 & E & Hl); injection E as -> E; [congruence|].
        split; [done|]. exists l1, l2. split; [done|]. by apply Forall_cons in Hl as [_ ?].
Qed.

Lemma find_none {A} (f : A → bool) l : find f l = None ↔ Forall (λ y, f y = false) l.
Proof.
  induction l as [|y l IH]; simpl; [done|]. rewrite Forall_cons, <- IH. by destruct (f y); naive_solver.
Qed.

Lemma compatible v u : is_compatible_with v u = true.
Proof. by destruct v, u. Qed.

Lemma grease_not_wire r v : Z.lor (Z.land r 0xf0f0f0f0) 0x0a0a0a0a ≠ wire v.
Proof.
  intros E. assert (Z.testbit (Z.lor (Z.land r 0xf0f0f0f0) 0x0a0a0a0a) 0 = Z.testbit (wire v) 0) as H by (by rewrite E).
  rewrite Z.lor_spec, Z.land_spec in H. rewrite andb_false_r in H. by destruct v.
Qed.

Lemma our_offers v c r u : wire u ∈ available (our_version_information v c r) ↔ u ∈ c.
Proof.
  simpl. rewrite elem_of_app, list_elem_of_singleton, list_elem_of_fmap. split.
  - intros [(x & ->%wire_inj & Hx)|E]; [done|]. by destruct (grease_not_wire r u).
  - intros Hu. left. by exists u.
Qed.

(** [v] comes before [n] in the preference list, and [n] is in it. *)
Definition preferred (ours : list QuicVersion) (n v : QuicVersion) : Prop :=
  ∃ l1 l2, ours = l1 ++ n :: l2 ∧ v ∈ l1 ∧ n ∉ l1.

Lemma choose_version_first ours offered n : choose_version ours offered = Some n →
  n ∈ ours ∧ wire n ∈ offered ∧ ∀ v, preferred ours n v → wire v ∉ offered.
Proof.
  intros (Hn & l1 & l2 & -> & Hl)%find_split. apply contains_spec in Hn. split; [set_solver|]. split; [done|].
  intros v (k1 & k2 & E & Hv & Hk). apply contains_false. rewrite Forall_forall in Hl. apply Hl.
  assert (k1 = l1) as ->; [|done].
  assert (n ∉ l1) as Hl1 by (intros Hin; specialize (Hl n Hin); simpl in Hl; apply contains_false in Hl; done).
  clear -E Hk Hl1. revert k1 E Hk. induction l1 as [|x l1 IH]; intros [|y k1] E Hk; simpl in *; [done|..].
  - injection E as -> _. destruct Hk. by left.
  - injection E as -> _. destruct Hl1. by left.
  - injection E as -> E. f_equal. apply IH; [set_solver|done|set_solver].
Qed.

Lemma find_same {A} (f g : A → bool) l : (∀ x, f x = g x) → find f l = find g l.
Proof. intros H. induction l as [|y l IH]; simpl; [done|]. by rewrite H, IH. Qed.

Lemma select_version_spec ours in_use vi n : select_server_version ours in_use (Some vi) = Ok n →
  chosen vi = wire in_use ∧ wire n ∈ available vi ∧ (n ∈ ours ∨ n = in_use)
  ∧ ∀ v, preferred ours n v → wire v ∉ available vi.
Proof.
  intros Hs. unfold select_server_version in Hs.
  destruct (Z.eqb_spec (chosen vi) (wire in_use)) as [E|]; [|done]. cbn [negb] in Hs.
  destruct (contains (available vi) (chosen vi)) eqn:Ec; [|done]. cbn [negb] in Hs. injection Hs as Hs.
  apply contains_spec in Ec. split; [done|].
  rewrite (find_same _ (λ v, contains (available vi) (wire v))) in Hs
    by (intros v; by rewrite compatible, andb_true_r).
  change (default in_use (choose_version ours (available vi)) = n) in Hs.
  destruct (choose_version ours (available vi)) as [m|] eqn:Hc; simpl in Hs; subst.
  - destruct (choose_version_first _ _ _ Hc) as (? & ? & ?). by split_and!; [|left|].
  - rewrite <- E. split_and!; [done|by right|]. intros v (l1 & l2 & -> & Hv & _).
    apply find_none in Hc. rewrite Forall_forall in Hc. apply contains_false. apply Hc. set_solver.
Qed.

(** * Properties *)


