(* ===== verification/Pkt.v ===== *)
(** QUIC packet headers ([src/quic/pkt.rs]): long and short headers, header protection,
    Retry and Version Negotiation packets.  [usize] has 64 bits; AES-128-GCM, which
    computes the Retry integrity tag, is a parameter. *)

From S2P Require Import Prelude TlsBase Varint Pn Ack Codec Frame TransportParams Version.

Definition QUIC_V1 : Z := wire V1.

Definition first_byte_template (self : long_type) (version : QuicVersion) : Z :=
  Z.lor (Z.lor 0x80 0x40) (wshl 8 (long_type_bits version self) 4).

Record LongHeader := mkLongHeader {
  lh_typ : long_type; lh_version : Z; lh_dcid : bytes; lh_scid : bytes; lh_token : bytes;
  lh_length : Z; lh_pn_offset : Z; lh_payload_off : Z }.

(** A connection id behind its length byte at [p], with [extra] bytes after it. *)
Definition parse_cid (buf : bytes) (p extra : Z) : tls_result (bytes * Z) :=
  len ← ok_or (buf !! Z.to_nat p) Error.Decode;
  let p := p + 1 in
  if 20 <? len then Err Error.Decode
  else if zlen buf <? p + len + extra then Err Error.Decode
  else Ok (ztake len (zdrop p buf), p + len).

(** The fields after the connection ids. *)
Definition parse_typed (buf : bytes) (typ : long_type) (version : Z) (dcid scid : bytes) (p : Z)
  : tls_result LongHeader :=
  match typ with
  | LongType.Retry =>
      if zlen buf <? p + 16 then Err Error.Decode
      else Ok (mkLongHeader typ version dcid scid (ztake (zlen buf - 16 - p) (zdrop p buf)) 0 p p)
  | LongType.Initial =>
      '(tlen, n) ← varint_decode (zdrop p buf);
      let p := p + n in
      tlen ← bounded_len 64 tlen (zlen buf - p);
      let token := ztake tlen (zdrop p buf) in
      let p := p + tlen in
      '(length, n) ← varint_decode (zdrop p buf);
      let p := p + n in
      Ok (mkLongHeader typ version dcid scid token length p p)
  | LongType.ZeroRtt | LongType.Handshake =>
      '(length, n) ← varint_decode (zdrop p buf);
      let p := p + n in
      Ok (mkLongHeader typ version dcid scid [] length p p)
  end.

Definition long_header_parse (buf : bytes) : tls_result LongHeader :=
  match buf with
  | [] => Err Error.Decode
  | b0 :: _ =>
      if Z.land b0 0x80 =? 0 then Err Error.Decode
      else if zlen buf <? 6 then Err Error.Decode
      else
        let version := be_value (ztake 4 (zdrop 1 buf)) in
        if version =? 0 then
          '(dcid, p) ← parse_cid buf 5 1;
          '(scid, p) ← parse_cid buf p 0;
          Ok (mkLongHeader LongType.Initial 0 dcid scid [] 0 p p)
        else if Z.land b0 0x40 =? 0 then Err Error.Decode
        else
          let typ := long_type_from_bits (default V1 (from_wire version)) (Z.shiftr b0 4) in
          '(dcid, p) ← parse_cid buf 5 1;
          '(scid, p) ← parse_cid buf p 0;
          parse_typed buf typ version dcid scid p
  end.

(** [pn_value.to_be_bytes()[8 - pn_len..]] *)
Definition pn_bytes (pn_value pn_len : Z) : bytes := zdrop (8 - pn_len) (be_bytes 8 pn_value).

(** The connection ids behind their length bytes. *)
Definition put_cids (dcid scid : bytes) (out : bytes) : bytes :=
  out ++ [as_u8 (zlen dcid)] ++ dcid ++ [as_u8 (zlen scid)] ++ scid.

Definition build_long_header_into (out : bytes) (typ : long_type) (version : QuicVersion)
  (dcid scid token : bytes) (pn_value pn_len payload_len_for_field : Z) : bytes * Z :=
  let out := out ++ [Z.lor (first_byte_template typ version) (wsub 8 pn_len 1)] in
  let out := out ++ be_bytes 4 (wire version) in
  let out := put_cids dcid scid out in
  let out := if bool_decide (typ = LongType.Initial) then varint_encode (zlen token) out ++ token else out in
  let out := varint_encode payload_len_for_field out in
  let pn_offset := zlen out in
  (out ++ pn_bytes pn_value pn_len, pn_offset).

Definition build_long_header (typ : long_type) (version : QuicVersion) (dcid scid token : bytes)
  (pn_value pn_len payload_len_for_field : Z) : bytes * Z :=
  build_long_header_into [] typ version dcid scid token pn_value pn_len payload_len_for_field.

Record ShortHeader := mkShortHeader { sh_dcid : bytes; sh_key_phase : bool; sh_spin : bool; sh_pn_offset : Z }.

Definition short_header_parse (buf : bytes) (dcid_len : Z) : tls_result ShortHeader :=
  match buf with
  | [] => Err Error.Decode
  | b0 :: _ =>
      if negb (Z.land b0 0x80 =? 0) || (Z.land b0 0x40 =? 0) then Err Error.Decode
      else if 20 <? dcid_len then Err Error.Decode
      else if zlen buf <? 1 + dcid_len then Err Error.Decode
      else Ok (mkShortHeader (ztake dcid_len (zdrop 1 buf)) (negb (Z.land b0 0x04 =? 0))
                 (negb (Z.land b0 0x20 =? 0)) (1 + dcid_len))
  end.

Definition build_short_header_into (out dcid : bytes) (spin key_phase : bool) (pn_value pn_len : Z) : bytes * Z :=
  let b0 := Z.lor 0x40 (wsub 8 pn_len 1) in
  let b0 := if spin then Z.lor b0 0x20 else b0 in
  let b0 := if key_phase then Z.lor b0 0x04 else b0 in
  let out := out ++ [b0] ++ dcid in
  let pn_offset := zlen out in
  (out ++ pn_bytes pn_value pn_len, pn_offset).

Definition build_short_header (dcid : bytes) (spin key_phase : bool) (pn_value pn_len : Z) : bytes * Z :=
  build_short_header_into [] dcid spin key_phase pn_value pn_len.

(** * Header protection *)

(** [packet[i] ^= m]; [None] is the index panic. *)
Definition xor_at (packet : bytes) (i m : Z) : option bytes :=
  b ← packet !! Z.to_nat i; Some (<[Z.to_nat i := Z.lxor b m]> packet).

(** [for i in 0..n { packet[pn_offset + i] ^= mask[1 + i] }] *)
Fixpoint xor_pn (packet : bytes) (pn_offset : Z) (mask : bytes) : option bytes :=
  match mask with
  | [] => Some packet
  | m :: mask => packet ← xor_at packet pn_offset m; xor_pn packet (pn_offset + 1) mask
  end.

Definition first_byte_mask (long_header : bool) : Z := if long_header then 0x0f else 0x1f.

Definition apply_header_protection (packet : bytes) (pn_offset pn_len : Z) (mask : bytes)
  (long_header : bool) : option bytes :=
  m0 ← mask !! 0%nat;
  packet ← xor_at packet 0 (Z.land m0 (first_byte_mask long_header));
  xor_pn packet pn_offset (ztake pn_len (zdrop 1 mask)).

(** The packet and the recovered length, or the error with the packet as it is left. *)
Definition remove_header_protection (packet : bytes) (pn_offset : Z) (mask : bytes) (long_header : bool)
  : option (bytes * tls_result Z) :=
  m0 ← mask !! 0%nat;
  packet ← xor_at packet 0 (Z.land m0 (first_byte_mask long_header));
  b0 ← packet !! 0%nat;
  let pn_len := Z.land b0 0x03 + 1 in
  if (4 <? pn_len) || (zlen packet <? pn_offset + pn_len) then Some (packet, Err Error.Decode)
  else
    packet ← xor_pn packet pn_offset (ztake pn_len (zdrop 1 mask));
    Some (packet, Ok pn_len).

Definition check_reserved_bits (first_byte : Z) (long_header : bool) : tls_result () :=
  let reserved_mask := if long_header then 0x0c else 0x18 in
  if negb (Z.land first_byte reserved_mask =? 0) then Err Error.IllegalParameter else Ok ().

(** * Retry and Version Negotiation *)

Definition build_retry_unauth (version : QuicVersion) (dcid scid retry_token : bytes) : bytes :=
  put_cids dcid scid ([first_byte_template LongType.Retry version] ++ be_bytes 4 (wire version)) ++ retry_token.

Section retry.
(** [Gcm<Aes128>::encrypt] with an empty plaintext: key, nonce, associated data. *)
Variable gcm_tag : bytes → bytes → bytes → bytes.

Definition retry_integrity_tag (version : QuicVersion) (odcid retry_unauth : bytes) : bytes :=
  let aad := [as_u8 (zlen odcid)] ++ odcid ++ retry_unauth in
  gcm_tag (retry_integrity_key version) (retry_integrity_nonce version) aad.

Definition build_retry (version : QuicVersion) (dcid scid retry_token odcid : bytes) : bytes :=
  let pkt := build_retry_unauth version dcid scid retry_token in
  pkt ++ retry_integrity_tag version odcid pkt.
End retry.

Definition build_version_negotiation (dcid scid : bytes) (versions : list Z) : bytes :=
  put_cids dcid scid ([Z.lor 0x80 0x40] ++ replicate 4 0) ++ concat (be_bytes 4 <$> versions).

(** * Header protection: lemmas *)

Lemma xor_at_app pre b post m : xor_at (pre ++ b :: post) (zlen pre) m = Some (pre ++ Z.lxor b m :: post).
Proof.
  unfold xor_at, zlen. rewrite Nat2Z.id, list_lookup_middle by done. simpl. by rewrite list_insert_middle.
Qed.

Lemma xor_pn_app mask : ∀ pre pn post, length pn = length mask →
  xor_pn (pre ++ pn ++ post) (zlen pre) mask = Some (pre ++ zip_with Z.lxor pn mask ++ post).
Proof.
  induction mask as [|m mask IH]; intros pre [|b pn] post Hl; try done. simpl.
  rewrite xor_at_app. simpl. specialize (IH (pre ++ [Z.lxor b m]) pn post ltac:(simpl in Hl; lia)).
  rewrite zlen_app in IH. change (zlen [Z.lxor b m]) with 1 in IH. rewrite <- !app_assoc in IH. exact IH.
Qed.

Lemma lxor_twice b m : Z.lxor (Z.lxor b m) m = b.
Proof. by rewrite Z.lxor_assoc, Z.lxor_nilpotent, Z.lxor_0_r. Qed.

Lemma zip_lxor_twice l : ∀ mask, length l = length mask → zip_with Z.lxor (zip_with Z.lxor l mask) mask = l.
Proof.
  induction l as [|b l IH]; intros [|m mask] Hl; try done. simpl. rewrite lxor_twice. f_equal. apply IH.
  simpl in Hl. lia.
Qed.

(** A packet by its first byte, the rest of the header, the packet number and the body. *)
Definition packet_of (b0 : Z) (mid pn body : bytes) : bytes := b0 :: mid ++ pn ++ body.

(** The bytes of the mask that hide a packet number of [n] bytes. *)
Definition pn_mask (n : Z) (mask : bytes) : bytes := ztake n (zdrop 1 mask).

Lemma length_pn_mask n mask : 1 ≤ n ≤ 4 → zlen mask = 5 → length (pn_mask n mask) = Z.to_nat n.
Proof.
  intros Hn Hm. unfold pn_mask, ztake, zdrop, zlen in *. rewrite length_take, length_drop. lia.
Qed.

Lemma apply_packet b0 m0 mid pn body mask n long : zlen mask = 5 → mask !! 0%nat = Some m0 →
  1 ≤ n ≤ 4 → zlen pn = n →
  apply_header_protection (packet_of b0 mid pn body) (1 + zlen mid) n mask long
  = Some (packet_of (Z.lxor b0 (Z.land m0 (first_byte_mask long))) mid (zip_with Z.lxor pn (pn_mask n mask)) body).
Proof.
  intros Hm Hm0 Hn Hpn. unfold apply_header_protection. rewrite Hm0. cbn [mbind option_bind].
  change (xor_at (packet_of b0 mid pn body) 0 ?m) with (xor_at ([] ++ b0 :: mid ++ pn ++ body) (zlen (A:=Z) []) m).
  rewrite xor_at_app. cbn [mbind option_bind app]. fold (pn_mask n mask). set (b := Z.lxor b0 _).
  pose proof (xor_pn_app (pn_mask n mask) (b :: mid) pn body) as Hx. simpl in Hx.
  unfold zlen in Hx at 1. simpl in Hx. replace (1 + zlen mid) with (Z.of_nat (S (length mid))) by (unfold zlen; lia).
  rewrite Hx; [done|]. rewrite length_pn_mask by done. unfold zlen in Hpn. lia.
Qed.

Lemma remove_packet b0 m0 mid pn body mask n long : zlen mask = 5 → mask !! 0%nat = Some m0 →
  1 ≤ n ≤ 4 → zlen pn = n → Z.land (Z.lxor b0 (Z.land m0 (first_byte_mask long))) 3 = n - 1 →
  remove_header_protection (packet_of b0 mid pn body) (1 + zlen mid) mask long
  = Some (packet_of (Z.lxor b0 (Z.land m0 (first_byte_mask long))) mid (zip_with Z.lxor pn (pn_mask n mask)) body, Ok n).
Proof.
  intros Hm Hm0 Hn Hpn Hb. unfold remove_header_protection. rewrite Hm0. cbn [mbind option_bind].
  change (xor_at (packet_of b0 mid pn body) 0 ?m) with (xor_at ([] ++ b0 :: mid ++ pn ++ body) (zlen (A:=Z) []) m).
  rewrite xor_at_app. cbn [mbind option_bind app]. change ((?x :: ?l) !! 0%nat) with (Some x). cbn [mbind option_bind]. rewrite Hb. replace (n - 1 + 1) with n by lia.
  assert ((4 <? n) = false) as -> by (apply Z.ltb_ge; lia). set (b := Z.lxor b0 _).
  assert ((zlen (b :: mid ++ pn ++ body) <? 1 + zlen mid + n) = false) as ->.
  { apply Z.ltb_ge. pose proof (zlen_nonneg body). unfold zlen in *. simpl. rewrite !length_app. lia. }
  cbn [orb]. fold (pn_mask n mask). pose proof (xor_pn_app (pn_mask n mask) (b :: mid) pn body) as Hx. simpl in Hx.
  unfold zlen in Hx at 1. simpl in Hx. replace (1 + zlen mid) with (Z.of_nat (S (length mid))) by (unfold zlen; lia).
  rewrite Hx; [done|]. rewrite length_pn_mask by done. unfold zlen in Hpn. lia.
Qed.

(** Protection hides and restores. *)
Lemma protection_roundtrip b0 mid pn body mask n long : zlen mask = 5 → 1 ≤ n ≤ 4 → zlen pn = n →
  Z.land b0 3 = n - 1 →
  ∃ b0' pn', apply_header_protection (packet_of b0 mid pn body) (1 + zlen mid) n mask long
             = Some (packet_of b0' mid pn' body)
    ∧ Z.land (Z.lxor b0 b0') (Z.lnot (first_byte_mask long)) = 0 ∧ zlen pn' = n
    ∧ remove_header_protection (packet_of b0' mid pn' body) (1 + zlen mid) mask long
      = Some (packet_of b0 mid pn body, Ok n).
Proof.
  intros Hm Hn Hpn Hb. destruct mask as [|m0 mask]; [done|].
  pose proof (length_pn_mask n (m0 :: mask) Hn Hm) as Hl. pose proof Hpn as Hpn'. unfold zlen in Hpn.
  exists (Z.lxor b0 (Z.land m0 (first_byte_mask long))), (zip_with Z.lxor pn (pn_mask n (m0 :: mask))).
  assert (zlen (zip_with Z.lxor pn (pn_mask n (m0 :: mask))) = n) as Hz
    by (unfold zlen; rewrite length_zip_with, Hl; lia).
  split; [by rewrite (apply_packet b0 m0)|]. split; [|split; [done|]].
  - rewrite <- Z.lxor_assoc, Z.lxor_nilpotent, Z.lxor_0_l, <- Z.land_assoc.
    rewrite Z.land_lnot_diag. apply Z.land_0_r.
  - rewrite (remove_packet _ m0 _ _ _ _ n) by (try done; by rewrite lxor_twice).
    rewrite lxor_twice, zip_lxor_twice; [done|]. rewrite Hl. lia.
Qed.

(** * Parsing what was built *)

Definition cid_ok (cid : bytes) : Prop := zlen cid ≤ 20.

Lemma as_u8_cid cid : cid_ok cid → as_u8 (zlen cid) = zlen cid.
Proof. intros H. unfold cid_ok in H. apply wrap_small. pose proof (zlen_nonneg cid). unfold in_width. lia. Qed.

Lemma parse_cid_app pre cid rest extra : cid_ok cid → extra ≤ zlen rest →
  parse_cid (pre ++ zlen cid :: cid ++ rest) (zlen pre) extra = Ok (cid, zlen pre + 1 + zlen cid).
Proof.
  intros Hc He. unfold cid_ok in Hc. unfold parse_cid. pose proof (zlen_nonneg cid).
  assert ((pre ++ zlen cid :: cid ++ rest) !! Z.to_nat (zlen pre) = Some (zlen cid)) as ->
    by (apply list_lookup_middle; unfold zlen; lia).
  cbn [ok_or mbind result_bind]. cbv zeta.
  destruct (Z.ltb_spec 20 (zlen cid)); [lia|].
  assert ((zlen (pre ++ zlen cid :: cid ++ rest) <? zlen pre + 1 + zlen cid + extra) = false) as ->.
  { apply Z.ltb_ge. unfold zlen in *. rewrite length_app. simpl. rewrite length_app. lia. }
  assert (zdrop (zlen pre + 1) (pre ++ zlen cid :: cid ++ rest) = cid ++ rest) as ->.
  { change (pre ++ zlen cid :: cid ++ rest) with (pre ++ [zlen cid] ++ cid ++ rest). rewrite app_assoc.
    replace (zlen pre + 1) with (zlen (pre ++ [zlen cid])) by (by rewrite zlen_app). apply zdrop_app. }
  by rewrite ztake_app.
Qed.

(** The header after the first byte, up to the connection ids. *)
Definition cids_bytes (wire_version : Z) (dcid scid : bytes) : bytes :=
  be_bytes 4 wire_version ++ zlen dcid :: dcid ++ zlen scid :: scid.

Lemma zlen_cids w dcid scid : zlen (cids_bytes w dcid scid) = 6 + zlen dcid + zlen scid.
Proof. unfold cids_bytes, zlen. rewrite length_app, length_be_bytes. simpl. rewrite length_app. simpl. lia. Qed.

Lemma zdrop_pre (a b : bytes) n : n = zlen a → zdrop n (a ++ b) = b.
Proof. intros ->. apply zdrop_app. Qed.

Lemma parse_cids b0 w dcid scid rest : cid_ok dcid → cid_ok scid →
  (let buf := b0 :: cids_bytes w dcid scid ++ rest in
   '(d, p) ← parse_cid buf 5 1; '(s, p) ← parse_cid buf p 0; Ok (d, s, p))
  = Ok (dcid, scid, 7 + zlen dcid + zlen scid).
Proof.
  intros Hd Hs. cbv zeta. pose proof (zlen_nonneg rest). pose proof (zlen_nonneg scid).
  assert (b0 :: cids_bytes w dcid scid ++ rest
    = (b0 :: be_bytes 4 w) ++ zlen dcid :: dcid ++ (zlen scid :: scid ++ rest)) as E1.
  { unfold cids_bytes. rewrite <- !app_assoc. simpl. by rewrite <- app_assoc. }
  assert (zlen (b0 :: be_bytes 4 w) = 5) as E5 by reflexivity.
  rewrite E1, <- E5, parse_cid_app by (done || (unfold zlen; simpl; rewrite length_app; lia)).
  cbn [mbind result_bind].
  assert ((b0 :: be_bytes 4 w) ++ zlen dcid :: dcid ++ (zlen scid :: scid ++ rest)
    = ((b0 :: be_bytes 4 w) ++ zlen dcid :: dcid) ++ zlen scid :: scid ++ rest) as -> by (by rewrite <- app_assoc).
  assert (zlen (b0 :: be_bytes 4 w) + 1 + zlen dcid = zlen ((b0 :: be_bytes 4 w) ++ zlen dcid :: dcid)) as ->.
  { rewrite zlen_app. unfold zlen. simpl. lia. }
  rewrite parse_cid_app by done. cbn [mbind result_bind]. rewrite zlen_app, E5.
  do 2 f_equal. unfold zlen. simpl. lia.
Qed.

Lemma land_high b : 192 ≤ b < 256 → (Z.land b 0x80 =? 0) = false ∧ (Z.land b 0x40 =? 0) = false.
Proof.
  intros Hb. assert (Forall (λ b, (Z.land b 0x80 =? 0) = false ∧ (Z.land b 0x40 =? 0) = false) (seqZ 192 64)) as H.
  { apply (bool_decide_unpack _). vm_compute. exact I. }
  rewrite Forall_forall in H. apply H, elem_of_seqZ. lia.
Qed.

Lemma version_field b0 w dcid scid rest : u32 w →
  be_value (ztake 4 (zdrop 1 (b0 :: cids_bytes w dcid scid ++ rest))) = w.
Proof.
  intros Hw. change (zdrop 1 (b0 :: ?l)) with l. unfold cids_bytes. rewrite <- !app_assoc.
  replace 4 with (zlen (be_bytes 4 w)) at 1 by (unfold zlen; by rewrite length_be_bytes).
  rewrite ztake_app. apply be_value_be_bytes_small. exact Hw.
Qed.

Lemma from_wire_wire v : from_wire (wire v) = Some v.
Proof. by destruct v. Qed.

Lemma long_type_roundtrip v typ : long_type_from_bits v (12 + long_type_bits v typ) = typ.
Proof. by destruct v, typ. Qed.

Lemma wire_range v : u32 (wire v) ∧ (wire v =? 0) = false.
Proof. by destruct v. Qed.

Lemma long_parse_typed b0 v typ dcid scid rest : cid_ok dcid → cid_ok scid → 192 ≤ b0 < 256 →
  Z.shiftr b0 4 = 12 + long_type_bits v typ →
  let buf := b0 :: cids_bytes (wire v) dcid scid ++ rest in
  long_header_parse buf = parse_typed buf typ (wire v) dcid scid (7 + zlen dcid + zlen scid).
Proof.
  intros Hd Hs Hb Ht buf. pose proof (parse_cids b0 (wire v) dcid scid rest Hd Hs) as Hc. cbv zeta in Hc. fold buf in Hc.
  destruct (land_high b0 Hb) as [E80 E40]. destruct (wire_range v) as [Hw Hw0].
  unfold buf at 1. unfold long_header_parse. fold buf. rewrite E80.
  assert ((zlen buf <? 6) = false) as Hlen.
  { apply Z.ltb_ge. unfold buf. change (zlen (b0 :: ?l)) with (zlen ([b0] ++ l)). rewrite !zlen_app, zlen_cids.
    pose proof (zlen_nonneg dcid). pose proof (zlen_nonneg scid). pose proof (zlen_nonneg rest).
    change (zlen [b0]) with 1. lia. }
  rewrite Hlen. cbv zeta.
  assert (be_value (ztake 4 (zdrop 1 buf)) = wire v) as -> by (by apply version_field).
  rewrite Hw0, E40, from_wire_wire. cbn [default]. rewrite Ht, long_type_roundtrip.
  destruct (parse_cid buf 5 1) as [[d p]|]; [|done]. cbn [mbind result_bind] in *.
  destruct (parse_cid buf p 0) as [[s p']|]; [|done]. cbn [mbind result_bind] in *. by injection Hc as -> -> ->.
Qed.

(** The header between the first byte and the packet number. *)
Definition header_mid (typ : long_type) (v : QuicVersion) (dcid scid token : bytes) (len : Z) : bytes :=
  cids_bytes (wire v) dcid scid
  ++ (if bool_decide (typ = LongType.Initial) then venc (zlen token) ++ token else []) ++ venc len.

Lemma zlen_venc v : is_varint v → zlen (venc v) = varint_encoded_len v.
Proof. intros Hv. unfold venc. by apply length_varint_encode. Qed.

Lemma varint_decode_venc v rest : is_varint v → varint_decode (venc v ++ rest) = Ok (v, varint_encoded_len v).
Proof. exact (varint_roundtrip v rest). Qed.

Lemma zdrop_cids b0 w dcid scid rest :
  zdrop (7 + zlen dcid + zlen scid) (b0 :: cids_bytes w dcid scid ++ rest) = rest.
Proof.
  change (b0 :: cids_bytes w dcid scid ++ rest) with ((b0 :: cids_bytes w dcid scid) ++ rest). apply zdrop_pre.
  change (b0 :: ?l) with ([b0] ++ l). rewrite zlen_app, zlen_cids. change (zlen [b0]) with 1. lia.
Qed.

Lemma long_parse_built b0 v typ dcid scid token len tail : typ ≠ LongType.Retry →
  cid_ok dcid → cid_ok scid → is_varint len → is_varint (zlen token) → (typ ≠ LongType.Initial → token = []) →
  192 ≤ b0 < 256 → Z.shiftr b0 4 = 12 + long_type_bits v typ →
  let off := 1 + zlen (header_mid typ v dcid scid token len) in
  long_header_parse (b0 :: header_mid typ v dcid scid token len ++ tail)
  = Ok (mkLongHeader typ (wire v) dcid scid token len off off).
Proof.
  intros Hnr Hd Hs Hl Htok Hni Hb Ht. cbv zeta. unfold header_mid. rewrite <- !app_assoc.
  rewrite (long_parse_typed b0 v typ) by done. unfold parse_typed. rewrite !zlen_app, zlen_cids, (zlen_venc len) by done.
  destruct typ; [| | |done].
  - rewrite bool_decide_eq_true_2 by done. rewrite <- !app_assoc, zdrop_cids. rewrite varint_decode_venc by done. cbn [mbind result_bind]. cbv zeta.
    set (p := 7 + zlen dcid + zlen scid). set (n := varint_encoded_len (zlen token)).
    set (buf := b0 :: _).
    assert (buf = (b0 :: cids_bytes (wire v) dcid scid ++ venc (zlen token)) ++ token ++ venc len ++ tail) as Hbuf
      by (unfold buf; rewrite <- app_comm_cons, <- !app_assoc; done).
    assert (zlen (b0 :: cids_bytes (wire v) dcid scid ++ venc (zlen token)) = p + n) as Hpre.
    { change (b0 :: ?l) with ([b0] ++ l). rewrite !zlen_app, zlen_cids, zlen_venc by done. change (zlen [b0]) with 1.
      unfold p, n. lia. }
    pose proof (zlen_nonneg token). pose proof (zlen_nonneg tail). pose proof (varint_encoded_len_le len).
    change VARINT_MAX with (2 ^ 62 - 1) in *. unfold is_varint in Htok. change VARINT_MAX with (2 ^ 62 - 1) in Htok.
    rewrite (bounded_len_ok (zlen token)); [|rewrite Hbuf, zlen_app, Hpre, !zlen_app, zlen_venc by done; lia|lia].
    cbn [mbind result_bind]. cbv zeta. rewrite Hbuf, <- Hpre, zdrop_app, ztake_app.
    rewrite app_assoc, zdrop_pre by (by rewrite zlen_app). rewrite varint_decode_venc by done.
    cbn [mbind result_bind]. rewrite Hpre. rewrite zlen_app, zlen_venc by done. fold n. unfold p. do 2 f_equal; lia.
  - rewrite bool_decide_eq_false_2 by done. rewrite (Hni ltac:(done)). cbn [app]. rewrite zdrop_cids. rewrite varint_decode_venc by done. cbn [mbind result_bind]. change (zlen (A:=Z) []) with 0. do 2 f_equal; lia.
  - rewrite bool_decide_eq_false_2 by done. rewrite (Hni ltac:(done)). cbn [app]. rewrite zdrop_cids. rewrite varint_decode_venc by done. cbn [mbind result_bind]. change (zlen (A:=Z) []) with 0. do 2 f_equal; lia.
Qed.

Lemma pn_bytes_be pn n : 1 ≤ n ≤ 4 → pn_bytes pn n = be_bytes (Z.to_nat n) pn.
Proof. intros Hn. assert (n = 1 ∨ n = 2 ∨ n = 3 ∨ n = 4) as [-> | [-> | [-> | ->]]] by lia; reflexivity. Qed.

Lemma put_cids_bytes dcid scid out w : cid_ok dcid → cid_ok scid →
  put_cids dcid scid (out ++ be_bytes 4 w) = out ++ cids_bytes w dcid scid.
Proof. intros Hd Hs. unfold put_cids, cids_bytes. rewrite !as_u8_cid by done. by rewrite <- !app_assoc. Qed.

(** The first byte of a long header. *)
Definition long_b0 (typ : long_type) (v : QuicVersion) (n : Z) : Z := Z.lor (first_byte_template typ v) (wsub 8 n 1).

Lemma long_b0_bits typ v n : 1 ≤ n ≤ 4 →
  Z.land (long_b0 typ v n) 3 = n - 1 ∧ Z.shiftr (long_b0 typ v n) 4 = 12 + long_type_bits v typ
  ∧ 12 ≤ Z.shiftr (long_b0 typ v n) 4 < 16 ∧ Z.land (long_b0 typ v n) 0x0c = 0.
Proof.
  intros Hn. assert (n = 1 ∨ n = 2 ∨ n = 3 ∨ n = 4) as [-> | [-> | [-> | ->]]] by lia; destruct typ, v;
    (apply (bool_decide_unpack _); vm_compute; exact I).
Qed.

Lemma build_long_normal typ v dcid scid token pn n len : cid_ok dcid → cid_ok scid → 1 ≤ n ≤ 4 →
  build_long_header typ v dcid scid token pn n len
  = (long_b0 typ v n :: header_mid typ v dcid scid token len ++ be_bytes (Z.to_nat n) pn,
     1 + zlen (header_mid typ v dcid scid token len)).
Proof.
  intros Hd Hs Hn. unfold build_long_header, build_long_header_into. cbv zeta. rewrite pn_bytes_be by done.
  rewrite put_cids_bytes by done. rewrite varint_encode_app, (varint_encode_app (zlen token)).
  fold (venc len) (venc (zlen token)) (long_b0 typ v n). cbn [app].
  assert ((if bool_decide (typ = LongType.Initial)
     then long_b0 typ v n :: (cids_bytes (wire v) dcid scid ++ venc (zlen token)) ++ token
     else long_b0 typ v n :: cids_bytes (wire v) dcid scid) ++ venc len
    = [long_b0 typ v n] ++ header_mid typ v dcid scid token len) as ->.
  { unfold header_mid. destruct (bool_decide _); cbn [app]; by rewrite <- ?app_assoc. }
  f_equal. by rewrite zlen_app.
Qed.

(** What protection may change of a first byte leaves its bits from [k] on alone. *)
Lemma high_bits_kept b b' m k : 0 ≤ k → Z.shiftr m k = 0 → Z.land (Z.lxor b b') (Z.lnot m) = 0 →
  Z.shiftr b' k = Z.shiftr b k.
Proof.
  intros Hk Hm Hx. symmetry. apply Z.lxor_eq. rewrite <- Z.shiftr_lxor.
  rewrite <- Z.ldiff_land in Hx. apply (f_equal (λ x, Z.shiftr x k)) in Hx.
  by rewrite Z.shiftr_ldiff, Hm, Z.ldiff_0_r, Z.shiftr_0_l in Hx.
Qed.

Lemma shiftr_range b k lo hi : 0 ≤ k → lo ≤ Z.shiftr b k < hi → lo * 2 ^ k ≤ b < hi * 2 ^ k.
Proof.
  intros Hk. rewrite Z.shiftr_div_pow2 by done. pose proof (Z.div_mod b (2 ^ k)).
  pose proof (Z.mod_pos_bound b (2 ^ k)). pose proof (Z.pow_pos_nonneg 2 k). nia.
Qed.

(** The packet-number length in bytes the sender picks ([pn_nbits / 8]). *)
Definition pn_len_of (pn : Z) (la : option Z) : Z := encode_packet_number_length pn la / 8.

Lemma pn_len_of_ok pn la : 1 ≤ pn_len_of pn la ≤ 4 ∧ 8 * pn_len_of pn la = encode_packet_number_length pn la.
Proof. unfold pn_len_of, encode_packet_number_length. repeat case_match; vm_compute; intuition discriminate. Qed.

(** A protected long header parses to what it was built from, and unprotecting gives the
    built header back. *)
Lemma long_header_protected typ v dcid scid token pn n len mask payload : typ ≠ LongType.Retry →
  cid_ok dcid → cid_ok scid → is_varint len → is_varint (zlen token) → 1 ≤ n ≤ 4 → zlen mask = 5 →
  let '(hdr, off) := build_long_header typ v dcid scid token pn n len in
  let token := if bool_decide (typ = LongType.Initial) then token else [] in
  ∃ protected, apply_header_protection (hdr ++ payload) off n mask true = Some protected
    ∧ long_header_parse protected = Ok (mkLongHeader typ (wire v) dcid scid token len off off)
    ∧ remove_header_protection protected off mask true = Some (hdr ++ payload, Ok n).
Proof.
  intros Hr Hd Hs Hl Ht Hn Hm. rewrite build_long_normal by done. cbv zeta.
  set (mid := header_mid typ v dcid scid token len). destruct (long_b0_bits typ v n Hn) as (B3 & B4 & Br & _).
  destruct (protection_roundtrip (long_b0 typ v n) mid (be_bytes (Z.to_nat n) pn) payload mask n true)
    as (b0' & pn' & Ha & Hx & _ & Hrm); try done; [rewrite zlen_be_bytes; lia|].
  unfold packet_of in Ha, Hrm. rewrite <- app_comm_cons, <- app_assoc. exists (b0' :: mid ++ pn' ++ payload).
  split; [done|split; [|done]].
  apply (high_bits_kept _ _ _ 4) in Hx; [|lia|done].
  assert (mid = header_mid typ v dcid scid (if bool_decide (typ = LongType.Initial) then token else []) len) as ->.
  { unfold mid, header_mid. by destruct (bool_decide _). }
  apply long_parse_built; try done.
  - by destruct (bool_decide _).
  - intros Hi. by rewrite bool_decide_eq_false_2.
  - rewrite <- Hx in Br. by apply shiftr_range in Br.
  - by rewrite Hx.
Qed.

(** C15: a long-header packet survives the wire.  Whatever the version, type, connection
    ids, token, packet number and 5-byte mask, the header the sender builds with the
    packet-number length it picks, followed by any payload and protected with the mask,
    parses -- while protected -- to the type, version, ids, token, length and offset it
    was built from; removing the protection gives back the built packet and the length of
    its number, the reserved bits check, and the number decoded against the receiver's
    largest one is the sender's. *)
Theorem long_packet_roundtrip typ v dcid scid token pn la len mask payload largest :
  typ ≠ LongType.Retry → zlen dcid ≤ 20 → zlen scid ≤ 20 → is_varint len → is_varint (zlen token) →
  zlen mask = 5 → 0 ≤ pn < 2 ^ 62 → 0 ≤ largest < 2 ^ 62 →
  match la with Some a => 0 ≤ a ≤ largest ∧ pn - a < 2 ^ 31 | None => pn + 1 < 2 ^ 31 end →
  largest + 1 - pn < 2 ^ (8 * pn_len_of pn la - 1) →
  let n := pn_len_of pn la in
  let '(hdr, off) := build_long_header typ v dcid scid token pn n len in
  let token := if bool_decide (typ = LongType.Initial) then token else [] in
  ∃ protected, apply_header_protection (hdr ++ payload) off n mask true = Some protected
    ∧ long_header_parse protected = Ok (mkLongHeader typ (wire v) dcid scid token len off off)
    ∧ remove_header_protection protected off mask true = Some (hdr ++ payload, Ok n)
    ∧ check_reserved_bits (default 0 (head (hdr ++ payload))) true = Ok ()
    ∧ decode_packet_number largest (be_value (ztake n (zdrop off (hdr ++ payload)))) (8 * n) = pn.
Proof.
  intros Hr Hd Hs Hl Ht Hm Hpn Hlg Hla Hah n. destruct (pn_len_of_ok pn la) as [Hn Hbits].
  pose proof (long_header_protected typ v dcid scid token pn n len mask payload Hr Hd Hs Hl Ht Hn Hm) as Hp.
  rewrite build_long_normal in * by done. cbv zeta in *. destruct Hp as (pr & ? & ? & ?).
  exists pr. split; [done|split; [done|split; [done|split]]].
  - unfold check_reserved_bits. change (default 0 (head _)) with (long_b0 typ v n).
    by destruct (long_b0_bits typ v n Hn) as (_ & _ & _ & ->).
  - set (mid := header_mid typ v dcid scid token len). rewrite <- app_comm_cons, <- app_assoc.
    rewrite app_comm_cons, (zdrop_pre (_ :: mid)) by (unfold zlen; simpl; lia).
    replace n with (zlen (be_bytes (Z.to_nat n) pn)) at 1 by (rewrite zlen_be_bytes; lia).
    rewrite ztake_app, be_value_be_bytes, Z2Nat.id by lia. unfold wrap, n. rewrite Hbits in *.
    by apply packet_number_roundtrip.
Qed.

Lemma long_packet_roundtrip_witness :
  ∃ protected, apply_header_protection (build_long_header LongType.Initial V2 [1;2] [3] [9] 0x9b32 2 20).1 13 2 [255;1;2;3;4] true
    = Some protected ∧ protected ≠ (build_long_header LongType.Initial V2 [1;2] [3] [9] 0x9b32 2 20).1.
Proof.
  destruct (long_packet_roundtrip LongType.Initial V2 [1;2] [3] [9] 0x9b32 (Some 0x90ff) 20 [255;1;2;3;4] [] 0x9a00)
    as (pr & H & _); try done; try (apply (bool_decide_unpack _); vm_compute; exact I).
  vm_compute in H. exists pr. split; [vm_compute; exact H|]. injection H as <-. vm_compute. discriminate.
Defined.

(** * Short headers *)

Definition short_b0 (spin key_phase : bool) (n : Z) : Z :=
  let b0 := Z.lor 0x40 (wsub 8 n 1) in
  let b0 := if spin then Z.lor b0 0x20 else b0 in
  if key_phase then Z.lor b0 0x04 else b0.

Lemma short_b0_bits spin kp n : 1 ≤ n ≤ 4 →
  Z.land (short_b0 spin kp n) 3 = n - 1 ∧ Z.shiftr (short_b0 spin kp n) 5 = (if spin then 3 else 2)
  ∧ negb (Z.land (short_b0 spin kp n) 4 =? 0) = kp ∧ Z.land (short_b0 spin kp n) 0x18 = 0.
Proof.
  intros Hn. assert (n = 1 ∨ n = 2 ∨ n = 3 ∨ n = 4) as [-> | [-> | [-> | ->]]] by lia; destruct spin, kp;
    (apply (bool_decide_unpack _); vm_compute; exact I).
Qed.

Lemma build_short_normal dcid spin kp pn n : 1 ≤ n ≤ 4 →
  build_short_header dcid spin kp pn n = (short_b0 spin kp n :: dcid ++ be_bytes (Z.to_nat n) pn, 1 + zlen dcid).
Proof.
  intros Hn. unfold build_short_header, build_short_header_into. cbv zeta. rewrite pn_bytes_be by done.
  fold (short_b0 spin kp n). f_equal. cbn [app]. unfold zlen. simpl. lia.
Qed.

Lemma short_parse_built b0 dcid tail (spin : bool) : zlen dcid ≤ 20 → Z.shiftr b0 5 = (if spin then 3 else 2) →
  short_header_parse (b0 :: dcid ++ tail) (zlen dcid)
  = Ok (mkShortHeader dcid (negb (Z.land b0 4 =? 0)) spin (1 + zlen dcid)).
Proof.
  intros Hd Hb. assert (64 ≤ b0 < 128) as Hr by (apply (shiftr_range b0 5 2 4); [lia|]; rewrite Hb; destruct spin; lia).
  assert (Z.land b0 0x80 = 0 ∧ (Z.land b0 0x40 =? 0) = false ∧ negb (Z.land b0 0x20 =? 0) = spin) as (E1 & E2 & E3).
  { assert (Forall (λ b, Z.land b 0x80 = 0 ∧ (Z.land b 0x40 =? 0) = false
       ∧ negb (Z.land b 0x20 =? 0) = (Z.shiftr b 5 =? 3)) (seqZ 64 64)) as HF
      by (apply (bool_decide_unpack _); vm_compute; exact I).
    rewrite Forall_forall in HF. destruct (HF b0) as (? & ? & E); [apply elem_of_seqZ; lia|].
    split; [done|split; [done|]]. rewrite E, Hb. by destruct spin. }
  unfold short_header_parse. rewrite E1, E2, E3. cbn [negb orb Z.eqb].
  destruct (Z.ltb_spec 20 (zlen dcid)); [lia|].
  destruct (Z.ltb_spec (zlen (b0 :: dcid ++ tail)) (1 + zlen dcid)) as [Hc|].
  { unfold zlen in Hc. simpl in Hc. rewrite length_app in Hc. lia. }
  change (zdrop 1 (b0 :: ?l)) with l. by rewrite ztake_app.
Qed.

(** A short-header packet survives the wire: with the receiver's connection-id
    length, the protected packet parses to the id, the spin bit and the offset of the
    number; removing the protection gives back the built packet, whose key phase bit,
    reserved bits and number are then the sender's. *)
Theorem short_packet_roundtrip dcid spin kp pn la mask payload largest :
  zlen dcid ≤ 20 → zlen mask = 5 → 0 ≤ pn < 2 ^ 62 → 0 ≤ largest < 2 ^ 62 →
  match la with Some a => 0 ≤ a ≤ largest ∧ pn - a < 2 ^ 31 | None => pn + 1 < 2 ^ 31 end →
  largest + 1 - pn < 2 ^ (8 * pn_len_of pn la - 1) →
  let n := pn_len_of pn la in
  let '(hdr, off) := build_short_header dcid spin kp pn n in
  ∃ protected kp', apply_header_protection (hdr ++ payload) off n mask false = Some protected
    ∧ short_header_parse protected (zlen dcid) = Ok (mkShortHeader dcid kp' spin off)
    ∧ remove_header_protection protected off mask false = Some (hdr ++ payload, Ok n)
    ∧ short_header_parse (hdr ++ payload) (zlen dcid) = Ok (mkShortHeader dcid kp spin off)
    ∧ check_reserved_bits (default 0 (head (hdr ++ payload))) false = Ok ()
    ∧ decode_packet_number largest (be_value (ztake n (zdrop off (hdr ++ payload)))) (8 * n) = pn.
Proof.
  intros Hd Hm Hpn Hlg Hla Hah n. destruct (pn_len_of_ok pn la) as [Hn Hbits].
  rewrite build_short_normal by done. destruct (short_b0_bits spin kp n Hn) as (B3 & B5 & Bk & Br).
  destruct (protection_roundtrip (short_b0 spin kp n) dcid (be_bytes (Z.to_nat n) pn) payload mask n false)
    as (b0' & pn' & Ha & Hx & _ & Hrm); try done; [rewrite zlen_be_bytes; lia|].
  apply (high_bits_kept _ _ _ 5) in Hx; [|lia|done].
  unfold packet_of in Ha, Hrm. rewrite <- app_comm_cons, <- app_assoc.
  exists (b0' :: dcid ++ pn' ++ payload), (negb (Z.land b0' 4 =? 0)). split_and!; try done.
  - apply short_parse_built; [done|]. by rewrite Hx.
  - rewrite <- Bk at 2. by apply short_parse_built.
  - unfold check_reserved_bits. change (default 0 (head _)) with (short_b0 spin kp n). by rewrite Br.
  - rewrite app_comm_cons, (zdrop_pre (_ :: dcid)) by (unfold zlen; simpl; lia).
    replace n with (zlen (be_bytes (Z.to_nat n) pn)) at 1 by (rewrite zlen_be_bytes; lia).
    rewrite ztake_app, be_value_be_bytes, Z2Nat.id by lia. unfold wrap, n. rewrite Hbits in *.
    by apply packet_number_roundtrip.
Qed.

Lemma short_packet_roundtrip_witness :
  ∃ protected, apply_header_protection (build_short_header [7;8;9] true true 0x9b32 2).1 4 2 [255;1;2;3;4] false
    = Some protected ∧ protected !! 0%nat = Some 0x7a.
Proof.
  destruct (short_packet_roundtrip [7;8;9] true true 0x9b32 (Some 0x90ff) [255;1;2;3;4] [] 0x9a00)
    as (pr & kp' & H & _); try done; try (apply (bool_decide_unpack _); vm_compute; exact I).
  vm_compute in H. exists pr. split; [vm_compute; exact H|]. injection H as <-. reflexivity.
Defined.

(** * Retry and Version Negotiation: what a client reads back *)

Lemma retry_unauth_normal v dcid scid token : cid_ok dcid → cid_ok scid →
  build_retry_unauth v dcid scid token
  = first_byte_template LongType.Retry v :: cids_bytes (wire v) dcid scid ++ token.
Proof. intros Hd Hs. unfold build_retry_unauth. rewrite put_cids_bytes by done. reflexivity. Qed.

Lemma long_header_parse_vn b0 dcid scid rest : cid_ok dcid → cid_ok scid → 192 ≤ b0 < 256 →
  let p := 7 + zlen dcid + zlen scid in
  long_header_parse (b0 :: cids_bytes 0 dcid scid ++ rest) = Ok (mkLongHeader LongType.Initial 0 dcid scid [] 0 p p).
Proof.
  intros Hd Hs Hb p. pose proof (parse_cids b0 0 dcid scid rest Hd Hs) as Hc. cbv zeta in Hc.
  destruct (land_high b0 Hb) as [E80 _]. unfold long_header_parse. rewrite E80.
  destruct (Z.ltb_spec (zlen (b0 :: cids_bytes 0 dcid scid ++ rest)) 6) as [Hl|_].
  { change (b0 :: ?l) with ([b0] ++ l) in Hl. rewrite !zlen_app, zlen_cids in Hl. change (zlen [b0]) with 1 in Hl.
    pose proof (zlen_nonneg dcid). pose proof (zlen_nonneg scid). pose proof (zlen_nonneg rest). lia. }
  cbv zeta. rewrite version_field by done. cbn [Z.eqb].
  destruct (parse_cid _ 5 1) as [[d q]|]; [|done]. cbn [mbind result_bind] in *.
  destruct (parse_cid _ q 0) as [[s q']|]; [|done]. cbn [mbind result_bind] in *. by injection Hc as -> -> ->.
Qed.

(** The packets a server sends before it keeps state reach the client whole.  A Retry
    parses to its connection ids and its token, and the last 16 bytes are the integrity
    tag over the original connection id and everything before them; a Version
    Negotiation packet parses to version 0 and its connection ids, and the body the
    client reads from there is the server's list of versions.  The tag function is any
    with a 16-byte result, as AES-128-GCM has. *)
Theorem stateless_packets_roundtrip gcm_tag v dcid scid token odcid versions :
  (∀ k n a, zlen (gcm_tag k n a : bytes) = 16) → zlen dcid ≤ 20 → zlen scid ≤ 20 → Forall u32 versions →
  let p := 7 + zlen dcid + zlen scid in
  let pkt := build_retry gcm_tag v dcid scid token odcid in
  long_header_parse pkt = Ok (mkLongHeader LongType.Retry (wire v) dcid scid token 0 p p)
  ∧ zdrop (zlen pkt - 16) pkt = retry_integrity_tag gcm_tag v odcid (ztake (zlen pkt - 16) pkt)
  ∧ let vn := build_version_negotiation dcid scid versions in
    long_header_parse vn = Ok (mkLongHeader LongType.Initial 0 dcid scid [] 0 p p)
    ∧ words (zdrop p vn) = versions.
Proof.
  intros Htag Hd Hs Hv p pkt. set (unauth := build_retry_unauth v dcid scid token).
  assert (pkt = unauth ++ retry_integrity_tag gcm_tag v odcid unauth) as Epkt by reflexivity.
  assert (zlen pkt - 16 = zlen unauth) as Elen.
  { rewrite Epkt, zlen_app. unfold retry_integrity_tag. rewrite Htag. lia. }
  split_and!.
  - rewrite Epkt. set (tag := retry_integrity_tag gcm_tag v odcid unauth).
    assert (zlen tag = 16) as Ht by apply Htag. clearbody tag. unfold unauth. rewrite retry_unauth_normal by done.
    rewrite <- app_comm_cons, <- app_assoc.
    rewrite (long_parse_typed _ v LongType.Retry) by (done || by destruct v). unfold parse_typed.
    rewrite zdrop_cids.
    set (buf := first_byte_template LongType.Retry v :: _).
    assert (zlen buf = p + zlen token + 16) as ->.
    { unfold buf. change (?b :: ?l) with ([b] ++ l). rewrite !zlen_app, zlen_cids, Ht. unfold p.
      change (zlen [_]) with 1. lia. }
    fold p. pose proof (zlen_nonneg token). destruct (Z.ltb_spec (p + zlen token + 16) (p + 16)); [lia|].
    replace (p + zlen token + 16 - 16 - p) with (zlen token) by lia. by rewrite ztake_app.
  - rewrite Elen, Epkt. by rewrite zdrop_app, ztake_app.
  - unfold build_version_negotiation. change (replicate 4 0) with (be_bytes 4 0). rewrite put_cids_bytes by done.
    rewrite <- app_assoc. cbn [app]. unfold p. split; [by apply long_header_parse_vn|].
    rewrite zdrop_cids. by apply words_encode.
Qed.

Lemma stateless_packets_roundtrip_witness :
  words (zdrop 10 (build_version_negotiation [1;2] [3] [1; 0x6b3343cf])) = [1; 0x6b3343cf].
Proof.
  destruct (stateless_packets_roundtrip (λ _ _ a, replicate 16 (zlen a)) V1 [1;2] [3] [9;9] [4] [1; 0x6b3343cf])
    as (_ & _ & _ & H); [done..| |exact H]. apply (bool_decide_unpack _). vm_compute. exact I.
Defined.

(** * What the parser accepts *)

Lemma zdrop_cons p (buf : bytes) b : 0 ≤ p → buf !! Z.to_nat p = Some b → zdrop p buf = b :: zdrop (p + 1) buf.
Proof. intros Hp Hb. unfold zdrop. rewrite (drop_S _ _ _ Hb). do 2 f_equal. lia. Qed.

Lemma ztake_zdrop {A} n (l : list A) : ztake n l ++ zdrop n l = l.
Proof. apply take_drop. Qed.

Lemma parse_cid_inv buf p extra c q : bytes_ok buf → 0 ≤ p → 0 ≤ extra → parse_cid buf p extra = Ok (c, q) →
  zlen c ≤ 20 ∧ q = p + 1 + zlen c ∧ q + extra ≤ zlen buf ∧ zdrop p buf = zlen c :: c ++ zdrop q buf.
Proof.
  intros Hok Hp He. unfold parse_cid. destruct (buf !! Z.to_nat p) as [len|] eqn:Hlk; [|done].
  cbn [ok_or mbind result_bind]. cbv zeta. destruct (Z.ltb_spec 20 len) as [|H20]; [done|].
  destruct (Z.ltb_spec (zlen buf) (p + 1 + len + extra)) as [|Hlen]; [done|]. intros [= <- <-].
  assert (0 ≤ len) by (apply (Forall_lookup_1 _ _ _ _ Hok Hlk)).
  assert (zlen (ztake len (zdrop (p + 1) buf)) = len) as Hz
    by (apply zlen_ztake; rewrite zlen_zdrop by lia; lia).
  rewrite Hz. split_and!; [lia|done|lia|]. rewrite (zdrop_cons p buf len) by done. f_equal.
  rewrite <- (ztake_zdrop len (zdrop (p + 1) buf)) at 1. by rewrite zdrop_zdrop by lia.
Qed.

Lemma varint_at buf p v n : bytes_ok buf → 0 ≤ p ≤ zlen buf → varint_decode (zdrop p buf) = Ok (v, n) →
  1 ≤ n ∧ p + n ≤ zlen buf ∧ is_varint v.
Proof.
  intros Hok Hp Hv. destruct (varint_decode_bounds (zdrop p buf) v n) as (Hn & Hl & Hr); [by apply Forall_drop|done|].
  rewrite zlen_zdrop in Hl by lia. unfold is_varint. change VARINT_MAX with (2 ^ 62 - 1).
  pose proof (Z.pow_le_mono_r 2 (8 * n - 2) 62). lia.
Qed.

Lemma zlen_ztake_le {A} n (l : list A) : 0 ≤ n → zlen (ztake n l) ≤ n.
Proof. intros. unfold zlen, ztake. rewrite length_take. lia. Qed.

Lemma parse_typed_inv buf typ version dcid scid p h : bytes_ok buf → 0 ≤ p ≤ zlen buf →
  parse_typed buf typ version dcid scid p = Ok h →
  lh_typ h = typ ∧ lh_version h = version ∧ lh_dcid h = dcid ∧ lh_scid h = scid
  ∧ p ≤ lh_pn_offset h ≤ zlen buf ∧ lh_payload_off h = lh_pn_offset h ∧ is_varint (lh_length h)
  ∧ zlen (lh_token h) ≤ zlen buf - p.
Proof.
  intros Hok Hp. destruct typ; unfold parse_typed.
  - destruct (varint_decode (zdrop p buf)) as [[tlen n]|] eqn:E1; [|done]. cbn [mbind result_bind]. cbv zeta.
    destruct (varint_at _ _ _ _ Hok Hp E1) as (? & ? & [? _]).
    destruct (bounded_len _ _ _) as [k|] eqn:Eb; [|done]. apply bounded_len_inv in Eb as [-> Hk].
    cbn [mbind result_bind]. cbv zeta.
    destruct (varint_decode (zdrop (p + n + tlen) buf)) as [[len m]|] eqn:E2; [|done]. cbn [mbind result_bind].
    destruct (varint_at buf (p + n + tlen) len m Hok ltac:(lia) E2) as (? & ? & ?).
    pose proof (zlen_ztake_le tlen (zdrop (p + n) buf) ltac:(lia)). intros [= <-]. simpl. split_and!; (done || lia).
  - destruct (varint_decode (zdrop p buf)) as [[len n]|] eqn:E1; [|done]. cbn [mbind result_bind]. cbv zeta.
    destruct (varint_at _ _ _ _ Hok Hp E1) as (? & ? & ?). intros [= <-]. simpl. change (zlen (A:=Z) []) with 0.
    split_and!; (done || lia).
  - destruct (varint_decode (zdrop p buf)) as [[len n]|] eqn:E1; [|done]. cbn [mbind result_bind]. cbv zeta.
    destruct (varint_at _ _ _ _ Hok Hp E1) as (? & ? & ?). intros [= <-]. simpl. change (zlen (A:=Z) []) with 0.
    split_and!; (done || lia).
  - destruct (Z.ltb_spec (zlen buf) (p + 16)); [done|].
    pose proof (zlen_ztake_le (zlen buf - 16 - p) (zdrop p buf) ltac:(lia)). intros [= <-]. simpl.
    split_and!; (done || lia).
Qed.

(** The header parser stays inside its buffer, whatever bytes arrive: an accepted
    packet starts with its first byte, the version it reports and the two connection ids
    behind their lengths, neither above 20 bytes; the packet number starts after them and
    no later than the end of the buffer, the token fits in between, and the length is a
    62-bit value. *)
Theorem long_header_parse_bounds buf h : bytes_ok buf → long_header_parse buf = Ok h →
  zlen (lh_dcid h) ≤ 20 ∧ zlen (lh_scid h) ≤ 20
  ∧ (∃ b0 rest, buf = b0 :: cids_bytes (lh_version h) (lh_dcid h) (lh_scid h) ++ rest ∧ 128 ≤ b0)
  ∧ 7 + zlen (lh_dcid h) + zlen (lh_scid h) ≤ lh_pn_offset h ≤ zlen buf ∧ lh_payload_off h = lh_pn_offset h
  ∧ zlen (lh_token h) ≤ zlen buf - (7 + zlen (lh_dcid h) + zlen (lh_scid h)) ∧ is_varint (lh_length h).
Proof.
  intros Hok Hp. destruct buf as [|b0 l] eqn:Ebuf; [done|]. unfold long_header_parse in Hp. rewrite <- Ebuf in *.
  destruct (Z.eqb_spec (Z.land b0 0x80) 0) as [|H80]; [done|].
  destruct (Z.ltb_spec (zlen buf) 6) as [|H6]; [done|]. cbv zeta in Hp.
  set (version := be_value (ztake 4 (zdrop 1 buf))) in *.
  assert (∃ dcid scid p, parse_cid buf 5 1 = Ok (dcid, 6 + zlen dcid) ∧ parse_cid buf (6 + zlen dcid) 0 = Ok (scid, p)
    ∧ (h = mkLongHeader LongType.Initial version dcid scid [] 0 p p ∨ ∃ typ, parse_typed buf typ version dcid scid p = Ok h))
    as (dcid & scid & p & Hd & Hs & Hh).
  { destruct (Z.eqb_spec version 0) as [E0|]; [|destruct (Z.land b0 64 =? 0); [done|]];
      (destruct (parse_cid buf 5 1) as [[dcid q]|] eqn:Ed; [|done]); cbn [mbind result_bind] in Hp;
      (destruct (parse_cid_inv buf 5 1 _ _ Hok ltac:(lia) ltac:(lia) Ed) as (_ & -> & _)); change (5 + 1 + zlen dcid) with (6 + zlen dcid) in *;
      (destruct (parse_cid buf (6 + zlen dcid) 0) as [[scid p]|] eqn:Es; [|done]); cbn [mbind result_bind] in Hp;
      exists dcid, scid, p; (split; [done|split; [done|]]); [left; rewrite E0; congruence|right; eauto]. }
  destruct (parse_cid_inv buf 5 1 _ _ Hok ltac:(lia) ltac:(lia) Hd) as (Hd20 & _ & _ & Ed).
  pose proof (zlen_nonneg dcid). pose proof (zlen_nonneg scid).
  destruct (parse_cid_inv buf (6 + zlen dcid) 0 _ _ Hok ltac:(lia) ltac:(lia) Hs) as (Hs20 & Ep & Hpl & Es).
  assert (lh_version h = version ∧ lh_dcid h = dcid ∧ lh_scid h = scid
    ∧ p ≤ lh_pn_offset h ≤ zlen buf ∧ lh_payload_off h = lh_pn_offset h ∧ is_varint (lh_length h)
    ∧ zlen (lh_token h) ≤ zlen buf - p) as (-> & -> & -> & Hoff & Hpo & Hl & Ht).
  { destruct Hh as [-> | [typ Ht]]; [|apply parse_typed_inv in Ht; [naive_solver|done|lia]].
    simpl. change (zlen (A:=Z) []) with 0. split_and!; (done || lia). }
  split_and!; (done || lia || idtac). exists b0, (zdrop p buf). split.
  - assert (buf = b0 :: zdrop 1 buf) as E1 by (by rewrite Ebuf). rewrite E1 at 1. f_equal.
    rewrite <- (ztake_zdrop 4 (zdrop 1 buf)) at 1. rewrite zdrop_zdrop by lia. change (1 + 4) with 5. rewrite Ed, Es.
    unfold cids_bytes. rewrite <- app_assoc. f_equal; [|by rewrite <- app_comm_cons, <- app_assoc].
    assert (length (ztake 4 (zdrop 1 buf)) = 4%nat) as <-
      by (pose proof (zlen_ztake 4 (zdrop 1 buf)) as Hz; rewrite zlen_zdrop in Hz by lia; unfold zlen in *; lia).
    symmetry. apply be_bytes_be_value. by apply Forall_take, Forall_drop.
  - rewrite Ebuf in Hok. inversion Hok as [|? ? Hb0]; subst. destruct (Z.le_gt_cases 128 b0) as [|Hlt]; [done|].
    destruct H80. assert (Forall (λ b, Z.land b 0x80 = 0) (seqZ 0 128)) as HF
      by (apply (bool_decide_unpack _); vm_compute; exact I).
    rewrite Forall_forall in HF. apply HF, elem_of_seqZ. unfold u8, in_width in Hb0. lia.
Qed.

Lemma long_header_parse_bounds_witness :
  ∃ h, long_header_parse (build_long_header LongType.Handshake V1 [1;2] [3] [] 7 1 40).1 = Ok h
    ∧ lh_pn_offset h ≤ 12.
Proof.
  eexists. split; [vm_compute; reflexivity|].
  destruct (long_header_parse_bounds (build_long_header LongType.Handshake V1 [1;2] [3] [] 7 1 40).1
    (mkLongHeader LongType.Handshake 1 [1;2] [3] [] 40 11 11)) as (_ & _ & _ & H & _).
  - apply (bool_decide_unpack _). vm_compute. exact I.
  - reflexivity.
  - apply H.
Defined.
