(* ===== verification/Cid.v ===== *)
(** Connection ids ([src/quic/cid.rs]): the inline byte string, the pool of the ids one
    side issued, and the handlers of [src/quic/connection.rs] that move the endpoint from
    one id to another (NEW_CONNECTION_ID, RETIRE_CONNECTION_ID, issuing, migration). *)

From S2P Require Import Prelude TlsBase BTree Varint Codec Frame TransportParams.

Definition MAX_CID_LEN : Z := 20.
Definition PENDING_RETIRE_SLACK : Z := 8.

(** * The inline byte string *)

Record ConnectionId := mkConnectionId { cid_storage : bytes; cid_len : Z }.

#[global] Instance ConnectionId_eq_dec : EqDecision ConnectionId.
Proof. solve_decision. Defined.

Definition cid_from_slice (bytes : bytes) : option ConnectionId :=
  if MAX_CID_LEN <? zlen bytes then None
  else Some (mkConnectionId (bytes ++ replicate (Z.to_nat (MAX_CID_LEN - zlen bytes)) 0) (as_u8 (zlen bytes))).

Definition cid_empty : ConnectionId := mkConnectionId (replicate (Z.to_nat MAX_CID_LEN) 0) 0.

Definition cid_as_slice (self : ConnectionId) : bytes := ztake (cid_len self) (cid_storage self).
Definition cid_is_empty (self : ConnectionId) : bool := cid_len self =? 0.

(** * The pool *)

Record CidEntry := mkCidEntry { ce_cid : ConnectionId; ce_sequence : Z; ce_reset_token : option bytes }.

#[global] Instance CidEntry_eq_dec : EqDecision CidEntry.
Proof. solve_decision. Defined.

Record CidPool := mkCidPool {
  cp_entries : list (Z * CidEntry); cp_active_seq : Z; cp_retire_prior_to : Z; cp_limit : Z;
  cp_pending_retire : list Z; cp_issued_high : Z }.

Definition set_entries (e : list (Z * CidEntry)) (p : CidPool) : CidPool :=
  mkCidPool e (cp_active_seq p) (cp_retire_prior_to p) (cp_limit p) (cp_pending_retire p) (cp_issued_high p).
Definition set_active (a : Z) (p : CidPool) : CidPool :=
  mkCidPool (cp_entries p) a (cp_retire_prior_to p) (cp_limit p) (cp_pending_retire p) (cp_issued_high p).
Definition set_retire_prior_to (r : Z) (p : CidPool) : CidPool :=
  mkCidPool (cp_entries p) (cp_active_seq p) r (cp_limit p) (cp_pending_retire p) (cp_issued_high p).
Definition set_pending (l : list Z) (p : CidPool) : CidPool :=
  mkCidPool (cp_entries p) (cp_active_seq p) (cp_retire_prior_to p) (cp_limit p) l (cp_issued_high p).
Definition set_issued_high (h : Z) (p : CidPool) : CidPool :=
  mkCidPool (cp_entries p) (cp_active_seq p) (cp_retire_prior_to p) (cp_limit p) (cp_pending_retire p) h.

Definition cid_pool_new (initial : ConnectionId) (initial_reset_token : option bytes) : CidPool :=
  mkCidPool [(0, mkCidEntry initial 0 initial_reset_token)] 0 0 2 [] 0.

Definition set_limit (limit : Z) (p : CidPool) : CidPool :=
  mkCidPool (cp_entries p) (cp_active_seq p) (cp_retire_prior_to p) (limit `max` 2) (cp_pending_retire p)
    (cp_issued_high p).

Definition pending_retire_cap (self : CidPool) : Z := sat_add 64 (cp_limit self) PENDING_RETIRE_SLACK.

Definition queue_pending_retire (self : CidPool) (sequence : Z) : CidPool * tls_result () :=
  if bool_decide (sequence ∈ cp_pending_retire self) then (self, Ok ())
  else if pending_retire_cap self <=? zlen (cp_pending_retire self) then (self, Err Error.IllegalParameter)
  else (set_pending (cp_pending_retire self ++ [sequence]) self, Ok ()).

(** The first entry at or above [lo]: [entries.range(lo..).next()]. *)
Definition first_from (m : list (Z * CidEntry)) (lo : Z) : option (Z * CidEntry) :=
  head (filter (λ e, lo ≤ e.1) m).

Definition live (self : CidPool) : Z := zlen (filter (λ e, cp_retire_prior_to self ≤ e.1) (cp_entries self)).

Definition retire_retained_active (self : CidPool) : CidPool * tls_result () :=
  if (cp_retire_prior_to self <=? cp_active_seq self) || bool_decide (bt_get (cp_entries self) (cp_active_seq self) = None)
  then (self, Ok ())
  else
    match first_from (cp_entries self) (cp_retire_prior_to self) with
    | None => (self, Ok ())
    | Some (repl, _) =>
        let stale := cp_active_seq self in
        queue_pending_retire (set_entries (bt_remove (cp_entries self) stale) (set_active repl self)) stale
    end.

Definition cid_add (self : CidPool) (entry : CidEntry) : CidPool * tls_result () :=
  match bt_get (cp_entries self) (ce_sequence entry) with
  | Some existing => if bool_decide (existing ≠ entry) then (self, Err Error.IllegalParameter) else (self, Ok ())
  | None =>
      if ce_sequence entry <? cp_retire_prior_to self then queue_pending_retire self (ce_sequence entry)
      else if cp_limit self <=? live self then (self, Err Error.IllegalParameter)
      else
        let self := set_issued_high (cp_issued_high self `max` ce_sequence entry) self in
        retire_retained_active (set_entries (bt_insert (cp_entries self) (ce_sequence entry) entry) self)
  end.

Definition cid_retire (self : CidPool) (sequence : Z) : CidPool * tls_result (option CidEntry) :=
  if cp_issued_high self <? sequence then (self, Err Error.IllegalParameter)
  else
    let take (self : CidPool) :=
      (set_entries (bt_remove (cp_entries self) sequence) self, Ok (bt_get (cp_entries self) sequence)) in
    if (sequence =? cp_active_seq self) && negb (bool_decide (bt_get (cp_entries self) sequence = None)) then
      match head (filter (λ seq, seq ≠ sequence) (cp_entries self).*1) with
      | Some seq => take (set_active seq self)
      | None => (self, Err Error.IllegalParameter)
      end
    else take self.

(** [for s in dropped { remove; queue? }] *)
Fixpoint drop_entries (self : CidPool) (dropped : list Z) : CidPool * tls_result () :=
  match dropped with
  | [] => (self, Ok ())
  | s :: dropped =>
      match queue_pending_retire (set_entries (bt_remove (cp_entries self) s) self) s with
      | (self, Ok _) => drop_entries self dropped
      | (self, Err e) => (self, Err e)
      end
  end.

Definition note_retire_prior_to (self : CidPool) (new : Z) : CidPool * tls_result () :=
  if new <=? cp_retire_prior_to self then (self, Ok ())
  else
    let self := set_retire_prior_to new self in
    let replacement := fst <$> first_from (cp_entries self) new in
    let '(self, keep_active) :=
      if cp_active_seq self <? new then
        match replacement with
        | Some repl => (set_active repl self, None)
        | None => (self, Some (cp_active_seq self))
        end
      else (self, None) in
    drop_entries self (filter (λ s, s < new ∧ Some s ≠ keep_active) (cp_entries self).*1).

Definition cid_active (self : CidPool) : option CidEntry := bt_get (cp_entries self) (cp_active_seq self).

Definition how_many_to_issue (self : CidPool) : Z := sat_sub (cp_limit self) (live self).

Definition pop_pending_retire (self : CidPool) : CidPool * option Z :=
  match cp_pending_retire self with
  | [] => (self, None)
  | s :: l => (set_pending l self, Some s)
  end.

Definition max_sequence (self : CidPool) : Z := default 0 (last (cp_entries self).*1).

Definition set_token (self : CidPool) (sequence : Z) (token : bytes) : CidPool * bool :=
  match bt_get (cp_entries self) sequence with
  | Some e =>
      (set_entries (bt_insert (cp_entries self) sequence (mkCidEntry (ce_cid e) (ce_sequence e) (Some token))) self, true)
  | None => (self, false)
  end.

(** * The handlers of [connection.rs] *)

(** What the handlers read and write of the connection: the id written on outbound
    packets ([endpoint.cids.peer]), the pools of both directions, the id to fall back to
    while a migration is being validated, the id the current packet was sent to, and
    whether issuance is complete. *)
Record ConnCids := mkConnCids {
  cc_peer : ConnectionId; cc_remote : option CidPool; cc_local : option CidPool;
  cc_migration : option ConnectionId; cc_rx_dcid : bytes; cc_new_cids_issued : bool }.

Definition set_remote (r : option CidPool) (c : ConnCids) : ConnCids :=
  mkConnCids (cc_peer c) r (cc_local c) (cc_migration c) (cc_rx_dcid c) (cc_new_cids_issued c).
Definition set_peer (p : ConnectionId) (c : ConnCids) : ConnCids :=
  mkConnCids p (cc_remote c) (cc_local c) (cc_migration c) (cc_rx_dcid c) (cc_new_cids_issued c).
Definition set_local (l : option CidPool) (c : ConnCids) : ConnCids :=
  mkConnCids (cc_peer c) (cc_remote c) l (cc_migration c) (cc_rx_dcid c) (cc_new_cids_issued c).
Definition set_migration (m : option ConnectionId) (c : ConnCids) : ConnCids :=
  mkConnCids (cc_peer c) (cc_remote c) (cc_local c) m (cc_rx_dcid c) (cc_new_cids_issued c).
Definition set_issued (b : bool) (c : ConnCids) : ConnCids :=
  mkConnCids (cc_peer c) (cc_remote c) (cc_local c) (cc_migration c) (cc_rx_dcid c) b.

(** The arm of [Frame::NewConnectionId]. *)
Definition on_new_connection_id (self : ConnCids) (seq retire_prior_to : Z) (cid reset_token : bytes)
  : ConnCids * tls_result () :=
  if cid_is_empty (cc_peer self) then (self, Err Error.IllegalParameter)
  else if seq <? retire_prior_to then (self, Err Error.IllegalParameter)
  else
    match cid_from_slice cid with
    | None => (self, Err Error.IllegalParameter)
    | Some c =>
        let entry := mkCidEntry c seq (Some reset_token) in
        match cc_remote self with
        | None => (self, Ok ())
        | Some pool =>
            let active_before := cp_active_seq pool in
            match note_retire_prior_to pool retire_prior_to with
            | (pool, Err e) => (set_remote (Some pool) self, Err e)
            | (pool, Ok _) =>
                match cid_add pool entry with
                | (pool, Err e) => (set_remote (Some pool) self, Err e)
                | (pool, Ok _) =>
                    let self := set_remote (Some pool) self in
                    if negb (cp_active_seq pool =? active_before) then
                      match cid_active pool with
                      | Some e => (set_peer (ce_cid e) self, Ok ())
                      | None => (self, Ok ())
                      end
                    else (self, Ok ())
                end
            end
        end
    end.

(** The arm of [Frame::RetireConnectionId]. *)
Definition on_retire_connection_id (self : ConnCids) (seq : Z) : ConnCids * tls_result () :=
  match cc_local self with
  | None => (self, Ok ())
  | Some pool =>
      if negb (is_nil (cc_rx_dcid self))
         && match bt_get (cp_entries pool) seq with
            | Some e => bool_decide (cid_as_slice (ce_cid e) = cc_rx_dcid self)
            | None => false
            end
      then (self, Err Error.IllegalParameter)
      else
        match cid_retire pool seq with
        | (pool, Err e) => (set_local (Some pool) self, Err e)
        | (pool, Ok (Some _)) => (set_issued false (set_local (Some pool) self), Ok ())
        | (pool, Ok None) => (set_local (Some pool) self, Ok ())
        end
  end.

(** The entry of least sequence whose id is not the one in use. *)
Definition spare (pool : CidPool) (current : ConnectionId) : option (Z * CidEntry) :=
  head (filter (λ e, ce_cid e.2 ≠ current) (cp_entries pool)).

(** The first entry with a given id. *)
Definition entry_of (pool : CidPool) (cid : ConnectionId) : option (Z * CidEntry) :=
  head (filter (λ e, ce_cid e.2 = cid) (cp_entries pool)).

(** [begin_migration], as far as connection ids go. *)
Definition begin_migration (self : ConnCids) : ConnCids := set_migration (Some (cc_peer self)) self.

Definition rotate_cid_for_new_path (self : ConnCids) : ConnCids :=
  match cc_remote self with
  | None => self
  | Some pool =>
      match spare pool (cc_peer self) with
      | None => self
      | Some (seq, e) => set_remote (Some (set_active seq pool)) (set_peer (ce_cid e) self)
      end
  end.

Definition on_migration_validated (self : ConnCids) : ConnCids :=
  match cc_migration self with
  | None => self
  | Some prev_cid =>
      let self := set_migration None self in
      if bool_decide (prev_cid = cc_peer self) then self
      else
        match cc_remote self with
        | None => self
        | Some pool =>
            match entry_of pool prev_cid with
            | None => self
            | Some (seq, _) =>
                let pool := set_entries (bt_remove (cp_entries pool) seq) pool in
                let pool := if bool_decide (seq ∈ cp_pending_retire pool) then pool
                            else set_pending (cp_pending_retire pool ++ [seq]) pool in
                set_remote (Some pool) self
            end
        end
  end.

Definition abandon_migration (self : ConnCids) : ConnCids :=
  match cc_migration self with
  | None => self
  | Some prev_cid =>
      let self := set_migration None self in
      match cc_remote self with
      | None => set_peer prev_cid self
      | Some pool =>
          match entry_of pool prev_cid with
          | Some (seq, _) => set_peer prev_cid (set_remote (Some (set_active seq pool)) self)
          | None => set_peer (default prev_cid (ce_cid <$> cid_active pool)) self
          end
      end
  end.

(** [switch_connection_id]: [ready] is the check on the connection's state. *)
Definition switch_connection_id (self : ConnCids) (ready : bool) : ConnCids * tls_result () :=
  if negb ready then (self, Err Error.InappropriateState)
  else if bool_decide (cc_migration self ≠ None) then (self, Err Error.InappropriateState)
  else
    match cc_remote self with
    | None => (self, Err Error.InappropriateState)
    | Some pool =>
        let current := cc_peer self in
        match spare pool current with
        | None => (self, Err Error.InappropriateState)
        | Some (next_seq, next) =>
            let old_seq := fst <$> entry_of pool current in
            let self := set_peer (ce_cid next) self in
            let pool := set_active next_seq pool in
            let pool :=
              match old_seq with
              | None => pool
              | Some seq =>
                  let pool := set_entries (bt_remove (cp_entries pool) seq) pool in
                  if negb (bool_decide (seq ∈ cp_pending_retire pool))
                     && (zlen (cp_pending_retire pool) <? pending_retire_cap pool)
                  then set_pending (cp_pending_retire pool ++ [seq]) pool
                  else pool
              end in
            (set_remote (Some pool) self, Ok ())
        end
    end.

(** [migrate_to_preferred_address] after its checks: install the id of the parameter
    (sequence 1) and move to it. *)
Definition use_preferred_cid (self : ConnCids) (connection_id stateless_reset_token : bytes)
  : ConnCids * tls_result () :=
  match cid_from_slice connection_id with
  | None => (self, Err Error.IllegalParameter)
  | Some cid =>
      match cc_remote self with
      | None => (set_peer cid (begin_migration self), Ok ())
      | Some pool =>
          let '(pool, r) :=
            match bt_get (cp_entries pool) 1 with
            | Some e => if bool_decide (ce_cid e = cid) then (pool, Ok ()) else (pool, Err Error.IllegalParameter)
            | None => cid_add pool (mkCidEntry cid 1 (Some stateless_reset_token))
            end in
          match r with
          | Err _ => (set_remote (Some pool) self, Err Error.IllegalParameter)
          | Ok _ =>
              let self := set_remote (Some (set_active 1 pool)) self in
              (set_peer cid (begin_migration self), Ok ())
          end
      end
  end.

Definition CID_LEN : Z := 8.
Definition NEW_CID_FRAME_MAX : Z := 1 + 8 + 8 + 1 + CID_LEN + 16.

Section issue.
(** The random id drawn for a sequence number, and its reset token. *)
Variable fresh : Z → ConnectionId.
Variable token_of : ConnectionId → bytes.

(** The frame of one issued id. *)
Definition issued_frame (seq : Z) : Frame.frame :=
  Frame.NewConnectionId seq 0 (cid_as_slice (fresh seq)) (token_of (fresh seq)).

(** [for (next_seq, _) in (start_seq..).zip(0..to_issue)]; [None] is the panic of an
    encoder that fails. *)
Fixpoint issue_loop (pool : CidPool) (next_seq : Z) (to_issue : nat) (out : bytes) (payload_cap : Z)
  : option (CidPool * bytes * bool) :=
  match to_issue with
  | O => Some (pool, out, true)
  | S n =>
      if (payload_cap <? zlen out + NEW_CID_FRAME_MAX) || (1000 <? zlen out) then Some (pool, out, false)
      else
        match cid_add pool (mkCidEntry (fresh next_seq) next_seq (Some (token_of (fresh next_seq)))) with
        | (pool, Err _) => Some (pool, out, true)
        | (pool, Ok _) =>
            out ← frame_encode (issued_frame next_seq) out;
            issue_loop pool (next_seq + 1) n out payload_cap
        end
  end.

Definition issue_new_local_cids (self : ConnCids) (peer_limit : option Z) (out : bytes) (payload_cap : Z)
  : option (ConnCids * bytes * bool) :=
  let limit := Z.min 8 (Z.max 2 (default 2 peer_limit)) in
  match cc_local self with
  | None => Some (self, out, true)
  | Some pool =>
      let pool := set_limit limit pool in
      let to_issue := how_many_to_issue pool in
      if to_issue =? 0 then Some (set_local (Some pool) self, out, true)
      else
        '(pool, out, done) ← issue_loop pool (wadd 64 (cp_issued_high pool) 1) (Z.to_nat to_issue) out payload_cap;
        Some (set_local (Some pool) self, out, done)
  end.
End issue.

(** * The pool: invariant *)

Record pool_inv (p : CidPool) : Prop := {
  pi_sorted : bt_sorted (cp_entries p);
  pi_keys : ∀ x, x ∈ cp_entries p → ce_sequence x.2 = x.1 ∧ 0 ≤ x.1 ≤ cp_issued_high p;
  pi_limit : 2 ≤ cp_limit p;
  pi_live : live p ≤ cp_limit p;
  pi_active : ∃ e, (cp_active_seq p, e) ∈ cp_entries p;
  pi_shape : (∀ x, x ∈ cp_entries p → cp_retire_prior_to p ≤ x.1)
             ∨ cp_active_seq p < cp_retire_prior_to p ∧ ∀ x, x ∈ cp_entries p → x.1 = cp_active_seq p }.

(** A queue that [queue_pending_retire] can leave behind. *)
Definition queued (p : CidPool) (l : list Z) : Prop :=
  l = cp_pending_retire p ∨ zlen l ≤ pending_retire_cap p.

Lemma queue_spec p s p' r : queue_pending_retire p s = (p', r) →
  ∃ l, p' = set_pending l p ∧ queued p l ∧ (r = Ok () → s ∈ l).
Proof.
  unfold queue_pending_retire. case_bool_decide as Hin.
  { intros [= <- <-]. exists (cp_pending_retire p). split; [by destruct p|]. split; [by left|done]. }
  destruct (Z.leb_spec (pending_retire_cap p) (zlen (cp_pending_retire p))).
  { intros [= <- <-]. exists (cp_pending_retire p). split; [by destruct p|]. split; [by left|done]. }
  intros [= <- <-]. eexists. split; [done|]. split; [|set_solver]. right. rewrite zlen_app. unfold zlen at 2. simpl. lia.
Qed.

Lemma pool_inv_pending l p : pool_inv p → pool_inv (set_pending l p).
Proof. intros [? ? ? ? ? ?]. by split. Qed.

(** Dropping a list of entries, possibly cut short by the cap. *)
Lemma drop_entries_spec ds : ∀ p p' r, drop_entries p ds = (p', r) →
  ∃ l es, p' = set_pending l (set_entries es p) ∧ queued p l
    ∧ zlen es ≤ zlen (cp_entries p) ∧ (r = Ok () → es = filter (λ x, x.1 ∉ ds) (cp_entries p)).
Proof.
  induction ds as [|d ds IH]; intros p p' r; simpl.
  { intros [= <- <-]. exists (cp_pending_retire p), (cp_entries p). split; [by destruct p|]. split; [by left|].
    split; [done|]. intros _. symmetry. apply filter_all, Forall_forall. set_solver. }
  destruct (queue_pending_retire _ d) as [q [|e]] eqn:Hq; apply queue_spec in Hq as (l & -> & Hl & _).
  - intros (l' & es & -> & Hl' & Hz & He)%IH. exists l', es. split; [by destruct p|].
    pose proof (zlen_filter_le (λ e, e.1 ≠ d) (cp_entries p)) as Hle. unfold bt_remove in *. simpl in *.
    split; [|split; [lia|]].
    + destruct Hl' as [-> |?]; [exact Hl|by right].
    + intros Hr. rewrite (He Hr), list_filter_filter. apply list_filter_iff. intros x. set_solver.
  - intros [= <- <-]. exists l, (bt_remove (cp_entries p) d). split; [by destruct p|]. split; [exact Hl|].
    split; [apply zlen_filter_le|done].
Qed.

Lemma same_key_single {V} (m : list (Z * V)) k : bt_sorted m → (∀ x, x ∈ m → x.1 = k) → zlen m ≤ 1.
Proof.
  intros Hs Hk. destruct m as [|x [|y m]]; [done..|]. apply bt_sorted_cons in Hs as [Hlt _].
  apply Forall_cons in Hlt as [Hxy _]. unfold key_lt in Hxy. rewrite (Hk x), (Hk y) in Hxy by set_solver. lia.
Qed.

Lemma entries_le_limit p : pool_inv p → zlen (cp_entries p) ≤ cp_limit p.
Proof.
  intros [Hs _ Hl Hlive [e He] [Hsh|[_ Hsh]]].
  - unfold live in Hlive. by rewrite filter_all in Hlive by (by apply Forall_forall).
  - pose proof (same_key_single _ _ Hs Hsh). lia.
Qed.

Lemma live_set_entries p es : live (set_entries es p) = zlen (filter (λ x, cp_retire_prior_to p ≤ x.1) es).
Proof. done. Qed.

Lemma active_get p e : pool_inv p → (cp_active_seq p, e) ∈ cp_entries p ↔ cid_active p = Some e.
Proof. intros [Hs _ _ _ _ _]. symmetry. by apply bt_get_Some. Qed.

(** What a pool operation may do to the entry in use: nothing, or move to a later one. *)
Definition active_kept (p p' : CidPool) : Prop :=
  cp_active_seq p < cp_active_seq p' ∨ cp_active_seq p' = cp_active_seq p ∧ cid_active p' = cid_active p.

Lemma active_kept_trans p q r : active_kept p q → active_kept q r → active_kept p r.
Proof. unfold active_kept. intros [?|[? ?]] [?|[? ?]]; (left; lia) || (right; split; congruence). Qed.

Lemma zlen_filter_mono {A} (P Q : A → Prop) `{∀ x, Decision (P x)} `{∀ x, Decision (Q x)} (l : list A) :
  (∀ x, P x → Q x) → zlen (filter P l) ≤ zlen (filter Q l).
Proof. intros HPQ. rewrite <- (list_filter_filter_l P Q) by done. apply zlen_filter_le. Qed.

Lemma note_spec p new p' : pool_inv p → note_retire_prior_to p new = (p', Ok ()) →
  pool_inv p' ∧ active_kept p p' ∧ cp_limit p' = cp_limit p
  ∧ cp_retire_prior_to p' = cp_retire_prior_to p `max` new.
Proof.
  intros Hi. unfold note_retire_prior_to. destruct (Z.leb_spec new (cp_retire_prior_to p)) as [|Hn].
  { intros [= <-]. split; [done|]. split; [by right|]. split; [done|lia]. }
  destruct Hi as [Hs Hk Hl Hlive [e He] Hsh]. simpl.
  set (keep := if cp_active_seq p <? new then match first_from (cp_entries p) new with
                 Some _ => None | None => Some (cp_active_seq p) end else None).
  set (act := if cp_active_seq p <? new then match first_from (cp_entries p) new with
                 Some x => x.1 | None => cp_active_seq p end else cp_active_seq p).
  intros Hd.
  assert (∃ l, p' = set_pending l (set_entries (filter (λ x, new ≤ x.1 ∨ Some x.1 = keep) (cp_entries p))
                      (set_active act (set_retire_prior_to new p)))) as [l ->].
  { assert (drop_entries (set_active act (set_retire_prior_to new p))
      (filter (λ s, s < new ∧ Some s ≠ keep) (cp_entries p).*1) = (p', Ok ())) as Hd'.
    { unfold keep, act. destruct (cp_active_seq p <? new); [|destruct p; exact Hd].
      destruct (first_from (cp_entries p) new) as [[k x]|]; simpl in Hd |- *; [exact Hd|destruct p; exact Hd]. }
    clear Hd. apply drop_entries_spec in Hd' as (l & es & -> & _ & _ & He'). exists l. f_equal. rewrite (He' eq_refl).
    f_equal. simpl. apply filter_ext_in. intros x Hx. rewrite list_elem_of_filter, list_elem_of_fmap.
    destruct (decide (Some x.1 = keep)); [naive_solver|]. split; [|naive_solver lia].
    intros Hc. left. apply Z.nlt_ge. intros Hlt. apply Hc. naive_solver. }
  assert ((keep = None ∧ new ≤ act ∧ (∃ e', (act, e') ∈ cp_entries p) ∧ (act = cp_active_seq p ∨ cp_active_seq p < new))
    ∨ (keep = Some act ∧ act = cp_active_seq p ∧ act < new ∧ ∀ x, x ∈ cp_entries p → x.1 < new)) as Hcase.
  { unfold keep, act, first_from. destruct (Z.ltb_spec (cp_active_seq p) new); [|left; eauto with lia].
    destruct (head _) as [[k x]|] eqn:Ef; [left|right].
    - apply head_filter_elem in Ef as [? ?]. simpl in *. eauto with lia.
    - split; [done|]. split; [done|]. split; [done|]. intros x Hx.
      apply Z.nle_gt. exact (head_filter_none _ _ x Ef Hx). }
  clearbody keep act. clear Hd. set (es := filter _ (cp_entries p)).
  assert (∀ x, x ∈ es ↔ x ∈ cp_entries p ∧ (new ≤ x.1 ∨ Some x.1 = keep)) as Hes
    by (intros x; unfold es; rewrite list_elem_of_filter; tauto).
  assert (bt_sorted es) as Hss by (by apply filter_sorted). split; [|split; [|split; [done|]]]; [| |change (new = Z.max (cp_retire_prior_to p) new); lia].
  - split; simpl; [done| |done| | |].
    + intros x [? _]%Hes. by apply Hk.
    + etrans; [|exact Hlive]. unfold live. simpl. unfold es. rewrite list_filter_filter.
      apply zlen_filter_mono. intros x [? _]. lia.
    + destruct Hcase as [(-> & ? & [e' ?] & _)|(-> & -> & _)]; [exists e'|exists e]; apply Hes; simpl; auto.
    + destruct Hcase as [(-> & ? & _)|(-> & -> & ? & Hlt)]; [left|right].
      * intros x [_ [|[=]]]%Hes. lia.
      * split; [done|]. intros x [Hx [?|[=]]]%Hes; [|done]. specialize (Hlt _ Hx). lia.
  - unfold active_kept, cid_active. simpl.
    assert (cp_active_seq p < act ∨ act = cp_active_seq p) as [?|Hact] by (destruct Hcase as [?|?]; lia); [by left|].
    right. split; [done|]. rewrite Hact. assert ((cp_active_seq p, e) ∈ es) as Hin.
    { apply Hes. split; [done|]. simpl. destruct Hcase as [(-> & ? & _ & _)|(-> & -> & _)]; [left; lia|by right]. }
    apply (bt_get_Some _ _ _ Hss) in Hin as ->. symmetry. by apply bt_get_Some.
Qed.

Lemma bt_insert_perm {V} (m : list (Z * V)) k v : bt_get m k = None → bt_insert m k v ≡ₚ (k, v) :: m.
Proof.
  induction m as [|[k' v'] m IH]; simpl; [done|]. destruct (Z.eqb_spec k k'); [done|]. intros Hg.
  destruct (k <? k'); [done|]. rewrite IH by done. apply perm_swap.
Qed.

(** A pool into which a live entry was just inserted. *)
Lemma insert_live p e : bt_get (cp_entries p) (ce_sequence e) = None → cp_retire_prior_to p ≤ ce_sequence e →
  live (set_entries (bt_insert (cp_entries p) (ce_sequence e) e) p) = live p + 1.
Proof.
  intros Hg Hr. unfold live. simpl. unfold zlen. rewrite (bt_insert_perm _ _ _ Hg), filter_cons_True by done.
  simpl. lia.
Qed.

Lemma add_spec p e p' : pool_inv p → 0 ≤ ce_sequence e → cid_add p e = (p', Ok ()) →
  pool_inv p' ∧ active_kept p p' ∧ cp_limit p' = cp_limit p ∧ cp_retire_prior_to p' = cp_retire_prior_to p
  ∧ (cp_retire_prior_to p ≤ ce_sequence e → (ce_sequence e, e) ∈ cp_entries p').
Proof.
  intros Hi H0. unfold cid_add. destruct (bt_get _ _) as [x|] eqn:Hg.
  { case_bool_decide as Hne; [done|]. intros [= <-]. subst x.
    apply bt_get_Some in Hg; [|apply Hi]. split_and!; try done. by right. }
  destruct (Z.ltb_spec (ce_sequence e) (cp_retire_prior_to p)) as [|Hr].
  { intros (l & -> & _)%queue_spec. split; [by apply pool_inv_pending|]. split; [by right|].
    split; [done|]. split; [done|]. lia. }
  destruct (Z.leb_spec (cp_limit p) (live p)) as [|Hlv]; [done|]. cbv zeta.
  set (q := set_issued_high (cp_issued_high p `max` ce_sequence e) p).
  set (q' := set_entries (bt_insert (cp_entries q) (ce_sequence e) e) q).
  pose proof (insert_live q e Hg Hr) as Hlive. fold q' in Hlive. change (live q) with (live p) in Hlive.
  destruct Hi as [Hs Hk Hl _ [a Ha] Hsh].
  assert (∀ x, x ∈ cp_entries q' ↔ x = (ce_sequence e, e) ∨ x ∈ cp_entries p) as Hel.
  { intros x. unfold q', q. simpl. rewrite (bt_insert_perm _ _ _ Hg), elem_of_cons. done. }
  assert (bt_sorted (cp_entries q')) as Hss by (by apply bt_insert_sorted).
  assert (∀ x, x ∈ cp_entries q' → ce_sequence x.2 = x.1 ∧ 0 ≤ x.1 ≤ cp_issued_high q') as Hkk.
  { intros x [-> |Hx]%Hel; simpl; [lia|]. destruct (Hk x Hx). lia. }
  assert (bt_get (cp_entries q') (cp_active_seq p) = Some a) as Hga by (apply bt_get_Some; [done|]; apply Hel; by right).
  unfold retire_retained_active. change (cp_active_seq q') with (cp_active_seq p).
  change (cp_retire_prior_to q') with (cp_retire_prior_to p). rewrite Hga.
  destruct (Z.leb_spec (cp_retire_prior_to p) (cp_active_seq p)) as [Hact|Hact].
  - cbn [orb]. intros [= <-]. destruct Hsh as [Hsh|[? _]]; [|lia]. split_and!; try done.
    + split; try done; simpl; [|exists a; apply Hel; by right|left]; [unfold q', q in *; simpl in *; lia|].
      intros x [-> |Hx]%Hel; [done|by apply Hsh].
    + right. split; [done|]. unfold cid_active. change (cp_active_seq q') with (cp_active_seq p). rewrite Hga. symmetry.
      by apply bt_get_Some.
    + intros _. apply Hel. by left.
  - rewrite bool_decide_eq_false_2 by done. cbn [orb]. destruct Hsh as [Hsh|[_ Hsh]].
    { specialize (Hsh _ Ha). simpl in Hsh. lia. }
    destruct (first_from _ _) as [[k r]|] eqn:Hf; unfold first_from in Hf.
    2: { exfalso. apply (head_filter_none _ _ (ce_sequence e, e) Hf); [apply Hel; by left|done]. }
    apply head_filter_elem in Hf as [Hk1 Hk2]. simpl in Hk2.
    apply Hel in Hk1 as [[= -> ->]|Hk1]; [|specialize (Hsh _ Hk1); simpl in Hsh; lia].
    intros (l & -> & _)%queue_spec.
    set (es := bt_remove (cp_entries q') (cp_active_seq p)).
    assert (∀ x, x ∈ es ↔ x = (ce_sequence e, e)) as Hes.
    { intros x. unfold es. rewrite bt_remove_elem, Hel. split; [intros [[?|Hx] Hne]; [done|by destruct (Hne (Hsh _ Hx))]|].
      intros ->. simpl. split; [by left|lia]. }
    split_and!; try done.
    + apply pool_inv_pending. split; simpl; fold es.
      * by apply bt_remove_sorted.
      * intros x Hx. apply Hkk. apply Hel. left. by apply Hes.
      * done.
      * assert (live q' ≤ cp_limit p) as Hle by lia. etrans; [|exact Hle]. unfold live. simpl. unfold es, bt_remove.
        rewrite list_filter_filter. apply zlen_filter_mono. by intros x [? _].
      * exists e. by apply Hes.
      * left. intros x ->%Hes. done.
    + left. simpl. lia.
    + intros _. simpl. fold es. by apply Hes.
Qed.

(** * The connection: the id in use is an entry of the pool *)

Definition remote_inv (c : ConnCids) : Prop :=
  ∀ pool, cc_remote c = Some pool →
    pool_inv pool ∧ ∃ e, cid_active pool = Some e ∧ ce_cid e = cc_peer c.

Lemma on_new_connection_id_inv c seq rpt cid tok c' : remote_inv c → 0 ≤ seq →
  on_new_connection_id c seq rpt cid tok = (c', Ok ()) → remote_inv c'.
Proof.
  intros Hi H0. unfold on_new_connection_id. destruct (cid_is_empty (cc_peer c)); [done|].
  destruct (seq <? rpt); [done|]. destruct (cid_from_slice cid) as [id|]; [|done]. cbv zeta.
  destruct (cc_remote c) as [pool|] eqn:Hr; [|intros [= <-]; exact Hi].
  destruct (Hi _ Hr) as (Hp & e & He & Hpe).
  destruct (note_retire_prior_to pool rpt) as [q [[]|]] eqn:Hn; [|done].
  destruct (note_spec _ _ _ Hp Hn) as (Hq & Hk & _).
  destruct (cid_add q _) as [q' [[]|]] eqn:Ha; [|done].
  destruct (add_spec q (mkCidEntry id seq (Some tok)) _ Hq H0 Ha) as (Hq' & Hk' & _).
  pose proof (active_kept_trans _ _ _ Hk Hk') as Hkk.
  destruct (pi_active q' Hq') as [e' He']. apply (active_get q' e' Hq') in He'.
  destruct (Z.eqb_spec (cp_active_seq q') (cp_active_seq pool)) as [Heq|Hne]; cbn [negb].
  - intros [= <-] pool' [= <-]. split; [done|]. exists e'. split; [done|]. simpl. rewrite <- Hpe.
    destruct Hkk as [?|[_ E]]; [lia|]. congruence.
  - rewrite He'. intros [= <-] pool' [= <-]. split; [done|]. by exists e'.
Qed.

Lemma set_active_inv p s e : pool_inv p → (s, e) ∈ cp_entries p →
  pool_inv (set_active s p) ∧ cid_active (set_active s p) = Some e.
Proof.
  intros [Hs Hk Hl Hlv Ha Hsh] He. split; [|by apply bt_get_Some]. split; try done; [by exists e|].
  destruct Hsh as [?|[? Hsh]]; [by left|right]. pose proof (Hsh _ He) as E. simpl in E. subst s. done.
Qed.

Lemma remove_inv p k : pool_inv p → k ≠ cp_active_seq p →
  pool_inv (set_entries (bt_remove (cp_entries p) k) p)
  ∧ cid_active (set_entries (bt_remove (cp_entries p) k) p) = cid_active p.
Proof.
  intros [Hs Hk Hl Hlv [e He] Hsh] Hne. pose proof (bt_remove_sorted _ k Hs) as Hrs.
  assert ((cp_active_seq p, e) ∈ bt_remove (cp_entries p) k) as Hin by (apply bt_remove_elem; simpl; auto).
  split.
  - split; simpl; try done.
    + intros x [? _]%bt_remove_elem. by apply Hk.
    + etrans; [|exact Hlv]. unfold live. simpl. unfold bt_remove. rewrite list_filter_filter.
      apply zlen_filter_mono. by intros x [? _].
    + by exists e.
    + destruct Hsh as [Hsh|[? Hsh]]; [left|right; split; [done|]]; intros x [? _]%bt_remove_elem; by apply Hsh.
  - unfold cid_active. simpl. apply (bt_get_Some _ _ _ Hrs) in Hin as ->. symmetry. by apply bt_get_Some.
Qed.

Lemma spare_elem p cur k e : spare p cur = Some (k, e) → (k, e) ∈ cp_entries p ∧ ce_cid e ≠ cur.
Proof. intros H. exact (head_filter_elem _ _ _ H). Qed.

Lemma entry_of_elem p cid k e : entry_of p cid = Some (k, e) → (k, e) ∈ cp_entries p ∧ ce_cid e = cid.
Proof. intros H. exact (head_filter_elem _ _ _ H). Qed.

(** An entry with another id than the one in use is not the active one. *)
Lemma other_cid_other_seq p k e a : pool_inv p → (k, e) ∈ cp_entries p → cid_active p = Some a →
  ce_cid e ≠ ce_cid a → k ≠ cp_active_seq p.
Proof.
  intros Hi He Ha Hne ->. apply (active_get p e Hi) in He. congruence.
Qed.

Lemma begin_migration_inv c : remote_inv c → remote_inv (begin_migration c).
Proof. done. Qed.

Lemma rotate_inv c : remote_inv c → remote_inv (rotate_cid_for_new_path c).
Proof.
  intros Hi. unfold rotate_cid_for_new_path. destruct (cc_remote c) as [p|] eqn:Hr; [|done].
  destruct (Hi _ Hr) as (Hp & _). destruct (spare p (cc_peer c)) as [[k e]|] eqn:Hs; [|done].
  apply spare_elem in Hs as [He _]. intros q [= <-]. destruct (set_active_inv p k e Hp He). eauto.
Qed.

Lemma on_migration_validated_inv c : remote_inv c → remote_inv (on_migration_validated c).
Proof.
  intros Hi. unfold on_migration_validated. destruct (cc_migration c) as [prev|]; [|done]. cbv zeta.
  case_bool_decide as Hne; [exact Hi|]. simpl in Hne. simpl. destruct (cc_remote c) as [p|] eqn:Hr; [|done].
  destruct (Hi _ Hr) as (Hp & a & Ha & Hpa). destruct (entry_of p prev) as [[k e]|] eqn:Hs; [|intros q; apply Hi].
  apply entry_of_elem in Hs as [He Hec].
  destruct (remove_inv p k Hp) as [Hp' Ha']; [eapply other_cid_other_seq; [done..|congruence]|].
  intros q [= <-]. rewrite Ha in Ha'. case_bool_decide; (split; [try apply pool_inv_pending; done|eauto]).
Qed.

Lemma abandon_migration_inv c : remote_inv c → remote_inv (abandon_migration c).
Proof.
  intros Hi. unfold abandon_migration. destruct (cc_migration c) as [prev|]; [|done]. cbv zeta. simpl.
  destruct (cc_remote c) as [p|] eqn:Hr; [|intros q; simpl; congruence].
  destruct (Hi _ Hr) as (Hp & a & Ha & Hpa). destruct (entry_of p prev) as [[k e]|] eqn:Hs.
  - apply entry_of_elem in Hs as [He Hec]. intros q [= <-]. destruct (set_active_inv p k e Hp He). eauto.
  - rewrite Ha. intros q. simpl. rewrite Hr. intros [= <-]. eauto.
Qed.

Lemma switch_inv c ready c' : remote_inv c → switch_connection_id c ready = (c', Ok ()) → remote_inv c'.
Proof.
  intros Hi. unfold switch_connection_id. destruct ready; [|done]. cbn [negb]. case_bool_decide; [done|].
  destruct (cc_remote c) as [p|] eqn:Hr; [|done]. cbv zeta. destruct (Hi _ Hr) as (Hp & a & Ha & Hpa).
  destruct (spare p (cc_peer c)) as [[k e]|] eqn:Hs; [|done]. apply spare_elem in Hs as [He Hec].
  destruct (set_active_inv p k e Hp He) as [Hq Hqa]. intros [= <-] q. simpl. intros [= <-].
  destruct (entry_of p (cc_peer c)) as [[o x]|] eqn:Ho; simpl; [|eauto].
  apply entry_of_elem in Ho as [Hx Hxc].
  destruct (remove_inv (set_active k p) o Hq) as [Hq' Ha'].
  { eapply other_cid_other_seq; [exact Hq|exact Hx|exact Hqa|congruence]. }
  rewrite Hqa in Ha'. destruct (_ && _); (split; [try apply pool_inv_pending; done|eauto]).
Qed.

Lemma use_preferred_inv c cid tok c' p : remote_inv c → cc_remote c = Some p →
  cp_retire_prior_to p ≤ 1 ∨ (∃ e, (1, e) ∈ cp_entries p) →
  use_preferred_cid c cid tok = (c', Ok ()) → remote_inv c'.
Proof.
  intros Hi Hr Hok. unfold use_preferred_cid. destruct (cid_from_slice cid) as [id|]; [|done]. rewrite Hr.
  destruct (Hi _ Hr) as (Hp & _). destruct (bt_get (cp_entries p) 1) as [e|] eqn:H1.
  - case_bool_decide as He; [|done]. apply bt_get_Some in H1; [|apply Hp].
    destruct (set_active_inv p 1 e Hp H1). intros [= <-] q [= <-]. eauto.
  - destruct Hok as [Hle|[e He]]; [|by destruct (bt_get_None _ _ H1 e)].
    destruct (cid_add p _) as [q [[]|]] eqn:Ha; [|done].
    destruct (add_spec p (mkCidEntry id 1 (Some tok)) q Hp ltac:(simpl; lia) Ha) as (Hq & _ & _ & _ & Hin).
    specialize (Hin Hle). destruct (set_active_inv q 1 _ Hq Hin). intros [= <-] r [= <-]. eauto.
Qed.

(** ** Bounds, also when a frame is rejected *)

(** What a peer can make the pool hold. *)
Definition pool_bounded (p : CidPool) : Prop :=
  zlen (cp_entries p) ≤ cp_limit p ∧ zlen (cp_pending_retire p) ≤ pending_retire_cap p.

Lemma queued_bounded p l : queued p l → zlen (cp_pending_retire p) ≤ pending_retire_cap p →
  zlen l ≤ pending_retire_cap p.
Proof. by intros [-> |?]. Qed.

Lemma note_bounded p new p' r : pool_bounded p → note_retire_prior_to p new = (p', r) →
  pool_bounded p' ∧ cp_limit p' = cp_limit p.
Proof.
  intros [Hb1 Hb2]. unfold note_retire_prior_to. destruct (new <=? _); [intros [= <- _]; by repeat split|].
  destruct (if _ <? _ then _ else _) as [q keep] eqn:Hq.
  assert (∃ a, q = set_active a (set_retire_prior_to new p)) as [a ->].
  { simpl in Hq. destruct (cp_active_seq p <? new); [|injection Hq as <- _; by exists (cp_active_seq p); destruct p].
    destruct (fst <$> _); injection Hq as <- _; [by eexists|by exists (cp_active_seq p); destruct p]. }
  intros (l & es & -> & Hl & Hz & _)%drop_entries_spec. split; [|done]. split; simpl in *; [lia|].
  exact (queued_bounded _ _ Hl Hb2).
Qed.

Lemma add_bounded p e p' r : pool_inv p → pool_bounded p → cid_add p e = (p', r) →
  pool_bounded p' ∧ cp_limit p' = cp_limit p.
Proof.
  intros Hi [Hb1 Hb2]. unfold cid_add. destruct (bt_get _ _) as [x|] eqn:Hg.
  { case_bool_decide; intros [= <- _]; by repeat split. }
  destruct (Z.ltb_spec (ce_sequence e) (cp_retire_prior_to p)) as [|Hr].
  { intros (l & -> & Hl & _)%queue_spec. split; [|done]. split; [done|exact (queued_bounded _ _ Hl Hb2)]. }
  destruct (Z.leb_spec (cp_limit p) (live p)) as [|Hlv]; [intros [= <- _]; by repeat split|]. cbv zeta.
  set (q := set_issued_high (cp_issued_high p `max` ce_sequence e) p).
  set (es := bt_insert (cp_entries q) (ce_sequence e) e).
  assert (zlen es = zlen (cp_entries p) + 1) as Hz.
  { unfold es, q, zlen. simpl. rewrite (bt_insert_perm _ _ _ Hg). simpl. lia. }
  unfold retire_retained_active. simpl.
  assert (zlen (cp_entries p) < cp_limit p ∨ zlen es ≤ cp_limit p) as Hcase.
  { destruct Hi as [Hs _ Hl _ [a Ha] [Hsh|[_ Hsh]]].
    - unfold live in Hlv. rewrite filter_all in Hlv by (by apply Forall_forall). by left.
    - right. pose proof (same_key_single _ _ Hs Hsh). lia. }
  assert (zlen es ≤ cp_limit p) as Hle by (destruct Hcase; lia).
  assert (pool_bounded (set_entries es q)) as Hbe by (by split).
  destruct (_ || _); [intros [= <- _]; done|].
  destruct (first_from _ _) as [[k x]|]; [|intros [= <- _]; done].
  intros (l & -> & Hl & _)%queue_spec. split; [|done]. split; simpl.
  - etrans; [apply zlen_filter_le|exact Hle].
  - exact (queued_bounded _ _ Hl Hb2).
Qed.

(** * Properties *)

(** Delivering NEW_CONNECTION_ID frames until one is rejected, which closes the
    connection. *)
Fixpoint deliver (c : ConnCids) (fs : list (Z * Z * bytes * bytes)) : ConnCids * tls_result () :=
  match fs with
  | [] => (c, Ok ())
  | (seq, rpt, cid, tok) :: fs =>
      match on_new_connection_id c seq rpt cid tok with
      | (c, Ok _) => deliver c fs
      | (c, Err e) => (c, Err e)
      end
  end.

Lemma deliver_one_bounded c seq rpt cid tok c' r p : remote_inv c → cc_remote c = Some p → pool_bounded p →
  on_new_connection_id c seq rpt cid tok = (c', r) →
  ∃ p', cc_remote c' = Some p' ∧ pool_bounded p' ∧ cp_limit p' = cp_limit p.
Proof.
  intros Hi Hr Hb. destruct (Hi _ Hr) as [Hp _]. unfold on_new_connection_id.
  destruct (cid_is_empty _); [intros [= <- _]; eauto|]. destruct (seq <? rpt); [intros [= <- _]; eauto|].
  destruct (cid_from_slice cid) as [id|]; [|intros [= <- _]; eauto]. cbv zeta. rewrite Hr.
  destruct (note_retire_prior_to p rpt) as [q r1] eqn:Hn. destruct (note_bounded _ _ _ _ Hb Hn) as [Hbq Hlq].
  destruct r1 as [[]|]; [|intros [= <- _]; simpl; eauto]. destruct (note_spec _ _ _ Hp Hn) as [Hpq _].
  destruct (cid_add q _) as [q' r2] eqn:Ha. destruct (add_bounded _ _ _ _ Hpq Hbq Ha) as [Hbq' Hlq'].
  assert (cp_limit q' = cp_limit p) as Hl by congruence.
  destruct r2 as [[]|]; [|intros [= <- _]; simpl; eauto].
  destruct (negb _); [|intros [= <- _]; simpl; eauto].
  destruct (cid_active q') as [e|]; intros [= <- _]; simpl; eauto.
Qed.

(** A flood of NEW_CONNECTION_ID frames is bounded.  Whatever frames a peer sends to a
    connection in a good state, in whatever order and with whatever sequence numbers,
    until one is rejected and also after that rejection, the pool holds at most
    [active_connection_id_limit] ids and owes at most that many plus 8
    RETIRE_CONNECTION_ID frames. *)
Theorem new_cid_flood_bounded c p fs c' r :
  remote_inv c → cc_remote c = Some p → zlen (cp_pending_retire p) ≤ pending_retire_cap p →
  Forall (λ f : Z * Z * bytes * bytes, 0 ≤ f.1.1.1) fs → deliver c fs = (c', r) →
  ∃ p', cc_remote c' = Some p' ∧ cp_limit p' = cp_limit p
    ∧ zlen (cp_entries p') ≤ cp_limit p ∧ zlen (cp_pending_retire p') ≤ pending_retire_cap p.
Proof.
  intros Hi Hr Hpe Hfs. assert (pool_bounded p) as Hb.
  { split; [|done]. apply entries_le_limit. by destruct (Hi _ Hr). }
  clear Hpe. revert c p Hi Hr Hb. induction Hfs as [|[[[seq rpt] cid] tok] fs H0 Hfs IH]; intros c p Hi Hr Hb; simpl.
  { intros [= <- _]. exists p. destruct Hb. by split_and!. }
  destruct (on_new_connection_id c seq rpt cid tok) as [c1 r1] eqn:H1.
  destruct (deliver_one_bounded _ _ _ _ _ _ _ _ Hi Hr Hb H1) as (p1 & Hr1 & Hb1 & Hl1).
  assert (pending_retire_cap p1 = pending_retire_cap p) as Hcap by (unfold pending_retire_cap; by rewrite Hl1).
  destruct r1 as [[]|e].
  - intros Hd. apply on_new_connection_id_inv in H1; [|done|exact H0].
    destruct (IH _ _ H1 Hr1 Hb1 Hd) as (p' & ? & ? & ? & ?). exists p'. rewrite <- Hcap, <- Hl1. by split_and!.
  - intros [= <- _]. exists p1. destruct Hb1. rewrite <- Hcap, <- Hl1. by split_and!.
Qed.

(** The state once the peer's first id is known: [CidPool::new] and
    [set_limit(our_active_cid_limit)]. *)
Definition conn_cids_new (peer local : ConnectionId) (our_limit : Z) : ConnCids :=
  mkConnCids peer (Some (set_limit our_limit (cid_pool_new peer None))) (Some (cid_pool_new local None)) None [] false.

Lemma pool_new_inv cid tok lim : pool_inv (set_limit lim (cid_pool_new cid tok)).
Proof.
  split; simpl.
  - repeat constructor.
  - intros x ->%list_elem_of_singleton. simpl. lia.
  - lia.
  - unfold live, zlen. simpl. lia.
  - eexists. by left.
  - left. intros x ->%list_elem_of_singleton. done.
Qed.

Lemma new_cid_flood_bounded_witness :
  ∃ p', cc_remote (deliver (conn_cids_new (mkConnectionId [] 8) cid_empty 3)
                     [(7, 7, [1], []); (8, 8, [2], []); (9, 0, [3], [])]).1 = Some p' ∧ zlen (cp_entries p') ≤ 3.
Proof.
  pose (c := conn_cids_new (mkConnectionId [] 8) cid_empty 3).
  destruct (new_cid_flood_bounded c (set_limit 3 (cid_pool_new (mkConnectionId [] 8) None))
    [(7, 7, [1], []); (8, 8, [2], []); (9, 0, [3], [])]
    (deliver c [(7, 7, [1], []); (8, 8, [2], []); (9, 0, [3], [])]).1
    (deliver c [(7, 7, [1], []); (8, 8, [2], []); (9, 0, [3], [])]).2) as (p' & Hp & _ & Hz & _).
  - intros p [= <-]. split; [apply pool_new_inv|]. by eexists.
  - reflexivity.
  - vm_compute. discriminate.
  - repeat constructor; simpl; lia.
  - apply surjective_pairing.
  - exists p'. split; [exact Hp|exact Hz].
Defined.

(** What moves the outbound id: frames of the peer, migrations and their outcome, the
    application, and sending the RETIRE_CONNECTION_ID frames owed. *)
Inductive cid_step : ConnCids → ConnCids → Prop :=
| st_new c seq rpt cid tok c' :
    0 ≤ seq → on_new_connection_id c seq rpt cid tok = (c', Ok ()) → cid_step c c'
| st_migrate c : cc_migration c = None → cid_step c (rotate_cid_for_new_path (begin_migration c))
| st_validated c : cid_step c (on_migration_validated c)
| st_abandon c : cid_step c (abandon_migration c)
| st_switch c ready c' : switch_connection_id c ready = (c', Ok ()) → cid_step c c'
| st_preferred c p cid tok c' :
    cc_migration c = None → cc_remote c = Some p →
    cp_retire_prior_to p ≤ 1 ∨ (∃ e, (1, e) ∈ cp_entries p) →
    use_preferred_cid c cid tok = (c', Ok ()) → cid_step c c'
| st_pop_retire c p : cc_remote c = Some p → cid_step c (set_remote (Some (pop_pending_retire p).1) c).

Lemma cid_step_inv c c' : cid_step c c' → remote_inv c → remote_inv c'.
Proof.
  destruct 1 as [? ? ? ? ? ? ? H|? ?|?|?|? ? ? H|? ? ? ? ? _ Hr Hok H|? p Hr]; intros Hi.
  - by eapply on_new_connection_id_inv.
  - by apply rotate_inv, begin_migration_inv.
  - by apply on_migration_validated_inv.
  - by apply abandon_migration_inv.
  - by eapply switch_inv.
  - by eapply use_preferred_inv.
  - intros q [= <-]. destruct (Hi _ Hr) as (Hp & e & He & Hc). unfold pop_pending_retire.
    destruct (cp_pending_retire p); simpl; [eauto|]. split; [by apply pool_inv_pending|eauto].
Qed.

(** The connection always addresses its peer by an id it still holds.  From the
    handshake on, whatever NEW_CONNECTION_ID frames are accepted, and however migrations
    start, succeed or are abandoned and the application switches ids, the id written on
    outbound packets is the one of the pool's active entry; the pool keeps its entries
    under their own sequence numbers, at most [active_connection_id_limit] of them, and
    either none is below [retire_prior_to] or the only one left is the active one,
    waiting for a replacement.  (Moving to a preferred address is assumed not to come
    after its id was retired: see [preferred_cid_after_retirement].) *)
Theorem outbound_cid_coherent peer local lim c p :
  rtc cid_step (conn_cids_new peer local lim) c → cc_remote c = Some p →
  (∃ e, bt_get (cp_entries p) (cp_active_seq p) = Some e ∧ ce_cid e = cc_peer c ∧ ce_sequence e = cp_active_seq p)
  ∧ zlen (cp_entries p) ≤ cp_limit p
  ∧ ((∀ x, x ∈ cp_entries p → cp_retire_prior_to p ≤ x.1)
     ∨ cp_active_seq p < cp_retire_prior_to p ∧ (cp_entries p).*1 = [cp_active_seq p]).
Proof.
  intros Hr Hc. assert (remote_inv c) as Hi.
  { assert (remote_inv (conn_cids_new peer local lim)) as H0
      by (intros q [= <-]; split; [apply pool_new_inv|by eexists]).
    clear Hc. induction Hr as [|? ? ? Hs _ IH]; [done|]. apply IH. by eapply cid_step_inv. }
  destruct (Hi _ Hc) as (Hp & e & He & Hpe). split; [|split; [by apply entries_le_limit|]].
  - exists e. split; [done|]. split; [done|]. apply active_get in He; [|done]. by destruct (pi_keys p Hp _ He).
  - destruct (pi_shape p Hp) as [?|[Hlt Hsh]]; [by left|right]. split; [done|].
    apply active_get in He; [|done]. pose proof (pi_sorted p Hp) as Hs.
    pose proof (same_key_single _ _ Hs Hsh) as H1. unfold zlen in H1.
    destruct (cp_entries p) as [|x [|y m]]; [by apply elem_of_nil in He| |simpl in H1; lia].
    simpl. by rewrite (Hsh x) by set_solver.
Qed.

(** A run: frames of the peer and switches of the application. *)
Inductive cid_event := NewCid (seq rpt : Z) (cid tok : bytes) | SwitchCid.

Definition run_event (c : ConnCids) (e : cid_event) : ConnCids * tls_result () :=
  match e with
  | NewCid seq rpt cid tok => on_new_connection_id c seq rpt cid tok
  | SwitchCid => switch_connection_id c true
  end.

Fixpoint run_events (c : ConnCids) (l : list cid_event) : ConnCids * tls_result () :=
  match l with
  | [] => (c, Ok ())
  | e :: l => match run_event c e with (c, Ok _) => run_events c l | r => r end
  end.

(** The [n]-th id of the peer in the examples. *)
Definition nth_cid (n : Z) : bytes := [n; n; n; n].
Definition nth_new (n : Z) : cid_event := NewCid n 0 (nth_cid n) [n].
Definition example_conn : ConnCids :=
  conn_cids_new (mkConnectionId (replicate 20 0) 4) cid_empty 2.

Lemma outbound_cid_coherent_witness :
  ∃ c p, run_events example_conn [nth_new 1; SwitchCid; NewCid 2 2 (nth_cid 2) [2]] = (c, Ok ())
    ∧ cc_remote c = Some p ∧ zlen (cp_entries p) ≤ cp_limit p ∧ cid_as_slice (cc_peer c) = nth_cid 2.
Proof.
  pose (c := (run_events example_conn [nth_new 1; SwitchCid; NewCid 2 2 (nth_cid 2) [2]]).1).
  destruct (cc_remote c) as [p|] eqn:Hp; [|vm_compute in Hp; discriminate].
  exists c, p. destruct (outbound_cid_coherent (mkConnectionId (replicate 20 0) 4) cid_empty 2 c p) as (_ & Hz & _).
  - eapply rtc_l; [apply (st_new _ 1 0 (nth_cid 1) [1]); [lia|vm_compute; reflexivity]|].
    eapply rtc_l; [apply (st_switch _ true); vm_compute; reflexivity|].
    eapply rtc_l; [apply (st_new _ 2 2 (nth_cid 2) [2]); [lia|vm_compute; reflexivity]|]. apply rtc_refl.
  - exact Hp.
  - split; [vm_compute; reflexivity|]. split; [exact Hp|]. split; [exact Hz|]. vm_compute. reflexivity.
Defined.

(** A late copy of an accepted NEW_CONNECTION_ID frame is taken for a new one once its
    id has been retired: with room in the pool the retired id is back among the ids the
    connection may use, its RETIRE_CONNECTION_ID still queued, and the next switch
    addresses the peer by it; with the pool full the copy is answered with a connection
    error.  (RFC 9000, section 19.15: "Receipt of the same frame multiple times MUST NOT
    be treated as a connection error".) *)
Theorem repeated_new_cid_not_recognised :
  (∃ c p e, run_events example_conn [nth_new 1; SwitchCid; nth_new 2; SwitchCid; nth_new 1; SwitchCid] = (c, Ok ())
     ∧ cc_remote c = Some p ∧ cid_as_slice (cc_peer c) = nth_cid 1
     ∧ bt_get (cp_entries p) 1 = Some e ∧ 1 ∈ cp_pending_retire p)
  ∧ (run_events example_conn [nth_new 1; SwitchCid; nth_new 2; SwitchCid; nth_new 3; nth_new 1]).2
    = Err Error.IllegalParameter.
Proof.
  split; [|vm_compute; reflexivity]. do 3 eexists. split; [vm_compute; reflexivity|]. split; [reflexivity|].
  split; [vm_compute; reflexivity|]. split; [vm_compute; reflexivity|]. set_solver.
Qed.

(** Moving to the server's preferred address after the server retired sequence 1 queues
    the RETIRE_CONNECTION_ID of that id and addresses the new path by it all the same:
    the active sequence has no entry. *)
Example preferred_cid_after_retirement :
  ∃ c p, use_preferred_cid (run_events example_conn [NewCid 2 2 (nth_cid 2) [2]]).1 (nth_cid 1) [1] = (c, Ok ())
    ∧ cc_remote c = Some p ∧ cp_active_seq p = 1 ∧ bt_get (cp_entries p) 1 = None
    ∧ cid_as_slice (cc_peer c) = nth_cid 1 ∧ 1 ∈ cp_pending_retire p.
Proof.
  do 2 eexists. split; [vm_compute; reflexivity|]. split; [reflexivity|]. split; [reflexivity|].
  split; [reflexivity|]. split; [vm_compute; reflexivity|]. set_solver.
Qed.
