(* ===== verification/CidSpec.v ===== *)
(** Connection ids between two endpoints: the issuer's pool ([cid_local]) and the pool its
    peer keeps of the ids it was given ([cid_remote]) stay the same through issuing and
    retirement, when frames arrive in order. *)

From S2P Require Import Prelude TlsBase BTree Varint Codec Frame TransportParams Cid.

(** The ids of a pool by sequence number. *)
Definition view (p : CidPool) : list (Z * ConnectionId) := (λ x, (x.1, ce_cid x.2)) <$> cp_entries p.

(** An id as the constructors make it: it survives the wire. *)
Definition cid_good (c : ConnectionId) : Prop := cid_from_slice (cid_as_slice c) = Some c ∧ 1 ≤ cid_len c.

Lemma view_keys p q : view p = view q → (cp_entries p).*1 = (cp_entries q).*1.
Proof.
  intros H. assert (∀ r, (cp_entries r).*1 = (view r).*1) as E.
  { intros r. unfold view. by rewrite <- list_fmap_compose. }
  by rewrite !E, H.
Qed.

Lemma view_length p q : view p = view q → zlen (cp_entries p) = zlen (cp_entries q).
Proof. intros H%(f_equal length). unfold view in H. rewrite !length_fmap in H. unfold zlen. lia. Qed.

Lemma bt_get_above {V} (m : list (Z * V)) k : (∀ x, x ∈ m → x.1 < k) → bt_get m k = None.
Proof.
  induction m as [|[k' v'] m IH]; intros Hk; [done|]. simpl. pose proof (Hk (k', v') ltac:(left)) as Hlt. simpl in Hlt.
  destruct (Z.eqb_spec k k'); [lia|]. apply IH. intros x Hx. apply Hk. by right.
Qed.

Lemma live_all p : pool_inv p → cp_retire_prior_to p = 0 → live p = zlen (cp_entries p).
Proof.
  intros Hi H0. unfold live. rewrite filter_all; [done|]. apply Forall_forall. intros x Hx.
  rewrite H0. destruct (pi_keys p Hi x Hx) as [_ [? _]]. done.
Qed.

(** Adding an id beyond all others to a pool with room that retires nothing. *)
Lemma add_last p e : pool_inv p → cp_retire_prior_to p = 0 → zlen (cp_entries p) < cp_limit p →
  (∀ x, x ∈ cp_entries p → x.1 < ce_sequence e) → 0 ≤ ce_sequence e →
  ∃ p', cid_add p e = (p', Ok ()) ∧ pool_inv p' ∧ cp_entries p' = cp_entries p ++ [(ce_sequence e, e)]
    ∧ cp_retire_prior_to p' = 0 ∧ cp_limit p' = cp_limit p ∧ cp_active_seq p' = cp_active_seq p
    ∧ cp_pending_retire p' = cp_pending_retire p ∧ cp_issued_high p' = cp_issued_high p `max` ce_sequence e.
Proof.
  intros Hi H0 Hz Hk He. destruct (cid_add p e) as [p' r] eqn:Ha.
  assert (p' = set_entries (cp_entries p ++ [(ce_sequence e, e)]) (set_issued_high (cp_issued_high p `max` ce_sequence e) p)
    ∧ r = Ok ()) as [Hp' ->].
  { unfold cid_add in Ha. rewrite bt_get_above, H0 in Ha by done.
    destruct (Z.ltb_spec (ce_sequence e) 0); [lia|]. rewrite live_all in Ha by done.
    destruct (Z.leb_spec (cp_limit p) (zlen (cp_entries p))); [lia|]. cbv zeta in Ha. simpl in Ha.
    rewrite bt_insert_last in Ha by (by apply Forall_forall). unfold retire_retained_active in Ha. simpl in Ha. rewrite H0 in Ha.
    destruct (pi_active p Hi) as [a Hact]. destruct (pi_keys p Hi _ Hact) as [_ Hge]. simpl in Hge.
    destruct (Z.leb_spec 0 (cp_active_seq p)); [|lia]. cbn [orb] in Ha. injection Ha as <- <-. done. }
  exists p'. destruct (add_spec p e p' Hi He Ha) as (Hi' & _). rewrite Hp' in *. by split_and!.
Qed.

(** Encoding frames one after the other. *)
Fixpoint encode_all (fs : list Frame.frame) (out : bytes) : option bytes :=
  match fs with
  | [] => Some out
  | f :: fs => out ← frame_encode f out; encode_all fs out
  end.

(** [k] sequence numbers from [s] on. *)
Fixpoint run_of (s : Z) (k : nat) : list Z :=
  match k with O => [] | S k => s :: run_of (s + 1) k end.

(** Two pools in step: the issuer's and its peer's. *)
Record in_step (l r : CidPool) : Prop := {
  is_l : pool_inv l; is_r : pool_inv r;
  is_l0 : cp_retire_prior_to l = 0; is_r0 : cp_retire_prior_to r = 0;
  is_view : view l = view r;
  is_limit : cp_limit l ≤ cp_limit r;
  is_good : ∀ x, x ∈ cp_entries l → cid_good (ce_cid x.2) }.

Lemma view_snoc p p' k e : cp_entries p' = cp_entries p ++ [(k, e)] → view p' = view p ++ [(k, ce_cid e)].
Proof. intros H. unfold view. by rewrite H, fmap_app. Qed.

Lemma cid_add_both l r el er : in_step l r → zlen (cp_entries l) < cp_limit l →
  ce_sequence el = cp_issued_high l + 1 → ce_sequence er = ce_sequence el → ce_cid er = ce_cid el → cid_good (ce_cid el) →
  0 ≤ cp_issued_high l →
  ∃ l' r', cid_add l el = (l', Ok ()) ∧ cid_add r er = (r', Ok ()) ∧ in_step l' r'
    ∧ zlen (cp_entries l') = zlen (cp_entries l) + 1 ∧ cp_limit l' = cp_limit l ∧ cp_limit r' = cp_limit r
    ∧ cp_issued_high l' = cp_issued_high l + 1
    ∧ cp_active_seq r' = cp_active_seq r ∧ cp_pending_retire r' = cp_pending_retire r.
Proof.
  intros [Hl Hr Hl0 Hr0 Hv Hlim Hg] Hz Hel Her Hc Hgood H0.
  assert (∀ x, x ∈ cp_entries l → x.1 < ce_sequence el) as Hkl
    by (intros x Hx; destruct (pi_keys l Hl x Hx); lia).
  assert (∀ x, x ∈ cp_entries r → x.1 < ce_sequence er) as Hkr.
  { intros x Hx. assert (x.1 ∈ (cp_entries l).*1) as Hin by (rewrite (view_keys _ _ Hv); by apply list_elem_of_fmap_2).
    apply list_elem_of_fmap in Hin as (y & -> & Hy). rewrite Her. by apply Hkl. }
  pose proof (view_length _ _ Hv) as Hlen.
  destruct (add_last l el Hl Hl0 Hz Hkl ltac:(lia)) as (l' & Ha & Hil & He & Hrl & Hll & _ & _ & Hh).
  destruct (add_last r er Hr Hr0 ltac:(lia) Hkr ltac:(lia)) as (r' & Ha' & Hir & He' & Hrr & Hlr & Hact & Hpe & _).
  exists l', r'. split_and!; try done.
  - split; try done.
    + rewrite (view_snoc _ _ _ _ He), (view_snoc _ _ _ _ He'), Hv. congruence.
    + lia.
    + intros x. rewrite He. intros [Hx| ->%list_elem_of_singleton]%elem_of_app; [by apply Hg|done].
  - rewrite He. by rewrite zlen_app.
  - lia.
Qed.

Lemma good_len c : cid_good c → zlen (cid_as_slice c) = cid_len c ∧ cid_len c ≤ 20 ∧ (cid_is_empty c = false).
Proof.
  intros [Hs Hl]. unfold cid_from_slice in Hs. change MAX_CID_LEN with 20 in Hs.
  destruct (Z.ltb_spec 20 (zlen (cid_as_slice c))); [done|].
  injection Hs as Hs. assert (cid_len c = zlen (cid_as_slice c)) as E.
  { rewrite <- Hs at 1. simpl. apply wrap_small. pose proof (zlen_nonneg (cid_as_slice c)). unfold in_width. lia. }
  split; [done|]. split; [lia|]. unfold cid_is_empty. apply Z.eqb_neq. lia.
Qed.

(** What the peer does with one issued id. *)
Lemma receive_issued b r r' seq c tok : cc_remote b = Some r → cid_is_empty (cc_peer b) = false →
  cid_good c → cp_retire_prior_to r = 0 → 0 ≤ seq →
  cid_add r (mkCidEntry c seq (Some tok)) = (r', Ok ()) → cp_active_seq r' = cp_active_seq r →
  on_new_connection_id b seq 0 (cid_as_slice c) tok = (set_remote (Some r') b, Ok ()).
Proof.
  intros Hr Hp [Hc _] H0 Hs Ha Hact. unfold on_new_connection_id. rewrite Hp, Hc, Hr.
  destruct (Z.ltb_spec seq 0); [lia|]. cbv zeta. unfold note_retire_prior_to. rewrite H0. cbn [Z.leb Z.compare].
  rewrite Ha, Hact, Z.eqb_refl. done.
Qed.

Lemma deliver_inv fs : ∀ b b', remote_inv b → Forall (λ f : Z * Z * bytes * bytes, 0 ≤ f.1.1.1) fs →
  deliver b fs = (b', Ok ()) → remote_inv b'.
Proof.
  induction fs as [|[[[s rpt] cid] tok] fs IH]; intros b b' Hb Hf; [by intros [= <-]|]. simpl.
  apply Forall_cons in Hf as [H0 Hf]. destruct (on_new_connection_id b s rpt cid tok) as [b1 [[]|]] eqn:E; [|done].
  intros Hd. eapply IH; [|exact Hf|exact Hd]. by eapply on_new_connection_id_inv.
Qed.

Section exchange.
Variable fresh : Z → ConnectionId.
Variable token_of : ConnectionId → bytes.
Hypothesis fresh_good : ∀ s, cid_good (fresh s).
Hypothesis token_len : ∀ c, zlen (token_of c) = 16.

Abbreviation entry_for s := (mkCidEntry (fresh s) s (Some (token_of (fresh s)))).

(** The frame of sequence [s] as the peer's handler receives it. *)
Definition payload (s : Z) : Z * Z * bytes * bytes := (s, 0, cid_as_slice (fresh s), token_of (fresh s)).

Lemma run_of_nonneg s k : 0 ≤ s → Forall (λ x, 0 ≤ (payload x).1.1.1) (run_of s k).
Proof. revert s. induction k as [|k IH]; intros s Hs; constructor; [done|]. apply IH. lia. Qed.

Lemma issued_frame_wf s : 0 ≤ s ≤ VARINT_MAX → frame_wf (issued_frame fresh token_of s).
Proof.
  intros Hs. destruct (good_len _ (fresh_good s)) as (Hl & H20 & _). destruct (fresh_good s) as [_ H1]. simpl.
  rewrite Hl, token_len. unfold vint. change VARINT_MAX with (2 ^ 62 - 1) in *. lia.
Qed.

Lemma issue_loop_spec n : ∀ l b r out cap,
  in_step l r → cc_remote b = Some r → cid_is_empty (cc_peer b) = false → 0 ≤ cp_issued_high l →
  zlen (cp_entries l) + Z.of_nat n ≤ cp_limit l → cp_issued_high l + Z.of_nat n ≤ VARINT_MAX →
  ∃ l' r' out' done k, issue_loop fresh token_of l (cp_issued_high l + 1) n out cap = Some (l', out', done)
    ∧ encode_all (issued_frame fresh token_of <$> run_of (cp_issued_high l + 1) k) out = Some out'
    ∧ deliver b (payload <$> run_of (cp_issued_high l + 1) k) = (set_remote (Some r') b, Ok ())
    ∧ in_step l' r' ∧ cp_limit l' = cp_limit l ∧ cp_limit r' = cp_limit r ∧ cp_active_seq r' = cp_active_seq r
    ∧ cp_pending_retire r' = cp_pending_retire r
    ∧ zlen (cp_entries l') = zlen (cp_entries l) + Z.of_nat k ∧ (done = true → k = n).
Proof.
  induction n as [|n IH]; intros l b r out cap Hst Hr Hp H0 Hz Hv.
  { exists l, r, out, true, 0%nat. simpl. split_and!; try done; [|lia]. rewrite <- Hr. by destruct b. }
  cbn [issue_loop]. destruct (_ || _).
  { exists l, r, out, false, 0%nat. simpl. split_and!; try done; [|lia]. rewrite <- Hr. by destruct b. }
  set (s := cp_issued_high l + 1).
  destruct (cid_add_both l r (entry_for s) (entry_for s) Hst ltac:(lia) eq_refl eq_refl eq_refl (fresh_good s) H0) as
    (l1 & r1 & Ha & Ha' & Hst1 & Hz1 & Hl1 & Hr1 & Hh1 & Hact1 & Hp1).
  destruct (frame_encode_arm _ (issued_frame_wf s ltac:(lia))) as (t & body & Henc & _).
  rewrite Ha, (Henc out). cbn [oapp mbind option_bind fmap option_fmap option_map].
  pose proof (receive_issued b r r1 s (fresh s) (token_of (fresh s)) Hr Hp (fresh_good s) (is_r0 _ _ Hst) ltac:(lia) Ha' Hact1)
    as Hrec.
  destruct (IH l1 (set_remote (Some r1) b) r1 (out ++ t :: body) cap Hst1 eq_refl Hp ltac:(lia) ltac:(lia) ltac:(lia))
    as (l' & r' & out' & dn & k & Hloop & Hall & Hdel & Hst' & Hl' & Hr' & Hact' & Hp' & Hz' & Hdn).
  rewrite Hh1 in Hloop, Hall, Hdel. fold s in Hloop, Hall, Hdel.
  exists l', r', out', dn, (S k). cbn [run_of fmap list_fmap]. cbn [encode_all deliver payload].
  rewrite (Henc out), Hrec.
  cbn [oapp mbind option_bind fmap option_fmap option_map]. split_and!; try done; try congruence; try lia.
  intros Hd. by rewrite (Hdn Hd).
Qed.

(** The issuer [a] and its peer [b], which advertised the limit [adv]. *)
Definition cids_in_step (adv : Z) (a b : ConnCids) : Prop :=
  ∃ l r, cc_local a = Some l ∧ cc_remote b = Some r ∧ in_step l r ∧ remote_inv b
    ∧ cp_limit r = Z.max adv 2 ∧ cp_limit l ≤ Z.min 8 (Z.max 2 adv).

Lemma set_limit_in_step adv l r : in_step l r → cp_limit r = Z.max adv 2 → cp_limit l ≤ Z.min 8 (Z.max 2 adv) →
  in_step (set_limit (Z.min 8 (Z.max 2 adv)) l) r ∧ cp_limit (set_limit (Z.min 8 (Z.max 2 adv)) l) = Z.min 8 (Z.max 2 adv).
Proof.
  intros [Hl Hr Hl0 Hr0 Hv Hlim Hg] Hrl Hll. split; [|simpl; lia]. split; try done; simpl; [|lia].
  destruct Hl. split; try done; simpl; [lia|]. change (live (set_limit _ l)) with (live l). lia.
Qed.

Lemma peer_not_empty b r l : in_step l r → remote_inv b → cc_remote b = Some r → cid_is_empty (cc_peer b) = false.
Proof.
  intros Hst Hb Hr. destruct (Hb _ Hr) as (Hp & e & He & <-). apply active_get in He; [|done].
  assert ((cp_active_seq r, ce_cid e) ∈ view r) as Hin 
    by (apply list_elem_of_fmap; by exists (cp_active_seq r, e)).
  rewrite <- (is_view _ _ Hst) in Hin. apply list_elem_of_fmap in Hin as ([k x] & [= _ Hx] & Hin).
  apply (is_good _ _ Hst) in Hin. simpl in Hin. rewrite Hx. by destruct (good_len _ Hin) as (_ & _ & ?).
Qed.

Lemma issue_exchange adv a b out cap : cids_in_step adv a b →
  (∀ l, cc_local a = Some l → 0 ≤ cp_issued_high l ≤ VARINT_MAX - 8) →
  ∃ a' b' out' done fs, issue_new_local_cids fresh token_of a (Some adv) out cap = Some (a', out', done)
    ∧ encode_all (issued_frame fresh token_of <$> fs) out = Some out'
    ∧ deliver b (payload <$> fs) = (b', Ok ()) ∧ cids_in_step adv a' b'
    ∧ (done = true → ∃ l', cc_local a' = Some l' ∧ zlen (cp_entries l') = Z.min 8 (Z.max 2 adv)).
Proof.
  intros (l & r & Hl & Hr & Hst & Hb & Hrl & Hll) Hh. specialize (Hh _ Hl). change VARINT_MAX with (2 ^ 62 - 1) in Hh.
  unfold issue_new_local_cids. rewrite Hl. change (default 2 (Some adv)) with adv. cbv zeta.
  destruct (set_limit_in_step adv l r Hst Hrl Hll) as [Hst' Hlim].
  set (l0 := set_limit (Z.min 8 (Z.max 2 adv)) l) in *.
  assert (how_many_to_issue l0 = Z.min 8 (Z.max 2 adv) - zlen (cp_entries l0)) as Hn.
  { unfold how_many_to_issue, sat_sub. rewrite live_all, Hlim by (apply Hst').
    pose proof (entries_le_limit l0 (is_l _ _ Hst')). lia. }
  pose proof (entries_le_limit l0 (is_l _ _ Hst')) as Hle. pose proof (zlen_nonneg (cp_entries l0)).
  destruct (Z.eqb_spec (how_many_to_issue l0) 0) as [E0|Hne].
  - exists (set_local (Some l0) a), b, out, true, []. simpl. split_and!; try done.
    + exists l0, r. split_and!; try done. lia.
    + intros _. exists l0. split; [done|lia].
  - change (cp_issued_high l0) with (cp_issued_high l).
    assert (wadd 64 (cp_issued_high l) 1 = cp_issued_high l0 + 1) as ->
      by (unfold wadd; rewrite wrap_small; [done|unfold in_width; lia]).
    destruct (issue_loop_spec (Z.to_nat (how_many_to_issue l0)) l0 b r out cap) as
      (l' & r' & out' & dn & k & Hloop & Hall & Hdel & Hst1 & Hl' & Hr' & Hact & _ & Hz & Hdn); try done.
    { exact (peer_not_empty _ _ _ Hst Hb Hr). } { exact (proj1 Hh). } { lia. }
    { change VARINT_MAX with (2 ^ 62 - 1). change (cp_issued_high l0) with (cp_issued_high l). lia. }
    rewrite Hloop. cbn [mbind option_bind]. exists (set_local (Some l') a), (set_remote (Some r') b), out', dn.
    eexists. split; [done|]. split; [exact Hall|]. split; [exact Hdel|]. split.
    + exists l', r'. split_and!; try done; [|congruence|lia].
      eapply deliver_inv; [exact Hb| |exact Hdel]. apply Forall_fmap, run_of_nonneg. simpl. lia.
    + intros Hd. exists l'. split; [done|]. rewrite (Hdn Hd) in Hz. lia.
Qed.
End exchange.

Lemma view_remove p q k : cp_entries q = bt_remove (cp_entries p) k → view q = filter (λ x, x.1 ≠ k) (view p).
Proof.
  intros E. unfold view. rewrite E. unfold bt_remove. clear E. induction (cp_entries p) as [|x l IH]; [done|].
  rewrite fmap_cons, !filter_cons. simpl. destruct (decide (x.1 ≠ k)); [|exact IH]. rewrite fmap_cons. by f_equal.
Qed.

Lemma view_elem p k c : (k, c) ∈ view p ↔ ∃ e, (k, e) ∈ cp_entries p ∧ ce_cid e = c.
Proof.
  unfold view. rewrite list_elem_of_fmap. split.
  - intros ([k' e] & [= -> ->] & H). by exists e.
  - intros (e & H & <-). by exists (k, e).
Qed.

(** Retiring an id that is not the only one. *)
Lemma retire_known p o k y z : pool_inv p → (o, y) ∈ cp_entries p → (k, z) ∈ cp_entries p → k ≠ o →
  ∃ p', cid_retire p o = (p', Ok (Some y)) ∧ pool_inv p' ∧ cp_entries p' = bt_remove (cp_entries p) o
    ∧ cp_limit p' = cp_limit p ∧ cp_retire_prior_to p' = cp_retire_prior_to p.
Proof.
  intros Hi Ho Hk Hne. unfold cid_retire. destruct (pi_keys p Hi _ Ho) as [_ Hhigh]. simpl in Hhigh.
  destruct (Z.ltb_spec (cp_issued_high p) o); [lia|]. pose proof Ho as Hg.
  apply bt_get_Some in Hg; [|apply Hi]. cbv zeta. simpl. rewrite Hg.
  rewrite (bool_decide_eq_false_2 (Some y = None)) by done. rewrite andb_true_r.
  destruct (Z.eqb_spec o (cp_active_seq p)) as [Eo|Hno].
  - destruct (head _) as [s|] eqn:Hh.
    2: { exfalso. apply (head_filter_none _ _ k Hh); [|done]. apply list_elem_of_fmap. by exists (k, z). }
    apply head_filter_elem in Hh as [Hs Hso]. apply list_elem_of_fmap in Hs as ([s' w] & -> & Hs). simpl in *.
    destruct (set_active_inv p s' w Hi Hs) as [Hi' _]. destruct (remove_inv (set_active s' p) o Hi') as [Hi2 _]; [done|].
    eexists. split; [done|]. by split_and!.
  - destruct (remove_inv p o Hi) as [Hi2 _]; [done|]. eexists. split; [done|]. by split_and!.
Qed.

Lemma good_slice_inj c d : cid_good c → cid_good d → cid_as_slice c = cid_as_slice d → c = d.
Proof. intros [Hc _] [Hd _] E. rewrite E, Hd in Hc. by injection Hc. Qed.

(** A packet with destination id [d] arrives. *)
Definition received_on (d : bytes) (c : ConnCids) : ConnCids :=
  mkConnCids (cc_peer c) (cc_remote c) (cc_local c) (cc_migration c) d (cc_new_cids_issued c).

Lemma cap_positive p : pool_inv p → (zlen (A:=Z) [] <? pending_retire_cap p) = true.
Proof.
  intros Hi. pose proof (pi_limit p Hi). apply Z.ltb_lt. unfold pending_retire_cap, sat_add, PENDING_RETIRE_SLACK.
  change (zlen (A:=Z) []) with 0. lia.
Qed.

Lemma in_step_remove l r l' r' o : in_step l r → pool_inv l' → pool_inv r' →
  cp_entries l' = bt_remove (cp_entries l) o → cp_entries r' = bt_remove (cp_entries r) o →
  cp_limit l' = cp_limit l → cp_limit r' = cp_limit r →
  cp_retire_prior_to l' = cp_retire_prior_to l → cp_retire_prior_to r' = cp_retire_prior_to r → in_step l' r'.
Proof.
  intros [? ? ? ? Hv ? Hg] ? ? Hl Hr ? ? ? ?. split; try done; try congruence.
  - by rewrite (view_remove _ _ _ Hl), (view_remove _ _ _ Hr), Hv.
  - intros x. rewrite Hl. intros [? _]%bt_remove_elem. by apply Hg.
Qed.

Lemma retire_exchange adv a b b' : cids_in_step adv a b →
  (∀ r, cc_remote b = Some r → cp_pending_retire r = []) → switch_connection_id b true = (b', Ok ()) →
  ∃ r' r'' seq a', cc_remote b' = Some r' ∧ pop_pending_retire r' = (r'', Some seq)
    ∧ on_retire_connection_id (received_on (cid_as_slice (cc_peer b')) a) seq = (a', Ok ())
    ∧ cids_in_step adv a' (set_remote (Some r'') b') ∧ cc_new_cids_issued a' = false.
Proof.
  intros (l & r & Hl & Hr & Hst & Hb & Hrl & Hll) Hpe Hsw. pose proof (switch_inv _ _ _ Hb Hsw) as Hb'.
  specialize (Hpe _ Hr). unfold switch_connection_id in Hsw. cbn [negb] in Hsw. case_bool_decide; [done|].
  rewrite Hr in Hsw. cbv zeta in Hsw. destruct (Hb _ Hr) as (Hp & ea & Hea & Hpea).
  destruct (spare r (cc_peer b)) as [[k e]|] eqn:Hs; [|done]. apply spare_elem in Hs as [He Hec].
  destruct (entry_of r (cc_peer b)) as [[o x]|] eqn:Ho.
  2: { exfalso. apply (head_filter_none _ _ (cp_active_seq r, ea) Ho); [by apply active_get|done]. }
  apply entry_of_elem in Ho as [Hx Hxc]. cbn [fmap option_fmap option_map fst] in Hsw. simpl in Hsw.
  rewrite Hpe in Hsw. rewrite bool_decide_eq_false_2 in Hsw by (by intros ?%elem_of_nil). cbn [negb andb] in Hsw.
  change (pending_retire_cap _) with (pending_retire_cap r) in Hsw. rewrite cap_positive in Hsw by done.
  injection Hsw as <-.
  assert (k ≠ o) as Hko.
  { intros ->. apply (bt_get_Some _ _ _ (pi_sorted r Hp)) in He, Hx. congruence. }
  assert (∀ s c, (s, c) ∈ view l ↔ (s, c) ∈ view r) as Hview by (intros; by rewrite (is_view _ _ Hst)).
  destruct (proj1 (view_elem l o (ce_cid x))) as (y & Hy & Hyc); [apply Hview, view_elem; by exists x|].
  destruct (proj1 (view_elem l k (ce_cid e))) as (z & Hz & Hzc); [apply Hview, view_elem; by exists e|].
  destruct (retire_known l o k y z (is_l _ _ Hst) Hy Hz Hko) as (l' & Hret & Hil & Hle & Hlim & Hrpt).
  do 3 eexists. exists (set_issued false (set_local (Some l') (received_on (cid_as_slice (ce_cid e)) a))).
  split; [done|]. split; [done|]. split_and!; [|eexists l', _; split; [done|]; split; [done|]|done].
  - unfold on_retire_connection_id. simpl. rewrite Hl. pose proof Hy as Hgy.
    apply bt_get_Some in Hgy; [|apply Hst]. rewrite Hgy, bool_decide_eq_false_2, andb_false_r, Hret; [done|].
    rewrite <- Hzc. intros E. apply good_slice_inj in E; [|by apply (is_good _ _ Hst) in Hy|by apply (is_good _ _ Hst) in Hz].
    congruence.
  - destruct (Hb' _ eq_refl) as (Hpr & er & Her & Hper). split; [|split; [|split]].
    + eapply (in_step_remove l r _ _ o); try done. by apply pool_inv_pending.
    + intros q [= <-]. split; [by apply pool_inv_pending|]. by exists er.
    + exact Hrl.
    + lia.
Qed.

(** C17: the two ends of a connection agree on the connection ids, and neither rejects what
    the other does.  Starting in step, whatever room the packet has: the frames the
    issuer writes for the ids it adds are accepted by its peer, delivered in order, and
    leave the two pools in step again, with as many ids as the peer's limit (at most 8)
    allows when nothing had to wait; and when the peer switches to another id, the
    RETIRE_CONNECTION_ID it then owes is accepted by the issuer, leaves the pools in step
    and re-arms issuing.  [fresh] is the random id drawn for a sequence number and
    [token_of] the derivation of its reset token. *)
Theorem cid_exchange fresh token_of adv a b :
  (∀ s, cid_good (fresh s)) → (∀ c, zlen (token_of c) = 16) → cids_in_step adv a b →
  (∀ l, cc_local a = Some l → 0 ≤ cp_issued_high l ≤ VARINT_MAX - 8) →
  (∀ out cap, ∃ a' b' out' done fs, issue_new_local_cids fresh token_of a (Some adv) out cap = Some (a', out', done)
     ∧ encode_all (issued_frame fresh token_of <$> fs) out = Some out'
     ∧ deliver b (payload fresh token_of <$> fs) = (b', Ok ()) ∧ cids_in_step adv a' b'
     ∧ (done = true → ∃ l', cc_local a' = Some l' ∧ zlen (cp_entries l') = Z.min 8 (Z.max 2 adv)))
  ∧ (∀ b', (∀ r, cc_remote b = Some r → cp_pending_retire r = []) → switch_connection_id b true = (b', Ok ()) →
     ∃ r' r'' seq a', cc_remote b' = Some r' ∧ pop_pending_retire r' = (r'', Some seq)
       ∧ on_retire_connection_id (received_on (cid_as_slice (cc_peer b')) a) seq = (a', Ok ())
       ∧ cids_in_step adv a' (set_remote (Some r'') b') ∧ cc_new_cids_issued a' = false).
Proof.
  intros Hf Ht Hst Hh. split.
  - intros out cap. by apply issue_exchange.
  - intros b'. by apply retire_exchange.
Qed.

(** Eight-byte ids, as the issuer draws them. *)
Definition example_cid (s : Z) : ConnectionId :=
  mkConnectionId ([as_u8 s] ++ replicate 19 0) 8.

Lemma cid_exchange_witness :
  ∃ a' b' out' fs, issue_new_local_cids example_cid (λ _, replicate 16 7)
      (conn_cids_new (example_cid 99) (example_cid 0) 2) (Some 4) [] 1200 = Some (a', out', true)
    ∧ encode_all (issued_frame example_cid (λ _, replicate 16 7) <$> fs) [] = Some out'
    ∧ deliver (conn_cids_new (example_cid 0) (example_cid 99) 4) (payload example_cid (λ _, replicate 16 7) <$> fs)
      = (b', Ok ()).
Proof.
  pose (a := conn_cids_new (example_cid 99) (example_cid 0) 2).
  pose (b := conn_cids_new (example_cid 0) (example_cid 99) 4).
  destruct (cid_exchange example_cid (λ _, replicate 16 7) 4 a b) as [Hi _].
  - intros s. split; [|done]. unfold example_cid, cid_as_slice. reflexivity.
  - done.
  - exists (cid_pool_new (example_cid 0) None), (set_limit 4 (cid_pool_new (example_cid 0) None)).
    split; [done|]. split; [done|]. split; [|split; [|split; [reflexivity|]]].
    + split; try done; [apply (pool_new_inv (example_cid 0) None 2)|apply pool_new_inv|].
      intros x ->%list_elem_of_singleton. split; [reflexivity|]. vm_compute. discriminate.
    + intros q [= <-]. split; [apply pool_new_inv|]. by eexists.
    + vm_compute. discriminate.
  - intros l [= <-]. vm_compute. split; discriminate.
  - destruct (Hi [] 1200) as (a' & b' & out' & dn & fs & H1 & H2 & H3 & _).
    assert (dn = true) as -> by (vm_compute in H1; by injection H1). exists a', b', out', fs.
    split; [exact H1|]. split; [exact H2|exact H3].
Defined.
