(* ===== verification/Congestion.v ===== *)
(** QUIC congestion control ([src/quic/congestion.rs]): the NewReno controller, and the
    data of the packets in flight ([SentPacket] of [src/quic/loss.rs]) it is fed with.
    A [Duration] is its number of nanoseconds. *)

From S2P Require Import Prelude Pn Streams.

(** * Durations ([core::time::Duration]) *)

Definition DURATION_MAX : Z := 2 ^ 64 * 1000000000 - 1.
Definition from_millis (n : Z) : Z := n * 1000000.
Definition dur_add (a b : Z) : Z := Z.min DURATION_MAX (a + b).
Definition dur_mul (d n : Z) : Z := Z.min DURATION_MAX (d * n).
Definition dur_checked_mul (d n : Z) : option Z := if d * n <=? DURATION_MAX then Some (d * n) else None.
(** [d.as_nanos() as u64] *)
Definition nanos_u64 (d : Z) : Z := wrap 64 d.

(** * Packets in flight *)

Record StreamHint := mkStreamHint { sh_id : Z; sh_offset : Z; sh_length : Z; sh_fin : bool }.

Record StreamHints := mkStreamHints { inline_hints : list StreamHint; inline_len : Z; spill : list StreamHint }.

Definition stream_hints_new : StreamHints :=
  mkStreamHints [mkStreamHint 0 0 0 false; mkStreamHint 0 0 0 false] 0 [].

Definition stream_hints_push (self : StreamHints) (hint : StreamHint) : StreamHints :=
  if inline_len self <? zlen (inline_hints self) then
    mkStreamHints (<[Z.to_nat (inline_len self) := hint]> (inline_hints self)) (inline_len self + 1) (spill self)
  else mkStreamHints (inline_hints self) (inline_len self) (spill self ++ [hint]).

Definition stream_hints_iter (self : StreamHints) : list StreamHint :=
  ztake (inline_len self) (inline_hints self) ++ spill self.

Record SentPacket := mkSentPacket {
  sp_pn : Z; sent_bytes : Z; ack_eliciting : bool; in_flight : bool; time_sent : Z;
  retransmit_hint : bytes; stream_hints : StreamHints; control_hints : list control_hint;
  sp_handshake_done : bool }.

(** * NewReno *)

Definition K_INITIAL_WINDOW_PACKETS : Z := 10.
Definition K_LOSS_REDUCTION_FACTOR_NUM : Z := 1.
Definition K_LOSS_REDUCTION_FACTOR_DEN : Z := 2.
Definition K_DEFAULT_MAX_DATAGRAM_SIZE : Z := 1200.
Definition U64_MAX : Z := 2 ^ 64 - 1.

Definition k_minimum_window (max_datagram_size : Z) : Z := wmul 64 2 max_datagram_size.

Record NewReno := mkNewReno {
  max_datagram_size : Z; cwnd : Z; ssthresh : Z; bytes_in_flight : Z;
  recovery_start_time : option Z; ecn_ce_counters : PnSpaceId → Z }.

#[export] Instance eta_newreno : Eta NewReno := λ c,
  mkNewReno (max_datagram_size c) (cwnd c) (ssthresh c) (bytes_in_flight c) (recovery_start_time c) (ecn_ce_counters c).

Definition newreno_new : NewReno :=
  mkNewReno K_DEFAULT_MAX_DATAGRAM_SIZE (K_INITIAL_WINDOW_PACKETS * K_DEFAULT_MAX_DATAGRAM_SIZE) U64_MAX 0 None (λ _, 0).

Definition newreno_reset (self : NewReno) : NewReno :=
  self <| cwnd := wmul 64 K_INITIAL_WINDOW_PACKETS (max_datagram_size self) |>
       <| ssthresh := U64_MAX |> <| recovery_start_time := None |>.

Definition cc_on_packet_sent (self : NewReno) (bytes : Z) : NewReno :=
  self <| bytes_in_flight := sat_add 64 (bytes_in_flight self) bytes |>.

Definition in_congestion_recovery (self : NewReno) (time_sent : Z) : bool :=
  match recovery_start_time self with Some t => time_sent <=? t | None => false end.

Definition on_packet_acked (self : NewReno) (p : SentPacket) : NewReno :=
  let self := self <| bytes_in_flight := sat_sub (bytes_in_flight self) (sent_bytes p) |> in
  if in_congestion_recovery self (time_sent p) then self
  else if cwnd self <? ssthresh self then
    self <| cwnd := sat_add 64 (cwnd self) (sent_bytes p) |>
  else
    let inc := Z.min U64_MAX (max_datagram_size self * sent_bytes p) / Z.max (cwnd self) 1 in
    self <| cwnd := sat_add 64 (cwnd self) (Z.max inc 1) |>.

Definition on_packets_acked (self : NewReno) (acked : list SentPacket) : NewReno :=
  foldl on_packet_acked self acked.

Definition on_new_congestion_event (self : NewReno) (sent_time : Z) : NewReno :=
  if in_congestion_recovery self sent_time then self
  else
    let new_ssthresh := Z.min U64_MAX (cwnd self * K_LOSS_REDUCTION_FACTOR_NUM) / K_LOSS_REDUCTION_FACTOR_DEN in
    self <| recovery_start_time := Some sent_time |> <| ssthresh := new_ssthresh |>
         <| cwnd := Z.max new_ssthresh (k_minimum_window (max_datagram_size self)) |>.

(** One lost packet of [on_packets_lost]: the controller and the latest send time. *)
Definition lost_step (st : NewReno * option Z) (p : SentPacket) : NewReno * option Z :=
  let '(self, most_recent_time) := st in
  (self <| bytes_in_flight := sat_sub (bytes_in_flight self) (sent_bytes p) |>,
   match most_recent_time with
   | None => Some (time_sent p)
   | Some t => if t <? time_sent p then Some (time_sent p) else Some t
   end).

Definition on_packets_lost (self : NewReno) (lost : list SentPacket) : NewReno :=
  let '(self, most_recent_time) := foldl lost_step (self, None) lost in
  match most_recent_time with
  | Some t => on_new_congestion_event self t
  | None => self
  end.

Definition on_persistent_congestion (self : NewReno) : NewReno :=
  self <| cwnd := k_minimum_window (max_datagram_size self) |> <| recovery_start_time := None |>.

Definition can_send (self : NewReno) : bool := bytes_in_flight self <? cwnd self.

#[global] Instance PnSpaceId_eq_dec : EqDecision PnSpaceId.
Proof. solve_decision. Defined.

Definition on_ecn_ce_increase (self : NewReno) (space : PnSpaceId) (new_count event_time : Z) : NewReno :=
  let prev := ecn_ce_counters self space in
  let self := self <| ecn_ce_counters := λ s, if decide (s = space) then new_count else ecn_ce_counters self s |> in
  if prev <? new_count then on_new_congestion_event self event_time else self.
