(* ===== verification/Loss.v ===== *)
(** QUIC loss recovery ([src/quic/loss.rs]): the RTT estimator, acknowledgement and loss
    detection, persistent congestion, and the loss-detection timer.  A [Duration] is its
    number of nanoseconds; maps are association lists in key order ([BTree]). *)

From S2P Require Import Prelude TlsBase Varint Pn BTree SendStream Streams Congestion.

Definition K_PACKET_THRESHOLD : Z := 3.
Definition K_GRANULARITY : Z := from_millis 1.
Definition K_INITIAL_RTT : Z := from_millis 333.
Definition K_PERSISTENT_CONGESTION_THRESHOLD : Z := 3.
Definition PTO_BACKOFF_CAP : Z := 16.
Definition K_PTO_PROBES : Z := 2.

Record AckedSpan := mkAckedSpan { span_first : Z; span_last : Z }.

Record LostRecord := mkLostRecord { lr_time_sent : Z; lr_space : PnSpaceId; lr_ack_eliciting : bool }.

Record PerSpace := mkPerSpace {
  sent_packets : list (Z * SentPacket); largest_acked_packet : option Z; loss_time : option Z;
  time_of_last_ack_eliciting_packet : option Z }.

#[export] Instance eta_perspace : Eta PerSpace := λ p,
  mkPerSpace (sent_packets p) (largest_acked_packet p) (loss_time p) (time_of_last_ack_eliciting_packet p).

Definition per_space_default : PerSpace := mkPerSpace [] None None None.

Record LossContext := mkLossContext {
  is_server : bool; handshake_confirmed : bool; has_handshake_keys : bool;
  peer_handshake_acked : bool; at_amplification_limit : bool }.

#[export] Instance eta_lossctx : Eta LossContext := λ c,
  mkLossContext (is_server c) (handshake_confirmed c) (has_handshake_keys c) (peer_handshake_acked c)
    (at_amplification_limit c).

Inductive TimeoutAction := DetectLoss (space : PnSpaceId) | Pto (space : PnSpaceId).

Record LossState := mkLossState {
  latest_rtt : Z; smoothed_rtt : Z; rttvar : Z; min_rtt : Z; first_rtt_sample : option Z;
  max_ack_delay : Z; ack_delay_exponent : Z; pto_count : Z; loss_detection_timer : option Z;
  per_space : PnSpaceId → PerSpace; probe_space : option PnSpaceId; probe_credit : Z;
  acked_send_times : list AckedSpan; lost_history : list LostRecord;
  persistent_congestion_declared : option Z; ctx : LossContext }.

#[export] Instance eta_loss : Eta LossState := λ s,
  mkLossState (latest_rtt s) (smoothed_rtt s) (rttvar s) (min_rtt s) (first_rtt_sample s) (max_ack_delay s)
    (ack_delay_exponent s) (pto_count s) (loss_detection_timer s) (per_space s) (probe_space s) (probe_credit s)
    (acked_send_times s) (lost_history s) (persistent_congestion_declared s) (ctx s).

Definition loss_new : LossState :=
  mkLossState 0 K_INITIAL_RTT (K_INITIAL_RTT / 2) DURATION_MAX None (from_millis 25) 3 0 None
    (λ _, per_space_default) None 0 [] [] None (mkLossContext false false false false false).

(** [self.per_space[space] = ps] *)
Definition set_space (space : PnSpaceId) (ps : PerSpace) (self : LossState) : LossState :=
  self <| per_space := λ s, if decide (s = space) then ps else per_space self s |>.

(** [[Initial, Handshake, Application]], the order of the loops over the spaces. *)
Definition all_spaces : list PnSpaceId := [Initial; Handshake; Application].

(** * Probes *)

Definition arm_probe (self : LossState) (space : PnSpaceId) : LossState :=
  self <| probe_space := Some space |> <| probe_credit := K_PTO_PROBES |>.

Definition clear_probe (self : LossState) : LossState :=
  self <| probe_space := None |> <| probe_credit := 0 |>.

Definition probe_credit_of (self : LossState) (space : PnSpaceId) : Z :=
  if decide (probe_space self = Some space) then probe_credit self else 0.

Definition consume_probe_credit (self : LossState) : LossState :=
  let self := self <| probe_credit := sat_sub (probe_credit self) 1 |> in
  if probe_credit self =? 0 then self <| probe_space := None |> else self.

Definition probe_needs_ping (self : LossState) (space : PnSpaceId) : bool :=
  bool_decide (probe_space self = Some space) && (probe_credit self =? K_PTO_PROBES).

Definition peer_completed_address_validation (self : LossState) : bool :=
  is_server (ctx self) || peer_handshake_acked (ctx self) || handshake_confirmed (ctx self).

Definition set_peer_params (self : LossState) (delay exponent : Z) : LossState :=
  self <| max_ack_delay := delay |> <| ack_delay_exponent := exponent |>.

(** * The loss-detection timer *)

Definition pto_base (self : LossState) : Z :=
  let four_rttvar := dur_mul (rttvar self) 4 in
  dur_add (smoothed_rtt self) (Z.max four_rttvar K_GRANULARITY).

Definition pto_period (self : LossState) : Z := dur_add (pto_base self) (max_ack_delay self).

Definition pto_backoff (self : LossState) : Z := Z.shiftl 1 (Z.min (pto_count self) PTO_BACKOFF_CAP).

Definition backed_off (self : LossState) (d : Z) : Z :=
  default (from_millis 60000) (dur_checked_mul d (pto_backoff self)).

Definition eliciting (ps : PerSpace) : bool := existsb (λ e, ack_eliciting e.2) (sent_packets ps).

Definition has_ack_eliciting_in_flight (self : LossState) : bool :=
  existsb (λ space, eliciting (per_space self space)) all_spaces.

Definition space_has_ack_eliciting_in_flight (self : LossState) (space : PnSpaceId) : bool :=
  eliciting (per_space self space).

(** The loop of [pto_time_and_space] over the spaces. *)
Fixpoint pto_loop (self : LossState) (duration : Z) (spaces : list PnSpaceId)
  (earliest : option (Z * PnSpaceId)) : option (Z * PnSpaceId) :=
  match spaces with
  | [] => earliest
  | space :: spaces =>
      let ps := per_space self space in
      if negb (eliciting ps) then pto_loop self duration spaces earliest
      else if bool_decide (space = Application) && negb (handshake_confirmed (ctx self)) then earliest
      else
        let d := if decide (space = Application) then dur_add duration (backed_off self (max_ack_delay self))
                 else duration in
        match time_of_last_ack_eliciting_packet ps with
        | None => pto_loop self duration spaces earliest
        | Some anchor =>
            let t := dur_add anchor d in
            pto_loop self duration spaces
              (match earliest with
               | Some (prev, s) => if t <? prev then Some (t, space) else Some (prev, s)
               | None => Some (t, space)
               end)
        end
  end.

(** The space of the client's anti-deadlock probe. *)
Definition deadlock_space (self : LossState) : PnSpaceId :=
  if has_handshake_keys (ctx self) then Handshake else Initial.

Definition pto_time_and_space (self : LossState) (now : Z) : option (Z * PnSpaceId) :=
  let duration := backed_off self (pto_base self) in
  if negb (has_ack_eliciting_in_flight self) then
    if peer_completed_address_validation self then None
    else Some (dur_add now duration, deadlock_space self)
  else pto_loop self duration all_spaces None.

(** The loop of [earliest_loss_time]. *)
Definition earlier_loss (self : LossState) (earliest : option (Z * PnSpaceId)) (space : PnSpaceId)
  : option (Z * PnSpaceId) :=
  match loss_time (per_space self space) with
  | None => earliest
  | Some t =>
      match earliest with
      | Some (prev, prev_space) => if prev <? t then Some (prev, prev_space) else Some (t, space)
      | None => Some (t, space)
      end
  end.

Definition earliest_loss_time (self : LossState) : option (Z * PnSpaceId) :=
  foldl (earlier_loss self) None all_spaces.

Definition next_loss_time (self : LossState) : option (Z * PnSpaceId) := earliest_loss_time self.

Definition set_loss_detection_timer (self : LossState) (now : Z) : LossState :=
  match earliest_loss_time self with
  | Some (t, _) => self <| loss_detection_timer := Some t |>
  | None =>
      if is_server (ctx self) && at_amplification_limit (ctx self) then self <| loss_detection_timer := None |>
      else if negb (has_ack_eliciting_in_flight self) && peer_completed_address_validation self
      then self <| loss_detection_timer := None |>
      else self <| loss_detection_timer := fst <$> pto_time_and_space self now |>
  end.

Definition on_packet_sent (self : LossState) (space : PnSpaceId) (pkt : SentPacket) : LossState :=
  let now := time_sent pkt in
  let ps := per_space self space in
  let ps := if ack_eliciting pkt then ps <| time_of_last_ack_eliciting_packet := Some now |> else ps in
  let ps := if in_flight pkt then ps <| sent_packets := bt_insert (sent_packets ps) (sp_pn pkt) pkt |> else ps in
  set_loss_detection_timer (set_space space ps self) now.

(** * The RTT estimator *)

Definition update_rtt (self : LossState) (latest ack_delay : Z) (space : PnSpaceId) (now : Z) : LossState :=
  let self := self <| latest_rtt := latest |> in
  let self := if latest <? min_rtt self then self <| min_rtt := latest |> else self in
  match first_rtt_sample self with
  | None =>
      self <| first_rtt_sample := Some now |> <| smoothed_rtt := latest |> <| rttvar := latest / 2 |>
  | Some _ =>
      let ack_delay := if decide (space = Application) then Z.min ack_delay (max_ack_delay self) else ack_delay in
      let adjusted_rtt := if dur_add (min_rtt self) ack_delay <=? latest then latest - ack_delay else latest in
      let diff := Z.abs (smoothed_rtt self - adjusted_rtt) in
      let rttvar_ns := wadd 64 (Z.min U64_MAX (nanos_u64 (rttvar self) * 3) / 4) (nanos_u64 diff / 4) in
      let smoothed_ns :=
        wadd 64 (Z.min U64_MAX (nanos_u64 (smoothed_rtt self) * 7) / 8) (nanos_u64 adjusted_rtt / 8) in
      self <| rttvar := rttvar_ns |> <| smoothed_rtt := smoothed_ns |>
  end.

Definition reset_rtt (self : LossState) : LossState :=
  self <| latest_rtt := 0 |> <| smoothed_rtt := K_INITIAL_RTT |> <| rttvar := K_INITIAL_RTT / 2 |>
       <| min_rtt := DURATION_MAX |> <| first_rtt_sample := None |> <| lost_history := [] |>
       <| persistent_congestion_declared := None |>.

(** * Persistent congestion: the records *)

Definition persistent_congestion_duration (self : LossState) : Z :=
  dur_mul (pto_period self) K_PERSISTENT_CONGESTION_THRESHOLD.

Definition prune_lost_history (self : LossState) (now : Z) : LossState :=
  let horizon := sat_sub now (dur_mul (persistent_congestion_duration self) 2) in
  let floor := match persistent_congestion_declared self with
               | Some declared => Z.max horizon declared
               | None => horizon
               end in
  self <| lost_history := filter (λ r, floor < lr_time_sent r) (lost_history self) |>.

(** [record_acked_send_time] on the spans. *)
Definition add_span (spans : list AckedSpan) (t : Z) : list AckedSpan :=
  match last spans with
  | Some span =>
      if span_last span <=? t then
        if t - span_last span <? K_GRANULARITY then
          <[(length spans - 1)%nat := mkAckedSpan (span_first span) t]> spans
        else spans ++ [mkAckedSpan t t]
      else
        let at_ := partition_point (λ s, span_last s <? t) spans in
        match spans !! at_ with
        | Some s => if t <? span_first s then vec_insert at_ (mkAckedSpan t t) spans else spans
        | None => spans
        end
  | None => spans ++ [mkAckedSpan t t]
  end.

Definition record_acked_send_time (self : LossState) (t : Z) : LossState :=
  self <| acked_send_times := add_span (acked_send_times self) t |>.

(** [.min()] over an iterator of durations. *)
Definition list_min (l : list Z) : option Z :=
  foldl (λ m t, match m with None => Some t | Some u => Some (Z.min u t) end) None l.

Definition prune_acked_send_times (self : LossState) : LossState :=
  let oldest := list_min
    (omap (λ space, (λ e, time_sent e.2) <$> head (sent_packets (per_space self space))) all_spaces
     ++ (lr_time_sent <$> lost_history self)) in
  match oldest with
  | Some t =>
      let stale := partition_point (λ s, span_last s <? t) (acked_send_times self) in
      self <| acked_send_times := drop stale (acked_send_times self) |>
  | None => self <| acked_send_times := [] |>
  end.

(** * Acknowledgement *)

(** [while let Some((&pn, _)) = sent_packets.range(lo..=hi).next() { .. remove .. }] *)
Fixpoint drain_range (fuel : nat) (m : list (Z * SentPacket)) (lo hi : Z) (acked : list SentPacket)
  : option (list (Z * SentPacket) * list SentPacket) :=
  match head (bt_range m lo (hi + 1)) with
  | None => Some (m, acked)
  | Some (pn, p) =>
      match fuel with
      | O => None
      | S fuel => drain_range fuel (bt_remove m pn) lo hi (acked ++ [p])
      end
  end.

(** The loop over the ranges; an empty range makes [BTreeMap::range] panic. *)
Fixpoint drain_ranges (m : list (Z * SentPacket)) (ranges : list pn_range) (acked : list SentPacket)
  : option (list (Z * SentPacket) * list SentPacket) :=
  match ranges with
  | [] => Some (m, acked)
  | (lo, hi) :: ranges =>
      if hi <? lo then None
      else '(m, acked) ← drain_range (length m) m lo hi acked; drain_ranges m ranges acked
  end.

Definition list_max (l : list Z) : option Z :=
  foldl (λ m t, match m with None => Some t | Some u => Some (Z.max u t) end) None l.

(** The RTT sample of an ACK frame. *)
Definition ack_rtt (self : LossState) (space : PnSpaceId) (newly_acked : list SentPacket)
  (frame_largest ack_delay now : Z) : LossState :=
  match time_sent <$> find (λ p, sp_pn p =? frame_largest) newly_acked with
  | Some t => if existsb ack_eliciting newly_acked then update_rtt self (sat_sub now t) ack_delay space now else self
  | None => self
  end.

(** The acknowledged send times remembered for the persistent-congestion test. *)
Definition ack_records (self : LossState) (newly_acked : list SentPacket) (now : Z) : LossState :=
  let self := prune_lost_history self now in
  let self := foldl (λ s p, record_acked_send_time s (time_sent p)) self newly_acked in
  prune_acked_send_times self.

(** Progress: the backoff and the probes owed. *)
Definition ack_progress (self : LossState) (space : PnSpaceId) (newly_acked : list SentPacket) : LossState :=
  if negb (is_nil newly_acked) then
    let self := if decide (space = Handshake) then self <| ctx := (ctx self) <| peer_handshake_acked := true |> |>
                else self in
    let self := if peer_completed_address_validation self then self <| pto_count := 0 |> else self in
    clear_probe self
  else self.

(** The state and the packets newly acknowledged; [None] is a panic. *)
Definition on_ack_received (self : LossState) (space : PnSpaceId) (acked_ranges : list pn_range)
  (ack_delay now : Z) : option (LossState * list SentPacket) :=
  match list_max (snd <$> acked_ranges) with
  | None => Some (self, [])
  | Some frame_largest =>
      let ps := per_space self space in
      '(m, newly_acked) ← drain_ranges (sent_packets ps) acked_ranges [];
      let ps := ps <| sent_packets := m |> in
      let ps := ps <| largest_acked_packet :=
                  Some (match largest_acked_packet ps with Some v => Z.max v frame_largest | None => frame_largest end) |> in
      let self := set_space space ps self in
      let self := ack_rtt self space newly_acked frame_largest ack_delay now in
      let self := ack_records self newly_acked now in
      let self := ack_progress self space newly_acked in
      Some (set_loss_detection_timer self now, newly_acked)
  end.

(** * Loss detection *)

Definition loss_delay (self : LossState) : Z :=
  let max_rtt := Z.max (smoothed_rtt self) (latest_rtt self) in
  Z.max (Z.min U64_MAX (nanos_u64 max_rtt * 9) / 8) K_GRANULARITY.

(** The walk over the packets up to [largest_acked] from [cursor] on: what is left of
    the table, the packets lost and the next deadline.  [None] is the panic of
    [BTreeMap::range] on a range that ends before it starts, or no fuel. *)
Fixpoint detect_loop (fuel : nat) (m : list (Z * SentPacket)) (largest_acked lost_send_time delay cursor : Z)
  (lost : list SentPacket) (deadline : option Z) : option (list (Z * SentPacket) * list SentPacket * option Z) :=
  if largest_acked <? cursor then None
  else
    match head (bt_range m cursor (largest_acked + 1)) with
    | None => Some (m, lost, deadline)
    | Some (pn, p) =>
        match fuel with
        | O => None
        | S fuel =>
            if pn =? U64_MAX then Some (m, lost, deadline)
            else
              let cursor := pn + 1 in
              if (K_PACKET_THRESHOLD <=? sat_sub largest_acked pn) || (time_sent p <=? lost_send_time) then
                detect_loop fuel (bt_remove m pn) largest_acked lost_send_time delay cursor (lost ++ [p]) deadline
              else
                let cand := dur_add (time_sent p) delay in
                detect_loop fuel m largest_acked lost_send_time delay cursor lost
                  (Some (match deadline with Some t => Z.min t cand | None => cand end))
        end
    end.

Definition detect_lost (self : LossState) (space : PnSpaceId) (now : Z) : option (LossState * list SentPacket) :=
  let ps := per_space self space in
  match largest_acked_packet ps with
  | None => Some (self, [])
  | Some largest_acked =>
      let lost_send_time := sat_sub now (loss_delay self) in
      '(m, lost, deadline) ←
        detect_loop (length (sent_packets ps)) (sent_packets ps) largest_acked lost_send_time (loss_delay self) 0 [] None;
      let ps := ps <| sent_packets := m |> <| loss_time := deadline |> in
      Some (set_loss_detection_timer (set_space space ps self) now, lost)
  end.

(** * Timeout and discarding *)

(** The probe timeout fires for a space. *)
Definition fire_pto (self : LossState) (space : PnSpaceId) (now : Z) : LossState * option TimeoutAction :=
  let self := self <| pto_count := Z.min (sat_add 32 (pto_count self) 1) PTO_BACKOFF_CAP |> in
  (set_loss_detection_timer (arm_probe self space) now, Some (Pto space)).

(** What the timer expired for when it was not a loss deadline. *)
Definition probe_timeout (self : LossState) (now : Z) : LossState * option TimeoutAction :=
  if negb (has_ack_eliciting_in_flight self) then
    if peer_completed_address_validation self then (set_loss_detection_timer self now, None)
    else fire_pto self (deadlock_space self) now
  else
    match pto_time_and_space self now with
    | Some (_, space) => fire_pto self space now
    | None => (set_loss_detection_timer self now, None)
    end.

Definition on_loss_detection_timeout (self : LossState) (now : Z) : LossState * option TimeoutAction :=
  match loss_detection_timer self with
  | None => (self, None)
  | Some deadline =>
      if now <? deadline then (self, None)
      else
        match earliest_loss_time self with
        | Some (t, space) => if t <=? now then (self, Some (DetectLoss space)) else probe_timeout self now
        | None => probe_timeout self now
        end
  end.

Definition oldest_ack_eliciting (self : LossState) (space : PnSpaceId) (n : nat) : list SentPacket :=
  take n (filter (λ p, ack_eliciting p = true) (snd <$> sent_packets (per_space self space))).

Definition discard_keys (self : LossState) (space : PnSpaceId) (now : Z) : LossState * list SentPacket :=
  let drained := snd <$> sent_packets (per_space self space) in
  let self := set_space space per_space_default self in
  let self := self <| pto_count := 0 |> in
  let self := if decide (probe_space self = Some space) then clear_probe self else self in
  let self := self <| lost_history := filter (λ r, lr_space r ≠ space) (lost_history self) |> in
  let self := prune_acked_send_times self in
  (set_loss_detection_timer self now, drained).

(** * Persistent congestion: the test *)

(** The fold over the candidate edges. *)
Definition edge_bounds (edges : list Z) : Z * Z :=
  foldl (λ b t, (Z.min b.1 t, Z.max b.2 t)) (DURATION_MAX, 0) edges.

(** The gap check over the acknowledged spans: whether a gap fits, and the cursor. *)
Fixpoint gap_loop (spans : list AckedSpan) (latest duration cursor : Z) : bool * Z :=
  match spans with
  | [] => (false, cursor)
  | span :: spans =>
      if span_last span <? cursor then gap_loop spans latest duration cursor
      else if duration <=? sat_sub (Z.min (span_first span) latest) cursor then (true, cursor)
      else gap_loop spans latest duration (Z.max cursor (span_last span))
  end.

(** The send times in flight in a space, in order. *)
Definition outstanding (ps : PerSpace) : list Z :=
  let v := (λ e, time_sent e.2) <$> sent_packets ps in
  if bool_decide (Sorted Z.le v) then v else merge_sort Z.le v.

Definition progress_between (acked : list AckedSpan) (outs : list (list Z)) (lo hi : Z) : bool :=
  match acked !! partition_point (λ s, span_last s <? lo) acked with
  | Some s => span_first s <=? hi
  | None => false
  end
  || existsb (λ o, (partition_point (λ t, (t <=? lo)%Z) o <? partition_point (λ t, (t <? hi)%Z) o)%nat) outs.

(** The walk over the losses in send order. *)
Fixpoint run_loop (progress : Z → Z → bool) (duration : Z) (losses : list (Z * bool)) (run_start prev : option Z) : bool :=
  match losses with
  | [] => false
  | (t, elicit) :: losses =>
      let run_start := match prev with Some p => if progress p t then None else run_start | None => run_start end in
      let prev := Some t in
      if negb elicit then run_loop progress duration losses run_start prev
      else
        match run_start with
        | None => run_loop progress duration losses (Some t) prev
        | Some start =>
            if duration <=? sat_sub t start then true else run_loop progress duration losses run_start prev
        end
  end.

(** Losses by send time, and whether they were ack-eliciting: the history, then the batch. *)
Definition all_losses (self : LossState) (lost : list SentPacket) : list (Z * bool) :=
  ((λ r, (lr_time_sent r, lr_ack_eliciting r)) <$> lost_history self)
  ++ ((λ p, (time_sent p, ack_eliciting p)) <$> lost).

Definition time_le (a b : Z * bool) : Prop := a.1 ≤ b.1.
#[global] Instance time_le_dec : RelDecision time_le.
Proof. intros a b. unfold time_le. apply _. Defined.

(** The times after which losses count. *)
Definition loss_floor (self : LossState) (first_sample : Z) : Z :=
  match persistent_congestion_declared self with
  | Some declared => Z.max first_sample declared
  | None => first_sample
  end.

Definition in_persistent_congestion (self : LossState) (lost : list SentPacket) : bool :=
  match first_rtt_sample self with
  | None => false
  | Some first_sample =>
      let floor := loss_floor self first_sample in
      let duration := persistent_congestion_duration self in
      let edges := filter (λ t, floor < t) (fst <$> filter (λ l, l.2 = true) (all_losses self lost)) in
      let '(earliest, latest) := edge_bounds edges in
      if (latest <? earliest) || (sat_sub latest earliest <? duration) then false
      else
        let '(gap_fits, cursor) := gap_loop (acked_send_times self) latest duration earliest in
        if negb gap_fits && (sat_sub latest cursor <? duration) then false
        else
          let losses := merge_sort time_le (filter (λ l, floor < l.1) (all_losses self lost)) in
          let outs := (λ space, outstanding (per_space self space)) <$> all_spaces in
          run_loop (progress_between (acked_send_times self) outs) duration losses None None
  end.

Definition record_lost_batch (self : LossState) (space : PnSpaceId) (lost : list SentPacket) (now : Z)
  : LossState * bool :=
  let self := prune_lost_history self now in
  let established := in_persistent_congestion self lost in
  if established then
    (self <| lost_history := [] |> <| persistent_congestion_declared := Some now |>, true)
  else
    let self := self <| lost_history :=
      lost_history self ++ ((λ p, mkLostRecord (time_sent p) space (ack_eliciting p)) <$> lost) |> in
    (prune_lost_history self now, false).

(** * Retransmit hints *)

Record CryptoHint := mkCryptoHint { ch_level : Z; ch_offset : Z; ch_length : Z }.

Definition put_hint (out : bytes) (h : CryptoHint) : bytes :=
  varint_encode (ch_length h) (varint_encode (ch_offset h) (out ++ [ch_level h])).

Definition build_retransmit_hint (hints : list CryptoHint) : bytes :=
  foldl put_hint (varint_encode (zlen hints) []) hints.

(** [for _ in 0..count]; the count is a number the loop itself wrote. *)
Fixpoint parse_hints (count : nat) (buf : bytes) (p : Z) (out : list CryptoHint) : tls_result (list CryptoHint) :=
  match count with
  | O => Ok out
  | S count =>
      match buf !! Z.to_nat p with
      | None => Err Error.Decode
      | Some level =>
          let p := p + 1 in
          '(offset, n) ← varint_decode (zdrop p buf);
          let p := p + n in
          '(length, n) ← varint_decode (zdrop p buf);
          let p := p + n in
          parse_hints count buf p (out ++ [mkCryptoHint level offset length])
      end
  end.

Definition parse_retransmit_hint (buf : bytes) : tls_result (list CryptoHint) :=
  '(count, n) ← varint_decode buf;
  parse_hints (Z.to_nat count) buf n [].
