(* ===== verification/LossSpec.v ===== *)
(** Loss recovery: acknowledgement and loss detection remove exactly the packets they
    should, no loop of the detector panics or runs out of fuel, and the timer is armed
    whenever something may have to be sent again. *)

From S2P Require Import Prelude TlsBase Varint Pn BTree SendStream Streams Congestion Loss.

(** * Removing the packets of a range *)

Lemma filter_head_split {V} (P : Z * V → Prop) `{∀ x, Decision (P x)} (m : list (Z * V)) (x : Z * V) :
  bt_sorted m → head (filter P m) = Some x → filter P m = x :: filter P (bt_remove m x.1).
Proof.
  intros Hs Hh. pose proof (filter_sorted P m Hs) as Hf. unfold bt_remove.
  rewrite list_filter_filter. rewrite (list_filter_iff (λ e, P e ∧ e.1 ≠ x.1) (λ e, e.1 ≠ x.1 ∧ P e)) by (intros; tauto).
  rewrite <- list_filter_filter. destruct (filter P m) as [|y l]; [done|]. injection Hh as ->.
  apply bt_sorted_cons in Hf as [Hlt _]. rewrite filter_cons_False by tauto. f_equal. symmetry.
  apply filter_all, Forall_impl with (1 := Hlt). unfold key_lt. intros y Hy. lia.
Qed.

Definition in_range (r : pn_range) (e : Z * SentPacket) : Prop := r.1 ≤ e.1 ≤ r.2.
#[global] Instance in_range_dec r e : Decision (in_range r e).
Proof. unfold in_range. apply _. Defined.

Lemma bt_range_in_range m lo hi : bt_range m lo (hi + 1) = filter (in_range (lo, hi)) m.
Proof. unfold bt_range. apply list_filter_iff. intros e. unfold in_range. simpl. lia. Qed.

Lemma bt_remove_shorter {V} (m : list (Z * V)) x : x ∈ m → (length (bt_remove m x.1) < length m)%nat.
Proof. intros Hx. apply (length_filter_lt _ _ x); [done|]. naive_solver. Qed.

Lemma drain_range_spec fuel : ∀ m lo hi acked, bt_sorted m → (length m ≤ fuel)%nat →
  drain_range fuel m lo hi acked
  = Some (filter (λ e, ¬ in_range (lo, hi) e) m, acked ++ (filter (in_range (lo, hi)) m).*2).
Proof.
  induction fuel as [|fuel IH]; intros m lo hi acked Hs Hf; cbn [drain_range]; rewrite bt_range_in_range.
  { assert (m = []) as -> by (destruct m; [done|simpl in Hf; lia]). simpl. by rewrite app_nil_r. }
  destruct (head (filter (in_range (lo, hi)) m)) as [[pn p]|] eqn:Hh.
  - pose proof (filter_head_split _ m _ Hs Hh) as Hsp. simpl in Hsp.
    pose proof (head_filter_elem _ _ _ Hh) as [Hin Hr].
    rewrite IH; [|by apply bt_remove_sorted|pose proof (bt_remove_shorter m (pn, p) Hin); simpl in *; lia].
    rewrite Hsp, fmap_cons, <- app_assoc. do 2 f_equal.
    unfold bt_remove. rewrite list_filter_filter. apply list_filter_iff. intros e. unfold in_range in *. simpl in *. lia.
  - assert (∀ e, e ∈ m → ¬ in_range (lo, hi) e) as Hn by (intros e; exact (head_filter_none _ _ e Hh)).
    rewrite (filter_none (in_range (lo, hi))) by (by apply Forall_forall).
    rewrite filter_all by (by apply Forall_forall). by rewrite app_nil_r.
Qed.

(** In one of the ranges of an ACK frame. *)
Definition in_ranges (rs : list pn_range) (e : Z * SentPacket) : Prop := Exists (λ r, in_range r e) rs.
#[global] Instance in_ranges_dec rs e : Decision (in_ranges rs e).
Proof. unfold in_ranges. apply _. Defined.

Lemma filter_or_perm {A} (P Q R : A → Prop) `{∀ x, Decision (P x)} `{∀ x, Decision (Q x)} `{∀ x, Decision (R x)}
  (l : list A) : (∀ x, R x ↔ P x ∨ Q x) → filter P l ++ filter Q (filter (λ x, ¬ P x) l) ≡ₚ filter R l.
Proof.
  intros HR. induction l as [|x l IH]; [done|]. rewrite !filter_cons. pose proof (HR x).
  destruct (decide (P x)), (decide (R x)), (decide (¬ P x)); try tauto; [simpl; by rewrite IH|..]; rewrite filter_cons;
    destruct (decide (Q x)); try tauto. rewrite <- Permutation_middle. by rewrite IH.
Qed.

Lemma drain_ranges_spec rs : ∀ m acked, bt_sorted m → Forall (λ r : pn_range, r.1 ≤ r.2) rs →
  ∃ acked', drain_ranges m rs acked = Some (filter (λ e, ¬ in_ranges rs e) m, acked ++ acked')
    ∧ acked' ≡ₚ (filter (in_ranges rs) m).*2.
Proof.
  induction rs as [|[lo hi] rs IH]; intros m acked Hs Hr; cbn [drain_ranges].
  { exists []. rewrite app_nil_r. rewrite filter_all, filter_none; [done|..]; apply Forall_forall; intros e _ He;
      by apply Exists_nil in He. }
  apply Forall_cons in Hr as [Hle Hr]. simpl in Hle. destruct (Z.ltb_spec hi lo); [lia|].
  rewrite drain_range_spec by done. cbn [mbind option_bind].
  destruct (IH (filter (λ e, ¬ in_range (lo, hi) e) m) (acked ++ (filter (in_range (lo, hi)) m).*2)) as (a' & -> & Ha');
    [by apply filter_sorted|done|].
  exists ((filter (in_range (lo, hi)) m).*2 ++ a'). rewrite <- app_assoc. split.
  - do 2 f_equal. rewrite list_filter_filter. apply list_filter_iff. intros e. unfold in_ranges.
    rewrite Exists_cons. tauto.
  - rewrite Ha', <- fmap_app. apply fmap_Permutation, filter_or_perm. intros e. unfold in_ranges. apply Exists_cons.
Qed.

(** * Loss detection *)

Section detect.
Variables (la lst delay : Z).

(** The two loss rules. *)
Definition is_lost (e : Z * SentPacket) : Prop := K_PACKET_THRESHOLD ≤ sat_sub la e.1 ∨ time_sent e.2 ≤ lst.
#[global] Instance is_lost_dec e : Decision (is_lost e).
Proof. unfold is_lost. apply _. Defined.

Definition min_step (d : option Z) (e : Z * SentPacket) : option Z :=
  let cand := dur_add (time_sent e.2) delay in
  Some (match d with Some t => Z.min t cand | None => cand end).

Lemma bt_range_next {V} (m : list (Z * V)) lo hi pn v : bt_sorted m → head (bt_range m lo hi) = Some (pn, v) →
  bt_range m lo hi = (pn, v) :: bt_range m (pn + 1) hi
  ∧ bt_range (bt_remove m pn) (pn + 1) hi = bt_range m (pn + 1) hi.
Proof.
  intros Hs Hh. unfold bt_range in *. split.
  - pose proof (filter_head_split _ m _ Hs Hh) as Hsp. simpl in Hsp. rewrite Hsp. f_equal. unfold bt_remove.
    rewrite list_filter_filter. pose proof (head_filter_elem _ _ _ Hh) as [_ Hr]. simpl in Hr.
    apply filter_ext_in. intros e He.
    assert (e.1 < pn → ¬ lo ≤ e.1 < hi) as Hno.
    { intros Hlt Hin. assert (e ∈ (pn, v) :: filter (λ e, lo ≤ e.1 < hi) (bt_remove m pn)) as Hel
        by (rewrite <- Hsp; by apply list_elem_of_filter).
      pose proof (filter_sorted (λ e, lo ≤ e.1 < hi) m Hs) as Hfs. rewrite Hsp in Hfs.
      apply bt_sorted_cons in Hfs as [Hall _]. rewrite Forall_forall in Hall.
      apply elem_of_cons in Hel as [->|Hel]; [simpl in Hlt; lia|]. specialize (Hall _ Hel). unfold key_lt in Hall.
      simpl in Hall. lia. }
    lia.
  - unfold bt_remove. rewrite list_filter_filter. apply list_filter_iff. intros e. lia.
Qed.

Lemma detect_loop_spec w : ∀ fuel m cursor lost dl, bt_range m cursor (la + 1) = w → bt_sorted m →
  cursor ≤ la → (length w ≤ fuel)%nat → (∀ e, e ∈ w → e.1 < la ∧ e.1 < U64_MAX) →
  detect_loop fuel m la lst delay cursor lost dl
  = Some (filter (λ e, ¬ (cursor ≤ e.1 ≤ la ∧ is_lost e)) m, lost ++ (filter is_lost w).*2,
          foldl min_step dl (filter (λ e, ¬ is_lost e) w)).
Proof.
  induction w as [|[pn p] w IH]; intros fuel m cursor lost dl Hw Hs Hc Hf Hk.
  - assert (filter (λ e, ¬ (cursor ≤ e.1 ≤ la ∧ is_lost e)) m = m) as ->.
    { apply filter_all, Forall_forall. intros e He [Hr _].
      assert (e ∈ bt_range m cursor (la + 1)) as Hin by (apply list_elem_of_filter; split; [lia|done]).
      rewrite Hw in Hin. by apply elem_of_nil in Hin. }
    destruct fuel; cbn [detect_loop]; rewrite Hw; (destruct (Z.ltb_spec la cursor); [lia|]); simpl; by rewrite app_nil_r.
  - destruct fuel as [|fuel]; [simpl in Hf; lia|]. cbn [detect_loop]. destruct (Z.ltb_spec la cursor); [lia|].
    destruct (bt_range_next m cursor (la + 1) pn p Hs) as [Hn1 Hn2]; [by rewrite Hw|].
    rewrite Hw in Hn1. injection Hn1 as Hn1. rewrite Hw. cbn [head].
    destruct (Hk (pn, p)) as [Hpn Hmax]; [by left|]. simpl in Hpn, Hmax.
    destruct (Z.eqb_spec pn U64_MAX); [lia|]. cbv zeta.
    assert (cursor ≤ pn) as Hcp.
    { assert ((pn, p) ∈ bt_range m cursor (la + 1)) as Hin by (rewrite Hw; by left).
      apply list_elem_of_filter in Hin as [? _]. simpl in *. lia. }
    assert (∀ e, e ∈ m → cursor ≤ e.1 → e.1 ≤ la → e = (pn, p) ∨ pn + 1 ≤ e.1) as Hel.
    { intros e He H1 H2. assert (e ∈ bt_range m cursor (la + 1)) as Hin by (apply list_elem_of_filter; split; [lia|done]).
      rewrite Hw in Hin. apply elem_of_cons in Hin as [->|Hin]; [by left|right]. rewrite Hn1 in Hin.
      apply list_elem_of_filter in Hin. lia. }
    destruct (decide (is_lost (pn, p))) as [Hl|Hl].
    + assert ((K_PACKET_THRESHOLD <=? sat_sub la pn) || (time_sent p <=? lst) = true) as ->.
      { apply orb_true_iff. destruct Hl; [left|right]; by apply Z.leb_le. }
      rewrite (IH fuel (bt_remove m pn) (pn + 1)); [|by rewrite Hn2|by apply bt_remove_sorted|lia|simpl in Hf; lia|].
      2: { intros e He. apply Hk. by right. }
      rewrite !filter_cons, (decide_True (P := is_lost (pn, p))) by done.
      rewrite (decide_False (P := ¬ is_lost (pn, p))) by tauto. rewrite fmap_cons, <- app_assoc. do 3 f_equal.
      unfold bt_remove. rewrite list_filter_filter. apply filter_ext_in. intros e He. specialize (Hel e He).
      split; [intros [H1 H2] [H3 H4]; destruct (Hel ltac:(lia) ltac:(lia)) as [->|?]; [simpl in H2; lia|apply H1; split; [lia|done]]|].
      intros H1. split; [intros [H2 H3]; apply H1; split; [lia|done]|].
      intros Heq. apply H1. split; [lia|]. destruct (Hel ltac:(lia) ltac:(lia)) as [->|?]; [done|lia].
    + assert ((K_PACKET_THRESHOLD <=? sat_sub la pn) || (time_sent p <=? lst) = false) as ->.
      { apply orb_false_iff. split; apply Z.leb_gt; apply Z.nle_gt; intros ?; apply Hl; [by left|by right]. }
      rewrite (IH fuel m (pn + 1)); [|done|done|lia|simpl in Hf; lia|]; [|intros e He; apply Hk; by right].
      rewrite !filter_cons, (decide_False (P := is_lost (pn, p))) by done.
      rewrite (decide_True (P := ¬ is_lost (pn, p))) by tauto. cbn [foldl]. do 3 f_equal.
      apply filter_ext_in. intros e He. specialize (Hel e He).
      split; intros H1 [H2 H3]; [|apply H1; split; [lia|done]].
      destruct (Hel ltac:(lia) ltac:(lia)) as [->|?]; [done|]. apply H1. split; [lia|done].
Qed.
End detect.

(** * Invariant *)

(** The packets of one space, all numbered below [next]. *)
Record space_inv (next : Z) (ps : PerSpace) : Prop := {
  si_sorted : bt_sorted (sent_packets ps);
  si_packet : ∀ e, e ∈ sent_packets ps →
    sp_pn e.2 = e.1 ∧ 0 ≤ e.1 < next ∧ in_flight e.2 = true ∧ 0 ≤ sent_bytes e.2;
  si_largest : ∀ la, largest_acked_packet ps = Some la → 0 ≤ la < next ∧ ∀ e, e ∈ sent_packets ps → e.1 ≠ la;
  si_anchor : eliciting ps = true → is_Some (time_of_last_ack_eliciting_packet ps) }.

Definition loss_inv (next : PnSpaceId → Z) (s : LossState) : Prop :=
  ∀ space, space_inv (next space) (per_space s space) ∧ next space ≤ 2 ^ 62.

Lemma set_space_same sp ps s : per_space (set_space sp ps s) sp = ps.
Proof. unfold set_space. cbn. by rewrite decide_True. Qed.

Lemma set_space_other sp ps s sp' : sp' ≠ sp → per_space (set_space sp ps s) sp' = per_space s sp'.
Proof. intros. unfold set_space. cbn. by rewrite decide_False. Qed.

Lemma timer_keeps s now : per_space (set_loss_detection_timer s now) = per_space s.
Proof. unfold set_loss_detection_timer. by repeat case_match. Qed.

Lemma loss_inv_set next s sp ps : loss_inv next s → space_inv (next sp) ps → loss_inv next (set_space sp ps s).
Proof.
  intros Hi Hp sp'. destruct (Hi sp') as [H1 H2]. split; [|done]. destruct (decide (sp' = sp)) as [->|Hne].
  - by rewrite set_space_same.
  - by rewrite set_space_other.
Qed.

Lemma loss_inv_spaces next s s' : (∀ sp, per_space s' sp = per_space s sp) → loss_inv next s → loss_inv next s'.
Proof. intros E Hi sp. rewrite E. apply Hi. Qed.

Lemma eliciting_filter P `{∀ e, Decision (P e)} m a b c :
  existsb (λ e, ack_eliciting e.2) (filter P m) = true →
  eliciting (mkPerSpace m a b c) = true.
Proof.
  unfold eliciting. simpl. rewrite !existsb_exists. intros (e & He & Hx). exists e. split; [|done].
  rewrite <- list_elem_of_In in *. by apply list_elem_of_filter in He as [_ He].
Qed.

Lemma space_inv_filter next ps P `{∀ e, Decision (P e)} lt : space_inv next ps →
  space_inv next (mkPerSpace (filter P (sent_packets ps)) (largest_acked_packet ps) lt
                    (time_of_last_ack_eliciting_packet ps)).
Proof.
  intros [H1 H2 H3 H4]. split; simpl.
  - by apply filter_sorted.
  - intros e [_ He]%list_elem_of_filter. by apply H2.
  - intros la Hla. destruct (H3 la Hla) as [? Hn]. split; [done|]. intros e [_ He]%list_elem_of_filter. by apply Hn.
  - intros He. apply H4. destruct ps. simpl in *. by eapply eliciting_filter.
Qed.

Lemma space_inv_largest next ps la : space_inv next ps → 0 ≤ la < next → (∀ e, e ∈ sent_packets ps → e.1 ≠ la) →
  space_inv next (ps <| largest_acked_packet := Some la |>).
Proof. intros [H1 H2 H3 H4] Hla Hn. split; try done. intros la' [= <-]. done. Qed.

Lemma space_inv_default next : space_inv next per_space_default.
Proof. split; simpl; try done; [constructor|by intros e ?%elem_of_nil]. Qed.

(** * Acknowledgement *)

Lemma list_max_spec l : match list_max l with
  | None => l = []
  | Some m => m ∈ l ∧ ∀ x, x ∈ l → x ≤ m
  end.
Proof.
  unfold list_max. destruct l as [|x l]; [done|]. cbn [foldl].
  assert (∀ l u, match foldl (λ m t, match m with None => Some t | Some u => Some (Z.max u t) end) (Some u) l with
    | None => False | Some m => (m = u ∨ m ∈ l) ∧ u ≤ m ∧ ∀ x, x ∈ l → x ≤ m end) as Hf.
  { clear. induction l as [|y l IH]; intros u; cbn [foldl]; [split; [by left|]; split; [lia|]; by intros x ?%elem_of_nil|].
    specialize (IH (Z.max u y)). destruct (foldl _ _ l) as [m|]; [|done]. destruct IH as (H1 & H2 & H3).
    split; [|split; [lia|intros x [->|Hx]%elem_of_cons; [lia|by apply H3]]].
    destruct H1 as [->|H1]; [|right; by right]. destruct (Z.max_spec u y) as [[_ ->]|[_ ->]]; [right; by left|by left]. }
  specialize (Hf l x). destruct (foldl _ _ l) as [m|]; [|done]. destruct Hf as (H1 & H2 & H3).
  split; [destruct H1 as [->|]; [by left|by right]|]. intros y [->|Hy]%elem_of_cons; [done|by apply H3].
Qed.

Lemma prune_acked_spaces s : per_space (prune_acked_send_times s) = per_space s.
Proof. unfold prune_acked_send_times. by case_match. Qed.

Lemma update_rtt_spaces s a b c d : per_space (update_rtt s a b c d) = per_space s.
Proof. unfold update_rtt. cbv zeta. destruct (a <? _); cbn; by destruct (first_rtt_sample s). Qed.

Lemma ack_rtt_spaces s sp acked la delay now : per_space (ack_rtt s sp acked la delay now) = per_space s.
Proof. unfold ack_rtt. destruct (_ <$> _); [|done]. destruct (existsb _ _); [|done]. apply update_rtt_spaces. Qed.

Lemma ack_records_spaces s acked now : per_space (ack_records s acked now) = per_space s.
Proof.
  unfold ack_records. cbv zeta. rewrite prune_acked_spaces.
  change (per_space s) with (per_space (prune_lost_history s now)). generalize (prune_lost_history s now).
  induction acked as [|p l IH]; intros s0; [done|]. cbn [foldl]. by rewrite IH.
Qed.

Lemma ack_progress_spaces s sp acked : per_space (ack_progress s sp acked) = per_space s.
Proof.
  unfold ack_progress. destruct (is_nil acked); [done|]. cbn [negb]. cbv zeta.
  destruct (decide (sp = Handshake)); by destruct (peer_completed_address_validation _).
Qed.

(** What an ACK frame does to the spaces. *)
Lemma on_ack_received_spaces s sp ranges delay now la m acked : list_max (snd <$> ranges) = Some la →
  drain_ranges (sent_packets (per_space s sp)) ranges [] = Some (m, acked) →
  ∃ s', on_ack_received s sp ranges delay now = Some (s', acked)
    ∧ (let ps := per_space s sp in
       per_space s' sp = mkPerSpace m
         (Some (match largest_acked_packet ps with Some v => Z.max v la | None => la end))
         (loss_time ps) (time_of_last_ack_eliciting_packet ps))
    ∧ ∀ sp', sp' ≠ sp → per_space s' sp' = per_space s sp'.
Proof.
  intros Hm Hd. unfold on_ack_received. rewrite Hm, Hd. cbn [mbind option_bind]. cbv zeta. eexists. split; [done|].
  rewrite timer_keeps, ack_progress_spaces, ack_records_spaces, ack_rtt_spaces. split.
  - by rewrite set_space_same.
  - intros sp' Hne. by rewrite set_space_other.
Qed.

(** What the ranges of an ACK frame may be: not empty, and of packets that were sent. *)
Definition ranges_sent (next : Z) (ranges : list pn_range) : Prop :=
  ranges ≠ [] ∧ Forall (λ r : pn_range, 0 ≤ r.1 ≤ r.2 ∧ r.2 < next) ranges.

Lemma on_ack_received_spec next s sp ranges delay now : loss_inv next s → ranges_sent (next sp) ranges →
  ∃ s' acked, on_ack_received s sp ranges delay now = Some (s', acked) ∧ loss_inv next s'
    ∧ acked ≡ₚ (filter (in_ranges ranges) (sent_packets (per_space s sp))).*2
    ∧ sent_packets (per_space s' sp) = filter (λ e, ¬ in_ranges ranges e) (sent_packets (per_space s sp))
    ∧ is_Some (largest_acked_packet (per_space s' sp))
    ∧ ∀ sp', sp' ≠ sp → per_space s' sp' = per_space s sp'.
Proof.
  intros Hi [Hne Hr]. destruct (Hi sp) as [Hsp _].
  destruct (drain_ranges_spec ranges (sent_packets (per_space s sp)) []) as (acked & Hd & Hperm); [apply Hsp| |].
  { eapply Forall_impl; [exact Hr|]. simpl. lia. }
  pose proof (list_max_spec (snd <$> ranges)) as Hm. destruct (list_max (snd <$> ranges)) as [la|] eqn:El.
  2: { by apply fmap_nil_inv in Hm. }
  destruct Hm as [Hin _]. apply list_elem_of_fmap in Hin as ([lo hi] & -> & Hin). simpl in El.
  destruct (on_ack_received_spaces s sp ranges delay now hi _ _ El Hd) as (s' & Hs' & Hps & Hother).
  rewrite Forall_forall in Hr. pose proof (Hr _ Hin) as Hlh. simpl in Hlh.
  exists s', acked. split; [exact Hs'|]. split; [|split; [done|split; [by rewrite Hps|split; [by rewrite Hps; eexists|done]]]].
  intros sp'. split; [|apply Hi]. destruct (decide (sp' = sp)) as [->|Hne']; [|rewrite Hother by done; apply Hi].
  rewrite Hps.
  pose proof (space_inv_filter _ _ (λ e, ¬ in_ranges ranges e) (loss_time (per_space s sp)) Hsp) as Hf.
  apply (space_inv_largest _ _ (match largest_acked_packet (per_space s sp) with Some v => Z.max v hi | None => hi end)) in Hf;
    [exact Hf|..].
  - destruct (largest_acked_packet _) as [v|] eqn:Ev; [|lia]. destruct (si_largest _ _ Hsp v Ev). lia.
  - intros e [Hout He]%list_elem_of_filter Heq. destruct (largest_acked_packet _) as [v|] eqn:Ev.
    + destruct (Z.max_spec v hi) as [[? E]|[? E]]; rewrite E in Heq.
      * apply Hout, Exists_exists. exists (lo, hi). split; [done|]. unfold in_range. simpl. lia.
      * destruct (si_largest _ _ Hsp v Ev) as [_ Hnv]. by apply (Hnv e He).
    + apply Hout, Exists_exists. exists (lo, hi). split; [done|]. unfold in_range. simpl. lia.
Qed.

(** * Loss detection on the state *)

(** The packets the detector declares lost at [now]. *)
Definition declared_lost (s : LossState) (now la : Z) (e : Z * SentPacket) : Prop :=
  e.1 ≤ la ∧ is_lost la (sat_sub now (loss_delay s)) e.
#[global] Instance declared_lost_dec s now la e : Decision (declared_lost s now la e).
Proof. unfold declared_lost. apply _. Defined.

(** The deadline kept for the packets that are not lost yet. *)
Definition deadline_of (s : LossState) (ps : list (Z * SentPacket)) (la : Z) (d : option Z) : Prop :=
  match d with
  | None => ∀ e, e ∈ ps → la < e.1
  | Some t => (∃ e, e ∈ ps ∧ e.1 ≤ la ∧ t = dur_add (time_sent e.2) (loss_delay s))
              ∧ ∀ e, e ∈ ps → e.1 ≤ la → t ≤ dur_add (time_sent e.2) (loss_delay s)
  end.

Lemma fold_min_spec delay l : match foldl (min_step delay) None l with
  | None => l = []
  | Some t => (∃ e, e ∈ l ∧ t = dur_add (time_sent e.2) delay) ∧ ∀ e, e ∈ l → t ≤ dur_add (time_sent e.2) delay
  end.
Proof.
  induction l as [|x l IH] using rev_ind; [done|]. rewrite foldl_app. cbn [foldl]. unfold min_step at 1.
  destruct (foldl _ None l) as [t|].
  - destruct IH as [(e & He & ->) Hle]. split.
    + destruct (Z.min_spec (dur_add (time_sent e.2) delay) (dur_add (time_sent x.2) delay)) as [[_ ->]|[_ ->]];
        [exists e|exists x]; set_solver.
    + intros y [Hy| ->%list_elem_of_singleton]%elem_of_app; [specialize (Hle y Hy); lia|lia].
  - subst l. split; [exists x; set_solver|]. intros y ->%list_elem_of_singleton. lia.
Qed.

Lemma detect_lost_spec next s sp now : loss_inv next s →
  ∃ s' lost, detect_lost s sp now = Some (s', lost) ∧ loss_inv next s'
    ∧ (∀ sp', sp' ≠ sp → per_space s' sp' = per_space s sp')
    ∧ largest_acked_packet (per_space s' sp) = largest_acked_packet (per_space s sp)
    ∧ match largest_acked_packet (per_space s sp) with
      | None => lost = [] ∧ per_space s' sp = per_space s sp
      | Some la =>
          lost = (filter (declared_lost s now la) (sent_packets (per_space s sp))).*2
          ∧ sent_packets (per_space s' sp) = filter (λ e, ¬ declared_lost s now la e) (sent_packets (per_space s sp))
          ∧ deadline_of s (sent_packets (per_space s' sp)) la (loss_time (per_space s' sp))
      end.
Proof.
  intros Hi. destruct (Hi sp) as [Hsp Hmax]. unfold detect_lost.
  destruct (largest_acked_packet (per_space s sp)) as [la|] eqn:Ela.
  2: { exists s, []. by split_and!. }
  destruct (si_largest _ _ Hsp la Ela) as [Hla Hne].
  set (m := sent_packets (per_space s sp)). set (lst := sat_sub now (loss_delay s)).
  assert (∀ e, e ∈ bt_range m 0 (la + 1) ↔ e ∈ m ∧ e.1 ≤ la) as Hw.
  { intros e. unfold bt_range. rewrite list_elem_of_filter. split; [intros [? ?]; split; [done|lia]|].
    intros [He ?]. destruct (si_packet _ _ Hsp e He) as (_ & ? & _). split; [lia|done]. }
  rewrite (detect_loop_spec la lst (loss_delay s) (bt_range m 0 (la + 1))); [|done|apply Hsp|lia|apply length_filter|].
  2: { intros e [He ?]%Hw. split; [specialize (Hne e He); lia|].
       destruct (si_packet _ _ Hsp e He) as (_ & ? & _). unfold U64_MAX. lia. }
  cbn [mbind option_bind app]. cbv zeta.
  assert (filter (λ e, ¬ (0 ≤ e.1 ≤ la ∧ is_lost la lst e)) m = filter (λ e, ¬ declared_lost s now la e) m) as Em.
  { apply filter_ext_in. intros e He. destruct (si_packet _ _ Hsp e He) as (_ & ? & _). unfold declared_lost. fold lst.
    split; intros Hx Hy; apply Hx; split; (tauto || lia). }
  assert (filter (is_lost la lst) (bt_range m 0 (la + 1)) = filter (declared_lost s now la) m) as Elost.
  { unfold bt_range. rewrite list_filter_filter. apply filter_ext_in. intros e He.
    destruct (si_packet _ _ Hsp e He) as (_ & ? & _). unfold declared_lost. fold lst. split; intros [? ?]; (split; [tauto || lia|tauto || lia]). }
  rewrite Em, Elost. set (dl := foldl _ None _). eexists _, _. split; [done|]. split; [|split; [|split; [|split; [done|]]]].
  - eapply loss_inv_spaces; [intros x; by rewrite timer_keeps|]. apply loss_inv_set; [done|]. cbn.
    pose proof (space_inv_filter _ _ (λ e, ¬ declared_lost s now la e) dl Hsp) as Hf. rewrite Ela in Hf.
    by rewrite Ela.
  - intros sp' Hne'. rewrite timer_keeps. by apply set_space_other.
  - by rewrite timer_keeps, set_space_same.
  - rewrite timer_keeps, set_space_same. cbn. split; [done|].
    pose proof (fold_min_spec (loss_delay s) (filter (λ e, ¬ is_lost la lst e) (bt_range m 0 (la + 1)))) as Hmin.
    fold dl in Hmin.
    assert (∀ e, e ∈ filter (λ e, ¬ is_lost la lst e) (bt_range m 0 (la + 1))
      ↔ e ∈ filter (λ e, ¬ declared_lost s now la e) m ∧ e.1 ≤ la) as Hel.
    { intros e. rewrite !list_elem_of_filter, Hw. unfold declared_lost. fold lst. tauto. }
    destruct dl as [t|]; simpl.
    + destruct Hmin as [(e & He & ->) Hle]. apply Hel in He as [He ?]. split; [by exists e|].
      intros x Hx Hxl. apply Hle. by apply Hel.
    + intros e He. apply Z.nle_gt. intros Hle. assert (e ∈ (@nil (Z * SentPacket))) as Hn
        by (rewrite <- Hmin; by apply Hel). by apply elem_of_nil in Hn.
Qed.

(** After a pass no deadline of the space is due. *)
Lemma detect_lost_due next s sp now s' lost t : loss_inv next s → detect_lost s sp now = Some (s', lost) →
  now < DURATION_MAX → loss_time (per_space s' sp) = Some t → is_Some (largest_acked_packet (per_space s sp)) → now < t.
Proof.
  intros Hi Hd Hnow Ht [la Ela]. destruct (detect_lost_spec next s sp now Hi) as (s1 & l1 & Hd' & _ & _ & _ & Hm).
  rewrite Hd in Hd'. injection Hd' as <- <-. rewrite Ela in Hm. destruct Hm as (_ & Hps & Hdl).
  rewrite Ht in Hdl. destruct Hdl as [(e & He & Hle & ->) _]. rewrite Hps in He.
  apply list_elem_of_filter in He as [Hnl He]. unfold declared_lost, is_lost in Hnl.
  unfold dur_add. unfold sat_sub in Hnl. unfold loss_delay in *. lia.
Qed.

(** * The timer *)

Lemma earliest_loss_spec s : match earliest_loss_time s with
  | None => ∀ sp, loss_time (per_space s sp) = None
  | Some (t, sp) => loss_time (per_space s sp) = Some t
                    ∧ ∀ sp' t', loss_time (per_space s sp') = Some t' → t ≤ t'
  end.
Proof.
  unfold earliest_loss_time, all_spaces. cbn [foldl]. unfold earlier_loss.
  destruct (loss_time (per_space s Initial)) as [t1|] eqn:E1, (loss_time (per_space s Handshake)) as [t2|] eqn:E2,
    (loss_time (per_space s Application)) as [t3|] eqn:E3;
    repeat match goal with |- context [?a <? ?b] => destruct (Z.ltb_spec a b) end;
    first [intros []; done | (split; [done|]); intros [] t' Ht'; rewrite ?E1, ?E2, ?E3 in Ht'; try done; injection Ht' as <-; lia].
Qed.

(** The deadline of the probe timeout of a space. *)
Definition pto_deadline (s : LossState) (sp : PnSpaceId) (anchor : Z) : Z :=
  let d := backed_off s (pto_base s) in
  dur_add anchor (if decide (sp = Application) then dur_add d (backed_off s (max_ack_delay s)) else d).

(** A space the probe timer covers. *)
Definition probed (s : LossState) (sp : PnSpaceId) : Prop :=
  eliciting (per_space s sp) = true ∧ (sp = Application → handshake_confirmed (ctx s) = true).

Lemma pto_loop_spec s d spaces : ∀ acc, d = backed_off s (pto_base s) → NoDup spaces →
  (∀ sp, eliciting (per_space s sp) = true → is_Some (time_of_last_ack_eliciting_packet (per_space s sp))) →
  (∃ i, spaces = drop i all_spaces) →
  match pto_loop s d spaces acc with
  | None => acc = None ∧ ∀ sp, sp ∈ spaces → ¬ probed s sp
  | Some (t, sp) => (acc = Some (t, sp) ∨ sp ∈ spaces ∧ probed s sp)
      ∧ (∀ t' sp', acc = Some (t', sp') → t ≤ t')
      ∧ ∀ sp' a, sp' ∈ spaces → probed s sp' → time_of_last_ack_eliciting_packet (per_space s sp') = Some a →
          t ≤ pto_deadline s sp' a
  end.
Proof.
  induction spaces as [|sp spaces IH]; intros acc Hd Hnd Ha Hdrop; cbn [pto_loop].
  { destruct acc as [[t sp]|]; [|split; [done|]; by intros sp ?%elem_of_nil].
    split; [by left|]. split; [by intros ? ? [= -> ->]|]. by intros sp' a ?%elem_of_nil. }
  assert (∃ i, spaces = drop i all_spaces) as Hdrop'.
  { destruct Hdrop as [i Hi]. exists (S i). rewrite <- Nat.add_1_r, <- drop_drop, <- Hi. done. }
  apply NoDup_cons in Hnd as [Hni Hnd]. specialize (λ acc, IH acc Hd Hnd Ha Hdrop').
  destruct (eliciting (per_space s sp)) eqn:He; cbn [negb].
  2: { specialize (IH acc). destruct (pto_loop s d spaces acc) as [[t sp']|].
    - destruct IH as (H1 & H2 & H3). split; [destruct H1 as [?|[? ?]]; [by left|right; split; [by right|done]]|].
      split; [done|]. intros sp0 a [->|Hin]%elem_of_cons Hp; [destruct Hp; congruence|]. by apply H3.
    - destruct IH as [H1 H2]. split; [done|]. intros sp0 [->|Hin]%elem_of_cons; [intros [Hp _]; congruence|by apply H2]. }
  destruct (bool_decide (sp = Application) && negb (handshake_confirmed (ctx s))) eqn:Hc.
  { apply andb_true_iff in Hc as [->%bool_decide_eq_true Hc]. apply negb_true_iff in Hc.
    assert (spaces = []) as ->.
    { destruct Hdrop as [[|[|[|i]]] Hi]; cbn in Hi; rewrite ?drop_nil in Hi; by simplify_eq. }
    destruct acc as [[t sp]|].
    - split; [by left|]. split; [by intros ? ? [= -> ->]|].
      intros sp' a ->%list_elem_of_singleton [_ Hp]. by rewrite Hp in Hc by done.
    - split; [done|]. intros sp ->%list_elem_of_singleton [_ Hp]. by rewrite Hp in Hc by done. }
  assert (probed s sp) as Hps.
  { split; [done|]. intros ->. rewrite bool_decide_eq_true_2 in Hc by done. by destruct (handshake_confirmed (ctx s)). }
  destruct (Ha sp He) as [a Hanchor]. rewrite Hanchor. cbv zeta.
  set (t0 := dur_add a _). assert (t0 = pto_deadline s sp a) as Ht0 by (unfold t0, pto_deadline; by rewrite Hd).
  set (acc' := match acc with Some (prev, s0) => if t0 <? prev then Some (t0, sp) else Some (prev, s0) | None => Some (t0, sp) end).
  assert (∃ t1 sp1, acc' = Some (t1, sp1) ∧ t1 ≤ t0 ∧ (acc = Some (t1, sp1) ∨ sp1 = sp)
    ∧ ∀ t' sp', acc = Some (t', sp') → t1 ≤ t') as (t1 & sp1 & E1 & Hle & Hor & Hold).
  { unfold acc'. destruct acc as [[prev s0]|]; [|exists t0, sp; split_and!; [done|lia|by right|done]].
    destruct (Z.ltb_spec t0 prev); [exists t0, sp|exists prev, s0]; (split_and!; [done|lia|auto|]);
      intros t' sp' [= -> ->]; lia. }
  specialize (IH acc'). destruct (pto_loop s d spaces acc') as [[t sp']|]; [|by rewrite E1 in IH; destruct IH].
  destruct IH as (H1 & H2 & H3). specialize (H2 _ _ E1). split; [|split].
  - destruct H1 as [H1|[? ?]]; [|right; split; [by right|done]]. rewrite E1 in H1. injection H1 as -> ->.
    destruct Hor as [?| ->]; [by left|right]. split; [by left|done].
  - intros t' sp0 Hacc. specialize (Hold _ _ Hacc). lia.
  - intros sp0 a0 [->|Hin]%elem_of_cons Hp Ht; [|by apply H3]. rewrite Hanchor in Ht. injection Ht as <-. lia.
Qed.

Lemma in_flight_spec s : has_ack_eliciting_in_flight s = true ↔ ∃ sp, eliciting (per_space s sp) = true.
Proof.
  unfold has_ack_eliciting_in_flight. rewrite existsb_exists. split; [intros (sp & _ & H); by exists sp|].
  intros [sp H]. exists sp. split; [|done]. destruct sp; simpl; tauto.
Qed.

(** Something may have to be sent again: a loss deadline is pending, a space with
    ack-eliciting packets in flight is covered by the probe timer, or the client has
    nothing in flight and the server may be waiting for it. *)
Definition needs_timer (s : LossState) : Prop :=
  (∃ sp t, loss_time (per_space s sp) = Some t)
  ∨ ¬ (is_server (ctx s) = true ∧ at_amplification_limit (ctx s) = true)
    ∧ ((∃ sp, probed s sp)
       ∨ has_ack_eliciting_in_flight s = false ∧ peer_completed_address_validation s = false).

Definition timer_armed (s : LossState) : Prop := needs_timer s → is_Some (loss_detection_timer s).

Lemma needs_timer_ext s s' : per_space s' = per_space s → ctx s' = ctx s → needs_timer s' → needs_timer s.
Proof.
  intros Ep Ec. unfold needs_timer, probed, has_ack_eliciting_in_flight, peer_completed_address_validation.
  by rewrite Ep, Ec.
Qed.

Lemma timer_ctx s now : ctx (set_loss_detection_timer s now) = ctx s.
Proof. unfold set_loss_detection_timer. by repeat case_match. Qed.

Lemma pto_total next s now : loss_inv next s →
  (∃ sp, probed s sp) ∨ has_ack_eliciting_in_flight s = false ∧ peer_completed_address_validation s = false →
  is_Some (pto_time_and_space s now).
Proof.
  intros Hi Hn. unfold pto_time_and_space. destruct (has_ack_eliciting_in_flight s) eqn:Hf; cbn [negb].
  - destruct Hn as [[sp Hp]|[? _]]; [|done].
    pose proof (pto_loop_spec s _ all_spaces None eq_refl) as Hl.
    destruct (pto_loop _ _ _ _) as [[t sp']|]; [by eexists|]. exfalso.
    destruct Hl as [_ Hl].
    + repeat constructor; set_solver.
    + intros sp0 He. destruct (Hi sp0) as [Hsi _]. by apply (si_anchor _ _ Hsi).
    + by exists 0%nat.
    + apply (Hl sp); [destruct sp; unfold all_spaces; set_solver|done].
  - destruct Hn as [[sp [He _]]|[_ ->]]; [|by eexists].
    assert (has_ack_eliciting_in_flight s = true) by (apply in_flight_spec; by exists sp). congruence.
Qed.

Lemma set_timer_armed next s now : loss_inv next s → timer_armed (set_loss_detection_timer s now).
Proof.
  intros Hi Hn. apply (needs_timer_ext s) in Hn; [|apply timer_keeps|apply timer_ctx].
  pose proof (earliest_loss_spec s) as Hl. unfold set_loss_detection_timer.
  destruct (earliest_loss_time s) as [[t sp]|]; [by eexists|].
  destruct Hn as [(sp & t & Ht)|[Hamp Hn]]; [by rewrite Hl in Ht|].
  destruct (is_server (ctx s) && at_amplification_limit (ctx s)) eqn:Ha; [apply andb_true_iff in Ha; by destruct Hamp|].
  destruct (negb (has_ack_eliciting_in_flight s) && peer_completed_address_validation s) eqn:Hb.
  - apply andb_true_iff in Hb as [Hb1 Hb2]. apply negb_true_iff in Hb1. destruct Hn as [[sp [He _]]|[_ Hn]]; [|congruence].
    assert (has_ack_eliciting_in_flight s = true) by (apply in_flight_spec; by exists sp). congruence.
  - destruct (pto_total next s now Hi Hn) as [[t sp] Hp]. rewrite Hp. by eexists.
Qed.

(** Waiting for nothing: the probe timer has no space to cover. *)
Definition idle (s : LossState) : Prop :=
  ¬ (∃ sp, probed s sp) ∧ ¬ (has_ack_eliciting_in_flight s = false ∧ peer_completed_address_validation s = false).

(** What a probe timeout does. *)
Definition timeout_done (s s' : LossState) (act : option TimeoutAction) : Prop :=
  per_space s' = per_space s ∧ ctx s' = ctx s ∧
  match act with
  | Some (DetectLoss sp) => False
  | Some (Pto sp) => probe_credit_of s' sp = K_PTO_PROBES ∧ probe_needs_ping s' sp = true
      ∧ pto_count s' = Z.min (sat_add 32 (pto_count s) 1) PTO_BACKOFF_CAP ∧ timer_armed s'
      ∧ (probed s sp ∨ has_ack_eliciting_in_flight s = false ∧ peer_completed_address_validation s = false)
  | None => timer_armed s' ∧ idle s
  end.

(** Arming the timer changes nothing else. *)
Lemma set_timer_ind (f : LossState → Prop) s now :
  (∀ o, f (s <| loss_detection_timer := o |>)) → f (set_loss_detection_timer s now).
Proof. intros Hf. unfold set_loss_detection_timer. repeat case_match; apply Hf. Qed.

Lemma fire_pto_spec next s sp now : loss_inv next s →
  probed s sp ∨ has_ack_eliciting_in_flight s = false ∧ peer_completed_address_validation s = false →
  timeout_done s (fire_pto s sp now).1 (fire_pto s sp now).2.
Proof.
  intros Hi Hor. unfold fire_pto, timeout_done. cbv zeta. cbn [fst snd]. set (s0 := arm_probe _ sp).
  split; [by rewrite timer_keeps|]. split; [by rewrite timer_ctx|].
  split; [apply set_timer_ind; intros o; unfold probe_credit_of, s0; cbn; by rewrite decide_True|].
  split; [apply set_timer_ind; intros o; unfold probe_needs_ping, s0; cbn; by rewrite bool_decide_eq_true_2|].
  split; [by apply set_timer_ind|]. split; [|done]. apply (set_timer_armed next). exact Hi.
Qed.

Lemma stale_timer_spec next s now : loss_inv next s → idle s → timeout_done s (set_loss_detection_timer s now) None.
Proof.
  intros Hi Hidle. split; [by rewrite timer_keeps|]. split; [by rewrite timer_ctx|].
  split; [by apply (set_timer_armed next)|done].
Qed.

Lemma probe_timeout_spec next s now : loss_inv next s →
  timeout_done s (probe_timeout s now).1 (probe_timeout s now).2.
Proof.
  intros Hi. unfold probe_timeout. destruct (has_ack_eliciting_in_flight s) eqn:Hf; cbn [negb].
  - destruct (pto_time_and_space s now) as [[t sp]|] eqn:Hp.
    + apply (fire_pto_spec next); [done|]. left. unfold pto_time_and_space in Hp. rewrite Hf in Hp. cbn [negb] in Hp.
      pose proof (pto_loop_spec s _ all_spaces None eq_refl) as Hlo. rewrite Hp in Hlo.
      destruct Hlo as ([?|[_ ?]] & _); try done; [repeat constructor; set_solver|..|by exists 0%nat].
      intros sp0 He. destruct (Hi sp0) as [Hsi _]. by apply (si_anchor _ _ Hsi).
    + apply (stale_timer_spec next); [done|]. split; [|by rewrite Hf; intros [? _]]. intros Hex.
      destruct (pto_total next s now Hi (or_introl Hex)) as [? ?]. congruence.
  - destruct (peer_completed_address_validation s) eqn:Hv; [|apply (fire_pto_spec next); [done|by right]].
    apply (stale_timer_spec next); [done|]. split; [|by rewrite Hv; intros [_ ?]]. intros [sp [He _]].
    assert (has_ack_eliciting_in_flight s = true) by (apply in_flight_spec; by exists sp). congruence.
Qed.

(** How an expired timer is handled. *)
Lemma timeout_spec next s now d s' act : loss_inv next s → loss_detection_timer s = Some d → d ≤ now →
  on_loss_detection_timeout s now = (s', act) →
  (∃ sp t, act = Some (DetectLoss sp) ∧ s' = s ∧ loss_time (per_space s sp) = Some t ∧ t ≤ now)
  ∨ timeout_done s s' act.
Proof.
  intros Hi Hd Hle. unfold on_loss_detection_timeout. rewrite Hd. destruct (Z.ltb_spec now d); [lia|].
  pose proof (earliest_loss_spec s) as Hl. pose proof (probe_timeout_spec next s now Hi) as Hp.
  destruct (earliest_loss_time s) as [[t sp]|]; [destruct (Z.leb_spec t now) as [Htn|_]|].
  - intros [= <- <-]. left. destruct Hl as [Hl _]. by exists sp, t.
  - intros Hr. rewrite Hr in Hp. by right.
  - intros Hr. rewrite Hr in Hp. by right.
Qed.
