(* ===== verification/Persist.v ===== *)
(** Persistent congestion ([in_persistent_congestion] of [src/quic/loss.rs]): the code
    works on merged spans of acknowledged send times, on two necessary conditions checked
    before anything is sorted, and on one pass over the sorted losses.  Here the whole is
    shown to decide the definition of RFC 9002 7.6.2 over the send times themselves. *)

From S2P Require Import Prelude TlsBase Varint Pn BTree SendStream Streams Congestion Loss.

(** * The spans of acknowledged send times *)

Definition in_span (t : Z) (s : AckedSpan) : Prop := span_first s ≤ t ≤ span_last s.

Definition span_before (a b : AckedSpan) : Prop := span_last a < span_first b.

(** [spans] stands for the acknowledged send times [A] from [h] on: in order and disjoint,
    every such time is in a span, and at every point of a span two acknowledged packets
    sent less than the granularity apart surround it. *)
Record rep (h : Z) (A : list Z) (spans : list AckedSpan) : Prop := {
  rep_sorted : StronglySorted span_before spans;
  rep_wf : ∀ s, s ∈ spans → span_first s ≤ span_last s;
  rep_cover : ∀ a, a ∈ A → h ≤ a → ∃ s, s ∈ spans ∧ in_span a s;
  rep_dense : ∀ s x, s ∈ spans → in_span x s → ∃ a b, a ∈ A ∧ b ∈ A ∧ a ≤ x ≤ b ∧ b - a < K_GRANULARITY;
  rep_ends : ∀ s, s ∈ spans → span_last s ∈ A }.

(** [partition_point] splits a partitioned list. *)
Lemma partition_point_split {X} (p : X → bool) (l : list X) :
  let i := partition_point p l in
  (∀ x, x ∈ take i l → p x = true) ∧ match l !! i with Some x => p x = false | None => i = length l end.
Proof.
  cbv zeta. induction l as [|y l [IH1 IH2]]; cbn [partition_point]; [split; [by intros x ?%elem_of_nil|done]|].
  destruct (p y) eqn:Hy; [|split; [by intros x ?%elem_of_nil|done]]. cbn. split.
  - intros x [->|Hx]%elem_of_cons; [done|by apply IH1].
  - destruct (l !! _); [done|by f_equal].
Qed.

Lemma sorted_app_before {X} (R : X → X → Prop) (l1 l2 : list X) : StronglySorted R (l1 ++ l2) →
  StronglySorted R l1 ∧ StronglySorted R l2 ∧ ∀ x y, x ∈ l1 → y ∈ l2 → R x y.
Proof.
  induction l1 as [|z l1 IH]; cbn; intros Hs; [split; [constructor|]; split; [done|by intros x y ?%elem_of_nil]|].
  apply StronglySorted_inv in Hs as [Hs Hz]. destruct (IH Hs) as (H1 & H2 & H3). rewrite Forall_forall in Hz.
  split; [constructor; [done|]; apply Forall_forall; intros x Hx; apply Hz; rewrite elem_of_app; by left|].
  split; [done|]. intros x y [->|Hx]%elem_of_cons Hy; [apply Hz; rewrite elem_of_app; by right|by apply H3].
Qed.

Lemma sorted_app_intro {X} (R : X → X → Prop) (l1 l2 : list X) : StronglySorted R l1 → StronglySorted R l2 →
  (∀ x y, x ∈ l1 → y ∈ l2 → R x y) → StronglySorted R (l1 ++ l2).
Proof.
  induction l1 as [|z l1 IH]; cbn; intros H1 H2 H3; [done|]. apply StronglySorted_inv in H1 as [H1 Hz].
  constructor; [apply IH; [done|done|]; intros x y Hx Hy; apply H3; [by right|done]|].
  apply Forall_forall. intros x [Hx|Hx]%elem_of_app; [rewrite Forall_forall in Hz; by apply Hz|apply H3; [by left|done]].
Qed.

(** Where [partition_point] cuts the spans at a time. *)
Lemma spans_split spans t : StronglySorted span_before spans → (∀ s, s ∈ spans → span_first s ≤ span_last s) →
  let i := partition_point (λ s, span_last s <? t) spans in
  (∀ s, s ∈ take i spans → span_last s < t)
  ∧ match spans !! i with
    | None => drop i spans = []
    | Some s => drop i spans = s :: drop (S i) spans ∧ t ≤ span_last s ∧ ∀ s', s' ∈ drop (S i) spans → span_last s < span_first s'
    end.
Proof.
  intros Hs Hwf i. destruct (partition_point_split (λ s, span_last s <? t) spans) as [H1 H2]. fold i in H1, H2.
  split; [intros s Hx; by apply Z.ltb_lt, H1|]. destruct (spans !! i) as [s|] eqn:Hi; [|rewrite H2; apply drop_all].
  pose proof (drop_S _ _ _ Hi) as Hd. apply Z.ltb_ge in H2. split; [done|]. split; [done|].
  rewrite <- (take_drop i spans) in Hs. apply sorted_app_before in Hs as (_ & Hs & _). rewrite Hd in Hs.
  apply StronglySorted_inv in Hs as [_ Hf]. rewrite Forall_forall in Hf. intros s' Hs'. by apply Hf.
Qed.

(** Two acknowledged packets surround the point, less than the granularity apart. *)
Definition surrounded (A : list Z) (x : Z) : Prop :=
  ∃ a b, a ∈ A ∧ b ∈ A ∧ a ≤ x ≤ b ∧ b - a < K_GRANULARITY.

(** One more time [t]: the old spans are kept or grown, the new ones end at [t]. *)
Lemma rep_grow h A spans spans' t : rep h A spans → StronglySorted span_before spans' →
  (∀ s, s ∈ spans → ∃ s', s' ∈ spans' ∧ ∀ x, in_span x s → in_span x s') →
  (∃ s', s' ∈ spans' ∧ in_span t s') →
  (∀ s', s' ∈ spans' → s' ∈ spans ∨ span_last s' = t ∧ span_first s' ≤ t ∧ ∀ x, in_span x s' → surrounded (t :: A) x) →
  rep h (t :: A) spans'.
Proof.
  intros [Hs Hwf Hc Hd He] Hs' Hold Ht Hnew. split.
  - done.
  - intros s' [Hx|(H1 & H2 & _)]%Hnew; [by apply Hwf|lia].
  - intros a [->|Ha]%elem_of_cons Hh; [done|]. destruct (Hc a Ha Hh) as (s & Hx & Hin).
    destruct (Hold s Hx) as (s' & Hs'' & Hsub). exists s'. auto.
  - intros s' x [Hx|(_ & _ & H3)]%Hnew Hin; [|by apply H3]. destruct (Hd s' x Hx Hin) as (a & b & ? & ? & ?).
    exists a, b. split_and!; try lia; by right.
  - intros s' [Hx|(-> & _)]%Hnew; [right; by apply He|by left].
Qed.

Lemma surrounded_self A t x : in_span x (mkAckedSpan t t) → surrounded (t :: A) x.
Proof. intros Hx. unfold in_span in Hx. cbn in Hx. exists t, t. split_and!; try by left. all: unfold K_GRANULARITY, from_millis; lia. Qed.

(** Inserting the span of [t] alone between the spans that end before and start after it. *)
Lemma rep_insert h A l1 l2 t : rep h A (l1 ++ l2) → (∀ s, s ∈ l1 → span_last s < t) →
  (∀ s, s ∈ l2 → t < span_first s) → rep h (t :: A) (l1 ++ mkAckedSpan t t :: l2).
Proof.
  intros Hr H1 H2. apply (rep_grow h A (l1 ++ l2)); [done|..].
  - destruct (sorted_app_before _ _ _ (rep_sorted _ _ _ Hr)) as (Hs1 & Hs2 & Hs3).
    apply sorted_app_intro; [done|constructor; [done|by apply Forall_forall]|].
    intros x y Hx [->|Hy]%elem_of_cons; [by apply H1|by apply Hs3].
  - intros s Hs. exists s. split; [|done]. rewrite elem_of_app, elem_of_cons in *. tauto.
  - exists (mkAckedSpan t t). split; [rewrite elem_of_app, elem_of_cons; tauto|]. unfold in_span. cbn. lia.
  - intros s'. rewrite !elem_of_app, elem_of_cons. intros [Hx|[->|Hx]]; [tauto| |tauto]. right. cbn.
    split_and!; [done|lia|]. intros x. apply surrounded_self.
Qed.

(** Extending the last span to [t]. *)
Lemma rep_extend h A l s t : rep h A (l ++ [s]) → span_last s ≤ t → t - span_last s < K_GRANULARITY →
  rep h (t :: A) (l ++ [mkAckedSpan (span_first s) t]).
Proof.
  intros Hr Hle Hg. assert (s ∈ l ++ [s]) as Hs by (apply elem_of_app; right; by left).
  pose proof (rep_wf _ _ _ Hr s Hs) as Hw. apply (rep_grow h A (l ++ [s])); [done|..].
  - destruct (sorted_app_before _ _ _ (rep_sorted _ _ _ Hr)) as (Hs1 & _ & Hs3).
    apply sorted_app_intro; [done|repeat constructor|]. intros x y Hx ->%list_elem_of_singleton.
    apply (Hs3 x s Hx). by left.
  - intros x [Hx| ->%list_elem_of_singleton]%elem_of_app; [exists x; split; [apply elem_of_app; by left|done]|].
    eexists. split; [apply elem_of_app; right; by left|]. unfold in_span. cbn. lia.
  - eexists. split; [apply elem_of_app; right; by left|]. unfold in_span. cbn. lia.
  - intros s' [Hx| ->%list_elem_of_singleton]%elem_of_app; [left; apply elem_of_app; by left|]. right. cbn.
    split_and!; [done|lia|]. unfold in_span. cbn. intros x Hx. destruct (Z.le_gt_cases x (span_last s)).
    + destruct (rep_dense _ _ _ Hr s x Hs) as (a & b & ? & ? & ?); [unfold in_span; lia|].
      exists a, b. split_and!; try lia; by right.
    + exists (span_last s), t. split_and!; [right; by apply (rep_ends _ _ _ Hr)|by left|lia..].
Qed.

(** Recording one more acknowledged send time. *)
Lemma add_span_rep h A spans t : rep h A spans → rep h (t :: A) (add_span spans t).
Proof.
  intros Hr. unfold add_span. destruct (last spans) as [sp|] eqn:Hl.
  2: { apply last_None in Hl as ->. apply (rep_insert h A [] []); [done|..]; by intros s ?%elem_of_nil. }
  apply last_Some in Hl as [l ->]. destruct (Z.leb_spec (span_last sp) t) as [Hle|Hgt].
  - destruct (Z.ltb_spec (t - span_last sp) K_GRANULARITY) as [Hnear|Hfar].
    { rewrite length_app. replace (length l + length [sp] - 1)%nat with (length l + 0)%nat by (cbn; lia).
      rewrite insert_app_r. by apply rep_extend. }
    apply (rep_insert h A (l ++ [sp]) []); [by rewrite app_nil_r| |by intros s ?%elem_of_nil].
    destruct (sorted_app_before _ _ _ (rep_sorted _ _ _ Hr)) as (_ & _ & Hb).
    assert (span_last sp < t) by (unfold K_GRANULARITY, from_millis in Hfar; lia).
    intros x [Hx| ->%list_elem_of_singleton]%elem_of_app; [|done]. specialize (Hb x sp Hx ltac:(by left)).
    pose proof (rep_wf _ _ _ Hr sp ltac:(apply elem_of_app; right; by left)). unfold span_before in Hb. lia.
  - set (spans := l ++ [sp]) in *. pose proof (spans_split spans t (rep_sorted _ _ _ Hr) (rep_wf _ _ _ Hr)) as [Hlo Hhi].
    set (i := partition_point _ spans) in *. destruct (spans !! i) as [s|] eqn:Hi.
    2: { exfalso. assert (sp ∈ take i spans) as Hin; [|apply Hlo in Hin; lia].
         rewrite <- (app_nil_r (take i spans)), <- Hhi, take_drop. unfold spans. apply elem_of_app. right. by left. }
    destruct Hhi as (Hdr & Hts & Hafter). pose proof (list_elem_of_lookup_2 _ _ _ Hi) as Hsin.
    destruct (Z.ltb_spec t (span_first s)) as [Hfirst|Hfirst].
    + unfold vec_insert. apply rep_insert; [by rewrite take_drop|done|]. rewrite Hdr.
      intros x [->|Hx]%elem_of_cons; [done|]. specialize (Hafter x Hx). lia.
    + apply (rep_grow h A spans); [done|apply Hr|by intros x Hx; exists x| |by left].
      exists s. split; [done|]. unfold in_span. lia.
Qed.

(** Forgetting the spans that end before [t]. *)
Lemma drop_spans_rep h A spans t : rep h A spans →
  rep (Z.max h t) A (drop (partition_point (λ s, span_last s <? t) spans) spans).
Proof.
  intros Hr. pose proof (spans_split spans t (rep_sorted _ _ _ Hr) (rep_wf _ _ _ Hr)) as [Hlo _].
  set (i := partition_point _ spans) in *. destruct Hr as [Hs Hwf Hc Hd He].
  assert (∀ s, s ∈ drop i spans → s ∈ spans) as Hsub by (intros s Hx; rewrite <- (take_drop i spans); apply elem_of_app; by right).
  split; eauto.
  - rewrite <- (take_drop i spans) in Hs. by apply sorted_app_before in Hs as (_ & ? & _).
  - intros a Ha Hh. destruct (Hc a Ha ltac:(lia)) as (s & Hx & Hin). exists s. split; [|done].
    rewrite <- (take_drop i spans) in Hx. apply elem_of_app in Hx as [Hx|Hx]; [|done]. apply Hlo in Hx.
    unfold in_span in Hin. lia.
Qed.

Lemma list_min_spec l : match list_min l with
  | None => l = []
  | Some m => ∀ x, x ∈ l → m ≤ x
  end.
Proof.
  unfold list_min. destruct l as [|x l]; [done|]. cbn [foldl].
  assert (∀ l u, match foldl (λ m t, match m with None => Some t | Some u => Some (Z.min u t) end) (Some u) l with
    | None => False | Some m => m ≤ u ∧ ∀ x, x ∈ l → m ≤ x end) as Hf.
  { clear. induction l as [|y l IH]; intros u; cbn [foldl]; [split; [lia|]; by intros x ?%elem_of_nil|].
    specialize (IH (Z.min u y)). destruct (foldl _ _ l) as [m|]; [|done]. destruct IH as [H1 H2].
    split; [lia|]. intros x [->|Hx]%elem_of_cons; [lia|by apply H2]. }
  specialize (Hf l x). destruct (foldl _ _ l) as [m|]; [|done]. destruct Hf as [H1 H2].
  intros y [->|Hy]%elem_of_cons; [done|by apply H2].
Qed.

(** The spans stand for the acknowledged send times [A] as far back as any packet in
    flight or loss on record, and no further back than [now]. *)
Definition history_ok (now : Z) (A : list Z) (s : LossState) : Prop :=
  ∃ h, h ≤ now ∧ rep h A (acked_send_times s)
    ∧ (∀ sp e, e ∈ sent_packets (per_space s sp) → h ≤ time_sent e.2)
    ∧ (∀ r, r ∈ lost_history s → h ≤ lr_time_sent r).

(** Packets are numbered in the order they were sent. *)
Definition send_ordered (s : LossState) : Prop :=
  ∀ sp, StronglySorted (λ a b, time_sent a.2 ≤ time_sent b.2) (sent_packets (per_space s sp)).

Lemma prune_acked_history now A s : send_ordered s → (∀ a, a ∈ A → a < now) →
  (∀ sp e, e ∈ sent_packets (per_space s sp) → time_sent e.2 ≤ now) →
  history_ok now A s → history_ok now A (prune_acked_send_times s).
Proof.
  intros Hord Hnow Hsent (h & Hh & Hr & Hp & Hl). unfold prune_acked_send_times.
  set (cands := omap _ _ ++ _). pose proof (list_min_spec cands) as Hmin.
  assert (∀ sp e, e ∈ sent_packets (per_space s sp) → ∃ t, t ∈ cands ∧ t ≤ time_sent e.2) as Hc1.
  { intros sp e He. specialize (Hord sp). destruct (sent_packets (per_space s sp)) as [|e0 l] eqn:El;
      [by apply elem_of_nil in He|].
    exists (time_sent e0.2). split.
    - apply elem_of_app. left. apply list_elem_of_omap. exists sp. split; [destruct sp; unfold all_spaces; set_solver|].
      by rewrite El.
    - apply StronglySorted_inv in Hord as [_ Hf]. rewrite Forall_forall in Hf.
      apply elem_of_cons in He as [->|He]; [lia|by apply Hf]. }
  assert (∀ r, r ∈ lost_history s → lr_time_sent r ∈ cands) as Hc2.
  { intros r Hx. apply elem_of_app. right. by apply list_elem_of_fmap_2. }
  destruct (list_min cands) as [t|] eqn:Em; cbv zeta.
  - destruct (Z.le_gt_cases t now) as [Htn|Htn].
    + exists (Z.max h t). split; [lia|]. split; [by apply drop_spans_rep|]. cbn. split.
      * intros sp e He. specialize (Hp sp e He). destruct (Hc1 sp e He) as (t' & Ht' & ?). specialize (Hmin t' Ht'). lia.
      * intros r Hx. specialize (Hl r Hx). specialize (Hmin _ (Hc2 r Hx)). lia.
    + exists now. split; [lia|]. split; [|split].
      * assert (rep (Z.max h t) A (drop (partition_point (λ s0, span_last s0 <? t) (acked_send_times s)) (acked_send_times s)))
          as [H1 H2 H3 H4 H5] by (by apply drop_spans_rep). cbn. split; [done|done| |done|done].
        intros a Ha Hle. specialize (Hnow a Ha). lia.
      * intros sp e He. specialize (Hp sp e He). destruct (Hc1 sp e He) as (t' & Ht' & ?). specialize (Hmin t' Ht'). lia.
      * intros r Hx. specialize (Hmin _ (Hc2 r Hx)). cbn in Hx. lia.
  - rewrite Hmin in Hc1, Hc2. exists now. split; [lia|]. split; [|cbn; split].
    + cbn. split; try by (intros ? ?%elem_of_nil || constructor).
      * intros a Ha Hle. specialize (Hnow a Ha). lia.
      * by intros ? ? ?%elem_of_nil.
    + intros sp e He. destruct (Hc1 sp e He) as (t' & ?%elem_of_nil & _). done.
    + intros r Hx%Hc2. by apply elem_of_nil in Hx.
Qed.

(** An acknowledgement records the send times of the packets it acknowledges. *)
Lemma ack_records_history now A s acked : send_ordered s → (∀ a, a ∈ A → a < now) →
  Forall (λ p, time_sent p < now) acked →
  (∀ sp e, e ∈ sent_packets (per_space s sp) → time_sent e.2 ≤ now) →
  history_ok now A s → history_ok now (rev (time_sent <$> acked) ++ A) (ack_records s acked now).
Proof.
  intros Hord Hnow Hacked Hsent Hh. unfold ack_records. cbv zeta.
  set (s0 := prune_lost_history s now).
  assert (history_ok now A s0 ∧ send_ordered s0 ∧ per_space s0 = per_space s) as (H0 & Ho & Hsp).
  { split; [|done]. destruct Hh as (h & H1 & H2 & H3 & H4). exists h. split_and!; [done..|].
    intros r [_ Hx]%list_elem_of_filter. by apply H4. }
  clearbody s0. clear Hh Hord. revert s0 A Hnow H0 Ho Hsp. induction acked as [|p acked IH]; intros s0 A Hnow H0 Ho Hsp; cbn.
  - apply prune_acked_history; try done. by rewrite Hsp.
  - apply Forall_cons in Hacked as [Hp Hacked]. rewrite <- app_assoc. apply IH; try done.
    + intros a [->|Ha]%elem_of_cons; [done|by apply Hnow].
    + destruct H0 as (h & H1 & H2 & H3 & H4). exists h. split_and!; [done| |done|done]. by apply add_span_rep.
Qed.

(** * The walk over the losses *)

Section run.
Variables (progress : Z → Z → bool) (d : Z).

(** No progress in any gap of the walk that goes through [p] and then [l]. *)
Fixpoint quiet (p : Z) (l : list Z) : Prop :=
  match l with [] => True | t :: l => progress p t = false ∧ quiet t l end.

(** A run already under way ends at an ack-eliciting loss, or one starts in [L]. *)
Definition run_ends (L : list (Z * bool)) (start prev : Z) : Prop :=
  ∃ L1 t L2, L = L1 ++ (t, true) :: L2 ∧ quiet prev (L1.*1 ++ [t]) ∧ d ≤ t - start.
Definition run_within (L : list (Z * bool)) : Prop :=
  ∃ L0 t1 L1, L = L0 ++ (t1, true) :: L1 ∧ run_ends L1 t1 t1.

Lemma run_within_cons x L : run_within L → run_within (x :: L).
Proof. intros (L0 & t1 & L1 & -> & H). by exists (x :: L0), t1, L1. Qed.

Lemma run_within_inv x L : run_within (x :: L) → run_within L ∨ ∃ t, x = (t, true) ∧ run_ends L t t.
Proof.
  intros ([|y L0] & t1 & L1 & E & H); cbn in E; simplify_eq; [right; by exists t1|]. left. by exists L0, t1, L1.
Qed.

Lemma run_ends_cons x L start prev : progress prev x.1 = false → run_ends L start x.1 → run_ends (x :: L) start prev.
Proof. intros Hp (L1 & t & L2 & -> & Hq & Hd). exists (x :: L1), t, L2. cbn. auto. Qed.

Lemma run_ends_inv x L start prev : run_ends (x :: L) start prev →
  progress prev x.1 = false ∧ (x.2 = true ∧ d ≤ x.1 - start ∨ run_ends L start x.1).
Proof.
  intros ([|y L1] & t & L2 & E & Hq & Hd); cbn in E; simplify_eq; cbn in *; [tauto|].
  split; [tauto|]. right. exists L1, t, L2. tauto.
Qed.

Lemma run_loop_spec L : ∀ rs prev, StronglySorted time_le L →
  (∀ start, rs = Some start → is_Some prev ∧ Forall (λ l, start ≤ l.1) L) →
  run_loop progress d L rs prev = true ↔
  (∃ start p, rs = Some start ∧ prev = Some p ∧ run_ends L start p) ∨ run_within L.
Proof.
  induction L as [|[t el] L IH]; intros rs prev Hs Hrs; cbn [run_loop].
  { split; [done|]. intros [(start & p & _ & _ & [|] & ? & ? & ? & _)|([|] & ? & ? & ? & _)]; done. }
  apply StronglySorted_inv in Hs as [Hs Ht].
  set (rs' := match prev with Some p => _ | None => _ end).
  assert (∀ start, rs' = Some start → rs = Some start ∧ ∀ p, prev = Some p → progress p t = false) as Hrs'.
  { unfold rs'. intros start. destruct prev as [p|]; [|done]. destruct (progress p t) eqn:Hp; [done|].
    intros ->. split; [done|]. by intros ? [= <-]. }
  assert (∀ start, Some t = Some start → is_Some (Some t) ∧ Forall (λ l, start ≤ l.1) L) as Hnew.
  { intros start [= <-]. by split. }
  assert (∀ start, rs' = Some start → is_Some (Some t) ∧ Forall (λ l, start ≤ l.1) L) as Hkeep.
  { intros start [H _]%Hrs'. destruct (Hrs start H) as [_ Hf]. apply Forall_cons in Hf as [_ Hf]. by split. }
  assert (∀ start p, rs = Some start → prev = Some p → run_ends ((t, el) :: L) start p ↔
    rs' = Some start ∧ (el = true ∧ d ≤ t - start ∨ run_ends L start t)) as Hends.
  { intros start p -> ->. unfold rs'. split.
    - intros [Hp Hor]%run_ends_inv. cbn in Hp, Hor. rewrite Hp. tauto.
    - destruct (progress p t) eqn:Hp; intros [Heq Hor]; [done|]. destruct Hor as [[-> Hd]|Hor].
      + exists [], t, L. split; [done|]. split; [by cbn|done].
      + by apply run_ends_cons. }
  assert (∀ start, rs' = Some start → ∃ p, prev = Some p) as Hprev.
  { intros start [H _]%Hrs'. by destruct (Hrs start H) as [[p ->] _]; exists p. }
  destruct el; cbn [negb].
  - destruct rs' as [start|] eqn:Ers.
    + destruct (Hrs' start eq_refl) as [Hst Hq]. destruct (Hprev start eq_refl) as [p Hp].
      assert (start ≤ t) as Hle by (destruct (Hrs start Hst) as [_ Hf]; by apply Forall_cons in Hf as [Hf _]).
      replace (sat_sub t start) with (t - start) by (unfold sat_sub; lia).
      destruct (Z.leb_spec d (t - start)).
      * split; [intros _; left|done]. exists start, p. split_and!; [done..|]. apply (Hends start p Hst Hp). auto.
      * rewrite IH by done. split.
        { intros [(start' & p' & [= <-] & [= <-] & Hr)|Hw]; [left|right; by apply run_within_cons].
          exists start, p. split_and!; [done..|]. apply (Hends start p Hst Hp). auto. }
        intros [(start' & p' & H1 & H2 & Hr)|Hw].
        { apply (Hends start' p' H1 H2) in Hr as [[= <-] [[_ ?]|Hr]]; [lia|]. left. by exists start, t. }
        apply run_within_inv in Hw as [Hw|(t' & [= <-] & L1 & t2 & L2 & -> & Hq2 & Hd2)]; [by right|].
        left. exists start, t. split_and!; [done..|]. exists L1, t2, L2. split_and!; [done..|lia].
    + rewrite IH by done. split.
      * intros [(start & p & [= <-] & [= <-] & Hr)|Hw]; right; [by exists [], t, L|by apply run_within_cons].
      * intros [(start & p & H1 & H2 & Hr)|Hw]; [by apply (Hends start p H1 H2) in Hr as [? _]|].
        apply run_within_inv in Hw as [Hw|(t' & [= <-] & Hr)]; [by right|left; by exists t, t].
  - rewrite IH by done. split.
    + intros [(start & p' & H1 & [= <-] & Hr)|Hw]; [left|right; by apply run_within_cons].
      destruct (Hrs' start H1) as [Hst _]. destruct (Hprev start H1) as [p Hp]. exists start, p.
      split_and!; [done..|]. apply (Hends start p Hst Hp). auto.
    + intros [(start & p & H1 & H2 & Hr)|Hw].
      * apply (Hends start p H1 H2) in Hr as [Hst [[? _]|Hr]]; [done|]. left. by exists start, t.
      * apply run_within_inv in Hw as [Hw|(t' & [=] & _)]. by right.
Qed.
End run.

(** * Progress between two losses *)

Definition overlaps (lo hi : Z) (s : AckedSpan) : Prop := span_first s ≤ hi ∧ lo ≤ span_last s.

Lemma outstanding_between (o : list Z) lo hi : StronglySorted Z.le o →
  (partition_point (λ t, (t <=? lo)%Z) o <? partition_point (λ t, (t <? hi)%Z) o)%nat = true ↔ ∃ t, t ∈ o ∧ lo < t < hi.
Proof.
  rewrite Nat.ltb_lt. induction o as [|y o IH]; intros Hs; cbn [partition_point].
  { split; [lia|]. by intros (t & ?%elem_of_nil & _). }
  apply StronglySorted_inv in Hs as [Hs Hy]. rewrite Forall_forall in Hy. specialize (IH Hs).
  destruct (Z.leb_spec y lo), (Z.ltb_spec y hi).
  - rewrite <- Nat.succ_lt_mono, IH. split; intros (t & Ht & ?); exists t; (split; [|done]); [by right|].
    apply elem_of_cons in Ht as [->|]; [lia|done].
  - split; [lia|]. intros (t & _ & ?). lia.
  - split; [|lia]. intros _. exists y. split; [by left|lia].
  - split; [lia|]. intros (t & [->|Ht]%elem_of_cons & ?); [lia|]. specialize (Hy t Ht). lia.
Qed.

Section progress.
Variables (acked : list AckedSpan) (outs : list (list Z)).
Hypothesis acked_sorted : StronglySorted span_before acked.
Hypothesis acked_wf : ∀ s, s ∈ acked → span_first s ≤ span_last s.
Hypothesis outs_sorted : Forall (StronglySorted Z.le) outs.

Lemma span_hit lo hi :
  match acked !! partition_point (λ s, span_last s <? lo) acked with Some s => span_first s <=? hi | None => false end
  = true ↔ ∃ s, s ∈ acked ∧ overlaps lo hi s.
Proof.
  destruct (spans_split acked lo acked_sorted acked_wf) as [Hlo Hhi].
  set (i := partition_point _ acked) in *.
  assert (∀ s, s ∈ acked → lo ≤ span_last s → s ∈ drop i acked) as Hin.
  { intros s Hs Hle. rewrite <- (take_drop i acked) in Hs. apply elem_of_app in Hs as [Hs|]; [|done].
    apply Hlo in Hs. lia. }
  destruct (acked !! i) as [s|] eqn:Hi.
  - destruct Hhi as (Hdr & Hls & Hafter). rewrite Z.leb_le. split.
    + intros Hf. exists s. split; [by apply list_elem_of_lookup_2 in Hi|done].
    + intros (s' & Hs' & Ho1 & Ho2). apply Hin in Hs'; [|done]. rewrite Hdr in Hs'.
      apply elem_of_cons in Hs' as [->|Hs']; [done|]. specialize (Hafter _ Hs').
      pose proof (acked_wf s ltac:(by apply list_elem_of_lookup_2 in Hi)). lia.
  - split; [done|]. intros (s & Hs & _ & Ho). apply Hin in Hs; [|done]. rewrite Hhi in Hs. by apply elem_of_nil in Hs.
Qed.

Lemma progress_spec lo hi : progress_between acked outs lo hi = true ↔
  (∃ s, s ∈ acked ∧ overlaps lo hi s) ∨ ∃ o t, o ∈ outs ∧ t ∈ o ∧ lo < t < hi.
Proof.
  unfold progress_between. rewrite orb_true_iff, span_hit, existsb_exists. apply Morphisms_Prop.or_iff_morphism; [done|].
  rewrite Forall_forall in outs_sorted. split.
  - intros (o & Ho%list_elem_of_In & Hlt). apply outstanding_between in Hlt as (t & ? & ?); [|by apply outs_sorted].
    by exists o, t.
  - intros (o & t & Ho & Ht & ?). exists o. split; [by apply list_elem_of_In|].
    apply outstanding_between; [by apply outs_sorted|]. by exists t.
Qed.

(** No progress between consecutive losses from [p] to [t]: no span of acknowledged
    packets meets the interval, and what is outstanding inside was sent with a loss. *)
Lemma quiet_spec l : ∀ p t, StronglySorted Z.le (p :: l ++ [t]) →
  quiet (progress_between acked outs) p (l ++ [t]) ↔
  (∀ s, s ∈ acked → ¬ overlaps p t s) ∧ ∀ o x, o ∈ outs → x ∈ o → p < x < t → x ∈ l.
Proof.
  induction l as [|y l IH]; intros p t Hs; cbn [quiet app].
  - rewrite <- not_true_iff_false, progress_spec. split.
    + intros [Hn _]. split; [intros s Hx Ho; apply Hn; left; by exists s|]. intros o x Ho Hx ?. exfalso.
      apply Hn. right. by exists o, x.
    + intros [H1 H2]. split; [|done]. intros [(s & Hx & Ho)|(o & x & Ho & Hx & ?)]; [by apply (H1 s)|].
      specialize (H2 o x Ho Hx ltac:(lia)). by apply elem_of_nil in H2.
  - cbn [app] in Hs. apply StronglySorted_inv in Hs as [Hs Hp]. rewrite IH by done.
    apply Forall_cons in Hp as [Hpy _]. assert (y ≤ t) as Hyt.
    { apply StronglySorted_inv in Hs as [_ Hy]. rewrite Forall_forall in Hy. apply Hy, elem_of_app. right. by left. }
    rewrite <- not_true_iff_false, progress_spec. split.
    + intros (Hn & H1 & H2). split.
      * intros s Hx [Ho1 Ho2]. pose proof (acked_wf s Hx). destruct (Z.le_gt_cases (span_first s) y).
        { apply Hn. left. by exists s. } apply (H1 s Hx). split; lia.
      * intros o x Ho Hx ?. destruct (Z.lt_total x y) as [|[->|]]; [|by left|right; apply (H2 o x Ho Hx); lia].
        exfalso. apply Hn. right. exists o, x. split_and!; [done|done|lia|lia].
    + intros (H1 & H2). split; [|split].
      * intros [(s & Hx & Ho1 & Ho2)|(o & x & Ho & Hx & ?)]; [apply (H1 s Hx); split; lia|].
        specialize (H2 o x Ho Hx ltac:(lia)). apply elem_of_cons in H2 as [->|H2]; [lia|].
        apply StronglySorted_inv in Hs as [_ Hy]. rewrite Forall_forall in Hy.
        specialize (Hy x ltac:(apply elem_of_app; by left)). lia.
      * intros s Hx [Ho1 Ho2]. apply (H1 s Hx). split; lia.
      * intros o x Ho Hx ?. specialize (H2 o x Ho Hx ltac:(lia)). apply elem_of_cons in H2 as [->|]; [lia|done].
Qed.
End progress.

(** * The conditions checked first *)

Lemma edge_bounds_spec edges t : t ∈ edges → (edge_bounds edges).1 ≤ t ≤ (edge_bounds edges).2.
Proof.
  unfold edge_bounds. intros Ht.
  assert (∀ l b, let r := foldl (λ b t, (Z.min b.1 t, Z.max b.2 t)) b l in
    r.1 ≤ b.1 ∧ b.2 ≤ r.2 ∧ ∀ t, t ∈ l → r.1 ≤ t ≤ r.2) as Hf.
  { clear. induction l as [|y l IH]; intros b; cbn [foldl]; [split; [lia|]; split; [lia|]; by intros t ?%elem_of_nil|].
    specialize (IH (Z.min b.1 y, Z.max b.2 y)). cbn in IH. destruct IH as (H1 & H2 & H3).
    split; [lia|]. split; [lia|]. intros t [->|Ht]%elem_of_cons; [lia|by apply H3]. }
  by apply (Hf edges (DURATION_MAX, 0)).
Qed.

(** A quiet period inside the edges always passes the gap check. *)
Lemma gap_loop_passes spans latest d t1 t2 : 0 < d → d ≤ t2 - t1 → t2 ≤ latest →
  (∀ s, s ∈ spans → span_first s ≤ span_last s ∧ ¬ overlaps t1 t2 s) → ∀ cursor, cursor ≤ t1 →
  let r := gap_loop spans latest d cursor in r.1 = true ∨ d ≤ latest - r.2.
Proof.
  intros Hd Hlen Hl. induction spans as [|s spans IH]; intros Hs cursor Hc; cbn [gap_loop]; [right; cbn; lia|].
  assert (∀ s, s ∈ spans → span_first s ≤ span_last s ∧ ¬ overlaps t1 t2 s) as Hs' by (intros; apply Hs; by right).
  specialize (IH Hs'). destruct (Hs s ltac:(by left)) as [Hw Hno]. unfold overlaps in Hno.
  destruct (Z.ltb_spec (span_last s) cursor); [by apply IH|].
  destruct (Z.leb_spec d (sat_sub (Z.min (span_first s) latest) cursor)) as [|Hgap]; [by left|].
  apply IH. unfold sat_sub in Hgap. lia.
Qed.

(** * The definition of RFC 9002 7.6.2 *)

Definition counted_losses (s : LossState) (lost : list SentPacket) (first_sample : Z) : list (Z * bool) :=
  filter (λ l, loss_floor s first_sample < l.1) (all_losses s lost).

(** Two ack-eliciting packets, sent at least the duration apart after the first RTT
    sample and the last declaration, were lost; nothing sent between them was
    acknowledged, and what was sent between and is not acknowledged was lost too. *)
Definition persistent_congestion (s : LossState) (lost : list SentPacket) (acked_times : list Z) : Prop :=
  ∃ f t1 t2, first_rtt_sample s = Some f
    ∧ (t1, true) ∈ counted_losses s lost f ∧ (t2, true) ∈ counted_losses s lost f
    ∧ persistent_congestion_duration s ≤ t2 - t1
    ∧ (∀ a, a ∈ acked_times → ¬ t1 ≤ a ≤ t2)
    ∧ (∀ sp e, e ∈ sent_packets (per_space s sp) → t1 < time_sent e.2 < t2 →
         ∃ el, (time_sent e.2, el) ∈ counted_losses s lost f).

(** What the caller keeps true of the times. *)
Record times_ok (s : LossState) (lost : list SentPacket) (h : Z) : Prop := {
  to_srtt : 0 ≤ smoothed_rtt s;
  to_mad : 0 ≤ max_ack_delay s;
  to_losses : ∀ l, l ∈ all_losses s lost → h ≤ l.1 }.

Lemma duration_pos s : 0 ≤ smoothed_rtt s → 0 ≤ max_ack_delay s → K_GRANULARITY ≤ persistent_congestion_duration s.
Proof.
  intros H1 H2. unfold persistent_congestion_duration, pto_period, pto_base, dur_mul, dur_add,
    K_PERSISTENT_CONGESTION_THRESHOLD, DURATION_MAX, K_GRANULARITY, from_millis. lia.
Qed.

Lemma outstanding_spec ps : StronglySorted Z.le (outstanding ps)
  ∧ ∀ x, x ∈ outstanding ps ↔ ∃ e, e ∈ sent_packets ps ∧ x = time_sent e.2.
Proof.
  unfold outstanding. set (v := _ <$> _).
  assert (∀ x, x ∈ v ↔ ∃ e, e ∈ sent_packets ps ∧ x = time_sent e.2) as Hv.
  { intros x. unfold v. rewrite list_elem_of_fmap. naive_solver. }
  case_bool_decide as Hs.
  - split; [apply Sorted_StronglySorted; [intros a b c; lia|done]|done].
  - split; [apply StronglySorted_merge_sort; apply _|]. intros x. rewrite <- Hv. by rewrite merge_sort_Permutation.
Qed.

Lemma two_in_order (M : list (Z * bool)) t1 t2 : StronglySorted time_le M → (t1, true) ∈ M → (t2, true) ∈ M → t1 < t2 →
  ∃ L0 L1 L2, M = L0 ++ (t1, true) :: L1 ++ (t2, true) :: L2.
Proof.
  intros Hs H1 H2 Hlt. apply list_elem_of_split in H1 as (L0 & R & ->).
  apply sorted_app_before in Hs as (_ & _ & Hb).
  apply elem_of_app in H2 as [H2|[?|H2]%elem_of_cons]; [|simplify_eq; lia|].
  - specialize (Hb _ _ H2 ltac:(by left)). unfold time_le in Hb. cbn in Hb. lia.
  - apply list_elem_of_split in H2 as (L1 & L2 & ->). by exists L0, L1, L2.
Qed.

Section exact.
Context (s : LossState) (lost : list SentPacket) (A : list Z) (h f : Z).
Hypothesis Hrep : rep h A (acked_send_times s).
Hypothesis Hok : times_ok s lost h.

Let duration := persistent_congestion_duration s.
Let losses := counted_losses s lost f.
Let M := merge_sort time_le losses.
Let outs := (λ space, outstanding (per_space s space)) <$> all_spaces.
Let progress := progress_between (acked_send_times s) outs.

Lemma M_sorted : StronglySorted time_le M.
Proof.
  apply Sorted_StronglySorted; [intros a b c; unfold time_le; lia|].
  apply Sorted_merge_sort. intros a b. unfold time_le. lia.
Qed.

Lemma M_elem l : l ∈ M ↔ l ∈ losses.
Proof. unfold M. by rewrite merge_sort_Permutation. Qed.

Lemma losses_from l : l ∈ losses → h ≤ l.1.
Proof. intros [_ Hl]%list_elem_of_filter. by apply (to_losses _ _ _ Hok). Qed.

Lemma outs_ok : Forall (StronglySorted Z.le) outs.
Proof. apply Forall_forall. intros o (sp & -> & _)%list_elem_of_fmap. apply outstanding_spec. Qed.

Lemma outs_elem x : (∃ o, o ∈ outs ∧ x ∈ o) ↔ ∃ sp e, e ∈ sent_packets (per_space s sp) ∧ x = time_sent e.2.
Proof.
  split.
  - intros (o & (sp & -> & _)%list_elem_of_fmap & Hx). apply outstanding_spec in Hx as (e & ? & ?). by exists sp, e.
  - intros (sp & e & ? & ?). exists (outstanding (per_space s sp)). split.
    + apply list_elem_of_fmap. exists sp. split; [done|]. destruct sp; unfold all_spaces; set_solver.
    + apply outstanding_spec. by exists e.
Qed.

(** A span meets a period at least the granularity long exactly when a packet sent in
    the period was acknowledged. *)
Lemma spans_exact t1 t2 : h ≤ t1 → K_GRANULARITY ≤ t2 - t1 →
  (∀ sp, sp ∈ acked_send_times s → ¬ overlaps t1 t2 sp) ↔ ∀ a, a ∈ A → ¬ t1 ≤ a ≤ t2.
Proof.
  intros Hh Hg. split.
  - intros Hn a Ha Hin. destruct (rep_cover _ _ _ Hrep a Ha ltac:(lia)) as (sp & Hsp & Hs). apply (Hn sp Hsp).
    unfold in_span, overlaps in *. lia.
  - intros Hn sp Hsp [Ho1 Ho2]. pose proof (rep_wf _ _ _ Hrep sp Hsp).
    destruct (rep_dense _ _ _ Hrep sp (Z.max (span_first sp) t1) Hsp) as (a & b & Ha & Hb & Hab & Hd);
      [unfold in_span; lia|].
    destruct (Z.le_gt_cases t1 a); [apply (Hn a Ha)|apply (Hn b Hb)]; unfold K_GRANULARITY, from_millis in *; lia.
Qed.

(** The quiet runs of the sorted losses are the periods of the definition. *)
Definition quiet_period (t1 t2 : Z) : Prop :=
  (t1, true) ∈ losses ∧ (t2, true) ∈ losses ∧ duration ≤ t2 - t1 ∧ (∀ a, a ∈ A → ¬ t1 ≤ a ≤ t2)
  ∧ (∀ sp e, e ∈ sent_packets (per_space s sp) → t1 < time_sent e.2 < t2 → ∃ el, (time_sent e.2, el) ∈ losses).

Lemma dur_gran : K_GRANULARITY ≤ duration.
Proof. apply duration_pos; apply Hok. Qed.

Lemma split_sorted L0 t1 L1 t2 L2 : M = L0 ++ (t1, true) :: L1 ++ (t2, true) :: L2 →
  StronglySorted Z.le (t1 :: L1.*1 ++ [t2]).
Proof.
  intros E. pose proof M_sorted as Hs. rewrite E in Hs. apply sorted_app_before in Hs as (_ & Hs & _).
  change ((t1, true) :: L1 ++ (t2, true) :: L2) with (((t1, true) :: L1) ++ [(t2, true)] ++ L2) in Hs.
  rewrite app_assoc in Hs. apply sorted_app_before in Hs as (Hs & _ & _).
  change (t1 :: L1.*1 ++ [t2]) with (((t1, true) :: L1).*1 ++ [(t2, true)].*1). rewrite <- fmap_app.
  induction Hs as [|x l Hs IH Hx]; [constructor|]. rewrite fmap_cons. constructor; [done|].
  apply Forall_fmap. apply Forall_impl with (1 := Hx). done.
Qed.

Lemma run_exact : run_within progress duration M ↔ ∃ t1 t2, quiet_period t1 t2.
Proof.
  pose proof dur_gran as Hg. assert (0 < K_GRANULARITY) by done. split.
  - intros (L0 & t1 & R & E & L1 & t2 & L2 & -> & Hq & Hd). exists t1, t2.
    assert (∀ l, l ∈ L0 ++ (t1, true) :: L1 ++ (t2, true) :: L2 → l ∈ losses) as Hin by (intros l; rewrite <- E; apply M_elem).
    assert ((t1, true) ∈ losses) as H1 by (apply Hin; set_solver).
    apply quiet_spec in Hq as [Hq1 Hq2]; [|apply Hrep|apply Hrep|apply outs_ok|by eapply split_sorted].
    split; [done|]. split; [apply Hin; set_solver|]. split; [done|]. split.
    + apply spans_exact; [by apply losses_from in H1|lia|done].
    + intros sp e He Ht. destruct (proj2 (outs_elem (time_sent e.2))) as (o & Ho & Hx); [by exists sp, e|].
      specialize (Hq2 o _ Ho Hx Ht). apply list_elem_of_fmap in Hq2 as ([x el] & -> & Hel). exists el.
      apply Hin. set_solver.
  - intros (t1 & t2 & H1 & H2 & Hd & HA & Hout).
    destruct (two_in_order M t1 t2 M_sorted) as (L0 & L1 & L2 & E); [by apply M_elem..|lia|].
    exists L0, t1, (L1 ++ (t2, true) :: L2). split; [done|]. exists L1, t2, L2. split; [done|]. split; [|done].
    apply quiet_spec; [apply Hrep|apply Hrep|apply outs_ok|by eapply split_sorted|]. split.
    + apply spans_exact; [by apply losses_from in H1|lia|done].
    + intros o x Ho Hx Hlt. destruct (proj1 (outs_elem x)) as (sp & e & He & ->); [by exists o|].
      destruct (Hout sp e He Hlt) as [el Hel%M_elem]. pose proof M_sorted as Hs. rewrite E in Hel, Hs.
      apply list_elem_of_fmap. exists (time_sent e.2, el). split; [done|].
      apply sorted_app_before in Hs as (_ & Hs & Hb). apply StronglySorted_inv in Hs as [Hs _].
      apply sorted_app_before in Hs as (_ & Hs & _). apply StronglySorted_inv in Hs as [_ Ha].
      rewrite Forall_forall in Ha. unfold time_le in *.
      apply elem_of_app in Hel as [Hel|[Hel|[Hel|[Hel|Hel]%elem_of_cons]%elem_of_app]%elem_of_cons].
      * specialize (Hb _ _ Hel ltac:(by left)). cbn in Hb. lia.
      * simplify_eq. lia.
      * done.
      * simplify_eq. lia.
      * specialize (Ha _ Hel). cbn in Ha. lia.
Qed.
End exact.

(** C7: The test for persistent congestion decides the definition of RFC 9002 7.6.2.  Where
    the merged spans stand for the send times acknowledged so far, from some time on
    that is not after any loss on record, [in_persistent_congestion] answers yes
    exactly when an RTT sample exists and two ack-eliciting losses, both sent after it
    and after the last declaration, lie at least the duration apart with no
    acknowledged packet sent in between and with every packet still in flight from in
    between sent at the instant of a loss.  Merging close send times into spans and
    the two conditions checked before sorting never change the answer. *)
Theorem persistent_congestion_exact (s : LossState) (lost : list SentPacket) (acked_times : list Z) (h : Z)
  (Hrep : rep h acked_times (acked_send_times s)) (Hok : times_ok s lost h) :
  in_persistent_congestion s lost = true ↔ persistent_congestion s lost acked_times.
Proof.
  unfold in_persistent_congestion, persistent_congestion. destruct (first_rtt_sample s) as [f|] eqn:Hf.
  2: { split; [done|]. by intros (f & ? & ? & ? & _). }
  transitivity (∃ t1 t2, quiet_period s lost acked_times f t1 t2).
  2: { unfold quiet_period. split; [intros (t1 & t2 & H); by exists f, t1, t2|].
       intros (f' & t1 & t2 & [= <-] & H). by exists t1, t2. }
  rewrite <- (run_exact s lost acked_times h f Hrep Hok). set (d := persistent_congestion_duration s).
  assert (K_GRANULARITY ≤ d) as Hg by (apply (dur_gran s lost h Hok)). assert (0 < K_GRANULARITY) by done.
  cbv zeta. set (edges := filter _ (fst <$> _)). set (P := progress_between _ _). set (M := merge_sort _ _).
  assert (run_loop P d M None None = true ↔ run_within P d M) as Hrun.
  { rewrite run_loop_spec; [|apply M_sorted|done]. split; [intros [(? & ? & ? & _)|]; done|by right]. }
  change (run_within _ _ _) with (run_within P d M) at 1.
  pose proof (edge_bounds_spec edges) as Hedge. destruct (edge_bounds edges) as [earliest latest]. cbn [fst snd] in Hedge.
  assert (run_within P d M → ((latest <? earliest) || (sat_sub latest earliest <? d)) = false
    ∧ let r := gap_loop (acked_send_times s) latest d earliest in r.1 = true ∨ d ≤ latest - r.2) as Hpre.
  { intros Hr. apply (run_exact s lost acked_times h f Hrep Hok) in Hr as (t1 & t2 & H1 & H2 & Hd & HA & _).
    assert (∀ t, (t, true) ∈ counted_losses s lost f → earliest ≤ t ≤ latest) as Hin.
    { intros t [Hfl Ht]%list_elem_of_filter. apply Hedge, list_elem_of_filter. split; [done|].
      apply list_elem_of_fmap. exists (t, true). split; [done|]. by apply list_elem_of_filter. }
    pose proof (Hin t1 H1). pose proof (Hin t2 H2). fold d in Hd. split.
    - apply orb_false_iff. split; apply Z.ltb_ge; unfold sat_sub; lia.
    - apply gap_loop_passes with t1 t2; [lia..| |lia]. intros sp Hsp. split; [by apply (rep_wf _ _ _ Hrep)|].
      revert sp Hsp. apply (spans_exact s acked_times h Hrep); [|lia|done].
      apply (losses_from s lost h f Hok (t1, true) H1). }
  destruct ((latest <? earliest) || _); [split; [done|]; by intros [? _]%Hpre|].
  destruct (gap_loop _ _ _ _) as [gap_fits cursor]. cbn [fst snd] in Hpre. rewrite <- Hrun in *.
  destruct gap_fits; cbn [negb andb]; [done|]. destruct (Z.ltb_spec (sat_sub latest cursor) d) as [Hlt|]; [|done].
  split; [done|]. intros [_ [?|Hd]]%Hpre; [done|]. unfold sat_sub in Hlt. lia.
Qed.

Definition ex_pkt (pn t : Z) (el : bool) : SentPacket :=
  mkSentPacket pn 1200 el true (from_millis t) [] stream_hints_new [] false.

(** Losses at 10, 2000 and 4000 ms, the RTT known since 1 ms; a packet sent at 2000 ms is
    still in flight, and packets sent at 2, 3 and 5000 ms were acknowledged. *)
Definition ex_state : LossState :=
  (set_space Handshake (per_space_default <| sent_packets := [(7, ex_pkt 7 2000 true)] |>) loss_new)
    <| first_rtt_sample := Some (from_millis 1) |>
    <| acked_send_times := add_span (add_span (add_span [] (from_millis 2)) (from_millis 3)) (from_millis 5000) |>.

Lemma persistent_congestion_exact_witness :
  persistent_congestion ex_state [ex_pkt 1 10 true; ex_pkt 2 2000 false; ex_pkt 3 4000 true]
    [from_millis 5000; from_millis 3; from_millis 2].
Proof.
  apply (persistent_congestion_exact ex_state _ _ 0).
  - unfold ex_state. cbn [acked_send_times]. do 3 apply add_span_rep.
    split; first [constructor | by intros ? ?%elem_of_nil | by intros ? ? ?%elem_of_nil].
  - split; [done|done|]. unfold all_losses. cbn. intros l Hl.
    repeat (apply elem_of_cons in Hl as [->|Hl]; [done|]). by apply elem_of_nil in Hl.
  - vm_compute. reflexivity.
Defined.
