(* ===== verification/Endpoint.v ===== *)
(** The endpoint state of a QUIC connection ([src/quic/endpoint.rs], [src/quic/ecn.rs] and
    the parts of [src/quic/connection.rs] that work on it alone): packet-number spaces,
    CRYPTO buffers, loss recovery and congestion control, and what joins them. *)

From S2P Require Import Prelude TlsBase Varint Pn Ack BTree CryptoBuf Frame Streams Congestion Loss.

(** * Encryption levels and packet-number spaces *)

Module Level.
Inductive level := Initial | EarlyData | Handshake | OneRtt.
#[global] Instance level_eq_dec : EqDecision level.
Proof. solve_decision. Defined.
End Level.
Abbreviation Level := Level.level.

Definition pn_space_of_level (level : Level) : PnSpaceId :=
  match level with
  | Level.Initial => Initial
  | Level.Handshake => Handshake
  | Level.EarlyData | Level.OneRtt => Application
  end.

Record PnSpace := mkPnSpace {
  next_tx : Z; largest_rx : option Z; largest_acked_tx : option Z; pending_ack : AckRanges;
  ack_eliciting_pending : bool; largest_eliciting_arrival_us : option Z; first_eliciting_arrival_us : option Z;
  eliciting_since_ack : Z; ack_due : bool; rx_ecn : EcnCounts }.

#[export] Instance eta_pnspace : Eta PnSpace := λ p,
  mkPnSpace (next_tx p) (largest_rx p) (largest_acked_tx p) (pending_ack p) (ack_eliciting_pending p)
    (largest_eliciting_arrival_us p) (first_eliciting_arrival_us p) (eliciting_since_ack p) (ack_due p) (rx_ecn p).

(** [PnSpace::default()] *)
Definition pn_space_default : PnSpace := mkPnSpace 0 None None [] false None None 0 false (mkEcnCounts 0 0 0).

(** * ECN *)

Inductive EcnCodepoint := NotEct | Ect1 | Ect0 | Ce.

#[global] Instance EcnCodepoint_eq_dec : EqDecision EcnCodepoint.
Proof. solve_decision. Defined.

Definition ecn_from_bits (tos : Z) : EcnCodepoint :=
  match Z.land tos 3 with 1 => Ect1 | 2 => Ect0 | 3 => Ce | _ => NotEct end.

Definition ecn_to_bits (self : EcnCodepoint) : Z :=
  match self with NotEct => 0 | Ect1 => 1 | Ect0 => 2 | Ce => 3 end.

Definition is_ect (self : EcnCodepoint) : bool := match self with Ect0 | Ect1 => true | _ => false end.

Inductive EcnValidation := Testing | Capable | Failed.

#[global] Instance EcnValidation_eq_dec : EqDecision EcnValidation.
Proof. solve_decision. Defined.

Definition marks_egress (self : EcnValidation) : bool := match self with Failed => false | _ => true end.

(** * The endpoint *)

(** The keys of a level are modelled by whether they are installed. *)
Record Endpoint := mkEndpoint {
  tx_keys : Level → bool; rx_keys : Level → bool; bufs : Level → CryptoBuf; pn : PnSpaceId → PnSpace;
  loss : LossState; cc : NewReno }.

#[export] Instance eta_endpoint : Eta Endpoint := λ e,
  mkEndpoint (tx_keys e) (rx_keys e) (bufs e) (pn e) (loss e) (cc e).

Definition endpoint_new : Endpoint :=
  mkEndpoint (λ _, false) (λ _, false) (λ _, crypto_buf_new) (λ _, pn_space_default) loss_new newreno_new.

(** Writing one slot of an array indexed by level or space. *)
Definition upd {K V} `{EqDecision K} (f : K → V) (k : K) (v : V) : K → V := λ k', if decide (k' = k) then v else f k'.

Definition set_pn (self : Endpoint) (sp : PnSpaceId) (p : PnSpace) : Endpoint := self <| pn := upd (pn self) sp p |>.
Definition set_buf (self : Endpoint) (l : Level) (b : CryptoBuf) : Endpoint := self <| bufs := upd (bufs self) l b |>.

(** * Sending *)

Record PacketMeta := mkPacketMeta {
  has_path_frame : bool; carried_ack : bool; pm_ack_eliciting : bool; pm_in_flight : bool;
  crypto_hints : list CryptoHint; pm_stream_hints : StreamHints; pm_handshake_done : bool;
  pm_control_hints : list control_hint }.

(** The packet number [seal_packet] takes. *)
Definition allocate_pn (self : Endpoint) (level : Level) : Endpoint * Z :=
  let space := pn self (pn_space_of_level level) in
  (set_pn self (pn_space_of_level level) (space <| next_tx := next_tx space + 1 |>), next_tx space).

(** The ACK state once an ACK frame went out. *)
Definition clear_ack_state (space : PnSpace) : PnSpace :=
  space <| pending_ack := [] |> <| ack_eliciting_pending := false |> <| largest_eliciting_arrival_us := None |>
        <| first_eliciting_arrival_us := None |> <| eliciting_since_ack := 0 |> <| ack_due := false |>.

Definition sent_packet_of (pn packet_len : Z) (meta : PacketMeta) (now : Z) : SentPacket :=
  let hint := if is_nil (crypto_hints meta) then [] else build_retransmit_hint (crypto_hints meta) in
  let sent_bytes := if packet_len <=? 65535 then packet_len else 65535 in
  mkSentPacket pn sent_bytes (pm_ack_eliciting meta) (pm_in_flight meta) now hint (pm_stream_hints meta)
    (pm_control_hints meta) (pm_handshake_done meta).

(** The end of [seal_packet]; a close-only packet has no [meta]. *)
Definition register_sent (self : Endpoint) (level : Level) (pn_ packet_len : Z) (meta : option PacketMeta) (now : Z)
  : Endpoint :=
  match meta with
  | None => self
  | Some meta =>
      let sp := pn_space_of_level level in
      let self := if carried_ack meta then set_pn self sp (clear_ack_state (pn self sp)) else self in
      let pkt := sent_packet_of pn_ packet_len meta now in
      let self := self <| loss := on_packet_sent (loss self) sp pkt |> in
      if pm_in_flight meta then self <| cc := cc_on_packet_sent (cc self) (sent_bytes pkt) |> else self
  end.

(** * Losses *)

Definition feed_lost_to_cc (self : Endpoint) (space : PnSpaceId) (lost : list SentPacket) (now : Z) : Endpoint :=
  let self := self <| cc := on_packets_lost (cc self) (filter (λ p, in_flight p = true) lost) |> in
  let '(l, persistent) := record_lost_batch (loss self) space lost now in
  let self := self <| loss := l |> in
  if persistent then self <| cc := on_persistent_congestion (cc self) |> else self.

(** The level a hint names; [None] is skipped. *)
Definition level_of_hint (v : Z) : option Level :=
  match v with
  | 0 => Some Level.Initial
  | 1 => Some Level.EarlyData
  | 2 => Some Level.Handshake
  | 3 => Some Level.OneRtt
  | _ => None
  end.

Definition requeue_hint (self : Endpoint) (h : CryptoHint) : Endpoint :=
  match level_of_hint (ch_level h) with
  | None => self
  | Some l => set_buf self l (requeue_range (bufs self l) (ch_offset h) (ch_length h)).1
  end.

Definition requeue_from_hint (self : Endpoint) (hint : bytes) : Endpoint * tls_result () :=
  match parse_retransmit_hint hint with
  | Err e => (self, Err e)
  | Ok hints => (foldl requeue_hint self hints, Ok ())
  end.

Definition prune_hint (self : Endpoint) (h : CryptoHint) : Endpoint :=
  match level_of_hint (ch_level h) with
  | None => self
  | Some l => set_buf self l (on_range_acked (bufs self l) (ch_offset h) (ch_length h))
  end.

Definition prune_crypto_history_from_hint (self : Endpoint) (hint : bytes) : Endpoint * tls_result () :=
  match parse_retransmit_hint hint with
  | Err e => (self, Err e)
  | Ok hints => (foldl prune_hint self hints, Ok ())
  end.

(** [for pkt in .. { if !pkt.retransmit_hint.is_empty() { f(..)?; } }] *)
Fixpoint for_hints (f : Endpoint → bytes → Endpoint * tls_result ()) (self : Endpoint) (pkts : list SentPacket)
  : Endpoint * tls_result () :=
  match pkts with
  | [] => (self, Ok ())
  | p :: pkts =>
      if negb (is_nil (retransmit_hint p)) then
        match f self (retransmit_hint p) with
        | (self, Err e) => (self, Err e)
        | (self, Ok _) => for_hints f self pkts
        end
      else for_hints f self pkts
  end.

(** * Discarding a packet-number space *)

(** RFC 9002 A.10: the packets of the space leave loss recovery and congestion control. *)
Definition strand (self : Endpoint) (space : PnSpaceId) (now : Z) : Endpoint * list SentPacket :=
  let '(l, drained) := discard_keys (loss self) space now in
  let stranded := foldr Z.add 0 (sent_bytes <$> filter (λ p, in_flight p = true) drained) in
  (self <| loss := l |> <| cc := (cc self) <| bytes_in_flight := sat_sub (bytes_in_flight (cc self)) stranded |> |>, drained).

(** [discard_level], without the retained receive keys of the original version. *)
Definition discard_level (self : Endpoint) (lvl : Level) (now : Z) : Endpoint :=
  let self := self <| tx_keys := upd (tx_keys self) lvl false |> <| rx_keys := upd (rx_keys self) lvl false |> in
  let self := set_buf self lvl crypto_buf_new in
  let self := (strand self (pn_space_of_level lvl) now).1 in
  set_pn self (pn_space_of_level lvl) pn_space_default.

Definition discard_handshake_levels (r : Role) (self : Endpoint) (now : Z) : Endpoint :=
  let levels := match r with Server => [Level.Initial; Level.Handshake] | Client => [Level.Initial] end in
  foldl (λ e lvl, discard_level e lvl now) self levels.

(** What a Retry does to the Initial space: the packet numbers go on. *)
Definition rewind_initial (self : Endpoint) (now : Z) : Endpoint :=
  let self := set_pn self Initial ((pn self Initial) <| largest_acked_tx := None |>) in
  let '(self, drained) := strand self Initial now in
  let self := foldl (λ e p, if negb (is_nil (retransmit_hint p)) then (requeue_from_hint e (retransmit_hint p)).1 else e)
                self drained in
  let buf := bufs self Level.Initial in
  if negb (outbound_pending buf) then set_buf self Level.Initial (schedule_last_chunk_retransmit buf).1 else self.

(** * Receiving *)

Definition count_ecn (c : EcnCounts) (e : EcnCodepoint) : EcnCounts :=
  match e with
  | Ect0 => mkEcnCounts (ect0 c + 1) (ect1 c) (ce c)
  | Ect1 => mkEcnCounts (ect0 c) (ect1 c + 1) (ce c)
  | Ce => mkEcnCounts (ect0 c) (ect1 c) (ce c + 1)
  | NotEct => c
  end.

(** The bookkeeping for an ack-eliciting packet. *)
Definition note_eliciting (space : PnSpace) (level : Level) (pn_ : Z) (largest_before : option Z) (ecn : EcnCodepoint)
  (arrival_us : Z) : PnSpace :=
  let space := if negb (ack_eliciting_pending space) then space <| first_eliciting_arrival_us := Some arrival_us |> else space in
  let space := space <| ack_eliciting_pending := true |> <| largest_eliciting_arrival_us := Some arrival_us |>
                     <| eliciting_since_ack := sat_add 8 (eliciting_since_ack space) 1 |> in
  let out_of_order := match largest_before with
                      | Some l => (pn_ <? l) || (sat_add 64 l 1 <? pn_)
                      | None => false
                      end in
  if negb (bool_decide (level = Level.OneRtt) || bool_decide (level = Level.EarlyData))
     || (2 <=? eliciting_since_ack space) || out_of_order || bool_decide (ecn = Ce)
  then space <| ack_due := true |> else space.

(** The end of [dispatch_frames]: the packet-number space. *)
Definition note_received (space : PnSpace) (level : Level) (pn_ : Z) (ack_eliciting : bool) (ecn : EcnCodepoint)
  (now : Z) : PnSpace :=
  let arrival_us := Z.min (as_micros now) U64_MAX in
  let largest_before := largest_rx space in
  let space := space <| largest_rx := Some (match largest_rx space with Some prev => Z.max prev pn_ | None => pn_ end) |> in
  let space := space <| pending_ack := ack_insert (pending_ack space) pn_ |> in
  let space := space <| rx_ecn := count_ecn (rx_ecn space) ecn |> in
  if ack_eliciting then note_eliciting space level pn_ largest_before ecn arrival_us else space.

(** The ACK frame [assemble_payload] writes for a space; [exponent] is the one we
    advertised, used for the application space. *)
Definition ack_frame_of (space : PnSpace) (level : Level) (exponent : option Z) (now : Z) : option Frame.frame :=
  match build_ack_ranges_raw (pending_ack space) with
  | None => None
  | Some (largest, first_range, raw) =>
      let exp := match level with Level.Initial | Level.Handshake => 3 | _ => default 3 exponent end in
      let now_us := Z.min (as_micros now) U64_MAX in
      let ack_delay := match largest_eliciting_arrival_us space with
                       | Some t => Z.shiftr (sat_sub now_us t) exp
                       | None => 0
                       end in
      let c := rx_ecn space in
      let ecn := if negb (Z.lor (Z.lor (ect0 c) (ect1 c)) (ce c) =? 0) then Some c else None in
      Some (Frame.Ack largest ack_delay raw first_range ecn)
  end.

(** The level's pending ACK makes a packet worth sending. *)
Definition ack_pending (self : Endpoint) (level : Level) : bool :=
  let space := pn self (pn_space_of_level level) in
  negb (bool_decide (level = Level.EarlyData)) && negb (is_nil (pending_ack space)) && ack_due space.

(** * Reading an ACK frame *)

(** The loop over the gaps and lengths; [fuel] is the length of the bytes. *)
Fixpoint ack_blocks (fuel : nat) (raw : bytes) (block_smallest : Z) (acc : list pn_range) : tls_result (list pn_range) :=
  match ack_range_next raw with
  | None => Ok acc
  | Some (Err e, _) => Err e
  | Some (Ok (gap, range_length), raw) =>
      match fuel with
      | O => Ok acc
      | S fuel =>
          gap_plus_two ← ok_or (checked_add 64 gap 2) Error.Decode;
          if block_smallest <? gap_plus_two then Err Error.Decode
          else
            let next_largest := block_smallest - gap_plus_two in
            if next_largest <? range_length then Err Error.Decode
            else
              let next_smallest := next_largest - range_length in
              ack_blocks fuel raw next_smallest (acc ++ [(next_smallest, next_largest)])
      end
  end.

Definition ack_frame_ranges (largest first_range : Z) (raw : bytes) : tls_result (list pn_range) :=
  if largest <? first_range then Err Error.Decode
  else ack_blocks (length raw) raw (largest - first_range) [(largest - first_range, largest)].

(** The peer's [ack_delay] as a duration; [exponent] is the peer's, for the application space. *)
Definition ack_delay_duration (level : Level) (exponent : option Z) (ack_delay : Z) : Z :=
  let exp := match level with Level.Initial | Level.Handshake => 3 | _ => default 3 exponent end in
  let us := if exp <? 64 then (if ack_delay * 2 ^ exp <=? U64_MAX then ack_delay * 2 ^ exp else U64_MAX) else U64_MAX in
  us * 1000.

(** The largest acknowledged number must have been sent. *)
Definition acks_sent (next_tx_ largest : Z) : bool :=
  match checked_sub next_tx_ 1 with Some highest_sent => largest <=? highest_sent | None => false end.
