(* ===== verification/Conn.v ===== *)
(** The QUIC connection ([src/quic/connection.rs]): dispatch of the frames of an
    authenticated packet, the reaction to acknowledgements, losses and timers, migration
    between addresses, and closing.  Packet protection and the TLS engine are outside:
    the engine is a parameter, the payloads come decrypted. *)

From S2P Require Import Prelude TlsBase Varint Ct Path Pn Ack BTree CryptoBuf Frame Datagram RecvStream SendStream Streams Cid Congestion Loss Endpoint.

(** * Error codes *)

Definition ERROR_APPLICATION_ERROR : Z := 0x0c.
Definition ERROR_FRAME_ENCODING : Z := 0x07.
Definition ERROR_PROTOCOL_VIOLATION : Z := 0x0a.
Definition ERROR_CRYPTO_BASE : Z := 0x0100.

Definition crypto_error_code (err : Error.tls_error) : Z :=
  match Error.certificate_alert err with
  | Some alert => ERROR_CRYPTO_BASE + AlertDescription.alert_as_u8 alert
  | None =>
      let alert :=
        match err with
        | Error.AlertReceived a => a
        | Error.Decode => AlertDescription.DecodeError
        | Error.UnexpectedMessage => AlertDescription.UnexpectedMessage
        | Error.BadRecordMac => AlertDescription.BadRecordMac
        | Error.UnsupportedVersion => AlertDescription.ProtocolVersion
        | Error.BadCertificate | Error.OcspResponseInvalid => AlertDescription.BadCertificate
        | Error.PeerMisbehaved | Error.InappropriateState | Error.IllegalParameter =>
            AlertDescription.IllegalParameter
        | Error.RecordOverflow => AlertDescription.RecordOverflow
        | Error.TooManyRecords => AlertDescription.InternalError
        | Error.NoApplicationProtocol => AlertDescription.NoApplicationProtocol
        | Error.DecryptError => AlertDescription.DecryptError
        | Error.CertificateRequired => AlertDescription.CertificateRequired
        | Error.UnsupportedExtension => AlertDescription.UnsupportedExtension
        | Error.MissingExtension => AlertDescription.MissingExtension
        | _ => AlertDescription.HandshakeFailure
        end in
      ERROR_CRYPTO_BASE + AlertDescription.alert_as_u8 alert
  end.

Definition transport_error_code (err : Error.tls_error) : Z :=
  match err with Error.Decode => ERROR_FRAME_ENCODING | _ => ERROR_PROTOCOL_VIOLATION end.

#[global] Instance Role_eq_dec : EqDecision Role.
Proof. solve_decision. Defined.

(** * Which frames a level may carry *)

Definition frame_allowed_at_level (frame : Frame.frame) (level : Level) : bool :=
  let early_or_one := match level with Level.EarlyData | Level.OneRtt => true | _ => false end in
  match frame with
  | Frame.Padding _ | Frame.Ping => true
  | Frame.ConnectionClose _ (Some _) _ => true
  | Frame.ConnectionClose _ None _ => early_or_one
  | Frame.Ack _ _ _ _ _ | Frame.Crypto _ _ => match level with Level.EarlyData => false | _ => true end
  | Frame.ResetStream _ _ _ | Frame.StopSending _ _ | Frame.Stream _ _ _ _ | Frame.MaxData _
  | Frame.MaxStreamData _ _ | Frame.MaxStreams _ _ | Frame.DataBlocked _ | Frame.StreamDataBlocked _ _
  | Frame.StreamsBlocked _ _ | Frame.NewConnectionId _ _ _ _ | Frame.RetireConnectionId _
  | Frame.PathChallenge _ | Frame.Datagram _ => early_or_one
  | Frame.NewToken _ | Frame.PathResponse _ | Frame.HandshakeDone =>
      match level with Level.OneRtt => true | _ => false end
  end.

(** * The connection *)

Inductive CloseInitiator := Local | Peer | IdleTimeout | StatelessReset.
Inductive CloseKind := Transport | ApplicationClose.

(** [reason] before its lossy decoding as UTF-8. *)
Record CloseInfo := mkCloseInfo {
  initiator : CloseInitiator; kind : CloseKind; error_code : Z; frame_type : option Z; reason : bytes }.

Definition MAX_REASON_LEN : Z := 1024.
Definition decode_reason (reason : bytes) : bytes := ztake (Z.min (zlen reason) MAX_REASON_LEN) reason.

Record PendingClose := mkPendingClose { pc_frame : bytes; pc_level : Level; pc_armed : bool }.

#[export] Instance eta_pclose : Eta PendingClose := λ p, mkPendingClose (pc_frame p) (pc_level p) (pc_armed p).

(** [prev_cid] is kept with the connection ids ([cc_migration]). *)
Record PathMigration := mkPathMigration {
  prev_addr : SocketAddr; challenge : bytes; deadline : Z; retry_at : Z; retried : bool; port_only : bool;
  prev_path : Path }.

#[export] Instance eta_migration : Eta PathMigration := λ m,
  mkPathMigration (prev_addr m) (challenge m) (deadline m) (retry_at m) (retried m) (port_only m) (prev_path m).

(** [our_params] and [peer_params] as far as they are read here. *)
Record ConnParams := mkConnParams {
  our_max_idle_timeout_ms : option Z; our_max_ack_delay_ms : option Z; our_ack_delay_exponent : option Z;
  our_disable_active_migration : bool; peer_max_idle_timeout_ms : option Z; peer_ack_delay_exponent : option Z }.

Record Conn (E : Type) := mkConn {
  conn_role : Role; params : ConnParams; engine : E; ep : Endpoint; ecn_tx : EcnValidation; ecn_acked : EcnCounts;
  streams : option Streams; datagram_queues : DatagramQueues; cids : ConnCids;
  active_path : Path; path : PathChallengeState; migration : option PathMigration; peer_addr : option SocketAddr;
  peer_addr_validated : bool; offpath_responses : list (SocketAddr * bytes * Z);
  handshake_complete : bool; conn_confirmed : bool; handshake_done_acked : bool; handshake_done_pending : bool;
  closed : bool; draining : bool; pending_close : option PendingClose; close_deadline : option Z;
  close_info : option CloseInfo; close_rx_since_send : Z; close_resend_threshold : Z;
  pending_error_code : option Z; rx_non_probing : bool; current_rx_addr : option SocketAddr; current_rx_len : Z;
  current_rx_ecn : EcnCodepoint; peer_packet_seen : bool; last_recv_activity : Z }.

Arguments mkConn {E}.
Arguments conn_role {E}. Arguments params {E}. Arguments engine {E}. Arguments ep {E}. Arguments ecn_tx {E}.
Arguments ecn_acked {E}. Arguments streams {E}. Arguments datagram_queues {E}. Arguments cids {E}.
Arguments active_path {E}. Arguments path {E}. Arguments migration {E}. Arguments peer_addr {E}.
Arguments peer_addr_validated {E}. Arguments offpath_responses {E}. Arguments handshake_complete {E}.
Arguments conn_confirmed {E}. Arguments handshake_done_acked {E}. Arguments handshake_done_pending {E}.
Arguments closed {E}. Arguments draining {E}. Arguments pending_close {E}. Arguments close_deadline {E}.
Arguments close_info {E}. Arguments close_rx_since_send {E}. Arguments close_resend_threshold {E}.
Arguments pending_error_code {E}. Arguments rx_non_probing {E}. Arguments current_rx_addr {E}.
Arguments current_rx_len {E}. Arguments current_rx_ecn {E}. Arguments peer_packet_seen {E}. Arguments last_recv_activity {E}.

#[export] Instance eta_conn {E} : Eta (Conn E) := λ c,
  mkConn (conn_role c) (params c) (engine c) (ep c) (ecn_tx c) (ecn_acked c) (streams c) (datagram_queues c) (cids c)
    (active_path c) (path c) (migration c) (peer_addr c) (peer_addr_validated c) (offpath_responses c)
    (handshake_complete c) (conn_confirmed c) (handshake_done_acked c) (handshake_done_pending c) (closed c)
    (draining c) (pending_close c) (close_deadline c) (close_info c) (close_rx_since_send c) (close_resend_threshold c)
    (pending_error_code c) (rx_non_probing c) (current_rx_addr c) (current_rx_len c) (current_rx_ecn c)
    (peer_packet_seen c) (last_recv_activity c).

Section conn.
Context {E : Type}.
(** [process_quic_handshake_bytes] of the TLS engine. *)
Context (process_quic_handshake_bytes : E → Level → bytes → E * tls_result ()).

Implicit Types self : Conn E.

(** * ECN *)

Definition process_ecn_ack self (reported : option EcnCounts) (event_time : Z) : Conn E :=
  if decide (ecn_tx self = Failed) then self
  else
    match reported with
    | None => self
    | Some counts =>
        let prev := ecn_acked self in
        if (ect0 counts <? ect0 prev) || (ect1 counts <? ect1 prev) || (ce counts <? ce prev) then
          self <| ecn_tx := Failed |>
        else
          let self := if decide (ecn_tx self = Testing) then self <| ecn_tx := Capable |> else self in
          let self := if ce prev <? ce counts then
                        self <| ep := (ep self) <| cc := on_ecn_ce_increase (cc (ep self)) Application (ce counts) event_time |> |>
                      else self in
          self <| ecn_acked := counts |>
    end.

Definition egress_ecn self : EcnCodepoint := if marks_egress (ecn_tx self) then Ect0 else NotEct.

(** * Closing *)

(** [Option::get_or_insert] *)
Definition get_or_insert {A} (o : option A) (x : A) : option A := match o with Some y => Some y | None => Some x end.

(** Three probe timeouts from now. *)
Definition close_time self (now : Z) : Z := dur_add now (dur_mul (pto_period (loss (ep self))) 3).

Definition enter_draining self (info : CloseInfo) (now : Z) : Conn E :=
  self <| pending_close := None |> <| draining := true |> <| close_deadline := Some (close_time self now) |>
       <| close_info := get_or_insert (close_info self) info |>.

Definition is_closing_state self : bool := closed self || draining self || bool_decide (pending_close self ≠ None).

(** The highest level whose write keys are installed, 1-RTT only once the handshake is complete. *)
Definition close_level self : option Level :=
  if handshake_complete self && tx_keys (ep self) Level.OneRtt then Some Level.OneRtt
  else find (tx_keys (ep self)) [Level.Handshake; Level.Initial].

Definition encode_close (error : Z) (ft : option Z) (reason : bytes) : bytes :=
  default [] (frame_encode (Frame.ConnectionClose error ft reason) []).

(** The fields set when a close is queued. *)
Definition arm_close self (frame : bytes) (level : Level) (now : Z) : Conn E :=
  self <| pending_close := Some (mkPendingClose frame level true) |> <| close_rx_since_send := 0 |>
       <| close_resend_threshold := 1 |> <| close_deadline := Some (close_time self now) |>.

Definition close self (error_code : Z) (reason : bytes) (now : Z) : Conn E :=
  if is_closing_state self then self
  else
    let reason := ztake (Z.min (zlen reason) MAX_REASON_LEN) reason in
    let info := mkCloseInfo Local ApplicationClose error_code None (decode_reason reason) in
    match close_level self with
    | None => self <| closed := true |> <| close_info := Some info |>
    | Some level =>
        let frame := if decide (level = Level.OneRtt) then encode_close error_code None reason
                     else encode_close ERROR_APPLICATION_ERROR (Some 0) [] in
        (arm_close self frame level now) <| close_info := Some info |>
    end.

Definition close_with_transport_error self (error_code : Z) (now : Z) : Conn E :=
  if is_closing_state self then self
  else
    let info := mkCloseInfo Local Transport error_code (Some 0) [] in
    match close_level self with
    | None => self <| closed := true |> <| close_info := get_or_insert (close_info self) info |>
    | Some level =>
        (arm_close self (encode_close error_code (Some 0) []) level now)
          <| close_info := get_or_insert (close_info self) info |>
    end.

Definition note_close_state_datagram self : Conn E :=
  if draining self then self
  else
    match pending_close self with
    | None => self
    | Some pc =>
        let self := self <| close_rx_since_send := sat_add 32 (close_rx_since_send self) 1 |> in
        if close_resend_threshold self <=? close_rx_since_send self then
          self <| close_rx_since_send := 0 |>
               <| close_resend_threshold := Z.min (2 ^ 32 - 1) (close_resend_threshold self * 2) |>
               <| pending_close := Some (pc <| pc_armed := true |>) |>
        else self
    end.

(** * Losses, probes and the loss-detection timer *)

Definition note_handshake_done_fate self (acked lost : list SentPacket) : Conn E :=
  let self := if existsb sp_handshake_done acked then self <| handshake_done_acked := true |> else self in
  if negb (handshake_done_acked self) && existsb sp_handshake_done lost
  then self <| handshake_done_pending := true |> else self.

Definition hint_acked (s : Streams) (h : StreamHint) : Streams :=
  on_chunk_acked s (sh_id h) (sh_offset h) (sh_length h) (sh_fin h).
Definition hint_lost (s : Streams) (h : StreamHint) : Streams :=
  on_chunk_lost s (sh_id h) (sh_offset h) (sh_length h) (sh_fin h).

Definition packet_acked (s : Streams) (p : SentPacket) : Streams :=
  foldl on_control_acked (foldl hint_acked s (stream_hints_iter (stream_hints p))) (control_hints p).
Definition packet_lost (s : Streams) (p : SentPacket) : Streams :=
  foldl on_control_lost (foldl hint_lost s (stream_hints_iter (stream_hints p))) (control_hints p).

(** [let _ = self.requeue_from_hint(..)] for every packet that has a hint. *)
Definition requeue_packets (e : Endpoint) (pkts : list SentPacket) : Endpoint :=
  foldl (λ e p, if negb (is_nil (retransmit_hint p)) then (requeue_from_hint e (retransmit_hint p)).1 else e) e pkts.

Definition handle_lost_packets self (space : PnSpaceId) (lost : list SentPacket) (now : Z) : Conn E :=
  let self := self <| ep := feed_lost_to_cc (ep self) space lost now |> in
  let self := self <| ep := requeue_packets (ep self) lost |> in
  let self := note_handshake_done_fate self [] lost in
  self <| streams := (λ s, foldl packet_lost s lost) <$> streams self |>.

(** The loop of [detect_lost_on_timer]: one space per round. *)
Fixpoint detect_rounds (n : nat) self (now : Z) : option (Conn E) :=
  match n with
  | O => Some self
  | S n =>
      match next_loss_time (loss (ep self)) with
      | None => Some self
      | Some (deadline, space) =>
          if now <? deadline then Some self
          else
            '(l, lost) ← detect_lost (loss (ep self)) space now;
            let self := self <| ep := (ep self) <| loss := l |> |> in
            if is_nil lost then detect_rounds n self now
            else detect_rounds n (handle_lost_packets self space lost now) now
      end
  end.

Definition detect_lost_on_timer self (now : Z) : option (Conn E) := detect_rounds 3 self now.

Definition sync_loss_context self : Conn E :=
  let is_server_ := bool_decide (conn_role self = Server) in
  let ctx_ := ctx (loss (ep self)) in
  self <| ep := (ep self) <| loss := (loss (ep self)) <| ctx :=
    mkLossContext is_server_ (conn_confirmed self) (tx_keys (ep self) Level.Handshake) (peer_handshake_acked ctx_)
      (is_server_ && negb (path_can_send (active_path self) 1)) |> |> |>.

Definition refresh_loss_timer self (now : Z) : Conn E :=
  let self := sync_loss_context self in
  self <| ep := (ep self) <| loss := set_loss_detection_timer (loss (ep self)) now |> |>.

Definition space_has_new_data self (space : PnSpaceId) : bool :=
  match space with
  | Initial => outbound_pending (bufs (ep self) Level.Initial)
  | Handshake => outbound_pending (bufs (ep self) Level.Handshake)
  | Application =>
      outbound_pending (bufs (ep self) Level.OneRtt)
      || match streams self with Some s => has_pending s | None => false end
      || negb (is_nil (outbound_dgs (datagram_queues self)))
      || has_pending_response (path self) || has_pending_challenge (path self)
      || match cc_remote (cids self) with Some p => negb (is_nil (cp_pending_retire p)) | None => false end
      || (handshake_complete self && negb (cc_new_cids_issued (cids self)))
      || handshake_done_pending self
  end.

Definition requeue_for_probe self (pkt : SentPacket) : Conn E :=
  let self := self <| ep := requeue_packets (ep self) [pkt] |> in
  let self := self <| streams := (λ s, packet_lost s pkt) <$> streams self |> in
  if sp_handshake_done pkt && negb (handshake_done_acked self) then self <| handshake_done_pending := true |> else self.

(** The loop over the other spaces. *)
Definition probe_other self (space other : PnSpaceId) : Conn E :=
  if bool_decide (other = space) || negb (space_has_ack_eliciting_in_flight (loss (ep self)) other)
     || (bool_decide (other = Application) && negb (conn_confirmed self)) || space_has_new_data self other
  then self
  else foldl requeue_for_probe self (oldest_ack_eliciting (loss (ep self)) other 1).

Definition send_pto_probes self (space : PnSpaceId) : Conn E :=
  let self := if negb (space_has_new_data self space)
              then foldl requeue_for_probe self (oldest_ack_eliciting (loss (ep self)) space (Z.to_nat K_PTO_PROBES))
              else self in
  let self := foldl (λ c other, probe_other c space other) self all_spaces in
  if negb (handshake_done_acked self)
     && existsb (λ e, sp_handshake_done e.2) (sent_packets (per_space (loss (ep self)) Application))
  then self <| handshake_done_pending := true |> else self.

(** * Acknowledgements *)

(** Steps 3 to 5: loss detection and congestion control; the packets acknowledged and lost. *)
Definition ack_recovery self (level : Level) (ranges : list pn_range) (delay : Z) (ecn : option EcnCounts) (now : Z)
  : option (Conn E * list SentPacket * list SentPacket) :=
  let space := pn_space_of_level level in
  let prev_largest_acked := largest_acked_packet (per_space (loss (ep self)) space) in
  '(l, acked) ← on_ack_received (loss (ep self)) space ranges delay now;
  let self := self <| ep := (ep self) <| loss := l |> |> in
  let self := self <| ep := (ep self) <| cc := on_packets_acked (cc (ep self)) (filter (λ p, in_flight p = true) acked) |> |> in
  let self := if decide (space = Application)
              then process_ecn_ack self ecn (default now (list_max (time_sent <$> acked))) else self in
  if is_nil acked && bool_decide (largest_acked_packet (per_space (loss (ep self)) space) = prev_largest_acked)
  then Some (self, acked, [])
  else
    '(l, lost) ← detect_lost (loss (ep self)) space now;
    let self := self <| ep := (ep self) <| loss := l |> |> in
    Some (self <| ep := feed_lost_to_cc (ep self) space lost now |>, acked, lost).

(** Steps 6 to 6c: what the packets carried, and the largest number acknowledged. *)
Definition ack_contents self (level : Level) (largest : Z) (acked lost : list SentPacket) : Conn E * tls_result () :=
  match for_hints requeue_from_hint (ep self) lost with
  | (e, Err err) => (self <| ep := e |>, Err err)
  | (e, Ok _) =>
      let self := note_handshake_done_fate (self <| ep := e |>) acked lost in
      match for_hints prune_crypto_history_from_hint (ep self) acked with
      | (e, Err err) => (self <| ep := e |>, Err err)
      | (e, Ok _) =>
          let self := self <| ep := e |> in
          let self := self <| streams := (λ s, foldl packet_lost (foldl packet_acked s acked) lost) <$> streams self |> in
          let space := pn (ep self) (pn_space_of_level level) in
          let space := space <| largest_acked_tx :=
                         Some (match largest_acked_tx space with Some prev => Z.max prev largest | None => largest end) |> in
          (self <| ep := set_pn (ep self) (pn_space_of_level level) space |>, Ok ())
      end
  end.

Definition on_ack_frame self (level : Level) (largest ack_delay : Z) (raw : bytes) (first_range : Z)
  (ecn : option EcnCounts) (now : Z) : option (Conn E * tls_result ()) :=
  match ack_frame_ranges largest first_range raw with
  | Err e => Some (self, Err e)
  | Ok ranges =>
      let delay := ack_delay_duration level (peer_ack_delay_exponent (params self)) ack_delay in
      if negb (acks_sent (next_tx (pn (ep self) (pn_space_of_level level))) largest)
      then Some (self, Err Error.IllegalParameter)
      else
        '(self, acked, lost) ← ack_recovery self level ranges delay ecn now;
        Some (ack_contents self level largest acked lost)
  end.

(** * Migration *)

(** [rnd] is the challenge the random source gives. *)
Definition begin_path_migration self (from to : SocketAddr) (rnd : bytes) (now : Z) : Conn E :=
  let self := self <| path := issue (path self) rnd now |> in
  let timeout := Z.max (dur_mul (pto_period (loss (ep self))) 3) (from_millis 200) in
  let m := mkPathMigration from rnd (dur_add now timeout) (dur_add now (timeout / 2)) false
             (bool_decide (ip from = ip to)) (active_path self) in
  self <| migration := Some m |> <| cids := begin_migration (cids self) |> <| active_path := path_default |>
       <| peer_addr := Some to |> <| peer_addr_validated := false |>.

Definition abandon_path_migration self : Conn E :=
  match migration self with
  | None => self
  | Some m =>
      self <| migration := None |> <| peer_addr := Some (prev_addr m) |> <| cids := abandon_migration (cids self) |>
           <| peer_addr_validated := true |> <| active_path := prev_path m |>
  end.

Definition path_migration_validated self : Conn E :=
  match migration self with
  | None => self
  | Some m =>
      let self := self <| migration := None |> <| peer_addr_validated := true |>
                       <| cids := on_migration_validated (cids self) |>
                       <| active_path := (active_path self) <| validated := true |> |> in
      if negb (port_only m) then
        self <| ep := (ep self) <| cc := newreno_reset (cc (ep self)) |> <| loss := reset_rtt (loss (ep self)) |> |>
      else self
  end.

Definition maybe_migrate self (pn_ : Z) (largest_rx_before : option Z) (rnd : bytes) (now : Z) : Conn E :=
  match current_rx_addr self with
  | None => self
  | Some from =>
      match peer_addr self with
      | None => self <| peer_addr := Some from |> <| peer_addr_validated := true |>
      | Some current =>
          if decide (from = current) then self
          else if negb (bool_decide (conn_role self = Server)) then self
          else if negb (handshake_complete self) then self
          else if is_closing_state self then self
          else if negb (rx_non_probing self) then self
          else if match largest_rx_before with Some l => pn_ <=? l | None => false end then self
          else if our_disable_active_migration (params self) then self
          else if match migration self with Some m => bool_decide (from = prev_addr m) | None => false end
          then abandon_path_migration self
          else if bool_decide (migration self ≠ None) then self
          else
            let self := begin_path_migration self current from rnd now in
            let self := self <| active_path := note_recv (active_path self) (current_rx_len self) |> in
            self <| cids := rotate_cid_for_new_path (cids self) |>
      end
  end.

Definition OFFPATH_RESPONSE_CAP : Z := 8.

(** The loop of [divert_offpath_responses]. *)
Fixpoint divert_loop (taken : list (bytes * SocketAddr)) (rx_len : Z) (queue : list (SocketAddr * bytes * Z))
  : list (SocketAddr * bytes * Z) :=
  match taken with
  | [] => queue
  | (data, from) :: taken =>
      if OFFPATH_RESPONSE_CAP <=? zlen queue then queue else divert_loop taken rx_len (queue ++ [(from, data, rx_len)])
  end.

Definition divert_offpath_responses self : Conn E :=
  let '(p, taken) := take_responses_off_path (path self) (peer_addr self) in
  self <| path := p |> <| offpath_responses := divert_loop taken (current_rx_len self) (offpath_responses self) |>.

Definition path_budget_permits self (n : Z) (count_bounded : bool) : bool :=
  path_can_send (active_path self) n || (count_bounded && bool_decide (conn_role self = Client)).

(** * Dispatch of frames *)

(** What a frame does to the loop: go on, and whether it elicits an ACK, or return. *)
Inductive frame_outcome := Next (eliciting : bool) | Return (r : tls_result ()).

(** The arms that hand a frame to the stream layer. *)
Definition stream_arm self (f : Streams → option (Streams * stream_result ())) : option (Conn E * frame_outcome) :=
  match streams self with
  | None => Some (self, Next true)
  | Some s =>
      '(s, r) ← f s;
      let self := self <| streams := Some s |> in
      match r with
      | Ok _ => Some (self, Next true)
      | Err e => Some (self <| pending_error_code := Some (StreamError.code e) |>, Return (Err (StreamError.into_tls_error e)))
      end
  end.

Definition streams_arm self (f : Streams → Streams) : option (Conn E * frame_outcome) :=
  Some (self <| streams := f <$> streams self |>, Next true).

Definition feed_handshake_bytes self (level : Level) (bs : bytes) : Conn E * tls_result () :=
  let '(e, r) := process_quic_handshake_bytes (engine self) level bs in
  let self := self <| engine := e |> in
  match r with
  | Err err => (self <| pending_error_code := Some (crypto_error_code err) |>, Err err)
  | Ok _ => (self, Ok ())
  end.

Definition lift_outcome (r : Conn E * tls_result ()) (eliciting : bool) : option (Conn E * frame_outcome) :=
  Some (r.1, match r.2 with Ok _ => Next eliciting | Err e => Return (Err e) end).

Definition on_crypto_frame self (level : Level) (offset : Z) (data : bytes) : option (Conn E * frame_outcome) :=
  match on_crypto (bufs (ep self) level) offset data with
  | Err e => Some (self, Return (Err e))
  | Ok (b, new_bytes) =>
      let self := self <| ep := set_buf (ep self) level b |> in
      if negb (is_nil new_bytes) then lift_outcome (feed_handshake_bytes self level new_bytes) true
      else Some (self, Next true)
  end.

Definition on_handshake_done self (now : Z) : option (Conn E * frame_outcome) :=
  if decide (conn_role self = Server) then Some (self, Return (Err Error.IllegalParameter))
  else if negb (conn_confirmed self) then
    let self := self <| conn_confirmed := true |>
                     <| ep := (ep self) <| loss := (loss (ep self))
                          <| ctx := (ctx (loss (ep self))) <| handshake_confirmed := true |> |> |> |> in
    Some (self <| ep := discard_level (ep self) Level.Handshake now |>, Next true)
  else Some (self, Next true).

Definition on_connection_close self (error : Z) (ft : option Z) (reason_ : bytes) (now : Z) : Conn E * frame_outcome :=
  let graceful := handshake_complete self in
  let info := mkCloseInfo Peer (match ft with Some _ => Transport | None => ApplicationClose end) error ft (decode_reason reason_) in
  let self := enter_draining self info now in
  (self, Return (if graceful then Ok () else Err (Error.AlertReceived AlertDescription.HandshakeFailure))).

Definition on_path_response self (data : bytes) : Conn E :=
  let '(p, matched) := on_response (path self) data in
  let self := self <| path := p |> in
  if matched && match migration self with Some m => bool_decide (challenge m = data) | None => false end
     && match current_rx_addr self with Some a => bool_decide (Some a = peer_addr self) | None => true end
  then path_migration_validated self else self.

(** The match of [dispatch_frames]. *)
Definition on_frame self (level : Level) (frame : Frame.frame) (now : Z) : option (Conn E * frame_outcome) :=
  match frame with
  | Frame.Padding _ => Some (self, Next false)
  | Frame.Ack largest ack_delay raw first_range ecn =>
      r ← on_ack_frame self level largest ack_delay raw first_range ecn now; lift_outcome r false
  | Frame.Crypto offset data => on_crypto_frame self level offset data
  | Frame.Ping => Some (self, Next true)
  | Frame.HandshakeDone => on_handshake_done self now
  | Frame.ConnectionClose error ft reason => Some (on_connection_close self error ft reason now)
  | Frame.Stream id offset fin data => stream_arm self (λ s, on_stream s id offset fin data)
  | Frame.ResetStream id code final_size => stream_arm self (λ s, streams_on_reset s id code final_size)
  | Frame.StopSending id code => stream_arm self (λ s, on_stop_sending s id code)
  | Frame.MaxData v => streams_arm self (λ s, on_max_data s v)
  | Frame.MaxStreamData id limit => stream_arm self (λ s, streams_on_max_stream_data s id limit)
  | Frame.MaxStreams dir limit => streams_arm self (λ s, on_max_streams s dir limit)
  | Frame.DataBlocked v => streams_arm self (λ s, on_data_blocked s v)
  | Frame.StreamDataBlocked id limit => stream_arm self (λ s, Some (on_stream_data_blocked s id limit))
  | Frame.StreamsBlocked dir limit => streams_arm self (λ s, on_streams_blocked s dir limit)
  | Frame.PathChallenge data =>
      Some (self <| path := on_challenge (path self) data (current_rx_addr self) |>, Next true)
  | Frame.PathResponse data => Some (on_path_response self data, Next true)
  | Frame.NewConnectionId seq retire_prior_to cid reset_token =>
      let '(k, r) := on_new_connection_id (cids self) seq retire_prior_to cid reset_token in
      lift_outcome (self <| cids := k |>, r) true
  | Frame.RetireConnectionId seq =>
      let '(k, r) := on_retire_connection_id (cids self) seq in lift_outcome (self <| cids := k |>, r) true
  | Frame.NewToken _ =>
      if decide (conn_role self = Server) then Some (self, Return (Err Error.IllegalParameter)) else Some (self, Next true)
  | Frame.Datagram data =>
      let '(q, r) := on_datagram_frame (datagram_queues self) (bool_decide (level = Level.OneRtt)) data in
      lift_outcome (self <| datagram_queues := q |>, r) true
  end.

(** RFC 9000 9.1: probing frames. *)
Definition is_probing (frame : Frame.frame) : bool :=
  match frame with
  | Frame.Padding _ | Frame.PathChallenge _ | Frame.PathResponse _ | Frame.NewConnectionId _ _ _ _ => true
  | _ => false
  end.

(** The loop over the frames; [fuel] bounds their number by the bytes. *)
Fixpoint dispatch_loop (fuel : nat) self (level : Level) (payload : bytes) (ack_eliciting : bool) (frames_decoded now : Z)
  : option (Conn E * (tls_result () + bool * Z)) :=
  match frame_iter_next payload with
  | None => Some (self, inr (ack_eliciting, frames_decoded))
  | Some (Err e, _) => Some (self, inl (Err e))
  | Some (Ok frame, payload) =>
      match fuel with
      | O => None
      | S fuel =>
          let self := if negb (is_probing frame) then self <| rx_non_probing := true |> else self in
          if negb (frame_allowed_at_level frame level) then Some (self, inl (Err Error.IllegalParameter))
          else
            '(self, out) ← on_frame self level frame now;
            match out with
            | Return r => Some (self, inl r)
            | Next el => dispatch_loop fuel self level payload (ack_eliciting || el) (frames_decoded + 1) now
            end
      end
  end.

(** [None] is a panic. *)
Definition dispatch_frames self (level : Level) (pn_ : Z) (payload : bytes) (now : Z) : option (Conn E * tls_result ()) :=
  let self := self <| rx_non_probing := false |> in
  '(self, out) ← dispatch_loop (length payload) self level payload false 0 now;
  match out with
  | inl r => Some (self, r)
  | inr (ack_eliciting, frames_decoded) =>
      if frames_decoded =? 0 then Some (self, Err Error.IllegalParameter)
      else
        let sp := pn_space_of_level level in
        let space := note_received (pn (ep self) sp) level pn_ ack_eliciting (current_rx_ecn self) now in
        Some (self <| ep := set_pn (ep self) sp space |>, Ok ())
  end.

Definition note_peer_packet_processed self (now : Z) : Conn E :=
  self <| peer_packet_seen := true |> <| last_recv_activity := now |>.

(** An authenticated long-header packet, from the validation of the address on; the
    connection id it was sent to is already recorded. *)
Definition feed_long_payload self (level : Level) (pn_ : Z) (payload : bytes) (now : Z) : option (Conn E * tls_result ()) :=
  let self := if bool_decide (conn_role self = Server) && bool_decide (level = Level.Handshake)
              then self <| active_path := (active_path self) <| validated := true |> |> else self in
  '(self, r) ← dispatch_frames self level pn_ payload now;
  match r with
  | Err e => Some (self, Err e)
  | Ok _ => Some (note_peer_packet_processed self now, Ok ())
  end.

(** An authenticated 1-RTT packet, from the dispatch of its frames on; the connection id
    it was sent to is already recorded. *)
Definition feed_short_payload self (pn_ : Z) (payload rnd : bytes) (now : Z) : option (Conn E * tls_result ()) :=
  let largest_rx_ := largest_rx (pn (ep self) Application) in
  '(self, r) ← dispatch_frames self Level.OneRtt pn_ payload now;
  match r with
  | Err e => Some (self, Err e)
  | Ok _ =>
      let self := maybe_migrate self pn_ largest_rx_ rnd now in
      let self := divert_offpath_responses self in
      Some (note_peer_packet_processed self now, Ok ())
  end.

(** How [feed_datagram_inner] ends the connection on the error of an authenticated packet. *)
Definition close_on_error self (e : Error.tls_error) (now : Z) : Conn E :=
  let code := default (transport_error_code e) (pending_error_code self) in
  let self := close_with_transport_error (self <| pending_error_code := None |>) code now in
  self <| pending_error_code := None |>.

(** * Timers *)

Definition IDLE_TIMEOUT_CEILING : Z := from_millis 30000.

Definition nonzero (o : option Z) : option Z := match o with Some v => if v =? 0 then None else Some v | None => None end.

Definition effective_idle_timeout self : Z :=
  let base := match nonzero (our_max_idle_timeout_ms (params self)), nonzero (peer_max_idle_timeout_ms (params self)) with
              | Some a, Some b => from_millis (Z.min a b)
              | Some a, None => from_millis a
              | None, Some b => from_millis b
              | None, None => IDLE_TIMEOUT_CEILING
              end in
  Z.max base (dur_mul (pto_period (loss (ep self))) 3).

Definition idle_deadline self : Z := dur_add (last_recv_activity self) (effective_idle_timeout self).

Definition ack_delay_deadline self : option Z :=
  let space := pn (ep self) Application in
  if negb (ack_eliciting_pending space) || ack_due space then None
  else (λ first, dur_add (first * 1000) (from_millis (default 25 (our_max_ack_delay_ms (params self)))))
         <$> first_eliciting_arrival_us space.

(** The earlier of two timers. *)
Definition earlier (a b : option Z) : option Z :=
  match a, b with
  | Some a, Some b => Some (Z.min a b)
  | Some a, None => Some a
  | None, b => b
  end.

Definition next_timeout self : option Z :=
  match close_deadline self with
  | Some d => Some d
  | None =>
      earlier (earlier (earlier (loss_detection_timer (loss (ep self))) (Some (idle_deadline self))) (ack_delay_deadline self))
        (deadline <$> migration self)
  end.

(** The parts of [on_timeout_inner], in order (the discard of old read keys apart). *)
Definition timeout_ack_delay self (now : Z) : Conn E :=
  match ack_delay_deadline self with
  | Some d => if d <=? now
              then self <| ep := set_pn (ep self) Application ((pn (ep self) Application) <| ack_due := true |>) |>
              else self
  | None => self
  end.

Definition timeout_loss self (now : Z) : option (Conn E) :=
  let self := sync_loss_context self in
  self ← detect_lost_on_timer self now;
  let '(l, action) := on_loss_detection_timeout (loss (ep self)) now in
  let self := self <| ep := (ep self) <| loss := l |> |> in
  match action with
  | Some (Pto space) => Some (send_pto_probes self space)
  | _ => Some self
  end.

Definition timeout_idle self (now : Z) : Conn E :=
  if (idle_deadline self <=? now) && bool_decide (pending_close self = None) && negb (draining self) then
    self <| closed := true |>
         <| close_info := get_or_insert (close_info self) (mkCloseInfo IdleTimeout Transport 0 None []) |>
  else self.

Definition timeout_migration self (now : Z) : Conn E :=
  match migration self with
  | None => self
  | Some m =>
      if deadline m <=? now then abandon_path_migration self
      else if negb (retried m) && (retry_at m <=? now) && has_outstanding (path self) && negb (has_pending_challenge (path self))
      then self <| path := requeue_challenge (path self) (challenge m) |> <| migration := Some (m <| retried := true |>) |>
      else self
  end.

Definition timeout_close self (now : Z) : Conn E :=
  match close_deadline self with
  | Some d => if d <=? now
              then self <| pending_close := None |> <| close_deadline := None |> <| draining := false |> <| closed := true |>
              else self
  | None => self
  end.

(** [None] is a panic. *)
Definition on_timeout self (now : Z) : option (Conn E) :=
  let self := timeout_ack_delay self now in
  self ← timeout_loss self now;
  Some (timeout_close (timeout_migration (timeout_idle self now) now) now).

(** * Sending a datagram *)

(** The budget check and accounting at the end of [pop_datagram_inner]: whether a
    datagram of [n] bytes leaves. *)
Definition emit_datagram self (n : Z) (own_challenge : bool) (now : Z) : Conn E * bool :=
  if negb (path_budget_permits self n own_challenge) then (self, false)
  else (refresh_loss_timer (self <| active_path := note_sent (active_path self) n |>) now, true).

(** A datagram arrives: what [feed_datagram_inner] credits to the path. *)
Definition credit_datagram self (n : Z) : Conn E :=
  if match current_rx_addr self with Some a => bool_decide (Some a = peer_addr self) | None => true end
  then self <| active_path := note_recv (active_path self) n |> else self.

(** [feed_datagram_from_with_ecn] up to the credit: where the datagram came from. *)
Definition receive_from self (addr : SocketAddr) (ecn : EcnCodepoint) (n : Z) : Conn E :=
  let self := if decide (peer_addr self = None)
              then self <| peer_addr := Some addr |> <| peer_addr_validated := true |> else self in
  let self := self <| current_rx_ecn := ecn |> <| current_rx_addr := Some addr |> <| current_rx_len := n |> in
  credit_datagram self n.

(** ... and after the datagram. *)
Definition receive_done self : Conn E :=
  self <| current_rx_ecn := NotEct |> <| current_rx_addr := None |> <| current_rx_len := 0 |>.

(** A matching stateless-reset token at the end of the datagram. *)
Definition detect_stateless_reset self (datagram : bytes) : bool :=
  if zlen datagram <? 21 then false
  else
    let tail := zdrop (zlen datagram - 16) datagram in
    match cc_remote (cids self) with
    | None => false
    | Some pool =>
        existsb (λ e, (bool_decide (ce_cid e.2 = cc_peer (cids self)) || bool_decide (Some (ce_cid e.2) = cc_migration (cids self)))
                      && match ce_reset_token e.2 with
                         | Some tok => bool_from (ct_eq_slice (ct_eq_uint 8) tok tail)
                         | None => false
                         end) (cp_entries pool)
    end.
End conn.
