(* ===== verification/DispatchSpec.v ===== *)
(** The connection as a whole: no frame of an authenticated packet, no timer and no order
    of events makes recovery panic or lose track of a byte in flight. *)

From S2P Require Import Prelude TlsBase Varint Path Pn Ack BTree CryptoBuf Frame Datagram RecvStream SendStream Streams Cid Congestion Loss LossSpec Endpoint Conn RecoverySpec.

(** * The stream handlers do not panic *)

Lemma ensure_present s id s' : ensure_remote_stream_exists s id = (s', Ok true) → is_Some (streams_map s' !! id).
Proof.
  unfold ensure_remote_stream_exists. cbv zeta. case_bool_decide; [by intros [= <-]|].
  destruct (negb _); [done|]. destruct (is_bidi id).
  - destruct (_ && _); [done|]. destruct (_ <=? _); [done|]. destruct (_ <? _); [done|]. intros [= <-]. cbn.
    rewrite lookup_insert_eq. by eexists.
  - destruct (_ && _); [done|]. destruct (_ <=? _); [done|]. destruct (_ <? _); [done|]. intros [= <-]. cbn.
    rewrite lookup_insert_eq. by eexists.
Qed.

Lemma live_total s id o fin d e nh pr : is_Some (streams_map s !! id) → is_Some (on_stream_live s id o fin d e nh pr).
Proof.
  intros [st Hst]. unfold on_stream_live. rewrite Hst. cbn [mbind option_bind]. destruct (st_recv st); [|by eexists].
  destruct (on_data _ _ _ _) as [[r' n']|err]; by eexists.
Qed.

Lemma on_stream_total s id o fin d : is_Some (on_stream s id o fin d).
Proof.
  unfold on_stream. cbv zeta. destruct (ensure_remote_stream_exists s id) as [s1 [[]|e]] eqn:He; [|by repeat case_match; eexists..].
  apply ensure_present in He. destruct (0 <? _); [|by apply live_total]. destruct (_ <? _); [by eexists|by apply live_total].
Qed.

Lemma on_reset_total s id code size : is_Some (streams_on_reset s id code size).
Proof.
  unfold streams_on_reset. cbv zeta. destruct (ensure_remote_stream_exists s id) as [s1 [[]|e]] eqn:He; [|by eexists..].
  apply ensure_present in He as [st Hst]. destruct (_ <? _); [by eexists|]. destruct (_ <? _); [by eexists|].
  rewrite Hst. cbn [mbind option_bind]. destruct (st_recv st); [|by eexists]. destruct (on_reset _ _ _); by eexists.
Qed.

Lemma on_stop_sending_total s id code : is_Some (on_stop_sending s id code).
Proof.
  unfold on_stop_sending. destruct (reject_send_half_frame_on_peer_uni s id); [|by eexists].
  destruct (ensure_remote_stream_exists s id) as [s1 [[]|e]] eqn:He; [|by eexists..].
  apply ensure_present in He as [st Hst]. rewrite Hst. cbn [mbind option_bind]. destruct (st_send st); by eexists.
Qed.

Lemma on_max_stream_data_total s id limit : is_Some (streams_on_max_stream_data s id limit).
Proof.
  unfold streams_on_max_stream_data. destruct (reject_send_half_frame_on_peer_uni s id); [|by eexists].
  destruct (ensure_remote_stream_exists s id) as [s1 [[]|e]] eqn:He; [|by eexists..].
  apply ensure_present in He as [st Hst]. rewrite Hst. cbn [mbind option_bind]. destruct (st_send st); by eexists.
Qed.

Section conn.
Context {E : Type} (feed : E → Level → bytes → E * tls_result ()).
Implicit Types c : Conn E.

(** * Timers *)

Lemma handle_lost_spec c sp lost now : ep_pending (ep c) lost →
  ep_inv (ep (handle_lost_packets c sp lost now))
  ∧ (∀ sp', per_space (loss (ep (handle_lost_packets c sp lost now))) sp' = per_space (loss (ep c)) sp')
  ∧ pn (ep (handle_lost_packets c sp lost now)) = pn (ep c).
Proof.
  intros Hp. destruct (feed_lost_inv (ep c) sp lost now Hp) as (H1 & H2 & _ & H4).
  unfold handle_lost_packets. cbv zeta. set (c1 := note_handshake_done_fate _ [] lost).
  assert (ep c1 = requeue_packets (feed_lost_to_cc (ep c) sp lost now) lost) as E1.
  { unfold c1, note_handshake_done_fate. cbn [existsb]. cbv zeta. by destruct (_ && _). }
  clearbody c1. change (ep (c1 <| streams := _ |>)) with (ep c1). rewrite E1.
  pose proof (requeue_packets_same lost (feed_lost_to_cc (ep c) sp lost now)) as Hs.
  split; [by eapply same_recovery_inv|]. destruct Hs as (S1 & S2 & _). split; [|by rewrite S1].
  intros sp'. by rewrite S2.
Qed.

(** A loss deadline that has passed. *)
Definition due (s : LossState) (now : Z) (sp : PnSpaceId) : bool :=
  match loss_time (per_space s sp) with Some t => t <=? now | None => false end.

Definition due_count (s : LossState) (now : Z) : nat := length (filter (λ sp, due s now sp = true) all_spaces).

Lemma due_ext s s' now : (∀ sp, per_space s' sp = per_space s sp) → due_count s' now = due_count s now.
Proof. intros H. unfold due_count. f_equal. apply list_filter_iff. intros sp. unfold due. by rewrite H. Qed.

Lemma due_cleared s s' now sp : due s now sp = true → due s' now sp = false →
  (∀ sp', sp' ≠ sp → per_space s' sp' = per_space s sp') → due_count s now = S (due_count s' now).
Proof.
  intros H1 H2 Ho. assert (∀ sp', sp' ≠ sp → due s' now sp' = due s now sp') as Hd by (intros sp' Hne; unfold due; by rewrite Ho).
  assert (∀ s0, due_count s0 now = (Nat.b2n (due s0 now Initial) + Nat.b2n (due s0 now Handshake) + Nat.b2n (due s0 now Application))%nat) as Hc.
  { intros s0. unfold due_count, all_spaces. rewrite !filter_cons, filter_nil.
    by destruct (due s0 now Initial), (due s0 now Handshake), (due s0 now Application). }
  rewrite !Hc. destruct sp; rewrite H1, H2.
  - rewrite (Hd Handshake), (Hd Application) by done. done.
  - rewrite (Hd Initial), (Hd Application) by done. cbn. lia.
  - rewrite (Hd Initial), (Hd Handshake) by done. cbn. lia.
Qed.

Lemma timer_armed_ext s s' : (∀ sp, per_space s' sp = per_space s sp) → ctx s' = ctx s →
  loss_detection_timer s' = loss_detection_timer s → timer_armed s → timer_armed s'.
Proof.
  intros Hp Hc Ht Ha Hn. rewrite Ht. apply Ha. unfold needs_timer, probed, has_ack_eliciting_in_flight,
    peer_completed_address_validation in *. rewrite <- Hc.
  destruct Hn as [(sp & t & H)|[H1 H2]]; [left; exists sp, t; by rewrite <- Hp|right]. split; [done|].
  destruct H2 as [(sp & H2 & H3)|H2]; [left; exists sp; by rewrite <- Hp|right]. cbn [existsb all_spaces] in *. by rewrite <- !Hp.
Qed.

Lemma record_lost_rest s sp lost now : let s' := (record_lost_batch s sp lost now).1 in
  ctx s' = ctx s ∧ loss_detection_timer s' = loss_detection_timer s.
Proof. unfold record_lost_batch. cbv zeta. by destruct (in_persistent_congestion _ _). Qed.

Lemma handle_lost_timer c sp lost now : ep_pending (ep c) lost → timer_armed (loss (ep c)) →
  timer_armed (loss (ep (handle_lost_packets c sp lost now))) ∧ ctx (loss (ep (handle_lost_packets c sp lost now))) = ctx (loss (ep c)).
Proof.
  intros Hp Ha. destruct (handle_lost_spec c sp lost now Hp) as (_ & Hs & _).
  assert (ctx (loss (ep (handle_lost_packets c sp lost now))) = ctx (loss (ep c))
    ∧ loss_detection_timer (loss (ep (handle_lost_packets c sp lost now))) = loss_detection_timer (loss (ep c))) as [E1 E2].
  { unfold handle_lost_packets. cbv zeta. set (c1 := note_handshake_done_fate _ [] lost).
    assert (ep c1 = requeue_packets (feed_lost_to_cc (ep c) sp lost now) lost) as Ec1.
    { unfold c1, note_handshake_done_fate. cbn [existsb]. cbv zeta. by destruct (_ && _). }
    change (ep (c1 <| streams := _ |>)) with (ep c1). rewrite Ec1.
    destruct (requeue_packets_same lost (feed_lost_to_cc (ep c) sp lost now)) as (_ & -> & _).
    unfold feed_lost_to_cc. cbv zeta. change (loss ((ep c) <| cc := _ |>)) with (loss (ep c)).
    pose proof (record_lost_rest (loss (ep c)) sp lost now) as [R1 R2].
    by destruct (record_lost_batch (loss (ep c)) sp lost now) as [l []]. }
  split; [|done]. by eapply timer_armed_ext.
Qed.

Lemma detect_lost_armed next s sp now s' lost : loss_inv next s → detect_lost s sp now = Some (s', lost) → timer_armed s →
  timer_armed s' ∧ ctx s' = ctx s.
Proof.
  intros Hi Hd Ha. pose proof (detect_lost_spec next s sp now Hi) as (s1 & l1 & Hd1 & Hi1 & _).
  rewrite Hd in Hd1. injection Hd1 as <- <-. unfold detect_lost in Hd.
  destruct (largest_acked_packet (per_space s sp)); [|by injection Hd as <- <-].
  destruct (detect_loop _ _ _ _ _ _ _ _) as [[[m l] dl]|]; [|done]. cbn [mbind option_bind] in Hd. cbv zeta in Hd.
  injection Hd as <- <-. split; [|by rewrite timer_ctx]. apply (set_timer_armed next).
  eapply loss_inv_spaces; [|exact Hi1]. intros sp'. by rewrite timer_keeps.
Qed.

(** One round per space is enough: afterwards no deadline is due. *)
Lemma detect_rounds_spec n : ∀ c now, ep_inv (ep c) → now < DURATION_MAX → (due_count (loss (ep c)) now ≤ n)%nat →
  ∃ c', detect_rounds n c now = Some c' ∧ ep_inv (ep c') ∧ pn (ep c') = pn (ep c) ∧ due_count (loss (ep c')) now = 0%nat
    ∧ (timer_armed (loss (ep c)) → timer_armed (loss (ep c')) ∧ ctx (loss (ep c')) = ctx (loss (ep c))).
Proof.
  induction n as [|n IH]; intros c now Hi Hnow Hc; cbn [detect_rounds].
  { exists c. split_and!; try done. lia. }
  unfold next_loss_time. pose proof (earliest_loss_spec (loss (ep c))) as Hl.
  destruct (earliest_loss_time (loss (ep c))) as [[t sp]|].
  2: { exists c. split_and!; try done. unfold due_count. rewrite filter_none; [done|]. apply Forall_forall. intros sp _.
       unfold due. by rewrite Hl. }
  destruct Hl as [Ht Hmin]. destruct (Z.ltb_spec now t) as [Hlt|Hle].
  { exists c. split_and!; try done. unfold due_count. rewrite filter_none; [done|]. apply Forall_forall. intros sp' _.
    unfold due. destruct (loss_time (per_space (loss (ep c)) sp')) as [t'|] eqn:Et; [|done].
    specialize (Hmin _ _ Et). rewrite Z.leb_le. lia. }
  destruct (detect_pending (ep c) sp now Hi) as (s1 & lost & Hd & Hpend & Ho & _). rewrite Hd. cbn [mbind option_bind]. cbv zeta.
  assert (due s1 now sp = false) as Hcl.
  { unfold due. destruct (loss_time (per_space s1 sp)) as [t'|] eqn:Et; [|done]. apply Z.leb_gt.
    eapply detect_lost_due; [apply Hi|exact Hd|done|done|]. by apply (proj2 (ev_packets _ Hi) sp t). }
  assert (due (loss (ep c)) now sp = true) as Hdue by (unfold due; rewrite Ht; by apply Z.leb_le).
  pose proof (due_cleared _ _ _ _ Hdue Hcl Ho) as Hcount.
  set (c1 := c <| ep := (ep c) <| loss := s1 |> |>).
  assert (timer_armed (loss (ep c)) → timer_armed (loss (ep c1)) ∧ ctx (loss (ep c1)) = ctx (loss (ep c))) as Harm
    by (intros Ha; eapply detect_lost_armed; [apply Hi|exact Hd|done]).
  destruct (is_nil lost) eqn:Hnil.
  - destruct lost; [|done]. destruct (IH c1 now) as (c' & H1 & H2 & H3 & H4 & H5); [|done|change (loss (ep c1)) with s1; lia|].
    + destruct Hpend as [P1 P2 P3 P4 _]. split; try done. unfold bytes_of in P4. cbn in P4. by rewrite Z.add_0_r in P4.
    + exists c'. split_and!; try done. intros Ha. destruct (Harm Ha) as [A1 A2]. destruct (H5 A1) as [A3 A4]. by rewrite A4.
  - destruct (handle_lost_spec c1 sp lost now Hpend) as (L1 & L2 & L3).
    destruct (IH (handle_lost_packets c1 sp lost now) now) as (c' & H1 & H2 & H3 & H4 & H5); [done|done|rewrite (due_ext s1) by done; lia|].
    exists c'. split_and!; try done; [by rewrite H3, L3|]. intros Ha. destruct (Harm Ha) as [A1 A2].
    destruct (handle_lost_timer c1 sp lost now Hpend A1) as [A3 A4]. destruct (H5 A3) as [A5 A6]. by rewrite A6, A4.
Qed.

Lemma due_count_le s now : (due_count s now ≤ 3)%nat.
Proof. unfold due_count. etransitivity; [apply length_filter|]. done. Qed.

Lemma due_count_zero s now sp t : due_count s now = 0%nat → loss_time (per_space s sp) = Some t → now < t.
Proof.
  intros Hc Ht. apply Z.nle_gt. intros Hle. unfold due_count in Hc. apply nil_length_inv in Hc.
  assert (sp ∈ filter (λ sp, due s now sp = true) all_spaces) as Hin.
  { apply list_elem_of_filter. split; [unfold due; rewrite Ht; by apply Z.leb_le|]. destruct sp; unfold all_spaces; set_solver. }
  rewrite Hc in Hin. by apply elem_of_nil in Hin.
Qed.

(** ** Probes leave recovery alone *)

Definition same_conn c c' : Prop := same_recovery (ep c) (ep c').

#[local] Instance same_conn_pre : PreOrder same_conn.
Proof. split; [intros c; apply same_recovery_pre|]. intros a b d. unfold same_conn. by etransitivity. Qed.

Lemma requeue_for_probe_same c p : same_conn c (requeue_for_probe c p).
Proof.
  unfold requeue_for_probe, same_conn. cbv zeta. pose proof (requeue_packets_same [p] (ep c)).
  by destruct (sp_handshake_done p && _).
Qed.

Lemma foldl_same {X} (f : Conn E → X → Conn E) l : (∀ c x, same_conn c (f c x)) → ∀ c, same_conn c (foldl f c l).
Proof. intros Hf. induction l as [|x l IH]; intros c; [done|]. cbn. by etransitivity; [apply Hf|apply IH]. Qed.

Lemma send_pto_probes_same c sp : same_conn c (send_pto_probes c sp).
Proof.
  unfold send_pto_probes. cbv zeta. set (c1 := if negb (space_has_new_data c sp) then _ else c).
  assert (same_conn c c1) as H1 by (unfold c1; destruct (negb _); [apply foldl_same, requeue_for_probe_same|done]).
  set (c2 := foldl _ c1 all_spaces). assert (same_conn c1 c2) as H2.
  { apply foldl_same. intros d other. unfold probe_other. destruct (_ || _); [done|]. apply foldl_same, requeue_for_probe_same. }
  clearbody c1 c2. rewrite H1. by destruct (_ && _).
Qed.

Lemma sync_spaces c sp : per_space (loss (ep (sync_loss_context c))) sp = per_space (loss (ep c)) sp.
Proof. done. Qed.

Lemma sync_inv c : ep_inv (ep c) → ep_inv (ep (sync_loss_context c)).
Proof. intros Hi. by apply (ep_inv_ext (ep c)). Qed.

Lemma refresh_inv c now : ep_inv (ep c) → ep_inv (ep (refresh_loss_timer c now)) ∧ timer_armed (loss (ep (refresh_loss_timer c now))).
Proof.
  intros Hi. pose proof (sync_inv c Hi) as Hs. unfold refresh_loss_timer. cbv zeta. split.
  - apply (ep_inv_ext (ep c)); [done|done| |done]. intros sp. cbn. by rewrite timer_keeps.
  - cbn. apply (set_timer_armed (next_of (ep (sync_loss_context c)))). apply Hs.
Qed.

(** What an expired loss timer leads to. *)
Lemma timeout_loss_spec c now : ep_inv (ep c) → now < DURATION_MAX →
  ∃ c', timeout_loss c now = Some c' ∧ ep_inv (ep c') ∧ (∀ sp, next_of (ep c') sp = next_of (ep c) sp)
    ∧ (∀ sp t, loss_time (per_space (loss (ep c')) sp) = Some t → now < t)
    ∧ (timer_armed (loss (ep (sync_loss_context c))) → timer_armed (loss (ep c'))).
Proof.
  intros Hi Hnow. unfold timeout_loss, detect_lost_on_timer.
  destruct (detect_rounds_spec 3 (sync_loss_context c) now (sync_inv c Hi) Hnow (due_count_le _ _)) as (c1 & -> & H1 & H2 & H3 & H4).
  cbn [mbind option_bind]. set (s := loss (ep c1)) in *.
  assert (∃ s' act, on_loss_detection_timeout s now = (s', act) ∧ per_space s' = per_space s ∧ (timer_armed s → timer_armed s'))
    as (s' & act & Ho & Hsp & Ht).
  { destruct (on_loss_detection_timeout s now) as [s' act] eqn:Ho. exists s', act. split; [done|].
    destruct (loss_detection_timer s) as [d|] eqn:Ed; [destruct (Z.le_gt_cases d now) as [Hle|Hgt]|].
    - destruct (timeout_spec _ s now d s' act (ev_loss _ H1) Ed Hle Ho) as [(sp & t & _ & -> & _)|(D1 & D2 & D3)]; [done|].
      split; [done|]. intros _. destruct act as [[]|]; [done|by destruct D3 as (_ & _ & _ & ? & _)|by destruct D3].
    - unfold on_loss_detection_timeout in Ho. rewrite Ed in Ho. destruct (Z.ltb_spec now d); [|lia]. by injection Ho as <- <-.
    - unfold on_loss_detection_timeout in Ho. rewrite Ed in Ho. by injection Ho as <- <-. }
  rewrite Ho. set (c2 := c1 <| ep := (ep c1) <| loss := s' |> |>).
  assert (ep_inv (ep c2)) as Hi2 by (apply (ep_inv_ext (ep c1)); [done|done| |done]; intros sp; cbn; by rewrite Hsp).
  assert (∃ c', (match act with Some (Pto space) => Some (send_pto_probes c2 space) | _ => Some c2 end) = Some c'
    ∧ same_conn c2 c') as (c' & Hc' & Hsame).
  { destruct act as [[sp|sp]|]; [by exists c2| |by exists c2]. eexists. split; [done|]. apply send_pto_probes_same. }
  exists c'. split; [exact Hc'|]. split; [by eapply same_recovery_inv|]. destruct Hsame as (S1 & S2 & _).
  split; [|split].
  - intros sp. unfold next_of. rewrite S1. cbn. by rewrite H2.
  - intros sp t. rewrite S2. change (loss (ep c2)) with s'. rewrite Hsp. by apply due_count_zero.
  - intros Ha. rewrite S2. apply Ht. by apply H4.
Qed.

(** * Frames *)

(** The handler returns, and recovery is intact. *)
Definition handled (r : option (Conn E * frame_outcome)) : Prop := ∃ c' out, r = Some (c', out) ∧ ep_inv (ep c').

Lemma stream_arm_handled c f : ep_inv (ep c) → (∀ s, is_Some (f s)) → handled (stream_arm c f).
Proof.
  intros Hi Hf. unfold stream_arm. destruct (streams c) as [s|]; [|by eexists _, _].
  destruct (Hf s) as [[s' r] ->]. cbn [mbind option_bind]. destruct r; by eexists _, _.
Qed.

Lemma reset_rtt_inv c : ep_inv (ep c) →
  ep_inv ((ep c) <| cc := newreno_reset (cc (ep c)) |> <| loss := reset_rtt (loss (ep c)) |>).
Proof.
  intros [H1 [H2 H2'] H3 H4]. destruct (reset_inv _ H3) as [R1 R2]. split; cbn; [exact H1|by split|done|]. by rewrite H4.
Qed.

Lemma path_validated_inv c : ep_inv (ep c) → ep_inv (ep (path_migration_validated c)).
Proof.
  intros Hi. unfold path_migration_validated. destruct (migration c) as [m|]; [|done]. cbv zeta.
  destruct (negb (port_only m)); [|done]. by apply reset_rtt_inv.
Qed.

Lemma set_buf_inv e l b : ep_inv e → ep_inv (set_buf e l b).
Proof. intros Hi. by eapply same_recovery_inv; [|exact Hi]. Qed.

Lemma crypto_handled c level o d : ep_inv (ep c) → handled (on_crypto_frame feed c level o d).
Proof.
  intros Hi. unfold on_crypto_frame. destruct (on_crypto _ _ _) as [[b new]|e]; [|by eexists _, _]. cbv zeta.
  destruct (negb (is_nil new)).
  - unfold lift_outcome, feed_handshake_bytes. destruct (feed _ _ _) as [e [|err]]; eexists _, _; (split; [done|]); by apply set_buf_inv.
  - eexists _, _. split; [done|]. by apply set_buf_inv.
Qed.

Lemma handshake_done_handled c now : ep_inv (ep c) → handled (on_handshake_done c now).
Proof.
  intros Hi. unfold on_handshake_done. destruct (decide _); [by eexists _, _|]. destruct (negb _); [|by eexists _, _]. cbv zeta.
  eexists _, _. split; [done|]. cbn [ep]. apply discard_level_inv. by apply (ep_inv_ext (ep c)).
Qed.

Lemma path_response_inv c d : ep_inv (ep c) → ep_inv (ep (on_path_response c d)).
Proof.
  intros Hi. unfold on_path_response. destruct (on_response (path c) d) as [p m]. cbv zeta.
  destruct (_ && _); [|done]. by apply path_validated_inv.
Qed.

Lemma on_frame_handled c level f now : ep_inv (ep c) → frame_wf f → handled (on_frame feed c level f now).
Proof.
  intros Hi Hwf. destruct f as [n| |largest delay raw first ecn|id code size|id code|o d|tok|id o fin d|v|id lim|dir lim|v|id lim
    |dir lim|seq rpt cid tok|seq|d|d|err ft reason| |d]; cbn [on_frame].
  all: try by eexists _, _.
  - destruct Hwf as (_ & _ & [Hf _] & Hok & _).
    destruct (on_ack_frame_spec c level largest delay raw first ecn now Hi Hf Hok) as (c' & r & -> & Hi' & _).
    cbn [mbind option_bind]. by eexists _, _.
  - by apply stream_arm_handled; [|intros; apply on_reset_total].
  - by apply stream_arm_handled; [|intros; apply on_stop_sending_total].
  - by apply crypto_handled.
  - destruct (decide _); by eexists _, _.
  - by apply stream_arm_handled; [|intros; apply on_stream_total].
  - by apply stream_arm_handled; [|intros; apply on_max_stream_data_total].
  - by apply stream_arm_handled; [|intros; eexists].
  - destruct (on_new_connection_id _ _ _ _ _) as [k r]. by eexists _, _.
  - destruct (on_retire_connection_id _ _) as [k r]. by eexists _, _.
  - eexists _, _. split; [done|]. by apply path_response_inv.
  - by apply handshake_done_handled.
  - destruct (on_datagram_frame _ _ _) as [q r]. by eexists _, _.
Qed.

Lemma frame_iter_wf buf f rest : bytes_ok buf → zlen buf ≤ VARINT_MAX → frame_iter_next buf = Some (Ok f, rest) → frame_wf f.
Proof.
  intros Hok Hlen H. destruct buf as [|t r]; [done|]. unfold frame_iter_next in H.
  destruct (frame_decode (t :: r)) as [[f' n]|] eqn:Ed; [|done]. injection H as <- <-.
  by apply frame_decode_sound_lemma in Ed as [? _].
Qed.

Lemma dispatch_loop_handled fuel : ∀ c level payload el n now, ep_inv (ep c) → bytes_ok payload →
  zlen payload ≤ VARINT_MAX → (length payload ≤ fuel)%nat →
  ∃ c' out, dispatch_loop feed fuel c level payload el n now = Some (c', out) ∧ ep_inv (ep c').
Proof.
  induction fuel as [|fuel IH]; intros c level payload el n now Hi Hok Hlen Hf; cbn [dispatch_loop].
  { destruct payload; [by eexists _, _|simpl in Hf; lia]. }
  destruct (frame_iter_next payload) as [[[f|e] rest]|] eqn:En; [|by eexists _, _..].
  pose proof (frame_iter_wf _ _ _ Hok Hlen En) as Hwf. pose proof (frame_iter_progress _ _ _ Hok Hlen En) as [Hlt Hok'].
  cbv zeta. set (c1 := if negb (is_probing f) then _ else c). assert (ep_inv (ep c1)) as Hi1 by (unfold c1; by destruct (negb _)).
  clearbody c1. destruct (negb (frame_allowed_at_level f level)); [by eexists _, _|].
  destruct (on_frame_handled c1 level f now Hi1 Hwf) as (c2 & out & -> & Hi2). cbn [mbind option_bind].
  destruct out as [el'|r]; [|by eexists _, _]. apply IH; [done|done|unfold zlen in *; lia|lia].
Qed.

(** [dispatch_frames] never panics and keeps the invariant, whatever the bytes. *)
Lemma dispatch_handled c level pn_ payload now : ep_inv (ep c) → bytes_ok payload → zlen payload ≤ VARINT_MAX →
  ∃ c' r, dispatch_frames feed c level pn_ payload now = Some (c', r) ∧ ep_inv (ep c').
Proof.
  intros Hi Hok Hlen. unfold dispatch_frames. cbv zeta.
  set (c0 := c <| rx_non_probing := false |>). assert (ep_inv (ep c0)) as Hi0 by exact Hi.
  destruct (dispatch_loop_handled (length payload) c0 level payload false 0 now Hi0 Hok Hlen) as (c1 & out & Ho & Hi1); [done|].
  rewrite Ho. cbn [mbind option_bind].
  destruct out as [r|[el n]]; [by eexists _, _|]. destruct (n =? 0); [by eexists _, _|].
  eexists _, _. split; [done|]. apply (ep_inv_ext (ep c1)); [done| |done|done]. intros sp. cbn. unfold next_of, set_pn, upd. cbn.
  destruct (decide (sp = pn_space_of_level level)) as [->|]; [|done]. unfold note_received, note_eliciting. cbv zeta.
  destruct el; [|done]. by repeat case_match.
Qed.

Lemma maybe_migrate_inv c p l rnd now : ep_inv (ep c) → ep_inv (ep (maybe_migrate c p l rnd now)).
Proof.
  intros Hi. unfold maybe_migrate. destruct (current_rx_addr c) as [from|]; [|done]. destruct (peer_addr c) as [cur|]; [|done].
  destruct (decide (from = cur)); [done|]. repeat (match goal with |- context [if ?b then c else _] => destruct b; [done|] end).
  destruct (match migration c with Some m => _ | None => _ end); [|destruct (bool_decide _); done].
  unfold abandon_path_migration. by destruct (migration c).
Qed.

Lemma divert_ep c : ep (divert_offpath_responses c) = ep c.
Proof. unfold divert_offpath_responses. by destruct (take_responses_off_path _ _). Qed.

Lemma long_handled c level pn_ payload now : ep_inv (ep c) → bytes_ok payload → zlen payload ≤ VARINT_MAX →
  ∃ c' r, feed_long_payload feed c level pn_ payload now = Some (c', r) ∧ ep_inv (ep c').
Proof.
  intros Hi Hok Hlen. unfold feed_long_payload. cbv zeta. set (c1 := if _ && _ then _ else c).
  assert (ep_inv (ep c1)) as Hi1 by (unfold c1; by destruct (_ && _)).
  destruct (dispatch_handled c1 level pn_ payload now Hi1 Hok Hlen) as (c2 & r & -> & Hi2). cbn [mbind option_bind].
  destruct r; by eexists _, _.
Qed.

Lemma short_handled c pn_ payload rnd now : ep_inv (ep c) → bytes_ok payload → zlen payload ≤ VARINT_MAX →
  ∃ c' r, feed_short_payload feed c pn_ payload rnd now = Some (c', r) ∧ ep_inv (ep c').
Proof.
  intros Hi Hok Hlen. unfold feed_short_payload. cbv zeta.
  destruct (dispatch_handled c Level.OneRtt pn_ payload now Hi Hok Hlen) as (c2 & r & -> & Hi2). cbn [mbind option_bind].
  destruct r; [|by eexists _, _]. eexists _, _. split; [done|]. cbn [ep]. unfold note_peer_packet_processed.
  change (ep (?d <| peer_packet_seen := _ |> <| last_recv_activity := _ |>)) with (ep d). rewrite divert_ep. by apply maybe_migrate_inv.
Qed.

Lemma on_timeout_handled c now : ep_inv (ep c) → now < DURATION_MAX → ∃ c', on_timeout c now = Some c' ∧ ep_inv (ep c').
Proof.
  intros Hi Hnow. unfold on_timeout. cbv zeta. set (c1 := timeout_ack_delay c now).
  assert (ep_inv (ep c1)) as Hi1.
  { unfold c1, timeout_ack_delay. destruct (ack_delay_deadline c); [|done]. destruct (_ <=? _); [|done].
    apply (ep_inv_ext (ep c)); [done| |done|done]. intros sp. unfold next_of, set_pn, upd. cbn. by destruct (decide _) as [->|]. }
  destruct (timeout_loss_spec c1 now Hi1 Hnow) as (c2 & -> & Hi2 & _). cbn [mbind option_bind]. eexists. split; [done|].
  assert (∀ d, ep (timeout_close d now) = ep d) as -> by (intros d; unfold timeout_close; by repeat case_match).
  assert (∀ d, ep (timeout_migration d now) = ep d) as ->.
  { intros d. unfold timeout_migration. destruct (migration d) eqn:Em; [|done]. destruct (_ <=? _); [unfold abandon_path_migration; by rewrite Em|].
    by destruct (_ && _). }
  assert (∀ d, ep (timeout_idle d now) = ep d) as -> by (intros d; unfold timeout_idle; by destruct (_ && _)). done.
Qed.

(** * Connections that can be reached *)

Definition fresh_connection c : Prop := ep c = endpoint_new.

(** What the packet builder and the clock guarantee when a packet is sealed: numbers stay
    below 2^62 and the bytes in flight far below 2^64. *)
Definition can_seal c (level : Level) (packet_len : Z) (meta : option PacketMeta) : Prop :=
  in_width 62 (next_of (ep c) (pn_space_of_level level)) ∧ 0 ≤ packet_len ∧ (∀ m, meta = Some m → meta_ok m)
  ∧ tracked_bytes (loss (ep c)) + 65535 ≤ U64_MAX.

Inductive conn_step c : Conn E → Prop :=
| step_seal level packet_len meta now : can_seal c level packet_len meta →
    conn_step c (c <| ep := send_packet (ep c) level packet_len meta now |>)
| step_probe : conn_step c (c <| ep := (ep c) <| loss := consume_probe_credit (loss (ep c)) |> |>)
| step_long level pn_ payload now c' r : bytes_ok payload → zlen payload ≤ VARINT_MAX →
    feed_long_payload feed c level pn_ payload now = Some (c', r) → conn_step c c'
| step_short pn_ payload rnd now c' r : bytes_ok payload → zlen payload ≤ VARINT_MAX →
    feed_short_payload feed c pn_ payload rnd now = Some (c', r) → conn_step c c'
| step_timeout now c' : now < DURATION_MAX → on_timeout c now = Some c' → conn_step c c'
| step_discard lvl now : conn_step c (c <| ep := discard_level (ep c) lvl now |>)
| step_retry now : conn_step c (c <| ep := rewind_initial (ep c) now |>)
| step_peer_params delay exponent : conn_step c (c <| ep := (ep c) <| loss := set_peer_params (loss (ep c)) delay exponent |> |>)
| step_emit n own now : conn_step c (emit_datagram c n own now).1
| step_refresh now : conn_step c (refresh_loss_timer c now)
| step_error e now : conn_step c (close_on_error c e now)
| step_close code reason now : conn_step c (close c code reason now)
(** Anything that leaves recovery and congestion control alone: streams, datagrams,
    connection ids, keys, the engine. *)
| step_other c' : same_recovery (ep c) (ep c') → conn_step c c'.

Definition conn_reachable c : Prop := ∃ c0, fresh_connection c0 ∧ rtc conn_step c0 c.

Lemma fresh_inv c : fresh_connection c → ep_inv (ep c).
Proof.
  intros ->. split.
  - intros sp. split; [apply space_inv_default|]. cbn. lia.
  - split; [by intros sp x ?%elem_of_nil|done].
  - split; [done|]. by vm_compute.
  - done.
Qed.

Lemma close_with_ep c code now : ep (close_with_transport_error c code now) = ep c.
Proof. unfold close_with_transport_error. by repeat case_match. Qed.

Lemma conn_step_inv c c' : ep_inv (ep c) → conn_step c c' → ep_inv (ep c').
Proof.
  intros Hi Hs. destruct Hs as [level len meta now (H1 & H2 & H3 & H4)| |level pn_ payload now c' r Hok Hlen Hf
    |pn_ payload rnd now c' r Hok Hlen Hf|now c' Hn Hf|lvl now|now|delay ex|n own now|now|e now|code reason now|c' Hsame].
  - by apply send_packet_inv.
  - apply (ep_inv_ext (ep c)); [done|done| |done]. intros sp. cbn. unfold consume_probe_credit. cbv zeta. by destruct (_ =? _).
  - destruct (long_handled c level pn_ payload now Hi Hok Hlen) as (c1 & r1 & Hf1 & Hi1). rewrite Hf in Hf1. by injection Hf1 as <- <-.
  - destruct (short_handled c pn_ payload rnd now Hi Hok Hlen) as (c1 & r1 & Hf1 & Hi1). rewrite Hf in Hf1. by injection Hf1 as <- <-.
  - destruct (on_timeout_handled c now Hi Hn) as (c1 & Hf1 & Hi1). rewrite Hf in Hf1. by injection Hf1 as <-.
  - by apply discard_level_inv.
  - by apply rewind_initial_inv.
  - by apply (ep_inv_ext (ep c)).
  - unfold emit_datagram. destruct (negb _); [done|]. cbn [fst]. by apply refresh_inv.
  - by apply refresh_inv.
  - unfold close_on_error. cbv zeta. change (ep (?d <| pending_error_code := None |>)) with (ep d). by rewrite close_with_ep.
  - unfold close. cbv zeta. by repeat case_match.
  - by eapply same_recovery_inv.
Qed.

Lemma conn_reachable_inv c : conn_reachable c → ep_inv (ep c).
Proof.
  intros (c0 & Hf & Hr). apply fresh_inv in Hf. induction Hr as [|x y z Hs _ IH]; [done|]. by apply IH, (conn_step_inv x).
Qed.

(** C1: Bytes in flight.  On every connection that can be reached, by any order of packets
    sealed, authenticated payloads fed, timers, discarded levels, Retries, migrations
    and errors, [bytes_in_flight] is exactly the bytes of the packets that loss recovery
    still tracks (no saturating subtraction ever loses anything and nothing leaks), the
    congestion window never falls below two datagrams, and so the controller always
    allows sending once nothing is tracked. *)
Theorem bytes_in_flight_exact c : conn_reachable c →
  bytes_in_flight (cc (ep c)) = tracked_bytes (loss (ep c))
  ∧ k_minimum_window K_DEFAULT_MAX_DATAGRAM_SIZE ≤ cwnd (cc (ep c))
  ∧ (tracked_bytes (loss (ep c)) = 0 → can_send (cc (ep c)) = true).
Proof.
  intros [_ _ [Hm Hw] Hb]%conn_reachable_inv. rewrite Hm in Hw. split; [done|]. split; [lia|].
  intros H0. unfold can_send. apply Z.ltb_lt. rewrite Hb, H0.
  change (k_minimum_window K_DEFAULT_MAX_DATAGRAM_SIZE) with 2400 in Hw. lia.
Qed.



(** C9: Timers.  On a connection that can be reached, handling an expired timer declares
    every packet lost whose deadline has passed, in all three packet-number spaces:
    afterwards no loss deadline is due.  And whenever the timer is refreshed (as it is
    after every datagram received or sent) it is armed if anything may have to be sent
    again: a loss deadline is pending, a space has ack-eliciting packets in flight that
    the probe timeout covers, or the client may be keeping the server waiting. *)
Theorem loss_timer_live c now : conn_reachable c → now < DURATION_MAX →
  (∃ c', timeout_loss c now = Some c'
    ∧ (∀ sp t, loss_time (per_space (loss (ep c')) sp) = Some t → now < t)
    ∧ (timer_armed (loss (ep (sync_loss_context c))) → timer_armed (loss (ep c'))))
  ∧ (needs_timer (loss (ep (refresh_loss_timer c now))) → is_Some (loss_detection_timer (loss (ep (refresh_loss_timer c now))))).
Proof.
  intros Hi%conn_reachable_inv Hnow. destruct (timeout_loss_spec c now Hi Hnow) as (c' & H1 & _ & _ & H2 & H3).
  split; [by exists c'|]. by apply (refresh_inv c now Hi).
Qed.
End conn.

(** * An example connection *)

Definition ex_feed : unit → Level → bytes → unit * tls_result () := λ e _ _, (e, Ok ()).

(** A server right after its endpoint is created. *)
Definition ex_conn : Conn unit :=
  mkConn Server (mkConnParams None None None false None None) () endpoint_new Testing (mkEcnCounts 0 0 0) None
    (datagrams_new None None) (mkConnCids (mkConnectionId [] 0) None None None [] false) path_default pcs_new None None
    false [] false false false false false false None None None 0 1 None false None 0 NotEct false 0.

Definition ex_meta : PacketMeta := mkPacketMeta false false true true [mkCryptoHint 0 0 100] stream_hints_new false [].

(** Five Initial packets, a millisecond apart. *)
Definition ex_send (c : Conn unit) (t : Z) : Conn unit :=
  c <| ep := send_packet (ep c) Level.Initial 1200 (Some ex_meta) (from_millis t) |>.
Definition ex_sent : Conn unit := foldl ex_send ex_conn [1; 2; 3; 4; 5].

Lemma ex_meta_ok : meta_ok ex_meta.
Proof. split; [|by vm_compute]. repeat constructor; [by eexists|..]; by vm_compute. Qed.

Lemma ex_can_seal c t : conn_reachable ex_feed c → bool_decide (0 ≤ next_of (ep c) Initial < 2 ^ 62) = true →
  bool_decide (tracked_bytes (loss (ep c)) + 65535 ≤ U64_MAX) = true → conn_reachable ex_feed (ex_send c t).
Proof.
  intros (c0 & Hf & Hr) H1%bool_decide_eq_true H2%bool_decide_eq_true. exists c0. split; [done|]. eapply rtc_r; [exact Hr|].
  apply step_seal. split_and!; [done|lia| |done]. intros m [= <-]. apply ex_meta_ok.
Qed.

Lemma ex_sent_reachable : conn_reachable ex_feed ex_sent.
Proof.
  unfold ex_sent. cbn [foldl]. do 5 (apply ex_can_seal; [|vm_compute; reflexivity|vm_compute; reflexivity]).
  exists ex_conn. split; [done|apply rtc_refl].
Qed.

Lemma bytes_in_flight_exact_witness :
  bytes_in_flight (cc (ep ex_sent)) = 6000 ∧ bytes_in_flight (cc (ep ex_sent)) = tracked_bytes (loss (ep ex_sent)).
Proof. split; [vm_compute; reflexivity|]. apply (bytes_in_flight_exact ex_feed ex_sent ex_sent_reachable). Defined.

(** The peer acknowledges packet 4 alone. *)
Definition ex_ack : bytes := [2; 4; 0; 0; 0].



Example ack_frame_example :
  (λ r, (fst <$> sent_packets (per_space (loss (ep r.1)) Initial), r.2)) <$>
    on_ack_frame ex_sent Level.Initial 4 0 [] 0 None (from_millis 20) = Some ([3], Ok ()).
Proof. vm_compute. reflexivity. Qed.

Lemma loss_timer_live_witness : ∃ c', timeout_loss ex_sent (from_millis 5000) = Some c'
  ∧ ∀ sp t, loss_time (per_space (loss (ep c')) sp) = Some t → from_millis 5000 < t.
Proof.
  destruct (loss_timer_live ex_feed ex_sent (from_millis 5000) ex_sent_reachable) as [(c' & H1 & H2 & _) _]; [by vm_compute|].
  exists c'. split; [exact H1|exact H2].
Defined.
