(* ===== verification/Send.v ===== *)
(** The sending side of the QUIC connection ([src/quic/connection.rs], [pop_datagram] and
    what it calls): which frames go into a packet, the room they have, padding, sealing,
    and the coalescing of packets into a datagram.  The AEAD, the header-protection mask,
    the key derivation and the random connection ids are parameters. *)

From S2P Require Import Prelude TlsBase Varint Codec Path Pn Ack CryptoBuf Frame Datagram SendStream Streams Version Pkt Cid Congestion Loss Endpoint Conn.

(** * State *)

Inductive PayloadScope := Full | NotCongestionControlled | ProbingOnly | NoApplicationData.

#[global] Instance PayloadScope_eq_dec : EqDecision PayloadScope.
Proof. solve_decision. Defined.

#[export] Instance eta_meta : Eta PacketMeta := λ m,
  mkPacketMeta (has_path_frame m) (carried_ack m) (pm_ack_eliciting m) (pm_in_flight m) (crypto_hints m)
    (pm_stream_hints m) (pm_handshake_done m) (pm_control_hints m).

(** [PacketMeta::default()] *)
Definition packet_meta_default : PacketMeta := mkPacketMeta false false false false [] stream_hints_new false [].

(** The fields of the connection that only the sending side reads or writes, around
    [conn]; [K] is the type of the keys of one direction, [tx] is read where
    [tx_keys] says that keys are installed. *)
Record Sender (E K : Type) := mkSender {
  conn : Conn E; local_cid : ConnectionId; retry_token : bytes; version : QuicVersion; original_version : QuicVersion;
  tx : Level → K; tx_by_phase : bool → option K; suite_known : bool; hp_known : bool;
  tx_packets : Level → Z; usage_limit : Level → Z; tx_phase_pending_confirm : bool; one_rtt_phase : bool;
  ping_pending : bool; early_keys_discarded : bool; require_client_auth : bool;
  peer_max_udp_payload_size : option Z; peer_cid_limit : option Z; sent_first_datagram : bool;
  pending_retry_datagram : option bytes }.

Arguments mkSender {E K}.
Arguments conn {E K}. Arguments local_cid {E K}. Arguments retry_token {E K}. Arguments version {E K}.
Arguments original_version {E K}. Arguments tx {E K}. Arguments tx_by_phase {E K}. Arguments suite_known {E K}.
Arguments hp_known {E K}. Arguments tx_packets {E K}. Arguments usage_limit {E K}. Arguments tx_phase_pending_confirm {E K}.
Arguments one_rtt_phase {E K}. Arguments ping_pending {E K}. Arguments early_keys_discarded {E K}.
Arguments require_client_auth {E K}. Arguments peer_max_udp_payload_size {E K}. Arguments peer_cid_limit {E K}.
Arguments sent_first_datagram {E K}. Arguments pending_retry_datagram {E K}.

#[export] Instance eta_sender {E K} : Eta (Sender E K) := λ s,
  mkSender (conn s) (local_cid s) (retry_token s) (version s) (original_version s) (tx s) (tx_by_phase s) (suite_known s)
    (hp_known s) (tx_packets s) (usage_limit s) (tx_phase_pending_confirm s) (one_rtt_phase s) (ping_pending s)
    (early_keys_discarded s) (require_client_auth s) (peer_max_udp_payload_size s) (peer_cid_limit s)
    (sent_first_datagram s) (pending_retry_datagram s).

Definition ERROR_AEAD_LIMIT_REACHED : Z := 0x0f.
Definition MIN_INITIAL_DATAGRAM : Z := 1200.

(** * The frames of a packet *)

(** What has been written: the payload so far and what it will mean to loss recovery. *)
Definition Draft : Type := bytes * PacketMeta.

Definition elicits (meta : PacketMeta) : PacketMeta := meta <| pm_ack_eliciting := true |> <| pm_in_flight := true |>.

(** The ACK frame, if one is owed and fits. *)
Definition put_ack (space : PnSpace) (level : Level) (scope : PayloadScope) (exponent : option Z) (payload_cap now : Z)
  (d : Draft) : option Draft :=
  let '(out, meta) := d in
  if bool_decide (scope = ProbingOnly) || bool_decide (level = Level.EarlyData) || is_nil (pending_ack space) then Some d
  else
    match ack_frame_of space level exponent now with
    | None => Some d
    | Some ack =>
        ack_buf ← frame_encode ack [];
        if zlen out + zlen ack_buf <=? payload_cap then Some (out ++ ack_buf, meta <| carried_ack := true |>) else Some d
    end.

Definition CRYPTO_CHUNK_CAP : Z := 1100.

(** [level as u8] *)
Definition level_as_u8 (level : Level) : Z :=
  match level with Level.Initial => 0 | Level.EarlyData => 1 | Level.Handshake => 2 | Level.OneRtt => 3 end.

(** One CRYPTO frame. *)
Definition put_crypto (buf : CryptoBuf) (level : Level) (full : bool) (payload_cap : Z) (d : Draft) : option (CryptoBuf * Draft) :=
  let '(out, meta) := d in
  let crypto_room := sat_sub (Z.min CRYPTO_CHUNK_CAP payload_cap) (zlen out) in
  if full && (0 <? crypto_room) then
    match carve buf crypto_room with
    | (buf, None) => Some (buf, d)
    | (buf, Some (offset, data)) =>
        out ← frame_encode (Frame.Crypto offset data) out;
        let hint := mkCryptoHint (level_as_u8 level) offset (zlen data) in
        Some (buf, (out, elicits meta <| crypto_hints := crypto_hints meta ++ [hint] |>))
    end
  else Some (buf, d).

Definition put_handshake_done (pending full : bool) (payload_cap : Z) (d : Draft) : option (bool * Draft) :=
  let '(out, meta) := d in
  if full && pending && (zlen out <? payload_cap) then
    out ← frame_encode Frame.HandshakeDone out;
    Some (false, (out, elicits meta <| pm_handshake_done := true |>))
  else Some (pending, d).

Definition PATH_FRAME_LEN : Z := 1 + 8.
Definition RETIRE_CID_FRAME_MAX : Z := 1 + 8.
Definition soft_mark : Z := 900.

(** Room for one more housekeeping frame of at most [len] bytes. *)
Definition has_room (out : bytes) (len payload_cap : Z) : bool :=
  (zlen out <=? soft_mark) && (zlen out + len <=? payload_cap).

(** The loops end when a queue is empty: its length is the fuel. *)
Fixpoint put_responses (n : nat) (p : PathChallengeState) (to : option SocketAddr) (payload_cap : Z) (d : Draft)
  : option (PathChallengeState * Draft) :=
  let '(out, meta) := d in
  if has_room out PATH_FRAME_LEN payload_cap then
    match pop_outbound_response p to with
    | (p, None) => Some (p, d)
    | (p, Some data) =>
        match n with
        | O => None
        | S n => out ← frame_encode (Frame.PathResponse data) out;
                 put_responses n p to payload_cap (out, elicits meta <| has_path_frame := true |>)
        end
    end
  else Some (p, d).

Fixpoint put_challenges (n : nat) (p : PathChallengeState) (payload_cap : Z) (d : Draft)
  : option (PathChallengeState * Draft) :=
  let '(out, meta) := d in
  if has_room out PATH_FRAME_LEN payload_cap then
    match pop_outbound_challenge p with
    | (p, None) => Some (p, d)
    | (p, Some data) =>
        match n with
        | O => None
        | S n => out ← frame_encode (Frame.PathChallenge data) out;
                 put_challenges n p payload_cap (out, elicits meta <| has_path_frame := true |>)
        end
    end
  else Some (p, d).

Fixpoint put_retires (n : nat) (pool : CidPool) (payload_cap : Z) (d : Draft) : option (CidPool * Draft) :=
  let '(out, meta) := d in
  if has_room out RETIRE_CID_FRAME_MAX payload_cap then
    match pop_pending_retire pool with
    | (pool, None) => Some (pool, d)
    | (pool, Some seq) =>
        match n with
        | O => None
        | S n => out ← frame_encode (Frame.RetireConnectionId seq) out;
                 put_retires n pool payload_cap (out, elicits meta)
        end
    end
  else Some (pool, d).

Definition ONERTT_PAYLOAD_CAP : Z := 1100.

(** What a popped frame adds to the packet's record. *)
Definition note_popped (meta : PacketMeta) (popped : popped_frame) : PacketMeta :=
  let meta := match control_hint_of popped with
              | Some hint => meta <| pm_control_hints := pm_control_hints meta ++ [hint] |>
              | None => meta
              end in
  match popped with
  | Popped.Stream id offset len fin =>
      meta <| pm_stream_hints := stream_hints_push (pm_stream_hints meta) (mkStreamHint id offset len fin) |>
  | _ => meta
  end.

(** The loop over the stream frames; every round writes at least one byte. *)
Fixpoint put_streams_loop (n : nat) (s : Streams) (payload_cap : Z) (d : Draft) : option (Streams * Draft) :=
  let '(out, meta) := d in
  let remaining := sat_sub (Z.min ONERTT_PAYLOAD_CAP payload_cap) (zlen out) in
  if remaining <? 4 then Some (s, d)
  else
    '(s, out, popped) ← pop_frame_into s remaining out;
    match popped with
    | None => Some (s, (out, meta))
    | Some f => match n with O => None | S n => put_streams_loop n s payload_cap (out, note_popped meta f) end
    end.

Definition put_streams (s : Streams) (payload_cap : Z) (d : Draft) : option (Streams * Draft) :=
  let pre_streams_len := zlen d.1 in
  '(s, (out, meta)) ← put_streams_loop (Z.to_nat ONERTT_PAYLOAD_CAP) s payload_cap d;
  Some (s, (out, if pre_streams_len <? zlen out then elicits meta else meta)).

Definition ONERTT_PAYLOAD_CAP_DG : Z := 1100.

Fixpoint put_datagrams (n : nat) (q : DatagramQueues) (payload_cap : Z) (d : Draft) : option (DatagramQueues * Draft) :=
  let '(out, meta) := d in
  if is_nil (outbound_dgs q) then Some (q, d)
  else
    let remaining := sat_sub (Z.min ONERTT_PAYLOAD_CAP_DG payload_cap) (zlen out) in
    if remaining <? 2 then Some (q, d)
    else
      match pop_outbound q remaining with
      | (q, None) => Some (q, d)
      | (q, Some data) =>
          match n with
          | O => None
          | S n => out ← frame_encode (Frame.Datagram data) out; put_datagrams n q payload_cap (out, elicits meta)
          end
      end.

(** A PING, where the packet is to elicit an acknowledgement and nothing else does. *)
Definition put_ping (d : Draft) : option Draft := out ← frame_encode Frame.Ping d.1; Some (out, elicits d.2).

Section send.
Context {E K : Type}.
(** [aead_seal]: keys, packet number, associated data and plaintext give the ciphertext and the tag. *)
Context (aead_seal : K → Z → bytes → bytes → bytes * bytes).
(** [HeaderProtector::mask] on a sample; [None] is its error. *)
Context (hp_mask : K → bytes → option bytes).
(** [derive_dir_keys_preserve_hp] and [derive_next_application_secret] on the keys of a phase. *)
Context (derive_keys derive_next : K → K).
(** The random connection id drawn for a sequence number, and its reset token. *)
Context (fresh : Z → ConnectionId) (token_of : ConnectionId → bytes).

Implicit Types self : Sender E K.

(** RETIRE_CONNECTION_ID for the ids the peer's pool gave up. *)
Definition put_retired_ids (k : ConnCids) (full : bool) (payload_cap : Z) (d : Draft) : option (ConnCids * Draft) :=
  match cc_remote k with
  | Some pool =>
      if full then
        '(pool, d) ← put_retires (length (cp_pending_retire pool)) pool payload_cap d;
        Some (set_remote (Some pool) k, d)
      else Some (k, d)
  | None => Some (k, d)
  end.

(** NEW_CONNECTION_ID, once the handshake is complete. *)
Definition put_new_ids (k : ConnCids) (limit : option Z) (owed : bool) (payload_cap : Z) (d : Draft) : option (ConnCids * Draft) :=
  if owed then
    let prev_len := zlen d.1 in
    '(k, out, done) ← issue_new_local_cids fresh token_of k limit d.1 payload_cap;
    Some (set_issued done k, (out, if prev_len <? zlen out then elicits d.2 else d.2))
  else Some (k, d).

(** HANDSHAKE_DONE and the path and connection-id frames of a 1-RTT packet. *)
Definition put_housekeeping self (full : bool) (payload_cap : Z) (d : Draft) : option (Sender E K * Draft) :=
  let c := conn self in
  '(hd, d) ← put_handshake_done (handshake_done_pending c) full payload_cap d;
  '(p, d) ← put_responses (length (pending_response (path c))) (path c) (peer_addr c) payload_cap d;
  '(p, d) ← put_challenges (length (pending_challenge p)) p payload_cap d;
  '(k, d) ← put_retired_ids (cids c) full payload_cap d;
  '(k, d) ← put_new_ids k (peer_cid_limit self) (full && handshake_complete c && negb (cc_new_cids_issued k)) payload_cap d;
  Some (self <| conn := c <| handshake_done_pending := hd |> <| path := p |> <| cids := k |> |>, d).

(** The frames that may ride 0-RTT and 1-RTT packets. *)
Definition put_application self (full : bool) (payload_cap : Z) (d : Draft) : option (Sender E K * Draft) :=
  if full then
    let c := conn self in
    '(s, d) ← match streams c with
              | Some s => '(s, d) ← put_streams s payload_cap d; Some (Some s, d)
              | None => Some (None, d)
              end;
    '(q, d) ← put_datagrams (length (outbound_dgs (datagram_queues c))) (datagram_queues c) payload_cap d;
    Some (self <| conn := c <| streams := s |> <| datagram_queues := q |> |>, d)
  else Some (self, d).

(** The PING of a probe timeout. *)
Definition put_probe_ping self (level : Level) (full : bool) (payload_cap : Z) (d : Draft) : option Draft :=
  if negb (bool_decide (level = Level.EarlyData)) && full && negb (pm_ack_eliciting d.2) && (zlen d.1 <? payload_cap)
     && probe_needs_ping (loss (ep (conn self))) (pn_space_of_level level)
  then put_ping d else Some d.

(** The PINGs: for a probe timeout, and for a key update just initiated. *)
Definition put_pings self (level : Level) (full : bool) (payload_cap : Z) (d : Draft) : option (Sender E K * Draft) :=
  d ← put_probe_ping self level full payload_cap d;
  if bool_decide (level = Level.OneRtt) && full && ping_pending self then
    if pm_ack_eliciting d.2 then Some (self <| ping_pending := false |>, d)
    else if zlen d.1 <? payload_cap then d ← put_ping d; Some (self <| ping_pending := false |>, d)
    else Some (self, d)
  else Some (self, d).

(** The payload of a packet at [level], if there is anything to send; [None] is a panic. *)
Definition assemble_payload self (level : Level) (scope : PayloadScope) (payload_cap now : Z)
  : option (Sender E K * option Draft) :=
  let full := bool_decide (scope = Full) in
  let c := conn self in
  d ← put_ack (pn (ep c) (pn_space_of_level level)) level scope (our_ack_delay_exponent (params c)) payload_cap now
        ([], packet_meta_default);
  '(buf, d) ← put_crypto (bufs (ep c) level) level full payload_cap d;
  let self := self <| conn := c <| ep := set_buf (ep c) level buf |> |> in
  '(self, d) ← (if bool_decide (level = Level.OneRtt) then put_housekeeping self full payload_cap d else Some (self, d));
  '(self, d) ← (if bool_decide (level = Level.OneRtt) || bool_decide (level = Level.EarlyData)
                then put_application self full payload_cap d else Some (self, d));
  '(self, d) ← put_pings self level full payload_cap d;
  Some (self, if is_nil d.1 then None else Some d).

(** * Room *)

Definition datagram_budget self : Z :=
  let budget := max_datagram_size (cc (ep (conn self))) in
  let budget := match peer_max_udp_payload_size self with Some peer_max => Z.min budget peer_max | None => budget end in
  Z.max budget MIN_INITIAL_DATAGRAM.

Definition peer_cid self : bytes := cid_as_slice (cc_peer (cids (conn self))).

(** The token an Initial packet carries. *)
Definition initial_token self : bytes :=
  if bool_decide (conn_role (conn self) = Client) then retry_token self else [].

Definition packet_overhead self (level : Level) : Z :=
  let dcid := zlen (peer_cid self) in
  let scid := zlen (cid_as_slice (local_cid self)) in
  let tag := 16 in
  match level with
  | Level.OneRtt => 1 + dcid + 4 + tag
  | Level.Initial => 1 + 4 + 1 + dcid + 1 + scid + 4 + zlen (initial_token self) + 4 + 4 + tag
  | Level.Handshake | Level.EarlyData => 1 + 4 + 1 + dcid + 1 + scid + 4 + 4 + tag
  end.

Definition MIN_COALESCED_PAYLOAD : Z := 32.

Definition coalesce_room self (level : Level) (budget used : Z) : option Z :=
  if used =? 0 then Some budget
  else
    let room := sat_sub budget used in
    if packet_overhead self level + MIN_COALESCED_PAYLOAD <=? room then Some room else None.

(** What only 1-RTT packets carry. *)
Definition housekeeping_pending self : bool :=
  let c := conn self in
  has_pending_response (path c) || has_pending_challenge (path c)
  || match cc_remote (cids c) with Some p => negb (is_nil (cp_pending_retire p)) | None => false end
  || (handshake_complete c && negb (cc_new_cids_issued (cids c))) || handshake_done_pending c.

Definition streams_pending self : bool := match streams (conn self) with Some s => has_pending s | None => false end.
Definition datagrams_pending self : bool := negb (is_nil (outbound_dgs (datagram_queues (conn self)))).

Definition level_has_pending self (level : Level) : bool :=
  let early := bool_decide (level = Level.EarlyData) in
  let one_rtt := bool_decide (level = Level.OneRtt) in
  if negb early && outbound_pending (bufs (ep (conn self)) level) then true
  else if ack_pending (ep (conn self)) level then true
  else if (one_rtt || early) && streams_pending self then true
  else if early then datagrams_pending self
  else if one_rtt && (housekeeping_pending self || datagrams_pending self) then true
  else probe_needs_ping (loss (ep (conn self))) (pn_space_of_level level).

(** * Key updates *)

Definition flip_tx_key_phase self (new_phase : bool) : Sender E K :=
  if negb (suite_known self) then self
  else if negb (hp_known self) then self
  else
    let self := match tx_by_phase self new_phase with
                | Some keys =>
                    self <| conn := (conn self) <| ep := (ep (conn self)) <| tx_keys := upd (tx_keys (ep (conn self))) Level.OneRtt true |> |> |>
                         <| tx := upd (tx self) Level.OneRtt (derive_keys keys) |>
                         <| tx_by_phase := upd (tx_by_phase self) (negb new_phase) (Some (derive_next keys)) |>
                         <| tx_packets := upd (tx_packets self) Level.OneRtt 0 |>
                | None => self
                end in
    self <| one_rtt_phase := new_phase |>.

Definition initiate_key_update self : Sender E K * tls_result () :=
  let c := conn self in
  if closed c || negb (conn_confirmed c) then (self, Err Error.InappropriateState)
  else if bool_decide (conn_role c = Server) && negb (handshake_done_acked c) then (self, Err Error.InappropriateState)
  else if tx_phase_pending_confirm self then (self, Err Error.InappropriateState)
  else if bool_decide (tx_by_phase self false = None) && negb (tx_keys (ep c) Level.OneRtt)
  then (self, Err Error.InappropriateState)
  else
    let self := flip_tx_key_phase self (negb (one_rtt_phase self)) in
    (self <| tx_phase_pending_confirm := true |> <| ping_pending := true |>, Ok ()).

(** * Sealing *)

(** What the padding arithmetic takes for the header in front of the packet number. *)
Definition header_overhead self (level : Level) : Z :=
  let scid_len := zlen (cid_as_slice (local_cid self)) in
  let dcid_len := zlen (peer_cid self) in
  let token_len := if bool_decide (level = Level.Initial) then zlen (initial_token self) else 0 in
  let token_len_varint_bytes := if token_len <? 64 then 1 else if token_len <? 16384 then 2 else 4 in
  let length_field_bytes := 2 in
  let token_bytes := if bool_decide (level = Level.Initial) then token_len_varint_bytes + token_len else 0 in
  if bool_decide (level = Level.OneRtt) then 1 + dcid_len
  else 1 + 4 + 1 + dcid_len + 1 + scid_len + token_bytes + length_field_bytes.

(** The length the payload is padded to. *)
Definition padded_len self (level : Level) (pn_len payload_len : Z) (pad : option (Z * Z)) : Z :=
  match pad with
  | None => 0
  | Some (target_total, already_in_datagram) =>
      let pn_and_tag := pn_len + 16 in
      let needed_pkt_len := sat_sub target_total already_in_datagram in
      let payload_needed := sat_sub needed_pkt_len (header_overhead self level + pn_and_tag) in
      if negb (bool_decide (level = Level.OneRtt)) && (pn_and_tag + Z.max payload_len payload_needed <? 64)
      then payload_needed + 1 else payload_needed
  end.

(** PADDING frames up to [n] bytes. *)
Definition pad_to (payload : bytes) (n : Z) : bytes := payload ++ replicate (Z.to_nat (n - zlen payload)) 0.

(** The header, appended to [out], and the offset of the packet number. *)
Definition build_header self (level : Level) (pn_ pn_len payload_len : Z) (out : bytes) : bytes * Z :=
  let length_field := pn_len + payload_len + 16 in
  let dcid := peer_cid self in
  let scid := cid_as_slice (local_cid self) in
  match level with
  | Level.Initial =>
      build_long_header_into out LongType.Initial (version self) dcid scid (initial_token self) pn_ pn_len length_field
  | Level.Handshake => build_long_header_into out LongType.Handshake (version self) dcid scid [] pn_ pn_len length_field
  | Level.OneRtt => build_short_header_into out dcid false (one_rtt_phase self) pn_ pn_len
  | Level.EarlyData =>
      build_long_header_into out LongType.ZeroRtt (original_version self) dcid scid [] pn_ pn_len length_field
  end.

(** The packet at the end of [out], sealed in place and header-protected: [out] and the
    length of the packet.  The outer [None] is a panic, the inner one an unusable mask. *)
Definition protect_packet self (level : Level) (pn_ pn_len : Z) (payload out : bytes) : option (option (bytes * Z)) :=
  let base := zlen out in
  let keys := tx self level in
  let '(out, pn_offset) := build_header self level pn_ pn_len (zlen payload) out in
  let pkt_pn_offset := pn_offset - base in
  let out := out ++ payload in
  let aad_len := pkt_pn_offset + pn_len in
  let aad := ztake aad_len (zdrop base out) in
  let pt := zdrop aad_len (zdrop base out) in
  let '(ct, tag) := aead_seal keys pn_ aad pt in
  let pkt := aad ++ ct ++ tag in
  if zlen pkt <? pkt_pn_offset + 4 + 16 then None
  else
    let sample := ztake 16 (zdrop (pkt_pn_offset + 4) pkt) in
    match hp_mask keys sample with
    | None => Some None
    | Some mask =>
        pkt ← apply_header_protection pkt pkt_pn_offset pn_len mask (negb (bool_decide (level = Level.OneRtt)));
        Some (Some (ztake base out ++ pkt, zlen pkt))
    end.

(** [seal_packet]: the datagram with the packet appended and the packet's length, or
    [None] if it is not built. *)
Definition seal_packet self (level : Level) (payload : bytes) (pad : option (Z * Z)) (meta : option PacketMeta)
  (out : bytes) (now : Z) : option (Sender E K * bytes * option Z) :=
  if negb (tx_keys (ep (conn self)) level) then Some (self, out, None)
  else
    let '(e, pn_) := allocate_pn (ep (conn self)) level in
    let self := self <| conn := (conn self) <| ep := e |> |> in
    let largest_acked := largest_acked_tx (pn e (pn_space_of_level level)) in
    let pn_len := encode_packet_number_length pn_ largest_acked / 8 in
    let payload := pad_to payload (padded_len self level pn_len (zlen payload) pad) in
    let payload := pad_to payload (sat_sub 4 pn_len) in
    sealed ← protect_packet self level pn_ pn_len payload out;
    match sealed with
    | None => Some (self, out, None)
    | Some (out, packet_len) =>
        let self := self <| tx_packets := upd (tx_packets self) level (sat_add 64 (tx_packets self level) 1) |> in
        let self := self <| conn := (conn self) <| ep := register_sent e level pn_ packet_len meta now |> |> in
        Some (self, out, Some packet_len)
    end.

(** * Building a packet *)

(** Whether the level has anything worth a packet. *)
Definition worth_packet self (level : Level) : bool :=
  let c := conn self in
  let zero_rtt := bool_decide (level = Level.EarlyData) in
  let one_rtt := bool_decide (level = Level.OneRtt) in
  (negb zero_rtt && outbound_pending (bufs (ep c) level)) || ack_pending (ep c) level
  || ((one_rtt || zero_rtt) && streams_pending self) || (one_rtt && housekeeping_pending self)
  || ((one_rtt || zero_rtt) && datagrams_pending self)
  || (negb zero_rtt && probe_needs_ping (loss (ep c)) (pn_space_of_level level)) || (one_rtt && ping_pending self).

(** The 1-RTT keys are rotated at three quarters of their usage limit. *)
Definition rotate_keys self (level : Level) : Sender E K :=
  let limit := usage_limit self level in
  if bool_decide (level = Level.OneRtt) && (sat_sub limit (limit / 4) <=? tx_packets self level)
     && negb (tx_phase_pending_confirm self)
  then (initiate_key_update self).1 else self.

(** What the packet may carry. *)
Definition payload_scope self (level : Level) (probing : bool) : PayloadScope :=
  let c := conn self in
  let application := bool_decide (level = Level.OneRtt) || bool_decide (level = Level.EarlyData) in
  let unauthenticated_peer := bool_decide (conn_role c = Server) && negb (handshake_complete c) && require_client_auth self && application in
  if bool_decide (conn_role c = Client) && bool_decide (migration c ≠ None) && negb (peer_addr_validated c) then ProbingOnly
  else if unauthenticated_peer then NoApplicationData
  else if bool_decide (level = Level.OneRtt) && negb probing && negb (can_send (cc (ep c))) then NotCongestionControlled
  else Full.

Definition build_packet_with_pad self (level : Level) (pad : option (Z * Z)) (room : Z) (out : bytes) (now : Z)
  : option (Sender E K * bytes * option Z) :=
  if negb (worth_packet self level) then Some (self, out, None)
  else if negb (tx_keys (ep (conn self)) level) then Some (self, out, None)
  else if closed (conn self) || bool_decide (pending_close (conn self) ≠ None) then Some (self, out, None)
  else
    let self := rotate_keys self level in
    if usage_limit self level <=? tx_packets self level
    then Some (self <| conn := close_with_transport_error (conn self) ERROR_AEAD_LIMIT_REACHED now |>, out, None)
    else
      let probing := negb (bool_decide (level = Level.EarlyData))
                     && (0 <? probe_credit_of (loss (ep (conn self))) (pn_space_of_level level)) in
      let scope := payload_scope self level probing in
      let payload_cap := sat_sub room (packet_overhead self level) in
      '(self, built) ← assemble_payload self level scope payload_cap now;
      match built with
      | None => Some (self, out, None)
      | Some (payload, meta) =>
          let self := if probing && pm_ack_eliciting meta
                      then self <| conn := (conn self) <| ep := (ep (conn self)) <| loss := consume_probe_credit (loss (ep (conn self))) |> |> |>
                      else self in
          seal_packet self level payload pad (Some meta) out now
      end.

(** * Building a datagram *)

Definition on_conn (f : Conn E → Conn E) self : Sender E K := self <| conn := f (conn self) |>.

Definition initial_will_emit self : bool := level_has_pending self Level.Initial.

Definition zero_rtt_live self : bool := bool_decide (conn_role (conn self) = Client) && negb (early_keys_discarded self).

Definition zero_rtt_will_emit self : bool :=
  zero_rtt_live self && tx_keys (ep (conn self)) Level.EarlyData && level_has_pending self Level.EarlyData.

Definition initial_fills_datagram self (budget : Z) : bool :=
  initial_will_emit self
  && (budget <=? outbound_len (bufs (ep (conn self)) Level.Initial) + packet_overhead self Level.Initial).

Definition handshake_will_emit self (budget : Z) : bool :=
  negb (initial_fills_datagram self budget) && level_has_pending self Level.Handshake.

Definition need_initial_pad self : bool :=
  initial_will_emit self
  && (bool_decide (conn_role (conn self) = Client) || outbound_pending (bufs (ep (conn self)) Level.Initial)).

Definition initial_pad self (budget : Z) : option (Z * Z) :=
  if need_initial_pad self
     && (initial_fills_datagram self budget || (negb (zero_rtt_will_emit self) && negb (handshake_will_emit self budget)))
  then Some (1200, 0) else None.

(** The 0-RTT packet of a client: whether one was added. *)
Definition build_zero_rtt self (budget : Z) (dg : bytes) (now : Z) : option (Sender E K * bytes * bool) :=
  if zero_rtt_live self then
    match coalesce_room self Level.EarlyData budget (zlen dg) with
    | Some room =>
        '(self, dg, built) ← build_packet_with_pad self Level.EarlyData None room dg now;
        Some (self, dg, bool_decide (built ≠ None))
    | None => Some (self, dg, false)
    end
  else Some (self, dg, false).

(** The Handshake packet; a client that sends one gives up its Initial keys. *)
Definition build_handshake self (pad_datagram : bool) (budget : Z) (dg : bytes) (now : Z) : option (Sender E K * bytes) :=
  let handshake_pad := if pad_datagram then Some (1200, zlen dg) else None in
  match coalesce_room self Level.Handshake budget (zlen dg) with
  | None => Some (self, dg)
  | Some room =>
      '(self, dg, built) ← build_packet_with_pad self Level.Handshake handshake_pad room dg now;
      let self := if bool_decide (built ≠ None) && bool_decide (conn_role (conn self) = Client)
                     && tx_keys (ep (conn self)) Level.Initial
                  then on_conn (λ c, c <| ep := discard_level (ep c) Level.Initial now |>) self else self in
      Some (self, dg)
  end.

(** The 1-RTT packet: whether it carries a challenge of ours. *)
Definition build_one_rtt self (budget : Z) (dg : bytes) (now : Z) : option (Sender E K * bytes * bool) :=
  let path_pending_before := pending_len (path (conn self)) in
  let challenge_pending_before := pending_challenge_len (path (conn self)) in
  let onertt_pad := if (0 <? path_pending_before)
                       && path_budget_permits (conn self) (1200 - Z.min (zlen dg) 1200) (0 <? challenge_pending_before)
                    then Some (1200, zlen dg) else None in
  '(self, dg) ← match coalesce_room self Level.OneRtt budget (zlen dg) with
                | None => Some (self, dg)
                | Some room => '(self, dg, _) ← build_packet_with_pad self Level.OneRtt onertt_pad room dg now; Some (self, dg)
                end;
  Some (self, dg, pending_challenge_len (path (conn self)) <? challenge_pending_before).

(** The PADDING-only packet that tops an Initial-bearing datagram up to 1200 bytes. *)
Definition top_up self (zero_rtt_emitted : bool) (dg : bytes) (now : Z) : option (Sender E K * bytes) :=
  let trailer_level :=
    if zero_rtt_emitted then Level.EarlyData
    else if tx_keys (ep (conn self)) Level.Handshake && negb (outbound_pending (bufs (ep (conn self)) Level.Initial))
    then Level.Handshake else Level.Initial in
  '(self, dg, _) ← seal_packet self trailer_level [] (Some (1200, zlen dg)) (Some packet_meta_default) dg now;
  Some (self, dg).

(** The packets of a datagram, before the anti-amplification check: the datagram and
    whether it carries a challenge of ours. *)
Definition coalesce_packets self (now : Z) : option (Sender E K * bytes * bool) :=
  let budget := datagram_budget self in
  let need := need_initial_pad self in
  '(self, dg, _) ← build_packet_with_pad self Level.Initial (initial_pad self budget) budget [] now;
  let initial_emitted := negb (is_nil dg) in
  '(self, dg, zero_rtt_emitted) ← build_zero_rtt self budget dg now;
  '(self, dg) ← build_handshake self (need && initial_emitted && negb zero_rtt_emitted) budget dg now;
  '(self, dg, carries_own_challenge) ← build_one_rtt self budget dg now;
  '(self, dg) ← (if negb (is_nil dg) && need && initial_emitted && (zlen dg <? 1200)
                 then top_up self zero_rtt_emitted dg now else Some (self, dg));
  Some (self, dg, carries_own_challenge).

Definition pop_datagram_inner self (now : Z) : option (Sender E K * bytes) :=
  '(self, dg, carries_own_challenge) ← coalesce_packets (on_conn sync_loss_context self) now;
  if is_nil dg then Some (self, [])
  else
    let '(c, sent) := emit_datagram (conn self) (zlen dg) carries_own_challenge now in
    if sent then Some (self <| conn := c |> <| sent_first_datagram := true |>, dg) else Some (self <| conn := c |>, []).

(** What a rejected datagram gives back: the frames that nothing would retransmit. *)
Definition restore_one_shot_state self (snapshot : Sender E K) : Sender E K :=
  let c := conn snapshot in
  on_conn (λ c', c' <| datagram_queues := (datagram_queues c') <| outbound_dgs := outbound_dgs (datagram_queues c) |> |>
                    <| path := path c |>
                    <| cids := set_issued (cc_new_cids_issued (cids c))
                                 (set_remote (cc_remote (cids c)) (set_local (cc_local (cids c)) (cids c'))) |>) self.

(** The CONNECTION_CLOSE datagram of a closing connection. *)
Definition pop_close_datagram self (now : Z) : option (Sender E K * bytes) :=
  match pending_close (conn self) with
  | None => Some (self, [])
  | Some pc =>
      if negb (pc_armed pc) then Some (self, [])
      else
        let self := on_conn (λ c, c <| pending_close := Some (pc <| pc_armed := false |>) |>) self in
        let pad := if bool_decide (pc_level pc = Level.Initial) && bool_decide (conn_role (conn self) = Client)
                   then Some (1200, 0) else None in
        '(self, wire, built) ← seal_packet self (pc_level pc) (pc_frame pc) pad None [] now;
        if bool_decide (built = None) then Some (self, [])
        else if negb (path_budget_permits (conn self) (zlen wire) true) then Some (self, [])
        else Some (on_conn (λ c, c <| active_path := note_sent (active_path c) (zlen wire) |>) self
                     <| sent_first_datagram := true |>, wire)
  end.

Definition has_pending_outbound self : bool :=
  let e := ep (conn self) in
  existsb (λ l, outbound_pending (bufs e l)) [Level.Initial; Level.Handshake; Level.OneRtt]
  || existsb (ack_pending e) [Level.Initial; Level.Handshake; Level.OneRtt]
  || streams_pending self || housekeeping_pending self || bool_decide (pending_retry_datagram self ≠ None)
  || datagrams_pending self
  || match probe_space (loss e) with Some space => probe_needs_ping (loss e) space | None => false end
  || ping_pending self.

(** The next datagram, empty if there is none. *)
Definition pop_datagram_timed self (now : Z) : option (Sender E K * bytes) :=
  if closed (conn self) || draining (conn self) then Some (self, [])
  else if bool_decide (pending_close (conn self) ≠ None) then pop_close_datagram self now
  else
    let self := on_conn (λ c, c <| path := retain_responses_for (path c) (peer_addr c) |>) self in
    match pending_retry_datagram self with
    | Some dg =>
        if negb (path_can_send (active_path (conn self)) (zlen dg)) then Some (self, [])
        else Some (on_conn (λ c, c <| active_path := note_sent (active_path c) (zlen dg) |>) self
                     <| pending_retry_datagram := None |> <| sent_first_datagram := true |>, dg)
    | None =>
        if handshake_complete (conn self) && negb (has_pending_outbound self) then Some (self, [])
        else if negb (validated (active_path (conn self))) then
          let snapshot := self in
          '(self, dg) ← pop_datagram_inner self now;
          Some (if is_nil dg then restore_one_shot_state self snapshot else self, dg)
        else pop_datagram_inner self now
    end.

(** [pop_datagram_into_at]: what reaches a buffer of [size] bytes. *)
Definition pop_datagram_into_at self (now size : Z) : option (Sender E K * bytes) :=
  if size <? datagram_budget self then Some (self, [])
  else '(self, dg) ← pop_datagram_timed self now; Some (self, ztake (Z.min (zlen dg) size) dg).

(** The challenges answered on other paths than the current one. *)
Definition pop_offpath_datagram self (now : Z) : option (Sender E K * option (SocketAddr * bytes)) :=
  let c := conn self in
  if is_closing_state c then Some (on_conn (λ c, c <| offpath_responses := [] |>) self, None)
  else
    match offpath_responses c with
    | [] => Some (self, None)
    | (to, data, rx_len) :: rest =>
        let mine := filter (λ r, r.1.1 = to) rest in
        payload ← wfor frame_encode (Frame.PathResponse <$> data :: (mine.*1).*2) [];
        let self := on_conn (λ c, c <| offpath_responses := filter (λ r, r.1.1 ≠ to) rest |>) self in
        let in_use := cc_peer (cids c) in
        let cid := match cc_remote (cids c) with
                   | Some pool => match spare pool in_use with Some e => ce_cid e.2 | None => in_use end
                   | None => in_use
                   end in
        let self := on_conn (λ c, c <| cids := set_peer cid (cids c) |>) self in
        let target := Z.min MIN_INITIAL_DATAGRAM (Z.min U64_MAX (rx_len * 3)) in
        '(self, pkt, built) ← seal_packet self Level.OneRtt payload (Some (target, 0)) None [] now;
        let self := on_conn (λ c, c <| cids := set_peer in_use (cids c) |>) self in
        Some (self, match built with Some _ => Some (to, pkt) | None => None end)
    end.
End send.
