(* ===== verification/PayloadSpec.v ===== *)
(** What a packet carries: the payload that [assemble_payload] builds is a run of whole
    frames, each allowed at the packet's level and by the scope it was built under, and
    the record handed to loss recovery says exactly what they are. *)

From S2P Require Import Prelude TlsBase Varint Codec Path Pn Ack BTree CryptoBuf Frame Datagram RecvStream SendStream TransportParams Streams StreamsInv StreamsOps StreamsSpec Version Pkt Cid Congestion Loss Endpoint Conn Send.

(** * Frames append *)

Lemma appends_self f x : Appends f x → Appends f (f []).
Proof. intros H. rewrite (H []). destruct x; exact H. Qed.

#[local] Instance appends_fail : Appends (λ _, None) None.
Proof. done. Qed.

#[local] Instance appends_guard (b : bool) : Appends (λ out, if b then Some out else None) (if b then Some [] else None).
Proof. intros out. destruct b; simpl; by rewrite ?app_nil_r. Qed.

(** Finds what a chain of writers appends. *)
Ltac appended := repeat (eapply appends_seq; [first [apply _ | idtac]|]); apply _.

Lemma frame_appends f : Appends (frame_encode f) (frame_encode f []).
Proof.
  destruct f as [n| |la dl raw fr ecn|id code sz|id code|o d|tok|id o fin d|v|id l|dir l|v|id l|dir l|sq rpt c tok|sq|d|d|er ft rs| |d];
    unfold frame_encode, encode_ack, encode_stream, encode_new_connection_id, encode_connection_close; cbv zeta;
    try (destruct (count_pairs (length raw) raw 0)); try destruct ecn; try destruct ft; eapply appends_self; appended.
Qed.

Lemma frame_encode_app f out out' : frame_encode f out = Some out' →
  ∃ enc, frame_encode f [] = Some enc ∧ out' = out ++ enc.
Proof. rewrite (frame_appends f out). destruct (frame_encode f []) as [enc|]; [|done]. intros [= <-]. by exists enc. Qed.

Lemma wfor_app {A} (f : A → writer) l k out : wfor f (l ++ k) out = wfor f l out ≫= wfor f k.
Proof.
  revert out. induction l as [|x l IH]; intros out; [done|]. cbn [app wfor]. unfold wseq. destruct (f x out) as [o|]; [|done]. cbn. apply IH.
Qed.

(** * Drafts *)

(** What loss recovery is told about a frame. *)
Definition frame_eliciting (f : Frame.frame) : bool :=
  match f with Frame.Padding _ | Frame.Ack _ _ _ _ _ | Frame.ConnectionClose _ _ _ => false | _ => true end.
Definition is_ack (f : Frame.frame) : bool := match f with Frame.Ack _ _ _ _ _ => true | _ => false end.
Definition is_done (f : Frame.frame) : bool := match f with Frame.HandshakeDone => true | _ => false end.

Definition crypto_hint_of (level : Level) (f : Frame.frame) : option CryptoHint :=
  match f with Frame.Crypto offset data => Some (mkCryptoHint (level_as_u8 level) offset (zlen data)) | _ => None end.

Definition stream_hint_of (f : Frame.frame) : option StreamHint :=
  match f with Frame.Stream id offset fin data => Some (mkStreamHint id offset (zlen data) fin) | _ => None end.

Definition frame_control (f : Frame.frame) : option control_hint :=
  match f with
  | Frame.ResetStream id _ _ => Some (ControlHint.ResetStream id)
  | Frame.StopSending id code => Some (ControlHint.StopSending id code)
  | Frame.MaxData limit => Some (ControlHint.MaxData limit)
  | Frame.MaxStreamData id limit => Some (ControlHint.MaxStreamData id limit)
  | Frame.DataBlocked limit => Some (ControlHint.DataBlocked limit)
  | Frame.StreamDataBlocked id limit => Some (ControlHint.StreamDataBlocked id limit)
  | Frame.MaxStreams dir limit => Some (ControlHint.MaxStreams dir limit)
  | Frame.StreamsBlocked dir limit => Some (ControlHint.StreamsBlocked dir limit)
  | _ => None
  end.

(** The hints of the small vector: two in place, the others spilled. *)
Definition hints_wf (h : StreamHints) : Prop :=
  length (inline_hints h) = 2%nat ∧ 0 ≤ inline_len h ≤ 2 ∧ (spill h ≠ [] → inline_len h = 2).

Lemma hints_push h x : hints_wf h →
  hints_wf (stream_hints_push h x) ∧ stream_hints_iter (stream_hints_push h x) = stream_hints_iter h ++ [x].
Proof.
  intros (H1 & H2 & H3). destruct h as [l n sp]. cbn in *. unfold stream_hints_push, stream_hints_iter. cbn.
  destruct (Z.ltb_spec n (zlen l)) as [Hlt|Hge]; unfold zlen in *.
  - assert (sp = []) as -> by (destruct sp; [done|]; specialize (H3 ltac:(done)); lia).
    split; [unfold hints_wf; cbn [inline_hints inline_len spill]; rewrite length_insert; split_and!; [done|lia|lia|done]|].
    cbn [inline_hints inline_len spill]. rewrite !app_nil_r.
    destruct l as [|a [|b [|]]]; try done. unfold ztake. assert (n = 0 ∨ n = 1) as [-> | ->] by (cbn in Hlt; lia); done.
  - split; [unfold hints_wf; cbn [inline_hints inline_len spill]; split_and!; [done|lia|lia|intros _; lia]|].
    cbn [inline_hints inline_len spill]. by rewrite app_assoc.
Qed.

(** From [d] to [d'] the frames [fs] were written, and recorded. *)
Record drafted (level : Level) (d d' : Draft) (fs : list Frame.frame) : Prop := {
  dr_bytes : wfor frame_encode fs d.1 = Some d'.1;
  dr_elicit : pm_ack_eliciting d'.2 = pm_ack_eliciting d.2 || existsb frame_eliciting fs;
  dr_flight : pm_in_flight d'.2 = pm_in_flight d.2 || existsb frame_eliciting fs;
  dr_ack : carried_ack d'.2 = carried_ack d.2 || existsb is_ack fs;
  dr_done : pm_handshake_done d'.2 = pm_handshake_done d.2 || existsb is_done fs;
  dr_crypto : crypto_hints d'.2 = crypto_hints d.2 ++ omap (crypto_hint_of level) fs;
  dr_streams : hints_wf (pm_stream_hints d.2) → hints_wf (pm_stream_hints d'.2)
    ∧ stream_hints_iter (pm_stream_hints d'.2) = stream_hints_iter (pm_stream_hints d.2) ++ omap stream_hint_of fs;
  dr_controls : pm_control_hints d'.2 = pm_control_hints d.2 ++ omap frame_control fs }.

Lemma drafted_nil level d : drafted level d d [].
Proof. split; cbn; rewrite ?orb_false_r, ?app_nil_r; done. Qed.

Lemma drafted_app level d1 d2 d3 fs gs : drafted level d1 d2 fs → drafted level d2 d3 gs → drafted level d1 d3 (fs ++ gs).
Proof.
  intros [A1 A2 A3 A4 A5 A6 A7 A8] [B1 B2 B3 B4 B5 B6 B7 B8].
  split; rewrite ?existsb_app, ?omap_app, ?orb_assoc; try (rewrite ?app_assoc; congruence).
  - rewrite wfor_app, A1. exact B1.
  - intros Hw. destruct (A7 Hw) as [Hw2 H2]. destruct (B7 Hw2) as [Hw3 H3]. split; [done|]. rewrite H3, H2. by rewrite ?app_assoc.
Qed.

(** One frame that only elicits. *)
Lemma drafted_one level out meta f out' meta' : frame_encode f out = Some out' → frame_eliciting f = true → is_ack f = false →
  is_done f = false → crypto_hint_of level f = None → stream_hint_of f = None → frame_control f = None →
  meta' = elicits meta ∨ meta' = elicits meta <| has_path_frame := true |> → drafted level (out, meta) (out', meta') [f].
Proof.
  intros He H1 H2 H3 H4 H5 H6 Hm. destruct Hm as [-> | ->].
  all: split; cbn; unfold wseq; rewrite ?H1, ?H2, ?H3, ?H4, ?H5, ?H6, ?orb_false_r, ?orb_true_r, ?app_nil_r; try done; by rewrite He.
Qed.

(** The room a step may use. *)
Definition fits (cap : Z) (d d' : Draft) : Prop := zlen d'.1 ≤ Z.max (zlen d.1) cap.

Lemma fits_refl cap d : fits cap d d.
Proof. unfold fits. lia. Qed.
Lemma fits_trans cap d1 d2 d3 : fits cap d1 d2 → fits cap d2 d3 → fits cap d1 d3.
Proof. unfold fits. lia. Qed.

(** A step writes frames that satisfy [P], within the cap. *)
Definition writes (level : Level) (P : Frame.frame → Prop) (cap : Z) (d d' : Draft) : Prop :=
  ∃ fs, drafted level d d' fs ∧ Forall P fs ∧ fits cap d d'.

Lemma writes_refl level P cap d : writes level P cap d d.
Proof. exists []. split; [apply drafted_nil|]. split; [done|apply fits_refl]. Qed.

Lemma writes_trans level P cap d1 d2 d3 : writes level P cap d1 d2 → writes level P cap d2 d3 → writes level P cap d1 d3.
Proof.
  intros (fs & H1 & H2 & H3) (gs & H4 & H5 & H6). exists (fs ++ gs). split; [by eapply drafted_app|]. split; [by apply Forall_app|by eapply fits_trans].
Qed.

Lemma writes_mono level (P Q : Frame.frame → Prop) cap d d' : (∀ f, P f → Q f) → writes level P cap d d' → writes level Q cap d d'.
Proof. intros H (fs & H1 & H2 & H3). exists fs. split; [done|]. split; [by eapply Forall_impl|done]. Qed.

Lemma writes_one level (P : Frame.frame → Prop) cap out meta f out' meta' : frame_encode f out = Some out' → frame_eliciting f = true →
  is_ack f = false → is_done f = false → crypto_hint_of level f = None → stream_hint_of f = None → frame_control f = None →
  P f → zlen out' ≤ Z.max (zlen out) cap → meta' = elicits meta ∨ meta' = elicits meta <| has_path_frame := true |> →
  writes level P cap (out, meta) (out', meta').
Proof. intros. exists [f]. split; [by apply drafted_one|]. split; [by constructor|done]. Qed.

(** * The steps of [assemble_payload] *)

Lemma varint_len_range v : 1 ≤ varint_encoded_len v ≤ 8.
Proof. pose proof (varint_len_cases v). lia. Qed.

(** A queue of acknowledgements that the ACK frame can hold. *)
Definition acks_ok (space : PnSpace) : Prop :=
  ack_wf (pending_ack space) ∧ Forall (λ r, r.2 ≤ VARINT_MAX) (pending_ack space).

Lemma ack_frame_encodes space level exponent now f : acks_ok space → ack_frame_of space level exponent now = Some f →
  is_ack f = true ∧ is_Some (frame_encode f []).
Proof.
  intros [Hw Hm]. unfold ack_frame_of. destruct (pending_ack space) as [|[s e] rest] eqn:Ep; [done|].
  apply Forall_cons in Hm as [He _]. cbn in He.
  destruct (ack_frame_carries_ranges s e rest 0 None [] Hw He ltac:(unfold vint; vm_compute; split; discriminate) I) as (first & raw & body & -> & Hwf & _).
  cbv zeta. intros [= <-]. split; [done|]. cbn [frame_encode]. unfold encode_ack. cbn [frame_wf] in Hwf.
  destruct Hwf as (_ & _ & _ & _ & _ & [n ->] & _).
  destruct (negb _); match goal with |- is_Some (?w []) => assert (∃ b, Appends w (Some b)) as [b Hb];
    [eexists; eapply appends_eq; [appended|reflexivity]|rewrite (Hb []); by eexists] end.
Qed.

Lemma put_ack_writes space level scope exponent cap now d : acks_ok space →
  ∃ d', put_ack space level scope exponent cap now d = Some d'
  ∧ writes level (λ f, is_ack f = true ∧ scope ≠ ProbingOnly ∧ level ≠ Level.EarlyData) cap d d'.
Proof.
  intros Hs. destruct d as [out meta]. unfold put_ack.
  destruct (bool_decide (scope = ProbingOnly)) eqn:B1; [eexists; split; [done|apply writes_refl]|].
  destruct (bool_decide (level = Level.EarlyData)) eqn:B2; [eexists; split; [done|apply writes_refl]|].
  cbn [orb]. destruct (is_nil _); [eexists; split; [done|apply writes_refl]|].
  destruct (ack_frame_of space level exponent now) as [f|] eqn:Ef; [|eexists; split; [done|apply writes_refl]].
  destruct (ack_frame_encodes _ _ _ _ _ Hs Ef) as [Ha [enc Henc]]. rewrite Henc. cbn [mbind option_bind].
  destruct (Z.leb_spec (zlen out + zlen enc) cap); [|eexists; split; [done|apply writes_refl]].
  eexists. split; [done|]. exists [f]. split; [|split; [constructor; [|done]; by apply bool_decide_eq_false in B1, B2|]].
  - assert (frame_eliciting f = false ∧ is_done f = false ∧ crypto_hint_of level f = None ∧ stream_hint_of f = None
      ∧ frame_control f = None) as (F1 & F2 & F3 & F4 & F5) by (by destruct f).
    split; cbn [wfor existsb omap list_omap fst snd]; rewrite ?F1, ?F2, ?F3, ?F4, ?F5, ?Ha, ?orb_false_r, ?orb_true_r, ?app_nil_r; try done.
    unfold wseq. by rewrite (frame_appends f out), Henc.
  - unfold fits. cbn. rewrite zlen_app. lia.
Qed.

Lemma carve_len buf room buf' offset data : 0 ≤ room → carve buf room = (buf', Some (offset, data)) → zlen data ≤ room.
Proof.
  intros Hr. unfold carve. destruct (rtx buf) as [|[o c] rest].
  - destruct (outbound buf) as [|b l]; [done|]. intros [= _ <- <-]. pose proof (zlen_nonneg (b :: l)). rewrite zlen_ztake; lia.
  - destruct (Z.ltb_spec room (zlen c)); intros [= _ <- <-]; [rewrite zlen_ztake; lia|lia].
Qed.

(** The bytes of a CRYPTO frame around its data, which the cap does not count. *)
Definition crypto_header (offset len : Z) : Z := 1 + varint_encoded_len offset + varint_encoded_len len.

Lemma zlen_crypto offset data out out' : frame_encode (Frame.Crypto offset data) out = Some out' →
  zlen out' = zlen out + crypto_header offset (zlen data) + zlen data.
Proof.
  cbn [frame_encode]. unfold wseq, put_u8, put_varint, extend_from_slice. cbn [mbind option_bind]. intros [= <-].
  rewrite zlen_app, !zlen_varint_into, zlen_app.
  change (zlen [6]) with 1. unfold crypto_header. lia.
Qed.

(** One CRYPTO frame at most, with what [carve] gave. *)
Lemma put_crypto_writes buf level full cap d : ∃ buf' d', put_crypto buf level full cap d = Some (buf', d')
  ∧ ((buf', d') = (buf, d) ∨ (buf' = (carve buf (sat_sub (Z.min CRYPTO_CHUNK_CAP cap) (zlen d.1))).1 ∧ d' = d) ∨
     full = true ∧ ∃ offset data, carve buf (sat_sub (Z.min CRYPTO_CHUNK_CAP cap) (zlen d.1)) = (buf', Some (offset, data))
       ∧ drafted level d d' [Frame.Crypto offset data]
       ∧ zlen d'.1 ≤ Z.min CRYPTO_CHUNK_CAP cap + crypto_header offset (zlen data)).
Proof.
  destruct d as [out meta]. unfold put_crypto. cbn [fst]. set (room := sat_sub _ _).
  destruct full; cbn [andb]; [|by eexists _, _; split; [done|left]].
  destruct (Z.ltb_spec 0 room) as [Hr|]; [|by eexists _, _; split; [done|left]].
  destruct (carve buf room) as [buf' [[offset data]|]] eqn:Ec; [|by eexists _, _; split; [done|right; left]].
  destruct (frame_encode (Frame.Crypto offset data) out) as [out'|] eqn:He; [|done]. cbn [mbind option_bind].
  eexists _, _. split; [done|]. right. right. split; [done|]. exists offset, data. split; [done|]. split.
  - split; cbn; rewrite ?orb_false_r, ?orb_true_r, ?app_nil_r; done.
  - cbn. rewrite (zlen_crypto _ _ _ _ He). pose proof (carve_len _ _ _ _ _ (Z.lt_le_incl _ _ Hr) Ec). unfold room, sat_sub in *. lia.
Qed.

Definition is_path_frame (f : Frame.frame) : bool :=
  match f with Frame.PathResponse _ | Frame.PathChallenge _ => true | _ => false end.

Lemma put_done_writes level pending full cap d : ∃ b d', put_handshake_done pending full cap d = Some (b, d')
  ∧ writes level (λ f, f = Frame.HandshakeDone ∧ full = true) cap d d'.
Proof.
  destruct d as [out meta]. unfold put_handshake_done. destruct (full && pending && (zlen out <? cap)) eqn:Hc.
  - apply andb_true_iff in Hc as [[-> ->]%andb_true_iff Hl%Z.ltb_lt]. cbn. eexists _, _. split; [done|].
    exists [Frame.HandshakeDone]. split; [|split; [by constructor|]].
    + split; cbn; rewrite ?orb_false_r, ?orb_true_r, ?app_nil_r; done.
    + unfold fits. cbn. rewrite zlen_app. change (zlen [30]) with 1. lia.
  - eexists _, _. split; [done|apply writes_refl].
Qed.

(** ** Path and connection-id frames *)

Lemma pop_response_len to l l' x : pop_response_loop to l = (l', Some x) → (length l' < length l)%nat.
Proof.
  induction l as [|[d from] l IH]; cbn; [done|]. destruct (_ || _); [intros [= <- _]; lia|]. intros H%IH. lia.
Qed.

Lemma path_frame_room out cap out' f : is_path_frame f = true → has_room out PATH_FRAME_LEN cap = true →
  (∀ d, f = Frame.PathResponse d ∨ f = Frame.PathChallenge d → zlen d = 8) → frame_encode f out = Some out' → zlen out' ≤ cap.
Proof.
  intros Hf [_ Hr%Z.leb_le]%andb_true_iff Hd He. unfold PATH_FRAME_LEN in Hr.
  destruct f as [| | | | | | | | | | | | | | | |d|d| | |]; try done; cbn in He; injection He as <-; rewrite !zlen_app;
    rewrite (Hd d) by auto; change (zlen [_]) with 1; lia.
Qed.

(** Challenge data is eight bytes, [[u8; 8]]. *)
Definition path_ok (p : PathChallengeState) : Prop :=
  Forall (λ r, zlen r.1 = 8) (pending_response p) ∧ Forall (λ d, zlen d = 8) (pending_challenge p).

Lemma pop_response_ok to l l' x : Forall (λ r, zlen r.1 = 8) l → pop_response_loop to l = (l', x) →
  Forall (λ r, zlen r.1 = 8) l' ∧ (∀ d, x = Some d → zlen d = 8).
Proof.
  induction l as [|[d from] l IH]; cbn; [by intros _ [= <- <-]|]. intros [H1 H2]%Forall_cons. destruct (_ || _); [|by apply IH].
  intros [= <- <-]. split; [done|]. by intros ? [= <-].
Qed.

Lemma put_responses_writes level n : ∀ p to cap d, (length (pending_response p) ≤ n)%nat → path_ok p →
  ∃ p' d', put_responses n p to cap d = Some (p', d') ∧ path_ok p' ∧ pending_challenge p' = pending_challenge p
    ∧ writes level (λ f, ∃ x, f = Frame.PathResponse x) cap d d'.
Proof.
  induction n as [|n IH]; intros p to cap [out meta] Hn [Hp1 Hp2]; cbn [put_responses].
  all: destruct (has_room out PATH_FRAME_LEN cap) eqn:Hr; [|by eexists _, _; split; [done|]; split; [done|]; split; [done|apply writes_refl]].
  all: unfold pop_outbound_response; destruct (pop_response_loop to (pending_response p)) as [l [x|]] eqn:Ep.
  1: { apply pop_response_len in Ep. lia. }
  1,3: destruct (pop_response_ok _ _ _ _ Hp1 Ep) as [Hl _]; eexists _, _; split; [done|]; split; [done|]; split; [done|apply writes_refl].
  destruct (pop_response_ok _ _ _ _ Hp1 Ep) as [Hl Hx]. specialize (Hx x eq_refl). apply pop_response_len in Ep.
  destruct (frame_encode (Frame.PathResponse x) out) as [out'|] eqn:He; [|done]. cbn [mbind option_bind].
  destruct (IH (p <| pending_response := l |>) to cap (out', elicits meta <| has_path_frame := true |>)) as (p' & d' & -> & H1 & H2 & H3); [cbn; lia|done|].
  eexists _, _. split; [done|]. split; [done|]. split; [done|]. eapply writes_trans; [|exact H3].
  eapply (writes_one level _ cap out meta (Frame.PathResponse x)); try done; [by eexists| |by right].
  assert (zlen out' ≤ cap); [|lia]. eapply (path_frame_room out cap out' (Frame.PathResponse x)); try done. by intros d0 [[= <-]|[= <-]].
Qed.

Lemma put_challenges_writes level n : ∀ p cap d, (length (pending_challenge p) ≤ n)%nat → path_ok p →
  ∃ p' d', put_challenges n p cap d = Some (p', d') ∧ path_ok p' ∧ pending_response p' = pending_response p
    ∧ zlen (pending_challenge p') ≤ zlen (pending_challenge p) ∧ writes level (λ f, ∃ x, f = Frame.PathChallenge x) cap d d'.
Proof.
  induction n as [|n IH]; intros p cap [out meta] Hn [Hp1 Hp2]; cbn [put_challenges].
  all: destruct (has_room out PATH_FRAME_LEN cap) eqn:Hr; [|by eexists _, _; split; [done|]; split; [done|]; split; [done|]; split; [lia|apply writes_refl]].
  all: unfold pop_outbound_challenge; destruct (pending_challenge p) as [|x l] eqn:Ep.
  1,3: eexists _, _; split; [done|]; split; [by split; rewrite ?Ep|]; split; [done|]; split; [rewrite Ep; lia|apply writes_refl].
  { cbn in Hn. lia. }
  apply Forall_cons in Hp2 as [Hx Hl].
  destruct (frame_encode (Frame.PathChallenge x) out) as [out'|] eqn:He; [|done]. cbn [mbind option_bind].
  destruct (IH (p <| pending_challenge := l |>) cap (out', elicits meta <| has_path_frame := true |>)) as (p' & d' & -> & H1 & H2 & H3 & H4); [cbn in *; lia|done|].
  eexists _, _. split; [done|]. split; [done|]. split; [done|]. split; [cbn in H3; unfold zlen in *; cbn; lia|]. eapply writes_trans; [|exact H4].
  eapply (writes_one level _ cap out meta (Frame.PathChallenge x)); try done; [by eexists| |by right].
  assert (zlen out' ≤ cap); [|lia]. eapply (path_frame_room out cap out' (Frame.PathChallenge x)); try done. by intros d0 [[= <-]|[= <-]].
Qed.

Lemma put_retires_writes level n : ∀ pool cap d, (length (cp_pending_retire pool) ≤ n)%nat →
  ∃ pool' d', put_retires n pool cap d = Some (pool', d') ∧ writes level (λ f, ∃ x, f = Frame.RetireConnectionId x) cap d d'.
Proof.
  induction n as [|n IH]; intros pool cap [out meta] Hn; cbn [put_retires].
  all: destruct (has_room out RETIRE_CID_FRAME_MAX cap) eqn:Hr; [|by eexists _, _; split; [done|apply writes_refl]].
  all: unfold pop_pending_retire; destruct (cp_pending_retire pool) as [|x l] eqn:Ep.
  1,3: eexists _, _; split; [done|apply writes_refl].
  { cbn in Hn. lia. }
  destruct (frame_encode (Frame.RetireConnectionId x) out) as [out'|] eqn:He; [|done]. cbn [mbind option_bind].
  destruct (IH (set_pending l pool) cap (out', elicits meta)) as (p' & d' & -> & H1); [cbn in *; lia|].
  eexists _, _. split; [done|]. eapply writes_trans; [|exact H1].
  eapply (writes_one level _ cap out meta (Frame.RetireConnectionId x)); try done; [by eexists| |by left].
  apply andb_true_iff in Hr as [_ Hr%Z.leb_le]. unfold RETIRE_CID_FRAME_MAX in Hr. cbn in He. injection He as <-.
  rewrite zlen_varint_into, zlen_app. change (zlen [_]) with 1. pose proof (varint_len_range x). lia.
Qed.

Section ids.
Context (fresh : Z → ConnectionId) (token_of : ConnectionId → bytes).
(** Random ids have eight bytes, reset tokens sixteen. *)
Context (fresh_len : ∀ n, zlen (cid_as_slice (fresh n)) = CID_LEN) (token_len : ∀ c, zlen (token_of c) = 16).

Lemma issued_frame_len seq out : ∃ out', frame_encode (issued_frame fresh token_of seq) out = Some out'
  ∧ zlen out < zlen out' ≤ zlen out + NEW_CID_FRAME_MAX.
Proof.
  unfold issued_frame. cbn [frame_encode]. unfold encode_new_connection_id, wseq, put_u8, put_varint, extend_from_slice. cbn [mbind option_bind].
  rewrite (proj2 (Z.leb_le _ _)) by (rewrite fresh_len; unfold CID_LEN; lia). cbn [mbind option_bind]. eexists. split; [done|].
  rewrite !zlen_app, !zlen_varint_into, zlen_app, token_len, fresh_len. change (zlen [_]) with 1. change (zlen [as_u8 CID_LEN]) with 1.
  pose proof (varint_len_range seq). pose proof (varint_len_range 0). unfold NEW_CID_FRAME_MAX, CID_LEN. lia.
Qed.

(** The frames of the loop: nothing but new ids, within the cap. *)
Lemma issue_loop_writes k : ∀ pool seq out cap, ∃ pool' out' b fs, issue_loop fresh token_of pool seq k out cap = Some (pool', out', b)
  ∧ wfor frame_encode fs out = Some out' ∧ Forall (λ f, ∃ x, f = issued_frame fresh token_of x) fs
  ∧ zlen out' ≤ Z.max (zlen out) cap ∧ (fs = [] ∨ zlen out < zlen out').
Proof.
  induction k as [|k IH]; intros pool seq out cap; cbn [issue_loop].
  { eexists _, _, _, []. split; [done|]. split; [done|]. split; [done|]. split; [lia|by left]. }
  destruct (Z.ltb_spec cap (zlen out + NEW_CID_FRAME_MAX)) as [|Hr]; cbn [orb].
  { eexists _, _, _, []. split; [done|]. split; [done|]. split; [done|]. split; [lia|by left]. }
  destruct (1000 <? zlen out); [eexists _, _, _, []; split; [done|]; split; [done|]; split; [done|]; split; [lia|by left]|].
  destruct (cid_add _ _) as [pool1 [|]]; [|eexists _, _, _, []; split; [done|]; split; [done|]; split; [done|]; split; [lia|by left]].
  destruct (issued_frame_len seq out) as (out1 & He & Hlen). rewrite He. cbn [mbind option_bind].
  destruct (IH pool1 (seq + 1) out1 cap) as (p' & out' & b & fs & -> & H1 & H2 & H3 & H4).
  exists p', out', b, (issued_frame fresh token_of seq :: fs). split; [done|]. split; [cbn [wfor]; unfold wseq; by rewrite He|].
  split; [constructor; [by eexists|done]|]. split; [lia|]. right. destruct H4 as [-> | H4]; [cbn in H1; injection H1 as <-; lia|lia].
Qed.

Lemma issued_drafted level out meta out' fs : Forall (λ f, ∃ x, f = issued_frame fresh token_of x) fs →
  wfor frame_encode fs out = Some out' → fs = [] ∨ zlen out < zlen out' →
  drafted level (out, meta) (out', if zlen out <? zlen out' then elicits meta else meta) fs.
Proof.
  intros Hf Hw Hl.
  assert (existsb frame_eliciting fs = (zlen out <? zlen out')) as He.
  { destruct fs as [|f fs]; [cbn in Hw; injection Hw as <-; cbn; symmetry; apply Z.ltb_ge; lia|]. destruct Hl as [|Hl]; [done|].
    apply Forall_cons in Hf as [[x ->] _]. cbn. symmetry. by apply Z.ltb_lt. }
  assert (existsb is_ack fs = false ∧ existsb is_done fs = false ∧ omap (crypto_hint_of level) fs = [] ∧ omap stream_hint_of fs = []
    ∧ omap frame_control fs = []) as (F1 & F2 & F3 & F4 & F5).
  { clear -Hf. induction Hf as [|f fs [x ->] _ IH]; [done|]. cbn. exact IH. }
  split; cbn [fst snd]; rewrite ?F1, ?F2, ?F3, ?F4, ?F5, ?He, ?app_nil_r; try done; destruct (_ <? _); rewrite ?orb_false_r, ?orb_true_r; try done.
Qed.

Lemma issue_writes level k limit out meta cap : ∃ k' out' b, issue_new_local_cids fresh token_of k limit out cap = Some (k', out', b)
  ∧ writes level (λ f, ∃ x, f = issued_frame fresh token_of x) cap (out, meta) (out', if zlen out <? zlen out' then elicits meta else meta).
Proof.
  unfold issue_new_local_cids. cbv zeta.
  assert (writes level (λ f, ∃ x, f = issued_frame fresh token_of x) cap (out, meta) (out, if zlen out <? zlen out then elicits meta else meta)) as Hnil
    by (rewrite Z.ltb_irrefl; apply writes_refl).
  destruct (cc_local k) as [pool|]; [|by eexists _, _, _]. destruct (_ =? 0); [by eexists _, _, _|].
  match goal with |- context [issue_loop _ _ ?p ?s ?n ?o ?c] => destruct (issue_loop_writes n p s o c) as (p' & out' & b & fs & -> & H1 & H2 & H3 & H4) end.
  cbn [mbind option_bind]. eexists _, _, _. split; [done|]. exists fs. split; [by apply issued_drafted|]. split; [done|]. unfold fits. cbn. lia.
Qed.
End ids.

(** ** Stream frames *)

Definition is_stream_layer (f : Frame.frame) : bool :=
  match f with
  | Frame.Stream _ _ _ _ | Frame.ResetStream _ _ _ | Frame.StopSending _ _ | Frame.MaxData _ | Frame.MaxStreamData _ _
  | Frame.DataBlocked _ | Frame.StreamDataBlocked _ _ | Frame.MaxStreams _ _ | Frame.StreamsBlocked _ _ => true
  | _ => false
  end.

Definition popped_hint (f : popped_frame) : option StreamHint :=
  match f with Popped.Stream id offset len fin => Some (mkStreamHint id offset len fin) | _ => None end.

Lemma put_u8_cons t w enc : Appends w (w []) → (put_u8 t ⊳ w)%writer [] = Some enc → ∃ r, enc = t :: r.
Proof. intros Hw. unfold wseq, put_u8. cbn [app mbind option_bind]. rewrite (Hw [t]). destruct (w []); [|done]. intros [= <-]. by eexists. Qed.

Lemma emits_frame f enc : emits f enc → ∃ fr, frame_encode fr [] = Some enc ∧ is_stream_layer fr = true
  ∧ stream_hint_of fr = popped_hint f ∧ frame_control fr = control_hint_of f ∧ 1 ≤ zlen enc.
Proof.
  assert (∀ t w, Appends w (w []) → (put_u8 t ⊳ w)%writer [] = Some enc → 1 ≤ zlen enc) as Hlen.
  { intros t w Hw Hp. destruct (put_u8_cons _ _ _ Hw Hp) as [r ->]. unfold zlen. cbn. lia. }
  destruct f as [id o len fin|id c z|id c|v|id l|v|id l|dir l|dir l]; cbn [emits popped_encode].
  - intros (b & <- & He). exists (Frame.Stream id o fin b). split_and!; try done. cbn [frame_encode] in He. unfold encode_stream in He.
    cbv zeta in He. eapply Hlen; [|exact He]. eapply appends_self. appended.
  - intros He. exists (Frame.ResetStream id c z). split_and!; try done. eapply Hlen; [|exact He]. eapply appends_self. appended.
  - intros He. exists (Frame.StopSending id c). split_and!; try done. eapply Hlen; [|exact He]. eapply appends_self. appended.
  - intros He. exists (Frame.MaxData v). split_and!; try done. eapply Hlen; [|exact He]. eapply appends_self. appended.
  - intros He. exists (Frame.MaxStreamData id l). split_and!; try done. eapply Hlen; [|exact He]. eapply appends_self. appended.
  - intros He. exists (Frame.DataBlocked v). split_and!; try done. eapply Hlen; [|exact He]. eapply appends_self. appended.
  - intros He. exists (Frame.StreamDataBlocked id l). split_and!; try done. eapply Hlen; [|exact He]. eapply appends_self. appended.
  - intros He. exists (Frame.MaxStreams dir l). split_and!; try done. eapply Hlen; [|exact He]. eapply appends_self. appended.
  - intros He. exists (Frame.StreamsBlocked dir l). split_and!; try done. eapply Hlen; [|exact He]. eapply appends_self. appended.
Qed.

(** What the loop over stream frames leaves of the record. *)
Record noted (meta meta' : PacketMeta) (fs : list Frame.frame) : Prop := {
  nt_same : (pm_ack_eliciting meta', pm_in_flight meta', carried_ack meta', pm_handshake_done meta', crypto_hints meta')
          = (pm_ack_eliciting meta, pm_in_flight meta, carried_ack meta, pm_handshake_done meta, crypto_hints meta);
  nt_streams : hints_wf (pm_stream_hints meta) → hints_wf (pm_stream_hints meta')
    ∧ stream_hints_iter (pm_stream_hints meta') = stream_hints_iter (pm_stream_hints meta) ++ omap stream_hint_of fs;
  nt_controls : pm_control_hints meta' = pm_control_hints meta ++ omap frame_control fs }.

Lemma noted_nil meta : noted meta meta [].
Proof. split; cbn; rewrite ?app_nil_r; done. Qed.

Lemma noted_popped meta f fr meta' fs : stream_hint_of fr = popped_hint f → frame_control fr = control_hint_of f →
  noted (note_popped meta f) meta' fs → noted meta meta' (fr :: fs).
Proof.
  intros H1 H2 [N1 N2 N3].
  assert (pm_control_hints (note_popped meta f) = pm_control_hints meta ++ omap frame_control [fr]) as Hc.
  { cbn. rewrite H2. by destruct f; cbn; rewrite ?app_nil_r. }
  assert (hints_wf (pm_stream_hints meta) → hints_wf (pm_stream_hints (note_popped meta f))
    ∧ stream_hints_iter (pm_stream_hints (note_popped meta f)) = stream_hints_iter (pm_stream_hints meta) ++ omap stream_hint_of [fr]) as Hs.
  { intros Hw. cbn. rewrite H1. destruct f; cbn; rewrite ?app_nil_r; try done. by apply hints_push. }
  split.
  - rewrite N1. by destruct f.
  - intros Hw. destruct (Hs Hw) as [Hw1 E1]. destruct (N2 Hw1) as [Hw2 E2]. split; [done|]. rewrite E2, E1, <- app_assoc. do 2 f_equal.
    by rewrite <- omap_app.
  - rewrite N3, Hc, <- app_assoc. f_equal. by rewrite <- omap_app.
Qed.

Lemma put_streams_loop_writes n : ∀ s cap out meta, inv s → ONERTT_PAYLOAD_CAP - zlen out ≤ Z.of_nat n →
  ∃ s' out' meta' fs, put_streams_loop n s cap (out, meta) = Some (s', (out', meta')) ∧ inv s'
  ∧ wfor frame_encode fs out = Some out' ∧ Forall (λ f, is_stream_layer f = true) fs
  ∧ zlen out' ≤ Z.max (zlen out) (Z.min ONERTT_PAYLOAD_CAP cap) ∧ (fs = [] ∨ zlen out < zlen out') ∧ noted meta meta' fs.
Proof.
  induction n as [|n IH]; intros s cap out meta Hi Hn; cbn [put_streams_loop];
    set (rem := sat_sub (Z.min ONERTT_PAYLOAD_CAP cap) (zlen out)); destruct (Z.ltb_spec rem 4) as [Hlt|Hge].
  1,3: exists s, out, meta, []; split_and!; try done; [lia|by left|apply noted_nil].
  { unfold rem, sat_sub in Hge. lia. }
  assert (0 ≤ rem) as Hrem by lia.
  destruct (pop_frame_emits s rem out Hi Hrem) as (s1 & enc & fr & Hpop & Hle & Hem). rewrite Hpop. cbn [mbind option_bind].
  pose proof (pop_frame_into_inv _ _ _ _ _ _ Hi Hrem Hpop) as Hi1.
  destruct fr as [f|]; [|subst enc; rewrite app_nil_r; exists s1, out, meta, []; split_and!; try done; [lia|by left|apply noted_nil]].
  destruct (emits_frame f enc Hem) as (fr & He & Hl & H1 & H2 & Hz).
  destruct (IH s1 cap (out ++ enc) (note_popped meta f) Hi1) as (s' & out' & meta' & fs & -> & Hi' & Hw & Hf & Hb & Hp & Hnt).
  { rewrite zlen_app. lia. }
  exists s', out', meta', (fr :: fs). rewrite zlen_app in Hb, Hp. unfold rem, sat_sub in Hle. split_and!; try done.
  - cbn [wfor]. unfold wseq. rewrite (frame_appends fr out), He. exact Hw.
  - by constructor.
  - lia.
  - right. destruct Hp as [-> | Hp]; [|lia]. cbn in Hw. injection Hw as <-. rewrite zlen_app. lia.
  - by eapply noted_popped.
Qed.

Lemma put_streams_writes level s cap d : inv s →
  ∃ s' d', put_streams s cap d = Some (s', d') ∧ inv s' ∧ writes level (λ f, is_stream_layer f = true) cap d d'.
Proof.
  intros Hi. destruct d as [out meta]. unfold put_streams. cbn [fst].
  destruct (put_streams_loop_writes (Z.to_nat ONERTT_PAYLOAD_CAP) s cap out meta Hi) as (s' & out' & meta' & fs & -> & Hi' & Hw & Hf & Hb & Hp & Hnt).
  { pose proof (zlen_nonneg out). unfold ONERTT_PAYLOAD_CAP. lia. }
  cbn [mbind option_bind]. eexists _, _. split; [done|]. split; [done|]. exists fs. split; [|split; [done|]].
  2: { unfold fits. cbn. lia. }
  destruct Hnt as [N1 N2 N3]. injection N1 as E1 E2 E3 E4 E5.
  assert (existsb frame_eliciting fs = (zlen out <? zlen out')) as He.
  { destruct fs as [|f fs]; [cbn in Hw; injection Hw as <-; symmetry; apply Z.ltb_irrefl|]. destruct Hp as [|Hp]; [done|].
    apply Forall_cons in Hf as [Hf _]. cbn. rewrite (proj2 (Z.ltb_lt _ _) Hp). by destruct f. }
  assert (existsb is_ack fs = false ∧ existsb is_done fs = false ∧ omap (crypto_hint_of level) fs = []) as (F1 & F2 & F3).
  { clear -Hf. induction Hf as [|f fs Hf _ IH]; [done|]. cbn. by destruct f. }
  split; cbn [fst snd]; rewrite ?F1, ?F2, ?F3, ?He, ?app_nil_r, ?orb_false_r; try done;
    destruct (_ <? _); rewrite ?orb_true_r, ?orb_false_r; done.
Qed.

(** ** DATAGRAM frames *)

Lemma zlen_datagram data out out' : frame_encode (Frame.Datagram data) out = Some out' → zlen out' = zlen out + datagram_frame_len data.
Proof.
  cbn [frame_encode]. unfold wseq, put_u8, put_varint, extend_from_slice. cbn [mbind option_bind]. intros [= <-].
  rewrite zlen_app, zlen_varint_into, zlen_app. change (zlen [_]) with 1. unfold datagram_frame_len. lia.
Qed.

Lemma put_datagrams_writes level n : ∀ q cap d, (length (outbound_dgs q) ≤ n)%nat →
  ∃ q' d', put_datagrams n q cap d = Some (q', d') ∧ writes level (λ f, ∃ x, f = Frame.Datagram x) cap d d'.
Proof.
  induction n as [|n IH]; intros q cap [out meta] Hn; cbn [put_datagrams]; destruct (is_nil (outbound_dgs q)) eqn:En.
  1,3: eexists _, _; split; [done|apply writes_refl].
  { destruct (outbound_dgs q); [done|cbn in Hn; lia]. }
  set (rem := sat_sub (Z.min ONERTT_PAYLOAD_CAP_DG cap) (zlen out)). destruct (Z.ltb_spec rem 2); [eexists _, _; split; [done|apply writes_refl]|].
  unfold pop_outbound. destruct (outbound_dgs q) as [|x l] eqn:Eq; [done|].
  destruct (Z.ltb_spec rem (datagram_frame_len x)) as [|Hle]; [eexists _, _; split; [done|apply writes_refl]|].
  destruct (frame_encode (Frame.Datagram x) out) as [out'|] eqn:He; [|done]. cbn [mbind option_bind].
  destruct (IH (q <| outbound_dgs := l |>) cap (out', elicits meta)) as (q' & d' & -> & H1); [cbn in *; lia|].
  eexists _, _. split; [done|]. eapply writes_trans; [|exact H1].
  eapply (writes_one level _ cap out meta (Frame.Datagram x)); try done; [by eexists| |by left].
  rewrite (zlen_datagram _ _ _ He). unfold rem, sat_sub in *. lia.
Qed.

(** ** PING *)

Lemma put_ping_writes level cap d : zlen d.1 < cap →
  ∃ d', put_ping d = Some d' ∧ writes level (λ f, f = Frame.Ping) cap d d' ∧ pm_ack_eliciting d'.2 = true.
Proof.
  intros Hc. destruct d as [out meta]. unfold put_ping. cbn. eexists. split; [done|]. split; [|done].
  eapply (writes_one level _ cap out meta Frame.Ping); try done; [|by left]. rewrite zlen_app. change (zlen [1]) with 1. cbn in Hc. lia.
Qed.

Section send.
Context {E K : Type} (fresh : Z → ConnectionId) (token_of : ConnectionId → bytes).
Context (fresh_len : ∀ n, zlen (cid_as_slice (fresh n)) = CID_LEN) (token_len : ∀ c, zlen (token_of c) = 16).
Implicit Types self : Sender E K.

(** What the frames are drawn from is in order. *)
Record payload_ok self : Prop := {
  po_acks : ∀ sp, acks_ok (pn (ep (conn self)) sp);
  po_path : path_ok (path (conn self));
  po_streams : ∀ s, streams (conn self) = Some s → inv s;
  po_early : outbound_pending (bufs (ep (conn self)) Level.EarlyData) = false }.

(** The 1-RTT frames outside the stream layer. *)
Definition is_housekeeping (f : Frame.frame) : bool :=
  match f with
  | Frame.HandshakeDone | Frame.PathResponse _ | Frame.PathChallenge _ | Frame.RetireConnectionId _ | Frame.NewConnectionId _ _ _ _ => true
  | _ => false
  end.

Lemma issue_peer k limit out cap k' out' b : issue_new_local_cids fresh token_of k limit out cap = Some (k', out', b) → cc_peer k' = cc_peer k.
Proof.
  unfold issue_new_local_cids. cbv zeta. destruct (cc_local k); [|by intros [= <- _ _]]. destruct (_ =? 0); [by intros [= <- _ _]|].
  destruct (issue_loop _ _ _ _ _ _ _) as [[[p o] d]|]; [|done]. cbn. by intros [= <- _ _].
Qed.

(** The frames of a housekeeping step are of that kind; under a restricted scope only path frames. *)
Definition housekeeping_frame (full : bool) (f : Frame.frame) : Prop :=
  is_housekeeping f = true ∧ (full = true ∨ is_path_frame f = true).

Lemma put_retired_writes level k full cap d : ∃ k' d', put_retired_ids k full cap d = Some (k', d')
  ∧ cc_peer k' = cc_peer k ∧ writes level (housekeeping_frame full) cap d d'.
Proof.
  unfold put_retired_ids. destruct (cc_remote k) as [pool|]; [|eexists _, _; split; [done|]; split; [done|apply writes_refl]].
  destruct full; [|eexists _, _; split; [done|]; split; [done|apply writes_refl]].
  destruct (put_retires_writes level _ pool cap d (le_n _)) as (pool' & d4 & -> & W). cbn [mbind option_bind].
  eexists _, _. split; [done|]. split; [done|]. eapply writes_mono; [|exact W]. intros f [x ->]. by split; [|left].
Qed.

Lemma put_new_ids_writes level k limit full b cap d : ∃ k' d', put_new_ids fresh token_of k limit (full && b) cap d = Some (k', d')
  ∧ cc_peer k' = cc_peer k ∧ writes level (housekeeping_frame full) cap d d'.
Proof.
  unfold put_new_ids. destruct (full && b) eqn:Hf; [|eexists _, _; split; [done|]; split; [done|apply writes_refl]].
  apply andb_true_iff in Hf as [-> _]. destruct d as [out meta]. cbn [fst snd]. cbv zeta.
  destruct (issue_writes fresh token_of fresh_len token_len level k limit out meta cap) as (k' & out' & b' & Hi & W).
  rewrite Hi. cbn [mbind option_bind]. apply issue_peer in Hi. eexists _, _. split; [done|]. split; [done|].
  eapply writes_mono; [|exact W]. intros f [x ->]. by split; [|left].
Qed.

Lemma put_housekeeping_writes level self full cap d : path_ok (path (conn self)) →
  ∃ hd p k d', put_housekeeping fresh token_of self full cap d
      = Some (self <| conn := (conn self) <| handshake_done_pending := hd |> <| path := p |> <| cids := k |> |>, d')
  ∧ path_ok p ∧ cc_peer k = cc_peer (cids (conn self)) ∧ writes level (housekeeping_frame full) cap d d'.
Proof.
  intros Hp. unfold put_housekeeping. cbv zeta.
  destruct (put_done_writes level (handshake_done_pending (conn self)) full cap d) as (hd & d1 & -> & W1). cbn [mbind option_bind].
  destruct (put_responses_writes level _ (path (conn self)) (peer_addr (conn self)) cap d1 (le_n _) Hp) as (p2 & d2 & -> & Hp2 & _ & W2). cbn [mbind option_bind].
  destruct (put_challenges_writes level _ p2 cap d2 (le_n _) Hp2) as (p3 & d3 & -> & Hp3 & _ & _ & W3). cbn [mbind option_bind].
  destruct (put_retired_writes level (cids (conn self)) full cap d3) as (k4 & d4 & -> & Hk4 & W4). cbn [mbind option_bind].
  rewrite <- andb_assoc. destruct (put_new_ids_writes level k4 (peer_cid_limit self) full
    (handshake_complete (conn self) && negb (cc_new_cids_issued k4)) cap d4) as (k5 & d5 & -> & Hk5 & W5).
  cbn [mbind option_bind]. eexists hd, p3, k5, d5. split; [done|]. split; [done|]. split; [by rewrite Hk5, Hk4|].
  eapply writes_trans; [eapply writes_mono; [|exact W1]|]. { intros f [-> ->]. by split; [|left]. }
  eapply writes_trans; [eapply writes_mono; [|exact W2]|]. { intros f [x ->]. by split; [|right]. }
  eapply writes_trans; [eapply writes_mono; [|exact W3]|]. { intros f [x ->]. by split; [|right]. }
  by eapply writes_trans.
Qed.

Lemma put_application_writes level self full cap d : (∀ s, streams (conn self) = Some s → inv s) →
  ∃ s q d', put_application self full cap d = Some (self <| conn := (conn self) <| streams := s |> <| datagram_queues := q |> |>, d')
  ∧ (∀ x, s = Some x → inv x)
  ∧ writes level (λ f, full = true ∧ (is_stream_layer f = true ∨ ∃ x, f = Frame.Datagram x)) cap d d'.
Proof.
  intros Hs. unfold put_application. destruct full.
  2: { exists (streams (conn self)), (datagram_queues (conn self)), d. split; [by destruct self as [[]]|]. split; [done|apply writes_refl]. }
  cbv zeta.
  assert (∃ s d1, (match streams (conn self) with Some s => '(s, d) ← put_streams s cap d; Some (Some s, d) | None => Some (None, d) end) = Some (s, d1)
    ∧ (∀ x, s = Some x → inv x) ∧ writes level (λ f, is_stream_layer f = true) cap d d1) as (s & d1 & -> & Hs1 & W1).
  { destruct (streams (conn self)) as [s|]; [|eexists _, _; split; [done|]; split; [done|apply writes_refl]].
    destruct (put_streams_writes level s cap d (Hs s eq_refl)) as (s' & d' & -> & Hi & W). cbn [mbind option_bind].
    eexists _, _. split; [done|]. split; [by intros x [= <-]|done]. }
  cbn [mbind option_bind].
  destruct (put_datagrams_writes level _ (datagram_queues (conn self)) cap d1 (le_n _)) as (q & d2 & -> & W2). cbn [mbind option_bind].
  eexists s, q, d2. split; [done|]. split; [done|]. eapply writes_trans; eapply writes_mono; [|exact W1| |exact W2]; cbn.
  - intros f Hf. by split; [|left].
  - intros f Hf. by split; [|right].
Qed.

Lemma put_probe_writes self level full cap d : ∃ d', put_probe_ping self level full cap d = Some d'
  ∧ writes level (λ f, f = Frame.Ping ∧ full = true) cap d d'.
Proof.
  unfold put_probe_ping. destruct full; [|rewrite andb_false_r; cbn [andb]; eexists; split; [done|apply writes_refl]].
  destruct (Z.ltb_spec (zlen d.1) cap) as [Hl|]; [|rewrite andb_false_r; cbn [andb]; eexists; split; [done|apply writes_refl]].
  destruct (_ && _); [|eexists; split; [done|apply writes_refl]].
  destruct (put_ping_writes level cap d Hl) as (d1 & -> & W & _). eexists. split; [done|]. by eapply writes_mono; [|exact W].
Qed.

Lemma put_pings_writes self level full cap d : ∃ b d', put_pings self level full cap d = Some (self <| ping_pending := b |>, d')
  ∧ writes level (λ f, f = Frame.Ping ∧ full = true) cap d d'.
Proof.
  assert (self = self <| ping_pending := ping_pending self |>) as Hself by (by destruct self).
  unfold put_pings. destruct (put_probe_writes self level full cap d) as (d1 & -> & W1). cbn [mbind option_bind].
  destruct full; [|rewrite andb_false_r; cbn [andb]; exists (ping_pending self), d1; rewrite <- Hself; done].
  destruct (_ && _); [|exists (ping_pending self), d1; rewrite <- Hself; done].
  destruct (pm_ack_eliciting d1.2); [by eexists _, _|].
  destruct (Z.ltb_spec (zlen d1.1) cap) as [Hl|]; [|exists (ping_pending self), d1; rewrite <- Hself; done].
  destruct (put_ping_writes level cap d1 Hl) as (d2 & -> & W & _). cbn [mbind option_bind]. eexists _, _. split; [done|].
  eapply writes_trans; [exact W1|]. by eapply writes_mono; [|exact W].
Qed.

(** * The payload *)

(** [self'] differs from [self] only in what is drawn from when a payload is assembled,
    and sends under the same peer connection id. *)
Definition redrawn self self' : Sender E K :=
  let c := conn self in
  self' <| ping_pending := ping_pending self |>
        <| conn := (conn self') <| ep := (ep (conn self')) <| bufs := bufs (ep c) |> |>
             <| handshake_done_pending := handshake_done_pending c |> <| path := path c |> <| cids := cids c |>
             <| streams := streams c |> <| datagram_queues := datagram_queues c |> |>.

Definition drawn_from self self' : Prop := redrawn self self' = self ∧ cc_peer (cids (conn self')) = cc_peer (cids (conn self)).

(** What a packet may carry at a level, under a scope. *)
Definition permitted (level : Level) (scope : PayloadScope) (f : Frame.frame) : Prop :=
  frame_allowed_at_level f level = true
  ∧ match scope with
    | Full => True
    | ProbingOnly => is_probing f = true
    | NotCongestionControlled | NoApplicationData => is_ack f = true ∨ is_path_frame f = true
    end.

(** The room for a payload: [cap], unless a CRYPTO frame's header exceeds it. *)
Definition payload_room (cap : Z) (fs : list Frame.frame) (len : Z) : Prop :=
  len ≤ cap ∨ ∃ offset data, Frame.Crypto offset data ∈ fs ∧ len ≤ Z.max cap (Z.min CRYPTO_CHUNK_CAP cap + crypto_header offset (zlen data)).

Lemma permitted_full level scope f : scope = Full → frame_allowed_at_level f level = true → permitted level scope f.
Proof. intros -> Hf. by split. Qed.

Lemma carve_empty buf room : outbound_pending buf = false → carve buf room = (buf, None).
Proof. unfold outbound_pending, carve. destruct (rtx buf), (outbound buf); done. Qed.

Lemma crypto_step self level scope cap d1 : payload_ok self →
  ∃ buf d2 fs, put_crypto (bufs (ep (conn self)) level) level (bool_decide (scope = Full)) cap d1 = Some (buf, d2)
  ∧ drafted level d1 d2 fs ∧ Forall (permitted level scope) fs ∧ (level = Level.EarlyData → outbound_pending buf = false)
  ∧ (zlen d2.1 = zlen d1.1 ∨ payload_room cap fs (zlen d2.1)).
Proof.
  intros Hok.
  destruct (put_crypto_writes (bufs (ep (conn self)) level) level (bool_decide (scope = Full)) cap d1) as (buf & d2 & -> & H).
  exists buf, d2. destruct H as [[= -> ->]|[[-> ->]|(Hf & offset & data & Hc & Hd & Hl)]].
  - exists []. split; [done|]. split; [apply drafted_nil|]. split; [done|]. split; [intros ->; apply Hok|by left].
  - exists []. split; [done|]. split; [apply drafted_nil|]. split; [done|]. split; [|by left].
    intros ->. rewrite carve_empty by apply Hok. apply Hok.
  - assert (level ≠ Level.EarlyData) as Hne. { intros ->. by rewrite carve_empty in Hc by apply Hok. }
    exists [Frame.Crypto offset data]. split; [done|]. split; [done|]. split; [|split; [done|]].
    + constructor; [|done]. apply permitted_full; [by apply bool_decide_eq_true in Hf|]. by destruct level.
    + right. right. exists offset, data. split; [by apply list_elem_of_singleton|lia].
Qed.

(** The frames of the application packet number space. *)
Definition put_app_frames self (level : Level) (full : bool) (cap : Z) (d : Draft) : option (Sender E K * Draft) :=
  '(self, d) ← (if bool_decide (level = Level.OneRtt) then put_housekeeping fresh token_of self full cap d else Some (self, d));
  '(self, d) ← (if bool_decide (level = Level.OneRtt) || bool_decide (level = Level.EarlyData)
                then put_application self full cap d else Some (self, d));
  put_pings self level full cap d.

(** Equality of senders that differ in named fields only. *)
Ltac same_sender self := let c := fresh in let e := fresh in
  destruct self as [c ?]; destruct c as [? ? ? e]; destruct e; reflexivity.

Lemma drawn_refl self : drawn_from self self.
Proof. split; [|done]. same_sender self. Qed.

Lemma drawn_trans s1 s2 s3 : drawn_from s1 s2 → drawn_from s2 s3 → drawn_from s1 s3.
Proof. intros [H1 H2] [H3 H4]. split; [|congruence]. rewrite <- H1 at 2. rewrite <- H3. done. Qed.

Lemma app_frames_writes self level scope cap d : payload_ok self →
  ∃ self' d', put_app_frames self level (bool_decide (scope = Full)) cap d = Some (self', d')
  ∧ drawn_from self self' ∧ payload_ok self' ∧ writes level (permitted level scope) cap d d'.
Proof.
  intros Hok. unfold put_app_frames. set (full := bool_decide (scope = Full)).
  assert (full = true → scope = Full) as Hfull by (by intros H%bool_decide_eq_true).
  assert (∃ s1 d1, (if bool_decide (level = Level.OneRtt) then put_housekeeping fresh token_of self full cap d else Some (self, d)) = Some (s1, d1)
    ∧ drawn_from self s1 ∧ payload_ok s1 ∧ writes level (permitted level scope) cap d d1) as (s1 & d1 & -> & D1 & Hok1 & W1).
  { destruct (bool_decide (level = Level.OneRtt)) eqn:Hl; [|eexists _, _; split; [done|]; split; [apply drawn_refl|]; split; [done|apply writes_refl]].
    apply bool_decide_eq_true in Hl as ->. destruct (put_housekeeping_writes Level.OneRtt self full cap d (po_path _ Hok)) as (hd & p & k & d' & -> & Hp & Hk & W).
    eexists _, _. split; [done|]. split; [split; [same_sender self|done]|]. split; [destruct Hok; by split|].
    eapply writes_mono; [|exact W]. intros f [H1 H2]. split; [by destruct f|]. destruct H2 as [H2|H2]; [by rewrite (Hfull H2)|].
    destruct scope; [done| | |]; try (by right). by destruct f. }
  cbn [mbind option_bind].
  assert (∃ s2 d2, (if bool_decide (level = Level.OneRtt) || bool_decide (level = Level.EarlyData)
                then put_application s1 full cap d1 else Some (s1, d1)) = Some (s2, d2)
    ∧ drawn_from s1 s2 ∧ payload_ok s2 ∧ writes level (permitted level scope) cap d1 d2) as (s2 & d2 & -> & D2 & Hok2 & W2).
  { destruct (bool_decide (level = Level.OneRtt) || bool_decide (level = Level.EarlyData)) eqn:Hl;
      [|eexists _, _; split; [done|]; split; [apply drawn_refl|]; split; [done|apply writes_refl]].
    destruct (put_application_writes level s1 full cap d1 (po_streams _ Hok1)) as (s & q & d' & -> & Hs & W).
    eexists _, _. split; [done|]. split; [split; [same_sender s1|done]|]. split; [destruct Hok1; by split|].
    eapply writes_mono; [|exact W]. intros f [H1 H2]. apply permitted_full; [by apply Hfull|].
    apply orb_true_iff in Hl as [Hl%bool_decide_eq_true | Hl%bool_decide_eq_true]; subst level; destruct H2 as [H2|[x ->]]; try done; by destruct f. }
  cbn [mbind option_bind].
  destruct (put_pings_writes s2 level full cap d2) as (b & d3 & -> & W3). eexists _, _. split; [done|].
  split; [do 2 (eapply drawn_trans; [eassumption|]); split; [same_sender s2|done]|]. split; [destruct Hok2; by split|].
  do 2 (eapply writes_trans; [eassumption|]). eapply writes_mono; [|exact W3]. intros f [-> H2]. apply permitted_full; [by apply Hfull|by destruct level].
Qed.

Lemma payload_room_le cap fs gs l l' : payload_room cap fs l → l' ≤ Z.max l cap → payload_room cap (fs ++ gs) l'.
Proof.
  intros [H|(offset & data & H1 & H2)] Hl; [left; lia|]. right. exists offset, data. split; [apply elem_of_app; by left|lia].
Qed.

Lemma assemble_spec self level scope cap now : payload_ok self → 0 ≤ cap →
  ∃ self' d fs, assemble_payload fresh token_of self level scope cap now = Some (self', if is_nil d.1 then None else Some d)
  ∧ drawn_from self self' ∧ payload_ok self' ∧ drafted level ([], packet_meta_default) d fs
  ∧ Forall (permitted level scope) fs ∧ payload_room cap fs (zlen d.1).
Proof.
  intros Hok Hcap. unfold assemble_payload. cbv zeta.
  destruct (put_ack_writes (pn (ep (conn self)) (pn_space_of_level level)) level scope (our_ack_delay_exponent (params (conn self))) cap now
    ([], packet_meta_default) (po_acks _ Hok _)) as (d1 & -> & fs1 & D1 & P1 & F1). cbn [mbind option_bind].
  destruct (crypto_step self level scope cap d1 Hok) as (buf & d2 & fs2 & -> & D2 & P2 & He & R2). cbn [mbind option_bind].
  set (self1 := self <| conn := _ |>).
  assert (drawn_from self self1) as Dr1 by (split; [same_sender self|done]).
  assert (payload_ok self1) as Hok1.
  { destruct Hok as [A1 A2 A3 A4]. split; try done. cbn. unfold upd. destruct (decide (Level.EarlyData = level)) as [<-|]; [by apply He|done]. }
  clearbody self1.
  destruct (app_frames_writes self1 level scope cap d2 Hok1) as (self' & d' & Hput & Dr2 & Hok' & fs3 & D3 & P3 & F3).
  revert Hput. unfold put_app_frames.
  destruct (if bool_decide (level = Level.OneRtt) then _ else _) as [[s1 e1]|]; [|done]. cbn [mbind option_bind].
  destruct (if bool_decide (level = Level.OneRtt) || _ then _ else _) as [[s2 e2]|]; [|done]. cbn [mbind option_bind].
  intros ->. cbn [mbind option_bind].
  exists self', d', ((fs1 ++ fs2) ++ fs3). split; [done|]. split; [by eapply drawn_trans|]. split; [done|].
  split; [do 2 (eapply drafted_app; [|eassumption]); done|]. split.
  - rewrite !Forall_app. split_and!; try done. eapply Forall_impl; [exact P1|]. intros f (H1 & H2 & H3).
    destruct f; try done. split; [by destruct level|]. destruct scope; try done; by left.
  - unfold fits in F1, F3. cbn in F1. change (zlen (A:=Z) []) with 0 in F1.
    eapply payload_room_le; [|exact F3]. destruct R2 as [R2|[R2|(o & x & H1 & H2)]].
    + left. lia.
    + by left.
    + right. exists o, x. split; [apply elem_of_app; by right|done].
Qed.

(** C4: the payload of a packet is a run of whole frames, each allowed at the packet's
    level and by the scope it was assembled under (path frames only while a client
    validates a new path, acknowledgements and path frames only while the congestion
    window is full or the peer is unauthenticated); the record handed to loss recovery
    names exactly the CRYPTO and STREAM ranges, the control frames, the HANDSHAKE_DONE
    and the acknowledgement that it carries, and says whether it elicits one; and it
    fits the room, but for the header of a CRYPTO frame. *)
Theorem payload_frames self level scope cap now : payload_ok self → 0 ≤ cap →
  ∃ self' built, assemble_payload fresh token_of self level scope cap now = Some (self', built) ∧ payload_ok self'
  ∧ ∀ payload meta, built = Some (payload, meta) → payload ≠ []
    ∧ ∃ fs, wfor frame_encode fs [] = Some payload ∧ Forall (permitted level scope) fs
      ∧ pm_ack_eliciting meta = existsb frame_eliciting fs ∧ pm_in_flight meta = existsb frame_eliciting fs
      ∧ carried_ack meta = existsb is_ack fs ∧ pm_handshake_done meta = existsb is_done fs
      ∧ crypto_hints meta = omap (crypto_hint_of level) fs
      ∧ stream_hints_iter (pm_stream_hints meta) = omap stream_hint_of fs
      ∧ pm_control_hints meta = omap frame_control fs ∧ payload_room cap fs (zlen payload).
Proof.
  intros Hok Hcap. destruct (assemble_spec self level scope cap now Hok Hcap) as (self' & [out m] & fs & -> & _ & Hok' & D & P & R).
  eexists _, _. split; [done|]. split; [done|]. intros payload meta Hb. cbn [fst] in Hb, R. destruct out as [|b l]; [done|].
  cbn [is_nil] in Hb. injection Hb as <- <-. split; [done|]. exists fs. destruct D as [D1 D2 D3 D4 D5 D6 D7 D8].
  destruct D7 as [_ D7]; [by vm_compute|]. by split_and!.
Qed.
End send.

(** * A sender for examples *)

Module Fixture.
(** An AEAD and a mask of the right lengths. *)
Definition seal (_ : unit) (_ : Z) (_ pt : bytes) : bytes * bytes := (pt, replicate 16 0).
Definition mask (_ : unit) (_ : bytes) : option bytes := Some [0; 0; 0; 0; 0].
Definition same_key (k : unit) : unit := k.
Definition cid8 : ConnectionId := mkConnectionId [1; 2; 3; 4; 5; 6; 7; 8] 8.
Definition draw (_ : Z) : ConnectionId := cid8.
Definition reset_token (_ : ConnectionId) : bytes := replicate 16 0.

Definition limits : TransportParameters := tp_default <| initial_max_data := Some 100000 |>
  <| initial_max_stream_data_bidi_remote := Some 50000 |> <| initial_max_stream_data_bidi_local := Some 50000 |>
  <| initial_max_streams_bidi := Some 10 |>.

(** One stream with [n] bytes to send. *)
Definition table (n : nat) : Streams :=
  let s := (open_bidi (streams_new Client limits limits)).1 in (streams_write s 0 (replicate n 7)).1.

Lemma table_inv n : inv (table n).
Proof. apply streams_write_inv, open_bidi_inv, streams_new_inv; split; apply (bool_decide_unpack _); vm_compute; exact I. Qed.

(** Keys at [levels]; packet 7 of the application space is to be acknowledged. *)
Definition endpoint (levels : Level → bool) : Endpoint :=
  let space := note_received pn_space_default Level.OneRtt 7 true NotEct 0 in
  set_pn (endpoint_new <| tx_keys := levels |>) Application space.

Definition sender (role : Role) (p : Path) (e : Endpoint) (s : option Streams) (q : DatagramQueues) : Sender unit unit :=
  mkSender (mkConn role (mkConnParams None None None false None None) () e Testing (mkEcnCounts 0 0 0) s q
              (mkConnCids cid8 None None None [] false) p pcs_new None None
              false [] false false false false false false None None None 0 1 None false None 0 NotEct false 0)
    cid8 [] V1 V1 (λ _, ()) (λ _, None) true true (λ _, 0) (λ _, 2 ^ 23) false false false false false None None false None.

(** An established client. *)
Definition established : Sender unit unit :=
  sender Client path_validated (endpoint (λ l, bool_decide (l = Level.OneRtt))) (Some (table 3000)) (datagrams_new None None).

Lemma endpoint_acks levels sp : acks_ok (pn (endpoint levels) sp).
Proof.
  assert (pending_ack (pn (endpoint levels) sp) = [] ∨ pending_ack (pn (endpoint levels) sp) = [(7, 7)]) as H
    by (destruct sp; [left|left|right]; reflexivity).
  unfold acks_ok. destruct H as [-> | ->].
  - split; [split|]; [constructor|constructor|apply (bool_decide_unpack _); vm_compute; exact I|constructor].
  - split; [split|]; try (apply (bool_decide_unpack _); vm_compute; exact I). repeat constructor.
Qed.

Lemma established_ok : payload_ok established.
Proof.
  split; [apply endpoint_acks|done| |done]. assert (streams (conn established) = Some (table 3000)) as -> by reflexivity.
  intros s Hs%(inj Some). rewrite <- Hs. apply table_inv.
Qed.

(** The length of a payload, and what its record says of acknowledgements. *)
Definition summary {A} (r : option (A * option Draft)) : option (Z * bool * bool) :=
  match r with Some (_, Some (payload, meta)) => Some (zlen payload, pm_ack_eliciting meta, carried_ack meta) | _ => None end.
End Fixture.

Lemma payload_frames_witness : ∃ self' payload meta,
  assemble_payload Fixture.draw Fixture.reset_token Fixture.established Level.OneRtt Full 1000 0 = Some (self', Some (payload, meta))
  ∧ zlen payload = 1000 ∧ pm_ack_eliciting meta = true ∧ carried_ack meta = true
  ∧ ∃ fs, wfor frame_encode fs [] = Some payload ∧ Forall (permitted Level.OneRtt Full) fs.
Proof.
  pose proof (payload_frames Fixture.draw Fixture.reset_token (λ _, eq_refl) (λ _, eq_refl) Fixture.established Level.OneRtt Full 1000 0
    Fixture.established_ok ltac:(lia)) as (self' & built & Ha & _ & Hb).
  assert (Fixture.summary (assemble_payload Fixture.draw Fixture.reset_token Fixture.established Level.OneRtt Full 1000 0)
    = Some (1000, true, true)) as Hr by (vm_compute; reflexivity).
  rewrite Ha in Hr. destruct built as [[payload meta]|]; [|discriminate Hr]. cbn [Fixture.summary] in Hr. injection Hr as H1 H2 H3.
  exists self', payload, meta. destruct (Hb _ _ eq_refl) as (_ & fs & H4 & H5 & _).
  split; [exact Ha|]. split; [exact H1|]. split; [exact H2|]. split; [exact H3|]. exists fs. split; [exact H4|exact H5].
Defined.
