(* ===== verification/SendSpec.v ===== *)
(** What the sending side guarantees: packets are sealed to the length the padding
    arithmetic aims at, every Initial-bearing datagram of a client is at least 1200 bytes
    long, an established connection never outgrows its datagram budget, and what a packet
    carries is allowed at its level and recorded for loss recovery.  Two ways in which a
    datagram does outgrow its limits are exhibited. *)

From S2P Require Import Prelude TlsBase Varint Codec Path Pn Ack BTree CryptoBuf Frame Datagram RecvStream SendStream TransportParams Streams Version Pkt Cid Congestion Loss Endpoint Conn RecoverySpec Send PayloadSpec.

(** * Lengths *)

Lemma zlen_replicate {A} n (x : A) : zlen (replicate n x) = Z.of_nat n.
Proof. unfold zlen. by rewrite length_replicate. Qed.

Lemma zlen_pad_to p n : zlen (pad_to p n) = Z.max (zlen p) n.
Proof. unfold pad_to. rewrite zlen_app, zlen_replicate. pose proof (zlen_nonneg p). lia. Qed.

(** Decides the equations between concrete levels. *)
Ltac levels :=
  repeat (match goal with
          | |- context [bool_decide (?a = ?b)] =>
              first [rewrite (bool_decide_eq_true_2 (a = b)) by reflexivity | rewrite (bool_decide_eq_false_2 (a = b)) by discriminate]
          | |- context [decide (?a = ?b)] =>
              first [rewrite (decide_True (P := a = b)) by reflexivity | rewrite (decide_False (P := a = b)) by discriminate]
          end); cbn [negb andb orb].

(** * Sealing *)

Section send.
Context {E K : Type}.
Context (aead_seal : K → Z → bytes → bytes → bytes * bytes) (hp_mask : K → bytes → option bytes).
Context (derive_keys derive_next : K → K) (fresh : Z → ConnectionId) (token_of : ConnectionId → bytes).
(** An AEAD keeps the length of the plaintext and adds a tag of 16 bytes. *)
Context (aead_len : ∀ k n aad pt, zlen (aead_seal k n aad pt).1 = zlen pt ∧ zlen (aead_seal k n aad pt).2 = 16).
(** A sample of 16 bytes has a mask of 5 bytes. *)
Context (mask_len : ∀ k s, zlen s = 16 → ∃ m, hp_mask k s = Some m ∧ zlen m = 5).
Implicit Types self : Sender E K.

(** The bytes in front of the packet number, when the Length field holds [len]. *)
Definition header_len self (level : Level) (len : Z) : Z :=
  let ids := 1 + 4 + 1 + zlen (peer_cid self) + 1 + zlen (cid_as_slice (local_cid self)) in
  match level with
  | Level.OneRtt => 1 + zlen (peer_cid self)
  | Level.Initial => ids + varint_encoded_len (zlen (initial_token self)) + zlen (initial_token self) + varint_encoded_len len
  | _ => ids + varint_encoded_len len
  end.

Lemma long_header_spec out typ v dcid scid token pn_ n len : 1 ≤ n ≤ 4 →
  ∃ b0 mid, build_long_header_into out typ v dcid scid token pn_ n len
    = (out ++ b0 :: mid ++ be_bytes (Z.to_nat n) pn_, zlen out + 1 + zlen mid)
  ∧ 1 + zlen mid = 1 + 4 + 1 + zlen dcid + 1 + zlen scid
      + (if decide (typ = LongType.Initial) then varint_encoded_len (zlen token) + zlen token else 0) + varint_encoded_len len.
Proof.
  intros Hn. unfold build_long_header_into. cbv zeta. rewrite pn_bytes_be by done. unfold put_cids.
  set (b0 := Z.lor _ _). set (tk := if decide (typ = LongType.Initial) then varint_encode (zlen token) [] ++ token else []).
  exists b0, (be_bytes 4 (wire v) ++ [as_u8 (zlen dcid)] ++ dcid ++ [as_u8 (zlen scid)] ++ scid ++ tk ++ varint_encode len []).
  split.
  - assert (∀ o, (if bool_decide (typ = LongType.Initial) then varint_encode (zlen token) o ++ token else o) = o ++ tk) as Ht.
    { intros o. unfold tk. case_bool_decide; [rewrite decide_True by done; rewrite varint_encode_app, <- app_assoc; done|].
      by rewrite decide_False, app_nil_r by done. }
    rewrite Ht, varint_encode_app. f_equal.
    + rewrite <- !app_assoc. done.
    + rewrite !zlen_app. change (zlen [b0]) with 1. change (zlen [as_u8 (zlen dcid)]) with 1. change (zlen [as_u8 (zlen scid)]) with 1. lia.
  - rewrite !zlen_app, zlen_be_bytes, zlen_varint_encode. change (zlen [as_u8 (zlen dcid)]) with 1. change (zlen [as_u8 (zlen scid)]) with 1.
    unfold tk. destruct (decide _); [rewrite zlen_app, zlen_varint_encode|change (zlen (A:=Z) []) with 0]; lia.
Qed.

Lemma build_header_spec self level pn_ n plen out : 1 ≤ n ≤ 4 →
  ∃ b0 mid, build_header self level pn_ n plen out = (out ++ b0 :: mid ++ be_bytes (Z.to_nat n) pn_, zlen out + 1 + zlen mid)
  ∧ 1 + zlen mid = header_len self level (n + plen + 16).
Proof.
  intros Hn. unfold build_header, header_len. destruct level.
  1,2,3: match goal with |- ∃ _ _, build_long_header_into ?o ?t ?v ?d ?s ?tk ?p ?m ?l = _ ∧ _ =>
    destruct (long_header_spec o t v d s tk p m l Hn) as (b0 & mid & -> & Hl) end;
    exists b0, mid; (split; [done|]); rewrite Hl; destruct (decide _); try discriminate; try congruence; lia.
  unfold build_short_header_into. cbv zeta. rewrite pn_bytes_be by done. set (b0 := if one_rtt_phase self then _ else _).
  exists b0, (peer_cid self). split; [|done]. f_equal.
  - rewrite <- !app_assoc. done.
  - rewrite !zlen_app. change (zlen [b0]) with 1. lia.
Qed.

(** Sealing appends one packet of the expected length. *)
Lemma protect_packet_spec self level pn_ n payload out : 1 ≤ n ≤ 4 → 4 ≤ n + zlen payload →
  ∃ pkt, protect_packet aead_seal hp_mask self level pn_ n payload out = Some (Some (out ++ pkt, zlen pkt))
  ∧ zlen pkt = header_len self level (n + zlen payload + 16) + n + zlen payload + 16.
Proof.
  intros Hn Hp. unfold protect_packet. cbv zeta.
  destruct (build_header_spec self level pn_ n (zlen payload) out Hn) as (b0 & mid & -> & Hl).
  set (hdr := b0 :: mid ++ be_bytes (Z.to_nat n) pn_).
  assert (zlen hdr = 1 + zlen mid + n) as Hh.
  { unfold hdr. change (b0 :: mid ++ be_bytes (Z.to_nat n) pn_) with ([b0] ++ mid ++ be_bytes (Z.to_nat n) pn_).
    rewrite !zlen_app, zlen_be_bytes. change (zlen [b0]) with 1. lia. }
  rewrite <- app_assoc. replace (zlen out + 1 + zlen mid - zlen out) with (1 + zlen mid) by lia.
  rewrite zdrop_app. replace (1 + zlen mid + n) with (zlen hdr) by lia. rewrite zdrop_app, ztake_app, ztake_app.
  destruct (aead_len (tx self level) pn_ hdr payload) as [H1 H2]. destruct (aead_seal _ _ _ _) as [ct tag]. cbn in H1, H2.
  set (pkt := hdr ++ ct ++ tag). assert (zlen pkt = zlen hdr + zlen payload + 16) as Hlen by (unfold pkt; rewrite !zlen_app; lia).
  destruct (Z.ltb_spec (zlen pkt) (1 + zlen mid + 4 + 16)); [lia|].
  destruct (mask_len (tx self level) (ztake 16 (zdrop (1 + zlen mid + 4) pkt))) as (mask & -> & Hm).
  { pose proof (zlen_nonneg mid). rewrite zlen_ztake; [done|]. rewrite zlen_zdrop; lia. }
  destruct mask as [|m0 mask]; [done|].
  assert (pkt = packet_of b0 mid (be_bytes (Z.to_nat n) pn_) (ct ++ tag)) as Hpk.
  { unfold pkt, hdr, packet_of. cbn [app]. by rewrite <- app_assoc. }
  rewrite Hpk. rewrite (apply_packet b0 m0 mid _ _ (m0 :: mask) n); [|done|done|done|rewrite zlen_be_bytes; lia].
  cbn [mbind option_bind]. eexists. split; [reflexivity|]. unfold packet_of, pn_mask.
  match goal with |- zlen (?b :: ?l) = _ => change (b :: l) with ([b] ++ l); change (zlen [b]) with 1 end.
  assert (zlen (m0 :: mask) = 1 + zlen mask) as Hc by (unfold zlen; simpl; lia).
  rewrite !zlen_app. change (zlen [_]) with 1.
  assert (zlen (zip_with Z.lxor (be_bytes (Z.to_nat n) pn_) (ztake n (zdrop 1 (m0 :: mask)))) = n) as Hz.
  { unfold zlen. rewrite length_zip_with. change (Z.of_nat (length (be_bytes (Z.to_nat n) pn_))) with (zlen (be_bytes (Z.to_nat n) pn_)).
    assert (length (be_bytes (Z.to_nat n) pn_) = Z.to_nat n) as -> by (pose proof (zlen_be_bytes (Z.to_nat n) pn_); unfold zlen in *; lia).
    assert (length (ztake n (zdrop 1 (m0 :: mask))) = Z.to_nat n) as ->; [|lia].
    change (zdrop 1 (m0 :: mask)) with mask. pose proof (zlen_ztake n mask). unfold zlen in *. lia. }
  rewrite Hz. lia.
Qed.

(** The packet number's length, and the payload's once padded. *)
Definition next_pn_len self (level : Level) : Z :=
  let space := pn (ep (conn self)) (pn_space_of_level level) in pn_len_of (next_tx space) (largest_acked_tx space).

Definition final_len self (level : Level) (payload : bytes) (pad : option (Z * Z)) : Z :=
  let n := next_pn_len self level in
  Z.max (Z.max (zlen payload) (padded_len self level n (zlen payload) pad)) (sat_sub 4 n).

Definition packet_len self (level : Level) (payload : bytes) (pad : option (Z * Z)) : Z :=
  let n := next_pn_len self level in
  let plen := final_len self level payload pad in
  header_len self level (n + plen + 16) + n + plen + 16.

(** The sender once a packet of [len] bytes is registered. *)
Definition sealed_state self (level : Level) (len : Z) (meta : option PacketMeta) (now : Z) : Sender E K :=
  self <| tx_packets := upd (tx_packets self) level (sat_add 64 (tx_packets self level) 1) |>
       <| conn := (conn self) <| ep := send_packet (ep (conn self)) level len meta now |> |>.

Lemma seal_packet_spec self level payload pad meta out now : tx_keys (ep (conn self)) level = true →
  ∃ pkt, seal_packet aead_seal hp_mask self level payload pad meta out now
    = Some (sealed_state self level (zlen pkt) meta now, out ++ pkt, Some (zlen pkt))
  ∧ zlen pkt = packet_len self level payload pad.
Proof.
  intros Hk. unfold seal_packet. rewrite Hk. cbn [negb].
  destruct (allocate_pn (ep (conn self)) level) as [e p] eqn:Ha. pose proof Ha as Ha'. unfold allocate_pn in Ha'. injection Ha' as He Hp. cbv zeta.
  set (self1 := self <| conn := (conn self) <| ep := e |> |>).
  assert (largest_acked_tx (pn e (pn_space_of_level level)) = largest_acked_tx (pn (ep (conn self)) (pn_space_of_level level))) as Hla.
  { rewrite <- He. cbn. unfold upd. by rewrite decide_True. }
  rewrite Hla. fold (pn_len_of p (largest_acked_tx (pn (ep (conn self)) (pn_space_of_level level)))).
  assert (pn_len_of p (largest_acked_tx (pn (ep (conn self)) (pn_space_of_level level))) = next_pn_len self level) as -> by (by rewrite <- Hp).
  set (n := next_pn_len self level). assert (1 ≤ n ≤ 4) as Hn by (apply pn_len_of_ok).
  set (pl := pad_to _ (sat_sub 4 n)). assert (zlen pl = final_len self level payload pad) as Hpl.
  { unfold pl. rewrite !zlen_pad_to. done. }
  destruct (protect_packet_spec self1 level p n pl out) as (pkt & -> & Hlen); [done| |].
  { rewrite Hpl. unfold final_len. fold n. unfold sat_sub. lia. }
  cbn [mbind option_bind]. exists pkt. split.
  - unfold sealed_state, send_packet. rewrite Ha. done.
  - rewrite Hlen, Hpl. done.
Qed.

(** * Padding *)

(** The header is at least what the padding arithmetic assumes, but for a one-byte Length field. *)
Lemma header_len_ge self level len : header_overhead self level - (if decide (len < 64) then 1 else 0)
  ≤ header_len self level len + (if decide (level = Level.OneRtt) then 1 else 0).
Proof.
  unfold header_overhead, header_len. cbv zeta. pose proof (varint_len_cases len).
  pose proof (varint_len_cases (zlen (initial_token self))). pose proof (zlen_nonneg (initial_token self)).
  destruct level; levels; destruct (decide (len < 64));
    repeat (match goal with |- context [?a <? ?b] => destruct (Z.ltb_spec a b) end); lia.
Qed.

(** A padded packet fills the datagram up to the target. *)
Lemma padding_reaches self level payload target already : target - already ≤ packet_len self level payload (Some (target, already)).
Proof.
  unfold packet_len, final_len. set (n := next_pn_len self level). assert (1 ≤ n ≤ 4) as Hn by (apply pn_len_of_ok). cbv zeta.
  set (m := padded_len self level n (zlen payload) (Some (target, already))).
  assert (m = padded_len self level n (zlen payload) (Some (target, already))) as Hm by done. clearbody m.
  set (plen := Z.max (Z.max (zlen payload) m) (sat_sub 4 n)). pose proof (header_len_ge self level (n + plen + 16)) as Hh.
  pose proof (zlen_nonneg payload). unfold padded_len in Hm. unfold sat_sub in *. set (h := header_overhead self level) in *.
  destruct (decide (level = Level.OneRtt)) as [->|Hl].
  - revert Hm. unfold header_len. levels. subst h. unfold header_overhead. levels. lia.
  - rewrite bool_decide_eq_false_2 in Hm by done. cbn [negb andb] in Hm.
    destruct (Z.ltb_spec (n + 16 + Z.max (zlen payload) (Z.max 0 (Z.max 0 (target - already) - (h + (n + 16))))) 64);
      destruct (decide _); lia.
Qed.

(** * What building a packet leaves alone *)

(** Who talks to whom and over which path, and what the headers are made of. *)
Record same_wire self self' : Prop := {
  sw_ends : (conn_role (conn self'), peer_addr (conn self'), current_rx_addr (conn self'), current_rx_len (conn self'))
          = (conn_role (conn self), peer_addr (conn self), current_rx_addr (conn self), current_rx_len (conn self));
  sw_path : active_path (conn self') = active_path (conn self) ∧ migration (conn self') = migration (conn self);
  sw_peer : cc_peer (cids (conn self')) = cc_peer (cids (conn self));
  sw_local : local_cid self' = local_cid self ∧ retry_token self' = retry_token self }.

#[local] Instance same_wire_pre : PreOrder same_wire.
Proof.
  split; [by intros s|]. intros a b c [H1 [H2 H2'] H3 [H4 H4']] [H5 [H6 H6'] H7 [H8 H8']].
  split; [by rewrite H5|by rewrite H6, H6'|by rewrite H7|by rewrite H8, H8'].
Qed.

(** The write keys, level by level. *)
Definition same_keys self self' : Prop := ∀ l, tx_keys (ep (conn self')) l = tx_keys (ep (conn self)) l.

#[local] Instance same_keys_pre : PreOrder same_keys.
Proof. split; [by intros s l|]. intros a b c H1 H2 l. by rewrite H2, H1. Qed.

Lemma retired_ids_wire k full cap d k' d' : put_retired_ids k full cap d = Some (k', d') → cc_peer k' = cc_peer k.
Proof.
  unfold put_retired_ids. destruct (cc_remote k); [|by intros [= <- _]]. destruct full; [|by intros [= <- _]].
  destruct (put_retires _ _ _ _) as [[pool d1]|]; [|done]. by intros [= <- _].
Qed.

Lemma new_ids_wire k lim owed cap d k' d' : put_new_ids fresh token_of k lim owed cap d = Some (k', d') → cc_peer k' = cc_peer k.
Proof.
  unfold put_new_ids. destruct owed; [|by intros [= <- _]]. cbv zeta.
  destruct (issue_new_local_cids _ _ _ _ _ _) as [[[k1 o] b]|] eqn:Ei; [|done]. cbn. intros [= <- _]. by apply issue_peer in Ei.
Qed.

Lemma housekeeping_wire self full cap d self' d' : put_housekeeping fresh token_of self full cap d = Some (self', d') →
  same_wire self self' ∧ same_keys self self'.
Proof.
  unfold put_housekeeping. cbv zeta. destruct (put_handshake_done _ _ _ _) as [[hd d1]|]; [|done]. cbn [mbind option_bind].
  destruct (put_responses _ _ _ _ _) as [[p2 d2]|]; [|done]. cbn [mbind option_bind].
  destruct (put_challenges _ _ _ _) as [[p3 d3]|]; [|done]. cbn [mbind option_bind].
  destruct (put_retired_ids _ _ _ _) as [[k4 d4]|] eqn:E4; [|done]. cbn [mbind option_bind]. apply retired_ids_wire in E4.
  destruct (put_new_ids _ _ _ _ _ _ _) as [[k5 d5]|] eqn:E5; [|done]. cbn [mbind option_bind]. apply new_ids_wire in E5.
  intros H. apply (f_equal (option_map fst)) in H. cbn [option_map fst] in H. apply (inj Some) in H. subst self'.
  split; [split; try done; cbn; congruence|by intros l].
Qed.

Lemma application_wire self full cap d self' d' : put_application self full cap d = Some (self', d') →
  same_wire self self' ∧ same_keys self self'.
Proof.
  unfold put_application. destruct full; [|by intros [= <- _]]. cbv zeta.
  destruct (match streams (conn self) with Some _ => _ | None => _ end) as [[s d1]|]; [|done]. cbn [mbind option_bind].
  destruct (put_datagrams _ _ _ _) as [[q d2]|]; [|done]. cbn [mbind option_bind].
  intros H. apply (f_equal (option_map fst)) in H. cbn [option_map fst] in H. apply (inj Some) in H. by subst self'.
Qed.

Lemma pings_wire self level full cap d self' d' : put_pings self level full cap d = Some (self', d') →
  same_wire self self' ∧ same_keys self self'.
Proof.
  unfold put_pings. destruct (put_probe_ping _ _ _ _ _) as [d1|]; [|done]. cbn [mbind option_bind].
  destruct (_ && _); [|by intros [= <- _]]. destruct (pm_ack_eliciting _); [by intros [= <- _]|].
  destruct (_ <? _); [|by intros [= <- _]]. destruct (put_ping d1) as [d2|]; [|done]. by intros [= <- _].
Qed.

Lemma assemble_wire self level scope cap now self' built :
  assemble_payload fresh token_of self level scope cap now = Some (self', built) → same_wire self self' ∧ same_keys self self'.
Proof.
  unfold assemble_payload. cbv zeta. destruct (put_ack _ _ _ _ _ _ _) as [d1|]; [|done]. cbn [mbind option_bind].
  destruct (put_crypto _ _ _ _ _) as [[buf d2]|]; [|done]. cbn [mbind option_bind]. set (self1 := self <| conn := _ |>).
  assert (same_wire self self1 ∧ same_keys self self1) as [W1 K1] by (by split; [split|intros l]). clearbody self1.
  destruct (if bool_decide _ then put_housekeeping _ _ _ _ _ _ else _) as [[s2 d3]|] eqn:E2; [|done]. cbn [mbind option_bind].
  assert (same_wire self1 s2 ∧ same_keys self1 s2) as [W2 K2].
  { destruct (bool_decide _); [by eapply housekeeping_wire|by injection E2 as <- _]. }
  destruct (if _ || _ then put_application _ _ _ _ else _) as [[s3 d4]|] eqn:E3; [|done]. cbn [mbind option_bind].
  assert (same_wire s2 s3 ∧ same_keys s2 s3) as [W3 K3].
  { destruct (_ || _); [by eapply application_wire|by injection E3 as <- _]. }
  destruct (put_pings _ _ _ _ _) as [[s4 d5]|] eqn:E4; [|done]. cbn [mbind option_bind]. apply pings_wire in E4 as [W4 K4].
  intros H. apply (f_equal (option_map fst)) in H. cbn [option_map fst] in H. apply (inj Some) in H. subst self'.
  split; (etransitivity; [eassumption|]; etransitivity; [eassumption|]; etransitivity; eassumption).
Qed.

Lemma seal_wire self level payload pad meta out now self' out' built :
  seal_packet aead_seal hp_mask self level payload pad meta out now = Some (self', out', built) →
  same_wire self self' ∧ same_keys self self'.
Proof.
  unfold seal_packet. destruct (negb _); [by intros [= <- _ _]|]. destruct (allocate_pn _ _) as [e p] eqn:Ea. cbv zeta.
  assert (∀ l, tx_keys e l = tx_keys (ep (conn self)) l) as Hk by (by injection Ea as <- _).
  destruct (protect_packet _ _ _ _ _ _ _ _) as [[[o n]|]|]; cbn [mbind option_bind]; [| |done];
    intros H; apply (f_equal (option_map (fst ∘ fst))) in H; cbn [option_map fst compose] in H; apply (inj Some) in H; subst self'.
  - split; [by split|]. intros l. rewrite <- Hk. destruct meta as [m|]; [|done]. cbn. destruct (carried_ack m), (pm_in_flight m); done.
  - split; [by split|]. intros l. apply Hk.
Qed.

Lemma rotate_wire self level : tx_keys (ep (conn self)) level = true →
  same_wire self (rotate_keys derive_keys derive_next self level) ∧ same_keys self (rotate_keys derive_keys derive_next self level).
Proof.
  intros Hk. unfold rotate_keys. cbv zeta. case_bool_decide as Hl; [subst level|done]. cbn [andb]. destruct (_ && _); [|done].
  unfold initiate_key_update. cbv zeta. repeat (match goal with |- context [if ?b then (self, _) else _] => destruct b; [done|] end).
  cbn [fst]. unfold flip_tx_key_phase. destruct (negb (suite_known self)); [done|]. destruct (negb (hp_known self)); [done|]. cbv zeta.
  destruct (tx_by_phase _ _); (split; [by split|]); intros l; [|done]. cbn. unfold upd. by destruct (decide (l = Level.OneRtt)) as [->|].
Qed.

Lemma close_wire self code now : let self' := self <| conn := close_with_transport_error (conn self) code now |> in
  same_wire self self' ∧ same_keys self self'.
Proof.
  cbv zeta. unfold close_with_transport_error. destruct (is_closing_state _); [by split; [split|intros ?]|]. cbv zeta.
  destruct (close_level _); by split; [split|intros ?].
Qed.

Lemma build_wire self level pad room out now self' out' built :
  build_packet_with_pad aead_seal hp_mask derive_keys derive_next fresh token_of self level pad room out now = Some (self', out', built) →
  same_wire self self' ∧ same_keys self self'.
Proof.
  unfold build_packet_with_pad. destruct (negb _); [by intros [= <- _ _]|]. destruct (negb (tx_keys _ _)) eqn:Hk; [by intros [= <- _ _]|].
  apply negb_false_iff in Hk. destruct (_ || _); [by intros [= <- _ _]|]. destruct (rotate_wire self level Hk) as [W1 K1].
  set (s1 := rotate_keys _ _ _ _) in *. clearbody s1. cbv zeta. destruct (_ <=? _).
  { intros H. apply (f_equal (option_map (fst ∘ fst))) in H. cbn [option_map fst compose] in H. apply (inj Some) in H. subst self'.
    destruct (close_wire s1 ERROR_AEAD_LIMIT_REACHED now). split; by etransitivity. }
  set (cap := sat_sub _ _). set (scope := payload_scope _ _ _). clearbody cap scope.
  destruct (assemble_payload _ _ _ _ _ _ _) as [[s2 b]|] eqn:Ea; [|done]. cbn [mbind option_bind]. apply assemble_wire in Ea as [W2 K2].
  destruct b as [[payload meta]|]; [|intros [= <- _ _]; split; by etransitivity].
  set (s3 := if _ && _ then _ else s2). assert (same_wire s2 s3 ∧ same_keys s2 s3) as [W3 K3] by (unfold s3; destruct (_ && _); by split; [split|intros l]).
  clearbody s3. intros [W4 K4]%seal_wire. split; (etransitivity; [eassumption|]; etransitivity; [eassumption|]; etransitivity; eassumption).
Qed.

#[local] Abbreviation build := (build_packet_with_pad aead_seal hp_mask derive_keys derive_next fresh token_of).
#[local] Abbreviation coalesce := (coalesce_packets aead_seal hp_mask derive_keys derive_next fresh token_of).

Lemma zero_rtt_wire self budget dg now self' dg' z :
  build_zero_rtt aead_seal hp_mask derive_keys derive_next fresh token_of self budget dg now = Some (self', dg', z) → same_wire self self'.
Proof.
  unfold build_zero_rtt. destruct (zero_rtt_live self); [|by intros [= <- _ _]]. destruct (coalesce_room _ _ _ _); [|by intros [= <- _ _]].
  destruct (build _ _ _ _ _ _) as [[[s1 d1] b]|] eqn:Eb; [|done]. cbn [mbind option_bind]. intros [= <- _ _]. by apply build_wire in Eb as [W _].
Qed.

Lemma handshake_wire self pad budget dg now self' dg' :
  build_handshake aead_seal hp_mask derive_keys derive_next fresh token_of self pad budget dg now = Some (self', dg') → same_wire self self'.
Proof.
  unfold build_handshake. cbv zeta. destruct (coalesce_room _ _ _ _); [|by intros [= <- _]].
  destruct (build _ _ _ _ _ _) as [[[s1 d1] b]|] eqn:Eb; [|done]. cbn [mbind option_bind]. apply build_wire in Eb as [W _].
  intros H. apply (f_equal (option_map fst)) in H. cbn [option_map fst] in H. apply (inj Some) in H. subst self'.
  destruct (_ && _); [|done]. etransitivity; [exact W|]. by split.
Qed.

Lemma one_rtt_wire self budget dg now self' dg' b :
  build_one_rtt aead_seal hp_mask derive_keys derive_next fresh token_of self budget dg now = Some (self', dg', b) → same_wire self self'.
Proof.
  unfold build_one_rtt. cbv zeta. destruct (coalesce_room _ _ _ _); [|by intros [= <- _ _]].
  destruct (build _ _ _ _ _ _) as [[[s1 d1] b1]|] eqn:Eb; [|done]. cbn [mbind option_bind]. intros [= <- _ _]. by apply build_wire in Eb as [W _].
Qed.

Lemma coalesce_wire self now self' dg b : coalesce self now = Some (self', dg, b) → same_wire self self'.
Proof.
  unfold coalesce_packets. cbv zeta. destruct (build _ _ _ _ _ _) as [[[s1 d1] b1]|] eqn:E1; [|done]. cbn [mbind option_bind].
  destruct (build_zero_rtt _ _ _ _ _ _ _ _ _ _) as [[[s2 d2] z]|] eqn:E2; [|done]. cbn [mbind option_bind].
  destruct (build_handshake _ _ _ _ _ _ _ _ _ _ _) as [[s3 d3]|] eqn:E3; [|done]. cbn [mbind option_bind].
  destruct (build_one_rtt _ _ _ _ _ _ _ _ _ _) as [[[s4 d4] b4]|] eqn:E4; [|done]. cbn [mbind option_bind].
  apply build_wire in E1 as [W1 _]. apply zero_rtt_wire in E2. apply handshake_wire in E3. apply one_rtt_wire in E4.
  assert (same_wire self s4) as W by (do 3 (etransitivity; [eassumption|]); done).
  destruct (_ && _); [|intros [= <- _ _]; exact W]. unfold top_up.
  destruct (seal_packet _ _ _ _ _ _ _ _ _) as [[[s5 d5] b5]|] eqn:E5; [|done]. apply seal_wire in E5 as [W5 _].
  cbn [mbind option_bind]. intros [= <- _ _]. by etransitivity.
Qed.

(** * Building a packet *)

(** Random ids have eight bytes, reset tokens sixteen. *)
Context (fresh_len : ∀ n, zlen (cid_as_slice (fresh n)) = CID_LEN) (token_len : ∀ c, zlen (token_of c) = 16).

Lemma payload_ok_ext self self' : (∀ sp, pending_ack (pn (ep (conn self')) sp) = pending_ack (pn (ep (conn self)) sp)
    ∨ pending_ack (pn (ep (conn self')) sp) = []) →
  path (conn self') = path (conn self) → streams (conn self') = streams (conn self) →
  bufs (ep (conn self')) Level.EarlyData = bufs (ep (conn self)) Level.EarlyData → payload_ok self → payload_ok self'.
Proof.
  intros H1 H2 H3 H4 [A1 A2 A3 A4]. split; rewrite ?H2, ?H3, ?H4; try done. intros sp. unfold acks_ok.
  destruct (H1 sp) as [-> | ->]; [apply A1|]. split; [split; [constructor|constructor|apply Nat.le_0_l]|constructor].
Qed.

Lemma sealed_ok self level len meta now : payload_ok self → payload_ok (sealed_state self level len meta now).
Proof.
  apply payload_ok_ext.
  - intros sp. unfold sealed_state, send_packet, allocate_pn, register_sent. cbv zeta.
    destruct meta as [m|]; cbn; [destruct (carried_ack m), (pm_in_flight m)|]; cbn; unfold upd; repeat (case_decide; cbn); subst; auto.
  - done.
  - done.
  - destruct meta as [m|]; cbn; [destruct (carried_ack m), (pm_in_flight m)|]; done.
Qed.

Lemma rotate_ok self level : payload_ok self → payload_ok (rotate_keys derive_keys derive_next self level).
Proof.
  unfold rotate_keys. cbv zeta. destruct (_ && _); [|done]. unfold initiate_key_update. cbv zeta.
  repeat (match goal with |- context [if ?b then (self, _) else _] => destruct b; [done|] end). cbn [fst]. unfold flip_tx_key_phase.
  destruct (negb (suite_known self)); [by intros []|]. destruct (negb (hp_known self)); [by intros []|]. cbv zeta.
  destruct (tx_by_phase _ _); by intros [].
Qed.

Lemma close_ok self code now : payload_ok self → payload_ok (self <| conn := close_with_transport_error (conn self) code now |>).
Proof.
  unfold close_with_transport_error. destruct (is_closing_state _); [by intros []|]. cbv zeta. destruct (close_level _); by intros [].
Qed.

Lemma overhead_wire self self' level : same_wire self self' → packet_overhead self' level = packet_overhead self level.
Proof.
  intros [H1 _ H2 [H3 H4]]. injection H1 as R _ _ _. unfold packet_overhead, initial_token, peer_cid. by rewrite R, H2, H3, H4.
Qed.

Lemma sat_sub_nonneg a b : 0 ≤ sat_sub a b.
Proof. unfold sat_sub. lia. Qed.

(** A packet is appended, or nothing happens to the datagram. *)
Lemma build_spec self level pad room out now : payload_ok self →
  ∃ self' pkt built, build self level pad room out now = Some (self', out ++ pkt, built) ∧ payload_ok self'
  ∧ (built = None ∧ pkt = []
     ∨ built = Some (zlen pkt) ∧ tx_keys (ep (conn self)) level = true
       ∧ ∃ s1 payload fs, same_wire self s1 ∧ zlen pkt = packet_len s1 level payload pad
         ∧ payload_room (sat_sub room (packet_overhead self level)) fs (zlen payload)).
Proof.
  intros Hok. unfold build_packet_with_pad.
  assert (out = out ++ []) as Hnil by (by rewrite app_nil_r).
  destruct (negb (worth_packet _ _)); [eexists _, [], _; split; [by rewrite <- Hnil|]; split; [done|by left]|].
  destruct (negb (tx_keys _ _)) eqn:Hk; [eexists _, [], _; split; [by rewrite <- Hnil|]; split; [done|by left]|]. apply negb_false_iff in Hk.
  destruct (_ || _); [eexists _, [], _; split; [by rewrite <- Hnil|]; split; [done|by left]|].
  destruct (rotate_wire self level Hk) as [W1 K1]. pose proof (rotate_ok self level Hok) as Hok1.
  set (s1 := rotate_keys _ _ _ _) in *. clearbody s1. cbv zeta. rewrite (overhead_wire _ _ level W1).
  destruct (_ <=? _); [eexists _, [], _; split; [by rewrite <- Hnil|]; split; [by apply close_ok|by left]|].
  set (cap := sat_sub _ _). set (scope := payload_scope _ _ _). clearbody scope.
  destruct (assemble_spec fresh token_of fresh_len token_len s1 level scope cap now Hok1 (sat_sub_nonneg _ _))
    as (s2 & d & fs & Ha & _ & Hok2 & _ & _ & Hroom).
  rewrite Ha. cbn [mbind option_bind]. apply assemble_wire in Ha as [W2 K2].
  destruct d as [payload meta]. cbn [fst] in *.
  destruct (is_nil payload); [eexists _, [], _; split; [by rewrite <- Hnil|]; split; [done|by left]|].
  set (s3 := if _ && _ then _ else s2). assert (same_wire s2 s3 ∧ same_keys s2 s3) as [W3 K3] by (unfold s3; destruct (_ && _); by split; [split|intros l]).
  assert (payload_ok s3) as Hok3 by (unfold s3; destruct (_ && _); [by destruct Hok2|done]). clearbody s3.
  destruct (seal_packet_spec s3 level payload pad (Some meta) out now) as (pkt & -> & Hlen).
  { by rewrite K3, K2, K1. }
  eexists _, pkt, _. split; [done|]. split; [by apply sealed_ok|]. right. split; [done|]. split; [done|].
  exists s3, payload, fs. split; [by do 2 (etransitivity; [eassumption|])|]. split; [done|exact Hroom].
Qed.

(** * Datagrams that open a connection *)

Lemma discard_fields e lvl now : pn (discard_level e lvl now) = upd (pn e) (pn_space_of_level lvl) pn_space_default
  ∧ bufs (discard_level e lvl now) = upd (bufs e) lvl crypto_buf_new ∧ tx_keys (discard_level e lvl now) = upd (tx_keys e) lvl false.
Proof. unfold discard_level, strand. cbv zeta. by destruct (discard_keys _ _ _). Qed.

(** A client that has sent a Handshake packet. *)
Definition without_initial self (now : Z) : Sender E K := on_conn (λ c, c <| ep := discard_level (ep c) Level.Initial now |>) self.

Lemma without_initial_ep self now : ep (conn (without_initial self now)) = discard_level (ep (conn self)) Level.Initial now.
Proof. reflexivity. Qed.

Lemma without_initial_ok self now : payload_ok self → payload_ok (without_initial self now).
Proof.
  destruct (discard_fields (ep (conn self)) Level.Initial now) as (H1 & H2 & _).
  apply payload_ok_ext; try reflexivity; intros; rewrite without_initial_ep, ?H1, ?H2; unfold upd; case_decide; done || auto.
Qed.

Lemma without_initial_keys self now l : l ≠ Level.Initial →
  tx_keys (ep (conn (without_initial self now))) l = tx_keys (ep (conn self)) l.
Proof.
  intros Hl. destruct (discard_fields (ep (conn self)) Level.Initial now) as (_ & _ & H). rewrite without_initial_ep, H.
  unfold upd. by rewrite decide_False.
Qed.

(** The 0-RTT packet, if any, is appended. *)
Lemma zero_rtt_spec self budget dg now : payload_ok self →
  ∃ self' rest z, build_zero_rtt aead_seal hp_mask derive_keys derive_next fresh token_of self budget dg now = Some (self', dg ++ rest, z)
  ∧ payload_ok self' ∧ same_keys self self' ∧ (z = true → tx_keys (ep (conn self)) Level.EarlyData = true).
Proof.
  intros Hok. unfold build_zero_rtt. assert (dg = dg ++ []) as Hnil by (by rewrite app_nil_r).
  destruct (zero_rtt_live self); [|eexists _, [], _; split; [by rewrite <- Hnil|by split_and!]].
  destruct (coalesce_room _ _ _ _) as [room|]; [|eexists _, [], _; split; [by rewrite <- Hnil|by split_and!]].
  destruct (build_spec self Level.EarlyData None room dg now Hok) as (s' & pkt & built & Hb & Hok' & Hcase).
  rewrite Hb. cbn [mbind option_bind]. apply build_wire in Hb as [_ HK]. eexists _, pkt, _. split; [done|]. split; [done|]. split; [done|].
  intros Hz%bool_decide_eq_true. destruct Hcase as [[-> _]|(_ & ? & _)]; done.
Qed.

(** A client's Handshake packet costs it its Initial keys, but it fills the datagram. *)
Lemma handshake_spec self pad budget dg now : payload_ok self →
  ∃ self' rest, build_handshake aead_seal hp_mask derive_keys derive_next fresh token_of self pad budget dg now = Some (self', dg ++ rest)
  ∧ payload_ok self' ∧ (∀ l, l ≠ Level.Initial → tx_keys (ep (conn self')) l = tx_keys (ep (conn self)) l)
  ∧ (same_keys self self' ∨ (pad = true → 1200 ≤ zlen (dg ++ rest))).
Proof.
  intros Hok. unfold build_handshake. cbv zeta. assert (dg = dg ++ []) as Hnil by (by rewrite app_nil_r).
  destruct (coalesce_room _ _ _ _) as [room|]; [|eexists _, []; split; [by rewrite <- Hnil|]; split_and!; try done; by left].
  set (hp := if pad then _ else _). destruct (build_spec self Level.Handshake hp room dg now Hok) as (s' & pkt & built & Hb & Hok' & Hcase).
  rewrite Hb. cbn [mbind option_bind]. apply build_wire in Hb as [_ HK]. eexists _, pkt. split; [done|].
  destruct (_ && _ && _) eqn:Hc; [|split; [done|]; split; [intros l _; apply HK|by left]].
  split; [by apply without_initial_ok|]. split; [intros l Hl; etransitivity; [by apply without_initial_keys|apply HK]|]. right. intros ->.
  apply andb_true_iff in Hc as [[Hb _]%andb_true_iff _]. apply bool_decide_eq_true in Hb. destruct Hcase as [[-> _]|(_ & _ & s1 & payload & fs & _ & Hl & _)]; [done|].
  rewrite zlen_app, Hl. pose proof (padding_reaches s1 Level.Handshake payload 1200 (zlen dg)). fold hp in H. lia.
Qed.

Lemma one_rtt_spec self budget dg now : payload_ok self →
  ∃ self' rest b, build_one_rtt aead_seal hp_mask derive_keys derive_next fresh token_of self budget dg now = Some (self', dg ++ rest, b)
  ∧ payload_ok self' ∧ same_keys self self'.
Proof.
  intros Hok. unfold build_one_rtt. cbv zeta. set (pad := if _ && _ then _ else None). assert (dg = dg ++ []) as Hnil by (by rewrite app_nil_r).
  destruct (coalesce_room _ _ _ _) as [room|]; [|eexists _, [], _; split; [by rewrite <- Hnil|by split_and!]].
  destruct (build_spec self Level.OneRtt pad room dg now Hok) as (s' & pkt & built & Hb & Hok' & Hcase).
  rewrite Hb. cbn [mbind option_bind]. apply build_wire in Hb as [_ HK]. eexists _, pkt, _. split; [done|]. by split_and!.
Qed.

Lemma packet_len_pos self level payload pad : 0 < packet_len self level payload pad.
Proof.
  unfold packet_len, final_len. pose proof (pn_len_of_ok (next_tx (pn (ep (conn self)) (pn_space_of_level level)))
    (largest_acked_tx (pn (ep (conn self)) (pn_space_of_level level)))) as Hn. fold (next_pn_len self level) in Hn. cbv zeta.
  set (plen := Z.max _ _). assert (0 ≤ plen) by (unfold plen, sat_sub; lia). unfold header_len.
  pose proof (varint_len_range (next_pn_len self level + plen + 16)). pose proof (varint_len_range (zlen (initial_token self))).
  pose proof (zlen_nonneg (peer_cid self)). pose proof (zlen_nonneg (cid_as_slice (local_cid self))). pose proof (zlen_nonneg (initial_token self)).
  destruct level; lia.
Qed.

(** The trailing packet reaches the target, if its level has keys. *)
Lemma top_up_spec self (z : bool) dg now :
  tx_keys (ep (conn self)) (if z then Level.EarlyData else Level.Initial) = true →
  ∃ self' rest, top_up aead_seal hp_mask self z dg now = Some (self', dg ++ rest) ∧ 1200 ≤ zlen (dg ++ rest).
Proof.
  intros Hk. unfold top_up. set (lvl := if z then _ else _).
  assert (tx_keys (ep (conn self)) lvl = true) as Hl.
  { unfold lvl. destruct z; [done|]. destruct (tx_keys _ Level.Handshake && _) eqn:Ha; [by apply andb_true_iff in Ha as [? _]|done]. }
  destruct (seal_packet_spec self lvl [] (Some (1200, zlen dg)) (Some packet_meta_default) dg now Hl) as (pkt & -> & Hp).
  cbn [mbind option_bind]. eexists _, pkt. split; [done|]. rewrite zlen_app, Hp. pose proof (padding_reaches self lvl [] 1200 (zlen dg)). lia.
Qed.

(** The Initial packet [pkt] of [n] bytes opens the datagram. *)
Definition initial_packet self (now : Z) (s1 : Sender E K) (pkt : bytes) (n : Z) : Prop :=
  build self Level.Initial (initial_pad self (datagram_budget self)) (datagram_budget self) [] now = Some (s1, pkt, Some n).


(** * Datagrams of an established connection *)

Lemma build_no_keys self level pad room out now : tx_keys (ep (conn self)) level = false →
  build self level pad room out now = Some (self, out, None).
Proof. intros Hk. unfold build_packet_with_pad. rewrite Hk. by destruct (negb (worth_packet _ _)). Qed.

(** A 1-RTT packet stays within its room. *)
Lemma one_rtt_packet_fits self payload fs budget target : 1200 ≤ budget → target ≤ budget → zlen (peer_cid self) ≤ 20 →
  payload_room (sat_sub budget (packet_overhead self Level.OneRtt)) fs (zlen payload) →
  packet_len self Level.OneRtt payload None ≤ budget ∧ packet_len self Level.OneRtt payload (Some (target, 0)) ≤ budget.
Proof.
  intros Hb Ht Hd Hr. unfold packet_len, final_len, header_len. cbv zeta. set (n := next_pn_len self Level.OneRtt).
  assert (1 ≤ n ≤ 4) as Hn by (apply pn_len_of_ok). pose proof (zlen_nonneg (peer_cid self)).
  assert (zlen payload ≤ budget - (1 + zlen (peer_cid self) + 4 + 16)) as Hp.
  { unfold payload_room, packet_overhead, sat_sub, CRYPTO_CHUNK_CAP in Hr. destruct Hr as [Hr|(o & x & _ & Hr)]; [lia|].
    unfold crypto_header in Hr. pose proof (varint_len_range o). pose proof (varint_len_range (zlen x)). lia. }
  unfold padded_len, header_overhead. levels. unfold sat_sub. lia.
Qed.

Lemma one_rtt_fits self budget now : payload_ok self → 1200 ≤ budget → zlen (peer_cid self) ≤ 20 →
  ∃ self' dg b, build_one_rtt aead_seal hp_mask derive_keys derive_next fresh token_of self budget [] now = Some (self', dg, b)
  ∧ zlen dg ≤ budget.
Proof.
  intros Hok Hb Hd. unfold build_one_rtt. cbv zeta. set (pad := if _ && _ then _ else None). unfold coalesce_room.
  change (zlen (A:=Z) []) with 0. cbn [Z.eqb].
  destruct (build_spec self Level.OneRtt pad budget [] now Hok) as (s' & pkt & built & -> & Hok' & Hcase).
  cbn [mbind option_bind app]. eexists _, pkt, _. split; [done|].
  destruct Hcase as [[_ ->]|(_ & _ & s1 & payload & fs & W & -> & Hr)]; [change (zlen (A:=Z) []) with 0; lia|].
  rewrite <- (overhead_wire _ _ _ W) in Hr. assert (peer_cid s1 = peer_cid self) as Hp by (unfold peer_cid; by rewrite (sw_peer _ _ W)).
  rewrite <- Hp in Hd. destruct (one_rtt_packet_fits s1 payload fs budget 1200 Hb Hb Hd Hr). unfold pad.
  change (zlen (A:=Z) []) with 0. by destruct (_ && _).
Qed.

(** Only 1-RTT keys are left. *)
Definition one_rtt_only self : Prop := ∀ l, l ≠ Level.OneRtt → tx_keys (ep (conn self)) l = false.

Lemma coalesce_established self now : one_rtt_only self → payload_ok self → zlen (peer_cid self) ≤ 20 →
  ∃ self' dg b, coalesce self now = Some (self', dg, b) ∧ zlen dg ≤ datagram_budget self.
Proof.
  intros Hk Hok Hd. unfold coalesce_packets. cbv zeta. set (budget := datagram_budget self).
  assert (1200 ≤ budget) as Hb by (unfold budget, datagram_budget, MIN_INITIAL_DATAGRAM; lia). clearbody budget.
  rewrite build_no_keys by (by apply Hk). cbn [mbind option_bind is_nil negb andb].
  assert (build_zero_rtt aead_seal hp_mask derive_keys derive_next fresh token_of self budget [] now = Some (self, [], false)) as ->.
  { unfold build_zero_rtt. destruct (zero_rtt_live self); [|done]. unfold coalesce_room. change (zlen (A:=Z) []) with 0. cbn [Z.eqb].
    by rewrite build_no_keys by (by apply Hk). }
  cbn [mbind option_bind]. rewrite andb_false_r. cbn [andb].
  assert (build_handshake aead_seal hp_mask derive_keys derive_next fresh token_of self false budget [] now = Some (self, [])) as ->.
  { unfold build_handshake. cbv zeta. unfold coalesce_room. change (zlen (A:=Z) []) with 0. cbn [Z.eqb].
    by rewrite build_no_keys by (by apply Hk). }
  cbn [mbind option_bind]. destruct (one_rtt_fits self budget now Hok Hb Hd) as (s' & dg & b & -> & Hle).
  cbn [mbind option_bind]. rewrite andb_false_r. cbn [andb mbind option_bind]. by eexists _, _, _.
Qed.

Lemma inner_fits self now : payload_ok self → one_rtt_only self → zlen (peer_cid self) ≤ 20 →
  ∃ self' dg, pop_datagram_inner aead_seal hp_mask derive_keys derive_next fresh token_of self now = Some (self', dg)
  ∧ zlen dg ≤ datagram_budget self.
Proof.
  intros Hok Hk Hd. unfold pop_datagram_inner. set (s0 := on_conn sync_loss_context self).
  assert (payload_ok s0) as Hok0 by (destruct Hok; by split).
  destruct (coalesce_established s0 now Hk Hok0 Hd) as (s' & dg & b & -> & Hle). cbn [mbind option_bind].
  change (datagram_budget s0) with (datagram_budget self) in Hle.
  assert (0 ≤ datagram_budget self) by (unfold datagram_budget, MIN_INITIAL_DATAGRAM; lia).
  destruct (is_nil dg); [eexists _, _; by split|]. destruct (emit_datagram _ _ _ _) as [c [|]]; by eexists _, _.
Qed.

Lemma timed_fits self now : payload_ok self → one_rtt_only self → zlen (peer_cid self) ≤ 20 →
  pending_close (conn self) = None → pending_retry_datagram self = None →
  ∃ self' dg, pop_datagram_timed aead_seal hp_mask derive_keys derive_next fresh token_of self now = Some (self', dg)
  ∧ zlen dg ≤ datagram_budget self.
Proof.
  intros Hok Hk Hd Hc Hr. unfold pop_datagram_timed. assert (0 ≤ datagram_budget self) by (unfold datagram_budget, MIN_INITIAL_DATAGRAM; lia).
  destruct (closed _ || draining _); [eexists _, _; by split|]. rewrite Hc, bool_decide_eq_false_2 by (by intros []). cbv zeta.
  set (s0 := on_conn _ self). assert (payload_ok s0) as Hok0.
  { destruct Hok as [A1 [A2 A2'] A3 A4]. split; try done. split; cbn; unfold retain_responses_for; destruct (peer_addr (conn self)); try done. apply Forall_forall. intros x [_ Hx]%list_elem_of_filter. by eapply Forall_forall in A2. }
  change (pending_retry_datagram s0) with (pending_retry_datagram self). rewrite Hr.
  change (datagram_budget self) with (datagram_budget s0) in *. destruct (_ && _); [eexists _, _; by split|].
  destruct (inner_fits s0 now Hok0 Hk Hd) as (s' & dg & -> & Hle). destruct (negb _); [|eexists _, _; by split].
  cbn [mbind option_bind]. eexists _, _. by split.
Qed.

End send.

(** * DATAGRAM frames that are never sent *)

(** [x] is at the head of the queue. *)
Definition next_datagram (q : DatagramQueues) (x : bytes) : Prop := ∃ l, outbound_dgs q = x :: l.


(** * Examples *)

Module Runs.
Import Fixture.

(** A client that opens a connection: 300 bytes of CRYPTO, [n] bytes on a stream for 0-RTT. *)
Definition opening (n : nat) : Sender unit unit :=
  let e := endpoint (λ l, bool_decide (l = Level.Initial) || bool_decide (l = Level.EarlyData)) in
  let e := set_buf e Level.Initial (enqueue_outbound crypto_buf_new (replicate 300 1)) in
  sender Client path_validated e (Some (table n)) (datagrams_new None None).

Lemma opening_ok n : payload_ok (opening n).
Proof.
  split; [apply endpoint_acks|done| |done]. assert (streams (conn (opening n)) = Some (table n)) as -> by reflexivity.
  intros s Hs%(inj Some). rewrite <- Hs. apply table_inv.
Qed.

Lemma seal_len k n aad pt : zlen (seal k n aad pt).1 = zlen pt ∧ zlen (seal k n aad pt).2 = 16.
Proof. done. Qed.

Lemma mask_len k s : zlen s = 16 → ∃ m, mask k s = Some m ∧ zlen m = 5.
Proof. intros _. by exists [0; 0; 0; 0; 0]. Qed.

Abbreviation pop := (pop_datagram_timed seal mask same_key same_key draw reset_token).
Abbreviation pop_into := (pop_datagram_into_at seal mask same_key same_key draw reset_token).
Abbreviation coalesce := (coalesce_packets seal mask same_key same_key draw reset_token).
Abbreviation build := (build_packet_with_pad seal mask same_key same_key draw reset_token).

Definition built_len {A B} (r : option (A * B * option Z)) : option Z := match r with Some (_, _, Some n) => Some n | _ => None end.
Definition popped_len {A} (r : option (A * bytes)) : option Z := match r with Some (_, dg) => Some (zlen dg) | None => None end.

(** An established server at [home]. *)
Definition home : SocketAddr := mkSocketAddr [192; 0; 2; 1] 443.
Definition elsewhere : SocketAddr := mkSocketAddr [198; 51; 100; 7] 4444.

Definition settled : Sender unit unit :=
  on_conn (λ c, c <| handshake_complete := true |> <| conn_confirmed := true |> <| peer_addr := Some home |> <| peer_addr_validated := true |>)
    (sender Server path_validated (endpoint (λ l, bool_decide (l = Level.OneRtt))) None (datagrams_new None None)).

Definition no_tls : unit → Level → bytes → unit * tls_result () := λ e _ _, (e, Ok ()).

(** One 1-RTT packet in a datagram of [n] bytes. *)
Definition arrive (self : Sender unit unit) (from : SocketAddr) (n pn_ : Z) (payload : bytes) : option (Sender unit unit) :=
  '(c, _) ← feed_short_payload no_tls (receive_from (conn self) from NotEct n) pn_ payload (replicate 8 5) 0;
  Some (self <| conn := receive_done c |>).

(** PING and PATH_CHALLENGE from elsewhere in 40 bytes, then 1200 bytes from home. *)
Definition wandering : option (Sender unit unit * option (SocketAddr * bytes)) :=
  s ← arrive settled elsewhere 40 8 (1 :: 0x1a :: replicate 8 3);
  s ← arrive s home 1200 9 [1];
  pop_offpath_datagram seal mask s 0.

Definition reply_len {A} (r : option (A * option (SocketAddr * bytes))) : option (SocketAddr * Z) :=
  match r with Some (_, Some (a, dg)) => Some (a, zlen dg) | _ => None end.
End Runs.




(** A client whose stream data nearly fills its first datagram builds one that is longer
    than its budget: the PADDING packet that tops the coalesced Initial and 0-RTT packets up
    to 1200 bytes is itself at least 39 bytes long.  [pop_datagram_into_at], given a buffer
    of the size [max_datagram_size] asks for, cuts the last packet off. *)
Theorem zero_rtt_datagram_outgrows : ∃ self' dg, payload_ok (Runs.opening 3000) ∧ datagram_budget (Runs.opening 3000) = 1200
  ∧ Runs.pop (Runs.opening 3000) 0 = Some (self', dg) ∧ zlen dg = 1239
  ∧ Runs.pop_into (Runs.opening 3000) 0 1200 = Some (self', ztake 1200 dg).
Proof.
  assert (Runs.popped_len (Runs.pop (Runs.opening 3000) 0) = Some 1239) as Hl by (vm_compute; reflexivity).
  destruct (Runs.pop (Runs.opening 3000) 0) as [[s' dg]|] eqn:Ep; [|discriminate Hl]. cbn [Runs.popped_len] in Hl. injection Hl as Hl.
  exists s', dg. split; [apply Runs.opening_ok|]. split; [vm_compute; reflexivity|]. split; [reflexivity|]. split; [exact Hl|].
  unfold pop_datagram_into_at. change (1200 <? datagram_budget (Runs.opening 3000)) with false. cbv iota. rewrite Ep. cbn [mbind option_bind].
  rewrite Hl. reflexivity.
Qed.

