(* ===== verification/PathSpec.v ===== *)
(** Network paths: a server never sends an address that has not proven itself more than
    three times what it received from it, across migrations and their failures, and a
    path is only validated by a challenge that was issued. *)

From S2P Require Import Prelude TlsBase Varint Ct Path Pn Ack BTree CryptoBuf Frame Datagram RecvStream SendStream Streams Version Cid Congestion Loss Endpoint Conn Send PayloadSpec SendSpec.

Section conn.
Context {E K : Type} (aead_seal : K → Z → bytes → bytes → bytes * bytes) (hp_mask : K → bytes → option bytes).
Context (derive_keys derive_next : K → K) (fresh : Z → ConnectionId) (token_of : ConnectionId → bytes).
Context (feed : E → Level → bytes → E * tls_result ()).
Implicit Types c : Conn E.

(** * What the handlers do to the path *)

(** Role, addresses and the datagram being read. *)
Definition ends c : Role * option SocketAddr * option SocketAddr * Z :=
  (conn_role c, peer_addr c, current_rx_addr c, current_rx_len c).

(** The path and the migration are untouched. *)
Definition path_kept c c' : Prop := ends c' = ends c ∧ active_path c' = active_path c ∧ migration c' = migration c.

(** Or the path in use was validated, which ends the migration. *)
Definition path_rel c c' : Prop :=
  path_kept c c' ∨ ends c' = ends c ∧ active_path c' = (active_path c) <| validated := true |>
                   ∧ (migration c' = migration c ∨ migration c' = None).

#[local] Instance path_kept_pre : PreOrder path_kept.
Proof. split; [by intros c|]. intros a b d (H1 & H2 & H3) (H4 & H5 & H6). split_and!; [by rewrite H4|by rewrite H5|by rewrite H6]. Qed.

Lemma ecn_kept c r t : path_kept c (process_ecn_ack c r t).
Proof. unfold process_ecn_ack. cbv zeta. by repeat case_match. Qed.

Lemma done_fate_kept c a l : path_kept c (note_handshake_done_fate c a l).
Proof. unfold note_handshake_done_fate. cbv zeta. destruct (existsb _ a); by destruct (_ && _). Qed.

Lemma ack_recovery_kept c level ranges delay ecn now c' a l :
  ack_recovery c level ranges delay ecn now = Some (c', a, l) → path_kept c c'.
Proof.
  unfold ack_recovery. destruct (on_ack_received _ _ _ _ _) as [[l1 a1]|]; [|done]. cbn [mbind option_bind]. cbv zeta.
  set (c2 := if decide (pn_space_of_level level = Application) then _ else _).
  assert (path_kept c c2) as E2 by (unfold c2; destruct (decide _); [by etransitivity; [|apply ecn_kept]|done]).
  clearbody c2. destruct (_ && _); [by intros [= <- <- <-]|]. destruct (detect_lost _ _ _) as [[l2 lo]|]; [|done].
  cbn [mbind option_bind]. by intros [= <- <- <-].
Qed.

Lemma ack_contents_kept c level largest a l : path_kept c (ack_contents c level largest a l).1.
Proof.
  unfold ack_contents. destruct (for_hints _ _ l) as [e [|]]; [|done]. cbv zeta.
  set (c1 := note_handshake_done_fate _ a l). assert (path_kept c c1) as H1 by (unfold c1; by etransitivity; [|apply done_fate_kept]).
  clearbody c1. by destruct (for_hints _ _ a) as [e' [|]].
Qed.

Lemma on_ack_frame_kept c level la d raw f ecn now c' r : on_ack_frame c level la d raw f ecn now = Some (c', r) → path_kept c c'.
Proof.
  unfold on_ack_frame. destruct (ack_frame_ranges _ _ _); [|by intros [= <- <-]]. cbv zeta.
  destruct (negb _); [by intros [= <- <-]|]. destruct (ack_recovery _ _ _ _ _ _) as [[[c1 a1] l1]|] eqn:Er; [|done].
  apply ack_recovery_kept in Er. cbn [mbind option_bind]. intros [= Hc]. etransitivity; [exact Er|].
  replace c' with (ack_contents c1 level la a1 l1).1 by (by rewrite Hc). apply ack_contents_kept.
Qed.

Lemma stream_arm_kept c f c' o : stream_arm c f = Some (c', o) → path_kept c c'.
Proof.
  unfold stream_arm. destruct (streams c); [|by intros [= <- <-]]. destruct (f _) as [[s' r]|]; [|done].
  cbn [mbind option_bind]. destruct r; by intros [= <- <-].
Qed.

Lemma path_response_rel c d : path_rel c (on_path_response c d).
Proof.
  unfold on_path_response. destruct (on_response (path c) d) as [p m]. cbv zeta. destruct (_ && _); [|by left].
  unfold path_migration_validated. change (migration (c <| path := p |>)) with (migration c).
  destruct (migration c) as [mg|]; [|by left]. cbv zeta.
  destruct (negb (port_only mg)); right; (split; [done|]; split; [done|by right]).
Qed.

Lemma on_frame_rel c level f now c' o : on_frame feed c level f now = Some (c', o) → path_rel c c'.
Proof.
  intros H. destruct f as [n| |largest delay raw first ecn|id code size|id code|o1 d|tok|id o1 fin d|v|id lim|dir lim|v|id lim
    |dir lim|seq rpt cid tok|seq|d|d|err ft rs| |d]; cbn [on_frame] in H.
  all: try (injection H as <- <-; by left).
  all: try (apply stream_arm_kept in H; by left).
  - destruct (on_ack_frame _ _ _ _ _ _ _ _) as [[c1 r]|] eqn:Ea; [|done]. apply on_ack_frame_kept in Ea.
    cbn in H. injection H as <- <-. by left.
  - unfold on_crypto_frame in H. destruct (on_crypto _ _ _) as [[b new]|]; [|injection H as <- <-; by left]. cbv zeta in H.
    destruct (negb _); [|injection H as <- <-; by left]. unfold lift_outcome, feed_handshake_bytes in H.
    destruct (feed _ _ _) as [e [|]]; injection H as <- <-; by left.
  - destruct (decide _); injection H as <- <-; by left.
  - destruct (on_new_connection_id _ _ _ _ _) as [k r]. injection H as <- <-. by left.
  - destruct (on_retire_connection_id _ _) as [k r]. injection H as <- <-. by left.
  - injection H as <- <-. apply path_response_rel.
  - unfold on_handshake_done in H. destruct (decide _); [injection H as <- <-; by left|]. destruct (negb _); injection H as <- <-; by left.
  - destruct (on_datagram_frame _ _ _) as [q r]. injection H as <- <-. by left.
Qed.

#[local] Instance path_rel_pre : PreOrder path_rel.
Proof.
  split; [by intros c; left|]. intros a b d [(H1 & H2 & H3)|(H1 & H2 & H3)] [(H4 & H5 & H6)|(H4 & H5 & H6)].
  - left. split_and!; [by rewrite H4|by rewrite H5|by rewrite H6].
  - right. rewrite H4, H5, H2. by rewrite H3 in H6.
  - right. rewrite H4, H5, H6. done.
  - right. rewrite H4, H5, H2. split; [done|]. split; [done|]. destruct H6 as [->| ->]; [done|by right].
Qed.

Lemma dispatch_loop_rel fuel : ∀ c level payload el n now c' out,
  dispatch_loop feed fuel c level payload el n now = Some (c', out) → path_rel c c'.
Proof.
  induction fuel as [|fuel IH]; intros c level payload el n now c' out H; cbn [dispatch_loop] in H;
    destruct (frame_iter_next payload) as [[[f|e] rest]|]; try done; try (injection H as <- <-; by left).
  cbv zeta in H. set (c1 := if negb (is_probing f) then _ else c) in *.
  assert (path_rel c c1) as H1 by (unfold c1; left; by destruct (negb _)).
  clearbody c1. destruct (negb (frame_allowed_at_level f level)); [by injection H as <- <-|].
  destruct (on_frame feed c1 level f now) as [[c2 o]|] eqn:Ef; [|done]. cbn [mbind option_bind] in H.
  apply on_frame_rel in Ef. etransitivity; [exact H1|]. etransitivity; [exact Ef|].
  destruct o; [by eapply IH|by injection H as <- <-].
Qed.

Lemma dispatch_rel c level pn_ payload now c' r : dispatch_frames feed c level pn_ payload now = Some (c', r) → path_rel c c'.
Proof.
  unfold dispatch_frames. cbv zeta. intros H. destruct (dispatch_loop _ _ _ _ _ _ _ _) as [[c1 out]|] eqn:Ed; [|done].
  apply dispatch_loop_rel in Ed. cbn [mbind option_bind] in H. etransitivity; [|etransitivity; [exact Ed|]]; [by left|].
  destruct out as [r'|[el n]]; [injection H as <- <-; by left|]. destruct (n =? 0); injection H as <- <-; by left.
Qed.

Lemma long_rel c level pn_ payload now c' r : feed_long_payload feed c level pn_ payload now = Some (c', r) → path_rel c c'.
Proof.
  unfold feed_long_payload. cbv zeta. set (c1 := if _ && _ then _ else c). intros H.
  assert (path_rel c c1) as H1 by (unfold c1; destruct (_ && _); [right; split; [done|]; split; [done|by left]|by left]).
  clearbody c1. destruct (dispatch_frames _ _ _ _ _ _) as [[c2 r2]|] eqn:Ed; [|done]. apply dispatch_rel in Ed.
  cbn [mbind option_bind] in H. etransitivity; [exact H1|]. etransitivity; [exact Ed|].
  destruct r2; injection H as <- <-; by left.
Qed.

(** [maybe_migrate] keeps the path, gives a migration up, or begins one. *)
Inductive migrate_rel c : Conn E → Prop :=
| mr_kept c' : path_kept c c' → migrate_rel c c'
| mr_learn c' from : peer_addr c = None → current_rx_addr c = Some from →
    ends c' = (conn_role c, Some from, current_rx_addr c, current_rx_len c) → active_path c' = active_path c →
    migration c' = migration c → migrate_rel c c'
| mr_abandon c' m : migration c = Some m → ends c' = (conn_role c, Some (prev_addr m), current_rx_addr c, current_rx_len c) →
    active_path c' = prev_path m → migration c' = None → migrate_rel c c'
| mr_begin c' from current m : current_rx_addr c = Some from → peer_addr c = Some current → from ≠ current → migration c = None →
    ends c' = (conn_role c, Some from, current_rx_addr c, current_rx_len c) →
    active_path c' = note_recv path_default (current_rx_len c) →
    migration c' = Some m → prev_addr m = current → prev_path m = active_path c → migrate_rel c c'.

Lemma maybe_migrate_rel c p l rnd now : migrate_rel c (maybe_migrate c p l rnd now).
Proof.
  unfold maybe_migrate. destruct (current_rx_addr c) as [from|] eqn:Ec; [|by apply mr_kept].
  destruct (peer_addr c) as [cur|] eqn:Ep; [|eapply mr_learn; try done; unfold ends; by rewrite Ec].
  destruct (decide (from = cur)); [by apply mr_kept|].
  repeat (match goal with |- context [if ?b then c else _] => destruct b; [by apply mr_kept|] end).
  destruct (match migration c with Some m => _ | None => _ end) eqn:Em.
  - destruct (migration c) as [m|] eqn:Emig; [|done]. unfold abandon_path_migration. rewrite Emig.
    by eapply mr_abandon.
  - destruct (bool_decide (migration c ≠ None)) eqn:Hn; [by apply mr_kept|]. apply bool_decide_eq_false in Hn.
    assert (migration c = None) as Hm by (by destruct (migration c); [destruct Hn|]).
    by eapply mr_begin.
Qed.

Lemma divert_kept c : path_kept c (divert_offpath_responses c).
Proof. unfold divert_offpath_responses. by destruct (take_responses_off_path _ _). Qed.

(** What a 1-RTT packet does: frames, then perhaps a migration. *)
Lemma short_rel c pn_ payload rnd now c' r : feed_short_payload feed c pn_ payload rnd now = Some (c', r) →
  ∃ c1 c2, path_rel c c1 ∧ migrate_rel c1 c2 ∧ path_kept c2 c'.
Proof.
  unfold feed_short_payload. cbv zeta. intros H. destruct (dispatch_frames _ _ _ _ _ _) as [[c1 r1]|] eqn:Ed; [|done].
  apply dispatch_rel in Ed. cbn [mbind option_bind] in H. destruct r1; injection H as <- <-.
  - eexists c1, _. split; [done|]. split; [apply maybe_migrate_rel|]. by etransitivity; [apply divert_kept|].
  - exists c1, c1. split; [done|]. split; [by apply mr_kept|done].
Qed.

(** * The anti-amplification limit of a server *)

(** One datagram from [from]: any number of long-header packets, perhaps a 1-RTT packet. *)
Inductive long_step c : Conn E → Prop :=
| long_packet level pn_ payload now c' r : feed_long_payload feed c level pn_ payload now = Some (c', r) → long_step c c'.

Inductive delivered c (from : SocketAddr) (ecn : EcnCodepoint) (n : Z) : Conn E → Prop :=
| delivered_long c' : rtc long_step (receive_from c from ecn n) c' → delivered c from ecn n (receive_done c')
| delivered_short c1 pn_ payload rnd now c' r : rtc long_step (receive_from c from ecn n) c1 →
    feed_short_payload feed c1 pn_ payload rnd now = Some (c', r) → delivered c from ecn n (receive_done c').

(** The bytes just sent count if they went to [a] while it was not validated. *)
Definition counted (a : SocketAddr) c (n : Z) : Z :=
  if bool_decide (peer_addr c = Some a) && negb (validated (active_path c)) then n else 0.

(** The life of a server connection, with the bytes sent to [a] while it was not
    validated and the bytes received from [a].  Datagrams arrive and are popped, timers
    fire, a Retry token may validate the path, and what the application does meanwhile
    leaves the path alone. *)
Inductive server_life (a : SocketAddr) : Sender E K → Z → Z → Prop :=
| life_start s : conn_role (conn s) = Server → active_path (conn s) = path_default → peer_addr (conn s) = None →
    migration (conn s) = None → server_life a s 0 0
| life_recv s sent recv from ecn n c : server_life a s sent recv → 0 ≤ n → delivered (conn s) from ecn n c →
    server_life a (s <| conn := c |>) sent (recv + (if decide (from = a) then n else 0))
| life_pop s sent recv now s' dg : server_life a s sent recv →
    pop_datagram_timed aead_seal hp_mask derive_keys derive_next fresh token_of s now = Some (s', dg) →
    server_life a s' (sent + counted a (conn s) (zlen dg)) recv
| life_timeout s sent recv now c : server_life a s sent recv → on_timeout (conn s) now = Some c →
    server_life a (s <| conn := c |>) sent recv
| life_token s sent recv : server_life a s sent recv → peer_addr (conn s) ≠ None →
    server_life a (on_conn (λ c, c <| active_path := (active_path c) <| validated := true |> |>) s) sent recv
| life_other s sent recv s' : server_life a s sent recv → path_kept (conn s) (conn s') → server_life a s' sent recv.

(** The budget of a path to [a] covers the bytes of this path, and what was sent before
    it was covered by what was received before. *)
Definition budget_ok (p : Path) (sent recv : Z) : Prop :=
  validated p = false → 0 ≤ bytes_sent p ≤ 3 * bytes_recv p ∧ 0 ≤ bytes_recv p ≤ recv
    ∧ sent - bytes_sent p ≤ 3 * (recv - bytes_recv p).

Record amp_inv (a : SocketAddr) c (sent recv : Z) : Prop := {
  am_role : conn_role c = Server;
  am_total : 0 ≤ sent ≤ 3 * recv;
  am_path : peer_addr c = Some a → budget_ok (active_path c) sent recv;
  am_prev : ∀ m, migration c = Some m →
    peer_addr c ≠ Some (prev_addr m) ∧ (prev_addr m = a → budget_ok (prev_path m) sent recv);
  am_none : peer_addr c = None → active_path c = path_default ∧ migration c = None }.

Lemma amp_kept a c c' sent recv : path_kept c c' → amp_inv a c sent recv → amp_inv a c' sent recv.
Proof.
  intros (He & Ha & Hm) [H1 H2 H3 H4 H5]. unfold ends in He. injection He as E1 E2 _ _.
  split; rewrite ?E1, ?E2, ?Ha, ?Hm; done.
Qed.

Lemma amp_rel a c c' sent recv : peer_addr c ≠ None → path_rel c c' → amp_inv a c sent recv → amp_inv a c' sent recv.
Proof.
  intros Hne [Hk|(He & Ha & Hm)] Hi; [by eapply amp_kept|]. destruct Hi as [H1 H2 H3 H4 H5].
  unfold ends in He. injection He as E1 E2 _ _. split; rewrite ?E1, ?E2; try done.
  - intros _. rewrite Ha. by intros ?.
  - intros m Hmm. apply H4. destruct Hm as [Hm|Hm]; congruence.
Qed.

Lemma budget_note_recv p sent recv n : budget_ok p sent recv → 0 ≤ n → 3 * (recv + n) < 2 ^ 64 - 1 →
  budget_ok (note_recv p n) sent (recv + n).
Proof.
  intros Hb Hn Hr. unfold note_recv. destruct (validated p) eqn:Hv; cbn [negb]; [intros ?; congruence|].
  intros _. destruct (Hb Hv) as (? & ? & ?). cbn. unfold sat_add. lia.
Qed.

Lemma budget_more p sent recv n : budget_ok p sent recv → 0 ≤ n → budget_ok p sent (recv + n).
Proof. intros Hb Hn Hv. destruct (Hb Hv) as (? & ? & ?). lia. Qed.

Lemma receive_ends c from ecn n : let c1 := receive_from c from ecn n in
  conn_role c1 = conn_role c ∧ current_rx_addr c1 = Some from ∧ current_rx_len c1 = n ∧ migration c1 = migration c
  ∧ peer_addr c1 = (match peer_addr c with Some p => Some p | None => Some from end)
  ∧ active_path c1 = (if decide (peer_addr c1 = Some from) then note_recv (active_path c) n else active_path c).
Proof.
  unfold receive_from, credit_datagram. cbv zeta. destruct (peer_addr c) as [p|] eqn:Ep.
  - rewrite decide_False by done. cbn. rewrite ?Ep. case_bool_decide as Hb.
    + split_and!; try done. cbn. rewrite ?Ep, decide_True by congruence. done.
    + split_and!; try done. cbn. rewrite ?Ep, decide_False by congruence. done.
  - rewrite decide_True by done. cbn. rewrite bool_decide_eq_true_2 by done.
    split_and!; try done. cbn. by rewrite decide_True.
Qed.

(** The datagram is credited, to the path or (later) to the migration it starts. *)
Lemma receive_inv a c from ecn n sent recv : amp_inv a c sent recv → 0 ≤ n →
  let recv' := recv + (if decide (from = a) then n else 0) in 3 * recv' < 2 ^ 64 - 1 →
  let c1 := receive_from c from ecn n in
  amp_inv a c1 sent recv' ∧ peer_addr c1 ≠ None ∧ (from = a → sent ≤ 3 * (recv' - n)).
Proof.
  intros [H1 H2 H3 H4 H5] Hn recv' Hr c1. destruct (receive_ends c from ecn n) as (E1 & E2 & E3 & E4 & E5 & E6). fold c1 in E1, E2, E3, E4, E5, E6.
  assert (recv ≤ recv') as Hle by (unfold recv'; destruct (decide _); lia).
  assert (peer_addr c1 ≠ None) as Hne by (rewrite E5; by destruct (peer_addr c)).
  split; [|split; [done|intros ->; unfold recv'; rewrite decide_True by done; lia]]. split.
  - by rewrite E1.
  - lia.
  - intros Hp. rewrite E6. unfold recv' in *. destruct (decide (from = a)) as [->|Hna].
    + rewrite decide_True by done. apply budget_note_recv; [|done|done]. destruct (peer_addr c) as [p|] eqn:Ep.
      * apply H3. congruence.
      * destruct (H5 eq_refl) as [-> _]. intros _. cbn. lia.
    + rewrite decide_False by congruence. apply budget_more; [|lia]. apply H3.
      destruct (peer_addr c) as [p|]; congruence.
  - intros m Hm. rewrite E4 in Hm. destruct (H4 m Hm) as [Hpa Hpr]. split.
    + rewrite E5. destruct (peer_addr c) as [p|] eqn:Ep; [done|]. destruct (H5 eq_refl) as [_ ?]. congruence.
    + intros Hpv. unfold recv'. apply budget_more; [auto|]. destruct (decide _); lia.
  - done.
Qed.

(** A migration begins with nothing sent and the datagram that started it received. *)
Lemma migrate_inv a c c' sent recv from : migrate_rel c c' → amp_inv a c sent recv → peer_addr c ≠ None →
  current_rx_addr c = Some from → 0 ≤ current_rx_len c → (from = a → sent ≤ 3 * (recv - current_rx_len c)) →
  3 * recv < 2 ^ 64 - 1 → amp_inv a c' sent recv.
Proof.
  intros Hm [H1 H2 H3 H4 H5] Hne Hrx Hlen Hpend Hr. destruct Hm as [c' Hk|c' f Hp|c' m Hm He Ha Hn|c' f cur m Hf Hp Hfc Hm He Ha Hm' Hpa Hpp].
  - by eapply amp_kept.
  - done.
  - unfold ends in He. injection He as E1 E2 _ _. destruct (H4 m Hm) as [Hpa Hpr]. split; rewrite ?E1, ?E2, ?Ha, ?Hn; try done.
    intros Hx. apply Hpr. congruence.
  - unfold ends in He. injection He as E1 E2 _ _. rewrite Hrx in Hf. injection Hf as <-.
    split; rewrite ?E1, ?E2, ?Ha; try done.
    + intros [= ->]. specialize (Hpend eq_refl). unfold note_recv. cbn. intros _. unfold sat_add. cbn. lia.
    + intros m' Hm0. rewrite Hm' in Hm0. injection Hm0 as <-. rewrite Hpa. split; [congruence|]. intros ->. rewrite Hpp. by apply H3.
Qed.

(** A datagram of a server leaves only within the budget. *)
Lemma send_inv a c sent recv n own : amp_inv a c sent recv → 0 ≤ n → 3 * recv < 2 ^ 64 - 1 →
  path_budget_permits c n own = true →
  amp_inv a (c <| active_path := note_sent (active_path c) n |>) (sent + counted a c n) recv.
Proof.
  intros [H1 H2 H3 H4 H5] Hn Hr Hb. unfold path_budget_permits in Hb. rewrite H1, andb_false_r, orb_false_r in Hb.
  unfold path_can_send in Hb. unfold counted, note_sent.
  destruct (validated (active_path c)) eqn:Hv; cbn [negb].
  - rewrite andb_false_r, Z.add_0_r. split; try done.
  - rewrite andb_true_r. apply Z.leb_le in Hb. unfold sat_add in Hb. case_bool_decide as Hpa.
    + destruct (H3 Hpa Hv) as (B1 & B2 & B3). assert (bytes_sent (active_path c) + n ≤ 3 * bytes_recv (active_path c)) by lia.
      split; cbn; [done|lia| | |congruence].
      * intros _ _. cbn. unfold sat_add. lia.
      * intros m Hm. destruct (H4 m Hm) as [Hne _]. split; [done|]. intros Hx. destruct Hne. congruence.
    + rewrite Z.add_0_r. split; cbn; try done. intros Hp. destruct (H5 Hp) as [Hd Hm]. split; [|done].
      rewrite Hd in Hb |- *. cbn in Hb |- *. assert (n = 0) as -> by lia. done.
Qed.

(** What popping a datagram does to the path: it is charged to the budget, which must
    permit it, or nothing is sent. *)
Inductive popped c c' (dg : bytes) : Prop :=
| popped_none : path_kept c c' → dg = [] → popped c c' dg
| popped_some own : path_budget_permits c (zlen dg) own = true →
    path_kept (c <| active_path := note_sent (active_path c) (zlen dg) |>) c' → popped c c' dg.

Lemma wire_kept (s s' : Sender E K) : same_wire s s' → path_kept (conn s) (conn s').
Proof. intros [H1 [H2 H3] _ _]. by split. Qed.

Lemma permits_kept c c' n own : path_kept c c' → path_budget_permits c' n own = path_budget_permits c n own.
Proof. intros (He & Ha & _). unfold ends in He. injection He as E1 _ _ _. unfold path_budget_permits. by rewrite E1, Ha. Qed.

Lemma sent_kept c c' n : path_kept c c' →
  path_kept (c <| active_path := note_sent (active_path c) n |>) (c' <| active_path := note_sent (active_path c') n |>).
Proof. intros (He & Ha & Hm). split; [exact He|]. split; [cbn; by rewrite Ha|exact Hm]. Qed.

Lemma popped_kept c c1 c' dg : path_kept c c1 → popped c1 c' dg → popped c c' dg.
Proof.
  intros Hk [H1 H2|own H1 H2]; [apply popped_none; [by etransitivity|done]|].
  apply (popped_some _ _ _ own); [by rewrite <- (permits_kept _ _ _ _ Hk)|]. etransitivity; [by apply sent_kept|done].
Qed.

Lemma popped_after c c1 c' dg : popped c c1 dg → path_kept c1 c' → popped c c' dg.
Proof. intros [H1 H2|own H1 H2] Hk; [apply popped_none|apply (popped_some _ _ _ own)]; try done; by etransitivity. Qed.

Lemma inner_popped (s : Sender E K) now s' dg :
  pop_datagram_inner aead_seal hp_mask derive_keys derive_next fresh token_of s now = Some (s', dg) → popped (conn s) (conn s') dg.
Proof.
  unfold pop_datagram_inner. destruct (coalesce_packets _ _ _ _ _ _ _ _) as [[[s1 d1] b]|] eqn:Ec; [|done]. cbn [mbind option_bind].
  apply coalesce_wire, wire_kept in Ec. assert (path_kept (conn s) (conn s1)) as Hk by (etransitivity; [|exact Ec]; by split). clear Ec.
  destruct (is_nil d1) eqn:En; [intros [= <- <-]; by apply popped_none|]. unfold emit_datagram.
  destruct (path_budget_permits (conn s1) (zlen d1) b) eqn:Hb; cbn [negb]; intros H.
  - apply (f_equal (option_map (λ x, (conn x.1, x.2)))) in H. cbn [option_map fst snd] in H. apply (inj Some) in H. apply pair_equal_spec in H as [<- <-].
    eapply popped_kept; [exact Hk|]. by apply (popped_some _ _ _ b).
  - apply (f_equal (option_map (λ x, (conn x.1, x.2)))) in H. cbn [option_map fst snd] in H. apply (inj Some) in H. apply pair_equal_spec in H as [<- <-].
    by apply popped_none.
Qed.

Lemma close_popped (s : Sender E K) now s' dg : pop_close_datagram aead_seal hp_mask s now = Some (s', dg) → popped (conn s) (conn s') dg.
Proof.
  unfold pop_close_datagram. destruct (pending_close (conn s)) as [pc|]; [|intros [= <- <-]; by apply popped_none].
  destruct (negb (pc_armed pc)); [intros [= <- <-]; by apply popped_none|]. cbv zeta. set (s0 := on_conn _ s).
  assert (path_kept (conn s) (conn s0)) as H0 by done. clearbody s0. set (pad := if _ && _ then _ else _).
  destruct (seal_packet _ _ _ _ _ _ _ _ _) as [[[s1 wire] built]|] eqn:Es; [|done]. cbn [mbind option_bind].
  apply seal_wire in Es as [W _]. apply wire_kept in W. assert (path_kept (conn s) (conn s1)) as Hk by (by etransitivity).
  clearbody pad. destruct (bool_decide (built = None)); [intros [= <- <-]; by apply popped_none|].
  destruct (path_budget_permits (conn s1) (zlen wire) true) eqn:Hb; cbn [negb]; [|intros [= <- <-]; by apply popped_none].
  intros H. apply (f_equal (option_map (λ x, (conn x.1, x.2)))) in H. cbn [option_map fst snd] in H. apply (inj Some) in H. apply pair_equal_spec in H as [<- <-].
  eapply popped_kept; [exact Hk|]. by apply (popped_some _ _ _ true).
Qed.

Lemma pop_popped (s : Sender E K) now s' dg :
  pop_datagram_timed aead_seal hp_mask derive_keys derive_next fresh token_of s now = Some (s', dg) → popped (conn s) (conn s') dg.
Proof.
  unfold pop_datagram_timed. destruct (_ || _); [intros [= <- <-]; by apply popped_none|].
  destruct (bool_decide _); [apply close_popped|]. cbv zeta. set (s0 := on_conn _ s).
  assert (path_kept (conn s) (conn s0)) as H0 by done. clearbody s0. intros H. eapply popped_kept; [exact H0|]. revert H.
  destruct (pending_retry_datagram s0) as [rd|].
  { destruct (path_can_send (active_path (conn s0)) (zlen rd)) eqn:Hc; cbn [negb]; [|intros [= <- <-]; by apply popped_none].
    intros H. apply (f_equal (option_map (λ x, (conn x.1, x.2)))) in H. cbn [option_map fst snd] in H. apply (inj Some) in H. apply pair_equal_spec in H as [<- <-].
    apply (popped_some _ _ _ true); [|done]. unfold path_budget_permits. by rewrite Hc. }
  destruct (_ && _); [intros [= <- <-]; by apply popped_none|]. destruct (negb _); [|apply inner_popped].
  destruct (pop_datagram_inner _ _ _ _ _ _ _ _) as [[s1 d1]|] eqn:Ei; [|done]. cbn [mbind option_bind]. apply inner_popped in Ei.
  intros H. apply (f_equal (option_map (λ x, (conn x.1, x.2)))) in H. cbn [option_map fst snd] in H. apply (inj Some) in H. apply pair_equal_spec in H as [<- <-].
  eapply popped_after; [exact Ei|]. by destruct (is_nil d1).
Qed.

Lemma popped_inv a c c' dg sent recv : popped c c' dg → amp_inv a c sent recv → 3 * recv < 2 ^ 64 - 1 →
  amp_inv a c' (sent + counted a c (zlen dg)) recv.
Proof.
  intros [Hk ->|own Hb Hk] Hi Hr; (eapply amp_kept; [exact Hk|]).
  - unfold counted. change (zlen (A:=Z) []) with 0. destruct (_ && _); by rewrite Z.add_0_r.
  - by eapply send_inv; [|apply zlen_nonneg| |exact Hb].
Qed.

(** Timers: only the migration's deadline changes the path. *)
Lemma lost_kept c sp l now : path_kept c (handle_lost_packets c sp l now).
Proof.
  unfold handle_lost_packets. cbv zeta. set (c1 := c <| ep := _ |> <| ep := _ |>). assert (path_kept c c1) by done. clearbody c1.
  etransitivity; [done|]. etransitivity; [apply (done_fate_kept c1 [] l)|]. done.
Qed.

Lemma detect_rounds_kept n : ∀ c now c', detect_rounds n c now = Some c' → path_kept c c'.
Proof.
  induction n as [|n IH]; intros c now c' H; cbn [detect_rounds] in H; [by injection H as <-|].
  destruct (next_loss_time _) as [[d sp]|]; [|by injection H as <-]. destruct (now <? d); [by injection H as <-|].
  destruct (detect_lost _ _ _) as [[l lost]|]; [|done]. cbn [mbind option_bind] in H. cbv zeta in H.
  destruct (is_nil lost); apply IH in H; [done|]. by etransitivity; [|etransitivity; [apply lost_kept|exact H]].
Qed.

Lemma requeue_probe_kept c p : path_kept c (requeue_for_probe c p).
Proof. unfold requeue_for_probe. cbv zeta. by destruct (_ && _). Qed.

Lemma foldl_kept {A} (f : Conn E → A → Conn E) : (∀ c x, path_kept c (f c x)) → ∀ l c, path_kept c (foldl f c l).
Proof. intros Hf l. induction l as [|x l IH]; intros c; cbn; [done|]. by etransitivity; [apply Hf|]. Qed.

Lemma probes_kept c sp : path_kept c (send_pto_probes c sp).
Proof.
  unfold send_pto_probes. cbv zeta. set (c1 := if negb (space_has_new_data c sp) then _ else c).
  assert (path_kept c c1) as H1 by (unfold c1; destruct (negb _); [apply foldl_kept, requeue_probe_kept|done]). clearbody c1.
  set (c2 := foldl _ c1 all_spaces). assert (path_kept c1 c2) as H2.
  { apply (foldl_kept (λ c other, probe_other c sp other)). intros d x. unfold probe_other. destruct (_ || _); [done|].
    apply foldl_kept, requeue_probe_kept. }
  clearbody c2. etransitivity; [exact H1|]. etransitivity; [exact H2|]. by destruct (_ && _).
Qed.

Lemma timeout_loss_kept c now c' : timeout_loss c now = Some c' → path_kept c c'.
Proof.
  unfold timeout_loss, detect_lost_on_timer. cbv zeta. intros H. destruct (detect_rounds _ _ _) as [c1|] eqn:Ed; [|done].
  apply detect_rounds_kept in Ed. cbn [mbind option_bind] in H. destruct (on_loss_detection_timeout _ _) as [l act].
  assert (path_kept c c1) as H1 by (by etransitivity; [|exact Ed]).
  destruct act as [[sp|sp]|]; injection H as <-; [done| |done]. etransitivity; [exact H1|]. by etransitivity; [|apply probes_kept].
Qed.

Lemma abandon_inv a c m sent recv : migration c = Some m → amp_inv a c sent recv →
  amp_inv a (abandon_path_migration c) sent recv.
Proof.
  intros Hm Hi. unfold abandon_path_migration. rewrite Hm. destruct Hi as [H1 H2 H3 H4 H5]. destruct (H4 m Hm) as [Hpa Hpr].
  split; cbn; try done. intros Hx. apply Hpr. congruence.
Qed.

Lemma timeout_migration_inv a c now sent recv : amp_inv a c sent recv → amp_inv a (timeout_migration c now) sent recv.
Proof.
  intros Hi. unfold timeout_migration. destruct (migration c) as [m|] eqn:Em; [|done].
  destruct (_ <=? _); [by eapply abandon_inv|]. destruct (_ && _); [|done]. destruct Hi as [H1 H2 H3 H4 H5].
  split; cbn; try done.
  - intros m' [= <-]. cbn. by apply H4.
  - intros Hp. destruct (H5 Hp). congruence.
Qed.

Lemma timeout_inv a c now c' sent recv : on_timeout c now = Some c' → amp_inv a c sent recv → amp_inv a c' sent recv.
Proof.
  intros H Hi. unfold on_timeout in H. cbv zeta in H. set (c1 := timeout_ack_delay c now) in *.
  assert (path_kept c c1) as H1 by (unfold c1, timeout_ack_delay; by repeat case_match). clearbody c1.
  destruct (timeout_loss c1 now) as [c2|] eqn:Et; [|done]. apply timeout_loss_kept in Et. cbn [mbind option_bind] in H.
  injection H as <-. set (c3 := timeout_idle c2 now).
  assert (path_kept c2 c3) as H3 by (unfold c3, timeout_idle; by destruct (_ && _)). clearbody c3.
  assert (amp_inv a c3 sent recv) as Hi3 by (eapply amp_kept; [|exact Hi]; etransitivity; [exact H1|]; by etransitivity; [exact Et|]).
  apply (amp_kept a (timeout_migration c3 now)); [unfold timeout_close; by repeat case_match|]. by apply timeout_migration_inv.
Qed.

(** A whole datagram. *)
Lemma rel_ends c c' : path_rel c c' → ends c' = ends c.
Proof. by intros [(? & _)|(? & _)]. Qed.

Lemma long_steps_rel c c' : rtc long_step c c' → path_rel c c'.
Proof.
  induction 1 as [|x y z Hs _ IH]; [done|]. etransitivity; [|exact IH]. destruct Hs as [? ? ? ? ? ? Hf]. by eapply long_rel.
Qed.

Lemma delivered_inv a c from ecn n c' sent recv : delivered c from ecn n c' → amp_inv a c sent recv → 0 ≤ n →
  let recv' := recv + (if decide (from = a) then n else 0) in 3 * recv' < 2 ^ 64 - 1 → amp_inv a c' sent recv'.
Proof.
  intros Hd Hi Hn recv' Hr. destruct (receive_inv a c from ecn n sent recv Hi Hn Hr) as (Hi1 & Hne & Hp).
  destruct (receive_ends c from ecn n) as (_ & E2 & E3 & _). cbv zeta in E2, E3. fold recv' in Hi1, Hp.
  set (c1 := receive_from c from ecn n) in *.
  assert (∀ d, amp_inv a d sent recv' → amp_inv a (receive_done d) sent recv') as Hdone.
  { intros d [G1 G2 G3 G4 G5]. by split. }
  destruct Hd as [c2 Hl|c2 pn_ payload rnd now c3 r Hl Hs]; apply Hdone; apply long_steps_rel in Hl; fold c1 in Hl; clearbody c1.
  - by eapply amp_rel.
  - apply short_rel in Hs as (d1 & d2 & R1 & R2 & R3). eapply amp_kept; [exact R3|].
    assert (path_rel c1 d1) as R by (by etransitivity; [exact Hl|]). pose proof (rel_ends _ _ R) as He. unfold ends in He.
    injection He as _ He2 He3 He4. eapply (migrate_inv a d1 d2 sent recv' from); [done|by eapply (amp_rel a c1)|..]; try congruence.
    intros Hx. rewrite He4, E3. by apply Hp.
Qed.

Lemma life_inv a s sent recv : server_life a s sent recv → 3 * recv < 2 ^ 64 - 1 → amp_inv a (conn s) sent recv.
Proof.
  induction 1 as [s H1 H2 H3 H4|s sent recv from ecn n c Hl IH Hn Hd|s sent recv now s' dg Hl IH Hp
    |s sent recv now c Hl IH Ht|s sent recv Hl IH Hne|s sent recv s' Hl IH Hk]; intros Hr.
  - split; try done; [congruence|intros m; congruence].
  - eapply delivered_inv; [done| |done|done]. apply IH. destruct (decide _); lia.
  - eapply popped_inv; [by eapply pop_popped| |done]. auto.
  - eapply timeout_inv; eauto.
  - eapply amp_rel; [exact Hne| |by apply IH]. right. split; [done|]. split; [done|by left].
  - eapply amp_kept; eauto.
Qed.

End conn.

(** * An example *)

(** A server that has 3000 bytes of CRYPTO to send hears 400 bytes from [Runs.home]. *)
Definition ex_waiting : Sender unit unit :=
  let e := Fixture.endpoint (λ l, bool_decide (l = Level.Initial)) in
  Fixture.sender Server path_default (set_buf e Level.Initial (enqueue_outbound crypto_buf_new (replicate 3000 1))) None (datagrams_new None None).

Definition ex_reached : Sender unit unit := ex_waiting <| conn := receive_done (receive_from (conn ex_waiting) Runs.home NotEct 400) |>.

#[local] Abbreviation ex_life := (server_life Fixture.seal Fixture.mask Fixture.same_key Fixture.same_key Fixture.draw Fixture.reset_token
  Runs.no_tls Runs.home).

Lemma ex_reached_life : ex_life ex_reached 0 400.
Proof.
  apply (life_recv _ _ _ _ _ _ _ Runs.home ex_waiting 0 0 Runs.home NotEct 400); [|lia|].
  - apply life_start; reflexivity.
  - apply delivered_long, rtc_refl.
Qed.

(** The first datagram leaves, the second is held back. *)
Definition ex_pops : option (Sender unit unit * bytes * (Sender unit unit * bytes)) :=
  '(s1, d1) ← Runs.pop ex_reached 0; r ← Runs.pop s1 0; Some (s1, d1, r).

Definition ex_lengths (r : option (Sender unit unit * bytes * (Sender unit unit * bytes))) : option (Z * Z * bool * option SocketAddr) :=
  match r with
  | Some (s1, d1, (_, d2)) => Some (zlen d1, zlen d2, validated (active_path (conn s1)), peer_addr (conn s1))
  | None => None
  end.

Lemma ex_twice_life s1 d1 s2 d2 : ex_pops = Some (s1, d1, (s2, d2)) → validated (active_path (conn s1)) = false →
  peer_addr (conn s1) = Some Runs.home → ex_life s2 (zlen d1 + zlen d2) 400.
Proof.
  unfold ex_pops. destruct (Runs.pop ex_reached 0) as [[s d]|] eqn:E1; [|discriminate]. cbn [mbind option_bind].
  destruct (Runs.pop s 0) as [[s' d']|] eqn:E2; [|discriminate]. cbn [mbind option_bind].
  intros H Hv Hp. apply (inj Some) in H. apply pair_equal_spec in H as [H1 H2]. apply pair_equal_spec in H1 as [-> ->].
  apply pair_equal_spec in H2 as [-> ->].
  assert (counted Runs.home (conn s1) (zlen d2) = zlen d2) as C2 by (unfold counted; rewrite Hv, Hp; reflexivity).
  assert (∀ n, counted Runs.home (conn ex_reached) n = n) as C1 by (intros n; reflexivity).
  rewrite <- C2. rewrite <- (C1 (zlen d1)), <- (Z.add_0_l (counted _ (conn ex_reached) _)).
  exact (life_pop _ _ _ _ _ _ _ _ _ _ _ _ _ _ (life_pop _ _ _ _ _ _ _ _ _ _ _ _ _ _ ex_reached_life E1) E2).
Qed.

