(* ===== verification/Uint.v ===== *)
(** Fixed-size big integers ([src/bignum/uint.rs], [src/bignum/mul.rs]).  A [Uint<LIMBS>]
    is its list of [LIMBS] little-endian 64-bit limbs; [uval] is the number it stands
    for.  A loop [while i < LIMBS] over limbs is a recursion over the lists; [u128]
    intermediates that cannot overflow are plain integers, the others wrap. *)

From S2P Require Import Prelude Ct.

Definition LIMB_BITS : Z := 64.

(** * Limbs *)

Definition adc (a b carry : Z) : Z * Z :=
  let ret := a + b + carry in (as_u64 ret, as_u64 (Z.shiftr ret LIMB_BITS)).

Definition sbb (a b borrow : Z) : Z * Z :=
  let ret := wsub 128 a (b + borrow) in
  (as_u64 ret, Z.land (as_u64 (Z.shiftr ret LIMB_BITS)) 1).

Definition mac (a b c carry : Z) : Z * Z :=
  let ret := a + b * c + carry in (as_u64 ret, as_u64 (Z.shiftr ret 64)).

Definition mulhi_128_by_64 (a b : Z) : Z :=
  let lo := as_u64 a * b in
  let hi := Z.shiftr a 64 * b in
  as_u64 (Z.shiftr (hi + Z.shiftr lo 64) 64).

(** The body of the loop over [[limb >> 32, limb & 0xffff_ffff]]. *)
Definition mod_small_step (c p rem chunk : Z) : Z :=
  let v := Z.lor (wshl 64 rem 32) chunk in
  let low := wmul 128 c v in
  mulhi_128_by_64 low p.

Definition mod_small_limbs (limbs : list Z) (p : Z) : Z :=
  let c := (2 ^ 128 - 1) / p + 1 in
  fold_left (λ rem limb,
    mod_small_step c p (mod_small_step c p rem (Z.shiftr limb 32)) (Z.land limb 0xffff_ffff))
    (rev limbs) 0.

Definition recip_u32 (p : Z) : Z := (2 ^ 64 - 1) / p + 1.

Definition mod_u32_with_recip (v p c : Z) : Z := as_u64 (Z.shiftr (wmul 64 c v * p) 64).

(** * Uint *)

Abbreviation Uint := (list Z).

Definition uint_zero (LIMBS : nat) : Uint := replicate LIMBS 0.
Definition uint_from_u64 (LIMBS : nat) (v : Z) : Uint := <[0%nat := v]> (replicate LIMBS 0).

Fixpoint uint_adc (self rhs : Uint) (carry : Z) : Uint * Z :=
  match self, rhs with
  | a :: self, b :: rhs =>
      let '(s, co) := adc a b carry in
      let '(limbs, c) := uint_adc self rhs co in (s :: limbs, c)
  | _, _ => ([], carry)
  end.

Fixpoint uint_sbb (self rhs : Uint) (borrow : Z) : Uint * Z :=
  match self, rhs with
  | a :: self, b :: rhs =>
      let '(d, bo) := sbb a b borrow in
      let '(limbs, b') := uint_sbb self rhs bo in (d :: limbs, b')
  | _, _ => ([], borrow)
  end.

Definition uint_wrapping_add (self rhs : Uint) : Uint := (uint_adc self rhs 0).1.
Definition uint_wrapping_sub (self rhs : Uint) : Uint := (uint_sbb self rhs 0).1.

#[export] Instance uint_ct_eq : ConstantTimeEq Uint := ct_eq_slice (ct_eq_uint 64).
Definition uint_is_zero (self : Uint) : Choice := uint_ct_eq self (uint_zero (length self)).
Definition uint_is_odd (self : Uint) : Choice :=
  choice_from (as_u8 (Z.land (default 0 (head self)) 1)).

Definition uint_ct_gt (self other : Uint) : Choice :=
  let '(_, borrow) := uint_sbb other self 0 in choice_from (as_u8 borrow).
Definition uint_ct_lt (self other : Uint) : Choice := uint_ct_gt other self.

(** [b ^ (mask & (a ^ b))], limb by limb. *)
Definition uint_conditional_select (a b : Uint) (choice : Choice) : Uint :=
  let mask := limb_mask choice in
  zip_with (λ x y, Z.lxor y (Z.land mask (Z.lxor x y))) a b.

(** [while i > 0 { i -= 1; .. }]: the limbs from the top, with the carry coming in. *)
Fixpoint shr1_loop (limbs_rev : list Z) (carry : Z) : list Z :=
  match limbs_rev with
  | [] => []
  | l :: limbs_rev =>
      let next_carry := Z.land l 1 in
      Z.lor (Z.shiftr l 1) (wshl 64 carry (LIMB_BITS - 1)) :: shr1_loop limbs_rev next_carry
  end.
Definition uint_shr1 (self : Uint) : Uint := rev (shr1_loop (rev self) 0).

(** The loop of [bit_len] from the top limb; [i] limbs are below it. *)
Fixpoint bit_len_loop (limbs_rev : list Z) : Z :=
  match limbs_rev with
  | [] => 0
  | l :: below =>
      if negb (l =? 0) then zlen below * LIMB_BITS + (Z.log2 l + 1) else bit_len_loop below
  end.
Definition uint_bit_len (self : Uint) : Z := bit_len_loop (rev self).

(** [shifted.limbs[0] |= b] *)
Definition or_low (l : Uint) (b : Z) : Uint :=
  match l with x :: l => Z.lor x b :: l | [] => [] end.

(** One step of the long division: [r = (r << 1) | bit], then the conditional
    subtraction.  Returns the new remainder and the quotient bit. *)
Definition reduce_step (modulus r : Uint) (b : Z) : Uint * Choice :=
  let '(shifted, carry) := uint_adc r r 0 in
  let shifted := or_low shifted b in
  let '(diff, borrow) := uint_sbb shifted modulus 0 in
  let ge := choice_from (as_u8 (Z.lor carry (Z.lxor borrow 1))) in
  (uint_conditional_select diff shifted ge, ge).

(** The bits of [self] in the order the two nested loops visit them. *)
Definition bits_from_top (self : Uint) : list Z :=
  concat ((λ l, (λ bit, Z.land (Z.shiftr l (Z.of_nat bit)) 1) <$> rev (seq 0 64)) <$> rev self).

(** [None]: the assertion on a zero modulus failed. *)
Definition uint_reduce (self modulus : Uint) : option Uint :=
  if bool_from (uint_is_zero modulus) then None
  else Some (fold_left (λ r b, (reduce_step modulus r b).1) (bits_from_top self)
               (uint_zero (length self))).

Definition divrem_step (divisor : Uint) (qr : Uint * Uint) (b : Z) : Uint * Uint :=
  let '(q, r) := qr in
  let '(q_shifted, _) := uint_adc q q 0 in
  let '(r, ge) := reduce_step divisor r b in
  (or_low q_shifted (unwrap_u8 ge), r).

Definition uint_divrem (self divisor : Uint) : option (Uint * Uint) :=
  if bool_from (uint_is_zero divisor) then None
  else Some (fold_left (divrem_step divisor) (bits_from_top self)
               (uint_zero (length self), uint_zero (length self))).

(** ** Multiplication *)

(** [while j < LIMBS]: row [i] of the product, from column [j] on; [n] columns left. *)
Fixpoint mul_row (n : nat) (LIMBS : nat) (a b : Uint) (i j : nat) (lo hi : Uint) (carry : Z)
  : Uint * Uint * Z :=
  match n with
  | O => (lo, hi, carry)
  | S n =>
      let p := (i + j)%nat in
      if (p <? LIMBS)%nat then
        let '(v, c) := mac (lo !!! p) (a !!! i) (b !!! j) carry in
        mul_row n LIMBS a b i (S j) (<[p := v]> lo) hi c
      else
        let idx := (p - LIMBS)%nat in
        let '(v, c) := mac (hi !!! idx) (a !!! i) (b !!! j) carry in
        mul_row n LIMBS a b i (S j) lo (<[idx := v]> hi) c
  end.

(** [while i < LIMBS], [n] rows left. *)
Fixpoint mul_rows (n : nat) (LIMBS : nat) (a b : Uint) (i : nat) (lo hi : Uint) : Uint * Uint :=
  match n with
  | O => (lo, hi)
  | S n =>
      let '(lo, hi, carry) := mul_row LIMBS LIMBS a b i 0 lo hi 0 in
      mul_rows n LIMBS a b (S i) lo (<[i := carry]> hi)
  end.

Definition mul_wide (self rhs : Uint) : Uint * Uint :=
  let LIMBS := length self in
  mul_rows LIMBS LIMBS self rhs 0 (uint_zero LIMBS) (uint_zero LIMBS).
Definition uint_wrapping_mul (self rhs : Uint) : Uint := (mul_wide self rhs).1.
Definition square_wide (self : Uint) : Uint * Uint := mul_wide self self.

(** ** Bytes *)

(** [None]: the input is too long. *)
Definition uint_from_be_bytes (LIMBS : nat) (b : bytes) : option Uint :=
  if (length b <=? LIMBS * 8)%nat then
    Some (fold_left (λ limbs j,
      let k := (j / 8)%nat in
      <[k := Z.lor (limbs !!! k)
               (wshl 64 (b !!! (length b - 1 - j)%nat) (8 * Z.of_nat (j mod 8)))]> limbs)
      (seq 0 (length b)) (replicate LIMBS 0))
  else None.

(** The whole buffer, which has [LIMBS * 8] bytes. *)
Definition uint_write_be_bytes (self : Uint) : bytes :=
  concat ((λ i, be_bytes 8 (self !!! (length self - 1 - i)%nat)) <$> seq 0 (length self)).

(** ** Shifts *)

Definition uint_shr_bits (self : Uint) (shift : Z) : Uint :=
  let limb_shift := Z.to_nat (shift / LIMB_BITS) in
  let bit_shift := shift mod LIMB_BITS in
  (λ i, let src := (i + limb_shift)%nat in
        if (src <? length self)%nat then
          let val := Z.shiftr (self !!! src) bit_shift in
          if (0 <? bit_shift) && (S src <? length self)%nat
          then Z.lor val (wshl 64 (self !!! S src) (LIMB_BITS - bit_shift))
          else val
        else 0) <$> seq 0 (length self).

(** * Values *)

Abbreviation limbs_ok := (Forall (in_width 64)).

(** The number a limb list stands for. *)
Fixpoint uval (l : list Z) : Z :=
  match l with [] => 0 | x :: l => x + 2 ^ 64 * uval l end.

(** [2^(64 n)] *)
Definition limb_pow (n : nat) : Z := 2 ^ (64 * Z.of_nat n).

Lemma limb_pow_S n : limb_pow (S n) = 2 ^ 64 * limb_pow n.
Proof. unfold limb_pow. rewrite <- Z.pow_add_r by lia. f_equal. lia. Qed.
Lemma limb_pow_pos n : 0 < limb_pow n.
Proof. apply Z.pow_pos_nonneg; lia. Qed.
Lemma limb_pow_add n m : limb_pow (n + m) = limb_pow n * limb_pow m.
Proof. unfold limb_pow. rewrite <- Z.pow_add_r by lia. f_equal. lia. Qed.

Lemma uval_range l : limbs_ok l → 0 ≤ uval l < limb_pow (length l).
Proof.
  induction 1 as [|x l Hx Hl IH]; [done|]. cbn [uval length]. rewrite limb_pow_S.
  unfold in_width in Hx. lia.
Qed.

Lemma uval_app l k : uval (l ++ k) = uval l + limb_pow (length l) * uval k.
Proof.
  induction l as [|x l IH]; cbn [uval app length]; [change (limb_pow 0) with 1; lia|].
  rewrite IH, limb_pow_S. lia.
Qed.

Lemma uval_zero n : uval (uint_zero n) = 0.
Proof. unfold uint_zero. induction n as [|n IH]; simpl; [done|]. by rewrite IH. Qed.

Lemma zero_limbs_ok n : limbs_ok (uint_zero n).
Proof. apply Forall_replicate. done. Qed.

Lemma uval_zero_inv l : limbs_ok l → uval l = 0 → l = uint_zero (length l).
Proof.
  induction 1 as [|x l Hx Hl IH]; [done|]. cbn [uval]. intros H.
  pose proof (uval_range l Hl). unfold in_width in Hx. unfold uint_zero in *. simpl.
  f_equal; [lia|]. apply IH. lia.
Qed.

(** Writing limb [p]. *)
Lemma uval_insert l : ∀ p v, (p < length l)%nat →
  uval (<[p := v]> l) = uval l + (v - l !!! p) * limb_pow p.
Proof.
  induction l as [|x l IH]; intros p v Hp; [simpl in Hp; lia|].
  destruct p as [|p].
  - change (<[0%nat := v]> (x :: l)) with (v :: l). change ((x :: l) !!! 0%nat) with x.
    cbn [uval]. change (limb_pow 0) with 1. lia.
  - change (<[S p := v]> (x :: l)) with (x :: <[p := v]> l).
    change ((x :: l) !!! S p) with (l !!! p). cbn [uval length] in *.
    rewrite limb_pow_S, IH by lia. lia.
Qed.

Lemma lookup_total_ok l i : limbs_ok l → (i < length l)%nat → u64 (l !!! i).
Proof. intros Hl Hi. apply (Forall_lookup_total_1 _ l i Hl Hi). Qed.

(** ** Carry chains *)

Lemma carry_split x : 0 ≤ x < 2 ^ 128 →
  as_u64 x + 2 ^ 64 * as_u64 (Z.shiftr x 64) = x ∧ u64 (as_u64 x) ∧ u64 (as_u64 (Z.shiftr x 64)).
Proof.
  intros Hx. rewrite Z.shiftr_div_pow2 by lia.
  assert (0 ≤ x / 2 ^ 64 < 2 ^ 64) as Hd.
  { split; [apply Z.div_pos; lia|]. apply Z.div_lt_upper_bound; lia. }
  rewrite (wrap_small 64 (x / 2 ^ 64)) by done.
  split_and!; [|apply wrap_range; lia|done].
  unfold wrap. pose proof (Z.div_mod x (2 ^ 64) ltac:(lia)). lia.
Qed.

Lemma adc_spec a b c : u64 a → u64 b → 0 ≤ c ≤ 1 → ∃ s co, adc a b c = (s, co)
  ∧ u64 s ∧ 0 ≤ co ≤ 1 ∧ s + 2 ^ 64 * co = a + b + c.
Proof.
  unfold in_width. intros Ha Hb Hc. eexists _, _. split; [reflexivity|].
  destruct (carry_split (a + b + c)) as (H & Hs & Hco); [lia|].
  unfold in_width, LIMB_BITS in *. split_and!; try lia.
Qed.

Lemma mac_spec a b c d : u64 a → u64 b → u64 c → u64 d → ∃ v co, mac a b c d = (v, co)
  ∧ u64 v ∧ u64 co ∧ v + 2 ^ 64 * co = a + b * c + d.
Proof.
  unfold in_width. intros Ha Hb Hc Hd. eexists _, _. split; [reflexivity|].
  destruct (carry_split (a + b * c + d)) as (H & Hs & Hco); [nia|]. done.
Qed.

Lemma sbb_spec a b c : u64 a → u64 b → 0 ≤ c ≤ 1 → ∃ d bo, sbb a b c = (d, bo)
  ∧ u64 d ∧ 0 ≤ bo ≤ 1 ∧ d - 2 ^ 64 * bo = a - b - c.
Proof.
  unfold in_width. intros Ha Hb Hc. unfold sbb. eexists _, _. split; [reflexivity|].
  destruct (Z.le_gt_cases 0 (a - (b + c))) as [Hge|Hlt].
  - unfold wsub. rewrite (wrap_small 128) by (unfold in_width; lia).
    destruct (carry_split (a - (b + c))) as (H & Hs & Hco); [lia|].
    assert (as_u64 (Z.shiftr (a - (b + c)) LIMB_BITS) = 0) as ->.
    { unfold LIMB_BITS, in_width in *. lia. }
    unfold LIMB_BITS, in_width in *. change (Z.land 0 1) with 0. lia.
  - assert (wsub 128 a (b + c) = 2 ^ 128 + (a - (b + c))) as ->.
    { unfold wsub, wrap. symmetry. apply (Z.mod_unique _ _ (-1)); lia. }
    destruct (carry_split (2 ^ 128 + (a - (b + c)))) as (H & Hs & Hco); [lia|].
    assert (as_u64 (Z.shiftr (2 ^ 128 + (a - (b + c))) LIMB_BITS) = 2 ^ 64 - 1) as ->.
    { unfold LIMB_BITS, in_width in *. lia. }
    change (Z.land (2 ^ 64 - 1) 1) with 1. unfold in_width in *. lia.
Qed.

Lemma uint_adc_spec a : ∀ b c, limbs_ok a → limbs_ok b → length a = length b → 0 ≤ c ≤ 1 →
  ∃ s co, uint_adc a b c = (s, co) ∧ limbs_ok s ∧ length s = length a ∧ 0 ≤ co ≤ 1
    ∧ uval s + limb_pow (length a) * co = uval a + uval b + c.
Proof.
  induction a as [|x a IH]; intros [|y b] c Ha Hb Hl Hc; try done.
  { exists [], c. cbn [length uval]. change (limb_pow 0) with 1. split_and!; done || lia. }
  apply Forall_cons in Ha as [Hx Ha]. apply Forall_cons in Hb as [Hy Hb]. injection Hl as Hl.
  cbn [uint_adc]. destruct (adc_spec x y c Hx Hy Hc) as (s & co & -> & Hs & Hco & Heq).
  destruct (IH b co Ha Hb Hl Hco) as (l & co' & -> & Hok & Hlen & Hco' & Heq').
  eexists _, _. split; [reflexivity|]. split_and!; [by constructor|simpl; lia|lia..|].
  cbn [uval length]. rewrite limb_pow_S. lia.
Qed.

Lemma uint_sbb_spec a : ∀ b c, limbs_ok a → limbs_ok b → length a = length b → 0 ≤ c ≤ 1 →
  ∃ d bo, uint_sbb a b c = (d, bo) ∧ limbs_ok d ∧ length d = length a ∧ 0 ≤ bo ≤ 1
    ∧ uval d - limb_pow (length a) * bo = uval a - uval b - c.
Proof.
  induction a as [|x a IH]; intros [|y b] c Ha Hb Hl Hc; try done.
  { exists [], c. cbn [length uval]. change (limb_pow 0) with 1. split_and!; done || lia. }
  apply Forall_cons in Ha as [Hx Ha]. apply Forall_cons in Hb as [Hy Hb]. injection Hl as Hl.
  cbn [uint_sbb]. destruct (sbb_spec x y c Hx Hy Hc) as (s & co & -> & Hs & Hco & Heq).
  destruct (IH b co Ha Hb Hl Hco) as (l & co' & -> & Hok & Hlen & Hco' & Heq').
  eexists _, _. split; [reflexivity|]. split_and!; [by constructor|simpl; lia|lia..|].
  cbn [uval length]. rewrite limb_pow_S. lia.
Qed.

Lemma uint_select_spec a b (c : bool) : limbs_ok a → limbs_ok b → length a = length b →
  uint_conditional_select a b (choice_of c) = if c then a else b.
Proof.
  unfold uint_conditional_select, limb_mask. intros Ha. revert b.
  induction Ha as [|x a Hx Ha IH]; intros [|y b] Hb Hl; try done; [by destruct c|].
  apply Forall_cons in Hb as [Hy Hb]. injection Hl as Hl. cbn [zip_with].
  rewrite IH by done. cbn [unwrap_u8 choice_of]. rewrite mask_select by done. by destruct c.
Qed.

Lemma uint_is_zero_spec m : limbs_ok m → bool_from (uint_is_zero m) = (uval m =? 0).
Proof.
  intros Hm. unfold uint_is_zero, uint_ct_eq.
  pose proof (ct_eq_uint_laws 64 ltac:(lia)) as HL.
  rewrite (ct_eq_slice_spec (ct_eq_uint 64) (in_width 64)) by (done || apply zero_limbs_ok).
  rewrite bool_from_choice_of. case_bool_decide as Heq.
  - rewrite Heq, uval_zero. done.
  - symmetry. apply Z.eqb_neq. intros H0. by apply Heq, uval_zero_inv.
Qed.

Lemma choice_from_bit b : 0 ≤ b ≤ 1 → choice_from (as_u8 b) = choice_of (b =? 1).
Proof. intros Hb. by assert (b = 0 ∨ b = 1) as [-> | ->] by lia. Qed.

Lemma uint_ct_gt_spec a b : limbs_ok a → limbs_ok b → length a = length b →
  uint_ct_gt a b = choice_of (uval b <? uval a).
Proof.
  intros Ha Hb Hl. unfold uint_ct_gt.
  destruct (uint_sbb_spec b a 0 Hb Ha ltac:(done) ltac:(lia)) as (d & bo & -> & Hd & Hld & Hbo & Heq).
  rewrite choice_from_bit by done. f_equal.
  pose proof (uval_range a Ha). pose proof (uval_range b Hb). pose proof (uval_range d Hd) as Hr.
  rewrite Hld in Hr. assert (bo = 0 ∨ bo = 1) as [-> | ->] by lia.
  - symmetry. apply Z.ltb_ge. lia.
  - symmetry. apply Z.ltb_lt. lia.
Qed.

(** ** Long division *)

Lemma or_low_spec l b : limbs_ok l → uval l mod 2 = 0 → 0 ≤ b ≤ 1 → l ≠ [] →
  uval (or_low l b) = uval l + b ∧ limbs_ok (or_low l b) ∧ length (or_low l b) = length l.
Proof.
  intros Hl He Hb Hne. destruct l as [|x l]; [done|]. cbn [or_low uval length] in *.
  apply Forall_cons in Hl as [Hx Hl].
  assert (x mod 2 = 0) as Hx2.
  { rewrite <- He. replace (2 ^ 64 * uval l) with (2 ^ 63 * uval l * 2) by lia.
    by rewrite Z_mod_plus_full. }
  assert (Z.lor x b = x + b) as Hor.
  { assert (x = x / 2 * 2 ^ 1) as Hd by (pose proof (Z.div_mod x 2); lia).
    rewrite Hd at 1. rewrite <- Z.shiftl_mul_pow2 by lia.
    rewrite lor_shiftl_add by (unfold in_width; lia). lia. }
  split_and!; [lia| |done]. constructor; [|done]. rewrite Hor. unfold in_width in *.
  assert (x ≠ 2 ^ 64 - 1); [|lia]. intros ->. done.
Qed.

Section division.
Context (m : Uint) (Hm : limbs_ok m) (Hpos : 0 < uval m).

Lemma reduce_step_spec r b : limbs_ok r → length r = length m → uval r < uval m → 0 ≤ b ≤ 1 →
  ∃ r', reduce_step m r b = (r', choice_of (uval m <=? 2 * uval r + b))
    ∧ limbs_ok r' ∧ length r' = length m
    ∧ uval r' = 2 * uval r + b - (if uval m <=? 2 * uval r + b then uval m else 0).
Proof using Hm Hpos.
  intros Hr Hl Hlt Hb. unfold reduce_step.
  destruct (uint_adc_spec r r 0 Hr Hr eq_refl ltac:(lia)) as (s & co & -> & Hs & Hls & Hco & Heq).
  pose proof (uval_range m Hm) as Hmr. pose proof (uval_range r Hr) as Hrr.
  assert (m ≠ []) as Hne by (intros ->; cbn in Hpos; lia).
  assert (s ≠ []) as Hsne by (intros ->; destruct m; [done|cbn in *; lia]).
  assert (uval s mod 2 = 0) as Heven.
  { replace (uval s) with ((uval r - 2 ^ 63 * limb_pow (length r - 1) * co) * 2).
    - apply Z_mod_mult.
    - assert (limb_pow (length r) = 2 ^ 64 * limb_pow (length r - 1)) as Hp.
      { rewrite <- limb_pow_S. f_equal. destruct r; [destruct m; done|simpl; lia]. } nia. }
  destruct (or_low_spec s b Hs Heven Hb Hsne) as (Hov & Hok & Hlo).
  destruct (uint_sbb_spec (or_low s b) m 0 Hok Hm ltac:(congruence) ltac:(lia))
    as (d & bo & -> & Hd & Hld & Hbo & Heq2).
  pose proof (uval_range d Hd) as Hdr. pose proof (uval_range _ Hok) as Hor.
  rewrite Hld in Hdr. rewrite Hlo, Hls, Hl in *.
  assert (choice_from (as_u8 (Z.lor co (Z.lxor bo 1))) = choice_of (uval m <=? 2 * uval r + b)) as ->.
  { assert (co = 0 ∨ co = 1) as [-> | ->] by lia; assert (bo = 0 ∨ bo = 1) as [-> | ->] by lia.
    all: destruct (Z.leb_spec (uval m) (2 * uval r + b)); try reflexivity; exfalso; lia. }
  rewrite uint_select_spec by (done || congruence).
  eexists. split; [reflexivity|].
  destruct (Z.leb_spec (uval m) (2 * uval r + b)) as [Hge|Hle].
  - split_and!; [done|congruence|].
    assert (co = 0 ∨ co = 1) as [-> | ->] by lia; assert (bo = 0 ∨ bo = 1) as [-> | ->] by lia; lia.
  - split_and!; [done|congruence|].
    assert (co = 0) as -> by nia. lia.
Qed.

(** The number whose bits, most significant first, have been consumed. *)
Definition bits_value (acc : Z) (bs : list Z) : Z := fold_left (λ a b, 2 * a + b) bs acc.

Lemma bits_value_ge bs : ∀ acc, 0 ≤ acc → Forall (λ b, 0 ≤ b ≤ 1) bs → acc ≤ bits_value acc bs.
Proof.
  unfold bits_value. induction bs as [|b bs IH]; intros acc Ha Hb; simpl; [lia|].
  apply Forall_cons in Hb as [Hb Hbs]. specialize (IH (2 * acc + b) ltac:(lia) Hbs). lia.
Qed.

Lemma div_step v b : 0 ≤ v → 0 ≤ b ≤ 1 →
  (2 * v + b) / uval m = 2 * (v / uval m) + (if uval m <=? 2 * (v mod uval m) + b then 1 else 0)
  ∧ (2 * v + b) mod uval m = 2 * (v mod uval m) + b
      - (if uval m <=? 2 * (v mod uval m) + b then uval m else 0).
Proof using Hpos.
  intros Hv Hb. pose proof (Z.div_mod v (uval m) ltac:(lia)) as Hd.
  pose proof (Z.mod_pos_bound v (uval m) Hpos) as Hr.
  set (q := v / uval m) in *. set (r := v mod uval m) in *.
  destruct (Z.leb_spec (uval m) (2 * r + b)) as [Hge|Hlt].
  - split.
    + symmetry. apply (Z.div_unique_pos _ _ _ (2 * r + b - uval m)); lia.
    + symmetry. apply (Z.mod_unique_pos _ _ (2 * q + 1)); lia.
  - split.
    + symmetry. apply (Z.div_unique_pos _ _ _ (2 * r + b)); lia.
    + symmetry. apply (Z.mod_unique_pos _ _ (2 * q)); lia.
Qed.

(** Both loops, from any prefix of the dividend. *)
Lemma divrem_fold bs : ∀ q r v, limbs_ok q → length q = length m → limbs_ok r → length r = length m →
  0 ≤ v → uval r = v mod uval m → uval q = v / uval m → Forall (λ b, 0 ≤ b ≤ 1) bs →
  bits_value v bs < limb_pow (length m) →
  ∃ q' r', fold_left (divrem_step m) bs (q, r) = (q', r')
    ∧ fold_left (λ r b, (reduce_step m r b).1) bs r = r'
    ∧ limbs_ok q' ∧ limbs_ok r' ∧ length r' = length m ∧ length q' = length m
    ∧ uval r' = bits_value v bs mod uval m ∧ uval q' = bits_value v bs / uval m.
Proof using Hm Hpos.
  induction bs as [|b bs IH]; intros q r v Hq Hlq Hr Hlr Hv Hvr Hvq Hbs Hlt.
  { exists q, r. done. }
  apply Forall_cons in Hbs as [Hb Hbs]. cbn [fold_left]. unfold divrem_step at 2.
  pose proof (Z.mod_pos_bound v (uval m) Hpos) as Hmod.
  destruct (uint_adc_spec q q 0 Hq Hq eq_refl ltac:(lia)) as (qs & co & -> & Hqs & Hlqs & Hco & Heq).
  destruct (reduce_step_spec r b Hr Hlr ltac:(lia) Hb) as (r' & -> & Hr' & Hlr' & Hvr').
  rewrite Hvr in Hvr'. destruct (div_step v b Hv Hb) as [Hdiv Hmod'].
  change (bits_value v (b :: bs)) with (bits_value (2 * v + b) bs) in *.
  pose proof (bits_value_ge bs (2 * v + b) ltac:(lia) Hbs) as Hge.
  assert (uval m ≠ 0) by lia.
  assert ((2 * v + b) / uval m ≤ 2 * v + b) as Hqle by (apply Z.div_le_upper_bound; nia).
  pose proof (uval_range qs Hqs) as Hqr. rewrite Hlqs in Hqr. rewrite Hlq in *.
  assert (co = 0) as ->.
  { destruct (uval m <=? 2 * (v mod uval m) + b); nia. }
  assert (qs ≠ []) as Hne.
  { intros ->. destruct m; [cbn in Hpos; lia|]. cbn in Hlqs. lia. }
  assert (0 ≤ unwrap_u8 (choice_of (uval m <=? 2 * uval r + b)) ≤ 1) as Hbit
    by (destruct (uval m <=? 2 * uval r + b); simpl; lia).
  destruct (or_low_spec qs _ Hqs ltac:(replace (uval qs) with (uval q * 2) by lia; apply Z_mod_mult)
    Hbit Hne) as (Hov & Hok & Hlo).
  cbn [fst]. rewrite Hvr in *.
  apply (IH _ _ (2 * v + b)); try done; try lia; try congruence.
  rewrite Hov, Hdiv. destruct (uval m <=? 2 * (v mod uval m) + b); simpl; lia.
Qed.
End division.

Lemma bits_value_app acc l k : bits_value acc (l ++ k) = bits_value (bits_value acc l) k.
Proof. unfold bits_value. apply fold_left_app. Qed.

Lemma land_1 x : Z.land x 1 = x mod 2.
Proof. exact (land_mask x 1 ltac:(lia)). Qed.

(** The low [n] bits of a limb, most significant first. *)
Lemma bits_value_limb l n : ∀ acc, 0 ≤ l →
  bits_value acc ((λ bit, Z.land (Z.shiftr l (Z.of_nat bit)) 1) <$> rev (seq 0 n))
  = acc * 2 ^ Z.of_nat n + l mod 2 ^ Z.of_nat n.
Proof.
  induction n as [|n IH]; intros acc Hl.
  { cbn. rewrite Z.mod_1_r. lia. }
  rewrite seq_S, rev_app_distr, fmap_app, bits_value_app, IH by done.
  cbn. rewrite land_1, Z.shiftr_div_pow2 by lia.
  replace (Z.of_nat (S n)) with (Z.of_nat n + 1) by lia. rewrite Z.pow_add_r by lia.
  rewrite (Z.rem_mul_r l) by lia. change (2 ^ 1) with 2. lia.
Qed.

Lemma bits_from_top_value l : limbs_ok l → bits_value 0 (bits_from_top l) = uval l.
Proof.
  unfold bits_from_top. induction 1 as [|x l Hx Hl IH]; [done|].
  cbn [rev]. rewrite fmap_app, concat_app, bits_value_app, IH. cbn [fmap list_fmap concat].
  rewrite app_nil_r, bits_value_limb by apply Hx. change (Z.of_nat 64) with 64.
  cbn [uval]. rewrite Z.mod_small by exact Hx. lia.
Qed.

Lemma bits_from_top_bits l : Forall (λ b, 0 ≤ b ≤ 1) (bits_from_top l).
Proof.
  unfold bits_from_top. apply Forall_concat, Forall_fmap, Forall_true. intros x.
  apply Forall_fmap, Forall_true. intros bit. cbn. rewrite land_1.
  pose proof (Z.mod_pos_bound (Z.shiftr x (Z.of_nat bit)) 2). lia.
Qed.

(** ** Multiplication *)

(** The first limbs, one more. *)
Lemma uval_take_S l j : (j < length l)%nat →
  uval (take (S j) l) = uval (take j l) + l !!! j * limb_pow j.
Proof.
  intros Hj. rewrite (take_S_r _ _ (l !!! j)) by (by apply list_lookup_lookup_total_lt).
  rewrite uval_app, length_take, Nat.min_l by lia. cbn. lia.
Qed.

Section multiplication.
Context (L : nat) (a b : Uint) (Ha : limbs_ok a) (Hb : limbs_ok b).
Context (Hla : length a = L) (Hlb : length b = L).

Definition halves_ok (lo hi : Uint) : Prop :=
  limbs_ok lo ∧ limbs_ok hi ∧ length lo = L ∧ length hi = L.

Lemma mul_row_spec i n : ∀ j lo hi c, (i < L)%nat → (j + n = L)%nat → halves_ok lo hi → u64 c →
  ∃ lo' hi' c', mul_row n L a b i j lo hi c = (lo', hi', c') ∧ halves_ok lo' hi' ∧ u64 c'
    ∧ (∀ k, (i ≤ k)%nat → hi' !!! k = hi !!! k)
    ∧ uval (lo' ++ hi') + c' * limb_pow (i + L) + a !!! i * uval (take j b) * limb_pow i
      = uval (lo ++ hi) + c * limb_pow (i + j) + a !!! i * uval b * limb_pow i.
Proof using Ha Hb Hla Hlb.
  induction n as [|n IH]; intros j lo hi c Hi Hj (Hlo & Hhi & Hll & Hlh) Hc.
  { exists lo, hi, c. split_and!; try done. rewrite take_ge by lia.
    replace (i + j)%nat with (i + L)%nat by lia. lia. }
  cbn [mul_row]. pose proof (lookup_total_ok a i Ha ltac:(lia)) as Hai.
  pose proof (lookup_total_ok b j Hb ltac:(lia)) as Hbj.
  pose proof (uval_take_S b j ltac:(lia)) as Htk.
  assert (limb_pow (i + j) = limb_pow i * limb_pow j) as Hij by apply limb_pow_add.
  assert (limb_pow (S (i + j)) = 2 ^ 64 * limb_pow (i + j)) as HS by apply limb_pow_S.
  destruct (Nat.ltb_spec (i + j) L) as [Hlt|Hge].
  - destruct (mac_spec (lo !!! (i + j)%nat) (a !!! i) (b !!! j) c) as (v & co & -> & Hv & Hco & Heq);
      try done; [by apply lookup_total_ok; [|lia]|].
    destruct (IH (S j) (<[(i + j)%nat := v]> lo) hi co Hi ltac:(lia)) as
      (lo' & hi' & c' & -> & Hok & Hc' & Hkeep & Hval); [|done|].
    { split_and!; [by apply Forall_insert|done|by rewrite length_insert|done]. }
    exists lo', hi', c'. split_and!; [done..|].
    rewrite Htk, Nat.add_succ_r, !uval_app, length_insert, uval_insert in Hval by lia.
    rewrite HS in Hval. rewrite !uval_app in *. rewrite Hij in *.
    apply (f_equal (λ x, x * (limb_pow i * limb_pow j))) in Heq. lia.
  - destruct (mac_spec (hi !!! (i + j - L)%nat) (a !!! i) (b !!! j) c) as (v & co & -> & Hv & Hco & Heq);
      try done; [by apply lookup_total_ok; [|lia]|].
    destruct (IH (S j) lo (<[(i + j - L)%nat := v]> hi) co Hi ltac:(lia)) as
      (lo' & hi' & c' & -> & Hok & Hc' & Hkeep & Hval); [|done|].
    { split_and!; [done|by apply Forall_insert|done|by rewrite length_insert]. }
    exists lo', hi', c'. split_and!; [done..| |].
    + intros k Hk. rewrite Hkeep by done. apply list_lookup_total_insert_ne. lia.
    + rewrite Htk, Nat.add_succ_r, !uval_app, uval_insert in Hval by lia.
      assert (limb_pow (length lo) * limb_pow (i + j - L) = limb_pow (i + j)) as Hp.
      { rewrite <- limb_pow_add. f_equal. lia. }
      rewrite HS in Hval. rewrite !uval_app in *. rewrite Hij in *.
      apply (f_equal (λ x, x * (limb_pow i * limb_pow j))) in Heq.
      apply (f_equal (λ x, (v - hi !!! (i + j - L)%nat) * x)) in Hp. lia.
Qed.

Lemma mul_rows_spec n : ∀ i lo hi, (i + n = L)%nat → halves_ok lo hi →
  (∀ k, (i ≤ k < L)%nat → hi !!! k = 0) → uval (lo ++ hi) = uval (take i a) * uval b →
  ∃ lo' hi', mul_rows n L a b i lo hi = (lo', hi') ∧ halves_ok lo' hi'
    ∧ uval (lo' ++ hi') = uval a * uval b.
Proof using Ha Hb Hla Hlb.
  induction n as [|n IH]; intros i lo hi Hi Hok Hz Hv.
  { exists lo, hi. split_and!; [done..|]. rewrite Hv, take_ge by lia. done. }
  cbn [mul_rows].
  destruct (mul_row_spec i L 0 lo hi 0 ltac:(lia) ltac:(lia) Hok ltac:(done)) as
    (lo' & hi' & c & -> & (Hlo & Hhi & Hll & Hlh) & Hc & Hkeep & Hval).
  apply IH; [lia| | |].
  - split_and!; [done|by apply Forall_insert|done|by rewrite length_insert].
  - intros k Hk. rewrite list_lookup_total_insert_ne by lia. rewrite Hkeep by lia. apply Hz. lia.
  - rewrite uval_app, uval_insert, (Hkeep i), (Hz i) by lia.
    rewrite uval_take_S by lia. rewrite uval_app in Hval. change (uval (take 0 b)) with 0 in Hval.
    assert (limb_pow (length lo') * limb_pow i = limb_pow (i + L)) as Hp.
    { rewrite <- limb_pow_add. f_equal. lia. }
    apply (f_equal (λ x, c * x)) in Hp. rewrite Hv in Hval. lia.
Qed.
End multiplication.

(** ** Small moduli *)

(** Remainder by a multiplication with the rounded-up reciprocal [c] of [p]
    (Lemire, Kaser and Kurz): exact when [v] is small enough for [W] bits. *)
Lemma recip_remainder W p v : 0 ≤ W → 0 < p → 0 ≤ v → v * p ≤ 2 ^ W →
  let c := (2 ^ W - 1) / p + 1 in
  (c * v) mod 2 ^ W * p / 2 ^ W = v mod p.
Proof.
  intros HW0 Hp Hv Hb c. assert (0 < 2 ^ W) as HW by (apply Z.pow_pos_nonneg; lia).
  set (e := p * c - 2 ^ W).
  assert (0 ≤ e < p) as He.
  { unfold e, c. pose proof (Z.div_mod (2 ^ W - 1) p ltac:(lia)).
    pose proof (Z.mod_pos_bound (2 ^ W - 1) p Hp). lia. }
  pose proof (Z.div_mod v p ltac:(lia)) as Hd. pose proof (Z.mod_pos_bound v p Hp) as Hr.
  set (q := v / p) in *. set (r := v mod p) in *.
  assert (0 ≤ q) as Hq by (apply Z.div_pos; lia).
  assert (p * c = 2 ^ W + e) as Hpc by lia.
  assert (0 ≤ e * v < 2 ^ W) as Hev by nia.
  clearbody c q r e. generalize dependent (2 ^ W). intros B Hb HW Hpc Hev.
  assert (p * (q * e + c * r) = v * e + B * r) as Hp1.
  { replace (p * (q * e + c * r)) with ((p * q) * e + (p * c) * r) by ring. rewrite Hpc.
    replace (p * q) with (v - r) by lia. ring. }
  assert (0 ≤ q * e + c * r < B) as Hlow by nia.
  assert ((c * v) mod B = q * e + c * r) as ->.
  { symmetry. apply (Z.mod_unique_pos _ _ q); [done|]. rewrite Hd.
    replace (c * (p * q + r)) with ((p * c) * q + c * r) by ring. rewrite Hpc. ring. }
  symmetry. apply (Z.div_unique_pos _ _ _ (e * v)); [done|]. lia.
Qed.

Lemma mulhi_spec a b : 0 ≤ a < 2 ^ 128 → 0 ≤ b < 2 ^ 32 → mulhi_128_by_64 a b = a * b / 2 ^ 128.
Proof.
  intros Ha Hb. unfold mulhi_128_by_64. rewrite !Z.shiftr_div_pow2 by lia.
  pose proof (Z.div_mod a (2 ^ 64) ltac:(lia)) as Hd.
  pose proof (Z.mod_pos_bound a (2 ^ 64) ltac:(lia)) as Hm.
  assert (0 ≤ a / 2 ^ 64 < 2 ^ 64) as Hh
    by (split; [apply Z.div_pos; lia|apply Z.div_lt_upper_bound; lia]).
  unfold wrap at 2. set (h := a / 2 ^ 64) in *. set (l := a mod 2 ^ 64) in *.
  assert ((h * b + l * b / 2 ^ 64) / 2 ^ 64 = a * b / 2 ^ 128) as ->.
  { change (2 ^ 128) with (2 ^ 64 * 2 ^ 64). rewrite <- Z.div_div by lia. f_equal.
    rewrite Hd. replace ((2 ^ 64 * h + l) * b) with (h * b * 2 ^ 64 + l * b) by ring.
    by rewrite Z.div_add_l by lia. }
  apply wrap_small. split; [apply Z.div_pos; nia|].
  apply Z.div_lt_upper_bound; [lia|]. nia.
Qed.

Lemma mod_small_step_spec p rem chunk : 0 < p < 2 ^ 32 → 0 ≤ rem < p → in_width 32 chunk →
  mod_small_step ((2 ^ 128 - 1) / p + 1) p rem chunk = (rem * 2 ^ 32 + chunk) mod p.
Proof.
  intros Hp Hr Hc. unfold mod_small_step, in_width in *. set (v := Z.lor _ _).
  assert (v = rem * 2 ^ 32 + chunk) as Hv.
  { unfold v, wshl. rewrite wrap_small.
    - apply lor_shiftl_add; [lia|done].
    - unfold in_width. rewrite Z.shiftl_mul_pow2 by lia. lia. }
  clearbody v. subst v. set (v := rem * 2 ^ 32 + chunk). assert (0 ≤ v < 2 ^ 64) as Hv by lia.
  unfold wmul. rewrite mulhi_spec; [|apply Z.mod_pos_bound; lia|lia].
  apply recip_remainder; [lia..|]. nia.
Qed.

Lemma mod_small_fold p l : 0 < p < 2 ^ 32 → limbs_ok l → ∀ rem, 0 ≤ rem < p →
  fold_left (λ rem limb,
    mod_small_step ((2 ^ 128 - 1) / p + 1) p
      (mod_small_step ((2 ^ 128 - 1) / p + 1) p rem (Z.shiftr limb 32)) (Z.land limb 0xffff_ffff))
    (rev l) rem = (rem * limb_pow (length l) + uval l) mod p.
Proof.
  intros Hp Hl. induction Hl as [|x l Hx Hl IH]; intros rem Hr.
  { cbn. change (limb_pow 0) with 1. rewrite Z.mul_1_r, Z.add_0_r. symmetry. by apply Z.mod_small. }
  cbn [rev]. rewrite fold_left_app, IH by done. cbn [fold_left].
  set (s := rem * limb_pow (length l) + uval l).
  pose proof (Z.mod_pos_bound s p ltac:(lia)) as Hs. unfold in_width in Hx.
  assert (in_width 32 (Z.shiftr x 32)) as H1.
  { rewrite Z.shiftr_div_pow2 by lia. split; [apply Z.div_pos; lia|apply Z.div_lt_upper_bound; lia]. }
  assert (Z.land x 0xffff_ffff = x mod 2 ^ 32) as Hlow by exact (land_mask x 32 ltac:(lia)).
  assert (in_width 32 (Z.land x 0xffff_ffff)) as H2 by (rewrite Hlow; apply Z.mod_pos_bound; lia).
  rewrite (mod_small_step_spec p (s mod p) (Z.shiftr x 32)) by done.
  rewrite mod_small_step_spec; [|done|apply Z.mod_pos_bound; lia|done].
  rewrite Z.shiftr_div_pow2, Hlow by lia.
  rewrite (Z.add_mod _ (x mod 2 ^ 32)), Z.mul_mod_idemp_l, <- Z.add_mod by lia.
  cbn [uval length]. rewrite limb_pow_S.
  pose proof (Z.div_mod x (2 ^ 32) ltac:(lia)) as Hx32.
  replace ((s mod p * 2 ^ 32 + x / 2 ^ 32) * 2 ^ 32 + x mod 2 ^ 32)
    with (s mod p * 2 ^ 64 + x) by lia.
  rewrite <- Z.add_mod_idemp_l, Z.mul_mod_idemp_l, Z.add_mod_idemp_l by lia.
  f_equal. unfold s. lia.
Qed.

(** * Claims *)

(** Addition, subtraction and comparison of big integers are exact.  The carry and
    borrow are bits; sum and carry (difference and borrow) together are the exact
    result; the constant-time comparison is the comparison of the values. *)
Theorem uint_add_sub_correct : ∀ a b c, limbs_ok a → limbs_ok b → length a = length b → 0 ≤ c ≤ 1 →
  (let '(s, co) := uint_adc a b c in
   limbs_ok s ∧ length s = length a ∧ 0 ≤ co ≤ 1
   ∧ uval s + limb_pow (length a) * co = uval a + uval b + c)
  ∧ (let '(d, bo) := uint_sbb a b c in
     limbs_ok d ∧ length d = length a ∧ 0 ≤ bo ≤ 1
     ∧ uval d - limb_pow (length a) * bo = uval a - uval b - c)
  ∧ uint_ct_gt a b = choice_of (uval b <? uval a)
  ∧ uint_ct_lt a b = choice_of (uval a <? uval b).
Proof.
  intros a b c Ha Hb Hl Hc. split_and!.
  - destruct (uint_adc_spec a b c Ha Hb Hl Hc) as (s & co & -> & H). exact H.
  - destruct (uint_sbb_spec a b c Ha Hb Hl Hc) as (d & bo & -> & H). exact H.
  - by apply uint_ct_gt_spec.
  - by apply uint_ct_gt_spec.
Qed.

Lemma uint_add_sub_correct_witness :
  uint_ct_gt [0; 1] [2 ^ 64 - 1; 0] = choice_of true.
Proof.
  refine (proj1 (proj2 (proj2 (uint_add_sub_correct [0; 1] [2 ^ 64 - 1; 0] 0 _ _ _ _)))).
  - apply (bool_decide_unpack _). vm_compute. exact I.
  - apply (bool_decide_unpack _). vm_compute. exact I.
  - reflexivity.
  - lia.
Defined.

(** Long division.  For a nonzero divisor of the same width, [divrem] returns the
    quotient and the remainder of the values, and [reduce] the same remainder; for a
    zero divisor both stop at their assertion. *)
Theorem uint_divrem_correct : ∀ a m, limbs_ok a → limbs_ok m → length a = length m →
  (0 < uval m → ∃ q r, uint_divrem a m = Some (q, r) ∧ uint_reduce a m = Some r
     ∧ limbs_ok q ∧ limbs_ok r ∧ length q = length a ∧ length r = length a
     ∧ uval q = uval a / uval m ∧ uval r = uval a mod uval m)
  ∧ (uval m = 0 → uint_divrem a m = None ∧ uint_reduce a m = None).
Proof.
  intros a m Ha Hm Hl. unfold uint_divrem, uint_reduce. rewrite uint_is_zero_spec by done. split.
  - intros Hpos. rewrite (proj2 (Z.eqb_neq _ _)) by lia.
    destruct (divrem_fold m Hm Hpos (bits_from_top a) (uint_zero (length a)) (uint_zero (length a)) 0)
      as (q & r & -> & -> & Hq & Hr & Hlr & Hlq & Hvr & Hvq); try done.
    all: try apply zero_limbs_ok. all: try (unfold uint_zero; by rewrite length_replicate).
    all: try (rewrite uval_zero; by rewrite ?Z.mod_0_l, ?Z.div_0_l by lia).
    + apply bits_from_top_bits.
    + rewrite bits_from_top_value by done. rewrite <- Hl. apply uval_range. done.
    + rewrite bits_from_top_value in * by done. exists q, r. split_and!; done || congruence.
  - intros ->. done.
Qed.

Lemma uint_divrem_correct_witness : ∃ q r, uint_divrem [7; 5] [3; 0] = Some (q, r)
  ∧ uval q = (7 + 2 ^ 64 * 5) / 3 ∧ uval r = (7 + 2 ^ 64 * 5) mod 3.
Proof.
  destruct (proj1 (uint_divrem_correct [7; 5] [3; 0]
    ltac:(apply (bool_decide_unpack _); vm_compute; exact I)
    ltac:(apply (bool_decide_unpack _); vm_compute; exact I) eq_refl)) as
    (q & r & H & _ & _ & _ & _ & _ & Hq & Hr); [reflexivity|].
  exists q, r. split; [exact H|]. split; [exact Hq|exact Hr].
Defined.

(** The schoolbook product is exact: the two halves together are the product of the
    values, so [wrapping_mul] is the product modulo [2^(64 LIMBS)]. *)
Theorem mul_wide_correct : ∀ a b, limbs_ok a → limbs_ok b → length a = length b →
  let '(lo, hi) := mul_wide a b in
  limbs_ok lo ∧ limbs_ok hi ∧ length lo = length a ∧ length hi = length a
  ∧ uval lo + limb_pow (length a) * uval hi = uval a * uval b
  ∧ uval (uint_wrapping_mul a b) = (uval a * uval b) mod limb_pow (length a).
Proof.
  intros a b Ha Hb Hl. unfold uint_wrapping_mul, mul_wide.
  destruct (mul_rows_spec (length a) a b Ha Hb eq_refl ltac:(done) (length a) 0
    (uint_zero (length a)) (uint_zero (length a))) as (lo & hi & -> & (Hlo & Hhi & Hll & Hlh) & Hv).
  - lia.
  - split_and!; try apply zero_limbs_ok; unfold uint_zero; by rewrite length_replicate.
  - intros k Hk. unfold uint_zero. apply lookup_total_replicate_2. lia.
  - rewrite uval_app, !uval_zero. change (uval (take 0 a)) with 0. lia.
  - rewrite uval_app, Hll in Hv. split_and!; [done..|]. cbn [fst].
    apply (Z.mod_unique_pos _ _ (uval hi)); [|lia].
    pose proof (uval_range lo Hlo) as Hr. by rewrite Hll in Hr.
Qed.

Lemma mul_wide_correct_witness :
  let '(lo, hi) := mul_wide [2 ^ 64 - 1; 3] [5; 2 ^ 63] in
  uval lo + 2 ^ 128 * uval hi = uval [2 ^ 64 - 1; 3] * uval [5; 2 ^ 63].
Proof.
  pose proof (mul_wide_correct [2 ^ 64 - 1; 3] [5; 2 ^ 63]
    ltac:(apply (bool_decide_unpack _); vm_compute; exact I)
    ltac:(apply (bool_decide_unpack _); vm_compute; exact I) eq_refl) as H.
  destruct (mul_wide [2 ^ 64 - 1; 3] [5; 2 ^ 63]) as [lo hi].
  exact (proj1 (proj2 (proj2 (proj2 (proj2 H))))).
Defined.

(** Division-free remainders.  For a public [0 < p < 2^32], [mod_small_limbs] is the
    value modulo [p], and [mod_u32_with_recip] with [recip_u32] is the remainder of a
    32-bit value: the multiplications by a rounded reciprocal lose nothing. *)
Theorem mod_small_correct : ∀ limbs p v, limbs_ok limbs → 0 < p < 2 ^ 32 → in_width 32 v →
  mod_small_limbs limbs p = uval limbs mod p
  ∧ mod_u32_with_recip v p (recip_u32 p) = v mod p.
Proof.
  intros limbs p v Hl Hp Hv. split.
  - unfold mod_small_limbs. rewrite mod_small_fold by (done || lia). done.
  - unfold mod_u32_with_recip, recip_u32, wmul, in_width in *.
    rewrite Z.shiftr_div_pow2 by lia. unfold wrap at 2. rewrite recip_remainder by nia.
    apply wrap_small. pose proof (Z.mod_pos_bound v p ltac:(lia)). unfold in_width. lia.
Qed.

Lemma mod_small_correct_witness :
  mod_small_limbs [123456789; 987654321] 641 = (123456789 + 2 ^ 64 * (987654321 + 2 ^ 64 * 0)) mod 641
  ∧ mod_u32_with_recip 4294967295 641 (recip_u32 641) = 4294967295 mod 641.
Proof.
  apply mod_small_correct.
  - apply (bool_decide_unpack _). vm_compute. exact I.
  - lia.
  - split; vm_compute; congruence.
Defined.
