(* ===== verification/Mont.v ===== *)
(** Montgomery arithmetic ([src/bignum/montgomery.rs]): the word inverse, modular
    addition and subtraction, the two-rows-per-pass CIOS multiplication kernel with its
    final subtraction, and [MontModulus].  Scratch and output slices are passed in and
    returned as the source mutates them; [black_box] is the identity. *)

From S2P Require Import Prelude Ct Uint.

(** [while i < 6] *)
Fixpoint inv_newton (steps : nat) (n x : Z) : Z :=
  match steps with
  | O => x
  | S steps => inv_newton steps n (wmul 64 x (wsub 64 2 (wmul 64 n x)))
  end.
Definition inv_mod_2_64 (n : Z) : Z := inv_newton 6 n 1.

Definition select (a b : Uint) (bit : Z) : Uint :=
  let mask := wneg 64 bit in
  zip_with (λ x y, Z.lxor y (Z.land mask (Z.lxor x y))) a b.

(** Writes the first [l] limbs of [out]. *)
Definition mont_final_sub (n t : list Z) (ts : Z) (out : list Z) : list Z :=
  let l := length n in
  let '(d, bo) := uint_sbb (take l t) n 0 in
  let '(_, borrow) := sbb ts 0 bo in
  let mask := wneg 64 (Z.lxor borrow 1) in
  zip_with (λ o x, Z.lxor x (Z.land mask (Z.lxor o x))) d (take l t) ++ drop l out.

(** * The multiplication kernel *)

Section kernel.
Context (n : list Z) (np : Z) (a b : list Z).

(** [while j < l]: column [j] of the first row of a pair and column [j - 1] of the
    second; [k] columns left. *)
Fixpoint pair_columns (k : nat) (j : nat) (b0 b1 m0 m1 : Z) (t : list Z) (c1 c2 d1 d2 : Z)
  : list Z * Z * Z * Z * Z :=
  match k with
  | O => (t, c1, c2, d1, d2)
  | S k =>
      let '(s, c1) := mac (t !!! j) (a !!! j) b0 c1 in
      let '(tpj1, c2) := mac s m0 (n !!! j) c2 in
      let '(u, d1) := mac tpj1 (a !!! (j - 1)%nat) b1 d1 in
      let '(u2, d2) := mac u m1 (n !!! (j - 1)%nat) d2 in
      pair_columns k (S j) b0 b1 m0 m1 (<[(j - 2)%nat := u2]> t) c1 c2 d1 d2
  end.

(** One round of [while i + 1 < l]: the rows of [b0] and [b1]. *)
Definition pair_rows (b0 b1 : Z) (t : list Z) (ts : Z) : list Z * Z :=
  let l := length n in
  let '(s0, c1) := mac (t !!! 0%nat) (a !!! 0%nat) b0 0 in
  let m0 := wmul 64 s0 np in
  let '(_, c2) := mac s0 m0 (n !!! 0%nat) 0 in
  let '(s, c1) := mac (t !!! 1%nat) (a !!! 1%nat) b0 c1 in
  let '(tp0, c2) := mac s m0 (n !!! 1%nat) c2 in
  let '(u0, d1) := mac tp0 (a !!! 0%nat) b1 0 in
  let m1 := wmul 64 u0 np in
  let '(_, d2) := mac u0 m1 (n !!! 0%nat) 0 in
  let '(t, c1, c2, d1, d2) := pair_columns (l - 2) 2 b0 b1 m0 m1 t c1 c2 d1 d2 in
  let s := ts + c1 + c2 in
  let tpl1 := as_u64 s in
  let tpl := as_u64 (Z.shiftr s 64) in
  let '(u, d1) := mac tpl1 (a !!! (l - 1)%nat) b1 d1 in
  let '(u2, d2) := mac u m1 (n !!! (l - 1)%nat) d2 in
  let t := <[(l - 2)%nat := u2]> t in
  let s := tpl + d1 + d2 in
  (<[(l - 1)%nat := as_u64 s]> t, as_u64 (Z.shiftr s 64)).

(** The columns of the single row of an odd width. *)
Fixpoint tail_columns (k : nat) (j : nat) (bi m : Z) (t : list Z) (c1 c2 : Z) : list Z * Z * Z :=
  match k with
  | O => (t, c1, c2)
  | S k =>
      let '(s, c1) := mac (t !!! j) (a !!! j) bi c1 in
      let '(s2, c2) := mac s m (n !!! j) c2 in
      tail_columns k (S j) bi m (<[(j - 1)%nat := s2]> t) c1 c2
  end.

Definition tail_row (bi : Z) (t : list Z) (ts : Z) : list Z * Z :=
  let l := length n in
  let '(s0, c1) := mac (t !!! 0%nat) (a !!! 0%nat) bi 0 in
  let m := wmul 64 s0 np in
  let '(_, c2) := mac s0 m (n !!! 0%nat) 0 in
  let '(t, c1, c2) := tail_columns (l - 1) 1 bi m t c1 c2 in
  let s := ts + c1 + c2 in
  (<[(l - 1)%nat := as_u64 s]> t, as_u64 (Z.shiftr s 64)).

(** [while i + 1 < l { ..; i += 2 }] *)
Fixpoint pair_loop (fuel : nat) (i : nat) (t : list Z) (ts : Z) : nat * list Z * Z :=
  match fuel with
  | O => (i, t, ts)
  | S fuel =>
      if (S i <? length n)%nat then
        let '(t, ts) := pair_rows (b !!! i) (b !!! S i) t ts in pair_loop fuel (S (S i)) t ts
      else (i, t, ts)
  end.
End kernel.

(** The scratch [t] has at least [l] limbs; the zeroing loop sets the first [l]. *)
Definition mont_mul_kernel (n : list Z) (np : Z) (a b out : list Z) : list Z :=
  let l := length n in
  let a := take l a in
  let b := take l b in
  let '(i, t, ts) := pair_loop n np a b l 0 (replicate l 0) 0 in
  let '(t, ts) := if (i <? l)%nat then tail_row n np a (b !!! i) t ts else (t, ts) in
  mont_final_sub n t ts out.

(** * Modular operations *)

Definition add_mod (n a b : Uint) : Uint :=
  let '(sum, carry) := uint_adc a b 0 in
  let '(diff, borrow) := uint_sbb sum n 0 in
  let subtract := Z.lor carry (Z.lxor borrow 1) in
  select diff sum subtract.

Definition sub_mod (n a b : Uint) : Uint :=
  let '(diff, borrow) := uint_sbb a b 0 in
  let '(wrapped, _) := uint_adc diff n 0 in
  select wrapped diff borrow.

Record MontModulus := mkMontModulus {
  mm_modulus : Uint;
  mm_n_prime : Z;
  mm_r2 : Uint;
  mm_limbs : nat }.

Definition mont_mul (self : MontModulus) (a b : Uint) : Uint :=
  let LIMBS := length (mm_modulus self) in
  mont_mul_kernel (take (mm_limbs self) (mm_modulus self)) (mm_n_prime self) a b (replicate LIMBS 0).

Definition to_mont (self : MontModulus) (x : Uint) : Uint := mont_mul self x (mm_r2 self).
Definition from_mont (self : MontModulus) (x : Uint) : Uint :=
  mont_mul self x (uint_from_u64 (length (mm_modulus self)) 1).
Definition mul_mod (self : MontModulus) (a b : Uint) : Uint :=
  let t := mont_mul self a b in mont_mul self t (mm_r2 self).

Definition with_shape (modulus : Uint) (s : nat) (bits : Z) : MontModulus :=
  let LIMBS := length modulus in
  let n_prime := wneg 64 (inv_mod_2_64 (modulus !!! 0%nat)) in
  let m := mkMontModulus modulus n_prime (uint_zero LIMBS) s in
  let start := <[Z.to_nat ((bits - 1) / 64) := Z.shiftl 1 ((bits - 1) mod 64)]> (replicate LIMBS 0) in
  let x := Nat.iter (Z.to_nat (64 * Z.of_nat s - bits + 1 + Z.of_nat s))
             (λ x, add_mod modulus x x) start in
  let x := Nat.iter 6 (λ x, mont_mul m x x) x in
  mkMontModulus modulus n_prime x s.

(** [while s > 1 && n[s - 1] == 0 { s -= 1 }] *)
Fixpoint significant (n : list Z) (s : nat) : nat :=
  match s with
  | S (S _ as s') => if n !!! s' =? 0 then significant n s' else s
  | _ => s
  end.

(** [leading_zeros] of a 64-bit word. *)
Definition leading_zeros (x : Z) : Z := if x =? 0 then 64 else 63 - Z.log2 x.

(** [None]: the modulus is even. *)
Definition mont_new (modulus : Uint) : option MontModulus :=
  if Z.land (modulus !!! 0%nat) 1 =? 1 then
    let s := significant modulus (length modulus) in
    let bits := 64 * Z.of_nat s - leading_zeros (modulus !!! (s - 1)%nat) in
    Some (with_shape modulus s bits)
  else None.

(** * The word inverse *)

Lemma wrap_divides w x : (2 ^ w | wrap w x - x).
Proof.
  unfold wrap. destruct (Z.eq_dec (2 ^ w) 0) as [->|H].
  - rewrite Z.mod_0_r, Z.sub_diag. apply Z.divide_0_r.
  - exists (- (x / 2 ^ w)). pose proof (Z.div_mod x (2 ^ w) H). lia.
Qed.

Lemma newton_step n x k : 0 ≤ k → 2 * k ≤ 64 → (2 ^ k | n * x - 1) →
  (2 ^ (2 * k) | n * wmul 64 x (wsub 64 2 (wmul 64 n x)) - 1).
Proof.
  intros Hk Hk2 [y Hy]. unfold wmul, wsub.
  destruct (wrap_divides 64 (n * x)) as [a Ha].
  destruct (wrap_divides 64 (2 - wrap 64 (n * x))) as [b Hb].
  set (w2 := wrap 64 (2 - wrap 64 (n * x))) in *.
  destruct (wrap_divides 64 (x * w2)) as [c Hc]. set (x' := wrap 64 (x * w2)) in *.
  assert ((2 ^ (2 * k) | 2 ^ 64)) as [z Hz].
  { exists (2 ^ (64 - 2 * k)). rewrite <- Z.pow_add_r by lia. f_equal. lia. }
  assert (2 ^ (2 * k) = 2 ^ k * 2 ^ k) as Hkk by (rewrite <- Z.pow_add_r by lia; f_equal; lia).
  exists (n * (x * (b - a) + c) * z - y * y).
  transitivity (n * (x * (b - a) + c) * (z * 2 ^ (2 * k)) - (y * 2 ^ k) * (y * 2 ^ k));
    [|rewrite Hkk; ring]. rewrite <- Hz, <- Hy.
  assert (x' = x * w2 + c * 2 ^ 64) as -> by lia.
  assert (w2 = 2 - n * x - a * 2 ^ 64 + b * 2 ^ 64) as -> by lia. ring.
Qed.

Lemma inv_mod_2_64_spec n : n mod 2 = 1 → u64 (inv_mod_2_64 n) ∧ (2 ^ 64 | n * inv_mod_2_64 n - 1).
Proof.
  intros Hn. split; [apply wrap_range; lia|]. unfold inv_mod_2_64. cbn [inv_newton].
  change 64 with (2 * (2 * (2 * (2 * (2 * (2 * 1)))))) at 1.
  do 6 (apply newton_step; [lia|lia|]).
  exists (n / 2). pose proof (Z.div_mod n 2 ltac:(lia)). lia.
Qed.

(** [-n^-1 mod 2^64] *)
Lemma n_prime_spec n : n mod 2 = 1 → u64 (wneg 64 (inv_mod_2_64 n))
  ∧ (2 ^ 64 | 1 + wneg 64 (inv_mod_2_64 n) * n).
Proof.
  intros Hn. destruct (inv_mod_2_64_spec n Hn) as [_ [k Hk]].
  split; [apply wrap_range; lia|]. unfold wneg.
  destruct (wrap_divides 64 (- inv_mod_2_64 n)) as [j Hj].
  exists (j * n - k). set (w := wrap _ _) in *. set (v := inv_mod_2_64 n) in *. nia.
Qed.

(** * Selection and modular addition *)

Lemma select_spec a b (c : bool) : limbs_ok a → limbs_ok b → length a = length b →
  select a b (if c then 1 else 0) = if c then a else b.
Proof. intros. rewrite <- (uint_select_spec a b c) by done. done. Qed.

Lemma add_mod_spec n a b : limbs_ok n → limbs_ok a → limbs_ok b → length a = length n →
  length b = length n → uval a < uval n → uval b < uval n →
  limbs_ok (add_mod n a b) ∧ length (add_mod n a b) = length n
  ∧ uval (add_mod n a b) = (uval a + uval b) mod uval n.
Proof.
  intros Hn Ha Hb Hla Hlb Han Hbn. unfold add_mod.
  destruct (uint_adc_spec a b 0 Ha Hb ltac:(congruence) ltac:(lia)) as (s & co & -> & Hs & Hls & Hco & Heq).
  destruct (uint_sbb_spec s n 0 Hs Hn ltac:(congruence) ltac:(lia)) as (d & bo & -> & Hd & Hld & Hbo & Heq2).
  pose proof (uval_range a Ha). pose proof (uval_range b Hb). pose proof (uval_range d Hd) as Hdr.
  pose proof (uval_range n Hn). pose proof (uval_range s Hs) as Hsr.
  rewrite Hld, ?Hls, ?Hla in *.
  assert (Z.lor co (Z.lxor bo 1) = if uval n <=? uval a + uval b then 1 else 0) as ->.
  { assert (co = 0 ∨ co = 1) as [-> | ->] by lia; assert (bo = 0 ∨ bo = 1) as [-> | ->] by lia.
    all: destruct (Z.leb_spec (uval n) (uval a + uval b)); try reflexivity; exfalso; lia. }
  rewrite select_spec by (done || congruence).
  destruct (Z.leb_spec (uval n) (uval a + uval b)).
  - split_and!; [done|congruence|]. apply (Z.mod_unique_pos _ _ 1); [|].
    + assert (co = 0 ∨ co = 1) as [-> | ->] by lia; assert (bo = 0 ∨ bo = 1) as [-> | ->] by lia; lia.
    + assert (co = 0 ∨ co = 1) as [-> | ->] by lia; assert (bo = 0 ∨ bo = 1) as [-> | ->] by lia; lia.
  - split_and!; [done|congruence|]. assert (co = 0) as -> by nia. rewrite Z.mod_small by lia. lia.
Qed.

Lemma sub_mod_spec n a b : limbs_ok n → limbs_ok a → limbs_ok b → length a = length n →
  length b = length n → uval a < uval n → uval b < uval n →
  limbs_ok (sub_mod n a b) ∧ length (sub_mod n a b) = length n
  ∧ uval (sub_mod n a b) = (uval a - uval b) mod uval n.
Proof.
  intros Hn Ha Hb Hla Hlb Han Hbn. unfold sub_mod.
  destruct (uint_sbb_spec a b 0 Ha Hb ltac:(congruence) ltac:(lia)) as (d & bo & -> & Hd & Hld & Hbo & Heq).
  destruct (uint_adc_spec d n 0 Hd Hn ltac:(congruence) ltac:(lia)) as (w & co & -> & Hw & Hlw & Hco & Heq2).
  pose proof (uval_range a Ha). pose proof (uval_range b Hb). pose proof (uval_range d Hd) as Hdr.
  pose proof (uval_range n Hn). pose proof (uval_range w Hw) as Hwr.
  rewrite Hlw, ?Hld, ?Hla in *.
  assert (bo = if uval a <? uval b then 1 else 0) as ->.
  { assert (bo = 0 ∨ bo = 1) as [-> | ->] by lia;
      destruct (Z.ltb_spec (uval a) (uval b)); try reflexivity; exfalso; lia. }
  rewrite select_spec by (done || congruence).
  destruct (Z.ltb_spec (uval a) (uval b)).
  - split_and!; [done|congruence|]. assert (co = 1) as -> by (assert (co = 0 ∨ co = 1) as [-> | ->] by lia; lia).
    apply (Z.mod_unique_pos _ _ (-1)); lia.
  - split_and!; [done|congruence|]. rewrite Z.mod_small by lia. lia.
Qed.

(** * The final subtraction *)

Lemma mont_final_sub_spec n t ts out : limbs_ok n → limbs_ok t → length t = length n → u64 ts →
  0 < uval n → uval t + limb_pow (length n) * ts < 2 * uval n →
  ∃ r, mont_final_sub n t ts out = r ++ drop (length n) out ∧ limbs_ok r ∧ length r = length n
    ∧ uval r = (uval t + limb_pow (length n) * ts) mod uval n.
Proof.
  intros Hn Ht Hl Hts Hpos Hlt. unfold mont_final_sub. rewrite take_ge by lia.
  destruct (uint_sbb_spec t n 0 Ht Hn Hl ltac:(lia)) as (d & bo & -> & Hd & Hld & Hbo & Heq).
  destruct (sbb_spec ts 0 bo Hts ltac:(done) Hbo) as (e & bo2 & -> & He & Hbo2 & Heq2).
  pose proof (uval_range t Ht) as Htr. pose proof (uval_range n Hn). pose proof (uval_range d Hd) as Hdr.
  rewrite Hld, ?Hl in *. unfold in_width in *. pose proof (limb_pow_pos (length n)) as HP.
  set (T := uval t + limb_pow (length n) * ts) in *.
  assert (Z.lxor bo2 1 = if uval n <=? T then 1 else 0) as ->.
  { assert (ts = 0 ∨ ts = 1) as [-> | ->] by nia;
      assert (bo = 0 ∨ bo = 1) as [-> | ->] by lia; assert (bo2 = 0 ∨ bo2 = 1) as [-> | ->] by lia.
    all: destruct (Z.leb_spec (uval n) T); try reflexivity; exfalso; subst T; lia. }
  pose proof (uint_select_spec d t (uval n <=? T) Hd Ht ltac:(congruence)) as Hsel.
  unfold uint_conditional_select, limb_mask in Hsel. cbn [unwrap_u8 choice_of] in Hsel.
  rewrite Hsel. eexists. split; [reflexivity|].
  destruct (Z.leb_spec (uval n) T).
  - split_and!; [done|congruence|]. apply (Z.mod_unique_pos _ _ 1).
    + subst T. assert (ts = 0 ∨ ts = 1) as [-> | ->] by nia;
        assert (bo = 0 ∨ bo = 1) as [-> | ->] by lia; lia.
    + subst T. assert (ts = 0 ∨ ts = 1) as [-> | ->] by nia;
        assert (bo = 0 ∨ bo = 1) as [-> | ->] by lia; lia.
  - split_and!; [done|congruence|]. assert (ts = 0) as -> by nia. subst T.
    rewrite Z.mod_small by lia. lia.
Qed.

(** * The kernel *)

Lemma uval_take_insert l p v : (p < length l)%nat →
  uval (take (S p) (<[p := v]> l)) = uval (take p l) + v * limb_pow p.
Proof.
  intros Hp. rewrite uval_take_S by (by rewrite length_insert).
  rewrite take_insert_ge by lia. by rewrite list_lookup_total_insert_eq.
Qed.

Lemma uval_drop_S l j : (j < length l)%nat → uval (drop j l) = l !!! j + 2 ^ 64 * uval (drop (S j) l).
Proof.
  intros Hj. by rewrite (drop_S l (l !!! j) j) by (by apply list_lookup_lookup_total_lt).
Qed.

(** The three powers around a column. *)
Lemma limb_pow_2 j : (2 ≤ j)%nat → limb_pow j = 2 ^ 128 * limb_pow (j - 2)
  ∧ limb_pow (j - 1) = 2 ^ 64 * limb_pow (j - 2) ∧ limb_pow (S j) = 2 ^ 192 * limb_pow (j - 2).
Proof.
  intros Hj. unfold limb_pow. rewrite <- !Z.pow_add_r by lia. split_and!; f_equal; lia.
Qed.

Section kernel_proofs.
Context (n : list Z) (np : Z) (a : list Z).
Context (Hn : limbs_ok n) (Ha : limbs_ok a) (Hla : length a = length n) (Hnp : u64 np).
Context (Hinv : (2 ^ 64 | 1 + np * n !!! 0%nat)).

Let l := length n.

(** Choosing [m = s * n'] clears the low limb. *)
Lemma mac_cancels s : u64 s → (0 < l)%nat →
  ∃ c, mac s (wmul 64 s np) (n !!! 0%nat) 0 = (0, c) ∧ u64 c ∧ u64 (wmul 64 s np)
    ∧ 2 ^ 64 * c = s + wmul 64 s np * n !!! 0%nat.
Proof using Hn Hnp Hinv Hla.
  intros Hs Hl. set (m := wmul 64 s np). assert (u64 m) as Hm by (apply wrap_range; lia).
  destruct (mac_spec s m (n !!! 0%nat) 0 Hs Hm (lookup_total_ok n 0 Hn Hl) ltac:(done))
    as (v & c & -> & Hv & Hc & Heq).
  assert (v = 0) as ->.
  { destruct Hinv as [k Hk]. destruct (wrap_divides 64 (s * np)) as [j Hj].
    change (wrap 64 (s * np)) with m in Hj. unfold in_width in Hv.
    assert ((2 ^ 64 | v)) as Hdiv.
    { exists (s * k + j * n !!! 0%nat - c).
      assert (m = s * np + j * 2 ^ 64) as Hmj by lia. rewrite Hmj in Heq.
      apply (f_equal (λ x, s * x)) in Hk. lia. }
    destruct Hdiv as [q Hq]. lia. }
  exists c. split_and!; [done..|lia].
Qed.

Section pair.
Context (b0 b1 m0 m1 : Z) (Hb0 : u64 b0) (Hb1 : u64 b1) (Hm0 : u64 m0) (Hm1 : u64 m1).

(** What is left to account for when both rows of a pair have reached column [j]. *)
Definition pair_balance (j : nat) (t : list Z) (carries : Z) : Z :=
  2 ^ 128 * uval (take (j - 2) t) + carries * limb_pow j + limb_pow j * uval (drop j t)
  - (b0 * uval (take j a) + m0 * uval (take j n)
     + 2 ^ 64 * (b1 * uval (take (j - 1) a) + m1 * uval (take (j - 1) n))).

Lemma pair_columns_spec k : ∀ j t c1 c2 d1 d2, (2 ≤ j)%nat → (j + k = l)%nat →
  limbs_ok t → length t = l → u64 c1 → u64 c2 → u64 d1 → u64 d2 →
  ∃ t' c1' c2' d1' d2', pair_columns n a k j b0 b1 m0 m1 t c1 c2 d1 d2 = (t', c1', c2', d1', d2')
    ∧ limbs_ok t' ∧ length t' = l ∧ u64 c1' ∧ u64 c2' ∧ u64 d1' ∧ u64 d2'
    ∧ pair_balance l t' (c1' + c2' + d1' + d2') = pair_balance j t (c1 + c2 + d1 + d2).
Proof using Hn Ha Hla Hb0 Hb1 Hm0 Hm1.
  induction k as [|k IH]; intros j t c1 c2 d1 d2 Hj Hk Ht Hlt H1 H2 H3 H4.
  { exists t, c1, c2, d1, d2. replace j with l by lia. done. }
  cbn [pair_columns].
  pose proof (lookup_total_ok t j Ht ltac:(lia)) as Htj.
  pose proof (lookup_total_ok a j Ha ltac:(lia)) as Haj.
  pose proof (lookup_total_ok a (j - 1) Ha ltac:(lia)) as Haj1.
  pose proof (lookup_total_ok n j Hn ltac:(lia)) as Hnj.
  pose proof (lookup_total_ok n (j - 1) Hn ltac:(lia)) as Hnj1.
  destruct (mac_spec _ _ _ _ Htj Haj Hb0 H1) as (s & c1' & -> & Hs & Hc1 & E1).
  destruct (mac_spec _ _ _ _ Hs Hm0 Hnj H2) as (tp & c2' & -> & Htp & Hc2 & E2).
  destruct (mac_spec _ _ _ _ Htp Haj1 Hb1 H3) as (u & d1' & -> & Hu & Hd1 & E3).
  destruct (mac_spec _ _ _ _ Hu Hm1 Hnj1 H4) as (u2 & d2' & -> & Hu2 & Hd2 & E4).
  destruct (IH (S j) (<[(j - 2)%nat := u2]> t) c1' c2' d1' d2')
    as (t' & e1 & e2 & f1 & f2 & -> & Hok & Hlen & ? & ? & ? & ? & Hbal); try done; try lia.
  { by apply Forall_insert. } { by rewrite length_insert. }
  eexists _, _, _, _, _. split; [reflexivity|]. split_and!; [done..|]. rewrite Hbal.
  unfold pair_balance. rewrite (uval_drop_S t j) by lia.
  replace (S j - 2)%nat with (S (j - 2)) by lia. replace (S j - 1)%nat with j by lia.
  rewrite uval_take_insert by lia.
  rewrite drop_insert_lt by lia.
  rewrite (uval_take_S a j), (uval_take_S n j) by lia.
  destruct (limb_pow_2 j Hj) as (P0 & P1 & P2).
  pose proof (uval_take_S a (j - 1) ltac:(lia)) as TA. pose proof (uval_take_S n (j - 1) ltac:(lia)) as TN.
  replace (S (j - 1)) with j in TA, TN by lia. rewrite TA, TN, P0, P1, P2.
  generalize (limb_pow (j - 2)). intros p.
  assert (u2 + 2 ^ 64 * (c1' + c2' + d1' + d2') = t !!! j + a !!! j * b0 + m0 * n !!! j
    + a !!! (j - 1)%nat * b1 + m1 * n !!! (j - 1)%nat + (c1 + c2 + d1 + d2)) as E by lia.
  apply (f_equal (λ x, x * p)) in E. lia.
Qed.
End pair.

(** The accumulator: [l] limbs and one more. *)
Definition acc_value (t : list Z) (ts : Z) : Z := uval t + limb_pow l * ts.

Lemma uval_two t : (2 ≤ length t)%nat →
  uval t = t !!! 0%nat + 2 ^ 64 * t !!! 1%nat + 2 ^ 128 * uval (drop 2 t).
Proof.
  clear. destruct t as [|x [|y t]]; [simpl; lia..|]. intros _.
  change ((x :: y :: t) !!! 0%nat) with x. change ((x :: y :: t) !!! 1%nat) with y.
  change (drop 2 (x :: y :: t)) with t. change (take 2 (x :: y :: t)) with [x; y].
  change (take 1 (x :: y :: t)) with [x]. cbn [uval]. lia.
Qed.

Lemma uval_take_2 t : (2 ≤ length t)%nat →
  uval (take 2 t) = t !!! 0%nat + 2 ^ 64 * t !!! 1%nat ∧ uval (take 1 t) = t !!! 0%nat.
Proof.
  clear. destruct t as [|x [|y t]]; [simpl; lia..|]. intros _.
  change ((x :: y :: t) !!! 0%nat) with x. change ((x :: y :: t) !!! 1%nat) with y.
  change (drop 2 (x :: y :: t)) with t. change (take 2 (x :: y :: t)) with [x; y].
  change (take 1 (x :: y :: t)) with [x]. cbn [uval]. lia.
Qed.

(** The value of the accumulator once its two top limbs are overwritten. *)
Lemma uval_set_top t x y : length t = l → (2 ≤ l)%nat →
  uval (<[(l - 1)%nat := y]> (<[(l - 2)%nat := x]> t)) =
  uval (take (l - 2) t) + x * limb_pow (l - 2) + y * limb_pow (l - 1).
Proof.
  intros Hlt Hl. rewrite <- (take_ge (<[(l - 1)%nat := y]> (<[(l - 2)%nat := x]> t)) l)
    by (rewrite !length_insert; lia).
  replace l with (S (l - 1)) at 1 by lia.
  rewrite uval_take_insert by (rewrite length_insert; lia).
  replace (l - 1)%nat with (S (l - 2)) at 1 by lia.
  by rewrite uval_take_insert by lia.
Qed.

(** The balance when the columns start and when they end. *)
Lemma pair_balance_2 b0 b1 m0 m1 t c : (2 ≤ l)%nat →
  pair_balance b0 b1 m0 m1 2 t c = 2 ^ 128 * c + 2 ^ 128 * uval (drop 2 t)
    - (b0 * (a !!! 0%nat + 2 ^ 64 * a !!! 1%nat) + m0 * (n !!! 0%nat + 2 ^ 64 * n !!! 1%nat)
       + 2 ^ 64 * (b1 * a !!! 0%nat + m1 * n !!! 0%nat)).
Proof using Hla.
  intros Hl. unfold pair_balance.
  destruct (uval_take_2 a ltac:(lia)) as [A2 A1]. destruct (uval_take_2 n ltac:(lia)) as [N2 N1].
  change (2 - 2)%nat with 0%nat. change (uval (take 0 t)) with 0.
  change (2 - 1)%nat with 1%nat. change (limb_pow 2) with (2 ^ 128).
  rewrite A2, A1, N2, N1. lia.
Qed.

Lemma pair_balance_end b0 b1 m0 m1 t c : length t = l → (2 ≤ l)%nat →
  pair_balance b0 b1 m0 m1 l t c = 2 ^ 128 * uval (take (l - 2) t) + c * limb_pow l
    - ((b0 + 2 ^ 64 * b1) * uval a + (m0 + 2 ^ 64 * m1) * uval n)
    + limb_pow l * (b1 * a !!! (l - 1)%nat + m1 * n !!! (l - 1)%nat).
Proof using Hla.
  intros Hlt Hl. unfold pair_balance. rewrite drop_ge by lia. change (uval []) with 0.
  pose proof (uval_take_S a (l - 1) ltac:(lia)) as TA. pose proof (uval_take_S n (l - 1) ltac:(lia)) as TN.
  replace (S (l - 1)) with l in TA, TN by lia. rewrite take_ge in TA, TN by lia.
  rewrite (take_ge a l), (take_ge n l) by lia. rewrite TA, TN.
  destruct (limb_pow_2 l Hl) as (P0 & P1 & _). rewrite P0, P1. lia.
Qed.

(** Two rows: the accumulator times [2^128] is what was added to it. *)
Lemma pair_rows_spec b0 b1 t ts : u64 b0 → u64 b1 → limbs_ok t → length t = l → u64 ts → (2 ≤ l)%nat →
  ∃ t' ts' m, pair_rows n np a b0 b1 t ts = (t', ts') ∧ limbs_ok t' ∧ length t' = l ∧ u64 ts'
    ∧ 0 ≤ m < 2 ^ 128
    ∧ 2 ^ 128 * acc_value t' ts' = acc_value t ts + (b0 + 2 ^ 64 * b1) * uval a + m * uval n.
Proof using Hn Ha Hla Hnp Hinv.
  intros Hb0 Hb1 Ht Hlt Hts Hl. unfold pair_rows. fold l.
  pose proof (lookup_total_ok t 0 Ht ltac:(lia)) as Ht0. pose proof (lookup_total_ok t 1 Ht ltac:(lia)) as Ht1.
  pose proof (lookup_total_ok a 0 Ha ltac:(lia)) as Ha0. pose proof (lookup_total_ok a 1 Ha ltac:(lia)) as Ha1.
  pose proof (lookup_total_ok n 1 Hn ltac:(lia)) as Hn1.
  pose proof (lookup_total_ok a (l - 1) Ha ltac:(lia)) as Hal.
  pose proof (lookup_total_ok n (l - 1) Hn ltac:(lia)) as Hnl.
  assert (u64 0) as H0 by done.
  destruct (mac_spec _ _ _ _ Ht0 Ha0 Hb0 H0) as (s0 & c1 & -> & Hs0 & Hc1 & E1).
  destruct (mac_cancels s0 Hs0 ltac:(lia)) as (c2 & -> & Hc2 & Hm0 & E2). set (m0 := wmul 64 s0 np) in *.
  destruct (mac_spec _ _ _ _ Ht1 Ha1 Hb0 Hc1) as (s & c1' & -> & Hs & Hc1' & E3).
  destruct (mac_spec _ _ _ _ Hs Hm0 Hn1 Hc2) as (tp0 & c2' & -> & Htp0 & Hc2' & E4).
  destruct (mac_spec _ _ _ _ Htp0 Ha0 Hb1 H0) as (u0 & d1 & -> & Hu0 & Hd1 & E5).
  destruct (mac_cancels u0 Hu0 ltac:(lia)) as (d2 & -> & Hd2 & Hm1 & E6). set (m1 := wmul 64 u0 np) in *.
  destruct (pair_columns_spec b0 b1 m0 m1 Hb0 Hb1 Hm0 Hm1 (l - 2) 2 t c1' c2' d1 d2)
    as (t' & e1 & e2 & f1 & f2 & -> & Hok & Hlen & He1 & He2 & Hf1 & Hf2 & Hbal); try done; try lia.
  set (S0 := ts + e1 + e2). unfold in_width in Hts, He1, He2.
  destruct (carry_split S0) as (ES & Hlo & Hhi); [lia|].
  destruct (mac_spec _ _ _ _ Hlo Hal Hb1 Hf1) as (u & g1 & -> & Hu & Hg1 & E7).
  destruct (mac_spec _ _ _ _ Hu Hm1 Hnl Hf2) as (u2 & g2 & -> & Hu2 & Hg2 & E8).
  set (S1 := as_u64 (Z.shiftr S0 64) + g1 + g2).
  pose proof Hhi as Hhi'. unfold in_width in Hhi', Hg1, Hg2.
  destruct (carry_split S1) as (ES1 & Hlo1 & Hhi1); [lia|].
  eexists _, _, (m0 + 2 ^ 64 * m1). split; [reflexivity|]. split_and!.
  - apply Forall_insert; [|done]. by apply Forall_insert.
  - by rewrite !length_insert.
  - done.
  - unfold in_width in Hm0, Hm1. lia.
  - unfold in_width in Hm0, Hm1. lia.
  - unfold acc_value in *. rewrite pair_balance_2, pair_balance_end in Hbal by done.
    rewrite uval_set_top, (uval_two t) by (done || lia).
    destruct (limb_pow_2 l Hl) as (P0 & P1 & _). rewrite P0 in *. rewrite P1.
    revert Hbal. generalize (limb_pow (l - 2)). intros p Hbal.
    assert (u2 + 2 ^ 64 * (g1 + g2) + 2 ^ 64 * as_u64 (Z.shiftr S0 64) =
      ts + e1 + e2 + a !!! (l - 1)%nat * b1 + m1 * n !!! (l - 1)%nat + f1 + f2) as EE by lia.
    apply (f_equal (λ x, x * p)) in EE.
    assert (2 ^ 64 * as_u64 (Z.shiftr S1 64) * p = (S1 - as_u64 S1) * p) as EF by (f_equal; lia).
    unfold S1 in *. lia.
Qed.

(** ** The single row *)

Definition tail_balance (bi m : Z) (j : nat) (t : list Z) (carries : Z) : Z :=
  2 ^ 64 * uval (take (j - 1) t) + carries * limb_pow j + limb_pow j * uval (drop j t)
  - (bi * uval (take j a) + m * uval (take j n)).

Lemma tail_columns_spec bi m k : u64 bi → u64 m → ∀ j t c1 c2, (1 ≤ j)%nat → (j + k = l)%nat →
  limbs_ok t → length t = l → u64 c1 → u64 c2 →
  ∃ t' c1' c2', tail_columns n a k j bi m t c1 c2 = (t', c1', c2')
    ∧ limbs_ok t' ∧ length t' = l ∧ u64 c1' ∧ u64 c2'
    ∧ tail_balance bi m l t' (c1' + c2') = tail_balance bi m j t (c1 + c2).
Proof using Hn Ha Hla.
  intros Hbi Hm. induction k as [|k IH]; intros j t c1 c2 Hj Hk Ht Hlt H1 H2.
  { exists t, c1, c2. replace j with l by lia. done. }
  cbn [tail_columns].
  pose proof (lookup_total_ok t j Ht ltac:(lia)) as Htj.
  pose proof (lookup_total_ok a j Ha ltac:(lia)) as Haj.
  pose proof (lookup_total_ok n j Hn ltac:(lia)) as Hnj.
  destruct (mac_spec _ _ _ _ Htj Haj Hbi H1) as (s & c1' & -> & Hs & Hc1 & E1).
  destruct (mac_spec _ _ _ _ Hs Hm Hnj H2) as (s2 & c2' & -> & Hs2 & Hc2 & E2).
  destruct (IH (S j) (<[(j - 1)%nat := s2]> t) c1' c2')
    as (t' & e1 & e2 & -> & Hok & Hlen & ? & ? & Hbal); try done; try lia.
  { by apply Forall_insert. } { by rewrite length_insert. }
  eexists _, _, _. split; [reflexivity|]. split_and!; [done..|]. rewrite Hbal.
  unfold tail_balance. rewrite (uval_drop_S t j) by lia.
  replace (S j - 1)%nat with (S (j - 1)) by lia. rewrite uval_take_insert by lia.
  rewrite drop_insert_lt by lia. rewrite (uval_take_S a j), (uval_take_S n j) by lia.
  assert (limb_pow j = 2 ^ 64 * limb_pow (j - 1)) as P0 by (rewrite <- limb_pow_S; f_equal; lia).
  rewrite limb_pow_S, P0. generalize (limb_pow (j - 1)). intros p.
  assert (s2 + 2 ^ 64 * (c1' + c2') = t !!! j + a !!! j * bi + m * n !!! j + (c1 + c2)) as E by lia.
  apply (f_equal (λ x, x * p)) in E. lia.
Qed.

Lemma uval_one t : (1 ≤ length t)%nat →
  uval t = t !!! 0%nat + 2 ^ 64 * uval (drop 1 t) ∧ uval (take 1 t) = t !!! 0%nat.
Proof.
  clear. destruct t as [|x t]; [simpl; lia|]. intros _. change ((x :: t) !!! 0%nat) with x.
  change (drop 1 (x :: t)) with t. change (take 1 (x :: t)) with [x]. cbn [uval]. lia.
Qed.

Lemma tail_row_spec bi t ts : u64 bi → limbs_ok t → length t = l → u64 ts → (1 ≤ l)%nat →
  ∃ t' ts' m, tail_row n np a bi t ts = (t', ts') ∧ limbs_ok t' ∧ length t' = l ∧ u64 ts'
    ∧ 0 ≤ m < 2 ^ 64
    ∧ 2 ^ 64 * acc_value t' ts' = acc_value t ts + bi * uval a + m * uval n.
Proof using Hn Ha Hla Hnp Hinv.
  intros Hbi Ht Hlt Hts Hl. unfold tail_row. fold l.
  pose proof (lookup_total_ok t 0 Ht ltac:(lia)) as Ht0.
  pose proof (lookup_total_ok a 0 Ha ltac:(lia)) as Ha0. assert (u64 0) as H0 by done.
  destruct (mac_spec _ _ _ _ Ht0 Ha0 Hbi H0) as (s0 & c1 & -> & Hs0 & Hc1 & E1).
  destruct (mac_cancels s0 Hs0 ltac:(lia)) as (c2 & -> & Hc2 & Hm & E2). set (m := wmul 64 s0 np) in *.
  destruct (tail_columns_spec bi m (l - 1) Hbi Hm 1 t c1 c2)
    as (t' & e1 & e2 & -> & Hok & Hlen & He1 & He2 & Hbal); try done; try lia.
  set (S0 := ts + e1 + e2). unfold in_width in Hts, He1, He2.
  destruct (carry_split S0) as (ES & Hlo & Hhi); [lia|].
  eexists _, _, m. split; [reflexivity|]. split_and!; [by apply Forall_insert|by rewrite length_insert|done|apply Hm|apply Hm|].
  unfold acc_value, tail_balance in *.
  rewrite drop_ge in Hbal by lia. change (uval []) with 0 in Hbal.
  assert (uval (<[(l - 1)%nat := as_u64 S0]> t') = uval (take (l - 1) t') + as_u64 S0 * limb_pow (l - 1)) as ->.
  { rewrite <- (take_ge (<[(l - 1)%nat := as_u64 S0]> t') l) by (rewrite length_insert; lia).
    replace l with (S (l - 1)) at 1 by lia. by rewrite uval_take_insert by lia. }
  destruct (uval_one a ltac:(lia)) as [_ A1]. destruct (uval_one n ltac:(lia)) as [_ N1].
  destruct (uval_one t ltac:(lia)) as [T1 _]. rewrite T1.
  change (1 - 1)%nat with 0%nat in Hbal. change (uval (take 0 t)) with 0 in Hbal.
  change (limb_pow 1) with (2 ^ 64) in Hbal. rewrite A1, N1 in Hbal.
  rewrite (take_ge a l), (take_ge n l) in Hbal by lia.
  assert (limb_pow l = 2 ^ 64 * limb_pow (l - 1)) as P0 by (rewrite <- limb_pow_S; f_equal; lia).
  rewrite P0 in *. revert Hbal. generalize (limb_pow (l - 1)). intros p Hbal.
  assert (2 ^ 64 * as_u64 (Z.shiftr S0 64) * p = (S0 - as_u64 S0) * p) as EF by (f_equal; lia).
  unfold S0 in *. lia.
Qed.

(** ** All rows *)

(** After [i] rows the accumulator is the partial product plus a multiple of [n], all
    divided by [2^(64 i)]. *)
Definition rows_done (b : list Z) (i : nat) (t : list Z) (ts : Z) : Prop :=
  limbs_ok t ∧ length t = l ∧ u64 ts ∧ ∃ M, 0 ≤ M < limb_pow i
    ∧ limb_pow i * acc_value t ts = uval (take i b) * uval a + M * uval n.

Lemma pair_loop_spec b fuel : limbs_ok b → length b = l → ∀ i t ts, (i ≤ l)%nat → (l - i ≤ fuel)%nat →
  rows_done b i t ts → ∃ i' t' ts', pair_loop n np a b fuel i t ts = (i', t', ts')
    ∧ (i' = l ∨ S i' = l) ∧ rows_done b i' t' ts'.
Proof using Hn Ha Hla Hnp Hinv.
  intros Hb Hlb. induction fuel as [|fuel IH]; intros i t ts Hi Hf Hr.
  { exists i, t, ts. split_and!; [done|lia|done]. }
  cbn [pair_loop]. fold l. destruct (Nat.ltb_spec (S i) l) as [Hlt|Hge].
  - destruct Hr as (Ht & Hlt' & Hts & M & HM & HT).
    destruct (pair_rows_spec (b !!! i) (b !!! S i) t ts) as (t' & ts' & m & -> & Hok & Hlen & Hts' & Hm & Heq);
      try done; [by apply lookup_total_ok; [|lia].. |lia|].
    apply IH; [lia|lia|]. split_and!; [done..|]. exists (M + limb_pow i * m).
    assert (limb_pow (S (S i)) = 2 ^ 128 * limb_pow i) as HP by (rewrite !limb_pow_S; lia).
    pose proof (limb_pow_pos i). rewrite HP. split; [nia|].
    rewrite !uval_take_S, limb_pow_S by lia. apply (f_equal (λ x, limb_pow i * x)) in Heq. lia.
  - exists i, t, ts. split_and!; [done|lia|done].
Qed.
End kernel_proofs.

(** The kernel computes the Montgomery product. *)
Lemma mont_mul_kernel_spec n np a b out : limbs_ok n → u64 np → (2 ^ 64 | 1 + np * n !!! 0%nat) →
  limbs_ok a → limbs_ok b → (length n ≤ length a)%nat → (length n ≤ length b)%nat → (1 ≤ length n)%nat →
  0 < uval n → uval (take (length n) a) ≤ uval n →
  ∃ r, mont_mul_kernel n np a b out = r ++ drop (length n) out ∧ limbs_ok r ∧ length r = length n
    ∧ uval r < uval n
    ∧ (limb_pow (length n) * uval r) mod uval n
      = (uval (take (length n) a) * uval (take (length n) b)) mod uval n.
Proof.
  intros Hn Hnp Hinv Ha Hb Hla Hlb Hl Hpos Han. unfold mont_mul_kernel.
  set (l := length n) in *. set (a' := take l a) in *. set (b' := take l b) in *.
  assert (limbs_ok a') as Ha' by (by apply Forall_take). assert (limbs_ok b') as Hb' by (by apply Forall_take).
  assert (length a' = length n) as Hla' by (unfold a'; rewrite length_take; lia).
  assert (length b' = length n) as Hlb' by (unfold b'; rewrite length_take; lia).
  destruct (pair_loop_spec n np a' Hn Ha' Hla' Hnp Hinv b' l Hb' Hlb' 0 (replicate l 0) 0)
    as (i & t & ts & -> & Hi & Hr); [lia|lia| |].
  { split_and!; [by apply zero_limbs_ok|by rewrite length_replicate|done|].
    exists 0. unfold acc_value. fold (uint_zero l). rewrite uval_zero.
    change (limb_pow 0) with 1. change (uval (take 0 b')) with 0. split; lia. }
  assert (∃ t' ts', (if (i <? l)%nat then tail_row n np a' (b' !!! i) t ts else (t, ts)) = (t', ts')
    ∧ rows_done n a' b' l t' ts') as (t' & ts' & -> & Hok & Hlt & Hts & M & HM & HT).
  { destruct (Nat.ltb_spec i l) as [Hlt|Hge]; cycle 1.
    { exists t, ts. split; [done|]. by replace l with i by lia. }
    destruct Hr as (Ht & Hlt' & Hts & M & HM & HT).
    destruct (tail_row_spec n np a' Hn Ha' Hla' Hnp Hinv (b' !!! i) t ts)
      as (t' & ts' & m & -> & Hok & Hlen & Hts' & Hm & Heq); try done.
    { apply lookup_total_ok; [done|]. rewrite Hlb'. exact Hlt. }
    exists t', ts'. split; [done|]. split_and!; [done..|]. exists (M + limb_pow i * m).
    replace l with (S i) by (unfold l in *; lia). pose proof (limb_pow_pos i).
    rewrite limb_pow_S. split; [nia|].
    rewrite uval_take_S by (rewrite Hlb'; exact Hlt).
    apply (f_equal (λ x, limb_pow i * x)) in Heq. lia. }
  rewrite (take_ge b') in HT by (rewrite Hlb'; unfold l; lia).
  pose proof (uval_range b' Hb') as Hbr. rewrite Hlb' in Hbr. fold l in Hbr.
  pose proof (uval_range a' Ha') as Har.
  assert (acc_value n t' ts' < 2 * uval n) as HT2 by nia.
  destruct (mont_final_sub_spec n t' ts' out) as (r & -> & Hr' & Hlr & Hvr); try done.
  exists r. fold l in Hlr. split_and!; [done..| |].
  - rewrite Hvr. by apply Z.mod_pos_bound.
  - rewrite Hvr. fold l. change (uval t' + limb_pow l * ts') with (acc_value n t' ts').
    rewrite Z.mul_mod_idemp_r, HT, Z_mod_plus_full by lia. f_equal. lia.
Qed.

(** * The modulus context *)

(** Cancelling a power of two modulo an odd number. *)
Lemma cancel_pow2 N k x y : 0 < N → N mod 2 = 1 → 0 ≤ k →
  (2 ^ k * x) mod N = (2 ^ k * y) mod N → x mod N = y mod N.
Proof.
  intros HN Hodd Hk Heq.
  assert (Z.gcd N (2 ^ k) = 1) as Hrel.
  { apply Z.coprime_pow_r; [done|]. apply Z.bezout_1_gcd.
    exists 1, (- (N / 2)). pose proof (Z.div_mod N 2 ltac:(lia)). lia. }
  assert ((N | 2 ^ k * (x - y))) as Hdiv.
  { apply Z.mod_divide; [lia|]. rewrite Z.mul_sub_distr_l.
    rewrite Zminus_mod, Heq, Z.sub_diag. by apply Z.mod_0_l; lia. }
  apply Z.gauss in Hdiv; [|done]. destruct Hdiv as [q Hq].
  replace x with (y + q * N) by lia. apply Z_mod_plus_full.
Qed.

(** An operand: [LIMBS] limbs standing for a residue. *)
Definition residue (m : Uint) (x : Uint) : Prop :=
  limbs_ok x ∧ length x = length m ∧ uval x < uval m.

(** A context whose kernel parameters fit its modulus, of significant width [s]. *)
Record mont_ok (mm : MontModulus) : Prop := {
  mo_limbs : limbs_ok (mm_modulus mm);
  mo_width : (1 ≤ mm_limbs mm ≤ length (mm_modulus mm))%nat;
  mo_high : uval (mm_modulus mm) < limb_pow (mm_limbs mm);
  mo_big : 1 < uval (mm_modulus mm);
  mo_odd : uval (mm_modulus mm) mod 2 = 1;
  mo_np : u64 (mm_n_prime mm);
  mo_inv : (2 ^ 64 | 1 + mm_n_prime mm * mm_modulus mm !!! 0%nat) }.

Lemma uval_take_small l s : limbs_ok l → uval l < limb_pow s → uval (take s l) = uval l.
Proof.
  intros Hl Hlt. destruct (Nat.le_gt_cases (length l) s) as [|Hs]; [by rewrite take_ge|].
  pose proof (uval_range _ (Forall_take _ s l Hl)). pose proof (uval_range _ (Forall_drop _ s l Hl)).
  pose proof (uval_app (take s l) (drop s l)) as Happ. rewrite take_drop, length_take, Nat.min_l in Happ by lia.
  pose proof (limb_pow_pos s). destruct (Z.eq_dec (uval (drop s l)) 0) as [Hz|Hz]; [lia|].
  assert (limb_pow s * 1 ≤ limb_pow s * uval (drop s l)) by (apply Z.mul_le_mono_nonneg_l; lia). lia.
Qed.

Section context.
Context (mm : MontModulus) (Hok : mont_ok mm).
Let m := mm_modulus mm.
Let N := uval m.
Let R := limb_pow (mm_limbs mm).

Lemma mont_mul_spec a b : residue m a → residue m b →
  residue m (mont_mul mm a b) ∧ (R * uval (mont_mul mm a b)) mod N = (uval a * uval b) mod N.
Proof using Hok.
  intros (Ha & Hla & Han) (Hb & Hlb & Hbn). destruct Hok as [Hm Hw Hh Hbig Hodd Hnp Hinv].
  fold m N in Hm, Hw, Hh, Hbig, Hodd, Hinv. set (s := mm_limbs mm) in *.
  assert (length (take s m) = s) as Hls by (rewrite length_take; lia).
  assert (uval (take s m) = N) as HN by (by apply uval_take_small).
  destruct (mont_mul_kernel_spec (take s m) (mm_n_prime mm) a b (replicate (length m) 0))
    as (r & Hk & Hr & Hlr & Hlt & Hval).
  - by apply Forall_take.
  - done.
  - rewrite lookup_total_take_lt || rewrite list_lookup_total_alt, lookup_take_lt, <- list_lookup_total_alt; [done|lia].
  - done.
  - done.
  - rewrite Hls. lia.
  - rewrite Hls. lia.
  - lia.
  - rewrite HN. lia.
  - rewrite Hls, HN, uval_take_small by (done || lia). lia.
  - rewrite Hls, HN in *. rewrite !uval_take_small in Hval by (done || lia).
    unfold mont_mul. fold m s. rewrite Hk.
    assert (uval (r ++ drop s (replicate (length m) 0)) = uval r) as Hu.
    { rewrite uval_app, drop_replicate. fold (uint_zero (length m - s)). rewrite uval_zero. lia. }
    split; [split_and!|].
    + apply Forall_app. split; [done|]. apply Forall_drop, zero_limbs_ok.
    + rewrite length_app, length_drop, length_replicate, Hlr. lia.
    + by rewrite Hu.
    + by rewrite Hu.
Qed.

Lemma R_pow : R = 2 ^ (64 * Z.of_nat (mm_limbs mm)).
Proof. done. Qed.

Lemma mont_cancel x y : (R * x) mod N = (R * y) mod N → x mod N = y mod N.
Proof using Hok.
  destruct Hok as [Hm Hw Hh Hbig Hodd Hnp Hinv]. apply cancel_pow2;
    [change (0 < uval (mm_modulus mm)); lia|exact Hodd|lia].
Qed.

Lemma residue_mod x : residue m x → uval x = uval x mod N.
Proof using. intros (Hx & _ & Hlt). symmetry. apply Z.mod_small. pose proof (uval_range x Hx). unfold N. lia. Qed.

(** Multiplying by [R^2] in Montgomery form multiplies by [R]. *)
Lemma mont_mul_r2 x : residue m x → residue m (mm_r2 mm) → uval (mm_r2 mm) = (R * R) mod N →
  residue m (mont_mul mm x (mm_r2 mm)) ∧ uval (mont_mul mm x (mm_r2 mm)) = (R * uval x) mod N.
Proof using Hok.
  intros Hx Hr2 Hv. destruct (mont_mul_spec x (mm_r2 mm) Hx Hr2) as [Hres Heq]. split; [done|].
  rewrite (residue_mod _ Hres). apply mont_cancel. rewrite Heq, Hv.
  assert (N ≠ 0) by (destruct Hok as [? ? ? Hbig]; fold m N in Hbig; lia).
  rewrite Z.mul_mod_idemp_r by done. f_equal. lia.
Qed.

(** One Montgomery squaring of the construction. *)
Lemma mont_sqr_pow x e : 0 ≤ e → residue m x → uval x = (2 ^ e * R) mod N →
  residue m (mont_mul mm x x) ∧ uval (mont_mul mm x x) = (2 ^ (2 * e) * R) mod N.
Proof using Hok.
  intros He Hx Hv. destruct (mont_mul_spec x x Hx Hx) as [Hres Heq]. split; [done|].
  rewrite (residue_mod _ Hres). apply mont_cancel. rewrite Heq, Hv.
  assert (N ≠ 0) by (destruct Hok as [? ? ? Hbig]; fold m N in Hbig; lia).
  rewrite <- Z.mul_mod by done. f_equal. replace (2 * e) with (e + e) by lia.
  rewrite Z.pow_add_r by lia. ring.
Qed.
End context.

(** ** Construction *)

Lemma significant_spec n s : (1 ≤ s)%nat →
  (1 ≤ significant n s ≤ s)%nat
  ∧ (∀ k, (significant n s ≤ k < s)%nat → n !!! k = 0)
  ∧ (significant n s = 1%nat ∨ n !!! (significant n s - 1)%nat ≠ 0).
Proof.
  induction s as [|s IH]; intros Hs; [lia|]. destruct s as [|s].
  { cbn [significant]. split; [lia|]. split; [intros; lia|by left]. }
  change (significant n (S (S s))) with (if n !!! S s =? 0 then significant n (S s) else S (S s)).
  destruct (Z.eqb_spec (n !!! S s) 0) as [Hz|Hnz].
  - destruct (IH ltac:(lia)) as (H1 & H2 & H3). split; [lia|]. split; [|done].
    intros k Hk. destruct (decide (k = S s)) as [->|]; [done|]. apply H2. lia.
  - split; [lia|]. split; [intros; lia|right]. by replace (S (S s) - 1)%nat with (S s) by lia.
Qed.

Lemma uval_high_zero l s : (s ≤ length l)%nat → (∀ k, (s ≤ k < length l)%nat → l !!! k = 0) →
  uval (drop s l) = 0.
Proof.
  intros Hs Hz. remember (length l - s)%nat as d eqn:Hd. revert s Hs Hz Hd.
  induction d as [|d IH]; intros s Hs Hz Hd.
  { by rewrite drop_ge by lia. }
  rewrite uval_drop_S by lia. rewrite (Hz s) by lia.
  rewrite IH by (lia || (intros k Hk; apply Hz; lia)). lia.
Qed.

(** The bit length [new] computes. *)
Lemma bits_spec m : limbs_ok m → (1 ≤ length m)%nat → uval m mod 2 = 1 →
  let s := significant m (length m) in
  let bits := 64 * Z.of_nat s - leading_zeros (m !!! (s - 1)%nat) in
  (1 ≤ s ≤ length m)%nat ∧ uval m < limb_pow s ∧ 64 * (Z.of_nat s - 1) < bits ≤ 64 * Z.of_nat s
  ∧ 2 ^ (bits - 1) ≤ uval m.
Proof.
  intros Hm Hl Hodd s bits. destruct (significant_spec m (length m) Hl) as (Hs & Hz & Htop). fold s in Hs, Hz, Htop.
  pose proof (uval_high_zero m s ltac:(lia) Hz) as Hd.
  pose proof (uval_app (take s m) (drop s m)) as Happ.
  rewrite take_drop, Hd, length_take, Nat.min_l in Happ by lia.
  pose proof (uval_range _ (Forall_take _ s m Hm)) as Hr. rewrite length_take, Nat.min_l in Hr by lia.
  pose proof (uval_take_S m (s - 1) ltac:(lia)) as HtS. replace (S (s - 1)) with s in HtS by lia.
  pose proof (uval_range _ (Forall_take _ (s - 1)%nat m Hm)) as Hr1.
  pose proof (lookup_total_ok m (s - 1) Hm ltac:(lia)) as Hlt. unfold in_width in Hlt.
  set (top := m !!! (s - 1)%nat) in *.
  assert (0 < top) as Htp.
  { destruct Htop as [Hs1|]; [|lia]. rewrite Hs1 in *. change (1 - 1)%nat with 0%nat in *.
    change (limb_pow 0) with 1 in HtS. change (uval (take 0 m)) with 0 in HtS.
    destruct (Z.eq_dec top 0) as [E|]; [|lia]. exfalso.
    assert (uval m = 0) as H0 by lia. by rewrite H0 in Hodd. }
  pose proof (Z.log2_spec top Htp) as Hlog. pose proof (Z.log2_nonneg top).
  assert (Z.log2 top < 64) as Hlog64 by (apply Z.log2_lt_pow2; lia).
  assert (bits - 1 = 64 * (Z.of_nat s - 1) + Z.log2 top) as Hbits.
  { unfold bits, leading_zeros. rewrite (proj2 (Z.eqb_neq top 0)) by lia. lia. }
  split_and!; [lia|lia|lia|lia|lia|].
  rewrite Hbits, Z.pow_add_r by lia.
  assert (limb_pow (s - 1) = 2 ^ (64 * (Z.of_nat s - 1))) as HP by (unfold limb_pow; f_equal; lia).
  rewrite <- HP. pose proof (limb_pow_pos (s - 1)). rewrite Happ, HtS. nia.
Qed.

Section construction.
Context (m : Uint) (Hm : limbs_ok m) (Hl : (1 ≤ length m)%nat) (Hodd : uval m mod 2 = 1) (Hbig : 1 < uval m).
Let s := significant m (length m).
Let bits := 64 * Z.of_nat s - leading_zeros (m !!! (s - 1)%nat).

Lemma head_parity : (m !!! 0%nat) mod 2 = 1.
Proof using Hl Hodd.
  destruct (uval_one m Hl) as [Hu _]. rewrite Hu in Hodd.
  replace (2 ^ 64 * uval (drop 1 m)) with (2 ^ 63 * uval (drop 1 m) * 2) in Hodd by lia.
  by rewrite Z_mod_plus_full in Hodd.
Qed.

Lemma partial_ok r2 : mont_ok (mkMontModulus m (wneg 64 (inv_mod_2_64 (m !!! 0%nat))) r2 s).
Proof using Hm Hl Hodd Hbig.
  destruct (bits_spec m Hm Hl Hodd) as (Hs & Hlt & _). fold s in Hs, Hlt.
  destruct (n_prime_spec _ head_parity) as [Hnp Hinv]. by constructor.
Qed.

Lemma start_spec : residue m (<[Z.to_nat ((bits - 1) / 64) := Z.shiftl 1 ((bits - 1) mod 64)]>
    (replicate (length m) 0))
  ∧ uval (<[Z.to_nat ((bits - 1) / 64) := Z.shiftl 1 ((bits - 1) mod 64)]> (replicate (length m) 0))
    = 2 ^ (bits - 1).
Proof using Hm Hl Hodd Hbig.
  destruct (bits_spec m Hm Hl Hodd) as (Hs & Hlt & Hb & Hle).
  fold s in Hs, Hlt, Hb, Hle. fold bits in Hb, Hle.
  pose proof (Z.div_mod (bits - 1) 64 ltac:(lia)) as Hd.
  pose proof (Z.mod_pos_bound (bits - 1) 64 ltac:(lia)) as Hmod.
  set (k := Z.to_nat ((bits - 1) / 64)) in *.
  assert ((bits - 1) / 64 = Z.of_nat s - 1) as Hk by (symmetry; apply (Z.div_unique_pos _ _ _ ((bits - 1) mod 64)); lia).
  assert (k < length m)%nat as Hklt by (unfold k; lia).
  assert (Z.shiftl 1 ((bits - 1) mod 64) = 2 ^ ((bits - 1) mod 64)) as Hsh by (by rewrite Z.shiftl_1_l).
  assert (uval (<[k := Z.shiftl 1 ((bits - 1) mod 64)]> (replicate (length m) 0)) = 2 ^ (bits - 1)) as Hv.
  { rewrite uval_insert by (by rewrite length_replicate).
    fold (uint_zero (length m)). rewrite uval_zero. unfold uint_zero.
    rewrite lookup_total_replicate_2 by done. rewrite Hsh, Z.sub_0_r, Z.add_0_l.
    unfold limb_pow. rewrite <- Z.pow_add_r by lia. f_equal. lia. }
  split; [|done]. split_and!.
  - apply Forall_insert; [apply zero_limbs_ok|]. rewrite Hsh. split; [apply Z.pow_nonneg; lia|].
    apply Z.pow_lt_mono_r; lia.
  - by rewrite length_insert, length_replicate.
  - rewrite Hv. destruct (Z.eq_dec (2 ^ (bits - 1)) (uval m)) as [E|]; [exfalso|lia].
    rewrite <- E in Hodd, Hbig. destruct (Z.eq_dec (bits - 1) 0) as [E0|]; [rewrite E0 in Hbig; done|].
    replace (bits - 1) with (bits - 2 + 1) in Hodd by lia. rewrite Z.pow_add_r in Hodd by lia.
    rewrite Z_mod_mult in Hodd. done.
Qed.

Lemma doublings_spec k x e : residue m x → uval x = 2 ^ e mod uval m → 0 ≤ e →
  residue m (Nat.iter k (λ x, add_mod m x x) x)
  ∧ uval (Nat.iter k (λ x, add_mod m x x) x) = 2 ^ (e + Z.of_nat k) mod uval m.
Proof using Hm Hl Hbig.
  intros Hx Hv He. induction k as [|k [IHr IHv]].
  { split; [done|]. by rewrite Z.add_0_r. }
  cbn [Nat.iter nat_rect]. change (nat_rect _ _ _ k) with (Nat.iter k (λ x, add_mod m x x) x).
  destruct IHr as (H1 & H2 & H3).
  destruct (add_mod_spec m _ _ Hm H1 H1 H2 H2 H3 H3) as (A & B & C).
  split.
  - split_and!; [done..|]. rewrite C. apply Z.mod_pos_bound. lia.
  - rewrite C, IHv, <- Z.add_mod by lia. f_equal.
    replace (e + Z.of_nat (S k)) with (e + Z.of_nat k + 1) by lia. rewrite (Z.pow_add_r 2 (e + Z.of_nat k) 1) by lia. lia.
Qed.

Lemma mont_new_spec : ∃ mm, mont_new m = Some mm ∧ mont_ok mm ∧ mm_modulus mm = m
  ∧ residue m (mm_r2 mm) ∧ uval (mm_r2 mm) = (limb_pow (mm_limbs mm) * limb_pow (mm_limbs mm)) mod uval m.
Proof using Hm Hl Hodd Hbig.
  unfold mont_new. rewrite land_1, head_parity. cbn [Z.eqb Pos.eqb]. fold s bits.
  eexists. split; [reflexivity|]. split; [apply partial_ok|]. split; [done|].
  cbn [with_shape mm_r2 mm_limbs mm_modulus].
  destruct (bits_spec m Hm Hl Hodd) as (Hs & Hlt & Hb & Hle).
  fold s in Hs, Hlt, Hb, Hle. fold bits in Hb, Hle.
  destruct start_spec as [Hst Hsv].
  set (k := Z.to_nat (64 * Z.of_nat s - bits + 1 + Z.of_nat s)).
  destruct (doublings_spec k _ (bits - 1) Hst) as [Hdr Hdv]; [|lia|].
  { rewrite Hsv. symmetry. apply Z.mod_small. split; [apply Z.pow_nonneg; lia|].
    destruct Hst as (_ & _ & H). by rewrite Hsv in H. }
  replace (bits - 1 + Z.of_nat k) with (Z.of_nat s + 64 * Z.of_nat s) in Hdv by (unfold k; lia).
  rewrite Z.pow_add_r in Hdv by lia. fold (limb_pow s) in Hdv.
  set (x0 := Nat.iter k _ _) in *. set (mm0 := mkMontModulus m _ (uint_zero (length m)) s).
  pose proof (partial_ok (uint_zero (length m)) : mont_ok mm0) as Hok0.
  cbn [Nat.iter nat_rect].
  destruct (mont_sqr_pow mm0 Hok0 _ (Z.of_nat s) ltac:(lia) Hdr Hdv) as [R1 V1].
  destruct (mont_sqr_pow mm0 Hok0 _ (2 * Z.of_nat s) ltac:(lia) R1 V1) as [R2 V2].
  destruct (mont_sqr_pow mm0 Hok0 _ (2 * (2 * Z.of_nat s)) ltac:(lia) R2 V2) as [R3 V3].
  destruct (mont_sqr_pow mm0 Hok0 _ (2 * (2 * (2 * Z.of_nat s))) ltac:(lia) R3 V3) as [R4 V4].
  destruct (mont_sqr_pow mm0 Hok0 _ (2 * (2 * (2 * (2 * Z.of_nat s)))) ltac:(lia) R4 V4) as [R5 V5].
  destruct (mont_sqr_pow mm0 Hok0 _ (2 * (2 * (2 * (2 * (2 * Z.of_nat s))))) ltac:(lia) R5 V5) as [R6 V6].
  split; [exact R6|]. etransitivity; [exact V6|]. cbn [mm0 mm_limbs mm_modulus].
  f_equal. f_equal. unfold limb_pow. f_equal. lia.
Qed.
End construction.

Lemma uint_one_residue m : limbs_ok m → (1 ≤ length m)%nat → 1 < uval m →
  residue m (uint_from_u64 (length m) 1) ∧ uval (uint_from_u64 (length m) 1) = 1.
Proof.
  intros Hm Hl Hbig. unfold uint_from_u64.
  assert (uval (<[0%nat := 1]> (replicate (length m) 0)) = 1) as Hv.
  { rewrite uval_insert by (rewrite length_replicate; lia). fold (uint_zero (length m)).
    rewrite uval_zero. unfold uint_zero. rewrite lookup_total_replicate_2 by lia. done. }
  split; [|done]. split_and!; [|by rewrite length_insert, length_replicate|by rewrite Hv].
  apply Forall_insert; [apply zero_limbs_ok|done].
Qed.

#[global] Instance residue_dec m x : Decision (residue m x).
Proof. unfold residue. apply _. Defined.

(** * Claims *)

(** C40: the two-rows-per-pass CIOS kernel computes the Montgomery product.  For an odd
    modulus of [l] limbs with [n' = -n^-1 mod 2^64], a first operand at most the modulus
    and any second operand, the [l] limbs written are a residue [r < n] with
    [2^(64 l) r = a b] modulo [n], and the rest of the output buffer is untouched.  The
    interleaved carry chains, the odd-width tail row and the single conditional
    subtraction are all covered, at every width. *)
Theorem mont_mul_kernel_correct : ∀ n np a b out,
  limbs_ok n → u64 np → (2 ^ 64 | 1 + np * n !!! 0%nat) → limbs_ok a → limbs_ok b →
  (length n ≤ length a)%nat → (length n ≤ length b)%nat → (1 ≤ length n)%nat →
  (length n ≤ length out)%nat → 0 < uval n → uval (take (length n) a) ≤ uval n →
  ∃ r, mont_mul_kernel n np a b out = r ++ drop (length n) out ∧ limbs_ok r ∧ length r = length n
    ∧ uval r < uval n
    ∧ (limb_pow (length n) * uval r) mod uval n
      = (uval (take (length n) a) * uval (take (length n) b)) mod uval n.
Proof. intros n np a b out H1 H2 H3 H4 H5 H6 H7 H8 _. by apply mont_mul_kernel_spec. Qed.

Lemma mont_mul_kernel_correct_witness : ∃ r,
  mont_mul_kernel [7; 0; 1] (wneg 64 (inv_mod_2_64 7)) [5; 6; 0] [9; 8; 0] [1; 2; 3; 4] = r ++ [4]
  ∧ (2 ^ 192 * uval r) mod uval [7; 0; 1] = (uval [5; 6; 0] * uval [9; 8; 0]) mod uval [7; 0; 1].
Proof.
  destruct (mont_mul_kernel_correct [7; 0; 1] (wneg 64 (inv_mod_2_64 7)) [5; 6; 0] [9; 8; 0] [1; 2; 3; 4])
    as (r & H1 & _ & _ & _ & H2).
  - apply (bool_decide_unpack _). vm_compute. exact I.
  - apply (bool_decide_unpack _). vm_compute. exact I.
  - exists 4. vm_compute. reflexivity.
  - apply (bool_decide_unpack _). vm_compute. exact I.
  - apply (bool_decide_unpack _). vm_compute. exact I.
  - simpl. lia.
  - simpl. lia.
  - simpl. lia.
  - simpl. lia.
  - vm_compute. reflexivity.
  - vm_compute. discriminate.
  - exists r. split; [exact H1|exact H2].
Defined.

(** Modular helpers.  Newton's iteration returns the inverse of an odd word modulo
    [2^64]; [add_mod] and [sub_mod] are addition and subtraction modulo the modulus, for
    residues of any width, whatever the carries out of the top limb. *)
Theorem modular_helpers_correct : ∀ n a b w, limbs_ok n → residue n a → residue n b → w mod 2 = 1 →
  (w * inv_mod_2_64 w) mod 2 ^ 64 = 1
  ∧ residue n (add_mod n a b) ∧ uval (add_mod n a b) = (uval a + uval b) mod uval n
  ∧ residue n (sub_mod n a b) ∧ uval (sub_mod n a b) = (uval a - uval b) mod uval n.
Proof.
  intros n a b w Hn (Ha & Hla & Han) (Hb & Hlb & Hbn) Hw.
  destruct (add_mod_spec n a b Hn Ha Hb Hla Hlb Han Hbn) as (A1 & A2 & A3).
  destruct (sub_mod_spec n a b Hn Ha Hb Hla Hlb Han Hbn) as (S1 & S2 & S3).
  pose proof (uval_range a Ha). assert (0 < uval n) as Hpos by lia.
  pose proof (Z.mod_pos_bound (uval a + uval b) (uval n) Hpos).
  pose proof (Z.mod_pos_bound (uval a - uval b) (uval n) Hpos).
  assert (residue n (add_mod n a b)) as R1 by (split; [done|split; [done|rewrite A3; lia]]).
  assert (residue n (sub_mod n a b)) as R2 by (split; [done|split; [done|rewrite S3; lia]]).
  split; [|split; [exact R1|split; [exact A3|split; [exact R2|exact S3]]]].
  destruct (inv_mod_2_64_spec w Hw) as [_ [k Hk]].
  symmetry. apply (Z.mod_unique_pos _ _ k); lia.
Qed.

Lemma modular_helpers_correct_witness :
  uval (sub_mod [13; 1] [3; 0] [5; 0]) = (3 - 5) mod (13 + 2 ^ 64).
Proof.
  refine (proj2 (proj2 (proj2 (proj2 (modular_helpers_correct [13; 1] [3; 0] [5; 0] 3 _ _ _ _))))).
  - apply (bool_decide_unpack _). vm_compute. exact I.
  - apply (bool_decide_unpack _). vm_compute. exact I.
  - apply (bool_decide_unpack _). vm_compute. exact I.
  - reflexivity.
Defined.

(** Montgomery contexts.  For every odd modulus above 1, of any width and with any
    number of leading zero limbs, [new] succeeds and its [r2] is [R^2] modulo the modulus
    for [R = 2^(64 s)], [s] the significant width; conversion into Montgomery form is
    multiplication by [R] and is undone by [from_mont]; and [mul_mod] is multiplication
    modulo the modulus.  For an even modulus [new] stops at its assertion. *)
Theorem mont_modulus_correct : ∀ m, limbs_ok m → (1 ≤ length m)%nat →
  (uval m mod 2 = 1 → 1 < uval m →
   ∃ mm, mont_new m = Some mm
     ∧ uval (mm_r2 mm) = (limb_pow (mm_limbs mm) * limb_pow (mm_limbs mm)) mod uval m
     ∧ (∀ x, residue m x → uval (to_mont mm x) = (limb_pow (mm_limbs mm) * uval x) mod uval m
          ∧ uval (from_mont mm (to_mont mm x)) = uval x)
     ∧ (∀ a b, residue m a → residue m b → residue m (mul_mod mm a b)
          ∧ uval (mul_mod mm a b) = (uval a * uval b) mod uval m))
  ∧ (uval m mod 2 = 0 → mont_new m = None).
Proof.
  intros m Hm Hl. split.
  - intros Hodd Hbig. destruct (mont_new_spec m Hm Hl Hodd Hbig) as (mm & Hnew & Hok & <- & Hr2 & Hv).
    exists mm. split; [done|]. split; [done|].
    destruct (uint_one_residue _ Hm Hl Hbig) as [H1 H1v]. split.
    + intros x Hx. destruct (mont_mul_r2 mm Hok x Hx Hr2 Hv) as [Hres Hval]. split; [exact Hval|].
      change (mont_mul mm x (mm_r2 mm)) with (to_mont mm x) in Hres, Hval. unfold from_mont.
      destruct (mont_mul_spec mm Hok _ _ Hres H1) as [Hres' Heq].
      rewrite (residue_mod mm _ Hres'), (residue_mod mm _ Hx).
      apply (mont_cancel mm Hok). rewrite Heq, H1v, Z.mul_1_r, Hval. by apply Z.mod_mod; lia.
    + intros a b Ha Hb. unfold mul_mod. destruct (mont_mul_spec mm Hok a b Ha Hb) as [Hres Heq].
      destruct (mont_mul_r2 mm Hok _ Hres Hr2 Hv) as [Hres' Hval]. split; [done|].
      rewrite Hval. exact Heq.
  - intros Heven. unfold mont_new. rewrite land_1.
    destruct (uval_one m Hl) as [Hu _]. rewrite Hu in Heven.
    replace (2 ^ 64 * uval (drop 1 m)) with (2 ^ 63 * uval (drop 1 m) * 2) in Heven by lia.
    rewrite Z_mod_plus_full in Heven. by rewrite Heven.
Qed.

Lemma mont_modulus_correct_witness : ∃ mm, mont_new [101; 0] = Some mm
  ∧ uval (mul_mod mm [77; 0] [99; 0]) = (77 * 99) mod 101.
Proof.
  destruct (proj1 (mont_modulus_correct [101; 0]
    ltac:(apply (bool_decide_unpack _); vm_compute; exact I) ltac:(simpl; lia)))
    as (mm & Hm & _ & _ & Hmul); [reflexivity|reflexivity|].
  exists mm. split; [exact Hm|]. apply Hmul.
  - apply (bool_decide_unpack _). vm_compute. exact I.
  - apply (bool_decide_unpack _). vm_compute. exact I.
Defined.
