(* ===== verification/MdHash.v ===== *)
(** Merkle–Damgård hashes: the block buffering of [src/hash/block.rs] ([MdState]),
    [src/hash/sha256.rs] ([State256]) and [src/hash/sha512.rs] ([State512]), which is the
    same text at two block sizes, and the two HMAC fast paths on bare compressions of
    [src/hash/hmac.rs].  The compression function is a parameter here; the zeroization of
    finished states is not modelled. *)

From S2P Require Import Prelude.

(** * Blocks *)

(** [chunks_exact]: the whole blocks of [n]; a shorter rest is dropped. *)
Fixpoint chunks_loop {A} (fuel : nat) (n : nat) (l : list A) : list (list A) :=
  match fuel with
  | O => []
  | S fuel => if (length l <? n)%nat then [] else take n l :: chunks_loop fuel n (drop n l)
  end.

Definition chunks_exact {A} (n : nat) (l : list A) : list (list A) := chunks_loop (length l) n l.

(** [buf[off..off + data.len()].copy_from_slice(data)] *)
Definition splice {A} (buf : list A) (off : nat) (data : list A) : list A :=
  take off buf ++ data ++ drop (off + length data) buf.

(** The loop that zeroes [buf[i..j]]. *)
Definition fill_zero (buf : bytes) (i j : nat) : bytes := splice buf i (replicate (j - i) 0).

(** Little-endian bytes, [to_le_bytes]. *)
Definition le_bytes (n : nat) (v : Z) : bytes := rev (be_bytes n v).

(** * The streaming state *)

Record BlockState := mkBlockState { bs_h : list Z; bs_block : bytes; bs_block_len : nat; bs_msg_len : Z }.

(** What tells the hashes apart: the block size, the width in bits of the byte counter
    (which is also that of the length field), its byte order, and the compression. *)
Record Framing := mkFraming {
  fr_block : nat; fr_counter : Z; fr_be : bool;
  fr_compress : list Z → bytes → list Z; fr_compress_blocks : list Z → bytes → list Z }.

Definition len_bytes (fr : Framing) : nat := Z.to_nat (fr_counter fr / 8).

(** The length field for a number of bits. *)
Definition len_field (fr : Framing) (bits : Z) : bytes :=
  if fr_be fr then be_bytes (len_bytes fr) bits else le_bytes (len_bytes fr) bits.

Section buffer.
Context (fr : Framing).
Implicit Types self : BlockState.

Definition bs_new (iv : list Z) : BlockState := mkBlockState iv (replicate (fr_block fr) 0) 0 0.

(** A partially filled block is topped up first: the state and the rest of the data. *)
Definition top_up_block self (data : bytes) : BlockState * bytes :=
  if (0 <? bs_block_len self)%nat then
    let tk := ((fr_block fr - bs_block_len self) `min` length data)%nat in
    let block := splice (bs_block self) (bs_block_len self) (take tk data) in
    let block_len := (bs_block_len self + tk)%nat in
    let data := drop tk data in
    if (block_len =? fr_block fr)%nat
    then (mkBlockState (fr_compress fr (bs_h self) block) block 0 (bs_msg_len self), data)
    else (mkBlockState (bs_h self) block block_len (bs_msg_len self), data)
  else (self, data).

(** Whole blocks straight from the input; [len & !(B - 1)] bytes of it. *)
Definition absorb_full self (data : bytes) : BlockState * bytes :=
  let full := Z.to_nat (Z.land (zlen data) (Z.lnot (Z.of_nat (fr_block fr) - 1))) in
  if (0 <? full)%nat
  then (mkBlockState (fr_compress_blocks fr (bs_h self) (take full data)) (bs_block self) (bs_block_len self) (bs_msg_len self),
        drop full data)
  else (self, data).

(** The remainder waits in the block. *)
Definition stash self (data : bytes) : BlockState :=
  if is_nil data then self
  else mkBlockState (bs_h self) (splice (bs_block self) 0 data) (length data) (bs_msg_len self).

Definition bs_update self (data : bytes) : BlockState :=
  let self := mkBlockState (bs_h self) (bs_block self) (bs_block_len self) (wadd (fr_counter fr) (bs_msg_len self) (zlen data)) in
  let '(self, data) := top_up_block self data in
  let '(self, data) := absorb_full self data in
  stash self data.

(** The padding; the final state words. *)
Definition bs_finalize self : list Z :=
  let bit_len := wmul (fr_counter fr) (bs_msg_len self) 8 in
  let room := (fr_block fr - len_bytes fr)%nat in
  let block := splice (bs_block self) (bs_block_len self) [0x80] in
  let i := (bs_block_len self + 1)%nat in
  let '(h, block, i) :=
    if (room <? i)%nat
    then let block := fill_zero block i (fr_block fr) in (fr_compress fr (bs_h self) block, block, 0%nat)
    else (bs_h self, block, i) in
  let block := fill_zero block i room in
  let block := splice block room (len_field fr bit_len) in
  fr_compress fr h block.

(** * HMAC on bare compressions *)

(** [hmac_iterate_with], one round: the template's head and the accumulator; [out] gives
    the leading [n] bytes of a state. *)
Definition hmac_round (out : list Z → nat → bytes) (inner_h outer_h : list Z) (n : nat) (s : bytes * bytes) : bytes * bytes :=
  let '(block, acc) := s in
  let h := fr_compress fr inner_h block in
  let block := splice block 0 (out h n) in
  let h := fr_compress fr outer_h block in
  let block := splice block 0 (out h n) in
  (block, zip_with Z.lxor acc (take n block)).

Definition hmac_iterate_with (out : list Z → nat → bytes) (inner_h outer_h : list Z) (len_field u acc : bytes) (rounds : nat)
  : bytes * bytes :=
  let n := length u in
  let block := replicate (fr_block fr) 0 in
  let block := splice block 0 u in
  let block := splice block n [0x80] in
  let block := splice block (fr_block fr - length len_field) len_field in
  let '(block, acc) := Nat.iter rounds (hmac_round out inner_h outer_h n) (block, acc) in
  (take n block, acc).

(** [hmac_short_with]: [None] when the message does not fit one padded block. *)
Definition hmac_short_with (out : list Z → nat → bytes) (inner_h outer_h : list Z) (buffered : bytes) (parts : list bytes)
  (max_msg N : nat) : option bytes :=
  let total := (length buffered + sum_list (length <$> parts))%nat in
  if (max_msg <? total)%nat || (max_msg <? N)%nat then None
  else
    let put_len n block := splice block (fr_block fr - len_bytes fr) (len_field fr (8 * Z.of_nat (fr_block fr + n))) in
    let block := splice (replicate (fr_block fr) 0) 0 buffered in
    let '(block, off) := foldl (λ '(block, off) part, (splice block off part, (off + length part)%nat)) (block, length buffered) parts in
    let block := put_len total (splice block total [0x80]) in
    let h := fr_compress fr inner_h block in
    let block := splice block 0 (out h N) in
    let block := fill_zero block N (fr_block fr) in
    let block := put_len N (splice block N [0x80]) in
    Some (out (fr_compress fr outer_h block) N).

(** The states must sit right after their pad blocks. *)
Definition bs_hmac_iterate (out : list Z → nat → bytes) self (outer : BlockState) (N : nat) (u acc : bytes) (rounds : nat)
  : option (bytes * bytes) :=
  let b := Z.of_nat (fr_block fr) in
  if negb (bs_block_len self =? 0)%nat || negb (bs_block_len outer =? 0)%nat || negb (bs_msg_len self =? b) || negb (bs_msg_len outer =? b)
  then None
  else Some (hmac_iterate_with out (bs_h self) (bs_h outer) (len_field fr ((b + Z.of_nat N) * 8)) u acc rounds).

(** The inner state may hold a short message behind its pad block. *)
Definition bs_hmac_short (out : list Z → nat → bytes) (max_msg : nat) self (outer : BlockState) (N : nat) (parts : list bytes)
  : option bytes :=
  let b := Z.of_nat (fr_block fr) in
  if negb (bs_msg_len self =? b + Z.of_nat (bs_block_len self)) || negb (bs_block_len outer =? 0)%nat || negb (bs_msg_len outer =? b)
  then None
  else hmac_short_with out (bs_h self) (bs_h outer) (take (bs_block_len self) (bs_block self)) parts max_msg N.
End buffer.

(** * Lemmas on blocks *)

Section chunks.
Context {A : Type} (n : nat) (Hn : (0 < n)%nat).

Lemma chunks_loop_fuel f1 : ∀ f2 (l : list A), (length l ≤ f1)%nat → (length l ≤ f2)%nat → chunks_loop f1 n l = chunks_loop f2 n l.
Proof using Hn.
  induction f1 as [|f1 IH]; intros [|f2] l H1 H2; cbn [chunks_loop]; try done.
  - rewrite (proj2 (Nat.ltb_lt _ _)) by lia. done.
  - rewrite (proj2 (Nat.ltb_lt _ _)) by lia. done.
  - destruct (Nat.ltb_spec (length l) n); [done|]. f_equal. apply IH; rewrite length_drop; lia.
Qed.

Lemma chunks_exact_cons (l r : list A) : length l = n → chunks_exact n (l ++ r) = l :: chunks_exact n r.
Proof using Hn.
  intros Hl. unfold chunks_exact. destruct (length (l ++ r)) as [|f] eqn:E; rewrite length_app in E; [lia|]. cbn [chunks_loop].
  rewrite length_app. destruct (Nat.ltb_spec (length l + length r) n); [lia|].
  rewrite take_app_length' by done. rewrite drop_app_length' by done. f_equal. apply chunks_loop_fuel; lia.
Qed.

Lemma chunks_exact_short (l : list A) : (length l < n)%nat → chunks_exact n l = [].
Proof using Hn. intros Hl. unfold chunks_exact. destruct (length l) eqn:E; [done|]. cbn [chunks_loop]. rewrite E. by rewrite (proj2 (Nat.ltb_lt _ _)). Qed.

Lemma chunks_exact_app k : ∀ (l r : list A), length l = (k * n)%nat → chunks_exact n (l ++ r) = chunks_exact n l ++ chunks_exact n r.
Proof using Hn.
  induction k as [|k IH]; intros l r Hl; [by destruct l|].
  rewrite <- (take_drop n l), <- app_assoc. assert (length (take n l) = n) by (rewrite length_take; lia).
  rewrite (chunks_exact_cons (take n l) (drop n l ++ r)), (chunks_exact_cons (take n l) (drop n l)) by done. cbn [app]. f_equal. apply IH. rewrite length_drop. lia.
Qed.

Lemma chunks_exact_single (l : list A) : length l = n → chunks_exact n l = [l].
Proof using Hn. intros Hl. rewrite <- (app_nil_r l) at 1. by rewrite chunks_exact_cons, chunks_exact_short. Qed.
End chunks.

Lemma length_splice {A} (buf : list A) off data : (off + length data ≤ length buf)%nat → length (splice buf off data) = length buf.
Proof. intros H. unfold splice. rewrite !length_app, length_take, length_drop. lia. Qed.

Lemma take_splice {A} (buf : list A) off data : (off ≤ length buf)%nat → take (off + length data) (splice buf off data) = take off buf ++ data.
Proof.
  intros H. unfold splice. rewrite app_assoc. apply take_app_length'. rewrite length_app, length_take. lia.
Qed.

Lemma splice_head {A} (l tl data : list A) off : length l = off →
  splice (l ++ tl) off data = l ++ data ++ drop (length data) tl.
Proof.
  intros Hl. unfold splice. rewrite take_app_length' by done. do 2 f_equal. rewrite <- Hl. by rewrite drop_app_add'.
Qed.

(** A block whose live part is known. *)
Lemma block_split {A} (block rest : list A) B : length block = B → take (length rest) block = rest → (length rest ≤ B)%nat →
  ∃ stale, block = rest ++ stale ∧ (length rest + length stale = B)%nat.
Proof.
  intros HB Ht Hle. exists (drop (length rest) block). split; [by rewrite <- Ht at 1; rewrite take_drop|]. rewrite length_drop. lia.
Qed.

(** * What a Merkle–Damgård hash computes *)

Record framing_ok (fr : Framing) : Prop := {
  fo_block : ∃ k, 0 ≤ k ∧ Z.of_nat (fr_block fr) = 2 ^ k;
  fo_counter : 0 < fr_counter fr ∧ fr_counter fr = 8 * Z.of_nat (len_bytes fr);
  fo_room : (len_bytes fr < fr_block fr)%nat;
  fo_width : 16 * Z.of_nat (fr_block fr) < 2 ^ fr_counter fr;
  fo_words : ∀ h b, length (fr_compress fr h b) = length h;
  fo_bulk : ∀ h data k, length data = (k * fr_block fr)%nat →
    fr_compress_blocks fr h data = foldl (fr_compress fr) h (chunks_exact (fr_block fr) data) }.

(** The padding of a message of [n] bytes: a one bit, zeros up to a whole number of
    blocks, the length in bits. *)
Definition md_pad (fr : Framing) (n : Z) : bytes :=
  0x80 :: replicate (Z.to_nat ((- (n + 1 + Z.of_nat (len_bytes fr))) mod Z.of_nat (fr_block fr))) 0
    ++ len_field fr (wrap (fr_counter fr) (8 * n)).

(** The state after the padded message. *)
Definition md_hash (fr : Framing) (iv : list Z) (msg : bytes) : list Z :=
  foldl (fr_compress fr) iv (chunks_exact (fr_block fr) (msg ++ md_pad fr (zlen msg))).

Section stream.
Context (fr : Framing) (Hfr : framing_ok fr) (iv : list Z).
Local Abbreviation B := (fr_block fr).
Implicit Types self : BlockState.

Lemma block_pos : (0 < B)%nat.
Proof using Hfr. destruct (fo_block _ Hfr) as (k & Hk & H). pose proof (Z.pow_pos_nonneg 2 k). lia. Qed.

(** The state has absorbed [msg]: its whole blocks are compressed, the rest is buffered. *)
Record bs_rep self (msg : bytes) : Prop := mk_rep {
  br_len : bs_msg_len self = wrap (fr_counter fr) (zlen msg);
  br_block : length (bs_block self) = B;
  br_split : ∃ pre rest k, msg = pre ++ rest ∧ length pre = (k * B)%nat ∧ (length rest < B)%nat
    ∧ bs_h self = foldl (fr_compress fr) iv (chunks_exact B pre)
    ∧ bs_block_len self = length rest ∧ take (length rest) (bs_block self) = rest }.

Lemma bs_new_rep : bs_rep (bs_new fr iv) [].
Proof using Hfr.
  split.
  - cbn. unfold wrap. by rewrite Z.mod_0_l by (destruct (fo_counter _ Hfr); pose proof (Z.pow_pos_nonneg 2 (fr_counter fr)); lia).
  - cbn. by rewrite length_replicate.
  - exists [], [], 0%nat. split_and!; try done. apply block_pos.
Qed.

Lemma full_len (data : bytes) :
  Z.to_nat (Z.land (zlen data) (Z.lnot (Z.of_nat B - 1))) = (length data / B * B)%nat.
Proof using Hfr.
  destruct (fo_block _ Hfr) as (k & Hk & Hb). rewrite Hb. pose proof (Z.pow_pos_nonneg 2 k ltac:(lia) Hk) as Hp.
  replace (Z.lnot (2 ^ k - 1)) with (- 2 ^ k) by (unfold Z.lnot; lia).
  assert (Z.land (zlen data) (- 2 ^ k) = zlen data / 2 ^ k * 2 ^ k) as ->.
  { rewrite <- Z.shiftl_mul_pow2, <- Z.shiftr_div_pow2 by lia. apply Z.bits_inj'. intros i Hi.
    rewrite Z.land_spec. replace (- 2 ^ k) with (Z.shiftl (-1) k) by (rewrite Z.shiftl_mul_pow2; lia).
    destruct (decide (i < k)).
    - rewrite !Z.shiftl_spec_low by lia. by rewrite andb_false_r.
    - rewrite !Z.shiftl_spec by lia. rewrite Z.bits_m1 by lia. rewrite Z.shiftr_spec by lia. rewrite andb_true_r. f_equal. lia. }
  rewrite <- Hb. unfold zlen. rewrite <- Nat2Z.inj_div, <- Nat2Z.inj_mul, Nat2Z.id. done.
Qed.

Lemma foldl_blocks h k (l r : bytes) : length l = (k * B)%nat →
  foldl (fr_compress fr) h (chunks_exact B (l ++ r)) = foldl (fr_compress fr) (foldl (fr_compress fr) h (chunks_exact B l)) (chunks_exact B r).
Proof using Hfr. intros Hl. rewrite (chunks_exact_app B block_pos k) by done. apply foldl_app. Qed.

Lemma wrap_add_l w a b : wrap w (wrap w a + b) = wrap w (a + b).
Proof. unfold wrap. by rewrite Zplus_mod_idemp_l. Qed.

(** The last two steps of [update], from a state with an empty buffer. *)
Lemma absorb_rep self pre k len (data : bytes) : length pre = (k * B)%nat → bs_block_len self = 0%nat → length (bs_block self) = B →
  bs_h self = foldl (fr_compress fr) iv (chunks_exact B pre) → bs_msg_len self = wrap (fr_counter fr) len → len = zlen (pre ++ data) →
  bs_rep (let '(s, d) := absorb_full fr self data in stash s d) (pre ++ data).
Proof using Hfr.
  intros Hpre Hbl Hb Hh Hm ->. unfold absorb_full. rewrite full_len. set (q := (length data / B)%nat). pose proof block_pos as HB.
  pose proof (Nat.div_mod_eq (length data) B) as Hdm. pose proof (Nat.mod_upper_bound (length data) B) as Hmod.
  assert (length (take (q * B) data) = (q * B)%nat) as Htk by (rewrite length_take; unfold q in *; lia).
  assert (length (drop (q * B) data) < B)%nat as Hdr by (rewrite length_drop; unfold q in *; lia).
  assert (∃ s, (if (0 <? q * B)%nat then (mkBlockState (fr_compress_blocks fr (bs_h self) (take (q * B) data)) (bs_block self)
      (bs_block_len self) (bs_msg_len self), drop (q * B) data) else (self, data)) = (s, drop (q * B) data)
    ∧ bs_h s = foldl (fr_compress fr) iv (chunks_exact B (pre ++ take (q * B) data))
    ∧ bs_block s = bs_block self ∧ bs_block_len s = 0%nat ∧ bs_msg_len s = bs_msg_len self) as (s & -> & S1 & S2 & S3 & S4).
  { destruct (Nat.ltb_spec 0 (q * B)) as [Hpos|H0]; eexists; (split; [done || (replace (q * B)%nat with 0%nat by lia; done)|]).
    - split_and!; try done. cbn [bs_h]. rewrite (fo_bulk _ Hfr _ _ q Htk), Hh. by rewrite (foldl_blocks _ k).
    - split_and!; try done. replace (q * B)%nat with 0%nat by lia. by rewrite take_0, app_nil_r. }
  assert (length (pre ++ take (q * B) data) = ((k + q) * B)%nat) as Hlen by (rewrite length_app; lia).
  unfold stash. destruct (drop (q * B) data) as [|x rest] eqn:Ed; cbn [is_nil].
  - split; [by rewrite S4|by rewrite S2|]. exists (pre ++ data), [], (k + q)%nat.
    assert (take (q * B) data = data) as Et by (rewrite <- (take_drop (q * B) data) at 2; by rewrite Ed, app_nil_r).
    rewrite Et in *. rewrite app_nil_r. split_and!; try done.
  - split; [cbn [bs_msg_len]; by rewrite S4|cbn [bs_block]; rewrite length_splice; rewrite S2; lia|].
    exists (pre ++ take (q * B) data), (x :: rest), (k + q)%nat. split_and!; try done.
    + by rewrite <- app_assoc, <- Ed, take_drop.
    + cbn [bs_block]. apply (take_splice (bs_block s) 0 (x :: rest)). lia.
Qed.

Lemma bs_update_rep self msg data : bs_rep self msg → bs_rep (bs_update fr self data) (msg ++ data).
Proof using Hfr.
  intros [Hm Hb (pre & rest & k & -> & Hpre & Hrest & Hh & Hbl & Htk)]. unfold bs_update.
  assert (wadd (fr_counter fr) (bs_msg_len self) (zlen data) = wrap (fr_counter fr) (zlen ((pre ++ rest) ++ data))) as Hlen.
  { rewrite Hm. unfold wadd. rewrite wrap_add_l, (zlen_app (pre ++ rest)). done. }
  rewrite Hlen. unfold top_up_block. cbn [bs_block_len bs_block bs_h bs_msg_len].
  destruct (block_split _ _ _ Hb Htk ltac:(lia)) as (stale & Hst & Hsl).
  destruct (Nat.ltb_spec 0 (bs_block_len self)) as [Hpos|H0].
  2: { assert (rest = []) as -> by (destruct rest; [done|cbn in *; lia]). rewrite app_nil_r.
       eapply (absorb_rep _ pre k); done. }
  set (tk := ((B - bs_block_len self) `min` length data)%nat).
  assert (splice (bs_block self) (bs_block_len self) (take tk data) = rest ++ take tk data ++ drop tk stale) as Hsp.
  { rewrite Hst, Hbl. rewrite splice_head by done. do 2 f_equal. rewrite length_take. f_equal. lia. }
  rewrite Hsp. destruct (Nat.eqb_spec (bs_block_len self + tk) B) as [Heq|Hne].
  - assert (length (rest ++ take tk data) = B) as Hfull by (rewrite length_app, length_take; lia).
    assert (drop tk stale = []) as Hdr by (apply drop_ge; lia).
    assert ((pre ++ rest) ++ data = (pre ++ (rest ++ take tk data)) ++ drop tk data) as ->
      by (by rewrite <- !app_assoc, take_drop).
    eapply (absorb_rep _ _ (S k)); cbn [bs_block_len bs_block bs_h bs_msg_len]; try done.
    + rewrite length_app. lia.
    + by rewrite Hdr, app_nil_r.
    + rewrite Hdr, app_nil_r, Hh, (foldl_blocks _ k) by done. by rewrite (chunks_exact_single B block_pos _ Hfull).
  - assert (tk = length data) as Htl by lia. rewrite (drop_ge data), (take_ge data) by lia.
    assert (absorb_full fr (mkBlockState (bs_h self) (rest ++ data ++ drop tk stale) (bs_block_len self + tk)
      (wrap (fr_counter fr) (zlen ((pre ++ rest) ++ data)))) [] = (mkBlockState (bs_h self) (rest ++ data ++ drop tk stale) (bs_block_len self + tk)
      (wrap (fr_counter fr) (zlen ((pre ++ rest) ++ data))), [])) as -> by done.
    cbn [stash is_nil]. split; cbn [bs_block_len bs_block bs_h bs_msg_len]; [done|rewrite !length_app, length_drop; lia|].
    exists pre, (rest ++ data), k. split_and!; try done; rewrite ?app_assoc, ?length_app; try done; try lia.
    rewrite <- length_app. by rewrite take_app_length.
Qed.

(** ** The padding *)

Lemma length_len_field bits : length (len_field fr bits) = len_bytes fr.
Proof. unfold len_field, le_bytes. destruct (fr_be fr); rewrite ?length_rev; apply length_be_bytes. Qed.

(** The zeros of the padding behind a tail of [r] bytes, which fit the block or spill. *)
Lemma pad_zeros k r : (r < B)%nat →
  Z.to_nat ((- (Z.of_nat (k * B + r) + 1 + Z.of_nat (len_bytes fr))) mod Z.of_nat B)
  = if (B - len_bytes fr <? r + 1)%nat then (2 * B - len_bytes fr - (r + 1))%nat else (B - len_bytes fr - (r + 1))%nat.
Proof using Hfr.
  intros Hr. pose proof block_pos. pose proof (fo_room _ Hfr).
  destruct (Nat.ltb_spec (B - len_bytes fr) (r + 1)).
  - rewrite <- (Zmod_unique _ _ (- Z.of_nat k - 2) (Z.of_nat (2 * B - len_bytes fr - (r + 1)))); lia.
  - rewrite <- (Zmod_unique _ _ (- Z.of_nat k - 1) (Z.of_nat (B - len_bytes fr - (r + 1)))); lia.
Qed.

Lemma md_hash_split pre tl k : length pre = (k * B)%nat →
  md_hash fr iv (pre ++ tl)
  = foldl (fr_compress fr) (foldl (fr_compress fr) iv (chunks_exact B pre)) (chunks_exact B (tl ++ md_pad fr (zlen (pre ++ tl)))).
Proof using Hfr. intros Hp. unfold md_hash. rewrite <- app_assoc. by apply (foldl_blocks _ k). Qed.

(** A tail that leaves room for the length takes one compression. *)
Lemma md_last_block pre tl k : length pre = (k * B)%nat → (length tl + 1 ≤ B - len_bytes fr)%nat →
  md_hash fr iv (pre ++ tl)
  = fr_compress fr (foldl (fr_compress fr) iv (chunks_exact B pre))
      (tl ++ 0x80 :: replicate (B - len_bytes fr - (length tl + 1)) 0 ++ len_field fr (wrap (fr_counter fr) (8 * zlen (pre ++ tl)))).
Proof using Hfr.
  intros Hp Ht. pose proof (fo_room _ Hfr). rewrite (md_hash_split _ _ k Hp). unfold md_pad.
  unfold zlen at 1. rewrite length_app, Hp, pad_zeros by lia. rewrite (proj2 (Nat.ltb_ge _ _)) by lia.
  rewrite (chunks_exact_single B block_pos (tl ++ _)); [done|].
  rewrite length_app. cbn [length]. rewrite length_app, length_replicate, length_len_field. lia.
Qed.

(** A longer one takes two. *)
Lemma md_last_blocks pre tl k : length pre = (k * B)%nat → (B - len_bytes fr < length tl + 1)%nat → (length tl < B)%nat →
  md_hash fr iv (pre ++ tl)
  = fr_compress fr (fr_compress fr (foldl (fr_compress fr) iv (chunks_exact B pre)) (tl ++ 0x80 :: replicate (B - (length tl + 1)) 0))
      (replicate (B - len_bytes fr) 0 ++ len_field fr (wrap (fr_counter fr) (8 * zlen (pre ++ tl)))).
Proof using Hfr.
  intros Hp Ht Hb. pose proof (fo_room _ Hfr). rewrite (md_hash_split _ _ k Hp). unfold md_pad.
  unfold zlen at 1. rewrite length_app, Hp, pad_zeros by lia. rewrite (proj2 (Nat.ltb_lt _ _)) by lia.
  replace (2 * B - len_bytes fr - (length tl + 1))%nat with ((B - (length tl + 1)) + (B - len_bytes fr))%nat by lia.
  rewrite replicate_add, <- app_assoc. rewrite app_comm_cons, app_assoc.
  rewrite (chunks_exact_cons B block_pos), (chunks_exact_single B block_pos (replicate _ _ ++ _)); [done| |].
  - rewrite length_app, length_replicate, length_len_field. lia.
  - rewrite length_app. cbn [length]. rewrite length_replicate. lia.
Qed.

Lemma wmul_len n : wmul (fr_counter fr) (wrap (fr_counter fr) n) 8 = wrap (fr_counter fr) (8 * n).
Proof. unfold wmul, wrap. rewrite Zmult_mod_idemp_l. f_equal. lia. Qed.

(** Zeroing the block from [i] on. *)
Lemma fill_zero_head (l tl : bytes) i j : length l = i → (i ≤ j)%nat → (j ≤ i + length tl)%nat →
  fill_zero (l ++ tl) i j = l ++ replicate (j - i) 0 ++ drop (j - i) tl.
Proof. intros Hl H1 H2. unfold fill_zero. rewrite splice_head by done. by rewrite length_replicate. Qed.

Lemma fill_zero_start (tl : bytes) j : (j ≤ length tl)%nat → fill_zero tl 0 j = replicate j 0 ++ drop j tl.
Proof. intros H. rewrite <- (app_nil_l tl) at 1. rewrite fill_zero_head by (done || lia). by rewrite Nat.sub_0_r. Qed.

Lemma splice_tail (l : bytes) tl data off : length l = off → length data = length tl → splice (l ++ tl) off data = l ++ data.
Proof. intros Hl Hd. rewrite splice_head by done. rewrite drop_ge by lia. by rewrite app_nil_r. Qed.

Lemma bs_finalize_rep self msg : bs_rep self msg → bs_finalize fr self = md_hash fr iv msg.
Proof using Hfr.
  intros [Hm Hb (pre & rest & k & -> & Hpre & Hrest & Hh & Hbl & Htk)]. unfold bs_finalize.
  pose proof (fo_room _ Hfr) as Hroom. rewrite Hm, wmul_len, Hbl, Hh.
  destruct (block_split _ _ _ Hb Htk ltac:(lia)) as (stale & Hst & Hsl). rewrite Hst, splice_head by done. cbn [length app].
  destruct stale as [|x stale]; [cbn in *; lia|]. cbn [drop]. cbn [length] in Hsl.
  rewrite drop_0, cons_middle, app_assoc. destruct (Nat.ltb_spec (B - len_bytes fr) (length rest + 1)).
  - rewrite (fill_zero_head (rest ++ [0x80])) by (rewrite ?length_app; cbn [length]; lia).
    rewrite (drop_ge stale) by lia. rewrite app_nil_r, <- (app_assoc rest). cbn [app].
    rewrite (md_last_blocks _ _ k) by (done || lia). f_equal.
    rewrite fill_zero_start by (rewrite ?length_app; cbn [length]; rewrite ?length_replicate; lia).
    rewrite splice_tail; [done|rewrite length_replicate; lia|].
    rewrite length_len_field, length_drop, length_app. cbn [length]. rewrite length_replicate. lia.
  - rewrite (fill_zero_head (rest ++ [0x80])) by (rewrite ?length_app; cbn [length]; lia).
    rewrite app_assoc, splice_tail, <- !app_assoc; cbn [app].
    + by rewrite (md_last_block _ _ k) by (done || lia).
    + rewrite !length_app, length_replicate. cbn [length]. lia.
    + rewrite length_len_field, length_drop. lia.
Qed.

(** The digest of a message absorbed in any pieces. *)
Lemma bs_stream pieces : bs_rep (foldl (bs_update fr) (bs_new fr iv) pieces) (concat pieces).
Proof using Hfr.
  rewrite <- (app_nil_l (concat pieces)). generalize bs_new_rep. generalize (bs_new fr iv) as self, (@nil Z) as msg.
  induction pieces as [|p pieces IH]; intros self msg H; cbn [foldl concat]; [by rewrite app_nil_r|].
  rewrite app_assoc. apply IH, bs_update_rep, H.
Qed.

(** ** HMAC on bare compressions *)

Lemma md_words msg : length (md_hash fr iv msg) = length iv.
Proof using Hfr.
  unfold md_hash. generalize (chunks_exact B (msg ++ md_pad fr (zlen msg))). clear msg. generalize iv. clear iv.
  intros h l. revert h. induction l as [|b l IH]; intros h; cbn [foldl]; [done|]. by rewrite IH, (fo_words _ Hfr).
Qed.

(** One padded block: the message, the pad bit, zeros and the length field. *)
Definition padded_block (m lenf : bytes) : bytes := m ++ 0x80 :: replicate (B - len_bytes fr - (length m + 1)) 0 ++ lenf.

Lemma length_padded m lenf : (length m + 1 ≤ B - len_bytes fr)%nat → length lenf = len_bytes fr → length (padded_block m lenf) = B.
Proof.
  intros Hm Hl. unfold padded_block. rewrite length_app. cbn [length]. rewrite length_app, length_replicate. lia.
Qed.

(** Padding a zeroed block in place. *)
Lemma pad_in_place m lenf : (length m + 1 ≤ B - len_bytes fr)%nat → length lenf = len_bytes fr →
  splice (splice (m ++ replicate (B - length m) 0) (length m) [0x80]) (B - len_bytes fr) lenf = padded_block m lenf.
Proof.
  intros Hm Hl. unfold padded_block. rewrite splice_head by done. cbn [length app].
  rewrite drop_replicate.
  replace (B - length m - 1)%nat with ((B - len_bytes fr - (length m + 1)) + len_bytes fr)%nat by lia.
  rewrite replicate_add, app_comm_cons, app_assoc, splice_tail.
  - by rewrite <- app_assoc.
  - rewrite length_app. cbn [length]. rewrite length_replicate. lia.
  - by rewrite length_replicate.
Qed.

(** A new head of the same length. *)
Lemma padded_head m m' lenf : length m' = length m → splice (padded_block m lenf) 0 m' = padded_block m' lenf.
Proof. intros Hl. unfold padded_block, splice. rewrite take_0, app_nil_l. rewrite Nat.add_0_l, Hl. by rewrite drop_app_length. Qed.

(** A state right behind a pad block and a short message hashes what follows in one
    compression, whatever the counter wrapped over. *)
Lemma short_tail self msg extra : bs_rep self msg → bs_msg_len self = Z.of_nat (B + bs_block_len self) →
  (bs_block_len self + length extra + 1 ≤ B - len_bytes fr)%nat →
  md_hash fr iv (msg ++ extra) = fr_compress fr (bs_h self)
    (padded_block (take (bs_block_len self) (bs_block self) ++ extra)
       (len_field fr (8 * Z.of_nat (B + (bs_block_len self + length extra))))).
Proof using Hfr.
  intros [Hm Hb (pre & rest & k & -> & Hpre & Hrest & Hh & Hbl & Htk)] Hlen Hfit.
  rewrite <- app_assoc, (md_last_block _ _ k) by (rewrite ?length_app; lia). rewrite Hh, Hbl, Htk. unfold padded_block. do 5 f_equal.
  rewrite Hlen in Hm. rewrite app_assoc, zlen_app, <- (wmul_len (_ + _)). rewrite <- wrap_add_l, <- Hm, Hbl. unfold zlen.
  pose proof (fo_width _ Hfr). rewrite (wrap_small _ (_ + _)) by (unfold in_width; lia). unfold wmul. rewrite wrap_small by (unfold in_width; lia). lia.
Qed.

(** The parts of a short message, written one after the other. *)
Lemma put_parts parts : ∀ l, (length l + length (concat parts) ≤ B)%nat →
  foldl (λ '(block, off) part, (splice block off part, (off + length part)%nat)) (l ++ replicate (B - length l) 0, length l) parts
  = ((l ++ concat parts) ++ replicate (B - length (l ++ concat parts)) 0, length (l ++ concat parts)).
Proof.
  induction parts as [|p parts IH]; intros l Hl; cbn [foldl concat]; [by rewrite app_nil_r|]. cbn [concat] in Hl. rewrite length_app in Hl.
  rewrite splice_head by done. rewrite drop_replicate, app_assoc, <- Nat.sub_add_distr, <- length_app.
  rewrite IH by (rewrite length_app; lia). rewrite <- !app_assoc. reflexivity.
Qed.

Lemma sum_length_concat (parts : list bytes) : sum_list (length <$> parts) = length (concat parts).
Proof. induction parts as [|p parts IH]; [done|]. cbn [concat fmap list_fmap sum_list sum_list_with]. rewrite length_app. f_equal. exact IH. Qed.

Section hmac.
Context (out : list Z → nat → bytes) (N : nat).
Context (Hout : ∀ h, length h = length iv → length (out h N) = N).

(** The digest. *)
Definition md_digest (msg : bytes) : bytes := out (md_hash fr iv msg) N.

Lemma md_digest_len msg : length (md_digest msg) = N.
Proof using Hfr Hout. apply Hout, md_words. Qed.

(** The two nested hashes. *)
Definition nested (mi mo m : bytes) : bytes := md_digest (mo ++ md_digest (mi ++ m)).

Lemma bs_hmac_short_sound max_msg self outer mi mo parts tag : (max_msg + 1 ≤ B - len_bytes fr)%nat →
  bs_rep self mi → bs_rep outer mo → bs_hmac_short fr out max_msg self outer N parts = Some tag →
  tag = nested mi mo (concat parts).
Proof using Hfr Hout.
  intros Hmax Hi Ho. unfold bs_hmac_short, hmac_short_with, nested, md_digest.
  destruct (_ || _) eqn:Eg; [done|]. apply orb_false_elim in Eg as [Eg E3]. apply orb_false_elim in Eg as [E1 E2].
  apply negb_false_iff, Z.eqb_eq in E1, E3. apply negb_false_iff, Nat.eqb_eq in E2.
  assert (length (take (bs_block_len self) (bs_block self)) = bs_block_len self) as Hbl.
  { destruct Hi as [_ Hb (? & ? & ? & ? & ? & ? & ? & ? & ?)]. rewrite length_take. lia. }
  set (m := take (bs_block_len self) (bs_block self)) in *. rewrite sum_length_concat.
  destruct (_ || _) eqn:El; [done|]. apply orb_false_elim in El as [El1 El2]. apply Nat.ltb_ge in El1, El2.
  assert (splice (replicate B 0) 0 m = m ++ replicate (B - length m) 0) as ->.
  { unfold splice. rewrite take_0, app_nil_l. by rewrite drop_replicate. }
  rewrite put_parts by lia. rewrite length_app in *. rewrite <- length_app.
  rewrite pad_in_place by (rewrite ?length_len_field, ?length_app; lia).
  assert (fr_compress fr (bs_h self) (padded_block (m ++ concat parts) (len_field fr (8 * Z.of_nat (B + length (m ++ concat parts)))))
    = md_hash fr iv (mi ++ concat parts)) as ->.
  { rewrite (short_tail self mi) by (done || lia). fold m. by rewrite length_app, Hbl. }
  intros Ht. apply (inj Some) in Ht. rewrite <- Ht. f_equal. set (d := out (md_hash fr iv (mi ++ concat parts)) N).
  assert (length d = N) as Hd by apply Hout, md_words.
  rewrite (short_tail outer mo) by (done || (rewrite ?E2, ?Hd, ?E3; lia)). rewrite E2, Hd. rewrite take_0, app_nil_l. f_equal.
  set (b := padded_block (m ++ concat parts) _).
  assert (length b = B) as Hb by (apply length_padded; rewrite ?length_len_field, ?length_app; lia).
  assert (fill_zero (splice b 0 d) N B = d ++ replicate (B - length d) 0) as ->.
  { unfold splice. rewrite take_0, app_nil_l. rewrite fill_zero_head by (rewrite ?length_drop; lia).
    rewrite drop_ge by (rewrite length_drop; lia). by rewrite app_nil_r, Hd. }
  pose proof (pad_in_place d (len_field fr (8 * Z.of_nat (B + N)))) as Hpad. rewrite Hd in Hpad. rewrite Hd, Nat.add_0_l. apply Hpad; [lia|apply length_len_field].
Qed.

(** One round of the iterated HMAC. *)
Definition nested_round (mi mo : bytes) (s : bytes * bytes) : bytes * bytes :=
  let u := nested mi mo s.1 in (u, zip_with Z.lxor s.2 u).

Lemma bs_hmac_iterate_sound self outer mi mo u acc rounds r : (N + 1 ≤ B - len_bytes fr)%nat → length u = N →
  bs_rep self mi → bs_rep outer mo → bs_hmac_iterate fr out self outer N u acc rounds = Some r →
  r = Nat.iter rounds (nested_round mi mo) (u, acc).
Proof using Hfr Hout.
  intros HN Hu Hi Ho. unfold bs_hmac_iterate, hmac_iterate_with.
  destruct (_ || _) eqn:Eg; [done|]. apply orb_false_elim in Eg as [Eg E4]. apply orb_false_elim in Eg as [Eg E3]. apply orb_false_elim in Eg as [E1 E2].
  apply negb_false_iff, Z.eqb_eq in E3, E4. apply negb_false_iff, Nat.eqb_eq in E1, E2.
  set (lf := len_field fr ((Z.of_nat B + Z.of_nat N) * 8)).
  assert (length lf = len_bytes fr) as Hlf by apply length_len_field.
  assert (splice (splice (splice (replicate B 0) 0 u) (length u) [0x80]) (B - length lf) lf = padded_block u lf) as ->.
  { assert (splice (replicate B 0) 0 u = u ++ replicate (B - length u) 0) as ->
      by (unfold splice; rewrite take_0, app_nil_l; by rewrite drop_replicate).
    rewrite Hlf. apply pad_in_place; lia. }
  assert (∀ v, length v = N → fr_compress fr (bs_h self) (padded_block v lf) = md_hash fr iv (mi ++ v)) as Hin.
  { intros v Hv. rewrite (short_tail self mi) by (done || (rewrite ?E1, ?Hv, ?E3; lia)). rewrite E1, Hv. rewrite take_0, app_nil_l. do 3 f_equal. lia. }
  assert (∀ v, length v = N → fr_compress fr (bs_h outer) (padded_block v lf) = md_hash fr iv (mo ++ v)) as Hon.
  { intros v Hv. rewrite (short_tail outer mo) by (done || (rewrite ?E2, ?Hv, ?E4; lia)). rewrite E2, Hv. rewrite take_0, app_nil_l. do 3 f_equal. lia. }
  assert (∀ k, ∃ v a, Nat.iter k (nested_round mi mo) (u, acc) = (v, a) ∧ length v = N
    ∧ Nat.iter k (hmac_round fr out (bs_h self) (bs_h outer) (length u)) (padded_block u lf, acc) = (padded_block v lf, a)) as Hk.
  { induction k as [|k (v & a & E & Hv & Ek)]; [by eexists _, _|]. 
    rewrite !Nat.iter_succ, E, Ek, Hu. unfold hmac_round. rewrite (Hin v Hv).
    rewrite padded_head by (rewrite Hv; apply Hout, md_words). rewrite Hon by apply Hout, md_words.
    rewrite padded_head by (rewrite !Hout by apply md_words; done).
    eexists _, _. split; [reflexivity|]. cbn [fst snd]. split; [apply md_digest_len|]. f_equal. f_equal.
    unfold padded_block. rewrite take_app_length' by (symmetry; apply Hout, md_words). done. }
  destruct (Hk rounds) as (v & a & E & Hv & ->). rewrite E. intros Hr. apply (inj Some) in Hr. rewrite <- Hr. f_equal.
  unfold padded_block. by rewrite take_app_length' by lia.
Qed.
End hmac.
End stream.
