(* ===== verification/Hmac.v ===== *)
(** The [Digest] trait of [src/hash/mod.rs] as a class with its contract, and HMAC
    ([src/hash/hmac.rs]) over any digest, proved against the contract alone: the streaming
    form, the two fast paths on bare compressions and the constant-time check all compute
    the HMAC of RFC 2104. *)

From S2P Require Import Prelude Ct MdHash.

(** * The trait *)

Class Digest (D : Type) := {
  OUTPUT_LEN : nat;
  BLOCK_LEN : nat;
  d_new : D;
  d_update : D → bytes → D;
  d_finalize : D → bytes;
  (** [None] for [false]: nothing was touched. *)
  d_hmac_iterate : D → D → bytes → bytes → nat → option (bytes * bytes);
  d_hmac_short : D → D → list bytes → option bytes }.

(** The provided method [digest]. *)
Definition d_digest D `{Digest D} (data : bytes) : bytes := d_finalize (d_update d_new data).

(** What an implementation promises: it computes a function of the bytes it absorbed,
    however they were cut, and its fast paths compute the two nested hashes. *)
Class DigestSpec (D : Type) `{Digest D} := {
  hash_of : bytes → bytes;
  absorbed : D → bytes → Prop;
  ds_output m : length (hash_of m) = OUTPUT_LEN;
  ds_fits : (OUTPUT_LEN ≤ BLOCK_LEN)%nat;
  ds_pos : (0 < OUTPUT_LEN)%nat;
  ds_ok m : bytes_ok (hash_of m);
  ds_new : absorbed d_new [];
  ds_update self m data : absorbed self m → absorbed (d_update self data) (m ++ data);
  ds_finalize self m : absorbed self m → d_finalize self = hash_of m;
  ds_short inner outer mi mo parts tag : absorbed inner mi → absorbed outer mo →
    d_hmac_short inner outer parts = Some tag → tag = hash_of (mo ++ hash_of (mi ++ concat parts));
  ds_iterate inner outer mi mo u acc rounds r : length u = OUTPUT_LEN → absorbed inner mi → absorbed outer mo →
    d_hmac_iterate inner outer u acc rounds = Some r →
    r = Nat.iter rounds (λ s, let u := hash_of (mo ++ hash_of (mi ++ s.1)) in (u, zip_with Z.lxor s.2 u)) (u, acc) }.

(** * HMAC *)

Definition IPAD : Z := 0x36.
Definition OPAD : Z := 0x5c.

Record Hmac (D : Type) := mkHmac { hm_inner : D; hm_outer : D }.
Arguments mkHmac {_} _ _.
Arguments hm_inner {_} _.
Arguments hm_outer {_} _.

Section hmac.
Context {D : Type} `{Digest D}.
Implicit Types self : Hmac D.

(** The key reduced to one zero-padded block. *)
Definition key_block (key : bytes) : bytes :=
  let buf := replicate BLOCK_LEN 0 in
  if (length buf <? length key)%nat then splice buf 0 (d_digest D key) else splice buf 0 key.

Definition hmac_new (key : bytes) : Hmac D :=
  let block := key_block key in
  let ipad_block := (λ b, Z.lxor b IPAD) <$> block in
  let opad_block := (λ b, Z.lxor b OPAD) <$> block in
  mkHmac (d_update d_new ipad_block) (d_update d_new opad_block).

Definition hmac_update self (data : bytes) : Hmac D := mkHmac (d_update (hm_inner self) data) (hm_outer self).

Definition hmac_chain self (data : bytes) : Hmac D := hmac_update self data.

Definition hmac_finalize self : bytes :=
  match d_hmac_short (hm_inner self) (hm_outer self) [] with
  | Some tag => tag
  | None => d_finalize (d_update (hm_outer self) (d_finalize (hm_inner self)))
  end.

Definition hmac_verify self (expected : bytes) : Choice := ct_eq_slice (ct_eq_uint 8) (hmac_finalize self) expected.

Definition hmac_mac (key data : bytes) : bytes := hmac_finalize (hmac_update (hmac_new key) data).

(** The [Mac] trait's [finalize_into]: the tag, cut to the buffer; a longer buffer keeps
    its tail. *)
Definition hmac_finalize_into self (out : bytes) : bytes :=
  let t := hmac_finalize self in
  let n := (length out `min` length t)%nat in splice out 0 (take n t).

Definition mac_parts self (parts : list bytes) : bytes :=
  match d_hmac_short (hm_inner self) (hm_outer self) parts with
  | Some tag => tag
  | None => hmac_finalize (foldl hmac_update self parts)
  end.

(** One round of the streaming fallback. *)
Definition iterate_round self (s : bytes * bytes) : bytes * bytes :=
  let u := hmac_finalize (hmac_chain self s.1) in (u, zip_with Z.lxor s.2 u).

Definition iterate_xor self (u acc : bytes) (rounds : nat) : bytes * bytes :=
  match d_hmac_iterate (hm_inner self) (hm_outer self) u acc rounds with
  | Some r => r
  | None => Nat.iter rounds (iterate_round self) (u, acc)
  end.

(** * RFC 2104 *)

Context `{!DigestSpec D}.

(** [K']: hashed if longer than a block, then filled with zeros. *)
Definition rfc_key (key : bytes) : bytes :=
  let k := if (BLOCK_LEN <? length key)%nat then hash_of key else key in k ++ replicate (BLOCK_LEN - length k) 0.

Definition xor_pad (pad : Z) (key : bytes) : bytes := (λ b, Z.lxor b pad) <$> rfc_key key.

(** [H((K' ^ opad) || H((K' ^ ipad) || m))] *)
Definition hmac_of (key m : bytes) : bytes := hash_of (xor_pad OPAD key ++ hash_of (xor_pad IPAD key ++ m)).

(** The state of a key that has seen [m]. *)
Definition keyed self (key m : bytes) : Prop :=
  absorbed (hm_inner self) (xor_pad IPAD key ++ m) ∧ absorbed (hm_outer self) (xor_pad OPAD key).

Lemma digest_spec data : d_digest D data = hash_of data.
Proof using Type*. apply ds_finalize. rewrite <- (app_nil_l data). apply ds_update, ds_new. Qed.

Lemma key_block_spec key : key_block key = rfc_key key.
Proof using Type*.
  unfold key_block, rfc_key. rewrite length_replicate, digest_spec.
  destruct (Nat.ltb_spec BLOCK_LEN (length key)); unfold splice; by rewrite take_0, app_nil_l, drop_replicate.
Qed.

Lemma absorbed_once data : absorbed (d_update d_new data) data.
Proof using Type*. rewrite <- (app_nil_l data) at 2. apply ds_update, ds_new. Qed.

Lemma hmac_new_keyed key : keyed (hmac_new key) key [].
Proof using Type*.
  unfold keyed, hmac_new. cbn [hm_inner hm_outer]. rewrite key_block_spec, app_nil_r. split; apply absorbed_once.
Qed.

Lemma hmac_update_keyed self key m data : keyed self key m → keyed (hmac_update self data) key (m ++ data).
Proof using Type*. intros [Hi Ho]. split; [|done]. cbn [hm_inner hmac_update]. rewrite app_assoc. by apply ds_update. Qed.

Lemma hmac_stream_keyed pieces : ∀ self key m, keyed self key m → keyed (foldl hmac_update self pieces) key (m ++ concat pieces).
Proof using Type*.
  induction pieces as [|p pieces IH]; intros self key m Hk; cbn [foldl concat]; [by rewrite app_nil_r|].
  rewrite app_assoc. by apply IH, hmac_update_keyed.
Qed.

Lemma hmac_finalize_keyed self key m : keyed self key m → hmac_finalize self = hmac_of key m.
Proof using Type*.
  intros [Hi Ho]. unfold hmac_finalize. destruct (d_hmac_short _ _ []) as [tag|] eqn:E.
  - rewrite (ds_short _ _ _ _ _ _ Hi Ho E). cbn [concat]. by rewrite app_nil_r.
  - rewrite (ds_finalize _ _ Hi). apply ds_finalize. by apply ds_update.
Qed.

Lemma mac_parts_keyed self key m parts : keyed self key m → mac_parts self parts = hmac_of key (m ++ concat parts).
Proof using Type*.
  intros Hk. unfold mac_parts. destruct (d_hmac_short _ _ parts) as [tag|] eqn:E.
  - destruct Hk as [Hi Ho]. rewrite (ds_short _ _ _ _ _ _ Hi Ho E). unfold hmac_of. by rewrite <- app_assoc.
  - by apply hmac_finalize_keyed, hmac_stream_keyed.
Qed.

(** [u := HMAC(K, u); acc ^= u] *)
Definition hmac_step (key : bytes) (s : bytes * bytes) : bytes * bytes :=
  let u := hmac_of key s.1 in (u, zip_with Z.lxor s.2 u).

Lemma iterate_xor_keyed self key u acc rounds : keyed self key [] → length u = OUTPUT_LEN →
  iterate_xor self u acc rounds = Nat.iter rounds (hmac_step key) (u, acc).
Proof using Type*.
  intros Hk Hu. unfold iterate_xor. destruct (d_hmac_iterate _ _ u acc rounds) as [r|] eqn:E.
  - destruct Hk as [Hi Ho]. rewrite app_nil_r in Hi. by rewrite (ds_iterate _ _ _ _ _ _ _ _ Hu Hi Ho E).
  - clear E Hu. induction rounds as [|n IH]; [done|]. rewrite !Nat.iter_succ, IH. unfold iterate_round, hmac_step.
    rewrite (hmac_finalize_keyed _ key (Nat.iter n (hmac_step key) (u, acc)).1); [done|]. by apply (hmac_update_keyed _ _ []).
Qed.

(** C29: However the message is cut, the HMAC object computes the HMAC of RFC 2104, by the
    streaming route and on the bare compressions alike; the check accepts exactly that
    tag, and the iterated form is the chain of HMACs with its running XOR. *)
Theorem hmac_correct key pieces parts rounds expected :
  let self := foldl hmac_update (hmac_new key) pieces in
  hmac_finalize self = hmac_of key (concat pieces)
  ∧ mac_parts self parts = hmac_of key (concat pieces ++ concat parts)
  ∧ (bytes_ok expected → bool_from (hmac_verify self expected) = bool_decide (expected = hmac_of key (concat pieces)))
  ∧ (length expected = OUTPUT_LEN → iterate_xor (hmac_new key) expected expected rounds = Nat.iter rounds (hmac_step key) (expected, expected)).
Proof using Type*.
  intros self. assert (keyed self key (concat pieces)) as Hk by apply (hmac_stream_keyed pieces _ key []), hmac_new_keyed.
  split_and!.
  - by apply hmac_finalize_keyed.
  - by apply mac_parts_keyed.
  - intros He. unfold hmac_verify. rewrite (hmac_finalize_keyed _ _ _ Hk). pose proof (ct_eq_uint_laws 8 ltac:(lia)) as L8.
    pose proof (ct_eq_slice_spec (ct_eq_uint 8) (in_width 8) (hmac_of key (concat pieces)) expected (ds_ok _) He) as ->.
    rewrite bool_from_choice_of. by apply bool_decide_ext.
  - intros Hl. apply iterate_xor_keyed; [apply hmac_new_keyed|done].
Qed.
End hmac.
