(* ===== verification/Sha2.v ===== *)
(** The compression functions of SHA-224/256 ([src/hash/sha256.rs]) and of the SHA-512
    family ([src/hash/sha512.rs]), portable paths, against FIPS 180-4.  SHA-256 computes the
    schedule ahead in an array; SHA-512 keeps a ring of sixteen words, rotates variable
    names instead of moving words and rearranges [Maj] and the sums. *)

From S2P Require Import Prelude MdHash.

(** * FIPS 180-4 *)

(** Sections 4.1 and 6: the parameters of one word size. *)
Record Sha2 := mkSha2 { s2_w : Z; s2_Sigma0 : Z → Z; s2_Sigma1 : Z → Z; s2_sigma0 : Z → Z; s2_sigma1 : Z → Z; s2_K : list Z }.

Record Regs := mkRegs { ra : Z; rb : Z; rc : Z; rd : Z; re : Z; rf : Z; rg : Z; rh : Z }.

Definition regs_list (r : Regs) : list Z := [ra r; rb r; rc r; rd r; re r; rf r; rg r; rh r].

(** [let [a, .., h] = *state]; the array has eight words. *)
Definition with_regs (h : list Z) (k : Regs → list Z) : list Z :=
  match h with [a; b; c; d; e; f; g; hh] => k (mkRegs a b c d e f g hh) | _ => h end.

Definition fips_ch (w x y z : Z) : Z := Z.lxor (Z.land x y) (Z.land (wnot w x) z).
Definition fips_maj (x y z : Z) : Z := Z.lxor (Z.lxor (Z.land x y) (Z.land x z)) (Z.land y z).

(** A schedule extended by [n] words, each computed from those before it. *)
Fixpoint extend (word : list Z → Z) (n : nat) (W : list Z) : list Z :=
  match n with O => W | S n => extend word n (W ++ [word W]) end.

Section fips.
Context (p : Sha2).

(** The message schedule behind the sixteen words of the block. *)
Definition fips_word (W : list Z) : Z :=
  let t := length W in
  wrap (s2_w p) (s2_sigma1 p (nth (t - 2) W 0) + nth (t - 7) W 0 + s2_sigma0 p (nth (t - 15) W 0) + nth (t - 16) W 0).

Definition fips_words (block : bytes) : list Z := be_value <$> chunks_exact (Z.to_nat (s2_w p / 8)) block.

Definition fips_schedule (block : bytes) : list Z := extend fips_word (length (s2_K p) - 16) (fips_words block).

Definition fips_round (r : Regs) (kw : Z * Z) : Regs :=
  let '(mkRegs a b c d e f g h) := r in
  let T1 := wrap (s2_w p) (h + s2_Sigma1 p e + fips_ch (s2_w p) e f g + kw.1 + kw.2) in
  let T2 := wrap (s2_w p) (s2_Sigma0 p a + fips_maj a b c) in
  mkRegs (wrap (s2_w p) (T1 + T2)) a b c (wrap (s2_w p) (d + T1)) e f g.

Definition fips_compress (H : list Z) (block : bytes) : list Z :=
  with_regs H (λ r, zip_with (λ x y, wrap (s2_w p) (x + y)) H (regs_list (foldl fips_round r (zip (s2_K p) (fips_schedule block))))).
End fips.

(** * SHA-256 *)

Definition H256 : list Z :=
  [0x6a09_e667; 0xbb67_ae85; 0x3c6e_f372; 0xa54f_f53a; 0x510e_527f; 0x9b05_688c; 0x1f83_d9ab; 0x5be0_cd19].

Definition H224 : list Z :=
  [0xc105_9ed8; 0x367c_d507; 0x3070_dd17; 0xf70e_5939; 0xffc0_0b31; 0x6858_1511; 0x64f9_8fa7; 0xbefa_4fa4].

Definition K256 : list Z :=
  [0x428a_2f98; 0x7137_4491; 0xb5c0_fbcf; 0xe9b5_dba5; 0x3956_c25b; 0x59f1_11f1; 0x923f_82a4; 0xab1c_5ed5; 0xd807_aa98;
   0x1283_5b01; 0x2431_85be; 0x550c_7dc3; 0x72be_5d74; 0x80de_b1fe; 0x9bdc_06a7; 0xc19b_f174; 0xe49b_69c1; 0xefbe_4786;
   0x0fc1_9dc6; 0x240c_a1cc; 0x2de9_2c6f; 0x4a74_84aa; 0x5cb0_a9dc; 0x76f9_88da; 0x983e_5152; 0xa831_c66d; 0xb003_27c8;
   0xbf59_7fc7; 0xc6e0_0bf3; 0xd5a7_9147; 0x06ca_6351; 0x1429_2967; 0x27b7_0a85; 0x2e1b_2138; 0x4d2c_6dfc; 0x5338_0d13;
   0x650a_7354; 0x766a_0abb; 0x81c2_c92e; 0x9272_2c85; 0xa2bf_e8a1; 0xa81a_664b; 0xc24b_8b70; 0xc76c_51a3; 0xd192_e819;
   0xd699_0624; 0xf40e_3585; 0x106a_a070; 0x19a4_c116; 0x1e37_6c08; 0x2748_774c; 0x34b0_bcb5; 0x391c_0cb3; 0x4ed8_aa4a;
   0x5b9c_ca4f; 0x682e_6ff3; 0x748f_82ee; 0x78a5_636f; 0x84c8_7814; 0x8cc7_0208; 0x90be_fffa; 0xa450_6ceb; 0xbef9_a3f7;
   0xc671_78f2].

(** The shift-or rotation of a [w]-bit word. *)
Definition rotr (w x n : Z) : Z := Z.lor (Z.shiftr x n) (wrap w (Z.shiftl x (w - n))).

(** One word of the schedule array. *)
Definition sched256 (w : list Z) (i : nat) : list Z :=
  let w15 := nth (i - 15) w 0 in
  let w2 := nth (i - 2) w 0 in
  let s0 := Z.lxor (Z.lxor (rotr 32 w15 7) (rotr 32 w15 18)) (Z.shiftr w15 3) in
  let s1 := Z.lxor (Z.lxor (rotr 32 w2 17) (rotr 32 w2 19)) (Z.shiftr w2 10) in
  <[i := wadd 32 (wadd 32 (wadd 32 (nth (i - 16) w 0) s0) (nth (i - 7) w 0)) s1]> w.

Definition round256 (w : list Z) (r : Regs) (i : nat) : Regs :=
  let '(mkRegs a b c d e f g hh) := r in
  let s1 := Z.lxor (Z.lxor (rotr 32 e 6) (rotr 32 e 11)) (rotr 32 e 25) in
  let ch := Z.lxor (Z.land e f) (Z.land (wnot 32 e) g) in
  let t1 := wadd 32 (wadd 32 (wadd 32 (wadd 32 hh s1) ch) (nth i K256 0)) (nth i w 0) in
  let s0 := Z.lxor (Z.lxor (rotr 32 a 2) (rotr 32 a 13)) (rotr 32 a 22) in
  let maj := Z.lxor (Z.lxor (Z.land a b) (Z.land a c)) (Z.land b c) in
  let t2 := wadd 32 s0 maj in
  mkRegs (wadd 32 t1 t2) a b c (wadd 32 d t1) e f g.

Definition compress256_soft (h : list Z) (block : bytes) : list Z :=
  with_regs h (λ r,
    let w := splice (replicate 64 0) 0 (be_value <$> chunks_exact 4 block) in
    let w := foldl sched256 w (seq 16 48) in
    let '(mkRegs a b c d e f g hh) := foldl (round256 w) r (seq 0 64) in
    let h := <[0%nat := wadd 32 (nth 0 h 0) a]> h in
    let h := <[1%nat := wadd 32 (nth 1 h 0) b]> h in
    let h := <[2%nat := wadd 32 (nth 2 h 0) c]> h in
    let h := <[3%nat := wadd 32 (nth 3 h 0) d]> h in
    let h := <[4%nat := wadd 32 (nth 4 h 0) e]> h in
    let h := <[5%nat := wadd 32 (nth 5 h 0) f]> h in
    let h := <[6%nat := wadd 32 (nth 6 h 0) g]> h in
    <[7%nat := wadd 32 (nth 7 h 0) hh]> h).

(** The software loop of [compress256_blocks]. *)
Definition compress256_blocks (h : list Z) (data : bytes) : list Z := foldl compress256_soft h (chunks_exact 64 data).

(** * SHA-512 *)

Definition H512 : list Z :=
  [0x6a09_e667_f3bc_c908; 0xbb67_ae85_84ca_a73b; 0x3c6e_f372_fe94_f82b; 0xa54f_f53a_5f1d_36f1; 0x510e_527f_ade6_82d1;
   0x9b05_688c_2b3e_6c1f; 0x1f83_d9ab_fb41_bd6b; 0x5be0_cd19_137e_2179].

Definition H384 : list Z :=
  [0xcbbb_9d5d_c105_9ed8; 0x629a_292a_367c_d507; 0x9159_015a_3070_dd17; 0x152f_ecd8_f70e_5939; 0x6733_2667_ffc0_0b31;
   0x8eb4_4a87_6858_1511; 0xdb0c_2e0d_64f9_8fa7; 0x47b5_481d_befa_4fa4].

Definition H512_224 : list Z :=
  [0x8c3d_37c8_1954_4da2; 0x73e1_9966_89dc_d4d6; 0x1dfa_b7ae_32ff_9c82; 0x679d_d514_582f_9fcf; 0x0f6d_2b69_7bd4_4da8;
   0x77e3_6f73_04c4_8942; 0x3f9d_85a8_6a1d_36c8; 0x1112_e6ad_91d6_92a1].

Definition H512_256 : list Z :=
  [0x2231_2194_fc2b_f72c; 0x9f55_5fa3_c84c_64c2; 0x2393_b86b_6f53_b151; 0x9638_7719_5940_eabd; 0x9628_3ee2_a88e_ffe3;
   0xbe5e_1e25_5386_3992; 0x2b01_99fc_2c85_b8aa; 0x0eb7_2ddc_81c5_2ca2].

Definition K512 : list Z :=
  [0x428a_2f98_d728_ae22; 0x7137_4491_23ef_65cd; 0xb5c0_fbcf_ec4d_3b2f; 0xe9b5_dba5_8189_dbbc; 0x3956_c25b_f348_b538;
   0x59f1_11f1_b605_d019; 0x923f_82a4_af19_4f9b; 0xab1c_5ed5_da6d_8118; 0xd807_aa98_a303_0242; 0x1283_5b01_4570_6fbe;
   0x2431_85be_4ee4_b28c; 0x550c_7dc3_d5ff_b4e2; 0x72be_5d74_f27b_896f; 0x80de_b1fe_3b16_96b1; 0x9bdc_06a7_25c7_1235;
   0xc19b_f174_cf69_2694; 0xe49b_69c1_9ef1_4ad2; 0xefbe_4786_384f_25e3; 0x0fc1_9dc6_8b8c_d5b5; 0x240c_a1cc_77ac_9c65;
   0x2de9_2c6f_592b_0275; 0x4a74_84aa_6ea6_e483; 0x5cb0_a9dc_bd41_fbd4; 0x76f9_88da_8311_53b5; 0x983e_5152_ee66_dfab;
   0xa831_c66d_2db4_3210; 0xb003_27c8_98fb_213f; 0xbf59_7fc7_beef_0ee4; 0xc6e0_0bf3_3da8_8fc2; 0xd5a7_9147_930a_a725;
   0x06ca_6351_e003_826f; 0x1429_2967_0a0e_6e70; 0x27b7_0a85_46d2_2ffc; 0x2e1b_2138_5c26_c926; 0x4d2c_6dfc_5ac4_2aed;
   0x5338_0d13_9d95_b3df; 0x650a_7354_8baf_63de; 0x766a_0abb_3c77_b2a8; 0x81c2_c92e_47ed_aee6; 0x9272_2c85_1482_353b;
   0xa2bf_e8a1_4cf1_0364; 0xa81a_664b_bc42_3001; 0xc24b_8b70_d0f8_9791; 0xc76c_51a3_0654_be30; 0xd192_e819_d6ef_5218;
   0xd699_0624_5565_a910; 0xf40e_3585_5771_202a; 0x106a_a070_32bb_d1b8; 0x19a4_c116_b8d2_d0c8; 0x1e37_6c08_5141_ab53;
   0x2748_774c_df8e_eb99; 0x34b0_bcb5_e19b_48a8; 0x391c_0cb3_c5c9_5a63; 0x4ed8_aa4a_e341_8acb; 0x5b9c_ca4f_7763_e373;
   0x682e_6ff3_d6b2_b8a3; 0x748f_82ee_5def_b2fc; 0x78a5_636f_4317_2f60; 0x84c8_7814_a1f0_ab72; 0x8cc7_0208_1a64_39ec;
   0x90be_fffa_2363_1e28; 0xa450_6ceb_de82_bde9; 0xbef9_a3f7_b2c6_7915; 0xc671_78f2_e372_532b; 0xca27_3ece_ea26_619c;
   0xd186_b8c7_21c0_c207; 0xeada_7dd6_cde0_eb1e; 0xf57d_4f7f_ee6e_d178; 0x06f0_67aa_7217_6fba; 0x0a63_7dc5_a2c8_98a6;
   0x113f_9804_bef9_0dae; 0x1b71_0b35_131c_471b; 0x28db_77f5_2304_7d84; 0x32ca_ab7b_40c7_2493; 0x3c9e_be0a_15c9_bebc;
   0x431d_67c4_9c10_0d4c; 0x4cc5_d4be_cb3e_42b6; 0x597f_299c_fc65_7e2a; 0x5fcb_6fab_3ad6_faec; 0x6c44_198c_4a47_5817].

(** [round_portable!]: the new values of [$d] and [$h]. *)
Definition round_portable (a b c d e f g h wk : Z) : Z * Z :=
  let ch := Z.lxor (Z.land e f) (Z.land (wnot 64 e) g) in
  let s1 := Z.lxor (Z.lxor (rotr 64 e 14) (rotr 64 e 18)) (rotr 64 e 41) in
  let t1 := wadd 64 (wadd 64 (wadd 64 h wk) ch) s1 in
  let d := wadd 64 d t1 in
  let maj := Z.lxor (Z.land (Z.lxor a b) (Z.lxor b c)) b in
  let h := wadd 64 t1 (wadd 64 (Z.lxor (Z.lxor (rotr 64 a 28) (rotr 64 a 34)) (rotr 64 a 39)) maj) in
  (d, h).

(** [round_x86!], with the short dependency chain. *)
Definition round_x86 (a b c d e f g h wk : Z) : Z * Z :=
  let hk := wadd 64 h wk in
  let ch := Z.lxor (Z.land (Z.lxor f g) e) g in
  let s1 := Z.lxor (Z.lxor (rotr 64 e 14) (rotr 64 e 18)) (rotr 64 e 41) in
  let x := wsub 64 (Z.land b c) d in
  let d := wadd 64 (wadd 64 (wadd 64 d hk) ch) s1 in
  let h := wadd 64 (wadd 64 (wadd 64 d x) (Z.land a (Z.lxor b c)))
             (Z.lxor (Z.lxor (rotr 64 a 28) (rotr 64 a 34)) (rotr 64 a 39)) in
  (d, h).

(** [rounds8!]: eight rounds on rotated names; [wk] yields [K + W] and may change the ring. *)
Definition rounds8 (round : Z → Z → Z → Z → Z → Z → Z → Z → Z → Z * Z) (wk : list Z → nat → Z * list Z) (t : nat)
  (s : Regs * list Z) : Regs * list Z :=
  let '(mkRegs a b c d e f g h, w) := s in
  let '(v, w) := wk w (t + 0)%nat in let '(d, h) := round a b c d e f g h v in
  let '(v, w) := wk w (t + 1)%nat in let '(c, g) := round h a b c d e f g v in
  let '(v, w) := wk w (t + 2)%nat in let '(b, f) := round g h a b c d e f v in
  let '(v, w) := wk w (t + 3)%nat in let '(a, e) := round f g h a b c d e v in
  let '(v, w) := wk w (t + 4)%nat in let '(h, d) := round e f g h a b c d v in
  let '(v, w) := wk w (t + 5)%nat in let '(g, c) := round d e f g h a b c v in
  let '(v, w) := wk w (t + 6)%nat in let '(f, b) := round c d e f g h a b v in
  let '(v, w) := wk w (t + 7)%nat in let '(e, a) := round b c d e f g h a v in
  (mkRegs a b c d e f g h, w).

(** The closures [kw] and [next]. *)
Definition kw (w : list Z) (t : nat) : Z * list Z := (wadd 64 (nth t K512 0) (nth t w 0), w).

Definition next (t : nat) (w : list Z) (j : nat) : Z * list Z :=
  let w15 := nth ((j + 1) mod 16) w 0 in
  let w2 := nth ((j + 14) mod 16) w 0 in
  let s0 := Z.lxor (Z.lxor (rotr 64 w15 1) (rotr 64 w15 8)) (Z.shiftr w15 7) in
  let s1 := Z.lxor (Z.lxor (rotr 64 w2 19) (rotr 64 w2 61)) (Z.shiftr w2 6) in
  let w := <[j := wadd 64 (wadd 64 (wadd 64 (nth j w 0) s0) (nth ((j + 9) mod 16) w 0)) s1]> w in
  (wadd 64 (nth (t + j) K512 0) (nth j w 0), w).

(** One block of [compress512_soft_blocks]. *)
Definition block512 (r : Regs) (block : bytes) : Regs :=
  let w := splice (replicate 16 0) 0 (be_value <$> chunks_exact 8 block) in
  let '(mkRegs a0 b0 c0 d0 e0 f0 g0 h0) := r in
  let s := rounds8 round_portable kw 0 (r, w) in
  let s := rounds8 round_portable kw 8 s in
  let s := foldl (λ s t, rounds8 round_portable (next t) 8 (rounds8 round_portable (next t) 0 s)) s [16; 32; 48; 64]%nat in
  let '(mkRegs a b c d e f g h, _) := s in
  mkRegs (wadd 64 a a0) (wadd 64 b b0) (wadd 64 c c0) (wadd 64 d d0) (wadd 64 e e0) (wadd 64 f f0) (wadd 64 g g0) (wadd 64 h h0).

Definition compress512_soft_blocks (state : list Z) (data : bytes) : list Z :=
  with_regs state (λ r, regs_list (foldl block512 r (chunks_exact 128 data))).

(** A single block takes the same route. *)
Definition compress512 (h : list Z) (block : bytes) : list Z := compress512_soft_blocks h block.

(** * The parameters of the standard *)

(** Section 4.1.2. *)
Definition fips256 : Sha2 := mkSha2 32
  (λ x, Z.lxor (Z.lxor (rotr 32 x 2) (rotr 32 x 13)) (rotr 32 x 22))
  (λ x, Z.lxor (Z.lxor (rotr 32 x 6) (rotr 32 x 11)) (rotr 32 x 25))
  (λ x, Z.lxor (Z.lxor (rotr 32 x 7) (rotr 32 x 18)) (Z.shiftr x 3))
  (λ x, Z.lxor (Z.lxor (rotr 32 x 17) (rotr 32 x 19)) (Z.shiftr x 10)) K256.

(** Section 4.1.3. *)
Definition fips512 : Sha2 := mkSha2 64
  (λ x, Z.lxor (Z.lxor (rotr 64 x 28) (rotr 64 x 34)) (rotr 64 x 39))
  (λ x, Z.lxor (Z.lxor (rotr 64 x 14) (rotr 64 x 18)) (rotr 64 x 41))
  (λ x, Z.lxor (Z.lxor (rotr 64 x 1) (rotr 64 x 8)) (Z.shiftr x 7))
  (λ x, Z.lxor (Z.lxor (rotr 64 x 19) (rotr 64 x 61)) (Z.shiftr x 6)) K512.

(** * Helpers *)

(** Congruence, for sums of wrapped terms in any order. *)
Record cong (m a b : Z) : Prop := mk_cong { cong_eq : a mod m = b mod m }.

#[export] Instance cong_equiv m : Equivalence (cong m).
Proof. split; [done|intros ? ? []; constructor; congruence|intros ? ? ? [] []; constructor; congruence]. Qed.

#[export] Instance cong_add m : Proper (cong m ==> cong m ==> cong m) Z.add.
Proof. intros a a' [Ha] b b' [Hb]. constructor. by rewrite Zplus_mod, Ha, Hb, <- Zplus_mod. Qed.

#[export] Instance cong_sub m : Proper (cong m ==> cong m ==> cong m) Z.sub.
Proof. intros a a' [Ha] b b' [Hb]. constructor. by rewrite Zminus_mod, Ha, Hb, <- Zminus_mod. Qed.

Lemma cong_mod m a : cong m (a mod m) a.
Proof. constructor. apply Zmod_mod. Qed.

Ltac wrap_sum :=
  unfold wadd, wsub, wrap;
  match goal with |- ?a mod ?m = ?b mod ?m =>
    apply cong_eq; repeat match goal with |- context [?x mod m] => rewrite (cong_mod m x) end; constructor; apply (f_equal (λ x, x mod m)); lia end.

Lemma length_chunks_exact {A} n k (l : list A) : (0 < n)%nat → length l = (k * n)%nat → length (chunks_exact n l) = k.
Proof.
  intros Hn. revert l. induction k as [|k IH]; intros l Hl; [by destruct l|].
  rewrite <- (take_drop n l), (chunks_exact_cons n Hn) by (rewrite length_take; lia). cbn [length]. f_equal. apply IH. rewrite length_drop. lia.
Qed.

Lemma chunks_exact_lengths {A} n k (l : list A) : (0 < n)%nat → length l = (k * n)%nat → Forall (λ c, length c = n) (chunks_exact n l).
Proof.
  intros Hn. revert l. induction k as [|k IH]; intros l Hl; [by destruct l|].
  rewrite <- (take_drop n l), (chunks_exact_cons n Hn) by (rewrite length_take; lia).
  constructor; [rewrite length_take; lia|]. apply IH. rewrite length_drop. lia.
Qed.

(** A loop over indices into two arrays is a fold over their pairs. *)
Lemma foldl_index {S} (f : S → Z * Z → S) : ∀ (K w : list Z) s, length K = length w →
  foldl (λ s i, f s (nth i K 0, nth i w 0)) s (seq 0 (length K)) = foldl f s (zip K w).
Proof.
  induction K as [|k K IH]; intros [|x w] s Hl; try done. cbn [length seq foldl zip zip_with]. cbn [nth]. injection Hl as Hl.
  rewrite <- (fmap_S_seq 0), foldl_fmap. cbn [nth]. rewrite <- (IH w (f s (k, x)) Hl). done.
Qed.

Lemma extend_prefix word m : ∀ W, ∃ X, extend word m W = W ++ X ∧ length X = m.
Proof.
  induction m as [|m IH]; intros W; cbn [extend]; [by exists []; rewrite app_nil_r|].
  destruct (IH (W ++ [word W])) as (X & -> & HX). exists (word W :: X). rewrite <- app_assoc. cbn. by rewrite HX.
Qed.

Lemma length_extend word m W : length (extend word m W) = (length W + m)%nat.
Proof. destruct (extend_prefix word m W) as (X & -> & <-). apply length_app. Qed.

(** A schedule computed in a zeroed array. *)
Lemma array_loop (step : list Z → nat → list Z) word :
  (∀ W k, (16 ≤ length W)%nat → step (W ++ replicate (S k) 0) (length W) = (W ++ [word W]) ++ replicate k 0) →
  ∀ k W, (16 ≤ length W)%nat → foldl step (W ++ replicate k 0) (seq (length W) k) = extend word k W.
Proof.
  intros Hs. induction k as [|k IH]; intros W HW; [cbn; by rewrite app_nil_r|]. cbn [seq foldl extend].
  rewrite Hs by done. rewrite <- IH by (rewrite length_app; cbn; lia). rewrite length_app, Nat.add_1_r. done.
Qed.

(** From a block of sixteen words. *)
Lemma array_schedule step word (M : list Z) k :
  (∀ W k, (16 ≤ length W)%nat → step (W ++ replicate (S k) 0) (length W) = (W ++ [word W]) ++ replicate k 0) →
  length M = 16%nat → foldl step (splice (replicate (16 + k) 0) 0 M) (seq 16 k) = extend word k M.
Proof.
  intros Hs HM. assert (splice (replicate (16 + k) 0) 0 M = M ++ replicate k 0) as ->
    by (unfold splice; rewrite take_0, app_nil_l, drop_replicate, HM; do 2 f_equal; lia).
  rewrite <- HM. by apply array_loop; [|lia].
Qed.

Lemma nth_app_prefix {A} i (W X : list A) d : (i < length W)%nat → nth i (W ++ X) d = nth i W d.
Proof. intros Hi. by apply app_nth1. Qed.

(** * SHA-256 follows the standard *)

Lemma sched256_step W k : (16 ≤ length W)%nat →
  sched256 (W ++ replicate (S k) 0) (length W) = (W ++ [fips_word fips256 W]) ++ replicate k 0.
Proof.
  intros HW. unfold sched256. cbn [replicate]. rewrite !nth_app_prefix by lia.
  rewrite insert_app_r_alt, Nat.sub_diag by lia. cbn [insert list_insert]. rewrite <- app_assoc. cbn [app]. do 2 f_equal.
  unfold fips_word. cbn [s2_w s2_sigma0 s2_sigma1 fips256]. wrap_sum.
Qed.

Lemma round256_fips w r i : round256 w r i = fips_round fips256 r (nth i K256 0, nth i w 0).
Proof.
  destruct r as [a b c d e f g h]. unfold round256, fips_round. cbn [s2_w s2_Sigma0 s2_Sigma1 fips256 fst snd].
  assert (∀ t1 t1', t1 = t1' → ∀ t2 t2', t2 = t2' →
    mkRegs (wadd 32 t1 t2) a b c (wadd 32 d t1) e f g = mkRegs (wrap 32 (t1' + t2')) a b c (wrap 32 (d + t1')) e f g) as H
    by (intros ? ? -> ? ? ->; done).
  apply H; [unfold fips_ch; wrap_sum|unfold fips_maj; wrap_sum].
Qed.

Lemma rounds256_fips W r : length W = 64%nat →
  foldl (round256 W) r (seq 0 64) = foldl (fips_round fips256) r (zip K256 W).
Proof.
  intros HW. assert (length K256 = length W) as Hl by (rewrite HW; reflexivity).
  rewrite <- (foldl_index (fips_round fips256) K256 W r Hl), Hl, HW. clear Hl HW. revert r.
  generalize (seq 0 64) as l. induction l as [|i l IH]; intros r; [done|]. cbn [foldl]. by rewrite round256_fips.
Qed.

Lemma compress256_fips h block : length block = 64%nat → compress256_soft h block = fips_compress fips256 h block.
Proof.
  intros Hb. unfold compress256_soft, fips_compress, with_regs.
  destruct h as [|a [|b [|c [|d [|e [|f [|g [|hh [|? ?]]]]]]]]]; try done.
  set (M := be_value <$> chunks_exact 4 block).
  assert (length M = 16%nat) as HM by (unfold M; rewrite length_fmap; by apply length_chunks_exact; [lia|]).
  assert (fips_schedule fips256 block = extend (fips_word fips256) 48 M) as -> by done.
  rewrite (array_schedule sched256 (fips_word fips256) M 48 sched256_step HM : foldl sched256 (splice (replicate 64 0) 0 M) (seq 16 48) = _).
  set (W := extend (fips_word fips256) 48 M). assert (length W = 64%nat) as HW by (unfold W; rewrite length_extend, HM; done).
  rewrite (rounds256_fips W _ HW).
  change (s2_K fips256) with K256. generalize (foldl (fips_round fips256) (mkRegs a b c d e f g hh) (zip K256 W)). intros [a' b' c' d' e' f' g' h']. reflexivity.
Qed.

(** * SHA-512 follows the standard *)

Lemma maj_forms a b c : Z.lxor (Z.land (Z.lxor a b) (Z.lxor b c)) b = fips_maj a b c.
Proof. unfold fips_maj. apply Z.bits_inj'. intros i Hi. rewrite !Z.lxor_spec, !Z.land_spec, !Z.lxor_spec. by destruct (Z.testbit a i), (Z.testbit b i), (Z.testbit c i). Qed.

(** One round with the words moved instead of the names. *)
Definition shift_round (round : Z → Z → Z → Z → Z → Z → Z → Z → Z → Z * Z) (r : Regs) (v : Z) : Regs :=
  let '(mkRegs a b c d e f g h) := r in let '(d, h) := round a b c d e f g h v in mkRegs h a b c d e f g.

Definition ring_round round (wk : list Z → nat → Z * list Z) (s : Regs * list Z) (j : nat) : Regs * list Z :=
  let '(v, w) := wk s.2 j in (shift_round round s.1 v, w).

(** Eight rounds bring the names round. *)
Lemma rounds8_rotate round wk t s : rounds8 round wk t s = foldl (ring_round round wk) s (seq t 8).
Proof.
  destruct s as [[a b c d e f g h] w]. cbn [seq foldl]. unfold rounds8, ring_round, shift_round.
  replace (t + 0)%nat with t by lia. replace (t + 1)%nat with (S t) by lia. replace (t + 2)%nat with (S (S t)) by lia.
  replace (t + 3)%nat with (S (S (S t))) by lia. replace (t + 4)%nat with (S (S (S (S t)))) by lia.
  replace (t + 5)%nat with (S (S (S (S (S t))))) by lia. replace (t + 6)%nat with (S (S (S (S (S (S t)))))) by lia.
  replace (t + 7)%nat with (S (S (S (S (S (S (S t))))))) by lia.
  repeat (cbn [fst snd]; match goal with
    | |- context [let '(_, _) := wk ?w ?n in _] => destruct (wk w n)
    | |- context [let '(_, _) := round ?a ?b ?c ?d ?e ?f ?g ?h ?v in _] => destruct (round a b c d e f g h v) end).
  done.
Qed.

Lemma round_portable_fips r K W : shift_round round_portable r (wadd 64 K W) = fips_round fips512 r (K, W).
Proof.
  destruct r as [a b c d e f g h]. unfold shift_round, round_portable, fips_round. cbn [s2_w s2_Sigma0 s2_Sigma1 fips512 fst snd].
  rewrite maj_forms. f_equal; [|f_equal]; unfold fips_ch; wrap_sum.
Qed.

(** The short-chain form computes the same round. *)
Lemma round_x86_portable a b c d e f g h wk : in_width 64 e → in_width 64 g →
  round_x86 a b c d e f g h wk = round_portable a b c d e f g h wk.
Proof.
  intros He Hg. unfold round_x86, round_portable. rewrite maj_forms.
  assert (Z.lxor (Z.land (Z.lxor f g) e) g = Z.lxor (Z.land e f) (Z.land (wnot 64 e) g)) as ->.
  { apply Z.bits_inj'. intros i Hi. unfold wnot, wrap. rewrite !Z.lxor_spec, !Z.land_spec, !Z.lxor_spec.
    destruct (decide (i < 64)).
    - rewrite Z.mod_pow2_bits_low, Z.lnot_spec by lia. by destruct (Z.testbit e i), (Z.testbit f i), (Z.testbit g i).
    - rewrite Z.mod_pow2_bits_high by lia. rewrite (testbit_high 64 e), (testbit_high 64 g) by (done || lia). by destruct (Z.testbit f i). }
  assert (fips_maj a b c = Z.land b c + Z.land a (Z.lxor b c)) as ->.
  { rewrite Z.add_nocarry_lxor.
    - unfold fips_maj. apply Z.bits_inj'. intros i Hi. rewrite !Z.lxor_spec, !Z.land_spec, !Z.lxor_spec. by destruct (Z.testbit a i), (Z.testbit b i), (Z.testbit c i).
    - apply Z.bits_inj'. intros i Hi. rewrite !Z.land_spec, !Z.lxor_spec, Z.bits_0. by destruct (Z.testbit a i), (Z.testbit b i), (Z.testbit c i). }
  f_equal; wrap_sum.
Qed.

(** ** The ring *)

(** The ring holds the last sixteen words of the schedule. *)
Definition ring_ok (W w : list Z) : Prop :=
  length w = 16%nat ∧ ∀ m, (m < length W ≤ m + 16)%nat → nth (m mod 16) w 0 = nth m W 0.

Lemma nth_insert (l : list Z) i j x : (i < length l)%nat → nth j (<[i := x]> l) 0 = if decide (j = i) then x else nth j l 0.
Proof.
  intros Hi. rewrite !nth_lookup. destruct (decide (j = i)) as [->|Hn]; [by rewrite list_lookup_insert_eq|by rewrite list_lookup_insert_ne].
Qed.

(** The closure at its [n]-th word, sixteen rounds per base. *)
Definition ring_next (s : Regs * list Z) (n : nat) : Regs * list Z :=
  ring_round round_portable (next (n - n mod 16)) s (n mod 16).

Lemma ring_word W w : (16 ≤ length W)%nat → ring_ok W w →
  let n := length W in
  next (n - n mod 16) w (n mod 16)
  = (wadd 64 (nth n K512 0) (fips_word fips512 W), <[(n mod 16)%nat := fips_word fips512 W]> w).
Proof.
  intros HW [Hl Hr]. set (n := length W) in *. cbv zeta. pose proof (Nat.mod_upper_bound n 16 ltac:(lia)) as Hm.
  assert (∀ k, (1 ≤ k ≤ 16)%nat → nth ((n mod 16 + (16 - k)) mod 16) w 0 = nth (n - k) W 0) as Hk.
  { intros k Hk. rewrite <- (Hr (n - k)%nat) by (unfold n in *; lia). f_equal. rewrite Nat.Div0.add_mod_idemp_l.
    replace (n + (16 - k))%nat with (n - k + 1 * 16)%nat by lia. by rewrite Nat.Div0.mod_add. }
  unfold next. pose proof (Hk 15%nat ltac:(lia)) as H15. pose proof (Hk 2%nat ltac:(lia)) as H2. pose proof (Hk 7%nat ltac:(lia)) as H7.
  cbn [Nat.sub] in H15, H2, H7. rewrite H15, H2, H7.
  assert (nth (n mod 16) w 0 = nth (n - 16) W 0) as ->.
  { rewrite <- (Hk 16%nat) by lia. rewrite Nat.sub_diag, Nat.add_0_r. by rewrite (Nat.mod_small (n mod 16)). }
  rewrite nth_insert by lia. rewrite decide_True by done. rewrite Nat.sub_add by (apply Nat.Div0.mod_le).
  assert (∀ x, x = fips_word fips512 W → (wadd 64 (nth n K512 0) x, <[(n mod 16)%nat := x]> w)
    = (wadd 64 (nth n K512 0) (fips_word fips512 W), <[(n mod 16)%nat := fips_word fips512 W]> w)) as Hx by (by intros ? ->).
  apply Hx. unfold fips_word. fold n. cbn [s2_w s2_sigma0 s2_sigma1 fips512]. wrap_sum.
Qed.

Lemma ring_ok_next W w x : ring_ok W w → ring_ok (W ++ [x]) (<[(length W mod 16)%nat := x]> w).
Proof.
  intros [Hl Hr]. pose proof (Nat.mod_upper_bound (length W) 16 ltac:(lia)) as Hm. split; [by rewrite length_insert|].
  intros m Hm'. rewrite length_app in Hm'. cbn in Hm'. rewrite nth_insert by lia. destruct (decide (m = length W)) as [->|Hn].
  - rewrite decide_True by done. rewrite app_nth2 by lia. by rewrite Nat.sub_diag.
  - rewrite decide_False, nth_app_prefix by first [lia
      | intros He; pose proof (Nat.div_mod_eq m 16); pose proof (Nat.div_mod_eq (length W) 16); lia]. apply Hr. lia.
Qed.

Lemma ring_run k : ∀ W w r, (16 ≤ length W)%nat → (length W + k ≤ 80)%nat → ring_ok W w →
  (foldl ring_next (r, w) (seq (length W) k)).1
  = foldl (fips_round fips512) r (zip (take k (drop (length W) K512)) (drop (length W) (extend (fips_word fips512) k W))).
Proof.
  induction k as [|k IH]; intros W w r HW Hk Hr; [done|]. cbn [seq foldl].
  assert (ring_next (r, w) (length W)
    = (fips_round fips512 r (nth (length W) K512 0, fips_word fips512 W), <[(length W mod 16)%nat := fips_word fips512 W]> w)) as ->.
  { unfold ring_next, ring_round. cbn [fst snd]. rewrite (ring_word W w HW Hr). by rewrite round_portable_fips. }
  pose proof (λ w', IH (W ++ [fips_word fips512 W]) w' (fips_round fips512 r (nth (length W) K512 0, fips_word fips512 W))) as IHW.
  rewrite length_app, Nat.add_1_r in IHW.
  rewrite (IHW _ ltac:(lia) ltac:(lia) (ring_ok_next W w _ Hr)). clear IHW. cbn [extend].
  destruct (extend_prefix (fips_word fips512) k (W ++ [fips_word fips512 W])) as (X & -> & HX). rewrite <- app_assoc.
  rewrite !drop_app_length. rewrite app_assoc, drop_app_length' by (rewrite length_app; cbn; lia).
  destruct (lookup_lt_is_Some_2 K512 (length W)) as [kn Hkn]; [change (length K512) with 80%nat; lia|].
  rewrite (drop_S _ _ _ Hkn). cbn [take app zip zip_with foldl]. by rewrite nth_lookup, Hkn.
Qed.

(** The four passes of the loop are one run of sixty-four words. *)
Lemma ring_passes {S} (F : nat → S → nat → S) s :
  foldl (λ s t, foldl (F t) (foldl (F t) s (seq 0 8)) (seq 8 8)) s [16; 32; 48; 64]%nat
  = foldl (λ s n, F (n - n mod 16)%nat s (n mod 16)%nat) s (seq 16 64).
Proof. reflexivity. Qed.

Lemma kw_run w r : length w = 16%nat →
  foldl (ring_round round_portable kw) (r, w) (seq 0 16) = (foldl (fips_round fips512) r (zip (take 16 K512) w), w).
Proof.
  intros Hw. rewrite <- (foldl_index (fips_round fips512) (take 16 K512) w r) by (rewrite Hw; reflexivity).
  change (length (take 16 K512)) with 16%nat.
  assert (∀ l s, (Forall (λ i, i < 16)%nat l) → foldl (ring_round round_portable kw) (s, w) l
    = (foldl (λ s i, fips_round fips512 s (nth i (take 16 K512) 0, nth i w 0)) s l, w)) as H.
  { induction l as [|i l IH]; intros s Hl; [done|]. inversion Hl as [|? ? Hi Hl']; subst. cbn [foldl]. unfold ring_round at 2, kw. cbn [fst snd].
    rewrite round_portable_fips, IH by done. do 4 f_equal. rewrite !nth_lookup, lookup_take_lt by lia. done. }
  apply H. repeat constructor.
Qed.

Lemma rounds512_fips r w : length w = 16%nat →
  (foldl (λ s t, rounds8 round_portable (next t) 8 (rounds8 round_portable (next t) 0 s))
    (rounds8 round_portable kw 8 (rounds8 round_portable kw 0 (r, w))) [16; 32; 48; 64]%nat).1
  = foldl (fips_round fips512) r (zip K512 (extend (fips_word fips512) 64 w)).
Proof.
  intros Hw. rewrite !rounds8_rotate, <- foldl_app. change (seq 0 8 ++ seq 8 8) with (seq 0 16). rewrite kw_run by done.
  assert (∀ s, foldl (λ s t, rounds8 round_portable (next t) 8 (rounds8 round_portable (next t) 0 s)) s [16; 32; 48; 64]%nat
    = foldl ring_next s (seq 16 64)) as ->.
  { intros s. etransitivity; [|exact (ring_passes (λ t, ring_round round_portable (next t)) s)]. cbn [foldl]. by rewrite !rounds8_rotate. }
  assert (ring_ok w w) as Hr.
  { split; [done|]. intros m Hm. by rewrite Nat.mod_small by lia. }
  pose proof (ring_run 64 w w (foldl (fips_round fips512) r (zip (take 16 K512) w)) ltac:(lia) ltac:(lia) Hr) as H.
  rewrite Hw in H. rewrite H. clear H. destruct (extend_prefix (fips_word fips512) 64 w) as (X & -> & HX).
  rewrite <- foldl_app. f_equal. rewrite drop_app_length' by done.
  rewrite (take_ge (drop 16 K512)) by (change (length (drop 16 K512)) with 64%nat; lia).
  rewrite <- (take_drop 16 K512) at 3. rewrite zip_with_app by (change (length (take 16 K512)) with 16%nat; lia). done.
Qed.

Lemma block512_fips r block : length block = 128%nat →
  regs_list (block512 r block) = zip_with (λ x y, wrap 64 (x + y)) (regs_list r)
    (regs_list (foldl (fips_round fips512) r (zip K512 (fips_schedule fips512 block)))).
Proof.
  intros Hb. unfold block512. set (M := be_value <$> chunks_exact 8 block).
  assert (length M = 16%nat) as HM by (unfold M; rewrite length_fmap; by apply length_chunks_exact; [lia|]).
  assert (fips_schedule fips512 block = extend (fips_word fips512) 64 M) as -> by done.
  assert (splice (replicate 16 0) 0 M = M) as -> by (unfold splice; by rewrite take_0, app_nil_l, drop_ge, app_nil_r by (rewrite length_replicate; lia)).
  rewrite <- (rounds512_fips r M HM). clearbody M. destruct r as [a0 b0 c0 d0 e0 f0 g0 h0].
  destruct (foldl _ _ _) as [[a b c d e f g h] w']. cbn [fst regs_list zip_with ra rb rc rd re rf rg rh].
  unfold wadd. by rewrite (Z.add_comm a), (Z.add_comm b), (Z.add_comm c), (Z.add_comm d), (Z.add_comm e), (Z.add_comm f), (Z.add_comm g), (Z.add_comm h).
Qed.

Lemma compress512_fips h block : length block = 128%nat → compress512 h block = fips_compress fips512 h block.
Proof.
  intros Hb. unfold compress512, compress512_soft_blocks, fips_compress, with_regs.
  destruct h as [|a [|b [|c [|d [|e [|f [|g [|hh [|? ?]]]]]]]]]; try done.
  rewrite (chunks_exact_single 128) by (done || lia). cbn [foldl]. by rewrite block512_fips.
Qed.

(** Handing over several blocks at once is handing them over one by one. *)
Lemma compress512_bulk h data k : length data = (k * 128)%nat →
  compress512_soft_blocks h data = foldl compress512 h (chunks_exact 128 data).
Proof.
  intros Hd. unfold compress512, compress512_soft_blocks, with_regs.
  destruct h as [|a [|b [|c [|d [|e [|f [|g [|hh [|? ?]]]]]]]]]; try (induction (chunks_exact 128 data) as [|x bs IH]; [done|exact IH]).
  change [a; b; c; d; e; f; g; hh] with (regs_list (mkRegs a b c d e f g hh)). generalize (mkRegs a b c d e f g hh). clear -Hd.
  revert data Hd. induction k as [|k IH]; intros data Hd r.
  - by destruct data.
  - rewrite <- (take_drop 128 data). assert (length (take 128 data) = 128%nat) as Hl by (rewrite length_take; lia).
    rewrite (chunks_exact_cons 128) by (done || lia). cbn [foldl]. rewrite (chunks_exact_single 128 ltac:(lia) (take 128 data)) by (done || lia). cbn [foldl].
    rewrite IH by (rewrite length_drop; lia). by destruct r.
Qed.

(** The portable compression functions are those of FIPS 180-4: SHA-256 with its
    schedule array, and SHA-512 with its ring of sixteen words, rotated names and
    rearranged sums; several blocks in one call are the blocks one by one, and the form of
    the round with the short dependency chain computes the same words. *)
Theorem sha2_kernels_fips h block data k : length block = (k * 64)%nat → length data = (k * 128)%nat →
  compress256_blocks h block = foldl (fips_compress fips256) h (chunks_exact 64 block)
  ∧ compress512_soft_blocks h data = foldl (fips_compress fips512) h (chunks_exact 128 data)
  ∧ ∀ a b c d e f g wk hh, in_width 64 e → in_width 64 g → round_x86 a b c d e f g hh wk = round_portable a b c d e f g hh wk.
Proof.
  intros Hb Hd. split_and!.
  - unfold compress256_blocks. pose proof (chunks_exact_lengths 64 k block ltac:(lia) Hb) as Hc. revert h.
    induction Hc as [|x l Hx Hl IH]; intros h; [done|]. cbn [foldl]. by rewrite compress256_fips.
  - rewrite (compress512_bulk _ _ k Hd). pose proof (chunks_exact_lengths 128 k data ltac:(lia) Hd) as Hc. clear Hd. revert h.
    induction Hc as [|x l Hx Hl IH]; intros h; [done|]. cbn [foldl]. by rewrite compress512_fips.
  - intros. by apply round_x86_portable.
Qed.

(** Two zero blocks. *)
Lemma sha2_kernels_fips_witness :
  compress512_soft_blocks H512 (replicate 256 0) = foldl (fips_compress fips512) H512 (chunks_exact 128 (replicate 256 0)).
Proof. exact (proj1 (proj2 (sha2_kernels_fips H512 (replicate 128 0) (replicate 256 0) 2 eq_refl eq_refl))). Defined.
