(* ===== verification/MdFamily.v ===== *)
(** The compression functions of the hashes that share [MdState]: SHA-1
    ([src/hash/sha1.rs], portable path), MD5 ([md5.rs]), MD4 ([md4.rs]), SM3 ([sm3.rs]) and
    RIPEMD-160 ([ripemd160.rs]).  The code unrolls them on rotated variable names; they are
    compared with the loops of their standards. *)

From S2P Require Import Prelude MdHash Sha2.

(** [u32::rotate_left] *)
Definition rotl (x n : Z) : Z := Z.lor (wrap 32 (Z.shiftl x n)) (Z.shiftr x (32 - n)).

(** [block_words_le] *)
Definition block_words_le (block : bytes) : list Z := (λ c, be_value (rev c)) <$> chunks_exact 4 block.

Record R4 := mkR4 { r4a : Z; r4b : Z; r4c : Z; r4d : Z }.
Record R5 := mkR5 { r5a : Z; r5b : Z; r5c : Z; r5d : Z; r5e : Z }.

Definition with_r4 (h : list Z) (k : R4 → list Z) : list Z := match h with [a; b; c; d] => k (mkR4 a b c d) | _ => h end.
Definition with_r5 (h : list Z) (k : R5 → list Z) : list Z := match h with [a; b; c; d; e] => k (mkR5 a b c d e) | _ => h end.

(** The words of the state plus those of the registers. *)
Definition add4 (h : list Z) (r : R4) : list Z := zip_with (wadd 32) h [r4a r; r4b r; r4c r; r4d r].
Definition add5 (h : list Z) (r : R5) : list Z := zip_with (wadd 32) h [r5a r; r5b r; r5c r; r5d r; r5e r].

(** * SHA-1 *)

Definition sha1_IV : list Z :=
  [0x6745_2301; 0xefcd_ab89; 0x98ba_dcfe; 0x1032_5476; 0xc3d2_e1f0].
Definition K1 : list Z :=
  [0x5a82_7999; 0x6ed9_eba1; 0x8f1b_bcdc; 0xca62_c1d6].

Definition sha1_ch (b c d : Z) : Z := Z.lxor d (Z.land b (Z.lxor c d)).
Definition sha1_parity (b c d : Z) : Z := Z.lxor (Z.lxor b c) d.
Definition sha1_maj (b c d : Z) : Z := Z.lor (Z.land b c) (Z.land d (Z.lor b c)).

(** [round!]: the new [$e] and [$b]. *)
Definition sha1_round (f : Z → Z → Z → Z) (k wi a b c d e : Z) : Z * Z :=
  (wadd 32 (wadd 32 (wadd 32 (wadd 32 (rotl a 5) (f b c d)) e) k) wi, rotl b 30).

Definition round5 (w : list Z) (f : Z → Z → Z → Z) (k : Z) (i : nat) (r : R5) : R5 :=
  let '(mkR5 a b c d e) := r in
  let '(e, b) := sha1_round f k (nth i w 0) a b c d e in
  let '(d, a) := sha1_round f k (nth (i + 1) w 0) e a b c d in
  let '(c, e) := sha1_round f k (nth (i + 2) w 0) d e a b c in
  let '(b, d) := sha1_round f k (nth (i + 3) w 0) c d e a b in
  let '(a, c) := sha1_round f k (nth (i + 4) w 0) b c d e a in
  mkR5 a b c d e.

Definition stage (w : list Z) (f : Z → Z → Z → Z) (k : Z) (i : nat) (r : R5) : R5 :=
  round5 w f k (i + 15) (round5 w f k (i + 10) (round5 w f k (i + 5) (round5 w f k i r))).

Definition sha1_sched (w : list Z) (i : nat) : list Z :=
  <[i := rotl (Z.lxor (Z.lxor (Z.lxor (nth (i - 3) w 0) (nth (i - 8) w 0)) (nth (i - 14) w 0)) (nth (i - 16) w 0)) 1]> w.

Definition sha1_compress_soft (state : list Z) (block : bytes) : list Z :=
  with_r5 state (λ r,
    let w := splice (replicate 80 0) 0 (be_value <$> chunks_exact 4 block) in
    let w := foldl sha1_sched w (seq 16 64) in
    let r := stage w sha1_ch (nth 0 K1 0) 0 r in
    let r := stage w sha1_parity (nth 1 K1 0) 20 r in
    let r := stage w sha1_maj (nth 2 K1 0) 40 r in
    let r := stage w sha1_parity (nth 3 K1 0) 60 r in
    add5 state r).

Definition sha1_compress_blocks (state : list Z) (data : bytes) : list Z := foldl sha1_compress_soft state (chunks_exact 64 data).

(** * MD5 *)

Definition md5_IV : list Z :=
  [0x6745_2301; 0xefcd_ab89; 0x98ba_dcfe; 0x1032_5476].
Definition md5_S : list Z :=
  [7; 12; 17; 22; 7; 12; 17; 22; 7; 12; 17; 22; 7; 12; 17; 22; 5; 9; 14; 20; 5; 9; 14; 20; 5; 9; 14; 20; 5; 9; 14;
   20; 4; 11; 16; 23; 4; 11; 16; 23; 4; 11; 16; 23; 4; 11; 16; 23; 6; 10; 15; 21; 6; 10; 15; 21; 6; 10; 15; 21; 6;
   10; 15; 21].
Definition md5_K : list Z :=
  [0xd76a_a478; 0xe8c7_b756; 0x2420_70db; 0xc1bd_ceee; 0xf57c_0faf; 0x4787_c62a; 0xa830_4613; 0xfd46_9501; 0x6980_98d8;
   0x8b44_f7af; 0xffff_5bb1; 0x895c_d7be; 0x6b90_1122; 0xfd98_7193; 0xa679_438e; 0x49b4_0821; 0xf61e_2562; 0xc040_b340;
   0x265e_5a51; 0xe9b6_c7aa; 0xd62f_105d; 0x0244_1453; 0xd8a1_e681; 0xe7d3_fbc8; 0x21e1_cde6; 0xc337_07d6; 0xf4d5_0d87;
   0x455a_14ed; 0xa9e3_e905; 0xfcef_a3f8; 0x676f_02d9; 0x8d2a_4c8a; 0xfffa_3942; 0x8771_f681; 0x6d9d_6122; 0xfde5_380c;
   0xa4be_ea44; 0x4bde_cfa9; 0xf6bb_4b60; 0xbebf_bc70; 0x289b_7ec6; 0xeaa1_27fa; 0xd4ef_3085; 0x0488_1d05; 0xd9d4_d039;
   0xe6db_99e5; 0x1fa2_7cf8; 0xc4ac_5665; 0xf429_2244; 0x432a_ff97; 0xab94_23a7; 0xfc93_a039; 0x655b_59c3; 0x8f0c_cc92;
   0xffef_f47d; 0x8584_5dd1; 0x6fa8_7e4f; 0xfe2c_e6e0; 0xa301_4314; 0x4e08_11a1; 0xf753_7e82; 0xbd3a_f235; 0x2ad7_d2bb;
   0xeb86_d391].
Definition md5_G : list nat :=
  [0; 1; 2; 3; 4; 5; 6; 7; 8; 9; 10; 11; 12; 13; 14; 15; 1; 6; 11; 0; 5; 10; 15; 4; 9; 14; 3; 8; 13; 2; 7; 12; 5; 8;
   11; 14; 1; 4; 7; 10; 13; 0; 3; 6; 9; 12; 15; 2; 0; 7; 14; 5; 12; 3; 10; 1; 8; 15; 6; 13; 4; 11; 2; 9]%nat.

Definition f1 (b c d : Z) : Z := Z.lxor d (Z.land b (Z.lxor c d)).
Definition f2 (b c d : Z) : Z := wadd 32 (Z.land d b) (Z.land (wnot 32 d) c).
Definition f3 (b c d : Z) : Z := Z.lxor (Z.lxor b c) d.
Definition f4 (b c d : Z) : Z := Z.lxor c (Z.lor b (wnot 32 d)).

Definition md5_schedule (block : bytes) : list Z :=
  let m := block_words_le block in
  (λ i, wadd 32 (nth (nth i md5_G 0%nat) m 0) (nth i md5_K 0)) <$> seq 0 64.

(** [step!]: the new [$a]. *)
Definition md5_step (mk : list Z) (f : Z → Z → Z → Z) (i : nat) (a b c d : Z) : Z :=
  let early := wadd 32 a (nth i mk 0) in
  wadd 32 b (rotl (wadd 32 early (f b c d)) (nth i md5_S 0)).

Definition md5_r4 (mk : list Z) (f : Z → Z → Z → Z) (i : nat) (r : R4) : R4 :=
  let '(mkR4 a b c d) := r in
  let a := md5_step mk f i a b c d in
  let d := md5_step mk f (i + 1) d a b c in
  let c := md5_step mk f (i + 2) c d a b in
  let b := md5_step mk f (i + 3) b c d a in
  mkR4 a b c d.

Definition md5_compress (state : list Z) (block : bytes) : list Z :=
  with_r4 state (λ r,
    let mk := md5_schedule block in
    let r := foldl (λ r i, md5_r4 mk f1 i r) r [0; 4; 8; 12]%nat in
    let r := foldl (λ r i, md5_r4 mk f2 i r) r [16; 20; 24; 28]%nat in
    let r := foldl (λ r i, md5_r4 mk f3 i r) r [32; 36; 40; 44]%nat in
    let r := foldl (λ r i, md5_r4 mk f4 i r) r [48; 52; 56; 60]%nat in
    add4 state r).

(** * MD4 *)

Definition md4_IV : list Z :=
  [0x6745_2301; 0xefcd_ab89; 0x98ba_dcfe; 0x1032_5476].

Definition md4_f (x y z : Z) : Z := Z.lor (Z.land x y) (Z.land (wnot 32 x) z).
Definition md4_g (x y z : Z) : Z := Z.lor (Z.lor (Z.land x y) (Z.land x z)) (Z.land y z).
Definition md4_h (x y z : Z) : Z := Z.lxor (Z.lxor x y) z.

(** [ff!], [gg!] and [hh!]: the new [$a]. *)
Definition md4_ff (x : list Z) (a b c d : Z) (k : nat) (s : Z) : Z := rotl (wadd 32 (wadd 32 a (md4_f b c d)) (nth k x 0)) s.
Definition md4_gg (x : list Z) (a b c d : Z) (k : nat) (s : Z) : Z :=
  rotl (wadd 32 (wadd 32 (wadd 32 a (md4_g b c d)) (nth k x 0)) 0x5a82_7999) s.
Definition md4_hh (x : list Z) (a b c d : Z) (k : nat) (s : Z) : Z :=
  rotl (wadd 32 (wadd 32 (wadd 32 a (md4_h b c d)) (nth k x 0)) 0x6ed9_eba1) s.

(** Four calls on rotated names: the word indices and the shifts of the four lines. *)
Definition md4_four (op : Z → Z → Z → Z → nat → Z → Z) (s1 s2 s3 s4 : Z) (r : R4) (ks : nat * nat * nat * nat) : R4 :=
  let '(mkR4 a b c d) := r in
  let '(k1, k2, k3, k4) := ks in
  let a := op a b c d k1 s1 in
  let d := op d a b c k2 s2 in
  let c := op c d a b k3 s3 in
  let b := op b c d a k4 s4 in
  mkR4 a b c d.

Definition md4_compress (state : list Z) (block : bytes) : list Z :=
  with_r4 state (λ r,
    let x := block_words_le block in
    let r := foldl (md4_four (md4_ff x) 3 7 11 19) r [(0, 1, 2, 3); (4, 5, 6, 7); (8, 9, 10, 11); (12, 13, 14, 15)]%nat in
    let r := foldl (md4_four (md4_gg x) 3 5 9 13) r [(0, 4, 8, 12); (1, 5, 9, 13); (2, 6, 10, 14); (3, 7, 11, 15)]%nat in
    let r := foldl (md4_four (md4_hh x) 3 9 11 15) r [(0, 8, 4, 12); (2, 10, 6, 14); (1, 9, 5, 13); (3, 11, 7, 15)]%nat in
    add4 state r).

(** * SM3 *)

Definition sm3_IV : list Z :=
  [0x7380_166f; 0x4914_b2b9; 0x1724_42d7; 0xda8a_0600; 0xa96f_30bc; 0x1631_38aa; 0xe38d_ee4d; 0xb0fb_0e4e].

Definition p0 (x : Z) : Z := Z.lxor (Z.lxor x (rotl x 9)) (rotl x 17).
Definition p1 (x : Z) : Z := Z.lxor (Z.lxor x (rotl x 15)) (rotl x 23).

Definition ff0 (a b c : Z) : Z := Z.lxor (Z.lxor a b) c.
Definition ff1 (a b c : Z) : Z := Z.lor (Z.lor (Z.land a b) (Z.land a c)) (Z.land b c).
Definition gg1 (e f g : Z) : Z := Z.lor (Z.land e f) (Z.land (wnot 32 e) g).

Definition T0 : Z := 0x79cc_4519.
Definition T1 : Z := 0x7a87_9d8a.

Definition sm3_sched (w : list Z) (j : nat) : list Z :=
  <[j := Z.lxor (Z.lxor (p1 (Z.lxor (Z.lxor (nth (j - 16) w 0) (nth (j - 9) w 0)) (rotl (nth (j - 3) w 0) 15)))
                        (rotl (nth (j - 13) w 0) 7)) (nth (j - 6) w 0)]> w.

(** [round!]: the new [$d], [$b], [$h] and [$f]. *)
Definition sm3_round (w : list Z) (ff gg : Z → Z → Z → Z) (t : Z) (J : nat) (a b c d e f g h : Z) : Z * Z * Z * Z :=
  let a12 := rotl a 12 in
  let ss1 := rotl (wadd 32 (wadd 32 a12 e) (rotl t (Z.of_nat J mod 32))) 7 in
  let ss2 := Z.lxor ss1 a12 in
  let tt1 := wadd 32 (wadd 32 (wadd 32 (ff a b c) d) ss2) (Z.lxor (nth J w 0) (nth (J + 4) w 0)) in
  let tt2 := wadd 32 (wadd 32 (wadd 32 (gg e f g) h) ss1) (nth J w 0) in
  (tt1, rotl b 9, p0 tt2, rotl f 19).

Definition sm3_r4 (w : list Z) (ff gg : Z → Z → Z → Z) (t : Z) (j : nat) (r : Regs) : Regs :=
  let '(mkRegs a b c d e f g h) := r in
  let '(d, b, h, f) := sm3_round w ff gg t j a b c d e f g h in
  let '(c, a, g, e) := sm3_round w ff gg t (j + 1) d a b c h e f g in
  let '(b, d, f, h) := sm3_round w ff gg t (j + 2) c d a b g h e f in
  let '(a, c, e, g) := sm3_round w ff gg t (j + 3) b c d a f g h e in
  mkRegs a b c d e f g h.

Definition sm3_compress (state : list Z) (block : bytes) : list Z :=
  with_regs state (λ r,
    let w := splice (replicate 68 0) 0 (be_value <$> chunks_exact 4 block) in
    let w := foldl sm3_sched w (seq 16 52) in
    let r := foldl (λ r j, sm3_r4 w ff0 ff0 T0 j r) r [0; 4; 8; 12]%nat in
    let r := foldl (λ r j, sm3_r4 w ff1 gg1 T1 j r) r [16; 20; 24; 28; 32; 36; 40; 44; 48; 52; 56; 60]%nat in
    zip_with Z.lxor state (regs_list r)).

(** * RIPEMD-160 *)

Definition rmd_IV : list Z :=
  [0x6745_2301; 0xefcd_ab89; 0x98ba_dcfe; 0x1032_5476; 0xc3d2_e1f0].
Definition KL : list Z :=
  [0x0000_0000; 0x5a82_7999; 0x6ed9_eba1; 0x8f1b_bcdc; 0xa953_fd4e].
Definition KR : list Z :=
  [0x50a2_8be6; 0x5c4d_d124; 0x6d70_3ef3; 0x7a6d_76e9; 0x0000_0000].
Definition RL : list nat :=
  [0; 1; 2; 3; 4; 5; 6; 7; 8; 9; 10; 11; 12; 13; 14; 15; 7; 4; 13; 1; 10; 6; 15; 3; 12; 0; 9; 5; 2; 14; 11; 8; 3; 10;
   14; 4; 9; 15; 8; 1; 2; 7; 0; 6; 13; 11; 5; 12; 1; 9; 11; 10; 0; 8; 12; 4; 13; 3; 7; 15; 14; 5; 6; 2; 4; 0; 5; 9;
   7; 12; 2; 10; 14; 1; 3; 8; 11; 6; 15; 13]%nat.
Definition RR : list nat :=
  [5; 14; 7; 0; 9; 2; 11; 4; 13; 6; 15; 8; 1; 10; 3; 12; 6; 11; 3; 7; 0; 13; 5; 10; 14; 15; 8; 12; 4; 9; 1; 2; 15; 5;
   1; 3; 7; 14; 6; 9; 11; 8; 12; 2; 10; 0; 4; 13; 8; 6; 4; 1; 3; 11; 15; 0; 5; 12; 2; 13; 9; 7; 10; 14; 12; 15; 10;
   4; 1; 5; 8; 7; 6; 2; 13; 14; 0; 3; 9; 11]%nat.
Definition SL : list Z :=
  [11; 14; 15; 12; 5; 8; 7; 9; 11; 13; 14; 15; 6; 7; 9; 8; 7; 6; 8; 13; 11; 9; 7; 15; 7; 12; 15; 9; 11; 7; 13; 12;
   11; 13; 6; 7; 14; 9; 13; 15; 14; 8; 13; 6; 5; 12; 7; 5; 11; 12; 14; 15; 14; 15; 9; 8; 9; 14; 5; 6; 8; 6; 5; 12; 9;
   15; 5; 11; 6; 8; 13; 12; 5; 12; 13; 14; 11; 8; 5; 6].
Definition SR : list Z :=
  [8; 9; 9; 11; 13; 15; 15; 5; 7; 7; 8; 11; 14; 14; 12; 6; 9; 13; 15; 7; 12; 8; 9; 11; 7; 7; 12; 7; 6; 15; 13; 11; 9;
   7; 15; 11; 8; 6; 6; 14; 12; 13; 5; 14; 13; 13; 7; 5; 15; 5; 8; 11; 14; 14; 6; 14; 6; 9; 12; 9; 12; 5; 15; 8; 8; 5;
   12; 9; 12; 5; 14; 6; 8; 13; 6; 5; 15; 13; 11; 11].

Definition boolfn (round : nat) (x y z : Z) : Z :=
  match round with
  | 0%nat => Z.lxor (Z.lxor x y) z
  | 1%nat => Z.lor (Z.land x y) (Z.land (wnot 32 x) z)
  | 2%nat => Z.lxor (Z.lor x (wnot 32 y)) z
  | 3%nat => Z.lor (Z.land x z) (Z.land y (wnot 32 z))
  | _ => Z.lxor x (Z.lor y (wnot 32 z))
  end.

(** One line of [step!]: the new [$a] and [$c], for the line's tables. *)
Definition rmd_line (x : list Z) (fn : nat → nat) (K S : list Z) (R : list nat) (J : nat) (a b c d e : Z) : Z * Z :=
  let ROUND := (J / 16)%nat in
  (wadd 32 (rotl (wadd 32 (wadd 32 (wadd 32 a (boolfn (fn ROUND) b c d)) (nth (nth J R 0%nat) x 0)) (nth ROUND K 0)) (nth J S 0)) e,
   rotl c 10).

(** [step!] *)
Definition rmd_left (x : list Z) (J : nat) (a b c d e : Z) : Z * Z := rmd_line x (λ r, r) KL SL RL J a b c d e.
Definition rmd_right (x : list Z) (J : nat) (a b c d e : Z) : Z * Z := rmd_line x (λ r, 4 - r)%nat KR SR RR J a b c d e.

Definition step5 (x : list Z) (s : R5 * R5) (j : nat) : R5 * R5 :=
  let '(mkR5 al bl cl dl el, mkR5 ar br cr dr er) := s in
  let '(al, cl) := rmd_left x j al bl cl dl el in let '(ar, cr) := rmd_right x j ar br cr dr er in
  let '(el, bl) := rmd_left x (j + 1) el al bl cl dl in let '(er, br) := rmd_right x (j + 1) er ar br cr dr in
  let '(dl, al) := rmd_left x (j + 2) dl el al bl cl in let '(dr, ar) := rmd_right x (j + 2) dr er ar br cr in
  let '(cl, el) := rmd_left x (j + 3) cl dl el al bl in let '(cr, er) := rmd_right x (j + 3) cr dr er ar br in
  let '(bl, dl) := rmd_left x (j + 4) bl cl dl el al in let '(br, dr) := rmd_right x (j + 4) br cr dr er ar in
  (mkR5 al bl cl dl el, mkR5 ar br cr dr er).

Definition rmd_compress (state : list Z) (block : bytes) : list Z :=
  with_r5 state (λ r,
    let x := block_words_le block in
    let '(mkR5 al bl cl dl el, mkR5 ar br cr dr er) :=
      foldl (step5 x) (r, r) [0; 5; 10; 15; 20; 25; 30; 35; 40; 45; 50; 55; 60; 65; 70; 75]%nat in
    let '(mkR5 s0 s1 s2 s3 s4) := r in
    let t := wadd 32 (wadd 32 s1 cl) dr in
    [t; wadd 32 (wadd 32 s2 dl) er; wadd 32 (wadd 32 s3 el) ar; wadd 32 (wadd 32 s4 al) br; wadd 32 (wadd 32 s0 bl) cr]).

(** * The loops of the standards *)

(** FIPS 180-4, sections 4.1.1 and 6.1.2. *)
Definition sha1_fips_f (t : nat) (x y z : Z) : Z :=
  if (t <? 20)%nat then fips_ch 32 x y z
  else if (t <? 40)%nat then Z.lxor (Z.lxor x y) z
  else if (t <? 60)%nat then fips_maj x y z
  else Z.lxor (Z.lxor x y) z.

Definition sha1_fips_word (W : list Z) : Z :=
  let t := length W in
  rotl (Z.lxor (Z.lxor (Z.lxor (nth (t - 3) W 0) (nth (t - 8) W 0)) (nth (t - 14) W 0)) (nth (t - 16) W 0)) 1.

Definition sha1_fips_round (W : list Z) (r : R5) (t : nat) : R5 :=
  let '(mkR5 a b c d e) := r in
  let T := wrap 32 (rotl a 5 + sha1_fips_f t b c d + e + nth (t / 20) K1 0 + nth t W 0) in
  mkR5 T a (rotl b 30) c d.

Definition sha1_fips (H : list Z) (block : bytes) : list Z :=
  with_r5 H (λ r, add5 H (foldl (sha1_fips_round (extend sha1_fips_word 64 (be_value <$> chunks_exact 4 block))) r (seq 0 80))).

(** RFC 1321, section 3.4. *)
Definition md5_rfc_f (i : nat) (b c d : Z) : Z :=
  if (i <? 16)%nat then Z.lor (Z.land b c) (Z.land (wnot 32 b) d)
  else if (i <? 32)%nat then Z.lor (Z.land d b) (Z.land (wnot 32 d) c)
  else if (i <? 48)%nat then Z.lxor (Z.lxor b c) d
  else Z.lxor c (Z.lor b (wnot 32 d)).

Definition md5_rfc_g (i : nat) : nat :=
  (if i <? 16 then i else if i <? 32 then (5 * i + 1) mod 16 else if i <? 48 then (3 * i + 5) mod 16 else (7 * i) mod 16)%nat.

Definition md5_rfc_round (M : list Z) (r : R4) (i : nat) : R4 :=
  let '(mkR4 a b c d) := r in
  mkR4 d (wrap 32 (b + rotl (wrap 32 (a + md5_rfc_f i b c d + nth i md5_K 0 + nth (md5_rfc_g i) M 0)) (nth i md5_S 0))) b c.

Definition md5_rfc (H : list Z) (block : bytes) : list Z :=
  with_r4 H (λ r, add4 H (foldl (md5_rfc_round (block_words_le block)) r (seq 0 64))).

(** GB/T 32905, section 5.3. *)
Definition sm3_std_word (W : list Z) : Z :=
  let j := length W in
  Z.lxor (Z.lxor (p1 (Z.lxor (Z.lxor (nth (j - 16) W 0) (nth (j - 9) W 0)) (rotl (nth (j - 3) W 0) 15)))
                 (rotl (nth (j - 13) W 0) 7)) (nth (j - 6) W 0).

Definition sm3_std_round (W : list Z) (r : Regs) (j : nat) : Regs :=
  let '(mkRegs a b c d e f g h) := r in
  let early := (j <? 16)%nat in
  let ss1 := rotl (wrap 32 (rotl a 12 + e + rotl (if early then T0 else T1) (Z.of_nat j mod 32))) 7 in
  let ss2 := Z.lxor ss1 (rotl a 12) in
  let tt1 := wrap 32 ((if early then ff0 else ff1) a b c + d + ss2 + Z.lxor (nth j W 0) (nth (j + 4) W 0)) in
  let tt2 := wrap 32 ((if early then ff0 else gg1) e f g + h + ss1 + nth j W 0) in
  mkRegs tt1 a (rotl b 9) c (p0 tt2) e (rotl f 19) g.

Definition sm3_std (V : list Z) (block : bytes) : list Z :=
  with_regs V (λ r, zip_with Z.lxor V
    (regs_list (foldl (sm3_std_round (extend sm3_std_word 52 (be_value <$> chunks_exact 4 block))) r (seq 0 64)))).

(** The RIPEMD-160 paper: each line on its own. *)
Definition rmd_std_line (x : list Z) (fn : nat → nat) (K S : list Z) (R : list nat) (r : R5) (j : nat) : R5 :=
  let '(mkR5 a b c d e) := r in
  let T := wrap 32 (rotl (wrap 32 (a + boolfn (fn (j / 16)%nat) b c d + nth (nth j R 0%nat) x 0 + nth (j / 16) K 0)) (nth j S 0) + e) in
  mkR5 e T b (rotl c 10) d.

Definition rmd_std (h : list Z) (block : bytes) : list Z :=
  with_r5 h (λ r,
    let x := block_words_le block in
    let '(mkR5 a b c d e) := foldl (rmd_std_line x (λ r, r) KL SL RL) r (seq 0 80) in
    let '(mkR5 a' b' c' d' e') := foldl (rmd_std_line x (λ r, 4 - r)%nat KR SR RR) r (seq 0 80) in
    let '(mkR5 h0 h1 h2 h3 h4) := r in
    [wrap 32 (h1 + c + d'); wrap 32 (h2 + d + e'); wrap 32 (h3 + e + a'); wrap 32 (h4 + a + b'); wrap 32 (h0 + b + c')]).

(** * The unrolled code follows the standards *)

Lemma rotl_width x n : 0 ≤ n ≤ 32 → in_width 32 x → in_width 32 (rotl x n).
Proof. intros Hn Hx. unfold rotl. apply lor_in_width; [lia|apply wrap_range; lia|apply shiftr_in_width; [lia|done]]. Qed.

(** The rearranged boolean functions, on 32-bit words. *)
Ltac by_bits32 := unfold fips_ch, fips_maj, wnot; let i := fresh "i" in let Hi := fresh "Hi" in bitwise i Hi; repeat case_bool_decide; cbn [andb];
  repeat match goal with H : in_width 32 ?x |- context [Z.testbit ?x i] => rewrite (testbit_high 32 x i H) by lia end;
  repeat match goal with |- context [Z.testbit ?x i] => destruct (Z.testbit x i) end; done.

Lemma choose_forms b c d : in_width 32 b → in_width 32 c → in_width 32 d →
  sha1_ch b c d = fips_ch 32 b c d ∧ f1 b c d = Z.lor (Z.land b c) (Z.land (wnot 32 b) d).
Proof. intros Hb Hc Hd. unfold sha1_ch, f1. split; by_bits32. Qed.

Lemma sha1_maj_forms b c d : sha1_maj b c d = fips_maj b c d.
Proof. unfold sha1_maj. by_bits32. Qed.

(** The disjoint halves of [G], added. *)
Lemma f2_form b c d : in_width 32 b → in_width 32 c → in_width 32 d → f2 b c d = Z.lor (Z.land d b) (Z.land (wnot 32 d) c).
Proof.
  intros Hb Hc Hd. unfold f2, wadd. rewrite Z.add_nocarry_lxor by by_bits32.
  assert (Z.lxor (Z.land d b) (Z.land (wnot 32 d) c) = Z.lor (Z.land d b) (Z.land (wnot 32 d) c)) as -> by by_bits32.
  apply wrap_small. apply lor_in_width; [lia|apply land_in_width; [lia|done|apply Hb]|]. rewrite Z.land_comm. apply land_in_width; [lia|done|].
  apply (wrap_range 32 (Z.lnot d)). lia.
Qed.

(** ** SHA-1 *)

Definition in_r5 (r : R5) : Prop := in_width 32 (r5a r) ∧ in_width 32 (r5b r) ∧ in_width 32 (r5c r) ∧ in_width 32 (r5d r) ∧ in_width 32 (r5e r).

Definition sha1_shift (w : list Z) f k (r : R5) (t : nat) : R5 :=
  let '(mkR5 a b c d e) := r in let '(e, b) := sha1_round f k (nth t w 0) a b c d e in mkR5 e a b c d.

Lemma round5_shift w f k i r : round5 w f k i r = foldl (sha1_shift w f k) r (seq i 5).
Proof.
  destruct r as [a b c d e]. cbn [seq foldl]. unfold round5, sha1_shift.
  replace (i + 1)%nat with (S i) by lia. replace (i + 2)%nat with (S (S i)) by lia. replace (i + 3)%nat with (S (S (S i))) by lia.
  replace (i + 4)%nat with (S (S (S (S i)))) by lia. reflexivity.
Qed.

Lemma stage_shift w f k i r : stage w f k i r = foldl (sha1_shift w f k) r (seq i 20).
Proof.
  unfold stage. rewrite !round5_shift, <- !foldl_app. f_equal. replace 20%nat with (5 + (5 + (5 + 5)))%nat by done.
  rewrite !seq_app. do 3 (f_equal; try (f_equal; lia)).
Qed.

Lemma sha1_step_fips w f k r t : in_r5 r → (∀ x y z, in_width 32 x → in_width 32 y → in_width 32 z → f x y z = sha1_fips_f t x y z) →
  k = nth (t / 20) K1 0 → sha1_shift w f k r t = sha1_fips_round w r t ∧ in_r5 (sha1_fips_round w r t).
Proof.
  destruct r as [a b c d e]. intros (Ha & Hb & Hc & Hd & He) Hf ->. cbn in *. unfold sha1_shift, sha1_fips_round, sha1_round. rewrite Hf by done.
  split; [f_equal; wrap_sum|]. unfold in_r5. cbn [r5a r5b r5c r5d r5e]. split_and!; try done; [apply wrap_range; lia|apply rotl_width; [lia|done]].
Qed.

Lemma sha1_segment w f k l : (∀ t, t ∈ l → k = nth (t / 20) K1 0
    ∧ ∀ x y z, in_width 32 x → in_width 32 y → in_width 32 z → f x y z = sha1_fips_f t x y z) →
  ∀ r, in_r5 r → foldl (sha1_shift w f k) r l = foldl (sha1_fips_round w) r l ∧ in_r5 (foldl (sha1_fips_round w) r l).
Proof.
  induction l as [|t l IH]; intros Hl r Hr; [done|]. cbn [foldl].
  destruct (Hl t) as [Hk Hf]; [set_solver|]. destruct (sha1_step_fips w f k r t Hr Hf Hk) as [-> Hr'].
  apply IH; [|done]. intros u Hu. apply Hl. set_solver.
Qed.

Lemma sha1_stage_fips w f k (i q : nat) r : i = (q * 20)%nat → k = nth q K1 0 →
  (∀ t x y z, (i ≤ t < i + 20)%nat → in_width 32 x → in_width 32 y → in_width 32 z → f x y z = sha1_fips_f t x y z) → in_r5 r →
  stage w f k i r = foldl (sha1_fips_round w) r (seq i 20) ∧ in_r5 (stage w f k i r).
Proof.
  intros -> -> Hf Hr. rewrite stage_shift. destruct (sha1_segment w f (nth q K1 0) (seq (q * 20) 20)) with (r := r) as [-> ?]; [|done|done].
  intros t Ht. apply elem_of_seq in Ht. split; [|intros; apply Hf; done || lia].
  f_equal. apply (Nat.div_unique _ _ _ (t - q * 20)); lia.
Qed.

Lemma sha1_sched_step W k : (16 ≤ length W)%nat → sha1_sched (W ++ replicate (S k) 0) (length W) = (W ++ [sha1_fips_word W]) ++ replicate k 0.
Proof.
  intros HW. unfold sha1_sched. cbn [replicate]. rewrite !nth_app_prefix by lia.
  rewrite insert_app_r_alt, Nat.sub_diag by lia. cbn [insert list_insert]. by rewrite <- app_assoc.
Qed.

Lemma sha1_compress_fips h block : Forall (in_width 32) h → length block = 64%nat → sha1_compress_soft h block = sha1_fips h block.
Proof.
  intros Hh Hb. unfold sha1_compress_soft, sha1_fips, with_r5. destruct h as [|a [|b [|c [|d [|e [|? ?]]]]]]; try done.
  set (M := be_value <$> chunks_exact 4 block).
  assert (length M = 16%nat) as HM by (unfold M; rewrite length_fmap; by apply length_chunks_exact; [lia|]).
  rewrite (array_schedule sha1_sched sha1_fips_word M 64 sha1_sched_step HM : foldl sha1_sched (splice (replicate 80 0) 0 M) (seq 16 64) = _).
  generalize (extend sha1_fips_word 64 M) as W. intros W. clearbody M. f_equal.
  assert (in_r5 (mkR5 a b c d e)) as H0 by (unfold in_r5; cbn; by repeat match goal with H : Forall _ (_ :: _) |- _ => inversion H; clear H; subst end).
  generalize dependent (mkR5 a b c d e). intros r H0.
  destruct (sha1_stage_fips W sha1_ch (nth 0 K1 0) 0 0 r) as [E0 H1]; [done|done| |done|].
  { intros t x y z Ht Hx Hy Hz. unfold sha1_fips_f. rewrite (proj2 (Nat.ltb_lt _ _)) by lia. by apply choose_forms. }
  edestruct (sha1_stage_fips W sha1_parity (nth 1 K1 0) 20 1) as [E1 H2]; [done|done| |exact H1|].
  { intros t x y z Ht Hx Hy Hz. unfold sha1_fips_f. rewrite (proj2 (Nat.ltb_ge t 20)) by lia. by rewrite (proj2 (Nat.ltb_lt t 40)) by lia. }
  edestruct (sha1_stage_fips W sha1_maj (nth 2 K1 0) 40 2) as [E2 H3]; [done|done| |exact H2|].
  { intros t x y z Ht Hx Hy Hz. unfold sha1_fips_f. rewrite (proj2 (Nat.ltb_ge t 20)), (proj2 (Nat.ltb_ge t 40)) by lia.
    rewrite (proj2 (Nat.ltb_lt t 60)) by lia. apply sha1_maj_forms. }
  edestruct (sha1_stage_fips W sha1_parity (nth 3 K1 0) 60 3) as [E3 _]; [done|done| |exact H3|].
  { intros t x y z Ht Hx Hy Hz. unfold sha1_fips_f.
    by rewrite (proj2 (Nat.ltb_ge t 20)), (proj2 (Nat.ltb_ge t 40)), (proj2 (Nat.ltb_ge t 60)) by lia. }
  rewrite E3, E2, E1, E0, <- !foldl_app. reflexivity.
Qed.

(** ** MD5 *)

Definition in_r4 (r : R4) : Prop := in_width 32 (r4a r) ∧ in_width 32 (r4b r) ∧ in_width 32 (r4c r) ∧ in_width 32 (r4d r).

Definition md5_shift (mk : list Z) f (r : R4) (i : nat) : R4 :=
  let '(mkR4 a b c d) := r in mkR4 d (md5_step mk f i a b c d) b c.

Lemma md5_r4_shift mk f i r : md5_r4 mk f i r = foldl (md5_shift mk f) r (seq i 4).
Proof.
  destruct r as [a b c d]. cbn [seq foldl]. unfold md5_r4, md5_shift.
  replace (i + 1)%nat with (S i) by lia. replace (i + 2)%nat with (S (S i)) by lia. replace (i + 3)%nat with (S (S (S i))) by lia. reflexivity.
Qed.

(** The table of word indices is the formula of the RFC. *)
Lemma md5_G_table : md5_G = md5_rfc_g <$> seq 0 64.
Proof. reflexivity. Qed.

Lemma nth_fmap_seq {A} (f : nat → A) n i d : (i < n)%nat → nth i (f <$> seq 0 n) d = f i.
Proof. intros Hi. rewrite nth_lookup, list_lookup_fmap, lookup_seq_lt by done. done. Qed.

Lemma md5_schedule_nth block i : (i < 64)%nat →
  nth i (md5_schedule block) 0 = wadd 32 (nth (md5_rfc_g i) (block_words_le block) 0) (nth i md5_K 0).
Proof. intros Hi. unfold md5_schedule. rewrite (nth_fmap_seq _ 64) by done. by rewrite md5_G_table, (nth_fmap_seq _ 64). Qed.

Lemma md5_step_rfc block f r i : (i < 64)%nat → in_r4 r →
  (∀ x y z, in_width 32 x → in_width 32 y → in_width 32 z → f x y z = md5_rfc_f i x y z) →
  md5_shift (md5_schedule block) f r i = md5_rfc_round (block_words_le block) r i ∧ in_r4 (md5_rfc_round (block_words_le block) r i).
Proof.
  destruct r as [a b c d]. intros Hi (Ha & Hb & Hc & Hd) Hf. cbn in Ha, Hb, Hc, Hd. unfold md5_shift, md5_rfc_round, md5_step.
  rewrite Hf, md5_schedule_nth by done. split.
  - do 2 f_equal. unfold wadd at 1. do 3 f_equal. wrap_sum.
  - unfold in_r4. cbn [r4a r4b r4c r4d]. split_and!; try done. apply wrap_range. lia.
Qed.

Lemma md5_segment block f l : Forall (λ i, (i < 64)%nat ∧ ∀ x y z, in_width 32 x → in_width 32 y → in_width 32 z → f x y z = md5_rfc_f i x y z) l →
  ∀ r, in_r4 r → foldl (md5_shift (md5_schedule block) f) r l = foldl (md5_rfc_round (block_words_le block)) r l
    ∧ in_r4 (foldl (md5_rfc_round (block_words_le block)) r l).
Proof.
  induction 1 as [|i l [Hi Hf] Hl IH]; intros r Hr; [done|]. cbn [foldl].
  destruct (md5_step_rfc block f r i Hi Hr Hf) as [-> Hr']. by apply IH.
Qed.

(** One of the four rounds. *)
Lemma md5_round_rfc block f q r : (q < 4)%nat → (∀ i x y z, (q * 16 ≤ i < q * 16 + 16)%nat →
    in_width 32 x → in_width 32 y → in_width 32 z → f x y z = md5_rfc_f i x y z) → in_r4 r →
  let r' := foldl (λ r i, md5_r4 (md5_schedule block) f i r) r [q * 16; q * 16 + 4; q * 16 + 8; q * 16 + 12]%nat in
  r' = foldl (md5_rfc_round (block_words_le block)) r (seq (q * 16) 16) ∧ in_r4 r'.
Proof.
  intros Hq Hf Hr. cbn zeta. cbn [foldl]. rewrite !md5_r4_shift, <- !foldl_app.
  assert (seq (q * 16) 4 ++ seq (q * 16 + 4) 4 ++ seq (q * 16 + 8) 4 ++ seq (q * 16 + 12) 4 = seq (q * 16) 16) as E.
  { generalize (q * 16)%nat. intros n. cbn [seq app]. repeat (f_equal; try lia). }
  rewrite <- ?app_assoc. rewrite E. destruct (md5_segment block f (seq (q * 16) 16)) with (r := r) as [-> ?]; try done.
  apply Forall_forall. intros i Hi. apply elem_of_seq in Hi. split; [lia|]. intros. apply Hf; done || lia.
Qed.

Lemma md5_compress_rfc h block : Forall (in_width 32) h → md5_compress h block = md5_rfc h block.
Proof.
  intros Hh. unfold md5_compress, md5_rfc, with_r4. destruct h as [|a [|b [|c [|d [|? ?]]]]]; try done. f_equal.
  assert (in_r4 (mkR4 a b c d)) as H0 by (unfold in_r4; cbn; by repeat match goal with H : Forall _ (_ :: _) |- _ => inversion H; clear H; subst end).
  generalize dependent (mkR4 a b c d). intros r H0. clear Hh.
  destruct (md5_round_rfc block f1 0 r) as [E0 H1]; [lia| |done|].
  { intros i x y z Hi Hx Hy Hz. unfold md5_rfc_f. rewrite (proj2 (Nat.ltb_lt i 16)) by lia. by apply choose_forms. }
  edestruct (md5_round_rfc block f2 1) as [E1 H2]; [lia| |exact H1|].
  { intros i x y z Hi Hx Hy Hz. unfold md5_rfc_f. rewrite (proj2 (Nat.ltb_ge i 16)), (proj2 (Nat.ltb_lt i 32)) by lia. by apply f2_form. }
  edestruct (md5_round_rfc block f3 2) as [E2 H3]; [lia| |exact H2|].
  { intros i x y z Hi Hx Hy Hz. unfold md5_rfc_f. by rewrite (proj2 (Nat.ltb_ge i 16)), (proj2 (Nat.ltb_ge i 32)), (proj2 (Nat.ltb_lt i 48)) by lia. }
  edestruct (md5_round_rfc block f4 3) as [E3 _]; [lia| |exact H3|].
  { intros i x y z Hi Hx Hy Hz. unfold md5_rfc_f. by rewrite (proj2 (Nat.ltb_ge i 16)), (proj2 (Nat.ltb_ge i 32)), (proj2 (Nat.ltb_ge i 48)) by lia. }
  etransitivity; [exact E3|]. rewrite E2, E1, E0, <- !foldl_app. reflexivity.
Qed.

(** ** SM3 *)

Definition sm3_shift (w : list Z) ff gg t (r : Regs) (j : nat) : Regs :=
  let '(mkRegs a b c d e f g h) := r in
  let '(d, b, h, f) := sm3_round w ff gg t j a b c d e f g h in mkRegs d a b c h e f g.

Lemma sm3_r4_shift w ff gg t j r : sm3_r4 w ff gg t j r = foldl (sm3_shift w ff gg t) r (seq j 4).
Proof.
  destruct r as [a b c d e f g h]. cbn [seq foldl]. unfold sm3_r4, sm3_shift.
  replace (j + 1)%nat with (S j) by lia. replace (j + 2)%nat with (S (S j)) by lia. replace (j + 3)%nat with (S (S (S j))) by lia.
  repeat (match goal with |- context [sm3_round ?w ?ff ?gg ?t ?j ?a ?b ?c ?d ?e ?f ?g ?h] =>
    destruct (sm3_round w ff gg t j a b c d e f g h) as [[[? ?] ?] ?] end; cbv beta iota).
  done.
Qed.

Lemma sm3_step_std w r j (early : bool) : early = (j <? 16)%nat →
  sm3_shift w (if early then ff0 else ff1) (if early then ff0 else gg1) (if early then T0 else T1) r j = sm3_std_round w r j.
Proof.
  intros ->. destruct r as [a b c d e f g h]. unfold sm3_shift, sm3_std_round, sm3_round.
  assert (∀ x y z, wadd 32 (wadd 32 x y) z = wrap 32 (x + y + z)) as A3 by (intros; wrap_sum).
  assert (∀ x y z u, wadd 32 (wadd 32 (wadd 32 x y) z) u = wrap 32 (x + y + z + u)) as A4 by (intros; wrap_sum).
  by rewrite !A4, !A3.
Qed.

Lemma sm3_segment w (early : bool) l : Forall (λ j, early = (j <? 16)%nat) l → ∀ r,
  foldl (sm3_shift w (if early then ff0 else ff1) (if early then ff0 else gg1) (if early then T0 else T1)) r l = foldl (sm3_std_round w) r l.
Proof. induction 1 as [|j l Hj Hl IH]; intros r; [done|]. cbn [foldl]. by rewrite sm3_step_std, IH. Qed.

Lemma sm3_sched_step W k : (16 ≤ length W)%nat → sm3_sched (W ++ replicate (S k) 0) (length W) = (W ++ [sm3_std_word W]) ++ replicate k 0.
Proof.
  intros HW. unfold sm3_sched. cbn [replicate]. rewrite !nth_app_prefix by lia.
  rewrite insert_app_r_alt, Nat.sub_diag by lia. cbn [insert list_insert]. by rewrite <- app_assoc.
Qed.

Lemma sm3_compress_std h block : length block = 64%nat → sm3_compress h block = sm3_std h block.
Proof.
  intros Hb. unfold sm3_compress, sm3_std, with_regs. destruct h as [|a [|b [|c [|d [|e [|f [|g [|hh [|? ?]]]]]]]]]; try done.
  set (M := be_value <$> chunks_exact 4 block).
  assert (length M = 16%nat) as HM by (unfold M; rewrite length_fmap; by apply length_chunks_exact; [lia|]).
  rewrite (array_schedule sm3_sched sm3_std_word M 52 sm3_sched_step HM : foldl sm3_sched (splice (replicate 68 0) 0 M) (seq 16 52) = _).
  generalize (extend sm3_std_word 52 M) as W. intros W. clearbody M. do 2 f_equal. generalize (mkRegs a b c d e f g hh) as r. intros r. cbn [foldl].
  rewrite !sm3_r4_shift.
  rewrite !(sm3_segment W true) by (by repeat constructor). rewrite !(sm3_segment W false) by (by repeat constructor).
  rewrite <- !foldl_app. reflexivity.
Qed.

(** ** RIPEMD-160 *)

Definition rmd_shift (line : nat → Z → Z → Z → Z → Z → Z * Z) (r : R5) (j : nat) : R5 :=
  let '(mkR5 a b c d e) := r in let '(a, c) := line j a b c d e in mkR5 e a b c d.

Lemma step5_shift x s j : step5 x s j = (foldl (rmd_shift (rmd_left x)) s.1 (seq j 5), foldl (rmd_shift (rmd_right x)) s.2 (seq j 5)).
Proof.
  destruct s as [[al bl cl dl el] [ar br cr dr er]]. cbn [seq foldl fst snd]. unfold step5, rmd_shift.
  replace (j + 1)%nat with (S j) by lia. replace (j + 2)%nat with (S (S j)) by lia. replace (j + 3)%nat with (S (S (S j))) by lia.
  replace (j + 4)%nat with (S (S (S (S j)))) by lia.
  repeat (match goal with
    | |- context [let '(_, _) := rmd_left ?x ?j ?a ?b ?c ?d ?e in _] => destruct (rmd_left x j a b c d e)
    | |- context [let '(_, _) := rmd_right ?x ?j ?a ?b ?c ?d ?e in _] => destruct (rmd_right x j a b c d e) end).
  done.
Qed.

Lemma rmd_lines_std x r j :
  rmd_shift (rmd_left x) r j = rmd_std_line x (λ r, r) KL SL RL r j
  ∧ rmd_shift (rmd_right x) r j = rmd_std_line x (λ r, 4 - r)%nat KR SR RR r j.
Proof.
  destruct r as [a b c d e]. unfold rmd_shift, rmd_left, rmd_right, rmd_line, rmd_std_line.
  assert (∀ x y z u, wadd 32 (wadd 32 (wadd 32 x y) z) u = wrap 32 (x + y + z + u)) as A4 by (intros; wrap_sum).
  by rewrite !A4.
Qed.

Lemma rmd_fold_std x l : ∀ r,
  foldl (rmd_shift (rmd_left x)) r l = foldl (rmd_std_line x (λ r, r) KL SL RL) r l
  ∧ foldl (rmd_shift (rmd_right x)) r l = foldl (rmd_std_line x (λ r, 4 - r)%nat KR SR RR) r l.
Proof.
  induction l as [|j l IH]; intros r; [done|]. cbn [foldl]. destruct (rmd_lines_std x r j) as [-> ->].
  split; apply IH.
Qed.

Lemma rmd_steps x s js : foldl (step5 x) s js
  = (foldl (rmd_shift (rmd_left x)) s.1 (js ≫= λ j, seq j 5), foldl (rmd_shift (rmd_right x)) s.2 (js ≫= λ j, seq j 5)).
Proof.
  revert s. induction js as [|j js IH]; intros s; [by destruct s|]. cbn [foldl mbind list_bind].
  by rewrite IH, step5_shift, !foldl_app.
Qed.

Lemma rmd_compress_std h block : rmd_compress h block = rmd_std h block.
Proof.
  unfold rmd_compress, rmd_std, with_r5. destruct h as [|a [|b [|c [|d [|e [|? ?]]]]]]; try done.
  rewrite rmd_steps. cbn [fst snd]. change ([0; 5; 10; 15; 20; 25; 30; 35; 40; 45; 50; 55; 60; 65; 70; 75]%nat ≫= λ j, seq j 5) with (seq 0 80).
  destruct (rmd_fold_std (block_words_le block) (seq 0 80) (mkR5 a b c d e)) as [-> ->].
  destruct (foldl _ _ _) as [al bl cl dl el]. destruct (foldl _ _ _) as [ar br cr dr er].
  assert (∀ x y z, wadd 32 (wadd 32 x y) z = wrap 32 (x + y + z)) as A3 by (intros; wrap_sum). by rewrite !A3.
Qed.

(** C31: The unrolled SHA-1, MD5, SM3 and RIPEMD-160 compressions, on rotated names and
    with rearranged boolean functions, compute the loops of their standards. *)
Theorem unrolled_kernels_standard h block : Forall (in_width 32) h → length block = 64%nat →
  sha1_compress_soft h block = sha1_fips h block
  ∧ md5_compress h block = md5_rfc h block
  ∧ sm3_compress h block = sm3_std h block
  ∧ rmd_compress h block = rmd_std h block.
Proof.
  intros Hh Hb. split_and!; [by apply sha1_compress_fips|by apply md5_compress_rfc|by apply sm3_compress_std|apply rmd_compress_std].
Qed.

(** A block of zeros from the first SHA-1 words. *)
Lemma unrolled_kernels_standard_witness : sha1_compress_soft sha1_IV (replicate 64 0) = sha1_fips sha1_IV (replicate 64 0).
Proof.
  exact (proj1 (unrolled_kernels_standard sha1_IV (replicate 64 0) ltac:(apply (bool_decide_unpack _); vm_compute; exact I) eq_refl)).
Defined.
