(* ===== verification/Hashers.v ===== *)
(** The hashers of [src/hash/]: SHA-224/256, the SHA-512 family, SHA-1, MD4, MD5, SM3 and
    RIPEMD-160, each an instance of [Digest] that meets its contract.  Their portable
    compressions are those of Sha2.v and MdFamily.v, their buffering that of MdHash.v. *)

From S2P Require Import Prelude Ct MdHash Hmac Sha2 MdFamily.

(** * Output bytes *)

Definition word_bytes (be : bool) (n : nat) (v : Z) : bytes := if be then be_bytes n v else le_bytes n v.

(** [words_to_bytes], [words_to_bytes_be] and [words_to_bytes_le]: whole words into a
    zeroed array; a last partial word is left out. *)
Definition words_to_bytes (be : bool) (wb N : nat) (h : list Z) : bytes :=
  let n := ((N / wb) `min` length h)%nat in
  concat (word_bytes be wb <$> take n h) ++ replicate (N - n * wb) 0.

(** [truncate_words]: a partial last word is kept. *)
Definition truncate_words (N : nat) (h : list Z) : bytes :=
  let full := (N / 8)%nat in
  let out := concat (be_bytes 8 <$> take full h) in
  let rem := (N mod 8)%nat in
  if (0 <? rem)%nat then out ++ take rem (be_bytes 8 (nth full h 0)) else out.

(** The [out] closures of the HMAC paths: the leading [n] bytes of the words. *)
Definition out_words (be : bool) (wb : nat) (h : list Z) (n : nat) : bytes := take n (concat (word_bytes be wb <$> h)).

(** * The variants *)

(** One hash type: its buffering, initial words, output length, bytes per word, output
    serialization, which fast paths it overrides, and the tag of its exported states. *)
Record Variant := mkVariant {
  v_fr : Framing; v_iv : list Z; v_out : nat; v_word : nat;
  v_bytes : list Z → bytes; v_short : bool; v_iterate : bool; v_tag : Z }.

(** A longest message behind the pad block: 55 or 111 bytes. *)
Definition max_short (p : Variant) : nat := (fr_block (v_fr p) - len_bytes (v_fr p) - 1)%nat.

(** A type of its own for every variant. *)
Record Hasher (p : Variant) := mkHasher { hs_state : BlockState }.
Arguments mkHasher {_} _.
Arguments hs_state {_} _.

(** The [Digest] implementations: they hand over to the streaming state. *)
#[export] Instance hasher_digest (p : Variant) : Digest (Hasher p) := {|
  OUTPUT_LEN := v_out p;
  BLOCK_LEN := fr_block (v_fr p);
  d_new := mkHasher (bs_new (v_fr p) (v_iv p));
  d_update self data := mkHasher (bs_update (v_fr p) (hs_state self) data);
  d_finalize self := v_bytes p (bs_finalize (v_fr p) (hs_state self));
  d_hmac_iterate inner outer u acc rounds :=
    if v_iterate p then bs_hmac_iterate (v_fr p) (out_words (fr_be (v_fr p)) (v_word p)) (hs_state inner) (hs_state outer) (v_out p) u acc rounds
    else None;
  d_hmac_short inner outer parts :=
    if v_short p then bs_hmac_short (v_fr p) (out_words (fr_be (v_fr p)) (v_word p)) (max_short p) (hs_state inner) (hs_state outer) (v_out p) parts
    else None |}.

(** The framing of [MdState] and [State256], and of [State512]. *)
Definition md_framing (be : bool) (compress : list Z → bytes → list Z) : Framing :=
  mkFraming 64 64 be compress (λ h data, foldl compress h (chunks_exact 64 data)).
Definition fr256 : Framing := mkFraming 64 64 true compress256_soft compress256_blocks.
Definition fr512 : Framing := mkFraming 128 128 true compress512 compress512_soft_blocks.
Definition fr_sha1 : Framing := mkFraming 64 64 true sha1_compress_soft sha1_compress_blocks.

(** Algorithm tags. *)
Definition TAG_MD4 : Z := 2.
Definition TAG_MD5 : Z := 3.
Definition TAG_SHA1 : Z := 4.
Definition TAG_SHA224 : Z := 5.
Definition TAG_SHA256 : Z := 6.
Definition TAG_SHA384 : Z := 7.
Definition TAG_SHA512 : Z := 8.
Definition TAG_SHA512_224 : Z := 9.
Definition TAG_SHA512_256 : Z := 10.
Definition TAG_RIPEMD160 : Z := 11.
Definition TAG_SM3 : Z := 12.

Definition vSha256 : Variant := mkVariant fr256 H256 32 4 (words_to_bytes true 4 32) true true TAG_SHA256.
Definition vSha224 : Variant := mkVariant fr256 H224 28 4 (words_to_bytes true 4 28) true true TAG_SHA224.
Definition sha512_variant (iv : list Z) (out : nat) (tag : Z) : Variant := mkVariant fr512 iv out 8 (truncate_words out) true true tag.
Definition vSha512 : Variant := sha512_variant H512 64 TAG_SHA512.
Definition vSha384 : Variant := sha512_variant H384 48 TAG_SHA384.
Definition vSha512_256 : Variant := sha512_variant H512_256 32 TAG_SHA512_256.
Definition vSha512_224 : Variant := sha512_variant H512_224 28 TAG_SHA512_224.
Definition vSha1 : Variant := mkVariant fr_sha1 sha1_IV 20 4 (words_to_bytes true 4 20) true true TAG_SHA1.
Definition vMd5 : Variant := mkVariant (md_framing false md5_compress) md5_IV 16 4 (words_to_bytes false 4 16) true false TAG_MD5.
Definition vMd4 : Variant := mkVariant (md_framing false md4_compress) md4_IV 16 4 (words_to_bytes false 4 16) false false TAG_MD4.
Definition vSm3 : Variant := mkVariant (md_framing true sm3_compress) sm3_IV 32 4 (words_to_bytes true 4 32) true false TAG_SM3.
Definition vRipemd160 : Variant := mkVariant (md_framing false rmd_compress) rmd_IV 20 4 (words_to_bytes false 4 20) true false TAG_RIPEMD160.

Abbreviation Sha256 := (Hasher vSha256).
Abbreviation Sha224 := (Hasher vSha224).
Abbreviation Sha512 := (Hasher vSha512).
Abbreviation Sha384 := (Hasher vSha384).
Abbreviation Sha1 := (Hasher vSha1).
Abbreviation Md5 := (Hasher vMd5).

(** * Every variant meets the contract *)

Lemma length_word_bytes be n v : length (word_bytes be n v) = n.
Proof. unfold word_bytes, le_bytes. destruct be; rewrite ?length_rev; apply length_be_bytes. Qed.

Lemma word_bytes_ok be n v : bytes_ok (word_bytes be n v).
Proof. unfold word_bytes, le_bytes. destruct be; [|apply Forall_rev]; apply be_bytes_ok. Qed.

Lemma length_words be wb h : length (concat (word_bytes be wb <$> h)) = (length h * wb)%nat.
Proof. induction h as [|x h IH]; [done|]. cbn [fmap list_fmap concat]. rewrite length_app, length_word_bytes. cbn [length]. rewrite IH. lia. Qed.

Lemma out_words_ok be wb h n : bytes_ok (out_words be wb h n).
Proof.
  unfold out_words. apply Forall_take. induction h as [|x h IH]; [constructor|]. cbn [fmap list_fmap concat].
  apply Forall_app. split; [apply word_bytes_ok|exact IH].
Qed.

(** The leading words of a prefix. *)
Lemma take_words be wb n h : (n ≤ length h)%nat → take (n * wb) (concat (word_bytes be wb <$> h)) = concat (word_bytes be wb <$> take n h).
Proof.
  revert h. induction n as [|n IH]; intros h Hn; [done|]. destruct h as [|x h]; [cbn in Hn; lia|]. cbn [fmap list_fmap concat take length] in *.
  change (S n * wb)%nat with (wb + n * wb)%nat. rewrite take_app_add' by (symmetry; apply length_word_bytes). by rewrite IH by lia.
Qed.

Lemma words_to_bytes_out be wb N k h : (0 < wb)%nat → N = (k * wb)%nat → (k ≤ length h)%nat → words_to_bytes be wb N h = out_words be wb h N.
Proof.
  intros Hwb -> Hk. unfold words_to_bytes, out_words. rewrite Nat.div_mul by lia. rewrite Nat.min_l by done.
  rewrite Nat.sub_diag, app_nil_r. symmetry. by apply take_words.
Qed.

Lemma truncate_words_out N h : (N ≤ length h * 8)%nat → truncate_words N h = out_words true 8 h N.
Proof.
  intros HN. unfold truncate_words, out_words. pose proof (Nat.div_mod_eq N 8) as Hd. pose proof (Nat.mod_upper_bound N 8 ltac:(lia)) as Hm.
  set (full := (N / 8)%nat) in *. set (rem := (N mod 8)%nat) in *. change (be_bytes 8 <$> take full h) with (word_bytes true 8 <$> take full h).
  destruct (Nat.ltb_spec 0 rem) as [Hr|Hr].
  - destruct (lookup_lt_is_Some_2 h full) as [x Hx]; [lia|].
    assert (h = take full h ++ x :: drop (S full) h) as Hsplit by (rewrite <- (drop_S _ _ _ Hx); by rewrite take_drop).
    rewrite nth_lookup, Hx. cbn [default]. rewrite Hsplit at 2. rewrite fmap_app, concat_app. cbn [fmap list_fmap concat].
    replace N with (length (concat (word_bytes true 8 <$> take full h)) + rem)%nat
      by (rewrite length_words, length_take; lia).
    rewrite take_app_add. f_equal. cbn [word_bytes id]. rewrite take_app_le by (rewrite length_be_bytes; lia). done.
  - rewrite <- take_words by lia. f_equal. lia.
Qed.

(** What a variant must satisfy. *)
Class VariantOk (p : Variant) : Prop := {
  vo_framing : framing_ok (v_fr p);
  vo_word : (0 < v_word p)%nat;
  vo_block : (fr_block (v_fr p) ≤ 256)%nat;
  vo_pos : (0 < v_out p)%nat;
  vo_room : (v_out p + 1 ≤ fr_block (v_fr p) - len_bytes (v_fr p))%nat;
  vo_len : (v_out p ≤ length (v_iv p) * v_word p)%nat;
  vo_out h : length h = length (v_iv p) → v_bytes p h = out_words (fr_be (v_fr p)) (v_word p) h (v_out p);
  vo_iv : Forall (in_width (8 * Z.of_nat (v_word p))) (v_iv p);
  vo_width h b : Forall (in_width (8 * Z.of_nat (v_word p))) h → Forall (in_width (8 * Z.of_nat (v_word p))) (fr_compress (v_fr p) h b) }.

Section variant.
Context (p : Variant) `{Hp : !VariantOk p}.
Local Abbreviation out := (out_words (fr_be (v_fr p)) (v_word p)).

Lemma out_words_len h : length h = length (v_iv p) → length (out h (v_out p)) = v_out p.
Proof using Hp. intros Hh. pose proof vo_len. unfold out_words. rewrite length_take, length_words, Hh. lia. Qed.

#[export] Program Instance hasher_spec : DigestSpec (Hasher p) := {|
  hash_of m := md_digest (v_fr p) (v_iv p) out (v_out p) m;
  absorbed self m := bs_rep (v_fr p) (v_iv p) (hs_state self) m |}.
Next Obligation. intros m. apply md_digest_len; [apply vo_framing|apply out_words_len]. Qed.
Next Obligation. cbn. pose proof vo_room. lia. Qed.
Next Obligation. apply vo_pos. Qed.
Next Obligation. intros m. apply out_words_ok. Qed.
Next Obligation. apply bs_new_rep, vo_framing. Qed.
Next Obligation. intros self m data. apply bs_update_rep, vo_framing. Qed.
Next Obligation.
  intros self m Hr. cbn. rewrite (bs_finalize_rep _ vo_framing (v_iv p) _ _ Hr). apply vo_out, md_words, vo_framing.
Qed.
Next Obligation.
  intros inner outer mi mo parts tag Hi Ho. cbn. destruct (v_short p); [|done]. pose proof vo_room.
  intros He. exact (bs_hmac_short_sound (v_fr p) vo_framing (v_iv p) out (v_out p) out_words_len (max_short p) _ _ mi mo parts tag
    ltac:(unfold max_short; lia) Hi Ho He).
Qed.
Next Obligation.
  intros inner outer mi mo u acc rounds r Hu Hi Ho. cbn. destruct (v_iterate p); [|done].
  intros He. exact (bs_hmac_iterate_sound (v_fr p) vo_framing (v_iv p) out (v_out p) out_words_len _ _ mi mo u acc rounds r
    vo_room Hu Hi Ho He).
Qed.
End variant.

(** ** The compressions keep the number and the width of the words *)

Lemma with_regs_words (k : Regs → list Z) h : (∀ r, length (k r) = 8%nat) → length (with_regs h k) = length h.
Proof. intros Hk. destruct h as [|? [|? [|? [|? [|? [|? [|? [|? [|? ?]]]]]]]]]; cbn [with_regs]; try done; apply Hk. Qed.

Lemma with_regs_width w (k : Regs → list Z) h :
  (∀ r, Forall (in_width w) (regs_list r) → Forall (in_width w) (k r)) → Forall (in_width w) h → Forall (in_width w) (with_regs h k).
Proof. intros Hk Hh. destruct h as [|? [|? [|? [|? [|? [|? [|? [|? [|? ?]]]]]]]]]; cbn [with_regs]; try done; by apply Hk. Qed.

Lemma with_r5_words (k : R5 → list Z) h : (∀ r, length h = 5%nat → length (k r) = 5%nat) → length (with_r5 h k) = length h.
Proof. intros Hk. destruct h as [|? [|? [|? [|? [|? [|? ?]]]]]]; cbn [with_r5]; try done; by apply Hk. Qed.

Lemma with_r5_width w (k : R5 → list Z) h : (∀ r, Forall (in_width w) (k r)) → Forall (in_width w) h → Forall (in_width w) (with_r5 h k).
Proof. intros Hk Hh. destruct h as [|? [|? [|? [|? [|? [|? ?]]]]]]; cbn [with_r5]; done. Qed.

Lemma with_r4_words (k : R4 → list Z) h : (∀ r, length h = 4%nat → length (k r) = 4%nat) → length (with_r4 h k) = length h.
Proof. intros Hk. destruct h as [|? [|? [|? [|? [|? ?]]]]]; cbn [with_r4]; try done; by apply Hk. Qed.

Lemma with_r4_width w (k : R4 → list Z) h : (∀ r, Forall (in_width w) (k r)) → Forall (in_width w) h → Forall (in_width w) (with_r4 h k).
Proof. intros Hk Hh. destruct h as [|? [|? [|? [|? [|? ?]]]]]; cbn [with_r4]; done. Qed.

Lemma wadd_words w (l k : list Z) : 0 ≤ w → Forall (in_width w) (zip_with (wadd w) l k).
Proof. intros Hw. revert k. induction l as [|x l IH]; intros [|y k]; cbn; constructor; [by apply wrap_range|apply IH]. Qed.

Lemma compress256_shape h b : length (compress256_soft h b) = length h
  ∧ (Forall (in_width 32) h → Forall (in_width 32) (compress256_soft h b)).
Proof.
  unfold compress256_soft. destruct h as [|? [|? [|? [|? [|? [|? [|? [|? [|? ?]]]]]]]]]; cbn [with_regs]; try done.
  destruct (foldl _ _ _) as [a' b' c' d' e' f' g' h']. cbn. split; [done|]. intros _. repeat constructor; apply wrap_range; lia.
Qed.

Lemma compress512_shape h b : length (compress512 h b) = length h ∧ (Forall (in_width 64) h → Forall (in_width 64) (compress512 h b)).
Proof.
  unfold compress512, compress512_soft_blocks. split; [by apply with_regs_words|]. apply with_regs_width. intros r Hr. revert r Hr.
  induction (chunks_exact 128 b) as [|x l IH]; intros r Hr; [done|]. cbn [foldl]. apply IH. unfold block512.
  destruct r. destruct (foldl _ _ _) as [[a' b' c' d' e' f' g' h'] w]. repeat constructor; apply wrap_range; lia.
Qed.

Lemma sha1_shape h b : length (sha1_compress_soft h b) = length h ∧ (Forall (in_width 32) h → Forall (in_width 32) (sha1_compress_soft h b)).
Proof.
  unfold sha1_compress_soft. split; [apply with_r5_words|apply with_r5_width]; unfold add5; intros r.
  - intros Hl. rewrite length_zip_with, Hl. done.
  - apply wadd_words. lia.
Qed.

Lemma md5_shape h b : length (md5_compress h b) = length h ∧ (Forall (in_width 32) h → Forall (in_width 32) (md5_compress h b)).
Proof.
  unfold md5_compress. split; [apply with_r4_words|apply with_r4_width]; unfold add4; intros r.
  - intros Hl. rewrite length_zip_with, Hl. done.
  - apply wadd_words. lia.
Qed.

Lemma md4_shape h b : length (md4_compress h b) = length h ∧ (Forall (in_width 32) h → Forall (in_width 32) (md4_compress h b)).
Proof.
  unfold md4_compress. split; [apply with_r4_words|apply with_r4_width]; unfold add4; intros r.
  - intros Hl. rewrite length_zip_with, Hl. done.
  - apply wadd_words. lia.
Qed.

Lemma rmd_shape h b : length (rmd_compress h b) = length h ∧ (Forall (in_width 32) h → Forall (in_width 32) (rmd_compress h b)).
Proof.
  unfold rmd_compress. split; [apply with_r5_words|apply with_r5_width]; intros r; destruct (foldl _ _ _) as [[] []], r; [done|].
  repeat constructor; apply wrap_range; lia.
Qed.

(** SM3 mixes its registers in by XOR: they stay 32-bit words too. *)
Lemma sm3_round_width w ff gg t J a b c d e f g h : in_width 32 b → in_width 32 f →
  let '(d', b', h', f') := sm3_round w ff gg t J a b c d e f g h in in_width 32 d' ∧ in_width 32 b' ∧ in_width 32 h' ∧ in_width 32 f'.
Proof.
  intros Hb Hf. unfold sm3_round. split_and!; [apply wrap_range; lia|apply rotl_width; [lia|done]| |apply rotl_width; [lia|done]].
  unfold p0. assert (∀ x, in_width 32 (wrap 32 x)) as Hx by (intros; apply wrap_range; lia).
  repeat (apply lxor_in_width; [lia| |]); try apply rotl_width; try lia; apply Hx.
Qed.

Lemma sm3_r4_width w ff gg t j r : Forall (in_width 32) (regs_list r) → Forall (in_width 32) (regs_list (sm3_r4 w ff gg t j r)).
Proof.
  rewrite sm3_r4_shift. generalize (seq j 4). intros l. revert r. induction l as [|i l IH]; intros r Hr; [done|]. cbn [foldl]. apply IH.
  destruct r as [a b c d e f g h]. unfold sm3_shift. unfold regs_list in Hr. cbn [ra rb rc rd re rf rg rh] in Hr.
  repeat match goal with H : Forall _ (_ :: _) |- _ => apply Forall_cons in H as [? H] end.
  pose proof (sm3_round_width w ff gg t i a b c d e f g h ltac:(done) ltac:(done)) as Hw.
  destruct (sm3_round _ _ _ _ _ _ _ _ _ _ _ _ _) as [[[d' b'] h'] f']. destruct Hw as (? & ? & ? & ?). unfold regs_list. cbn [ra rb rc rd re rf rg rh]. by repeat (apply Forall_cons; split; [done|]).
Qed.

Lemma sm3_shape h b : length (sm3_compress h b) = length h ∧ (Forall (in_width 32) h → Forall (in_width 32) (sm3_compress h b)).
Proof.
  unfold sm3_compress. split; [|intros Hh].
  - destruct h as [|? [|? [|? [|? [|? [|? [|? [|? [|? ?]]]]]]]]]; cbn [with_regs]; try done.
  - apply with_regs_width; [|done]. intros r Hr.
    assert (∀ w ff gg t js r, Forall (in_width 32) (regs_list r) →
      Forall (in_width 32) (regs_list (foldl (λ r j, sm3_r4 w ff gg t j r) r js))) as Hf.
    { intros w ff gg t js. induction js as [|j js IH]; intros r' Hr'; [done|]. cbn [foldl]. by apply IH, sm3_r4_width. }
    apply (Forall_zip_with_fst _ (in_width 32)); [done|]. eapply Forall_impl; [apply Hf, Hf, Hr|]. intros y Hy x Hx. apply lxor_in_width; [lia|exact Hx|exact Hy].
Qed.

(** ** The instances *)

Lemma framing64 be compress blocks : (∀ h b, length (compress h b) = length h) →
  (∀ h data, blocks h data = foldl compress h (chunks_exact 64 data)) → framing_ok (mkFraming 64 64 be compress blocks).
Proof. intros Hc Hb. split; cbn; [by exists 6|done|apply (Nat.ltb_lt 8 64); reflexivity|done|done|]. intros h data k _. apply Hb. Qed.

Lemma fr512_ok : framing_ok fr512.
Proof.
  split; cbn [fr512 fr_block fr_counter fr_compress fr_compress_blocks]; [by exists 7|done|apply (Nat.ltb_lt 16 128); reflexivity|done|intros; apply compress512_shape|].
  intros h data k Hd. by apply (compress512_bulk h data k).
Qed.

(** Initial words in width, by evaluation. *)
Ltac words_ok := apply (bool_decide_unpack _); vm_compute; exact I.

Lemma variant32 fr iv out k bytes s i tag : framing_ok fr → fr_block fr = 64%nat → fr_counter fr = 64 → (k ≤ length iv)%nat → out = (k * 4)%nat → (0 < out ≤ 32)%nat →
  bytes = words_to_bytes (fr_be fr) 4 out → Forall (in_width 32) iv →
  (∀ h b, Forall (in_width 32) h → Forall (in_width 32) (fr_compress fr h b)) → VariantOk (mkVariant fr iv out 4 bytes s i tag).
Proof.
  intros Hf Hb Hc Hk Ho H32 -> Hiv Hw. assert (len_bytes fr = 8%nat) as Hl by (unfold len_bytes; by rewrite Hc).
  split; cbn [v_fr v_iv v_out v_word v_bytes]; try done; try lia. intros h Hh. apply (words_to_bytes_out _ _ _ k); lia.
Qed.

Lemma variant64 iv out tag : length iv = 8%nat → (0 < out ≤ 64)%nat → Forall (in_width 64) iv → VariantOk (sha512_variant iv out tag).
Proof.
  intros Hl Ho Hiv. assert (len_bytes fr512 = 16%nat) as Hb by done.
  split; cbn [sha512_variant v_fr v_iv v_out v_word v_bytes]; [apply fr512_ok|lia|cbn; lia|lia|rewrite Hb; cbn; lia|lia| |exact Hiv|].
  - intros h Hh. apply truncate_words_out. lia.
  - intros h b. apply compress512_shape.
Qed.

Ltac by_variant32 k shape := apply (variant32 _ _ _ k);
  [apply framing64; [intros; apply shape|done]|done|done|cbn; lia|done|lia|done|words_ok|intros; by apply shape].

#[export] Instance sha256_ok : VariantOk vSha256.
Proof. by_variant32 8%nat compress256_shape. Qed.
#[export] Instance sha224_ok : VariantOk vSha224.
Proof. by_variant32 7%nat compress256_shape. Qed.
#[export] Instance sha512_ok : VariantOk vSha512.
Proof. apply variant64; [done|lia|words_ok]. Qed.
#[export] Instance sha384_ok : VariantOk vSha384.
Proof. apply variant64; [done|lia|words_ok]. Qed.
#[export] Instance sha512_256_ok : VariantOk vSha512_256.
Proof. apply variant64; [done|lia|words_ok]. Qed.
#[export] Instance sha512_224_ok : VariantOk vSha512_224.
Proof. apply variant64; [done|lia|words_ok]. Qed.
#[export] Instance sha1_ok : VariantOk vSha1.
Proof. by_variant32 5%nat sha1_shape. Qed.
#[export] Instance md5_ok : VariantOk vMd5.
Proof. by_variant32 4%nat md5_shape. Qed.
#[export] Instance md4_ok : VariantOk vMd4.
Proof. by_variant32 4%nat md4_shape. Qed.
#[export] Instance sm3_ok : VariantOk vSm3.
Proof. by_variant32 8%nat sm3_shape. Qed.
#[export] Instance ripemd160_ok : VariantOk vRipemd160.
Proof. by_variant32 5%nat rmd_shape. Qed.

(** * SHA-2 digests are those of FIPS 180-4 *)

(** Section 5.1: a one bit, the least number of zeros that fills the last block, the
    length in bits. *)
Definition fips_pad (B L : nat) (n : Z) : bytes :=
  0x80 :: replicate (Z.to_nat ((- (n + 1 + Z.of_nat L)) mod Z.of_nat B)) 0 ++ be_bytes L (8 * n).

(** Section 6: the words after the padded message. *)
Definition fips_hash (p : Sha2) (B L : nat) (H : list Z) (m : bytes) : list Z :=
  foldl (fips_compress p) H (chunks_exact B (m ++ fips_pad B L (zlen m))).

Lemma be_bytes_wrap n v : be_bytes n (wrap (8 * Z.of_nat n) v) = be_bytes n v.
Proof.
  unfold wrap. rewrite (Z.div_mod v (2 ^ (8 * Z.of_nat n))) at 2 by lia.
  rewrite (Z.mul_comm (2 ^ _)). symmetry. by apply be_bytes_add_high.
Qed.

Lemma md_pad_fips fr n : framing_ok fr → fr_be fr = true → md_pad fr n = fips_pad (fr_block fr) (len_bytes fr) n.
Proof.
  intros Hf Hb. unfold md_pad, fips_pad, len_field. rewrite Hb. do 2 f_equal. rewrite (proj2 (fo_counter _ Hf)). apply be_bytes_wrap.
Qed.

(** Padded messages are whole blocks. *)
Lemma fips_pad_blocks B L m : (0 < B)%nat → ∃ k, length (m ++ fips_pad B L (zlen m)) = (k * B)%nat.
Proof.
  intros HB. unfold fips_pad, zlen. rewrite length_app. cbn [length]. rewrite length_app, length_replicate, length_be_bytes.
  set (z := (- (Z.of_nat (length m) + 1 + Z.of_nat L)) mod Z.of_nat B).
  pose proof (Z.mod_pos_bound (- (Z.of_nat (length m) + 1 + Z.of_nat L)) (Z.of_nat B) ltac:(lia)) as Hz. fold z in Hz.
  pose proof (Z.div_mod (- (Z.of_nat (length m) + 1 + Z.of_nat L)) (Z.of_nat B) ltac:(lia)) as Hd. fold z in Hd.
  set (q := (- (Z.of_nat (length m) + 1 + Z.of_nat L)) / Z.of_nat B) in Hd.
  exists (Z.to_nat (- q)). apply Nat2Z.inj. rewrite Nat2Z.inj_mul, Z2Nat.id by nia. nia.
Qed.

Lemma md_hash_fips fr p iv m : framing_ok fr → fr_be fr = true →
  (∀ h b, length b = fr_block fr → fr_compress fr h b = fips_compress p h b) →
  md_hash fr iv m = fips_hash p (fr_block fr) (len_bytes fr) iv m.
Proof.
  intros Hf Hb Hc. unfold md_hash, fips_hash. rewrite md_pad_fips by done.
  destruct (fips_pad_blocks (fr_block fr) (len_bytes fr) m (block_pos fr Hf)) as [k Hk].
  pose proof (chunks_exact_lengths _ k _ (block_pos fr Hf) Hk) as Hl. revert iv.
  induction Hl as [|x l Hx Hl IH]; intros iv; [done|]. cbn [foldl]. by rewrite Hc.
Qed.

(** The bytes a hasher returns for a message absorbed in pieces. *)
Lemma hasher_stream p `{!VariantOk p} pieces :
  d_finalize (foldl d_update (d_new : Hasher p) pieces)
  = out_words (fr_be (v_fr p)) (v_word p) (md_hash (v_fr p) (v_iv p) (concat pieces)) (v_out p).
Proof.
  change (d_finalize (foldl d_update (d_new : Hasher p) pieces) = hash_of (concat pieces)).
  apply (ds_finalize (D := Hasher p)). rewrite <- (app_nil_l (concat pieces)).
  generalize (ds_new (D := Hasher p)). generalize (d_new : Hasher p) as self, (@nil Z) as m.
  induction pieces as [|x pieces IH]; intros self m Hm; cbn [foldl concat]; [by rewrite app_nil_r|].
  rewrite app_assoc. apply IH, ds_update, Hm.
Qed.

(** C30: However the message is cut into pieces, the SHA-2 hashers return the digest of
    FIPS 180-4: the padded message through the standard's compression function, the words
    serialized and truncated. *)
Theorem sha2_digests_fips pieces :
  let m := concat pieces in
  let words256 iv := concat (be_bytes 4 <$> fips_hash fips256 64 8 iv m) in
  let words512 iv := concat (be_bytes 8 <$> fips_hash fips512 128 16 iv m) in
  d_finalize (foldl d_update (d_new : Sha256) pieces) = take 32 (words256 H256)
  ∧ d_finalize (foldl d_update (d_new : Sha224) pieces) = take 28 (words256 H224)
  ∧ d_finalize (foldl d_update (d_new : Sha512) pieces) = take 64 (words512 H512)
  ∧ d_finalize (foldl d_update (d_new : Sha384) pieces) = take 48 (words512 H384)
  ∧ d_finalize (foldl d_update (d_new : Hasher vSha512_256) pieces) = take 32 (words512 H512_256)
  ∧ d_finalize (foldl d_update (d_new : Hasher vSha512_224) pieces) = take 28 (words512 H512_224).
Proof.
  intros m words256 words512.
  assert (∀ iv, md_hash fr256 iv m = fips_hash fips256 64 8 iv m) as E256
    by (intros; apply (md_hash_fips fr256 fips256); [apply (vo_framing (p := vSha256))|done|apply compress256_fips]).
  assert (∀ iv, md_hash fr512 iv m = fips_hash fips512 128 16 iv m) as E512
    by (intros; apply (md_hash_fips fr512 fips512); [apply fr512_ok|done|apply compress512_fips]).
  split_and!; [rewrite (hasher_stream vSha256)|rewrite (hasher_stream vSha224)|rewrite (hasher_stream vSha512)|rewrite (hasher_stream vSha384)
    |rewrite (hasher_stream vSha512_256)|rewrite (hasher_stream vSha512_224)]; unfold words256, words512;
    rewrite <- ?E256, <- ?E512; reflexivity.
Qed.

(** * Known answers *)

Definition abc : bytes := [0x61; 0x62; 0x63].

(** The digests of "abc" from the standards. *)
Example digest_vectors :
  d_digest Sha256 abc =
    [0xba; 0x78; 0x16; 0xbf; 0x8f; 0x01; 0xcf; 0xea; 0x41; 0x41; 0x40; 0xde; 0x5d; 0xae; 0x22; 0x23; 0xb0; 0x03; 0x61;
     0xa3; 0x96; 0x17; 0x7a; 0x9c; 0xb4; 0x10; 0xff; 0x61; 0xf2; 0x00; 0x15; 0xad]
  ∧ d_digest Sha224 abc =
    [0x23; 0x09; 0x7d; 0x22; 0x34; 0x05; 0xd8; 0x22; 0x86; 0x42; 0xa4; 0x77; 0xbd; 0xa2; 0x55; 0xb3; 0x2a; 0xad; 0xbc;
     0xe4; 0xbd; 0xa0; 0xb3; 0xf7; 0xe3; 0x6c; 0x9d; 0xa7]
  ∧ d_digest Sha512 abc =
    [0xdd; 0xaf; 0x35; 0xa1; 0x93; 0x61; 0x7a; 0xba; 0xcc; 0x41; 0x73; 0x49; 0xae; 0x20; 0x41; 0x31; 0x12; 0xe6; 0xfa;
     0x4e; 0x89; 0xa9; 0x7e; 0xa2; 0x0a; 0x9e; 0xee; 0xe6; 0x4b; 0x55; 0xd3; 0x9a; 0x21; 0x92; 0x99; 0x2a; 0x27; 0x4f;
     0xc1; 0xa8; 0x36; 0xba; 0x3c; 0x23; 0xa3; 0xfe; 0xeb; 0xbd; 0x45; 0x4d; 0x44; 0x23; 0x64; 0x3c; 0xe8; 0x0e; 0x2a;
     0x9a; 0xc9; 0x4f; 0xa5; 0x4c; 0xa4; 0x9f]
  ∧ d_digest Sha384 abc =
    [0xcb; 0x00; 0x75; 0x3f; 0x45; 0xa3; 0x5e; 0x8b; 0xb5; 0xa0; 0x3d; 0x69; 0x9a; 0xc6; 0x50; 0x07; 0x27; 0x2c; 0x32;
     0xab; 0x0e; 0xde; 0xd1; 0x63; 0x1a; 0x8b; 0x60; 0x5a; 0x43; 0xff; 0x5b; 0xed; 0x80; 0x86; 0x07; 0x2b; 0xa1; 0xe7;
     0xcc; 0x23; 0x58; 0xba; 0xec; 0xa1; 0x34; 0xc8; 0x25; 0xa7]
  ∧ d_digest Sha1 abc =
    [0xa9; 0x99; 0x3e; 0x36; 0x47; 0x06; 0x81; 0x6a; 0xba; 0x3e; 0x25; 0x71; 0x78; 0x50; 0xc2; 0x6c; 0x9c; 0xd0; 0xd8;
     0x9d]
  ∧ d_digest Md5 abc =
    [0x90; 0x01; 0x50; 0x98; 0x3c; 0xd2; 0x4f; 0xb0; 0xd6; 0x96; 0x3f; 0x7d; 0x28; 0xe1; 0x7f; 0x72]
  ∧ d_digest (Hasher vSha512_256) abc =
    [0x53; 0x04; 0x8e; 0x26; 0x81; 0x94; 0x1e; 0xf9; 0x9b; 0x2e; 0x29; 0xb7; 0x6b; 0x4c; 0x7d; 0xab; 0xe4; 0xc2; 0xd0;
     0xc6; 0x34; 0xfc; 0x6d; 0x46; 0xe0; 0xe2; 0xf1; 0x31; 0x07; 0xe7; 0xaf; 0x23]
  ∧ d_digest (Hasher vSha512_224) abc =
    [0x46; 0x34; 0x27; 0x0f; 0x70; 0x7b; 0x6a; 0x54; 0xda; 0xae; 0x75; 0x30; 0x46; 0x08; 0x42; 0xe2; 0x0e; 0x37; 0xed;
     0x26; 0x5c; 0xee; 0xe9; 0xa4; 0x3e; 0x89; 0x24; 0xaa]
  ∧ d_digest (Hasher vMd4) abc =
    [0xa4; 0x48; 0x01; 0x7a; 0xaf; 0x21; 0xd8; 0x52; 0x5f; 0xc1; 0x0a; 0xe8; 0x7a; 0xa6; 0x72; 0x9d]
  ∧ d_digest (Hasher vSm3) abc =
    [0x66; 0xc7; 0xf0; 0xf4; 0x62; 0xee; 0xed; 0xd9; 0xd1; 0xf2; 0xd4; 0x6b; 0xdc; 0x10; 0xe4; 0xe2; 0x41; 0x67; 0xc4;
     0x87; 0x5c; 0xf2; 0xf7; 0xa2; 0x29; 0x7d; 0xa0; 0x2b; 0x8f; 0x4b; 0xa8; 0xe0]
  ∧ d_digest (Hasher vRipemd160) abc =
    [0x8e; 0xb2; 0x08; 0xf7; 0xe0; 0x5d; 0x98; 0x7a; 0x9b; 0x04; 0x4a; 0x8e; 0x98; 0xc6; 0xb0; 0x87; 0xf1; 0x5a; 0x0b;
     0xfc].
Proof. split_and!; vm_compute; reflexivity. Qed.

(** RFC 4231, test case 2. *)
Definition jefe : bytes := [0x4a; 0x65; 0x66; 0x65].
Definition what_do_ya_want : bytes :=
    [0x77; 0x68; 0x61; 0x74; 0x20; 0x64; 0x6f; 0x20; 0x79; 0x61; 0x20; 0x77; 0x61; 0x6e; 0x74; 0x20; 0x66; 0x6f; 0x72;
     0x20; 0x6e; 0x6f; 0x74; 0x68; 0x69; 0x6e; 0x67; 0x3f].

Lemma hmac_correct_witness :
  hmac_finalize (foldl hmac_update (hmac_new (D := Sha256) jefe) [what_do_ya_want]) = hmac_of (D := Sha256) jefe (concat [what_do_ya_want])
  ∧ hmac_finalize (foldl hmac_update (hmac_new (D := Sha256) jefe) [what_do_ya_want]) =
    [0x5b; 0xdc; 0xc1; 0x46; 0xbf; 0x60; 0x75; 0x4e; 0x6a; 0x04; 0x24; 0x26; 0x08; 0x95; 0x75; 0xc7; 0x5a; 0x00; 0x3f;
     0x08; 0x9d; 0x27; 0x39; 0x83; 0x9d; 0xec; 0x58; 0xb9; 0x64; 0xec; 0x38; 0x43].
Proof.
  split; [exact (proj1 (hmac_correct (D := Sha256) jefe [what_do_ya_want] [] 0 []))|vm_compute; reflexivity].
Defined.
