(* ===== verification/HashState.v ===== *)
(** Exported hasher states: the codec of [src/hash/state.rs] and the [export_into] and
    [import_from] of the streaming states ([src/hash/block.rs], [sha256.rs], [sha512.rs]).
    Export followed by import resumes the hash, and a byte string is accepted exactly when
    it is the one encoding of a state. *)

From S2P Require Import Prelude Ct MdHash Hmac Sha2 MdFamily Hashers.

Definition STATE_FORMAT_VERSION : Z := 1.

Inductive StateError := InvalidLength | UnsupportedVersion | WrongAlgorithm | StateInconsistent | StateUnsupported.

Definition le_value (b : bytes) : Z := be_value (rev b).

(** * The writer *)

Record StateWriter := mkWriter { sw_buf : bytes; sw_pos : nat }.

Definition sw_new (buf : bytes) (tag : Z) : StateWriter := mkWriter (<[1%nat := tag]> (<[0%nat := STATE_FORMAT_VERSION]> buf)) 2.
Definition sw_bytes (w : StateWriter) (b : bytes) : StateWriter := mkWriter (splice (sw_buf w) (sw_pos w) b) (sw_pos w + length b).
Definition sw_u8 (w : StateWriter) (v : Z) : StateWriter := sw_bytes w [v].
(** [u32], [u64] and [u128], by their number of bytes. *)
Definition sw_uint (n : nat) (w : StateWriter) (v : Z) : StateWriter := sw_bytes w (le_bytes n v).
Definition sw_uints (n : nat) (w : StateWriter) (v : list Z) : StateWriter := foldl (sw_uint n) w v.
Definition sw_buffer (w : StateWriter) (buf : bytes) (len : nat) : StateWriter :=
  let w := sw_u8 w (as_u8 (Z.of_nat len)) in
  let w := sw_bytes w (take len buf) in
  Nat.iter (length buf - len) (λ w, sw_u8 w 0) w.

(** * The reader *)

Record StateReader := mkReader { sr_buf : bytes; sr_pos : nat }.

Definition sr_new (buf : bytes) (tag : Z) (len : nat) : result StateError StateReader :=
  if negb (length buf =? len)%nat then Err InvalidLength
  else if negb (nth 0 buf 0 =? STATE_FORMAT_VERSION) then Err UnsupportedVersion
  else if negb (nth 1 buf 0 =? tag) then Err WrongAlgorithm
  else Ok (mkReader buf 2).

Definition sr_array (n : nat) (r : StateReader) : bytes * StateReader :=
  (take n (drop (sr_pos r) (sr_buf r)), mkReader (sr_buf r) (sr_pos r + n)).
Definition sr_uint (n : nat) (r : StateReader) : Z * StateReader := let '(a, r) := sr_array n r in (le_value a, r).
Fixpoint sr_uints (n count : nat) (r : StateReader) : list Z * StateReader :=
  match count with
  | O => ([], r)
  | S count => let '(v, r) := sr_uint n r in let '(l, r) := sr_uints n count r in (v :: l, r)
  end.

(** The live length and the raw buffer of [size] bytes, whose tail must be zero. *)
Definition sr_buffer (size max : nat) (r : StateReader) : result StateError (bytes * nat * StateReader) :=
  let '(v, r) := sr_uint 1 r in
  let len := Z.to_nat v in
  let '(raw, r) := sr_array size r in
  if (max <? len)%nat || existsb (λ b, negb (b =? 0)) (drop len raw) then Err StateInconsistent
  else Ok (raw, len, r).

(** * The states *)

Section codec.
Context (p : Variant).
Local Abbreviation B := (fr_block (v_fr p)).
Local Abbreviation L := (len_bytes (v_fr p)).
Local Abbreviation W := (length (v_iv p)).

(** [md32_state_len] and [STATE512_LEN]. *)
Definition state_len : nat := 2 + v_word p * W + L + 1 + B.

Definition export_into (self : BlockState) (w : StateWriter) : StateWriter :=
  let w := sw_uints (v_word p) w (bs_h self) in
  let w := sw_uint L w (bs_msg_len self) in
  sw_buffer w (bs_block self) (bs_block_len self).

Definition import_from (r : StateReader) : result StateError (BlockState * StateReader) :=
  let '(h, r) := sr_uints (v_word p) W r in
  let '(msg_len, r) := sr_uint L r in
  '(block, block_len, r) ← sr_buffer B (B - 1) r;
  if negb (msg_len mod Z.of_nat B =? Z.of_nat block_len) then Err StateInconsistent
  else Ok (mkBlockState h block block_len msg_len, r).

Definition export_state (self : Hasher p) : bytes :=
  sw_buf (export_into (hs_state self) (sw_new (replicate state_len 0) (v_tag p))).

Definition from_state (state : bytes) : result StateError (Hasher p) :=
  r ← sr_new state (v_tag p) state_len;
  '(s, _) ← import_from r;
  Ok (mkHasher s).

(** * What is written *)

(** The encoding of a state. *)
Definition state_bytes (s : BlockState) : bytes :=
  [STATE_FORMAT_VERSION; v_tag p] ++ concat (le_bytes (v_word p) <$> bs_h s) ++ le_bytes L (bs_msg_len s)
  ++ [Z.of_nat (bs_block_len s)] ++ take (bs_block_len s) (bs_block s) ++ replicate (B - bs_block_len s) 0.

(** The states an import can produce. *)
Record state_canonical (s : BlockState) : Prop := {
  sc_words : length (bs_h s) = W ∧ Forall (in_width (8 * Z.of_nat (v_word p))) (bs_h s);
  sc_count : in_width (fr_counter (v_fr p)) (bs_msg_len s);
  sc_block : length (bs_block s) = B ∧ (bs_block_len s < B)%nat ∧ bs_msg_len s mod Z.of_nat B = Z.of_nat (bs_block_len s);
  sc_tail : drop (bs_block_len s) (bs_block s) = replicate (B - bs_block_len s) 0;
  sc_live : bytes_ok (bs_block s) }.
End codec.

(** A writer that has written [done] of a buffer of [n] bytes. *)
Definition written (w : StateWriter) (done : bytes) (n : nat) : Prop :=
  sw_buf w = done ++ replicate (n - length done) 0 ∧ sw_pos w = length done ∧ (length done ≤ n)%nat.

Lemma sw_bytes_written w done n b : written w done n → (length done + length b ≤ n)%nat → written (sw_bytes w b) (done ++ b) n.
Proof.
  intros (Hb & Hp & Hn) Hl. unfold written, sw_bytes. cbn [sw_buf sw_pos]. rewrite Hb, Hp, length_app. split_and!; [|done|done].
  rewrite splice_head by done. rewrite drop_replicate, <- app_assoc. do 3 f_equal. lia.
Qed.

Lemma length_le_bytes n v : length (le_bytes n v) = n.
Proof. unfold le_bytes. by rewrite length_rev, length_be_bytes. Qed.

Lemma length_le_words n l : length (concat (le_bytes n <$> l)) = (n * length l)%nat.
Proof. induction l as [|x l IH]; cbn [fmap list_fmap concat length]; [lia|]. rewrite length_app, length_le_bytes, IH. lia. Qed.

Lemma sw_uints_written k w done n l : written w done n → (length done + k * length l ≤ n)%nat →
  written (sw_uints k w l) (done ++ concat (le_bytes k <$> l)) n.
Proof.
  unfold sw_uints. revert w done. induction l as [|x l IH]; intros w done Hw Hl; cbn [foldl fmap list_fmap concat length] in *; [by rewrite app_nil_r|].
  rewrite app_assoc. apply IH; [apply sw_bytes_written; [done|]|]; rewrite ?length_app, ?length_le_bytes; lia.
Qed.

Lemma sw_zeros_written w done n k : written w done n → (length done + k ≤ n)%nat →
  written (Nat.iter k (λ w, sw_u8 w 0) w) (done ++ replicate k 0) n.
Proof.
  intros Hw Hk. induction k as [|k IH]; [by rewrite app_nil_r|]. rewrite Nat.iter_succ, <- Nat.add_1_r, replicate_add, app_assoc.
  apply sw_bytes_written; [apply IH; lia|]. rewrite length_app, length_replicate. cbn. lia.
Qed.

(** * Reading back *)

Lemma le_value_le_bytes k v : in_width (8 * Z.of_nat k) v → le_value (le_bytes k v) = v.
Proof. intros Hv. unfold le_value, le_bytes. rewrite rev_involutive, be_value_be_bytes. by apply wrap_small. Qed.

Lemma le_bytes_le_value a : bytes_ok a → le_bytes (length a) (le_value a) = a.
Proof.
  intros Ha. unfold le_value, le_bytes. rewrite <- length_rev. rewrite be_bytes_be_value by (by apply Forall_rev). apply rev_involutive.
Qed.

Lemma le_value_range a : bytes_ok a → in_width (8 * Z.of_nat (length a)) (le_value a).
Proof. intros Ha. unfold le_value. rewrite <- length_rev. apply be_value_range. by apply Forall_rev. Qed.

Lemma le_bytes_ok n v : bytes_ok (le_bytes n v).
Proof. unfold le_bytes. apply Forall_rev, be_bytes_ok. Qed.

Lemma le_bytes_1 v : in_width 8 v → le_bytes 1 v = [v].
Proof.
  intros Hv. unfold le_bytes. cbn [be_bytes rev app]. change (8 * Z.of_nat 0) with 0. rewrite Z.shiftr_0_r. f_equal. by apply wrap_small.
Qed.

(** A field of [n] bytes. *)
Lemma field_slice (buf : bytes) pos n : (pos + n ≤ length buf)%nat → bytes_ok buf →
  let a := take n (drop pos buf) in length a = n ∧ bytes_ok a ∧ drop pos buf = a ++ drop (pos + n) buf.
Proof.
  intros Hl Hb a. split_and!.
  - unfold a. rewrite length_take, length_drop. lia.
  - by apply Forall_take, Forall_drop.
  - unfold a. rewrite <- drop_drop. by rewrite take_drop.
Qed.

Lemma sr_uint_spec k buf pos : (pos + k ≤ length buf)%nat → bytes_ok buf →
  ∃ v, sr_uint k (mkReader buf pos) = (v, mkReader buf (pos + k)) ∧ in_width (8 * Z.of_nat k) v
    ∧ drop pos buf = le_bytes k v ++ drop (pos + k) buf.
Proof.
  intros Hl Hb. destruct (field_slice buf pos k Hl Hb) as (Ha & Hok & Hd). cbn zeta in *. eexists. split; [reflexivity|].
  cbn [sr_buf sr_pos]. set (a := take k (drop pos buf)) in *. split; [rewrite <- Ha; by apply le_value_range|].
  rewrite <- Ha at 1. by rewrite le_bytes_le_value.
Qed.

Lemma sr_uints_spec k count : ∀ buf pos, (pos + k * count ≤ length buf)%nat → bytes_ok buf →
  ∃ l, sr_uints k count (mkReader buf pos) = (l, mkReader buf (pos + k * count)) ∧ length l = count
    ∧ Forall (in_width (8 * Z.of_nat k)) l ∧ drop pos buf = concat (le_bytes k <$> l) ++ drop (pos + k * count) buf.
Proof.
  induction count as [|count IH]; intros buf pos Hl Hb.
  - exists []. rewrite Nat.mul_0_r, Nat.add_0_r. by split_and!.
  - destruct (sr_uint_spec k buf pos) as (v & Ev & Hv & Hd); [lia|done|].
    destruct (IH buf (pos + k)%nat) as (l & El & Hll & Hw & Hd'); [lia|done|].
    exists (v :: l). cbn [sr_uints]. rewrite Ev, El. replace (pos + k * S count)%nat with (pos + k + k * count)%nat by lia. split_and!.
    + done.
    + cbn. by rewrite Hll.
    + by constructor.
    + cbn [fmap list_fmap concat]. by rewrite <- app_assoc, <- Hd', <- Hd.
Qed.

Lemma le_words_inj k l l' t t' : Forall (in_width (8 * Z.of_nat k)) l → Forall (in_width (8 * Z.of_nat k)) l' → length l = length l' →
  concat (le_bytes k <$> l) ++ t = concat (le_bytes k <$> l') ++ t' → l = l' ∧ t = t'.
Proof.
  intros Hl. revert l'. induction Hl as [|x l Hx Hl IH]; intros [|y l'] Hl' Hlen He; try done.
  inversion Hl' as [|? ? Hy Hl'']; subst. cbn [fmap list_fmap concat] in He. rewrite <- !app_assoc in He.
  apply app_inj_1 in He as [Hxy He]; [|by rewrite !length_le_bytes].
  apply (f_equal le_value) in Hxy. rewrite !le_value_le_bytes in Hxy by done. injection Hlen as Hlen.
  destruct (IH l' Hl'' Hlen He) as [-> ->]. by subst.
Qed.

Section states.
Context (p : Variant) `{Hp : !VariantOk p}.
Local Abbreviation B := (fr_block (v_fr p)).
Local Abbreviation L := (len_bytes (v_fr p)).
Local Abbreviation W := (length (v_iv p)).

(** What an input of the right length and header parses to. *)
Lemma from_state_fields b : bytes_ok b → length b = state_len p → nth 0 b 0 = STATE_FORMAT_VERSION → nth 1 b 0 = v_tag p →
  ∃ h m v raw, length h = W ∧ Forall (in_width (8 * Z.of_nat (v_word p))) h ∧ in_width (8 * Z.of_nat L) m ∧ in_width 8 v
    ∧ length raw = B ∧ bytes_ok raw
    ∧ b = [STATE_FORMAT_VERSION; v_tag p] ++ concat (le_bytes (v_word p) <$> h) ++ le_bytes L m ++ [v] ++ raw
    ∧ from_state p b = (if (B - 1 <? Z.to_nat v)%nat || existsb (λ x, negb (x =? 0)) (drop (Z.to_nat v) raw) then Err StateInconsistent
        else if negb (m mod Z.of_nat B =? Z.of_nat (Z.to_nat v)) then Err StateInconsistent
        else Ok (mkHasher (mkBlockState h raw (Z.to_nat v) m))).
Proof using Type.
  intros Hb Hl H0 H1. unfold state_len in Hl.
  destruct (sr_uints_spec (v_word p) W b 2) as (h & Eh & Hlh & Hwh & Hdh); [lia|done|]. set (p1 := (2 + v_word p * W)%nat) in *.
  destruct (sr_uint_spec L b p1) as (m & Em & Hm & Hdm); [unfold p1; lia|done|]. set (p2 := (p1 + L)%nat) in *.
  destruct (sr_uint_spec 1 b p2) as (v & Ev & Hv & Hdv); [unfold p2, p1; lia|done|]. set (p3 := (p2 + 1)%nat) in *.
  destruct (field_slice b p3 B) as (Hr & Hrok & Hdr); [unfold p3, p2, p1; lia|done|]. cbn zeta in Hr, Hrok, Hdr.
  rewrite (drop_ge b (p3 + B)), app_nil_r in Hdr by (unfold p3, p2, p1; lia).
  exists h, m, v, (take B (drop p3 b)). split_and!; try done.
  - rewrite <- Hdr, <- (le_bytes_1 v) by done. rewrite <- Hdv, <- Hdm, <- Hdh. destruct b as [|x [|y b]]; [cbn in Hl; lia..|]. cbn in H0, H1. by rewrite H0, H1.
  - unfold from_state, sr_new, state_len. rewrite (proj2 (Nat.eqb_eq _ _)) by lia. rewrite H0, H1, !Z.eqb_refl. cbn [negb mbind result_bind].
    unfold import_from. rewrite Eh, Em. unfold sr_buffer. rewrite Ev. cbn [sr_array sr_buf sr_pos].
    destruct (_ || _); [done|]. cbn [mbind result_bind]. by destruct (negb _).
Qed.

Lemma B_byte n : (n < B)%nat → as_u8 (Z.of_nat n) = Z.of_nat n ∧ in_width 8 (Z.of_nat n).
Proof using Hp. intros Hn. pose proof vo_block. assert (in_width 8 (Z.of_nat n)) by (unfold in_width; lia). split; [by apply wrap_small|done]. Qed.

Lemma export_state_spec s : length (bs_h s) = W → length (bs_block s) = B → (bs_block_len s < B)%nat →
  export_state p (mkHasher s) = state_bytes p s.
Proof using Hp.
  intros HW HB Hl. unfold export_state, export_into, sw_buffer. set (n := state_len p). cbn [hs_state].
  assert (n = 2 + v_word p * W + L + 1 + B)%nat as Hn by done.
  assert (written (sw_new (replicate n 0) (v_tag p)) [STATE_FORMAT_VERSION; v_tag p] n) as H0.
  { unfold written, sw_new. cbn [sw_buf sw_pos length]. destruct n as [|[|n]]; [lia..|]. split_and!; [|done|lia]. cbn. by rewrite Nat.sub_0_r. }
  clearbody n.
  apply (sw_uints_written (v_word p) _ _ _ (bs_h s)) in H0; [|cbn [length]; rewrite HW; lia].
  apply (sw_bytes_written _ _ _ (le_bytes L (bs_msg_len s))) in H0; [|rewrite !length_app, length_le_words, length_le_bytes, HW; cbn [length]; lia].
  apply (sw_bytes_written _ _ _ [as_u8 (Z.of_nat (bs_block_len s))]) in H0;
    [|rewrite !length_app, length_le_words, length_le_bytes, HW; cbn [length]; lia].
  apply (sw_bytes_written _ _ _ (take (bs_block_len s) (bs_block s))) in H0;
    [|rewrite !length_app, length_le_words, length_le_bytes, length_take, HW; cbn [length]; lia].
  apply (sw_zeros_written _ _ _ (length (bs_block s) - bs_block_len s)) in H0;
    [|rewrite !length_app, length_le_words, length_le_bytes, length_take, HW; cbn [length]; lia].
  destruct H0 as (H0 & _ & _). etransitivity; [exact H0|]. clear H0.
  match goal with |- ?l ++ replicate ?k 0 = _ => assert (k = 0)%nat as -> end.
  { rewrite !length_app, length_le_words, length_le_bytes, length_take, length_replicate, HW. cbn [length]. lia. }
  rewrite app_nil_r, HB. unfold state_bytes. rewrite (proj1 (B_byte _ Hl)), <- !app_assoc. done.
Qed.

(** The state with its stale bytes cleared, as an import gives it back. *)
Definition cleaned (s : BlockState) : BlockState :=
  mkBlockState (bs_h s) (take (bs_block_len s) (bs_block s) ++ replicate (B - bs_block_len s) 0) (bs_block_len s) (bs_msg_len s).

Lemma existsb_zeros l : existsb (λ x, negb (x =? 0)) l = false ↔ l = replicate (length l) 0.
Proof.
  induction l as [|x l IH]; [done|]. cbn [existsb length replicate]. rewrite orb_false_iff, negb_false_iff, Z.eqb_eq, IH.
  split; [intros [-> ->]; by rewrite length_replicate|]. intros H. injection H as -> H. done.
Qed.

Lemma state_bytes_length s : length (bs_h s) = W → length (bs_block s) = B → (bs_block_len s < B)%nat →
  length (state_bytes p s) = state_len p.
Proof using Type.
  intros HW HB Hl. unfold state_bytes, state_len. rewrite !length_app, length_le_words, length_le_bytes, length_take, length_replicate, HW. cbn [length]. lia.
Qed.

Lemma from_state_iff b s : bytes_ok b → from_state p b = Ok s ↔ state_canonical p (hs_state s) ∧ b = state_bytes p (hs_state s).
Proof using Hp.
  intros Hb. pose proof (proj2 (fo_counter _ vo_framing)) as Hcw. pose proof (block_pos _ vo_framing) as HB0. split.
  - intros Hok. assert (length b = state_len p ∧ nth 0 b 0 = STATE_FORMAT_VERSION ∧ nth 1 b 0 = v_tag p) as (Hl & H0 & H1).
    { unfold from_state, sr_new in Hok. destruct (Nat.eqb_spec (length b) (state_len p)); [|done].
      destruct (Z.eqb_spec (nth 0 b 0) STATE_FORMAT_VERSION); [|done]. by destruct (Z.eqb_spec (nth 1 b 0) (v_tag p)). }
    destruct (from_state_fields b Hb Hl H0 H1) as (h & m & v & raw & Hh & Hhw & Hm & Hv & Hr & Hrok & Eb & Ef).
    rewrite Ef in Hok. destruct (_ || _) eqn:Eg; [done|]. apply orb_false_elim in Eg as [E1 E2]. apply Nat.ltb_ge in E1.
    destruct (Z.eqb_spec (m mod Z.of_nat B) (Z.of_nat (Z.to_nat v))) as [E3|]; [|done]. cbn [negb] in Hok. inv_result. cbn [hs_state].
    apply existsb_zeros in E2. rewrite length_drop, Hr in E2. unfold in_width in Hv. split.
    + split; cbn [bs_h bs_block bs_block_len bs_msg_len]; try done; [by rewrite Hcw|split_and!; [done|lia|done]].
    + unfold state_bytes. cbn [bs_h bs_block bs_block_len bs_msg_len]. rewrite <- E2, take_drop. rewrite Z2Nat.id by lia. done.
  - destruct s as [s]. cbn [hs_state]. intros [[[HW Hww] Hc (HB & Hl & Hmod) Ht Hlive] ->].
    assert (length (state_bytes p s) = state_len p) as Hlen by (by apply state_bytes_length).
    destruct (from_state_fields (state_bytes p s) Hb Hlen eq_refl eq_refl) as (h & m & v & raw & Hh & Hhw & Hm & Hv & Hr & Hrok & Eb & ->).
    unfold state_bytes in Eb. apply (inj (app [STATE_FORMAT_VERSION; v_tag p])) in Eb.
    apply le_words_inj in Eb as [<- Eb]; [|done|done|by rewrite Hh].
    apply app_inj_1 in Eb as [Em Eb]; [|by rewrite !length_le_bytes]. apply (f_equal le_value) in Em.
    rewrite !le_value_le_bytes in Em by (done || by rewrite <- Hcw). subst m. cbn [app] in Eb. injection Eb as <- Eb.
    rewrite Nat2Z.id in *. rewrite <- Ht, take_drop in Eb. subst raw.
    rewrite (proj2 (Nat.ltb_ge _ _)) by lia. rewrite (proj2 (existsb_zeros _)) by (rewrite length_drop, HB; exact Ht).
    rewrite Hmod, Z.eqb_refl. cbn [orb negb]. by destruct s.
Qed.

(** A state that absorbed bytes is canonical once its stale bytes are cleared. *)
Lemma absorbed_words (s : BlockState) m : bs_rep (v_fr p) (v_iv p) s m →
  length (bs_h s) = W ∧ Forall (in_width (8 * Z.of_nat (v_word p))) (bs_h s).
Proof using Hp.
  intros [_ _ (pre & rest & k & _ & _ & _ & -> & _ & _)]. generalize (chunks_exact B pre). intros l.
  assert (∀ h, length h = W → Forall (in_width (8 * Z.of_nat (v_word p))) h →
    length (foldl (fr_compress (v_fr p)) h l) = W ∧ Forall (in_width (8 * Z.of_nat (v_word p))) (foldl (fr_compress (v_fr p)) h l)) as H.
  { induction l as [|x l IH]; intros h Hh Hw; [done|]. cbn [foldl]. apply IH; [|by apply vo_width]. by rewrite (fo_words _ vo_framing). }
  apply H; [done|apply vo_iv].
Qed.

Lemma counter_mod n : 0 ≤ n → wrap (fr_counter (v_fr p)) n mod Z.of_nat B = n mod Z.of_nat B.
Proof using Hp.
  intros Hn. destruct (fo_block _ vo_framing) as (k & Hk & Hb). pose proof (fo_width _ vo_framing) as Hw. rewrite Hb in *. unfold wrap.
  assert (k < fr_counter (v_fr p)) as Hkc by (apply (Z.pow_lt_mono_r_iff 2); pose proof (Z.pow_pos_nonneg 2 k); lia || (destruct (fo_counter _ vo_framing); lia)).
  rewrite (Z.div_mod n (2 ^ fr_counter (v_fr p))) at 2 by lia.
  replace (2 ^ fr_counter (v_fr p)) with (2 ^ (fr_counter (v_fr p) - k) * 2 ^ k) at 2 by (rewrite <- Z.pow_add_r by lia; f_equal; lia).
  rewrite Z.add_comm, <- Z.mul_assoc, (Z.mul_comm (2 ^ k)), Z.mul_assoc, Z.mod_add by lia. done.
Qed.

Lemma cleaned_canonical s m : bs_rep (v_fr p) (v_iv p) s m → bytes_ok m →
  state_canonical p (cleaned s) ∧ bs_rep (v_fr p) (v_iv p) (cleaned s) m ∧ state_bytes p (cleaned s) = state_bytes p s.
Proof using Hp.
  intros Hr Hm. pose proof (absorbed_words s m Hr) as Hw. destruct Hr as [Hlen Hb (pre & rest & k & -> & Hpre & Hrest & Hh & Hbl & Htk)].
  assert (length (take (bs_block_len s) (bs_block s)) = bs_block_len s) as Hl by (rewrite length_take; lia).
  assert (length (take (bs_block_len s) (bs_block s) ++ replicate (B - bs_block_len s) 0) = B) as HB by (rewrite length_app, length_replicate; lia).
  split_and!; [split|split|]; unfold cleaned; cbn [bs_h bs_block bs_block_len bs_msg_len]; try done.
  - rewrite Hlen. apply wrap_range. destruct (fo_counter _ vo_framing). lia.
  - split_and!; [done|lia|]. rewrite Hlen, counter_mod by apply zlen_nonneg. unfold zlen. rewrite length_app, Hpre, Nat2Z.inj_add, Nat2Z.inj_mul.
    rewrite Z.add_comm, Z.mod_add, Z.mod_small by lia. lia.
  - by rewrite drop_app_length'.
  - apply Forall_app. split; [|by apply Forall_replicate]. rewrite Hbl, Htk. by apply Forall_app in Hm as [_ ?].
  - exists pre, rest, k. split_and!; try done. rewrite <- Hbl at 1. rewrite take_app_length' by done. by rewrite Hbl.
  - unfold state_bytes. cbn [bs_h bs_block bs_block_len bs_msg_len]. by rewrite take_app_length' by done.
Qed.

Lemma export_absorbed (s : Hasher p) m : bs_rep (v_fr p) (v_iv p) (hs_state s) m → export_state p s = state_bytes p (hs_state s).
Proof using Hp.
  intros Hr. pose proof (absorbed_words _ _ Hr) as [HW _]. destruct Hr as [_ Hb (? & ? & ? & ? & ? & ? & ? & ? & ?)]. destruct s as [s].
  cbn [hs_state] in *. apply export_state_spec; done || lia.
Qed.

Lemma state_bytes_ok s : 0 ≤ v_tag p < 256 → state_canonical p s → bytes_ok (state_bytes p s).
Proof using Hp.
  intros Htag [_ _ (_ & Hl & _) _ Hlive]. unfold state_bytes. repeat (apply Forall_app; split).
  - apply Forall_cons. split; [by vm_compute|]. by apply Forall_singleton.
  - induction (bs_h s) as [|x l IH]; [constructor|]. cbn [fmap list_fmap concat]. apply Forall_app. split; [apply le_bytes_ok|exact IH].
  - apply le_bytes_ok.
  - by apply Forall_singleton, B_byte.
  - by apply Forall_take.
  - by apply Forall_replicate.
Qed.
End states.

(** C32: Exported states: whatever was hashed before, the export is accepted and resumes
    the hash with every continuation, re-exporting gives the same bytes, and a byte string
    is accepted exactly when it is the export of a canonical state. *)
Theorem state_codec p (s : Hasher p) b pieces rest : VariantOk p → 0 ≤ v_tag p < 256 → bytes_ok b → Forall bytes_ok pieces →
  let self := foldl d_update (d_new : Hasher p) pieces in
  (∃ self', from_state p (export_state p self) = Ok self'
    ∧ export_state p self' = export_state p self
    ∧ d_finalize (foldl d_update self' rest) = d_digest (Hasher p) (concat pieces ++ concat rest))
  ∧ (from_state p b = Ok s ↔ state_canonical p (hs_state s) ∧ b = export_state p s).
Proof.
  intros Hp Htag Hb Hpieces self.
  assert (∀ l (h : Hasher p) m, absorbed h m → absorbed (foldl d_update h l) (m ++ concat l)) as Hfold.
  { induction l as [|x l IH]; intros h m Hm; cbn [foldl concat]; [by rewrite app_nil_r|]. rewrite app_assoc. by apply IH, ds_update. }
  split.
  - pose proof (Hfold pieces d_new [] ds_new) as Hr. change (bs_rep (v_fr p) (v_iv p) (hs_state self) (concat pieces)) in Hr.
    assert (bytes_ok (concat pieces)) as Hok by (clear -Hpieces; induction Hpieces; [constructor|]; by apply Forall_app).
    destruct (cleaned_canonical p _ _ Hr Hok) as (Hc & Hrc & He). exists (mkHasher (cleaned p (hs_state self))).
    assert (export_state p self = state_bytes p (cleaned p (hs_state self))) as Ee by (rewrite He; by apply (export_absorbed p _ (concat pieces))).
    split_and!.
    + rewrite Ee. apply (from_state_iff p); [by apply (state_bytes_ok p)|done].
    + rewrite Ee. exact (export_absorbed p (mkHasher (cleaned p (hs_state self))) (concat pieces) Hrc).
    + rewrite digest_spec. apply ds_finalize, Hfold. exact Hrc.
  - rewrite (from_state_iff p) by done. split; intros [Hc ->]; (split; [done|]).
    + destruct Hc as [[HW _] _ (HB & Hl & _) _ _]. destruct s as [s]. symmetry. by apply export_state_spec.
    + destruct Hc as [[HW _] _ (HB & Hl & _) _ _]. destruct s as [s]. by apply export_state_spec.
Qed.

(** SHA-256 stopped after "abc". *)
Lemma state_codec_witness :
  ∃ self', from_state vSha256 (export_state vSha256 (d_update d_new abc)) = Ok self'
    ∧ d_finalize (d_update self' abc) = d_digest Sha256 (concat [abc] ++ concat [abc]).
Proof.
  destruct (proj1 (state_codec vSha256 d_new [] [abc] [abc] sha256_ok ltac:(vm_compute; split; [discriminate|reflexivity]) ltac:(constructor)
    ltac:(apply (bool_decide_unpack _); vm_compute; exact I))) as (self' & H1 & _ & H3).
  exists self'. split; [exact H1|exact H3].
Defined.
