(* ===== verification/Kdf.v ===== *)
(** The key derivation functions of [src/kdf/] over an HMAC or a hash: HKDF ([hkdf.rs]),
    PBKDF2 ([pbkdf2.rs]), the single-step KDF ([concat.rs]) and KBKDF in counter and
    feedback mode ([kbkdf.rs]).  They are proved against the contract of [Digest], so they
    hold for every hasher of the library; output buffers are lists that the functions
    overwrite. *)

From S2P Require Import Prelude Ct MdHash Hmac Sha2 MdFamily Hashers.

(** * HKDF *)

Inductive HkdfError := HkdfOutputTooLong.

(** The [while filled < out.len()] loop: [step] gives the next block. *)
Fixpoint fill_loop {S} (step : S → S * bytes) (fuel : nat) (s : S) (filled : nat) (out : bytes) : bytes :=
  match fuel with
  | O => out
  | Datatypes.S fuel =>
      if (filled <? length out)%nat then
        let '(s, block) := step s in
        let tk := ((length out - filled) `min` length block)%nat in
        fill_loop step fuel s (filled + tk) (splice out filled (take tk block))
      else out
  end.

Section hkdf.
Context (D : Type) `{Digest D}.

Definition hkdf_extract (salt ikm : bytes) : bytes :=
  if is_nil salt then hmac_mac (D := D) (replicate OUTPUT_LEN 0) ikm else hmac_mac (D := D) salt ikm.

Definition hkdf_extract_parts (salt : bytes) (ikm : list bytes) : bytes :=
  let key := if is_nil salt then replicate OUTPUT_LEN 0 else salt in
  hmac_finalize (foldl hmac_update (hmac_new (D := D) key) ikm).

(** [prev], [has_prev] and [counter]. *)
Definition ExpandState : Type := bytes * bool * Z.

Definition expand_step (prf : Hmac D) (info : bytes) (s : ExpandState) : ExpandState * bytes :=
  let '(prev, has_prev, counter) := s in
  let next := mac_parts prf [if has_prev then prev else []; info; [counter]] in
  ((next, true, wadd 8 counter 1), next).

Definition expand_parts_step (prf : Hmac D) (info : list bytes) (s : ExpandState) : ExpandState * bytes :=
  let '(prev, has_prev, counter) := s in
  let next :=
    if (length info <=? 8)%nat then
      let parts := replicate 10 [] in
      let parts := if has_prev then <[0%nat := prev]> parts else parts in
      let parts := splice parts 1 info in
      let parts := <[(1 + length info)%nat := [counter]]> parts in
      mac_parts prf (take (length info + 2) parts)
    else
      let mac := if has_prev then hmac_update prf prev else prf in
      hmac_finalize (hmac_update (foldl hmac_update mac info) [counter]) in
  ((next, true, wadd 8 counter 1), next).

Definition try_hkdf_expand (prk info out : bytes) : result HkdfError bytes :=
  if (255 * OUTPUT_LEN <? length out)%nat then Err HkdfOutputTooLong
  else Ok (fill_loop (expand_step (hmac_new prk) info) (length out) (replicate OUTPUT_LEN 0, false, 1) 0 out).

Definition try_hkdf_expand_parts (prk : bytes) (info : list bytes) (out : bytes) : result HkdfError bytes :=
  if (255 * OUTPUT_LEN <? length out)%nat then Err HkdfOutputTooLong
  else Ok (fill_loop (expand_parts_step (hmac_new prk) info) (length out) (replicate OUTPUT_LEN 0, false, 1) 0 out).

Definition try_hkdf (salt ikm info out : bytes) : result HkdfError bytes :=
  if (255 * OUTPUT_LEN <? length out)%nat then Err HkdfOutputTooLong
  else try_hkdf_expand (hkdf_extract salt ikm) info out.
End hkdf.

(** * PBKDF2 *)

Inductive Pbkdf2Error := ZeroIterations | Pbkdf2OutputTooLong.

(** [chunks_mut]: the last chunk may be shorter. *)
Fixpoint chunks_mut_loop (fuel n : nat) (l : bytes) : list bytes :=
  match fuel with
  | O => []
  | S fuel => if is_nil l then [] else take n l :: chunks_mut_loop fuel n (drop n l)
  end.

Definition chunks_mut (n : nat) (l : bytes) : list bytes := chunks_mut_loop (length l) n l.

Section pbkdf2.
Context (D : Type) `{Digest D}.

Definition derive_block (prf : Hmac D) (salt : bytes) (iterations index : Z) (out : bytes) : bytes :=
  let u := hmac_finalize (hmac_chain (hmac_chain prf salt) (be_bytes 4 index)) in
  let '(_, acc) := iterate_xor prf u u (Z.to_nat (iterations - 1)) in
  let n := (length out `min` length acc)%nat in
  splice out 0 (take n acc).

(** [out.chunks_mut(hlen).zip(1..=u32::MAX)] *)
Definition derive_blocks (prf : Hmac D) (salt : bytes) (iterations : Z) (out : bytes) : bytes :=
  let chunks := chunks_mut OUTPUT_LEN out in
  let n := Z.to_nat (zlen chunks `min` (2 ^ 32 - 1)) in
  concat (imap (λ i chunk, derive_block prf salt iterations (Z.of_nat i + 1) chunk) (take n chunks)).

Definition try_pbkdf2 (password salt : bytes) (iterations : Z) (out : bytes) : result Pbkdf2Error bytes :=
  if iterations =? 0 then Err ZeroIterations
  else
    let max_len := ((2 ^ 32 - 1) * Z.of_nat OUTPUT_LEN) `min` (2 ^ 64 - 1) in
    if max_len <? zlen out then Err Pbkdf2OutputTooLong
    else Ok (derive_blocks (hmac_new password) salt iterations out).
End pbkdf2.

(** * The single-step KDF *)

Inductive ConcatKdfError := ConcatOutputTooLong.

Section concat_kdf.
Context (D : Type) `{Digest D}.

Definition concat_chunk (z : bytes) (other_info : list bytes) (i : nat) (chunk : bytes) : bytes :=
  let counter := be_bytes 4 (Z.of_nat i + 1) in
  let h := d_update d_new counter in
  let h := d_update h z in
  let h := foldl d_update (h : D) other_info in
  take (length chunk) (d_finalize h).

Definition concat_kdf (z : bytes) (other_info : list bytes) (out : bytes) : result ConcatKdfError bytes :=
  let reps := (zlen out + Z.of_nat OUTPUT_LEN - 1) / Z.of_nat OUTPUT_LEN in
  if 2 ^ 32 - 1 <? reps then Err ConcatOutputTooLong
  else Ok (concat (imap (concat_chunk z other_info) (chunks_mut OUTPUT_LEN out))).
End concat_kdf.

(** * KBKDF *)

Inductive KbkdfError := ZeroLength | KbkdfOutputTooLong | InvalidKeyLength | UnsupportedPrfOutput.

(** The [Prf] trait; [finalize] also resets for the next block. *)
Class Prf (P : Type) := {
  PRF_OUTPUT_LEN : nat;
  prf_try_init : bytes → result KbkdfError P;
  prf_update : P → bytes → P;
  prf_finalize : P → bytes * P }.

(** [HmacPrf]: the keyed template and the MAC being fed. *)
Record HmacPrf (D : Type) := mkHmacPrf { hp_template : Hmac D; hp_mac : Hmac D }.
Arguments mkHmacPrf {_} _ _.
Arguments hp_template {_} _.
Arguments hp_mac {_} _.

#[export] Instance hmac_prf (D : Type) `{Digest D} : Prf (HmacPrf D) := {|
  PRF_OUTPUT_LEN := OUTPUT_LEN (D := D);
  prf_try_init ki := let template := hmac_new ki in Ok (mkHmacPrf template template);
  prf_update self data := mkHmacPrf (hp_template self) (hmac_update (hp_mac self) data);
  prf_finalize self := (hmac_finalize (hp_mac self), mkHmacPrf (hp_template self) (hp_template self)) |}.

Definition MAX_PRF_OUTPUT : nat := 64.

Definition block_count (out_len prf_out : nat) : result KbkdfError Z :=
  if (prf_out =? 0)%nat || (MAX_PRF_OUTPUT <? prf_out)%nat then Err UnsupportedPrfOutput
  else if (out_len =? 0)%nat then Err ZeroLength
  else
    let blocks := (Z.of_nat out_len + Z.of_nat prf_out - 1) / Z.of_nat prf_out in
    if 2 ^ 32 - 1 <? blocks then Err KbkdfOutputTooLong else Ok blocks.

Definition output_len_bits (out_len : nat) : result KbkdfError Z :=
  let b := Z.of_nat out_len * 8 in
  if (b <? 2 ^ 64) && (b <? 2 ^ 32) then Ok b else Err KbkdfOutputTooLong.

Section kbkdf.
Context (P : Type) `{Prf P}.

(** One pass of the loops: feed, finalize, copy.  [prev] is the block before. *)
Definition kb_round (feed : P → bytes → Z → P) (s : P * bytes * nat * bytes) (i : nat) : P * bytes * nat * bytes :=
  let '(prf, prev, filled, out) := s in
  let prf := feed prf prev (Z.of_nat i) in
  let '(block, prf) := prf_finalize prf in
  let tk := ((length out - filled) `min` PRF_OUTPUT_LEN)%nat in
  (prf, block, (filled + tk)%nat, splice out filled (take tk block)).

(** [for i in 1..=blocks] *)
Definition kb_loop (feed : P → bytes → Z → P) (prf : P) (blocks : Z) (out : bytes) : bytes :=
  (foldl (kb_round feed) (prf, [], 0%nat, out) (seq 1 (Z.to_nat blocks))).2.

Definition feed_fixed_input (prf : P) (label context : bytes) (l_bits : Z) : P :=
  let prf := prf_update prf label in
  let prf := prf_update prf [0x00] in
  let prf := prf_update prf context in
  prf_update prf (be_bytes 4 l_bits).

Definition feed_counter (prf : P) (i : Z) : P := prf_update prf (be_bytes 4 i).
Definition feed_iter (iv : bytes) (prf : P) (prev : bytes) (i : Z) : P :=
  let prf := if i =? 1 then prf_update prf iv else prf_update prf prev in
  prf_update prf (be_bytes 4 i).

Definition kbkdf_counter_fixed (ki fixed out : bytes) : result KbkdfError bytes :=
  blocks ← block_count (length out) PRF_OUTPUT_LEN;
  prf ← prf_try_init ki;
  Ok (kb_loop (λ prf _ i, prf_update (feed_counter prf i) fixed) prf blocks out).

Definition kbkdf_feedback_fixed (ki iv fixed out : bytes) : result KbkdfError bytes :=
  blocks ← block_count (length out) PRF_OUTPUT_LEN;
  prf ← prf_try_init ki;
  Ok (kb_loop (λ prf prev i, prf_update (feed_iter iv prf prev i) fixed) prf blocks out).

Definition kbkdf_counter (ki label context out : bytes) : result KbkdfError bytes :=
  blocks ← block_count (length out) PRF_OUTPUT_LEN;
  l_bits ← output_len_bits (length out);
  prf ← prf_try_init ki;
  Ok (kb_loop (λ prf _ i, feed_fixed_input (feed_counter prf i) label context l_bits) prf blocks out).

Definition kbkdf_feedback (ki iv label context out : bytes) : result KbkdfError bytes :=
  blocks ← block_count (length out) PRF_OUTPUT_LEN;
  l_bits ← output_len_bits (length out);
  prf ← prf_try_init ki;
  Ok (kb_loop (λ prf prev i, feed_fixed_input (feed_iter iv prf prev i) label context l_bits) prf blocks out).
End kbkdf.

(** * Streams of blocks *)

(** The first [len] bytes of the blocks [f 1], [f 2], ... of [h] bytes each. *)
Definition block_stream (f : nat → bytes) (h len : nat) : bytes := take len (concat (f <$> seq 1 ((len + h - 1) / h))).

Section stream.
Context (f : nat → bytes) (h : nat) (Hh : (0 < h)%nat) (Hf : ∀ i, length (f i) = h).

Lemma length_blocks a k : length (concat (f <$> seq a k)) = (k * h)%nat.
Proof using Hf Hh. revert a. induction k as [|k IH]; intros a; [done|]. cbn [seq fmap list_fmap concat]. rewrite length_app, Hf, IH. lia. Qed.

(** More blocks than needed change nothing. *)
Lemma take_blocks a len k k' : (len ≤ k * h)%nat → (len ≤ k' * h)%nat →
  take len (concat (f <$> seq a k)) = take len (concat (f <$> seq a k')).
Proof using Hh Hf.
  intros H1 H2. assert (∀ k k', (k ≤ k')%nat → (len ≤ k * h)%nat → take len (concat (f <$> seq a k)) = take len (concat (f <$> seq a k'))) as H.
  { clear k k' H1 H2. intros k k' Hk Hl. replace k' with (k + (k' - k))%nat by lia. rewrite seq_app, fmap_app, concat_app.
    rewrite (take_app_le (concat (f <$> seq a k))) by (rewrite length_blocks; lia). done. }
  destruct (decide (k ≤ k')%nat); [by apply H|symmetry; apply H; lia].
Qed.

Lemma blocks_enough len : (len ≤ (len + h - 1) / h * h)%nat.
Proof using Hh. pose proof (Nat.div_mod_eq (len + h - 1) h). pose proof (Nat.mod_upper_bound (len + h - 1) h). lia. Qed.

Lemma block_stream_take len k : (len ≤ k * h)%nat → block_stream f h len = take len (concat (f <$> seq 1 k)).
Proof using Hh Hf. intros Hk. apply take_blocks; [apply blocks_enough|done]. Qed.

(** A buffer of which the first bytes are those of the stream. *)
Definition partly (out0 : bytes) (a : nat) : bytes := take a (block_stream f h (length out0)) ++ drop a out0.

Lemma length_block_stream len : length (block_stream f h len) = len.
Proof using Hh Hf. unfold block_stream. rewrite length_take, length_blocks. pose proof (blocks_enough len). lia. Qed.

Lemma length_partly out0 a : (a ≤ length out0)%nat → length (partly out0 a) = length out0.
Proof using Hh Hf. intros Ha. unfold partly. rewrite length_app, length_take, length_block_stream, length_drop. lia. Qed.

(** Writing the next block. *)
Lemma write_block out0 i : let len := length out0 in let a := ((i * h) `min` len)%nat in
  let tk := ((len - a) `min` h)%nat in
  splice (partly out0 a) a (take tk (f (S i))) = partly out0 (a + tk) ∧ (a + tk = (S i * h) `min` len)%nat.
Proof using Hh Hf.
  intros len a tk. split; [|unfold tk, a; nia]. unfold partly at 1. assert (length (take a (block_stream f h len)) = a) as Ha.
  { rewrite length_take, length_block_stream. unfold a. lia. }
  rewrite splice_head by exact Ha. assert (length (take tk (f (S i))) = tk) as Ht by (rewrite length_take, Hf; unfold tk; lia).
  rewrite Ht, drop_drop, app_assoc. unfold partly. fold len. f_equal.
  destruct (decide (i * h < len)%nat) as [Hlt|Hge].
  - assert (a = i * h)%nat as Ea by (unfold a; lia). rewrite Ea in *.
    rewrite (block_stream_take len (i + S len)) by nia. rewrite !take_take, !Nat.min_l by (unfold tk; lia).
    rewrite seq_app, fmap_app, concat_app. cbn [seq fmap list_fmap concat]. change (1 + i)%nat with (S i).
    rewrite take_app_length' by (by rewrite length_blocks). rewrite take_app_add' by (by rewrite length_blocks).
    f_equal. rewrite take_app_le by (rewrite Hf; unfold tk; lia). done.
  - assert (tk = 0)%nat as -> by (unfold tk, a; lia). by rewrite take_0, app_nil_r, Nat.add_0_r.
Qed.

(** The loop that writes until the buffer is full. *)
Lemma fill_loop_stream {St} (step : St → St * bytes) (st : nat → St) out0 :
  (∀ i, (i * h < length out0)%nat → step (st i) = (st (S i), f (S i))) →
  fill_loop step (length out0) (st 0%nat) 0 out0 = block_stream f h (length out0).
Proof using Hh Hf.
  intros Hstep. set (len := length out0) in *.
  assert (∀ fuel i, (len - (i * h) `min` len ≤ fuel)%nat →
    fill_loop step fuel (st i) ((i * h) `min` len) (partly out0 ((i * h) `min` len)) = block_stream f h len) as H.
  { assert (partly out0 len = block_stream f h len) as Hfull.
    { unfold partly. rewrite drop_ge, app_nil_r by done. apply take_ge. rewrite length_block_stream. done. }
    induction fuel as [|fuel IH]; intros i Hi; cbn [fill_loop].
    - replace ((i * h) `min` len)%nat with len by lia. exact Hfull.
    - rewrite length_partly by (fold len; lia). fold len. destruct (Nat.ltb_spec ((i * h) `min` len) len) as [Hlt|Hge].
      + rewrite Hstep by (fold len; lia). destruct (write_block out0 i) as [E1 E2]. fold len in E1, E2. cbv zeta in E1, E2.
        rewrite Hf, E1, E2. apply IH. lia.
      + replace ((i * h) `min` len)%nat with len by lia. exact Hfull. }
  specialize (H len 0%nat). cbn [Nat.mul Nat.min] in H. apply H. lia.
Qed.
End stream.

(** * HKDF is RFC 5869 *)

Section rfc5869.
Context (D : Type) `{DigestSpec D}.

(** [T(0)] is empty, [T(i) = HMAC(PRK, T(i-1) | info | i)]. *)
Fixpoint rfc5869_T (prk info : bytes) (i : nat) : bytes :=
  match i with O => [] | S j => hmac_of (D := D) prk (rfc5869_T prk info j ++ info ++ [Z.of_nat i]) end.

Definition rfc5869_prk (salt ikm : bytes) : bytes := hmac_of (D := D) (if is_nil salt then replicate OUTPUT_LEN 0 else salt) ikm.

Lemma length_hmac_of key m : length (hmac_of (D := D) key m) = OUTPUT_LEN.
Proof using Type*. apply ds_output. Qed.

Lemma hmac_mac_spec key m : hmac_mac (D := D) key m = hmac_of (D := D) key m.
Proof using Type*. apply hmac_finalize_keyed. apply (hmac_update_keyed _ _ []), hmac_new_keyed. Qed.

Lemma extract_spec salt ikm : hkdf_extract D salt ikm = rfc5869_prk salt ikm.
Proof using Type*. unfold hkdf_extract, rfc5869_prk. rewrite !hmac_mac_spec. by destruct (is_nil salt). Qed.

Lemma extract_parts_spec salt parts : hkdf_extract_parts D salt parts = rfc5869_prk salt (concat parts).
Proof using Type*. apply hmac_finalize_keyed. apply (hmac_stream_keyed parts _ _ []), hmac_new_keyed. Qed.

(** The state of the loops before block [i + 1]. *)
Definition expand_at (prk info : bytes) (i : nat) : ExpandState :=
  match i with
  | O => (replicate OUTPUT_LEN 0, false, 1)
  | _ => (rfc5869_T prk info i, true, wrap 8 (Z.of_nat i + 1))
  end.

Lemma expand_input prk info i : (i < 255)%nat →
  let '(prev, has_prev, counter) := expand_at prk info i in
  (if has_prev then prev else []) = rfc5869_T prk info i ∧ counter = Z.of_nat (S i)
  ∧ (rfc5869_T prk info (S i), true, wadd 8 counter 1) = expand_at prk info (S i).
Proof using Type.
  intros Hi. destruct i as [|i]; cbn [expand_at]; [by split_and!|].
  assert (wrap 8 (Z.of_nat (S i) + 1) = Z.of_nat (S (S i))) as -> by (rewrite wrap_small by (unfold in_width; lia); lia).
  split_and!; [done|done|]. unfold wadd. by rewrite (Nat2Z.inj_succ (S i)).
Qed.

Lemma expand_step_spec prk info i : (i < 255)%nat →
  expand_step D (hmac_new prk) info (expand_at prk info i) = (expand_at prk info (S i), rfc5869_T prk info (S i)).
Proof using Type*.
  intros Hi. pose proof (expand_input prk info i Hi) as E. destruct (expand_at prk info i) as [[prev has_prev] counter].
  destruct E as (E1 & E2 & E3). unfold expand_step. rewrite E1, (mac_parts_keyed _ prk [] _ (hmac_new_keyed prk)), <- E3.
  assert (hmac_of prk ([] ++ concat [rfc5869_T prk info i; info; [counter]]) = rfc5869_T prk info (S i)) as ->; [|done].
  cbn [concat rfc5869_T app]. by rewrite E2.
Qed.

Lemma parts_array (prev : bytes) info (c : Z) : (length info ≤ 8)%nat →
  take (length info + 2) (<[(1 + length info)%nat := [c]]> (splice (prev :: replicate 9 []) 1 info)) = prev :: info ++ [[c]].
Proof.
  intros Hl. unfold splice. rewrite (take_app_length' [prev] (replicate 9 [])) by done.
  change (prev :: replicate 9 []) with ([prev] ++ replicate 9 []). rewrite (drop_app_add' [prev]) by done.
  rewrite drop_replicate, app_assoc. destruct (9 - length info)%nat eqn:E; [lia|]. cbn [replicate].
  replace (1 + length info)%nat with (length ([prev] ++ info) + 0)%nat by (cbn; lia). rewrite insert_app_r. cbn [insert list_insert].
  rewrite cons_middle, app_assoc, <- (app_assoc [prev]). apply take_app_length'. cbn [length]. rewrite length_app. cbn [length]. lia.
Qed.

Lemma expand_parts_step_spec prk info i : (i < 255)%nat →
  expand_parts_step D (hmac_new prk) info (expand_at prk (concat info) i)
  = (expand_at prk (concat info) (S i), rfc5869_T prk (concat info) (S i)).
Proof using Type*.
  intros Hi. pose proof (expand_input prk (concat info) i Hi) as E. destruct (expand_at prk (concat info) i) as [[prev has_prev] counter].
  destruct E as (E1 & E2 & E3). unfold expand_parts_step. rewrite <- E3. set (T := rfc5869_T prk (concat info)) in *.
  assert (T (S i) = hmac_of prk ((if has_prev then prev else []) ++ concat info ++ [counter])) as ET by (by rewrite E1, E2).
  pose proof (hmac_new_keyed (D := D) prk) as Hk.
  assert (∀ x y, x = T (S i) → y = x → ((y, true, wadd 8 counter 1), y) = ((T (S i), true, wadd 8 counter 1), T (S i))) as Hx by (by intros ? ? -> ->).
  eapply Hx; [reflexivity|]. rewrite ET. destruct (Nat.leb_spec (length info) 8) as [Hle|Hgt].
  - assert ((if has_prev then <[0%nat := prev]> (replicate 10 []) else replicate 10 []) = (if has_prev then prev else []) :: replicate 9 []) as ->
      by (by destruct has_prev).
    rewrite parts_array by done. rewrite (mac_parts_keyed _ prk [] _ Hk). cbn [concat app]. rewrite concat_app. cbn [concat].
    by rewrite app_nil_r.
  - apply hmac_finalize_keyed. rewrite app_assoc. apply hmac_update_keyed. apply hmac_stream_keyed. destruct has_prev; [|exact Hk].
    by apply (hmac_update_keyed _ _ []).
Qed.

Lemma length_rfc5869_T prk info i : length (rfc5869_T prk info (S i)) = OUTPUT_LEN.
Proof using Type*. apply length_hmac_of. Qed.

(** The blocks as a total family; block 0 is never used. *)
Definition rfc5869_block (prk info : bytes) (i : nat) : bytes := rfc5869_T prk info (S (pred i)).

(** The first bytes of [T(1) | T(2) | ..]. *)
Definition rfc5869_okm (prk info : bytes) (len : nat) : bytes :=
  take len (concat (rfc5869_T prk info <$> seq 1 ((len + OUTPUT_LEN (D := D) - 1) / OUTPUT_LEN (D := D)))).

Lemma okm_stream prk info len : block_stream (rfc5869_block prk info) (OUTPUT_LEN (D := D)) len = rfc5869_okm prk info len.
Proof using Type.
  unfold block_stream, rfc5869_okm. do 2 f_equal. apply list_fmap_ext. intros k x Hx. apply lookup_seq in Hx as [-> _]. done.
Qed.

Lemma expand_loop_spec step prk info out : (length out ≤ 255 * OUTPUT_LEN (D := D))%nat →
  (∀ i, (i < 255)%nat → step (expand_at prk info i) = (expand_at prk info (S i), rfc5869_T prk info (S i))) →
  fill_loop step (length out) (replicate OUTPUT_LEN 0, false, 1) 0 out = rfc5869_okm prk info (length out).
Proof using Type*.
  intros Hl Hs. rewrite <- okm_stream. pose proof (ds_pos (D := D)).
  apply (fill_loop_stream (rfc5869_block prk info) OUTPUT_LEN ds_pos (λ i, length_rfc5869_T prk info (pred i)) step (expand_at prk info)).
  intros i Hi. rewrite Hs by nia. done.
Qed.
End rfc5869.

(** C36: HKDF is the function of RFC 5869 for every hasher: extraction, expansion and the
    forms on parts give its bytes whatever the output length up to 255 blocks, with the
    block counter at its last value, and exactly longer outputs are refused. *)
Theorem hkdf_rfc5869 D `{DigestSpec D} salt ikm info ikms infos out :
  let prk := rfc5869_prk D salt ikm in
  let long := (255 * OUTPUT_LEN (D := D) <? length out)%nat in
  try_hkdf D salt ikm info out
    = (if long then Err HkdfOutputTooLong else Ok (rfc5869_okm D prk info (length out)))
  ∧ hkdf_extract_parts D salt ikms = hkdf_extract D salt (concat ikms)
  ∧ try_hkdf_expand_parts D prk infos out = try_hkdf_expand D prk (concat infos) out.
Proof.
  intros prk long. split_and!.
  - unfold try_hkdf, try_hkdf_expand. fold long. destruct long eqn:El; [done|]. apply Nat.ltb_ge in El. rewrite (extract_spec D). f_equal.
    apply (expand_loop_spec D); [done|]. intros i Hi. by apply (expand_step_spec D).
  - by rewrite (extract_parts_spec D), (extract_spec D).
  - unfold try_hkdf_expand_parts, try_hkdf_expand. fold long. destruct long eqn:El; [done|]. apply Nat.ltb_ge in El. f_equal.
    rewrite (expand_loop_spec D _ prk (concat infos)), (expand_loop_spec D _ prk (concat infos)); try done; intros i Hi;
      [by apply (expand_step_spec D)|by apply (expand_parts_step_spec D)].
Qed.

(** * Outputs written chunk by chunk *)

Section chunks.
Context (f : nat → bytes) (h : nat) (Hh : (0 < h)%nat) (Hf : ∀ i, length (f i) = h).

Lemma chunks_loop_stream (g : nat → bytes → bytes) : (∀ i c, (length c ≤ h)%nat → g i c = take (length c) (f (S i))) →
  ∀ fuel l a, (length l ≤ fuel)%nat →
  concat (imap (λ i, g (a + i)%nat) (chunks_mut_loop fuel h l)) = take (length l) (concat (f <$> seq (S a) fuel)).
Proof using Hh Hf.
  intros Hg. induction fuel as [|fuel IH]; intros l a Hl; cbn [chunks_mut_loop]; [by destruct l|].
  destruct l as [|x l'] eqn:E; [done|]. rewrite <- E in *. assert (is_nil l = false) as -> by (by subst).
  cbn [imap concat seq fmap list_fmap]. rewrite Nat.add_0_r, Hg by (rewrite length_take; lia).
  assert (imap ((λ i, g (a + i)%nat) ∘ S) (chunks_mut_loop fuel h (drop h l)) = imap (λ i, g (S a + i)%nat) (chunks_mut_loop fuel h (drop h l))) as ->.
  { apply imap_ext. intros i c _. cbn. by rewrite Nat.add_succ_r. }
  assert (0 < length l)%nat by (subst; cbn; lia). rewrite IH by (rewrite length_drop; lia). rewrite length_drop, length_take.
  destruct (decide (h ≤ length l)%nat) as [Hle|Hlt].
  - rewrite Nat.min_l by done. replace (length l) with (length (f (S a)) + (length l - h))%nat at 2 by (rewrite Hf; lia).
    rewrite take_app_add. f_equal. apply take_ge. by rewrite Hf.
  - rewrite Nat.min_r by lia. replace (length l - h)%nat with 0%nat by lia. rewrite take_0, app_nil_r.
    rewrite take_app_le by (rewrite Hf; lia). done.
Qed.

Lemma chunks_mut_stream (g : nat → bytes → bytes) out : (∀ i c, (length c ≤ h)%nat → g i c = take (length c) (f (S i))) →
  concat (imap g (chunks_mut h out)) = block_stream f h (length out).
Proof using Hh Hf.
  intros Hg. unfold chunks_mut. pose proof (chunks_loop_stream g Hg (length out) out 0 ltac:(lia)) as H. cbn [Nat.add] in H.
  etransitivity; [exact H|]. symmetry. apply block_stream_take; [done|done|nia].
Qed.

Lemma length_chunks_mut fuel : ∀ l, (length (chunks_mut_loop fuel h l) * h < length l + h)%nat.
Proof using Hh.
  induction fuel as [|fuel IH]; intros l; cbn [chunks_mut_loop length]; [lia|]. destruct l as [|x l'] eqn:E; [cbn; lia|]. rewrite <- E.
  assert (is_nil l = false) as -> by (by subst). cbn [length]. pose proof (IH (drop h l)) as H. rewrite length_drop in H.
  assert (0 < length l)%nat by (subst; cbn; lia). destruct (length (chunks_mut_loop fuel h (drop h l))) as [|n]; nia.
Qed.
End chunks.

(** * PBKDF2 is RFC 8018 *)

Section rfc8018.
Context (D : Type) `{DigestSpec D}.

(** [U_1 = PRF(P, S || INT(i))], [U_(j+1) = PRF(P, U_j)]; their exclusive-or. *)
Definition rfc8018_U (P S : bytes) (i : Z) (j : nat) : bytes := Nat.iter j (hmac_of (D := D) P) (hmac_of (D := D) P (S ++ be_bytes 4 i)).
Definition rfc8018_F (P S : bytes) (c i : Z) : bytes :=
  foldl (zip_with Z.lxor) (rfc8018_U P S i 0) (rfc8018_U P S i <$> seq 1 (Z.to_nat (c - 1))).

Lemma hmac_steps key u n :
  Nat.iter n (hmac_step (D := D) key) (u, u)
  = (Nat.iter n (hmac_of (D := D) key) u, foldl (zip_with Z.lxor) u ((λ j, Nat.iter j (hmac_of (D := D) key) u) <$> seq 1 n)).
Proof using Type.
  induction n as [|n IH]; [done|]. rewrite Nat.iter_succ, IH. unfold hmac_step. cbn [fst snd].
  rewrite seq_S, fmap_app, foldl_app. change (1 + n)%nat with (S n). cbn [fmap list_fmap foldl]. by rewrite Nat.iter_succ.
Qed.

Lemma length_F P S c i : length (rfc8018_F P S c i) = OUTPUT_LEN.
Proof using Type*.
  unfold rfc8018_F. assert (∀ l acc, length acc = OUTPUT_LEN → Forall (λ x, length x = OUTPUT_LEN) l → length (foldl (zip_with Z.lxor) acc l) = OUTPUT_LEN) as Hl.
  { induction l as [|x l IH]; intros acc Ha Hx; [done|]. inversion Hx; subst. cbn [foldl]. apply IH; [|done]. rewrite length_zip_with. lia. }
  apply Hl; [apply ds_output|]. apply Forall_fmap, Forall_forall. intros j _. unfold rfc8018_U. cbn. destruct j; apply ds_output.
Qed.

Lemma derive_block_spec P S c i out : (length out ≤ OUTPUT_LEN (D := D))%nat →
  derive_block D (hmac_new P) S c i out = take (length out) (rfc8018_F P S c i).
Proof using Type*.
  intros Hl. unfold derive_block. pose proof (hmac_new_keyed (D := D) P) as Hk.
  assert (hmac_finalize (hmac_chain (hmac_chain (hmac_new P) S) (be_bytes 4 i)) = rfc8018_U P S i 0) as ->.
  { unfold rfc8018_U. cbn [Nat.iter]. apply hmac_finalize_keyed. apply hmac_update_keyed. by apply (hmac_update_keyed _ _ []). }
  rewrite (iterate_xor_keyed _ P) by (done || apply ds_output). rewrite hmac_steps.
  change (foldl (zip_with Z.lxor) (rfc8018_U P S i 0) _) with (rfc8018_F P S c i).
  rewrite length_F, Nat.min_l by done. unfold splice. rewrite take_0, app_nil_l, length_take, length_F, Nat.min_l by done.
  by rewrite drop_ge, app_nil_r by lia.
Qed.
End rfc8018.

(** C37: PBKDF2 is the function of RFC 8018 for every hasher: the first bytes of
    [T_1 || T_2 || ..], with the fast path of the iterated HMAC or without; no iterations
    and more than [2^32 - 1] blocks are refused, and nothing else. *)
Theorem pbkdf2_rfc8018 D `{DigestSpec D} password salt iterations out : zlen out < 2 ^ 64 →
  let hlen := OUTPUT_LEN (D := D) in
  try_pbkdf2 D password salt iterations out =
    if iterations =? 0 then Err ZeroIterations
    else if (2 ^ 32 - 1) * Z.of_nat hlen <? zlen out then Err Pbkdf2OutputTooLong
    else Ok (block_stream (λ i, rfc8018_F D password salt iterations (Z.of_nat i)) hlen (length out)).
Proof.
  intros Hlen hlen. unfold try_pbkdf2. fold hlen. destruct (iterations =? 0); [done|]. pose proof (ds_pos (D := D)) as Hpos. fold hlen in Hpos.
  destruct (Z.ltb_spec ((2 ^ 32 - 1) * Z.of_nat hlen) (zlen out)) as [Hl|Hl].
  - rewrite (proj2 (Z.ltb_lt _ _)) by lia. done.
  - rewrite (proj2 (Z.ltb_ge _ _)) by lia. f_equal. unfold derive_blocks. fold hlen.
    pose proof (length_chunks_mut hlen Hpos (length out) out) as Hc. fold (chunks_mut hlen out) in Hc. cbv zeta.
    rewrite (take_ge (chunks_mut hlen out)) by (unfold zlen in *; nia).
    apply chunks_mut_stream; [done|intros; apply (length_F D)|]. intros i c Hc'. rewrite (derive_block_spec D) by done. do 2 f_equal. lia.
Qed.

(** The single-step KDF is that of SP 800-56A: the first bytes of the hashes of counter,
    secret and the concatenated info. *)
Lemma absorbed_stream D `{DigestSpec D} l : ∀ (self : D) m, absorbed self m → absorbed (foldl d_update self l) (m ++ concat l).
Proof.
  induction l as [|x l IH]; intros self m Hm; cbn [foldl concat]; [by rewrite app_nil_r|]. rewrite app_assoc. by apply IH, ds_update.
Qed.

Lemma concat_kdf_sp800_56a D `{DigestSpec D} z info out : zlen out ≤ (2 ^ 32 - 1) * Z.of_nat (OUTPUT_LEN (D := D)) →
  concat_kdf D z info out = Ok (block_stream (λ i, hash_of (D := D) (be_bytes 4 (Z.of_nat i) ++ z ++ concat info)) (OUTPUT_LEN (D := D)) (length out)).
Proof.
  intros Hl. unfold concat_kdf. pose proof (ds_pos (D := D)) as Hpos.
  assert ((zlen out + Z.of_nat OUTPUT_LEN - 1) / Z.of_nat OUTPUT_LEN ≤ 2 ^ 32 - 1) as Hr.
  { apply Z.lt_succ_r. apply Z.div_lt_upper_bound; lia. }
  rewrite (proj2 (Z.ltb_ge _ _)) by exact Hr. f_equal. apply chunks_mut_stream; [done|intros; apply ds_output|].
  intros i c Hc. unfold concat_chunk. f_equal. replace (Z.of_nat (S i)) with (Z.of_nat i + 1) by lia. apply ds_finalize.
  rewrite app_assoc. apply absorbed_stream, ds_update. apply absorbed_once.
Qed.

(** * KBKDF is SP 800-108 *)

(** What a PRF promises: it computes a function of the key and the bytes fed since the
    last block. *)
Class PrfSpec (P : Type) `{Prf P} := {
  prf_of : bytes → bytes → bytes;
  prf_fed : P → bytes → bytes → Prop;
  ps_output ki m : length (prf_of ki m) = PRF_OUTPUT_LEN;
  ps_init ki s : prf_try_init ki = Ok s → prf_fed s ki [];
  ps_update s ki m data : prf_fed s ki m → prf_fed (prf_update s data) ki (m ++ data);
  ps_finalize s ki m : prf_fed s ki m → (prf_finalize s).1 = prf_of ki m ∧ prf_fed (prf_finalize s).2 ki [] }.

#[export] Program Instance hmac_prf_spec D `{DigestSpec D} : PrfSpec (HmacPrf D) := {|
  prf_of ki m := hmac_of (D := D) ki m;
  prf_fed s ki m := keyed (hp_template s) ki [] ∧ keyed (hp_mac s) ki m |}.
Next Obligation. intros. apply ds_output. Qed.
Next Obligation. intros D ? ? ki s Hs. cbn in Hs. inv_result. split; apply hmac_new_keyed. Qed.
Next Obligation. intros D ? ? s ki m data [Ht Hm]. split; [done|]. by apply hmac_update_keyed. Qed.
Next Obligation. intros D ? ? s ki m [Ht Hm]. split; [by apply hmac_finalize_keyed|done]. Qed.

Section sp800_108.
Context (P : Type) `{PrfSpec P}.

(** [K(i) = PRF(KI, K(i-1) || input i)], with [K(0)] and the input of block [i] given;
    counter mode takes nothing from the block before. *)
Fixpoint sp800_108_K (ki : bytes) (prefix : bytes → nat → bytes) (i : nat) : bytes :=
  match i with O => [] | S j => prf_of (P := P) ki (prefix (sp800_108_K ki prefix j) i) end.

Definition K_block (ki : bytes) (prefix : bytes → nat → bytes) (i : nat) : bytes := sp800_108_K ki prefix (S (pred i)).

(** The derived keying material. *)
Definition sp800_108 (ki : bytes) (prefix : bytes → nat → bytes) (len : nat) : bytes :=
  block_stream (K_block ki prefix) (PRF_OUTPUT_LEN (P := P)) len.

Lemma kb_loop_spec feed prefix ki prf blocks out : (0 < PRF_OUTPUT_LEN (P := P))%nat → prf_fed prf ki [] →
  (∀ s prev i, prf_fed s ki [] → prf_fed (feed s prev (Z.of_nat i)) ki (prefix prev i)) →
  (length out ≤ Z.to_nat blocks * PRF_OUTPUT_LEN (P := P))%nat →
  kb_loop P feed prf blocks out = sp800_108 ki prefix (length out).
Proof using Type*.
  intros Hpos Hfed Hfeed Hb. unfold kb_loop, sp800_108. set (h := PRF_OUTPUT_LEN (P := P)) in *. set (len := length out).
  assert (∀ i, length (K_block ki prefix i) = h) as Hlen by (intros; apply ps_output).
  assert (∀ n, ∃ prf', prf_fed prf' ki [] ∧ foldl (kb_round P feed) (prf, [], 0%nat, out) (seq 1 n)
    = (prf', sp800_108_K ki prefix n, ((n * h) `min` len)%nat, partly (K_block ki prefix) h out ((n * h) `min` len))) as Hloop.
  { induction n as [|n (prf' & Hf & IH)].
    - exists prf. split; [done|]. unfold partly. cbn [Nat.mul Nat.min seq foldl sp800_108_K]. by rewrite take_0, drop_0.
    - rewrite seq_S, foldl_app, IH. change (1 + n)%nat with (S n). cbn [foldl]. unfold kb_round.
      pose proof (Hfeed prf' (sp800_108_K ki prefix n) (S n) Hf) as Hf'.
      destruct (ps_finalize _ _ _ Hf') as [E1 E2]. destruct (prf_finalize _) as [block prf'']. cbn [fst snd] in E1, E2.
      exists prf''. split; [done|]. rewrite E1. rewrite (length_partly (K_block ki prefix) h) by (done || (fold len; lia)). fold len h.
      destruct (write_block (K_block ki prefix) h Hpos Hlen out n) as [W1 W2]. fold len in W1, W2. cbv zeta in W1, W2.
      change (prf_of ki (prefix (sp800_108_K ki prefix n) (S n))) with (K_block ki prefix (S n)). rewrite W1, W2. done. }
  destruct (Hloop (Z.to_nat blocks)) as (prf' & _ & ->). cbn [snd]. rewrite Nat.min_r by (fold len in Hb; lia). unfold partly. fold len.
  rewrite drop_ge, app_nil_r by done. apply take_ge. rewrite length_block_stream by done. done.
Qed.

(** The checks before any block is derived. *)
Lemma block_count_spec len : let h := PRF_OUTPUT_LEN (P := P) in
  match block_count len h with
  | Ok blocks => (0 < h ≤ 64)%nat ∧ (0 < len)%nat ∧ Z.of_nat len ≤ (2 ^ 32 - 1) * Z.of_nat h ∧ (len ≤ Z.to_nat blocks * h)%nat
  | Err UnsupportedPrfOutput => h = 0%nat ∨ (64 < h)%nat
  | Err ZeroLength => len = 0%nat
  | Err KbkdfOutputTooLong => (2 ^ 32 - 1) * Z.of_nat h < Z.of_nat len
  | Err InvalidKeyLength => False
  end.
Proof using Type.
  intros h. unfold block_count, MAX_PRF_OUTPUT. destruct (Nat.eqb_spec h 0) as [|H1]; [by left|]. destruct (Nat.ltb_spec 64 h) as [|H2]; [by right|]. cbn [orb].
  destruct (Nat.eqb_spec len 0) as [|H3]; [done|]. pose proof (Z.div_mod (Z.of_nat len + Z.of_nat h - 1) (Z.of_nat h) ltac:(lia)) as Hd.
  pose proof (Z.mod_pos_bound (Z.of_nat len + Z.of_nat h - 1) (Z.of_nat h) ltac:(lia)) as Hm.
  set (q := (Z.of_nat len + Z.of_nat h - 1) / Z.of_nat h) in *. destruct (Z.ltb_spec (2 ^ 32 - 1) q); [nia|]. split_and!; nia.
Qed.

(** Section 4.1: [K(i) = PRF(KI, [i] || fixed)]. *)
Definition counter_K (ki fixed : bytes) (i : nat) : bytes := prf_of (P := P) ki (be_bytes 4 (Z.of_nat i) ++ fixed).

(** Section 4.2: [K(0) = IV], [K(i) = PRF(KI, K(i-1) || [i] || fixed)]. *)
Fixpoint feedback_K (ki iv fixed : bytes) (i : nat) : bytes :=
  match i with O => iv | S j => prf_of (P := P) ki (feedback_K ki iv fixed j ++ be_bytes 4 (Z.of_nat i) ++ fixed) end.

Lemma block_stream_ext f g h len : (∀ i, (0 < i)%nat → f i = g i) → block_stream f h len = block_stream g h len.
Proof. intros Hfg. unfold block_stream. do 2 f_equal. apply list_fmap_ext. intros k x Hx. apply lookup_seq in Hx as [-> _]. apply Hfg. lia. Qed.

Lemma counter_stream ki fixed len :
  sp800_108 ki (λ _ i, be_bytes 4 (Z.of_nat i) ++ fixed) len = block_stream (counter_K ki fixed) (PRF_OUTPUT_LEN (P := P)) len.
Proof using Type. apply block_stream_ext. intros [|i] Hi; [lia|done]. Qed.

Lemma feedback_stream ki iv fixed len :
  sp800_108 ki (λ prev i, (if Z.of_nat i =? 1 then iv else prev) ++ be_bytes 4 (Z.of_nat i) ++ fixed) len
  = block_stream (feedback_K ki iv fixed) (PRF_OUTPUT_LEN (P := P)) len.
Proof using Type.
  apply block_stream_ext. intros [|i] Hi; [lia|]. unfold K_block. cbn [pred]. clear Hi.
  induction i as [|i IH]; [done|]. cbn [sp800_108_K feedback_K] in *. rewrite IH.
  destruct (Z.eqb_spec (Z.of_nat (S (S i))) 1); [lia|]. done.
Qed.

(** The loop behind its checks. *)
Lemma kb_checked (check : result KbkdfError Z) feed prefix ki out :
  (∀ l s prev i, check = Ok l → prf_fed s ki [] → prf_fed (feed l s prev (Z.of_nat i)) ki (prefix l prev i)) →
  (blocks ← block_count (length out) (PRF_OUTPUT_LEN (P := P)); l ← check; prf ← prf_try_init ki; Ok (kb_loop P (feed l) prf blocks out))
  = (_ ← block_count (length out) (PRF_OUTPUT_LEN (P := P)); l ← check; _ ← prf_try_init (P := P) ki; Ok (sp800_108 ki (prefix l) (length out))).
Proof using Type*.
  intros Hfeed. pose proof (block_count_spec (length out)) as Hb. cbv zeta in Hb. destruct (block_count _ _) as [blocks|e]; [|done].
  destruct Hb as (Hh & Hl & _ & Hn). cbn [mbind result_bind]. destruct check as [l|e] eqn:El; [|done]. cbn [mbind result_bind].
  destruct (prf_try_init ki) as [prf|e] eqn:Ei; [|done]. cbn [mbind result_bind]. f_equal.
  apply kb_loop_spec; [lia|by apply ps_init|intros; by apply Hfeed|done].
Qed.

Lemma feed_fixed_fed (s : P) ki m label context l : prf_fed s ki m →
  prf_fed (feed_fixed_input P s label context l) ki (m ++ label ++ [0] ++ context ++ be_bytes 4 l).
Proof using Type*. intros Hs. unfold feed_fixed_input. rewrite !app_assoc. by repeat apply ps_update. Qed.

Lemma feed_iter_fed (s : P) ki iv prev i : prf_fed s ki [] →
  prf_fed (feed_iter P iv s prev i) ki ((if i =? 1 then iv else prev) ++ be_bytes 4 i).
Proof using Type*. intros Hs. unfold feed_iter. apply ps_update. destruct (i =? 1); by apply (ps_update _ _ []). Qed.
End sp800_108.


(** * Known answers *)

(** RFC 5869, test case 1: 42 bytes, two blocks. *)
Definition hkdf_salt : bytes := [0x00; 0x01; 0x02; 0x03; 0x04; 0x05; 0x06; 0x07; 0x08; 0x09; 0x0a; 0x0b; 0x0c].
Definition hkdf_info : bytes := [0xf0; 0xf1; 0xf2; 0xf3; 0xf4; 0xf5; 0xf6; 0xf7; 0xf8; 0xf9].

Lemma hkdf_rfc5869_witness :
  try_hkdf Sha256 hkdf_salt (replicate 22 0x0b) hkdf_info (replicate 42 0)
    = Ok (rfc5869_okm Sha256 (rfc5869_prk Sha256 hkdf_salt (replicate 22 0x0b)) hkdf_info 42)
  ∧ try_hkdf Sha256 hkdf_salt (replicate 22 0x0b) hkdf_info (replicate 42 0) = Ok
    [0x3c; 0xb2; 0x5f; 0x25; 0xfa; 0xac; 0xd5; 0x7a; 0x90; 0x43; 0x4f; 0x64; 0xd0; 0x36; 0x2f; 0x2a; 0x2d; 0x2d; 0x0a;
     0x90; 0xcf; 0x1a; 0x5a; 0x4c; 0x5d; 0xb0; 0x2d; 0x56; 0xec; 0xc4; 0xc5; 0xbf; 0x34; 0x00; 0x72; 0x08; 0xd5; 0xb8;
     0x87; 0x18; 0x58; 0x65].
Proof.
  split; [exact (proj1 (hkdf_rfc5869 Sha256 hkdf_salt (replicate 22 0x0b) hkdf_info [] [] (replicate 42 0)))|vm_compute; reflexivity].
Defined.

(** "passwd" and "salt", two iterations, 40 bytes. *)
Definition passwd : bytes := [0x70; 0x61; 0x73; 0x73; 0x77; 0x64].
Definition salt4 : bytes := [0x73; 0x61; 0x6c; 0x74].

Lemma pbkdf2_rfc8018_witness :
  try_pbkdf2 Sha256 passwd salt4 2 (replicate 40 0)
    = Ok (block_stream (λ i, rfc8018_F Sha256 passwd salt4 2 (Z.of_nat i)) 32 40)
  ∧ try_pbkdf2 Sha256 passwd salt4 2 (replicate 40 0) = Ok
    [0x2d; 0x41; 0x2f; 0x89; 0x6e; 0x76; 0x68; 0x5e; 0x30; 0xdf; 0x56; 0x9f; 0x0a; 0x74; 0x06; 0x34; 0xe3; 0x1f; 0x03;
     0x1f; 0x74; 0x9d; 0x60; 0x7d; 0x9e; 0x44; 0x21; 0x0b; 0xff; 0xb9; 0x1a; 0x6a; 0xb6; 0x70; 0xf5; 0x00; 0xc7; 0x88;
     0x62; 0x00].
Proof.
  split; [exact (pbkdf2_rfc8018 Sha256 passwd salt4 2 (replicate 40 0) eq_refl)|vm_compute; reflexivity].
Defined.

(** NIST CAVP, counter mode with HMAC-SHA-256. *)
Definition cavp_ki : bytes :=
    [0xdd; 0x1d; 0x91; 0xb7; 0xd9; 0x0b; 0x2b; 0xd3; 0x13; 0x85; 0x33; 0xce; 0x92; 0xb2; 0x72; 0xfb; 0xf8; 0xa3; 0x69;
     0x31; 0x6a; 0xef; 0xe2; 0x42; 0xe6; 0x59; 0xcc; 0x0a; 0xe2; 0x38; 0xaf; 0xe0].
Definition cavp_fixed : bytes :=
    [0x01; 0x32; 0x2b; 0x96; 0xb3; 0x0a; 0xcd; 0x19; 0x79; 0x79; 0x44; 0x4e; 0x46; 0x8e; 0x1c; 0x5c; 0x68; 0x59; 0xbf;
     0x1b; 0x1c; 0xf9; 0x51; 0xb7; 0xe7; 0x25; 0x30; 0x3e; 0x23; 0x7e; 0x46; 0xb8; 0x64; 0xa1; 0x45; 0xfa; 0xb2; 0x5e;
     0x51; 0x7b; 0x08; 0xf8; 0x68; 0x3d; 0x03; 0x15; 0xbb; 0x29; 0x11; 0xd8; 0x0a; 0x0e; 0x8a; 0xba; 0x17; 0xf3; 0xb4;
     0x13; 0xfa; 0xac].

