(* ===== verification/Drbg.v ===== *)
(** HMAC-DRBG ([src/rng/hmac_drbg.rs]) over any hasher: instantiation, reseeding and
    generation, with the split of long requests, refine the generator of SP 800-90A. *)

From S2P Require Import Prelude Ct MdHash Hmac Sha2 MdFamily Hashers Kdf.

(** * The generator *)

Record HmacDrbg (D : Type) := mkHmacDrbg { dr_keyed : Hmac D; dr_v : bytes; dr_reseed_counter : Z }.
Arguments mkHmacDrbg {_} _ _ _.
Arguments dr_keyed {_} _.
Arguments dr_v {_} _.
Arguments dr_reseed_counter {_} _.

Definition RESEED_INTERVAL : Z := 2 ^ 48.
Definition MAX_BYTES_PER_REQUEST : nat := Z.to_nat (2 ^ 16).

Section drbg.
Context {D : Type} `{Digest D}.
Implicit Types self : HmacDrbg D.

Definition mac_v self : bytes := mac_parts (dr_keyed self) [dr_v self].

(** More than three provided pieces take the streaming route. *)
Definition rekey self (sep : Z) (provided : list bytes) : HmacDrbg D :=
  let parts := replicate 5 [] in
  let parts := <[0%nat := dr_v self]> parts in
  let parts := <[1%nat := [sep]]> parts in
  let n := (length provided `min` 3)%nat in
  let parts := splice parts 2 (take n provided) in
  let k :=
    if (length provided <=? 3)%nat then mac_parts (dr_keyed self) (take (2 + n) parts)
    else
      let mac := foldl hmac_update (dr_keyed self) (take 2 parts) in
      hmac_finalize (foldl hmac_update mac provided) in
  let self := mkHmacDrbg (hmac_new k) (dr_v self) (dr_reseed_counter self) in
  mkHmacDrbg (dr_keyed self) (mac_v self) (dr_reseed_counter self).

Definition drbg_update self (provided : list bytes) : HmacDrbg D :=
  let self := rekey self 0x00 provided in
  if existsb (λ p, negb (is_nil p)) provided then rekey self 0x01 provided else self.

(** [None]: the assertion on the entropy fails. *)
Definition drbg_new (entropy nonce personalization : bytes) : option (HmacDrbg D) :=
  if is_nil entropy then None
  else
    let k := replicate OUTPUT_LEN 0 in
    let v := replicate OUTPUT_LEN 0x01 in
    Some (drbg_update (mkHmacDrbg (hmac_new k) v 1) [entropy; nonce; personalization]).

Definition drbg_reseed self (entropy additional : bytes) : option (HmacDrbg D) :=
  if is_nil entropy then None
  else
    let self := drbg_update self [entropy; additional] in
    Some (mkHmacDrbg (dr_keyed self) (dr_v self) 1).

(** The [while filled < out.len()] loop. *)
Fixpoint drbg_fill (fuel : nat) self (filled : nat) (out : bytes) : HmacDrbg D * bytes :=
  match fuel with
  | O => (self, out)
  | S fuel =>
      if (filled <? length out)%nat then
        let self := mkHmacDrbg (dr_keyed self) (mac_v self) (dr_reseed_counter self) in
        let block := dr_v self in
        let n := ((length out - filled) `min` length block)%nat in
        drbg_fill fuel self (filled + n) (splice out filled (take n block))
      else (self, out)
  end.

(** [None]: the reseed interval is over. *)
Definition generate_request self (out additional : bytes) : option (HmacDrbg D * bytes) :=
  if negb (dr_reseed_counter self <? RESEED_INTERVAL) then None
  else
    let self := if is_nil additional then self else drbg_update self [additional] in
    let '(self, out) := drbg_fill (length out) self 0 out in
    let self := drbg_update self [additional] in
    Some (mkHmacDrbg (dr_keyed self) (dr_v self) (wadd 64 (dr_reseed_counter self) 1), out).

(** The loop over the chunks; [additional] goes to the first. *)
Fixpoint generate_chunks self (additional : bytes) (chunks : list bytes) : option (HmacDrbg D * list bytes) :=
  match chunks with
  | [] => Some (self, [])
  | chunk :: chunks =>
      '(self, b) ← generate_request self chunk additional;
      '(self, bs) ← generate_chunks self [] chunks;
      Some (self, b :: bs)
  end.

Definition generate self (out additional : bytes) : option (HmacDrbg D * bytes) :=
  if (length out <=? MAX_BYTES_PER_REQUEST)%nat then generate_request self out additional
  else
    '(self, bs) ← generate_chunks self additional (chunks_mut MAX_BYTES_PER_REQUEST out);
    Some (self, concat bs).

(** [RngCore::fill_bytes] *)
Definition drbg_fill_bytes self (dest : bytes) : option (HmacDrbg D * bytes) := generate self dest [].

(** A use of a generator: reseeding and filling buffers in any order. *)
Inductive Call := CReseed (entropy additional : bytes) | CGenerate (out additional : bytes).

Fixpoint drbg_run self (calls : list Call) : option (list bytes) :=
  match calls with
  | [] => Some []
  | CReseed entropy additional :: calls => self ← drbg_reseed self entropy additional; drbg_run self calls
  | CGenerate out additional :: calls =>
      '(self, out) ← generate self out additional;
      outs ← drbg_run self calls;
      Some (out :: outs)
  end.
End drbg.

(** * SP 800-90A, section 10.1.2 *)

(** [Key], [V] and the reseed counter. *)
Record Sp90A := mkSp { sp_K : bytes; sp_V : bytes; sp_counter : Z }.

(** A buffer is served by requests of at most [2^19] bits. *)
Definition requests (len : nat) : list nat :=
  if (len <=? MAX_BYTES_PER_REQUEST)%nat then [len]
  else
    let r := (len mod MAX_BYTES_PER_REQUEST)%nat in
    replicate (len / MAX_BYTES_PER_REQUEST) MAX_BYTES_PER_REQUEST ++ (if (r =? 0)%nat then [] else [r]).

Section sp800_90a.
Context (D : Type) `{DigestSpec D}.

Definition sp_update (provided : bytes) (K V : bytes) : bytes * bytes :=
  let K := hmac_of (D := D) K (V ++ [0x00] ++ provided) in
  let V := hmac_of (D := D) K V in
  if is_nil provided then (K, V)
  else
    let K := hmac_of (D := D) K (V ++ [0x01] ++ provided) in
    (K, hmac_of (D := D) K V).

Definition sp_instantiate (entropy nonce personalization : bytes) : Sp90A :=
  let '(K, V) := sp_update (entropy ++ nonce ++ personalization) (replicate OUTPUT_LEN 0x00) (replicate OUTPUT_LEN 0x01) in
  mkSp K V 1.

Definition sp_reseed (s : Sp90A) (entropy additional : bytes) : Sp90A :=
  let '(K, V) := sp_update (entropy ++ additional) (sp_K s) (sp_V s) in mkSp K V 1.

(** The leftmost [len] bytes of [V_1 || V_2 || ...] with [V_i = HMAC(K, V_(i-1))]. *)
Definition sp_generate (s : Sp90A) (len : nat) (additional : bytes) : option (Sp90A * bytes) :=
  if RESEED_INTERVAL <=? sp_counter s then None
  else
    let '(K, V) := if is_nil additional then (sp_K s, sp_V s) else sp_update additional (sp_K s) (sp_V s) in
    let Vi i := Nat.iter i (hmac_of (D := D) K) V in
    let h := OUTPUT_LEN (D := D) in
    let blocks := ((len + h - 1) / h)%nat in
    let '(K', V') := sp_update additional K (Vi blocks) in
    Some (mkSp K' V' (sp_counter s + 1), take len (concat (Vi <$> seq 1 blocks))).

(** A buffer; the additional input goes to its first request. *)
Fixpoint sp_requests (s : Sp90A) (lens : list nat) (additional : bytes) : option (Sp90A * bytes) :=
  match lens with
  | [] => Some (s, [])
  | len :: lens =>
      '(s, b) ← sp_generate s len additional;
      '(s, bs) ← sp_requests s lens [];
      Some (s, b ++ bs)
  end.

Fixpoint sp_run (s : Sp90A) (calls : list Call) : option (list bytes) :=
  match calls with
  | [] => Some []
  | CReseed entropy additional :: calls =>
      if is_nil entropy then None else sp_run (sp_reseed s entropy additional) calls
  | CGenerate out additional :: calls =>
      '(s, b) ← sp_requests s (requests (length out)) additional;
      outs ← sp_run s calls;
      Some (b :: outs)
  end.

(** * Refinement *)

Definition refines (self : HmacDrbg D) (s : Sp90A) : Prop :=
  keyed (dr_keyed self) (sp_K s) [] ∧ dr_v self = sp_V s ∧ length (sp_V s) = OUTPUT_LEN (D := D)
  ∧ dr_reseed_counter self = sp_counter s ∧ 0 ≤ sp_counter s ≤ RESEED_INTERVAL.

Lemma rekey_refines self s sep provided : refines self s →
  let K := hmac_of (D := D) (sp_K s) (sp_V s ++ [sep] ++ concat provided) in
  refines (rekey self sep provided) (mkSp K (hmac_of (D := D) K (sp_V s)) (sp_counter s)).
Proof using Type*.
  intros (Hk & Hv & Hl & Hc & Hr) K. unfold rekey. cbn [dr_keyed dr_v dr_reseed_counter].
  match goal with |- context [hmac_new ?k] => assert (k = K) as -> end.
  { subst K. rewrite Hv. destruct (Nat.leb_spec (length provided) 3) as [Hp|Hp].
    - rewrite (mac_parts_keyed _ _ _ _ Hk). f_equal. destruct provided as [|? [|? [|? [|? ?]]]]; [| | | |cbn in Hp; lia]; cbn; by rewrite ?app_nil_r.
    - rewrite (hmac_finalize_keyed _ (sp_K s) (([] ++ concat [sp_V s; [sep]]) ++ concat provided)).
      + cbn. by rewrite <- !app_assoc.
      + apply hmac_stream_keyed. by apply (hmac_stream_keyed [sp_V s; [sep]]). }
  unfold refines, mac_v. cbn [dr_keyed dr_v dr_reseed_counter sp_K sp_V sp_counter].
  rewrite (mac_parts_keyed _ K []) by apply hmac_new_keyed. cbn [concat app]. rewrite app_nil_r, Hv, length_hmac_of.
  split_and!; try done; try lia. apply hmac_new_keyed.
Qed.

Lemma existsb_concat (provided : list bytes) : existsb (λ p, negb (is_nil p)) provided = negb (is_nil (concat provided)).
Proof. induction provided as [|[|x p] l IH]; [done|done|done]. Qed.

Lemma update_refines self s provided : refines self s →
  let '(K, V) := sp_update (concat provided) (sp_K s) (sp_V s) in
  refines (drbg_update self provided) (mkSp K V (sp_counter s)).
Proof using Type*.
  intros Hr. unfold drbg_update, sp_update. rewrite existsb_concat.
  pose proof (rekey_refines self s 0x00 provided Hr) as Hf. destruct (is_nil (concat provided)); cbn [negb]; [exact Hf|].
  exact (rekey_refines _ _ 0x01 provided Hf).
Qed.

(** The generator after [i] output blocks. *)
Definition at_block (self : HmacDrbg D) (K V : bytes) (i : nat) : HmacDrbg D :=
  mkHmacDrbg (dr_keyed self) (Nat.iter i (hmac_of (D := D) K) V) (dr_reseed_counter self).

Definition fill_step (self : HmacDrbg D) : HmacDrbg D * bytes :=
  let self := mkHmacDrbg (dr_keyed self) (mac_v self) (dr_reseed_counter self) in (self, dr_v self).

Lemma fill_step_at self K V i : keyed (dr_keyed self) K [] →
  fill_step (at_block self K V i) = (at_block self K V (S i), Nat.iter (S i) (hmac_of (D := D) K) V).
Proof using Type*.
  intros Hk. unfold fill_step, mac_v, at_block. cbn [dr_keyed dr_v dr_reseed_counter].
  rewrite (mac_parts_keyed _ K []) by done. cbn [concat app]. by rewrite app_nil_r.
Qed.

Lemma drbg_fill_bytes_eq fuel : ∀ (self : HmacDrbg D) filled out,
  (drbg_fill fuel self filled out).2 = fill_loop fill_step fuel self filled out.
Proof using Type. induction fuel as [|fuel IH]; intros self filled out; [done|]. cbn [drbg_fill fill_loop]. destruct (_ <? _)%nat; [apply IH|done]. Qed.

Lemma drbg_fill_state self K V out : keyed (dr_keyed self) K [] → length V = OUTPUT_LEN (D := D) →
  let h := OUTPUT_LEN (D := D) in
  (drbg_fill (length out) (at_block self K V 0) 0 out).1 = at_block self K V ((length out + h - 1) / h).
Proof using Type*.
  intros Hk HV h. set (blocks := ((length out + h - 1) / h)%nat). pose proof (ds_pos (D := D)) as Hh. fold h in Hh.
  assert (length out ≤ blocks * h < length out + h)%nat as Hb.
  { pose proof (Nat.div_mod_eq (length out + h - 1) h). pose proof (Nat.mod_upper_bound (length out + h - 1) h). unfold blocks. lia. }
  assert (∀ fuel i o, length o = length out → (i ≤ blocks)%nat → (length out - (i * h) `min` length out ≤ fuel)%nat →
    (drbg_fill fuel (at_block self K V i) ((i * h) `min` length out) o).1 = at_block self K V blocks) as Hg.
  { induction fuel as [|fuel IH]; intros i o Ho Hi Hf; cbn [drbg_fill].
    - assert (i = blocks) as -> by nia. done.
    - rewrite Ho. destruct (Nat.ltb_spec ((i * h) `min` length out) (length out)) as [Hlt|Hge].
      + pose proof (fill_step_at self K V i Hk) as Hs. unfold fill_step in Hs. injection Hs as -> _.
        change (mkHmacDrbg (dr_keyed (at_block self K V i)) _ _) with (at_block self K V (S i)).
        assert (length (dr_v (at_block self K V (S i))) = h) as Hl by (cbn [at_block dr_v Nat.iter]; apply length_hmac_of).
        rewrite Hl. match goal with |- context [drbg_fill _ _ ?a ?s] => replace a with ((S i * h) `min` length out)%nat by lia; apply IH end.
        * rewrite length_splice by (rewrite length_take, Hl; lia). done.
        * nia.
        * nia.
      + assert (i = blocks) as -> by nia. done. }
  apply (Hg (length out) 0%nat out); [done|lia|lia].
Qed.

Lemma generate_request_refines self s out additional : refines self s →
  match sp_generate s (length out) additional with
  | None => generate_request self out additional = None
  | Some (s', b) => ∃ self', generate_request self out additional = Some (self', b) ∧ refines self' s'
  end.
Proof using Type*.
  intros Href. pose proof Href as (_ & _ & _ & Hc & Hrange). unfold sp_generate, generate_request. rewrite Hc.
  destruct (Z.leb_spec RESEED_INTERVAL (sp_counter s)) as [Hge|Hlt].
  { by rewrite (proj2 (Z.ltb_ge _ _) Hge). }
  rewrite (proj2 (Z.ltb_lt _ _) Hlt). cbn [negb].
  assert (∃ K V, (if is_nil additional then (sp_K s, sp_V s) else sp_update additional (sp_K s) (sp_V s)) = (K, V)
    ∧ refines (if is_nil additional then self else drbg_update self [additional]) (mkSp K V (sp_counter s))) as (K & V & -> & Hr1).
  { destruct (is_nil additional); [exists (sp_K s), (sp_V s); split; [done|by destruct s]|].
    pose proof (update_refines self s [additional] Href) as Hu. cbn [concat] in Hu. rewrite app_nil_r in Hu.
    destruct (sp_update additional (sp_K s) (sp_V s)) as [K V]. by exists K, V. }
  set (self1 := if is_nil additional then self else drbg_update self [additional]) in *.
  pose proof Hr1 as (Hk & Hv & HV & Hc1 & _). cbn [sp_K sp_V sp_counter] in *.
  assert (at_block self1 K V 0 = self1) as Ea by (unfold at_block; cbn [Nat.iter]; rewrite <- Hv; by destruct self1).
  pose proof (drbg_fill_state self1 K V out Hk HV) as E1. pose proof (drbg_fill_bytes_eq (length out) self1 0 out) as E2.
  rewrite Ea in E1. destruct (drbg_fill (length out) self1 0 out) as [self2 o]. cbn [fst snd] in E1, E2. cbv zeta in E1.
  set (blocks := ((length out + OUTPUT_LEN - 1) / OUTPUT_LEN)%nat) in *.
  assert (o = take (length out) (concat ((λ i, Nat.iter i (hmac_of (D := D) K) V) <$> seq 1 blocks))) as ->.
  { rewrite E2, <- Ea. apply (fill_loop_stream (λ i, Nat.iter i (hmac_of (D := D) K) V) OUTPUT_LEN ds_pos) with (st := at_block self1 K V).
    - intros [|i]; cbn [Nat.iter nat_rect]; [done|apply length_hmac_of].
    - intros i _. by apply fill_step_at. }
  assert (refines self2 (mkSp K (Nat.iter blocks (hmac_of (D := D) K) V) (sp_counter s))) as Hr2.
  { subst self2. unfold refines, at_block. cbn [dr_keyed dr_v dr_reseed_counter sp_K sp_V sp_counter]. split_and!; try done; try lia.
    destruct blocks; cbn [Nat.iter nat_rect]; [done|apply length_hmac_of]. }
  pose proof (update_refines self2 _ [additional] Hr2) as Hu. cbn [concat sp_K sp_V sp_counter] in Hu. rewrite app_nil_r in Hu.
  destruct (sp_update additional K _) as [K' V']. eexists. split; [done|].
  destruct Hu as (Hk' & Hv' & Hl' & Hc' & _). unfold refines. cbn [dr_keyed dr_v dr_reseed_counter sp_K sp_V sp_counter] in *.
  rewrite Hc'. split_and!; try done; try lia. apply wrap_small. unfold in_width, RESEED_INTERVAL in *. lia.
Qed.

Lemma generate_chunks_refines chunks : ∀ self s additional, refines self s →
  match sp_requests s (length <$> chunks) additional with
  | None => generate_chunks self additional chunks = None
  | Some (s', b) => ∃ self' bs, generate_chunks self additional chunks = Some (self', bs) ∧ concat bs = b ∧ refines self' s'
  end.
Proof using Type*.
  induction chunks as [|c chunks IH]; intros self s additional Hr; cbn [fmap list_fmap sp_requests generate_chunks]; [by eexists _, _|].
  pose proof (generate_request_refines self s c additional Hr) as Hg.
  destruct (sp_generate s (length c) additional) as [[s1 b]|]; cbn [mbind option_bind]; [|by rewrite Hg].
  destruct Hg as (self1 & -> & Hr1). cbn [mbind option_bind]. specialize (IH self1 s1 [] Hr1).
  destruct (sp_requests s1 (length <$> chunks) []) as [[s2 b2]|]; cbn [mbind option_bind]; [|by rewrite IH].
  destruct IH as (self2 & bs & -> & <- & Hr2). by eexists _, _.
Qed.

Lemma chunks_mut_lengths n fuel : (0 < n)%nat → ∀ l, (length l ≤ fuel)%nat →
  length <$> chunks_mut_loop fuel n l
  = replicate (length l / n) n ++ (if (length l mod n =? 0)%nat then [] else [(length l mod n)%nat]).
Proof using Type.
  intros Hn. induction fuel as [|fuel IH]; intros l Hl.
  - destruct l; [|cbn in Hl; lia]. cbn [length chunks_mut_loop]. by rewrite Nat.Div0.div_0_l, Nat.Div0.mod_0_l.
  - cbn [chunks_mut_loop]. destruct l as [|x l'] eqn:El; [cbn [is_nil length]; by rewrite Nat.Div0.div_0_l, Nat.Div0.mod_0_l|].
    rewrite <- El in *. assert (is_nil l = false) as -> by (by subst). assert (length l ≠ 0)%nat as Hne by (subst; done).
    cbn [fmap list_fmap]. rewrite IH by (rewrite length_drop; lia). rewrite length_take, length_drop.
    destruct (Nat.le_gt_cases n (length l)) as [Hge|Hlt].
    + rewrite Nat.min_l by done. assert (length l / n = S ((length l - n) / n) ∧ length l mod n = (length l - n) mod n)%nat as [-> ->]; [|done].
      assert (length l = (length l - n) + 1 * n)%nat as E by lia. rewrite E at 1 3. rewrite Nat.div_add, Nat.Div0.mod_add by lia. lia.
    + rewrite Nat.min_r by lia. replace (length l - n)%nat with 0%nat by lia. rewrite Nat.Div0.div_0_l, Nat.Div0.mod_0_l.
      rewrite Nat.div_small, Nat.mod_small by lia. by destruct (Nat.eqb_spec (length l) 0).
Qed.

Lemma max_request_pos : (0 < MAX_BYTES_PER_REQUEST)%nat.
Proof using Type. unfold MAX_BYTES_PER_REQUEST. lia. Qed.

Lemma generate_refines self s out additional : refines self s →
  match sp_requests s (requests (length out)) additional with
  | None => generate self out additional = None
  | Some (s', b) => ∃ self', generate self out additional = Some (self', b) ∧ refines self' s'
  end.
Proof using Type*.
  intros Hr. unfold generate, requests. destruct (_ <=? _)%nat.
  - pose proof (generate_request_refines self s out additional Hr) as Hg. cbn [sp_requests].
    destruct (sp_generate s (length out) additional) as [[s1 b]|]; cbn [mbind option_bind]; [|done]. by rewrite app_nil_r.
  - cbv zeta. rewrite <- (chunks_mut_lengths MAX_BYTES_PER_REQUEST (length out)) by (apply max_request_pos || lia).
    pose proof (generate_chunks_refines (chunks_mut MAX_BYTES_PER_REQUEST out) self s additional Hr) as Hg. fold (chunks_mut MAX_BYTES_PER_REQUEST out).
    destruct (sp_requests _ _ _) as [[s1 b]|]; [|by rewrite Hg]. destruct Hg as (self1 & bs & -> & <- & Hr1). by eexists.
Qed.

Lemma run_refines calls : ∀ self s, refines self s → drbg_run self calls = sp_run s calls.
Proof using Type*.
  induction calls as [|[entropy additional|out additional] calls IH]; intros self s Hr; [done|..]; cbn [drbg_run sp_run].
  - unfold drbg_reseed, sp_reseed. destruct (is_nil entropy); [done|]. cbn [mbind option_bind].
    pose proof (update_refines self s [entropy; additional] Hr) as Hu. cbn [concat] in Hu. rewrite app_nil_r in Hu.
    destruct (sp_update (entropy ++ additional) _ _) as [K V]. apply IH. destruct Hu as (? & ? & ? & ? & ?).
    unfold refines. cbn [dr_keyed dr_v dr_reseed_counter sp_K sp_V sp_counter] in *. split_and!; done.
  - pose proof (generate_refines self s out additional Hr) as Hg.
    destruct (sp_requests s _ additional) as [[s1 b]|]; cbn [mbind option_bind]; [|by rewrite Hg].
    destruct Hg as (self1 & -> & Hr1). cbn [mbind option_bind]. by rewrite (IH _ _ Hr1).
Qed.

Lemma new_refines entropy nonce personalization :
  drbg_new (D := D) entropy nonce personalization = None ∧ entropy = []
  ∨ ∃ self, drbg_new (D := D) entropy nonce personalization = Some self ∧ refines self (sp_instantiate entropy nonce personalization) ∧ entropy ≠ [].
Proof using Type*.
  unfold drbg_new, sp_instantiate. destruct entropy as [|x e] eqn:Ee; [by left|]. right. rewrite <- Ee. eexists. split; [subst; reflexivity|].
  assert (refines (mkHmacDrbg (hmac_new (replicate OUTPUT_LEN 0)) (replicate OUTPUT_LEN 1) 1) (mkSp (replicate OUTPUT_LEN 0) (replicate OUTPUT_LEN 1) 1)) as Hr.
  { unfold refines. cbn [dr_keyed dr_v dr_reseed_counter sp_K sp_V sp_counter]. split_and!; try done. apply hmac_new_keyed. apply length_replicate. }
  pose proof (update_refines _ _ [entropy; nonce; personalization] Hr) as Hu. cbn [concat sp_K sp_V] in Hu. rewrite app_nil_r in Hu.
  destruct (sp_update _ _ _) as [K V]. split; [exact Hu|by rewrite Ee].
Qed.
End sp800_90a.


(** * Known answer *)

(** NIST CAVP, SHA-256: the second of two buffers of 128 bytes. *)
Definition cavp_entropy : bytes :=
   [0xca; 0x85; 0x19; 0x11; 0x34; 0x93; 0x84; 0xbf; 0xfe; 0x89; 0xde; 0x1c; 0xbd; 0xc4; 0x6e; 0x68; 0x31; 0xe4;
    0x4d; 0x34; 0xa4; 0xfb; 0x93; 0x5e; 0xe2; 0x85; 0xdd; 0x14; 0xb7; 0x1a; 0x74; 0x88].
Definition cavp_nonce : bytes :=
   [0x65; 0x9b; 0xa9; 0x6c; 0x60; 0x1d; 0xc6; 0x9f; 0xc9; 0x02; 0x94; 0x08; 0x05; 0xec; 0x0c; 0xa8].

Example drbg_cavp : (self ← drbg_new (D := Sha256) cavp_entropy cavp_nonce []; drbg_run self [CGenerate (replicate 128 0) []; CGenerate (replicate 128 0) []])
  ≫= last = Some
   [0xe5; 0x28; 0xe9; 0xab; 0xf2; 0xde; 0xce; 0x54; 0xd4; 0x7c; 0x7e; 0x75; 0xe5; 0xfe; 0x30; 0x21; 0x49; 0xf8;
    0x17; 0xea; 0x9f; 0xb4; 0xbe; 0xe6; 0xf4; 0x19; 0x96; 0x97; 0xd0; 0x4d; 0x5b; 0x89; 0xd5; 0x4f; 0xbb; 0x97;
    0x8a; 0x15; 0xb5; 0xc4; 0x43; 0xc9; 0xec; 0x21; 0x03; 0x6d; 0x24; 0x60; 0xb6; 0xf7; 0x3e; 0xba; 0xd0; 0xdc;
    0x2a; 0xba; 0x6e; 0x62; 0x4a; 0xbf; 0x07; 0x74; 0x5b; 0xc1; 0x07; 0x69; 0x4b; 0xb7; 0x54; 0x7b; 0xb0; 0x99;
    0x5f; 0x70; 0xde; 0x25; 0xd6; 0xb2; 0x9e; 0x2d; 0x30; 0x11; 0xbb; 0x19; 0xd2; 0x76; 0x76; 0xc0; 0x71; 0x62;
    0xc8; 0xb5; 0xcc; 0xde; 0x06; 0x68; 0x96; 0x1d; 0xf8; 0x68; 0x03; 0x48; 0x2c; 0xb3; 0x7e; 0xd6; 0xd5; 0xc0;
    0xbb; 0x8d; 0x50; 0xcf; 0x1f; 0x50; 0xd4; 0x76; 0xaa; 0x04; 0x58; 0xbd; 0xab; 0xa8; 0x06; 0xf4; 0x8b; 0xe9;
    0xdc; 0xb8].
Proof. vm_compute. reflexivity. Qed.
