(* ===== verification/Vec.v ===== *)
(** The vector intrinsics of [core::arch] that the ChaCha20 and Poly1305 kernels use, on
    lists of lanes: a [__m512i], [__m256i] or [uint32x4_t] is the list of its 32-bit lanes
    (or, for the 64-bit operations, of its 64-bit lanes), lowest first. *)

From S2P Require Import Prelude MdHash MdFamily HashState.

(** * 32-bit lanes *)

Abbreviation vec := (list Z).

(** [_mm512_add_epi32], [_mm256_add_epi32], [vaddq_u32] *)
Definition add_epi32 (a b : vec) : vec := zip_with (wadd 32) a b.
(** [_mm512_xor_si512], [_mm256_xor_si256], [veorq_u32] and [veorq_u8] *)
Definition xor_si (a b : vec) : vec := zip_with Z.lxor a b.
Definition or_si (a b : vec) : vec := zip_with Z.lor a b.
Definition slli_epi32 (n : Z) (a : vec) : vec := (λ x, wshl 32 x n) <$> a.
Definition srli_epi32 (n : Z) (a : vec) : vec := (λ x, Z.shiftr x n) <$> a.
(** [_mm512_rol_epi32] *)
Definition rol_epi32 (n : Z) (a : vec) : vec := (λ x, rotl x n) <$> a.

(** The interleavings inside each 128-bit lane (four words). *)
Fixpoint unpacklo_epi32 (a b : vec) : vec :=
  match a, b with
  | a0 :: a1 :: _ :: _ :: a, b0 :: b1 :: _ :: _ :: b => a0 :: b0 :: a1 :: b1 :: unpacklo_epi32 a b
  | _, _ => []
  end.
Fixpoint unpackhi_epi32 (a b : vec) : vec :=
  match a, b with
  | _ :: _ :: a2 :: a3 :: a, _ :: _ :: b2 :: b3 :: b => a2 :: b2 :: a3 :: b3 :: unpackhi_epi32 a b
  | _, _ => []
  end.
Fixpoint unpacklo_epi64 (a b : vec) : vec :=
  match a, b with
  | a0 :: a1 :: _ :: _ :: a, b0 :: b1 :: _ :: _ :: b => a0 :: a1 :: b0 :: b1 :: unpacklo_epi64 a b
  | _, _ => []
  end.
Fixpoint unpackhi_epi64 (a b : vec) : vec :=
  match a, b with
  | _ :: _ :: a2 :: a3 :: a, _ :: _ :: b2 :: b3 :: b => a2 :: a3 :: b2 :: b3 :: unpackhi_epi64 a b
  | _, _ => []
  end.

(** The [k]-th 128-bit lane. *)
Definition lane128 (v : vec) (k : Z) : vec := take 4 (drop (4 * Z.to_nat k) v).

(** Two bits of the immediate choose each 128-bit lane: two of [a], then two of [b]. *)
Definition shuffle_i32x4 (imm : Z) (a b : vec) : vec :=
  lane128 a (Z.land imm 3) ++ lane128 a (Z.land (Z.shiftr imm 2) 3)
  ++ lane128 b (Z.land (Z.shiftr imm 4) 3) ++ lane128 b (Z.land (Z.shiftr imm 6) 3).

(** Each half is one of the four halves of the operands, or zero. *)
Definition permute2x128 (imm : Z) (a b : vec) : vec :=
  let half sel := if Z.testbit sel 3 then [0; 0; 0; 0] else lane128 (a ++ b) (Z.land sel 3) in
  half (Z.land imm 15) ++ half (Z.shiftr imm 4).

(** The lanes as bytes in memory, and back. *)
Definition vec_bytes (v : vec) : bytes := concat (le_bytes 4 <$> v).
Definition vec_words (b : bytes) : vec := le_value <$> chunks_exact 4 b.

(** The byte shuffle inside one 128-bit lane: [pshufb] clears a byte whose selector has
    its top bit set and reads the low four bits, [tbl] clears one whose index is past 15. *)
Definition pshufb (x ctl : bytes) : bytes := (λ c, if Z.testbit c 7 then 0 else nth (Z.to_nat (Z.land c 15)) x 0) <$> ctl.
Definition tbl16 (x ctl : bytes) : bytes := (λ c, nth (Z.to_nat c) x 0) <$> ctl.
Definition shuffle_epi8 (x : vec) (ctl : bytes) : vec :=
  vec_words (concat (zip_with pshufb (chunks_exact 16 (vec_bytes x)) (chunks_exact 16 ctl))).

(** NEON: [vrev32q_u16] swaps the halves of each word, [vqtbl1q_u8] looks bytes up,
    [vsriq_n_u32] shifts right and inserts under the top bits, [vtrn*] transpose. *)
Definition vrev32q_u16 (x : vec) : vec := (λ w, Z.lor (wshl 32 (Z.land w 0xffff) 16) (Z.shiftr w 16)) <$> x.
Definition vqtbl1q_u8 (x : vec) (ctl : bytes) : vec := vec_words (tbl16 (vec_bytes x) ctl).
Definition vsriq_n_u32 (n : Z) (a b : vec) : vec :=
  zip_with (λ x y, Z.lor (Z.land x (wnot 32 (Z.ones (32 - n)))) (Z.shiftr y n)) a b.
Definition vtrn1q_u32 (a b : vec) : vec := match a, b with [a0; _; a2; _], [b0; _; b2; _] => [a0; b0; a2; b2] | _, _ => [] end.
Definition vtrn2q_u32 (a b : vec) : vec := match a, b with [_; a1; _; a3], [_; b1; _; b3] => [a1; b1; a3; b3] | _, _ => [] end.
Definition vtrn1q_u64 (a b : vec) : vec := match a, b with [a0; a1; _; _], [b0; b1; _; _] => [a0; a1; b0; b1] | _, _ => [] end.
Definition vtrn2q_u64 (a b : vec) : vec := match a, b with [_; _; a2; a3], [_; _; b2; b3] => [a2; a3; b2; b3] | _, _ => [] end.

(** * Rotations by other means *)

(** A word as four bytes. *)
Lemma le_value_4 a b c d : le_value [a; b; c; d] = be_value [d; c; b; a].
Proof. done. Qed.

Lemma u32_bytes w : in_width 32 w → ∃ a b c d, bytes_ok [a; b; c; d] ∧ le_bytes 4 w = [a; b; c; d] ∧ w = le_value [a; b; c; d].
Proof.
  intros Hw. pose proof (length_le_bytes 4 w) as Hl. pose proof (le_bytes_ok 4 w) as Hok.
  pose proof (le_value_le_bytes 4 w Hw) as Hv. destruct (le_bytes 4 w) as [|a [|b [|c [|d [|? ?]]]]]; try done. by exists a, b, c, d.
Qed.

Lemma rotl_u32 x n : 0 ≤ n ≤ 32 → in_width 32 x → in_width 32 (rotl x n).
Proof. intros Hn Hx. unfold rotl. apply lor_in_width; [lia|apply wrap_range; lia|apply shiftr_in_width; [lia|done]]. Qed.

Lemma rotl_value x n : 0 ≤ n ≤ 32 → in_width 32 x → rotl x n = (x mod 2 ^ (32 - n)) * 2 ^ n + x / 2 ^ (32 - n).
Proof.
  intros Hn [Hx0 Hx]. unfold rotl, wrap. rewrite Z.shiftl_mul_pow2, Z.shiftr_div_pow2 by lia.
  assert (2 ^ 32 = 2 ^ (32 - n) * 2 ^ n) as E by (rewrite <- Z.pow_add_r by lia; f_equal; lia).
  rewrite E, Z.mul_mod_distr_r by lia. rewrite <- Z.shiftl_mul_pow2 by lia. rewrite lor_shiftl_add; [by rewrite Z.shiftl_mul_pow2 by lia|lia|].
  split; [apply Z.div_pos; lia|]. apply Z.div_lt_upper_bound; lia.
Qed.

Lemma le_value_sum a b c d : bytes_ok [a; b; c; d] → le_value [a; b; c; d] = a + 2 ^ 8 * b + 2 ^ 16 * c + 2 ^ 24 * d.
Proof.
  intros Hok. rewrite le_value_4. rewrite !Forall_cons in Hok. destruct Hok as (Ha & Hb & Hc & Hd & _).
  rewrite !be_value_cons by (rewrite ?Forall_cons, ?Forall_nil; tauto). cbn. lia.
Qed.

(** The byte permutations are rotations. *)
Lemma rot16_bytes a b c d : bytes_ok [a; b; c; d] → le_value [c; d; a; b] = rotl (le_value [a; b; c; d]) 16.
Proof.
  intros Hok. pose proof (le_value_range _ Hok) as Hr. rewrite rotl_value by (done || lia). rewrite !Forall_cons in Hok.
  rewrite !le_value_sum by (rewrite !Forall_cons; tauto). destruct Hok as (? & ? & ? & ? & _). unfold in_width in *. change (2 ^ 8) with 256 in *. change (2 ^ (32 - 16)) with 65536. change (2 ^ 16) with 65536. change (2 ^ 24) with 16777216.
  Z.div_mod_to_equations. lia.
Qed.

Lemma rot8_bytes a b c d : bytes_ok [a; b; c; d] → le_value [d; a; b; c] = rotl (le_value [a; b; c; d]) 8.
Proof.
  intros Hok. pose proof (le_value_range _ Hok) as Hr. rewrite rotl_value by (done || lia). rewrite !Forall_cons in Hok.
  rewrite !le_value_sum by (rewrite !Forall_cons; tauto). destruct Hok as (? & ? & ? & ? & _). unfold in_width in *. change (2 ^ 8) with 256 in *. change (2 ^ (32 - 8)) with 16777216. change (2 ^ 16) with 65536. change (2 ^ 24) with 16777216.
  Z.div_mod_to_equations. lia.
Qed.

Lemma rot16_halves w : in_width 32 w → Z.lor (wshl 32 (Z.land w 0xffff) 16) (Z.shiftr w 16) = rotl w 16.
Proof.
  intros Hw. unfold rotl, wshl. f_equal. change 0xffff with (2 ^ 16 - 1). rewrite land_mask by lia. unfold wrap.
  rewrite !Z.shiftl_mul_pow2 by lia. change (2 ^ 32) with (2 ^ 16 * 2 ^ 16). rewrite !Z.mul_mod_distr_r by lia. by rewrite Zmod_mod.
Qed.

(** Shift left, then shift right and insert. *)
Lemma rot_sri w n : 0 < n < 32 → in_width 32 w →
  Z.lor (Z.land (wshl 32 w n) (wnot 32 (Z.ones (32 - (32 - n))))) (Z.shiftr w (32 - n)) = rotl w n.
Proof.
  intros Hn Hw. unfold rotl, wshl. f_equal. replace (32 - (32 - n)) with n by lia.
  change (Z.ones n) with (Z.pred (2 ^ n)) || rewrite Z.ones_equiv. change (Z.pred (2 ^ n)) with (2 ^ n - 1).
  rewrite land_not_mask by (lia || (apply wrap_range; lia)). unfold wrap. rewrite Z.shiftl_mul_pow2 by lia.
  assert (2 ^ 32 = 2 ^ (32 - n) * 2 ^ n) as E by (rewrite <- Z.pow_add_r by lia; f_equal; lia).
  rewrite E, Z.mul_mod_distr_r by lia. rewrite Z.div_mul by lia. done.
Qed.

(** Rotating by two shifts. *)
Lemma rot_shifts n v : 0 ≤ n ≤ 32 → or_si (slli_epi32 n v) (srli_epi32 (32 - n) v) = rol_epi32 n v.
Proof. intros Hn. unfold or_si, slli_epi32, srli_epi32, rol_epi32. induction v as [|x v IH]; [done|]. cbn [fmap list_fmap zip_with]. by f_equal. Qed.
