(* ===== verification/ChaCha.v ===== *)
(** ChaCha20 and XChaCha20 ([src/cipher/chacha20.rs]): the block function, the counter
    layouts with their overflow rules, and the keystream of each instruction set, the
    portable loop, AVX-512, AVX2 and NEON.  Every route is the keystream of RFC 8439 XORed
    into the buffer. *)

From S2P Require Import Prelude MdHash Sha2 MdFamily Hashers HashState Kdf Vec.

(** [CounterOverflow] of [cipher/mod.rs] *)
Inductive CipherError := CounterOverflow.

(** * The block function *)

Definition CONSTANTS : list Z := [0x6170_7865; 0x3320_646e; 0x7962_2d32; 0x6b20_6574].

(** Two lines of the quarter round: [s[x] += s[y]; s[z] = (s[z] ^ s[x]).rotate_left(n)]. *)
Definition half_round (s : list Z) (x y z : nat) (n : Z) : list Z :=
  let s := <[x := wadd 32 (s !!! x) (s !!! y)]> s in
  <[z := rotl (Z.lxor (s !!! z) (s !!! x)) n]> s.

Definition quarter_round (s : list Z) (a b c d : nat) : list Z :=
  let s := half_round s a b d 16 in
  let s := half_round s c d b 12 in
  let s := half_round s a b d 8 in
  half_round s c d b 7.

(** Column round, then diagonal round. *)
Definition double_round (s : list Z) : list Z :=
  let s := quarter_round s 0 4 8 12 in
  let s := quarter_round s 1 5 9 13 in
  let s := quarter_round s 2 6 10 14 in
  let s := quarter_round s 3 7 11 15 in
  let s := quarter_round s 0 5 10 15 in
  let s := quarter_round s 1 6 11 12 in
  let s := quarter_round s 2 7 8 13 in
  quarter_round s 3 4 9 14.

(** The words of a byte array. *)
Definition le_words (b : bytes) : list Z := le_value <$> chunks_exact 4 b.

Definition hchacha20 (key nonce16 : bytes) : bytes :=
  let s := CONSTANTS ++ le_words key ++ le_words nonce16 in
  let s := Nat.iter 10 double_round s in
  concat ((λ idx, le_bytes 4 (s !!! idx)) <$> [0; 1; 2; 3; 12; 13; 14; 15]%nat).

Record ChaCha20 := mkChaCha20 { cc_key : list Z }.

Definition chacha_new (key : bytes) : ChaCha20 := mkChaCha20 (le_words key).

Definition cc_state (self : ChaCha20) (nonce : bytes) (counter : Z) : list Z :=
  CONSTANTS ++ cc_key self ++ [counter] ++ le_words nonce.

Definition cc_block (self : ChaCha20) (nonce : bytes) (counter : Z) : bytes :=
  let initial := cc_state self nonce counter in
  let s := Nat.iter 10 double_round initial in
  concat (zip_with (λ w i, le_bytes 4 (wadd 32 w i)) s initial).

Definition djb_nonce12 (counter_hi : Z) (nonce : bytes) : bytes := le_bytes 4 counter_hi ++ nonce.

Definition block_djb (self : ChaCha20) (nonce : bytes) (counter : Z) : bytes :=
  cc_block self (djb_nonce12 (as_u32 (Z.shiftr counter 32)) nonce) (as_u32 counter).

(** * The vector kernels

    A state is sixteen vectors with one block per lane. *)

Definition vhalf_round (rot : vec → vec) (v : list vec) (x y z : nat) : list vec :=
  let v := <[x := add_epi32 (v !!! x) (v !!! y)]> v in
  <[z := rot (xor_si (v !!! z) (v !!! x))]> v.

(** The order of the eight quarter rounds. *)
Definition vdouble_round (qr : list vec → nat → nat → nat → nat → list vec) (v : list vec) : list vec :=
  let v := qr v 0%nat 4%nat 8%nat 12%nat in
  let v := qr v 1%nat 5%nat 9%nat 13%nat in
  let v := qr v 2%nat 6%nat 10%nat 14%nat in
  let v := qr v 3%nat 7%nat 11%nat 15%nat in
  let v := qr v 0%nat 5%nat 10%nat 15%nat in
  let v := qr v 1%nat 6%nat 11%nat 12%nat in
  let v := qr v 2%nat 7%nat 8%nat 13%nat in
  qr v 3%nat 4%nat 9%nat 14%nat.

(** Constants, key and nonce broadcast; the counter plus the lane number. *)
Definition vinit (lanes : nat) (key n : list Z) (ctr : Z) : list vec :=
  let set := replicate lanes in
  (set <$> CONSTANTS) ++ (set <$> key)
  ++ [add_epi32 (set ctr) (Z.of_nat <$> seq 0 lanes)] ++ (set <$> n).

Definition nonce_words (nonce : bytes) : list Z := le_words nonce.

(** The 4x4 transpose of words inside each 128-bit lane. *)
Definition transpose_group (a b c d : vec) : list vec :=
  let ab_lo := unpacklo_epi32 a b in
  let ab_hi := unpackhi_epi32 a b in
  let cd_lo := unpacklo_epi32 c d in
  let cd_hi := unpackhi_epi32 c d in
  [unpacklo_epi64 ab_lo cd_lo; unpackhi_epi64 ab_lo cd_lo; unpacklo_epi64 ab_hi cd_hi; unpackhi_epi64 ab_hi cd_hi].

Definition transpose_groups (v : list vec) : list (list vec) :=
  (λ g, transpose_group (v !!! (4 * g)) (v !!! (4 * g + 1)) (v !!! (4 * g + 2)) (v !!! (4 * g + 3)))%nat <$> seq 0 4.

(** ** AVX-512: sixteen blocks per pass *)

Definition qr_avx512 (v : list vec) (a b c d : nat) : list vec :=
  let v := vhalf_round (rol_epi32 16) v a b d in
  let v := vhalf_round (rol_epi32 12) v c d b in
  let v := vhalf_round (rol_epi32 8) v a b d in
  vhalf_round (rol_epi32 7) v c d b.

Definition out16 (t : list (list vec)) (j : nat) : list vec :=
  let x0 := shuffle_i32x4 0x44 ((t !!! 0%nat) !!! j) ((t !!! 1%nat) !!! j) in
  let x1 := shuffle_i32x4 0xee ((t !!! 0%nat) !!! j) ((t !!! 1%nat) !!! j) in
  let y0 := shuffle_i32x4 0x44 ((t !!! 2%nat) !!! j) ((t !!! 3%nat) !!! j) in
  let y1 := shuffle_i32x4 0xee ((t !!! 2%nat) !!! j) ((t !!! 3%nat) !!! j) in
  [shuffle_i32x4 0x88 x0 y0; shuffle_i32x4 0xdd x0 y0; shuffle_i32x4 0x88 x1 y1; shuffle_i32x4 0xdd x1 y1].

(** [out[j]], [out[4 + j]], [out[8 + j]] and [out[12 + j]] for each [j]. *)
Definition interleave4 (cols : list (list vec)) : list vec :=
  concat ((λ k, (λ c : list vec, c !!! k) <$> cols) <$> seq 0 4).

Definition keystream16 (key n : list Z) (ctr : Z) : list vec :=
  let init := vinit 16 key n ctr in
  let v := Nat.iter 10 (vdouble_round qr_avx512) init in
  let v := zip_with add_epi32 v init in
  interleave4 (out16 (transpose_groups v) <$> seq 0 4).

(** XORs the vectors of a keystream into a run of bytes; the last one may be cut. *)
Definition xor_vecs (ks : list vec) (buf : bytes) : bytes := zip_with Z.lxor buf (concat (vec_bytes <$> ks)).

(** The loop over the full passes of [n] bytes. *)
Fixpoint xor_passes (fuel n : nat) (ks : Z → list vec) (step : Z) (ctr : Z) (buf : bytes) : bytes * bytes * Z :=
  match fuel with
  | O => ([], buf, ctr)
  | S fuel =>
      if (n <=? length buf)%nat then
        let '(out, rest, ctr') := xor_passes fuel n ks step (wadd 32 ctr step) (drop n buf) in
        (xor_vecs (ks ctr) (take n buf) ++ out, rest, ctr')
      else ([], buf, ctr)
  end.

(** [n.div_ceil(64)] *)
Definition div_ceil64 (n : nat) : Z := (Z.of_nat n + 63) / 64.

(** The partial pass: whole vectors of [w] bytes, and the last one cut. *)
Definition xor_partial (w : nat) (ks : list vec) (rest : bytes) : bytes :=
  let used := (length rest / w)%nat in
  concat (zip_with (λ blk k, zip_with Z.lxor blk (vec_bytes k)) (chunks_exact w rest) ks)
  ++ zip_with Z.lxor (drop (used * w) rest) (vec_bytes (ks !!! used)).

(** The buffer, the bytes done and the counter to resume from. *)
Definition apply_keystream_wide (w n tail : nat) (ks : Z → list vec) (step counter : Z) (buf : bytes) : bytes * nat * Z :=
  let len := length buf in
  let '(out, rest, ctr) := xor_passes (length buf) n ks step counter buf in
  if (tail <? length rest)%nat
  then (out ++ xor_partial w (ks ctr) rest, len, wadd 32 ctr (as_u32 (div_ceil64 (length rest))))
  else (out ++ rest, (len - length rest)%nat, ctr).

Definition apply_keystream_avx512 (key : list Z) (nonce : bytes) (counter : Z) (buf : bytes) : bytes * nat * Z :=
  apply_keystream_wide 64 1024 64 (keystream16 key (nonce_words nonce)) 16 counter buf.

(** ** AVX2: eight blocks per pass *)

Definition r16_ctl : bytes :=
  [2; 3; 0; 1; 6; 7; 4; 5; 10; 11; 8; 9; 14; 15; 12; 13; 2; 3; 0; 1; 6; 7; 4; 5; 10; 11; 8; 9; 14; 15; 12; 13].
Definition r8_ctl : bytes :=
  [3; 0; 1; 2; 7; 4; 5; 6; 11; 8; 9; 10; 15; 12; 13; 14; 3; 0; 1; 2; 7; 4; 5; 6; 11; 8; 9; 10; 15; 12; 13; 14].

Definition rol_avx2 (n m : Z) (x : vec) : vec := or_si (slli_epi32 n x) (srli_epi32 m x).

Definition qr_avx2 (v : list vec) (a b c d : nat) : list vec :=
  let v := vhalf_round (λ x, shuffle_epi8 x r16_ctl) v a b d in
  let v := vhalf_round (rol_avx2 12 20) v c d b in
  let v := vhalf_round (λ x, shuffle_epi8 x r8_ctl) v a b d in
  vhalf_round (rol_avx2 7 25) v c d b.

(** The two halves of block [j], and of block [4 + j]. *)
Definition out8 (imm : Z) (t : list (list vec)) (j : nat) : list vec :=
  [permute2x128 imm ((t !!! 0%nat) !!! j) ((t !!! 1%nat) !!! j); permute2x128 imm ((t !!! 2%nat) !!! j) ((t !!! 3%nat) !!! j)].

Definition keystream8 (key n : list Z) (ctr : Z) : list vec :=
  let init := vinit 8 key n ctr in
  let v := Nat.iter 10 (vdouble_round qr_avx2) init in
  let v := zip_with add_epi32 v init in
  let t := transpose_groups v in
  concat (out8 0x20 t <$> seq 0 4) ++ concat (out8 0x31 t <$> seq 0 4).

Definition apply_keystream_avx2 (key : list Z) (nonce : bytes) (counter : Z) (buf : bytes) : bytes * nat * Z :=
  apply_keystream_wide 32 512 128 (keystream8 key (nonce_words nonce)) 8 counter buf.

(** ** NEON: two sets of four blocks per pass *)

Definition rot16_neon (x : vec) : vec := vrev32q_u16 x.
Definition rot12_neon (x : vec) : vec := vsriq_n_u32 20 (slli_epi32 12 x) x.
Definition tbl_ctl : bytes := [3; 0; 1; 2; 7; 4; 5; 6; 11; 8; 9; 10; 15; 12; 13; 14].
Definition rot8_neon (x : vec) : vec := vqtbl1q_u8 x tbl_ctl.
Definition rot7_neon (x : vec) : vec := vsriq_n_u32 25 (slli_epi32 7 x) x.

Definition qr_neon (v : list vec) (a b c d : nat) : list vec :=
  let v := vhalf_round rot16_neon v a b d in
  let v := vhalf_round rot12_neon v c d b in
  let v := vhalf_round rot8_neon v a b d in
  vhalf_round rot7_neon v c d b.

(** The rows of group [g]: words [4 g .. 4 g + 4] of each of the four blocks. *)
Definition emit_rows (v init : list vec) (g : nat) : list vec :=
  let w k := add_epi32 (v !!! (4 * g + k)%nat) (init !!! (4 * g + k)%nat) in
  let t0 := vtrn1q_u32 (w 0%nat) (w 1%nat) in
  let t1 := vtrn2q_u32 (w 0%nat) (w 1%nat) in
  let t2 := vtrn1q_u32 (w 2%nat) (w 3%nat) in
  let t3 := vtrn2q_u32 (w 2%nat) (w 3%nat) in
  [vtrn1q_u64 t0 t2; vtrn1q_u64 t1 t3; vtrn2q_u64 t0 t2; vtrn2q_u64 t1 t3].

(** [emit4]: row [i] of group [g] goes to offset [64 i + 16 g], so block [i] is the rows of
    the four groups. *)
Definition emit4 (v init : list vec) : list vec :=
  let rows := emit_rows v init <$> seq 0 4 in
  concat ((λ i, (λ r : list vec, r !!! i) <$> rows) <$> seq 0 4).

Definition keystream4 (key n : list Z) (ctr : Z) : list vec :=
  let ia := vinit 4 key n ctr in
  let a := Nat.iter 10 (vdouble_round qr_neon) ia in
  emit4 a ia.

(** Two sets with consecutive counters. *)
Definition keystream4x2 (key n : list Z) (ctr : Z) : list vec :=
  keystream4 key n ctr ++ keystream4 key n (wadd 32 ctr 4).

Definition apply_keystream_neon (key : list Z) (nonce : bytes) (counter : Z) (buf : bytes) : bytes * nat * Z :=
  let n := le_words nonce in
  let len := length buf in
  let '(out, rest, ctr) := xor_passes (length buf) 512 (keystream4x2 key n) 8 counter buf in
  let '(out, rest, ctr) :=
    if (256 <=? length rest)%nat
    then (out ++ xor_vecs (keystream4 key n ctr) (take 256 rest), drop 256 rest, wadd 32 ctr 4)
    else (out, rest, ctr) in
  if (128 <? length rest)%nat
  then (out ++ xor_vecs (keystream4 key n ctr) rest, len, wadd 32 ctr (as_u32 (div_ceil64 (length rest))))
  else (out ++ rest, (len - length rest)%nat, ctr).

(** * The stream cipher *)

(** What [supported()] of the kernels reports; [Portable] is every other target too. *)
Inductive Isa := Portable | Avx512 | Avx2 | Neon.

(** The scalar loop over [chunks_mut(64)]. *)
Definition scalar_step (self : ChaCha20) (nonce : bytes) (s : bytes * Z) (block : bytes) : bytes * Z :=
  let '(out, block_counter) := s in
  (out ++ zip_with Z.lxor block (cc_block self nonce block_counter), wadd 32 block_counter 1).

Definition xor_ctr32 (isa : Isa) (self : ChaCha20) (nonce : bytes) (counter : Z) (buf : bytes) : bytes :=
  let '(buf, done, block_counter) :=
    match isa with
    | Avx512 => if (64 <? length buf)%nat then apply_keystream_avx512 (cc_key self) nonce counter buf else (buf, 0%nat, counter)
    | Avx2 => if (128 <? length buf)%nat then apply_keystream_avx2 (cc_key self) nonce counter buf else (buf, 0%nat, counter)
    | Neon => if (128 <? length buf)%nat then apply_keystream_neon (cc_key self) nonce counter buf else (buf, 0%nat, counter)
    | Portable => (buf, 0%nat, counter)
    end in
  let '(rest, _) := foldl (scalar_step self nonce) ([], block_counter) (chunks_mut 64 (drop done buf)) in
  take done buf ++ rest.

Definition ietf_fits (counter : Z) (len : nat) : bool := counter + div_ceil64 len <=? 2 ^ 32.

(** [None]: the assertion fails. *)
Definition apply_keystream (isa : Isa) (self : ChaCha20) (nonce : bytes) (counter : Z) (buf : bytes) : option bytes :=
  if ietf_fits counter (length buf) then Some (xor_ctr32 isa self nonce counter buf) else None.

Definition try_apply_keystream (isa : Isa) (self : ChaCha20) (nonce : bytes) (counter : Z) (buf : bytes) : result CipherError bytes :=
  if negb (ietf_fits counter (length buf)) then Err CounterOverflow else Ok (xor_ctr32 isa self nonce counter buf).

(** The loop splits the buffer where the low counter word wraps. *)
Fixpoint ctr64_loop (isa : Isa) (fuel : nat) (self : ChaCha20) (ctr : Z) (tail rest : bytes) : bytes :=
  match fuel with
  | O => []
  | S fuel =>
      if is_nil rest then []
      else
        let lo := as_u32 ctr in
        let seg_blocks := 2 ^ 32 - lo in
        let seg_bytes := Z.to_nat (Z.min (seg_blocks * 64) (zlen rest)) in
        let seg := xor_ctr32 isa self (djb_nonce12 (as_u32 (Z.shiftr ctr 32)) tail) lo (take seg_bytes rest) in
        let rest := drop seg_bytes rest in
        let ctr := if is_nil rest then ctr else wadd 64 ctr seg_blocks in
        seg ++ ctr64_loop isa fuel self ctr tail rest
  end.

Definition xor_ctr64 (isa : Isa) (self : ChaCha20) (counter : Z) (tail buf : bytes) : result CipherError bytes :=
  if 2 ^ 64 <? counter + div_ceil64 (length buf) then Err CounterOverflow
  else Ok (ctr64_loop isa (length buf) self counter tail buf).

Definition apply_keystream_djb (isa : Isa) (self : ChaCha20) (nonce : bytes) (counter : Z) (buf : bytes) : result CipherError bytes :=
  xor_ctr64 isa self counter nonce buf.

Definition apply_keystream_carry (isa : Isa) (self : ChaCha20) (nonce : bytes) (counter : Z) (buf : bytes) : result CipherError bytes :=
  let hi := le_value (take 4 nonce) in
  xor_ctr64 isa self (Z.lor (Z.shiftl hi 32) counter) (drop 4 nonce) buf.

Record XChaCha20 := mkXChaCha20 { xc_key : bytes }.

Definition xchacha_apply_keystream (isa : Isa) (self : XChaCha20) (nonce : bytes) (counter : Z) (buf : bytes) : result CipherError bytes :=
  let subkey := hchacha20 (xc_key self) (take 16 nonce) in
  apply_keystream_djb isa (chacha_new subkey) (drop 16 nonce) counter buf.

(** * Lanes *)

Definition vec_ok (w : nat) (x : vec) : Prop := length x = w ∧ Forall (in_width 32) x.
Definition vstate_ok (w : nat) (v : list vec) : Prop := length v = 16%nat ∧ Forall (vec_ok w) v.

(** The state of block [j]. *)
Definition lane (j : nat) (v : list vec) : list Z := (λ x : vec, x !!! j) <$> v.

Lemma Forall_lookup_total {A} `{Inhabited A} (P : A → Prop) (l : list A) i : Forall P l → (i < length l)%nat → P (l !!! i).
Proof. intros Hf Hi. destruct (lookup_lt_is_Some_2 l i Hi) as [x Hx]. rewrite (list_lookup_total_correct _ _ _ Hx). by eapply Forall_lookup_1. Qed.

Lemma Forall_zip_with_in (g : Z → Z → Z) (P : Z → Prop) (a b : vec) :
  (∀ x y, P x → P y → P (g x y)) → Forall P a → Forall P b → Forall P (zip_with g a b).
Proof. intros Hg Ha. revert b. induction Ha as [|x a Hx Ha IH]; intros [|y b] Hb; try constructor; inversion Hb; auto. Qed.

Lemma add_epi32_ok w a b : vec_ok w a → vec_ok w b → vec_ok w (add_epi32 a b).
Proof.
  intros [Ha Fa] [Hb Fb]. split; [unfold add_epi32; rewrite length_zip_with; lia|].
  apply Forall_zip_with_in; [|done|done]. intros. apply wrap_range. lia.
Qed.

Lemma xor_si_ok w a b : vec_ok w a → vec_ok w b → vec_ok w (xor_si a b).
Proof.
  intros [Ha Fa] [Hb Fb]. split; [unfold xor_si; rewrite length_zip_with; lia|].
  apply Forall_zip_with_in; [|done|done]. intros x y Hx Hy. by apply lxor_in_width.
Qed.

Lemma rol_ok w n a : 0 ≤ n ≤ 32 → vec_ok w a → vec_ok w (rol_epi32 n a).
Proof.
  intros Hn [Ha Fa]. split; [unfold rol_epi32; by rewrite length_fmap|]. apply Forall_fmap. eapply Forall_impl; [exact Fa|]. intros x Hx. by apply rotl_u32.
Qed.

(** A rotation of the lanes by whatever means. *)
Definition rotates (w : nat) (rot : vec → vec) (n : Z) : Prop := 0 ≤ n ≤ 32 ∧ ∀ u, vec_ok w u → rot u = rol_epi32 n u.

Section lanes.
Context (w : nat).

Lemma vstate_insert v x u : vstate_ok w v → vec_ok w u → vstate_ok w (<[x := u]> v).
Proof. intros [Hl Hf] Hu. split; [by rewrite length_insert|by apply Forall_insert]. Qed.

Lemma lane_insert v x u j : lane j (<[x := u]> v) = <[x := u !!! j]> (lane j v).
Proof. apply list_fmap_insert. Qed.

Lemma lane_lookup v x j : (x < length v)%nat → lane j v !!! x = (v !!! x) !!! j.
Proof. intros Hx. by apply (list_lookup_total_fmap (λ u : vec, u !!! j)). Qed.

Lemma vhalf_lane rot n v x y z : vstate_ok w v → rotates w rot n → (x < 16)%nat → (y < 16)%nat → (z < 16)%nat →
  vstate_ok w (vhalf_round rot v x y z) ∧ ∀ j, (j < w)%nat → lane j (vhalf_round rot v x y z) = half_round (lane j v) x y z n.
Proof.
  intros Hv [Hn Hrot] Hx Hy Hz. pose proof Hv as [Hl Hf]. unfold vhalf_round, half_round. cbv zeta.
  pose proof (Forall_lookup_total _ v x Hf ltac:(lia)) as Ox. pose proof (Forall_lookup_total _ v y Hf ltac:(lia)) as Oy.
  pose proof (add_epi32_ok w _ _ Ox Oy) as Oa. set (v1 := <[x := add_epi32 (v !!! x) (v !!! y)]> v).
  pose proof (vstate_insert v x _ Hv Oa) as Hv1. fold v1 in Hv1. pose proof Hv1 as [Hl1 Hf1].
  pose proof (Forall_lookup_total _ v1 z Hf1 ltac:(lia)) as Oz. pose proof (Forall_lookup_total _ v1 x Hf1 ltac:(lia)) as Ox1.
  pose proof (xor_si_ok w _ _ Oz Ox1) as Oxor. rewrite Hrot by done. split.
  - apply vstate_insert; [done|by apply rol_ok].
  - intros j Hj. rewrite lane_insert. assert (lane j v1 = <[x := wadd 32 (lane j v !!! x) (lane j v !!! y)]> (lane j v)) as <-.
    { unfold v1. rewrite lane_insert, !lane_lookup by lia. f_equal. unfold add_epi32. apply lookup_total_zip_with; destruct Ox, Oy; lia. }
    f_equal. unfold rol_epi32. rewrite (list_lookup_total_fmap (λ x, rotl x n)) by (destruct Oxor; lia). unfold xor_si.
    rewrite (lookup_total_zip_with Z.lxor) by (destruct Oz, Ox1; lia). by rewrite !lane_lookup by lia.
Qed.

(** A quarter round of vectors is a quarter round of every lane. *)
Definition lanewise (qr : list vec → nat → nat → nat → nat → list vec) : Prop :=
  ∀ v a b c d, vstate_ok w v → (a < 16)%nat → (b < 16)%nat → (c < 16)%nat → (d < 16)%nat →
    vstate_ok w (qr v a b c d) ∧ ∀ j, (j < w)%nat → lane j (qr v a b c d) = quarter_round (lane j v) a b c d.

Lemma quarter_lanewise r16 r12 r8 r7 : rotates w r16 16 → rotates w r12 12 → rotates w r8 8 → rotates w r7 7 →
  lanewise (λ v a b c d, vhalf_round r7 (vhalf_round r8 (vhalf_round r12 (vhalf_round r16 v a b d) c d b) a b d) c d b).
Proof.
  intros H16 H12 H8 H7 v a b c d Hv Ha Hb Hc Hd. unfold quarter_round.
  destruct (vhalf_lane r16 16 v a b d Hv H16 Ha Hb Hd) as [O1 L1]. destruct (vhalf_lane r12 12 _ c d b O1 H12 Hc Hd Hb) as [O2 L2].
  destruct (vhalf_lane r8 8 _ a b d O2 H8 Ha Hb Hd) as [O3 L3]. destruct (vhalf_lane r7 7 _ c d b O3 H7 Hc Hd Hb) as [O4 L4].
  split; [done|]. intros j Hj. by rewrite L4, L3, L2, L1.
Qed.

Lemma double_lanewise qr v : lanewise qr → vstate_ok w v →
  vstate_ok w (vdouble_round qr v) ∧ ∀ j, (j < w)%nat → lane j (vdouble_round qr v) = double_round (lane j v).
Proof.
  intros Hq H0. unfold vdouble_round, double_round. cbv zeta.
  repeat match goal with Hv : vstate_ok w ?v |- context [qr ?v ?a ?b ?c ?d] =>
    let O := fresh "O" in let L := fresh "L" in
    destruct (Hq v a b c d Hv) as [O L]; [lia|lia|lia|lia|]; generalize dependent (qr v a b c d); intros end.
  split; [done|]. intros j Hj. repeat match goal with L : ∀ j, _ → lane j ?v = _ |- context [lane _ ?v] => rewrite L by done; clear L end. done.
Qed.
End lanes.

(** ** The rotations of each instruction set *)

Lemma rol_rotates w n : 0 ≤ n ≤ 32 → rotates w (rol_epi32 n) n.
Proof. by split. Qed.

Lemma shifts_rotate w n : 0 ≤ n ≤ 32 → rotates w (rol_avx2 n (32 - n)) n.
Proof. intros Hn. split; [done|]. intros u _. by apply rot_shifts. Qed.

Lemma sri_rotates w n : 0 < n < 32 → rotates w (λ x, vsriq_n_u32 (32 - n) (slli_epi32 n x) x) n.
Proof.
  intros Hn. split; [lia|]. intros u [_ Hu]. unfold vsriq_n_u32, slli_epi32, rol_epi32. induction Hu as [|x u Hx Hu IH]; [done|].
  cbn [fmap list_fmap zip_with]. rewrite rot_sri by done. by f_equal.
Qed.

Lemma rev_rotates w : rotates w rot16_neon 16.
Proof.
  split; [lia|]. intros u [_ Hu]. unfold rot16_neon, vrev32q_u16, rol_epi32. induction Hu as [|x u Hx Hu IH]; [done|].
  cbn [fmap list_fmap]. rewrite rot16_halves by done. by f_equal.
Qed.

(** The byte shuffles, on words written as bytes. *)
Ltac split_words :=
  repeat match goal with H : Forall (in_width 32) (?x :: _) |- _ =>
    let H1 := fresh in let H2 := fresh in apply Forall_cons in H as [H1 H2];
    destruct (u32_bytes x H1) as (? & ? & ? & ? & ? & ? & ->); clear H1 end.

Ltac le_back := repeat match goal with H : le_bytes 4 ?v = _ |- context [le_bytes 4 ?v] => rewrite H end.

Lemma chunks_two (x y : bytes) : length x = 16%nat → length y = 16%nat → chunks_exact 16 (x ++ y) = [x; y].
Proof. intros Hx Hy. rewrite chunks_exact_cons, chunks_exact_single by (done || lia). done. Qed.

Lemma shuffle_rotates ctl n perm :
  0 ≤ n ≤ 32 → chunks_exact 16 ctl = [take 16 ctl; drop 16 ctl] →
  (∀ a b c d, bytes_ok [a; b; c; d] → le_value (perm a b c d) = rotl (le_value [a; b; c; d]) n) →
  (∀ a b c d e f g h i j k l m o p q, let x := [a; b; c; d; e; f; g; h; i; j; k; l; m; o; p; q] in
     let r := perm a b c d ++ perm e f g h ++ perm i j k l ++ perm m o p q in pshufb x (take 16 ctl) = r ∧ pshufb x (drop 16 ctl) = r) →
  (∀ a b c d, length (perm a b c d) = 4%nat) →
  rotates 8 (λ x, shuffle_epi8 x ctl) n.
Proof.
  intros Hn Hc Hp Hs Hlen. split; [done|]. intros u [Hl Hu]. destruct u as [|u0 [|u1 [|u2 [|u3 [|u4 [|u5 [|u6 [|u7 [|? ?]]]]]]]]]; try done.
  unfold shuffle_epi8, vec_bytes, rol_epi32. cbn [fmap list_fmap concat]. split_words. le_back.
  rewrite Hc. match goal with |- context [chunks_exact 16 ?l] => rewrite (chunks_two (take 16 l) (drop 16 l) eq_refl eq_refl : chunks_exact 16 l = _) end.
  cbn [take drop app zip_with concat].
  repeat match goal with |- context [pshufb [?a; ?b; ?c; ?d; ?e; ?f; ?g; ?h; ?i; ?j; ?k; ?l; ?m; ?o; ?p; ?q] _] =>
    destruct (Hs a b c d e f g h i j k l m o p q) as [E1 E2]; cbv zeta in E1, E2; rewrite ?E1, ?E2; clear E1 E2 end.
  rewrite <- !app_assoc. unfold vec_words. rewrite !chunks_exact_cons by (try lia; apply Hlen). cbn [fmap list_fmap chunks_exact length chunks_loop].
  by rewrite !Hp by done.
Qed.

Lemma r16_rotates : rotates 8 (λ x, shuffle_epi8 x r16_ctl) 16.
Proof. apply (shuffle_rotates r16_ctl 16 (λ a b c d, [c; d; a; b])); [lia|done|exact rot16_bytes|done|done]. Qed.

Lemma r8_rotates : rotates 8 (λ x, shuffle_epi8 x r8_ctl) 8.
Proof. apply (shuffle_rotates r8_ctl 8 (λ a b c d, [d; a; b; c])); [lia|done|exact rot8_bytes|done|done]. Qed.

Lemma tbl_chunks a b c d e f g h i j k l m o p q :
  chunks_exact 4 (tbl16 [a; b; c; d; e; f; g; h; i; j; k; l; m; o; p; q] tbl_ctl)
  = [[d; a; b; c]; [h; e; f; g]; [l; i; j; k]; [q; m; o; p]].
Proof. done. Qed.

Lemma tbl_rotates : rotates 4 rot8_neon 8.
Proof.
  split; [lia|]. intros u [Hl Hu]. destruct u as [|u0 [|u1 [|u2 [|u3 [|? ?]]]]]; try done.
  unfold rot8_neon, vqtbl1q_u8, vec_bytes, rol_epi32. cbn [fmap list_fmap concat]. split_words. le_back.
  cbn [app]. unfold vec_words. rewrite tbl_chunks. cbn [fmap list_fmap].
  by repeat (apply (f_equal2 cons); [by apply rot8_bytes|]).
Qed.

Lemma avx512_lanewise : lanewise 16 qr_avx512.
Proof. apply quarter_lanewise; apply rol_rotates; lia. Qed.

Lemma avx2_lanewise : lanewise 8 qr_avx2.
Proof. apply quarter_lanewise; [apply r16_rotates|apply (shifts_rotate 8 12); lia|apply r8_rotates|apply (shifts_rotate 8 7); lia]. Qed.

Lemma neon_lanewise : lanewise 4 qr_neon.
Proof. apply quarter_lanewise; [apply rev_rotates|apply (sri_rotates 4 12); lia|apply tbl_rotates|apply (sri_rotates 4 7); lia]. Qed.

(** ** From lanes to blocks *)

(** A matrix of words, rows of [w]. *)
Definition grid (f : nat → nat → Z) (w : nat) : list vec := (λ i, f i <$> seq 0 w) <$> seq 0 16.
Definition columns (f : nat → nat → Z) (w : nat) : list (list Z) := (λ j, (λ i, f i j) <$> seq 0 16) <$> seq 0 w.

Lemma list_seq_lookup {A} `{Inhabited A} (l : list A) n : length l = n → l = (λ i, l !!! i) <$> seq 0 n.
Proof.
  intros <-. apply list_eq. intros i. rewrite list_lookup_fmap. destruct (decide (i < length l)%nat) as [Hi|Hi].
  - rewrite lookup_seq_lt by done. cbn. by apply list_lookup_lookup_total_lt.
  - rewrite lookup_seq_ge, lookup_ge_None_2 by lia. done.
Qed.

Lemma vstate_grid w v : vstate_ok w v → v = grid (λ i j, (v !!! i) !!! j) w.
Proof.
  intros [Hl Hf]. rewrite (list_seq_lookup v 16 Hl) at 1. apply list_fmap_ext. intros k i Hk. apply lookup_seq in Hk as [-> Hi].
  apply list_seq_lookup. apply (Forall_lookup_total _ v (0 + k) Hf). lia.
Qed.

Lemma lanes_columns w v : vstate_ok w v → (λ j, lane j v) <$> seq 0 w = columns (λ i j, (v !!! i) !!! j) w.
Proof.
  intros [Hl _]. apply list_fmap_ext. intros k j _. unfold lane. rewrite (list_seq_lookup v 16 Hl) at 1. by rewrite <- list_fmap_compose.
Qed.

Lemma transpose16 f : interleave4 (out16 (transpose_groups (grid f 16)) <$> seq 0 4) = columns f 16.
Proof. vm_compute. reflexivity. Qed.

(** Each block as its two halves, or as its four rows. *)
Lemma transpose8 f : let t := transpose_groups (grid f 8) in
  concat (out8 0x20 t <$> seq 0 4) ++ concat (out8 0x31 t <$> seq 0 4) = concat ((λ b, [take 8 b; drop 8 b]) <$> columns f 8).
Proof. vm_compute. reflexivity. Qed.

Definition rows4 (v : list vec) (g : nat) : list vec :=
  let w k := v !!! (4 * g + k)%nat in
  let t0 := vtrn1q_u32 (w 0%nat) (w 1%nat) in
  let t1 := vtrn2q_u32 (w 0%nat) (w 1%nat) in
  let t2 := vtrn1q_u32 (w 2%nat) (w 3%nat) in
  let t3 := vtrn2q_u32 (w 2%nat) (w 3%nat) in
  [vtrn1q_u64 t0 t2; vtrn1q_u64 t1 t3; vtrn2q_u64 t0 t2; vtrn2q_u64 t1 t3].

Lemma transpose4 f : concat ((λ i, (λ r : list vec, r !!! i) <$> (rows4 (grid f 4) <$> seq 0 4)) <$> seq 0 4)
  = concat ((λ b, [take 4 b; take 4 (drop 4 b); take 4 (drop 8 b); drop 12 b]) <$> columns f 4).
Proof. vm_compute. reflexivity. Qed.

Lemma zip_state_ok w u v : vstate_ok w u → vstate_ok w v → vstate_ok w (zip_with add_epi32 u v).
Proof.
  intros [Hu Fu] [Hv Fv]. split; [rewrite length_zip_with; lia|]. clear Hu Hv. revert v Fv.
  induction Fu as [|x u Hx Fu IH]; intros [|y v] Fv; try constructor; inversion Fv; subst; [by apply add_epi32_ok|by apply IH].
Qed.

Lemma zip_state_lane w u v j : vstate_ok w u → vstate_ok w v → (j < w)%nat →
  lane j (zip_with add_epi32 u v) = zip_with (wadd 32) (lane j u) (lane j v).
Proof.
  intros [_ Fu] [_ Fv] Hj. unfold lane. revert v Fv. induction Fu as [|x u [Hx _] Fu IH]; intros [|y v] Fv; [done..|].
  inversion Fv as [|? ? [Hy _]]; subst. cbn [zip_with fmap list_fmap]. f_equal; [|by apply IH].
  apply lookup_total_zip_with; lia.
Qed.

Lemma emit_rows_eq w v init : vstate_ok w v → vstate_ok w init → emit_rows v init <$> seq 0 4 = rows4 (zip_with add_epi32 v init) <$> seq 0 4.
Proof.
  intros [Hv _] [Hi _]. apply list_fmap_ext. intros k g Hg. apply lookup_seq in Hg as [-> Hg]. cbn [Nat.add]. unfold emit_rows, rows4.
  by rewrite !(lookup_total_zip_with add_epi32) by lia.
Qed.

Section blocks.
Context (self : ChaCha20) (nonce : bytes).
Context (Hkey : length (cc_key self) = 8%nat) (Hkok : Forall (in_width 32) (cc_key self)).
Context (Hnonce : length (le_words nonce) = 3%nat) (Hnok : Forall (in_width 32) (le_words nonce)).

Lemma replicate_ok w x : in_width 32 x → vec_ok w (replicate w x).
Proof using Type. intros Hx. split; [apply length_replicate|by apply Forall_replicate]. Qed.

Lemma set_ok w l : Forall (in_width 32) l → Forall (vec_ok w) (replicate w <$> l).
Proof using Type. intros Hl. apply Forall_fmap. eapply Forall_impl; [exact Hl|]. intros x Hx. by apply replicate_ok. Qed.

Lemma vinit_ok w ctr : in_width 32 ctr → (w ≤ 16)%nat → vstate_ok w (vinit w (cc_key self) (le_words nonce) ctr).
Proof using Type*.
  intros Hc Hw. unfold vinit, vstate_ok. rewrite !length_app, !length_fmap, Hkey, Hnonce. split; [done|].
  rewrite !Forall_app. split_and!; [apply set_ok, (bool_decide_unpack _); by vm_compute|by apply set_ok| |by apply set_ok].
  constructor; [|done]. apply add_epi32_ok; [by apply replicate_ok|]. split; [by rewrite length_fmap, length_seq|].
  apply Forall_fmap, Forall_seq. intros j Hj. cbn. unfold in_width. lia.
Qed.

Lemma lane_set w j l : (j < w)%nat → lane j (replicate w <$> l) = l.
Proof using Type.
  intros Hj. unfold lane. rewrite <- list_fmap_compose. rewrite <- (list_fmap_id l) at 2. apply list_fmap_ext. intros _ x _. cbn.
  by apply lookup_total_replicate_2.
Qed.

Lemma vinit_lane w ctr j : (j < w)%nat →
  lane j (vinit w (cc_key self) (le_words nonce) ctr) = cc_state self nonce (wadd 32 ctr (Z.of_nat j)).
Proof using Type.
  intros Hj. unfold vinit, cc_state, lane. rewrite !fmap_app. fold (lane j (replicate w <$> CONSTANTS)).
  fold (lane j (replicate w <$> cc_key self)). fold (lane j (replicate w <$> le_words nonce)). rewrite !lane_set by done.
  do 3 f_equal. cbn [fmap list_fmap app]. f_equal. unfold add_epi32. rewrite (lookup_total_zip_with _) by (rewrite ?length_replicate, ?length_fmap, ?length_seq; done).
  rewrite lookup_total_replicate_2 by done. rewrite (list_lookup_total_fmap Z.of_nat) by (by rewrite length_seq). by rewrite lookup_total_seq_lt.
Qed.

Lemma iter_lanes w qr n v : lanewise w qr → vstate_ok w v →
  vstate_ok w (Nat.iter n (vdouble_round qr) v) ∧ ∀ j, (j < w)%nat → lane j (Nat.iter n (vdouble_round qr) v) = Nat.iter n double_round (lane j v).
Proof using Type.
  intros Hq Hv. induction n as [|n [Ho Hl]]; [done|]. cbn [Nat.iter nat_rect]. destruct (double_lanewise w qr _ Hq Ho) as [Ho' Hl']. split; [done|].
  intros j Hj. unfold Nat.iter in *. cbn [nat_rect]. rewrite Hl' by done. by rewrite Hl.
Qed.

(** The words of the blocks, before they are stored. *)
Definition block_words (counter : Z) : list Z :=
  let initial := cc_state self nonce counter in zip_with (wadd 32) (Nat.iter 10 double_round initial) initial.

Lemma cc_block_words counter : cc_block self nonce counter = vec_bytes (block_words counter).
Proof using Type.
  unfold cc_block, vec_bytes, block_words. cbv zeta. f_equal. generalize (Nat.iter 10 double_round (cc_state self nonce counter)) as l.
  intros l. generalize (cc_state self nonce counter) as k. induction l as [|x l IH]; intros [|y k]; cbn [zip_with fmap list_fmap]; [reflexivity..|by rewrite IH].
Qed.

(** The lanes of a pass, after the feed-forward. *)
Lemma pass_lanes w qr ctr : lanewise w qr → in_width 32 ctr → (w ≤ 16)%nat →
  let init := vinit w (cc_key self) (le_words nonce) ctr in
  let v := zip_with add_epi32 (Nat.iter 10 (vdouble_round qr) init) init in
  vstate_ok w v ∧ (λ j, lane j v) <$> seq 0 w = (λ j, block_words (wadd 32 ctr (Z.of_nat j))) <$> seq 0 w.
Proof using Type*.
  intros Hq Hc Hw init v. pose proof (vinit_ok w ctr Hc Hw) as Hi. fold init in Hi. destruct (iter_lanes w qr 10 init Hq Hi) as [Ho Hl].
  split; [by apply zip_state_ok|]. apply list_fmap_ext. intros k j Hk. apply lookup_seq in Hk as [-> Hj]. cbn [Nat.add].
  unfold v. rewrite (zip_state_lane w) by assumption. rewrite Hl by exact Hj. unfold init. rewrite vinit_lane by exact Hj. unfold block_words. cbv zeta. reflexivity.
Qed.

Lemma vec_bytes_app a b : vec_bytes (a ++ b) = vec_bytes a ++ vec_bytes b.
Proof using Type. unfold vec_bytes. by rewrite fmap_app, concat_app. Qed.

(** Blocks stored piece by piece. *)
Lemma vec_bytes_pieces (cut : list Z → list vec) (l : list vec) : (∀ b, concat (cut b) = b) →
  concat (vec_bytes <$> concat (cut <$> l)) = concat (vec_bytes <$> l).
Proof using Type.
  intros Hcut. assert (∀ c : list vec, concat (vec_bytes <$> c) = vec_bytes (concat c)) as Hc.
  { intros c. induction c as [|x c IH]; [done|]. cbn [fmap list_fmap concat]. by rewrite IH, vec_bytes_app. }
  rewrite !Hc. f_equal. induction l as [|b l IH]; [done|]. cbn [fmap list_fmap concat]. by rewrite concat_app, Hcut, IH.
Qed.

(** The keystream of [w] consecutive counters. *)
Definition blocks_from (w : nat) (ctr : Z) : bytes := concat ((λ j, cc_block self nonce (wadd 32 ctr (Z.of_nat j))) <$> seq 0 w).

Lemma columns_blocks w qr ctr (v : list vec) : lanewise w qr → in_width 32 ctr → (w ≤ 16)%nat →
  v = (let init := vinit w (cc_key self) (le_words nonce) ctr in zip_with add_epi32 (Nat.iter 10 (vdouble_round qr) init) init) →
  vstate_ok w v ∧ concat (vec_bytes <$> columns (λ i j, (v !!! i) !!! j) w) = blocks_from w ctr.
Proof using Type*.
  intros Hq Hc Hw ->. destruct (pass_lanes w qr ctr Hq Hc Hw) as [Ho Hl]. split; [exact Ho|].
  rewrite <- (lanes_columns w) by exact Ho. cbv zeta in Hl |- *. rewrite Hl. unfold blocks_from. rewrite <- list_fmap_compose. f_equal.
  apply list_fmap_ext. intros _ j _. symmetry. apply cc_block_words.
Qed.

Lemma keystream16_blocks ctr : in_width 32 ctr →
  concat (vec_bytes <$> keystream16 (cc_key self) (le_words nonce) ctr) = blocks_from 16 ctr.
Proof using Type*.
  intros Hc. unfold keystream16. cbv zeta. remember (zip_with add_epi32 _ _) as v eqn:Ev.
  destruct (columns_blocks 16 qr_avx512 ctr v avx512_lanewise Hc ltac:(lia) Ev) as [Ho <-].
  rewrite (vstate_grid 16 v Ho) at 1. by rewrite transpose16.
Qed.

Lemma keystream8_blocks ctr : in_width 32 ctr →
  concat (vec_bytes <$> keystream8 (cc_key self) (le_words nonce) ctr) = blocks_from 8 ctr.
Proof using Type*.
  intros Hc. unfold keystream8. cbv zeta. remember (zip_with add_epi32 _ _) as v eqn:Ev.
  destruct (columns_blocks 8 qr_avx2 ctr v avx2_lanewise Hc ltac:(lia) Ev) as [Ho <-].
  rewrite (vstate_grid 8 v Ho) at 1 2. rewrite (transpose8 (λ i j, (v !!! i) !!! j)). apply vec_bytes_pieces.
  intros b. cbn [concat]. rewrite app_nil_r. apply take_drop.
Qed.

Lemma keystream4_blocks ctr : in_width 32 ctr →
  concat (vec_bytes <$> keystream4 (cc_key self) (le_words nonce) ctr) = blocks_from 4 ctr.
Proof using Type*.
  intros Hc. unfold keystream4, emit4. cbv zeta. pose proof (vinit_ok 4 ctr Hc ltac:(lia)) as Hi.
  destruct (iter_lanes 4 qr_neon 10 _ neon_lanewise Hi) as [Hit _]. rewrite (emit_rows_eq 4) by assumption.
  remember (zip_with add_epi32 _ _) as v eqn:Ev. destruct (columns_blocks 4 qr_neon ctr v neon_lanewise Hc ltac:(lia) Ev) as [Ho <-].
  pose proof (transpose4 (λ i j, (v !!! i) !!! j)) as Ht. rewrite <- (vstate_grid 4 v Ho) in Ht. rewrite Ht. apply vec_bytes_pieces.
  intros b. cbn [concat]. rewrite app_nil_r. transitivity (take 4 b ++ take 4 (drop 4 b) ++ drop 8 b).
  { rewrite <- (take_drop 4 (drop 8 b)) at 2. by rewrite drop_drop. }
  transitivity (take 4 b ++ drop 4 b); [|apply take_drop]. rewrite <- (take_drop 4 (drop 4 b)) at 2. by rewrite drop_drop.
Qed.

Lemma keystream4x2_blocks ctr : in_width 32 ctr →
  concat (vec_bytes <$> keystream4x2 (cc_key self) (le_words nonce) ctr) = blocks_from 8 ctr.
Proof using Type*.
  intros Hc. unfold keystream4x2. rewrite fmap_app, concat_app, !keystream4_blocks by (done || (apply wrap_range; lia)).
  unfold blocks_from. change (seq 0 8) with (seq 0 4 ++ seq 4 4). rewrite fmap_app, concat_app. f_equal. f_equal.
  change (seq 4 4) with ((λ j, 4 + j)%nat <$> seq 0 4). rewrite <- list_fmap_compose. apply list_fmap_ext. intros _ j _. cbn [compose].
  f_equal. unfold compose, wadd. rewrite wrap_add_l. f_equal. lia.
Qed.
End blocks.

(** * Keystreams

    The blocks [f c], [f (c + 1)], ... XORed into a buffer, the last one cut. *)

Definition xor_stream (f : Z → bytes) (c : Z) (buf : bytes) : bytes :=
  zip_with Z.lxor buf (concat (f <$> seqZ c (div_ceil64 (length buf)))).

Section streams.
Context (f : Z → bytes) (Hf : ∀ c, length (f c) = 64%nat).

Lemma length_key_blocks c n : 0 ≤ n → length (concat (f <$> seqZ c n)) = Z.to_nat (64 * n).
Proof using Hf.
  intros Hn. revert c. pattern n. apply natlike_ind; [|clear n Hn; intros n Hn IH c|done].
  - intros c. by rewrite seqZ_nil.
  - rewrite seqZ_cons by lia. cbn [fmap list_fmap concat]. rewrite length_app, Hf, Z.pred_succ, IH. lia.
Qed.

Lemma div_ceil64_bounds n : Z.of_nat n ≤ 64 * div_ceil64 n < Z.of_nat n + 64.
Proof using Type. unfold div_ceil64. Z.div_mod_to_equations. lia. Qed.

(** More blocks than needed change nothing. *)
Lemma xor_more c buf n : div_ceil64 (length buf) ≤ n → zip_with Z.lxor buf (concat (f <$> seqZ c n)) = xor_stream f c buf.
Proof using Hf.
  intros Hn. pose proof (div_ceil64_bounds (length buf)) as Hb. unfold xor_stream. set (k := div_ceil64 (length buf)) in *.
  replace n with (k + (n - k)) by lia. rewrite seqZ_app, fmap_app, concat_app by lia. rewrite zip_with_app_r, (drop_ge buf) by (rewrite length_key_blocks by lia; lia).
  cbn [zip_with]. rewrite app_nil_r. f_equal. apply take_ge. rewrite length_key_blocks by lia. lia.
Qed.

Lemma xor_stream_app c a b m : length a = (64 * m)%nat → xor_stream f c (a ++ b) = xor_stream f c a ++ xor_stream f (c + Z.of_nat m) b.
Proof using Hf.
  intros Ha. assert (div_ceil64 (length a) = Z.of_nat m) as Ea by (unfold div_ceil64; rewrite Ha; Z.div_mod_to_equations; lia).
  unfold xor_stream at 1. assert (div_ceil64 (length (a ++ b)) = Z.of_nat m + div_ceil64 (length b)) as ->.
  { rewrite length_app, Ha. unfold div_ceil64. Z.div_mod_to_equations. lia. }
  pose proof (div_ceil64_bounds (length b)). rewrite seqZ_app, fmap_app, concat_app by lia. rewrite zip_with_app by (rewrite length_key_blocks by lia; lia).
  unfold xor_stream. by rewrite Ea.
Qed.

Lemma length_xor_stream c buf : length (xor_stream f c buf) = length buf.
Proof using Hf.
  unfold xor_stream. pose proof (div_ceil64_bounds (length buf)). rewrite length_zip_with, length_key_blocks by lia. lia.
Qed.

Lemma xor_stream_nil c : xor_stream f c [] = [].
Proof using Type. done. Qed.

(** XORing twice restores the buffer. *)
Lemma xor_stream_involutive c buf : xor_stream f c (xor_stream f c buf) = buf.
Proof using Hf.
  unfold xor_stream at 1. rewrite length_xor_stream. unfold xor_stream. pose proof (div_ceil64_bounds (length buf)) as Hb.
  assert (length buf ≤ length (concat (f <$> seqZ c (div_ceil64 (length buf)))))%nat as Hl by (rewrite length_key_blocks by lia; lia).
  revert Hl. generalize (concat (f <$> seqZ c (div_ceil64 (length buf)))) as ks. clear Hb. induction buf as [|x buf IH]; intros [|k ks] Hl; try done; cbn in Hl; [lia|].
  cbn [zip_with]. rewrite Z.lxor_assoc, Z.lxor_nilpotent, Z.lxor_0_r. f_equal. apply IH. lia.
Qed.
End streams.

Lemma xor_stream_ext f g c d buf : (∀ i, 0 ≤ i < div_ceil64 (length buf) → f (c + i) = g (d + i)) → xor_stream f c buf = xor_stream g d buf.
Proof.
  intros He. unfold xor_stream, seqZ. rewrite <- !list_fmap_compose. do 2 f_equal. apply list_fmap_ext. intros k i Hi. apply lookup_seq in Hi as [-> Hi].
  unfold compose. rewrite (Z.add_comm (Z.of_nat _) c), (Z.add_comm (Z.of_nat _) d). apply He. lia.
Qed.

(** The scalar loop. *)
Lemma scalar_loop self nonce f : (∀ c, f c = cc_block self nonce (wrap 32 c)) → (∀ c, length (f c) = 64%nat) →
  ∀ fuel buf out c, (length buf ≤ fuel)%nat →
  (foldl (scalar_step self nonce) (out, wrap 32 c) (chunks_mut_loop fuel 64 buf)).1 = out ++ xor_stream f c buf.
Proof.
  intros Hfb Hf. induction fuel as [|fuel IH]; intros buf out c Hl; cbn [chunks_mut_loop foldl].
  { destruct buf; [|cbn in Hl; lia]. cbn. by rewrite app_nil_r. }
  destruct buf as [|x buf'] eqn:Eb; [cbn; by rewrite app_nil_r|]. rewrite <- Eb in *. assert (is_nil buf = false) as -> by by subst.
  assert (0 < length buf)%nat as Hpos by (subst; cbn; lia). cbn [foldl scalar_step]. unfold wadd. rewrite wrap_add_l.
  assert (zip_with Z.lxor (take 64 buf) (cc_block self nonce (wrap 32 c)) = xor_stream f c (take 64 buf)) as E1.
  { rewrite <- (xor_more f Hf c (take 64 buf) 1).
    - rewrite seqZ_cons, seqZ_nil by lia. cbn [fmap list_fmap concat]. by rewrite app_nil_r, Hfb.
    - rewrite length_take. unfold div_ceil64. Z.div_mod_to_equations. lia. }
  destruct (decide (length buf ≤ 64)%nat) as [Hle|Hgt].
  - rewrite take_ge in * by done. rewrite drop_ge by done. rewrite IH by (cbn; lia). rewrite E1. cbn. by rewrite !app_nil_r.
  - rewrite IH by (rewrite length_drop; lia). rewrite E1, <- app_assoc. f_equal. rewrite <- (take_drop 64 buf) at 3.
    by rewrite (xor_stream_app f Hf c (take 64 buf) _ 1) by (rewrite length_take; lia).
Qed.

Lemma length_vec_bytes v : length (vec_bytes v) = (4 * length v)%nat.
Proof. apply length_le_words. Qed.

(** Whole vectors and a cut one are a cut run of vectors. *)
Lemma xor_partial_eq w ks : (0 < w)%nat → Forall (λ k, length (vec_bytes k) = w) ks →
  ∀ rest, (length rest < w * length ks)%nat → xor_partial w ks rest = xor_vecs ks rest.
Proof.
  intros Hw Hks. induction Hks as [|k ks Hk Hks IH]; intros rest Hl; [cbn in Hl; lia|]. unfold xor_partial, xor_vecs. cbv zeta.
  cbn [fmap list_fmap concat]. destruct (decide (length rest < w)%nat) as [Hlt|Hge].
  - rewrite chunks_exact_short, Nat.div_small by lia. cbn [zip_with concat Nat.mul app]. rewrite drop_0. change ((k :: ks) !!! 0%nat) with k.
    rewrite zip_with_app_r, Hk. rewrite take_ge, (drop_ge rest) by lia. cbn. by rewrite app_nil_r.
  - rewrite <- (take_drop w rest). assert (length (take w rest) = w) as Ht by (rewrite length_take; lia).
    rewrite chunks_exact_cons by (done || lia). rewrite length_app, Ht. replace (w + length (drop w rest))%nat with (length (drop w rest) + 1 * w)%nat by lia.
    rewrite Nat.div_add, Nat.add_1_r by lia. cbn [zip_with concat Nat.mul]. rewrite zip_with_app by (by rewrite Ht, Hk).
    rewrite <- app_assoc. f_equal. fold (xor_vecs ks (drop w rest)). rewrite <- IH by (rewrite length_drop; cbn in Hl; lia).
    unfold xor_partial. cbv zeta. change ((k :: ks) !!! S (length (drop w rest) / w)) with (ks !!! (length (drop w rest) / w)%nat).
    f_equal. f_equal. rewrite <- drop_drop. f_equal. by apply drop_app_length'.
Qed.

Section wide.
Context (f : Z → bytes) (Hf : ∀ c, length (f c) = 64%nat).

(** What a kernel hands back to the scalar loop. *)
Definition wide_ok (c : Z) (buf : bytes) (r : bytes * nat * Z) : Prop :=
  let '(buf', done, ctr) := r in
  (done ≤ length buf)%nat ∧ buf' = xor_stream f c (take done buf) ++ drop done buf
  ∧ (done = length buf ∨ ∃ m, done = (64 * m)%nat ∧ ctr = wrap 32 (c + Z.of_nat m)).

(** The vectors of a pass hold the next [step] blocks. *)
Definition feeds (ks : Z → list vec) (step : nat) : Prop :=
  ∀ c, concat (vec_bytes <$> ks (wrap 32 c)) = concat (f <$> seqZ c (Z.of_nat step)).

Lemma xor_vecs_feed ks step c buf : feeds ks step → (length buf ≤ 64 * step)%nat → xor_vecs (ks (wrap 32 c)) buf = xor_stream f c buf.
Proof using Hf.
  intros Hk Hl. unfold xor_vecs. rewrite Hk. apply (xor_more f Hf). unfold div_ceil64. Z.div_mod_to_equations. lia.
Qed.

Lemma xor_passes_ok ks step : feeds ks step → (0 < step)%nat → ∀ fuel c buf, (length buf ≤ fuel)%nat →
  ∃ m, (64 * (m * step) ≤ length buf < 64 * (m * step) + 64 * step)%nat
    ∧ xor_passes fuel (64 * step) ks (Z.of_nat step) (wrap 32 c) buf
      = (xor_stream f c (take (64 * (m * step)) buf), drop (64 * (m * step)) buf, wrap 32 (c + Z.of_nat (m * step))).
Proof using Hf.
  intros Hk Hs. induction fuel as [|fuel IH]; intros c buf Hl; cbn [xor_passes].
  { exists 0%nat. destruct buf; [|cbn in Hl; lia]. split; [cbn; lia|]. cbn. by rewrite Z.add_0_r. }
  destruct (Nat.leb_spec (64 * step) (length buf)) as [Hge|Hlt].
  - destruct (IH (c + Z.of_nat step) (drop (64 * step) buf)) as (m & Hm & E); [rewrite length_drop; lia|]. exists (S m).
    rewrite length_drop in Hm. split; [lia|]. unfold wadd. rewrite wrap_add_l, E. rewrite (xor_vecs_feed ks step) by (done || (rewrite length_take; lia)).
    rewrite drop_drop. f_equal; [f_equal|].
    + replace (64 * (S m * step))%nat with (64 * step + 64 * (m * step))%nat by lia.
      rewrite <- (take_drop (64 * step) buf) at 3. rewrite take_app_add' by (rewrite length_take; lia).
      by rewrite (xor_stream_app f Hf c _ _ step) by (rewrite length_take; lia).
    + f_equal. lia.
    + f_equal. lia.
  - exists 0%nat. split; [lia|]. rewrite Nat.mul_0_r, take_0, drop_0. cbn. by rewrite Z.add_0_r.
Qed.

Lemma wide_kernel_ok w ks step tail c buf : feeds ks step → (0 < step)%nat → (0 < w)%nat →
  (∀ c, Forall (λ k, length (vec_bytes k) = w) (ks (wrap 32 c)) ∧ (w * length (ks (wrap 32 c)) = 64 * step)%nat) →
  wide_ok c buf (apply_keystream_wide w (64 * step) tail ks (Z.of_nat step) (wrap 32 c) buf).
Proof using Hf.
  intros Hk Hs Hw Hshape. unfold apply_keystream_wide. destruct (xor_passes_ok ks step Hk Hs (length buf) c buf ltac:(done)) as (m & Hm & ->).
  rewrite length_drop. destruct (Nat.ltb_spec tail (length buf - 64 * (m * step))) as [Ht|Ht]; unfold wide_ok.
  - split; [done|]. split; [|by left]. destruct (Hshape (c + Z.of_nat (m * step))) as [Hsh Hlen].
    rewrite xor_partial_eq by (rewrite ?length_drop; done || lia). rewrite (xor_vecs_feed ks step) by (done || (rewrite length_drop; lia)).
    rewrite drop_all, app_nil_r, (take_ge buf (length buf)) by done. rewrite <- (take_drop (64 * (m * step)) buf) at 3.
    by rewrite (xor_stream_app f Hf c _ _ (m * step)) by (rewrite length_take; lia).
  - replace (length buf - (length buf - 64 * (m * step)))%nat with (64 * (m * step))%nat by lia. split; [lia|]. split; [done|]. right. by exists (m * step)%nat.
Qed.
End wide.

(** ** Every instruction set *)

Section isas.
Context (self : ChaCha20) (nonce : bytes).
Context (Hkey : length (cc_key self) = 8%nat) (Hkok : Forall (in_width 32) (cc_key self)).
Context (Hnonce : length (le_words nonce) = 3%nat) (Hnok : Forall (in_width 32) (le_words nonce)).

(** The block of a counter modulo [2^32]. *)
Definition ietf_block (c : Z) : bytes := cc_block self nonce (wrap 32 c).

Lemma length_quarter_round s a b c d : length (quarter_round s a b c d) = length s.
Proof using Type. unfold quarter_round, half_round. by rewrite !length_insert. Qed.

Lemma length_double_rounds n s : length (Nat.iter n double_round s) = length s.
Proof using Type.
  induction n as [|n IH]; [done|]. rewrite Nat.iter_succ, <- IH. unfold double_round. by rewrite !length_quarter_round.
Qed.

Lemma length_ietf_block c : length (ietf_block c) = 64%nat.
Proof using Hkey Hnonce.
  unfold ietf_block. rewrite cc_block_words, length_vec_bytes. unfold block_words. cbv zeta. rewrite length_zip_with, length_double_rounds, Nat.min_id.
  unfold cc_state. rewrite !length_app, Hkey, Hnonce. done.
Qed.

Lemma blocks_feed w c : blocks_from self nonce w (wrap 32 c) = concat (ietf_block <$> seqZ c (Z.of_nat w)).
Proof using Hkey Hnonce.
  unfold blocks_from, seqZ. rewrite Nat2Z.id, <- list_fmap_compose. f_equal. apply list_fmap_ext. intros _ j _. unfold compose, ietf_block.
  unfold wadd. rewrite wrap_add_l. f_equal. f_equal. lia.
Qed.

Lemma keystream16_shape ctr : in_width 32 ctr →
  let ks := keystream16 (cc_key self) (le_words nonce) ctr in Forall (λ k, length (vec_bytes k) = 64%nat) ks ∧ length ks = 16%nat.
Proof using Hkey Hkok Hnonce Hnok.
  intros Hc. unfold keystream16. cbv zeta. remember (zip_with add_epi32 _ _) as v eqn:Ev.
  destruct (columns_blocks self nonce Hkey Hkok Hnonce Hnok 16 qr_avx512 ctr v avx512_lanewise Hc ltac:(lia) Ev) as [Ho _].
  rewrite (vstate_grid 16 v Ho), transpose16. split; [|done]. apply Forall_fmap, Forall_true. intros j. cbn [compose]. unfold compose. by rewrite length_vec_bytes.
Qed.

Lemma keystream8_shape ctr : in_width 32 ctr →
  let ks := keystream8 (cc_key self) (le_words nonce) ctr in Forall (λ k, length (vec_bytes k) = 32%nat) ks ∧ length ks = 16%nat.
Proof using Hkey Hkok Hnonce Hnok.
  intros Hc. unfold keystream8. cbv zeta. remember (zip_with add_epi32 _ _) as v eqn:Ev.
  destruct (columns_blocks self nonce Hkey Hkok Hnonce Hnok 8 qr_avx2 ctr v avx2_lanewise Hc ltac:(lia) Ev) as [Ho _].
  rewrite (vstate_grid 8 v Ho), (transpose8 (λ i j, (v !!! i) !!! j)). split; [|done].
  repeat (apply Forall_cons_2; [by rewrite length_vec_bytes|]). apply Forall_nil_2.
Qed.

Lemma avx512_ok c buf : in_width 32 c → wide_ok ietf_block c buf (apply_keystream_avx512 (cc_key self) nonce c buf).
Proof using Hkey Hkok Hnonce Hnok.
  intros Hc. rewrite <- (wrap_small 32 c Hc) at 2. unfold apply_keystream_avx512, nonce_words.
  apply (wide_kernel_ok ietf_block length_ietf_block 64 _ 16); [|lia|lia|].
  - intros c'. rewrite <- blocks_feed. apply keystream16_blocks; try assumption. apply wrap_range. lia.
  - intros c'. destruct (keystream16_shape (wrap 32 c')) as [H1 H2]; [apply wrap_range; lia|]. split; [exact H1|]. by rewrite H2.
Qed.

Lemma avx2_ok c buf : in_width 32 c → wide_ok ietf_block c buf (apply_keystream_avx2 (cc_key self) nonce c buf).
Proof using Hkey Hkok Hnonce Hnok.
  intros Hc. rewrite <- (wrap_small 32 c Hc) at 2. unfold apply_keystream_avx2, nonce_words.
  apply (wide_kernel_ok ietf_block length_ietf_block 32 _ 8); [|lia|lia|].
  - intros c'. rewrite <- blocks_feed. apply keystream8_blocks; try assumption. apply wrap_range. lia.
  - intros c'. destruct (keystream8_shape (wrap 32 c')) as [H1 H2]; [apply wrap_range; lia|]. split; [exact H1|]. by rewrite H2.
Qed.

Lemma neon_ok c buf : in_width 32 c → wide_ok ietf_block c buf (apply_keystream_neon (cc_key self) nonce c buf).
Proof using Hkey Hkok Hnonce Hnok.
  intros Hc. rewrite <- (wrap_small 32 c Hc) at 2. unfold apply_keystream_neon.
  assert (feeds ietf_block (keystream4 (cc_key self) (le_words nonce)) 4) as F4.
  { intros c'. rewrite <- blocks_feed. apply keystream4_blocks; try assumption. apply wrap_range. lia. }
  assert (feeds ietf_block (keystream4x2 (cc_key self) (le_words nonce)) 8) as F8.
  { intros c'. rewrite <- blocks_feed. apply keystream4x2_blocks; try assumption. apply wrap_range. lia. }
  destruct (xor_passes_ok ietf_block length_ietf_block _ 8 F8 ltac:(lia) (length buf) c buf ltac:(done)) as (m & Hm & E).
  change (64 * 8)%nat with 512%nat in E. change (Z.of_nat 8) with 8 in E. rewrite E. clear E.
  set (a := (m * 8)%nat) in *. rewrite length_drop.
  (* after the optional set of four blocks, [d] blocks are done *)
  assert (∃ d, (64 * d ≤ length buf < 64 * d + 256)%nat ∧
    (if (256 <=? length buf - 64 * a)%nat
     then (xor_stream ietf_block c (take (64 * a) buf) ++ xor_vecs (keystream4 (cc_key self) (le_words nonce) (wrap 32 (c + Z.of_nat a))) (take 256 (drop (64 * a) buf)),
           drop 256 (drop (64 * a) buf), wadd 32 (wrap 32 (c + Z.of_nat a)) 4)
     else (xor_stream ietf_block c (take (64 * a) buf), drop (64 * a) buf, wrap 32 (c + Z.of_nat a)))
    = (xor_stream ietf_block c (take (64 * d) buf), drop (64 * d) buf, wrap 32 (c + Z.of_nat d))) as (d & Hd & ->).
  { destruct (Nat.leb_spec 256 (length buf - 64 * a)) as [Hge|Hlt].
    - exists (a + 4)%nat. split; [lia|]. rewrite (xor_vecs_feed ietf_block length_ietf_block _ 4) by (done || (rewrite length_take; lia)).
      unfold wadd. rewrite wrap_add_l, drop_drop. f_equal; [f_equal|].
      + replace (64 * (a + 4))%nat with (64 * a + 256)%nat by lia. rewrite <- (take_drop (64 * a) buf) at 3.
        rewrite take_app_add' by (rewrite length_take; lia).
        by rewrite (xor_stream_app ietf_block length_ietf_block c _ _ a) by (rewrite length_take; lia).
      + f_equal. lia.
      + f_equal. lia.
    - exists a. split; [lia|done]. }
  rewrite length_drop. destruct (Nat.ltb_spec 128 (length buf - 64 * d)) as [Ht|Ht]; unfold wide_ok.
  - split; [done|]. split; [|by left]. rewrite (xor_vecs_feed ietf_block length_ietf_block _ 4) by (done || (rewrite length_drop; lia)).
    rewrite drop_all, app_nil_r, (take_ge buf (length buf)) by done. rewrite <- (take_drop (64 * d) buf) at 3.
    by rewrite (xor_stream_app ietf_block length_ietf_block c _ _ d) by (rewrite length_take; lia).
  - replace (length buf - (length buf - 64 * d))%nat with (64 * d)%nat by lia. split; [lia|]. split; [done|]. right. by exists d.
Qed.

Lemma xor_ctr32_stream isa c buf : in_width 32 c → xor_ctr32 isa self nonce c buf = xor_stream ietf_block c buf.
Proof using Hkey Hkok Hnonce Hnok.
  intros Hc. unfold xor_ctr32.
  set (r := match isa with Avx512 => _ | _ => _ end). assert (wide_ok ietf_block c buf r) as Hr.
  { assert (wide_ok ietf_block c buf (buf, 0%nat, c)) as H0.
    { unfold wide_ok. rewrite take_0, drop_0. split; [lia|]. split; [done|]. right. exists 0%nat. by rewrite Z.add_0_r, wrap_small. }
    subst r. destruct isa; [exact H0|..]; destruct (_ <? _)%nat; try exact H0; [by apply avx512_ok|by apply avx2_ok|by apply neon_ok]. }
  destruct r as [[buf' done] ctr]. destruct Hr as (Hd & -> & Hctr).
  assert (length (xor_stream ietf_block c (take done buf)) = done) as Hl by (rewrite length_xor_stream by apply length_ietf_block; rewrite length_take; lia).
  rewrite drop_app_length', take_app_length' by done. destruct Hctr as [->|(m & -> & ->)].
  - rewrite drop_all. cbn. by rewrite app_nil_r, take_ge by done.
  - pose proof (scalar_loop self nonce ietf_block ltac:(done) length_ietf_block (length (drop (64 * m) buf)) (drop (64 * m) buf) [] (c + Z.of_nat m) ltac:(done)) as E.
    fold (chunks_mut 64 (drop (64 * m) buf)) in E. destruct (foldl _ _ _) as [o ?]. cbn [fst app] in E. rewrite E.
    rewrite <- (take_drop (64 * m) buf) at 3. by rewrite (xor_stream_app ietf_block length_ietf_block c _ _ m) by (rewrite length_take; lia).
Qed.
End isas.
