(* ===== verification/ChaChaSpec.v ===== *)
(** ChaCha20 as its standards define it, and the cipher of [src/cipher/chacha20.rs] against
    it: the matrix form of the block function, the keystream of every counter layout and
    instruction set, and the overflow rules. *)

From S2P Require Import Prelude MdHash Sha2 MdFamily Hashers HashState Kdf Vec ChaCha.

(** * The matrix form

    Four rows of four words; a round works on whole rows. *)

Abbreviation matrix := (list Z * list Z * list Z * list Z)%type.

Definition row_round (m : matrix) : matrix :=
  let add := zip_with (wadd 32) in
  let xor_rot n x y := zip_with (λ x y, rotl (Z.lxor x y) n) x y in
  let '(a, b, c, d) := m in
  let a := add a b in let d := xor_rot 16 d a in
  let c := add c d in let b := xor_rot 12 b c in
  let a := add a b in let d := xor_rot 8 d a in
  let c := add c d in let b := xor_rot 7 b c in
  (a, b, c, d).

Definition rot_row (k : nat) (r : list Z) : list Z := drop k r ++ take k r.

(** Columns, then the diagonals brought into the columns and back. *)
Definition matrix_double_round (m : matrix) : matrix :=
  let '(a, b, c, d) := row_round m in
  let '(a, b, c, d) := row_round (a, rot_row 1 b, rot_row 2 c, rot_row 3 d) in
  (a, rot_row 3 b, rot_row 2 c, rot_row 1 d).

Definition entries (m : matrix) : list Z := let '(a, b, c, d) := m in a ++ b ++ c ++ d.

(** A block for the four words of the last row. *)
Definition matrix_block (key : bytes) (last : list Z) : bytes :=
  let m := (CONSTANTS, take 4 (le_words key), drop 4 (le_words key), last) in
  vec_bytes (zip_with (wadd 32) (entries (Nat.iter 10 matrix_double_round m)) (entries m)).

(** RFC 8439: a 32-bit counter and a 96-bit nonce. *)
Definition rfc_block (key nonce : bytes) (c : Z) : bytes := matrix_block key (c :: le_words nonce).

(** The original layout: a 64-bit counter and a 64-bit nonce. *)
Definition orig_block (key nonce : bytes) (c : Z) : bytes :=
  matrix_block key (c mod 2 ^ 32 :: c / 2 ^ 32 :: le_words nonce).

(** HChaCha20: the first and the last row, with no feed-forward. *)
Definition matrix_hchacha20 (key nonce16 : bytes) : bytes :=
  let '(a, b, c, d) := Nat.iter 10 matrix_double_round (CONSTANTS, take 4 (le_words key), drop 4 (le_words key), le_words nonce16) in
  vec_bytes (a ++ d).

(** ** The index form is the matrix form *)

Definition column_round (s : list Z) : list Z := quarter_round (quarter_round (quarter_round (quarter_round s 0 4 8 12) 1 5 9 13) 2 6 10 14) 3 7 11 15.
Definition diagonal_round (s : list Z) : list Z := quarter_round (quarter_round (quarter_round (quarter_round s 0 5 10 15) 1 6 11 12) 2 7 8 13) 3 4 9 14.

Lemma double_round_split s : double_round s = diagonal_round (column_round s).
Proof. unfold double_round, diagonal_round, column_round. cbv zeta. reflexivity. Qed.

Definition rows_ok (m : matrix) : Prop :=
  let '(a, b, c, d) := m in length a = 4%nat ∧ length b = 4%nat ∧ length c = 4%nat ∧ length d = 4%nat.

Ltac row4 H := match type of H with length ?a = _ => destruct a as [|? [|? [|? [|? [|? ?]]]]]; try discriminate H; clear H end.

Lemma column_matrix m : rows_ok m → column_round (entries m) = entries (row_round m) ∧ rows_ok (row_round m).
Proof.
  destruct m as [[[a b] c] d]. intros (Ha & Hb & Hc & Hd). row4 Ha; row4 Hb; row4 Hc; row4 Hd.
  split; [|done]. cbv -[wadd rotl Z.lxor]. reflexivity.
Qed.

Lemma diagonal_matrix a b c d : rows_ok (a, b, c, d) →
  diagonal_round (a ++ b ++ c ++ d)
  = (let '(a, b, c, d) := row_round (a, rot_row 1 b, rot_row 2 c, rot_row 3 d) in a ++ rot_row 3 b ++ rot_row 2 c ++ rot_row 1 d).
Proof.
  intros (Ha & Hb & Hc & Hd). row4 Ha; row4 Hb; row4 Hc; row4 Hd. cbv -[wadd rotl Z.lxor]. reflexivity.
Qed.

Lemma rot_rows_ok a b c d i j k : rows_ok (a, b, c, d) → rows_ok (a, rot_row i b, rot_row j c, rot_row k d).
Proof.
  intros (Ha & Hb & Hc & Hd). unfold rows_ok, rot_row. rewrite !length_app, !length_take, !length_drop. lia.
Qed.

Lemma double_round_matrix m : rows_ok m → double_round (entries m) = entries (matrix_double_round m) ∧ rows_ok (matrix_double_round m).
Proof.
  intros Hm. destruct (column_matrix m Hm) as [E1 H1]. rewrite double_round_split, E1.
  unfold matrix_double_round. destruct (row_round m) as [[[a b] c] d]. cbn [entries]. rewrite (diagonal_matrix a b c d H1).
  pose proof (rot_rows_ok a b c d 1 2 3 H1) as H2. destruct (column_matrix _ H2) as [_ H3]. destruct (row_round _) as [[[a' b'] c'] d'].
  split; [done|by apply rot_rows_ok].
Qed.

Lemma double_rounds_matrix n m : rows_ok m →
  Nat.iter n double_round (entries m) = entries (Nat.iter n matrix_double_round m) ∧ rows_ok (Nat.iter n matrix_double_round m).
Proof.
  intros Hm. induction n as [|n [IH1 IH2]]; [done|]. rewrite !Nat.iter_succ, IH1. by apply double_round_matrix.
Qed.

Lemma le_words_ok k : ∀ b, length b = (4 * k)%nat → bytes_ok b → length (le_words b) = k ∧ Forall (in_width 32) (le_words b).
Proof.
  unfold le_words. induction k as [|k IH]; intros b Hl Hb; [destruct b; [done|cbn in Hl; lia]|].
  rewrite <- (take_drop 4 b). assert (length (take 4 b) = 4%nat) as Ht by (rewrite length_take; lia).
  rewrite chunks_exact_cons by (done || lia). cbn [fmap list_fmap length]. destruct (IH (drop 4 b)) as [H1 H2]; [rewrite length_drop; lia|by apply Forall_drop|].
  split; [by rewrite H1|]. constructor; [|done]. pose proof (le_value_range (take 4 b)) as Hr. rewrite Ht in Hr. apply Hr. by apply Forall_take.
Qed.

Lemma cc_block_matrix key nonce c last : length (le_words key) = 8%nat → length last = 4%nat → c :: le_words nonce = last →
  cc_block (chacha_new key) nonce c = matrix_block key last.
Proof.
  intros Hk Hl <-. rewrite cc_block_words. unfold block_words, matrix_block. cbv zeta. set (m := (CONSTANTS, _, _, _)).
  assert (cc_state (chacha_new key) nonce c = entries m) as ->.
  { unfold cc_state, entries, m. cbn [chacha_new cc_key app]. rewrite (app_assoc (take 4 (le_words key))). by rewrite take_drop. }
  assert (rows_ok m) as Hm by (unfold rows_ok, m; rewrite length_take, length_drop, Hk; done).
  by rewrite (proj1 (double_rounds_matrix 10 m Hm)).
Qed.

Lemma hchacha20_matrix key nonce16 : length (le_words key) = 8%nat → length (le_words nonce16) = 4%nat →
  hchacha20 key nonce16 = matrix_hchacha20 key nonce16.
Proof.
  intros Hk Hn. unfold hchacha20, matrix_hchacha20. cbv zeta. set (m := (CONSTANTS, take 4 (le_words key), drop 4 (le_words key), le_words nonce16)).
  assert (CONSTANTS ++ le_words key ++ le_words nonce16 = entries m) as ->.
  { unfold entries, m. rewrite (app_assoc (take 4 (le_words key))). by rewrite take_drop. }
  assert (rows_ok m) as Hm by (unfold rows_ok, m; rewrite length_take, length_drop, Hk, Hn; done).
  destruct (double_rounds_matrix 10 m Hm) as [-> Ho]. destruct (Nat.iter 10 matrix_double_round m) as [[[a b] c] d].
  destruct Ho as (Ha & Hb & Hc & Hd). row4 Ha; row4 Hb; row4 Hc; row4 Hd. cbn [entries app]. unfold vec_bytes. reflexivity.
Qed.

(** * The keystreams *)

Section cipher.
Context (isa : Isa) (key : bytes) (Hkl : length key = 32%nat) (Hkb : bytes_ok key).
Local Abbreviation self := (chacha_new key).

Lemma ietf_block_rfc nonce c : length nonce = 12%nat → bytes_ok nonce → in_width 32 c → ietf_block self nonce c = rfc_block key nonce c.
Proof using Hkl Hkb.
  intros Hn Hb Hc. unfold ietf_block. rewrite wrap_small by done. destruct (le_words_ok 8 key Hkl Hkb) as [Hk _]. destruct (le_words_ok 3 nonce Hn Hb) as [Hw _].
  apply cc_block_matrix; cbn [length]; [done|by rewrite Hw|done].
Qed.

Lemma xor_ctr32_rfc nonce c buf : length nonce = 12%nat → bytes_ok nonce → in_width 32 c → c + div_ceil64 (length buf) ≤ 2 ^ 32 →
  xor_ctr32 isa self nonce c buf = xor_stream (rfc_block key nonce) c buf.
Proof using Hkl Hkb.
  intros Hn Hb Hc Hfit. destruct (le_words_ok 8 key Hkl Hkb) as [Hk Hk2]. destruct (le_words_ok 3 nonce Hn Hb) as [Hw Hw2].
  rewrite (xor_ctr32_stream self nonce Hk Hk2 Hw Hw2) by done. apply xor_stream_ext. intros i Hi. apply ietf_block_rfc; try done. unfold in_width in *. lia.
Qed.

Lemma length_matrix_block last : length last = 4%nat → length (matrix_block key last) = 64%nat.
Proof using Hkl Hkb.
  intros Hl. destruct (le_words_ok 8 key Hkl Hkb) as [Hk _]. unfold matrix_block. cbv zeta. set (m := (CONSTANTS, _, _, _)).
  assert (rows_ok m) as Hm by (unfold rows_ok, m; rewrite length_take, length_drop, Hk; done). destruct (double_rounds_matrix 10 m Hm) as [_ Ho].
  assert (∀ x, rows_ok x → length (entries x) = 16%nat) as He. { intros [[[? ?] ?] ?] (? & ? & ? & ?). cbn [entries]. rewrite !length_app. lia. }
  rewrite length_vec_bytes, length_zip_with, !He by done. done.
Qed.

Lemma length_rfc_block nonce c : length nonce = 12%nat → bytes_ok nonce → length (rfc_block key nonce c) = 64%nat.
Proof using Hkl Hkb. intros Hn Hb. apply length_matrix_block. cbn [length]. by rewrite (proj1 (le_words_ok 3 nonce Hn Hb)). Qed.

Lemma length_orig_block nonce c : length nonce = 8%nat → bytes_ok nonce → length (orig_block key nonce c) = 64%nat.
Proof using Hkl Hkb. intros Hn Hb. apply length_matrix_block. cbn [length]. by rewrite (proj1 (le_words_ok 2 nonce Hn Hb)). Qed.

(** Blocks with one high counter word. *)
Lemma rfc_orig_block hi tail c : in_width 32 hi → in_width 32 c → rfc_block key (djb_nonce12 hi tail) c = orig_block key tail (hi * 2 ^ 32 + c).
Proof using Hkl.
  intros Hh Hc. unfold rfc_block, orig_block, djb_nonce12, in_width in *. f_equal. unfold le_words.
  rewrite chunks_exact_cons by (lia || apply length_le_bytes). cbn [fmap list_fmap]. rewrite le_value_le_bytes by done.
  f_equal; [|f_equal]; Z.div_mod_to_equations; lia.
Qed.

Lemma ctr64_loop_stream tail : length tail = 8%nat → bytes_ok tail → ∀ fuel ctr rest, (length rest ≤ fuel)%nat → 0 ≤ ctr →
  ctr + div_ceil64 (length rest) ≤ 2 ^ 64 → ctr < 2 ^ 64 →
  ctr64_loop isa fuel self ctr tail rest = xor_stream (orig_block key tail) ctr rest.
Proof using Hkl Hkb.
  intros Ht Htb. induction fuel as [|fuel IH]; intros ctr rest Hl H0 Hfit Hc.
  { destruct rest; [done|cbn in Hl; lia]. }
  cbn [ctr64_loop]. destruct rest as [|x rest'] eqn:Er; [done|]. rewrite <- Er in *. assert (is_nil rest = false) as -> by by subst.
  assert (0 < length rest)%nat as Hpos by (subst; cbn; lia). clear Er x rest'.
  change (as_u32 ctr) with (ctr mod 2 ^ 32). set (lo := ctr mod 2 ^ 32). set (hi := ctr / 2 ^ 32).
  assert (ctr = hi * 2 ^ 32 + lo ∧ 0 ≤ lo < 2 ^ 32 ∧ 0 ≤ hi < 2 ^ 32) as (Ectr & Hlo & Hhi).
  { unfold hi, lo. Z.div_mod_to_equations. lia. }
  assert (as_u32 (ctr ≫ 32) = hi) as ->. { rewrite Z.shiftr_div_pow2 by lia. by apply wrap_small. }
  set (seg_bytes := Z.to_nat (((2 ^ 32 - lo) * 64) `min` zlen rest)).
  assert (seg_bytes = length rest ∧ Z.of_nat seg_bytes ≤ (2 ^ 32 - lo) * 64 ∨ Z.of_nat seg_bytes = 64 * (2 ^ 32 - lo) ∧ (seg_bytes < length rest)%nat) as Hseg.
  { unfold seg_bytes, zlen. lia. }
  assert (xor_ctr32 isa self (djb_nonce12 hi tail) lo (take seg_bytes rest) = xor_stream (orig_block key tail) ctr (take seg_bytes rest)) as ->.
  { assert (lo + div_ceil64 (length (take seg_bytes rest)) ≤ 2 ^ 32) as Hf.
    { rewrite length_take. unfold div_ceil64. Z.div_mod_to_equations. lia. }
    rewrite xor_ctr32_rfc.
    - apply xor_stream_ext. intros i Hi. rewrite rfc_orig_block; [f_equal; lia|done|unfold in_width; lia].
    - unfold djb_nonce12. by rewrite length_app, length_le_bytes, Ht.
    - apply Forall_app. split; [apply le_bytes_ok|done].
    - done.
    - done. }
  destruct Hseg as [[-> _]|[Hs1 Hs2]].
  - rewrite take_ge, drop_all by done. cbn [is_nil]. destruct fuel; cbn [ctr64_loop is_nil]; by rewrite app_nil_r.
  - assert (is_nil (drop seg_bytes rest) = false) as ->.
    { destruct (drop seg_bytes rest) eqn:E; [|done]. apply (f_equal length) in E. rewrite length_drop in E. cbn in E. lia. }
    assert (ctr + (2 ^ 32 - lo) < 2 ^ 64 ∧ ctr + (2 ^ 32 - lo) + div_ceil64 (length (drop seg_bytes rest)) ≤ 2 ^ 64) as [Hn1 Hn2].
    { rewrite length_drop. unfold div_ceil64 in *. Z.div_mod_to_equations. lia. }
    unfold wadd. rewrite wrap_small by (unfold in_width; lia). rewrite IH by (first [done | lia | rewrite length_drop; lia]).
    rewrite <- (take_drop seg_bytes rest) at 3.
    rewrite (xor_stream_app _ (λ c, length_orig_block tail c Ht Htb) ctr _ _ (Z.to_nat (2 ^ 32 - lo))) by (rewrite length_take; lia).
    f_equal. f_equal. lia.
Qed.

Lemma xor_ctr64_stream tail counter buf : length tail = 8%nat → bytes_ok tail → in_width 64 counter →
  xor_ctr64 isa self counter tail buf
  = (if counter + div_ceil64 (length buf) <=? 2 ^ 64 then Ok (xor_stream (orig_block key tail) counter buf) else Err CounterOverflow).
Proof using Hkl Hkb.
  intros Ht Htb Hc. unfold xor_ctr64, in_width in *.
  destruct (Z.ltb_spec (2 ^ 64) (counter + div_ceil64 (length buf))) as [Hgt|Hle].
  - rewrite (proj2 (Z.leb_gt _ _)) by lia. done.
  - rewrite (proj2 (Z.leb_le _ _)) by lia. f_equal. apply ctr64_loop_stream; try done; lia.
Qed.
End cipher.

Lemma vec_bytes_ok v : bytes_ok (vec_bytes v).
Proof. unfold vec_bytes. apply Forall_concat, Forall_fmap, Forall_true. intros x. apply le_bytes_ok. Qed.

Lemma hchacha20_key key nonce16 : length key = 32%nat → bytes_ok key → length nonce16 = 16%nat → bytes_ok nonce16 →
  hchacha20 key nonce16 = matrix_hchacha20 key nonce16 ∧ length (matrix_hchacha20 key nonce16) = 32%nat ∧ bytes_ok (matrix_hchacha20 key nonce16).
Proof.
  intros Hk Hkb Hn Hnb. destruct (le_words_ok 8 key Hk Hkb) as [Hk1 _]. destruct (le_words_ok 4 nonce16 Hn Hnb) as [Hn1 _].
  split; [by apply hchacha20_matrix|]. unfold matrix_hchacha20. set (m := (CONSTANTS, _, _, _)).
  assert (rows_ok m) as Hm by (unfold rows_ok, m; rewrite length_take, length_drop, Hk1, Hn1; done).
  destruct (double_rounds_matrix 10 m Hm) as [_ Ho]. destruct (Nat.iter 10 matrix_double_round m) as [[[a b] c] d]. destruct Ho as (Ha & Hb & Hc & Hd).
  split; [rewrite length_vec_bytes, length_app; lia|apply vec_bytes_ok].
Qed.

(** Byte arrays of a fixed size. *)
Definition array (n : nat) (b : bytes) : Prop := length b = n ∧ bytes_ok b.

#[global] Instance array_dec n b : Decision (array n b).
Proof. unfold array. apply _. Defined.

(** C35: On every instruction set the ciphers XOR the keystream of their standard into the
    buffer: RFC 8439 with its 32-bit counter, the original layout and XChaCha20 with a
    64-bit counter, and the form that carries into the nonce, which extends RFC 8439.  Each
    refuses exactly the buffers that would wrap its counter, and applying a keystream twice
    restores the buffer. *)
Theorem chacha20_keystreams isa key nonce counter n24 c64 buf :
  array 32 key → array 12 nonce → in_width 32 counter → array 24 n24 → in_width 64 c64 →
  let self := chacha_new key in
  let blocks := div_ceil64 (length buf) in
  let checked max c out := if c + blocks <=? max then Ok out else Err CounterOverflow in
  let ietf := checked (2 ^ 32) counter (xor_stream (rfc_block key nonce) counter buf) in
  let carried := le_value (take 4 nonce) * 2 ^ 32 + counter in
  try_apply_keystream isa self nonce counter buf = ietf
  ∧ apply_keystream isa self nonce counter buf = match ietf with Ok out => Some out | Err _ => None end
  ∧ apply_keystream_djb isa self (drop 16 n24) c64 buf = checked (2 ^ 64) c64 (xor_stream (orig_block key (drop 16 n24)) c64 buf)
  ∧ xchacha_apply_keystream isa (mkXChaCha20 key) n24 c64 buf
    = checked (2 ^ 64) c64 (xor_stream (orig_block (matrix_hchacha20 key (take 16 n24)) (drop 16 n24)) c64 buf)
  ∧ apply_keystream_carry isa self nonce counter buf = checked (2 ^ 64) carried (xor_stream (orig_block key (drop 4 nonce)) carried buf)
  ∧ ∀ out, ietf = Ok out → apply_keystream_carry isa self nonce counter buf = Ok out ∧ try_apply_keystream isa self nonce counter out = Ok buf.
Proof.
  intros [Hk Hkb] [Hn Hnb] Hc [Hx Hxb] H64 self blocks checked ietf carried.
  assert (∀ b, length b = length buf → try_apply_keystream isa self nonce counter b = checked (2 ^ 32) counter (xor_stream (rfc_block key nonce) counter b)) as Htry.
  { intros b Hb. unfold try_apply_keystream, ietf_fits, checked, blocks. rewrite <- Hb. destruct (Z.leb_spec (counter + div_ceil64 (length b)) (2 ^ 32)); [|done].
    cbn [negb]. f_equal. by apply xor_ctr32_rfc. }
  assert (length (drop 16 n24) = 8%nat ∧ bytes_ok (drop 16 n24)) as [Ht Htb] by (rewrite length_drop; split; [lia|by apply Forall_drop]).
  assert (length (drop 4 nonce) = 8%nat ∧ bytes_ok (drop 4 nonce)) as [Hd Hdb] by (rewrite length_drop; split; [lia|by apply Forall_drop]).
  assert (in_width 32 (le_value (take 4 nonce))) as Hhi.
  { pose proof (le_value_range (take 4 nonce)) as Hr. rewrite length_take in Hr. replace (4 `min` length nonce)%nat with 4%nat in Hr by lia. apply Hr. by apply Forall_take. }
  assert (in_width 64 carried) as Hcar by (unfold carried, in_width in *; lia).
  assert (apply_keystream_carry isa self nonce counter buf = checked (2 ^ 64) carried (xor_stream (orig_block key (drop 4 nonce)) carried buf)) as Hcarry.
  { unfold apply_keystream_carry. rewrite lor_shiftl_add by (done || lia). by apply xor_ctr64_stream. }
  split_and!; [by apply Htry| |by apply xor_ctr64_stream| |done|].
  - unfold apply_keystream, ietf_fits, ietf, checked, blocks. destruct (Z.leb_spec (counter + div_ceil64 (length buf)) (2 ^ 32)); [|done]. f_equal. by apply xor_ctr32_rfc.
  - unfold xchacha_apply_keystream, apply_keystream_djb. cbn [xc_key].
    destruct (hchacha20_key key (take 16 n24)) as (-> & Hs1 & Hs2); [done|done|rewrite length_take; lia|by apply Forall_take|]. by apply xor_ctr64_stream.
  - intros out Hout. unfold ietf, checked in Hout. destruct (Z.leb_spec (counter + blocks) (2 ^ 32)) as [Hfit|]; [|done]. injection Hout as <-. split.
    + rewrite Hcarry. unfold checked. rewrite (proj2 (Z.leb_le _ _)) by (unfold carried, in_width in *; lia). f_equal. apply xor_stream_ext. intros i Hi.
      fold blocks in Hi. unfold carried. rewrite <- Z.add_assoc, <- (rfc_orig_block key Hk) by (done || (unfold in_width in *; lia)). f_equal.
      unfold djb_nonce12. replace 4%nat with (length (take 4 nonce)) at 1 by (rewrite length_take; lia).
      rewrite le_bytes_le_value by (by apply Forall_take). apply take_drop.
    + assert (∀ c, length (rfc_block key nonce c) = 64%nat) as Hl by (intros; by apply length_rfc_block).
      rewrite Htry by (by apply length_xor_stream). unfold checked. rewrite (proj2 (Z.leb_le _ _)) by done. by rewrite xor_stream_involutive.
Qed.

(** * Known answers *)

(** The plaintext of RFC 8439, section 2.4.2. *)
Definition sunscreen : bytes :=
   [0x4c; 0x61; 0x64; 0x69; 0x65; 0x73; 0x20; 0x61; 0x6e; 0x64; 0x20; 0x47; 0x65; 0x6e; 0x74; 0x6c; 0x65; 0x6d;
    0x65; 0x6e; 0x20; 0x6f; 0x66; 0x20; 0x74; 0x68; 0x65; 0x20; 0x63; 0x6c; 0x61; 0x73; 0x73; 0x20; 0x6f; 0x66;
    0x20; 0x27; 0x39; 0x39; 0x3a; 0x20; 0x49; 0x66; 0x20; 0x49; 0x20; 0x63; 0x6f; 0x75; 0x6c; 0x64; 0x20; 0x6f;
    0x66; 0x66; 0x65; 0x72; 0x20; 0x79; 0x6f; 0x75; 0x20; 0x6f; 0x6e; 0x6c; 0x79; 0x20; 0x6f; 0x6e; 0x65; 0x20;
    0x74; 0x69; 0x70; 0x20; 0x66; 0x6f; 0x72; 0x20; 0x74; 0x68; 0x65; 0x20; 0x66; 0x75; 0x74; 0x75; 0x72; 0x65;
    0x2c; 0x20; 0x73; 0x75; 0x6e; 0x73; 0x63; 0x72; 0x65; 0x65; 0x6e; 0x20; 0x77; 0x6f; 0x75; 0x6c; 0x64; 0x20;
    0x62; 0x65; 0x20; 0x69; 0x74; 0x2e].

Definition kat_key : bytes := Z.of_nat <$> seq 0 32.
Definition kat_nonce : bytes := [0; 0; 0; 0; 0; 0; 0; 0x4a; 0; 0; 0; 0].

Definition sunscreen_sealed : bytes :=
   [0x6e; 0x2e; 0x35; 0x9a; 0x25; 0x68; 0xf9; 0x80; 0x41; 0xba; 0x07; 0x28; 0xdd; 0x0d; 0x69; 0x81; 0xe9; 0x7e;
    0x7a; 0xec; 0x1d; 0x43; 0x60; 0xc2; 0x0a; 0x27; 0xaf; 0xcc; 0xfd; 0x9f; 0xae; 0x0b; 0xf9; 0x1b; 0x65; 0xc5;
    0x52; 0x47; 0x33; 0xab; 0x8f; 0x59; 0x3d; 0xab; 0xcd; 0x62; 0xb3; 0x57; 0x16; 0x39; 0xd6; 0x24; 0xe6; 0x51;
    0x52; 0xab; 0x8f; 0x53; 0x0c; 0x35; 0x9f; 0x08; 0x61; 0xd8; 0x07; 0xca; 0x0d; 0xbf; 0x50; 0x0d; 0x6a; 0x61;
    0x56; 0xa3; 0x8e; 0x08; 0x8a; 0x22; 0xb6; 0x5e; 0x52; 0xbc; 0x51; 0x4d; 0x16; 0xcc; 0xf8; 0x06; 0x81; 0x8c;
    0xe9; 0x1a; 0xb7; 0x79; 0x37; 0x36; 0x5a; 0xf9; 0x0b; 0xbf; 0x74; 0xa3; 0x5b; 0xe6; 0xb4; 0x0b; 0x8e; 0xed;
    0xf2; 0x78; 0x5e; 0x42; 0x87; 0x4d].

(** The vectors through the AVX-512 kernel, and near the end of the counter. *)
Lemma chacha20_keystreams_witness :
  try_apply_keystream Avx512 (chacha_new kat_key) kat_nonce 1 sunscreen = Ok (xor_stream (rfc_block kat_key kat_nonce) 1 sunscreen)
  ∧ try_apply_keystream Avx512 (chacha_new kat_key) kat_nonce 1 sunscreen = Ok sunscreen_sealed
  ∧ try_apply_keystream Avx512 (chacha_new kat_key) kat_nonce (2 ^ 32 - 1) sunscreen = Err CounterOverflow.
Proof.
  split_and!; [|vm_compute; reflexivity|vm_compute; reflexivity].
  refine (proj1 (chacha20_keystreams Avx512 kat_key kat_nonce 1 (Z.of_nat <$> seq 0 24) 0 sunscreen _ _ _ _ _)).
  all: apply (bool_decide_unpack _); vm_compute; exact I.
Defined.
