(* ===== verification/Poly1305.v ===== *)
(** Poly1305 ([src/cipher/poly1305.rs]): the polynomial state of 64-bit targets in radix
    [2^44] with its two- and four-stripe loops, the one of 32-bit targets in radix [2^26],
    and their arithmetic modulo [2^130 - 5].  Both implement one interface, on which the
    authenticator is built. *)

From S2P Require Import Prelude MdHash MdFamily HashState.

(** Plain additions and products of [w]-bit words. *)
Local Notation "a +[ w ] b" := (wadd w a b) (at level 50, left associativity).
Local Notation "a *[ w ] b" := (wmul w a b) (at level 40, left associativity).

(** * Radix [2^44] *)

Definition M44 : Z := 0x0fff_ffff_ffff.
Definition M42 : Z := 0x03ff_ffff_ffff.

Abbreviation limbs3 := (Z * Z * Z)%type.

(** [h · r mod 2^130 - 5] with the lazy carry chain; products are [u128]. *)
Definition mul (h r : limbs3) (s : Z * Z) : limbs3 :=
  let '(h0, h1, h2) := h in
  let '(r0, r1, r2) := r in
  let '(s1, s2) := s in
  let d0 := h0 *[128] r0 +[128] h1 *[128] s2 +[128] h2 *[128] s1 in
  let d1 := h0 *[128] r1 +[128] h1 *[128] r0 +[128] h2 *[128] s2 in
  let d2 := h0 *[128] r2 +[128] h1 *[128] r1 +[128] h2 *[128] r0 in
  let c := as_u64 (Z.shiftr d0 44) in
  let h0 := Z.land (as_u64 d0) M44 in
  let d1 := d1 +[128] c in
  let c := as_u64 (Z.shiftr d1 44) in
  let h1 := Z.land (as_u64 d1) M44 in
  let d2 := d2 +[128] c in
  let c := as_u64 (Z.shiftr d2 42) in
  let h2 := Z.land (as_u64 d2) M42 in
  let h0 := h0 +[64] c *[64] 5 in
  let c := Z.shiftr h0 44 in
  let h0 := Z.land h0 M44 in
  let h1 := h1 +[64] c in
  (h0, h1, h2).

Definition add_block (h : limbs3) (m : bytes) (full : bool) : limbs3 :=
  let '(h0, h1, h2) := h in
  let t0 := le_value (take 8 m) in
  let t1 := le_value (drop 8 m) in
  (h0 +[64] Z.land t0 M44,
   h1 +[64] Z.land (Z.lor (Z.shiftr t0 44) (wshl 64 t1 20)) M44,
   h2 +[64] Z.lor (Z.land (Z.shiftr t1 24) M42) (wshl 64 (Z.b2z full) 40)).

(** The wrap-around multiples [20·r1] and [20·r2]. *)
Definition mults20 (r : limbs3) : Z * Z := let '(_, r1, r2) := r in (r1 *[64] 20, r2 *[64] 20).

Record State64 := mkState64 { s6_r : limbs3; s6_s : Z * Z; s6_r2 : limbs3; s6_s2 : Z * Z; s6_h : limbs3 }.
#[export] Instance eta_State64 : Eta State64 := λ x, mkState64 (s6_r x) (s6_s x) (s6_r2 x) (s6_s2 x) (s6_h x).

Definition st64_new (key : bytes) : State64 :=
  let t0 := Z.land (le_value (take 8 key)) 0x0fff_fffc_0fff_ffff in
  let t1 := Z.land (le_value (drop 8 key)) 0x0fff_fffc_0fff_fffc in
  let r := (Z.land t0 M44, Z.land (Z.lor (Z.shiftr t0 44) (wshl 64 t1 20)) M44, Z.land (Z.shiftr t1 24) M42) in
  let s := mults20 r in
  let r2 := mul r r s in
  let s2 := mults20 r2 in
  mkState64 r s r2 s2 (0, 0, 0).

Definition st64_block (st : State64) (m : bytes) (full : bool) : State64 :=
  let h := add_block (s6_h st) m full in
  st <| s6_h := mul h (s6_r st) (s6_s st) |>.

Definition add3 (a b : limbs3) : limbs3 :=
  let '(a0, a1, a2) := a in let '(b0, b1, b2) := b in (a0 +[64] b0, a1 +[64] b1, a2 +[64] b2).

(** The [i]-th 16-byte block of a group. *)
Definition sub16 (q : bytes) (i : nat) : bytes := take 16 (drop (16 * i) q).

(** One group of the four-stripe loop: [rs] are the multipliers of the stripes. *)
Definition quad_step (ra rb rc rd : limbs3 * (Z * Z)) (hs : limbs3 * limbs3 * limbs3 * limbs3) (q : bytes) :=
  let '(ha, hb, hc, hd) := hs in
  let ha := add_block ha (sub16 q 0) true in
  let hb := add_block hb (sub16 q 1) true in
  let hc := add_block hc (sub16 q 2) true in
  let hd := add_block hd (sub16 q 3) true in
  (mul ha ra.1 ra.2, mul hb rb.1 rb.2, mul hc rc.1 rc.2, mul hd rd.1 rd.2).

Definition blocks4 (st : State64) (data : bytes) : State64 :=
  let r3 := mul (s6_r2 st) (s6_r st) (s6_s st) in
  let s3 := mults20 r3 in
  let r4 := mul (s6_r2 st) (s6_r2 st) (s6_s2 st) in
  let s4 := mults20 r4 in
  let z := (0, 0, 0) in
  let quads := chunks_exact 64 data in
  let hs := foldl (quad_step (r4, s4) (r4, s4) (r4, s4) (r4, s4)) (s6_h st, z, z, z) (removelast quads) in
  let '(ha, hb, hc, hd) := quad_step (r4, s4) (r3, s3) (s6_r2 st, s6_s2 st) (s6_r st, s6_s st) hs (List.last quads []) in
  st <| s6_h := add3 (add3 (add3 ha hb) hc) hd |>.

Definition pair_step (ra rb : limbs3 * (Z * Z)) (hs : limbs3 * limbs3) (q : bytes) : limbs3 * limbs3 :=
  let '(ha, hb) := hs in
  let ha := add_block ha (sub16 q 0) true in
  let hb := add_block hb (sub16 q 1) true in
  (mul ha ra.1 ra.2, mul hb rb.1 rb.2).

Definition blocks2 (st : State64) (data : bytes) : State64 :=
  let r2 := (s6_r2 st, s6_s2 st) in
  let pairs := chunks_exact 32 data in
  let hs := foldl (pair_step r2 r2) (s6_h st, (0, 0, 0)) (removelast pairs) in
  let '(ha, hb) := pair_step r2 (s6_r st, s6_s st) hs (List.last pairs []) in
  st <| s6_h := add3 ha hb |>.

(** One pass of the carry loop. *)
Definition carry_pass (h : limbs3) : limbs3 :=
  let '(h0, h1, h2) := h in
  let c := Z.shiftr h1 44 in
  let h1 := Z.land h1 M44 in
  let h2 := h2 +[64] c in
  let c := Z.shiftr h2 42 in
  let h2 := Z.land h2 M42 in
  let h0 := h0 +[64] c *[64] 5 in
  let c := Z.shiftr h0 44 in
  let h0 := Z.land h0 M44 in
  let h1 := h1 +[64] c in
  (h0, h1, h2).

Definition st64_carry (st : State64) : limbs3 := carry_pass (carry_pass (s6_h st)).

Definition st64_reduce (st : State64) : Z :=
  let '(h0, h1, h2) := st64_carry st in
  let g0 := h0 +[64] 5 in
  let c := Z.shiftr g0 44 in
  let g0 := Z.land g0 M44 in
  let g1 := h1 +[64] c in
  let c := Z.shiftr g1 44 in
  let g1 := Z.land g1 M44 in
  let g2 := wsub 64 (h2 +[64] c) (2 ^ 42) in
  let mask := wsub 64 (Z.shiftr g2 63) 1 in
  let nmask := wnot 64 mask in
  let h0 := Z.lor (Z.land h0 nmask) (Z.land g0 mask) in
  let h1 := Z.lor (Z.land h1 nmask) (Z.land g1 mask) in
  let h2 := Z.lor (Z.land h2 nmask) (Z.land g2 mask) in
  let lo := Z.lor h0 (wshl 64 h1 44) in
  let hi := Z.lor (Z.shiftr h1 20) (wshl 64 h2 24) in
  Z.lor lo (wshl 128 hi 64).

(** * Radix [2^26] *)

Definition M26 : Z := 0x03ff_ffff.

Abbreviation limbs5 := (Z * Z * Z * Z * Z)%type.

Record State32 := mkState32 { s3_r : limbs5; s3_s : Z * Z * Z * Z; s3_h : limbs5 }.

Definition le32 (b : bytes) (i : nat) : Z := le_value (take 4 (drop i b)).

Definition st32_new (key : bytes) : State32 :=
  let r0 := Z.land (le32 key 0) 0x03ff_ffff in
  let r1 := Z.land (Z.shiftr (le32 key 3) 2) 0x03ff_ff03 in
  let r2 := Z.land (Z.shiftr (le32 key 6) 4) 0x03ff_c0ff in
  let r3 := Z.land (Z.shiftr (le32 key 9) 6) 0x03f0_3fff in
  let r4 := Z.land (Z.shiftr (le32 key 12) 8) 0x000f_ffff in
  mkState32 (r0, r1, r2, r3, r4) (r1 *[32] 5, r2 *[32] 5, r3 *[32] 5, r4 *[32] 5) (0, 0, 0, 0, 0).

(** The schoolbook product and its partial carry chain, in [u64]. *)
Definition mul26 (h r : limbs5) (s : Z * Z * Z * Z) : limbs5 :=
  let '(h0, h1, h2, h3, h4) := h in
  let '(r0, r1, r2, r3, r4) := r in
  let '(s1, s2, s3, s4) := s in
  let d0 := h0 *[64] r0 +[64] h1 *[64] s4 +[64] h2 *[64] s3 +[64] h3 *[64] s2 +[64] h4 *[64] s1 in
  let d1 := h0 *[64] r1 +[64] h1 *[64] r0 +[64] h2 *[64] s4 +[64] h3 *[64] s3 +[64] h4 *[64] s2 in
  let d2 := h0 *[64] r2 +[64] h1 *[64] r1 +[64] h2 *[64] r0 +[64] h3 *[64] s4 +[64] h4 *[64] s3 in
  let d3 := h0 *[64] r3 +[64] h1 *[64] r2 +[64] h2 *[64] r1 +[64] h3 *[64] r0 +[64] h4 *[64] s4 in
  let d4 := h0 *[64] r4 +[64] h1 *[64] r3 +[64] h2 *[64] r2 +[64] h3 *[64] r1 +[64] h4 *[64] r0 in
  let c := Z.shiftr d0 26 in
  let nh0 := Z.land (as_u32 d0) M26 in
  let d1 := d1 +[64] c in
  let c := Z.shiftr d1 26 in
  let nh1 := Z.land (as_u32 d1) M26 in
  let d2 := d2 +[64] c in
  let c := Z.shiftr d2 26 in
  let nh2 := Z.land (as_u32 d2) M26 in
  let d3 := d3 +[64] c in
  let c := Z.shiftr d3 26 in
  let nh3 := Z.land (as_u32 d3) M26 in
  let d4 := d4 +[64] c in
  let c := Z.shiftr d4 26 in
  let nh4 := Z.land (as_u32 d4) M26 in
  let nh0 := nh0 +[64] c *[64] 5 in
  let carry := as_u32 (Z.shiftr nh0 26) in
  (Z.land (as_u32 nh0) M26, nh1 +[32] carry, nh2, nh3, nh4).

(** The five limbs of a block. *)
Definition limbs26 (m : bytes) (hibit : Z) : limbs5 :=
  let t0 := le32 m 0 in
  let t1 := le32 m 4 in
  let t2 := le32 m 8 in
  let t3 := le32 m 12 in
  (Z.land t0 M26, Z.land (Z.lor (Z.shiftr t0 26) (wshl 32 t1 6)) M26, Z.land (Z.lor (Z.shiftr t1 20) (wshl 32 t2 12)) M26,
   Z.land (Z.lor (Z.shiftr t2 14) (wshl 32 t3 18)) M26, Z.lor (Z.shiftr t3 8) hibit).

Definition st32_block (st : State32) (m : bytes) (full : bool) : State32 :=
  let hibit := wshl 32 (Z.b2z full) 24 in
  let '(m0, m1, m2, m3, m4) := limbs26 m hibit in
  let '(h0, h1, h2, h3, h4) := s3_h st in
  let h := (h0 +[32] m0, h1 +[32] m1, h2 +[32] m2, h3 +[32] m3, h4 +[32] m4) in
  mkState32 (s3_r st) (s3_s st) (mul26 h (s3_r st) (s3_s st)).

Definition st32_reduce (st : State32) : Z :=
  let '(h0, h1, h2, h3, h4) := s3_h st in
  let c := Z.shiftr h1 26 in
  let h1 := Z.land h1 M26 in
  let h2 := h2 +[32] c in
  let c := Z.shiftr h2 26 in
  let h2 := Z.land h2 M26 in
  let h3 := h3 +[32] c in
  let c := Z.shiftr h3 26 in
  let h3 := Z.land h3 M26 in
  let h4 := h4 +[32] c in
  let c := Z.shiftr h4 26 in
  let h4 := Z.land h4 M26 in
  let h0 := h0 +[32] c *[32] 5 in
  let c := Z.shiftr h0 26 in
  let h0 := Z.land h0 M26 in
  let h1 := h1 +[32] c in
  let g0 := h0 +[32] 5 in
  let c := Z.shiftr g0 26 in
  let g0 := Z.land g0 M26 in
  let g1 := h1 +[32] c in
  let c := Z.shiftr g1 26 in
  let g1 := Z.land g1 M26 in
  let g2 := h2 +[32] c in
  let c := Z.shiftr g2 26 in
  let g2 := Z.land g2 M26 in
  let g3 := h3 +[32] c in
  let c := Z.shiftr g3 26 in
  let g3 := Z.land g3 M26 in
  let g4 := wsub 32 (h4 +[32] c) (2 ^ 26) in
  let mask := wsub 32 (Z.shiftr g4 31) 1 in
  let nmask := wnot 32 mask in
  let sel h g := Z.lor (Z.land h nmask) (Z.land g mask) in
  let '(h0, h1, h2, h3, h4) := (sel h0 g0, sel h1 g1, sel h2 g2, sel h3 g3, sel h4 g4) in
  let w0 := Z.lor h0 (wshl 32 h1 26) in
  let w1 := Z.lor (Z.shiftr h1 6) (wshl 32 h2 20) in
  let w2 := Z.lor (Z.shiftr h2 12) (wshl 32 h3 14) in
  let w3 := Z.lor (Z.shiftr h3 18) (wshl 32 h4 8) in
  Z.lor (Z.lor (Z.lor w0 (wshl 128 w1 32)) (wshl 128 w2 64)) (wshl 128 w3 96).

(** * Arithmetic modulo [2^130 - 5] *)

Definition P : Z := 2 ^ 130 - 5.

Definition cong5 (a b : Z) : Prop := ∃ k, a = b + k * P.
Infix "≡ₚ₅" := cong5 (at level 70).

#[global] Instance cong_equivalence : Equivalence cong5.
Proof.
  split.
  - intros a. exists 0. lia.
  - intros a b [k ->]. exists (- k). lia.
  - intros a b c [k ->] [j ->]. exists (j + k). lia.
Qed.

#[global] Instance cong_add : Proper (cong5 ==> cong5 ==> cong5) Z.add.
Proof. intros a b [k ->] c d [j ->]. exists (k + j). lia. Qed.

#[global] Instance cong_mul : Proper (cong5 ==> cong5 ==> cong5) Z.mul.
Proof. intros a b [k ->] c d [j ->]. exists (b * j + d * k + k * j * P). ring. Qed.

Lemma cong5_mod a : a mod P ≡ₚ₅ a.
Proof. exists (- (a / P)). pose proof (Z.div_mod a P ltac:(done)). lia. Qed.

Lemma cong_eq a b : a ≡ₚ₅ b → 0 ≤ a < P → 0 ≤ b < P → a = b.
Proof. intros [k E] Ha Hb. assert (k = 0) by nia. lia. Qed.

Lemma cong_modeq a b : a ≡ₚ₅ b → a mod P = b mod P.
Proof. intros [k ->]. apply Z_mod_plus_full. Qed.

(** ** Limbs of 44, 44 and 42 bits *)

Definition val3 (h : limbs3) : Z := let '(h0, h1, h2) := h in h0 + h1 * 2 ^ 44 + h2 * 2 ^ 88.
Definition below3 (b0 b1 b2 : Z) (h : limbs3) : Prop :=
  let '(h0, h1, h2) := h in 0 ≤ h0 < b0 ∧ 0 ≤ h1 < b1 ∧ 0 ≤ h2 < b2.

(** What the multiplier takes and what it leaves. *)
Abbreviation lazy3 := (below3 (2 ^ 47) (2 ^ 47) (2 ^ 47)).
Abbreviation tight3 := (below3 (2 ^ 44) (2 ^ 44 + 2 ^ 9) (2 ^ 42)).

Lemma wadd_exact w a b : 0 ≤ a + b < 2 ^ w → wadd w a b = a + b.
Proof. apply wrap_small. Qed.

Lemma wmul_exact w a b : 0 ≤ a * b < 2 ^ w → wmul w a b = a * b.
Proof. apply wrap_small. Qed.

Lemma land_M44 x : Z.land x M44 = x mod 2 ^ 44.
Proof. by apply (land_mask x 44). Qed.
Lemma land_M42 x : Z.land x M42 = x mod 2 ^ 42.
Proof. by apply (land_mask x 42). Qed.
Lemma land_M26 x : Z.land x M26 = x mod 2 ^ 26.
Proof. by apply (land_mask x 26). Qed.

(** Masking a truncated word masks the word. *)
Lemma wrap_mod w n x : 0 ≤ n ≤ w → (wrap w x) mod 2 ^ n = x mod 2 ^ n.
Proof.
  intros Hn. unfold wrap. replace w with (n + (w - n)) by lia. rewrite Z.pow_add_r by lia. rewrite Z.rem_mul_r by lia.
  rewrite Z.mul_comm, Z_mod_plus_full. apply Zmod_mod.
Qed.

(** A column of products does not overflow. *)
Lemma column3 w A a b c d e f B D F : 0 ≤ a < A → 0 ≤ c < A → 0 ≤ e < A → 0 ≤ b < B → 0 ≤ d < D → 0 ≤ f < F → A * (B + D + F) ≤ 2 ^ w →
  a *[w] b +[w] c *[w] d +[w] e *[w] f = a * b + c * d + e * f ∧ 0 ≤ a * b + c * d + e * f < A * (B + D + F).
Proof.
  intros Ha Hc He Hb Hd Hf Hw.
  assert (0 ≤ a * b < A * B ∧ 0 ≤ c * d < A * D ∧ 0 ≤ e * f < A * F) as (X & Y & W) by nia.
  rewrite !wmul_exact by lia. rewrite (wadd_exact w (a * b)) by lia. rewrite wadd_exact by lia. lia.
Qed.

(** The carry chain, on the three columns. *)
Lemma chain3 d0 d1 d2 : 0 ≤ d0 < 2 ^ 97 → 0 ≤ d1 < 2 ^ 95 → 0 ≤ d2 < 9 * 2 ^ 89 + 2 ^ 58 →
  let c := as_u64 (Z.shiftr d0 44) in
  let h0 := Z.land (as_u64 d0) M44 in
  let d1' := d1 +[128] c in
  let c := as_u64 (Z.shiftr d1' 44) in
  let h1 := Z.land (as_u64 d1') M44 in
  let d2' := d2 +[128] c in
  let c := as_u64 (Z.shiftr d2' 42) in
  let h2 := Z.land (as_u64 d2') M42 in
  let h0 := h0 +[64] c *[64] 5 in
  let c := Z.shiftr h0 44 in
  let h0 := Z.land h0 M44 in
  let h1 := h1 +[64] c in
  tight3 (h0, h1, h2) ∧ val3 (h0, h1, h2) ≡ₚ₅ d0 + d1 * 2 ^ 44 + d2 * 2 ^ 88.
Proof.
  intros D0 D1 D2. cbv zeta. rewrite !Z.shiftr_div_pow2, !land_M44, !land_M42, !wrap_mod by lia.
  set (c0 := d0 / 2 ^ 44). assert (d0 = 2 ^ 44 * c0 + d0 mod 2 ^ 44 ∧ 0 ≤ d0 mod 2 ^ 44 < 2 ^ 44) as [E0 L0] by (unfold c0; Z.div_mod_to_equations; lia).
  set (l0 := d0 mod 2 ^ 44) in *. clearbody c0 l0. rewrite (wrap_small 64 c0) by (unfold in_width; lia).
  rewrite (wadd_exact 128 d1) by lia. set (c1 := (d1 + c0) / 2 ^ 44).
  assert (d1 + c0 = 2 ^ 44 * c1 + (d1 + c0) mod 2 ^ 44 ∧ 0 ≤ (d1 + c0) mod 2 ^ 44 < 2 ^ 44) as [E1 L1] by (unfold c1; Z.div_mod_to_equations; lia).
  set (l1 := (d1 + c0) mod 2 ^ 44) in *. clearbody c1 l1. rewrite (wrap_small 64 c1) by (unfold in_width; lia).
  rewrite (wadd_exact 128 d2) by lia. set (c2 := (d2 + c1) / 2 ^ 42).
  assert (d2 + c1 = 2 ^ 42 * c2 + (d2 + c1) mod 2 ^ 42 ∧ 0 ≤ (d2 + c1) mod 2 ^ 42 < 2 ^ 42) as [E2 L2] by (unfold c2; Z.div_mod_to_equations; lia).
  set (l2 := (d2 + c1) mod 2 ^ 42) in *. clearbody c2 l2. rewrite (wrap_small 64 c2) by (unfold in_width; lia).
  rewrite (wmul_exact 64 c2) by lia. rewrite (wadd_exact 64 l0) by lia. set (c3 := (l0 + c2 * 5) / 2 ^ 44).
  assert (l0 + c2 * 5 = 2 ^ 44 * c3 + (l0 + c2 * 5) mod 2 ^ 44 ∧ 0 ≤ (l0 + c2 * 5) mod 2 ^ 44 < 2 ^ 44) as [E3 L3] by (unfold c3; Z.div_mod_to_equations; lia).
  set (l3 := (l0 + c2 * 5) mod 2 ^ 44) in *. clearbody c3 l3. rewrite (wadd_exact 64 l1) by lia. split; [unfold below3; lia|].
  exists (- c2). unfold val3, P in *. lia.
Qed.

Lemma mul_spec h r : lazy3 h → tight3 r → let o := mul h r (mults20 r) in tight3 o ∧ val3 o ≡ₚ₅ val3 h * val3 r.
Proof.
  destruct h as [[h0 h1] h2], r as [[r0 r1] r2]. intros (H0 & H1 & H2) (R0 & R1 & R2). unfold mults20.
  rewrite (wmul_exact 64 r1 20), (wmul_exact 64 r2 20) by lia. unfold mul.
  assert (0 ≤ r1 * 20 < 2 ^ 49 ∧ 0 ≤ r2 * 20 < 2 ^ 47) as [S1 S2] by lia.
  destruct (column3 128 _ h0 r0 h1 (r2 * 20) h2 (r1 * 20) _ _ _ H0 H1 H2 R0 S2 S1 ltac:(lia)) as [-> D0].
  destruct (column3 128 _ h0 r1 h1 r0 h2 (r2 * 20) _ _ _ H0 H1 H2 R1 R0 S2 ltac:(lia)) as [-> D1].
  destruct (column3 128 _ h0 r2 h1 r1 h2 r0 _ _ _ H0 H1 H2 R2 R1 R0 ltac:(lia)) as [-> D2].
  destruct (chain3 (h0 * r0 + h1 * (r2 * 20) + h2 * (r1 * 20)) (h0 * r1 + h1 * r0 + h2 * (r2 * 20)) (h0 * r2 + h1 * r1 + h2 * r0)) as [Ht Hv].
  1-3: split; [apply D0 || apply D1 || apply D2|eapply Z.lt_le_trans; [apply D0 || apply D1 || apply D2|done]].
  split; [exact Ht|]. etransitivity; [exact Hv|]. exists (- 4 * (h1 * r2 + h2 * r1 + h2 * r2 * 2 ^ 44)). unfold val3, P. ring.
Qed.

Lemma le_value_app a b : bytes_ok a → bytes_ok b → le_value (a ++ b) = le_value a + 2 ^ (8 * zlen a) * le_value b.
Proof.
  intros Ha Hb. unfold le_value. rewrite rev_app_distr. unfold be_fold at 1. rewrite fold_left_app. fold (be_fold 0 (rev b)).
  fold (be_fold (be_fold 0 (rev b)) (rev a)). rewrite be_fold_spec by (by apply Forall_rev). rewrite length_rev. unfold zlen. ring.
Qed.

(** [(x >> a) | (y << b)] of two words whose parts do not overlap. *)
Lemma lor_parts w x y b : 0 ≤ b ≤ w → in_width b x → 0 ≤ y → Z.lor x (wshl w y b) = x + 2 ^ b * (y mod 2 ^ (w - b)).
Proof.
  intros Hb Hx Hy. unfold wshl, wrap. rewrite Z.shiftl_mul_pow2 by lia.
  assert (2 ^ w = 2 ^ (w - b) * 2 ^ b) as E by (rewrite <- Z.pow_add_r by lia; f_equal; lia).
  rewrite E, Z.mul_mod_distr_r by lia. rewrite <- Z.shiftl_mul_pow2 by lia. rewrite Z.lor_comm, lor_shiftl_add by (done || lia).
  ring.
Qed.

Lemma split16 m : length m = 16%nat → bytes_ok m →
  ∃ t0 t1, le_value (take 8 m) = t0 ∧ le_value (drop 8 m) = t1 ∧ 0 ≤ t0 < 2 ^ 64 ∧ 0 ≤ t1 < 2 ^ 64 ∧ le_value m = t0 + 2 ^ 64 * t1.
Proof.
  intros Hl Hb. eexists _, _. split_and!; [done|done|..].
  1-4: pose proof (le_value_range (take 8 m) ltac:(by apply Forall_take)) as Hr0; pose proof (le_value_range (drop 8 m) ltac:(by apply Forall_drop)) as Hr1;
    rewrite length_take in Hr0; rewrite length_drop in Hr1; unfold in_width in *; rewrite Hl in *; cbn in Hr0, Hr1; lia.
  rewrite <- (take_drop 8 m) at 1. rewrite le_value_app by (by apply Forall_take || by apply Forall_drop). unfold zlen. by rewrite length_take, Hl.
Qed.

(** The three limbs of a block. *)
Lemma limbs44 t0 t1 : 0 ≤ t0 < 2 ^ 64 → 0 ≤ t1 < 2 ^ 64 →
  Z.land (Z.lor (Z.shiftr t0 44) (wshl 64 t1 20)) M44 = t0 / 2 ^ 44 + 2 ^ 20 * (t1 mod 2 ^ 24)
  ∧ Z.land (Z.shiftr t1 24) M42 = t1 / 2 ^ 24.
Proof.
  intros H0 H1. rewrite land_M44, land_M42, !Z.shiftr_div_pow2 by lia. rewrite lor_parts; [|lia|unfold in_width; Z.div_mod_to_equations; lia|lia].
  split; [|apply Z.mod_small; Z.div_mod_to_equations; lia].
  change (64 - 20) with 44. replace (2 ^ 44) with (2 ^ 20 * 2 ^ 24) by done. rewrite Z.rem_mul_r by lia. Z.div_mod_to_equations. lia.
Qed.

Lemma add_block_spec b0 b1 b2 h m full : below3 b0 b1 b2 h → b0 ≤ 2 ^ 60 → b1 ≤ 2 ^ 60 → b2 ≤ 2 ^ 60 → length m = 16%nat → bytes_ok m →
  below3 (b0 + 2 ^ 44) (b1 + 2 ^ 44) (b2 + 2 ^ 41) (add_block h m full)
  ∧ val3 (add_block h m full) = val3 h + le_value m + 2 ^ 128 * Z.b2z full.
Proof.
  destruct h as [[h0 h1] h2]. intros (H0 & H1 & H2) B0 B1 B2 Hl Hb. destruct (split16 m Hl Hb) as (t0 & t1 & E0 & E1 & T0 & T1 & ->).
  unfold add_block. rewrite E0, E1. destruct (limbs44 t0 t1 T0 T1) as [-> ->]. rewrite land_M44.
  assert (0 ≤ Z.b2z full ≤ 1) as Hf by (destruct full; cbn; lia).
  rewrite lor_parts; [|lia|unfold in_width; Z.div_mod_to_equations; lia|lia]. rewrite (Z.mod_small (Z.b2z full)) by lia.
  rewrite !wadd_exact by (Z.div_mod_to_equations; lia). unfold below3, val3. Z.div_mod_to_equations. lia.
Qed.

(** One pass of carries: the top limb's carry comes back multiplied by five. *)
Lemma carry_pass_spec b0 b1 b2 h0 h1 h2 : below3 b0 b1 b2 (h0, h1, h2) → b0 ≤ 2 ^ 60 → b1 ≤ 2 ^ 60 → b2 ≤ 2 ^ 60 →
  ∃ l0 l1 l2 c1 c2 c3, carry_pass (h0, h1, h2) = (l0, l1 + c3, l2)
    ∧ h1 = 2 ^ 44 * c1 + l1 ∧ h2 + c1 = 2 ^ 42 * c2 + l2 ∧ h0 + 5 * c2 = 2 ^ 44 * c3 + l0
    ∧ 0 ≤ l0 < 2 ^ 44 ∧ 0 ≤ l1 < 2 ^ 44 ∧ 0 ≤ l2 < 2 ^ 42.
Proof.
  intros (H0 & H1 & H2) B0 B1 B2. unfold carry_pass. rewrite !Z.shiftr_div_pow2, !land_M44, !land_M42 by lia.
  exists ((h0 + (h2 + h1 / 2 ^ 44) / 2 ^ 42 * 5) mod 2 ^ 44), (h1 mod 2 ^ 44), ((h2 + h1 / 2 ^ 44) mod 2 ^ 42), (h1 / 2 ^ 44), ((h2 + h1 / 2 ^ 44) / 2 ^ 42),
    ((h0 + (h2 + h1 / 2 ^ 44) / 2 ^ 42 * 5) / 2 ^ 44).
  set (c1 := h1 / 2 ^ 44). assert (0 ≤ c1 < 2 ^ 17 ∧ h1 = 2 ^ 44 * c1 + h1 mod 2 ^ 44 ∧ 0 ≤ h1 mod 2 ^ 44 < 2 ^ 44) as (C1 & E1 & L1) by (unfold c1; Z.div_mod_to_equations; lia).
  clearbody c1. rewrite (wadd_exact 64 h2) by lia. set (c2 := (h2 + c1) / 2 ^ 42).
  assert (0 ≤ c2 < 2 ^ 19 ∧ h2 + c1 = 2 ^ 42 * c2 + (h2 + c1) mod 2 ^ 42 ∧ 0 ≤ (h2 + c1) mod 2 ^ 42 < 2 ^ 42) as (C2 & E2 & L2) by (unfold c2; Z.div_mod_to_equations; lia).
  clearbody c2. rewrite (wmul_exact 64 c2) by lia. rewrite (wadd_exact 64 h0) by lia. set (c3 := (h0 + c2 * 5) / 2 ^ 44).
  assert (0 ≤ c3 < 2 ^ 17 ∧ h0 + c2 * 5 = 2 ^ 44 * c3 + (h0 + c2 * 5) mod 2 ^ 44 ∧ 0 ≤ (h0 + c2 * 5) mod 2 ^ 44 < 2 ^ 44) as (C3 & E3 & L3) by (unfold c3; Z.div_mod_to_equations; lia).
  clearbody c3. rewrite (wadd_exact 64 (h1 mod _)) by lia. split_and!; try done; lia.
Qed.

Lemma carry_spec st : below3 (2 ^ 48) (2 ^ 48) (2 ^ 48) (s6_h st) →
  below3 (2 ^ 44) (2 ^ 44) (2 ^ 42) (st64_carry st) ∧ val3 (st64_carry st) ≡ₚ₅ val3 (s6_h st).
Proof.
  unfold st64_carry. destruct (s6_h st) as [[h0 h1] h2]. intros Hh.
  destruct (carry_pass_spec _ _ _ h0 h1 h2 Hh) as (l0 & l1 & l2 & c1 & c2 & c3 & -> & E1 & E2 & E3 & L0 & L1 & L2); [lia..|].
  destruct Hh as (H0 & H1 & H2). assert (0 ≤ c3 < 2 ^ 8 ∧ 0 ≤ c1 ∧ 0 ≤ c2) as (C3 & C1 & C2) by lia.
  destruct (carry_pass_spec (2 ^ 44) (2 ^ 45) (2 ^ 42) l0 (l1 + c3) l2) as (k0 & k1 & k2 & e1 & e2 & e3 & -> & F1 & F2 & F3 & K0 & K1 & K2).
  - unfold below3. lia.
  - lia.
  - lia.
  - lia.
  - split.
    + unfold below3. lia.
    + exists (- c2 - e2). unfold val3, P. lia.
Qed.

(** The masked choice between [h] and [h + 5 - 2^130]. *)
Lemma mask_of w g : 1 < w → - 2 ^ (w - 1) ≤ g < 2 ^ (w - 1) →
  let mask := wsub w (Z.shiftr (wrap w g) (w - 1)) 1 in
  mask = (if 0 <=? g then 2 ^ w - 1 else 0) ∧ wnot w mask = (if 0 <=? g then 0 else 2 ^ w - 1).
Proof.
  intros Hw Hg. assert (2 ^ w = 2 * 2 ^ (w - 1)) as E by (rewrite <- Z.pow_succ_r by lia; f_equal; lia).
  assert (0 < 2 ^ (w - 1)) by lia. rewrite Z.shiftr_div_pow2 by lia. unfold wsub, wnot, Z.lnot. cbv zeta. destruct (Z.leb_spec 0 g) as [H0|H0].
  - rewrite (wrap_small w g) by (unfold in_width; lia). rewrite Z.div_small by lia. unfold wrap.
    rewrite <- (Z_mod_plus_full (0 - 1) 1 (2 ^ w)). rewrite (Z.mod_small (0 - 1 + 1 * 2 ^ w)) by lia. split; [lia|].
    rewrite <- (Z_mod_plus_full _ 1 (2 ^ w)). rewrite Z.mod_small; lia.
  - assert (wrap w g = g + 2 ^ w) as -> by (unfold wrap; rewrite <- (Z_mod_plus_full g 1 (2 ^ w)); rewrite Z.mod_small; lia).
    replace ((g + 2 ^ w) / 2 ^ (w - 1)) with 1 by (apply Z.div_unique with (r := g + 2 ^ (w - 1)); lia).
    unfold wrap. rewrite Z.sub_diag, Z.mod_0_l by lia. split; [done|]. rewrite <- (Z_mod_plus_full _ 1 (2 ^ w)). rewrite Z.mod_small; lia.
Qed.

Lemma land_full w x : 0 ≤ w → in_width w x → Z.land x (2 ^ w - 1) = x.
Proof. intros Hw Hx. rewrite land_mask by done. by apply wrap_small. Qed.

Lemma choose_masked w (b : bool) h g : 0 ≤ w → in_width w h → in_width w g →
  Z.lor (Z.land h (if b then 0 else 2 ^ w - 1)) (Z.land g (if b then 2 ^ w - 1 else 0)) = if b then g else h.
Proof. intros Hw Hh Hg. destruct b; rewrite land_full, Z.land_0_r, ?Z.lor_0_r, ?Z.lor_0_l by done; done. Qed.

Lemma repack44 h0 h1 h2 : below3 (2 ^ 44) (2 ^ 44) (2 ^ 42) (h0, h1, h2) →
  Z.lor (Z.lor h0 (wshl 64 h1 44)) (wshl 128 (Z.lor (Z.shiftr h1 20) (wshl 64 h2 24)) 64) = val3 (h0, h1, h2) mod 2 ^ 128.
Proof.
  intros (H0 & H1 & H2). rewrite (lor_parts 64 h0), (Z.shiftr_div_pow2 h1) by (done || lia).
  rewrite (lor_parts 64 (h1 / _)); [|lia|unfold in_width; Z.div_mod_to_equations; lia|lia]. change (64 - 44) with 20. change (64 - 24) with 40.
  rewrite lor_parts; [|lia|unfold in_width; Z.div_mod_to_equations; lia|Z.div_mod_to_equations; lia]. change (128 - 64) with 64.
  rewrite (Z.mod_small (_ + _ * _) (2 ^ 64)) by (Z.div_mod_to_equations; lia). unfold val3.
  apply Z.mod_unique with (q := h2 / 2 ^ 40); [left|]; Z.div_mod_to_equations; lia.
Qed.

Lemma reduce_spec st : below3 (2 ^ 48) (2 ^ 48) (2 ^ 48) (s6_h st) → st64_reduce st = (val3 (s6_h st) mod P) mod 2 ^ 128.
Proof.
  intros Hh. destruct (carry_spec st Hh) as [Hc Hv]. apply cong_modeq in Hv. rewrite <- Hv. unfold st64_reduce. clear Hh Hv.
  destruct (st64_carry st) as [[h0 h1] h2]. cbv zeta. pose proof Hc as (H0 & H1 & H2).
  rewrite !(Z.shiftr_div_pow2 _ 44) by lia. rewrite !land_M44. rewrite (wadd_exact 64 h0) by lia.
  set (c0 := (h0 + 5) / 2 ^ 44). assert (0 ≤ c0 ≤ 1 ∧ h0 + 5 = 2 ^ 44 * c0 + (h0 + 5) mod 2 ^ 44 ∧ 0 ≤ (h0 + 5) mod 2 ^ 44 < 2 ^ 44) as (C0 & E0 & L0) by (unfold c0; Z.div_mod_to_equations; lia).
  set (g0 := (h0 + 5) mod 2 ^ 44) in *. clearbody c0 g0. rewrite (wadd_exact 64 h1) by lia.
  set (c1 := (h1 + c0) / 2 ^ 44). assert (0 ≤ c1 ≤ 1 ∧ h1 + c0 = 2 ^ 44 * c1 + (h1 + c0) mod 2 ^ 44 ∧ 0 ≤ (h1 + c0) mod 2 ^ 44 < 2 ^ 44) as (C1 & E1 & L1) by (unfold c1; Z.div_mod_to_equations; lia).
  set (g1 := (h1 + c0) mod 2 ^ 44) in *. clearbody c1 g1. rewrite (wadd_exact 64 h2) by lia.
  change (wsub 64 (h2 + c1) (2 ^ 42)) with (wrap 64 (h2 + c1 - 2 ^ 42)). set (g := h2 + c1 - 2 ^ 42).
  destruct (mask_of 64 g ltac:(lia) ltac:(lia)) as [E2 E3]. change (64 - 1) with 63 in E2, E3. rewrite E3, E2. rewrite !choose_masked by (try lia; unfold in_width; try lia; apply wrap_range; lia).
  assert (val3 (h0, h1, h2) mod P = if 0 <=? g then val3 (g0, g1, g) else val3 (h0, h1, h2)) as ->.
  { destruct (Z.leb_spec 0 g) as [Hg|Hg].
    - symmetry. apply Z.mod_unique with (q := 1); unfold val3, P, g in *; [left; lia|lia].
    - apply Z.mod_small. unfold val3, P, g in *. lia. }
  destruct (Z.leb_spec 0 g) as [Hg|Hg].
  - rewrite (wrap_small 64 g) by (unfold in_width; lia). apply repack44. unfold below3. lia.
  - by apply repack44.
Qed.

(** * The polynomial *)

(** The clamped evaluation point of RFC 8439. *)
Definition clamp (key : bytes) : Z := Z.land (le_value key) 0x0ffffffc_0ffffffc_0ffffffc_0fffffff.

(** Serial evaluation over whole blocks, not reduced. *)
Definition horner (r : Z) (a : Z) (blocks : list bytes) : Z := foldl (λ a m, (a + (le_value m + 2 ^ 128)) * r) a blocks.

Lemma eq_cong a b : a = b → a ≡ₚ₅ b.
Proof. by intros ->. Qed.

#[global] Instance horner_proper r : Proper (cong5 ==> eq ==> cong5) (horner r).
Proof.
  intros a b Hab l k ->. revert a b Hab. induction k as [|m k IH]; intros a b Hab; [done|]. cbn [horner foldl]. apply IH. by rewrite Hab.
Qed.

Lemma horner_app r a l k : horner r a (l ++ k) = horner r (horner r a l) k.
Proof. apply foldl_app. Qed.

Definition block_ok (n : nat) (m : bytes) : Prop := length m = n ∧ bytes_ok m.

Lemma land_split lo hi a b : in_width 64 lo → in_width 64 a →
  Z.land (lo + 2 ^ 64 * hi) (a + 2 ^ 64 * b) = Z.land lo a + 2 ^ 64 * Z.land hi b.
Proof.
  intros Hlo Ha.
  assert (∀ x y, in_width 64 x → x + 2 ^ 64 * y = Z.lor (Z.shiftl y 64) x) as E by (intros x y Hx; rewrite lor_shiftl_add by (done || lia); lia).
  rewrite !E by (first [done|apply land_in_width; [lia|done|apply Ha]]). apply Z.bits_inj'. intros i Hi.
  rewrite !Z.land_spec, !Z.lor_spec, !Z.shiftl_spec, !Z.land_spec by done. destruct (Z.lt_ge_cases i 64).
  - rewrite !(Z.testbit_neg_r _ (i - 64)) by lia. done.
  - rewrite !(testbit_high 64 _ i) by done. by rewrite !orb_false_r.
Qed.

(** ** The radix-[2^44] state *)

(** The state holds [r] and [r^2], and an accumulator congruent to [a]. *)
Definition rep64 (st : State64) (r a : Z) : Prop :=
  tight3 (s6_r st) ∧ below3 (2 ^ 44) (2 ^ 44) (2 ^ 40) (s6_r st) ∧ val3 (s6_r st) = r ∧ s6_s st = mults20 (s6_r st)
  ∧ tight3 (s6_r2 st) ∧ val3 (s6_r2 st) ≡ₚ₅ r * r ∧ s6_s2 st = mults20 (s6_r2 st)
  ∧ below3 (2 ^ 46 + 2 ^ 12) (2 ^ 46 + 2 ^ 12) (2 ^ 46 + 2 ^ 12) (s6_h st) ∧ val3 (s6_h st) ≡ₚ₅ a.

Lemma below3_weaken a b c a' b' c' h : below3 a b c h → a ≤ a' → b ≤ b' → c ≤ c' → below3 a' b' c' h.
Proof. destruct h as [[? ?] ?]. unfold below3. lia. Qed.

Lemma new64_rep key : block_ok 16 key → rep64 (st64_new key) (clamp key) 0.
Proof.
  intros [Hl Hb]. destruct (split16 key Hl Hb) as (t0 & t1 & E0 & E1 & T0 & T1 & Ek). unfold st64_new. rewrite E0, E1.
  set (u0 := Z.land t0 _). set (u1 := Z.land t1 _).
  assert (clamp key = u0 + 2 ^ 64 * u1) as Ec.
  { unfold clamp, u0, u1. rewrite Ek. change 0x0ffffffc_0ffffffc_0ffffffc_0fffffff with (0x0ffffffc0fffffff + 2 ^ 64 * 0x0ffffffc0ffffffc).
    apply land_split; [done|by vm_compute]. }
  assert (0 ≤ u0 < 2 ^ 64 ∧ 0 ≤ u1 < 2 ^ 64) as [U0 U1] by (split; apply land_in_width; done || lia).
  destruct (limbs44 u0 u1 U0 U1) as [-> ->]. rewrite land_M44. clearbody u0 u1.
  set (r := (u0 mod 2 ^ 44, u0 / 2 ^ 44 + 2 ^ 20 * (u1 mod 2 ^ 24), u1 / 2 ^ 24)).
  assert (below3 (2 ^ 44) (2 ^ 44) (2 ^ 40) r) as Hrc by (unfold r, below3; Z.div_mod_to_equations; lia).
  assert (tight3 r) as Hr by (by apply (below3_weaken _ _ _ _ _ _ _ Hrc)).
  assert (val3 r = clamp key) as Hv by (rewrite Ec; unfold r, val3; Z.div_mod_to_equations; lia).
  destruct (mul_spec r r) as [Ht2 Hv2]; [by apply (below3_weaken _ _ _ _ _ _ _ Hr)|done|].
  unfold rep64. cbn [s6_r s6_s s6_r2 s6_s2 s6_h]. split_and!; try done. by rewrite Hv2, Hv.
Qed.

(** Adding a block and multiplying. *)
Lemma absorb_spec b h r s m full : below3 b b b h → b ≤ 2 ^ 46 + 2 ^ 12 → tight3 r → s = mults20 r → block_ok 16 m →
  tight3 (mul (add_block h m full) r s) ∧ val3 (mul (add_block h m full) r s) ≡ₚ₅ (val3 h + (le_value m + 2 ^ 128 * Z.b2z full)) * val3 r.
Proof.
  intros Hh Hb Hr -> [Hl Hm]. destruct (add_block_spec b b b h m full Hh) as [H1 E1]; [lia..|done|done|].
  destruct (mul_spec (add_block h m full) r) as [H2 E2]; [by apply (below3_weaken _ _ _ _ _ _ _ H1); lia|done|]. split; [done|].
  rewrite E2, E1. apply eq_cong. ring.
Qed.

Lemma tight_lazy h : tight3 h → below3 (2 ^ 46 + 2 ^ 12) (2 ^ 46 + 2 ^ 12) (2 ^ 46 + 2 ^ 12) h.
Proof. intros Hh. by apply (below3_weaken _ _ _ _ _ _ _ Hh). Qed.

Lemma block64_rep st r a m full : rep64 st r a → block_ok 16 m → rep64 (st64_block st m full) r ((a + (le_value m + 2 ^ 128 * Z.b2z full)) * r).
Proof.
  intros (Hr & Hrc & Hrv & Hs & Hr2 & Hr2v & Hs2 & Hh & Hhv) Hm. unfold st64_block.
  destruct (absorb_spec _ (s6_h st) (s6_r st) (s6_s st) m full Hh ltac:(lia) Hr Hs Hm) as [Ht Hv].
  unfold rep64. cbn [s6_r s6_s s6_r2 s6_s2 s6_h update]. split_and!; try done; [by apply tight_lazy|]. by rewrite Hv, Hhv, Hrv.
Qed.

(** A product can leave the middle limb above [2^44]: one block under a clamped key. *)
Example block_middle_limb :
  let key := [0xff; 0xff; 0xff; 0x0f; 0xfc; 0xff; 0xff; 0x0f; 0xfc; 0xff; 0xff; 0; 0; 0; 0; 0] in
  let m := [0xab; 0x89; 0x67; 0x45; 0x23; 0xf1; 0xb6; 0xf6; 0x69; 0xfc; 0xc7; 0xff; 0xff; 0xff; 0xff; 0xff] in
  let '(_, h1, _) := s6_h (st64_block (st64_new key) m true) in h1 = 2 ^ 44 + 17.
Proof. vm_compute. reflexivity. Qed.

Lemma blocks64_rep st r a l : rep64 st r a → Forall (block_ok 16) l → rep64 (foldl (λ st m, st64_block st m true) st l) r (horner r a l).
Proof.
  intros Hst Hl. revert st a Hst. induction Hl as [|m l Hm Hl IH]; intros st a Hst; [done|]. cbn [foldl horner]. apply IH.
  pose proof (block64_rep st r a m true Hst Hm) as H1. cbn [Z.b2z] in H1. by rewrite Z.mul_1_r in H1.
Qed.

(** ** Interleaved stripes *)

(** The blocks of a group of [n] blocks. *)
Definition blocks_of (n : nat) (q : bytes) : list bytes := sub16 q <$> seq 0 n.

Lemma blocks_of_ok n q : block_ok (16 * n) q → Forall (block_ok 16) (blocks_of n q).
Proof.
  intros [Hl Hb]. apply Forall_fmap, Forall_seq. intros j Hj. unfold compose, sub16. split; [rewrite length_take, length_drop; lia|by apply Forall_take, Forall_drop].
Qed.

Lemma chunks_blocks n : (0 < n)%nat → ∀ q rest, length q = (16 * n)%nat → chunks_exact 16 (q ++ rest) = blocks_of n q ++ chunks_exact 16 rest.
Proof.
  intros Hn. clear Hn. induction n as [|n IH]; intros q rest Hq; [destruct q; [done|cbn in Hq; lia]|].
  rewrite <- (take_drop 16 q) at 1. rewrite <- app_assoc. rewrite chunks_exact_cons by (rewrite ?length_take; lia).
  rewrite IH by (rewrite length_drop; lia). unfold blocks_of. cbn [seq fmap list_fmap app]. f_equal. f_equal.
  rewrite <- fmap_S_seq, <- list_fmap_compose. apply list_fmap_ext. intros _ i _. unfold compose, sub16. rewrite drop_drop. do 2 f_equal. lia.
Qed.

Lemma chunks_groups n k : (0 < n)%nat → ∀ data, block_ok (16 * n * k) data →
  chunks_exact 16 data = concat (blocks_of n <$> chunks_exact (16 * n) data)
  ∧ Forall (block_ok (16 * n)) (chunks_exact (16 * n) data) ∧ length (chunks_exact (16 * n) data) = k.
Proof.
  intros Hn. induction k as [|k IH]; intros data [Hl Hb]; [destruct data; [done|cbn in Hl; lia]|].
  assert (length (take (16 * n) data) = (16 * n)%nat) as Ht by (rewrite length_take; lia). rewrite <- (take_drop (16 * n) data).
  rewrite (chunks_blocks n Hn) by done. rewrite chunks_exact_cons by (done || lia). cbn [fmap list_fmap concat length].
  destruct (IH (drop (16 * n) data)) as (E1 & E2 & E3); [split; [rewrite length_drop; lia|by apply Forall_drop]|].
  rewrite <- E1, E3. split_and!; [done| |done]. constructor; [split; [done|by apply Forall_take]|done].
Qed.

(** The sum of tight stripes. *)
Lemma add3_tight n h g : below3 (n * 2 ^ 44) (n * (2 ^ 44 + 2 ^ 9)) (n * 2 ^ 42) h → tight3 g → 0 ≤ n ≤ 64 →
  below3 ((n + 1) * 2 ^ 44) ((n + 1) * (2 ^ 44 + 2 ^ 9)) ((n + 1) * 2 ^ 42) (add3 h g) ∧ val3 (add3 h g) = val3 h + val3 g.
Proof.
  destruct h as [[h0 h1] h2], g as [[g0 g1] g2]. intros (H0 & H1 & H2) (G0 & G1 & G2) Hn. unfold add3.
  rewrite !wadd_exact by lia. unfold below3, val3. lia.
Qed.

Local Abbreviation lim := (below3 (2 ^ 46 + 2 ^ 12) (2 ^ 46 + 2 ^ 12) (2 ^ 46 + 2 ^ 12)).

(** A multiplier: a value with its wrap-around multiples. *)
Definition mult_of (p : limbs3 * (Z * Z)) (v : Z) : Prop := tight3 p.1 ∧ p.2 = mults20 p.1 ∧ val3 p.1 ≡ₚ₅ v.

Lemma stripe_spec p v h m : mult_of p v → lim h → block_ok 16 m →
  tight3 (mul (add_block h m true) p.1 p.2) ∧ val3 (mul (add_block h m true) p.1 p.2) ≡ₚ₅ (val3 h + (le_value m + 2 ^ 128)) * v.
Proof.
  intros (Hp & Hs & Hv) Hh Hm. destruct (absorb_spec _ h p.1 p.2 m true Hh ltac:(lia) Hp Hs Hm) as [Ht E]. split; [done|].
  rewrite E, Hv. cbn [Z.b2z]. by rewrite Z.mul_1_r.
Qed.

Section pairs.
Context (r : Z).

(** [a] is the serial accumulator: [a·r = ha·r + hb]. *)
Definition pair_inv (a : Z) (hs : limbs3 * limbs3) : Prop :=
  lim hs.1 ∧ lim hs.2 ∧ a * r ≡ₚ₅ val3 hs.1 * r + val3 hs.2.

Lemma horner_pair a q : horner r a (blocks_of 2 q) = (a + (le_value (sub16 q 0) + 2 ^ 128)) * (r * r) + (le_value (sub16 q 1) + 2 ^ 128) * r.
Proof using Type. cbn [blocks_of seq fmap list_fmap horner foldl]. ring. Qed.

Lemma pair_step_inv p2 a hs q : mult_of p2 (r * r) → pair_inv a hs → block_ok 32 q →
  pair_inv (horner r a (blocks_of 2 q)) (pair_step p2 p2 hs q).
Proof using Type.
  intros Hp (Ha & Hb & Hi) Hq. destruct hs as [ha hb]. cbn [fst snd] in *. pose proof (blocks_of_ok 2 q Hq) as Hf.
  apply Forall_cons in Hf as [H0 Hf]. apply Forall_cons in Hf as [H1 _]. unfold pair_step.
  destruct (stripe_spec p2 _ ha _ Hp Ha H0) as [Ta Va]. destruct (stripe_spec p2 _ hb _ Hp Hb H1) as [Tb Vb].
  split_and!; [by apply tight_lazy|by apply tight_lazy|]. cbn [fst snd]. rewrite Va, Vb, horner_pair.
  transitivity (a * r * (r * r) + (le_value (sub16 q 0) + 2 ^ 128) * r * (r * r) + (le_value (sub16 q 1) + 2 ^ 128) * (r * r)); [apply eq_cong; ring|].
  rewrite Hi. apply eq_cong. ring.
Qed.

Lemma pair_fold_inv p2 l : mult_of p2 (r * r) → Forall (block_ok 32) l → ∀ a hs, pair_inv a hs →
  pair_inv (horner r a (concat (blocks_of 2 <$> l))) (foldl (pair_step p2 p2) hs l).
Proof using Type.
  intros Hp Hl. induction Hl as [|q l Hq Hl IH]; intros a hs Hi; [done|]. cbn [fmap list_fmap concat foldl]. rewrite horner_app. apply IH. by apply pair_step_inv.
Qed.

Lemma pair_last p2 p1 a hs q : mult_of p2 (r * r) → mult_of p1 r → pair_inv a hs → block_ok 32 q →
  let '(ha, hb) := pair_step p2 p1 hs q in tight3 ha ∧ tight3 hb ∧ val3 ha + val3 hb ≡ₚ₅ horner r a (blocks_of 2 q).
Proof using Type.
  intros Hp Hp1 (Ha & Hb & Hi) Hq. destruct hs as [ha hb]. cbn [fst snd] in *. pose proof (blocks_of_ok 2 q Hq) as Hf.
  apply Forall_cons in Hf as [H0 Hf]. apply Forall_cons in Hf as [H1 _]. unfold pair_step.
  destruct (stripe_spec p2 _ ha _ Hp Ha H0) as [Ta Va]. destruct (stripe_spec p1 _ hb _ Hp1 Hb H1) as [Tb Vb].
  split_and!; [done|done|]. rewrite Va, Vb, horner_pair.
  transitivity ((val3 ha * r + val3 hb) * r + (le_value (sub16 q 0) + 2 ^ 128) * (r * r) + (le_value (sub16 q 1) + 2 ^ 128) * r); [apply eq_cong; ring|].
  rewrite <- Hi. apply eq_cong. ring.
Qed.
End pairs.

(** The groups, the last one apart. *)
Lemma groups_split n k data : (0 < n)%nat → (0 < k)%nat → block_ok (16 * n * k) data →
  let l := chunks_exact (16 * n) data in
  Forall (block_ok (16 * n)) (removelast l) ∧ block_ok (16 * n) (List.last l [])
  ∧ chunks_exact 16 data = concat (blocks_of n <$> removelast l) ++ blocks_of n (List.last l []).
Proof.
  intros Hn Hk Hd l. destruct (chunks_groups n k Hn data Hd) as (E & Hf & Hl). fold l in E, Hf, Hl.
  assert (l ≠ []) as Hne by (destruct l; [cbn in Hl; lia|done]). pose proof (app_removelast_last [] Hne) as El.
  rewrite El in Hf. apply Forall_app in Hf as [Hf1 Hf2]. apply Forall_cons in Hf2 as [Hf2 _]. split_and!; [done|done|].
  rewrite E. rewrite El at 1. rewrite fmap_app, concat_app. cbn. by rewrite app_nil_r.
Qed.

Lemma blocks2_rep st r a k data : rep64 st r a → (0 < k)%nat → block_ok (32 * k) data → rep64 (blocks2 st data) r (horner r a (chunks_exact 16 data)).
Proof.
  intros (Hr & Hrc & Hrv & Hs & Hr2 & Hr2v & Hs2 & Hh & Hhv) Hk Hd. destruct (groups_split 2 k data ltac:(lia) Hk Hd) as (Hf & Hlast & E).
  cbn [Nat.mul Nat.add] in Hf, Hlast, E. unfold blocks2. set (l := chunks_exact 32 data) in *.
  assert (mult_of (s6_r2 st, s6_s2 st) (r * r)) as Hp2 by (by split_and!). assert (mult_of (s6_r st, s6_s st) r) as Hp1 by (split_and!; [done|done|by rewrite <- Hrv]).
  assert (pair_inv r a (s6_h st, (0, 0, 0))) as H0 by (split_and!; [done|by vm_compute|cbn [fst snd]; rewrite Hhv; apply eq_cong; unfold val3; ring]).
  pose proof (pair_fold_inv r _ (removelast l) Hp2 Hf a _ H0) as Hi. pose proof (pair_last r _ _ _ _ _ Hp2 Hp1 Hi Hlast) as Hfin.
  destruct (pair_step _ _ _ _) as [ha hb]. destruct Hfin as (Ta & Tb & Hv). rewrite E, horner_app.
  destruct (add3_tight 1 ha hb) as [Hb Ev]; [by rewrite !Z.mul_1_l|done|lia|].
  unfold rep64. cbn [s6_r s6_s s6_r2 s6_s2 s6_h update]. split_and!; try done; [apply (below3_weaken _ _ _ _ _ _ _ Hb); lia|]. by rewrite Ev, Hv.
Qed.

Section quads.
Context (r : Z).

(** [a·r^3 = ha·r^3 + hb·r^2 + hc·r + hd] *)
Definition quad_inv (a : Z) (hs : limbs3 * limbs3 * limbs3 * limbs3) : Prop :=
  let '(ha, hb, hc, hd) := hs in
  lim ha ∧ lim hb ∧ lim hc ∧ lim hd
  ∧ a * (r * r * r) ≡ₚ₅ val3 ha * (r * r * r) + val3 hb * (r * r) + val3 hc * r + val3 hd.

(** A block with its high bit. *)
Definition mval (q : bytes) (i : nat) : Z := le_value (sub16 q i) + 2 ^ 128.

Lemma horner_quad a q :
  horner r a (blocks_of 4 q) = (a + mval q 0) * (r * r * r * r) + mval q 1 * (r * r * r) + mval q 2 * (r * r) + mval q 3 * r.
Proof using Type. cbn [blocks_of seq fmap list_fmap horner foldl]. unfold mval. ring. Qed.

(** Every stripe absorbs its block and is multiplied. *)
Lemma quad_step_spec pa pb pc pd va vb vc vd a hs q : mult_of pa va → mult_of pb vb → mult_of pc vc → mult_of pd vd → quad_inv a hs → block_ok 64 q →
  let '(ha, hb, hc, hd) := hs in
  let '(ka, kb, kc, kd) := quad_step pa pb pc pd hs q in
  tight3 ka ∧ tight3 kb ∧ tight3 kc ∧ tight3 kd
  ∧ val3 ka ≡ₚ₅ (val3 ha + mval q 0) * va ∧ val3 kb ≡ₚ₅ (val3 hb + mval q 1) * vb
  ∧ val3 kc ≡ₚ₅ (val3 hc + mval q 2) * vc ∧ val3 kd ≡ₚ₅ (val3 hd + mval q 3) * vd.
Proof using Type.
  intros Pa Pb Pc Pd Hi Hq. destruct hs as [[[ha hb] hc] hd]. destruct Hi as (Ha & Hb & Hc & Hd & _). pose proof (blocks_of_ok 4 q Hq) as Hf.
  cbn [blocks_of seq fmap list_fmap] in Hf. rewrite !Forall_cons in Hf. destruct Hf as (F0 & F1 & F2 & F3 & _). unfold quad_step.
  destruct (stripe_spec pa _ ha _ Pa Ha F0) as [Ta Va]. destruct (stripe_spec pb _ hb _ Pb Hb F1) as [Tb Vb].
  destruct (stripe_spec pc _ hc _ Pc Hc F2) as [Tc Vc]. destruct (stripe_spec pd _ hd _ Pd Hd F3) as [Td Vd]. by split_and!.
Qed.

Lemma quad_step_inv p4 a hs q : mult_of p4 (r * r * r * r) → quad_inv a hs → block_ok 64 q →
  quad_inv (horner r a (blocks_of 4 q)) (quad_step p4 p4 p4 p4 hs q).
Proof using Type.
  intros Hp Hi Hq. pose proof (quad_step_spec _ _ _ _ _ _ _ _ a hs q Hp Hp Hp Hp Hi Hq) as Hs. destruct hs as [[[ha hb] hc] hd].
  destruct (quad_step _ _ _ _ _ _) as [[[ka kb] kc] kd]. destruct Hs as (Ta & Tb & Tc & Td & Va & Vb & Vc & Vd). destruct Hi as (_ & _ & _ & _ & Hi).
  split_and!; [by apply tight_lazy..|]. rewrite Va, Vb, Vc, Vd, horner_quad.
  transitivity ((a * (r * r * r) + mval q 0 * (r * r * r) + mval q 1 * (r * r) + mval q 2 * r + mval q 3) * (r * r * r * r)); [apply eq_cong; ring|].
  rewrite Hi. apply eq_cong. ring.
Qed.

Lemma quad_fold_inv p4 l : mult_of p4 (r * r * r * r) → Forall (block_ok 64) l → ∀ a hs, quad_inv a hs →
  quad_inv (horner r a (concat (blocks_of 4 <$> l))) (foldl (quad_step p4 p4 p4 p4) hs l).
Proof using Type.
  intros Hp Hl. induction Hl as [|q l Hq Hl IH]; intros a hs Hi; [done|]. cbn [fmap list_fmap concat foldl]. rewrite horner_app. apply IH. by apply quad_step_inv.
Qed.

Lemma quad_last p4 p3 p2 p1 a hs q : mult_of p4 (r * r * r * r) → mult_of p3 (r * r * r) → mult_of p2 (r * r) → mult_of p1 r → quad_inv a hs → block_ok 64 q →
  let '(ka, kb, kc, kd) := quad_step p4 p3 p2 p1 hs q in
  tight3 ka ∧ tight3 kb ∧ tight3 kc ∧ tight3 kd ∧ val3 ka + val3 kb + val3 kc + val3 kd ≡ₚ₅ horner r a (blocks_of 4 q).
Proof using Type.
  intros P4 P3 P2 P1 Hi Hq. pose proof (quad_step_spec _ _ _ _ _ _ _ _ a hs q P4 P3 P2 P1 Hi Hq) as Hs. destruct hs as [[[ha hb] hc] hd].
  destruct (quad_step _ _ _ _ _ _) as [[[ka kb] kc] kd]. destruct Hs as (Ta & Tb & Tc & Td & Va & Vb & Vc & Vd). destruct Hi as (_ & _ & _ & _ & Hi).
  split_and!; [done..|]. rewrite Va, Vb, Vc, Vd, horner_quad.
  transitivity ((val3 ha * (r * r * r) + val3 hb * (r * r) + val3 hc * r + val3 hd) * r
    + mval q 0 * (r * r * r * r) + mval q 1 * (r * r * r) + mval q 2 * (r * r) + mval q 3 * r); [apply eq_cong; ring|].
  rewrite <- Hi. apply eq_cong. ring.
Qed.
End quads.

Lemma mult_of_mul a b va vb : tight3 a → val3 a ≡ₚ₅ va → mult_of b vb → mult_of (mul a b.1 b.2, mults20 (mul a b.1 b.2)) (va * vb).
Proof.
  intros Ha Hva (Hb & Hs & Hvb). rewrite Hs. destruct (mul_spec a b.1) as [Ht Hv]; [by apply (below3_weaken _ _ _ _ _ _ _ Ha)|done|].
  split_and!; [done|done|]. cbn [fst]. by rewrite Hv, Hva, Hvb.
Qed.

Lemma mult_of_cong p v v' : mult_of p v → v ≡ₚ₅ v' → mult_of p v'.
Proof. intros (H1 & H2 & H3) Hv. split_and!; [done|done|]. by rewrite H3. Qed.

Lemma blocks4_rep st r a k data : rep64 st r a → (0 < k)%nat → block_ok (64 * k) data → rep64 (blocks4 st data) r (horner r a (chunks_exact 16 data)).
Proof.
  intros (Hr & Hrc & Hrv & Hs & Hr2 & Hr2v & Hs2 & Hh & Hhv) Hk Hd. destruct (groups_split 4 k data ltac:(lia) Hk Hd) as (Hf & Hlast & E).
  cbn [Nat.mul Nat.add] in Hf, Hlast, E. unfold blocks4. set (l := chunks_exact 64 data) in *.
  assert (mult_of (s6_r2 st, s6_s2 st) (r * r)) as P2 by (by split_and!). assert (mult_of (s6_r st, s6_s st) r) as P1 by (split_and!; [done|done|by rewrite <- Hrv]).
  pose proof (mult_of_mul _ _ _ _ Hr2 Hr2v P1) as P3. pose proof (mult_of_mul _ _ _ _ Hr2 Hr2v P2) as P4. cbn [fst snd] in P3, P4.
  apply (mult_of_cong _ _ (r * r * r * r)) in P4; [|apply eq_cong; ring].
  assert (quad_inv r a (s6_h st, (0, 0, 0), (0, 0, 0), (0, 0, 0))) as H0.
  { split_and!; [done|by vm_compute|by vm_compute|by vm_compute|]. rewrite Hhv. apply eq_cong. unfold val3. ring. }
  pose proof (quad_fold_inv r _ (removelast l) P4 Hf a _ H0) as Hi. pose proof (quad_last r _ _ _ _ _ _ _ P4 P3 P2 P1 Hi Hlast) as Hfin.
  destruct (quad_step _ _ _ _ _ _) as [[[ha hb] hc] hd]. destruct Hfin as (Ta & Tb & Tc & Td & Hv). rewrite E, horner_app.
  destruct (add3_tight 1 ha hb) as [Hb1 Ev1]; [by rewrite !Z.mul_1_l|done|lia|]. destruct (add3_tight 2 _ hc Hb1 Tc) as [Hb2 Ev2]; [lia|].
  destruct (add3_tight 3 _ hd Hb2 Td) as [Hb3 Ev3]; [lia|].
  unfold rep64. cbn [s6_r s6_s s6_r2 s6_s2 s6_h update]. split_and!; try done; [apply (below3_weaken _ _ _ _ _ _ _ Hb3); lia|]. by rewrite Ev3, Ev2, Ev1, Hv.
Qed.

(** ** Limbs of 26 bits *)

Definition val5 (h : limbs5) : Z :=
  let '(h0, h1, h2, h3, h4) := h in h0 + h1 * 2 ^ 26 + h2 * 2 ^ 52 + h3 * 2 ^ 78 + h4 * 2 ^ 104.
Definition below5 (b b1 : Z) (h : limbs5) : Prop :=
  let '(h0, h1, h2, h3, h4) := h in 0 ≤ h0 < b ∧ 0 ≤ h1 < b1 ∧ 0 ≤ h2 < b ∧ 0 ≤ h3 < b ∧ 0 ≤ h4 < b.

Abbreviation lazy5 := (below5 (2 ^ 28) (2 ^ 28)).
Abbreviation tight5 := (below5 (2 ^ 26) (2 ^ 26 + 2 ^ 7)).

Definition mults5 (r : limbs5) : Z * Z * Z * Z := let '(_, r1, r2, r3, r4) := r in (r1 * 5, r2 * 5, r3 * 5, r4 * 5).

Lemma column5 w A a0 b0 a1 b1 a2 b2 a3 b3 a4 b4 B0 B1 B2 B3 B4 :
  0 ≤ a0 < A → 0 ≤ a1 < A → 0 ≤ a2 < A → 0 ≤ a3 < A → 0 ≤ a4 < A →
  0 ≤ b0 < B0 → 0 ≤ b1 < B1 → 0 ≤ b2 < B2 → 0 ≤ b3 < B3 → 0 ≤ b4 < B4 → A * (B0 + B1 + B2 + B3 + B4) ≤ 2 ^ w →
  let d := a0 * b0 + a1 * b1 + a2 * b2 + a3 * b3 + a4 * b4 in
  a0 *[w] b0 +[w] a1 *[w] b1 +[w] a2 *[w] b2 +[w] a3 *[w] b3 +[w] a4 *[w] b4 = d ∧ 0 ≤ d < A * (B0 + B1 + B2 + B3 + B4).
Proof.
  intros Ha0 Ha1 Ha2 Ha3 Ha4 Hb0 Hb1 Hb2 Hb3 Hb4 Hw. cbv zeta.
  assert (∀ a b B, 0 ≤ a < A → 0 ≤ b < B → 0 ≤ a * b < A * B) as Hm by (clear; nia).
  pose proof (Hm _ _ _ Ha0 Hb0) as P0. pose proof (Hm _ _ _ Ha1 Hb1) as P1. pose proof (Hm _ _ _ Ha2 Hb2) as P2. pose proof (Hm _ _ _ Ha3 Hb3) as P3. pose proof (Hm _ _ _ Ha4 Hb4) as P4.
  rewrite !Z.mul_add_distr_l in *. rewrite !wmul_exact by lia. set (p0 := a0 * b0) in *. set (p1 := a1 * b1) in *. set (p2 := a2 * b2) in *. set (p3 := a3 * b3) in *. set (p4 := a4 * b4) in *.
  clearbody p0 p1 p2 p3 p4. rewrite (wadd_exact w p0), (wadd_exact w (p0 + p1)), (wadd_exact w (p0 + p1 + p2)), (wadd_exact w (p0 + p1 + p2 + p3)) by lia. lia.
Qed.

(** Splitting a column into its limb and its carry. *)
Lemma split_limb n d : 0 ≤ n → 0 ≤ d → ∃ c l, Z.shiftr d n = c ∧ d mod 2 ^ n = l ∧ d = 2 ^ n * c + l ∧ 0 ≤ l < 2 ^ n ∧ 0 ≤ c.
Proof.
  intros Hn Hd. exists (d / 2 ^ n), (d mod 2 ^ n). rewrite Z.shiftr_div_pow2 by done.
  pose proof (Z.div_mod d (2 ^ n)). pose proof (Z.mod_pos_bound d (2 ^ n)). pose proof (Z.div_pos d (2 ^ n)). split_and!; lia.
Qed.

Lemma chain5 d0 d1 d2 d3 d4 : 0 ≤ d0 < 2 ^ 59 → 0 ≤ d1 < 2 ^ 59 → 0 ≤ d2 < 2 ^ 59 → 0 ≤ d3 < 2 ^ 59 → 0 ≤ d4 < 6 * 2 ^ 54 →
  let c := Z.shiftr d0 26 in
  let nh0 := Z.land (as_u32 d0) M26 in
  let d1' := d1 +[64] c in
  let c := Z.shiftr d1' 26 in
  let nh1 := Z.land (as_u32 d1') M26 in
  let d2' := d2 +[64] c in
  let c := Z.shiftr d2' 26 in
  let nh2 := Z.land (as_u32 d2') M26 in
  let d3' := d3 +[64] c in
  let c := Z.shiftr d3' 26 in
  let nh3 := Z.land (as_u32 d3') M26 in
  let d4' := d4 +[64] c in
  let c := Z.shiftr d4' 26 in
  let nh4 := Z.land (as_u32 d4') M26 in
  let nh0 := nh0 +[64] c *[64] 5 in
  let carry := as_u32 (Z.shiftr nh0 26) in
  let o := (Z.land (as_u32 nh0) M26, nh1 +[32] carry, nh2, nh3, nh4) in
  tight5 o ∧ val5 o ≡ₚ₅ d0 + d1 * 2 ^ 26 + d2 * 2 ^ 52 + d3 * 2 ^ 78 + d4 * 2 ^ 104.
Proof.
  intros D0 D1 D2 D3 D4. cbv zeta. rewrite !land_M26, !wrap_mod by lia.
  destruct (split_limb 26 d0 ltac:(lia) ltac:(lia)) as (c0 & l0 & -> & -> & E0 & L0 & C0). rewrite (wadd_exact 64 d1) by lia.
  destruct (split_limb 26 (d1 + c0) ltac:(lia) ltac:(lia)) as (c1 & l1 & -> & -> & E1 & L1 & C1). rewrite (wadd_exact 64 d2) by lia.
  destruct (split_limb 26 (d2 + c1) ltac:(lia) ltac:(lia)) as (c2 & l2 & -> & -> & E2 & L2 & C2). rewrite (wadd_exact 64 d3) by lia.
  destruct (split_limb 26 (d3 + c2) ltac:(lia) ltac:(lia)) as (c3 & l3 & -> & -> & E3 & L3 & C3). rewrite (wadd_exact 64 d4) by lia.
  destruct (split_limb 26 (d4 + c3) ltac:(lia) ltac:(lia)) as (c4 & l4 & -> & -> & E4 & L4 & C4). rewrite (wmul_exact 64 c4), (wadd_exact 64 l0) by lia.
  destruct (split_limb 26 (l0 + c4 * 5) ltac:(lia) ltac:(lia)) as (c5 & l5 & -> & -> & E5 & L5 & C5).
  rewrite (wrap_small 32 c5) by (unfold in_width; lia). rewrite (wadd_exact 32 l1) by lia. split; [unfold below5; lia|].
  exists (- c4). unfold val5, P. lia.
Qed.

Lemma mul26_spec h r : lazy5 h → below5 (2 ^ 26 + 2 ^ 9) (2 ^ 26 + 2 ^ 9) r → let o := mul26 h r (mults5 r) in tight5 o ∧ val5 o ≡ₚ₅ val5 h * val5 r.
Proof.
  destruct h as [[[[h0 h1] h2] h3] h4], r as [[[[r0 r1] r2] r3] r4]. intros (H0 & H1 & H2 & H3 & H4) (R0 & R1 & R2 & R3 & R4).
  assert (∀ r, 0 ≤ r < 2 ^ 26 + 2 ^ 9 → 0 ≤ r * 5 < 5 * (2 ^ 26 + 2 ^ 9)) as Hs by (intros; lia).
  pose proof (Hs r1 R1) as S1. pose proof (Hs r2 R2) as S2. pose proof (Hs r3 R3) as S3. pose proof (Hs r4 R4) as S4. unfold mul26, mults5.
  edestruct (column5 64 (2 ^ 28) h0 r0 h1 (r4 * 5) h2 (r3 * 5) h3 (r2 * 5) h4 (r1 * 5)) as [-> D0]; [eassumption..|done|].
  edestruct (column5 64 (2 ^ 28) h0 r1 h1 r0 h2 (r4 * 5) h3 (r3 * 5) h4 (r2 * 5)) as [-> D1]; [eassumption..|done|].
  edestruct (column5 64 (2 ^ 28) h0 r2 h1 r1 h2 r0 h3 (r4 * 5) h4 (r3 * 5)) as [-> D2]; [eassumption..|done|].
  edestruct (column5 64 (2 ^ 28) h0 r3 h1 r2 h2 r1 h3 r0 h4 (r4 * 5)) as [-> D3]; [eassumption..|done|].
  edestruct (column5 64 (2 ^ 28) h0 r4 h1 r3 h2 r2 h3 r1 h4 r0) as [-> D4]; [eassumption..|done|].
  cbv zeta in D0, D1, D2, D3, D4.
  match type of D0 with 0 ≤ ?d < _ => set (d0 := d) in * end. match type of D1 with 0 ≤ ?d < _ => set (d1 := d) in * end.
  match type of D2 with 0 ≤ ?d < _ => set (d2 := d) in * end. match type of D3 with 0 ≤ ?d < _ => set (d3 := d) in * end.
  match type of D4 with 0 ≤ ?d < _ => set (d4 := d) in * end.
  destruct (chain5 d0 d1 d2 d3 d4) as [Ht Hv].
  1-5: split; [apply D0 || apply D1 || apply D2 || apply D3 || apply D4|eapply Z.lt_le_trans; [apply D0 || apply D1 || apply D2 || apply D3 || apply D4|done]].
  split; [exact Ht|]. etransitivity; [exact Hv|].
  exists (- (h1 * r4 + h2 * r3 + h3 * r2 + h4 * r1 + (h2 * r4 + h3 * r3 + h4 * r2) * 2 ^ 26 + (h3 * r4 + h4 * r3) * 2 ^ 52 + h4 * r4 * 2 ^ 78)).
  unfold val5, P, d0, d1, d2, d3, d4. ring.
Qed.

(** ** The radix-[2^26] state *)

Definition rep32 (st : State32) (r a : Z) : Prop :=
  below5 (2 ^ 26) (2 ^ 26) (s3_r st) ∧ val5 (s3_r st) = r ∧ s3_s st = mults5 (s3_r st) ∧ tight5 (s3_h st) ∧ val5 (s3_h st) ≡ₚ₅ a.

(** Four bytes of a block are 32 bits of its value. *)
Lemma le32_bits b i : block_ok 16 b → (i ≤ 12)%nat → le32 b i = (le_value b / 2 ^ (8 * Z.of_nat i)) mod 2 ^ 32.
Proof.
  intros [Hl Hb] Hi. unfold le32. set (x := take i b). set (y := take 4 (drop i b)). set (z := drop 4 (drop i b)).
  assert (b = x ++ y ++ z) as E by (unfold x, y, z; by rewrite !take_drop).
  assert (bytes_ok x ∧ bytes_ok y ∧ bytes_ok z) as (Hx & Hy & Hz) by (unfold x, y, z; split_and!; repeat first [apply Forall_take|apply Forall_drop]; done).
  rewrite E, !le_value_app by (first [done|by apply Forall_app]). pose proof (le_value_range x Hx) as Rx. pose proof (le_value_range y Hy) as Ry.
  assert (length x = i ∧ length y = 4%nat) as [Lx Ly] by (unfold x, y; rewrite !length_take, length_drop; lia). unfold zlen, in_width in *. rewrite Lx, Ly in *.
  set (k := 2 ^ (8 * Z.of_nat i)) in *. assert (0 < k) by (unfold k; lia). change (8 * Z.of_nat 4) with 32 in *.
  rewrite (Z.add_comm (le_value x)), Z.mul_comm, Z.div_add_l by lia. rewrite (Z.div_small (le_value x)) by lia. rewrite Z.add_0_r.
  rewrite (Z.add_comm (le_value y)), Z.mul_comm, Z.add_comm, Z_mod_plus_full. symmetry. by apply Z.mod_small.
Qed.

(** A number as five limbs. *)
Lemma limbs5_sum x : 0 ≤ x < 2 ^ 130 →
  val5 (x mod 2 ^ 26, (x / 2 ^ 26) mod 2 ^ 26, (x / 2 ^ 52) mod 2 ^ 26, (x / 2 ^ 78) mod 2 ^ 26, (x / 2 ^ 104) mod 2 ^ 26) = x.
Proof. intros Hx. unfold val5. Z.div_mod_to_equations. lia. Qed.

(** A limb of a masked number is the limb masked. *)
Lemma limb_land x c k : 0 ≤ k → (Z.land x c / 2 ^ k) mod 2 ^ 26 = Z.land (x / 2 ^ k) ((c / 2 ^ k) mod 2 ^ 26).
Proof.
  intros Hk. rewrite <- !Z.shiftr_div_pow2, Z.shiftr_land by done. rewrite <- !(Z.land_ones _ 26) by lia. by rewrite Z.land_assoc.
Qed.

Lemma land_low n x m : 0 ≤ n → in_width n m → Z.land (x mod 2 ^ n) m = Z.land x m.
Proof. intros Hn Hm. rewrite <- (Z.land_ones x n) by done. rewrite <- Z.land_assoc. f_equal. rewrite Z.land_comm, Z.land_ones by done. by apply wrap_small. Qed.

(** A shifted 32-bit window, masked. *)
Lemma window x i s m : 0 ≤ x → 0 ≤ s ≤ 32 → 0 ≤ i → in_width (32 - s) m →
  Z.land (Z.shiftr ((x / 2 ^ i) mod 2 ^ 32) s) m = Z.land (x / 2 ^ (i + s)) m.
Proof.
  intros Hx Hs Hi Hm. rewrite Z.shiftr_div_pow2 by lia. replace (2 ^ 32) with (2 ^ s * 2 ^ (32 - s)) by (rewrite <- Z.pow_add_r by lia; f_equal; lia).
  rewrite Z.rem_mul_r by lia. rewrite Z.add_comm, Z.mul_comm, Z.div_add_l, (Z.div_small (_ mod _)) by (try lia; apply Z.mod_pos_bound; lia).
  rewrite Z.add_0_r, Z.div_div by lia. rewrite <- Z.pow_add_r by lia. apply land_low; [lia|done].
Qed.

Lemma new32_rep key : block_ok 16 key → rep32 (st32_new key) (clamp key) 0.
Proof.
  intros Hk. pose proof Hk as [Hl Hb]. pose proof (le_value_range key Hb) as Hr. rewrite Hl in Hr. change (8 * Z.of_nat 16) with 128 in Hr.
  set (x := le_value key) in *. unfold st32_new. rewrite !le32_bits by (done || lia). fold x.
  set (C := 0x0ffffffc_0ffffffc_0ffffffc_0fffffff). assert (clamp key = Z.land x C) as Ec by done.
  assert (in_width 128 (Z.land x C)) as Hc by (apply land_in_width; [lia|exact Hr|by vm_compute]). rewrite Ec. unfold in_width in Hr, Hc.
  assert (Z.land ((x / 2 ^ (8 * Z.of_nat 0)) mod 2 ^ 32) 0x03ff_ffff = Z.land x C mod 2 ^ 26) as ->.
  { change (2 ^ (8 * Z.of_nat 0)) with 1. rewrite Z.div_1_r, land_low by (lia || by vm_compute). pose proof (limb_land x C 0 ltac:(lia)) as E. by rewrite !Z.div_1_r in E. }
  rewrite !window by (first [lia|by vm_compute]).
  change (2 ^ (8 * Z.of_nat 3 + 2)) with (2 ^ 26). change (2 ^ (8 * Z.of_nat 6 + 4)) with (2 ^ 52).
  change (2 ^ (8 * Z.of_nat 9 + 6)) with (2 ^ 78). change (2 ^ (8 * Z.of_nat 12 + 8)) with (2 ^ 104).
  change 0x03ff_ff03 with ((C / 2 ^ 26) mod 2 ^ 26). change 0x03ff_c0ff with ((C / 2 ^ 52) mod 2 ^ 26).
  change 0x03f0_3fff with ((C / 2 ^ 78) mod 2 ^ 26). change 0x000f_ffff with ((C / 2 ^ 104) mod 2 ^ 26). rewrite <- !limb_land by lia.
  set (y := Z.land x C) in *. clearbody y. unfold rep32. cbn [s3_r s3_s s3_h].
  assert (∀ z, 0 ≤ z mod 2 ^ 26 < 2 ^ 26) as Hm by (intros; apply Z.mod_pos_bound; lia).
  split_and!; [unfold below5; repeat split; apply Hm|apply limbs5_sum; lia| |by vm_compute|done]. unfold mults5.
  rewrite !wmul_exact by (match goal with |- 0 ≤ ?z mod _ * _ < _ => pose proof (Hm z) end; lia). done.
Qed.

Lemma limbs26_spec m (full : bool) : block_ok 16 m →
  below5 (2 ^ 26) (2 ^ 26) (limbs26 m (wshl 32 (Z.b2z full) 24)) ∧ val5 (limbs26 m (wshl 32 (Z.b2z full) 24)) = le_value m + 2 ^ 128 * Z.b2z full.
Proof.
  intros Hm. pose proof Hm as [Hl Hb]. pose proof (le_value_range m Hb) as Hr. rewrite Hl in Hr. change (8 * Z.of_nat 16) with 128 in Hr.
  unfold limbs26. rewrite !le32_bits by (done || lia). set (x := le_value m) in *. unfold in_width in Hr.
  change (2 ^ (8 * Z.of_nat 0)) with 1. rewrite Z.div_1_r. change (8 * Z.of_nat 4) with 32. change (8 * Z.of_nat 8) with 64. change (8 * Z.of_nat 12) with 96.
  assert (∃ t0 t1 t2 t3, x mod 2 ^ 32 = t0 ∧ (x / 2 ^ 32) mod 2 ^ 32 = t1 ∧ (x / 2 ^ 64) mod 2 ^ 32 = t2 ∧ (x / 2 ^ 96) mod 2 ^ 32 = t3
    ∧ x = t0 + 2 ^ 32 * t1 + 2 ^ 64 * t2 + 2 ^ 96 * t3 ∧ 0 ≤ t0 < 2 ^ 32 ∧ 0 ≤ t1 < 2 ^ 32 ∧ 0 ≤ t2 < 2 ^ 32 ∧ 0 ≤ t3 < 2 ^ 32) as
    (t0 & t1 & t2 & t3 & -> & -> & -> & -> & -> & T0 & T1 & T2 & T3).
  { exists (x mod 2 ^ 32), ((x / 2 ^ 32) mod 2 ^ 32), ((x / 2 ^ 64) mod 2 ^ 32), ((x / 2 ^ 96) mod 2 ^ 32). split_and!; try reflexivity; Z.div_mod_to_equations; lia. }
  assert (0 ≤ Z.b2z full ≤ 1) as Hf by (destruct full; cbn; lia).
  rewrite !land_M26, !Z.shiftr_div_pow2 by lia. rewrite !lor_parts by (first [lia|unfold in_width; Z.div_mod_to_equations; lia]).
  change (32 - 6) with 26. change (32 - 12) with 20. change (32 - 18) with 14. change (32 - 24) with 8. rewrite (Z.mod_small (Z.b2z full)) by lia.
  assert (∀ u t a b, 0 ≤ a → 0 ≤ b → a + b = 26 → 0 ≤ t → 0 ≤ u < 2 ^ a → (u + 2 ^ a * t) mod 2 ^ 26 = u + 2 ^ a * (t mod 2 ^ b)) as Hp.
  { intros u t a b Ha Hb' <- Ht Hu. rewrite Z.pow_add_r, Z.rem_mul_r, (Z.mul_comm (2 ^ a) t) by lia.
    rewrite Z_mod_plus_full, Z.div_add, (Z.div_small u), (Z.mod_small u) by lia. by rewrite Z.add_0_l. }
  rewrite (Hp (t0 / 2 ^ 26) _ 6 20), (Hp (t1 / 2 ^ 20) _ 12 14), (Hp (t2 / 2 ^ 14) _ 18 8) by (Z.div_mod_to_equations; lia).
  unfold below5, val5. Z.div_mod_to_equations. lia.
Qed.

Lemma block32_rep st r a m full : rep32 st r a → block_ok 16 m → rep32 (st32_block st m full) r ((a + (le_value m + 2 ^ 128 * Z.b2z full)) * r).
Proof.
  intros (Hr & Hrv & Hs & Hh & Hhv) Hm. unfold st32_block. cbv zeta. destruct (limbs26_spec m full Hm) as [Hb Ev].
  destruct (limbs26 m _) as [[[[m0 m1] m2] m3] m4]. destruct (s3_h st) as [[[[h0 h1] h2] h3] h4] eqn:Eh.
  destruct Hb as (B0 & B1 & B2 & B3 & B4). destruct Hh as (H0 & H1 & H2 & H3 & H4). rewrite !(wadd_exact 32) by lia. rewrite Hs.
  destruct (mul26_spec (h0 + m0, h1 + m1, h2 + m2, h3 + m3, h4 + m4) (s3_r st)) as [Ht Hv].
  - unfold below5. lia.
  - destruct (s3_r st) as [[[[? ?] ?] ?] ?]. unfold below5 in *. lia.
  - unfold rep32. cbn [s3_r s3_s s3_h]. split_and!; [done|done|done|exact Ht|].
    rewrite Hv, Hrv, <- Hhv, <- Ev. apply eq_cong. unfold val5. ring.
Qed.

Lemma repack26 h0 h1 h2 h3 h4 : below5 (2 ^ 26) (2 ^ 26) (h0, h1, h2, h3, h4) →
  Z.lor (Z.lor (Z.lor (Z.lor h0 (wshl 32 h1 26)) (wshl 128 (Z.lor (Z.shiftr h1 6) (wshl 32 h2 20)) 32))
    (wshl 128 (Z.lor (Z.shiftr h2 12) (wshl 32 h3 14)) 64)) (wshl 128 (Z.lor (Z.shiftr h3 18) (wshl 32 h4 8)) 96)
  = val5 (h0, h1, h2, h3, h4) mod 2 ^ 128.
Proof.
  intros (H0 & H1 & H2 & H3 & H4). rewrite !Z.shiftr_div_pow2 by lia.
  rewrite (lor_parts 32 h0), (lor_parts 32 (h1 / _)), (lor_parts 32 (h2 / _)), (lor_parts 32 (h3 / _)) by (first [lia|unfold in_width; Z.div_mod_to_equations; lia]).
  change (32 - 26) with 6. change (32 - 20) with 12. change (32 - 14) with 18. change (32 - 8) with 24.
  set (w0 := h0 + 2 ^ 26 * (h1 mod 2 ^ 6)). set (w1 := h1 / 2 ^ 6 + 2 ^ 20 * (h2 mod 2 ^ 12)). set (w2 := h2 / 2 ^ 12 + 2 ^ 14 * (h3 mod 2 ^ 18)).
  set (w3 := h3 / 2 ^ 18 + 2 ^ 8 * (h4 mod 2 ^ 24)).
  assert (0 ≤ w0 < 2 ^ 32 ∧ 0 ≤ w1 < 2 ^ 32 ∧ 0 ≤ w2 < 2 ^ 32 ∧ 0 ≤ w3 < 2 ^ 32) as (W0 & W1 & W2 & W3).
  { unfold w0, w1, w2, w3. Z.div_mod_to_equations. lia. }
  assert (val5 (h0, h1, h2, h3, h4) = w0 + 2 ^ 32 * w1 + 2 ^ 64 * w2 + 2 ^ 96 * w3 + 2 ^ 128 * (h4 / 2 ^ 24)) as ->.
  { unfold val5, w0, w1, w2, w3. Z.div_mod_to_equations. lia. }
  clearbody w0 w1 w2 w3. rewrite (lor_parts 128 w0 w1 32), (Z.mod_small w1) by (first [lia|unfold in_width; lia]).
  rewrite (lor_parts 128 _ w2 64), (Z.mod_small w2) by (first [lia|unfold in_width; lia]).
  rewrite (lor_parts 128 _ w3 96), (Z.mod_small w3) by (first [lia|unfold in_width; lia]).
  rewrite (Z.mul_comm (2 ^ 128)), Z_mod_plus_full. symmetry. apply Z.mod_small. lia.
Qed.

(** The carries of [reduce]: every limb ends below [2^26]. *)
Lemma reduce32_spec st : tight5 (s3_h st) → st32_reduce st = (val5 (s3_h st) mod P) mod 2 ^ 128.
Proof.
  unfold st32_reduce. destruct (s3_h st) as [[[[h0 h1] h2] h3] h4]. intros (H0 & H1 & H2 & H3 & H4). cbv zeta. rewrite !land_M26.
  destruct (split_limb 26 h1 ltac:(lia) ltac:(lia)) as (c1 & l1 & -> & -> & E1 & L1 & C1). rewrite (wadd_exact 32 h2) by lia.
  destruct (split_limb 26 (h2 + c1) ltac:(lia) ltac:(lia)) as (c2 & l2 & -> & -> & E2 & L2 & C2). rewrite (wadd_exact 32 h3) by lia.
  destruct (split_limb 26 (h3 + c2) ltac:(lia) ltac:(lia)) as (c3 & l3 & -> & -> & E3 & L3 & C3). rewrite (wadd_exact 32 h4) by lia.
  destruct (split_limb 26 (h4 + c3) ltac:(lia) ltac:(lia)) as (c4 & l4 & -> & -> & E4 & L4 & C4). rewrite (wmul_exact 32 c4), (wadd_exact 32 h0) by lia.
  destruct (split_limb 26 (h0 + c4 * 5) ltac:(lia) ltac:(lia)) as (c0 & l0 & -> & -> & E0 & L0 & C0). rewrite (wadd_exact 32 l1) by lia.
  set (k1 := l1 + c0). assert (0 ≤ k1 < 2 ^ 26) as K1 by (unfold k1; lia).
  assert (val5 (l0, k1, l2, l3, l4) mod P = val5 (h0, h1, h2, h3, h4) mod P) as <-.
  { apply cong_modeq. exists (- c4). unfold val5, P, k1. lia. }
  clearbody k1. clear h0 h1 h2 h3 h4 H0 H1 H2 H3 H4 E0 E1 E2 E3 E4 c0 c1 c2 c3 c4 C0 C1 C2 C3 C4 l1 L1. rewrite (wadd_exact 32 l0) by lia.
  destruct (split_limb 26 (l0 + 5) ltac:(lia) ltac:(lia)) as (e0 & g0 & -> & -> & F0 & G0 & D0). rewrite (wadd_exact 32 k1) by lia.
  destruct (split_limb 26 (k1 + e0) ltac:(lia) ltac:(lia)) as (e1 & g1 & -> & -> & F1 & G1 & D1). rewrite (wadd_exact 32 l2) by lia.
  destruct (split_limb 26 (l2 + e1) ltac:(lia) ltac:(lia)) as (e2 & g2 & -> & -> & F2 & G2 & D2). rewrite (wadd_exact 32 l3) by lia.
  destruct (split_limb 26 (l3 + e2) ltac:(lia) ltac:(lia)) as (e3 & g3 & -> & -> & F3 & G3 & D3). rewrite (wadd_exact 32 l4) by lia.
  change (wsub 32 (l4 + e3) (2 ^ 26)) with (wrap 32 (l4 + e3 - 2 ^ 26)). set (g := l4 + e3 - 2 ^ 26).
  destruct (mask_of 32 g ltac:(lia) ltac:(lia)) as [M1 M2]. change (32 - 1) with 31 in M1, M2. rewrite M2, M1.
  rewrite !choose_masked by (first [lia|unfold in_width; lia|apply wrap_range; lia]).
  assert (val5 (l0, k1, l2, l3, l4) mod P = if 0 <=? g then val5 (g0, g1, g2, g3, g) else val5 (l0, k1, l2, l3, l4)) as ->.
  { destruct (Z.leb_spec 0 g) as [Hg|Hg].
    - symmetry. apply Z.mod_unique with (q := 1); unfold val5, P, g in *; [left; lia|lia].
    - apply Z.mod_small. unfold val5, P, g in *. lia. }
  destruct (Z.leb_spec 0 g) as [Hg|Hg].
  - rewrite (wrap_small 32 g) by (unfold in_width; lia). apply repack26. unfold below5. lia.
  - apply repack26. unfold below5. lia.
Qed.
