(* ===== verification/PolySimd.v ===== *)
(** The vector kernels of Poly1305 ([src/cipher/poly1305.rs], modules [ifma] and [simd]):
    AVX-512 IFMA with four chains of eight lanes in radix [2^44], with the handle that the
    stitched ChaCha20-Poly1305 loop uses, and AVX2 with two accumulators of four lanes in
    radix [2^26].  The intrinsics are lane-wise, so a vector of limbs ([[__m512i; 3]]) is
    kept as the list of its lanes' limbs; loads and lane permutations are on words. *)

From S2P Require Import Prelude MdHash MdFamily HashState Vec Poly1305.

Local Notation "a +[ w ] b" := (wadd w a b) (at level 50, left associativity).
Local Notation "a *[ w ] b" := (wmul w a b) (at level 40, left associativity).

(** * AVX-512 IFMA *)

(** [_mm512_madd52lo_epu64] and [_mm512_madd52hi_epu64] in one lane. *)
Definition madd52lo (acc a b : Z) : Z := acc +[64] ((a mod 2 ^ 52) * (b mod 2 ^ 52)) mod 2 ^ 52.
Definition madd52hi (acc a b : Z) : Z := acc +[64] ((a mod 2 ^ 52) * (b mod 2 ^ 52)) / 2 ^ 52.

Definition ifma_MIN_LEN : nat := 384.
Definition CHAINS : nat := 4.

(** The block that [load8] puts into a lane, and the mask of the lanes whose exponent
    [e = 8 - j] has the bit set in [e - 1]. *)
Definition lane_block (lane : nat) : nat := (lane / 2 + 4 * (lane mod 2))%nat.
Definition exp_mask (bit : Z) : list bool := (λ lane, Z.testbit (7 - Z.of_nat (lane_block lane)) bit) <$> seq 0 8.

Definition times20 (r : Z) : Z := wshl 64 r 4 +[64] wshl 64 r 2.
Definition mults_lane (r : limbs3) : Z * Z := let '(_, r1, r2) := r in (times20 r1, times20 r2).

(** 64-bit words of a run of bytes, and their interleavings inside each 128-bit lane. *)
Definition words64 (b : bytes) : list Z := le_value <$> chunks_exact 8 b.
Fixpoint unpacklo64 (a b : list Z) : list Z :=
  match a, b with a0 :: _ :: a, b0 :: _ :: b => a0 :: b0 :: unpacklo64 a b | _, _ => [] end.
Fixpoint unpackhi64 (a b : list Z) : list Z :=
  match a, b with _ :: a1 :: a, _ :: b1 :: b => a1 :: b1 :: unpackhi64 a b | _, _ => [] end.

Definition load_lane (t0 t1 : Z) : limbs3 :=
  (Z.land t0 M44, Z.land (Z.lor (Z.shiftr t0 44) (wshl 64 t1 20)) M44, Z.lor (Z.shiftr t1 24) (2 ^ 40)).

Definition load8 (p : bytes) : list limbs3 :=
  let a := words64 (take 64 p) in
  let b := words64 (take 64 (drop 64 p)) in
  let t0 := unpacklo64 a b in
  let t1 := unpackhi64 a b in
  zip_with load_lane t0 t1.

(** One lane of [mul_add]. *)
Definition mul_add_lane (h r : limbs3) (s : Z * Z) (m : limbs3) : limbs3 :=
  let '(h0, h1, h2) := h in
  let '(r0, r1, r2) := r in
  let '(s0, s1) := s in
  let '(m0, m1, m2) := m in
  let lo := madd52lo in
  let hi := madd52hi in
  let l0 := lo (lo (lo m0 h2 s0) h0 r0) h1 s1 in
  let l1 := lo (lo (lo m1 h2 s1) h0 r1) h1 r0 in
  let l2 := lo (lo (lo m2 h2 r0) h0 r2) h1 r1 in
  let u0 := hi (hi (hi 0 h2 s0) h0 r0) h1 s1 in
  let u1 := hi (hi (hi 0 h2 s1) h0 r1) h1 r0 in
  let u2 := hi (hi (hi 0 h2 r0) h0 r2) h1 r1 in
  let l1 := l1 +[64] (Z.shiftr l0 44 +[64] wshl 64 u0 8) in
  let h0 := Z.land l0 M44 in
  let l2 := l2 +[64] (Z.shiftr l1 44 +[64] wshl 64 u1 8) in
  let h1 := Z.land l1 M44 in
  let c := Z.shiftr l2 42 +[64] wshl 64 u2 10 in
  let h2 := Z.land l2 M42 in
  let h0 := h0 +[64] (c +[64] wshl 64 c 2) in
  let h1 := h1 +[64] Z.shiftr h0 44 in
  let h0 := Z.land h0 M44 in
  (h0, h1, h2).

(** Lane-wise [h·r + m], the multiples of [r] computed by [mults]. *)
Fixpoint mul_add (h r m : list limbs3) : list limbs3 :=
  match h, r, m with
  | h0 :: h, r0 :: r, m0 :: m => mul_add_lane h0 r0 (mults_lane r0) m0 :: mul_add h r m
  | _, _, _ => []
  end.

Definition bcast (x : limbs3) : list limbs3 := replicate 8 x.
Definition zero3 : limbs3 := (0, 0, 0).
Definition zeros8 : list limbs3 := replicate 8 zero3.

(** [pw[k]] per lane, and the stride. *)
Record Pow := mkPow { pw : list (list limbs3); pow_step : list limbs3 }.

(** [[r, r^2, r^4, r^8, r^16, r^32]]: each the square of the one before. *)
Definition square (x : limbs3) : limbs3 := mul x x (mults20 x).
Definition r_pows (st : State64) : list limbs3 :=
  let p2 := square (s6_r2 st) in
  let p3 := square p2 in
  let p4 := square p3 in
  let p5 := square p4 in
  [s6_r st; s6_r2 st; p2; p3; p4; p5].

Definition pick (mask : list bool) (x : limbs3) : list limbs3 := (λ b : bool, if b then x else (1, 0, 0)) <$> mask.

Definition setup (st : State64) : Pow :=
  let rp i := nth i (r_pows st) zero3 in
  let x0 := pick (exp_mask 0) (rp 0%nat) in
  let x1 := pick (exp_mask 1) (rp 1%nat) in
  let x2 := pick (exp_mask 2) (rp 2%nat) in
  let r1 := bcast (rp 0%nat) in
  let x01 := mul_add x0 x1 zeros8 in
  let x2r := mul_add x2 r1 zeros8 in
  let lo_pow := mul_add x01 x2r zeros8 in
  let r8 := bcast (rp 3%nat) in
  let r16 := bcast (rp 4%nat) in
  let p1 := mul_add lo_pow r8 zeros8 in
  let p2 := mul_add lo_pow r16 zeros8 in
  let p3 := mul_add p1 r16 zeros8 in
  mkPow [lo_pow; p1; p2; p3] (bcast (rp 5%nat)).

(** The 128 bytes of group [g]. *)
Definition group (p : bytes) (g : nat) : bytes := take 128 (drop (128 * g) p).

(** The running [h] joins lane 0 of a vector. *)
Definition join_h (st : State64) (x : list limbs3) : list limbs3 :=
  match x with l :: x => add3 l (s6_h st) :: x | [] => [] end.

Definition start (st : State64) (p : bytes) (groups : nat) : list (list limbs3) :=
  let acc := (λ c, if (c <? groups)%nat then load8 (group p c) else zeros8) <$> seq 0 CHAINS in
  match acc with x :: acc => join_h st x :: acc | [] => [] end.

(** Chains [0 .. n] take the groups from [g] on. *)
Definition step (acc : list (list limbs3)) (pow : Pow) (p : bytes) (g n : nat) : list (list limbs3) :=
  imap (λ c x, if (c <? n)%nat then mul_add x (pow_step pow) (load8 (group p (g + c))) else x) acc.

Definition set_h44 (st : State64) (l : limbs3) : State64 :=
  let '(h0, h1, h2) := l in
  let c := Z.shiftr h0 44 in
  let h0 := Z.land h0 M44 in
  let h1 := h1 +[64] c in
  let c := Z.shiftr h1 44 in
  let h1 := Z.land h1 M44 in
  let h2 := h2 +[64] c in
  let c := Z.shiftr h2 42 in
  let h2 := Z.land h2 M42 in
  let h0 := h0 +[64] c *[64] 5 in
  let c := Z.shiftr h0 44 in
  let h0 := Z.land h0 M44 in
  let h1 := h1 +[64] c in
  st <| s6_h := (h0, h1, h2) |>.

(** Lane-wise sums, and the sum over the lanes. *)
Definition add_lanes (a b : list limbs3) : list limbs3 := zip_with add3 a b.
Definition reduce_add (v : list limbs3) : limbs3 := foldl add3 zero3 v.

Definition fold (st : State64) (pow : Pow) (acc : list (list limbs3)) (groups : nat) : State64 :=
  let folded := imap (λ c x, mul_add x (nth ((groups + CHAINS - 1 - c) mod CHAINS) (pw pow) []) zeros8) acc in
  let tot := foldl add_lanes zeros8 folded in
  set_h44 st (reduce_add tot).

(** The [while g + CHAINS <= groups] loop. *)
Fixpoint ifma_loop (fuel : nat) (acc : list (list limbs3)) (pow : Pow) (p : bytes) (g groups : nat) : list (list limbs3) * nat :=
  match fuel with
  | O => (acc, g)
  | S fuel => if (g + CHAINS <=? groups)%nat then ifma_loop fuel (step acc pow p g CHAINS) pow p (g + CHAINS) groups else (acc, g)
  end.

Definition blocks_ifma (st : State64) (data : bytes) : State64 :=
  let groups := (length data / 128)%nat in
  let pow := setup st in
  let acc := start st data groups in
  let '(acc, g) := ifma_loop groups acc pow data CHAINS groups in
  let acc := step acc pow data (g `min` groups) (groups - g) in
  fold st pow acc groups.

(** ** The stitched loop's handle *)

Record Stitch := mkStitch { sti_st : State64; sti_pow : option Pow; sti_acc : list (list limbs3); sti_groups : nat }.

Definition stitch_new (st : State64) : Stitch := mkStitch st None (replicate CHAINS zeros8) 0.

(** [None]: the power table is missing, an [expect] that cannot fail. *)
Definition stitch_absorb (s : Stitch) (p : bytes) : option Stitch :=
  let g := sti_groups s in
  let c := (g mod CHAINS)%nat in
  if (g <? CHAINS)%nat then
    if (g =? 0)%nat then Some (mkStitch (sti_st s) (Some (setup (sti_st s))) (start (sti_st s) p 1) (g + 1))
    else Some (mkStitch (sti_st s) (sti_pow s) (<[c := load8 p]> (sti_acc s)) (g + 1))
  else
    pow ← sti_pow s;
    Some (mkStitch (sti_st s) (Some pow) (<[c := mul_add (nth c (sti_acc s) []) (pow_step pow) (load8 p)]> (sti_acc s)) (g + 1)).

Definition stitch_finish (s : Stitch) : State64 :=
  match sti_pow s with Some pow => fold (sti_st s) pow (sti_acc s) (sti_groups s) | None => sti_st s end.

(** * AVX2 *)

Definition simd_MIN_LEN : nat := 256.

(** [5·r1 .. 5·r4] of a multiplier, in [u64]. *)
Definition mults5_u64 (r : limbs5) : Z * Z * Z * Z :=
  let '(_, r1, r2, r3, r4) := r in (r1 *[64] 5, r2 *[64] 5, r3 *[64] 5, r4 *[64] 5).

Definition mul_mod26 (a b : limbs5) : limbs5 := mul26 a b (mults5_u64 b).

(** [_mm256_permute4x64_epi64] on 32-bit words. *)
Definition permute4x64 (imm : Z) (v : vec) : vec :=
  let sel k := take 2 (drop (2 * Z.to_nat (Z.land (Z.shiftr imm (2 * k)) 3)) v) in
  sel 0 ++ sel 1 ++ sel 2 ++ sel 3.

(** The low four words, zero-extended. *)
Definition pick_words (v : vec) (idx : bool) : vec := take 4 (permute4x64 (if idx then 0xd else 0x8) v).

Definition load_lane26 (w0 w1 w2 w3 : Z) : limbs5 :=
  (Z.land w0 M26, Z.land (Z.lor (Z.shiftr w0 26) (wshl 64 w1 6)) M26, Z.land (Z.lor (Z.shiftr w1 20) (wshl 64 w2 12)) M26,
   Z.land (Z.lor (Z.shiftr w2 14) (wshl 64 w3 18)) M26, Z.lor (Z.shiftr w3 8) (2 ^ 24)).

Fixpoint zip_words (w0 w1 w2 w3 : vec) : list limbs5 :=
  match w0, w1, w2, w3 with
  | a :: w0, b :: w1, c :: w2, d :: w3 => load_lane26 a b c d :: zip_words w0 w1 w2 w3
  | _, _, _, _ => []
  end.

Definition load4 (m : bytes) : list limbs5 :=
  let lo := vec_words (take 32 m) in
  let hi := vec_words (take 32 (drop 32 m)) in
  let a := permute2x128 0x20 lo hi in
  let b := permute2x128 0x31 lo hi in
  let e := unpacklo_epi32 a b in
  let o := unpackhi_epi32 a b in
  zip_words (pick_words e false) (pick_words e true) (pick_words o false) (pick_words o true).

Definition times5 (v : Z) : Z := v +[64] wshl 64 v 2.
Definition mults5_lane (r : limbs5) : Z * Z * Z * Z := let '(_, r1, r2, r3, r4) := r in (times5 r1, times5 r2, times5 r3, times5 r4).

(** [_mm256_mul_epu32] in one lane. *)
Definition mul_epu32 (a b : Z) : Z := (a mod 2 ^ 32) * (b mod 2 ^ 32).

Definition mul_carry_lane (h r : limbs5) (s : Z * Z * Z * Z) : limbs5 :=
  let '(h0, h1, h2, h3, h4) := h in
  let '(r0, r1, r2, r3, r4) := r in
  let '(s0, s1, s2, s3) := s in
  let mul := mul_epu32 in
  let d0 := (mul h0 r0 +[64] mul h1 s3) +[64] (mul h2 s2 +[64] (mul h3 s1 +[64] mul h4 s0)) in
  let d1 := (mul h0 r1 +[64] mul h1 r0) +[64] (mul h2 s3 +[64] (mul h3 s2 +[64] mul h4 s1)) in
  let d2 := (mul h0 r2 +[64] mul h1 r1) +[64] (mul h2 r0 +[64] (mul h3 s3 +[64] mul h4 s2)) in
  let d3 := (mul h0 r3 +[64] mul h1 r2) +[64] (mul h2 r1 +[64] (mul h3 r0 +[64] mul h4 s3)) in
  let d4 := (mul h0 r4 +[64] mul h1 r3) +[64] (mul h2 r2 +[64] (mul h3 r1 +[64] mul h4 r0)) in
  let c := Z.shiftr d0 26 in
  let h0 := Z.land d0 M26 in
  let d1 := d1 +[64] c in
  let c := Z.shiftr d1 26 in
  let h1 := Z.land d1 M26 in
  let d2 := d2 +[64] c in
  let c := Z.shiftr d2 26 in
  let h2 := Z.land d2 M26 in
  let d3 := d3 +[64] c in
  let c := Z.shiftr d3 26 in
  let h3 := Z.land d3 M26 in
  let d4 := d4 +[64] c in
  let c := Z.shiftr d4 26 in
  let h4 := Z.land d4 M26 in
  let h0 := h0 +[64] (c +[64] wshl 64 c 2) in
  let c := Z.shiftr h0 26 in
  let h0 := Z.land h0 M26 in
  let h1 := h1 +[64] c in
  (h0, h1, h2, h3, h4).

(** Lane-wise, the multiples of [r] computed by [times5]. *)
Definition mul_carry (h r : list limbs5) : list limbs5 := zip_with (λ h r, mul_carry_lane h r (mults5_lane r)) h r.

Definition add5_u64 (a b : limbs5) : limbs5 :=
  let '(a0, a1, a2, a3, a4) := a in
  let '(b0, b1, b2, b3, b4) := b in
  (a0 +[64] b0, a1 +[64] b1, a2 +[64] b2, a3 +[64] b3, a4 +[64] b4).

(** [r] and [h] as five 26-bit limbs. *)
Definition r26 (st : State64) : limbs5 :=
  let '(r0, r1, r2) := s6_r st in
  let r := Z.lor (Z.lor r0 (wshl 128 r1 44)) (wshl 128 r2 88) in
  let limb i := Z.land (as_u32 (Z.shiftr r (26 * i))) M26 in
  (limb 0, limb 1, limb 2, limb 3, limb 4).

Definition h26 (st : State64) : limbs5 :=
  let '(h0, h1, h2) := st64_carry st in
  (as_u32 (Z.land h0 M26), as_u32 (Z.shiftr h0 26 +[64] wshl 64 (Z.land h1 0xff) 18), as_u32 (Z.land (Z.shiftr h1 8) M26),
   as_u32 (Z.shiftr h1 34 +[64] wshl 64 (Z.land h2 0xffff) 10), as_u32 (Z.shiftr h2 16)).

Definition set_h26 (st : State64) (l : limbs5) : State64 :=
  let '(l0, l1, l2, l3, l4) := l in
  st <| s6_h := (l0 +[64] wshl 64 (Z.land l1 0x3ffff) 26,
                 Z.shiftr l1 18 +[64] wshl 64 l2 8 +[64] wshl 64 (Z.land l3 0x3ff) 34,
                 Z.shiftr l3 10 +[64] wshl 64 l4 16) |>.

(** One 128-byte stripe: both accumulators advance by [r^8] and take their four blocks. *)
Definition stripe_step (rr : list limbs5) (s : list limbs5 * list limbs5) (q : bytes) : list limbs5 * list limbs5 :=
  (zip_with add5_u64 (mul_carry s.1 rr) (load4 (take 64 q)), zip_with add5_u64 (mul_carry s.2 rr) (load4 (drop 64 q))).

(** The carry of the lane sums. *)
Definition carry_sums (sum : limbs5) : limbs5 :=
  let '(s0, s1, s2, s3, s4) := sum in
  let c := Z.shiftr s0 26 in
  let h0 := Z.land (as_u32 s0) M26 in
  let s1 := s1 +[64] c in
  let c := Z.shiftr s1 26 in
  let h1 := Z.land (as_u32 s1) M26 in
  let s2 := s2 +[64] c in
  let c := Z.shiftr s2 26 in
  let h2 := Z.land (as_u32 s2) M26 in
  let s3 := s3 +[64] c in
  let c := Z.shiftr s3 26 in
  let h3 := Z.land (as_u32 s3) M26 in
  let s4 := s4 +[64] c in
  let c := Z.shiftr s4 26 in
  let h4 := Z.land (as_u32 s4) M26 in
  let h0 := h0 +[64] c *[64] 5 in
  let carry := as_u32 (Z.shiftr h0 26) in
  (Z.land (as_u32 h0) M26, h1 +[32] carry, h2, h3, h4).

(** The sum of four lanes. *)
Definition sum_lanes (v : list limbs5) : limbs5 :=
  match v with
  | [a; b; c; d] => add5_u64 (add5_u64 (add5_u64 a b) c) d
  | _ => (0, 0, 0, 0, 0)
  end.

Definition blocks_avx2 (st : State64) (data : bytes) : State64 :=
  let r1 := r26 st in
  let r2 := mul_mod26 r1 r1 in
  let r3 := mul_mod26 r2 r1 in
  let r4 := mul_mod26 r2 r2 in
  let r5 := mul_mod26 r4 r1 in
  let r6 := mul_mod26 r4 r2 in
  let r7 := mul_mod26 r4 r3 in
  let r8 := mul_mod26 r4 r4 in
  let rr := replicate 4 r8 in
  let ha := load4 (take 64 data) in
  let hb := load4 (take 64 (drop 64 data)) in
  let ha := match ha with a :: ha => add5_u64 a (h26 st) :: ha | [] => [] end in
  let '(ha, hb) := foldl (stripe_step rr) (ha, hb) (chunks_exact 128 (drop 128 data)) in
  let ha := mul_carry ha [r8; r7; r6; r5] in
  let hb := mul_carry hb [r4; r3; r2; r1] in
  let sum := sum_lanes (zip_with add5_u64 ha hb) in
  set_h26 st (carry_sums sum).

(** * The IFMA lanes *)

(** Low and high halves of a column of three products. *)
Lemma column52 A m a b c d e f B D F : A ≤ 2 ^ 52 → B ≤ 2 ^ 50 → D ≤ 2 ^ 50 → F ≤ 2 ^ 50 → 0 ≤ m < 2 ^ 46 →
  0 ≤ a < A → 0 ≤ c < A → 0 ≤ e < A → 0 ≤ b < B → 0 ≤ d < D → 0 ≤ f < F →
  let l := madd52lo (madd52lo (madd52lo m a b) c d) e f in
  let u := madd52hi (madd52hi (madd52hi 0 a b) c d) e f in
  l + 2 ^ 52 * u = m + (a * b + c * d + e * f) ∧ 0 ≤ l < 2 ^ 54 ∧ 0 ≤ u
  ∧ 0 ≤ a * b + c * d + e * f < A * (B + D + F).
Proof.
  intros HA HB HD HF Hm Ha Hc He Hb Hd Hf. cbv zeta. unfold madd52lo, madd52hi. rewrite !Z.mod_small with (b := 2 ^ 52) (a := a) by lia.
  rewrite (Z.mod_small b), (Z.mod_small c), (Z.mod_small d), (Z.mod_small e), (Z.mod_small f) by lia.
  assert (∀ x y Y, Y ≤ 2 ^ 50 → 0 ≤ x < A → 0 ≤ y < Y → 0 ≤ x * y < A * Y ∧ 0 ≤ (x * y) mod 2 ^ 52 < 2 ^ 52 ∧ 0 ≤ x * y / 2 ^ 52 < 2 ^ 50
    ∧ x * y = 2 ^ 52 * (x * y / 2 ^ 52) + (x * y) mod 2 ^ 52) as Hp.
  { intros x y Y HY Hx Hy. assert (0 ≤ x * y < A * Y) by nia. assert (x * y < 2 ^ 52 * 2 ^ 50) by nia.
    pose proof (Z.mod_pos_bound (x * y) (2 ^ 52)). pose proof (Z.div_mod (x * y) (2 ^ 52)). pose proof (Z.div_pos (x * y) (2 ^ 52)).
    pose proof (Z.div_lt_upper_bound (x * y) (2 ^ 52) (2 ^ 50)). lia. }
  destruct (Hp a b B HB Ha Hb) as (X0 & X1 & X2 & X3). destruct (Hp c d D HD Hc Hd) as (Y0 & Y1 & Y2 & Y3). destruct (Hp e f F HF He Hf) as (W0 & W1 & W2 & W3).
  set (p := a * b) in *. set (q := c * d) in *. set (s := e * f) in *. clearbody p q s. clear Hp.
  set (pm := p mod 2 ^ 52) in *. set (qm := q mod 2 ^ 52) in *. set (sm := s mod 2 ^ 52) in *. set (pd := p / 2 ^ 52) in *. set (qd := q / 2 ^ 52) in *. set (sd := s / 2 ^ 52) in *.
  clearbody pm qm sm pd qd sd. rewrite !wadd_exact by (rewrite ?wadd_exact; rewrite ?wadd_exact; lia).
  rewrite !Z.mul_add_distr_l. lia.
Qed.

Lemma wshl_exact w x n : 0 ≤ n → 0 ≤ x * 2 ^ n < 2 ^ w → wshl w x n = x * 2 ^ n.
Proof. intros Hn Hx. unfold wshl. rewrite Z.shiftl_mul_pow2 by done. by apply wrap_small. Qed.

Lemma mults_lane_eq r : tight3 r → mults_lane r = mults20 r.
Proof.
  destruct r as [[r0 r1] r2]. intros (R0 & R1 & R2). unfold mults_lane, mults20, times20. rewrite !wshl_exact by lia.
  rewrite !wadd_exact, !wmul_exact by lia. f_equal; lia.
Qed.

Lemma mul_add_lane_spec h r m : lazy3 h → tight3 r → below3 (2 ^ 46) (2 ^ 46) (2 ^ 46) m →
  let o := mul_add_lane h r (mults_lane r) m in tight3 o ∧ val3 o ≡ₚ₅ val3 h * val3 r + val3 m.
Proof.
  intros Hh Hr Hm. rewrite (mults_lane_eq r Hr). destruct h as [[h0 h1] h2], r as [[r0 r1] r2], m as [[m0 m1] m2].
  destruct Hh as (H0 & H1 & H2). destruct Hr as (R0 & R1 & R2). destruct Hm as (M0 & M1 & M2). unfold mults20, mul_add_lane.
  rewrite (wmul_exact 64 r1), (wmul_exact 64 r2) by lia. assert (0 ≤ r1 * 20 < 2 ^ 49 ∧ 0 ≤ r2 * 20 < 2 ^ 47) as [S1 S2] by lia.
  destruct (column52 (2 ^ 47) m0 h2 (r1 * 20) h0 r0 h1 (r2 * 20) (2 ^ 49) (2 ^ 44) (2 ^ 47) ltac:(lia) ltac:(lia) ltac:(lia) ltac:(lia) M0 H2 H0 H1 S1 R0 S2) as (E0 & L0 & U0 & D0).
  destruct (column52 (2 ^ 47) m1 h2 (r2 * 20) h0 r1 h1 r0 (2 ^ 47) (2 ^ 44 + 2 ^ 9) (2 ^ 44) ltac:(lia) ltac:(lia) ltac:(lia) ltac:(lia) M1 H2 H0 H1 S2 R1 R0) as (E1 & L1 & U1 & D1).
  destruct (column52 (2 ^ 47) m2 h2 r0 h0 r2 h1 r1 (2 ^ 44) (2 ^ 42) (2 ^ 44 + 2 ^ 9) ltac:(lia) ltac:(lia) ltac:(lia) ltac:(lia) M2 H2 H0 H1 R0 R2 R1) as (E2 & L2 & U2 & D2).
  assert (val3 (h0, h1, h2) * val3 (r0, r1, r2) = (h2 * (r1 * 20) + h0 * r0 + h1 * (r2 * 20)) + (h2 * (r2 * 20) + h0 * r1 + h1 * r0) * 2 ^ 44
    + (h2 * r0 + h0 * r2 + h1 * r1) * 2 ^ 88 + (h1 * r2 + h2 * r1 + h2 * r2 * 2 ^ 44) * 4 * P) as Ev by (unfold val3, P; ring).
  set (k := (h1 * r2 + h2 * r1 + h2 * r2 * 2 ^ 44) * 4) in *. clearbody k.
  set (d0 := h2 * (r1 * 20) + h0 * r0 + h1 * (r2 * 20)) in *. set (d1 := h2 * (r2 * 20) + h0 * r1 + h1 * r0) in *. set (d2 := h2 * r0 + h0 * r2 + h1 * r1) in *.
  set (l0 := madd52lo (madd52lo (madd52lo m0 _ _) _ _) _ _) in *. set (l1 := madd52lo (madd52lo (madd52lo m1 _ _) _ _) _ _) in *.
  set (l2 := madd52lo (madd52lo (madd52lo m2 _ _) _ _) _ _) in *. set (u0 := madd52hi (madd52hi (madd52hi 0 _ (r1 * 20)) _ _) _ _) in *.
  set (u1 := madd52hi (madd52hi (madd52hi 0 _ (r2 * 20)) _ _) _ _) in *. set (u2 := madd52hi (madd52hi (madd52hi 0 _ r0) _ _) _ _) in *.
  clearbody l0 l1 l2 u0 u1 u2 d0 d1 d2. rewrite !land_M44, !land_M42. clear S1 S2 R0 R1 R2 H0 H1 H2.
  destruct (split_limb 44 l0 ltac:(lia) ltac:(lia)) as (a0 & b0 & -> & -> & F0 & B0 & A0). rewrite (wshl_exact 64 u0) by lia. rewrite (wadd_exact 64 a0) by lia.
  rewrite (wadd_exact 64 l1) by lia. destruct (split_limb 44 (l1 + (a0 + u0 * 2 ^ 8)) ltac:(lia) ltac:(lia)) as (a1 & b1 & -> & -> & F1 & B1 & A1).
  rewrite (wshl_exact 64 u1) by lia. rewrite (wadd_exact 64 a1) by lia. rewrite (wadd_exact 64 l2) by lia.
  destruct (split_limb 42 (l2 + (a1 + u1 * 2 ^ 8)) ltac:(lia) ltac:(lia)) as (a2 & b2 & -> & -> & F2 & B2 & A2).
  rewrite (wshl_exact 64 u2) by lia. rewrite (wadd_exact 64 a2) by lia. rewrite (wshl_exact 64 (a2 + _)) by lia. rewrite (wadd_exact 64 (a2 + _)) by lia.
  rewrite (wadd_exact 64 b0) by lia. destruct (split_limb 44 (b0 + (a2 + u2 * 2 ^ 10 + (a2 + u2 * 2 ^ 10) * 2 ^ 2)) ltac:(lia) ltac:(lia)) as (a3 & b3 & -> & -> & F3 & B3 & A3).
  rewrite (wadd_exact 64 b1) by lia. cbv zeta. split; [unfold below3; lia|]. rewrite Ev. exists (- (a2 + u2 * 2 ^ 10) - k). unfold val3, P. lia.
Qed.

(** ** Vectors of lanes *)

(** Every lane [i] of the vector is within the bound and congruent to [f i]. *)
Definition lanes (B : limbs3 → Prop) (l : list limbs3) (f : nat → Z) : Prop :=
  Forall2 (λ x i, B x ∧ val3 x ≡ₚ₅ f i) l (seq 0 8).

Lemma lanes_intro B l (f : nat → Z) : l = (λ i, nth i l zero3) <$> seq 0 8 → (∀ i, (i < 8)%nat → B (nth i l zero3) ∧ val3 (nth i l zero3) ≡ₚ₅ f i) → lanes B l f.
Proof.
  intros -> Hi. unfold lanes. rewrite Forall2_fmap_l. apply Forall2_same_length_lookup_2; [done|]. intros k i j Hk Hj. apply lookup_seq in Hk as [-> Hk].
  apply lookup_seq in Hj as [-> _]. specialize (Hi k Hk). by rewrite nth_lookup, list_lookup_fmap, lookup_seq_lt in Hi by done.
Qed.

Lemma Forall2_impl_index {A B} (P R : A → B → Prop) (Q : B → Prop) l k : Forall2 P l k → Forall Q k → (∀ x y, Q y → P x y → R x y) → Forall2 R l k.
Proof. intros Hl Hk HR. induction Hl as [|x y l k Hxy Hl IH]; constructor; inversion Hk; subst; auto. Qed.

Lemma lanes_impl (B C : limbs3 → Prop) l f g : lanes B l f → (∀ x, B x → C x) → (∀ i, (i < 8)%nat → f i ≡ₚ₅ g i) → lanes C l g.
Proof.
  intros Hl HB Hf. apply (Forall2_impl_index _ _ (λ i, i < 8)%nat _ _ Hl); [apply Forall_seq; lia|].
  intros x i Hi [Hx Hv]. split; [by apply HB|]. rewrite Hv. by apply Hf.
Qed.

Lemma mul_add_lanes h r m f g k : lanes lazy3 h f → lanes tight3 r g → lanes (below3 (2 ^ 46) (2 ^ 46) (2 ^ 46)) m k →
  lanes tight3 (mul_add h r m) (λ i, f i * g i + k i).
Proof.
  unfold lanes. generalize (seq 0 8) as idx. intros idx Hh. revert r m. induction Hh as [|x i h idx [Hx Vx] Hh IH]; intros r m Hr Hm;
    inversion Hr as [|y ? r' ? [Hy Vy] Hr']; inversion Hm as [|z ? m' ? [Hz Vz] Hm']; subst; cbn [mul_add]; constructor; [|by apply IH].
  destruct (mul_add_lane_spec x y z Hx Hy Hz) as [Ht Hv]. split; [done|]. by rewrite Hv, Vx, Vy, Vz.
Qed.

Lemma replicate_lanes (B : limbs3 → Prop) x v : B x → val3 x ≡ₚ₅ v → lanes B (replicate 8 x) (λ _, v).
Proof. intros Hx Hv. unfold lanes. cbn [replicate seq]. do 8 (apply Forall2_cons_2; [by split|]). apply Forall2_nil_2. Qed.

Lemma zeros_lanes : lanes (below3 (2 ^ 46) (2 ^ 46) (2 ^ 46)) zeros8 (λ _, 0).
Proof. by apply replicate_lanes. Qed.

Lemma mul_lanes h r f g : lanes tight3 h f → lanes tight3 r g → lanes tight3 (mul_add h r zeros8) (λ i, f i * g i).
Proof.
  intros Hh Hr. eapply lanes_impl; [apply (mul_add_lanes _ _ _ _ _ _ (lanes_impl _ lazy3 _ _ f Hh ltac:(intros x Hx; by apply (below3_weaken _ _ _ _ _ _ _ Hx)) ltac:(done)) Hr zeros_lanes)|done|].
  intros i _. apply eq_cong. lia.
Qed.

Lemma bcast_lanes x v : tight3 x → val3 x ≡ₚ₅ v → lanes tight3 (bcast x) (λ _, v).
Proof. apply replicate_lanes. Qed.

Lemma pick_lanes mask x v : length mask = 8%nat → tight3 x → val3 x ≡ₚ₅ v → lanes tight3 (pick mask x) (λ i, if nth i mask false then v else 1).
Proof.
  intros Hl Hx Hv. assert (tight3 (1, 0, 0)) as H1 by by vm_compute.
  do 8 (destruct mask as [|? mask]; [done|]). destruct mask; [|done]. unfold lanes, pick. cbn [fmap list_fmap seq].
  do 8 (apply Forall2_cons_2; [cbn [nth]; case_match; by split|]). apply Forall2_nil_2.
Qed.

(** ** Loads *)

Lemma load_lane_spec m : block_ok 16 m →
  let x := load_lane (le_value (take 8 m)) (le_value (drop 8 m)) in
  below3 (2 ^ 44) (2 ^ 44) (2 ^ 41) x ∧ val3 x = le_value m + 2 ^ 128.
Proof.
  intros [Hl Hb]. destruct (split16 m Hl Hb) as (t0 & t1 & -> & -> & T0 & T1 & ->). unfold load_lane. cbv zeta.
  destruct (limbs44 t0 t1 T0 T1) as [-> _]. rewrite land_M44, Z.shiftr_div_pow2 by lia. change (2 ^ 40) with (1 * 2 ^ 40).
  rewrite lor_high by (first [lia|unfold in_width; Z.div_mod_to_equations; lia]). unfold below3, val3. Z.div_mod_to_equations. lia.
Qed.

Lemma words64_blocks n : ∀ q, length q = (16 * n)%nat →
  words64 q = concat ((λ m, [le_value (take 8 m); le_value (drop 8 m)]) <$> blocks_of n q).
Proof.
  induction n as [|n IH]; intros q Hq; [destruct q; [done|cbn in Hq; lia]|]. unfold words64 in *.
  rewrite <- (take_drop 16 q) at 1. rewrite <- (take_drop 8 (take 16 q)), <- app_assoc. assert (length (take 16 q) = 16%nat) as Ht by (rewrite length_take; lia).
  rewrite !chunks_exact_cons by (rewrite ?length_take, ?length_drop; lia). cbn [fmap list_fmap]. rewrite IH by (rewrite length_drop; lia).
  unfold blocks_of. cbn [seq fmap list_fmap concat app]. unfold sub16 at 3 4. rewrite Nat.mul_0_r, drop_0. f_equal. f_equal. f_equal.
  rewrite <- fmap_S_seq, <- !list_fmap_compose. apply list_fmap_ext. intros _ i _. unfold compose, sub16. rewrite drop_drop. replace (16 * S i)%nat with (16 + 16 * i)%nat by lia. done.
Qed.

(** Block [j] of a group of 128 bytes, with its high bit. *)
Lemma load8_eq p : length p = 128%nat → load8 p = (λ i, load_lane (le_value (take 8 (sub16 p (lane_block i)))) (le_value (drop 8 (sub16 p (lane_block i))))) <$> seq 0 8.
Proof.
  intros Hp. unfold load8. rewrite !(words64_blocks 4) by (rewrite length_take, ?length_drop; lia). cbn [blocks_of seq fmap list_fmap concat app unpacklo64 unpackhi64 zip_with].
  assert (∀ j, (j < 4)%nat → sub16 (take 64 p) j = sub16 p j ∧ sub16 (take 64 (drop 64 p)) j = sub16 p (4 + j)) as Hs.
  { intros j Hj. unfold sub16. rewrite !skipn_firstn_comm, !take_take, drop_drop. split; do 2 f_equal; lia. }
  rewrite (proj1 (Hs 0%nat ltac:(lia))), (proj1 (Hs 1%nat ltac:(lia))), (proj1 (Hs 2%nat ltac:(lia))), (proj1 (Hs 3%nat ltac:(lia))).
  rewrite (proj2 (Hs 0%nat ltac:(lia))), (proj2 (Hs 1%nat ltac:(lia))), (proj2 (Hs 2%nat ltac:(lia))), (proj2 (Hs 3%nat ltac:(lia))). reflexivity.
Qed.

Lemma load8_lanes p : block_ok 128 p → lanes (below3 (2 ^ 44) (2 ^ 44) (2 ^ 41)) (load8 p) (λ i, mval p (lane_block i)).
Proof.
  intros Hp. rewrite load8_eq by apply Hp. unfold lanes. rewrite Forall2_fmap_l. apply Forall2_same_length_lookup_2; [done|].
  intros k i j Hi Hj. apply lookup_seq in Hi as [-> Hi]. apply lookup_seq in Hj as [-> _]. cbn [Nat.add].
  assert (block_ok 16 (sub16 p (lane_block k))) as Hm.
  { pose proof (blocks_of_ok 8 p Hp) as Hf. rewrite Forall_forall in Hf. apply Hf. apply list_elem_of_fmap. exists (lane_block k). split; [done|].
    apply elem_of_seq. do 8 (destruct k as [|k]; [cbn; lia|]). lia. }
  destruct (load_lane_spec _ Hm) as [Hb Hv]. split; [done|]. by apply eq_cong.
Qed.

(** ** The powers *)

(** Evaluates masks and exponents, and compares the powers. *)
Ltac powers :=
  repeat match goal with
  | |- context [nth ?i (exp_mask ?b) ?d] => let v := eval vm_compute in (nth i (exp_mask b) d) in change (nth i (exp_mask b) d) with v; cbv iota
  | |- context [Z.pow ?x ?e] => lazymatch e with Z0 => fail | Zpos _ => fail | _ => let v := eval vm_compute in e in change (Z.pow x e) with (Z.pow x v) end
  end; ring.

Section powers.
Context (st : State64) (r a : Z) (Hst : rep64 st r a).

Lemma square_spec x v : tight3 x → val3 x ≡ₚ₅ v → tight3 (square x) ∧ val3 (square x) ≡ₚ₅ v * v.
Proof using Type.
  intros Hx Hv. destruct (mul_spec x x) as [Ht E]; [by apply (below3_weaken _ _ _ _ _ _ _ Hx)|done|]. split; [done|]. unfold square. by rewrite E, Hv.
Qed.

Lemma r_pows_spec i : (i < 6)%nat → tight3 (nth i (r_pows st) zero3) ∧ val3 (nth i (r_pows st) zero3) ≡ₚ₅ r ^ (2 ^ Z.of_nat i).
Proof using Hst.
  destruct Hst as (Hr & Hrc & Hrv & _ & Hr2 & Hr2v & _).
  destruct (square_spec _ _ Hr2 Hr2v) as [H2 V2]. destruct (square_spec _ _ H2 V2) as [H3 V3]. destruct (square_spec _ _ H3 V3) as [H4 V4]. destruct (square_spec _ _ H4 V4) as [H5 V5].
  unfold r_pows. intros Hi. destruct i as [|[|[|[|[|[|?]]]]]]; [..|lia]; cbn [nth]; (split; [done|]).
  - rewrite Hrv. apply eq_cong. powers.
  - rewrite Hr2v. apply eq_cong. powers.
  - rewrite V2. apply eq_cong. powers.
  - rewrite V3. apply eq_cong. powers.
  - rewrite V4. apply eq_cong. powers.
  - rewrite V5. apply eq_cong. powers.
Qed.

(** The power that lane [i] owes when its group is [k] groups before the last. *)
Definition owed (k i : nat) : Z := r ^ (8 * Z.of_nat k + 8 - Z.of_nat (lane_block i)).

Lemma setup_pw k : (k < 4)%nat → lanes tight3 (nth k (pw (setup st)) []) (owed k).
Proof using Hst.
  intros Hk. pose proof (r_pows_spec 0 ltac:(lia)) as [T0 V0]. pose proof (r_pows_spec 1 ltac:(lia)) as [T1 V1]. pose proof (r_pows_spec 2 ltac:(lia)) as [T2 V2].
  pose proof (r_pows_spec 3 ltac:(lia)) as [T3 V3]. pose proof (r_pows_spec 4 ltac:(lia)) as [T4 V4]. unfold setup. cbv zeta.
  pose proof (mul_lanes _ _ _ _ (pick_lanes (exp_mask 0) _ _ eq_refl T0 V0) (pick_lanes (exp_mask 1) _ _ eq_refl T1 V1)) as L01.
  pose proof (mul_lanes _ _ _ _ (pick_lanes (exp_mask 2) _ _ eq_refl T2 V2) (bcast_lanes _ _ T0 V0)) as L2r.
  pose proof (mul_lanes _ _ _ _ L01 L2r) as Llo. pose proof (bcast_lanes _ _ T3 V3) as L8. pose proof (bcast_lanes _ _ T4 V4) as L16.
  pose proof (mul_lanes _ _ _ _ Llo L8) as P1. pose proof (mul_lanes _ _ _ _ Llo L16) as P2. pose proof (mul_lanes _ _ _ _ P1 L16) as P3. cbn [pw].
  destruct k as [|[|[|[|?]]]]; [..|lia]; cbn [nth].
  - apply (lanes_impl _ _ _ _ _ Llo); [done|]. intros i Hi. apply eq_cong. unfold owed. do 8 (destruct i as [|i]; [powers|]). lia.
  - apply (lanes_impl _ _ _ _ _ P1); [done|]. intros i Hi. apply eq_cong. unfold owed. do 8 (destruct i as [|i]; [powers|]). lia.
  - apply (lanes_impl _ _ _ _ _ P2); [done|]. intros i Hi. apply eq_cong. unfold owed. do 8 (destruct i as [|i]; [powers|]). lia.
  - apply (lanes_impl _ _ _ _ _ P3); [done|]. intros i Hi. apply eq_cong. unfold owed. do 8 (destruct i as [|i]; [powers|]). lia.
Qed.

Lemma setup_step : lanes tight3 (pow_step (setup st)) (λ _, r ^ 32).
Proof using Hst. pose proof (r_pows_spec 5 ltac:(lia)) as [T V]. by apply bcast_lanes. Qed.
End powers.

(** ** Four chains *)

Section chains.
Context (r : Z).

(** What the lanes of one chain add up to when its last group is the message's. *)
Definition sum8 (f : nat → Z) : Z := foldr Z.add 0 (f <$> seq 0 8).
Definition chain_sum (f : nat → Z) : Z := sum8 (λ i, f i * owed r 0 i).

(** Groups between the last one of chain [c] and the last of [n]. *)
Definition behind (n c : nat) : nat := ((n + CHAINS - 1 - c) mod CHAINS)%nat.
Definition sum4 (f : nat → Z) : Z := f 0%nat + f 1%nat + f 2%nat + f 3%nat.
Definition total (n : nat) (A : nat → nat → Z) : Z := sum4 (λ c, r ^ (8 * Z.of_nat (behind n c)) * chain_sum (A c)).

Lemma chain_sum_linear f g k : chain_sum (λ i, f i * k + g i) = chain_sum f * k + chain_sum g.
Proof using Type. unfold chain_sum, sum8. cbn [seq fmap list_fmap foldr]. ring. Qed.

Lemma chain_sum_zero f : (∀ i, f i = 0) → chain_sum f = 0.
Proof using Type. intros Hf. unfold chain_sum, sum8. cbn [seq fmap list_fmap foldr]. rewrite !Hf. ring. Qed.

(** A group in serial order. *)
Lemma horner_group a q : horner r a (blocks_of 8 q) = a * r ^ 8 + chain_sum (λ i, mval q (lane_block i)).
Proof using Type.
  unfold chain_sum, sum8, owed. cbn [seq fmap list_fmap foldr]. cbn [blocks_of seq fmap list_fmap horner foldl].
  fold (mval q 0) (mval q 1) (mval q 2) (mval q 3) (mval q 4) (mval q 5) (mval q 6) (mval q 7).
  repeat match goal with |- context [lane_block ?i] => let v := eval vm_compute in (lane_block i) in change (lane_block i) with v end. powers.
Qed.

(** Absorbing a group into its chain. *)
Lemma total_step n A M (c := (n mod CHAINS)%nat) :
  ((4 ≤ n)%nat ∨ (∀ i, A c i = 0)) →
  total (S n) (λ c', if (c' =? c)%nat then λ i, (if (n <? CHAINS)%nat then 0 else A c' i * r ^ 32) + M i else A c') = total n A * r ^ 8 + chain_sum M.
Proof using Type.
  intros Hn. assert (chain_sum (λ i, (if (n <? CHAINS)%nat then 0 else A c i * r ^ 32) + M i) = chain_sum (A c) * r ^ 32 + chain_sum M) as E.
  { rewrite <- chain_sum_linear. destruct (Nat.ltb_spec n CHAINS) as [Hlt|]; [|done]. destruct Hn as [Hn|Hz]; [unfold CHAINS in *; lia|].
    unfold chain_sum, sum8. cbn [seq fmap list_fmap foldr]. rewrite !Hz. ring. }
  assert (∃ q e, n = (4 * q + e)%nat ∧ (e < 4)%nat) as (q & e & Hq & He) by (exists (n / 4)%nat, (n mod 4)%nat; pose proof (Nat.div_mod_eq n 4); pose proof (Nat.mod_upper_bound n 4); lia).
  assert (∀ m c', (c' < 4)%nat → behind (4 * q + m) c' = ((m + 3 - c') mod 4)%nat) as Hb.
  { intros m c' Hc'. unfold behind, CHAINS. replace (4 * q + m + 4 - 1 - c')%nat with ((m + 3 - c') + q * 4)%nat by lia. apply Nat.Div0.mod_add. }
  assert (c = e) as Hc by (unfold c, CHAINS; rewrite Hq; replace (4 * q + e)%nat with (e + q * 4)%nat by lia; rewrite Nat.Div0.mod_add; by apply Nat.mod_small).
  rewrite Hc in E |- *. set (fresh := (n <? CHAINS)%nat) in *. clearbody fresh. unfold total, sum4.
  replace (S n) with (4 * q + S e)%nat by lia. replace n with (4 * q + e)%nat by lia. rewrite !Hb by lia.
  destruct e as [|[|[|[|?]]]]; [..|lia]; cbn [Nat.eqb]; rewrite E.
  all: repeat match goal with |- context [((?x + 3 - ?y) mod 4)%nat] => let v := eval vm_compute in ((x + 3 - y) mod 4)%nat in change ((x + 3 - y) mod 4)%nat with v end; powers.
Qed.
End chains.

Section ifma.
Context (st : State64) (r a : Z) (Hst : rep64 st r a).

(** The chains after [n] groups hold the serial value [b]. *)
Definition chains_inv (acc : list (list limbs3)) (n : nat) (b : Z) : Prop :=
  length acc = 4%nat ∧ ∃ A, (∀ c, (c < 4)%nat → lanes lazy3 (nth c acc []) (A c))
    ∧ (∀ c i, (n ≤ c < 4)%nat → A c i = 0) ∧ total r n A ≡ₚ₅ b.

(** One group into its chain. *)
Definition absorb_group (acc : list (list limbs3)) (n : nat) (q : bytes) : list (list limbs3) :=
  let c := (n mod CHAINS)%nat in
  <[c := if (n <? CHAINS)%nat then load8 q else mul_add (nth c acc []) (pow_step (setup st)) (load8 q)]> acc.

Lemma load8_lazy q : block_ok 128 q → lanes lazy3 (load8 q) (λ i, mval q (lane_block i)).
Proof using Type. intros Hq. apply (lanes_impl _ _ _ _ _ (load8_lanes q Hq)); [|done]. intros x Hx. by apply (below3_weaken _ _ _ _ _ _ _ Hx). Qed.

Lemma nth_insert_default {A} (l : list A) i j x d : (i < length l)%nat → nth j (<[i := x]> l) d = if (j =? i)%nat then x else nth j l d.
Proof using Type.
  intros Hi. rewrite !nth_lookup. destruct (Nat.eqb_spec j i) as [->|Hne]; [by rewrite list_lookup_insert_eq|by rewrite list_lookup_insert_ne].
Qed.

Lemma total_cong n A B : (∀ c i, (c < 4)%nat → (i < 8)%nat → A c i ≡ₚ₅ B c i) → total r n A ≡ₚ₅ total r n B.
Proof using Type.
  intros HAB. unfold total, sum4. assert (∀ c, (c < 4)%nat → chain_sum r (A c) ≡ₚ₅ chain_sum r (B c)) as Hc.
  { intros c Hc. unfold chain_sum, sum8. cbn [seq fmap list_fmap foldr]. by rewrite !(HAB c) by lia. }
  by rewrite !Hc by lia.
Qed.

Lemma absorb_inv acc n b q : (0 < n)%nat → chains_inv acc n b → block_ok 128 q → chains_inv (absorb_group acc n q) (S n) (horner r b (blocks_of 8 q)).
Proof using Hst.
  intros Hn (Hl & A & HA & Hz & Ht) Hq. unfold absorb_group, CHAINS. assert (n mod 4 < 4)%nat as Hc by (apply Nat.mod_upper_bound; lia).
  split; [by rewrite length_insert|].
  exists (λ c', if (c' =? n mod 4)%nat then λ i, (if (n <? 4)%nat then 0 else A c' i * r ^ 32) + mval q (lane_block i) else A c'). split_and!.
  - intros c' Hc'. rewrite nth_insert_default by lia. destruct (Nat.eqb_spec c' (n mod 4)) as [->|Hne]; [|by apply HA].
    destruct (Nat.ltb_spec n 4) as [Hlt|Hge].
    + apply (lanes_impl _ _ _ _ _ (load8_lazy q Hq)); [done|]. intros i _. apply eq_cong. lia.
    + assert (lanes (below3 (2 ^ 46) (2 ^ 46) (2 ^ 46)) (load8 q) (λ i, mval q (lane_block i))) as Hm.
      { apply (lanes_impl _ _ _ _ _ (load8_lanes q Hq)); [|done]. intros x Hx. by apply (below3_weaken _ _ _ _ _ _ _ Hx). }
      apply (lanes_impl _ _ _ _ _ (mul_add_lanes _ _ _ _ _ _ (HA _ Hc) (setup_step st r a Hst) Hm)); [|done].
      intros x Hx. by apply (below3_weaken _ _ _ _ _ _ _ Hx).
  - intros c' i [H1 H2]. rewrite Nat.mod_small by lia. destruct (Nat.eqb_spec c' n); [lia|]. apply Hz. lia.
  - pose proof (total_step r n A (λ i, mval q (lane_block i))) as E. unfold CHAINS in E. rewrite E.
    + rewrite horner_group, Ht. done.
    + destruct (decide (4 ≤ n)%nat); [by left|]. right. intros i. apply Hz. rewrite Nat.mod_small by lia. lia.
Qed.

Lemma start_inv q : block_ok 128 q → chains_inv (start st q 1) 1 (horner r a (blocks_of 8 q)).
Proof using Hst.
  intros Hq. destruct Hst as (_ & _ & _ & _ & _ & _ & _ & Hh & Hhv). unfold start. cbn [CHAINS seq fmap list_fmap Nat.ltb Nat.leb].
  assert (group q 0 = q) as -> by (unfold group; rewrite drop_0; apply take_ge; destruct Hq as [-> _]; done).
  split; [done|]. exists (λ c i, if (c =? 0)%nat then mval q (lane_block i) + (if (i =? 0)%nat then a else 0) else 0). split_and!.
  - intros [|[|[|[|c]]]] Hc; cbn [nth Nat.eqb]; [|by apply (replicate_lanes lazy3 zero3 0)..|lia].
    pose proof (load8_lazy q Hq) as Hl. pose proof (load8_lanes q Hq) as Hl'. unfold lanes in *. destruct (load8 q) as [|x l]; [inversion Hl|].
    cbn [seq] in Hl, Hl' |- *. apply Forall2_cons_1 in Hl as [_ Hl]. apply Forall2_cons_1 in Hl' as [[Hx Hv] _]. cbn [join_h]. apply Forall2_cons_2.
    + destruct x as [[x0 x1] x2], (s6_h st) as [[h0 h1] h2] eqn:Eh. destruct Hx as (X0 & X1 & X2). destruct Hh as (H0 & H1 & H2). unfold add3. rewrite !wadd_exact by lia.
      split; [unfold below3; lia|]. cbn [Nat.eqb]. rewrite <- Hhv, <- Hv. apply eq_cong. unfold val3. ring.
    + apply (Forall2_impl_index _ _ (λ i, i ≠ 0)%nat _ _ Hl); [apply (Forall_seq _ 1 7); lia|].
      intros y i Hi [Hy Hyv]. split; [done|]. destruct (Nat.eqb_spec i 0); [done|]. by rewrite Z.add_0_r.
  - intros [|c] i [H1 H2]; [lia|done].
  - rewrite horner_group. apply eq_cong. unfold total, sum4. cbn [Nat.eqb]. rewrite !(chain_sum_zero r (λ _, 0)) by done.
    assert (chain_sum r (λ i, mval q (lane_block i) + (if (i =? 0)%nat then a else 0)) = chain_sum r (λ i, mval q (lane_block i)) + a * owed r 0 0) as ->.
    { unfold chain_sum, sum8. cbn [seq fmap list_fmap foldr Nat.eqb]. ring. }
    change (owed r 0 0) with (r ^ 8). change (behind 1 0) with 0%nat. change (8 * Z.of_nat 0) with 0.
    rewrite !Z.mul_0_r, Z.pow_0_r. generalize (chain_sum r (λ i, mval q (lane_block i))), (a * r ^ 8). intros; lia.
Qed.

(** Sums of [n] tight values. *)
Definition sum_bound (n : Z) (x : limbs3) : Prop :=
  let '(x0, x1, x2) := x in 0 ≤ x0 ≤ n * 2 ^ 44 ∧ 0 ≤ x1 ≤ n * (2 ^ 44 + 2 ^ 9) ∧ 0 ≤ x2 ≤ n * 2 ^ 42.

Lemma add3_bound n m x y : sum_bound n x → sum_bound m y → 0 ≤ n → 0 ≤ m → n + m ≤ 64 → sum_bound (n + m) (add3 x y) ∧ val3 (add3 x y) = val3 x + val3 y.
Proof using Type.
  destruct x as [[x0 x1] x2], y as [[y0 y1] y2]. intros (X0 & X1 & X2) (Y0 & Y1 & Y2) Hn Hm Hnm. unfold add3. rewrite !wadd_exact by lia.
  unfold sum_bound, val3. lia.
Qed.

Lemma add_lanes_bound n u v f g : lanes (sum_bound n) u f → lanes tight3 v g → 0 ≤ n ≤ 63 → lanes (sum_bound (n + 1)) (add_lanes u v) (λ i, f i + g i).
Proof using Type.
  intros Hu Hv Hn. unfold lanes, add_lanes in *. revert v Hv. induction Hu as [|x i u idx [Hx Vx] Hu IH]; intros v Hv; inversion Hv as [|y ? v' ? [Hy Vy] Hv']; subst; cbn [zip_with]; constructor; [|by apply IH].
  destruct (add3_bound n 1 x y Hx) as [Hb E]; [destruct y as [[? ?] ?]; unfold sum_bound, below3 in *; lia|lia..|]. split; [done|]. by rewrite E, Vx, Vy.
Qed.

Lemma reduce_add_spec n v f : lanes (sum_bound n) v f → 1 ≤ n ≤ 4 → sum_bound 64 (reduce_add v) ∧ val3 (reduce_add v) ≡ₚ₅ sum8 f.
Proof using Type.
  intros Hv Hn. unfold reduce_add, sum8, lanes in *.
  assert (∀ k z (l : list limbs3) idx, Forall2 (λ x i, sum_bound n x ∧ val3 x ≡ₚ₅ f i) l idx → sum_bound (n * k) z → 0 ≤ k → k + Z.of_nat (length idx) ≤ 8 + 1 →
    sum_bound (n * (k + Z.of_nat (length idx))) (foldl add3 z l) ∧ val3 (foldl add3 z l) ≡ₚ₅ val3 z + foldr Z.add 0 (f <$> idx)) as Hg.
  { intros k z l idx Hl. revert k z. induction Hl as [|x i l idx [Hx Vx] Hl IH]; intros k z Hz Hk Hlen; cbn [length foldl fmap list_fmap foldr] in *.
    { rewrite !Z.add_0_r. by split. }
    destruct (add3_bound (n * k) n z x Hz Hx) as [Hb E]; [nia..|]. destruct (IH (k + 1) (add3 z x)) as [Hb2 E2]; [by replace (n * (k + 1)) with (n * k + n) by lia|lia|lia|].
    split; [by replace (k + Z.of_nat (S (length idx))) with (k + 1 + Z.of_nat (length idx)) by lia|]. rewrite E2, E, Vx. apply eq_cong. lia. }
  destruct (Hg 0 zero3 v (seq 0 8) Hv) as [Hb E]; [unfold sum_bound, zero3; lia|lia|cbn; lia|].
  split; [|rewrite E; apply eq_cong; unfold zero3, val3; lia]. cbn in Hb. destruct (foldl add3 zero3 v) as [[? ?] ?]. unfold sum_bound in *. lia.
Qed.

(** Carrying limbs of up to [2^60] back. *)
Lemma set_h44_rep l b : below3 (2 ^ 60) (2 ^ 60) (2 ^ 60) l → val3 l ≡ₚ₅ b → rep64 (set_h44 st l) r b.
Proof using Hst.
  destruct Hst as (Hr & Hrc & Hrv & Hs & Hr2 & Hr2v & Hs2 & _ & _). destruct l as [[h0 h1] h2]. intros (H0 & H1 & H2) Hv. unfold set_h44. cbv zeta.
  rewrite !land_M44, !land_M42. destruct (split_limb 44 h0 ltac:(lia) ltac:(lia)) as (c0 & l0 & -> & -> & E0 & L0 & C0). rewrite (wadd_exact 64 h1) by lia.
  destruct (split_limb 44 (h1 + c0) ltac:(lia) ltac:(lia)) as (c1 & l1 & -> & -> & E1 & L1 & C1). rewrite (wadd_exact 64 h2) by lia.
  destruct (split_limb 42 (h2 + c1) ltac:(lia) ltac:(lia)) as (c2 & l2 & -> & -> & E2 & L2 & C2). rewrite (wmul_exact 64 c2), (wadd_exact 64 l0) by lia.
  destruct (split_limb 44 (l0 + c2 * 5) ltac:(lia) ltac:(lia)) as (c3 & l3 & -> & -> & E3 & L3 & C3). rewrite (wadd_exact 64 l1) by lia.
  unfold rep64. cbn [s6_r s6_s s6_r2 s6_s2 s6_h update]. split_and!; try done; [unfold below3; lia|]. rewrite <- Hv. exists (- c2). unfold val3, P in *. lia.
Qed.

Lemma owed_shift k i : (i < 8)%nat → owed r k i = r ^ (8 * Z.of_nat k) * owed r 0 i.
Proof using Type.
  intros Hi. unfold owed. rewrite <- Z.pow_add_r; [f_equal; lia|lia|]. assert (lane_block i < 8)%nat by (do 8 (destruct i as [|i]; [cbn; lia|]); lia). lia.
Qed.

Lemma fold_rep acc n b : chains_inv acc n b → rep64 (fold st (setup st) acc n) r b.
Proof using Hst.
  intros (Hl & A & HA & _ & Ht). unfold fold. destruct acc as [|x0 [|x1 [|x2 [|x3 [|? ?]]]]]; try done. cbn [imap].
  assert (∀ c, (c < 4)%nat → lanes tight3 (mul_add (nth c [x0; x1; x2; x3] []) (nth (behind n c) (pw (setup st)) []) zeros8) (λ i, A c i * owed r (behind n c) i)) as Hm.
  { intros c Hc. assert (behind n c < 4)%nat as Hb by (apply Nat.mod_upper_bound; done).
    eapply lanes_impl; [apply (mul_add_lanes _ _ _ _ _ _ (HA c Hc) (setup_pw st r a Hst _ Hb) zeros_lanes)|done|]. intros i _. apply eq_cong. lia. }
  cbn [foldl]. unfold behind in Hm. pose proof (Hm 0%nat ltac:(lia)) as M0. pose proof (Hm 1%nat ltac:(lia)) as M1. pose proof (Hm 2%nat ltac:(lia)) as M2. pose proof (Hm 3%nat ltac:(lia)) as M3.
  cbn [nth compose] in M0, M1, M2, M3 |- *. unfold compose. fold (behind n 0) (behind n 1) (behind n 2) (behind n 3) in *.
  assert (lanes (sum_bound 0) zeros8 (λ _, 0)) as Z0 by by apply replicate_lanes.
  pose proof (add_lanes_bound _ _ _ _ _ Z0 M0 ltac:(lia)) as S1. pose proof (add_lanes_bound _ _ _ _ _ S1 M1 ltac:(lia)) as S2.
  pose proof (add_lanes_bound _ _ _ _ _ S2 M2 ltac:(lia)) as S3. pose proof (add_lanes_bound _ _ _ _ _ S3 M3 ltac:(lia)) as S4.
  destruct (reduce_add_spec _ _ _ S4 ltac:(lia)) as [Hb Hv]. apply set_h44_rep.
  - destruct (reduce_add _) as [[? ?] ?]. unfold sum_bound, below3 in *. lia.
  - rewrite Hv, <- Ht. apply eq_cong. unfold total, sum4, chain_sum, sum8. cbn [seq fmap list_fmap foldr].
    rewrite !(owed_shift (behind n 0)), !(owed_shift (behind n 1)), !(owed_shift (behind n 2)), !(owed_shift (behind n 3)) by lia. ring.
Qed.

(** ** Groups in serial order *)

Definition absorb_from (p : bytes) (acc : list (list limbs3)) (l : list nat) : list (list limbs3) := foldl (λ acc n, absorb_group acc n (group p n)) acc l.

Lemma length_absorb_from p l : ∀ acc, length (absorb_from p acc l) = length acc.
Proof using Type. induction l as [|n l IH]; intros acc; [done|]. cbn [absorb_from foldl]. unfold absorb_from in IH. rewrite IH. unfold absorb_group. by rewrite length_insert. Qed.

Lemma start_absorb p G : (0 < G)%nat → start st p G = absorb_from p (start st p 1) (seq 1 (G `min` 4 - 1)).
Proof using Type. intros HG. destruct G as [|[|[|[|G]]]]; [lia|reflexivity..|]. rewrite (Nat.min_r _ 4) by lia. reflexivity. Qed.

Lemma step_absorb p acc q n : length acc = 4%nat → (0 < q)%nat → (n ≤ 4)%nat → step acc (setup st) p (4 * q) n = absorb_from p acc (seq (4 * q) n).
Proof using Type.
  intros Hl Hq Hn. assert (∀ c, (c < 4)%nat → ((4 * q + c) mod CHAINS = c)%nat ∧ (4 * q + c <? CHAINS)%nat = false) as Hc.
  { intros c Hc. unfold CHAINS. split; [|apply Nat.ltb_ge; lia]. replace (4 * q + c)%nat with (c + q * 4)%nat by lia. rewrite Nat.Div0.mod_add. by apply Nat.mod_small. }
  destruct acc as [|x0 [|x1 [|x2 [|x3 [|? ?]]]]]; try done. unfold step. replace (seq (4 * q) n) with (seq (4 * q + 0) n) by (f_equal; lia).
  destruct n as [|[|[|[|[|?]]]]]; [..|lia]; cbn [seq absorb_from foldl imap Nat.ltb Nat.leb compose].
  all: replace (S (4 * q + 0)) with (4 * q + 1)%nat by lia; replace (S (4 * q + 1)) with (4 * q + 2)%nat by lia; replace (S (4 * q + 2)) with (4 * q + 3)%nat by lia.
  all: unfold absorb_group; rewrite ?(proj1 (Hc 0%nat ltac:(lia))), ?(proj1 (Hc 1%nat ltac:(lia))), ?(proj1 (Hc 2%nat ltac:(lia))), ?(proj1 (Hc 3%nat ltac:(lia))).
  all: rewrite ?(proj2 (Hc 0%nat ltac:(lia))), ?(proj2 (Hc 1%nat ltac:(lia))), ?(proj2 (Hc 2%nat ltac:(lia))), ?(proj2 (Hc 3%nat ltac:(lia))); reflexivity.
Qed.

Lemma absorb_from_app p acc l k : absorb_from p acc (l ++ k) = absorb_from p (absorb_from p acc l) k.
Proof using Type. apply foldl_app. Qed.

Lemma ifma_loop_absorb p G fuel : ∀ acc q, length acc = 4%nat → (0 < q)%nat → (G - 4 * q < 4 * fuel + 4)%nat →
  ∃ k, ifma_loop fuel acc (setup st) p (4 * q) G = (absorb_from p acc (seq (4 * q) (4 * k)), (4 * (q + k))%nat)
    ∧ ((4 * (q + k) ≤ G < 4 * (q + k) + 4)%nat ∨ (k = 0 ∧ G < 4 * q)%nat).
Proof using Type.
  induction fuel as [|fuel IH]; intros acc q Hl Hq Hf; cbn [ifma_loop].
  { exists 0%nat. split; [cbn [seq absorb_from foldl Nat.mul]; f_equal; lia|lia]. }
  unfold CHAINS at 1. destruct (Nat.leb_spec (4 * q + 4) G) as [Hle|Hgt].
  - rewrite step_absorb by (done || lia). unfold CHAINS. replace (4 * q + 4)%nat with (4 * S q)%nat by lia.
    destruct (IH (absorb_from p acc (seq (4 * q) 4)) (S q)) as (k & -> & Hk); [by rewrite length_absorb_from|lia|lia|]. exists (S k).
    rewrite <- absorb_from_app. replace (4 * S k)%nat with (4 + 4 * k)%nat by lia. rewrite seq_app. split; [f_equal; [do 3 f_equal; lia|lia]|lia].
  - exists 0%nat. split; [cbn [seq absorb_from foldl Nat.mul]; f_equal; lia|lia].
Qed.

Lemma blocks_ifma_absorb data G : length data = (128 * G)%nat → (0 < G)%nat →
  blocks_ifma st data = fold st (setup st) (absorb_from data (start st data 1) (seq 1 (G - 1))) G.
Proof using Type.
  intros Hl HG. unfold blocks_ifma. rewrite Hl. replace (128 * G / 128)%nat with G by (rewrite Nat.mul_comm; symmetry; by apply Nat.div_mul). cbv zeta.
  rewrite (start_absorb data G HG). set (acc0 := absorb_from data (start st data 1) (seq 1 (G `min` 4 - 1))).
  assert (length acc0 = 4%nat) as Hl0 by (unfold acc0; by rewrite length_absorb_from).
  destruct (ifma_loop_absorb data G G acc0 1 Hl0 ltac:(lia) ltac:(lia)) as (k & E & Hk). change (4 * 1)%nat with CHAINS in E. rewrite E. clear E. f_equal.
  assert (length (absorb_from data acc0 (seq CHAINS (4 * k))) = 4%nat) as Hl1 by (by rewrite length_absorb_from).
  destruct Hk as [Hk|[-> Hk]].
  - rewrite (Nat.min_l (4 * (1 + k)) G) by lia. rewrite step_absorb by (done || lia). unfold acc0. rewrite <- !absorb_from_app. f_equal.
    rewrite Nat.min_r by lia. unfold CHAINS. replace (G - 1)%nat with (4 - 1 + (4 * k + (G - 4 * (1 + k))))%nat by lia. rewrite !seq_app. replace (1 + (4 - 1) + 4 * k)%nat with (4 * (1 + k))%nat by lia. reflexivity.
  - replace (G - 4 * (1 + 0))%nat with 0%nat by lia. cbn [seq Nat.mul absorb_from foldl].
    transitivity acc0; [|unfold acc0; by rewrite (Nat.min_l G 4) by lia]. clearbody acc0. clear Hl1. destruct acc0 as [|? [|? [|? [|? [|? ?]]]]]; done.
Qed.

Lemma absorb_from_inv p n : ∀ acc m b, (0 < m)%nat → chains_inv acc m b → (∀ i, (m ≤ i < m + n)%nat → block_ok 128 (group p i)) →
  chains_inv (absorb_from p acc (seq m n)) (m + n) (horner r b (concat (blocks_of 8 <$> (group p <$> seq m n)))).
Proof using Hst.
  induction n as [|n IH]; intros acc m b Hm Hi Hp; [cbn; by rewrite Nat.add_0_r|]. cbn [seq absorb_from foldl fmap list_fmap concat].
  rewrite horner_app. replace (m + S n)%nat with (S m + n)%nat by lia. apply IH; [lia| |intros i Hi'; apply Hp; lia]. apply absorb_inv; [done|done|apply Hp; lia].
Qed.

(** The 128-byte groups of the data. *)
Lemma groups_of p G : block_ok (128 * G) p → chunks_exact 16 p = concat (blocks_of 8 <$> (group p <$> seq 0 G)) ∧ ∀ i, (i < G)%nat → block_ok 128 (group p i).
Proof using Type.
  intros Hp. split.
  - revert p Hp. induction G as [|G IH]; intros p [Hl Hb]; [destruct p; [done|cbn in Hl; lia]|].
    rewrite <- (take_drop 128 p) at 1. rewrite (chunks_blocks 8 ltac:(lia)) by (rewrite length_take; lia). cbn [seq fmap list_fmap concat]. f_equal.
    rewrite IH by (split; [rewrite length_drop; lia|by apply Forall_drop]). rewrite <- fmap_S_seq, <- !list_fmap_compose. f_equal.
    apply list_fmap_ext. intros _ i _. unfold compose, group. rewrite drop_drop. do 3 f_equal. lia.
  - destruct Hp as [Hl Hb]. intros i Hi. unfold group. split; [rewrite length_take, length_drop; lia|by apply Forall_take, Forall_drop].
Qed.

Lemma blocks_ifma_rep data G : block_ok (128 * G) data → (0 < G)%nat → rep64 (blocks_ifma st data) r (horner r a (chunks_exact 16 data)).
Proof using Hst.
  intros Hd HG. destruct (groups_of data G Hd) as [Ec Hg]. rewrite (blocks_ifma_absorb data G) by (done || apply Hd). apply fold_rep.
  rewrite Ec. replace G with (1 + (G - 1))%nat at 2 3 by lia. rewrite seq_app, !fmap_app, concat_app, horner_app. apply absorb_from_inv; [lia| |intros i Hi; apply Hg; lia].
  cbn [seq fmap list_fmap concat]. rewrite app_nil_r. pose proof (start_inv (group data 0) (Hg 0%nat HG)) as Hs.
  assert (start st (group data 0) 1 = start st data 1) as <-; [|done]. unfold start. cbn [CHAINS seq fmap list_fmap Nat.ltb Nat.leb].
  assert (group (group data 0) 0 = group data 0) as -> by (unfold group; rewrite !drop_0; by rewrite take_take). done.
Qed.

(** ** The stitched handle *)

Definition stitch_inv (s : Stitch) (b : Z) : Prop :=
  sti_st s = st ∧ match sti_groups s with
    | O => sti_pow s = None ∧ b = a
    | _ => sti_pow s = Some (setup st) ∧ chains_inv (sti_acc s) (sti_groups s) b
    end.

Lemma stitch_new_inv : stitch_inv (stitch_new st) a.
Proof using Type. done. Qed.

Lemma stitch_absorb_inv s b q : stitch_inv s b → block_ok 128 q → ∃ s', stitch_absorb s q = Some s' ∧ stitch_inv s' (horner r b (blocks_of 8 q)).
Proof using Hst.
  intros [Hs Hi] Hq. unfold stitch_absorb. rewrite Hs. destruct (sti_groups s) as [|g] eqn:Eg.
  - destruct Hi as [_ ->]. eexists. split; [reflexivity|]. split; [done|]. cbn [sti_groups sti_pow sti_acc Nat.add]. split; [done|]. by apply start_inv.
  - destruct Hi as [Hp Hc]. rewrite Hp. pose proof (absorb_inv _ (S g) b q ltac:(lia) Hc Hq) as Ha. unfold absorb_group in Ha.
    replace (S g + 1)%nat with (S (S g)) by lia. cbv zeta. destruct (S g <? CHAINS)%nat; eexists; (split; [reflexivity|]); (split; [done|]); by cbn [sti_groups sti_pow sti_acc].
Qed.

(** Absorbing any run of groups. *)
Definition stitch_all (s : Stitch) (qs : list bytes) : option Stitch := foldl (λ o q, s ← o; stitch_absorb s q) (Some s) qs.

Lemma stitch_all_inv qs : ∀ s b, stitch_inv s b → Forall (block_ok 128) qs → ∃ s', stitch_all s qs = Some s' ∧ stitch_inv s' (horner r b (concat (blocks_of 8 <$> qs))).
Proof using Hst.
  induction qs as [|q qs IH]; intros s b Hs Hq; [by exists s|]. apply Forall_cons in Hq as [Hq Hqs]. cbn [fmap list_fmap concat]. rewrite horner_app.
  destruct (stitch_absorb_inv s b q Hs Hq) as (s1 & E & H1). unfold stitch_all. cbn [foldl mbind option_bind]. rewrite E. by apply IH.
Qed.

Lemma stitch_finish_rep s b : stitch_inv s b → rep64 (stitch_finish s) r b.
Proof using Hst.
  intros [Hs Hi]. unfold stitch_finish. destruct (sti_groups s) as [|g]; destruct Hi as [-> Hi]; rewrite Hs; [by rewrite Hi|]. by apply fold_rep.
Qed.
End ifma.

(** * The AVX2 lanes *)

Abbreviation mult5 := (below5 (2 ^ 26 + 2 ^ 9) (2 ^ 26 + 2 ^ 9)).

Lemma below5_weaken b b1 c c1 h : below5 b b1 h → b ≤ c → b1 ≤ c1 → below5 c c1 h.
Proof. destruct h as [[[[? ?] ?] ?] ?]. unfold below5. lia. Qed.

Lemma mults5_eqs r : mult5 r → mults5_u64 r = mults5 r ∧ mults5_lane r = mults5 r.
Proof.
  destruct r as [[[[r0 r1] r2] r3] r4]. intros (R0 & R1 & R2 & R3 & R4). unfold mults5_u64, mults5_lane, mults5, times5.
  rewrite !wmul_exact, !wshl_exact by lia. rewrite !wadd_exact by lia. split; [done|]. repeat f_equal; lia.
Qed.

Lemma mul_mod26_spec a b va vb : tight5 a → tight5 b → val5 a ≡ₚ₅ va → val5 b ≡ₚ₅ vb → tight5 (mul_mod26 a b) ∧ val5 (mul_mod26 a b) ≡ₚ₅ va * vb.
Proof.
  intros Ha Hb Hva Hvb. assert (mult5 b) as Hm by (apply (below5_weaken _ _ _ _ _ Hb); lia). unfold mul_mod26. rewrite (proj1 (mults5_eqs b Hm)).
  destruct (mul26_spec a b) as [Ht Hv]; [apply (below5_weaken _ _ _ _ _ Ha); lia|done|]. split; [done|]. by rewrite Hv, Hva, Hvb.
Qed.

(** The tree of five sums. *)
Lemma column5_tree a0 b0 a1 b1 a2 b2 a3 b3 a4 b4 B :
  0 ≤ a0 < 2 ^ 28 → 0 ≤ a1 < 2 ^ 28 → 0 ≤ a2 < 2 ^ 28 → 0 ≤ a3 < 2 ^ 28 → 0 ≤ a4 < 2 ^ 28 →
  0 ≤ b0 < B → 0 ≤ b1 < B → 0 ≤ b2 < B → 0 ≤ b3 < B → 0 ≤ b4 < B → B ≤ 2 ^ 32 →
  let d := a0 * b0 + a1 * b1 + a2 * b2 + a3 * b3 + a4 * b4 in
  (mul_epu32 a0 b0 +[64] mul_epu32 a1 b1) +[64] (mul_epu32 a2 b2 +[64] (mul_epu32 a3 b3 +[64] mul_epu32 a4 b4)) = d ∧ 0 ≤ d ≤ 5 * (2 ^ 28 * B).
Proof.
  intros Ha0 Ha1 Ha2 Ha3 Ha4 Hb0 Hb1 Hb2 Hb3 Hb4 HB. cbv zeta. unfold mul_epu32. rewrite !(Z.mod_small _ (2 ^ 32)) by lia.
  assert (∀ a b, 0 ≤ a < 2 ^ 28 → 0 ≤ b < B → 0 ≤ a * b ≤ 2 ^ 28 * B) as Hm by (clear; nia). assert (2 ^ 28 * B ≤ 2 ^ 60) as HC by lia. set (C := 2 ^ 28 * B) in *. clearbody C.
  pose proof (Hm _ _ Ha0 Hb0) as P0. pose proof (Hm _ _ Ha1 Hb1) as P1. pose proof (Hm _ _ Ha2 Hb2) as P2. pose proof (Hm _ _ Ha3 Hb3) as P3. pose proof (Hm _ _ Ha4 Hb4) as P4.
  set (p0 := a0 * b0) in *. set (p1 := a1 * b1) in *. set (p2 := a2 * b2) in *. set (p3 := a3 * b3) in *. set (p4 := a4 * b4) in *. clearbody p0 p1 p2 p3 p4.
  rewrite (wadd_exact 64 p3), (wadd_exact 64 p2), (wadd_exact 64 p0) by lia. rewrite wadd_exact by lia. lia.
Qed.

Lemma mul_carry_lane_spec h r : lazy5 h → mult5 r → let o := mul_carry_lane h r (mults5_lane r) in tight5 o ∧ val5 o ≡ₚ₅ val5 h * val5 r.
Proof.
  intros Hh Hr. rewrite (proj2 (mults5_eqs r Hr)). destruct h as [[[[h0 h1] h2] h3] h4], r as [[[[r0 r1] r2] r3] r4].
  destruct Hh as (H0 & H1 & H2 & H3 & H4). destruct Hr as (R0 & R1 & R2 & R3 & R4). set (B := 5 * (2 ^ 26 + 2 ^ 9)).
  assert (∀ x, 0 ≤ x < 2 ^ 26 + 2 ^ 9 → 0 ≤ x < B ∧ 0 ≤ x * 5 < B) as Hs by (unfold B; lia).
  destruct (Hs _ R0) as [Q0 _]. destruct (Hs _ R1) as [Q1 S1]. destruct (Hs _ R2) as [Q2 S2]. destruct (Hs _ R3) as [Q3 S3]. destruct (Hs _ R4) as [Q4 S4].
  assert (B ≤ 2 ^ 32) as HB by (unfold B; lia). unfold mul_carry_lane, mults5.
  destruct (column5_tree h0 r0 h1 (r4 * 5) h2 (r3 * 5) h3 (r2 * 5) h4 (r1 * 5) B) as [-> D0]; [assumption..|].
  destruct (column5_tree h0 r1 h1 r0 h2 (r4 * 5) h3 (r3 * 5) h4 (r2 * 5) B) as [-> D1]; [assumption..|].
  destruct (column5_tree h0 r2 h1 r1 h2 r0 h3 (r4 * 5) h4 (r3 * 5) B) as [-> D2]; [assumption..|].
  destruct (column5_tree h0 r3 h1 r2 h2 r1 h3 r0 h4 (r4 * 5) B) as [-> D3]; [assumption..|].
  destruct (column5_tree h0 r4 h1 r3 h2 r2 h3 r1 h4 r0 (2 ^ 26 + 2 ^ 9)) as [-> D4]; [assumption..|lia|].
  assert (val5 (h0, h1, h2, h3, h4) * val5 (r0, r1, r2, r3, r4)
    = (h0 * r0 + h1 * (r4 * 5) + h2 * (r3 * 5) + h3 * (r2 * 5) + h4 * (r1 * 5)) + (h0 * r1 + h1 * r0 + h2 * (r4 * 5) + h3 * (r3 * 5) + h4 * (r2 * 5)) * 2 ^ 26
      + (h0 * r2 + h1 * r1 + h2 * r0 + h3 * (r4 * 5) + h4 * (r3 * 5)) * 2 ^ 52 + (h0 * r3 + h1 * r2 + h2 * r1 + h3 * r0 + h4 * (r4 * 5)) * 2 ^ 78
      + (h0 * r4 + h1 * r3 + h2 * r2 + h3 * r1 + h4 * r0) * 2 ^ 104
      + (h1 * r4 + h2 * r3 + h3 * r2 + h4 * r1 + (h2 * r4 + h3 * r3 + h4 * r2) * 2 ^ 26 + (h3 * r4 + h4 * r3) * 2 ^ 52 + h4 * r4 * 2 ^ 78) * P) as Ev by (unfold val5, P; ring).
  set (k := h1 * r4 + h2 * r3 + h3 * r2 + h4 * r1 + _ + _ + _) in *. clearbody k. cbv zeta in D0, D1, D2, D3, D4. rewrite Ev. clear Ev.
  match type of D0 with 0 ≤ ?d ≤ _ => set (d0 := d) in * end. match type of D1 with 0 ≤ ?d ≤ _ => set (d1 := d) in * end.
  match type of D2 with 0 ≤ ?d ≤ _ => set (d2 := d) in * end. match type of D3 with 0 ≤ ?d ≤ _ => set (d3 := d) in * end.
  match type of D4 with 0 ≤ ?d ≤ _ => set (d4 := d) in * end. clearbody d0 d1 d2 d3 d4. unfold B in *. clear S1 S2 S3 S4 Q0 Q1 Q2 Q3 Q4 R0 R1 R2 R3 R4 H0 H1 H2 H3 H4 Hs HB B. cbv zeta.
  rewrite !land_M26. destruct (split_limb 26 d0 ltac:(lia) ltac:(lia)) as (c0 & l0 & -> & -> & E0 & L0 & C0). rewrite (wadd_exact 64 d1) by lia.
  destruct (split_limb 26 (d1 + c0) ltac:(lia) ltac:(lia)) as (c1 & l1 & -> & -> & E1 & L1 & C1). rewrite (wadd_exact 64 d2) by lia.
  destruct (split_limb 26 (d2 + c1) ltac:(lia) ltac:(lia)) as (c2 & l2 & -> & -> & E2 & L2 & C2). rewrite (wadd_exact 64 d3) by lia.
  destruct (split_limb 26 (d3 + c2) ltac:(lia) ltac:(lia)) as (c3 & l3 & -> & -> & E3 & L3 & C3). rewrite (wadd_exact 64 d4) by lia.
  destruct (split_limb 26 (d4 + c3) ltac:(lia) ltac:(lia)) as (c4 & l4 & -> & -> & E4 & L4 & C4). rewrite (wshl_exact 64 c4), (wadd_exact 64 c4), (wadd_exact 64 l0) by lia.
  destruct (split_limb 26 (l0 + (c4 + c4 * 2 ^ 2)) ltac:(lia) ltac:(lia)) as (c5 & l5 & -> & -> & E5 & L5 & C5). rewrite (wadd_exact 64 l1) by lia.
  split; [unfold below5; lia|]. exists (- c4 - k). unfold val5, P. lia.
Qed.

(** ** Loads of four blocks *)

Lemma masked_wshl w w' x y n : 26 ≤ w → 26 ≤ w' → Z.land (Z.lor x (wshl w y n)) M26 = Z.land (Z.lor x (wshl w' y n)) M26.
Proof. intros Hw Hw'. unfold wshl. rewrite !Z.land_lor_distr_l, !land_M26, !wrap_mod by lia. done. Qed.

Lemma load_lane26_spec m : block_ok 16 m →
  let x := load_lane26 (le32 m 0) (le32 m 4) (le32 m 8) (le32 m 12) in below5 (2 ^ 26) (2 ^ 26) x ∧ val5 x = le_value m + 2 ^ 128.
Proof.
  intros Hm. assert (load_lane26 (le32 m 0) (le32 m 4) (le32 m 8) (le32 m 12) = limbs26 m (wshl 32 (Z.b2z true) 24)) as ->.
  { unfold load_lane26, limbs26. by rewrite !(masked_wshl 64 32) by lia. }
  destruct (limbs26_spec m true Hm) as [Hb Hv]. split; [done|]. rewrite Hv. cbn [Z.b2z]. lia.
Qed.

Lemma vec_words_blocks n : ∀ q, length q = (16 * n)%nat → vec_words q = concat ((λ m, [le32 m 0; le32 m 4; le32 m 8; le32 m 12]) <$> blocks_of n q).
Proof.
  induction n as [|n IH]; intros q Hq; [destruct q; [done|cbn in Hq; lia]|]. unfold vec_words in *.
  assert (take 16 q = take 4 q ++ take 4 (drop 4 q) ++ take 4 (drop 8 q) ++ take 4 (drop 12 q)) as E.
  { rewrite <- (take_drop 4 (take 16 q)), take_take. f_equal. rewrite skipn_firstn_comm.
    rewrite <- (take_drop 4 (take _ (drop 4 q))), take_take, !skipn_firstn_comm, !drop_drop. f_equal.
    rewrite <- (take_drop 4 (take _ (drop _ q))), take_take, !skipn_firstn_comm, !drop_drop. done. }
  rewrite <- (take_drop 16 q) at 1. rewrite E, <- !app_assoc. rewrite !chunks_exact_cons by (rewrite ?length_take, ?length_drop; lia).
  cbn [fmap list_fmap]. rewrite IH by (rewrite length_drop; lia). unfold blocks_of. cbn [seq fmap list_fmap concat app].
  assert (∀ i, (i ≤ 12)%nat → le32 (sub16 q 0) i = le_value (take 4 (drop i q))) as Hs.
  { intros i Hi. unfold le32, sub16. rewrite Nat.mul_0_r, drop_0, skipn_firstn_comm, take_take. do 2 f_equal. lia. }
  rewrite !Hs, drop_0 by lia. do 5 f_equal.
  rewrite <- fmap_S_seq, <- !list_fmap_compose. apply list_fmap_ext. intros _ i _. unfold compose, sub16. rewrite drop_drop. replace (16 * S i)%nat with (16 + 16 * i)%nat by lia. done.
Qed.

Lemma load4_eq m : length m = 64%nat → load4 m = (λ i, let b := sub16 m i in load_lane26 (le32 b 0) (le32 b 4) (le32 b 8) (le32 b 12)) <$> seq 0 4.
Proof.
  intros Hm. unfold load4. rewrite !(vec_words_blocks 2) by (rewrite length_take, ?length_drop; lia). cbn [blocks_of seq fmap list_fmap concat app].
  assert (∀ j, (j < 2)%nat → sub16 (take 32 m) j = sub16 m j ∧ sub16 (take 32 (drop 32 m)) j = sub16 m (2 + j)) as Hs.
  { intros j Hj. unfold sub16. rewrite !skipn_firstn_comm, !take_take, drop_drop. split; do 2 f_equal; lia. }
  rewrite (proj1 (Hs 0%nat ltac:(lia))), (proj1 (Hs 1%nat ltac:(lia))), (proj2 (Hs 0%nat ltac:(lia))), (proj2 (Hs 1%nat ltac:(lia))). reflexivity.
Qed.

(** Four lanes with their bound and their values. *)
Definition lanes4 (B : limbs5 → Prop) (l : list limbs5) (f : nat → Z) : Prop := Forall2 (λ x i, B x ∧ val5 x ≡ₚ₅ f i) l (seq 0 4).

Lemma load4_lanes q o : block_ok 128 q → (o = 0 ∨ o = 4)%nat → lanes4 (below5 (2 ^ 26) (2 ^ 26)) (load4 (take 64 (drop (16 * o) q))) (λ i, mval q (o + i)).
Proof.
  intros Hq Ho. rewrite load4_eq by (destruct Hq as [Hl _]; rewrite length_take, length_drop; lia). unfold lanes4. rewrite Forall2_fmap_l.
  apply Forall_Forall2_diag, Forall_seq. intros i Hi. unfold compose. cbv zeta.
  assert (sub16 (take 64 (drop (16 * o) q)) i = sub16 q (o + i)) as ->.
  { unfold sub16. rewrite skipn_firstn_comm, take_take, drop_drop. f_equal; [lia|f_equal; lia]. }
  assert (block_ok 16 (sub16 q (o + i))) as Hm.
  { destruct Hq as [Hl Hb]. split; [unfold sub16; rewrite length_take, length_drop; lia|by apply Forall_take, Forall_drop]. }
  destruct (load_lane26_spec _ Hm) as [Hb Hv]. split; [done|]. by apply eq_cong.
Qed.

Lemma add5_spec b c a d : below5 b b a → below5 c c d → b ≤ 2 ^ 60 → c ≤ 2 ^ 60 → below5 (b + c) (b + c) (add5_u64 a d) ∧ val5 (add5_u64 a d) = val5 a + val5 d.
Proof.
  destruct a as [[[[a0 a1] a2] a3] a4], d as [[[[d0 d1] d2] d3] d4]. intros (A0 & A1 & A2 & A3 & A4) (D0 & D1 & D2 & D3 & D4) Hb Hc.
  unfold add5_u64. rewrite !wadd_exact by lia. unfold below5, val5. lia.
Qed.

Lemma lanes4_impl (B C : limbs5 → Prop) l f g : lanes4 B l f → (∀ x, B x → C x) → (∀ i, (i < 4)%nat → f i ≡ₚ₅ g i) → lanes4 C l g.
Proof.
  intros Hl HB Hf. apply (Forall2_impl_index _ _ (λ i, i < 4)%nat _ _ Hl); [apply Forall_seq; lia|].
  intros x i Hi [Hx Hv]. split; [by apply HB|]. rewrite Hv. by apply Hf.
Qed.

Lemma zip_lanes4 (B C D : limbs5 → Prop) (op : limbs5 → limbs5 → limbs5) (vop : Z → Z → Z) l k f g : Proper (cong5 ==> cong5 ==> cong5) vop →
  (∀ x y, B x → C y → D (op x y) ∧ val5 (op x y) ≡ₚ₅ vop (val5 x) (val5 y)) →
  lanes4 B l f → lanes4 C k g → lanes4 D (zip_with op l k) (λ i, vop (f i) (g i)).
Proof.
  intros Hp Hop. unfold lanes4. generalize (seq 0 4) as idx. intros idx Hl. revert k. induction Hl as [|x i l idx [Hx Vx] Hl IH]; intros k Hk;
    inversion Hk as [|y ? k' ? [Hy Vy] Hk']; subst; cbn [zip_with]; constructor; [|by apply IH].
  destruct (Hop x y Hx Hy) as [Hd Hv]. split; [done|]. by rewrite Hv, Vx, Vy.
Qed.

Lemma mul_carry_lanes h r f g : lanes4 lazy5 h f → lanes4 mult5 r g → lanes4 tight5 (mul_carry h r) (λ i, f i * g i).
Proof. apply (zip_lanes4 _ _ _ _ Z.mul _ _ _ _ _ mul_carry_lane_spec). Qed.

Lemma add5_lanes h m f g : lanes4 tight5 h f → lanes4 (below5 (2 ^ 26) (2 ^ 26)) m g → lanes4 lazy5 (zip_with add5_u64 h m) (λ i, f i + g i).
Proof.
  apply (zip_lanes4 _ _ _ _ Z.add); [apply _|]. intros x y Hx Hy.
  destruct (add5_spec (2 ^ 26 + 2 ^ 7) (2 ^ 26) x y) as [Hb Hv]; [by apply (below5_weaken _ _ _ _ _ Hx)|done..|].
  split; [by apply (below5_weaken _ _ _ _ _ Hb)|by apply eq_cong].
Qed.

(** ** Conversions between the radices *)

Section avx2.
Context (st : State64) (r a : Z) (Hst : rep64 st r a).

Lemma r26_spec : tight5 (r26 st) ∧ val5 (r26 st) = r.
Proof using Hst.
  destruct Hst as (_ & Hrc & Hrv & _). unfold r26. rewrite <- Hrv. clear Hst Hrv. destruct (s6_r st) as [[r0 r1] r2]. destruct Hrc as (R0 & R1 & R2).
  rewrite (lor_parts 128 r0), (Z.mod_small r1) by (first [lia|unfold in_width; lia]). rewrite lor_parts, (Z.mod_small r2) by (first [lia|unfold in_width; lia]).
  set (x := r0 + 2 ^ 44 * r1 + 2 ^ 88 * r2). assert (val3 (r0, r1, r2) = x) as -> by (unfold val3, x; lia).
  assert (0 ≤ x < 2 ^ 130) as Hx by (unfold x; lia). clearbody x. rewrite !land_M26. rewrite !wrap_mod, !Z.shiftr_div_pow2 by lia.
  change (2 ^ (26 * 0)) with 1. rewrite Z.div_1_r. split; [|by apply limbs5_sum]. assert (∀ z, 0 ≤ z mod 2 ^ 26 < 2 ^ 26) as Hm by (intros; apply Z.mod_pos_bound; lia).
  apply (below5_weaken (2 ^ 26) (2 ^ 26)); [|lia..]. unfold below5. repeat split; apply Hm.
Qed.

Lemma h26_spec : below5 (2 ^ 26) (2 ^ 26) (h26 st) ∧ val5 (h26 st) ≡ₚ₅ a.
Proof using Hst.
  destruct Hst as (_ & _ & _ & _ & _ & _ & _ & Hh & Hhv). destruct (carry_spec st) as [Hb Hv]; [apply (below3_weaken _ _ _ _ _ _ _ Hh); lia|].
  rewrite <- Hhv, <- Hv. clear Hhv Hv Hst Hh. unfold h26. destruct (st64_carry st) as [[h0 h1] h2]. destruct Hb as (H0 & H1 & H2).
  change (Z.land h1 0xff) with (Z.land h1 (Z.ones 8)). change (Z.land h2 0xffff) with (Z.land h2 (Z.ones 16)). rewrite !Z.land_ones, !land_M26, !Z.shiftr_div_pow2 by lia.
  assert (∀ z n, 0 ≤ n → 0 ≤ z mod 2 ^ n < 2 ^ n) as Hm by (intros; apply Z.mod_pos_bound; lia).
  pose proof (Hm h1 8 ltac:(lia)). pose proof (Hm h2 16 ltac:(lia)). rewrite !wshl_exact by lia.
  rewrite !(wadd_exact 64) by (Z.div_mod_to_equations; lia). rewrite !wrap_small by (unfold in_width; Z.div_mod_to_equations; lia).
  split; [unfold below5; Z.div_mod_to_equations; lia|]. apply eq_cong. unfold val5, val3. Z.div_mod_to_equations. lia.
Qed.

Lemma set_h26_rep l b : lazy5 l → val5 l ≡ₚ₅ b → rep64 (set_h26 st l) r b.
Proof using Hst.
  destruct Hst as (Hr & Hrc & Hrv & Hs & Hr2 & Hr2v & Hs2 & _ & _). destruct l as [[[[l0 l1] l2] l3] l4]. intros (L0 & L1 & L2 & L3 & L4) Hb. unfold set_h26.
  change 0x3ffff with (Z.ones 18). change 0x3ff with (Z.ones 10). rewrite !Z.land_ones, !Z.shiftr_div_pow2 by lia.
  assert (∀ z n, 0 ≤ n → 0 ≤ z mod 2 ^ n < 2 ^ n) as Hm by (intros; apply Z.mod_pos_bound; lia).
  pose proof (Hm l1 18 ltac:(lia)). pose proof (Hm l3 10 ltac:(lia)). rewrite !wshl_exact by lia.
  rewrite (wadd_exact 64 l0), (wadd_exact 64 (l1 / _)), (wadd_exact 64 (l3 / _)) by (Z.div_mod_to_equations; lia). rewrite wadd_exact by (Z.div_mod_to_equations; lia).
  unfold rep64. cbn [s6_r s6_s s6_r2 s6_s2 s6_h update]. split_and!; try done; [unfold below3; Z.div_mod_to_equations; lia|]. rewrite <- Hb. apply eq_cong. unfold val5, val3. Z.div_mod_to_equations. lia.
Qed.

Lemma carry_sums_spec s : below5 (2 ^ 30) (2 ^ 30) s → lazy5 (carry_sums s) ∧ val5 (carry_sums s) ≡ₚ₅ val5 s.
Proof using Type.
  destruct s as [[[[s0 s1] s2] s3] s4]. intros (S0 & S1 & S2 & S3 & S4). unfold carry_sums. cbv zeta. rewrite !land_M26, !wrap_mod by lia.
  destruct (split_limb 26 s0 ltac:(lia) ltac:(lia)) as (c0 & l0 & -> & -> & E0 & L0 & C0). rewrite (wadd_exact 64 s1) by lia.
  destruct (split_limb 26 (s1 + c0) ltac:(lia) ltac:(lia)) as (c1 & l1 & -> & -> & E1 & L1 & C1). rewrite (wadd_exact 64 s2) by lia.
  destruct (split_limb 26 (s2 + c1) ltac:(lia) ltac:(lia)) as (c2 & l2 & -> & -> & E2 & L2 & C2). rewrite (wadd_exact 64 s3) by lia.
  destruct (split_limb 26 (s3 + c2) ltac:(lia) ltac:(lia)) as (c3 & l3 & -> & -> & E3 & L3 & C3). rewrite (wadd_exact 64 s4) by lia.
  destruct (split_limb 26 (s4 + c3) ltac:(lia) ltac:(lia)) as (c4 & l4 & -> & -> & E4 & L4 & C4). rewrite (wmul_exact 64 c4), (wadd_exact 64 l0) by lia.
  destruct (split_limb 26 (l0 + c4 * 5) ltac:(lia) ltac:(lia)) as (c5 & l5 & -> & -> & E5 & L5 & C5).
  rewrite (wrap_small 32 c5), (wadd_exact 32 l1) by (unfold in_width; lia). split; [unfold below5; lia|]. exists (- c4). unfold val5, P. lia.
Qed.

(** ** Two accumulators of four lanes *)

#[local] Instance horner_proper : Proper (cong5 ==> eq ==> cong5) (horner r).
Proof using Type. intros c b Hc l ? <-. revert c b Hc. induction l as [|m l IH]; intros c b Hc; [done|]. cbn [horner foldl]. apply IH. by rewrite Hc. Qed.

(** Lane [k] of the first accumulator still owes [r^(8-k)], of the second [r^(4-k)]. *)
Definition stripe_total (A B : nat → Z) : Z :=
  A 0%nat * r ^ 8 + A 1%nat * r ^ 7 + A 2%nat * r ^ 6 + A 3%nat * r ^ 5 + B 0%nat * r ^ 4 + B 1%nat * r ^ 3 + B 2%nat * r ^ 2 + B 3%nat * r.

Definition stripes_inv (s : list limbs5 * list limbs5) (b : Z) : Prop := ∃ A B, lanes4 lazy5 s.1 A ∧ lanes4 lazy5 s.2 B ∧ stripe_total A B ≡ₚ₅ b.

Lemma stripe_total_step A B q : stripe_total (λ i, A i * r ^ 8 + mval q (0 + i)) (λ i, B i * r ^ 8 + mval q (4 + i)) = horner r (stripe_total A B) (blocks_of 8 q).
Proof using Type.
  cbn [blocks_of seq fmap list_fmap horner foldl]. fold (mval q 0) (mval q 1) (mval q 2) (mval q 3) (mval q 4) (mval q 5) (mval q 6) (mval q 7).
  unfold stripe_total. cbn [Nat.add]. ring.
Qed.

(** A multiplier of one lane. *)
Definition power_of (x : limbs5) (v : Z) : Prop := tight5 x ∧ val5 x ≡ₚ₅ v.

Lemma power_lanes x0 x1 x2 x3 v0 v1 v2 v3 : power_of x0 v0 → power_of x1 v1 → power_of x2 v2 → power_of x3 v3 →
  lanes4 mult5 [x0; x1; x2; x3] (λ i, nth i [v0; v1; v2; v3] 0).
Proof using Type.
  assert (∀ x v, power_of x v → mult5 x ∧ val5 x ≡ₚ₅ v) as Hp by (intros x v [Hx Hv]; split; [by apply (below5_weaken _ _ _ _ _ Hx)|done]).
  intros H0 H1 H2 H3. unfold lanes4. cbn [seq]. do 4 (constructor; [by apply Hp|]). constructor.
Qed.

Lemma power_mul x y v w : power_of x v → power_of y w → power_of (mul_mod26 x y) (v * w).
Proof using Type. intros [Hx Vx] [Hy Vy]. by apply mul_mod26_spec. Qed.

Lemma stripe_step_inv rr s b q : lanes4 mult5 rr (λ _, r ^ 8) → stripes_inv s b → block_ok 128 q → stripes_inv (stripe_step rr s q) (horner r b (blocks_of 8 q)).
Proof using Type.
  intros Hrr (A & B & HA & HB & Ht) Hq. unfold stripe_step. pose proof (load4_lanes q 0 Hq ltac:(lia)) as M0. pose proof (load4_lanes q 4 Hq ltac:(lia)) as M4.
  rewrite Nat.mul_0_r, drop_0 in M0. replace (drop 64 q) with (take 64 (drop (16 * 4) q)) by (apply take_ge; rewrite length_drop; destruct Hq; lia).
  exists (λ i, A i * r ^ 8 + mval q (0 + i)), (λ i, B i * r ^ 8 + mval q (4 + i)). split_and!; [exact (add5_lanes _ _ _ _ (mul_carry_lanes _ _ _ _ HA Hrr) M0)|exact (add5_lanes _ _ _ _ (mul_carry_lanes _ _ _ _ HB Hrr) M4)|].
  by rewrite stripe_total_step, Ht.
Qed.

Lemma stripes_fold_inv rr l : lanes4 mult5 rr (λ _, r ^ 8) → Forall (block_ok 128) l → ∀ s b, stripes_inv s b →
  stripes_inv (foldl (stripe_step rr) s l) (horner r b (concat (blocks_of 8 <$> l))).
Proof using Type.
  intros Hrr Hl. induction Hl as [|q l Hq Hl IH]; intros s b Hs; [done|]. cbn [foldl fmap list_fmap concat]. rewrite horner_app. apply IH. by apply stripe_step_inv.
Qed.

Lemma sum_lanes_spec u v f g : lanes4 tight5 u f → lanes4 tight5 v g → let s := sum_lanes (zip_with add5_u64 u v) in
  below5 (2 ^ 30) (2 ^ 30) s ∧ val5 s ≡ₚ₅ f 0%nat + g 0%nat + (f 1%nat + g 1%nat) + (f 2%nat + g 2%nat) + (f 3%nat + g 3%nat).
Proof using Type.
  intros Hu Hv. assert (lanes4 (below5 (2 ^ 27 + 2 ^ 8) (2 ^ 27 + 2 ^ 8)) (zip_with add5_u64 u v) (λ i, f i + g i)) as Hz.
  { revert Hu Hv. apply (zip_lanes4 _ _ _ _ Z.add); [apply _|]. intros x y Hx Hy.
    destruct (add5_spec (2 ^ 26 + 2 ^ 7) (2 ^ 26 + 2 ^ 7) x y) as [Hb E]; [by apply (below5_weaken _ _ _ _ _ Hx)|by apply (below5_weaken _ _ _ _ _ Hy)|done..|].
    split; [by apply (below5_weaken _ _ _ _ _ Hb)|by apply eq_cong]. }
  unfold lanes4 in Hz. destruct (zip_with _ _ _) as [|x0 [|x1 [|x2 [|x3 [|? ?]]]]]; [apply Forall2_length in Hz; done..| |apply Forall2_length in Hz; done].
  cbn [seq] in Hz. apply Forall2_cons_1 in Hz as [[B0 V0] Hz]. apply Forall2_cons_1 in Hz as [[B1 V1] Hz]. apply Forall2_cons_1 in Hz as [[B2 V2] Hz]. apply Forall2_cons_1 in Hz as [[B3 V3] _].
  cbn [sum_lanes]. cbv zeta. destruct (add5_spec _ _ _ _ B0 B1) as [C1 E1]; [lia..|]. destruct (add5_spec _ _ _ _ C1 B2) as [C2 E2]; [lia..|]. destruct (add5_spec _ _ _ _ C2 B3) as [C3 E3]; [lia..|].
  split; [apply (below5_weaken _ _ _ _ _ C3); lia|]. by rewrite E3, E2, E1, V0, V1, V2, V3.
Qed.

(** The first stripe, with the accumulator in lane 0. *)
Lemma first_stripe_inv q : block_ok 128 q →
  stripes_inv (match load4 (take 64 q) with x :: ha => add5_u64 x (h26 st) :: ha | [] => [] end, load4 (take 64 (drop 64 q))) (horner r a (blocks_of 8 q)).
Proof using Hst.
  intros Hq. destruct h26_spec as [Hh Hhv]. pose proof (load4_lanes q 0 Hq ltac:(lia)) as M0. pose proof (load4_lanes q 4 Hq ltac:(lia)) as M4.
  rewrite Nat.mul_0_r, drop_0 in M0. exists (λ i, mval q i + (if (i =? 0)%nat then a else 0)), (λ i, mval q (4 + i)). split_and!.
  - cbn [fst]. unfold lanes4 in *. destruct (load4 (take 64 q)) as [|x l]; [by apply Forall2_length in M0|]. cbn [seq] in *. apply Forall2_cons_1 in M0 as [[Bx Vx] M0]. constructor.
    + destruct (add5_spec _ _ _ _ Bx Hh) as [Hb E]; [lia..|]. split; [apply (below5_weaken _ _ _ _ _ Hb); lia|]. cbn [Nat.eqb Nat.add] in *. by rewrite E, Vx, Hhv.
    + apply (Forall2_impl_index _ _ (λ i, i ≠ 0)%nat _ _ M0); [apply (Forall_seq _ 1 3); lia|]. intros y i Hi [Hy Vy]. split; [by apply (below5_weaken _ _ _ _ _ Hy)|].
      destruct (Nat.eqb_spec i 0); [done|]. by rewrite Z.add_0_r.
  - apply (lanes4_impl _ _ _ _ _ M4); [|done]. intros x Hx. by apply (below5_weaken _ _ _ _ _ Hx).
  - apply eq_cong. cbn [blocks_of seq fmap list_fmap horner foldl]. fold (mval q 0) (mval q 1) (mval q 2) (mval q 3) (mval q 4) (mval q 5) (mval q 6) (mval q 7).
    unfold stripe_total. cbn [Nat.add Nat.eqb]. ring.
Qed.

Lemma blocks_avx2_rep data k : block_ok (128 * S k) data → rep64 (blocks_avx2 st data) r (horner r a (chunks_exact 16 data)).
Proof using Hst.
  intros [Hl Hb]. assert (power_of (r26 st) r) as P1 by (destruct r26_spec as [Ht Hv]; split; [done|by apply eq_cong]). unfold blocks_avx2. set (r1 := r26 st) in *.
  pose proof (power_mul _ _ _ _ P1 P1) as P2. pose proof (power_mul _ _ _ _ P2 P1) as P3. pose proof (power_mul _ _ _ _ P2 P2) as P4. cbv zeta.
  pose proof (power_mul _ _ _ _ P4 P1) as P5. pose proof (power_mul _ _ _ _ P4 P2) as P6. pose proof (power_mul _ _ _ _ P4 P3) as P7. pose proof (power_mul _ _ _ _ P4 P4) as P8.
  set (r2 := mul_mod26 r1 r1) in *. set (r3 := mul_mod26 r2 r1) in *. set (r4 := mul_mod26 r2 r2) in *. set (r8 := mul_mod26 r4 r4) in *.
  set (q := take 128 data). assert (block_ok 128 q) as Hq by (split; [unfold q; rewrite length_take; lia|by apply Forall_take]).
  assert (take 64 data = take 64 q ∧ take 64 (drop 64 data) = take 64 (drop 64 q)) as [-> ->].
  { unfold q. rewrite skipn_firstn_comm, !take_take. done. }
  assert (block_ok (16 * 8 * k) (drop 128 data)) as Hd by (split; [rewrite length_drop; lia|by apply Forall_drop]).
  destruct (chunks_groups 8 k ltac:(lia) _ Hd) as (Ec & Hf & _). change (16 * 8)%nat with 128%nat in Ec, Hf.
  assert (chunks_exact 16 data = blocks_of 8 q ++ concat (blocks_of 8 <$> chunks_exact 128 (drop 128 data))) as ->.
  { rewrite <- Ec, <- (chunks_blocks 8) by (lia || apply Hq). unfold q. by rewrite take_drop. }
  assert (lanes4 mult5 (replicate 4 r8) (λ _, r ^ 8)) as Hrr.
  { eapply lanes4_impl; [apply (power_lanes _ _ _ _ _ _ _ _ P8 P8 P8 P8)|done|]. intros i Hi. apply eq_cong. do 4 (destruct i as [|i]; [cbn [nth]; ring|]). lia. }
  pose proof (stripes_fold_inv _ _ Hrr Hf _ _ (first_stripe_inv q Hq)) as Hs. rewrite horner_app.
  destruct (foldl _ _ _) as [ha hb]. destruct Hs as (A & B & HA & HB & Ht). cbn [fst snd] in HA, HB.
  pose proof (mul_carry_lanes _ _ _ _ HA (power_lanes _ _ _ _ _ _ _ _ P8 P7 P6 P5)) as Ma. pose proof (mul_carry_lanes _ _ _ _ HB (power_lanes _ _ _ _ _ _ _ _ P4 P3 P2 P1)) as Mb.
  destruct (sum_lanes_spec _ _ _ _ Ma Mb) as [Sb Sv]. destruct (carry_sums_spec _ Sb) as [Cb Cv]. apply set_h26_rep; [exact Cb|].
  rewrite Cv, Sv, <- Ht. apply eq_cong. cbn [nth]. unfold stripe_total. ring.
Qed.
End avx2.
