(* ===== verification/PolyMac.v ===== *)
(** The Poly1305 authenticator ([src/cipher/poly1305.rs], [Poly1305]): the streaming layer
    over the arithmetic of [Poly1305.v] and the kernels of [PolySimd.v].  The streaming layer
    is written against an interface, one instance per target, and proved once: its tag is
    the one of RFC 8439 however the message is cut. *)

From S2P Require Import Prelude MdHash MdFamily HashState Kdf Vec Poly1305 PolySimd.

(** * The interface of a target *)

(** [imp::State] of a target: [ps_runs] is what [update] does with long runs before the
    block loop (the state and the bytes left), [ps_stitch] is [Poly1305::stitch] where the
    hardware allows, and [ps_unstitch] is the state after the handle's [finish]. *)
Class PolyState (S : Type) := {
  ps_new : bytes → S;
  ps_block : S → bytes → bool → S;
  ps_runs : S → bytes → S * bytes;
  ps_reduce : S → Z;
  ps_stitch : S → option Stitch;
  ps_unstitch : S → Stitch → S;
}.

(** [len & !mask] *)
Definition round_down (mask : Z) (len : nat) : nat := Z.to_nat (Z.land (Z.of_nat len) (Z.lnot mask)).

(** What the CPU of a 64-bit target supports. *)
Record Cpu := mkCpu { ifma_supported : bool; avx2_supported : bool }.

(** The vector kernels of x86_64. *)
Definition vector_runs (cpu : Cpu) (st : State64) (data : bytes) : State64 * bytes :=
  let vec_len := round_down 127 (length data) in
  if (ifma_MIN_LEN <=? length data)%nat && ifma_supported cpu then (blocks_ifma st (take vec_len data), drop vec_len data)
  else if (simd_MIN_LEN <=? length data)%nat && avx2_supported cpu then (blocks_avx2 st (take vec_len data), drop vec_len data)
  else (st, data).

(** The interleaved stripes of 64-bit targets. *)
Definition striped_runs (st : State64) (data : bytes) : State64 * bytes :=
  let quad_len := round_down 63 (length data) in
  let '(st, data) := if (512 <=? quad_len)%nat then (blocks4 st (take quad_len data), drop quad_len data) else (st, data) in
  let pair_len := round_down 31 (length data) in
  if (64 <=? pair_len)%nat then (blocks2 st (take pair_len data), drop pair_len data) else (st, data).

(** 64-bit targets: a target other than x86_64 supports neither kernel. *)
Definition poly64 (cpu : Cpu) : PolyState State64 := {|
  ps_new := st64_new;
  ps_block := st64_block;
  ps_runs st data := let '(st, data) := vector_runs cpu st data in striped_runs st data;
  ps_reduce := st64_reduce;
  ps_stitch st := if ifma_supported cpu then Some (stitch_new st) else None;
  ps_unstitch _ := stitch_finish;
|}.

(** 32-bit targets have only the block step. *)
Definition poly32 : PolyState State32 := {|
  ps_new := st32_new;
  ps_block := st32_block;
  ps_runs st data := (st, data);
  ps_reduce := st32_reduce;
  ps_stitch _ := None;
  ps_unstitch st _ := st;
|}.

(** * The streaming layer *)

Record Poly1305 (S : Type) := mkPoly1305 { p_st : S; p_pad : Z; p_buffer : bytes; p_leftover : nat }.
Arguments mkPoly1305 {S}.
Arguments p_st {S}.
Arguments p_pad {S}.
Arguments p_buffer {S}.
Arguments p_leftover {S}.

Section streaming.
Context {S : Type} `{PolyState S}.

Definition poly_new (key : bytes) : Poly1305 S := mkPoly1305 (ps_new (take 16 key)) (le_value (drop 16 key)) (replicate 16 0) 0.

(** Completes a held block: [inl] is the early return. *)
Definition poly_fill (self : Poly1305 S) (data : bytes) : Poly1305 S + (Poly1305 S * bytes) :=
  if (0 <? p_leftover self)%nat then
    let want := (16 - p_leftover self)%nat in
    let n := (want `min` length data)%nat in
    let buffer := splice (p_buffer self) (p_leftover self) (take n data) in
    let leftover := (p_leftover self + n)%nat in
    if (leftover <? 16)%nat then inl (mkPoly1305 (p_st self) (p_pad self) buffer leftover)
    else inr (mkPoly1305 (ps_block (p_st self) buffer true) (p_pad self) buffer 0, drop n data)
  else inr (self, data).

Definition poly_update (self : Poly1305 S) (data : bytes) : Poly1305 S :=
  match poly_fill self data with
  | inl self => self
  | inr (self, data) =>
      let '(st, data) := ps_runs (p_st self) data in
      let st := foldl (λ st chunk, ps_block st chunk true) st (chunks_exact 16 data) in
      let rem := drop (16 * (length data / 16)) data in
      if is_nil rem then mkPoly1305 st (p_pad self) (p_buffer self) (p_leftover self)
      else mkPoly1305 st (p_pad self) (splice (p_buffer self) 0 rem) (length rem)
  end.

Definition poly_finish (self : Poly1305 S) : bytes :=
  let st :=
    if (0 <? p_leftover self)%nat then
      let block := splice (replicate 16 0) 0 (take (p_leftover self) (p_buffer self)) in
      let block := <[p_leftover self := 1]> block in
      ps_block (p_st self) block false
    else p_st self in
  le_bytes 16 (wadd 128 (ps_reduce st) (p_pad self)).

Definition stitch_ready (self : Poly1305 S) : bool := (p_leftover self =? 0)%nat && bool_decide (is_Some (ps_stitch (p_st self))).
End streaming.

(** * What a target promises *)

(** [ps_rep st r a]: the state holds the point [r] and an accumulator congruent to [a]. *)
Class PolyStateSpec (S : Type) `{PolyState S} := {
  ps_rep : S → Z → Z → Prop;
  ps_new_rep key : block_ok 16 key → ps_rep (ps_new key) (clamp key) 0;
  ps_block_rep st r a m full : ps_rep st r a → block_ok 16 m → ps_rep (ps_block st m full) r ((a + (le_value m + 2 ^ 128 * Z.b2z full)) * r);
  ps_runs_rep st r a data : ps_rep st r a → bytes_ok data →
    ∃ st' k, ps_runs st data = (st', drop (16 * k) data) ∧ (16 * k ≤ length data)%nat ∧ ps_rep st' r (horner r a (chunks_exact 16 (take (16 * k) data)));
  ps_reduce_rep st r a : ps_rep st r a → ps_reduce st = (a mod P) mod 2 ^ 128;
  ps_stitch_rep st r a s qs : ps_rep st r a → ps_stitch st = Some s → Forall (block_ok 128) qs →
    ∃ s', stitch_all s qs = Some s' ∧ ps_rep (ps_unstitch st s') r (horner r a (concat (blocks_of 8 <$> qs)));
}.

(** ** The targets keep the promise *)

Lemma round_down_eq n len : (0 ≤ n)%Z → round_down (2 ^ n - 1) len = (2 ^ Z.to_nat n * (len / 2 ^ Z.to_nat n))%nat.
Proof.
  intros Hn. unfold round_down.
  rewrite <- Z.ldiff_land. replace (2 ^ n - 1) with (Z.ones n) by (rewrite Z.ones_equiv; lia). rewrite Z.ldiff_ones_r, Z.shiftr_div_pow2, Z.shiftl_mul_pow2 by done.
  apply Nat2Z.inj. rewrite Z2Nat.id by (apply Z.mul_nonneg_nonneg; [apply Z.div_pos; lia|lia]). rewrite Nat2Z.inj_mul, Nat2Z.inj_div, Nat2Z.inj_pow, Z2Nat.id by done. lia.
Qed.

(** A prefix of whole blocks of the data was absorbed, and the rest is left. *)
Definition absorbed {S} (rep : S → Z → Z → Prop) (r a : Z) (data : bytes) (res : S * bytes) : Prop :=
  ∃ k, res.2 = drop (16 * k) data ∧ (16 * k ≤ length data)%nat ∧ rep res.1 r (horner r a (chunks_exact 16 (take (16 * k) data))).

Lemma absorbed_none {S} (rep : S → Z → Z → Prop) r a st data : rep st r a → absorbed rep r a data (st, data).
Proof. intros Hst. exists 0%nat. rewrite Nat.mul_0_r, drop_0, take_0. by split_and!; [|lia|]. Qed.

(** Chunks of a prefix, then of what follows it. *)
Lemma chunks_take_add k j (data : bytes) : (16 * k ≤ length data)%nat →
  chunks_exact 16 (take (16 * (k + j)) data) = chunks_exact 16 (take (16 * k) data) ++ chunks_exact 16 (take (16 * j) (drop (16 * k) data)).
Proof.
  intros Hk. rewrite <- (chunks_exact_app 16 ltac:(lia) k) by (rewrite length_take; lia). f_equal.
  replace (16 * (k + j))%nat with (16 * k + 16 * j)%nat by lia. by rewrite take_take_drop.
Qed.

Lemma absorbed_trans {S} (rep : S → Z → Z → Prop) r a data (res : S * bytes) (g : S → bytes → S * bytes) :
  absorbed rep r a data res → (∀ st b, rep st r b → absorbed rep r b res.2 (g st res.2)) → absorbed rep r a data (g res.1 res.2).
Proof.
  intros (k & Ek & Hk & Hr) Hg. destruct (Hg _ _ Hr) as (j & Ej & Hj & Hrj). exists (k + j)%nat. rewrite Ek in Ej, Hj, Hrj. rewrite length_drop in Hj.
  split_and!; [rewrite Ek, Ej, drop_drop; f_equal; lia|lia|]. rewrite chunks_take_add, horner_app by done. by rewrite <- Ek, Ek.
Qed.

Section target64.
Context (cpu : Cpu) (st : State64) (r a : Z) (data : bytes) (Hst : rep64 st r a) (Hd : bytes_ok data).

(** A kernel that takes groups of [u] blocks, on the longest prefix it can take. *)
Lemma absorbed_run n u (f : State64 → bytes → State64) : 0 ≤ n → (2 ^ Z.to_nat n = 16 * u)%nat → (0 < round_down (2 ^ n - 1) (length data))%nat →
  (∀ k d, (0 < k)%nat → block_ok (16 * u * k) d → rep64 (f st d) r (horner r a (chunks_exact 16 d))) →
  absorbed rep64 r a data (f st (take (round_down (2 ^ n - 1) (length data)) data), drop (round_down (2 ^ n - 1) (length data)) data).
Proof using Hst Hd.
  intros Hn Hu Hpos Hf. rewrite round_down_eq, Hu in * by done. set (q := (length data / (16 * u))%nat) in *.
  assert (16 * u * q ≤ length data)%nat as Hq by (apply Nat.Div0.mul_div_le). exists (u * q)%nat. replace (16 * (u * q))%nat with (16 * u * q)%nat by lia.
  split_and!; [done|done|]. apply (Hf q); [lia|]. split; [rewrite length_take; lia|by apply Forall_take].
Qed.

Lemma vector_runs_ok : absorbed rep64 r a data (vector_runs cpu st data).
Proof using Hst Hd.
  unfold vector_runs. cbv zeta. change 127 with (2 ^ 7 - 1).
  assert (∀ m, (128 ≤ m)%nat → (m <=? length data)%nat = true → (0 < round_down (2 ^ 7 - 1) (length data))%nat) as Hpos.
  { intros m Hm Hle%Nat.leb_le. rewrite round_down_eq by lia. change (2 ^ Z.to_nat 7)%nat with 128%nat. pose proof (Nat.Div0.div_le_mono 128 (length data) 128 ltac:(lia)) as H1. rewrite Nat.div_same in H1; lia. }
  destruct (ifma_MIN_LEN <=? length data)%nat eqn:E1; destruct (ifma_supported cpu); cbn [andb].
  2-4: destruct (simd_MIN_LEN <=? length data)%nat eqn:E2; destruct (avx2_supported cpu); cbn [andb]; try (by apply absorbed_none).
  { apply (absorbed_run 7 8 blocks_ifma); [lia|done|by apply (Hpos ifma_MIN_LEN); [unfold ifma_MIN_LEN; lia|]|]. intros k d Hk Hb. by apply (blocks_ifma_rep st r a Hst d k). }
  all: apply (absorbed_run 7 8 blocks_avx2); [lia|done|by apply (Hpos simd_MIN_LEN); [unfold simd_MIN_LEN; lia|]|]; intros [|k] d Hk Hb; [lia|]; by apply (blocks_avx2_rep st r a Hst d k).
Qed.

Definition quad_runs (st : State64) (data : bytes) : State64 * bytes :=
  if (512 <=? round_down 63 (length data))%nat then (blocks4 st (take (round_down 63 (length data)) data), drop (round_down 63 (length data)) data) else (st, data).
Definition pair_runs (st : State64) (data : bytes) : State64 * bytes :=
  if (64 <=? round_down 31 (length data))%nat then (blocks2 st (take (round_down 31 (length data)) data), drop (round_down 31 (length data)) data) else (st, data).

Lemma quad_runs_ok : absorbed rep64 r a data (quad_runs st data).
Proof using Hst Hd.
  unfold quad_runs. change 63 with (2 ^ 6 - 1). destruct (Nat.leb_spec 512 (round_down (2 ^ 6 - 1) (length data))); [|by apply absorbed_none].
  apply (absorbed_run 6 4 blocks4); [lia|done|lia|]. intros k d Hk Hb. by apply (blocks4_rep st r a k d).
Qed.

Lemma pair_runs_ok : absorbed rep64 r a data (pair_runs st data).
Proof using Hst Hd.
  unfold pair_runs. change 31 with (2 ^ 5 - 1). destruct (Nat.leb_spec 64 (round_down (2 ^ 5 - 1) (length data))); [|by apply absorbed_none].
  apply (absorbed_run 5 2 blocks2); [lia|done|lia|]. intros k d Hk Hb. by apply (blocks2_rep st r a k d).
Qed.
End target64.

Lemma absorbed_bytes {S} (rep : S → Z → Z → Prop) r a data (res : S * bytes) : absorbed rep r a data res → bytes_ok data → bytes_ok res.2.
Proof. intros (k & -> & _) Hd. by apply Forall_drop. Qed.

Lemma runs64_ok cpu st r a data : rep64 st r a → bytes_ok data → absorbed rep64 r a data (ps_runs (PolyState := poly64 cpu) st data).
Proof.
  intros Hst Hd. cbn [ps_runs poly64]. pose proof (vector_runs_ok cpu st r a data Hst Hd) as Hv. pose proof (absorbed_bytes _ _ _ _ _ Hv Hd) as Hvb.
  rewrite (surjective_pairing (vector_runs cpu st data)). unfold striped_runs. cbv zeta.
  pose proof (absorbed_trans _ _ _ _ _ quad_runs Hv ltac:(intros; by apply quad_runs_ok)) as Hq. pose proof (absorbed_bytes _ _ _ _ _ Hq Hd) as Hqb.
  fold (quad_runs (vector_runs cpu st data).1 (vector_runs cpu st data).2). rewrite (surjective_pairing (quad_runs _ _)).
  exact (absorbed_trans _ _ _ _ _ pair_runs Hq ltac:(intros; by apply pair_runs_ok)).
Qed.

#[export] Instance poly64_spec cpu : @PolyStateSpec State64 (poly64 cpu).
Proof.
  refine (@Build_PolyStateSpec State64 (poly64 cpu) rep64 new64_rep block64_rep _ _ _).
  - intros st r a data Hst Hd. destruct (runs64_ok cpu st r a data Hst Hd) as (k & E & Hk & Hr). destruct (ps_runs st data) as [st' rest]. cbn [fst snd] in *. exists st', k. by rewrite E.
  - intros st r a (_ & _ & _ & _ & _ & _ & _ & Hh & Hv). cbn [ps_reduce poly64]. rewrite reduce_spec by (apply (below3_weaken _ _ _ _ _ _ _ Hh); lia). by rewrite (cong_modeq _ _ Hv).
  - intros st r a s qs Hst Hs Hq. cbn [ps_stitch ps_unstitch poly64] in *. destruct (ifma_supported cpu); [|done]. injection Hs as <-.
    destruct (stitch_all_inv st r a Hst qs _ _ (stitch_new_inv st r a) Hq) as (s' & E & Hi). exists s'. split; [done|]. by apply (stitch_finish_rep st r a Hst).
Defined.

#[export] Instance poly32_spec : @PolyStateSpec State32 poly32.
Proof.
  refine (@Build_PolyStateSpec State32 poly32 rep32 new32_rep block32_rep _ _ _); cbn [ps_runs ps_reduce ps_stitch poly32].
  - intros st r a data Hst Hd. destruct (absorbed_none rep32 r a st data Hst) as (k & E & Hk & Hr). exists st, k. cbn [fst snd] in *. by rewrite <- E.
  - intros st r a (_ & _ & _ & Hh & Hv). rewrite reduce32_spec by done. by rewrite (cong_modeq _ _ Hv).
  - done.
Defined.

(** * RFC 8439 *)

(** Section 2.5: every block, the last one too, with a byte [1] after it. *)
Definition rfc_poly1305 (key msg : bytes) : bytes :=
  let r := clamp (take 16 key) in
  let acc := foldl (λ a m, ((a + le_value (m ++ [1])) * r) mod P) 0 (chunks_mut 16 msg) in
  le_bytes 16 ((acc + le_value (drop 16 key)) mod 2 ^ 128).

Lemma chunks_mut_cons n (l r : bytes) : (0 < n)%nat → length l = n → chunks_mut n (l ++ r) = l :: chunks_mut n r.
Proof.
  intros Hn Hl. unfold chunks_mut. rewrite length_app, Hl. destruct n as [|n]; [lia|]. cbn [Nat.add chunks_mut_loop]. destruct (l ++ r) as [|x t] eqn:E; [by destruct l|]. cbn [is_nil]. rewrite <- E.
  rewrite take_app_length', drop_app_length' by done. f_equal.
  assert (∀ f1 f2 (k : bytes), (length k ≤ f1)%nat → (length k ≤ f2)%nat → chunks_mut_loop f1 (S n) k = chunks_mut_loop f2 (S n) k) as Hf.
  { induction f1 as [|f1 IH]; intros [|f2] k H1 H2; cbn [chunks_mut_loop]; try done; try (destruct k; [done|cbn in *; lia]).
    destruct k as [|y k]; [done|]. cbn [is_nil]. f_equal. apply IH; rewrite length_drop; cbn in *; lia. }
  apply Hf; lia.
Qed.

Lemma chunks_mut_split k : ∀ (full tail : bytes), length full = (16 * k)%nat → (length tail < 16)%nat →
  chunks_mut 16 (full ++ tail) = chunks_exact 16 full ++ (if is_nil tail then [] else [tail]).
Proof.
  induction k as [|k IH]; intros full tail Hf Ht.
  - destruct full; [|cbn in Hf; lia]. cbn [app]. unfold chunks_mut. destruct tail as [|x t]; [done|]. cbn [length chunks_mut_loop is_nil].
    rewrite take_ge, drop_ge by lia. change (chunks_exact 16 (@nil Z)) with (@nil bytes). cbn [app]. f_equal. by destruct (length t).
  - rewrite <- (take_drop 16 full), <- app_assoc. rewrite chunks_mut_cons, chunks_exact_cons by (rewrite ?length_take; lia). cbn [app]. f_equal.
    apply IH; [rewrite length_drop; lia|done].
Qed.

Lemma marker_ok : bytes_ok [1].
Proof. by apply Forall_singleton. Qed.

Lemma le_value_marked m : bytes_ok m → le_value (m ++ [1]) = le_value m + 2 ^ (8 * zlen m).
Proof. intros Hm. rewrite (le_value_app m [1] Hm marker_ok). change (le_value [1]) with 1. lia. Qed.

(** The serial evaluation, reduced at every block. *)
Lemma fold_horner r l : ∀ a b, a ≡ₚ₅ b → Forall (block_ok 16) l → foldl (λ a m, ((a + le_value (m ++ [1])) * r) mod P) a l ≡ₚ₅ horner r b l.
Proof.
  induction l as [|m l IH]; intros a b Hab Hl; [done|]. apply Forall_cons in Hl as [[Hm Hb] Hl]. cbn [foldl horner]. apply IH; [|done].
  rewrite cong5_mod, le_value_marked by done. unfold zlen. rewrite Hm. by rewrite Hab.
Qed.

(** A last block, padded with zeros after its marker. *)
Lemma le_value_last t : bytes_ok t → (0 < length t < 16)%nat → let block := <[length t := 1]> (splice (replicate 16 0) 0 t) in
  block_ok 16 block ∧ le_value block = le_value (t ++ [1]).
Proof.
  intros Ht Hl. assert (<[length t := 1]> (splice (replicate 16 0) 0 t) = (t ++ [1]) ++ replicate (15 - length t) 0) as ->.
  { unfold splice. rewrite take_0, drop_replicate. cbn [app Nat.add]. replace (16 - length t)%nat with (S (15 - length t)) by lia. cbn [replicate].
    rewrite insert_app_r_alt by lia. rewrite Nat.sub_diag. cbn. by rewrite <- app_assoc. }
  assert (bytes_ok (t ++ [1])) as H1 by (apply Forall_app; split; [done|apply marker_ok]). assert (∀ n, bytes_ok (replicate n 0)) as H0 by (intros; by apply Forall_replicate).
  cbv zeta. split; [split; [rewrite !length_app, length_replicate; cbn; lia|by apply Forall_app]|]. rewrite le_value_app by done.
  assert (∀ n, le_value (replicate n 0) = 0) as Hz by (induction n as [|n IH]; [done|change (replicate (Datatypes.S n) 0) with (replicate 1 0 ++ replicate n 0); rewrite le_value_app, IH by apply H0; done]). rewrite Hz. lia.
Qed.

(** * Streaming *)

Section correct.
Context {S : Type} {PS : PolyState S} {Spec : PolyStateSpec S} (key : bytes) (Hkey : block_ok 32 key).

(** The state after the message [msg]. *)
Definition mac_inv (self : Poly1305 S) (msg : bytes) : Prop :=
  ∃ k full tail, msg = full ++ tail ∧ length full = (16 * k)%nat ∧ p_leftover self = length tail ∧ (length tail < 16)%nat ∧ bytes_ok tail
    ∧ take (length tail) (p_buffer self) = tail ∧ length (p_buffer self) = 16%nat ∧ p_pad self = le_value (drop 16 key)
    ∧ ps_rep (p_st self) (clamp (take 16 key)) (horner (clamp (take 16 key)) 0 (chunks_exact 16 full)).

Lemma poly_new_inv : mac_inv (poly_new key) [].
Proof using Hkey.
  destruct Hkey as [Hl Hb]. exists 0%nat, [], []. unfold poly_new. cbn [p_leftover p_buffer p_pad p_st length].
  split_and!; try done; [lia|]. apply ps_new_rep. split; [rewrite length_take; lia|by apply Forall_take].
Qed.

Lemma ps_blocks_rep st r a l : ps_rep st r a → Forall (block_ok 16) l → ps_rep (foldl (λ st m, ps_block st m true) st l) r (horner r a l).
Proof using Type.
  intros Hst Hl. revert st a Hst. induction Hl as [|m l Hm Hl IH]; intros st a Hst; [done|]. cbn [foldl horner]. apply IH.
  pose proof (ps_block_rep st r a m true Hst Hm) as H1. cbn [Z.b2z] in H1. by rewrite Z.mul_1_r in H1.
Qed.

(** From a block boundary. *)
Lemma poly_blocks_inv self full data k : length full = (16 * k)%nat → p_leftover self = 0%nat → length (p_buffer self) = 16%nat → p_pad self = le_value (drop 16 key) →
  ps_rep (p_st self) (clamp (take 16 key)) (horner (clamp (take 16 key)) 0 (chunks_exact 16 full)) → bytes_ok data →
  mac_inv (let '(st, data) := ps_runs (p_st self) data in
    let st := foldl (λ st chunk, ps_block st chunk true) st (chunks_exact 16 data) in
    let rem := drop (16 * (length data / 16)) data in
    if is_nil rem then mkPoly1305 st (p_pad self) (p_buffer self) (p_leftover self)
    else mkPoly1305 st (p_pad self) (splice (p_buffer self) 0 rem) (length rem)) (full ++ data).
Proof using Type.
  intros Hf Hlo Hb Hp Hr Hd. destruct (ps_runs_rep _ _ _ data Hr Hd) as (st' & j & -> & Hj & Hr'). cbv zeta. set (d := drop (16 * j) data).
  set (q := (length d / 16)%nat). assert (16 * q ≤ length d < 16 * q + 16)%nat as Hq.
  { unfold q. pose proof (Nat.div_mod_eq (length d) 16). pose proof (Nat.mod_upper_bound (length d) 16). lia. }
  assert (length d = length data - 16 * j)%nat as Hld by (unfold d; apply length_drop). assert (bytes_ok d) as Hdb by (by apply Forall_drop).
  set (full' := full ++ take (16 * (j + q)) data). set (rem := drop (16 * q) d).
  assert (full ++ data = full' ++ rem) as Em. { unfold full', rem, d. rewrite drop_drop, <- app_assoc. f_equal. replace (16 * j + 16 * q)%nat with (16 * (j + q))%nat by lia. by rewrite take_drop. }
  assert (chunks_exact 16 d = chunks_exact 16 (take (16 * q) d)) as Ec.
  { rewrite <- (take_drop (16 * q) d) at 1. rewrite (chunks_exact_app 16 ltac:(lia) q) by (rewrite length_take; lia).
    rewrite (chunks_exact_short 16 ltac:(lia) (drop _ _)) by (rewrite length_drop; lia). by rewrite app_nil_r. }
  assert (ps_rep (foldl (λ st chunk, ps_block st chunk true) st' (chunks_exact 16 d)) (clamp (take 16 key)) (horner (clamp (take 16 key)) 0 (chunks_exact 16 full'))) as Hfin.
  { unfold full'. rewrite (chunks_exact_app 16 ltac:(lia) k) by lia. rewrite chunks_take_add, !horner_app by done. fold d. rewrite <- Ec.
    apply ps_blocks_rep; [done|]. rewrite Ec. destruct (chunks_groups 1 q ltac:(lia) (take (16 * q) d)) as (_ & Hg & _); [|exact Hg].
    split; [rewrite length_take; lia|by apply Forall_take]. }
  assert (bytes_ok rem) as Hrb by (by apply Forall_drop). assert (length rem < 16)%nat as Hrl by (unfold rem; rewrite length_drop; lia). assert (length full' = 16 * (k + (j + q)))%nat as Hfl by (unfold full'; rewrite length_app, length_take; lia).
  exists (k + (j + q))%nat, full', rem. clearbody rem. destruct rem as [|x rem]; cbn [is_nil]; cbn [p_leftover p_buffer p_pad p_st].
  - split_and!; try done; cbn [length]; lia.
  - split_and!; try done; [exact (take_splice (p_buffer self) 0 (x :: rem) ltac:(lia))|]. rewrite length_splice; [done|]. rewrite Hb. lia.
Qed.

Lemma poly_update_inv self msg data : mac_inv self msg → bytes_ok data → mac_inv (poly_update self data) (msg ++ data).
Proof using Type.
  intros (k & full & tail & -> & Hf & Hlo & Htl & Htb & Hbuf & Hb & Hp & Hr) Hd. unfold poly_update, poly_fill. rewrite Hlo. rewrite <- app_assoc.
  destruct (Nat.ltb_spec 0 (length tail)) as [Hpos|Hz]; [|destruct tail; [|cbn in Hz; lia]; by eapply poly_blocks_inv].
  set (n := ((16 - length tail) `min` length data)%nat). assert (length (take n data) = n) as Hn by (rewrite length_take; lia).
  assert (take (length tail + n) (splice (p_buffer self) (length tail) (take n data)) = tail ++ take n data) as Ht by (rewrite <- Hn at 1; rewrite take_splice by lia; by rewrite Hbuf).
  assert (length (splice (p_buffer self) (length tail) (take n data)) = 16%nat) as Hl by (rewrite length_splice; lia). cbv zeta.
  destruct (Nat.ltb_spec (length tail + n) 16) as [Hlt|Hge].
  - rewrite <- (take_ge data n) at 2 by lia. exists k, full, (tail ++ take n data). cbn [p_leftover p_buffer p_pad p_st]. rewrite length_app, Hn. split_and!; try done; apply Forall_app; split; [done|by apply Forall_take].
  - rewrite take_ge in Ht by lia. rewrite Ht in *. replace (full ++ tail ++ data) with ((full ++ tail ++ take n data) ++ drop n data) by (by rewrite <- !app_assoc, take_drop).
    apply (poly_blocks_inv (mkPoly1305 (ps_block (p_st self) (tail ++ take n data) true) (p_pad self) (tail ++ take n data) 0) (full ++ tail ++ take n data) (drop n data) (1 + k)%nat); cbn [p_leftover p_buffer p_pad p_st]; try done; [rewrite length_app; lia| |by apply Forall_drop].
    rewrite (chunks_exact_app 16 ltac:(lia) k), (chunks_exact_single 16 ltac:(lia) (tail ++ _)), horner_app by (done || lia).
    pose proof (ps_block_rep _ _ _ (tail ++ take n data) true Hr) as Hs. cbn [Z.b2z] in Hs. rewrite Z.mul_1_r in Hs. apply Hs. split; [done|].
    apply Forall_app. split; [done|by apply Forall_take].
Qed.

Lemma poly_finish_tag self msg : mac_inv self msg → bytes_ok msg → poly_finish self = rfc_poly1305 key msg.
Proof using Type.
  intros (k & full & tail & -> & Hf & Hlo & Htl & Htb & Hbuf & Hb & Hp & Hr) Hm. apply Forall_app in Hm as [Hfb _].
  unfold poly_finish, rfc_poly1305. cbv zeta. rewrite Hlo, Hbuf, Hp, (chunks_mut_split k) by done. set (r := clamp (take 16 key)) in *.
  assert (Forall (block_ok 16) (chunks_exact 16 full)) as Hc by (destruct (chunks_groups 1 k ltac:(lia) full) as (_ & Hg & _); [by split|exact Hg]).
  rewrite foldl_app. set (F := foldl _ 0 (chunks_exact 16 full)). assert (F ≡ₚ₅ horner r 0 (chunks_exact 16 full)) as HF by (by apply fold_horner).
  assert (0 ≤ F < P) as HP. { unfold F. clear. induction (chunks_exact 16 full) as [|m l IH] using rev_ind; [done|]. rewrite foldl_app. apply Z.mod_pos_bound. done. }
  f_equal. unfold wadd, wrap. match goal with |- (?x + _) mod _ = (?y + _) mod _ => assert (x = y mod 2 ^ 128) as ->; [|apply Zplus_mod_idemp_l] end. destruct tail as [|x t]; cbn [length is_nil Nat.ltb Nat.leb foldl].
  - rewrite (ps_reduce_rep _ _ _ Hr), <- (cong_modeq _ _ HF). by rewrite (Z.mod_small F).
  - destruct (le_value_last (x :: t) Htb ltac:(cbn [length] in *; lia)) as [Hbl Ev]. cbn [length] in Hbl, Ev. rewrite (ps_reduce_rep _ _ _ (ps_block_rep _ _ _ _ false Hr Hbl)).
    rewrite Ev. f_equal. apply cong_modeq. rewrite <- HF. apply eq_cong. cbn [Z.b2z]. lia.
Qed.

Lemma poly_updates_inv pieces : ∀ self msg, mac_inv self msg → Forall bytes_ok pieces → mac_inv (foldl poly_update self pieces) (msg ++ concat pieces).
Proof using Type.
  induction pieces as [|d pieces IH]; intros self msg Hi Hp; [by rewrite app_nil_r|]. apply Forall_cons in Hp as [Hd Hp]. cbn [foldl concat]. rewrite app_assoc. apply IH; [|done]. by apply poly_update_inv.
Qed.

Lemma poly1305_tag_correct pieces : Forall bytes_ok pieces → poly_finish (foldl poly_update (poly_new key) pieces) = rfc_poly1305 key (concat pieces).
Proof using Hkey Spec. intros Hp. apply poly_finish_tag; [by apply (poly_updates_inv pieces (poly_new key) [] poly_new_inv)|by apply Forall_concat]. Qed.
End correct.

(** * Every target *)

Inductive Target := Bits32 | Bits64 (cpu : Cpu).

(** A message fed in pieces. *)
Definition poly1305_tag (t : Target) (key : bytes) (pieces : list bytes) : bytes :=
  match t with
  | Bits32 => let _ := poly32 in poly_finish (foldl poly_update (poly_new key) pieces)
  | Bits64 cpu => let _ := poly64 cpu in poly_finish (foldl poly_update (poly_new key) pieces)
  end.

(** C34: On 32-bit and 64-bit targets, with or without AVX2 and AVX-512 IFMA, and however the
    message is cut into updates, the authenticator's tag is the one RFC 8439 defines over the
    whole message: every limb stays inside its word, and every kernel evaluates the same
    polynomial modulo [2^130 - 5]. *)
Theorem poly1305_rfc8439 t key pieces : block_ok 32 key → Forall bytes_ok pieces → poly1305_tag t key pieces = rfc_poly1305 key (concat pieces).
Proof. intros Hk Hp. destruct t as [|cpu]; [exact (poly1305_tag_correct (Spec := poly32_spec) key Hk pieces Hp)|exact (poly1305_tag_correct (Spec := poly64_spec cpu) key Hk pieces Hp)]. Qed.

(** RFC 8439, section 2.5.2. *)
Definition forum_key : bytes :=
   [0x85; 0xd6; 0xbe; 0x78; 0x57; 0x55; 0x6d; 0x33; 0x7f; 0x44; 0x52; 0xfe; 0x42; 0xd5; 0x06; 0xa8;
    0x01; 0x03; 0x80; 0x8a; 0xfb; 0x0d; 0xb2; 0xfd; 0x4a; 0xbf; 0xf6; 0xaf; 0x41; 0x49; 0xf5; 0x1b].

(** Cryptographic Forum Research Group *)
Definition forum_msg : bytes :=
   [0x43; 0x72; 0x79; 0x70; 0x74; 0x6f; 0x67; 0x72; 0x61; 0x70; 0x68; 0x69; 0x63; 0x20; 0x46; 0x6f; 0x72;
    0x75; 0x6d; 0x20; 0x52; 0x65; 0x73; 0x65; 0x61; 0x72; 0x63; 0x68; 0x20; 0x47; 0x72; 0x6f; 0x75; 0x70].

Definition forum_tag : bytes := [0xa8; 0x06; 0x1d; 0xc1; 0x30; 0x51; 0x36; 0xc6; 0xc2; 0x2b; 0x8b; 0xaf; 0x0c; 0x01; 0x27; 0xa9].

(** The vector in one update, and a long message through the IFMA kernel in two. *)
Lemma poly1305_rfc8439_witness :
  poly1305_tag Bits32 forum_key [forum_msg] = rfc_poly1305 forum_key forum_msg
  ∧ poly1305_tag Bits32 forum_key [forum_msg] = forum_tag
  ∧ poly1305_tag (Bits64 (mkCpu true true)) forum_key [forum_msg; replicate 900 0xff] = rfc_poly1305 forum_key (forum_msg ++ replicate 900 0xff).
Proof.
  assert (block_ok 32 forum_key) as Hk by (split; [done|]; apply (bool_decide_unpack _); vm_compute; exact I).
  assert (bytes_ok forum_msg) as Hm by (apply (bool_decide_unpack _); vm_compute; exact I).
  assert (bytes_ok (replicate 900 0xff)) as Hf by (apply (bool_decide_unpack _); vm_compute; exact I).
  split_and!; [exact (poly1305_rfc8439 Bits32 forum_key [forum_msg] Hk (Forall_cons_2 _ _ _ Hm (Forall_nil_2 _)))|vm_compute; reflexivity|].
  exact (poly1305_rfc8439 (Bits64 (mkCpu true true)) forum_key [forum_msg; replicate 900 0xff] Hk (Forall_cons_2 _ _ _ Hm (Forall_cons_2 _ _ _ Hf (Forall_nil_2 _)))).
Defined.
