(* ===== verification/ChaChaPoly.v ===== *)
(** ChaCha20-Poly1305 ([src/cipher/chacha20poly1305.rs]) and XChaCha20-Poly1305
    ([src/cipher/xchacha20poly1305.rs]): sealing and opening in two passes, and the AVX-512
    loop that authenticates one chunk between the rounds of another; against the AEAD of
    RFC 8439 over the specifications of [ChaChaSpec.v] and [PolyMac.v]. *)

From S2P Require Import Prelude Ct MdHash Sha2 MdFamily Hashers HashState Kdf Vec ChaCha ChaChaSpec Poly1305 PolySimd PolyMac.

(** * A keystream pass with a hook between the double rounds ([chacha20.rs]) *)

Section hooks.
Context {A : Type} (hook : nat → A → option A).

(** [hook(i)] runs before double round [i]; it may fail. *)
Definition hooked_rounds (v : list vec) (a : A) : option (list vec * A) :=
  foldl (λ o i, '(v, a) ← o; a ← hook i a; Some (vdouble_round qr_avx512 v, a)) (Some (v, a)) (seq 0 10).

Definition keystream16_hooked (key n : list Z) (ctr : Z) (a : A) : option (list vec * A) :=
  let init := vinit 16 key n ctr in
  '(v, a) ← hooked_rounds init a;
  let v := zip_with add_epi32 v init in
  Some (interleave4 (out16 (transpose_groups v) <$> seq 0 4), a).

(** The 1024 bytes [p] and the hook's state after the pass. *)
Definition xor_pass_avx512 (self : ChaCha20) (nonce : bytes) (counter : Z) (p : bytes) (a : A) : option (bytes * A) :=
  '(ks, a) ← keystream16_hooked (cc_key self) (nonce_words nonce) counter a;
  Some (xor_vecs ks p, a).
End hooks.

(** * ChaCha20-Poly1305 *)

Record ChaCha20Poly1305 := mkAead { ae_cipher : ChaCha20 }.

Inductive TagMismatch := TagMismatchErr.

Definition MAX_PLAINTEXT_LEN : Z := (2 ^ 32 - 1) * 64.

Definition aead_new (key : bytes) : ChaCha20Poly1305 := mkAead (chacha_new key).

Definition poly_key (self : ChaCha20Poly1305) (nonce : bytes) : bytes := take 32 (cc_block (ae_cipher self) nonce 0).

Section aead.
Context {S : Type} {PS : PolyState S} (isa : Isa).

(** Zero bytes up to the next multiple of 16. *)
Definition pad16 (mac : Poly1305 S) (len : nat) : Poly1305 S :=
  let rem := (len mod 16)%nat in
  if (rem =? 0)%nat then mac else poly_update mac (take (16 - rem) (replicate 16 0)).

Definition mac_with_aad (otk aad : bytes) : Poly1305 S := pad16 (poly_update (poly_new otk) aad) (length aad).

Definition finish_tag (mac : Poly1305 S) (aad_len ct_len : nat) : bytes :=
  let mac := pad16 mac ct_len in
  let lens := replicate 16 0 in
  let lens := splice lens 0 (le_bytes 8 (as_u64 (Z.of_nat aad_len))) in
  let lens := splice lens 8 (le_bytes 8 (as_u64 (Z.of_nat ct_len))) in
  poly_finish (poly_update mac lens).

(** The 128 bytes at an offset of the buffer. *)
Definition group_at (buf : bytes) (off : nat) : bytes := take 128 (drop off buf).

(** One 1 KiB pass: opening absorbs the pass's own input, sealing the output of the pass
    before it.  The buffer is read and written through one pointer. *)
Definition stitched_pass (cipher : ChaCha20) (nonce : bytes) (open : bool) (x : bytes * Stitch) (i : nat) : option (bytes * Stitch) :=
  let '(buf, s) := x in
  let p := (1024 * i)%nat in
  let ctr := wadd 32 1 (wmul 32 16 (as_u32 (Z.of_nat i))) in
  let inner dr := (1 <=? dr)%nat && (dr <? 9)%nat in
  let hook dr s :=
    if open then if inner dr then stitch_absorb s (group_at buf (p + 128 * (dr - 1))) else Some s
    else if (0 <? i)%nat && inner dr then stitch_absorb s (group_at buf (p - 1024 + 128 * (dr - 1))) else Some s in
  '(out, s) ← xor_pass_avx512 hook cipher nonce ctr (take 1024 (drop p buf)) s;
  Some (splice buf p out, s).

(** The buffer, the authenticator and the bytes covered; [None] is a broken precondition. *)
Definition stitched_avx512 (cipher : ChaCha20) (mac : Poly1305 S) (nonce buf : bytes) (open : bool) : option (bytes * Poly1305 S * nat) :=
  let n := round_down 1023 (length buf) in
  s ← ps_stitch (p_st mac);
  '(buf, s) ← foldl (λ o i, x ← o; stitched_pass cipher nonce open x i) (Some (buf, s)) (seq 0 (n / 1024));
  s ← (if open then Some s
       else foldl (λ o g, s ← o; stitch_absorb s (group_at buf (n - 1024 + 128 * g))) (Some s) (seq 0 8));
  Some (buf, mkPoly1305 (ps_unstitch (p_st mac) s) (p_pad mac) (p_buffer mac) (p_leftover mac), n).

Definition stitched (self : ChaCha20Poly1305) (mac : Poly1305 S) (nonce buf : bytes) (open : bool) : option (bytes * Poly1305 S * nat) :=
  if (length buf <? 1024)%nat || negb (stitch_ready mac) then Some (buf, mac, 0%nat)
  else stitched_avx512 (ae_cipher self) mac nonce buf open.

(** The buffer and the tag; [None] is a panic. *)
Definition encrypt (self : ChaCha20Poly1305) (nonce aad buffer : bytes) : option (bytes * bytes) :=
  if zlen buffer <=? MAX_PLAINTEXT_LEN then
    let otk := poly_key self nonce in
    let mac := mac_with_aad otk aad in
    '(buffer, mac, done) ← stitched self mac nonce buffer false;
    rest ← apply_keystream isa (ae_cipher self) nonce (wadd 32 1 (as_u32 (Z.of_nat done / 64))) (drop done buffer);
    let buffer := take done buffer ++ rest in
    let mac := poly_update mac rest in
    Some (buffer, finish_tag mac (length aad) (length buffer))
  else None.

(** The verdict and the buffer. *)
Definition decrypt (self : ChaCha20Poly1305) (nonce aad buffer tag : bytes) : option (result TagMismatch unit * bytes) :=
  if zlen buffer <=? MAX_PLAINTEXT_LEN then
    let otk := poly_key self nonce in
    let mac := mac_with_aad otk aad in
    '(buffer, mac, done) ← stitched self mac nonce buffer true;
    let mac := poly_update mac (drop done buffer) in
    let expected := finish_tag mac (length aad) (length buffer) in
    if negb (bool_from (ct_eq_slice (ct_eq_uint 8) expected tag)) then
      front ← apply_keystream isa (ae_cipher self) nonce 1 (take done buffer);
      Some (Err TagMismatchErr, front ++ drop done buffer)
    else
      rest ← apply_keystream isa (ae_cipher self) nonce (wadd 32 1 (as_u32 (Z.of_nat done / 64))) (drop done buffer);
      Some (Ok (), take done buffer ++ rest)
  else None.

(** ** XChaCha20-Poly1305 *)

Record XChaCha20Poly1305 := mkXAead { xa_key : bytes }.

Definition xaead_inner (self : XChaCha20Poly1305) (nonce : bytes) : ChaCha20Poly1305 * bytes :=
  let n16 := take 16 nonce in
  let subkey := hchacha20 (xa_key self) n16 in
  (aead_new subkey, splice (replicate 12 0) 4 (drop 16 nonce)).

Definition xaead_encrypt (self : XChaCha20Poly1305) (nonce aad buffer : bytes) : option (bytes * bytes) :=
  let '(aead, inner_nonce) := xaead_inner self nonce in encrypt aead inner_nonce aad buffer.

Definition xaead_decrypt (self : XChaCha20Poly1305) (nonce aad buffer tag : bytes) : option (result TagMismatch unit * bytes) :=
  let '(aead, inner_nonce) := xaead_inner self nonce in decrypt aead inner_nonce aad buffer tag.
End aead.

(** * RFC 8439, section 2.8 *)

Definition rfc_pad16 (x : bytes) : bytes := replicate ((16 - length x mod 16) mod 16) 0.

Definition rfc_mac_data (aad ct : bytes) : bytes :=
  aad ++ rfc_pad16 aad ++ ct ++ rfc_pad16 ct ++ le_bytes 8 (zlen aad) ++ le_bytes 8 (zlen ct).

Definition rfc_tag (key nonce aad ct : bytes) : bytes := rfc_poly1305 (take 32 (rfc_block key nonce 0)) (rfc_mac_data aad ct).

Definition rfc_cipher (key nonce text : bytes) : bytes := xor_stream (rfc_block key nonce) 1 text.

(** Messages of at most [2^32 - 1] blocks. *)
Definition rfc_seal (key nonce aad text : bytes) : option (bytes * bytes) :=
  if zlen text <=? MAX_PLAINTEXT_LEN then Some (rfc_cipher key nonce text, rfc_tag key nonce aad (rfc_cipher key nonce text)) else None.

(** A rejected ciphertext is handed back as it came. *)
Definition rfc_open (key nonce aad ct tag : bytes) : option (result TagMismatch unit * bytes) :=
  if zlen ct <=? MAX_PLAINTEXT_LEN
  then Some (if decide (tag = rfc_tag key nonce aad ct) then (Ok (), rfc_cipher key nonce ct) else (Err TagMismatchErr, ct)) else None.

(** The draft for 24-byte nonces: a key and a nonce for the same AEAD. *)
Definition draft_key (key nonce : bytes) : bytes := matrix_hchacha20 key (take 16 nonce).
Definition draft_nonce (nonce : bytes) : bytes := replicate 4 0 ++ drop 16 nonce.

(** * Hooks do not touch the keystream *)

Definition run_hooks {A} (hook : nat → A → option A) (a : A) (l : list nat) : option A := foldl (λ o i, a ← o; hook i a) (Some a) l.

Lemma run_hooks_snoc {A} (hook : nat → A → option A) a l i : run_hooks hook a (l ++ [i]) = a ← run_hooks hook a l; hook i a.
Proof. unfold run_hooks. by rewrite foldl_app. Qed.

Lemma hooked_fold {A} (hook : nat → A → option A) v a l :
  foldl (λ o i, '(v, a) ← o; a ← hook i a; Some (vdouble_round qr_avx512 v, a)) (Some (v, a)) l
  = (λ a, (Nat.iter (length l) (vdouble_round qr_avx512) v, a)) <$> run_hooks hook a l.
Proof.
  generalize (vdouble_round qr_avx512) as g. intros g. induction l as [|i l IH] using rev_ind; [done|]. rewrite foldl_app, IH, run_hooks_snoc, length_app, Nat.add_1_r. cbn [foldl].
  destruct (run_hooks hook a l) as [b|]; [|done]. cbn [fmap option_fmap option_map mbind option_bind]. by destruct (hook i b).
Qed.

Lemma xor_pass_eq {A} (hook : nat → A → option A) self nonce ctr p a :
  xor_pass_avx512 hook self nonce ctr p a = (λ a, (xor_vecs (keystream16 (cc_key self) (nonce_words nonce) ctr) p, a)) <$> run_hooks hook a (seq 0 10).
Proof. unfold xor_pass_avx512, keystream16_hooked, hooked_rounds. rewrite hooked_fold. destruct (run_hooks hook a (seq 0 10)); reflexivity. Qed.

(** The eight groups of a pass, absorbed before double rounds 1 to 8. *)
Lemma stitch_all_app s l k : stitch_all s (l ++ k) = s ← stitch_all s l; stitch_all s k.
Proof.
  unfold stitch_all. rewrite foldl_app. destruct (foldl _ _ l) as [s'|]; [done|]. cbn. induction k as [|q k IH]; [done|]. cbn [foldl mbind option_bind]. exact IH.
Qed.

Lemma run_hooks_groups (q : nat → bytes) s :
  run_hooks (λ dr s, if (1 <=? dr)%nat && (dr <? 9)%nat then stitch_absorb s (q (dr - 1)%nat) else Some s) s (seq 0 10) = stitch_all s (q <$> seq 0 8).
Proof.
  unfold run_hooks, stitch_all. cbn [seq fmap list_fmap foldl Nat.leb Nat.ltb andb Nat.sub mbind option_bind].
  match goal with |- mbind _ ?x = _ => destruct x end; done.
Qed.

Lemma run_hooks_skip {A} (a : A) l : run_hooks (λ _, Some) a l = Some a.
Proof. unfold run_hooks. induction l as [|i l IH] using rev_ind; [done|]. by rewrite foldl_app, IH. Qed.

(** * The stitched loop *)

Lemma groups_snoc p i : group p <$> seq 0 (8 * S i) = (group p <$> seq 0 (8 * i)) ++ ((λ g, group p (8 * i + g)) <$> seq 0 8).
Proof.
  replace (8 * S i)%nat with (8 * i + 8)%nat by lia. rewrite seq_app, fmap_app. f_equal. cbn [Nat.add]. rewrite <- (Nat.add_0_r (8 * i)) at 1.
  rewrite <- fmap_add_seq, <- list_fmap_compose. done.
Qed.

Section stitch_loop.
Context (self : ChaCha20) (nonce : bytes).
Context (Hkey : length (cc_key self) = 8%nat) (Hkok : Forall (in_width 32) (cc_key self)).
Context (Hnonce : length (le_words nonce) = 3%nat) (Hnok : Forall (in_width 32) (le_words nonce)).
Context (buf : bytes) (N : nat) (HN : (1024 * N ≤ length buf)%nat).

Local Abbreviation f := (ietf_block self nonce).
Local Abbreviation out := (xor_stream f 1 (take (1024 * N) buf)).

(** The buffer after [i] passes. *)
Definition after_passes (i : nat) : bytes := xor_stream f 1 (take (1024 * i) buf) ++ drop (1024 * i) buf.

Lemma f_length c : length (f c) = 64%nat.
Proof using Hkey Hnonce. by apply length_ietf_block. Qed.

Lemma prefix_stream i : (i ≤ N)%nat → xor_stream f 1 (take (1024 * i) buf) = take (1024 * i) out.
Proof using Hkey Hnonce HN.
  intros Hi. replace (1024 * N)%nat with (1024 * i + 1024 * (N - i))%nat by lia. rewrite <- take_take_drop.
  rewrite (xor_stream_app f f_length 1 _ _ (16 * i)) by (rewrite length_take; lia). rewrite take_app_length'; [done|]. rewrite length_xor_stream by apply f_length. rewrite length_take. lia.
Qed.

Lemma length_prefix i : (i ≤ N)%nat → length (xor_stream f 1 (take (1024 * i) buf)) = (1024 * i)%nat.
Proof using Hkey Hnonce HN. intros Hi. rewrite length_xor_stream by apply f_length. rewrite length_take. lia. Qed.

Lemma keystream16_feeds : feeds f (keystream16 (cc_key self) (nonce_words nonce)) 16.
Proof using Hkey Hkok Hnonce Hnok. intros c. rewrite <- blocks_feed by done. unfold nonce_words. apply keystream16_blocks; try assumption. by apply wrap_range. Qed.

(** One pass writes the next 1024 bytes. *)
Lemma pass_writes i : (i < N)%nat →
  splice (after_passes i) (1024 * i) (xor_vecs (keystream16 (cc_key self) (nonce_words nonce) (wadd 32 1 (wmul 32 16 (as_u32 (Z.of_nat i))))) (take 1024 (drop (1024 * i) (after_passes i)))) = after_passes (S i).
Proof using Hkey Hkok Hnonce Hnok HN.
  intros Hi. unfold after_passes at 1 2. pose proof (length_prefix i ltac:(lia)) as Hl. rewrite drop_app_length' by done.
  assert (wadd 32 1 (wmul 32 16 (as_u32 (Z.of_nat i))) = wrap 32 (1 + 16 * Z.of_nat i)) as ->.
  { unfold wadd, wmul, wrap. by rewrite Zmult_mod_idemp_r, Zplus_mod_idemp_r. }
  rewrite (xor_vecs_feed f f_length _ 16 _ _ keystream16_feeds) by (rewrite length_take; lia). rewrite splice_head by done.
  rewrite length_xor_stream by apply f_length. rewrite length_take, length_drop. replace (1024 `min` (length buf - 1024 * i))%nat with 1024%nat by lia.
  unfold after_passes. replace (1024 * S i)%nat with (1024 * i + 1024)%nat by lia. rewrite drop_drop, <- take_take_drop.
  rewrite (xor_stream_app f f_length 1 _ _ (16 * i)) by (rewrite length_take; lia). rewrite <- app_assoc. do 3 f_equal. f_equal. lia.
Qed.

(** The groups a pass reads. *)
Lemma open_group i g : (i < N)%nat → group_at (after_passes i) (1024 * i + 128 * g) = group buf (8 * i + g).
Proof using Hkey Hnonce HN.
  intros Hi. unfold group_at, after_passes, group. rewrite <- drop_drop, drop_app_length' by (symmetry; apply length_prefix; lia). rewrite drop_drop. do 2 f_equal. lia.
Qed.

Lemma seal_group i j g : (j < i ≤ N)%nat → (g < 8)%nat → group_at (after_passes i) (1024 * j + 128 * g) = group out (8 * j + g).
Proof using Hkey Hnonce HN.
  intros Hi Hg. unfold group_at, after_passes, group. rewrite prefix_stream by lia. pose proof (length_prefix N ltac:(lia)) as Hl.
  rewrite drop_app_le by (rewrite length_take; lia). rewrite take_app_le by (rewrite length_drop, length_take; lia).
  rewrite skipn_firstn_comm, take_take. f_equal; [lia|f_equal; lia].
Qed.

(** What has been absorbed after [i] passes. *)
Definition absorbed_groups (open : bool) (i : nat) : list bytes :=
  if open then group buf <$> seq 0 (8 * i) else group out <$> seq 0 (8 * (i - 1)).

Lemma stitched_pass_eq open i s : (i < N)%nat →
  stitched_pass self nonce open (after_passes i, s) i
  = (λ s, (after_passes (S i), s)) <$> stitch_all s (if open then (λ g, group buf (8 * i + g)) <$> seq 0 8
      else if (0 <? i)%nat then (λ g, group out (8 * (i - 1) + g)) <$> seq 0 8 else []).
Proof using Hkey Hkok Hnonce Hnok HN.
  intros Hi. unfold stitched_pass. cbv zeta. rewrite xor_pass_eq. set (h := λ (dr : nat) (s : Stitch), _). match goal with |- _ = _ <$> ?r => assert (run_hooks h s (seq 0 10) = r) as -> end.
  - subst h. destruct open; cbn [andb].
    + rewrite (run_hooks_groups (λ g, group_at (after_passes i) (1024 * i + 128 * g))). f_equal. apply list_fmap_ext. intros _ g _. by apply open_group.
    + destruct (Nat.ltb_spec 0 i) as [Hpos|Hz]; cbn [andb]; [|by rewrite run_hooks_skip].
      rewrite (run_hooks_groups (λ g, group_at (after_passes i) (1024 * i - 1024 + 128 * g))). f_equal. apply list_fmap_ext. intros k g [-> Hg]%lookup_seq.
      replace (1024 * i - 1024)%nat with (1024 * (i - 1))%nat by lia. cbn [Nat.add]. apply seal_group; lia.
  - match goal with |- context [stitch_all s ?l] => destruct (stitch_all s l) as [s'|] end; cbn [fmap option_fmap option_map mbind option_bind]; [rewrite pass_writes by exact Hi|]; reflexivity.
Qed.

Lemma passes_eq open s i : (i ≤ N)%nat →
  foldl (λ o i, x ← o; stitched_pass self nonce open x i) (Some (buf, s)) (seq 0 i) = (λ s, (after_passes i, s)) <$> stitch_all s (absorbed_groups open i).
Proof using Hkey Hkok Hnonce Hnok HN.
  induction i as [|i IH]; intros Hi.
  { cbn [seq foldl]. unfold absorbed_groups, after_passes. rewrite Nat.mul_0_r, take_0, drop_0, xor_stream_nil. by destruct open. }
  rewrite seq_S, foldl_app, IH by lia. cbn [foldl Nat.add].
  assert (absorbed_groups open (S i) = absorbed_groups open i ++ (if open then (λ g, group buf (8 * i + g)) <$> seq 0 8 else if (0 <? i)%nat then (λ g, group out (8 * (i - 1) + g)) <$> seq 0 8 else [])) as ->.
  { unfold absorbed_groups. destruct open; [by rewrite groups_snoc|]. destruct i as [|i]; [done|]. cbn [Nat.ltb Nat.leb]. replace (S (S i) - 1)%nat with (S i) by lia. replace (S i - 1)%nat with i by lia. by rewrite groups_snoc. }
  rewrite stitch_all_app. destruct (stitch_all s (absorbed_groups open i)) as [s'|]; [|done]. cbn [fmap option_fmap option_map mbind option_bind]. by apply stitched_pass_eq.
Qed.

(** The loop and, when sealing, the last pass's groups. *)
Lemma stitched_loop_eq (open : bool) (s : Stitch) : (0 < N)%nat →
  ('(buf, s) ← foldl (λ o i, x ← o; stitched_pass self nonce open x i) (Some (buf, s)) (seq 0 N);
   s ← (if open then Some s else foldl (λ o g, s ← o; stitch_absorb s (group_at buf (1024 * N - 1024 + 128 * g))) (Some s) (seq 0 8));
   Some (buf, s))
  = (λ s, (after_passes N, s)) <$> stitch_all s (group (if open then buf else out) <$> seq 0 (8 * N)).
Proof using Hkey Hkok Hnonce Hnok HN.
  intros Hpos. rewrite passes_eq by done. unfold absorbed_groups. destruct open; [by destruct (stitch_all _ _)|].
  assert (seq 0 (8 * N) = seq 0 (8 * S (N - 1))) as -> by (do 2 f_equal; lia). rewrite groups_snoc, stitch_all_app.
  destruct (stitch_all s _) as [s1|]; [|reflexivity]. cbn [fmap option_fmap option_map mbind option_bind].
  assert ((λ g, group out (8 * (N - 1) + g)) <$> seq 0 8 = (λ g, group_at (after_passes N) (1024 * N - 1024 + 128 * g)) <$> seq 0 8) as ->.
  { apply list_fmap_ext. intros k g [-> Hg]%lookup_seq. replace (1024 * N - 1024)%nat with (1024 * (N - 1))%nat by lia. cbn [Nat.add]. symmetry. apply seal_group; lia. }
  unfold stitch_all. cbn [seq fmap list_fmap foldl]. reflexivity.
Qed.
End stitch_loop.

(** * The tag *)

Section macs.
Context {S : Type} {PS : PolyState S} {Spec : PolyStateSpec S} (otk : bytes) (Hotk : block_ok 32 otk).

Lemma zeros_ok n : bytes_ok (replicate n 0).
Proof using Type. by apply Forall_replicate. Qed.

Lemma pad16_inv mac msg x : mac_inv otk mac msg → mac_inv otk (pad16 mac (length x)) (msg ++ rfc_pad16 x).
Proof using Type.
  intros Hm. unfold pad16, rfc_pad16. cbv zeta. pose proof (Nat.mod_upper_bound (length x) 16 ltac:(lia)) as Hb. destruct (Nat.eqb_spec (length x mod 16) 0) as [->|Hne].
  - cbn. by rewrite app_nil_r.
  - rewrite (Nat.mod_small (16 - _)) by lia. rewrite take_replicate, Nat.min_l by lia. apply poly_update_inv; [done|apply zeros_ok].
Qed.

Lemma mac_with_aad_inv aad : bytes_ok aad → mac_inv otk (mac_with_aad otk aad) (aad ++ rfc_pad16 aad).
Proof using Hotk. intros Ha. unfold mac_with_aad. apply pad16_inv. apply (poly_update_inv otk _ [] aad); [by apply poly_new_inv|done]. Qed.

Lemma finish_tag_eq mac aad ct : mac_inv otk mac (aad ++ rfc_pad16 aad ++ ct) → bytes_ok aad → bytes_ok ct →
  finish_tag mac (length aad) (length ct) = rfc_poly1305 otk (rfc_mac_data aad ct).
Proof using Type.
  intros Hm Ha Hc. unfold finish_tag. cbv zeta.
  assert (splice (splice (replicate 16 0) 0 (le_bytes 8 (as_u64 (Z.of_nat (length aad))))) 8 (le_bytes 8 (as_u64 (Z.of_nat (length ct)))) = le_bytes 8 (zlen aad) ++ le_bytes 8 (zlen ct)) as ->.
  { unfold le_bytes. change 64 with (8 * Z.of_nat 8). rewrite !(be_bytes_wrap 8). fold (le_bytes 8 (Z.of_nat (length aad))) (le_bytes 8 (Z.of_nat (length ct))).
    change (replicate 16 0) with ([] ++ replicate 16 0). rewrite splice_head by done. cbn [app]. rewrite splice_head by apply length_le_bytes. rewrite !length_le_bytes. rewrite !drop_replicate. cbn [Nat.sub replicate]. by rewrite app_nil_r. }
  apply poly_finish_tag.
  - replace (rfc_mac_data aad ct) with (((aad ++ rfc_pad16 aad ++ ct) ++ rfc_pad16 ct) ++ le_bytes 8 (zlen aad) ++ le_bytes 8 (zlen ct)) by (unfold rfc_mac_data; by rewrite <- !app_assoc).
    apply poly_update_inv; [by apply pad16_inv|]. apply Forall_app. split; apply le_bytes_ok.
  - unfold rfc_mac_data, rfc_pad16. rewrite !Forall_app; split_and!; try done; apply zeros_ok || apply le_bytes_ok.
Qed.
End macs.

(** * The AEAD *)

Lemma xor_stream_bytes f c buf : (∀ c, bytes_ok (f c)) → bytes_ok buf → bytes_ok (xor_stream f c buf).
Proof.
  intros Hf Hb. unfold xor_stream. apply Forall_zip_with_in; [|done|apply Forall_concat, Forall_fmap, Forall_true; intros x; apply Hf].
  intros x y Hx Hy. by apply lxor_in_width.
Qed.

Lemma tags_equal a b : bytes_ok a → bytes_ok b → bool_from (ct_eq_slice (ct_eq_uint 8) a b) = bool_decide (a = b).
Proof. intros Ha Hb. pose proof (ct_eq_uint_laws 8 ltac:(lia)). rewrite (ct_eq_slice_spec (ct_eq_uint 8) (in_width 8) a b Ha Hb). apply bool_from_choice_of. Qed.

Section correct.
Context {S : Type} {PS : PolyState S} {Spec : PolyStateSpec S} (isa : Isa).
Context (key nonce : bytes) (Hkey : array 32 key) (Hnonce : array 12 nonce).

Local Abbreviation C := (rfc_cipher key nonce).
Local Abbreviation otk := (take 32 (rfc_block key nonce 0)).

Lemma rfc_block_length c : length (rfc_block key nonce c) = 64%nat.
Proof using Hkey Hnonce. destruct Hkey, Hnonce. by apply length_rfc_block. Qed.

Lemma rfc_block_bytes c : bytes_ok (rfc_block key nonce c).
Proof using Type. apply vec_bytes_ok. Qed.

Lemma C_length x : length (C x) = length x.
Proof using Hkey Hnonce. apply length_xor_stream, rfc_block_length. Qed.

Lemma C_bytes x : bytes_ok x → bytes_ok (C x).
Proof using Type. intros Hx. by apply xor_stream_bytes; [apply rfc_block_bytes|]. Qed.

Lemma C_app m a b : length a = (64 * m)%nat → C (a ++ b) = C a ++ xor_stream (rfc_block key nonce) (1 + Z.of_nat m) b.
Proof using Hkey Hnonce. intros Ha. by apply xor_stream_app; [apply rfc_block_length|]. Qed.

Lemma otk_ok : block_ok 32 otk.
Proof using Hkey Hnonce. split; [rewrite length_take, rfc_block_length; done|apply Forall_take, rfc_block_bytes]. Qed.

Lemma poly_key_eq : poly_key (aead_new key) nonce = otk.
Proof using Hkey Hnonce.
  unfold poly_key, aead_new. cbn [ae_cipher]. f_equal. destruct Hkey, Hnonce. symmetry. rewrite <- ietf_block_rfc by done. unfold ietf_block. by rewrite wrap_small.
Qed.

Lemma keystream_eq c x : 0 ≤ c → c + div_ceil64 (length x) ≤ 2 ^ 32 → c < 2 ^ 32 → apply_keystream isa (chacha_new key) nonce c x = Some (xor_stream (rfc_block key nonce) c x).
Proof using Hkey Hnonce.
  intros H0 Hc H1. destruct Hkey, Hnonce. unfold apply_keystream, ietf_fits. rewrite (proj2 (Z.leb_le _ _)) by done. f_equal. apply xor_ctr32_rfc; done.
Qed.

(** The stitched loop does the cipher and the authentication of what it covers. *)
Lemma stitched_spec mac msg buf open : mac_inv otk mac msg → bytes_ok buf → zlen buf ≤ MAX_PLAINTEXT_LEN →
  ∃ mac' j, (1024 * j ≤ length buf)%nat ∧ stitched (aead_new key) mac nonce buf open = Some (C (take (1024 * j) buf) ++ drop (1024 * j) buf, mac', (1024 * j)%nat)
    ∧ mac_inv otk mac' (msg ++ (if open then take (1024 * j) buf else C (take (1024 * j) buf))).
Proof using Hkey Hnonce Spec.
  intros Hm Hb Hmax. unfold stitched. destruct (Nat.ltb_spec (length buf) 1024) as [Hlt|Hge]; cbn [orb].
  { exists mac, 0%nat. rewrite Nat.mul_0_r, take_0, drop_0. split_and!; [lia|done|]. destruct open; by rewrite app_nil_r. }
  destruct (stitch_ready mac) eqn:Er; cbn [negb].
  2:{ exists mac, 0%nat. rewrite Nat.mul_0_r, take_0, drop_0. split_and!; [lia|done|]. destruct open; by rewrite app_nil_r. }
  unfold stitch_ready in Er. apply andb_prop in Er as [Hlo Hst]. apply Nat.eqb_eq in Hlo. apply bool_decide_eq_true in Hst as [s Hs].
  unfold stitched_avx512. cbv zeta. change 1023 with (2 ^ 10 - 1). rewrite round_down_eq by lia. change (2 ^ Z.to_nat 10)%nat with 1024%nat. set (N := (length buf / 1024)%nat).
  assert (1024 * N ≤ length buf ∧ 0 < N)%nat as [HN Hpos].
  { unfold N. pose proof (Nat.div_mod_eq (length buf) 1024). pose proof (Nat.mod_upper_bound (length buf) 1024). lia. }
  replace (1024 * N / 1024)%nat with N by (rewrite Nat.mul_comm; symmetry; by apply Nat.div_mul). rewrite Hs. cbn [mbind option_bind].
  destruct Hkey as [Hkl Hkb], Hnonce as [Hnl Hnb]. destruct (le_words_ok 8 key Hkl Hkb) as [Hk Hk2]. destruct (le_words_ok 3 nonce Hnl Hnb) as [Hw Hw2].
  pose proof (stitched_loop_eq (chacha_new key) nonce Hk Hk2 Hw Hw2 buf N HN open s Hpos) as Hloop. cbn [ae_cipher aead_new].
  assert (xor_stream (ietf_block (chacha_new key) nonce) 1 (take (1024 * N) buf) = C (take (1024 * N) buf)) as EC.
  { apply xor_stream_ext. intros i Hi. apply ietf_block_rfc; try done. unfold zlen, MAX_PLAINTEXT_LEN in Hmax. rewrite length_take in Hi. unfold in_width, div_ceil64 in *. Z.div_mod_to_equations. lia. }
  unfold after_passes in Hloop. rewrite EC in Hloop. set (p := if open then take (1024 * N) buf else C (take (1024 * N) buf)).
  assert (block_ok (128 * (8 * N)) p) as Hp.
  { assert (bytes_ok (take (1024 * N) buf)) by (by apply Forall_take). split; unfold p; destruct open; rewrite ?C_length, ?length_take by done; try lia; try done. by apply C_bytes. }
  assert (group (if open then buf else C (take (1024 * N) buf)) <$> seq 0 (8 * N) = group p <$> seq 0 (8 * N)) as Eg.
  { unfold p. destruct open; [|done]. apply list_fmap_ext. intros k g [-> Hg]%lookup_seq. unfold group. rewrite skipn_firstn_comm, take_take. f_equal. lia. }
  rewrite Eg in Hloop. destruct (groups_of p (8 * N) Hp) as [Ec Hg].
  destruct Hm as (k & full & tail & -> & Hf & Hl & Htl & Htb & Hbuf & Hbl & Hpad & Hr). rewrite Hlo in Hl. destruct tail; [|discriminate Hl]. rewrite app_nil_r.
  destruct (ps_stitch_rep _ _ _ s (group p <$> seq 0 (8 * N)) Hr Hs) as (s' & Es & Hrep).
  { apply Forall_fmap, Forall_seq. intros g Hgi. apply Hg. lia. }
  rewrite Es in Hloop. cbn [fmap option_fmap option_map] in Hloop. exists (mkPoly1305 (ps_unstitch (p_st mac) s') (p_pad mac) (p_buffer mac) (p_leftover mac)), N. split_and!; [done| |].
  - destruct (foldl _ _ (seq 0 N)) as [[b s1]|]; [|discriminate]. cbn [mbind option_bind] in Hloop |- *.
    match type of Hloop with context [mbind _ ?x] => destruct x as [s2|] end; [|discriminate]. cbn [mbind option_bind] in Hloop |- *.
    injection Hloop as Eb Es2. rewrite Eb, Es2. reflexivity.
  - fold p. exists (k + 8 * (8 * N))%nat, (full ++ p), []. rewrite app_nil_r, length_app, (proj1 Hp). cbn [p_leftover p_buffer p_pad p_st length].
    split_and!; [reflexivity|lia|exact Hlo|lia|apply Forall_nil_2|reflexivity|exact Hbl|exact Hpad|]. rewrite (chunks_exact_app 16 ltac:(lia) k) by lia. rewrite horner_app, Ec. exact Hrep.
Qed.

(** ** Sealing and opening *)

Lemma resume_eq j x : zlen x ≤ MAX_PLAINTEXT_LEN → (1024 * j ≤ length x)%nat →
  apply_keystream isa (chacha_new key) nonce (wadd 32 1 (as_u32 (Z.of_nat (1024 * j) / 64))) (drop (1024 * j) x) = Some (xor_stream (rfc_block key nonce) (1 + Z.of_nat (16 * j)) (drop (1024 * j) x)).
Proof using Hkey Hnonce.
  intros Hmax Hj. unfold zlen, MAX_PLAINTEXT_LEN in Hmax. assert (Z.of_nat (1024 * j) / 64 = Z.of_nat (16 * j)) as -> by (Z.div_mod_to_equations; lia).
  rewrite (wrap_small 32 (Z.of_nat _)) by (unfold in_width; lia). unfold wadd. rewrite wrap_small by (unfold in_width; lia).
  apply keystream_eq; [lia| |lia]. rewrite length_drop. unfold div_ceil64. Z.div_mod_to_equations. lia.
Qed.

Lemma C_split j x : (1024 * j ≤ length x)%nat → C x = C (take (1024 * j) x) ++ xor_stream (rfc_block key nonce) (1 + Z.of_nat (16 * j)) (drop (1024 * j) x).
Proof using Hkey Hnonce. intros Hj. rewrite <- (take_drop (1024 * j) x) at 1. apply C_app. rewrite length_take. lia. Qed.

Lemma rfc_tag_bytes aad ct : bytes_ok (rfc_tag key nonce aad ct).
Proof using Type. apply le_bytes_ok. Qed.

Lemma encrypt_spec aad buf : bytes_ok aad → bytes_ok buf → zlen buf ≤ MAX_PLAINTEXT_LEN →
  encrypt isa (aead_new key) nonce aad buf = Some (C buf, rfc_tag key nonce aad (C buf)).
Proof using Hkey Hnonce Spec.
  intros Ha Hb Hmax. unfold encrypt. rewrite (proj2 (Z.leb_le _ _)) by done. cbv zeta. rewrite poly_key_eq.
  destruct (stitched_spec _ _ buf false (mac_with_aad_inv otk otk_ok aad Ha) Hb Hmax) as (mac & j & Hj & -> & Hm). cbn [mbind option_bind].
  assert (length (C (take (1024 * j) buf)) = (1024 * j)%nat) as Hl by (rewrite C_length, length_take; lia).
  rewrite drop_app_length', take_app_length' by done. cbn [ae_cipher aead_new]. rewrite resume_eq by done. cbn [mbind option_bind]. rewrite <- C_split by done. f_equal. f_equal.
  unfold rfc_tag. apply finish_tag_eq; [|done|by apply C_bytes]. rewrite (C_split j buf Hj), !app_assoc. apply poly_update_inv; [done|].
  apply xor_stream_bytes; [apply rfc_block_bytes|by apply Forall_drop].
Qed.

Lemma decrypt_spec aad buf tag : bytes_ok aad → bytes_ok buf → bytes_ok tag → zlen buf ≤ MAX_PLAINTEXT_LEN →
  decrypt isa (aead_new key) nonce aad buf tag = Some (if decide (tag = rfc_tag key nonce aad buf) then (Ok (), C buf) else (Err TagMismatchErr, buf)).
Proof using Hkey Hnonce Spec.
  intros Ha Hb Ht Hmax. unfold decrypt. rewrite (proj2 (Z.leb_le _ _)) by done. cbv zeta. rewrite poly_key_eq.
  destruct (stitched_spec _ _ buf true (mac_with_aad_inv otk otk_ok aad Ha) Hb Hmax) as (mac & j & Hj & -> & Hm). cbn [mbind option_bind].
  assert (length (C (take (1024 * j) buf)) = (1024 * j)%nat) as Hl by (rewrite C_length, length_take; lia).
  rewrite !drop_app_length', !take_app_length' by done. cbn [ae_cipher aead_new].
  assert (finish_tag (poly_update mac (drop (1024 * j) buf)) (length aad) (length (C (take (1024 * j) buf) ++ drop (1024 * j) buf)) = rfc_tag key nonce aad buf) as ->.
  { replace (length (C (take (1024 * j) buf) ++ drop (1024 * j) buf)) with (length buf) by (rewrite length_app, Hl, length_drop; lia).
    apply finish_tag_eq; [|done|done]. rewrite <- (take_drop (1024 * j) buf) at 2. rewrite !app_assoc. apply poly_update_inv; [done|by apply Forall_drop]. }
  pose proof (rfc_tag_bytes aad buf) as Hx. set (expected := rfc_tag key nonce aad buf) in *. clearbody expected. rewrite (tags_equal _ _ Hx Ht).
  destruct (decide (tag = expected)) as [->|Hne].
  - rewrite bool_decide_eq_true_2 by reflexivity. cbn [negb]. rewrite resume_eq by done. cbn [mbind option_bind]. by rewrite <- C_split.
  - rewrite bool_decide_eq_false_2 by congruence. cbn [negb]. rewrite keystream_eq; [|lia| |lia].
    + cbn [mbind option_bind]. fold (C (C (take (1024 * j) buf))). unfold rfc_cipher. rewrite xor_stream_involutive by apply rfc_block_length. by rewrite take_drop.
    + rewrite Hl. unfold zlen, MAX_PLAINTEXT_LEN in Hmax. unfold div_ceil64. Z.div_mod_to_equations. lia.
Qed.
End correct.

(** * Every target *)

Definition aead_seal (t : Target) (isa : Isa) (key nonce aad buffer : bytes) : option (bytes * bytes) :=
  match t with
  | Bits32 => encrypt (PS := poly32) isa (aead_new key) nonce aad buffer
  | Bits64 cpu => encrypt (PS := poly64 cpu) isa (aead_new key) nonce aad buffer
  end.

Definition aead_unseal (t : Target) (isa : Isa) (key nonce aad buffer tag : bytes) : option (result TagMismatch unit * bytes) :=
  match t with
  | Bits32 => decrypt (PS := poly32) isa (aead_new key) nonce aad buffer tag
  | Bits64 cpu => decrypt (PS := poly64 cpu) isa (aead_new key) nonce aad buffer tag
  end.

Definition xaead_seal (t : Target) (isa : Isa) (key nonce aad buffer : bytes) : option (bytes * bytes) :=
  match t with
  | Bits32 => xaead_encrypt (PS := poly32) isa (mkXAead key) nonce aad buffer
  | Bits64 cpu => xaead_encrypt (PS := poly64 cpu) isa (mkXAead key) nonce aad buffer
  end.

Definition xaead_unseal (t : Target) (isa : Isa) (key nonce aad buffer tag : bytes) : option (result TagMismatch unit * bytes) :=
  match t with
  | Bits32 => xaead_decrypt (PS := poly32) isa (mkXAead key) nonce aad buffer tag
  | Bits64 cpu => xaead_decrypt (PS := poly64 cpu) isa (mkXAead key) nonce aad buffer tag
  end.

Lemma seal_eq t isa key nonce aad buf : array 32 key → array 12 nonce → bytes_ok aad → bytes_ok buf → aead_seal t isa key nonce aad buf = rfc_seal key nonce aad buf.
Proof.
  intros Hk Hn Ha Hb. unfold rfc_seal. destruct (Z.leb_spec (zlen buf) MAX_PLAINTEXT_LEN) as [Hm|Hm].
  - destruct t as [|cpu]; [exact (encrypt_spec (Spec := poly32_spec) isa key nonce Hk Hn aad buf Ha Hb Hm)|exact (encrypt_spec (Spec := poly64_spec cpu) isa key nonce Hk Hn aad buf Ha Hb Hm)].
  - destruct t; unfold aead_seal, encrypt; by rewrite (proj2 (Z.leb_gt _ _)).
Qed.

Lemma unseal_eq t isa key nonce aad buf tag : array 32 key → array 12 nonce → bytes_ok aad → bytes_ok buf → bytes_ok tag →
  aead_unseal t isa key nonce aad buf tag = rfc_open key nonce aad buf tag.
Proof.
  intros Hk Hn Ha Hb Ht. unfold rfc_open. destruct (Z.leb_spec (zlen buf) MAX_PLAINTEXT_LEN) as [Hm|Hm].
  - destruct t as [|cpu]; [exact (decrypt_spec (Spec := poly32_spec) isa key nonce Hk Hn aad buf tag Ha Hb Ht Hm)|exact (decrypt_spec (Spec := poly64_spec cpu) isa key nonce Hk Hn aad buf tag Ha Hb Ht Hm)].
  - destruct t; unfold aead_unseal, decrypt; by rewrite (proj2 (Z.leb_gt _ _)).
Qed.

(** The inner instance of a 24-byte nonce. *)
Lemma xaead_inner_eq key nonce : array 32 key → array 24 nonce →
  xaead_inner (mkXAead key) nonce = (aead_new (draft_key key nonce), draft_nonce nonce) ∧ array 32 (draft_key key nonce) ∧ array 12 (draft_nonce nonce).
Proof.
  intros [Hk Hkb] [Hn Hnb]. destruct (hchacha20_key key (take 16 nonce)) as (E & Hl & Hb); [done|done|rewrite length_take; lia|by apply Forall_take|].
  unfold xaead_inner, draft_key, draft_nonce. cbn [xa_key]. rewrite E. split_and!; [|by split|].
  - change (replicate 12 0) with (replicate 4 0 ++ replicate 8 0). rewrite splice_head by done. rewrite (drop_ge (replicate 8 0)) by (rewrite length_drop, length_replicate; lia).
    by rewrite app_nil_r.
  - split; [rewrite length_app, length_drop, length_replicate; lia|]. apply Forall_app. split; [apply zeros_ok|by apply Forall_drop].
Qed.

Lemma rfc_roundtrip key nonce aad text ct tag : array 32 key → array 12 nonce → rfc_seal key nonce aad text = Some (ct, tag) → rfc_open key nonce aad ct tag = Some (Ok (), text).
Proof.
  intros [Hk Hkb] [Hn Hnb]. assert (∀ c, length (rfc_block key nonce c) = 64%nat) as Hl by (intros; by apply length_rfc_block).
  unfold rfc_seal, rfc_open. destruct (zlen text <=? MAX_PLAINTEXT_LEN) eqn:Hm; [|discriminate]. intros E. apply (inj Some), pair_eq in E as [<- <-].
  assert (zlen (rfc_cipher key nonce text) = zlen text) as -> by (unfold zlen, rfc_cipher; by rewrite length_xor_stream by exact Hl).
  rewrite Hm, decide_True by reflexivity. unfold rfc_cipher. by rewrite xor_stream_involutive by exact Hl.
Qed.

Lemma rfc_seal_bytes key nonce aad text ct tag : rfc_seal key nonce aad text = Some (ct, tag) → bytes_ok text → bytes_ok ct ∧ bytes_ok tag.
Proof.
  unfold rfc_seal. destruct (_ <=? _); [|discriminate]. intros E Ht. apply (inj Some), pair_eq in E as [<- <-].
  split; [apply xor_stream_bytes; [intros; apply vec_bytes_ok|exact Ht]|apply le_bytes_ok].
Qed.

(** C33: ChaCha20-Poly1305 and XChaCha20-Poly1305 on every target and instruction set, the
    stitched AVX-512 loop included, aead_seal and open as RFC 8439 and the XChaCha draft define:
    they panic exactly above the length limit; opening accepts exactly the tag of the
    ciphertext and decrypts, and a rejected ciphertext is handed back unchanged; and
    whatever one target seals every other opens. *)
Theorem chacha20_poly1305_aead t isa key nonce n24 aad text tag :
  array 32 key → array 12 nonce → array 24 n24 → bytes_ok aad → bytes_ok text → array 16 tag →
  let sub := draft_key key n24 in
  let n12 := draft_nonce n24 in
  aead_seal t isa key nonce aad text = rfc_seal key nonce aad text
  ∧ aead_unseal t isa key nonce aad text tag = rfc_open key nonce aad text tag
  ∧ xaead_seal t isa key n24 aad text = rfc_seal sub n12 aad text
  ∧ xaead_unseal t isa key n24 aad text tag = rfc_open sub n12 aad text tag
  ∧ (∀ t' isa' ct tg, aead_seal t isa key nonce aad text = Some (ct, tg) → aead_unseal t' isa' key nonce aad ct tg = Some (Ok (), text))
  ∧ (∀ t' isa' ct tg, xaead_seal t isa key n24 aad text = Some (ct, tg) → xaead_unseal t' isa' key n24 aad ct tg = Some (Ok (), text)).
Proof.
  intros Hk Hn H24 Ha Ht Htag sub n12. destruct (xaead_inner_eq key n24 Hk H24) as (Ei & Hsk & Hsn). fold sub n12 in Ei, Hsk, Hsn.
  assert (∀ t isa b, xaead_seal t isa key n24 aad b = aead_seal t isa sub n12 aad b) as Hxs by (intros []; intros; unfold xaead_seal, aead_seal, xaead_encrypt; by rewrite Ei).
  assert (∀ t isa b g, xaead_unseal t isa key n24 aad b g = aead_unseal t isa sub n12 aad b g) as Hxu by (intros []; intros; unfold xaead_unseal, aead_unseal, xaead_decrypt; by rewrite Ei).
  assert (∀ k n t' isa' ct tg, array 32 k → array 12 n → rfc_seal k n aad text = Some (ct, tg) → aead_unseal t' isa' k n aad ct tg = Some (Ok (), text)) as Hrt.
  { intros k n t' isa' ct tg Hk' Hn' E. destruct (rfc_seal_bytes k n aad text ct tg E Ht) as [Hc Hg].
    rewrite (unseal_eq t' isa' k n aad ct tg Hk' Hn' Ha Hc Hg). exact (rfc_roundtrip k n aad text ct tg Hk' Hn' E). }
  pose proof (proj2 Htag) as Hgb. split_and!.
  - exact (seal_eq t isa key nonce aad text Hk Hn Ha Ht).
  - exact (unseal_eq t isa key nonce aad text tag Hk Hn Ha Ht Hgb).
  - rewrite Hxs. exact (seal_eq t isa sub n12 aad text Hsk Hsn Ha Ht).
  - rewrite Hxu. exact (unseal_eq t isa sub n12 aad text tag Hsk Hsn Ha Ht Hgb).
  - intros t' isa' ct tg E. rewrite (seal_eq t isa key nonce aad text Hk Hn Ha Ht) in E. exact (Hrt key nonce t' isa' ct tg Hk Hn E).
  - intros t' isa' ct tg E. rewrite Hxs, (seal_eq t isa sub n12 aad text Hsk Hsn Ha Ht) in E. rewrite Hxu. exact (Hrt sub n12 t' isa' ct tg Hsk Hsn E).
Qed.

(** * Known answers *)

(** RFC 8439, section 2.8.2; the plaintext is that of section 2.4.2. *)
Definition aead_kat_key : bytes := Z.of_nat <$> seq 0x80 32.
Definition aead_kat_nonce : bytes := [0x07; 0; 0; 0; 0x40; 0x41; 0x42; 0x43; 0x44; 0x45; 0x46; 0x47].
Definition aead_kat_aad : bytes := [0x50; 0x51; 0x52; 0x53; 0xc0; 0xc1; 0xc2; 0xc3; 0xc4; 0xc5; 0xc6; 0xc7].
Definition aead_kat_ct : bytes :=
   [0xd3; 0x1a; 0x8d; 0x34; 0x64; 0x8e; 0x60; 0xdb; 0x7b; 0x86; 0xaf; 0xbc; 0x53; 0xef; 0x7e; 0xc2; 0xa4; 0xad;
    0xed; 0x51; 0x29; 0x6e; 0x08; 0xfe; 0xa9; 0xe2; 0xb5; 0xa7; 0x36; 0xee; 0x62; 0xd6; 0x3d; 0xbe; 0xa4; 0x5e;
    0x8c; 0xa9; 0x67; 0x12; 0x82; 0xfa; 0xfb; 0x69; 0xda; 0x92; 0x72; 0x8b; 0x1a; 0x71; 0xde; 0x0a; 0x9e; 0x06;
    0x0b; 0x29; 0x05; 0xd6; 0xa5; 0xb6; 0x7e; 0xcd; 0x3b; 0x36; 0x92; 0xdd; 0xbd; 0x7f; 0x2d; 0x77; 0x8b; 0x8c;
    0x98; 0x03; 0xae; 0xe3; 0x28; 0x09; 0x1b; 0x58; 0xfa; 0xb3; 0x24; 0xe4; 0xfa; 0xd6; 0x75; 0x94; 0x55; 0x85;
    0x80; 0x8b; 0x48; 0x31; 0xd7; 0xbc; 0x3f; 0xf4; 0xde; 0xf0; 0x8e; 0x4b; 0x7a; 0x9d; 0xe5; 0x76; 0xd2; 0x65;
    0x86; 0xce; 0xc6; 0x4b; 0x61; 0x16].
Definition aead_kat_tag : bytes :=
   [0x1a; 0xe1; 0x0b; 0x59; 0x4f; 0x09; 0xe2; 0x6a; 0x7e; 0x90; 0x2e; 0xcb; 0xd0; 0x60; 0x06; 0x91].

(** The vector, and a flipped tag. *)
Lemma chacha20_poly1305_aead_witness :
  let full := Bits64 (mkCpu true true) in
  (aead_unseal Bits32 Portable aead_kat_key aead_kat_nonce aead_kat_aad aead_kat_ct aead_kat_tag = Some (Ok (), sunscreen))
  ∧ aead_seal full Avx512 aead_kat_key aead_kat_nonce aead_kat_aad sunscreen = Some (aead_kat_ct, aead_kat_tag)
  ∧ aead_unseal full Avx512 aead_kat_key aead_kat_nonce aead_kat_aad aead_kat_ct (replicate 16 0) = Some (Err TagMismatchErr, aead_kat_ct).
Proof.
  intros full. assert (aead_seal full Avx512 aead_kat_key aead_kat_nonce aead_kat_aad sunscreen = Some (aead_kat_ct, aead_kat_tag)) as E by (vm_compute; reflexivity).
  split_and!; [|exact E|vm_compute; reflexivity].
  refine (proj1 (proj2 (proj2 (proj2 (proj2 (chacha20_poly1305_aead full Avx512 aead_kat_key aead_kat_nonce (Z.of_nat <$> seq 0 24) aead_kat_aad sunscreen aead_kat_tag _ _ _ _ _ _))))) Bits32 Portable aead_kat_ct aead_kat_tag E).
  all: apply (bool_decide_unpack _); vm_compute; exact I.
Defined.

(** The stitched loop against the portable path. *)
Example stitched_seal : aead_seal (Bits64 (mkCpu true true)) Avx512 aead_kat_key aead_kat_nonce aead_kat_aad (replicate 2100 7) = aead_seal Bits32 Portable aead_kat_key aead_kat_nonce aead_kat_aad (replicate 2100 7).
Proof. vm_compute. reflexivity. Qed.
